(* ===== verification/_CoqProject ===== *)
-Q . S2P
Prelude.v
SegStorage.v
Pool.v
PoolSession.v
ObjectPool.v
PoolResource.v
LexicalCast.v
JsonValue.v
JsonAccess.v
JsonParser.v
JsonSerial.v
TlsfBits.v
TlsfOps.v
TlsfLists.v
TlsfHeap.v
TlsfRealloc.v
TlsfSession.v
TlsfResource.v
Ring.v
IntrusiveList.v
List.v
SharedPtr.v
RefCount.v
Getopt.v
Dynarray.v
FlatBuffer.v
StringUtils.v
Lifetime.v
Optional.v
Expected.v
Variant.v
Any.v
Function.v
WaitQueue.v
FutexMutex.v
FutexCond.v
AtomicWait.v
Future.v
Locks.v
Monotonic.v
Buffers.v
PointerCount.v
IntrusivePtr.v
UniquePtr.v
OffsetPtr.v
CompressedPtr.v
UniqueHandle.v
ScopeGuard.v
ExceptionInfo.v
Span.v
SpanBuf.v
SyncBuf.v
Time.v
Process.v
Service.v
PidFile.v
LockFile.v
Mqtt.v
