(* ===== verification/Prelude.v ===== *)
(** * A verification of gpcl, a general purpose C++ library

    ** The program

    gpcl (src/include/gpcl) is a header library of allocators, containers, smart pointers,
    vocabulary types, a JSON value with parser and serialiser, a command line parser and
    synchronisation primitives.  The parts that are modelled, and how they use each other:
    - [pool] (pool.hpp) hands out chunks of blocks which it obtains from an upstream
      allocator and cuts up with [simple_segregated_storage]; [object_pool] keeps the objects
      in such chunks on a list, [synchronised_pool_resource] a pool for each of several
      sizes; TLSF (detail/impl/tlsf.ipp) is an allocator of its own over memory pools given
      to it, [tlsf_resource] requests such pools from an upstream resource;
    - [intrusive_list] and [list] keep rings of nodes, [dynarray] and [flat_buffer]
      contiguous storage from an allocator;
    - [shared_ptr] and [weak_ptr] share the counts of [ref_count_base], which several threads
      may change at the same time; [futex_mutex] is a lock on Linux, [unique_lock] and [lock]
      work on any mutex, and [promise] and [future] meet in a state guarded by one; the
      condition variable and [wait] of atomic objects sleep on futex words;
    - [intrusive_ptr] counts references in the object itself, [unique_ptr] is a single owner
      with a deleter, [offset_ptr] stores a distance so that its memory can be moved;
    - [optional], [expected] and [variant] manage the lifetime of a value in raw storage;
      [basic_any] does so for a value of any type, in its own buffer or on the heap, and
      [function] keeps its target in one;
    - [unique_handle], [scoped_array] and the scope guards release what they hold when they
      are destroyed; [span] views memory, and [basic_spanbuf] is a stream buffer on one;
      [basic_syncbuf] collects what a thread writes to a stream buffer that others use too;
    - buffers and sequences of them describe memory for input and output; exceptions carry
      lists of information; [posix_process] owns a child process,
      the MQTT [client] a connection of libmosquitto; [posix_service] makes a daemon and tells
      its starter how that went; [posix_lock_file] is a lock among processes;
    - [duration], [instant] and [system_time] compute with seconds and nanoseconds;
    - the JSON value uses [variant] and shared, copy on write containers; the parser drives
      a visitor, the value builder is one; the serialiser is a visitor of values;
    - [getopt] reads a command line, with the [lexical_cast] of option arguments left to the
      program; [split] cuts strings with flags from [basic_flags].

    ** How C++ is modelled

    A member function is a function in the state and error monad of this file: it returns
    a value, throws ([Throw]), aborts (a failed [GPCL_ASSERT], [GPCL_UNREACHABLE]), or has
    undefined behaviour ([Undef]: a dead object is read or destroyed, memory is accessed
    that was not allocated).  Exception handlers are [try_catch].  Integers of the machine
    are [Z] with the wrap-around written out where the code can reach it.  Loops whose end
    is not structural take fuel; [NoFuel] is an outcome of its own, and the theorems about
    such loops say that the fuel given by the function itself suffices (the length of the
    list or of the text, the number of blocks), so that they state termination.  Where the
    code does not terminate, a lemma says so for every amount of fuel.

    Code that is not part of the repository is a class with its laws: the upstream allocator
    ([Pool.v], [PoolResource.v], [TlsfResource.v], [FlatBuffer.v], [Monotonic.v]), the wait queues
    of the operating system ([WaitQueue.v]), its calls ([Process.v]), libmosquitto ([Mqtt.v]),
    the other threads ([Locks.v]), the reference counted types of a program
    ([IntrusivePtr.v]), the allocator and the constructors of the elements of a list ([List.v]); an
    element type that throws elsewhere is a budget of constructions that succeed ([Dynarray.v],
    [Lifetime.v]).
    Each class has an instance, used by the witnesses.

    ** The files

    - [Prelude]: outcomes, the monad, notations, tactics, hints and shared lemmas.
    - [SegStorage] (simple_segregated_storage.hpp): chunks linked through their first word.
    - [Pool], [PoolSession] (pool.hpp): blocks linked through their last words, free list, live
      chunks, functional specifications; whole sessions of a client, whose pieces never overlap and
      keep their contents.
    - [TlsfBits], [TlsfOps], [TlsfLists] (detail/impl/tlsf.ipp): bit scans and size classes;
      all operations on block headers in memory; the segregated free lists with their
      bitmaps, their invariant, and that a block found is big enough.
    - [TlsfHeap], [TlsfRealloc], [TlsfSession] (the same file): the blocks of the pools as a
      map, their layout and headers, kept by splitting, merging and marking; [tlsf_malloc],
      [tlsf_memalign], [tlsf_free], [tlsf_realloc], [tlsf_add_pool] on it; whole sessions of a
      client, whose pieces never overlap and keep their contents, and the integrity checks.
    - [TlsfResource] (pmr/tlsf_resource.hpp, pmr/impl/tlsf_resource.ipp): the memory resource on
      top of it, which requests ever larger buffers from an upstream resource ([Resource]) and
      gives them back in its destructor.
    - [ObjectPool] (object_pool.hpp): the list of the objects in the chunks of a pool; what is
      constructed is destroyed once.
    - [PoolResource] (pmr/synchronised_pool_resource.hpp, pmr/detail/resource_pool.hpp): several
      pools on one memory; what a client holds never overlaps.
    - [LexicalCast] (lexical_cast.hpp, narrow_cast.hpp): numbers and text, round trip.
    - [JsonValue], [JsonAccess], [JsonParser], [JsonSerial] (json.hpp): the value with copy on
      write, type invariant and exception safety (memory does not run out); construction,
      assignment and iteration; the push parser as a state machine, totality
      and termination; the serialiser, equal to a reference printer, and the round trip.
    - [Ring], [IntrusiveList], [List] (intrusive_list.hpp, list.hpp): doubly linked rings in
      a node memory; each operation on the abstract sequence; sort; exception guarantees.
    - [SharedPtr] (shared_ptr.hpp, weak_ptr.hpp, detail/ref_count*.hpp): ownership as an
      invariant of every program that uses the member functions.
    - [RefCount] (detail/ref_count_base.hpp): the same counts under interleaved atomic steps.
    - [Getopt] (impl/getopt.ipp): the command line state machine, round trip, help text.
    - [Dynarray] (dynarray.hpp): reallocation and its exception guarantees.
    - [FlatBuffer] (flat_buffer.hpp): refinement of a byte queue.
    - [StringUtils] (flags.hpp, string_utils.hpp): splitting, and the equivalence of its two
      implementations.
    - [Lifetime], [Optional], [Expected], [Variant] (optional.hpp, detail/optional.hpp,
      expected.hpp, detail/expected.hpp, impl/expected.hpp, variant.hpp): raw storage with
      living objects, and the refinement of [option], of a sum type and of a tagged value.
    - [Any], [Function] (basic_any.hpp, detail/any_manager.hpp, any_cast.hpp, function.hpp):
      refinement of optional values wherever they are stored, and of functions.
    - [WaitQueue]: what the operating system promises about sleeping threads.
    - [FutexMutex] (detail/impl/futex_mutex.ipp): mutual exclusion and no lost wake-ups.
    - [FutexCond], [AtomicWait] (detail/impl/futex_condition_variable.ipp,
      detail/futex_atomic_wait.hpp): which notifications reach the sleeping threads.
    - [Future] (future.hpp, event.hpp): promise and future under interleaving; a single get
      returns the value that was set, and is woken up.
    - [Locks] (unique_lock.hpp, lock.hpp, scoped_lock.hpp): locking several mutexes among
      other threads, without deadlock.
    - [Monotonic] (pmr/impl/monotonic_buffer_resource.ipp, const_buffer.hpp): pieces handed
      out never overlap, all blocks are given back.
    - [Buffers] (buffer.hpp and others): the ways to read a sequence of buffers agree.
    - [PointerCount], [IntrusivePtr], [UniquePtr] (intrusive_ptr.hpp, unique_ptr.hpp): every
      program keeps counts and owners right; reference counted types are a class.
    - [OffsetPtr] (offset_ptr.hpp, impl/offset_ptr.hpp): refinement of ordinary pointers.
    - [CompressedPtr] (detail/compressed_pointer.hpp): a pointer and flags in one word.
    - [UniqueHandle] (detail/unique_handle.hpp, scoped_array.hpp): every handle is closed once;
      the traits are a class.
    - [ScopeGuard] (scope_exit.hpp, scope_fail.hpp, scope_success.hpp): programs with
      exceptions, and the equivalence with a semantics that looks at how scopes are left.
    - [ExceptionInfo] (exception.hpp, error_info.hpp): lists that run through the exception
      objects, under copies, moves and destruction.
    - [Span], [SpanBuf] (span.hpp, basic_spanbuf.hpp): parts of views stay inside them, stream
      positions too.
    - [SyncBuf] (basic_syncbuf.hpp): what several threads emit arrives call by call and in order,
      also when the wrapped stream buffer refuses characters or throws.
    - [Process] (detail/posix_process.hpp): what start does in parent and child; every child
      has one owner, no descriptor leaks.
    - [Service], [PidFile] (detail/impl/posix_service.ipp, detail/impl/posix_pid_file.ipp): the
      start of a daemon as programs of system calls in three processes; the starting process
      learns what became of the daemon.  The number of the daemon is read back from its file.
    - [LockFile] (detail/impl/posix_lock_file.ipp): objects of several processes that lock one
      file, with system calls that fail and processes that die.
    - [Mqtt] (ext/mqtt.hpp, ext/impl/mqtt.ipp): clients, their connections and callbacks, and
      the initialisation of the library.
    - [Time] (time.hpp): durations as numbers of nanoseconds, with the overflows.

    Where the code does not do what it means to, the theorems carry the condition under
    which it does, and a lemma or an example next to them shows what happens otherwise (for
    example [optional_swap_undef], [seg_free_n_loses_a_chunk], [getopt_unknown_long_loops]).

    ** Not modelled, and what is planned

    Weak memory orders (the concurrent models are sequentially consistent).  Allocators that
    differ between containers or propagate.  Planned next: [clone_ptr], and
    the signal handler of services.  Left out: wrappers of operating system calls
    (files, shared memory, stack traces, threads), of third-party libraries (sqlite),
    the Windows variants of files that are modelled for Linux, and compile-time code
    without run-time behaviour (meta.hpp, type traits, configuration). *)

From stdpp Require Export prelude.
From stdpp Require Export gmap strings list fin_maps sorting.
From Stdlib Require Export ZArith Lia.


Declare Scope gpcl_scope.
Delimit Scope gpcl_scope with gpcl.

(** ** Outcomes of a C++ call *)

(** [json_errc] (json_error.hpp). *)
Inductive json_errc : Type :=
| bad_json_cast
| type_mismatch
| operation_not_supported
| json_out_of_range
| failed_to_parse.

(** The exceptions the modelled code throws. *)
Inductive exn : Type :=
| length_error
| out_of_range
| bad_alloc
| bad_weak_ptr
| bad_lexical_cast
| bad_narrow_cast
| bad_variant_access
| bad_optional_access
| bad_expected_access
| bad_any_cast
| bad_function_call
| bad_array_new_length
| overflow_error
| json_error (code : json_errc)
| system_error (code : Z)
| runtime_error.

(** A call returns a value, throws, aborts the process (a failed [GPCL_ASSERT]
    or [GPCL_VERIFY], a reached [GPCL_UNREACHABLE]), has undefined behaviour
    (dereference of a null or unmapped pointer, access past the end), or did
    not finish within the fuel given to one of its loops. *)
Inductive outcome (A : Type) : Type :=
| Ok (a : A)
| Throw (e : exn)
| Abort
| Undef
| NoFuel.
Arguments Ok {A} a.
Arguments Throw {A} e.
Arguments Abort {A}.
Arguments Undef {A}.
Arguments NoFuel {A}.

#[export] Instance json_errc_eq_dec : EqDecision json_errc.
Proof. solve_decision. Defined.
#[export] Instance exn_eq_dec : EqDecision exn.
Proof. solve_decision. Defined.
#[export] Instance outcome_eq_dec {A} `{EqDecision A} : EqDecision (outcome A).
Proof. solve_decision. Defined.

(** ** Computations without state *)

Definition obind {A B} (m : outcome A) (k : A → outcome B) : outcome B :=
  match m with
  | Ok a => k a
  | Throw e => Throw e
  | Abort => Abort
  | Undef => Undef
  | NoFuel => NoFuel
  end.
Definition oassert (b : bool) : outcome unit := if b then Ok tt else Abort.

Notation "'let?' x := m 'in' k" := (obind m (λ x, k))
  (at level 10, x name, m at level 150, k at level 200, only parsing) : gpcl_scope.
Notation "m ;;? k" := (obind m (λ _, k))
  (at level 150, k at level 200, right associativity, only parsing) : gpcl_scope.

Lemma obind_assert {B} (b : bool) (k : unit → outcome B) : b = true → obind (oassert b) k = k tt.
Proof. by intros ->. Qed.

(** ** State-passing computations *)

Definition M (S A : Type) : Type := S → outcome A * S.

Definition ret {S A} (a : A) : M S A := λ s, (Ok a, s).
Definition throw {S A} (e : exn) : M S A := λ s, (Throw e, s).
Definition abort {S A} : M S A := λ s, (Abort, s).
Definition undef {S A} : M S A := λ s, (Undef, s).
Definition nofuel {S A} : M S A := λ s, (NoFuel, s).
Definition get {S} : M S S := λ s, (Ok s, s).
Definition put {S} (s : S) : M S unit := λ _, (Ok tt, s).
Definition modify {S} (f : S → S) : M S unit := λ s, (Ok tt, f s).
Definition gets {S A} (f : S → A) : M S A := λ s, (Ok (f s), s).

Definition bind {S A B} (m : M S A) (k : A → M S B) : M S B :=
  λ s, match m s with
       | (Ok a, s') => k a s'
       | (Throw e, s') => (Throw e, s')
       | (Abort, s') => (Abort, s')
       | (Undef, s') => (Undef, s')
       | (NoFuel, s') => (NoFuel, s')
       end.

(** [GPCL_ASSERT]: [assertion_failure] aborts in every build. *)
Definition gpcl_assert {S} (b : bool) : M S unit :=
  if b then ret tt else abort.

Notation "'let!' x := m 'in' k" := (bind m (λ x, k))
  (at level 10, x name, m at level 150, k at level 200, only parsing) : gpcl_scope.
Notation "'let!' ' p := m 'in' k" := (bind m (λ x, match x with p => k end))
  (at level 10, p pattern, m at level 150, k at level 200, only parsing) : gpcl_scope.
Notation "m ;;; k" := (bind m (λ _, k))
  (at level 150, k at level 200, right associativity, only parsing) : gpcl_scope.

Lemma bind_ok {S A B} (m : M S A) (k : A → M S B) s a s' :
  m s = (Ok a, s') → bind m k s = k a s'.
Proof. unfold bind. by intros ->. Qed.

Lemma bind_ok_inv {S A B} (m : M S A) (k : A → M S B) s b s' :
  bind m k s = (Ok b, s') → ∃ a s1, m s = (Ok a, s1) ∧ k a s1 = (Ok b, s').
Proof. unfold bind. destruct (m s) as [[] ?]; intros; simplify_eq; eauto. Qed.

Lemma bind_assoc {S A B C} (m : M S A) (k : A → M S B) (j : B → M S C) s :
  bind (bind m k) j s = bind m (λ a, bind (k a) j) s.
Proof. unfold bind. by destruct (m s) as [[] ?]. Qed.

Lemma bind_ret_l {S A B} (a : A) (k : A → M S B) s : bind (ret a) k s = k a s.
Proof. reflexivity. Qed.

Lemma bind_get {S B} (k : S → M S B) s : bind get k s = k s s.
Proof. reflexivity. Qed.
Lemma bind_put {S B} (k : unit → M S B) t s : bind (put t) k s = k tt t.
Proof. reflexivity. Qed.
Lemma bind_gets {S A B} (f : S → A) (k : A → M S B) s :
  bind (gets f) k s = k (f s) s.
Proof. reflexivity. Qed.
Lemma bind_modify {S B} (f : S → S) (k : unit → M S B) s :
  bind (modify f) k s = k tt (f s).
Proof. reflexivity. Qed.

Lemma bind_assert {S B} (b : bool) (k : unit → M S B) s :
  b = true → bind (gpcl_assert b) k s = k tt s.
Proof. by intros ->. Qed.

(** ** Exceptions *)

(** A block under [GPCL_TRY] with the handler of [GPCL_CATCH(...)] that rethrows. *)
Definition try_catch {S A} (m : M S A) (handler : M S unit) : M S A :=
  λ s, match m s with
       | (Throw e, s') => bind handler (λ _, throw e) s'
       | r => r
       end.
(** An exception that leaves a [noexcept] function calls [std::terminate]. *)
Definition noexcept {S A} (m : M S A) : M S A :=
  λ s, match m s with (Throw _, s') => (Abort, s') | r => r end.

Lemma bind_throw {S A B} (m : M S A) (f : A → M S B) s e s' :
  m s = (Throw e, s') → bind m f s = (Throw e, s').
Proof. unfold bind. by intros ->. Qed.
Lemma try_ok {S A} (m : M S A) h s a s' : m s = (Ok a, s') → try_catch m h s = (Ok a, s').
Proof. unfold try_catch. by intros ->. Qed.
Lemma try_throw {S A} (m : M S A) h s e s1 s2 :
  m s = (Throw e, s1) → h s1 = (Ok tt, s2) → try_catch m h s = (Throw e, s2).
Proof. unfold try_catch. intros -> Hh. by rewrite (bind_ok _ _ _ _ _ Hh). Qed.

(** A computation on a part [T] of the state, run on the whole state [S]. *)
Definition zoom {S T A} (proj : S → T) (upd : T → S → S) (m : M T A) : M S A :=
  λ s, let '(r, t) := m (proj s) in (r, upd t s).

Lemma zoom_eq {S T A} (proj : S → T) (upd : T → S → S) (m : M T A) s r t :
  m (proj s) = (r, t) → zoom proj upd m s = (r, upd t s).
Proof. unfold zoom. by intros ->. Qed.

(** ** Safety of computations

    [safe P Q m s]: run from [s], [m] returns a value and state satisfying [Q],
    throws in a state satisfying [P], or aborts; it has no undefined behaviour
    and does not run out of fuel. *)
Definition safe {S A} (P : S → Prop) (Q : A → S → Prop) (m : M S A) (s : S) : Prop :=
  match m s with
  | (Ok a, s') => Q a s'
  | (Throw _, s') => P s'
  | (Abort, _) => True
  | (Undef, _) | (NoFuel, _) => False
  end.

Lemma safe_bind {S A B} P (Q : B → S → Prop) (m : M S A) (k : A → M S B) s :
  safe P (λ a s', safe P Q (k a) s') m s → safe P Q (bind m k) s.
Proof. unfold safe, bind. destruct (m s) as [[] ?]; done. Qed.

Lemma safe_mono {S A} P (Q Q' : A → S → Prop) (m : M S A) s :
  safe P Q m s → (∀ a s', Q a s' → Q' a s') → safe P Q' m s.
Proof. unfold safe. destruct (m s) as [[] ?]; auto. Qed.

Lemma safe_zoom {S T A} P (Q : A → S → Prop) (proj : S → T) (upd : T → S → S) (m : M T A) s :
  safe (λ t, P (upd t s)) (λ a t, Q a (upd t s)) m (proj s) →
  safe P Q (zoom proj upd m) s.
Proof. unfold safe, zoom. destruct (m (proj s)) as [[] ?]; done. Qed.

(** ** Machine integers *)

Local Open Scope Z_scope.

(** Unsigned arithmetic of [size_t] (64 bits) and [unsigned int] (32 bits). *)
Definition wrap (w z : Z) : Z := z mod 2 ^ w.
Definition u64 (z : Z) : Z := wrap 64 z.
Definition u32 (z : Z) : Z := wrap 32 z.
(** Conversion to a signed [w]-bit integer. *)
Definition sint (w z : Z) : Z := (z + 2 ^ (w - 1)) mod 2 ^ w - 2 ^ (w - 1).
Definition i32 (z : Z) : Z := sint 32 z.
Definition i64 (z : Z) : Z := sint 64 z.

Lemma u64_small z : 0 ≤ z < 2 ^ 64 → u64 z = z.
Proof. apply Z.mod_small. Qed.
Lemma u32_small z : 0 ≤ z < 2 ^ 32 → u32 z = z.
Proof. apply Z.mod_small. Qed.
Lemma u64_range z : 0 ≤ u64 z < 2 ^ 64.
Proof. by apply Z.mod_pos_bound. Qed.
Lemma u32_range z : 0 ≤ u32 z < 2 ^ 32.
Proof. by apply Z.mod_pos_bound. Qed.
Lemma sint_small w z : 0 < w → - 2 ^ (w - 1) ≤ z < 2 ^ (w - 1) → sint w z = z.
Proof.
  intros Hw Hz. unfold sint.
  assert (2 ^ w = 2 * 2 ^ (w - 1)) by
    (rewrite <- Z.pow_succ_r by lia; f_equal; lia).
  rewrite Z.mod_small; lia.
Qed.

Create Rewrite HintDb gpcl_arith.
#[export] Hint Rewrite u64_small u32_small using lia : gpcl_arith.

(** ** Flat memory of word-sized cells *)

(** Memory maps the byte address of a pointer-sized cell to its value; the
    null pointer is [0] and is never mapped. *)
Abbreviation mem := (gmap Z Z).
Definition null : Z := 0.
Definition word_size : Z := 8.

Definition load (a : Z) : M mem Z :=
  λ h, match h !! a with Some v => (Ok v, h) | None => (Undef, h) end.
Definition store (a v : Z) : M mem unit :=
  λ h, match h !! a with Some _ => (Ok tt, <[a := v]> h) | None => (Undef, h) end.

Lemma load_ok h a v : h !! a = Some v → load a h = (Ok v, h).
Proof. unfold load. by intros ->. Qed.
Lemma store_ok h a v : is_Some (h !! a) → store a v h = (Ok tt, <[a := v]> h).
Proof. unfold store. by intros [? ->]. Qed.

(** The cells of the block of [sz] bytes at [b]. *)
Definition block_cells (b sz : Z) : list Z :=
  (λ i, b + word_size * Z.of_nat i) <$> seq 0 (Z.to_nat (sz / word_size)).

(** Memory after the allocator hands out the block of [sz] bytes at [b]. *)
Definition map_block (b sz : Z) (h : mem) : mem :=
  foldr (λ a, <[a := 0]>) h (block_cells b sz).

Lemma elem_of_block_cells b sz a :
  a ∈ block_cells b sz ↔
  b ≤ a ∧ a + word_size ≤ b + sz ∧ (a - b) mod word_size = 0.
Proof.
  unfold block_cells, word_size. rewrite list_elem_of_fmap. split.
  - intros (i & -> & Hi%elem_of_seq).
    replace (b + 8 * Z.of_nat i - b) with (Z.of_nat i * 8) by lia.
    rewrite Z.mod_mul by lia.
    assert (Z.of_nat i < sz / 8) by lia.
    pose proof (Z.mul_div_le sz 8). lia.
  - intros (? & ? & Hm). apply Z.mod_divide in Hm as [k Hk]; [|lia].
    exists (Z.to_nat k). split; [lia|]. apply elem_of_seq.
    assert (k + 1 ≤ sz / 8) by (apply Z.div_le_lower_bound; lia). lia.
Qed.

Lemma lookup_map_block b sz h a :
  map_block b sz h !! a =
    if decide (a ∈ block_cells b sz) then Some 0 else h !! a.
Proof.
  unfold map_block. induction (block_cells b sz) as [|c l IH]; simpl; [done|].
  rewrite lookup_insert. repeat case_decide; set_solver.
Qed.

(** ** Lists *)

Lemma NoDup_fmap_Z (f : nat → Z) n :
  (∀ i j, f i = f j → i = j) → NoDup (f <$> seq 0 n).
Proof. intros Hf. apply NoDup_fmap; [intros i j; apply Hf|apply NoDup_seq]. Qed.

(** The sum of [f] over a list. *)
Definition sum_of {A} (f : A → Z) (l : list A) : Z := foldr (λ t z, f t + z) 0 l.

Section sum_of.
Context {A : Type} (f g : A → Z).

Lemma sum_of_insert l i t t' : l !! i = Some t → sum_of f (<[i := t']> l) = sum_of f l - f t + f t'.
Proof.
  revert i. induction l as [|u l IH]; intros [|i]; cbn; [done|done|intros [= ->]; lia|].
  intros H. change (foldr (λ t z, f t + z) 0 (<[i:=t']> l)) with (sum_of f (<[i := t']> l)).
  rewrite (IH i H). unfold sum_of. lia.
Qed.
Lemma sum_of_nonneg l : (∀ t, t ∈ l → 0 ≤ f t) → 0 ≤ sum_of f l.
Proof.
  induction l as [|t l IH]; intros Hf; cbn; [lia|].
  assert (0 ≤ f t) by (apply Hf; by left). assert (0 ≤ sum_of f l) by (apply IH; intros; apply Hf; by right).
  unfold sum_of in *. lia.
Qed.
Lemma sum_of_elem l i t : (∀ t, t ∈ l → 0 ≤ f t) → l !! i = Some t → f t ≤ sum_of f l.
Proof.
  revert i. induction l as [|u l IH]; intros [|i] Hf; cbn; [done|done|intros [= ->]|intros Hi].
  - assert (0 ≤ sum_of f l) by (apply sum_of_nonneg; intros; apply Hf; by right). unfold sum_of in *. lia.
  - assert (0 ≤ f u) by (apply Hf; by left).
    assert (f t ≤ sum_of f l) by (apply (IH i); [intros; apply Hf; by right|done]). unfold sum_of in *. lia.
Qed.
Lemma sum_of_pos l : 0 < sum_of f l → ∃ i t, l !! i = Some t ∧ 0 < f t.
Proof.
  induction l as [|t l IH]; cbn; [lia|]. intros Hs. destruct (decide (0 < f t)) as [Ht|Ht]; [by exists 0%nat, t|].
  destruct IH as (i & u & Hi & Hu); [unfold sum_of; lia|]. by exists (S i), u.
Qed.
Lemma sum_of_le l : (∀ t, f t ≤ g t) → sum_of f l ≤ sum_of g l.
Proof. intros H. induction l as [|t l IH]; cbn; [lia|]. specialize (H t). unfold sum_of in *. lia. Qed.
Lemma sum_of_replicate n t : f t = 0 → sum_of f (replicate n t) = 0.
Proof. intros H. induction n as [|n IH]; cbn; [done|]. unfold sum_of in IH. lia. Qed.

End sum_of.

(** ** Maps *)

(** An address above all those in use. *)
Definition fresh_key {A} (m : gmap Z A) : Z := map_fold (λ a _ z, Z.max a z) 0 m + 1.

Lemma fresh_key_pos {A} (m : gmap Z A) : 0 < fresh_key m.
Proof. unfold fresh_key. apply (map_fold_weak_ind (λ r _, 0 < r + 1)); lia. Qed.
Lemma fresh_key_above {A} (m : gmap Z A) a : fresh_key m ≤ a → m !! a = None.
Proof.
  assert (Hb : ∀ a, is_Some (m !! a) → a < fresh_key m).
  { unfold fresh_key. apply (map_fold_weak_ind (λ r m, ∀ a, is_Some (m !! a) → a < r + 1)).
    - intros b [n Hn]. by rewrite lookup_empty in Hn.
    - intros i x m' r Hi IH b. destruct (decide (i = b)) as [<-|Hne]; [lia|].
      rewrite lookup_insert_ne by done. intros Hx%IH. lia. }
  intros Ha. destruct (m !! a) as [n|] eqn:Hn; [|done]. specialize (Hb _ (ex_intro _ n Hn)). lia.
Qed.
Lemma fresh_key_fresh {A} (m : gmap Z A) : m !! fresh_key m = None.
Proof. by apply fresh_key_above. Qed.
