(* ===== verification/SegStorage.v ===== *)
(** * Simple segregated storage (simple_segregated_storage.hpp)

    The free list is threaded through the free chunks: the first word of a
    free chunk holds the address of the next one.  The state is the memory and
    the [free_list_] member; a [void_pointer &] is a [slot], either that member
    or the first word of a chunk.  Loops take fuel; [seg_fuel] and the lengths
    of the free list are proved to be enough. *)

From S2P Require Import Prelude.

Local Open Scope Z_scope.
Local Open Scope gpcl_scope.

Module Seg.

Record state : Type := State { heap : mem; free_list_ : Z }.

Definition set_heap (h : mem) (s : state) : state := State h (free_list_ s).
Definition set_free_list (p : Z) (s : state) : state := State (heap s) p.

Definition on_heap {A} (m : M mem A) : M state A := zoom heap set_heap m.

(** [simple_segregated_storage::next_chunk], read and written. *)
Definition next_chunk (chunk : Z) : M state Z :=
  gpcl_assert (bool_decide (chunk ≠ null)) ;;; on_heap (load chunk).
Definition set_next_chunk (chunk v : Z) : M state unit :=
  gpcl_assert (bool_decide (chunk ≠ null)) ;;; on_heap (store chunk v).

Inductive slot : Type :=
| slot_head
| slot_at (chunk : Z).

Definition read_slot (p : slot) : M state Z :=
  match p with
  | slot_head => gets free_list_
  | slot_at c => next_chunk c
  end.
Definition write_slot (p : slot) (v : Z) : M state unit :=
  match p with
  | slot_head => modify (set_free_list v)
  | slot_at c => set_next_chunk c v
  end.

(** The loop of [segregate]: links [chunk] to the chunk after it while that
    one starts before [block_end]; returns the last chunk. *)
Fixpoint segregate_loop (fuel : nat) (chunk block_end partition_sz : Z) : M state Z :=
  match fuel with
  | O => nofuel
  | S fuel =>
      if bool_decide (chunk + partition_sz < block_end) then
        set_next_chunk chunk (chunk + partition_sz) ;;;
        let! chunk' := next_chunk chunk in
        segregate_loop fuel chunk' block_end partition_sz
      else ret chunk
  end.

Definition seg_fuel (sz partition_sz : Z) : nat := S (Z.to_nat (sz / partition_sz)).

Definition segregate (block sz partition_sz end_ : Z) : M state Z :=
  gpcl_assert (bool_decide (block ≠ null)) ;;;
  gpcl_assert (bool_decide (partition_sz ≤ sz)) ;;;
  let! chunk := segregate_loop (seg_fuel sz partition_sz) block
                  (block + sz - partition_sz) partition_sz in
  set_next_chunk chunk end_ ;;;
  ret block.

Definition add_block (block sz partition_sz : Z) : M state unit :=
  let! fl := gets free_list_ in
  let! p := segregate block sz partition_sz fl in
  modify (set_free_list p) ;;;
  let! fl' := gets free_list_ in
  gpcl_assert (bool_decide (fl' ≠ null)).

(** The loop of [upper_bound], [pp] being the slot under inspection. *)
Fixpoint upper_bound_loop (fuel : nat) (pp : slot) (p : Z) : M state slot :=
  match fuel with
  | O => nofuel
  | S fuel =>
      let! c := read_slot pp in
      if bool_decide (c = null) then ret pp
      else
        let! next := next_chunk c in
        if bool_decide (p < next) then ret (slot_at c)
        else upper_bound_loop fuel (slot_at c) p
  end.

Definition upper_bound (fuel : nat) (p : Z) : M state slot :=
  upper_bound_loop fuel slot_head p.

Definition add_ordered_block (fuel : nat) (block sz partition_sz : Z) : M state unit :=
  let! pos := upper_bound fuel block in
  let! v := read_slot pos in
  let! r := segregate block sz partition_sz v in
  write_slot pos r ;;;
  let! fl := gets free_list_ in
  gpcl_assert (bool_decide (fl ≠ null)).

Definition empty : M state bool := gets (λ s, bool_decide (free_list_ s = null)).

Definition malloc : M state Z :=
  let! e := empty in
  gpcl_assert (negb e) ;;;
  let! r := gets free_list_ in
  let! n := next_chunk r in
  modify (set_free_list n) ;;;
  ret r.

(** The loop of [malloc_n]: [p] is the slot under inspection, [start] the slot
    before the run being counted, [m] the links of the run seen so far. *)
Fixpoint malloc_n_loop (fuel : nat) (p start : slot) (m n partition_sz : Z) : M state Z :=
  match fuel with
  | O => nofuel
  | S fuel =>
      let! c := read_slot p in
      if bool_decide (c = null) then ret null
      else
        let! next := next_chunk c in
        if bool_decide (next - c ≠ partition_sz) then
          malloc_n_loop fuel (slot_at c) (slot_at c) 0 n partition_sz
        else
          let m' := u64 (m + 1) in
          if bool_decide (m' = n) then
            let! r := read_slot start in
            let! v := read_slot (slot_at c) in
            write_slot start v ;;;
            ret r
          else malloc_n_loop fuel (slot_at c) start m' n partition_sz
  end.

Definition malloc_n (fuel : nat) (n partition_sz : Z) : M state Z :=
  malloc_n_loop fuel slot_head slot_head 0 n partition_sz.

Definition free (chunk : Z) : M state unit :=
  let! fl := gets free_list_ in
  set_next_chunk chunk fl ;;;
  modify (set_free_list chunk).

Definition free_n (chunk partition_sz n : Z) : M state unit :=
  add_block chunk (u64 (partition_sz * n)) partition_sz.

Definition ordered_free (fuel : nat) (chunk : Z) : M state unit :=
  let! pos := upper_bound fuel chunk in
  let! v := read_slot pos in
  set_next_chunk chunk v ;;;
  write_slot pos chunk.

Definition ordered_free_n (fuel : nat) (chunk n partition_sz : Z) : M state unit :=
  add_ordered_block fuel chunk (u64 (partition_sz * n)) partition_sz.

Fixpoint is_free_loop (fuel : nat) (iter p : Z) : M state bool :=
  match fuel with
  | O => nofuel
  | S fuel =>
      if bool_decide (iter = null) then ret false
      else if bool_decide (iter = p) then ret true
      else let! next := next_chunk iter in is_free_loop fuel next p
  end.

Definition is_free (fuel : nat) (p : Z) : M state bool :=
  let! fl := gets free_list_ in is_free_loop fuel fl p.
Definition is_free_ordered (fuel : nat) (p : Z) : M state bool := is_free fuel p.

Definition reset : M state unit := modify (set_free_list null).

(** ** Representation *)

(** [chain h p l e]: following the first words from [p] visits the chunks [l]
    and reaches [e]. *)
Fixpoint chain (h : mem) (p : Z) (l : list Z) (e : Z) : Prop :=
  match l with
  | [] => p = e
  | a :: l => p = a ∧ 0 < a ∧ ∃ q, h !! a = Some q ∧ chain h q l e
  end.

(** The storage holds exactly the free chunks [l], in this order. *)
Definition holds (s : state) (l : list Z) : Prop :=
  chain (heap s) (free_list_ s) l null ∧ NoDup l.

(** [n] chunks of [psz] bytes each, laid out from [b]. *)
Definition chunks_of (b psz : Z) (n : nat) : list Z :=
  (λ i, b + psz * Z.of_nat i) <$> seq 0 n.

(** The number of chunks [segregate] makes of a block of [sz] bytes. *)
Definition seg_count (sz psz : Z) : nat := Z.to_nat (Z.max 1 ((sz - 1) / psz)).

(** ** Memory steps *)

Lemma next_chunk_ok s c v :
  0 < c → heap s !! c = Some v → next_chunk c s = (Ok v, s).
Proof.
  intros Hc Hv. unfold next_chunk. rewrite bind_assert
    by (apply bool_decide_eq_true_2; unfold null; lia).
  unfold on_heap. erewrite zoom_eq by (by apply load_ok). by destruct s.
Qed.

Lemma set_next_chunk_ok s c v :
  0 < c → is_Some (heap s !! c) →
  set_next_chunk c v s = (Ok tt, State (<[c:=v]> (heap s)) (free_list_ s)).
Proof.
  intros Hc Hv. unfold set_next_chunk. rewrite bind_assert
    by (apply bool_decide_eq_true_2; unfold null; lia).
  unfold on_heap. by erewrite zoom_eq by (by apply store_ok).
Qed.

Lemma chain_frame h h' p l e :
  chain h p l e → (∀ a, a ∈ l → h' !! a = h !! a) → chain h' p l e.
Proof.
  revert p. induction l as [|a l IH]; simpl; [done|].
  intros p (-> & ? & q & Hq & Hc) Hf. split_and!; [done..|].
  exists q. rewrite Hf by set_solver. split; [done|]. apply IH; set_solver.
Qed.

Lemma chain_app h p l1 l2 e :
  chain h p (l1 ++ l2) e ↔ ∃ q, chain h p l1 q ∧ chain h q l2 e.
Proof.
  revert p. induction l1 as [|a l1 IH]; intros p; simpl.
  - naive_solver.
  - setoid_rewrite IH. naive_solver.
Qed.

Lemma chain_pos h p l e a : chain h p l e → a ∈ l → 0 < a.
Proof.
  revert p. induction l as [|b l IH]; simpl; [set_solver|].
  intros p (-> & ? & q & _ & Hc) [->|?]%elem_of_cons; eauto.
Qed.

Lemma chain_mapped h p l e a : chain h p l e → a ∈ l → is_Some (h !! a).
Proof.
  revert p. induction l as [|b l IH]; simpl; [set_solver|].
  intros p (-> & ? & q & ? & Hc) [->|?]%elem_of_cons; eauto.
Qed.

Lemma chain_hd h p l : chain h p l null → p = hd null l.
Proof. destruct l; simpl; naive_solver. Qed.

(** ** segregate and add_block *)

(** The memory after the first [n] chunks from [b] are linked to their
    successors. *)
Fixpoint link (h : mem) (b psz : Z) (n : nat) : mem :=
  match n with
  | O => h
  | S n => link (<[b := b + psz]> h) (b + psz) psz n
  end.

Lemma chunks_of_S b psz n : chunks_of b psz (S n) = b :: chunks_of (b + psz) psz n.
Proof.
  unfold chunks_of. rewrite <- cons_seq, <- (fmap_S_seq 0 n), fmap_cons. f_equal; [lia|].
  rewrite <- list_fmap_compose. apply list_fmap_ext. intros ? x _. simpl. lia.
Qed.

Lemma elem_of_chunks_of b psz n a :
  a ∈ chunks_of b psz n ↔ ∃ i : nat, (i < n)%nat ∧ a = b + psz * Z.of_nat i.
Proof.
  unfold chunks_of. rewrite list_elem_of_fmap. setoid_rewrite elem_of_seq.
  naive_solver lia.
Qed.

Lemma NoDup_chunks_of b psz n : 0 < psz → NoDup (chunks_of b psz n).
Proof. intros. apply NoDup_fmap_Z. intros i j ?. nia. Qed.

Lemma length_chunks_of b psz n : length (chunks_of b psz n) = n.
Proof. unfold chunks_of. by rewrite length_fmap, length_seq. Qed.

Lemma lookup_link_ne h b psz n a :
  a ∉ chunks_of b psz n → link h b psz n !! a = h !! a.
Proof.
  revert h b. induction n as [|n IH]; intros h b Ha; [done|].
  rewrite chunks_of_S, not_elem_of_cons in Ha. destruct Ha as [? Ha]. simpl.
  rewrite IH by done. by rewrite lookup_insert_ne.
Qed.

Lemma link_mapped h b psz n a : is_Some (h !! a) → is_Some (link h b psz n !! a).
Proof.
  revert h b. induction n as [|n IH]; intros h b Ha; [done|]. simpl. apply IH.
  rewrite lookup_insert. by case_decide.
Qed.

Lemma chain_link h b psz n e :
  0 < b → 0 < psz →
  chain (<[b + psz * Z.of_nat n := e]> (link h b psz n)) b (chunks_of b psz (S n)) e.
Proof.
  revert h b. induction n as [|n IH]; intros h b Hb Hp; rewrite chunks_of_S.
  - replace (b + psz * Z.of_nat 0) with b by lia. simpl.
    split_and!; [done..|]. exists e. split; [apply lookup_insert_eq|done].
  - split_and!; [done..|]. exists (b + psz). split.
    + rewrite lookup_insert_ne by nia. simpl. rewrite lookup_link_ne.
      * apply lookup_insert_eq.
      * intros (i & _ & ?)%elem_of_chunks_of. nia.
    + replace (b + psz * Z.of_nat (S n)) with ((b + psz) + psz * Z.of_nat n) by lia.
      simpl. apply IH; lia.
Qed.

Lemma segregate_loop_ok fuel n b e psz s :
  0 < b → 0 < psz → (n < fuel)%nat →
  (∀ a, a ∈ chunks_of b psz n → is_Some (heap s !! a)) →
  (∀ i : nat, (i < n)%nat → b + psz * (Z.of_nat i + 1) < e) →
  e ≤ b + psz * (Z.of_nat n + 1) →
  segregate_loop fuel b e psz s =
    (Ok (b + psz * Z.of_nat n), State (link (heap s) b psz n) (free_list_ s)).
Proof.
  revert fuel b s. induction n as [|n IH]; intros fuel b s Hb Hp Hf Hm Hlt Hge;
    (destruct fuel as [|fuel]; [lia|]); simpl segregate_loop.
  - rewrite bool_decide_eq_false_2 by lia.
    replace (b + psz * Z.of_nat 0) with b by lia. by destruct s.
  - rewrite chunks_of_S in Hm.
    rewrite bool_decide_eq_true_2 by (specialize (Hlt O); lia).
    erewrite bind_ok by (apply set_next_chunk_ok; [done|apply Hm; set_solver]).
    erewrite bind_ok by (apply next_chunk_ok; [done|apply lookup_insert_eq]).
    rewrite IH; simpl; [f_equal; f_equal; lia|lia|done|lia| | |lia].
    + intros a Ha. rewrite lookup_insert. case_decide; [done|]. apply Hm. set_solver.
    + intros i Hi. specialize (Hlt (S i)). lia.
Qed.

Lemma seg_count_S sz psz : 0 < psz ≤ sz →
  ∃ n, seg_count sz psz = S n ∧ (n < seg_fuel sz psz)%nat ∧
    (∀ i : nat, (i < n)%nat → psz * (Z.of_nat i + 1) < sz - psz) ∧
    sz - psz ≤ psz * (Z.of_nat n + 1).
Proof.
  intros Hp. unfold seg_count, seg_fuel. exists (Z.to_nat (Z.max 1 ((sz - 1) / psz)) - 1)%nat.
  pose proof (Z.div_mod (sz - 1) psz) as Hd. pose proof (Z.mod_pos_bound (sz - 1) psz).
  assert ((sz - 1) / psz ≤ sz / psz) by (apply Z.div_le_mono; lia).
  split_and!; [lia|lia|..]; [intros i Hi|]; nia.
Qed.

(** What [segregate] leaves in memory. *)
Lemma segregate_ok b sz psz e s :
  0 < b → 0 < psz ≤ sz →
  (∀ a, a ∈ chunks_of b psz (seg_count sz psz) → is_Some (heap s !! a)) →
  ∃ h, segregate b sz psz e s = (Ok b, State h (free_list_ s)) ∧
    chain h b (chunks_of b psz (seg_count sz psz)) e ∧
    (∀ a, a ∉ chunks_of b psz (seg_count sz psz) → h !! a = heap s !! a) ∧
    (∀ a, is_Some (heap s !! a) → is_Some (h !! a)).
Proof.
  intros Hb Hp Hm. destruct (seg_count_S sz psz Hp) as (n & Hn & Hf & Hlt & Hge).
  rewrite Hn in *. eexists. unfold segregate.
  rewrite bind_assert by (apply bool_decide_eq_true_2; unfold null; lia).
  rewrite bind_assert by (apply bool_decide_eq_true_2; lia).
  assert (b + psz * Z.of_nat n ∈ chunks_of b psz (S n)) as Hlast
    by (apply elem_of_chunks_of; exists n; lia).
  erewrite bind_ok; [|apply (segregate_loop_ok _ n); [lia..| | |]].
  2: { intros a (i & ? & ?)%elem_of_chunks_of. apply Hm, elem_of_chunks_of.
       exists i. lia. }
  2: { intros i Hi. specialize (Hlt i Hi). lia. }
  2: lia.
  erewrite bind_ok by (apply set_next_chunk_ok; [nia|simpl; by apply link_mapped, Hm]).
  split_and!; [done|apply chain_link; lia|..]; simpl.
  - intros a Ha. rewrite lookup_insert_ne by set_solver. apply lookup_link_ne.
    intros (i & ? & ->)%elem_of_chunks_of. apply Ha, elem_of_chunks_of. exists i. lia.
  - intros a Ha. rewrite lookup_insert. case_decide; [done|]. by apply link_mapped.
Qed.

(** ** Slots *)

(** The slot that holds the address of the chunk after [pre]. *)
Definition slot_of (pre : list Z) : slot :=
  match last pre with None => slot_head | Some a => slot_at a end.

Lemma slot_of_snoc pre a : slot_of (pre ++ [a]) = slot_at a.
Proof. unfold slot_of. by rewrite last_snoc. Qed.

Lemma read_slot_ok s pre post e :
  chain (heap s) (free_list_ s) (pre ++ post) e →
  read_slot (slot_of pre) s = (Ok (hd e post), s).
Proof.
  intros Hc. destruct pre as [|a pre _] using rev_ind.
  - simpl. unfold gets. f_equal. f_equal. destruct post; simpl in *; naive_solver.
  - rewrite slot_of_snoc, <- app_assoc in *. apply chain_app in Hc as (q & _ & Hc).
    simpl in *. destruct Hc as (-> & ? & q' & ? & Hc).
    rewrite (next_chunk_ok s a q') by done. do 2 f_equal.
    destruct post; simpl in *; naive_solver.
Qed.

Lemma write_slot_ok s pre q v post e :
  chain (heap s) (free_list_ s) pre q → NoDup pre →
  chain (heap s) v post e → (∀ a, a ∈ pre → a ∉ post) →
  ∃ s', write_slot (slot_of pre) v s = (Ok tt, s') ∧
    chain (heap s') (free_list_ s') (pre ++ post) e ∧
    (∀ a, a ∉ pre → heap s' !! a = heap s !! a) ∧
    (∀ a, is_Some (heap s !! a) → is_Some (heap s' !! a)).
Proof.
  intros Hc Hnd Hv Hdis. destruct pre as [|a pre _] using rev_ind.
  - exists (State (heap s) v). done.
  - rewrite slot_of_snoc. apply chain_app in Hc as (r & Hc & -> & ? & r' & ? & _).
    apply NoDup_app in Hnd as (? & Hna & _).
    exists (State (<[a := v]> (heap s)) (free_list_ s)). simpl.
    rewrite set_next_chunk_ok by eauto. split_and!; [done|..].
    + rewrite <- app_assoc. apply chain_app. exists a. split.
      { eapply chain_frame; [done|]. intros b Hb. rewrite lookup_insert_ne; set_solver. }
      simpl. split_and!; [done..|]. exists v. rewrite lookup_insert_eq. split; [done|].
      eapply chain_frame; [done|]. intros b Hb. rewrite lookup_insert_ne; set_solver.
    + intros b Hb. rewrite lookup_insert_ne; set_solver.
    + intros b Hb. rewrite lookup_insert. by case_decide.
Qed.

Lemma holds_read_slot s pre post :
  holds s (pre ++ post) → read_slot (slot_of pre) s = (Ok (hd null post), s).
Proof. intros [Hc _]. by apply read_slot_ok. Qed.

Lemma holds_next s pre c post :
  holds s (pre ++ c :: post) → next_chunk c s = (Ok (hd null post), s).
Proof.
  intros Hh. rewrite (cons_middle c pre post), app_assoc in Hh.
  apply holds_read_slot in Hh. by rewrite slot_of_snoc in Hh.
Qed.

Lemma holds_pos s l a : holds s l → a ∈ l → 0 < a.
Proof. intros [? _]. by eapply chain_pos. Qed.

(** Putting the chunks [cs] between [pre] and [post]. *)
Lemma holds_splice s pre post b cs s1 :
  holds s (pre ++ post) →
  chain (heap s1) b cs (hd null post) → NoDup cs → (∀ a, a ∈ cs → a ∉ pre ++ post) →
  free_list_ s1 = free_list_ s → (∀ a, a ∉ cs → heap s1 !! a = heap s !! a) →
  ∃ s', write_slot (slot_of pre) b s1 = (Ok tt, s') ∧
    holds s' (pre ++ cs ++ post) ∧
    (∀ a, a ∉ cs → a ∉ pre → heap s' !! a = heap s !! a) ∧
    (∀ a, is_Some (heap s1 !! a) → is_Some (heap s' !! a)).
Proof.
  intros [Hc Hnd] Hcs Hndc Hdis Hfl Hfr.
  apply chain_app in Hc as (q & Hpre & Hpost). apply NoDup_app in Hnd as (Hn1 & Hn2 & Hn3).
  assert (q = hd null post) as -> by (by eapply chain_hd).
  destruct (write_slot_ok s1 pre (hd null post) b (cs ++ post) null)
    as (s' & Hw & Hch & Hfr' & Hdom).
  - rewrite Hfl. eapply chain_frame; [done|]. intros a Ha. apply Hfr. set_solver.
  - done.
  - apply chain_app. exists (hd null post). split; [done|].
    eapply chain_frame; [done|]. intros a Ha. apply Hfr. set_solver.
  - set_solver.
  - exists s'. split_and!; [done|split; [done|]|..|done].
    + apply NoDup_app. split_and!; [done|set_solver|].
      apply NoDup_app. split_and!; [done|set_solver|done].
    + intros a ? ?. rewrite Hfr' by done. by apply Hfr.
Qed.

(** ** Operations on the free list *)

(** The memory [segregate] needs: the first word of every chunk is mapped. *)
Definition chunks_mapped (s : state) (b sz psz : Z) : Prop :=
  ∀ a, a ∈ chunks_of b psz (seg_count sz psz) → is_Some (heap s !! a).

Lemma seg_count_pos sz psz : ∃ n, seg_count sz psz = S n.
Proof. unfold seg_count. exists (Z.to_nat (Z.max 1 ((sz - 1) / psz)) - 1)%nat. lia. Qed.

Lemma add_block_holds s l b sz psz :
  holds s l → 0 < b → 0 < psz ≤ sz → chunks_mapped s b sz psz →
  (∀ a, a ∈ chunks_of b psz (seg_count sz psz) → a ∉ l) →
  ∃ s', add_block b sz psz s = (Ok tt, s') ∧
    holds s' (chunks_of b psz (seg_count sz psz) ++ l) ∧
    (∀ a, a ∉ chunks_of b psz (seg_count sz psz) → heap s' !! a = heap s !! a) ∧
    (∀ a, is_Some (heap s !! a) → is_Some (heap s' !! a)).
Proof.
  intros [Hc Hnd] Hb Hp Hm Hdis. unfold add_block. rewrite bind_gets.
  destruct (segregate_ok b sz psz (free_list_ s) s Hb Hp Hm) as (h & Hr & Hch & Hfr & Hdom).
  erewrite bind_ok by done. rewrite bind_modify, bind_gets. simpl.
  exists (State h b). split_and!; simpl; [| |done..].
  - unfold gpcl_assert. rewrite bool_decide_eq_true_2 by (unfold null; lia). done.
  - split; simpl.
    + apply chain_app. exists (free_list_ s). split; [done|].
      eapply chain_frame; [done|]. intros a Ha. apply Hfr. set_solver.
    + apply NoDup_app. split_and!; [apply NoDup_chunks_of; lia|set_solver|done].
Qed.

Lemma malloc_holds s a l :
  holds s (a :: l) →
  malloc s = (Ok a, State (heap s) (hd null l)) ∧ holds (State (heap s) (hd null l)) l.
Proof.
  intros Hh. pose proof Hh as [(Hfl & Ha & q & Hq & Hc) Hnd]. unfold malloc, empty.
  rewrite bind_gets, bind_assert; [|by rewrite bool_decide_eq_false_2 by (unfold null; lia)].
  rewrite bind_gets. rewrite Hfl. erewrite bind_ok by (by apply (holds_next _ [])).
  split; [done|]. split; simpl; [|by apply NoDup_cons in Hnd as [_ ?]].
  by rewrite <- (chain_hd _ _ _ Hc).
Qed.

Lemma free_holds s a l :
  holds s l → 0 < a → a ∉ l → is_Some (heap s !! a) →
  ∃ s', free a s = (Ok tt, s') ∧ holds s' (a :: l) ∧
    (∀ b, b ≠ a → heap s' !! b = heap s !! b).
Proof.
  intros [Hc Hnd] Ha Hal Hm. unfold free. rewrite bind_gets.
  erewrite bind_ok by (by apply set_next_chunk_ok).
  eexists. split_and!; [done| |].
  - split; simpl; [|by apply NoDup_cons]. split_and!; [done..|].
    exists (free_list_ s). rewrite lookup_insert_eq. split; [done|].
    eapply chain_frame; [done|]. intros b Hb. rewrite lookup_insert_ne; set_solver.
  - intros b Hb. by apply lookup_insert_ne.
Qed.

(** ** Ordered insertion *)

(** What [upper_bound] does to the free list as a list: the new chunks [cs]
    are placed before the first chunk above [p] that is not the head. *)
Fixpoint insert_tail (p : Z) (cs l : list Z) : list Z :=
  match l with
  | [] => cs
  | b :: l => if decide (p < b) then cs ++ b :: l else b :: insert_tail p cs l
  end.
Definition ordered_insert (p : Z) (cs l : list Z) : list Z :=
  match l with
  | [] => cs
  | a :: l => a :: insert_tail p cs l
  end.

Lemma upper_bound_loop_ok fuel s pre c post p :
  holds s (pre ++ c :: post) → 0 < p → (length post < fuel)%nat →
  ∃ pre' post', upper_bound_loop (S fuel) (slot_of pre) p s = (Ok (slot_of pre'), s) ∧
    pre ++ c :: post = pre' ++ post' ∧
    ∀ cs, pre ++ c :: insert_tail p cs post = pre' ++ cs ++ post'.
Proof.
  revert fuel pre c. induction post as [|d post IH]; intros fuel pre c Hh Hp Hf.
  - exists (pre ++ [c]), []. simpl upper_bound_loop.
    erewrite bind_ok by (by apply holds_read_slot). cbn [hd].
    assert (0 < c) by (eapply holds_pos; [done|set_solver]).
    rewrite bool_decide_eq_false_2 by (unfold null; lia).
    erewrite bind_ok by (by eapply holds_next). cbn [hd].
    rewrite bool_decide_eq_false_2 by (unfold null; lia).
    destruct fuel as [|fuel]; [simpl in *; lia|]. simpl upper_bound_loop.
    erewrite bind_ok by (by eapply holds_next). cbn [hd].
    rewrite bool_decide_eq_true_2, slot_of_snoc by done. split_and!; [done| |].
    + by rewrite app_nil_r.
    + intros cs. simpl. by rewrite app_nil_r, <- app_assoc.
  - simpl upper_bound_loop.
    erewrite bind_ok by (by apply holds_read_slot). cbn [hd].
    assert (0 < c) by (eapply holds_pos; [done|set_solver]).
    rewrite bool_decide_eq_false_2 by (unfold null; lia).
    erewrite bind_ok by (by eapply holds_next). cbn [hd]. case_bool_decide as Hd.
    + exists (pre ++ [c]), (d :: post). rewrite <- (slot_of_snoc pre c).
      split_and!; [done|by rewrite <- app_assoc|]. intros cs. simpl.
      rewrite decide_True by done. by rewrite <- app_assoc.
    + destruct fuel as [|fuel]; [simpl in *; lia|].
      destruct (IH fuel (pre ++ [c]) d) as (pre' & post' & Hr & He & Hi).
      { by rewrite <- app_assoc. } { done. } { simpl in *; lia. }
      exists pre', post'. rewrite slot_of_snoc in Hr. split_and!; [done| |].
      * rewrite <- He. by rewrite <- app_assoc.
      * intros cs. simpl. rewrite decide_False by done. rewrite <- Hi.
        by rewrite <- app_assoc.
Qed.

Lemma upper_bound_ok fuel s l p :
  holds s l → 0 < p → (length l < fuel)%nat →
  ∃ pre post, upper_bound fuel p s = (Ok (slot_of pre), s) ∧ l = pre ++ post ∧
    ∀ cs, ordered_insert p cs l = pre ++ cs ++ post.
Proof.
  intros Hh Hp Hf. destruct fuel as [|fuel]; [lia|]. unfold upper_bound.
  destruct l as [|a l].
  - exists [], []. split_and!; [|done|intros; simpl; by rewrite app_nil_r].
    destruct Hh as [Hc _]. simpl in Hc. simpl. rewrite bind_gets, Hc. done.
  - destruct (upper_bound_loop_ok fuel s [] a l p) as (pre & post & Hr & He & Hi);
      [done|done|simpl in *; lia|]. eauto.
Qed.

Lemma chain_unique h p l l' : chain h p l null → chain h p l' null → l = l'.
Proof.
  revert p l'. induction l as [|a l IH]; intros p [|b l']; cbn; try done.
  - intros -> (<- & Hb & _). unfold null in Hb. lia.
  - intros (-> & Ha & _) ->. unfold null in Ha. lia.
  - intros (-> & _ & q & Hq & Hl) (<- & _ & q' & Hq' & Hl'). rewrite Hq in Hq'. injection Hq' as <-.
    f_equal. by eapply IH.
Qed.
Lemma ordered_free_holds fuel s l a :
  holds s l → 0 < a → a ∉ l → is_Some (heap s !! a) → (length l < fuel)%nat →
  ∃ s', ordered_free fuel a s = (Ok tt, s') ∧ holds s' (ordered_insert a [a] l) ∧
    (∀ b, b ≠ a → b ∉ l → heap s' !! b = heap s !! b) ∧
    (∀ b, is_Some (heap s !! b) → is_Some (heap s' !! b)).
Proof.
  intros Hh Ha Hal Hm Hf. unfold ordered_free.
  destruct (upper_bound_ok fuel s l a Hh Ha Hf) as (pre & post & Hu & -> & Hi).
  erewrite bind_ok by done. erewrite bind_ok by (by apply holds_read_slot).
  erewrite bind_ok by (by apply set_next_chunk_ok).
  destruct (holds_splice s pre post a [a]
    (State (<[a := hd null post]> (heap s)) (free_list_ s))) as (s' & Hw & Hs & Hsame & Hdom);
    [done| |apply NoDup_singleton|set_solver|done| |].
  - simpl. split_and!; [done..|]. eexists. by rewrite lookup_insert_eq.
  - intros b Hb. simpl. rewrite lookup_insert_ne; set_solver.
  - exists s'. rewrite Hi. split_and!; [done|done|set_solver|]. intros b Hb. apply Hdom. cbn.
    destruct (decide (b = a)) as [->|Hne]; [by rewrite lookup_insert_eq|by rewrite lookup_insert_ne].
Qed.

Lemma add_ordered_block_holds fuel s l b sz psz :
  holds s l → 0 < b → 0 < psz ≤ sz → chunks_mapped s b sz psz →
  (∀ a, a ∈ chunks_of b psz (seg_count sz psz) → a ∉ l) → (length l < fuel)%nat →
  ∃ s', add_ordered_block fuel b sz psz s = (Ok tt, s') ∧
    holds s' (ordered_insert b (chunks_of b psz (seg_count sz psz)) l) ∧
    (∀ a, a ∉ chunks_of b psz (seg_count sz psz) → a ∉ l → heap s' !! a = heap s !! a) ∧
    (∀ a, is_Some (heap s !! a) → is_Some (heap s' !! a)).
Proof.
  intros Hh Hb Hp Hm Hdis Hf. unfold add_ordered_block.
  destruct (upper_bound_ok fuel s l b Hh Hb Hf) as (pre & post & Hu & -> & Hi).
  erewrite bind_ok by done. erewrite bind_ok by (by apply holds_read_slot).
  destruct (segregate_ok b sz psz (hd null post) s Hb Hp Hm) as (h & Hr & Hch & Hfr & Hdom).
  erewrite bind_ok by done.
  destruct (holds_splice s pre post b (chunks_of b psz (seg_count sz psz))
    (State h (free_list_ s))) as (s' & Hw & Hs & Hfr' & Hdom');
    [done|done|apply NoDup_chunks_of; lia|done|done|done|].
  erewrite bind_ok by done. rewrite bind_gets. exists s'. rewrite Hi.
  split_and!; [|done|set_solver|auto]. unfold gpcl_assert. rewrite bool_decide_eq_true_2; [done|].
  destruct Hs as [Hc _]. apply chain_hd in Hc as Hfl. rewrite Hfl.
  destruct (seg_count_pos sz psz) as [n Hn]. rewrite Hn, chunks_of_S in *.
  destruct pre; simpl in Hc |- *; unfold null in *; naive_solver lia.
Qed.

(** ** malloc_n *)

(** The scan of [malloc_n] over the free list: [run] is the current run of
    adjacent chunks, [pre] what lies before it. *)
Fixpoint scan (n : nat) (psz : Z) (pre run l : list Z) : option (list Z * list Z * list Z) :=
  match l with
  | [] => None
  | c :: l =>
      if decide (hd null l - c ≠ psz) then scan n psz (pre ++ run ++ [c]) [] l
      else if decide (S (length run) = n) then Some (pre, run ++ [c], l)
      else scan n psz pre (run ++ [c]) l
  end.

Lemma slot_of_app_snoc pre run c : slot_of (pre ++ run ++ [c]) = slot_at c.
Proof. rewrite app_assoc. apply slot_of_snoc. Qed.

Lemma malloc_n_loop_ok fuel s pre run l n psz :
  holds s (pre ++ run ++ l) → (length l < fuel)%nat →
  Z.of_nat (length run + length l) < 2 ^ 64 →
  malloc_n_loop fuel (slot_of (pre ++ run)) (slot_of pre)
    (Z.of_nat (length run)) (Z.of_nat n) psz s =
  match scan n psz pre run l with
  | None => ret null
  | Some (pre', run', l') =>
      write_slot (slot_of pre') (hd null l') ;;; ret (hd null run')
  end s.
Proof.
  revert fuel pre run. induction l as [|c l IH]; intros fuel pre run Hh Hf Hw;
    (destruct fuel as [|fuel]; [simpl in *; lia|]); simpl malloc_n_loop.
  - rewrite app_assoc in Hh. erewrite bind_ok by (by apply holds_read_slot). done.
  - assert (0 < c) by (eapply holds_pos; [done|set_solver]).
    assert (holds s ((pre ++ run) ++ c :: l)) as Hh1 by (by rewrite <- app_assoc).
    assert (holds s ((pre ++ run ++ [c]) ++ [] ++ l)) as Hh2
      by (by rewrite <- !app_assoc).
    erewrite bind_ok by (by apply holds_read_slot). cbn [hd].
    rewrite bool_decide_eq_false_2 by (unfold null; lia).
    erewrite bind_ok by (by eapply holds_next). cbn [scan].
    rewrite <- decide_bool_decide. case_decide as Hd.
    + rewrite <- IH with (fuel := fuel) by (done || (simpl in *; lia)).
      rewrite app_nil_r. by rewrite slot_of_app_snoc.
    + rewrite u64_small by (simpl in *; lia).
      replace (Z.of_nat (length run) + 1) with (Z.of_nat (S (length run))) by lia.
      rewrite <- decide_bool_decide.
      destruct (decide (S (length run) = n)) as [Hn|Hn].
      * rewrite decide_True by lia.
        erewrite bind_ok by (by apply holds_read_slot).
        erewrite bind_ok by (by eapply holds_next).
        replace (hd null (run ++ c :: l)) with (hd null (run ++ [c])) by (by destruct run).
        done.
      * rewrite decide_False by lia.
        rewrite <- IH with (fuel := fuel); [|by rewrite <- (app_assoc run)|simpl in *; lia|].
        -- by rewrite slot_of_app_snoc, length_app, Nat.add_1_r.
        -- rewrite length_app. simpl in *. lia.
Qed.

(** [l] has [n] links of stride [psz] from position [i] on, that is [n + 1]
    adjacent chunks. *)
Definition run_at (psz : Z) (l : list Z) (i n : nat) : Prop :=
  ∀ k, (k < n)%nat → ∃ x, l !! (i + k)%nat = Some x ∧ l !! (i + k + 1)%nat = Some (x + psz).

Lemma chunks_of_snoc b psz n :
  chunks_of b psz (S n) = chunks_of b psz n ++ [b + psz * Z.of_nat n].
Proof. unfold chunks_of. by rewrite seq_S, fmap_app. Qed.

(** The scan returns the first run of [n] adjacent chunks followed by an
    adjacent one, and nothing only if there is none. *)
Lemma scan_spec n psz pre run l b :
  0 < psz → Forall (Z.lt 0) l → (length run < n)%nat →
  run = chunks_of b psz (length run) →
  (run ≠ [] → hd null l = b + psz * Z.of_nat (length run)) →
  (∀ i, (i < length pre)%nat → ¬ run_at psz (pre ++ run ++ l) i n) →
  match scan n psz pre run l with
  | None => ∀ i, (i < length (pre ++ run ++ l))%nat → ¬ run_at psz (pre ++ run ++ l) i n
  | Some (pre', run', l') =>
      pre ++ run ++ l = pre' ++ run' ++ l' ∧
      ∃ a, run' = chunks_of a psz n ∧ hd null l' = a + psz * Z.of_nat n
  end.
Proof.
  intros Hp. revert pre run b. induction l as [|c l IH]; intros pre run b Hpos Hn Hrun Hhd Hno.
  - simpl. intros i Hi Hr.
    destruct (decide (i < length pre)%nat) as [?|Hge]; [by eapply Hno|].
    destruct (Hr (length pre + length run - i)%nat) as (x & _ & Hx).
    { rewrite !length_app in Hi. simpl in Hi. lia. }
    apply lookup_lt_Some in Hx. rewrite !length_app in *. simpl in *. lia.
  - apply Forall_cons in Hpos as [Hc Hpos]. cbn [scan].
    case_decide as Hd; [|case_decide as Hl].
    + replace (pre ++ run ++ c :: l) with ((pre ++ run ++ [c]) ++ [] ++ l)
        by (by rewrite <- !app_assoc).
      apply (IH _ [] 0); [done|simpl; lia|done|done|].
      intros i Hi Hr. destruct (decide (i < length pre)%nat) as [?|Hge].
      { apply (Hno i); [done|]. by rewrite <- !app_assoc in Hr. }
      rewrite !length_app in Hi. simpl in Hi.
      destruct (Hr (length pre + length run - i)%nat) as (x & Hx & Hx'); [lia|].
      replace (i + (length pre + length run - i))%nat with (length pre + length run)%nat
        in * by lia.
      rewrite <- !app_assoc in Hx, Hx'.
      rewrite (app_assoc pre run), lookup_app_r in Hx by (rewrite length_app; lia).
      rewrite (app_assoc pre run), lookup_app_r in Hx' by (rewrite length_app; lia).
      rewrite length_app in Hx, Hx'.
      replace (length pre + length run - (length pre + length run))%nat with O in Hx by lia.
      replace (length pre + length run + 1 - (length pre + length run))%nat
        with 1%nat in Hx' by lia.
      simpl in Hx, Hx'. destruct l; simplify_eq/=. lia.
    + split; [by rewrite <- app_assoc|].
      destruct run as [|r run'] eqn:Er.
      * exists c. simpl in Hl. subst n. rewrite Z.mul_1_r. unfold chunks_of. simpl.
        split; [f_equal; lia|lia].
      * exists b. rewrite <- Hl, chunks_of_snoc, <- Hrun.
        simpl in Hhd. specialize (Hhd ltac:(done)). simpl. rewrite <- Hhd. split; [done|]. lia.
    + replace (pre ++ run ++ c :: l) with (pre ++ (run ++ [c]) ++ l)
        by (by rewrite <- !app_assoc).
      set (b' := match run with [] => c | _ => b end).
      apply (IH pre (run ++ [c]) b').
      * done.
      * rewrite length_app. simpl. lia.
      * rewrite length_app, Nat.add_1_r, chunks_of_snoc. subst b'. destruct run as [|r run'].
        -- simpl. unfold chunks_of; simpl. f_equal; lia.
        -- rewrite <- Hrun. f_equal. f_equal. apply Hhd. done.
      * intros _. rewrite length_app. subst b'. destruct run as [|r run']; [simpl; lia|].
        specialize (Hhd ltac:(done)). simpl in *. lia.
      * intros i Hi. rewrite <- app_assoc. by apply Hno.
Qed.

Lemma malloc_n_holds fuel s l n psz :
  holds s l → (length l < fuel)%nat → 0 < psz → (0 < n)%nat →
  Z.of_nat (length l) < 2 ^ 64 →
  (malloc_n fuel (Z.of_nat n) psz s = (Ok null, s) ∧
   ∀ i, (i < length l)%nat → ¬ run_at psz l i n) ∨
  (∃ a pre post s', malloc_n fuel (Z.of_nat n) psz s = (Ok a, s') ∧ 0 < a ∧
     l = pre ++ chunks_of a psz n ++ post ∧ hd null post = a + psz * Z.of_nat n ∧
     holds s' (pre ++ post) ∧
     (∀ b, b ∉ pre → heap s' !! b = heap s !! b) ∧
     (∀ b, is_Some (heap s !! b) → is_Some (heap s' !! b))).
Proof.
  intros Hh Hf Hp Hn Hw. unfold malloc_n.
  pose proof (malloc_n_loop_ok fuel s [] [] l n psz Hh Hf Hw) as Hrun.
  change (slot_of ([] ++ [])) with slot_head in Hrun. change (slot_of []) with slot_head in Hrun.
  change (Z.of_nat (length [])) with 0 in Hrun. rewrite Hrun. clear Hrun.
  pose proof (scan_spec n psz [] [] l 0 Hp) as Hs. simpl in Hs.
  destruct (scan n psz [] [] l) as [[[pre run] post]|].
  - right. destruct Hs as (Hl & a & -> & Hhd); [|lia|done|done|lia|].
    { apply Forall_forall. intros. by eapply holds_pos. }
    subst l. destruct Hh as [Hc Hnd]. apply chain_app in Hc as (q & Hpre & Hc).
    apply chain_app in Hc as (q' & Hmid & Hpost).
    apply NoDup_app in Hnd as (Hn1 & Hn2 & Hn3). apply NoDup_app in Hn3 as (Hn3 & Hn4 & Hn5).
    destruct (write_slot_ok s pre q (hd null post) post null) as (s' & Hw' & Hch & Hfr & Hdom);
      [done|done| |set_solver|].
    { by rewrite <- (chain_hd _ _ _ Hpost). }
    assert (hd null (chunks_of a psz n) = a) as Ha.
    { destruct n; [lia|]. rewrite chunks_of_S. done. }
    exists a, pre, post, s'. erewrite bind_ok by done. rewrite Ha. split_and!; try done.
    + eapply chain_pos; [exact Hmid|]. apply elem_of_chunks_of. exists O. lia.
    + split; [done|]. apply NoDup_app. split_and!; [done|set_solver|done].
  - left. split; [done|]. apply Hs; [|lia|done|done|lia].
    apply Forall_forall. intros. by eapply holds_pos.
Qed.

(** ** Order *)

Lemma elem_of_insert_tail p cs l x : x ∈ insert_tail p cs l ↔ x ∈ cs ∨ x ∈ l.
Proof.
  induction l as [|b l IH]; simpl; [set_solver|]. case_decide; set_solver.
Qed.

Lemma insert_tail_Permutation p cs l : insert_tail p cs l ≡ₚ cs ++ l.
Proof.
  induction l as [|b l IH]; simpl; [by rewrite app_nil_r|].
  case_decide; [done|]. by rewrite IH, Permutation_middle.
Qed.

Lemma insert_tail_sorted p cs l :
  StronglySorted Z.lt cs → StronglySorted Z.lt l →
  (∀ c b, c ∈ cs → b ∈ l → if decide (p < b) then c < b else b < c) →
  StronglySorted Z.lt (insert_tail p cs l).
Proof.
  intros Hcs. induction l as [|b l IH]; simpl; intros Hl Hb; [done|].
  apply StronglySorted_inv in Hl as [Hl Hbl]. rewrite Forall_forall in Hbl.
  case_decide as Hp.
  - apply StronglySorted_app_2; [|done|by constructor; [|apply Forall_forall]].
    intros c d Hc [->|Hd]%elem_of_cons.
    + specialize (Hb c b Hc ltac:(set_solver)). by rewrite decide_True in Hb.
    + specialize (Hb c d Hc ltac:(set_solver)). rewrite decide_True in Hb; [done|].
      specialize (Hbl d Hd). lia.
  - constructor; [apply IH; [done|set_solver]|]. apply Forall_forall. intros c.
    rewrite elem_of_insert_tail. intros [Hc|?]; [|by apply Hbl].
    specialize (Hb c b Hc ltac:(set_solver)). by rewrite decide_False in Hb.
Qed.

Lemma ordered_insert_sorted p cs a l :
  StronglySorted Z.lt cs → StronglySorted Z.lt (a :: l) → (∀ c, c ∈ cs → a < c) →
  (∀ c b, c ∈ cs → b ∈ l → if decide (p < b) then c < b else b < c) →
  StronglySorted Z.lt (ordered_insert p cs (a :: l)).
Proof.
  intros Hcs [Hl Ha]%StronglySorted_inv Hac Hb. simpl. constructor.
  - by apply insert_tail_sorted.
  - rewrite Forall_forall in *. intros c. rewrite elem_of_insert_tail. naive_solver.
Qed.

Lemma chunks_of_sorted b psz n : 0 < psz → StronglySorted Z.lt (chunks_of b psz n).
Proof.
  intros Hp. revert b. induction n as [|n IH]; intros b; [constructor|].
  rewrite chunks_of_S. constructor; [done|]. apply Forall_forall.
  intros a (i & _ & ->)%elem_of_chunks_of. nia.
Qed.

(** ** Properties *)

(** Adding a block of [sz >= partition_sz] bytes terminates without abort
    or invalid access, pushes [seg_count sz partition_sz] chunks in address
    order in front of the free list, every one of them inside the block, and
    changes no other word of memory. *)
Theorem seg_add_block_spec s l b sz psz :
  holds s l → 0 < b → 0 < psz ≤ sz → chunks_mapped s b sz psz →
  (∀ a, a ∈ chunks_of b psz (seg_count sz psz) → a ∉ l) →
  ∃ s', add_block b sz psz s = (Ok tt, s') ∧
    holds s' (chunks_of b psz (seg_count sz psz) ++ l) ∧
    (∀ a, a ∈ chunks_of b psz (seg_count sz psz) → b ≤ a ∧ a + psz ≤ b + sz) ∧
    (∀ a, a ∉ chunks_of b psz (seg_count sz psz) → heap s' !! a = heap s !! a).
Proof.
  intros Hh Hb Hp Hm Hdis.
  destruct (add_block_holds s l b sz psz Hh Hb Hp Hm Hdis) as (s' & ? & ? & ? & _).
  exists s'. split_and!; try done. intros a (i & Hi & ->)%elem_of_chunks_of.
  destruct (seg_count_S sz psz Hp) as (n & Hn & _ & Hlt & _). rewrite Hn in Hi.
  destruct i as [|i]; [lia|]. specialize (Hlt i ltac:(lia)). lia.
Qed.

(** A chunk given back with [free] is the next one [malloc] returns, and
    the pair leaves the free list and all memory outside the chunk as it was. *)
Theorem seg_free_malloc_roundtrip s l a :
  holds s l → 0 < a → a ∉ l → is_Some (heap s !! a) →
  ∃ s', (free a ;;; malloc) s = (Ok a, s') ∧ holds s' l ∧
    ∀ b, b ≠ a → heap s' !! b = heap s !! b.
Proof.
  intros Hh Ha Hal Hm. destruct (free_holds s a l Hh Ha Hal Hm) as (s1 & Hf & Hh1 & Hfr).
  destruct (malloc_holds s1 a l Hh1) as [Hr Hh2].
  exists (State (heap s1) (hd null l)). split_and!; [|done|done].
  by erewrite bind_ok.
Qed.

(** [malloc_n] terminates; it either returns the first of [n] adjacent
    chunks of the free list and removes exactly those, or it returns null,
    leaves the state as it was, and the free list has no [n + 1] adjacent
    chunks.  (It needs one adjacent chunk more than it returns.) *)
Theorem seg_malloc_n_spec fuel s l n psz :
  holds s l → (length l < fuel)%nat → 0 < psz → (0 < n)%nat →
  Z.of_nat (length l) < 2 ^ 64 →
  (malloc_n fuel (Z.of_nat n) psz s = (Ok null, s) ∧
   ∀ i, (i < length l)%nat → ¬ run_at psz l i n) ∨
  (∃ a pre post s', malloc_n fuel (Z.of_nat n) psz s = (Ok a, s') ∧ 0 < a ∧
     l = pre ++ chunks_of a psz n ++ post ∧ holds s' (pre ++ post)).
Proof.
  intros Hh Hf Hp Hn Hw. destruct (malloc_n_holds fuel s l n psz Hh Hf Hp Hn Hw)
    as [?|(a & pre & post & s' & ? & ? & ? & _ & ? & _)]; [by left|].
  right. by exists a, pre, post, s'.
Qed.

(** On a sorted free list whose head lies below [a], [ordered_free a]
    terminates and the free list is sorted again, with [a] added. *)
Theorem seg_ordered_free_sorted fuel s h l a :
  holds s (h :: l) → StronglySorted Z.lt (h :: l) → h < a → a ∉ l →
  is_Some (heap s !! a) → (length (h :: l) < fuel)%nat →
  ∃ s' l', ordered_free fuel a s = (Ok tt, s') ∧ holds s' l' ∧
    l' ≡ₚ a :: h :: l ∧ StronglySorted Z.lt l'.
Proof.
  intros Hh Hs Ha Hal Hm Hf.
  assert (0 < h) by (eapply holds_pos; [done|set_solver]).
  destruct (ordered_free_holds fuel s (h :: l) a) as (s' & Hr & Hh' & _); [done|lia| |done|done|].
  { rewrite not_elem_of_cons. split; [lia|done]. }
  exists s', (ordered_insert a [a] (h :: l)). split_and!; [done|done| |].
  - simpl. rewrite insert_tail_Permutation. apply Permutation_swap.
  - apply ordered_insert_sorted; [repeat constructor|done|set_solver|].
    intros c b ->%list_elem_of_singleton Hb. case_decide; [done|].
    assert (a ≠ b) by (by intros ->). lia.
Qed.

(** [upper_bound] never looks at the head of the list: freeing a chunk
    that lies below the head of a non-empty free list leaves a list that is
    not sorted, although [ordered_free] is documented to keep the order. *)
Theorem seg_ordered_free_below_head fuel s h l a :
  holds s (h :: l) → 0 < a < h → a ∉ l →
  is_Some (heap s !! a) → (length (h :: l) < fuel)%nat →
  ∃ s' l', ordered_free fuel a s = (Ok tt, s') ∧ holds s' l' ∧
    hd null l' = h ∧ a ∈ l' ∧ ¬ StronglySorted Z.lt l'.
Proof.
  intros Hh Ha Hal Hm Hf.
  destruct (ordered_free_holds fuel s (h :: l) a) as (s' & Hr & Hh' & _); [done|lia| |done|done|].
  { rewrite not_elem_of_cons. split; [lia|done]. }
  assert (a ∈ insert_tail a [a] l) by (apply elem_of_insert_tail; set_solver).
  exists s', (ordered_insert a [a] (h :: l)). simpl. split_and!; [done..|set_solver|].
  intros [_ Hlt]%StronglySorted_inv. rewrite Forall_forall in Hlt.
  specialize (Hlt a ltac:(done)). lia.
Qed.

(** A block of exactly [n >= 2] chunks is cut into [n - 1] chunks only
    (documented: as many as possible), so [free_n] of [n] chunks, which frees
    through [add_block], gives back one chunk less than it was given. *)
Theorem seg_free_n_loses_a_chunk s l c psz (n : nat) :
  holds s l → 0 < c → 0 < psz → (2 ≤ n)%nat → psz * Z.of_nat n < 2 ^ 64 →
  (∀ a, a ∈ chunks_of c psz n → is_Some (heap s !! a) ∧ a ∉ l) →
  ∃ s', free_n c psz (Z.of_nat n) s = (Ok tt, s') ∧
    holds s' (chunks_of c psz (n - 1) ++ l).
Proof.
  intros Hh Hc Hp Hn Hw Hm. unfold free_n. rewrite u64_small by nia.
  assert (seg_count (psz * Z.of_nat n) psz = (n - 1)%nat) as Hcnt.
  { unfold seg_count.
    replace (psz * Z.of_nat n - 1) with ((psz - 1) + (Z.of_nat n - 1) * psz) by lia.
    rewrite Z.div_add, Z.div_small by lia. lia. }
  assert (∀ a, a ∈ chunks_of c psz (n - 1) → a ∈ chunks_of c psz n) as Hsub.
  { setoid_rewrite elem_of_chunks_of. intros a (i & ? & ->). exists i. lia. }
  destruct (add_block_holds s l c (psz * Z.of_nat n) psz) as (s' & ? & ? & _);
    rewrite ?Hcnt in *; [done|done|nia| | |eauto].
  - intros a Ha. rewrite Hcnt in Ha. naive_solver.
  - naive_solver.
Qed.

(** ** Witnesses *)

Ltac solve_holds :=
  split;
  [ repeat (split; [reflexivity|split; [reflexivity|
      eexists; split; [vm_compute; reflexivity|]]]); reflexivity
  | apply (bool_decide_unpack _); vm_compute; exact I ].

(** Three chunks of 16 bytes at 64 (of a 64-byte block), the fourth unused. *)
Definition ex_state : state :=
  snd (add_block 64 64 16 (State (map_block 64 64 ∅) null)).

Lemma ex_state_holds : holds ex_state [64; 80; 96].
Proof. solve_holds. Qed.

Lemma seg_add_block_witness :
  ∃ s', add_block 64 64 16 (State (map_block 64 64 ∅) null) = (Ok tt, s') ∧
    holds s' [64; 80; 96].
Proof.
  destruct (seg_add_block_spec (State (map_block 64 64 ∅) null) [] 64 64 16)
    as (s' & H1 & H2 & _); [solve_holds|lia|lia| | |].
  - intros a Ha. vm_compute in Ha. unfold heap. rewrite lookup_map_block.
    case_decide as Hn; [eauto|]. exfalso. apply Hn. clear Hn. vm_compute. set_solver.
  - intros a _. apply not_elem_of_nil.
  - exists s'. split; [exact H1|exact H2].
Defined.

Lemma seg_free_malloc_witness :
  ∃ s', (free 112 ;;; malloc) ex_state = (Ok 112, s') ∧ holds s' [64; 80; 96].
Proof.
  destruct (seg_free_malloc_roundtrip ex_state [64; 80; 96] 112) as (s' & ? & ? & _).
  - apply ex_state_holds.
  - lia.
  - apply (bool_decide_unpack _); vm_compute; exact I.
  - vm_compute. eauto.
  - by exists s'.
Defined.

Lemma seg_malloc_n_witness :
  (malloc_n 4 2 16 ex_state = (Ok null, ex_state) ∧
   ∀ i, (i < 3)%nat → ¬ run_at 16 [64; 80; 96] i 2) ∨
  (∃ a pre post s', malloc_n 4 2 16 ex_state = (Ok a, s') ∧ 0 < a ∧
     [64; 80; 96] = pre ++ chunks_of a 16 2 ++ post ∧ holds s' (pre ++ post)).
Proof.
  apply (seg_malloc_n_spec 4 ex_state [64; 80; 96] 2 16);
    [apply ex_state_holds|simpl; lia|lia|lia|simpl; lia].
Defined.

Lemma seg_ordered_free_witness :
  ∃ s' l', ordered_free 4 112 ex_state = (Ok tt, s') ∧ holds s' l' ∧
    l' ≡ₚ [112; 64; 80; 96] ∧ StronglySorted Z.lt l'.
Proof.
  apply (seg_ordered_free_sorted 4 ex_state 64 [80; 96] 112);
    [apply ex_state_holds|repeat constructor|lia| |vm_compute; eauto|simpl; lia].
  apply (bool_decide_unpack _); vm_compute; exact I.
Defined.

(** The free list [80; 96] with the chunk at 64 handed out. *)
Definition ex_state_low : state := snd (malloc ex_state).

Lemma seg_ordered_free_below_witness :
  ∃ s' l', ordered_free 4 64 ex_state_low = (Ok tt, s') ∧ holds s' l' ∧
    hd null l' = 80 ∧ 64 ∈ l' ∧ ¬ StronglySorted Z.lt l'.
Proof.
  apply (seg_ordered_free_below_head 4 ex_state_low 80 [96] 64);
    [solve_holds|lia| |vm_compute; eauto|simpl; lia].
  apply (bool_decide_unpack _); vm_compute; exact I.
Defined.

Lemma seg_free_n_witness :
  ∃ s', free_n 64 16 4 (State (map_block 64 64 ∅) null) = (Ok tt, s') ∧
    holds s' (chunks_of 64 16 3 ++ []).
Proof.
  apply (seg_free_n_loses_a_chunk (State (map_block 64 64 ∅) null) [] 64 16 4);
    [solve_holds|lia|lia|lia|lia|].
  intros a Ha. vm_compute in Ha. split; [|apply not_elem_of_nil].
  unfold heap. rewrite lookup_map_block. case_decide as Hn; [eauto|].
  exfalso. apply Hn. clear Hn. vm_compute. set_solver.
Defined.

End Seg.
