(* ===== verification/Pool.v ===== *)
(** * Memory pools (pool.hpp, pmr/detail/resource_pool.hpp)

    A pool takes blocks from an upstream allocator, cuts each into chunks that
    go to its segregated storage, and keeps the blocks in a list threaded
    through a [block_info] record at the end of every block.  [pool] and
    [resource_pool] share their code and differ in the upstream: the static
    functions of a user allocator, or a [memory_resource].  The upstream is an
    interface ([Upstream]) with the laws the pools rely on ([UpstreamOk]). *)

From S2P Require Import Prelude SegStorage.

Local Open Scope Z_scope.
Local Open Scope gpcl_scope.

(** ** The upstream interface *)

Class Upstream : Type := {
  up_alloc : Z → M mem Z;
  up_free : Z → Z → M mem unit;
}.

(** Memory after the block of [sz] bytes at [b] is given back. *)
Definition unmap_block (b sz : Z) (h : mem) : mem :=
  foldr delete h (block_cells b sz).

(** An allocation fails (null or an exception) and leaves memory alone, or
    returns a new block: aligned to 16 bytes, inside the address space and not
    overlapping any mapped word. A block given back is unmapped. *)
Class UpstreamOk `{!Upstream} : Prop := {
  up_alloc_ok : ∀ sz h, 0 < sz →
    up_alloc sz h = (Ok null, h) ∨ (∃ e, up_alloc sz h = (Throw e, h)) ∨
    (∃ b, up_alloc sz h = (Ok b, map_block b sz h) ∧ 0 < b ∧ b mod 16 = 0 ∧
       b + sz < 2 ^ 64 ∧ (∀ a, is_Some (h !! a) → a + 8 ≤ b ∨ b + sz ≤ a));
  up_free_ok : ∀ b sz h, up_free b sz h = (Ok tt, unmap_block b sz h);
}.

Module Pool.

Record state : Type := State {
  storage_ : Seg.state;
  requested_size_ : Z;
  chunk_size_ : Z;
  next_size_ : Z;
  block_list_ : Z * Z;
}.

Definition heap (s : state) : mem := Seg.heap (storage_ s).
Definition set_storage (t : Seg.state) (s : state) : state :=
  State t (requested_size_ s) (chunk_size_ s) (next_size_ s) (block_list_ s).
Definition set_next (n : Z) (s : state) : state :=
  State (storage_ s) (requested_size_ s) (chunk_size_ s) n (block_list_ s).
Definition set_block_list (b : Z * Z) (s : state) : state :=
  State (storage_ s) (requested_size_ s) (chunk_size_ s) (next_size_ s) b.

Definition on_storage {A} (m : M Seg.state A) : M state A := zoom storage_ set_storage m.
Definition on_heap {A} (m : M mem A) : M state A := on_storage (Seg.on_heap m).

(** [sizeof(block_info)] and [alignof(block_info)]: a pointer and a size. *)
Definition sizeof_block_info : Z := 16.
Definition alignof_block_info : Z := 8.

(** The constructor; [storage] is the default-constructed storage on memory [h]. *)
Definition pool (requested_size : Z) (h : mem) : outcome state :=
  if bool_decide (requested_size ≠ 0) then
    Ok (State (Seg.State h null) requested_size
          (Z.lcm requested_size (Z.lcm word_size word_size)) 32 (null, 0))
  else Abort.

Definition requested_size : M state Z := gets requested_size_.
Definition get_next_size : M state Z := gets next_size_.
Definition set_next_size (next_size : Z) : M state unit :=
  gpcl_assert (bool_decide (next_size ≠ 0)) ;;; modify (set_next next_size).

Definition block_info_offset (block_size : Z) : Z :=
  u64 (block_size - sizeof_block_info) / alignof_block_info * alignof_block_info.

Definition read_block_info (a : Z) : M state (Z * Z) :=
  let! ptr := on_heap (load a) in
  let! size := on_heap (load (a + word_size)) in
  ret (ptr, size).
Definition write_block_info (a : Z) (b : Z * Z) : M state unit :=
  on_heap (store a b.1) ;;; on_heap (store (a + word_size) b.2).

Definition chunk_count (n : Z) : M state Z :=
  let! rs := gets requested_size_ in
  let! cs := gets chunk_size_ in
  let array_size := u64 (n * rs) in
  let r := u64 (array_size + cs - 1) / cs in
  gpcl_assert (bool_decide (u64 (n * rs) ≤ u64 (r * cs))) ;;;
  ret r.

Definition add_block (fuel : nat) (ptr sz : Z) (end_ : Z * Z) (ordered : bool) : M state (Z * Z) :=
  let chunks_size := block_info_offset sz in
  let! cs := gets chunk_size_ in
  (if ordered then on_storage (Seg.add_ordered_block fuel ptr chunks_size cs)
   else on_storage (Seg.add_block ptr chunks_size cs)) ;;;
  write_block_info (ptr + chunks_size) end_ ;;;
  ret (ptr, sz).

(** The doubling loop of [request_new_block]; [sz] reaches 0 after at most 64
    doublings, from where the loop cannot leave, so 65 rounds decide it. *)
Fixpoint grow_size (fuel : nat) (sz min : Z) : M state Z :=
  match fuel with
  | O => nofuel
  | S fuel => if bool_decide (sz < min) then grow_size fuel (u64 (sz * 2)) min else ret sz
  end.

Section ops.
Context `{!Upstream}.

Definition request_new_block (fuel : nat) (min_size : Z) (ordered : bool) : M state bool :=
  let! next := gets next_size_ in
  let! cs := gets chunk_size_ in
  let! sz := grow_size 65 (u64 (next * cs)) (u64 (min_size + sizeof_block_info * 2)) in
  modify (set_next (u64 (next * 2))) ;;;
  let! block := on_heap (up_alloc sz) in
  if bool_decide (block = null) then ret false
  else
    let! bl := gets block_list_ in
    let! bl' := add_block fuel block sz bl ordered in
    modify (set_block_list bl') ;;;
    let! e := on_storage Seg.empty in
    gpcl_assert (negb e) ;;;
    ret true.

Definition malloc_with (fuel : nat) (ordered : bool) : M state Z :=
  let! e := on_storage Seg.empty in
  if e then
    let! cs := gets chunk_size_ in
    let! ok := request_new_block fuel cs ordered in
    if ok then on_storage Seg.malloc else ret null
  else on_storage Seg.malloc.

(** [malloc()] and [ordered_malloc()]. *)
Definition malloc (fuel : nat) : M state Z := malloc_with fuel false.
Definition ordered_malloc (fuel : nat) : M state Z := malloc_with fuel true.

(** [ordered_malloc(n)]; [fuel] bounds the walks of the free list. *)
Definition ordered_malloc_n (fuel : nat) (n : Z) : M state Z :=
  gpcl_assert (bool_decide (n ≠ 0)) ;;;
  let! count := chunk_count n in
  let! cs := gets chunk_size_ in
  let! r := on_storage (Seg.malloc_n fuel count cs) in
  if bool_decide (r ≠ null) then ret r
  else
    let! _ := request_new_block fuel (u64 (count * cs)) true in
    on_storage (Seg.malloc_n fuel count cs).

(** The destructor, returning the blocks in the order they are given back. *)
Fixpoint destroy_loop (fuel : nat) (block : Z * Z) : M state (list (Z * Z)) :=
  match fuel with
  | O => nofuel
  | S fuel =>
      if bool_decide (block.1 ≠ null) then
        let! next := read_block_info (block.1 + block_info_offset block.2) in
        on_heap (up_free block.1 block.2) ;;;
        let! rest := destroy_loop fuel next in
        ret (block :: rest)
      else ret []
  end.
Definition destroy (fuel : nat) : M state (list (Z * Z)) :=
  let! bl := gets block_list_ in destroy_loop fuel bl.

End ops.

Definition free (ptr : Z) : M state unit := on_storage (Seg.free ptr).
Definition ordered_free (fuel : nat) (ptr : Z) : M state unit :=
  on_storage (Seg.ordered_free fuel ptr).
Definition ordered_free_n (fuel : nat) (ptr n : Z) : M state unit :=
  let! count := chunk_count n in
  let! cs := gets chunk_size_ in
  on_storage (Seg.ordered_free_n fuel ptr count cs).

Fixpoint is_from_loop (fuel : nat) (block : Z * Z) (ptr : Z) : M state bool :=
  match fuel with
  | O => nofuel
  | S fuel =>
      if bool_decide (block.1 ≠ null) then
        if bool_decide (block.1 ≤ ptr ∧ ptr < block.1 + block_info_offset block.2) then
          let! cs := gets chunk_size_ in
          ret (bool_decide (u64 (ptr - block.1) mod cs = 0))
        else
          let! next := read_block_info (block.1 + block_info_offset block.2) in
          is_from_loop fuel next ptr
      else ret false
  end.
Definition is_from (fuel : nat) (ptr : Z) : M state bool :=
  let! bl := gets block_list_ in is_from_loop fuel bl ptr.

(** ** Invariant *)

(** A block of whole words big enough for one chunk and its [block_info]. *)
Definition good_block (cs : Z) (b : Z * Z) : Prop :=
  0 < b.1 ∧ b.1 mod 16 = 0 ∧ b.1 + b.2 < 2 ^ 64 ∧ cs + 32 ≤ b.2 ∧ b.2 mod 8 = 0.

Definition separate (b c : Z * Z) : Prop := b.1 + b.2 ≤ c.1 ∨ c.1 + c.2 ≤ b.1.
Fixpoint disjoint_blocks (bs : list (Z * Z)) : Prop :=
  match bs with
  | [] => True
  | b :: bs => Forall (separate b) bs ∧ disjoint_blocks bs
  end.

(** The list of blocks threaded through the [block_info] records. *)
Fixpoint blocks_chain (h : mem) (bl : Z * Z) (bs : list (Z * Z)) : Prop :=
  match bs with
  | [] => bl.1 = null
  | b :: bs => bl = b ∧ ∃ nxt : Z * Z,
      h !! (b.1 + block_info_offset b.2) = Some nxt.1 ∧
      h !! (b.1 + block_info_offset b.2 + word_size) = Some nxt.2 ∧
      blocks_chain h nxt bs
  end.

(** [a] is one of the chunks a block is cut into. *)
Definition chunk_in (cs : Z) (b : Z * Z) (a : Z) : Prop :=
  ∃ k, 0 ≤ k ∧ a = b.1 + k * cs ∧ a + cs ≤ b.1 + block_info_offset b.2.
Definition chunk_ok (cs : Z) (bs : list (Z * Z)) (a : Z) : Prop :=
  Exists (λ b, chunk_in cs b a) bs.

(** The pool owns the blocks [bs]; their chunks are the free ones, in the
    order of the free list, and the live ones, handed out and not given back. *)
Record wf (s : state) (bs : list (Z * Z)) (free live : list Z) : Prop := {
  wf_chunk_size : 0 < chunk_size_ s ∧ chunk_size_ s mod 8 = 0;
  wf_free : Seg.holds (storage_ s) free;
  wf_blocks : blocks_chain (heap s) (block_list_ s) bs;
  wf_good : Forall (good_block (chunk_size_ s)) bs;
  wf_disjoint : disjoint_blocks bs;
  wf_mapped : ∀ b a, b ∈ bs → a ∈ block_cells b.1 b.2 → is_Some (heap s !! a);
  wf_nodup : NoDup (free ++ live);
  wf_chunks : Forall (chunk_ok (chunk_size_ s) bs) (free ++ live);
}.

(** ** Lemmas *)

Lemma on_storage_eq {A} (m : M Seg.state A) s r t :
  m (storage_ s) = (r, t) → on_storage m s = (r, set_storage t s).
Proof. apply zoom_eq. Qed.

Lemma on_heap_eq {A} (m : M mem A) s r h :
  m (heap s) = (r, h) →
  on_heap m s = (r, set_storage (Seg.State h (Seg.free_list_ (storage_ s))) s).
Proof. intros Hm. apply on_storage_eq. unfold Seg.on_heap. by erewrite zoom_eq. Qed.

Lemma set_storage_id s : set_storage (Seg.State (heap s) (Seg.free_list_ (storage_ s))) s = s.
Proof. by destruct s as [[] ? ? ? []]. Qed.

Lemma block_info_offset_bounds sz :
  16 ≤ sz < 2 ^ 64 →
  block_info_offset sz mod 8 = 0 ∧ sz - 24 < block_info_offset sz ≤ sz - 16 ∧
  0 ≤ block_info_offset sz.
Proof.
  intros H. unfold block_info_offset, sizeof_block_info, alignof_block_info.
  rewrite u64_small by lia. rewrite Z.mod_mul by lia.
  pose proof (Z.div_mod (sz - 16) 8). pose proof (Z.mod_pos_bound (sz - 16) 8). lia.
Qed.

Lemma read_block_info_ok s a v w :
  heap s !! a = Some v → heap s !! (a + word_size) = Some w →
  read_block_info a s = (Ok (v, w), s).
Proof.
  intros Hv Hw. unfold read_block_info.
  erewrite bind_ok by (apply on_heap_eq, load_ok, Hv). rewrite set_storage_id.
  erewrite bind_ok by (apply on_heap_eq, load_ok, Hw). by rewrite set_storage_id.
Qed.

Lemma write_block_info_ok s a b :
  is_Some (heap s !! a) → is_Some (heap s !! (a + word_size)) →
  write_block_info a b s =
    (Ok tt, set_storage (Seg.State (<[a + word_size := b.2]> (<[a := b.1]> (heap s)))
                           (Seg.free_list_ (storage_ s))) s).
Proof.
  intros Ha Hb. unfold write_block_info.
  erewrite bind_ok by (by apply on_heap_eq, store_ok).
  erewrite on_heap_eq; [done|]. apply store_ok. unfold heap. simpl.
  rewrite lookup_insert_ne by (unfold word_size; lia). done.
Qed.

Lemma grow_size_ok fuel sz min s :
  0 < sz < 2 ^ 64 → sz mod 8 = 0 → min ≤ 2 ^ 63 → min ≤ sz * 2 ^ Z.of_nat fuel →
  ∃ sz', grow_size (S fuel) sz min s = (Ok sz', s) ∧ min ≤ sz' < 2 ^ 64 ∧
    sz' mod 8 = 0 ∧ sz' ≤ Z.max sz (2 * min).
Proof.
  revert sz. induction fuel as [|fuel IH]; intros sz Hsz Hs8 Hmin Hle;
    cbn [grow_size]; case_bool_decide as Hlt.
  1: lia. 1,3: exists sz; split_and!; [done|lia..].
  assert ((sz * 2) mod 8 = 0) by (by rewrite Z.mul_mod, Hs8 by lia).
  rewrite u64_small by lia. rewrite Nat2Z.inj_succ, Z.pow_succ_r in Hle by lia.
  destruct (IH (sz * 2)) as (sz' & ? & ? & ? & ?); [lia|done|lia|lia|]. exists sz'.
  split_and!; [done|lia..].
Qed.

Lemma map_block_fresh b sz h a :
  (∀ a, is_Some (h !! a) → a + 8 ≤ b ∨ b + sz ≤ a) →
  is_Some (h !! a) → map_block b sz h !! a = h !! a.
Proof.
  intros Hf Ha. rewrite lookup_map_block. case_decide as Hc; [|done].
  apply elem_of_block_cells in Hc. unfold word_size in Hc. specialize (Hf a Ha). lia.
Qed.

Lemma blocks_chain_frame h h' bl bs :
  blocks_chain h bl bs →
  (∀ b a, b ∈ bs → a = b.1 + block_info_offset b.2 ∨
     a = b.1 + block_info_offset b.2 + word_size → h' !! a = h !! a) →
  blocks_chain h' bl bs.
Proof.
  revert bl. induction bs as [|b bs IH]; simpl; [done|].
  intros bl (-> & nxt & H1 & H2 & Hc) Hf. split; [done|]. exists nxt.
  rewrite !(Hf b) by (set_solver || eauto). split_and!; [done..|].
  apply IH; [done|]. intros c a Hc' Ha. apply (Hf c); [set_solver|done].
Qed.

(** The words of a chunk are not those of a [block_info]. *)
Lemma chunk_not_info cs bs a c b :
  0 < cs → Forall (good_block cs) bs → disjoint_blocks bs → chunk_ok cs bs a →
  b ∈ bs → c = b.1 + block_info_offset b.2 ∨ c = b.1 + block_info_offset b.2 + word_size →
  c + 8 ≤ a ∨ a + cs ≤ c.
Proof.
  intros Hcs Hg Hd Ha Hb Hc. unfold chunk_ok in Ha. revert Hb Ha.
  unfold word_size in Hc. revert Hd Hg.
  assert (∀ d, good_block cs d → block_info_offset d.2 ≤ d.2 - 16 ∧ 0 ≤ block_info_offset d.2) as Hoff.
  { intros d (? & ? & ? & ?). pose proof (block_info_offset_bounds d.2). lia. }
  induction bs as [|e bs IH]; [set_solver|]. simpl.
  intros [Hsep Hd] [Hge Hg]%Forall_cons. rewrite Forall_forall in Hsep, Hg.
  pose proof (Hoff e Hge). destruct Hge as (? & ? & ? & ?).
  intros [->|Hb]%elem_of_cons [Ha|Ha]%Exists_cons.
  - destruct Ha as (k & ? & -> & ?). lia.
  - apply Exists_exists in Ha as (d & Hd' & k & ? & -> & ?).
    specialize (Hsep d Hd'). unfold separate in Hsep. specialize (Hg d Hd').
    pose proof (Hoff d Hg). nia.
  - destruct Ha as (k & ? & -> & ?). specialize (Hsep b Hb). unfold separate in Hsep.
    specialize (Hg b Hb). pose proof (Hoff b Hg). destruct Hg as (? & ? & ? & ?). nia.
  - apply IH; [done|by apply Forall_forall|done|done].
Qed.

Lemma chunk_off_info cs bs a c b :
  0 < cs → cs mod 8 = 0 → Forall (good_block cs) bs → disjoint_blocks bs → chunk_ok cs bs a →
  b ∈ bs → c = b.1 + block_info_offset b.2 ∨ c = b.1 + block_info_offset b.2 + word_size → a ≠ c.
Proof.
  intros Hcs [d Hd]%Z.mod_divide Hg Hdis Ha Hb Hc; [|done].
  destruct (chunk_not_info cs bs a c b); try done; lia.
Qed.

(** The invariant only looks at the first word of free chunks and at the
    [block_info] records. *)
Lemma wf_frame s bs free live h' :
  wf s bs free live →
  (∀ a, is_Some (heap s !! a) → is_Some (h' !! a)) →
  (∀ a, a ∈ free → h' !! a = heap s !! a) →
  (∀ b a, b ∈ bs → a = b.1 + block_info_offset b.2 ∨
     a = b.1 + block_info_offset b.2 + word_size → h' !! a = heap s !! a) →
  wf (set_storage (Seg.State h' (Seg.free_list_ (storage_ s))) s) bs free live.
Proof.
  intros [? [Hc ?] ? ? ? ? ? ?] Hdom Hf Hb. split; simpl; try done.
  - split; [|done]. by eapply Seg.chain_frame.
  - by eapply blocks_chain_frame.
  - eauto.
Qed.

Lemma chunks_of_chunk_in b sz cs a :
  good_block cs (b, sz) → 0 < cs →
  a ∈ Seg.chunks_of b cs (Seg.seg_count (block_info_offset sz) cs) →
  chunk_in cs (b, sz) a.
Proof.
  intros (? & ? & ? & ?) Hcs (i & Hi & ->)%Seg.elem_of_chunks_of. simpl in *.
  pose proof (block_info_offset_bounds sz).
  destruct (Seg.seg_count_S (block_info_offset sz) cs) as (n & Hn & _ & Hlt & _); [lia|].
  exists (Z.of_nat i). simpl. split_and!; [lia|lia|]. rewrite Hn in Hi.
  destruct i as [|i]; [lia|]. specialize (Hlt i). lia.
Qed.

Lemma chunk_in_cell cs b a :
  good_block cs b → 0 < cs → cs mod 8 = 0 → chunk_in cs b a → a ∈ block_cells b.1 b.2.
Proof.
  intros (? & ? & ? & ?) Hcs Hm (k & ? & -> & ?). apply elem_of_block_cells.
  pose proof (block_info_offset_bounds b.2). unfold word_size.
  apply Z.mod_divide in Hm as [j ->]; [|lia]. split_and!; [nia|nia|].
  replace (b.1 + k * (j * 8) - b.1) with ((k * j) * 8) by ring. by apply Z.mod_mul.
Qed.

Lemma info_cells cs b :
  good_block cs b → 0 < cs →
  b.1 + block_info_offset b.2 ∈ block_cells b.1 b.2 ∧
  b.1 + block_info_offset b.2 + word_size ∈ block_cells b.1 b.2.
Proof.
  intros (? & ? & ? & ?) Hcs. rewrite !elem_of_block_cells. unfold word_size.
  destruct (block_info_offset_bounds b.2) as (Hm & ? & ?); [lia|].
  replace (b.1 + block_info_offset b.2 - b.1) with (block_info_offset b.2) by lia.
  replace (b.1 + block_info_offset b.2 + 8 - b.1) with (block_info_offset b.2 + 1 * 8) by lia.
  rewrite Z.mod_add by lia. lia.
Qed.

(** Chunks of separate blocks, and of one block at different indices, differ. *)
Lemma chunk_ok_not_in cs bs b a :
  0 < cs → Forall (good_block cs) bs → good_block cs b → Forall (separate b) bs →
  chunk_ok cs bs a → ¬ chunk_in cs b a.
Proof.
  intros Hcs Hg Hgb Hsep (c & Hc & k & ? & -> & ?)%Exists_exists (j & ? & Hj & ?).
  rewrite Forall_forall in Hg, Hsep. specialize (Hg c Hc). specialize (Hsep c Hc).
  unfold separate, good_block in *. pose proof (block_info_offset_bounds b.2).
  pose proof (block_info_offset_bounds c.2). nia.
Qed.

Definition new_chunks (cs b sz : Z) : list Z :=
  Seg.chunks_of b cs (Seg.seg_count (block_info_offset sz) cs).

(** The free list after the chunks [cs] of a block at [b] are added. *)
Definition place (ordered : bool) (b : Z) (cs free : list Z) : list Z :=
  if ordered then Seg.ordered_insert b cs free else cs ++ free.

Lemma ordered_insert_Permutation p cs l : Seg.ordered_insert p cs l ≡ₚ cs ++ l.
Proof.
  destruct l as [|a l]; simpl; [by rewrite app_nil_r|].
  by rewrite Seg.insert_tail_Permutation, Permutation_middle.
Qed.

Lemma place_Permutation (o : bool) b cs l : place o b cs l ≡ₚ cs ++ l.
Proof. destruct o; [apply ordered_insert_Permutation|done]. Qed.

Lemma storage_add_ok fuel (o : bool) t l b sz cs :
  Seg.holds t l → (length l < fuel)%nat → good_block cs (b, sz) → 0 < cs →
  (∀ a, a ∈ new_chunks cs b sz → is_Some (Seg.heap t !! a) ∧ a ∉ l) →
  ∃ t', (if o then Seg.add_ordered_block fuel b (block_info_offset sz) cs
         else Seg.add_block b (block_info_offset sz) cs) t = (Ok tt, t') ∧
    Seg.holds t' (place o b (new_chunks cs b sz) l) ∧
    (∀ a, a ∉ new_chunks cs b sz → a ∉ l → Seg.heap t' !! a = Seg.heap t !! a) ∧
    (∀ a, is_Some (Seg.heap t !! a) → is_Some (Seg.heap t' !! a)).
Proof.
  intros Hh Hf (? & ? & ? & ?) Hcs Hm. simpl in *.
  pose proof (block_info_offset_bounds sz).
  destruct o.
  - destruct (Seg.add_ordered_block_holds fuel t l b (block_info_offset sz) cs)
      as (t' & ? & ? & ? & ?); [done|lia|lia|by intros a Ha; apply Hm|by intros a Ha; apply Hm|done|].
    eauto 10.
  - destruct (Seg.add_block_holds t l b (block_info_offset sz) cs)
      as (t' & ? & ? & ? & ?); [done|lia|lia|by intros a Ha; apply Hm|by intros a Ha; apply Hm|].
    eauto 10.
Qed.

Lemma separate_sym b c : separate b c → separate c b.
Proof. unfold separate. tauto. Qed.

(** The two words of a [block_info] of one block are not those of another. *)
Lemma info_ne cs b c (x y : Z) :
  good_block cs b → good_block cs c → 0 < cs → separate b c → 0 ≤ x ≤ 8 → 0 ≤ y ≤ 8 →
  b.1 + block_info_offset b.2 + x ≠ c.1 + block_info_offset c.2 + y.
Proof.
  unfold good_block, separate. intros. pose proof (block_info_offset_bounds b.2).
  pose proof (block_info_offset_bounds c.2). lia.
Qed.

Lemma new_chunks_fresh s bs free live b sz a :
  wf s bs free live → good_block (chunk_size_ s) (b, sz) → Forall (separate (b, sz)) bs →
  a ∈ free ++ live → a ∉ new_chunks (chunk_size_ s) b sz.
Proof.
  intros [[Hcs Hcs8] _ _ Hgood _ _ _ Hch] Hg Hsep Ha Ha'. rewrite Forall_forall in Hch.
  eapply (chunk_ok_not_in (chunk_size_ s) bs (b, sz) a); eauto. by apply chunks_of_chunk_in.
Qed.
(** The new block with its [block_info] in a pool whose storage [t] has its chunks. *)
Lemma add_block_wf (o : bool) s bs free live b sz t :
  wf s bs free live → good_block (chunk_size_ s) (b, sz) → Forall (separate (b, sz)) bs →
  (∀ a, a ∈ block_cells b sz → is_Some (heap s !! a)) →
  Seg.holds t (place o b (new_chunks (chunk_size_ s) b sz) free) →
  (∀ a, a ∉ new_chunks (chunk_size_ s) b sz → a ∉ free → Seg.heap t !! a = heap s !! a) →
  (∀ a, is_Some (heap s !! a) → is_Some (Seg.heap t !! a)) →
  let q := b + block_info_offset sz in
  let h := <[q + word_size := (block_list_ s).2]> (<[q := (block_list_ s).1]> (Seg.heap t)) in
  wf (set_block_list (b, sz) (set_storage (Seg.State h (Seg.free_list_ t)) s)) ((b, sz) :: bs)
    (place o b (new_chunks (chunk_size_ s) b sz) free) live.
Proof.
  intros Hwf Hg Hsep Hcells [Hc Hn] Hfr Hdom q h.
  pose proof Hwf as [[Hcs Hcs8] Hfree Hbl Hgood Hdis Hmap Hnd Hch].
  set (cs := chunk_size_ s) in *.
  assert (Forall (chunk_ok cs ((b, sz) :: bs)) (new_chunks cs b sz ++ free ++ live)) as Hall.
  { apply Forall_app. split; apply Forall_forall; intros a Ha; [left; by apply chunks_of_chunk_in|].
    right. by apply (proj1 (Forall_forall _ _) Hch). }
  rewrite Forall_forall in Hall.
  assert (∀ a c d, a ∈ new_chunks cs b sz ++ free ++ live → d ∈ (b, sz) :: bs →
     c = d.1 + block_info_offset d.2 ∨ c = d.1 + block_info_offset d.2 + word_size → c ≠ a) as Hne.
  { intros a c d Ha Hd Hcd. apply not_eq_sym, (chunk_off_info cs ((b, sz) :: bs) a c d); auto.
    by constructor. }
  split; unfold heap; simpl; try done.
  - split; [|done]. eapply Seg.chain_frame; [done|]. intros a Ha. rewrite place_Permutation in Ha.
    unfold h. simpl. rewrite !lookup_insert_ne; [done|..];
      (apply (Hne a _ (b, sz)); [set_solver|set_solver|]); [by left|by right].
  - split; [done|]. exists (block_list_ s). unfold h, q.
    rewrite lookup_insert_ne, lookup_insert_eq by (unfold word_size; lia).
    rewrite lookup_insert_eq. split_and!; [done|done|].
    eapply blocks_chain_frame; [exact Hbl|]. intros c a Hc' Ha.
    rewrite Forall_forall in Hgood, Hsep.
    assert (∀ x, 0 ≤ x ≤ 8 → q + x ≠ a) as Hq.
    { intros x Hx. unfold q. destruct Ha as [-> | ->];
        [rewrite <- (Z.add_0_r (c.1 + _))|]; apply (info_ne cs (b, sz) c); auto;
        unfold word_size; lia. }
    rewrite !lookup_insert_ne; [|specialize (Hq 0); lia|apply (Hq 8); lia].
    assert (a ∉ new_chunks cs b sz ++ free ++ live) as Hna.
    { intros Hin. by apply (Hne a a c); [|set_solver|..]. }
    apply Hfr; set_solver.
  - by constructor.
  - intros c a Hin Ha. unfold h. rewrite !lookup_insert. repeat case_decide; try (by eexists).
    apply Hdom. apply elem_of_cons in Hin as [->|Hc']; [by apply Hcells|by apply (Hmap c)].
  - rewrite place_Permutation, <- app_assoc. apply NoDup_app.
    split_and!; [by apply Seg.NoDup_chunks_of| |done].
    intros a Ha Ha'. by apply (new_chunks_fresh s bs free live b sz a).
  - rewrite place_Permutation, <- app_assoc. by apply Forall_forall.
Qed.
Lemma add_block_ok fuel (o : bool) s bs free live b sz :
  wf s bs free live → good_block (chunk_size_ s) (b, sz) → Forall (separate (b, sz)) bs →
  (∀ a, a ∈ block_cells b sz → is_Some (heap s !! a)) → (length free < fuel)%nat →
  ∃ t, add_block fuel b sz (block_list_ s) o s = (Ok (b, sz), set_storage t s) ∧
    wf (set_block_list (b, sz) (set_storage t s)) ((b, sz) :: bs)
      (place o b (new_chunks (chunk_size_ s) b sz) free) live ∧
    (∀ a, a ∉ block_cells b sz → a ∉ free → Seg.heap t !! a = heap s !! a).
Proof.
  intros Hwf Hg Hsep Hcells Hf. pose proof Hwf as [[Hcs Hcs8] Hfree _ _ _ _ _ Hch].
  set (cs := chunk_size_ s) in *.
  assert (∀ a, a ∈ new_chunks cs b sz → a ∈ block_cells b sz) as Hnew.
  { intros a Ha. apply (chunk_in_cell cs (b, sz)); [done|done|done|by apply chunks_of_chunk_in]. }
  assert (∀ a, a ∈ free ++ live → a ∉ new_chunks cs b sz) as Hold.
  { intros a Ha. by apply (new_chunks_fresh s bs free live b sz a). }
  destruct (storage_add_ok fuel o (storage_ s) free b sz cs) as (t & Hr & Hh & Hfr & Hdom);
    [done|done|done|done|intros a Ha; split; [by apply Hcells, Hnew|set_solver]|].
  destruct (info_cells cs (b, sz) Hg Hcs) as [Hi1 Hi2]. simpl in Hi1, Hi2.
  exists (Seg.State (<[b + block_info_offset sz + word_size := (block_list_ s).2]>
    (<[b + block_info_offset sz := (block_list_ s).1]> (Seg.heap t))) (Seg.free_list_ t)).
  split; [|split; [by apply add_block_wf|]].
  - unfold add_block. rewrite bind_gets.
    erewrite (bind_ok _ _ _ _ (set_storage t s)) by (destruct o; by apply on_storage_eq).
    by erewrite bind_ok by (apply write_block_info_ok; unfold heap; simpl; apply Hdom, Hcells; done).
  - intros a Ha Haf. simpl. rewrite !lookup_insert_ne by (intros <-; done).
    apply Hfr; [|done]. intros Hin. by apply Ha, Hnew.
Qed.

Section specs.
Context `{!Upstream, !UpstreamOk}.

(** The sizes of the pool stay clear of the 64-bit limit. *)
Definition roomy (s : state) (min_size : Z) : Prop :=
  0 < next_size_ s ∧ next_size_ s * chunk_size_ s < 2 ^ 64 ∧
  chunk_size_ s ≤ min_size ∧ min_size + 32 ≤ 2 ^ 63.

(** A fresh block does not overlap a block whose words are all mapped. *)
Lemma fresh_separate cs b c sz (h : mem) :
  good_block cs c → 0 < cs → b mod 16 = 0 → 0 < sz →
  (∀ a, a ∈ block_cells c.1 c.2 → is_Some (h !! a)) →
  (∀ a, is_Some (h !! a) → a + 8 ≤ b ∨ b + sz ≤ a) → separate (b, sz) c.
Proof.
  intros (? & Hc16 & ? & ? & Hc8) Hcs Hb16 Hsz Hmap Hout. unfold separate. simpl.
  destruct (decide (b + sz ≤ c.1)) as [|Hn1]; [by left|].
  destruct (decide (c.1 + c.2 ≤ b)) as [|Hn2]; [by right|]. exfalso.
  apply Z.mod_divide in Hb16 as [x Hx]; [|lia]. apply Z.mod_divide in Hc16 as [y Hy]; [|lia].
  apply Z.mod_divide in Hc8 as [z Hz]; [|lia].
  assert (Z.max c.1 b ∈ block_cells c.1 c.2) as Hin.
  { apply elem_of_block_cells. unfold word_size.
    destruct (Z.max_spec c.1 b) as [[? ->]|[? ->]]; split_and!; try lia.
    - replace (b - c.1) with ((2 * (x - y)) * 8) by lia. by apply Z.mod_mul.
    - by rewrite Z.sub_diag. }
  destruct (Hout _ (Hmap _ Hin)); lia.
Qed.

Lemma wf_map_block s bs free live b sz :
  wf s bs free live → good_block (chunk_size_ s) (b, sz) →
  (∀ a, is_Some (heap s !! a) → a + 8 ≤ b ∨ b + sz ≤ a) →
  let s1 := set_storage (Seg.State (map_block b sz (heap s)) (Seg.free_list_ (storage_ s))) s in
  wf s1 bs free live ∧ Forall (separate (b, sz)) bs ∧
  (∀ a, a ∈ block_cells b sz → is_Some (heap s1 !! a)).
Proof.
  intros Hwf Hg Hfresh s1. pose proof Hwf as [[Hcs ?] [Hc _] _ Hgood _ Hmap _ _].
  rewrite Forall_forall in Hgood. split_and!.
  - apply wf_frame; [done|..].
    + intros a Ha. by rewrite map_block_fresh.
    + intros a Ha. apply map_block_fresh; [done|]. by eapply Seg.chain_mapped.
    + intros c a Hc' Ha. apply map_block_fresh; [done|].
      destruct (info_cells (chunk_size_ s) c) as [??]; [by apply Hgood|done|].
      destruct Ha as [-> | ->]; eauto.
  - apply Forall_forall. intros c Hc'. destruct Hg as (? & ? & ? & ? & ?). simpl in *.
    eapply fresh_separate; eauto. lia.
  - intros a Ha. unfold heap. simpl. rewrite lookup_map_block. case_decide; [eauto|done].
Qed.

Lemma wf_set_next s bs free live n : wf s bs free live → wf (set_next n s) bs free live.
Proof. by intros []. Qed.

(** No mapped word changes but the links of the free chunks. *)
Definition untouched (s s' : state) (free : list Z) : Prop :=
  ∀ a, is_Some (heap s !! a) → a ∉ free → heap s' !! a = heap s !! a.

(** The size of the chunks and of the objects stay, no word changes but links of free chunks,
    and there is at most one more block, where nothing was mapped. *)
Definition off (b : Z * Z) (h : mem) : Prop := ∀ a, is_Some (h !! a) → a + 8 ≤ b.1 ∨ b.1 + b.2 ≤ a.
Definition grown (s s' : state) (bs bs' : list (Z * Z)) (free : list Z) : Prop :=
  chunk_size_ s' = chunk_size_ s ∧ requested_size_ s' = requested_size_ s ∧ untouched s s' free ∧
  (bs' = bs ∨ ∃ b, bs' = b :: bs ∧ off b (heap s)).
Lemma grown_same s s' bs free :
  chunk_size_ s' = chunk_size_ s → requested_size_ s' = requested_size_ s → heap s' = heap s →
    grown s s' bs bs free.
Proof. intros Hc Hr Hh. split_and!; [done|done| |by left]. intros a _ _. by rewrite Hh. Qed.

(** The three results of [request_new_block]. *)
Lemma request_new_block_ok fuel (o : bool) s bs free live min :
  wf s bs free live → roomy s min → (length free < fuel)%nat →
  (∃ s', request_new_block fuel min o s = (Ok false, s') ∧
     chunk_size_ s' = chunk_size_ s ∧ wf s' bs free live ∧ heap s' = heap s ∧
       requested_size_ s' = requested_size_ s) ∨
  (∃ e s', request_new_block fuel min o s = (Throw e, s') ∧ chunk_size_ s' = chunk_size_ s ∧
     wf s' bs free live ∧ heap s' = heap s ∧ requested_size_ s' = requested_size_ s) ∨
  (∃ b sz s', request_new_block fuel min o s = (Ok true, s') ∧ min + 32 ≤ sz ∧
     sz ≤ Z.max (next_size_ s * chunk_size_ s) (2 * (min + 32)) ∧
     chunk_size_ s' = chunk_size_ s ∧
     wf s' ((b, sz) :: bs) (place o b (new_chunks (chunk_size_ s) b sz) free) live ∧
     untouched s s' free ∧ off (b, sz) (heap s) ∧ requested_size_ s' = requested_size_ s).
Proof.
  intros Hwf (Hn & Hnc & Hmin & Hmax) Hf. pose proof (wf_chunk_size _ _ _ _ Hwf) as [Hcs Hcs8].
  unfold request_new_block. rewrite !bind_gets.
  destruct (grow_size_ok 64 (u64 (next_size_ s * chunk_size_ s))
    (u64 (min + sizeof_block_info * 2)) s) as (sz & Hgr & Hsz & Hsz8 & Hszmax).
  { rewrite u64_small by nia. nia. }
  { rewrite u64_small by nia. by rewrite Z.mul_mod, Hcs8, Z.mul_0_r by lia. }
  { rewrite u64_small; unfold sizeof_block_info; lia. }
  { rewrite !u64_small; unfold sizeof_block_info; nia. }
  unfold sizeof_block_info in Hsz, Hszmax.
  rewrite u64_small in Hsz by lia. rewrite !u64_small in Hszmax by nia.
  erewrite bind_ok by exact Hgr. rewrite bind_modify.
  set (s0 := set_next (u64 (next_size_ s * 2)) s).
  assert (wf s0 bs free live) as Hwf0 by (by apply wf_set_next).
  assert (set_storage (Seg.State (heap s0) (Seg.free_list_ (storage_ s0))) s0 = s0) as Hid
    by apply set_storage_id.
  destruct (up_alloc_ok sz (heap s0)) as [Ha|[[e Ha]|(b & Ha & Hb & Hb16 & Hbs & Hfresh)]]; [lia|..].
  - left. exists s0. erewrite bind_ok by (by apply on_heap_eq).
    rewrite Hid, bool_decide_eq_true_2 by done. done.
  - right; left. exists e, s0. unfold bind.
    rewrite (on_heap_eq _ _ _ _ Ha), Hid. done.
  - right; right. destruct (wf_map_block s0 bs free live b sz) as (Hwf1 & Hsep & Hcells);
      [done|split_and!; simpl; lia|done|].
    destruct (add_block_ok fuel o _ bs free live b sz Hwf1) as (t & Hr & Hwf2 & Hfr);
      [split_and!; simpl; lia|done|done|done|].
    erewrite bind_ok by (by apply on_heap_eq).
    rewrite bool_decide_eq_false_2 by (unfold null; lia). rewrite bind_gets.
    erewrite bind_ok by exact Hr. rewrite bind_modify.
    exists b, sz. eexists. split_and!; [|lia|lia| |exact Hwf2| |exact Hfresh|]; [|done| |done].
    2: { intros a Has Haf. unfold heap at 1. simpl. rewrite Hfr; [|intros Hin|done].
      - by apply map_block_fresh.
      - apply elem_of_block_cells in Hin. unfold word_size in Hin. specialize (Hfresh a Has). lia. }
    unfold Seg.empty. erewrite bind_ok by (by apply on_storage_eq).
    rewrite bind_assert; [by unfold ret; destruct t|].
    pose proof (wf_free _ _ _ _ Hwf2) as [Hc _]. simpl in Hc |- *.
    rewrite bool_decide_eq_false_2; [done|]. intros Hnull.
    assert (b ∈ place o b (new_chunks (chunk_size_ s) b sz) free) as Hin.
    { rewrite place_Permutation. apply elem_of_app. left. apply Seg.elem_of_chunks_of.
      destruct (Seg.seg_count_pos (block_info_offset sz) (chunk_size_ s)) as [n ->].
      exists O. lia. }
    destruct (place o b (new_chunks (chunk_size_ s) b sz) free);
      [by apply not_elem_of_nil in Hin|].
    destruct Hc as (Hfl & ? & _). unfold null in Hnull. lia.
Qed.

(** Moving the head of the free list to the live chunks. *)
Lemma storage_malloc_ok s bs a free live :
  wf s bs (a :: free) live →
  ∃ s', on_storage Seg.malloc s = (Ok a, s') ∧ wf s' bs free (a :: live) ∧
    chunk_size_ s' = chunk_size_ s ∧ heap s' = heap s.
Proof.
  intros [? Hfree ? ? ? ? Hnd Hch]. destruct (Seg.malloc_holds _ _ _ Hfree) as [Hr Hh].
  eexists. split; [by apply on_storage_eq|]. split; [|done]. split; try done.
  - by rewrite <- Permutation_middle.
  - by rewrite <- Permutation_middle.
Qed.

Lemma malloc_with_ok fuel (o : bool) s bs free live :
  wf s bs free live → roomy s (chunk_size_ s) → (length free < fuel)%nat →
  ∃ r s' bs' free', malloc_with fuel o s = (r, s') ∧ chunk_size_ s' = chunk_size_ s ∧ untouched s s' [] ∧
    ((∃ a, r = Ok a ∧ 0 < a ∧ wf s' bs' free' (a :: live) ∧ bs `suffix_of` bs') ∨
     ((r = Ok null ∨ ∃ e, r = Throw e) ∧ free = [] ∧ wf s' bs [] live)).
Proof.
  intros Hwf Hroom Hf. unfold malloc_with.
  assert (on_storage Seg.empty s = (Ok (bool_decide (Seg.free_list_ (storage_ s) = null)), s))
    as Hempty.
  { unfold Seg.empty. erewrite on_storage_eq by done. by destruct s. }
  erewrite bind_ok by exact Hempty. pose proof (wf_free _ _ _ _ Hwf) as Hh.
  pose proof Hh as [Hc _].
  destruct free as [|a free].
  - simpl in Hc. rewrite bool_decide_eq_true_2, bind_gets by done.
    destruct (request_new_block_ok fuel o s bs [] live (chunk_size_ s) Hwf Hroom Hf)
      as [(s' & Hr & Hcs & Hw & Hh' & _)|
        [(e & s' & Hr & Hcs & Hw & Hh' & _)|(b & sz & s' & Hr & ? & ? & Hcs & Hw & Hu & _)]].
    + exists (Ok null), s', bs, []. erewrite bind_ok by exact Hr. split_and!; [done|done| |eauto 10].
      intros a _ _. by rewrite Hh'.
    + exists (Throw e), s', bs, []. unfold bind. rewrite Hr. split_and!; [done|done| |eauto 10].
      intros a _ _. by rewrite Hh'.
    + erewrite bind_ok by exact Hr.
      replace (place o b (new_chunks (chunk_size_ s) b sz) [])
        with (new_chunks (chunk_size_ s) b sz) in Hw by (destruct o; simpl; by rewrite ?app_nil_r).
      unfold new_chunks in Hw.
      destruct (Seg.seg_count_pos (block_info_offset sz) (chunk_size_ s)) as [n Hn].
      rewrite Hn, Seg.chunks_of_S in Hw.
      destruct (storage_malloc_ok s' _ _ _ _ Hw) as (s2 & Hm & Hw2 & Hcs2 & Hh2).
      eexists _, s2, _, _. split; [exact Hm|]. split; [congruence|]. split.
      { intros a Ha _. rewrite Hh2. by apply Hu; [|apply not_elem_of_nil]. }
      left. exists b. split_and!; [done| |exact Hw2|].
      * eapply Seg.holds_pos; [exact (wf_free _ _ _ _ Hw)|]. apply elem_of_cons. by left.
      * by apply suffix_cons_r.
  - destruct Hc as (Hfl & Ha & _). rewrite bool_decide_eq_false_2 by (unfold null; lia).
    destruct (storage_malloc_ok s bs a free live Hwf) as (s' & Hm & Hw & Hcs2 & Hh2).
    eexists _, s', bs, free. split; [exact Hm|]. split; [done|].
    split; [intros ? _ _; by rewrite Hh2|]. left. eauto 10.
Qed.

(** A live chunk is a mapped word that is not free. *)
Lemma live_chunk s bs free live a :
  wf s bs free live → a ∈ live → 0 < a ∧ (a ∉ free) ∧ is_Some (heap s !! a).
Proof.
  intros [[Hcs Hcs8] _ _ Hgood _ Hmap Hnd Hch] Ha. rewrite Forall_forall in Hch. rewrite Forall_forall in Hgood.
  pose proof (Hch a ltac:(set_solver)) as (b & Hb & Hin)%Exists_exists. pose proof (Hgood b Hb) as Hg.
  split_and!.
  - destruct Hg as (? & _), Hin as (k & ? & -> & _). nia.
  - apply NoDup_app in Hnd as (_ & Hn & _). intros Haf. by apply (Hn a Haf).
  - eapply Hmap; [done|]. by eapply chunk_in_cell.
Qed.
(** A live chunk has gone to the free list. *)
Lemma wf_give_back s bs free live1 a live2 t free' :
  wf s bs free (live1 ++ a :: live2) → Seg.holds t free' → free' ≡ₚ a :: free →
  (∀ c, c ≠ a → c ∉ free → Seg.heap t !! c = heap s !! c) →
  (∀ c, is_Some (heap s !! c) → is_Some (Seg.heap t !! c)) →
  wf (set_storage t s) bs free' (live1 ++ live2).
Proof.
  intros [[Hcs Hcs8] Hfree Hbl Hgood Hdis Hmap Hnd Hch] Hh Hp Hfr Hdom.
  assert (free' ++ live1 ++ live2 ≡ₚ free ++ live1 ++ a :: live2) as Hperm.
  { by rewrite Hp, <- !Permutation_middle. }
  split; simpl; try done.
  - eapply blocks_chain_frame; [exact Hbl|]. intros c d Hc Hd. rewrite Forall_forall in Hch.
    assert (d ∉ free ++ live1 ++ a :: live2) as Hno.
    { intros Hx. assert (8 ≤ chunk_size_ s) by (apply Z.mod_divide in Hcs8 as [??]; lia).
      destruct (chunk_not_info _ _ _ _ _ Hcs Hgood Hdis (Hch d Hx) Hc Hd); lia. }
    apply Hfr; [intros ->|intros Hx]; apply Hno; set_solver.
  - unfold heap in *. simpl. eauto.
  - by rewrite Hperm.
  - by rewrite Hperm.
Qed.
Lemma free_ok s bs free live1 a live2 :
  wf s bs free (live1 ++ a :: live2) →
  ∃ s', Pool.free a s = (Ok tt, s') ∧ wf s' bs (a :: free) (live1 ++ live2) ∧
    chunk_size_ s' = chunk_size_ s ∧ (∀ c, c ≠ a → heap s' !! c = heap s !! c).
Proof.
  intros Hwf. destruct (live_chunk _ _ _ _ a Hwf ltac:(set_solver)) as (Hpos & Haf & Hm).
  destruct (Seg.free_holds (storage_ s) a free (wf_free _ _ _ _ Hwf) Hpos Haf Hm) as (t & Hr & Hh & Hfr).
  exists (set_storage t s). split; [by apply on_storage_eq|]. split; [|done].
  eapply wf_give_back; [done..|by intros c Hc _; apply Hfr|].
  intros c Hc. destruct (decide (c = a)) as [->|Hne]; [|by rewrite Hfr].
  destruct Hh as [Hc' _]. eapply Seg.chain_mapped; [done|]. set_solver.
Qed.
Lemma ordered_free_ok fuel s bs free live1 a live2 :
  wf s bs free (live1 ++ a :: live2) → (length free < fuel)%nat →
  ∃ s', Pool.ordered_free fuel a s = (Ok tt, s') ∧
    wf s' bs (Seg.ordered_insert a [a] free) (live1 ++ live2) ∧
    chunk_size_ s' = chunk_size_ s ∧ requested_size_ s' = requested_size_ s ∧
    untouched s s' (a :: free).
Proof.
  intros Hwf Hf. destruct (live_chunk _ _ _ _ a Hwf ltac:(set_solver)) as (Hpos & Haf & Hm).
  destruct (Seg.ordered_free_holds fuel (storage_ s) free a (wf_free _ _ _ _ Hwf) Hpos Haf Hm Hf)
    as (t & Hr & Hh & Hfr & Hdom).
  exists (set_storage t s). split; [by apply on_storage_eq|]. split_and!; [|done|done|].
  - eapply wf_give_back; [done|done| |done|done]. by rewrite ordered_insert_Permutation.
  - intros c _ Hc. apply Hfr; set_solver.
Qed.

(** Two chunks of the pool do not overlap. *)
Lemma chunks_apart s bs free live a b :
  wf s bs free live → a ∈ free ++ live → b ∈ free ++ live → a ≠ b →
  a + chunk_size_ s ≤ b ∨ b + chunk_size_ s ≤ a.
Proof.
  intros [[Hcs _] _ _ Hgood Hdis _ _ Hch] Ha Hb Hne. rewrite Forall_forall in Hch.
  apply Hch in Ha, Hb. clear Hch. unfold chunk_ok in *.
  induction bs as [|c bs IH]; [by apply Exists_nil in Ha|].
  destruct Hdis as [Hsep Hdis]. apply Forall_cons in Hgood as [Hg Hgood].
  assert (∀ x y, chunk_in (chunk_size_ s) c x → Exists (λ d, chunk_in (chunk_size_ s) d y) bs →
    x + chunk_size_ s ≤ y ∨ y + chunk_size_ s ≤ x) as Hcross.
  { intros x y (k & ? & -> & ?) (d & Hd & j & ? & -> & ?)%Exists_exists.
    rewrite Forall_forall in Hsep, Hgood. specialize (Hsep d Hd). specialize (Hgood d Hd).
    unfold separate, good_block in *. pose proof (block_info_offset_bounds c.2).
    pose proof (block_info_offset_bounds d.2). nia. }
  apply Exists_cons in Ha as [Ha|Ha], Hb as [Hb|Hb]; [|eauto|edestruct Hcross; eauto|eauto].
  destruct Ha as (k & ? & -> & ?), Hb as (j & ? & -> & ?).
  destruct (Z.lt_trichotomy k j) as [?|[->|?]]; [left; nia|done|right; nia].
Qed.

Lemma lookup_unmap_block b sz h a :
  unmap_block b sz h !! a = if decide (a ∈ block_cells b sz) then None else h !! a.
Proof.
  unfold unmap_block. induction (block_cells b sz) as [|c l IH]; simpl; [done|].
  rewrite lookup_delete. repeat case_decide; set_solver.
Qed.

(** Cells of separate blocks. *)
Lemma separate_cells b c a :
  separate b c → a ∈ block_cells b.1 b.2 → a ∉ block_cells c.1 c.2.
Proof.
  unfold separate. rewrite !elem_of_block_cells. unfold word_size. lia.
Qed.

Lemma destroy_loop_ok fuel s cs bl bs :
  0 < cs → blocks_chain (heap s) bl bs → Forall (good_block cs) bs → disjoint_blocks bs →
  (length bs < fuel)%nat →
  ∃ s', destroy_loop fuel bl s = (Ok bs, s') ∧
    (∀ b a, b ∈ bs → a ∈ block_cells b.1 b.2 → heap s' !! a = None) ∧
    (∀ a, (∀ b, b ∈ bs → a ∉ block_cells b.1 b.2) → heap s' !! a = heap s !! a).
Proof.
  intros Hcs. revert fuel s bl. induction bs as [|b bs IH]; intros fuel s bl Hbl Hg Hd Hf;
    (destruct fuel as [|fuel]; [simpl in Hf; lia|]); cbn [destroy_loop]; simpl in Hbl.
  - exists s. rewrite bool_decide_eq_false_2 by naive_solver. split_and!; [done|set_solver|done].
  - destruct Hbl as (-> & nxt & H1 & H2 & Hbl). apply Forall_cons in Hg as [Hgb Hg].
    destruct Hd as [Hsep Hd]. rewrite bool_decide_eq_true_2
      by (destruct Hgb; unfold null; lia).
    erewrite bind_ok by (by apply read_block_info_ok).
    erewrite bind_ok by (apply on_heap_eq, up_free_ok).
    set (s1 := set_storage _ s).
    assert (∀ a, heap s1 !! a = if decide (a ∈ block_cells b.1 b.2) then None else heap s !! a)
      as Hs1 by (intros; unfold heap, s1; simpl; apply lookup_unmap_block).
    rewrite Forall_forall in Hsep.
    destruct (IH fuel s1 nxt) as (s' & Hr & Hun & Hfr).
    + eapply blocks_chain_frame; [exact Hbl|]. intros c a Hc Ha. rewrite Hs1.
      rewrite decide_False; [done|]. apply (separate_cells c b); [by apply separate_sym, Hsep|].
      rewrite Forall_forall in Hg.
      destruct (info_cells cs c (Hg c Hc) Hcs). naive_solver.
    + done. + done. + simpl in Hf. lia.
    + exists s'. replace ((nxt.1, nxt.2)) with nxt by (by destruct nxt).
      erewrite bind_ok by exact Hr. split_and!; [done|..].
      * intros c a [->|Hc]%elem_of_cons Ha; [|eauto].
        rewrite Hfr, Hs1, decide_True; [done..|]. intros c Hc.
        eapply separate_cells; [by apply Hsep|done].
      * intros a Ha. rewrite Hfr by set_solver. rewrite Hs1, decide_False; set_solver.
Qed.

Lemma chunk_count_ok s n :
  0 < requested_size_ s → 0 < chunk_size_ s → 0 < n →
  n * requested_size_ s + chunk_size_ s ≤ 2 ^ 64 →
  ∃ count, chunk_count n s = (Ok count, s) ∧ 0 < count ∧
    n * requested_size_ s ≤ count * chunk_size_ s < n * requested_size_ s + chunk_size_ s.
Proof.
  intros Hr Hc Hn Hw. unfold chunk_count. rewrite !bind_gets.
  rewrite !(u64_small (n * _)), (u64_small (_ - 1)) by nia.
  set (q := (n * requested_size_ s + chunk_size_ s - 1) / chunk_size_ s).
  pose proof (Z.div_mod (n * requested_size_ s + chunk_size_ s - 1) (chunk_size_ s)).
  pose proof (Z.mod_pos_bound (n * requested_size_ s + chunk_size_ s - 1) (chunk_size_ s)).
  fold q in H1. exists q. rewrite u64_small by nia.
  rewrite bind_assert by (apply bool_decide_eq_true_2; nia). split_and!; [done|nia..].
Qed.

(** How many chunks a piece of so many bytes takes. *)
Definition count (bytes cs : Z) : nat := Z.to_nat ((bytes + cs - 1) / cs).
Lemma lcm_8 k : 0 < k → 0 < Z.lcm k 8 ∧ Z.lcm k 8 mod 8 = 0.
Proof.
  intros Hk. assert (Z.lcm k 8 ≠ 0) by (rewrite Z.lcm_eq_0; lia). pose proof (Z.lcm_nonneg k 8).
  split; [lia|].
  apply Z.mod_divide; [lia|]. apply Z.divide_lcm_r.
Qed.
Lemma count_spec bytes cs : 0 < bytes → 0 < cs → (0 < count bytes cs)%nat ∧
    bytes ≤ Z.of_nat (count bytes cs) * cs < bytes + cs.
Proof.
  intros Hb Hcs. unfold count. pose proof (Z.div_mod (bytes + cs - 1) cs).
  pose proof (Z.mod_pos_bound (bytes + cs - 1) cs Hcs).
  set (q := (bytes + cs - 1) / cs) in *. assert (0 < q) by nia. rewrite Z2Nat.id by lia.
  split; [lia|]. nia.
Qed.
Lemma chunk_count_bytes t k bytes :
  0 < k → requested_size_ t = k → 0 < chunk_size_ t → 0 < bytes → bytes mod k = 0 →
  bytes + chunk_size_ t ≤ 2 ^ 64 →
  bytes / k ≠ 0 ∧ chunk_count (bytes / k) t = (Ok (Z.of_nat (count bytes (chunk_size_ t))), t).
Proof.
  intros Hk Hr Hcs Hb Hm Hle.
  assert (Hbk : bytes / k * k = bytes) by (rewrite (Z.div_mod bytes k) at 2 by lia; lia).
  assert (0 < bytes / k) by nia. split; [lia|]. rewrite <- Hr in *.
  destruct (chunk_count_ok t (bytes / requested_size_ t)) as (n & Hn & Hpos & Hbound);
    [lia|done|done|lia|].
  rewrite Hn. do 2 f_equal. destruct (count_spec bytes (chunk_size_ t) Hb Hcs) as [Hc1 Hc2]. nia.
Qed.

(** Two runs of chunks of which no two overlap do not overlap. *)
Lemma runs_apart a c cs b d ds :
  0 < cs → 0 < ds → (0 < c)%nat → (0 < d)%nat →
  (∀ x y, x ∈ Seg.chunks_of a cs c → y ∈ Seg.chunks_of b ds d → x + cs ≤ y ∨ y + ds ≤ x) →
  a + cs * Z.of_nat c ≤ b ∨ b + ds * Z.of_nat d ≤ a.
Proof.
  intros Hcs Hds Hc Hd Hap. destruct (decide (a + cs * Z.of_nat c ≤ b)) as [|H1]; [by left|].
  destruct (decide (b + ds * Z.of_nat d ≤ a)) as [|H2]; [by right|]. exfalso.
  destruct (decide (a ≤ b)) as [Hab|Hab].
  - pose proof (Z.div_mod (b - a) cs) as E. pose proof (Z.mod_pos_bound (b - a) cs Hcs) as B.
    set (q := (b - a) / cs) in *.
    assert (0 ≤ q < Z.of_nat c) by nia.
    destruct (Hap (a + cs * q) b) as [Hx|Hx]; [apply Seg.elem_of_chunks_of; exists (Z.to_nat q);
      split; [lia|f_equal; f_equal; lia]|apply Seg.elem_of_chunks_of; exists O; split;
      [done|lia]|lia|lia].
  - pose proof (Z.div_mod (a - b) ds) as E. pose proof (Z.mod_pos_bound (a - b) ds Hds) as B.
    set (q := (a - b) / ds) in *.
    assert (0 ≤ q < Z.of_nat d) by nia.
    destruct (Hap a (b + ds * q)) as [Hx|Hx];
      [apply Seg.elem_of_chunks_of; exists O; split; [done|lia]|apply Seg.elem_of_chunks_of;
      exists (Z.to_nat q); split; [lia|f_equal; f_equal; lia]|lia|lia].
Qed.


Lemma storage_malloc_n_ok fuel s bs free live n :
  wf s bs free live → (length free < fuel)%nat → (0 < n)%nat →
  Z.of_nat (length free) < 2 ^ 64 →
  on_storage (Seg.malloc_n fuel (Z.of_nat n) (chunk_size_ s)) s = (Ok null, s) ∨
  (∃ a s' free', on_storage (Seg.malloc_n fuel (Z.of_nat n) (chunk_size_ s)) s = (Ok a, s') ∧
     0 < a ∧ wf s' bs free' (Seg.chunks_of a (chunk_size_ s) n ++ live) ∧ grown s s' bs bs free).
Proof.
  intros [[Hcs Hcs8] Hfree Hbl Hgood Hdis Hmap Hnd Hch] Hf Hn Hw.
  destruct (Seg.malloc_n_holds fuel (storage_ s) free n (chunk_size_ s))
    as [[Hr _]|(a & pre & post & t & Hr & Ha & -> & _ & Hh & Hfr & Hdom)]; try done.
  - left. erewrite on_storage_eq by exact Hr. by destruct s.
  - right. exists a, (set_storage t s), (pre ++ post).
    split_and!; [by apply on_storage_eq|done| |].
    2: { split_and!; [done..| |by left]. intros c _ Hc. apply Hfr. set_solver. }
    assert ((pre ++ post) ++ Seg.chunks_of a (chunk_size_ s) n ++ live ≡ₚ
            (pre ++ Seg.chunks_of a (chunk_size_ s) n ++ post) ++ live) as Hperm
      by solve_Permutation.
    split; simpl; try done.
    + eapply blocks_chain_frame; [exact Hbl|]. intros c d Hc Hd. apply Hfr. intros Hin.
      assert (8 ≤ chunk_size_ s) by (apply Z.mod_divide in Hcs8 as [??]; lia).
      rewrite Forall_forall in Hch. assert (chunk_ok (chunk_size_ s) bs d) as Hok
        by (apply Hch; set_solver).
      destruct (chunk_not_info _ _ _ _ _ Hcs Hgood Hdis Hok Hc Hd); lia.
    + unfold heap in *. simpl. eauto.
    + by rewrite Hperm.
    + by rewrite Hperm.
Qed.

Lemma length_place (o : bool) b cs sz free :
  0 < cs → good_block cs (b, sz) →
  Z.of_nat (length (place o b (new_chunks cs b sz) free)) ≤ Z.of_nat (length free) + sz.
Proof.
  intros Hcs (? & ? & ? & ? & ?). simpl in *. rewrite place_Permutation, length_app.
  unfold new_chunks. rewrite Seg.length_chunks_of. unfold Seg.seg_count.
  pose proof (block_info_offset_bounds sz).
  assert ((block_info_offset sz - 1) / cs ≤ block_info_offset sz - 1)
    by (apply Z.div_le_upper_bound; nia). lia.
Qed.

(** A walk of the free list after a block of the largest size that
    [request_new_block] asks for has been added. *)
Definition enough_fuel (s : state) (free : list Z) (min : Z) (fuel : nat) : Prop :=
  Z.of_nat (length free) + Z.max (next_size_ s * chunk_size_ s) (2 * (min + 32)) < Z.of_nat fuel
  < 2 ^ 64.

Lemma ordered_malloc_n_ok fuel s bs free live n count :
  wf s bs free live → n ≠ 0 → chunk_count n s = (Ok (Z.of_nat count), s) → (0 < count)%nat →
  roomy s (Z.of_nat count * chunk_size_ s) →
  enough_fuel s free (Z.of_nat count * chunk_size_ s) fuel →
  ∃ r s' bs' free', ordered_malloc_n fuel n s = (r, s') ∧ grown s s' bs bs' free ∧
    ((∃ a, r = Ok a ∧ 0 < a ∧
        wf s' bs' free' (Seg.chunks_of a (chunk_size_ s) count ++ live)) ∨
     ((r = Ok null ∨ ∃ e, r = Throw e) ∧ wf s' bs' free' live)).
Proof.
  intros Hwf Hn Hcount Hc Hroom Hfuel. unfold enough_fuel in Hfuel.
  pose proof (wf_chunk_size _ _ _ _ Hwf) as [Hcs _].
  unfold ordered_malloc_n. rewrite bind_assert by (by apply bool_decide_eq_true_2).
  erewrite bind_ok by exact Hcount. rewrite bind_gets.
  destruct (storage_malloc_n_ok fuel s bs free live count Hwf)
    as [Hr|(a & s' & free' & Hr & Ha & Hw & Hg)]; [lia|done|lia|..]; erewrite bind_ok by exact Hr.
  2: { rewrite bool_decide_eq_true_2 by (unfold null; lia).
       exists (Ok a), s', bs, free'. split; [done|]. split; [done|]. left. eauto. }
  rewrite bool_decide_eq_false_2 by (intros []; done).
  destruct Hroom as (Hr1 & Hr2 & Hr3 & Hr4). rewrite u64_small by lia.
  destruct (request_new_block_ok fuel true s bs free live (Z.of_nat count * chunk_size_ s) Hwf)
    as [(s' & Hq & Hcs' & Hw & Hh' & Hrq)|
      [(e & s' & Hq & Hcs' & Hw & Hh' & Hrq)|
      (b & sz & s' & Hq & ? & Hsz & Hcs' & Hw & Hu & Hoff & Hrq)]].
  { split_and!; done. } { lia. }
  - erewrite bind_ok by exact Hq. rewrite <- Hcs'.
    destruct (storage_malloc_n_ok fuel s' bs free live count Hw)
      as [Hr'|(a & s2 & free2 & Hr' & Ha & Hw' & Hg')]; [lia|done|lia|..].
    + exists (Ok null), s', bs, free. split; [done|]. split; [by apply grown_same|]. right. eauto.
    + exists (Ok a), s2, bs, free2. split; [done|]. split; [|left; eauto].
      destruct Hg' as (G1 & G2 & G3 & _).
      split_and!; [congruence|congruence| |by left]. unfold untouched in *. by rewrite Hh' in G3.
  - exists (Throw e), s', bs, free. unfold bind. rewrite Hq. split; [done|].
    split; [by apply grown_same|]. right. eauto.
  - erewrite bind_ok by exact Hq.
    pose proof (wf_good _ _ _ _ Hw) as [Hg _]%Forall_cons. rewrite Hcs' in Hg.
    pose proof (length_place true b (chunk_size_ s) sz free Hcs Hg).
    assert (Hnew : ∀ a, is_Some (heap s !! a) → a ∉ free →
      a ∉ place true b (new_chunks (chunk_size_ s) b sz) free).
    { intros a Ha Hf Hin. rewrite place_Permutation in Hin. apply elem_of_app in Hin as [Hin|Hin];
        [|done].
      apply chunks_of_chunk_in in Hin; [|done|done]. destruct Hin as (k & ? & -> & Hend). cbn in Hend.
      destruct Hg as (? & ? & ? & ? & ?). pose proof (block_info_offset_bounds sz). cbn in *.
      specialize (Hoff _ Ha). cbn in Hoff. nia. }
    rewrite <- Hcs' in *.
    destruct (storage_malloc_n_ok fuel s' _ _ live count Hw)
      as [Hr'|(a & s2 & free2 & Hr' & Ha & Hw' & Hg')]; [lia|done|lia|..].
    + exists (Ok null), s', ((b, sz) :: bs), (place true b (new_chunks (chunk_size_ s') b sz) free).
      split; [done|]. split; [|right; eauto].
      split_and!; [done|done|done|right; eauto].
    + exists (Ok a), s2, ((b, sz) :: bs), free2. split; [done|]. split; [|left; eauto].
      destruct Hg' as (G1 & G2 & G3 & _).
      split_and!; [congruence|congruence| |right; eauto]. intros c Hm Hf. rewrite <- (Hu c Hm Hf).
      apply G3; [by rewrite Hu|by apply Hnew].
Qed.

(** [ordered_free(ptr, n)] of chunks that were handed out together; the last of several is
    not put into the free list. *)
Lemma ordered_free_n_ok fuel s bs free live1 live2 a n count :
  wf s bs free (live1 ++ Seg.chunks_of a (chunk_size_ s) count ++ live2) → (0 < count)%nat →
  chunk_count n s = (Ok (Z.of_nat count), s) → chunk_size_ s * Z.of_nat count < 2 ^ 64 →
    (length free < fuel)%nat →
  ∃ s' free', ordered_free_n fuel a n s = (Ok tt, s') ∧ wf s' bs free' (live1 ++ live2) ∧
    chunk_size_ s' = chunk_size_ s ∧ requested_size_ s' = requested_size_ s ∧
    untouched s s' (free ++ Seg.chunks_of a (chunk_size_ s) count).
Proof.
  intros [[Hcs Hcs8] Hfree Hbl Hgood Hdis Hmap Hnd Hch] Hc Hcount Hw Hf. set (cs := chunk_size_ s) in *.
  assert (8 ≤ cs) by (apply Z.mod_divide in Hcs8 as [??]; lia).
  set (m := Seg.seg_count (u64 (cs * Z.of_nat count)) cs).
  assert (Hm : (m ≤ count)%nat).
  { unfold m, Seg.seg_count. rewrite u64_small by nia.
    assert ((cs * Z.of_nat count - 1) / cs ≤ Z.of_nat count) by (apply Z.div_le_upper_bound; nia). lia. }
  assert (Hsub : ∀ x, x ∈ Seg.chunks_of a cs m → x ∈ Seg.chunks_of a cs count).
  { intros x (i & Hi & ->)%Seg.elem_of_chunks_of. apply Seg.elem_of_chunks_of. exists i.
      split; [lia|done]. }
  rewrite Forall_forall in Hch.
  assert (Hok : ∀ x, x ∈ Seg.chunks_of a cs count → 0 < x ∧ is_Some (heap s !! x) ∧ x ∉ free).
  { intros x Hx. pose proof (Hch x ltac:(set_solver)) as (b & Hb & Hin)%Exists_exists.
      rewrite Forall_forall in Hgood.
    pose proof (Hgood b Hb) as Hg. split_and!.
    - destruct Hg as (? & _), Hin as (k & ? & -> & _). nia.
    - eapply Hmap; [done|]. by eapply chunk_in_cell.
    - apply NoDup_app in Hnd as (_ & Hn & _). intros Hxf. apply (Hn x Hxf). set_solver. }
  assert (Ha : a ∈ Seg.chunks_of a cs count) by (apply Seg.elem_of_chunks_of; exists O; lia).
  destruct (Seg.add_ordered_block_holds fuel (storage_ s) free a (u64 (cs * Z.of_nat count)) cs)
    as (t & Hr & Hh & Hfr & Hdom);
    [done|by apply Hok|rewrite u64_small; nia| | |done|].
  { intros x Hx. apply Hok. apply Hsub. exact Hx. }
  { intros x Hx. apply Hok. apply Hsub. exact Hx. }
  fold m in Hh, Hfr. exists (set_storage t s), (Seg.ordered_insert a (Seg.chunks_of a cs m) free).
  split_and!; [| |done|done|].
  - unfold ordered_free_n. rewrite (bind_ok _ _ _ _ _ Hcount), bind_gets. by apply on_storage_eq.
  - assert (Hin : ∀ x, x ∈ Seg.ordered_insert a (Seg.chunks_of a cs m) free ++ live1 ++ live2 →
      x ∈ free ++ live1 ++ Seg.chunks_of a cs count ++ live2).
    { intros x. rewrite ordered_insert_Permutation. rewrite !elem_of_app. intros [[Hx|Hx]|[Hx|Hx]];
        auto. }
    split; simpl; try done.
    + eapply blocks_chain_frame; [exact Hbl|]. intros c d Hc' Hd.
      assert (d ∉ free ++ live1 ++ Seg.chunks_of a cs count ++ live2) as Hno.
      { intros Hx. destruct (chunk_not_info cs bs d d c Hcs Hgood Hdis (Hch d Hx) Hc' Hd); lia. }
      apply Hfr; [intros Hx%Hsub|intros Hx]; apply Hno; set_solver.
    + unfold heap in *. simpl. eauto.
    + rewrite ordered_insert_Permutation. rewrite <- app_assoc.
      apply NoDup_app in Hnd as (N1 & N2 & (N3 & N4 & N5)%NoDup_app).
      apply NoDup_app in N5 as (N5 & N6 & N7).
      apply NoDup_app. split; [by apply Seg.NoDup_chunks_of|]. split.
      * intros x Hx%Hsub. rewrite !elem_of_app. intros [Hx'|[Hx'|Hx']].
        -- apply (N2 x Hx'). set_solver.
        -- apply (N4 x Hx'). set_solver.
        -- by apply (N6 x Hx).
      * apply NoDup_app. split; [done|]. split.
        -- intros x Hx. specialize (N2 x Hx). set_solver.
        -- apply NoDup_app. split; [done|]. split; [|done]. intros x Hx. specialize (N4 x Hx).
           set_solver.
    + apply Forall_forall. intros x Hx. apply Hch. by apply Hin.
  - intros x _ Hx. apply Hfr; [intros Hin%Hsub|intros Hin]; apply Hx; set_solver.
Qed.

Lemma is_from_loop_ok fuel s bl bs ptr :
  0 < chunk_size_ s → blocks_chain (heap s) bl bs → Forall (good_block (chunk_size_ s)) bs →
  disjoint_blocks bs → (length bs < fuel)%nat →
  ∃ r, is_from_loop fuel bl ptr s = (Ok r, s) ∧
    (r = true ↔ ∃ b k, b ∈ bs ∧ 0 ≤ k ∧ ptr = b.1 + k * chunk_size_ s ∧
       ptr < b.1 + block_info_offset b.2).
Proof.
  intros Hcs. revert fuel bl. induction bs as [|b bs IH]; intros fuel bl Hbl Hg Hd Hf;
    (destruct fuel as [|fuel]; [simpl in Hf; lia|]); cbn [is_from_loop]; simpl in Hbl.
  - rewrite bool_decide_eq_false_2 by naive_solver. exists false. split; [done|].
    split; [done|]. intros (b & k & Hb & _). by apply not_elem_of_nil in Hb.
  - destruct Hbl as (-> & nxt & H1 & H2 & Hbl). apply Forall_cons in Hg as [Hgb Hg].
    destruct Hd as [Hsep Hd]. pose proof (block_info_offset_bounds b.2) as Hob.
    destruct Hgb as (? & ? & ? & ? & ?).
    rewrite bool_decide_eq_true_2 by (unfold null; lia). case_bool_decide as Hin.
    + rewrite bind_gets. eexists. split; [done|]. rewrite bool_decide_eq_true.
      rewrite u64_small by lia. split.
      * intros Hm. exists b, ((ptr - b.1) / chunk_size_ s). split_and!; [set_solver| | |lia].
        -- apply Z.div_pos; lia.
        -- pose proof (Z.div_mod (ptr - b.1) (chunk_size_ s)). lia.
      * intros (c & k & [->|Hc]%elem_of_cons & ? & Hp & ?).
        -- replace (ptr - b.1) with (k * chunk_size_ s) by lia. by apply Z.mod_mul; lia.
        -- exfalso. rewrite Forall_forall in Hsep, Hg. specialize (Hsep c Hc).
           specialize (Hg c Hc) as (? & ? & ? & ? & ?). unfold separate in Hsep.
           pose proof (block_info_offset_bounds c.2). nia.
    + erewrite bind_ok by (by apply read_block_info_ok).
      replace ((nxt.1, nxt.2)) with nxt by (by destruct nxt).
      destruct (IH fuel nxt) as (r & Hr & Hiff); [done..|simpl in Hf; lia|].
      exists r. split; [done|]. rewrite Hiff. split.
      * intros (c & k & ? & ?). exists c, k. set_solver.
      * intros (c & k & [->|Hc]%elem_of_cons & ? & ? & ?); [|by exists c, k].
        exfalso. apply Hin. nia.
Qed.

(** ** Properties *)

(** [malloc] and [ordered_malloc] either return a non-null chunk, which
    moves from the free chunks to the live ones, possibly after one more block
    was taken from upstream; or the free list was empty and upstream failed,
    and nothing but [next_size_] changed. No word that was mapped changes; they never abort, never access
    unmapped memory and terminate. *)
Theorem pool_malloc_spec fuel (ordered : bool) s bs free live :
  wf s bs free live → roomy s (chunk_size_ s) → (length free < fuel)%nat →
  ∃ r s' bs' free',
    (if ordered then ordered_malloc fuel else malloc fuel) s = (r, s') ∧
      chunk_size_ s' = chunk_size_ s ∧ untouched s s' [] ∧
    ((∃ a, r = Ok a ∧ 0 < a ∧ wf s' bs' free' (a :: live) ∧ bs `suffix_of` bs') ∨
     ((r = Ok null ∨ ∃ e, r = Throw e) ∧ free = [] ∧ wf s' bs [] live)).
Proof. intros. destruct ordered; by apply malloc_with_ok. Qed.

(** In a pool that satisfies the invariant [wf], which the constructor
    establishes and every operation keeps, no two chunks overlap, free or live; every
    chunk lies inside a block, clear of its [block_info], and on a word. *)
Theorem pool_chunks_disjoint s bs free live a b :
  wf s bs free live → a ∈ free ++ live → b ∈ free ++ live → a ≠ b →
  (a + chunk_size_ s ≤ b ∨ b + chunk_size_ s ≤ a) ∧ a mod 8 = 0 ∧
  ∃ blk, blk ∈ bs ∧ blk.1 ≤ a ∧ a + chunk_size_ s ≤ blk.1 + block_info_offset blk.2 ≤ blk.1 + blk.2 - 16.
Proof.
  intros Hwf Ha Hb Hne. split; [by eapply chunks_apart|].
  pose proof Hwf as [[Hcs Hcs8] _ _ Hg _ _ _ Hch]. rewrite Forall_forall in Hch.
  rewrite Forall_forall in Hg.
  pose proof (Hch a Ha) as (c & Hc & k & ? & -> & ?)%Exists_exists.
  destruct (Hg c Hc) as (? & Hm & ? & ? & ?). pose proof (block_info_offset_bounds c.2).
  apply Z.mod_divide in Hcs8 as [x Hx]; [|lia]. apply Z.mod_divide in Hm as [y Hy]; [|lia].
  split; [|exists c; split_and!; [done|nia|lia..]].
  rewrite Hx, Hy. replace (y * 16 + k * (x * 8)) with ((y * 2 + k * x) * 8) by ring.
  by apply Z.mod_mul.
Qed.

(** [free] of a live chunk makes it the first free chunk and keeps the
    invariant. *)
Theorem pool_free_spec s bs free live1 a live2 :
  wf s bs free (live1 ++ a :: live2) →
  ∃ s', Pool.free a s = (Ok tt, s') ∧ wf s' bs (a :: free) (live1 ++ live2) ∧
    chunk_size_ s' = chunk_size_ s ∧ (∀ c, c ≠ a → heap s' !! c = heap s !! c).
Proof. apply free_ok. Qed.

(** [ordered_malloc(n)] returns as many adjacent chunks as [n] objects
    need, all of them from then on live, or null or the upstream's exception,
    keeping the invariant. *)
Theorem pool_ordered_malloc_n_spec fuel s bs free live n count :
  wf s bs free live → n ≠ 0 → chunk_count n s = (Ok (Z.of_nat count), s) → (0 < count)%nat →
  roomy s (Z.of_nat count * chunk_size_ s) →
  enough_fuel s free (Z.of_nat count * chunk_size_ s) fuel →
  ∃ r s' bs' free', ordered_malloc_n fuel n s = (r, s') ∧ grown s s' bs bs' free ∧
    ((∃ a, r = Ok a ∧ 0 < a ∧
        wf s' bs' free' (Seg.chunks_of a (chunk_size_ s) count ++ live)) ∨
     ((r = Ok null ∨ ∃ e, r = Throw e) ∧ wf s' bs' free' live)).
Proof. apply ordered_malloc_n_ok. Qed.

(** The destructor gives every block back exactly once, newest first, and
    afterwards none of their words is mapped; it needs one step per block. *)
Theorem pool_destroy_spec fuel s bs free live :
  wf s bs free live → (length bs < fuel)%nat →
  ∃ s', destroy fuel s = (Ok bs, s') ∧
    (∀ b a, b ∈ bs → a ∈ block_cells b.1 b.2 → heap s' !! a = None) ∧
    (∀ a, (∀ b, b ∈ bs → a ∉ block_cells b.1 b.2) → heap s' !! a = heap s !! a).
Proof.
  intros [[Hcs _] _ Hbl Hg Hd _ _ _] Hf. unfold destroy. rewrite bind_gets.
  by apply (destroy_loop_ok fuel s (chunk_size_ s)).
Qed.

(** [is_from] holds exactly for the addresses at a multiple of the chunk
    size from the start of a block of the pool, below its [block_info]. *)
Theorem pool_is_from_spec fuel s bs free live ptr :
  wf s bs free live → (length bs < fuel)%nat →
  ∃ r, is_from fuel ptr s = (Ok r, s) ∧
    (r = true ↔ ∃ b k, b ∈ bs ∧ 0 ≤ k ∧ ptr = b.1 + k * chunk_size_ s ∧
       ptr < b.1 + block_info_offset b.2).
Proof.
  intros [[Hcs _] _ Hbl Hg Hd _ _ _] Hf. unfold is_from. rewrite bind_gets.
  by apply is_from_loop_ok.
Qed.

End specs.

(** ** Witnesses *)

(** An upstream that serves one block, at address 4096. *)
#[local] Instance one_block : Upstream := {|
  up_alloc sz h :=
    if bool_decide (h = ∅ ∧ sz < 2 ^ 40) then (Ok 4096, map_block 4096 sz h) else (Ok null, h);
  up_free b sz h := (Ok tt, unmap_block b sz h);
|}.

#[local] Instance one_block_ok : UpstreamOk.
Proof.
  split; [|done]. intros sz h Hsz. simpl. case_bool_decide as Hd; [|by left].
  destruct Hd as [-> ?]. right; right. exists 4096. split_and!; [done|lia|done|lia|].
  intros a [v Hv]. by rewrite lookup_empty in Hv.
Qed.

(** A new pool of 64-byte objects, and the same with [set_next_size(4)]. *)
Definition ex_new : state := State (Seg.State ∅ null) 64 64 32 (null, 0).
Definition ex_pool : state := snd (set_next_size 4 ex_new).

Lemma ex_pool_new : pool 64 ∅ = Ok ex_new.
Proof. reflexivity. Qed.

Lemma wf_empty h rs cs ns :
  0 < cs → cs mod 8 = 0 → wf (State (Seg.State h null) rs cs ns (null, 0)) [] [] [].
Proof.
  intros. split; simpl; try done.
  - split; [done|constructor].
  - intros b a Hb. by apply not_elem_of_nil in Hb.
  - constructor.
Qed.

Lemma pool_malloc_witness :
  ∃ r s' bs' free', malloc 40 ex_pool = (r, s') ∧ chunk_size_ s' = chunk_size_ ex_pool ∧
    untouched ex_pool s' [] ∧
    ((∃ a, r = Ok a ∧ 0 < a ∧ wf s' bs' free' [a] ∧ [] `suffix_of` bs') ∨
     ((r = Ok null ∨ ∃ e, r = Throw e) ∧ @nil Z = [] ∧ wf s' [] [] [])).
Proof.
  apply (pool_malloc_spec 40 false ex_pool [] [] []);
    [apply wf_empty; done|unfold roomy; simpl; lia|simpl; lia].
Defined.

(** The pool after one allocation: a block of 256 bytes at 4096, cut into
    three chunks, the first of them live. *)
Definition ex_pool1 : state := snd (malloc 40 ex_pool).

Lemma ex_pool1_wf : wf ex_pool1 [(4096, 256)] [4160; 4224] [4096].
Proof.
  split.
  - done.
  - Seg.solve_holds.
  - split; [reflexivity|]. exists (0, 0). split_and!; vm_compute; reflexivity.
  - apply Forall_singleton. split_and!; vm_compute; congruence.
  - split; [constructor|done].
  - intros b a ->%list_elem_of_singleton. revert a.
    apply (proj1 (Forall_forall _ (block_cells 4096 256))).
    apply (bool_decide_unpack _). vm_compute. exact I.
  - apply (bool_decide_unpack _). vm_compute. exact I.
  - apply Forall_forall. intros a Ha. left.
    exists ((a - 4096) / 64). revert a Ha.
    apply (proj1 (Forall_forall _ ([4160; 4224] ++ [4096]))).
    apply (bool_decide_unpack _). vm_compute. exact I.
Qed.

Lemma pool_chunks_disjoint_witness :
  (4160 + 64 ≤ 4096 ∨ 4096 + 64 ≤ 4160) ∧ 4160 mod 8 = 0 ∧
  ∃ blk, blk ∈ [(4096, 256)] ∧ blk.1 ≤ 4160 ∧
    4160 + 64 ≤ blk.1 + block_info_offset blk.2 ≤ blk.1 + blk.2 - 16.
Proof.
  apply (pool_chunks_disjoint ex_pool1 [(4096, 256)] [4160; 4224] [4096] 4160 4096);
    [apply ex_pool1_wf|set_solver|set_solver|lia].
Defined.

Lemma pool_free_witness :
  ∃ s', Pool.free 4096 ex_pool1 = (Ok tt, s') ∧
    wf s' [(4096, 256)] [4096; 4160; 4224] ([] ++ []) ∧
    chunk_size_ s' = chunk_size_ ex_pool1 ∧ (∀ c, c ≠ 4096 → heap s' !! c = heap ex_pool1 !! c).
Proof. apply (pool_free_spec ex_pool1 _ _ [] 4096 []). apply ex_pool1_wf. Defined.

Lemma pool_ordered_malloc_n_witness :
  ∃ r s' bs' free', ordered_malloc_n 600 1 ex_pool1 = (r, s') ∧
    grown ex_pool1 s' [(4096, 256)] bs' [4160; 4224] ∧
    ((∃ a, r = Ok a ∧ 0 < a ∧ wf s' bs' free' (Seg.chunks_of a 64 1 ++ [4096])) ∨
     ((r = Ok null ∨ ∃ e, r = Throw e) ∧ wf s' bs' free' [4096])).
Proof.
  apply (pool_ordered_malloc_n_spec 600 ex_pool1 _ _ [4096] 1 1 ex_pool1_wf);
    [lia|vm_compute; reflexivity|lia| |].
  - unfold roomy. vm_compute. naive_solver.
  - unfold enough_fuel. vm_compute. naive_solver.
Defined.

Lemma pool_destroy_witness :
  ∃ s', destroy 2 ex_pool1 = (Ok [(4096, 256)], s') ∧ heap s' !! 4096 = None.
Proof.
  destruct (pool_destroy_spec 2 ex_pool1 _ _ _ ex_pool1_wf) as (s' & Hr & Hn & _);
    [simpl; lia|].
  exists s'. split; [exact Hr|]. apply (Hn (4096, 256)); [by apply list_elem_of_singleton|].
  apply (bool_decide_unpack _). vm_compute. exact I.
Defined.

Lemma pool_is_from_witness :
  ∃ r, is_from 2 4160 ex_pool1 = (Ok r, ex_pool1) ∧
    (r = true ↔ ∃ b k, b ∈ [(4096, 256)] ∧ 0 ≤ k ∧ 4160 = b.1 + k * 64 ∧
       4160 < b.1 + block_info_offset b.2).
Proof.
  apply (pool_is_from_spec 2 ex_pool1 _ _ _ 4160 ex_pool1_wf). simpl. lia.
Defined.

(** A fresh pool of 64-byte objects cannot serve [ordered_malloc(31)]
    although upstream grants the block: the 2048 bytes it asks for make 31
    chunks and [malloc_n] wants 32 adjacent ones, so the caller gets null. *)
Theorem pool_ordered_malloc_31_fails :
  ∃ s', ordered_malloc_n 64 31 ex_new = (Ok null, s') ∧
    block_list_ s' = (4096, 2048) ∧ Seg.holds (storage_ s') (Seg.chunks_of 4096 64 31).
Proof.
  exists (snd (ordered_malloc_n 64 31 ex_new)).
  split_and!; [vm_compute; reflexivity..|]. Seg.solve_holds.
Qed.

End Pool.
