(* ===== verification/PoolSession.v ===== *)
(** * Sessions of a pool (pool.hpp)

    A client makes a pool, takes single chunks and runs of adjacent chunks from it, gives them
    back in any order, changes the size of the next block and writes into what it holds.  A
    piece is an address with the number of the objects that were requested; the sessions are
    the sequences of requests the client may make, with the answers of the pool. *)

From S2P Require Import Prelude SegStorage Pool.

Local Open Scope Z_scope.
Local Open Scope gpcl_scope.

Module PoolSession.

Inductive request : Type :=
| Malloc (ordered : bool)
| MallocN (n : Z)
| Free (ordered : bool) (ptr : Z)
| FreeN (ptr n : Z)
| NextSize (n : Z)
| Write (a v : Z).

Section session.
Context {U : Upstream} {U_ok : UpstreamOk}.

Definition perform (fuel : nat) (q : request) : M Pool.state Z :=
  match q with
  | Malloc ordered => if ordered then Pool.ordered_malloc fuel else Pool.malloc fuel
  | MallocN n => Pool.ordered_malloc_n fuel n
  | Free ordered ptr => (if ordered then Pool.ordered_free fuel ptr else Pool.free ptr) ;;; ret null
  | FreeN ptr n => Pool.ordered_free_n fuel ptr n ;;; ret null
  | NextSize n => Pool.set_next_size n ;;; ret null
  | Write a v => Pool.on_heap (store a v) ;;; ret null
  end.

(** What the client holds after a request that gave [r]. *)
Definition handed (r : outcome Z) (n : Z) : list (Z * Z) :=
  match r with Ok a => if a =? null then [] else [(a, n)] | _ => [] end.
Definition holding (q : request) (r : outcome Z) (ps : list (Z * Z)) : list (Z * Z) :=
  match q with
  | Malloc _ => handed r 1 ++ ps
  | MallocN n => handed r n ++ ps
  | Free _ a | FreeN a _ => filter (λ p, p.1 ≠ a) ps
  | NextSize _ | Write _ _ => ps
  end.

(** [x] is a word of the [n] objects at [a]. *)
Definition word_of (rs a n x : Z) : Prop := a ≤ x < a + n * rs ∧ x mod 8 = 0.

(** The requests a client may make: it gives back what it holds, a run of chunks with the
    number of objects it was requested for, and writes only there; the sizes stay clear of the 64-bit
    limit, and [fuel] is enough for the walks along the free list. *)
Definition bytes_for (s : Pool.state) (n : Z) : Z :=
  Z.of_nat (Pool.count (n * Pool.requested_size_ s) (Pool.chunk_size_ s)) * Pool.chunk_size_ s.
Definition permitted (fuel : nat) (q : request) (s : Pool.state) (ps : list (Z * Z)) : Prop :=
  (∀ l, Seg.holds (Pool.storage_ s) l → (length l < fuel)%nat) ∧
  match q with
  | Malloc _ => Pool.roomy s (Pool.chunk_size_ s)
  | MallocN n => 0 < n ∧ Pool.roomy s (bytes_for s n) ∧
      ∀ l, Seg.holds (Pool.storage_ s) l → Pool.enough_fuel s l (bytes_for s n) fuel
  | Free _ a => (a, 1) ∈ ps
  | FreeN a n => (a, n) ∈ ps
  | NextSize n => n ≠ 0
  | Write x _ => ∃ a n, (a, n) ∈ ps ∧ word_of (Pool.requested_size_ s) a n x
  end.

Inductive run (rs : Z) : Pool.state → list (Z * Z) → Prop :=
| run_new h s : 0 < rs → Pool.pool rs h = Ok s → run rs s []
| run_request fuel q s ps r s' :
    run rs s ps → permitted fuel q s ps → perform fuel q s = (r, s') → run rs s' (holding q r ps).

(** ** Invariant *)

Definition chunks (rs cs : Z) (ps : list (Z * Z)) : list Z :=
  concat ((λ p, Seg.chunks_of p.1 cs (Pool.count (p.2 * rs) cs)) <$> ps).
Record inv (rs : Z) (s : Pool.state) (ps : list (Z * Z)) (bs : list (Z * Z)) (fr : list Z) : Prop := {
  inv_size : 0 < rs;
  inv_requested : Pool.requested_size_ s = rs;
  inv_chunk : Pool.chunk_size_ s = Z.lcm rs 8;
  inv_wf : Pool.wf s bs fr (chunks rs (Pool.chunk_size_ s) ps);
  inv_pieces a n : (a, n) ∈ ps → 0 < n ∧ n * rs + Pool.chunk_size_ s ≤ 2 ^ 64;
}.

Lemma chunks_app rs cs ps qs : chunks rs cs (ps ++ qs) = chunks rs cs ps ++ chunks rs cs qs.
Proof. unfold chunks. by rewrite fmap_app, concat_app. Qed.
Lemma chunks_cons rs cs p ps :
  chunks rs cs (p :: ps) = Seg.chunks_of p.1 cs (Pool.count (p.2 * rs) cs) ++ chunks rs cs ps.
Proof. done. Qed.
Lemma chunks_elem rs cs a n ps x :
  (a, n) ∈ ps → x ∈ Seg.chunks_of a cs (Pool.count (n * rs) cs) → x ∈ chunks rs cs ps.
Proof. intros (l1 & l2 & ->)%list_elem_of_split Hx. rewrite chunks_app, chunks_cons. set_solver. Qed.
Lemma chunks_of_first a cs n : (0 < n)%nat → a ∈ Seg.chunks_of a cs n.
Proof. intros. apply Seg.elem_of_chunks_of. exists O. lia. Qed.

Section facts.
Context (rs : Z) (s : Pool.state) (ps bs : list (Z * Z)) (fr : list Z).
Context (H : inv rs s ps bs fr).
Abbreviation cs := (Pool.chunk_size_ s).

Lemma inv_cs : 0 < cs ∧ cs mod 8 = 0 ∧ rs ≤ cs.
Proof.
  rewrite (inv_chunk _ _ _ _ _ H). pose proof (inv_size _ _ _ _ _ H) as Hr.
  destruct (Pool.lcm_8 rs Hr). split_and!; [done|done|]. apply Z.divide_pos_le; [done|]. apply Z.divide_lcm_l.
Qed.
Lemma inv_count a n :
  (a, n) ∈ ps → (0 < Pool.count (n * rs) cs)%nat ∧
    n * rs ≤ Z.of_nat (Pool.count (n * rs) cs) * cs < n * rs + cs.
Proof.
  intros [Hn _]%(inv_pieces _ _ _ _ _ H). pose proof (inv_size _ _ _ _ _ H).
  apply Pool.count_spec; [nia|apply inv_cs].
Qed.
(** A word of a piece lies in one of its chunks. *)
Lemma word_chunk a n x :
  (a, n) ∈ ps → word_of rs a n x →
  ∃ c, c ∈ Seg.chunks_of a cs (Pool.count (n * rs) cs) ∧ c ≤ x < c + cs.
Proof.
  intros Hp [[Hx1 Hx2] _]. destruct (inv_count a n Hp) as [Hc1 Hc2]. destruct inv_cs as (Hcs & _).
  pose proof (Z.div_mod (x - a) cs) as E. pose proof (Z.mod_pos_bound (x - a) cs Hcs) as B.
  set (i := (x - a) / cs) in *. assert (0 ≤ i < Z.of_nat (Pool.count (n * rs) cs)) by nia.
  exists (a + cs * i). split; [|lia]. apply Seg.elem_of_chunks_of. exists (Z.to_nat i). split; [lia|].
  by rewrite Z2Nat.id by lia.
Qed.
Lemma piece_chunk a n c :
  (a, n) ∈ ps → c ∈ Seg.chunks_of a cs (Pool.count (n * rs) cs) → Pool.chunk_ok cs bs c.
Proof.
  intros Hp Hc. pose proof (Pool.wf_chunks _ _ _ _ (inv_wf _ _ _ _ _ H)) as Hch.
  rewrite Forall_forall in Hch. apply Hch, elem_of_app. right. by eapply chunks_elem.
Qed.
(** It is not the first word of another chunk. *)
Lemma word_apart a n x y :
  (a, n) ∈ ps → word_of rs a n x → y ∈ fr ++ chunks rs cs ps →
  y ∉ Seg.chunks_of a cs (Pool.count (n * rs) cs) → x ≠ y.
Proof.
  intros Hp Hw Hy Hny ->. destruct (word_chunk a n y Hp Hw) as (c & Hc & Hx).
  destruct (Pool.chunks_apart _ _ _ _ c y (inv_wf _ _ _ _ _ H)); [|done| |lia|lia].
  - apply elem_of_app. right. by eapply chunks_elem.
  - intros ->. done.
Qed.
Lemma piece_not_free a n y :
  (a, n) ∈ ps → y ∈ fr → y ∉ Seg.chunks_of a cs (Pool.count (n * rs) cs).
Proof.
  intros Hp Hy Hin. pose proof (Pool.wf_nodup _ _ _ _ (inv_wf _ _ _ _ _ H)) as (_ & Hn & _)%NoDup_app.
  apply (Hn y Hy). by eapply chunks_elem.
Qed.
Lemma word_not_free a n x : (a, n) ∈ ps → word_of rs a n x → x ∉ fr.
Proof.
  intros Hp Hw Hx. apply (word_apart a n x x Hp Hw); [set_solver| |done]. by eapply piece_not_free.
Qed.
(** It is mapped, and it is no word of a [block_info]. *)
Lemma word_mapped a n x : (a, n) ∈ ps → word_of rs a n x → is_Some (Pool.heap s !! x).
Proof.
  intros Hp Hw. destruct (word_chunk a n x Hp Hw) as (c & Hc & Hx). destruct Hw as [_ Hx8].
  destruct (inv_wf _ _ _ _ _ H) as [[Hcs Hcs8] _ _ Hg _ Hm _ _].
  pose proof (piece_chunk a n c Hp Hc) as (b & Hb & k & Hk & -> & Hend)%Exists_exists.
  rewrite Forall_forall in Hg. destruct (Hg b Hb) as (Hb0 & Hb16 & Hb3 & Hb4 & Hb8).
  pose proof (Pool.block_info_offset_bounds b.2). apply (Hm b); [done|]. apply elem_of_block_cells.
  unfold word_size. apply Z.mod_divide in Hb16 as [y Hy]; [|lia]. apply Z.mod_divide in Hx8 as [z Hz]; [|lia].
  apply Z.mod_divide in Hb8 as [w Hw]; [|lia].
  split_and!; [nia|nia|]. replace (x - b.1) with ((z - 2 * y) * 8) by lia. by apply Z.mod_mul.
Qed.
Lemma word_not_info a n x b c :
  (a, n) ∈ ps → word_of rs a n x → b ∈ bs →
  c = b.1 + Pool.block_info_offset b.2 ∨ c = b.1 + Pool.block_info_offset b.2 + word_size → c ≠ x.
Proof.
  intros Hp Hw Hb Hc ->. destruct (word_chunk a n x Hp Hw) as (d & Hd & Hx).
  destruct (inv_wf _ _ _ _ _ H) as [[Hcs Hcs8] _ _ Hg Hdis _ _ _].
  pose proof (piece_chunk a n d Hp Hd) as Hok.
  destruct (Pool.chunk_not_info cs bs d x b); try done; lia.
Qed.
Lemma piece_aligned a n : (a, n) ∈ ps → 0 < a ∧ a mod 8 = 0.
Proof.
  intros Hp. destruct (inv_count a n Hp) as [Hc1 _]. pose proof (chunks_of_first a cs _ Hc1) as Ha.
  destruct (inv_wf _ _ _ _ _ H) as [[Hcs Hcs8] _ _ Hg _ _ _ _].
  pose proof (piece_chunk a n a Hp Ha) as (b & Hb & k & Hk & -> & Hend)%Exists_exists.
  rewrite Forall_forall in Hg. destruct (Hg b Hb) as (Hb0 & Hb16 & _). split; [nia|].
  apply Z.mod_divide in Hb16 as [y Hy]; [|lia]. apply Z.mod_divide in Hcs8 as [z Hz]; [|lia].
  rewrite Hy, Hz. replace (y * 16 + k * (z * 8)) with ((2 * y + k * z) * 8) by ring. by apply Z.mod_mul.
Qed.
(** Two pieces have no chunk in common and do not overlap. *)
Lemma pieces_chunks ps1 a n ps2 b m y :
  ps = ps1 ++ (a, n) :: ps2 → (b, m) ∈ ps1 ++ ps2 →
  y ∈ Seg.chunks_of a cs (Pool.count (n * rs) cs) → y ∉ Seg.chunks_of b cs (Pool.count (m * rs) cs).
Proof.
  intros Hps Hb Ha Hy. pose proof (Pool.wf_nodup _ _ _ _ (inv_wf _ _ _ _ _ H)) as (_ & _ & Hnd)%NoDup_app.
  rewrite Hps, chunks_app, chunks_cons in Hnd. cbn [fst snd] in Hnd.
  assert (Hnd' : NoDup (Seg.chunks_of a cs (Pool.count (n * rs) cs) ++ chunks rs cs (ps1 ++ ps2))).
  { rewrite chunks_app, Permutation_app_swap_app. exact Hnd. }
  apply NoDup_app in Hnd' as (_ & Hn & _). apply (Hn y Ha). by eapply chunks_elem.
Qed.
Lemma pieces_disjoint ps1 a n ps2 b m ps3 :
  ps = ps1 ++ (a, n) :: ps2 ++ (b, m) :: ps3 → a + n * rs ≤ b ∨ b + m * rs ≤ a.
Proof.
  intros Hps. assert (Ha : (a, n) ∈ ps) by (rewrite Hps; set_solver).
  assert (Hb : (b, m) ∈ ps) by (rewrite Hps; set_solver).
  destruct (inv_count a n Ha) as [A1 A2], (inv_count b m Hb) as [B1 B2]. destruct inv_cs as (Hcs & _).
  cut (a + cs * Z.of_nat (Pool.count (n * rs) cs) ≤ b ∨ b + cs * Z.of_nat (Pool.count (m * rs) cs) ≤ a);
    [lia|].
  apply Pool.runs_apart; try done. intros x y Hx Hy.
  apply (Pool.chunks_apart _ _ _ _ x y (inv_wf _ _ _ _ _ H)).
  - apply elem_of_app. right. by apply (chunks_elem _ _ a n).
  - apply elem_of_app. right. by apply (chunks_elem _ _ b m).
  - intros ->. apply (pieces_chunks ps1 a n (ps2 ++ (b, m) :: ps3) b m y Hps); [set_solver|done|done].
Qed.
(** The piece at an address is one of a kind. *)
Lemma filter_piece ps1 a n ps2 :
  ps = ps1 ++ (a, n) :: ps2 → filter (λ p, p.1 ≠ a) ps = ps1 ++ ps2.
Proof.
  intros Hps.
  assert (Hne : ∀ p, p ∈ ps1 ++ ps2 → p.1 ≠ a).
  { intros [b m] Hp Hb. cbn in Hb. subst b.
    assert (Ha : (a, n) ∈ ps) by (rewrite Hps; set_solver).
    assert (Ha' : (a, m) ∈ ps) by (rewrite Hps; set_solver).
    apply (pieces_chunks ps1 a n ps2 a m a Hps Hp); apply chunks_of_first;
      [apply (inv_count a n Ha)|apply (inv_count a m Ha')]. }
  assert (Hid : ∀ l : list (Z * Z), (∀ p, p ∈ l → p ∈ ps1 ++ ps2) → filter (λ p : Z * Z, p.1 ≠ a) l = l).
  { induction l as [|p l IH]; intros Hl; [done|]. rewrite filter_cons_True by (apply Hne, Hl; by left).
    rewrite IH; [done|]. intros q Hq. apply Hl. by right. }
  rewrite Hps, filter_app, filter_cons_False by naive_solver. by rewrite !Hid by set_solver.
Qed.
End facts.

(** ** Every request keeps the invariant *)

(** The words of the pieces that the client keeps. *)
Definition kept (rs : Z) (s s' : Pool.state) (ps : list (Z * Z)) (touched : Z → Prop) : Prop :=
  ∀ a n x, (a, n) ∈ ps → word_of rs a n x → ¬ touched x → Pool.heap s' !! x = Pool.heap s !! x.

(** The size of the objects never changes. *)
Definition keeps {A} (m : M Pool.state A) : Prop :=
  ∀ s, Pool.requested_size_ (snd (m s)) = Pool.requested_size_ s.
Lemma keeps_bind {A B} (m : M Pool.state A) (f : A → M Pool.state B) :
  keeps m → (∀ a, keeps (f a)) → keeps (bind m f).
Proof.
  intros Hm Hf s. unfold bind. specialize (Hm s). destruct (m s) as [[a| | | |] t]; cbn in *; try done.
  by rewrite Hf.
Qed.
Lemma keeps_storage {A} (m : M Seg.state A) : keeps (Pool.on_storage m).
Proof. intros s. unfold Pool.on_storage, zoom. by destruct (m _). Qed.
Lemma keeps_grow fuel sz min : keeps (Pool.grow_size fuel sz min).
Proof. revert sz. induction fuel; intros sz s; cbn; [done|]. case_bool_decide; [apply IHfuel|done]. Qed.
Lemma keeps_malloc fuel (o : bool) : keeps (Pool.malloc_with fuel o).
Proof.
  unfold Pool.malloc_with, Pool.request_new_block, Pool.add_block, Pool.write_block_info, Pool.on_heap, gpcl_assert.
  repeat first [apply keeps_bind; [|intros ?] | apply keeps_storage | apply keeps_grow
               | progress case_match | by intros ?].
Qed.
Lemma malloc_step fuel o rs s ps bs fr :
  inv rs s ps bs fr → permitted fuel (Malloc o) s ps →
  ∃ r s' bs' fr', perform fuel (Malloc o) s = (r, s') ∧ ((∃ a, r = Ok a) ∨ ∃ e, r = Throw e) ∧
    inv rs s' (handed r 1 ++ ps) bs' fr' ∧ kept rs s s' ps (λ _, False).
Proof.
  intros H [Hfuel Hroom]. pose proof H as [Hrs Hreq Hcs Hwf Hps].
  destruct (Pool.malloc_with_ok fuel o s bs fr _ Hwf Hroom (Hfuel _ (Pool.wf_free _ _ _ _ Hwf)))
    as (r & s' & bs' & fr' & Hr & Hc & Hu & Hres).
  assert (Hp : perform fuel (Malloc o) s = (r, s')) by (by destruct o).
  pose proof (keeps_malloc fuel o s) as Hq. rewrite Hr in Hq. cbn in Hq. exists r, s'.
  assert (Hk : kept rs s s' ps (λ _, False)).
  { intros a n x Ha Hx _. apply Hu; [by eapply word_mapped|apply not_elem_of_nil]. }
  destruct Hres as [(a & -> & Ha & Hw & _)|(Hf & _ & Hw)].
  - exists bs', fr'. split_and!; [done|eauto| |done]. cbn.
    destruct (Z.eqb_spec a null) as [E|_]; [unfold null in E; lia|].
    destruct (inv_cs _ _ _ _ _ H) as (C1 & C2 & C3). destruct Hroom as (_ & _ & _ & Hroom).
    destruct (Pool.count_spec (1 * rs) (Pool.chunk_size_ s)) as [K1 K2]; [lia|done|].
    split; [done|congruence|congruence| |].
    + rewrite Hc. cbn [app]. rewrite chunks_cons. cbn [fst snd].
      replace (Pool.count (1 * rs) (Pool.chunk_size_ s)) with 1%nat by nia.
      cbn. by rewrite Z.mul_0_r, Z.add_0_r.
    + intros b n [[= -> ->]|Hin]%elem_of_cons; [lia|]. rewrite Hc. by apply (Hps b).
  - exists bs, []. assert (handed r 1 = []) as -> by (destruct Hf as [-> | [e ->]]; done).
    split_and!; [done|naive_solver| |done]. split; [done|congruence|congruence| |].
    + by rewrite Hc.
    + intros b n Hb. rewrite Hc. by apply (Hps b).
Qed.
Lemma malloc_n_step fuel n rs s ps bs fr :
  inv rs s ps bs fr → permitted fuel (MallocN n) s ps →
  ∃ r s' bs' fr', perform fuel (MallocN n) s = (r, s') ∧ ((∃ a, r = Ok a) ∨ ∃ e, r = Throw e) ∧
    inv rs s' (handed r n ++ ps) bs' fr' ∧ kept rs s s' ps (λ _, False).
Proof.
  intros H (_ & Hn & Hroom & Hfuel). pose proof H as [Hrs Hreq Hcs Hwf Hps].
  destruct (inv_cs _ _ _ _ _ H) as (C1 & C2 & C3). unfold bytes_for in *. rewrite Hreq in *.
  destruct (Pool.count_spec (n * rs) (Pool.chunk_size_ s)) as [K1 K2]; [nia|done|].
  pose proof Hroom as (_ & _ & R3 & R4).
  destruct (Pool.chunk_count_bytes s rs (n * rs) Hrs Hreq C1) as [Hne Hcount];
    [nia|by apply Z.mod_mul; lia|lia|]. rewrite Z.div_mul in Hne, Hcount by lia.
  destruct (Pool.ordered_malloc_n_ok fuel s bs fr _ n _ Hwf Hne Hcount K1 Hroom
    (Hfuel _ (Pool.wf_free _ _ _ _ Hwf))) as (r & s' & bs' & fr' & Hr & (G1 & G2 & G3 & _) & Hres).
  exists r, s', bs', fr'.
  assert (Hk : kept rs s s' ps (λ _, False)).
  { intros a m x Ha Hx _. apply G3; [by eapply word_mapped|by eapply word_not_free]. }
  destruct Hres as [(a & -> & Ha & Hw)|(Hf & Hw)].
  - split_and!; [done|eauto| |done]. cbn.
    destruct (Z.eqb_spec a null) as [E|_]; [unfold null in E; lia|].
    split; [done|congruence|congruence| |].
    + rewrite G1. cbn [app]. rewrite chunks_cons. exact Hw.
    + intros b m [[= -> ->]|Hin]%elem_of_cons; [lia|]. rewrite G1. by apply (Hps b).
  - assert (handed r n = []) as -> by (destruct Hf as [-> | [e ->]]; done).
    split_and!; [done|naive_solver| |done]. split; [done|congruence|congruence| |].
    + by rewrite G1.
    + intros b m Hb. rewrite G1. by apply (Hps b).
Qed.
(** The piece [(a, n)] has been given back. *)
Lemma inv_given_back rs s ps1 a n ps2 bs fr s' fr' :
  inv rs s (ps1 ++ (a, n) :: ps2) bs fr →
  Pool.wf s' bs fr' (chunks rs (Pool.chunk_size_ s) ps1 ++ chunks rs (Pool.chunk_size_ s) ps2) →
  Pool.chunk_size_ s' = Pool.chunk_size_ s → Pool.requested_size_ s' = Pool.requested_size_ s →
  Pool.untouched s s' (fr ++ Seg.chunks_of a (Pool.chunk_size_ s) (Pool.count (n * rs) (Pool.chunk_size_ s))) →
  inv rs s' (ps1 ++ ps2) bs fr' ∧ kept rs s s' (ps1 ++ ps2) (λ _, False).
Proof.
  intros H Hw Hc Hr Hu. pose proof H as [Hrs Hreq Hcs Hwf Hps]. split.
  - split; [done|congruence|congruence|by rewrite Hc, chunks_app|].
    intros b m Hb. rewrite Hc. apply (Hps b). set_solver.
  - intros b m x Hb Hx _. assert (Hb' : (b, m) ∈ ps1 ++ (a, n) :: ps2) by set_solver.
    apply Hu; [by eapply word_mapped|]. intros [Hin|Hin]%elem_of_app.
    + by eapply (word_not_free _ _ _ _ _ H b m x).
    + apply (word_apart _ _ _ _ _ H b m x x Hb' Hx); [| |done].
      * apply elem_of_app. right. eapply (chunks_elem _ _ a n); [set_solver|done].
      * by eapply (pieces_chunks _ _ _ _ _ H ps1 a n ps2).
Qed.
Lemma free_step fuel o a rs s ps bs fr :
  inv rs s ps bs fr → permitted fuel (Free o a) s ps →
  ∃ s' fr', perform fuel (Free o a) s = (Ok null, s') ∧
    inv rs s' (holding (Free o a) (Ok null) ps) bs fr' ∧
    kept rs s s' (holding (Free o a) (Ok null) ps) (λ _, False).
Proof.
  intros H [Hfuel (ps1 & ps2 & ->)%list_elem_of_split]. cbn [holding].
  rewrite (filter_piece _ _ _ _ _ H ps1 a 1 ps2) by done.
  pose proof H as [Hrs Hreq Hcs Hwf Hps]. specialize (Hfuel _ (Pool.wf_free _ _ _ _ Hwf)).
  destruct (inv_cs _ _ _ _ _ H) as (C1 & C2 & C3).
  destruct (Pool.count_spec (1 * rs) (Pool.chunk_size_ s)) as [K1 K2]; [lia|done|].
  assert (Hone : Seg.chunks_of a (Pool.chunk_size_ s) (Pool.count (1 * rs) (Pool.chunk_size_ s)) = [a]).
  { replace (Pool.count (1 * rs) (Pool.chunk_size_ s)) with 1%nat by nia.
    cbn. by rewrite Z.mul_0_r, Z.add_0_r. }
  rewrite chunks_app, chunks_cons in Hwf. cbn [fst snd] in Hwf. rewrite Hone in Hwf.
  assert (∃ s' fr', perform fuel (Free o a) s = (Ok null, s') ∧
    Pool.wf s' bs fr' (chunks rs (Pool.chunk_size_ s) ps1 ++ chunks rs (Pool.chunk_size_ s) ps2) ∧
    Pool.chunk_size_ s' = Pool.chunk_size_ s ∧ Pool.requested_size_ s' = Pool.requested_size_ s ∧
    Pool.untouched s s' (a :: fr)) as (s' & fr' & Hr & Hw & Hc & Hq & Hu).
  { destruct o.
    - destruct (Pool.ordered_free_ok fuel s bs fr _ a _ Hwf Hfuel) as (s' & Hr & Hw & Hc & Hq & Hu).
      exists s', (Seg.ordered_insert a [a] fr). split_and!; try done. cbn. by rewrite (bind_ok _ _ _ _ _ Hr).
    - destruct (Pool.free_ok s bs fr _ a _ Hwf) as (s' & Hr & Hw & Hc & Hu).
      exists s', (a :: fr). split_and!; [cbn; by rewrite (bind_ok _ _ _ _ _ Hr)|done|done| |].
      + pose proof (keeps_storage (Seg.free a) s) as Hk. change (Pool.on_storage (Seg.free a)) with (Pool.free a) in Hk.
        by rewrite Hr in Hk.
      + intros x _ Hx. apply Hu. set_solver. }
  exists s', fr'. split; [done|]. eapply inv_given_back; [done..|]. rewrite Hone.
  intros x Hx1 Hx2. apply Hu; [done|]. set_solver.
Qed.
Lemma free_n_step fuel a n rs s ps bs fr :
  inv rs s ps bs fr → permitted fuel (FreeN a n) s ps →
  ∃ s' fr', perform fuel (FreeN a n) s = (Ok null, s') ∧
    inv rs s' (holding (FreeN a n) (Ok null) ps) bs fr' ∧
    kept rs s s' (holding (FreeN a n) (Ok null) ps) (λ _, False).
Proof.
  intros H [Hfuel Hin]. pose proof (inv_count _ _ _ _ _ H a n Hin) as [K1 K2].
  pose proof H as [Hrs Hreq Hcs Hwf Hps]. destruct (Hps a n Hin) as [Hn Hb].
  destruct (inv_cs _ _ _ _ _ H) as (C1 & C2 & C3).
  apply list_elem_of_split in Hin as (ps1 & ps2 & ->). cbn [holding].
  rewrite (filter_piece _ _ _ _ _ H ps1 a n ps2) by done.
  specialize (Hfuel _ (Pool.wf_free _ _ _ _ Hwf)).
  destruct (Pool.chunk_count_bytes s rs (n * rs) Hrs Hreq C1) as [Hne Hcount];
    [nia|by apply Z.mod_mul; lia|lia|]. rewrite Z.div_mul in Hne, Hcount by lia.
  rewrite chunks_app, chunks_cons in Hwf. cbn [fst snd] in Hwf.
  destruct (Pool.ordered_free_n_ok fuel s bs fr _ _ a n _ Hwf K1 Hcount ltac:(lia) Hfuel)
    as (s' & fr' & Hr & Hw & Hc & Hq & Hu).
  exists s', fr'. split; [cbn; by rewrite (bind_ok _ _ _ _ _ Hr)|]. by eapply inv_given_back.
Qed.
Lemma write_step fuel x v rs s ps bs fr :
  inv rs s ps bs fr → permitted fuel (Write x v) s ps →
  ∃ s', perform fuel (Write x v) s = (Ok null, s') ∧ inv rs s' ps bs fr ∧ kept rs s s' ps (eq x).
Proof.
  intros H (_ & a & n & Ha & Hx). rewrite (inv_requested _ _ _ _ _ H) in Hx.
  pose proof H as [Hrs Hreq Hcs Hwf Hps]. pose proof (word_mapped _ _ _ _ _ H a n x Ha Hx) as Hm.
  pose proof (Pool.on_heap_eq _ s _ _ (store_ok _ _ v Hm)) as Hr.
  eexists. split; [cbn; by rewrite (bind_ok _ _ _ _ _ Hr)|]. split.
  - split; [done..| |done]. apply Pool.wf_frame; [done|..].
    + intros y Hy. destruct (decide (y = x)) as [->|]; [by rewrite lookup_insert_eq|by rewrite lookup_insert_ne].
    + intros y Hy. rewrite lookup_insert_ne; [done|]. intros <-. by eapply word_not_free.
    + intros b y Hb Hy. rewrite lookup_insert_ne; [done|]. intros <-.
      by eapply (word_not_info _ _ _ _ _ H a n x b x).
  - intros b m y _ _ Hne. cbn. by rewrite lookup_insert_ne.
Qed.

(** The answers to a request, and the words it may change in what the client keeps. *)
Definition answers (q : request) (r : outcome Z) : Prop :=
  match q with
  | Malloc _ | MallocN _ => (∃ a, r = Ok a) ∨ ∃ e, r = Throw e
  | _ => r = Ok null
  end.
Definition written (q : request) (x : Z) : Prop := match q with Write a _ => a = x | _ => False end.
Lemma step_ok fuel q rs s ps bs fr :
  inv rs s ps bs fr → permitted fuel q s ps →
  ∃ r s' bs' fr', perform fuel q s = (r, s') ∧ answers q r ∧ inv rs s' (holding q r ps) bs' fr' ∧
    ∀ a n x, (a, n) ∈ ps → (a, n) ∈ holding q r ps → word_of rs a n x → ¬ written q x →
      Pool.heap s' !! x = Pool.heap s !! x.
Proof.
  intros H Hp. destruct q as [o|n|o a|a n|n|x v].
  - destruct (malloc_step fuel o rs s ps bs fr H Hp) as (r & s' & bs' & fr' & Hr & Ha & Hi & Hk).
    exists r, s', bs', fr'. split_and!; try done. intros. by eapply Hk.
  - destruct (malloc_n_step fuel n rs s ps bs fr H Hp) as (r & s' & bs' & fr' & Hr & Ha & Hi & Hk).
    exists r, s', bs', fr'. split_and!; try done. intros. by eapply Hk.
  - destruct (free_step fuel o a rs s ps bs fr H Hp) as (s' & fr' & Hr & Hi & Hk).
    exists (Ok null), s', bs, fr'. split_and!; try done. intros. by eapply Hk.
  - destruct (free_n_step fuel a n rs s ps bs fr H Hp) as (s' & fr' & Hr & Hi & Hk).
    exists (Ok null), s', bs, fr'. split_and!; try done. intros. by eapply Hk.
  - destruct Hp as [_ Hn]. exists (Ok null), (Pool.set_next n s), bs, fr. split_and!; try done.
    + cbn. unfold Pool.set_next_size. by rewrite bool_decide_eq_true_2.
    + destruct H as [Hrs Hreq Hcs Hwf Hps]. split; try done. by apply Pool.wf_set_next.
  - destruct (write_step fuel x v rs s ps bs fr H Hp) as (s' & Hr & Hi & Hk).
    exists (Ok null), s', bs, fr. split_and!; try done. intros. by eapply Hk.
Qed.
Lemma pool_run_inv rs s ps : run rs s ps → ∃ bs fr, inv rs s ps bs fr.
Proof.
  induction 1 as [h s Hrs Hn|fuel q s ps r s' _ (bs & fr & H) Hp Hr].
  - exists [], []. unfold Pool.pool in Hn. rewrite bool_decide_eq_true_2 in Hn by lia. injection Hn as <-.
    change (Z.lcm word_size word_size) with 8. destruct (Pool.lcm_8 rs Hrs). split; try done.
    + by apply Pool.wf_empty.
    + intros a n Ha. by apply not_elem_of_nil in Ha.
  - destruct (step_ok fuel q rs s ps bs fr H Hp) as (r1 & s1 & bs1 & fr1 & Hr1 & _ & Hi & _).
    rewrite Hr in Hr1. injection Hr1 as <- <-. eauto.
Qed.

(** C12: in every session of a pool of objects of [rs] bytes, in which the client gives back
    what it holds (a single chunk by [free] or [ordered_free], a run of chunks by
    [ordered_free] with its number of objects), writes only there and asks for sizes that
    stay clear of the 64-bit limit, the pieces it holds never overlap, start at a word and are
    mapped over the whole size that was requested; a request for memory returns a
    pointer, which is null or a new piece, or throws what the upstream throws, every other
    request returns, none aborts or accesses unmapped memory, and the words of the pieces
    that the client keeps change only when it writes them. *)
Theorem pool_session_sound rs s ps :
  run rs s ps →
  (∀ ps1 a n ps2 b m ps3, ps = ps1 ++ (a, n) :: ps2 ++ (b, m) :: ps3 →
     a + n * rs ≤ b ∨ b + m * rs ≤ a) ∧
  (∀ a n, (a, n) ∈ ps → 0 < n ∧ 0 < a ∧ a mod 8 = 0 ∧
     ∀ x, word_of rs a n x → is_Some (Pool.heap s !! x)) ∧
  (∀ fuel q, permitted fuel q s ps →
     ∃ r s', perform fuel q s = (r, s') ∧ answers q r ∧
       ∀ a n x, (a, n) ∈ ps → (a, n) ∈ holding q r ps → word_of rs a n x → ¬ written q x →
         Pool.heap s' !! x = Pool.heap s !! x).
Proof.
  intros (bs & fr & H)%pool_run_inv. split_and!.
  - intros. by eapply pieces_disjoint.
  - intros a n Ha. split; [by apply (inv_pieces _ _ _ _ _ H a)|].
    destruct (piece_aligned _ _ _ _ _ H a n Ha). split_and!; [done|done|]. intros x Hx. by eapply word_mapped.
  - intros fuel q Hp. destruct (step_ok fuel q rs s ps bs fr H Hp) as (r & s' & ? & ? & Hr & Ha & _ & Hk).
    eauto 10.
Qed.
End session.

(** ** Witness *)

#[local] Existing Instances Pool.one_block Pool.one_block_ok.

(** A pool of objects of 24 bytes that takes 8 of them at a time; a client requests two adjacent
    objects and one more, and writes into the first. *)
Definition ex0 : Pool.state := Pool.State (Seg.State ∅ null) 24 24 32 (null, 0).
Definition ex1 : Pool.state := snd (perform 1 (NextSize 8) ex0).
Definition ex2 : Pool.state := snd (perform 900 (MallocN 2) ex1).
Definition ex3 : Pool.state := snd (perform 900 (Malloc false) ex2).
Definition ex4 : Pool.state := snd (perform 900 (Write 4104 7) ex3).

(** The free list of a state is the one that its memory holds. *)
Lemma free_list_at s l :
  Seg.chain (Pool.heap s) (Seg.free_list_ (Pool.storage_ s)) l null →
  ∀ l', Seg.holds (Pool.storage_ s) l' → l' = l.
Proof. intros Hl l' [Hl' _]. by eapply Seg.chain_unique. Qed.
Ltac solve_chain :=
  repeat (split; [vm_compute; reflexivity|split; [vm_compute; reflexivity|
    eexists; split; [vm_compute; reflexivity|]]]); vm_compute; reflexivity.

Lemma pool_session_sound_witness :
  run 24 ex4 [(4144, 1); (4096, 2)] ∧ (4144 + 24 ≤ 4096 ∨ 4096 + 48 ≤ 4144) ∧
  (∃ s', perform 900 (FreeN 4096 2) ex4 = (Ok null, s')) ∧
  (∃ s', perform 900 (Free true 4144) ex4 = (Ok null, s') ∧ Pool.heap s' !! 4104 = Some 7).
Proof.
  assert (F0 : ∀ l, Seg.holds (Pool.storage_ ex0) l → l = []) by (apply free_list_at; solve_chain).
  assert (F1 : ∀ l, Seg.holds (Pool.storage_ ex1) l → l = []) by (apply free_list_at; solve_chain).
  assert (F2 : ∀ l, Seg.holds (Pool.storage_ ex2) l → l = Seg.chunks_of 4144 24 5)
    by (apply free_list_at; solve_chain).
  assert (F3 : ∀ l, Seg.holds (Pool.storage_ ex3) l → l = Seg.chunks_of 4168 24 4)
    by (apply free_list_at; solve_chain).
  assert (F4 : ∀ l, Seg.holds (Pool.storage_ ex4) l → l = Seg.chunks_of 4168 24 4)
    by (apply free_list_at; solve_chain).
  assert (E1 : perform 1 (NextSize 8) ex0 = (Ok null, ex1)) by (vm_compute; reflexivity).
  assert (E2 : perform 900 (MallocN 2) ex1 = (Ok 4096, ex2)) by (vm_compute; reflexivity).
  assert (E3 : perform 900 (Malloc false) ex2 = (Ok 4144, ex3)) by (vm_compute; reflexivity).
  assert (E4 : perform 900 (Write 4104 7) ex3 = (Ok null, ex4)) by (vm_compute; reflexivity).
  assert (P1 : permitted 1 (NextSize 8) ex0 []) by (split; [intros l ->%F0; cbn; lia|lia]).
  assert (P2 : permitted 900 (MallocN 2) ex1 []).
  { split_and!; [intros l ->%F1; cbn; lia|lia|vm_compute; repeat split; congruence|].
    intros l ->%F1. vm_compute. repeat split; congruence. }
  assert (P3 : permitted 900 (Malloc false) ex2 [(4096, 2)]).
  { split; [intros l ->%F2; cbn; lia|vm_compute; repeat split; congruence]. }
  assert (P4 : permitted 900 (Write 4104 7) ex3 [(4144, 1); (4096, 2)]).
  { split; [intros l ->%F3; cbn; lia|]. exists 4096, 2. split; [right; left|].
    vm_compute. repeat split; congruence. }
  assert (Hrun : run 24 ex4 [(4144, 1); (4096, 2)]).
  { refine (run_request 24 900 (Write 4104 7) ex3 [(4144, 1); (4096, 2)] (Ok null) ex4 _ P4 E4).
    refine (run_request 24 900 (Malloc false) ex2 [(4096, 2)] (Ok 4144) ex3 _ P3 E3).
    refine (run_request 24 900 (MallocN 2) ex1 [] (Ok 4096) ex2 _ P2 E2).
    refine (run_request 24 1 (NextSize 8) ex0 [] (Ok null) ex1 _ P1 E1). by apply (run_new 24 ∅). }
  destruct (pool_session_sound 24 ex4 _ Hrun) as (Hd & _ & Hq). split_and!; [exact Hrun|..].
  - by apply (Hd [] 4144 1 [] 4096 2 []).
  - destruct (Hq 900%nat (FreeN 4096 2)) as (r & s' & Hr & -> & _);
      [split; [intros l ->%F4; cbn; lia|right; left]|by exists s'].
  - destruct (Hq 900%nat (Free true 4144)) as (r & s' & Hr & -> & Hk);
      [split; [intros l ->%F4; cbn; lia|left]|exists s'; split; [exact Hr|]].
    rewrite (Hk 4096 2 4104); [vm_compute; reflexivity|right; left| |vm_compute; repeat split; congruence|by intros []].
    apply (bool_decide_eq_true_1 _). vm_compute. reflexivity.
Defined.

End PoolSession.
