(* ===== verification/ObjectPool.v ===== *)
(** * object_pool (object_pool.hpp)

    An [object_pool] gets its chunks from a [pool] and keeps those that are handed out on a
    doubly linked list, threaded through the two words after the element, so that its
    destructor can destroy the objects that are left.  [T_size] is the offset of [prev] in
    a [chunk_info]; [objs] holds the elements that are constructed, and [destroyed] those
    whose destructor has run.  Every operation runs under the mutex of the pool. *)

From S2P Require Import Prelude SegStorage Pool.

Local Open Scope Z_scope.
Local Open Scope gpcl_scope.

Module ObjPool.

Section object_pool.
Context {V : Type} {UP : Upstream} (T_size : Z).

Record state : Type := State {
  p_ : Pool.state;
  obj_list_ : Z;
  objs : gmap Z V;
  destroyed : list (Z * V);
}.
Abbreviation O_ T := (M state T).

Definition sizeof_chunk_info : Z := T_size + 16.
Definition prev_of (obj : Z) : Z := obj + T_size.
Definition next_of (obj : Z) : Z := obj + T_size + word_size.

Definition set_pool (p : Pool.state) (s : state) : state := State p (obj_list_ s) (objs s) (destroyed s).
Definition on_pool {A} (m : M Pool.state A) : O_ A := zoom p_ set_pool m.
(** [obj->prev] and [obj->next]. *)
Definition get_link (link : Z → Z) (obj : Z) : O_ Z :=
  if bool_decide (obj = null) then undef else on_pool (Pool.on_heap (load (link obj))).
Definition set_link (link : Z → Z) (obj v : Z) : O_ unit :=
  if bool_decide (obj = null) then undef else on_pool (Pool.on_heap (store (link obj) v)).
Definition set_list (p : Z) : O_ unit := modify (λ s, State (p_ s) p (objs s) (destroyed s)).

Definition object_pool (h : mem) : outcome state :=
  match Pool.pool sizeof_chunk_info h with
  | Ok p => Ok (State p null ∅ [])
  | Throw e => Throw e
  | Abort => Abort
  | Undef => Undef
  | NoFuel => NoFuel
  end.

(** [malloc] writes through what the pool returned, also when that is null. *)
Definition malloc (fuel : nat) : O_ Z :=
  let! obj := on_pool (Pool.malloc fuel) in
  set_link prev_of obj null ;;;
  let! head := gets obj_list_ in
  set_link next_of obj head ;;;
  (if bool_decide (head ≠ null) then set_link prev_of head obj else ret tt) ;;;
  set_list obj ;;;
  ret obj.
Definition free (p : Z) : O_ unit :=
  gpcl_assert (bool_decide (p ≠ null)) ;;;
  let! prev := get_link prev_of p in
  let! next := get_link next_of p in
  (if bool_decide (prev ≠ null) then set_link next_of prev next else ret tt) ;;;
  (if bool_decide (next ≠ null) then set_link prev_of next prev else ret tt) ;;;
  on_pool (Pool.free p) ;;;
  modify (λ s, State (p_ s) (obj_list_ s) (delete p (objs s)) (destroyed s)) ;;;
  let! head := gets obj_list_ in
  if bool_decide (head = p) then set_list next else ret tt.

Definition is_from (fuel : nat) (p : Z) : O_ bool := on_pool (Pool.is_from fuel p).
Definition set_next_size (n : Z) : O_ unit := on_pool (Pool.set_next_size n).

(** [::new (p) element_type(...)]; the constructor gives a value or throws. *)
Definition new_at (p : Z) (v : outcome V) : O_ unit := λ s,
  match v with
  | Ok v => (Ok tt, State (p_ s) (obj_list_ s) (<[p := v]> (objs s)) (destroyed s))
  | Throw e => (Throw e, s)
  | Abort => (Abort, s)
  | Undef => (Undef, s)
  | NoFuel => (NoFuel, s)
  end.
Definition construct (fuel : nat) (v : outcome V) : O_ Z :=
  let! p := malloc fuel in new_at p v ;;; ret p.
(** [p->~element_type()]; there has to be an object at [p]. *)
Definition destroy_elem (p : Z) : O_ unit := λ s,
  match objs s !! p with
  | Some v => (Ok tt, State (p_ s) (obj_list_ s) (delete p (objs s)) (destroyed s ++ [(p, v)]))
  | None => (Undef, s)
  end.
Definition destroy (p : Z) : O_ unit := destroy_elem p ;;; free p.

Fixpoint destroy_all (fuel : nat) : O_ unit :=
  match fuel with
  | O => nofuel
  | S fuel =>
      let! p := gets obj_list_ in
      if bool_decide (p ≠ null) then
        destroy_elem p ;;;
        let! next := get_link next_of p in
        set_list next ;;;
        destroy_all fuel
      else ret tt
  end.
(** The destructor: the loop, then the destructor of the pool. *)
Definition destruct_ (fuel : nat) : O_ (list (Z * Z)) := destroy_all fuel ;;;
    on_pool (Pool.destroy fuel).

(** ** The list of the objects *)

Fixpoint seg (h : mem) (prev p : Z) (l : list Z) (e : Z) : Prop :=
  match l with
  | [] => p = e
  | a :: l => p = a ∧ a ≠ null ∧ h !! prev_of a = Some prev ∧ ∃ n, h !! next_of a = Some n ∧
    seg h a n l e
  end.

Record inv (s : state) (bs : list (Z * Z)) (free live : list Z) : Prop := {
  inv_wf : Pool.wf (p_ s) bs free live;
  inv_size : Pool.chunk_size_ (p_ s) = sizeof_chunk_info;
  inv_list : seg (Pool.heap (p_ s)) null (obj_list_ s) live null;
  inv_objs a : is_Some (objs s !! a) → a ∈ live;
}.
Definition all_constructed (s : state) (live : list Z) : Prop := ∀ a, a ∈ live → is_Some (objs s !! a).

(** ** Lemmas *)

Lemma seg_app h prev p l1 l2 e :
  seg h prev p (l1 ++ l2) e ↔ ∃ m, seg h prev p l1 m ∧ seg h (default prev (last l1)) m l2 e.
Proof.
  revert prev p. induction l1 as [|a l1 IH]; intros prev p; cbn [app seg].
  - split; [by eauto|]. intros (m & -> & H). done.
  - assert (Hl : default prev (last (a :: l1)) = default a (last l1)) by (rewrite last_cons;
      by destruct (last l1)). setoid_rewrite Hl. split.
    + intros (-> & Ha & Hp & n & Hn & (m & H1 & H2)%IH). exists m. eauto 10.
    + intros (m & (-> & Ha & Hp & n & Hn & H1) & H2). split_and!; try done. exists n.
      split; [done|]. apply IH. eauto.
Qed.
Lemma seg_frame (h h' : mem) prev p l e :
  seg h prev p l e → (∀ a, a ∈ l → h' !! prev_of a = h !! prev_of a ∧
    h' !! next_of a = h !! next_of a) → seg h' prev p l e.
Proof.
  revert prev p. induction l as [|a l IH]; intros prev p; cbn [seg]; [done|].
  intros (-> & Ha & Hp & n & Hn & H) Hf. destruct (Hf a) as [-> ->]; [set_solver|]. split_and!; try done.
  exists n. split; [done|]. apply IH; [done|]. intros b Hb. apply Hf. set_solver.
Qed.

Context (HT : 8 ≤ T_size) (HT8 : T_size mod 8 = 0).

Definition link_ok (link : Z → Z) : Prop := link = prev_of ∨ link = next_of.
Definition put (c v : Z) (s : state) : state :=
  set_pool (Pool.set_storage
    (Seg.State (<[c := v]> (Pool.heap (p_ s))) (Seg.free_list_ (Pool.storage_ (p_ s)))) (p_ s)) s.

Lemma links_apart s bs free live a b link link' :
  Pool.wf s bs free live → Pool.chunk_size_ s = sizeof_chunk_info → a ∈ free ++ live →
    b ∈ free ++ live → a ≠ b →
  link_ok link → link_ok link' → link a ≠ link' b ∧ link a ≠ b ∧ a ≠ link' b.
Proof.
  intros Hwf Hsz Ha Hb Hab Hl Hl'.
  pose proof (Pool.chunks_apart s bs free live a b Hwf Ha Hb Hab) as Hap. rewrite Hsz in Hap.
  unfold sizeof_chunk_info in Hap. destruct Hl as [-> | ->], Hl' as [-> | ->];
    unfold prev_of, next_of, word_size; lia.
Qed.
Lemma obj_link_mapped s bs free live a link :
  Pool.wf s bs free live → Pool.chunk_size_ s = sizeof_chunk_info → a ∈ free ++ live → link_ok link →
  a ≠ null ∧ is_Some (Pool.heap s !! link a).
Proof.
  intros Hwf Hsz Ha Hl. pose proof Hwf as [[Hcs Hcs8] _ _ Hg _ Hmap _ Hch].
  rewrite Forall_forall in Hg; rewrite Forall_forall in Hch.
  pose proof (Hch a Ha) as (c & Hc & Hin)%Exists_exists. pose proof (Hg c Hc) as Hgc.
  pose proof (Pool.chunk_in_cell _ _ _ Hgc Hcs Hcs8 Hin) as (_ & _ & Hm)%elem_of_block_cells.
  destruct Hgc as (? & ? & ? & ? & ?), Hin as (k & ? & -> & ?). rewrite Hsz in *.
  unfold sizeof_chunk_info in *.
  split; [unfold null; nia|]. apply (Hmap c); [done|]. apply elem_of_block_cells.
  pose proof (Pool.block_info_offset_bounds c.2).
  unfold word_size in *. destruct Hl as [-> | ->]; unfold prev_of, next_of, word_size; split_and!;
    try nia.
  - replace (c.1 + k * (T_size + 16) + T_size - c.1) with (c.1 + k * (T_size + 16) - c.1 + T_size)
      by lia. by rewrite Z.add_mod, Hm, HT8.
  - replace (c.1 + k * (T_size + 16) + T_size + 8 - c.1)
      with (c.1 + k * (T_size + 16) - c.1 + T_size + 1 * 8) by lia.
    rewrite Z.mod_add by lia. by rewrite Z.add_mod, Hm, HT8.
Qed.
(** Writing a link of a live chunk keeps the invariant of the pool. *)
Lemma put_wf s bs free live a link v :
  Pool.wf (p_ s) bs free live → Pool.chunk_size_ (p_ s) = sizeof_chunk_info → a ∈ live → link_ok link →
  set_link link a v s = (Ok tt, put (link a) v s) ∧ Pool.wf (p_ (put (link a) v s)) bs free live.
Proof.
  intros Hwf Hsz Ha Hl. assert (Ha' : a ∈ free ++ live) by set_solver.
  destruct (obj_link_mapped _ _ _ _ a link Hwf Hsz Ha' Hl) as [Hnz Hm]. split.
  - unfold set_link. rewrite bool_decide_eq_false_2 by done. unfold on_pool.
    erewrite zoom_eq; [done|]. by apply Pool.on_heap_eq, store_ok.
  - apply Pool.wf_frame; [done|..].
    + intros c Hc. rewrite lookup_insert. by case_decide.
    + intros f Hf. rewrite lookup_insert_ne; [done|]. destruct (decide (f = a)) as [->|Hfa].
      * pose proof (Pool.wf_nodup _ _ _ _ Hwf) as (_ & Hn & _)%NoDup_app. by destruct (Hn a Hf).
      * eapply links_apart; eauto. set_solver.
    + intros b c Hb Hc. rewrite lookup_insert_ne; [done|].
      pose proof Hwf as [[Hcs _] _ _ Hg Hd _ _ Hch]. rewrite Forall_forall in Hch.
      pose proof (Pool.chunk_not_info _ bs a c b Hcs Hg Hd (Hch a Ha') Hb Hc) as Hn.
      rewrite Hsz in Hn. unfold sizeof_chunk_info in Hn.
      destruct Hl as [-> | ->]; unfold prev_of, next_of, word_size; lia.
Qed.
Lemma get_link_ok s link a v :
  a ≠ null → Pool.heap (p_ s) !! link a = Some v → get_link link a s = (Ok v, s).
Proof.
  intros Ha Hv. unfold get_link. rewrite bool_decide_eq_false_2 by done. unfold on_pool.
  erewrite zoom_eq by (apply Pool.on_heap_eq, load_ok, Hv). rewrite Pool.set_storage_id. by destruct s.
Qed.

(** Links that are not written keep their values. *)
Lemma put_other c v s d : c ≠ d → Pool.heap (p_ (put c v s)) !! d = Pool.heap (p_ s) !! d.
Proof. intros Hc. unfold put, Pool.heap at 1. cbn. by rewrite lookup_insert_ne. Qed.
Lemma put_same c v s : Pool.heap (p_ (put c v s)) !! c = Some v.
Proof. unfold put, Pool.heap at 1. cbn. apply lookup_insert_eq. Qed.
Lemma prev_next_ne a : prev_of a ≠ next_of a.
Proof. unfold prev_of, next_of, word_size. lia. Qed.
Lemma link_prev : link_ok prev_of.
Proof. by left. Qed.
Lemma link_next : link_ok next_of.
Proof. by right. Qed.

Context {UPok : UpstreamOk}.

(** The new chunk is linked in at the front. *)
Lemma link_front s bs free live a :
  Pool.wf (p_ s) bs free (a :: live) → Pool.chunk_size_ (p_ s) = sizeof_chunk_info →
  seg (Pool.heap (p_ s)) null (obj_list_ s) live null →
  ∃ s', (set_link prev_of a null ;;;
         let! head := gets obj_list_ in
         set_link next_of a head ;;;
         (if bool_decide (head ≠ null) then set_link prev_of head a else ret tt) ;;;
         set_list a ;;; ret a) s = (Ok a, s') ∧
    Pool.wf (p_ s') bs free (a :: live) ∧ Pool.chunk_size_ (p_ s') = sizeof_chunk_info ∧
    seg (Pool.heap (p_ s')) null (obj_list_ s') (a :: live) null ∧ objs s' = objs s ∧
      destroyed s' = destroyed s.
Proof.
  intros Hwf Hsz Hl. assert (Ha : a ∈ a :: live) by set_solver.
  destruct (obj_link_mapped _ _ _ _ a prev_of Hwf Hsz) as [Hnz _]; [set_solver|apply link_prev|].
  destruct (put_wf s bs free _ a prev_of null Hwf Hsz Ha link_prev) as [H1 W1].
  rewrite (bind_ok _ _ _ _ _ H1), bind_gets.
  set (s1 := put _ _ s) in *.
  destruct (put_wf s1 bs free _ a next_of (obj_list_ s1) W1 Hsz Ha link_next) as [H2 W2].
  rewrite (bind_ok _ _ _ _ _ H2). set (s2 := put _ _ s1) in *.
  assert (Happ : ∀ b l l', b ∈ live → link_ok l → link_ok l' → l a ≠ l' b).
  { intros b l l' Hb Hlk Hlk'. eapply (links_apart (p_ s) bs free (a :: live) a b l l'); eauto;
      [set_solver..|].
    pose proof (Pool.wf_nodup _ _ _ _ Hwf) as (_ & _ & Hnd)%NoDup_app.
    apply NoDup_cons in Hnd as [Hni _]. congruence. }
  assert (Hl2 : seg (Pool.heap (p_ s2)) null (obj_list_ s) live null).
  { eapply seg_frame; [exact Hl|]. intros b Hb. unfold s2, s1.
      rewrite !put_other by (apply Happ; auto using link_prev, link_next). done. }
  assert (Hp : Pool.heap (p_ s2) !! prev_of a = Some null) by (unfold s2;
    rewrite put_other by (apply not_eq_sym, prev_next_ne); apply put_same).
  assert (Hn : Pool.heap (p_ s2) !! next_of a = Some (obj_list_ s)) by apply put_same.
  change (obj_list_ s1) with (obj_list_ s) in *. destruct live as [|b live].
  - cbn in Hl. rewrite Hl in *. rewrite bool_decide_eq_false_2 by tauto. eexists. split; [done|].
    cbn [p_ obj_list_ objs destroyed seg]. split_and!; try done. eauto 10.
  - destruct Hl2 as (Hb & Hbz & Hbp & n & Hbn & Hl2). rewrite Hb in *.
    rewrite bool_decide_eq_true_2 by done.
    destruct (put_wf s2 bs free _ b prev_of a W2 Hsz ltac:(set_solver) link_prev) as [H3 W3].
    rewrite (bind_ok _ _ _ _ _ H3).
    assert (Hdiff : ∀ c l l', c ∈ a :: live → link_ok l → link_ok l' → l b ≠ l' c).
    { intros c l l' Hc Hlk Hlk'. eapply (links_apart (p_ s) bs free (a :: b :: live) b c l l');
        eauto; [set_solver..|].
      pose proof (Pool.wf_nodup _ _ _ _ Hwf) as (_ & _ & Hnd)%NoDup_app.
      rewrite NoDup_cons, NoDup_cons in Hnd. set_solver. }
    eexists. split; [done|]. cbn [p_ obj_list_ objs destroyed seg]. split_and!; try done.
    + by rewrite (put_other (prev_of b)) by (apply Hdiff; [set_solver|apply link_prev..]).
    + exists b.
      rewrite (put_other (prev_of b)) by (apply Hdiff;
        [set_solver|apply link_prev|apply link_next]). split; [done|].
      split_and!; try done; [apply put_same|]. exists n. rewrite put_other by apply prev_next_ne.
      split; [done|].
      eapply seg_frame; [exact Hl2|]. intros c Hc.
      rewrite !put_other by (apply Hdiff; [set_solver|auto using link_prev, link_next..]). done.
Qed.

(** What the writes of links leave alone. *)
Record relinked (s s' : state) (bs : list (Z * Z)) (free live : list Z) : Prop := {
  rl_wf : Pool.wf (p_ s') bs free live;
  rl_size : Pool.chunk_size_ (p_ s') = sizeof_chunk_info;
  rl_head : obj_list_ s' = obj_list_ s;
  rl_objs : objs s' = objs s;
  rl_dead : destroyed s' = destroyed s;
}.
Definition links_kept (s s' : state) (live l : list Z) : Prop :=
  ∀ link c, link_ok link → c ∈ live → c ∉ l → Pool.heap (p_ s') !! link c = Pool.heap (p_ s) !! link c.

Lemma seg_kept s s' live l l' prev p e :
  links_kept s s' live l → (∀ c, c ∈ l' → c ∈ live ∧ c ∉ l) → seg (Pool.heap (p_ s)) prev p l' e →
    seg (Pool.heap (p_ s')) prev p l' e.
Proof.
  intros Hk Hd H. eapply seg_frame; [exact H|]. intros c Hc. destruct (Hd c Hc).
  split; apply Hk; auto using link_prev, link_next.
Qed.
Lemma links_apart_live s bs free live a b link link' :
  Pool.wf (p_ s) bs free live → Pool.chunk_size_ (p_ s) = sizeof_chunk_info → a ∈ live → b ∈ live →
    a ≠ b →
  link_ok link → link_ok link' → link a ≠ link' b.
Proof. intros. eapply (links_apart (p_ s) bs free live a b link link'); eauto; set_solver. Qed.

(** [if (prev) prev->next = next]: the elements before [a] end at [next]. *)
Lemma relink_next s bs free live l p m n :
  Pool.wf (p_ s) bs free live → Pool.chunk_size_ (p_ s) = sizeof_chunk_info → l ⊆ live → NoDup l →
  seg (Pool.heap (p_ s)) null p l m →
  ∃ s', (if bool_decide (default null (last l) ≠ null) then set_link next_of (default null (last l))
    n else ret tt) s = (Ok tt, s') ∧
    relinked s s' bs free live ∧ seg (Pool.heap (p_ s')) null (match l with [] => n |
      _ => p end) l n ∧ links_kept s s' live l.
Proof.
  intros Hwf Hsz Hsub Hnd Hl. destruct l as [|b l _] using rev_ind.
  - rewrite bool_decide_eq_false_2 by tauto. by exists s.
  - rewrite last_snoc. cbn [default]. apply seg_app in Hl as (q & Hl & -> & Hbz & Hbp & m' & Hbn & Hm).
    rewrite bool_decide_eq_true_2 by done. assert (Hb : b ∈ live) by (apply Hsub; set_solver).
    destruct (put_wf s bs free live b next_of n Hwf Hsz Hb link_next) as [H1 W1].
    exists (put (next_of b) n s).
    split; [done|]. split; [by split|]. apply NoDup_app in Hnd as (Hnd & Hni & _).
    assert (Hk : links_kept s (put (next_of b) n s) live [b]).
    { intros link c Hlk Hc Hnc. apply put_other. eapply links_apart_live; eauto using link_next.
        set_solver. }
    split; [|intros link c Hlk Hc Hnc; apply Hk; [done|done|set_solver]].
    replace (match l ++ [b] with [] => n | _ => p end) with p by (by destruct l).
    apply seg_app. exists b. split; [eapply (seg_kept s); [exact Hk| |done]; set_solver|].
    cbn [seg]. split_and!; try done; [rewrite put_other by (apply not_eq_sym, prev_next_ne); done|].
    exists n. split; [apply put_same|done].
Qed.
(** [if (next) next->prev = prev]: the elements after [a] begin behind [prev]. *)
Lemma relink_prev s bs free live l x n P :
  Pool.wf (p_ s) bs free live → Pool.chunk_size_ (p_ s) = sizeof_chunk_info → l ⊆ live → NoDup l →
  seg (Pool.heap (p_ s)) x n l null →
  ∃ s', (if bool_decide (n ≠ null) then set_link prev_of n P else ret tt) s = (Ok tt, s') ∧
    relinked s s' bs free live ∧ seg (Pool.heap (p_ s')) P n l null ∧ links_kept s s' live l.
Proof.
  intros Hwf Hsz Hsub Hnd Hl. destruct l as [|c l]; cbn [seg] in Hl.
  - rewrite Hl, bool_decide_eq_false_2 by tauto. by exists s.
  - destruct Hl as (-> & Hcz & Hcp & n' & Hcn & Hl). rewrite bool_decide_eq_true_2 by done.
    assert (Hc : c ∈ live) by (apply Hsub; set_solver). apply NoDup_cons in Hnd as [Hni Hnd].
    destruct (put_wf s bs free live c prev_of P Hwf Hsz Hc link_prev) as [H1 W1].
    exists (put (prev_of c) P s).
    split; [done|]. split; [by split|].
    assert (Hk : links_kept s (put (prev_of c) P s) live [c]).
    { intros link d Hlk Hd Hnd'. apply put_other. eapply links_apart_live; eauto using link_prev.
        set_solver. }
    split; [|intros link d Hlk Hd Hnd'; apply Hk; [done|done|set_solver]].
    cbn [seg]. split_and!; try done; [apply put_same|]. exists n'.
    rewrite put_other by apply prev_next_ne.
    split; [done|]. eapply (seg_kept s); [exact Hk| |done]. set_solver.
Qed.

(** ** The operations *)

Lemma objpool_malloc_ok fuel s bs free live :
  inv s bs free live → Pool.roomy (p_ s) sizeof_chunk_info → (length free < fuel)%nat →
  (∃ a s' bs' free', malloc fuel s = (Ok a, s') ∧ inv s' bs' free' (a :: live) ∧ objs s' = objs s ∧
    destroyed s' = destroyed s) ∨
  (∃ e s', malloc fuel s = (Throw e, s') ∧ inv s' bs free live ∧ objs s' = objs s ∧
    destroyed s' = destroyed s) ∨
  (free = [] ∧ fst (Pool.malloc fuel (p_ s)) = Ok null ∧ fst (malloc fuel s) = Undef).
Proof.
  intros [Hwf Hsz Hl Ho] Hroom Hf. rewrite <- Hsz in Hroom.
  destruct (Pool.malloc_with_ok fuel false (p_ s) bs free live Hwf Hroom Hf)
    as (r & p & bs' & free' & Hr & Hcs & Hun & Hcase).
  pose proof (zoom_eq p_ set_pool (Pool.malloc fuel) s r p Hr) as Hz.
  assert (Hl' : seg (Pool.heap p) null (obj_list_ s) live null).
  { eapply seg_frame; [exact Hl|]. intros a Ha. assert (Ha' : a ∈ free ++ live) by set_solver.
    split; (apply Hun; [|apply not_elem_of_nil]); eapply obj_link_mapped;
      eauto using link_prev, link_next. }
  unfold malloc at 1 2. fold (on_pool (Pool.malloc fuel)) in Hz.
  destruct Hcase as [(a & -> & Ha & Hw & _)|([-> | [e ->]] & -> & Hw)].
  - left. rewrite (bind_ok _ _ _ _ _ Hz).
    destruct (link_front (set_pool p s) bs' free' live a) as (s' & H1 & W1 & S1 & L1 & O1 & D1);
      [done|cbn; congruence|done|].
    exists a, s', bs', free'. split; [exact H1|]. split_and!; try done. split; try done. intros b.
    rewrite O1. cbn. intros Hb. specialize (Ho b Hb). set_solver.
  - right; right. split_and!; [done|unfold Pool.malloc; by rewrite Hr|]. unfold malloc.
    by rewrite (bind_ok _ _ _ _ _ Hz).
  - right; left. rewrite (bind_throw _ _ _ _ _ Hz). eexists _, _. split; [done|].
    split_and!; try done. split; try done. cbn. congruence.
Qed.

Lemma objs_left (o : gmap Z V) a l1 l2 :
  (∀ b, is_Some (o !! b) → b ∈ l1 ++ a :: l2) → ∀ b, is_Some (delete a o !! b) → b ∈ l1 ++ l2.
Proof.
  intros Ho b Hb. destruct (decide (a = b)) as [<-|Hne];
    [rewrite lookup_delete_eq in Hb; by destruct Hb|].
  rewrite lookup_delete_ne in Hb by done. specialize (Ho b Hb). set_solver.
Qed.
Lemma objpool_free_ok s bs fr live1 a live2 :
  inv s bs fr (live1 ++ a :: live2) →
  ∃ s', free a s = (Ok tt, s') ∧ inv s' bs (a :: fr) (live1 ++ live2) ∧
    objs s' = delete a (objs s) ∧ destroyed s' = destroyed s.
Proof.
  intros [Hwf Hsz Hl Ho]. pose proof (Pool.wf_nodup _ _ _ _ Hwf) as (_ & Hnf & Hnd)%NoDup_app.
  apply NoDup_app in Hnd as (Hnd1 & Hn12 & [Hna Hnd2]%NoDup_cons).
  apply seg_app in Hl as (m & Hl1 & -> & Haz & Hap & n & Han & Hl2). unfold free.
  rewrite bind_assert by (by apply bool_decide_eq_true_2).
  rewrite (bind_ok _ _ _ _ _ (get_link_ok s prev_of a _ Haz Hap)),
    (bind_ok _ _ _ _ _ (get_link_ok s next_of a _ Haz Han)).
  destruct (relink_next s bs fr (live1 ++ a :: live2) live1 (obj_list_ s) a n Hwf Hsz)
    as (s1 & H1 & [W1 S1 E1 O1 D1] & L1 & K1); [set_solver|done|done|].
  rewrite (bind_ok _ _ _ _ _ H1).
  destruct (relink_prev s1 bs fr (live1 ++ a :: live2) live2 a n (default null (last live1)) W1 S1)
    as (s2 & H2 & [W2 S2 E2 O2 D2] & L2 & K2);
    [set_solver|done|eapply seg_kept; [exact K1| |exact Hl2]; set_solver|].
  rewrite (bind_ok _ _ _ _ _ H2).
  destruct (Pool.free_ok _ _ _ _ _ _ W2) as (p & Hp & Hw & Hcs & Hh).
  rewrite (bind_ok _ _ _ _ _ (zoom_eq p_ set_pool (Pool.free a) s2 _ _ Hp)), bind_modify, bind_gets.
  cbn [set_pool p_ obj_list_ objs destroyed].
  assert (Hlist : seg (Pool.heap p) null (match live1 with [] => n |
    _ => obj_list_ s end) (live1 ++ live2) null).
  { eapply seg_frame;
      [apply seg_app; exists n; split;
      [eapply seg_kept; [exact K2| |exact L1]; set_solver|exact L2]|].
    intros b Hb. assert (b ≠ a) by set_solver.
    assert (Hne : ∀ link, link_ok link → link b ≠ a).
    { intros link Hlk. eapply (links_apart (p_ s2) bs fr (live1 ++ a :: live2) b a link link);
        eauto; set_solver. }
    split; apply Hh, Hne; auto using link_prev, link_next. }
  rewrite E2, E1. destruct live1 as [|b live1].
  - cbn [seg] in Hl1. rewrite bool_decide_eq_true_2 by done. eexists. split; [done|]. cbn.
    split_and!; try congruence. split; cbn; try done; [congruence|].
    rewrite O2, O1. by apply (objs_left _ _ []).
  - cbn [seg] in Hl1.
    rewrite bool_decide_eq_false_2 by (destruct Hl1 as [-> _]; intros ->; apply (Hn12 a);
      set_solver). eexists. split; [done|]. cbn [objs destroyed].
    split_and!; try congruence. split; cbn [p_ obj_list_ objs]; try done; [congruence|].
    rewrite O2, O1. by apply objs_left.
Qed.

Lemma objpool_construct_ok fuel s bs free live v :
  inv s bs free live → all_constructed s live → Pool.roomy (p_ s) sizeof_chunk_info →
    (length free < fuel)%nat →
  (∃ a s' bs' free', construct fuel (Ok v) s = (Ok a, s') ∧ (a ∉ live) ∧ inv s' bs' free' (a :: live) ∧
     all_constructed s' (a :: live) ∧ objs s' = <[a := v]> (objs s) ∧ destroyed s' = destroyed s) ∨
  (∃ e s', construct fuel (Ok v) s = (Throw e, s') ∧ inv s' bs free live ∧ all_constructed s' live ∧
     objs s' = objs s ∧ destroyed s' = destroyed s) ∨
  (free = [] ∧ fst (Pool.malloc fuel (p_ s)) = Ok null ∧ fst (construct fuel (Ok v) s) = Undef).
Proof.
  intros Hinv Hall Hroom Hf. unfold construct.
  destruct (objpool_malloc_ok fuel s bs free live Hinv Hroom Hf)
    as [(a & s1 & bs' & free' & H1 & I1 & O1 & D1)|[(e & s1 & H1 & I1 & O1 & D1)|(-> & Hn & Hu)]].
  - left. rewrite (bind_ok _ _ _ _ _ H1). destruct I1 as [W1 S1 L1 J1].
    pose proof (Pool.wf_nodup _ _ _ _ W1) as (_ & _ & [Hni _]%NoDup_cons)%NoDup_app.
    eexists a, _, bs', free'. split; [done|]. cbn.
    split_and!; try done; [split; cbn; try done| |by rewrite O1].
    + intros b. rewrite lookup_insert. case_decide; [set_solver|]. apply J1.
    + intros b [->|Hb]%elem_of_cons; cbn; [by rewrite lookup_insert_eq|].
      rewrite lookup_insert_ne, O1 by (intros ->; done). by apply Hall.
  - right; left. rewrite (bind_throw _ _ _ _ _ H1). exists e, s1. split_and!; try done. intros a Ha.
    rewrite O1. by apply Hall.
  - right; right. split_and!; [done|done|]. unfold bind. destruct (malloc fuel s) as [r s1].
    cbn in Hu. by rewrite Hu.
Qed.
Lemma objpool_destroy_ok s bs fr live a v :
  inv s bs fr live → all_constructed s live → objs s !! a = Some v →
  ∃ s' live', destroy a s = (Ok tt, s') ∧ inv s' bs (a :: fr) live' ∧ live ≡ₚ a :: live' ∧
    all_constructed s' live' ∧
    objs s' = delete a (objs s) ∧ destroyed s' = destroyed s ++ [(a, v)].
Proof.
  intros Hinv Hall Ha. assert (Hin : a ∈ live) by (apply (inv_objs _ _ _ _ Hinv); eauto).
  apply list_elem_of_split in Hin as (l1 & l2 & ->). unfold destroy.
  set (s1 := State (p_ s) (obj_list_ s) (delete a (objs s)) (destroyed s ++ [(a, v)])).
  assert (H1 : destroy_elem a s = (Ok tt, s1)) by (unfold destroy_elem; by rewrite Ha).
  rewrite (bind_ok _ _ _ _ _ H1).
  destruct Hinv as [W S L J].
  pose proof (Pool.wf_nodup _ _ _ _ W)
    as (_ & _ & (_ & H12 & [Hn _]%NoDup_cons)%NoDup_app)%NoDup_app.
  assert (I1 : inv s1 bs fr (l1 ++ a :: l2)).
  { split; try done. intros b Hb. apply (objs_left _ _ _ _ J) in Hb. set_solver. }
  destruct (objpool_free_ok s1 bs fr l1 a l2 I1) as (s2 & H2 & I2 & O2 & D2). exists s2, (l1 ++ l2).
  split_and!; try done.
  - by rewrite <- Permutation_middle.
  - intros b Hb. rewrite O2. cbn.
    assert (b ≠ a) by (intros ->; apply elem_of_app in Hb as [Hb|Hb];
      [by apply (H12 a Hb); set_solver|done]).
    rewrite !lookup_delete_ne by done. apply Hall. set_solver.
  - rewrite O2. cbn. apply map_eq. intros i. rewrite !lookup_delete. by repeat case_decide.
Qed.

(** The loop of the destructor. *)
Definition contents (s : state) (live : list Z) : list (Z * V) :=
    omap (λ a, pair a <$> objs s !! a) live.

Lemma destroy_all_ok fuel s prev live :
  seg (Pool.heap (p_ s)) prev (obj_list_ s) live null → NoDup live →
    (∀ a, is_Some (objs s !! a) ↔ a ∈ live) →
  (length live < fuel)%nat →
  ∃ s', destroy_all fuel s = (Ok tt, s') ∧ p_ s' = p_ s ∧ objs s' = ∅ ∧
    destroyed s' = destroyed s ++ contents s live.
Proof.
  revert s prev fuel. induction live as [|a live IH]; intros s prev fuel Hl Hnd Ho Hf;
    (destruct fuel as [|fuel]; [cbn in Hf; lia|]); cbn [destroy_all seg] in *; rewrite bind_gets.
  - rewrite Hl, bool_decide_eq_false_2 by tauto. exists s. split_and!; try done; [|by rewrite app_nil_r].
    apply map_eq. intros i. rewrite lookup_empty. apply eq_None_not_Some. rewrite Ho.
    apply not_elem_of_nil.
  - destruct Hl as (-> & Haz & Hp & n & Hn & Hl). rewrite bool_decide_eq_true_2 by done.
    apply NoDup_cons in Hnd as [Hni Hnd].
    destruct (proj2 (Ho a) ltac:(set_solver)) as [v Hv].
    set (s1 := State (p_ s) (obj_list_ s) (delete a (objs s)) (destroyed s ++ [(a, v)])).
    assert (H1 : destroy_elem a s = (Ok tt, s1)) by (unfold destroy_elem; by rewrite Hv).
    rewrite (bind_ok _ _ _ _ _ H1).
    rewrite (bind_ok _ _ _ _ _ (get_link_ok s1 next_of a n Haz Hn)). unfold set_list.
    rewrite bind_modify.
    destruct (IH (State (p_ s) n (delete a (objs s)) (destroyed s ++ [(a, v)])) a fuel)
      as (s' & H' & P' & O' & D'); [done|done| |cbn in Hf; lia|].
    + intros b. cbn. destruct (decide (a = b)) as [<-|Hne].
      * rewrite lookup_delete_eq. split; [by intros [? ?]|done].
      * rewrite lookup_delete_ne by done. rewrite Ho. set_solver.
    + exists s'. split_and!; try done. rewrite D'. unfold contents. cbn. rewrite Hv. cbn.
      rewrite <- app_assoc. do 2 f_equal.
      apply list_omap_ext, Forall_Forall2_diag, Forall_forall. intros b Hb.
      by rewrite lookup_delete_ne by set_solver.
Qed.


(** A constructor that throws leaves its chunk in the list: the destructor of the pool then
    destroys an element that was never made. *)
Lemma object_pool_throw_undef fuel s bs free live e a :
  inv s bs free live → Pool.roomy (p_ s) sizeof_chunk_info → (length free < fuel)%nat →
  fst (malloc fuel s) = Ok a → all_constructed s live → objs s !! a = None →
  fst (construct fuel (Throw e) s) = Throw e ∧
    fst (destruct_ fuel (snd (construct fuel (Throw e) s))) = Undef.
Proof.
  intros Hinv Hroom Hf Ha Hall Hna. destruct fuel as [|fuel]; [lia|].
  destruct (objpool_malloc_ok (S fuel) s bs free live Hinv Hroom Hf)
    as [(b & s1 & bs' & free' & H1 & I1 & O1 & D1)|[(e' & s1 & H1 & I1)|(_ & _ & Hu)]];
    [|rewrite H1 in Ha; done|congruence].
  rewrite H1 in Ha. injection Ha as ->. unfold construct. rewrite (bind_ok _ _ _ _ _ H1).
  split; [done|]. cbn [snd bind new_at].
  destruct I1 as [W1 S1 (Hhd & Haz & _) J1]. unfold destruct_. cbn [destroy_all].
  rewrite bind_assoc, bind_gets, Hhd.
  rewrite bool_decide_eq_true_2 by done. unfold bind, destroy_elem. by rewrite O1, Hna.
Qed.

End object_pool.
Arguments state : clear implicits.

(** A pool of objects of one word, on an upstream that serves one block. *)
Definition fresh_pool : state Z := State (Pool.State (Seg.State ∅ null) 24 24 32 (null, 0)) null ∅ [].

Lemma fresh_pool_new : object_pool 8 ∅ = Ok fresh_pool.
Proof. reflexivity. Qed.
Lemma fresh_pool_inv : inv 8 fresh_pool [] [] [].
Proof. split; [by apply Pool.wf_empty|done|done|]. intros a [? ?]. done. Qed.
#[local] Existing Instance Pool.one_block.
#[local] Existing Instance Pool.one_block_ok.

End ObjPool.
