(* ===== verification/PoolResource.v ===== *)
(** * Synchronised pool resource (pmr/synchronised_pool_resource.hpp, pmr/memory_resource.hpp,
      pmr/detail/resource_pool.hpp)

    A memory resource with a pool for every one of a few object sizes; a request goes to the
    pool with the biggest size that divides it, a big one or one with a strict alignment to
    the upstream resource.  The pools ([ResourcePool], which is Pool.v with
    another upstream) take their blocks from the
    same upstream resource and live in the same memory.  Every operation holds the mutex of
    the resource, so that a history of calls is a sequence.  [blocks_from_upstream_] is never
    filled; the nodes of the map of the pools are not modelled. *)

From S2P Require Import Prelude SegStorage Pool.

Local Open Scope Z_scope.
Local Open Scope gpcl_scope.

(** ** The upstream resource *)

(** [allocate(bytes, alignment)] and [deallocate(p, bytes, alignment)]. *)
Class Resource : Type := {
  res_alloc : Z → Z → M mem Z;
  res_free : Z → Z → Z → M mem unit;
}.
Class ResourceOk `{!Resource} : Prop := {
  res_alloc_ok : ∀ sz al h, 0 < sz → 0 < al →
    res_alloc sz al h = (Ok null, h) ∨ (∃ e, res_alloc sz al h = (Throw e, h)) ∨
    (∃ b, res_alloc sz al h = (Ok b, map_block b sz h) ∧ 0 < b ∧ b mod al = 0 ∧
       b + sz < 2 ^ 64 ∧ (∀ a, is_Some (h !! a) → a + 8 ≤ b ∨ b + sz ≤ a));
  res_free_ok : ∀ b sz al h, res_free b sz al h = (Ok tt, unmap_block b sz h);
}.
(** [alignof(std::max_align_t)], the default alignment. *)
Definition max_align : Z := 16.
#[export] Instance resource_upstream `{!Resource} : Upstream :=
  {| up_alloc sz := res_alloc sz max_align; up_free b sz := res_free b sz max_align |}.
#[export] Instance resource_upstream_ok `{!Resource, !ResourceOk} : UpstreamOk.
Proof. split; intros; [by apply res_alloc_ok|apply res_free_ok]. Qed.

(** [resource_pool] is [pool] with the upstream resource in place of a user allocator; its code is
    otherwise the same, but for [is_from], which is not implemented. *)
Module ResourcePool.
Section pool.
Context `{!Resource}.

Definition resource_pool (requested_size : Z) (h : mem) : outcome Pool.state :=
    Pool.pool requested_size h.
(** [~resource_pool]. *)
Definition destroy (fuel : nat) : M Pool.state (list (Z * Z)) := Pool.destroy fuel.
Definition requested_size : M Pool.state Z := Pool.requested_size.
Definition get_next_size : M Pool.state Z := Pool.get_next_size.
Definition set_next_size (next_size : Z) : M Pool.state unit := Pool.set_next_size next_size.
Definition request_new_block (fuel : nat) (min_size : Z) (ordered : bool) : M Pool.state bool :=
  Pool.request_new_block fuel min_size ordered.
Definition malloc (fuel : nat) : M Pool.state Z := Pool.malloc fuel.
Definition ordered_malloc (fuel : nat) : M Pool.state Z := Pool.ordered_malloc fuel.
Definition ordered_malloc_n (fuel : nat) (n : Z) : M Pool.state Z := Pool.ordered_malloc_n fuel n.
Definition free (ptr : Z) : M Pool.state unit := Pool.free ptr.
Definition ordered_free (fuel : nat) (ptr : Z) : M Pool.state unit := Pool.ordered_free fuel ptr.
Definition ordered_free_n (fuel : nat) (ptr n : Z) : M Pool.state unit := Pool.ordered_free_n fuel ptr n.
Definition is_from (ptr : Z) : M Pool.state bool := abort.
End pool.
End ResourcePool.

Module PoolResource.

(** The pools in the order of their sizes; [largest] is [largest_required_pool_block]. *)
Record state : Type := State { heap : mem; pools_ : list (Z * Pool.state); largest : Z }.
Abbreviation P A := (M state A).

(** A pool on the memory [h]. *)
Definition view (h : mem) (p : Pool.state) : Pool.state :=
  Pool.set_storage (Seg.State h (Seg.free_list_ (Pool.storage_ p))) p.
Definition on_pool {A} (i : nat) (m : M Pool.state A) : P A := λ s,
  match pools_ s !! i with
  | Some (k, p) =>
      let '(r, t) := m (view (heap s) p)
        in (r, State (Pool.heap t) (<[i := (k, t)]> (pools_ s)) (largest s))
  | None => (Undef, s)
  end.
Definition on_heap {A} (m : M mem A) : P A := zoom heap (λ h s, State h (pools_ s) (largest s)) m.

(** ** Construction *)

Fixpoint try_emplace (k : Z) (p : Pool.state) (l : list (Z * Pool.state)) : list (Z * Pool.state) :=
  match l with
  | [] => [(k, p)]
  | (k', p') :: l' =>
      if k <? k' then (k, p) :: l else if k =? k' then l else (k', p') :: try_emplace k p l'
  end.
Definition pool_sizes : list Z := [1; 2; 4; 8; 16; 32; 64; 96; 128; 256].
Fixpoint create_pools_loop (sizes : list Z) : P unit :=
  match sizes with
  | [] => ret tt
  | size :: sizes =>
      let! s := get in
      if largest s <=? size then ret tt
      else
        match ResourcePool.resource_pool size (heap s) with
        | Ok p => put (State (heap s) (try_emplace size p (pools_ s)) (largest s)) ;;;
          create_pools_loop sizes
        | _ => abort
        end
  end.
Definition create_pools : P unit := create_pools_loop pool_sizes.
Definition synchronised_pool_resource (largest_required_pool_block : Z) (h : mem) :
    outcome unit * state :=
  create_pools (State h [] largest_required_pool_block).

(** ** Allocation *)

(** The loop of [get_pool], from the last pool to the first. *)
Fixpoint get_pool_loop (n : nat) (bytes : Z) (keys : list Z) : option nat :=
  match n with
  | O => None
  | S n =>
      match keys !! n with
      | Some k => if bytes mod k =? 0 then Some n else get_pool_loop n bytes keys
      | None => None
      end
  end.
Definition get_pool (bytes : Z) : P nat :=
  let! ps := gets pools_ in
  match get_pool_loop (length ps) bytes (fst <$> ps) with Some i => ret i | None => abort end.

Section ops.
Context `{!Resource}.
(** [fuel] bounds the walks along the free lists. *)
Context (fuel : nat).

Definition allocate_from_pool (bytes : Z) : P Z :=
  let! i := get_pool bytes in
  let! rs := on_pool i ResourcePool.requested_size in
  gpcl_assert (bytes mod rs =? 0) ;;;
  on_pool i (ResourcePool.ordered_malloc_n fuel (bytes / rs)).
Definition deallocate_from_pool (ptr bytes : Z) : P unit :=
  let! i := get_pool bytes in
  let! rs := on_pool i ResourcePool.requested_size in
  gpcl_assert (bytes mod rs =? 0) ;;;
  on_pool i (ResourcePool.ordered_free_n fuel ptr (bytes / rs)).
Definition do_allocate (bytes alignment : Z) : P Z :=
  let! s := get in
  if (largest s <=? bytes) || (max_align <? alignment) then on_heap (res_alloc bytes alignment)
  else allocate_from_pool bytes.
Definition do_deallocate (ptr bytes alignment : Z) : P unit :=
  noexcept (let! s := get in
            if (largest s <=? bytes) || (max_align <? alignment) then on_heap
              (res_free ptr bytes alignment)
            else deallocate_from_pool ptr bytes).
(** [memory_resource::allocate] and [deallocate]. *)
Definition allocate (bytes alignment : Z) : P Z :=
  let! r := do_allocate bytes alignment in
  gpcl_assert (r mod alignment =? 0) ;;; ret r.
Definition deallocate (ptr bytes alignment : Z) : P unit :=
  gpcl_assert (ptr mod alignment =? 0) ;;; do_deallocate ptr bytes alignment.

(** The pools are destroyed with the map. *)
Fixpoint destroy_pools (n : nat) : P unit :=
  match n with
  | O => ret tt
  | S n => destroy_pools n ;;; on_pool n (ResourcePool.destroy fuel) ;;; ret tt
  end.
Definition clear_pools : P unit :=
  let! s := get in destroy_pools (length (pools_ s)) ;;; modify (λ s, State (heap s) [] (largest s)).
Definition destruct_ : P unit := clear_pools.
Definition release : P unit := noexcept (clear_pools ;;; create_pools).
End ops.

(** ** Invariant *)

Abbreviation keys s := (fst <$> pools_ s).
Definition served (ks : list Z) (bytes : Z) : option nat := get_pool_loop (length ks) bytes ks.
(** The chunks of the pieces that a client holds from pool [i]. *)
Definition taken (ks : list Z) (i : nat) (cs : Z) (ps : list (Z * Z)) : list Z :=
  concat ((λ p, if decide (served ks p.2 = Some i) then Seg.chunks_of p.1 cs (Pool.count p.2 cs) else [])
    <$> ps).

(** Blocks and free chunks of a pool. *)
Record part : Type := Part { blocks : list (Z * Z); free : list Z }.
Record good_pool (h : mem) (k : Z) (p : Pool.state) (g : part) (lv : list Z) : Prop := {
  gp_key : 0 < k;
  gp_requested : Pool.requested_size_ p = k;
  gp_chunk : Pool.chunk_size_ p = Z.lcm k 8;
  gp_wf : Pool.wf (view h p) (blocks g) (free g) lv;
}.
Record rep (s : state) (gs : list part) (ps : list (Z * Z)) : Prop := {
  rep_length : length gs = length (pools_ s);
  rep_pool i k p g : pools_ s !! i = Some (k, p) → gs !! i = Some g →
    good_pool (heap s) k p g (taken (keys s) i (Pool.chunk_size_ p) ps);
  rep_apart i j g g' b c : gs !! i = Some g → gs !! j = Some g' → i ≠ j →
    b ∈ blocks g → c ∈ blocks g' → Pool.separate b c;
  rep_pieces a n : (a, n) ∈ ps → 0 < n ∧ is_Some (served (keys s) n);
}.

(** ** Dispatch *)

Lemma get_pool_loop_spec n bytes ks :
  (n ≤ length ks)%nat →
  match get_pool_loop n bytes ks with
  | Some i => (i < n)%nat ∧ (∃ k, ks !! i = Some k ∧ bytes mod k = 0) ∧
      ∀ j k, (i < j < n)%nat → ks !! j = Some k → bytes mod k ≠ 0
  | None => ∀ j k, (j < n)%nat → ks !! j = Some k → bytes mod k ≠ 0
  end.
Proof.
  induction n as [|n IH]; intros Hn; cbn [get_pool_loop]; [lia|].
  destruct (lookup_lt_is_Some_2 ks n Hn) as [k Hk]. rewrite Hk.
  destruct (Z.eqb_spec (bytes mod k) 0) as [E|E].
  - split; [lia|]. split; [eauto|]. lia.
  - specialize (IH ltac:(lia)). destruct (get_pool_loop n bytes ks) as [i|].
    + destruct IH as (Hi & Hk' & Hmax). split; [lia|]. split; [done|]. intros j k' Hj Hjk.
      destruct (decide (j = n)) as [->|]; [congruence|].
      apply (Hmax j); [lia|done].
    + intros j k' Hj Hjk. destruct (decide (j = n)) as [->|]; [congruence|]. apply (IH j); [lia|done].
Qed.
Lemma served_spec ks bytes i : served ks bytes = Some i → ∃ k, ks !! i = Some k ∧ bytes mod k = 0.
Proof. intros H. pose proof (get_pool_loop_spec (length ks) bytes ks ltac:(lia)) as Hs.
  unfold served in H. rewrite H in Hs. apply Hs. Qed.
Lemma get_pool_eq bytes s i : served (keys s) bytes = Some i → get_pool bytes s = (Ok i, s).
Proof. intros H. unfold get_pool. rewrite bind_gets. unfold served in H. rewrite length_fmap in H.
  by rewrite H. Qed.

(** ** Pools on one memory *)

Lemma on_pool_eq {A} i (m : M Pool.state A) s k p r t :
  pools_ s !! i = Some (k, p) → m (view (heap s) p) = (r, t) →
  on_pool i m s = (r, State (Pool.heap t) (<[i := (k, t)]> (pools_ s)) (largest s)).
Proof. intros Hi Hm. unfold on_pool. by rewrite Hi, Hm. Qed.
Lemma view_self t : view (Pool.heap t) t = t.
Proof. apply Pool.set_storage_id. Qed.
Lemma view_heap h p : Pool.heap (view h p) = h.
Proof. done. Qed.
(** A pool does not notice what happens outside of its blocks. *)
Lemma wf_other h h' p bs fr lv :
  Pool.wf (view h p) bs fr lv → (∀ b a, b ∈ bs → a ∈ block_cells b.1 b.2 → h' !! a = h !! a) →
    Pool.wf (view h' p) bs fr lv.
Proof.
  intros H Hsame. pose proof H as [[Hcs Hcs8] [Hc Hnd] Hbl Hg Hd Hm Hn Hch]. unfold view in *.
  cbn in *. split; cbn; try done.
  - split; [|done]. eapply Seg.chain_frame; [exact Hc|]. intros a Ha. rewrite Forall_forall in Hch.
    pose proof (Hch a ltac:(set_solver)) as (b & Hb & Hin)%Exists_exists. apply (Hsame b); [done|].
    rewrite Forall_forall in Hg. eapply Pool.chunk_in_cell;
      [by apply Hg|exact Hcs|exact Hcs8|exact Hin].
  - eapply Pool.blocks_chain_frame; [exact Hbl|]. intros b a Hb Ha. apply (Hsame b); [done|].
    rewrite Forall_forall in Hg.
    destruct (Pool.info_cells (Pool.chunk_size_ p) b (Hg b Hb) Hcs) as [H1 H2].
    by destruct Ha as [-> | ->].
  - intros b a Hb Ha. unfold Pool.heap. cbn. rewrite (Hsame b a Hb Ha). by apply (Hm b).
Qed.
(** The chunks of a pool are words of its blocks. *)
Lemma chunk_cell s bs fr lv a : Pool.wf s bs fr lv → a ∈ fr ++ lv → ∃ b, b ∈ bs ∧
    a ∈ block_cells b.1 b.2.
Proof.
  intros [[Hcs Hcs8] _ _ Hg _ _ _ Hch] Ha. rewrite Forall_forall in Hch.
  pose proof (Hch a Ha) as (b & Hb & Hin)%Exists_exists.
  exists b. split; [done|]. rewrite Forall_forall in Hg. eapply Pool.chunk_in_cell; [by apply Hg|done..].
Qed.
Lemma taken_cons ks i cs p ps :
  taken ks i cs (p :: ps) = (if decide (served ks p.2 = Some i) then Seg.chunks_of p.1 cs
    (Pool.count p.2 cs) else []) ++ taken ks i cs ps.
Proof. done. Qed.
Lemma taken_app ks i cs ps qs : taken ks i cs (ps ++ qs) = taken ks i cs ps ++ taken ks i cs qs.
Proof. unfold taken. by rewrite fmap_app, concat_app. Qed.
Lemma keys_insert s i k p t : pools_ s !! i = Some (k, p) → fst <$> <[i := (k, t)]> (pools_ s) = keys s.
Proof. intros Hi. rewrite list_fmap_insert. cbn. apply list_insert_id.
  by rewrite list_lookup_fmap, Hi. Qed.

(** ** The operations keep the invariant *)

(** Pool [i] has become [t]. *)
Lemma pools_rep_update s gs ps i k p g t bs' fr' ps' (touched : list Z) :
  rep s gs ps → pools_ s !! i = Some (k, p) → gs !! i = Some g →
  Pool.chunk_size_ t = Pool.chunk_size_ p → Pool.requested_size_ t = Pool.requested_size_ p →
  Pool.wf t bs' fr' (taken (keys s) i (Pool.chunk_size_ p) ps') →
  (bs' = blocks g ∨ ∃ b, bs' = b :: blocks g ∧ Pool.off b (heap s)) →
  (∀ a, is_Some (heap s !! a) → a ∉ touched → Pool.heap t !! a = heap s !! a) →
  (∀ a, a ∈ touched → ∃ b, b ∈ blocks g ∧ a ∈ block_cells b.1 b.2) →
  (∀ j cs, j ≠ i → taken (keys s) j cs ps' = taken (keys s) j cs ps) →
  (∀ a n, (a, n) ∈ ps' → 0 < n ∧ is_Some (served (keys s) n)) →
  rep (State (Pool.heap t) (<[i := (k, t)]> (pools_ s)) (largest s)) (<[i := Part bs' fr']> gs) ps'.
Proof.
  intros H Hi Hg Hcs Hrs Hwf Hbs Hsame Htouch Hother Hps.
  pose proof (rep_pool _ _ _ H i k p g Hi Hg) as Hgp.
  assert (Hpool : ∀ j kq q, <[i := (k, t)]> (pools_ s) !! j = Some (kq, q) →
    (j = i ∧ kq = k ∧ q = t) ∨ (j ≠ i ∧ pools_ s !! j = Some (kq, q))).
  { intros j kq q [(-> & [= <- <-] & _)|(Hne & Hj)]%list_lookup_insert_Some; auto. }
  assert (Hpart : ∀ j g', <[i := Part bs' fr']> gs !! j = Some g' → (j = i ∧ g' = Part bs' fr') ∨
    (j ≠ i ∧ gs !! j = Some g')).
  { intros j g' [(-> & <- & _)|(Hne & Hj)]%list_lookup_insert_Some; auto. }
  assert (Hsep : ∀ j g' b c, gs !! j = Some g' → j ≠ i → b ∈ bs' → c ∈ blocks g' → Pool.separate b c).
  { intros j g' b c Hj Hne Hb Hc. destruct Hbs as [->|(b0 & -> & Hoff)];
      [by eapply (rep_apart _ _ _ H i j)|].
    apply elem_of_cons in Hb as [->|Hb]; [|by eapply (rep_apart _ _ _ H i j)].
    destruct (lookup_lt_is_Some_2 (pools_ s) j) as [[kq q] Hq];
      [rewrite <- (rep_length _ _ _ H); by eapply lookup_lt_Some|].
    destruct (gp_wf _ _ _ _ _ (rep_pool _ _ _ H j kq q g' Hq Hj)) as [[Hc1 _] _ _ Hgd _ Hm _ _].
    pose proof (Pool.wf_good _ _ _ _ Hwf) as [(? & ? & ? & ? & ?) _]%Forall_cons.
    pose proof (Pool.wf_chunk_size _ _ _ _ Hwf) as [? _].
    rewrite Forall_forall in Hgd. destruct b0 as [b0 sz0]. cbn in *. eapply Pool.fresh_separate;
      [by apply Hgd|done|done|lia| |exact Hoff].
    intros a Ha. by apply (Hm c). }
  split; cbn [heap pools_ largest].
  - rewrite !length_insert. apply (rep_length _ _ _ H).
  - intros j kq q g' [(-> & -> & ->)|(Hne & Hj)]%Hpool [(E & ->)|(Hne' & Hj')]%Hpart; try done.
    + rewrite (keys_insert s i k p t Hi).
      split; [apply Hgp|rewrite Hrs; apply Hgp|rewrite Hcs; apply Hgp|]. cbn [blocks free].
      rewrite view_self, Hcs. exact Hwf.
    + rewrite (keys_insert s i k p t Hi). pose proof (rep_pool _ _ _ H j kq q g' Hj Hj') as Hq.
      split; [apply Hq..|]. rewrite (Hother j _ Hne).
      eapply wf_other; [apply Hq|]. intros b a Hb Ha. apply Hsame.
      * destruct (gp_wf _ _ _ _ _ Hq) as [_ _ _ _ _ Hm _ _]. by apply (Hm b).
      * intros (c & Hc & Hac)%Htouch. eapply Pool.separate_cells; [|exact Hac|exact Ha].
        by eapply (rep_apart _ _ _ H i j).
  - intros j l g1 g2 b c [(-> & ->)|(Hj & H1)]%Hpart [(-> & ->)|(Hl & H2)]%Hpart Hne Hb Hc; try done.
    + by eapply Hsep.
    + apply Pool.separate_sym. by eapply Hsep.
    + by eapply (rep_apart _ _ _ H j l).
  - intros a n Ha. rewrite (keys_insert s i k p t Hi). by apply (Hps a n).
Qed.

Section specs.
Context {R : Resource} {R_ok : ResourceOk}.

(** The pool that serves a request has room in the address space, and the walks along its
    free list have enough fuel. *)
Definition ready (fuel : nat) (bytes : Z) (s : state) : Prop :=
  ∀ i k p l, served (keys s) bytes = Some i → pools_ s !! i = Some (k, p) →
    Seg.holds (Pool.storage_ (view (heap s) p)) l →
    Pool.roomy (view (heap s) p) (Z.of_nat (Pool.count bytes (Pool.chunk_size_ p)) * Pool.chunk_size_ p) ∧
    Pool.enough_fuel (view (heap s) p) l
      (Z.of_nat (Pool.count bytes (Pool.chunk_size_ p)) * Pool.chunk_size_ p) fuel.

Lemma served_pool s gs ps bytes i :
  rep s gs ps → served (keys s) bytes = Some i → ∃ k p g, pools_ s !! i = Some (k, p) ∧
    gs !! i = Some g ∧ bytes mod k = 0.
Proof.
  intros H Hs. destruct (served_spec _ _ _ Hs) as (k & Hk & Hm).
  rewrite list_lookup_fmap, fmap_Some in Hk. destruct Hk as ([k' p] & Hp & ->).
  destruct (lookup_lt_is_Some_2 gs i) as [g Hg];
    [rewrite (rep_length _ _ _ H); by eapply lookup_lt_Some|]. eauto 10.
Qed.
(** The request arrives at its pool. *)
Lemma on_served {A} s gs ps bytes i k p g (m : Z → M Pool.state A) :
  rep s gs ps → served (keys s) bytes = Some i → pools_ s !! i = Some (k, p) → gs !! i = Some g →
    bytes mod k = 0 →
  (let! j := get_pool bytes in
   let! rs := on_pool j ResourcePool.requested_size in gpcl_assert (bytes mod rs =? 0) ;;;
     on_pool j (m rs)) s =
  on_pool i (m k) s.
Proof.
  intros H Hs Hp Hg Hm. rewrite (bind_ok _ _ _ _ _ (get_pool_eq bytes s i Hs)).
  unfold ResourcePool.requested_size, Pool.requested_size.
  pose proof (rep_pool _ _ _ H i k p g Hp Hg) as Hgp.
  erewrite bind_ok by (eapply on_pool_eq; [exact Hp|reflexivity]). rewrite view_heap.
  change (Pool.requested_size_ (view (heap s) p)) with (Pool.requested_size_ p).
  rewrite (gp_requested _ _ _ _ _ Hgp), Hm. rewrite bind_assert by done. unfold on_pool.
  cbn [pools_ heap largest].
  rewrite list_lookup_insert_eq by (by eapply lookup_lt_Some). rewrite Hp.
  change (view (heap s) (view (heap s) p)) with (view (heap s) p). destruct (m k _) as [r t].
  by rewrite list_insert_insert_eq.
Qed.
Lemma allocate_pool_spec fuel bytes s gs ps i :
  rep s gs ps → 0 < bytes → served (keys s) bytes = Some i → ready fuel bytes s →
  ∃ r s' gs', allocate_from_pool fuel bytes s = (r, s') ∧ keys s' = keys s ∧ largest s' = largest s ∧
    ((∃ a, r = Ok a ∧ 0 < a ∧ rep s' gs' ((a, bytes) :: ps)) ∨
      ((r = Ok null ∨ ∃ e, r = Throw e) ∧ rep s' gs' ps)).
Proof.
  intros H Hb Hs Hready. destruct (served_pool s gs ps bytes i H Hs) as (k & p & g & Hp & Hg & Hm).
  pose proof (rep_pool _ _ _ H i k p g Hp Hg) as [Hk Hr Hc Hwf]. destruct (Pool.lcm_8 k Hk) as [Hc0 _].
  destruct (Hready i k p (free g) Hs Hp (Pool.wf_free _ _ _ _ Hwf)) as [Hroom Hfuel].
  set (cs := Pool.chunk_size_ p) in *. assert (Hcs : 0 < cs) by lia.
  destruct (Pool.count_spec bytes cs Hb Hcs) as [Hn1 Hn2].
  pose proof Hroom as (_ & _ & Hr3 & Hr4). change (Pool.chunk_size_ (view (heap s) p)) with cs in Hr3.
  destruct (Pool.chunk_count_bytes (view (heap s) p) k bytes Hk Hr Hcs Hb Hm) as [Hne Hcount];
    [change (Pool.chunk_size_ (view (heap s) p)) with cs; lia|].
  destruct (Pool.ordered_malloc_n_ok fuel (view (heap s) p) (blocks g) (free g) _ (bytes / k)
    (Pool.count bytes cs) Hwf Hne Hcount Hn1 Hroom Hfuel)
    as (r & t & bs' & fr' & Hrun & (G1 & G2 & G3 & G4) & Hres).
  exists r, (State (Pool.heap t) (<[i := (k, t)]> (pools_ s)) (largest s)), (<[i := Part bs' fr']> gs).
  split; [|split; [by apply keys_insert with p|split; [done|]]].
  { unfold allocate_from_pool.
      rewrite (on_served s gs ps bytes i k p g (λ rs,
        ResourcePool.ordered_malloc_n fuel (bytes / rs)) H Hs
      Hp Hg Hm). by apply on_pool_eq with p. }
  assert (Hup : ∀ ps', Pool.wf t bs' fr' (taken (keys s) i cs ps') →
    (∀ j c, j ≠ i → taken (keys s) j c ps' = taken (keys s) j c ps) →
    (∀ a n, (a, n) ∈ ps' → 0 < n ∧ is_Some (served (keys s) n)) →
    rep (State (Pool.heap t) (<[i := (k, t)]> (pools_ s)) (largest s)) (<[i := Part bs' fr']> gs) ps').
  { intros ps' Hw Hother Hps. eapply (pools_rep_update s gs ps i k p g t bs' fr' ps' (free g)); try done.
    intros a Ha. eapply chunk_cell; [exact Hwf|]. set_solver. }
  destruct Hres as [(a & -> & Ha & Hw)|(Hf & Hw)].
  - left. exists a. split; [done|]. split; [done|]. apply Hup.
    + rewrite taken_cons. cbn. rewrite decide_True by done. exact Hw.
    + intros j c Hj. rewrite taken_cons. cbn. rewrite decide_False by congruence. done.
    + intros b n [[= -> ->]|Hin]%elem_of_cons; [split; [done|eauto]|by apply (rep_pieces _ _ _ H b)].
  - right. split; [done|]. apply Hup; [exact Hw|done|apply (rep_pieces _ _ _ H)].
Qed.
Lemma deallocate_pool_spec fuel a bytes s gs ps1 ps2 :
  rep s gs (ps1 ++ (a, bytes) :: ps2) → ready fuel bytes s →
  ∃ s' gs', deallocate_from_pool fuel a bytes s = (Ok tt, s') ∧ keys s' = keys s ∧
    largest s' = largest s ∧ rep s' gs' (ps1 ++ ps2).
Proof.
  intros H Hready. destruct (rep_pieces _ _ _ H a bytes ltac:(set_solver)) as [Hb [i Hs]].
  destruct (served_pool _ gs _ bytes i H Hs) as (k & p & g & Hp & Hg & Hm).
  pose proof (rep_pool _ _ _ H i k p g Hp Hg) as [Hk Hr Hc Hwf]. destruct (Pool.lcm_8 k Hk) as [Hc0 _].
  destruct (Hready i k p (free g) Hs Hp (Pool.wf_free _ _ _ _ Hwf)) as [Hroom Hfuel].
  set (cs := Pool.chunk_size_ p) in *. assert (Hcs : 0 < cs) by lia.
  destruct (Pool.count_spec bytes cs Hb Hcs) as [Hn1 Hn2].
  pose proof Hroom as (_ & _ & Hr3 & Hr4). change (Pool.chunk_size_ (view (heap s) p)) with cs in Hr3.
  destruct (Pool.chunk_count_bytes (view (heap s) p) k bytes Hk Hr Hcs Hb Hm) as [Hne Hcount];
    [change (Pool.chunk_size_ (view (heap s) p)) with cs; lia|].
  pose proof Hwf as Hwf0. rewrite taken_app, taken_cons in Hwf. cbn [fst snd] in Hwf.
  rewrite decide_True in Hwf by done.
  destruct (Pool.ordered_free_n_ok fuel (view (heap s) p) (blocks g) (free g) _ _ a (bytes / k)
    (Pool.count bytes cs) Hwf Hn1 Hcount)
    as (t & fr' & Hrun & Hw & G1 & G2 & G3); [change (Pool.chunk_size_ (view (heap s) p)) with cs;
      lia|unfold Pool.enough_fuel in Hfuel; lia|].
  exists (State (Pool.heap t) (<[i := (k, t)]> (pools_ s)) (largest s)),
    (<[i := Part (blocks g) fr']> gs).
  split; [|split; [by apply keys_insert with p|split; [done|]]].
  { unfold deallocate_from_pool.
      rewrite (on_served s gs _ bytes i k p g (λ rs,
        ResourcePool.ordered_free_n fuel a (bytes / rs)) H Hs
      Hp Hg Hm). by apply on_pool_eq with p. }
  eapply (pools_rep_update s gs _ i k p g t (blocks g) fr' _
    (free g ++ Seg.chunks_of a cs (Pool.count bytes cs)) H Hp Hg G1 G2); try done.
  - by rewrite taken_app.
  - by left.
  - intros x Hx. eapply chunk_cell; [exact Hwf|].
    change (Pool.chunk_size_ (view (heap s) p)) with cs. set_solver.
  - intros j c Hj. rewrite !taken_app, taken_cons. cbn. rewrite decide_False by congruence. done.
  - intros b n Hin. apply (rep_pieces _ _ _ H b). set_solver.
Qed.

(** Two pieces do not overlap. *)
Lemma rep_disjoint s gs ps1 a n ps2 b m ps3 :
  rep s gs (ps1 ++ (a, n) :: ps2 ++ (b, m) :: ps3) → a + n ≤ b ∨ b + m ≤ a.
Proof.
  intros H. set (ps := ps1 ++ _) in H. destruct (rep_pieces _ _ _ H a n) as [Hn [i Hi]];
    [unfold ps; set_solver|].
  destruct (rep_pieces _ _ _ H b m) as [Hm [j Hj]]; [unfold ps; set_solver|].
  destruct (served_pool _ _ _ _ _ H Hi) as (k & p & g & Hp & Hg & _), (served_pool _ _ _ _ _ H Hj)
    as (k' & p' & g' & Hp' & Hg' & _).
  pose proof (rep_pool _ _ _ H i k p g Hp Hg) as [Hk _ Hc Hwf].
  pose proof (rep_pool _ _ _ H j k' p' g' Hp' Hg') as [Hk' _ Hc' Hwf'].
  destruct (Pool.lcm_8 k Hk) as [Hpos _], (Pool.lcm_8 k' Hk') as [Hpos' _].
  set (cs := Pool.chunk_size_ p) in *. set (cs' := Pool.chunk_size_ p') in *.
  destruct (Pool.count_spec n cs Hn ltac:(lia)) as [N1 N2], (Pool.count_spec m cs' Hm ltac:(lia)) as [M1 M2].
  assert (Hin : ∀ x, x ∈ Seg.chunks_of a cs (Pool.count n cs) → x ∈ taken (keys s) i cs ps).
  { intros x Hx. unfold ps. rewrite taken_app, taken_cons. cbn [fst snd].
      rewrite decide_True by done. set_solver. }
  assert (Hin' : ∀ x, x ∈ Seg.chunks_of b cs' (Pool.count m cs') → x ∈ taken (keys s) j cs' ps).
  { intros x Hx. unfold ps. rewrite taken_app, taken_cons, taken_app, taken_cons. cbn [fst snd].
      rewrite (decide_True (P := served (keys s) m = Some j)) by done. set_solver. }
  cut (a + cs * Z.of_nat (Pool.count n cs) ≤ b ∨ b + cs' * Z.of_nat (Pool.count m cs') ≤ a); [lia|].
  apply Pool.runs_apart; try done; try lia. intros x y Hx Hy. destruct (decide (i = j)) as [->|Hne].
  - assert (p' = p) as -> by congruence.
    apply (Pool.chunks_apart (view (heap s) p) (blocks g) (free g) (taken (keys s) j cs ps));
      [done|set_solver|set_solver|].
    intros ->. pose proof (Pool.wf_nodup _ _ _ _ Hwf) as (_ & _ & Hnd)%NoDup_app. unfold ps in Hnd.
    rewrite taken_app, taken_cons, taken_app, taken_cons in Hnd.
    cbn [fst snd] in Hnd. rewrite !decide_True in Hnd by done.
    apply NoDup_app in Hnd as (_ & _ & Hnd). apply NoDup_app in Hnd as (_ & Hnd & _).
    apply (Hnd y); [done|]. fold cs. set_solver.
  - assert (Hblk : ∀ t bs fr lv z, Pool.wf t bs fr lv → z ∈ lv → ∃ c, c ∈ bs ∧ c.1 ≤ z ∧
      z + Pool.chunk_size_ t ≤ c.1 + c.2).
    { intros t bs fr lv z [[Hz _] _ _ Hgd _ _ _ Hch] Hzl. rewrite Forall_forall in Hch.
        pose proof (Hch z ltac:(set_solver)) as (c & Hc0 & q & Hq & -> & Hend)%Exists_exists.
      exists c. rewrite Forall_forall in Hgd. destruct (Hgd c Hc0) as (? & ? & ? & ? & ?).
      pose proof (Pool.block_info_offset_bounds c.2). split; [done|]. nia. }
    destruct (Hblk _ _ _ _ x Hwf) as (c & Hc1 & Hc2 & Hc3); [by apply Hin|].
    destruct (Hblk _ _ _ _ y Hwf') as (d & Hd1 & Hd2 & Hd3); [by apply Hin'|].
    change (Pool.chunk_size_ (view (heap s) p)) with cs in Hc3.
    change (Pool.chunk_size_ (view (heap s) p')) with cs' in Hd3.
    pose proof (rep_apart _ _ _ H i j g g' c d Hg Hg' Hne Hc1 Hd1) as Hsep.
    unfold Pool.separate in Hsep. lia.
Qed.

(** A piece starts at a word. *)
Lemma rep_aligned s gs ps a n : rep s gs ps → (a, n) ∈ ps → a mod 8 = 0.
Proof.
  intros H Hin. destruct (rep_pieces _ _ _ H a n Hin) as [Hn [i Hi]].
  destruct (served_pool _ _ _ _ _ H Hi) as (k & p & g & Hp & Hg & _).
  pose proof (rep_pool _ _ _ H i k p g Hp Hg) as [Hk _ Hc [[Hcs Hcs8] _ _ Hgd _ _ _ Hch]].
  change (Pool.chunk_size_ (view (heap s) p)) with (Pool.chunk_size_ p) in *.
  destruct (Pool.count_spec n (Pool.chunk_size_ p) Hn Hcs) as [N1 _].
  rewrite Forall_forall in Hch. assert (Ha : Pool.chunk_ok (Pool.chunk_size_ p) (blocks g) a).
  { apply Hch, elem_of_app. right. apply list_elem_of_split in Hin as (l1 & l2 & ->).
    rewrite taken_app, taken_cons. cbn [fst snd]. rewrite decide_True by done.
    apply elem_of_app. right. apply elem_of_app. left. apply Seg.elem_of_chunks_of. exists O. lia. }
  apply Exists_exists in Ha as (b & Hb & q & Hq & -> & _). rewrite Forall_forall in Hgd.
  destruct (Hgd b Hb) as (_ & Hm & _). apply Z.mod_divide in Hm as [y Hy]; [|lia].
  apply Z.mod_divide in Hcs8 as [z Hz]; [|lia]. rewrite Hy, Hz.
  replace (y * 16 + q * (z * 8)) with ((2 * y + q * z) * 8) by ring. by apply Z.mod_mul.
Qed.

(** ** Construction *)

Definition new_pool (h : mem) (k : Z) : Pool.state :=
    Pool.State (Seg.State h null) k (Z.lcm k 8) 32 (null, 0).
Lemma try_emplace_elem k p l q : q ∈ try_emplace k p l → q = (k, p) ∨ q ∈ l.
Proof.
  induction l as [|[k' p'] l IH]; cbn; [intros ->%list_elem_of_singleton; by left|].
  repeat case_match; set_solver.
Qed.
Lemma try_emplace_keep k p l q : q ∈ l → q ∈ try_emplace k p l.
Proof. induction l as [|[k' p'] l IH]; cbn; [by intros ?%not_elem_of_nil|].
  repeat case_match; set_solver. Qed.
Lemma create_loop_spec sizes s :
  Forall (Z.lt 0) sizes → (∀ k p, (k, p) ∈ pools_ s → 0 < k ∧ p = new_pool (heap s) k) →
  ∃ s', create_pools_loop sizes s = (Ok tt, s') ∧ heap s' = heap s ∧ largest s' = largest s ∧
    (∀ k p, (k, p) ∈ pools_ s' → 0 < k ∧ p = new_pool (heap s) k) ∧ (∀ q, q ∈ pools_ s → q ∈ pools_ s').
Proof.
  intros Hpos. revert s. induction Hpos as [|z sizes Hz _ IH]; intros s Hs; cbn [create_pools_loop];
    [by exists s|]. rewrite bind_get.
  destruct (Z.leb_spec (largest s) z); [by exists s|]. unfold ResourcePool.resource_pool, Pool.pool.
  rewrite bool_decide_eq_true_2 by lia. rewrite bind_put.
  change (Z.lcm word_size word_size) with 8. fold (new_pool (heap s) z).
  destruct (IH (State (heap s) (try_emplace z (new_pool (heap s) z) (pools_ s)) (largest s)))
    as (s' & Hr & H1 & H2 & H3 & H4); cbn [pools_ heap largest] in *.
  { intros k p [[= -> ->]|Hin]%try_emplace_elem; [done|by apply Hs]. }
  exists s'. split_and!; try done. intros q Hq. apply H4. by apply try_emplace_keep.
Qed.
Lemma construct_spec lg h :
  ∃ s, synchronised_pool_resource lg h = (Ok tt, s) ∧ largest s = lg ∧
    rep s (replicate (length (pools_ s)) (Part [] [])) [] ∧
    (1 < lg → 1 ∈ keys s).
Proof.
  unfold synchronised_pool_resource, create_pools.
  destruct (create_loop_spec pool_sizes (State h [] lg)) as (s & Hr & Hh & Hl & Hp & _);
    cbn [pools_ heap largest] in *.
  { repeat constructor. } { by intros k p ?%not_elem_of_nil. }
  exists s. split; [done|]. split; [done|]. split.
  - split.
    + apply length_replicate.
    + intros i k p g Hi [-> _]%lookup_replicate. destruct (Hp k p) as [Hk ->];
        [by eapply list_elem_of_lookup_2|]. split; [done..|].
      destruct (Pool.lcm_8 k Hk). by apply Pool.wf_empty.
    + intros i j g g' b c [-> _]%lookup_replicate _ _ Hb. by apply not_elem_of_nil in Hb.
    + intros a n Ha. by apply not_elem_of_nil in Ha.
  - intros Hlg. unfold pool_sizes in Hr. cbn [create_pools_loop] in Hr. rewrite bind_get in Hr.
    cbn [largest] in Hr. destruct (Z.leb_spec lg 1); [lia|].
    unfold ResourcePool.resource_pool, Pool.pool in Hr. rewrite bool_decide_eq_true_2 in Hr by lia.
    rewrite bind_put in Hr.
    cbn [heap pools_ largest try_emplace] in Hr.
    change (Z.lcm word_size word_size) with 8 in Hr. fold (new_pool h 1) in Hr.
    change (create_pools_loop [2; 4; 8; 16; 32; 64; 96; 128;
      256] (State h [(1, new_pool h 1)] lg) = (Ok tt, s)) in Hr.
    destruct (create_loop_spec [2; 4; 8; 16; 32; 64; 96; 128; 256] (State h [(1, new_pool h 1)] lg))
      as (s2 & Hr2 & _ & _ & _ & Hkeep).
    { repeat constructor. } { by intros k p [= -> ->]%list_elem_of_singleton. }
    rewrite Hr2 in Hr. injection Hr as ->. apply list_elem_of_fmap. exists (1, new_pool h 1).
    split; [done|]. apply Hkeep. by left.
Qed.
Lemma served_one ks bytes : 1 ∈ ks → is_Some (served ks bytes).
Proof.
  intros [i Hi]%list_elem_of_lookup.
  pose proof (get_pool_loop_spec (length ks) bytes ks ltac:(lia)) as Hs. unfold served.
  destruct (get_pool_loop _ _ _); [eauto|]. destruct (Hs i 1); [by eapply lookup_lt_Some|done|].
  apply Z.mod_1_r.
Qed.

(** ** Clients *)

(** A client holds pieces [ps] (address and size) and makes requests that the pools serve. *)
Definition handed (r : outcome Z) (bytes : Z) : list (Z * Z) :=
  match r with Ok a => if a =? null then [] else [(a, bytes)] | _ => [] end.
(** An alignment that every piece has. *)
Definition word_alignment (al : Z) : Prop := 0 < al ∧ (al | 8).
Inductive run (lg : Z) : state → list (Z * Z) → Prop :=
| run_start h s : synchronised_pool_resource lg h = (Ok tt, s) → run lg s []
| run_allocate fuel bytes al s ps r s' :
    run lg s ps → 0 < bytes < lg → word_alignment al → ready fuel bytes s →
    allocate fuel bytes al s = (r, s') → run lg s' (handed r bytes ++ ps)
| run_deallocate fuel a bytes al s ps1 ps2 s' :
    run lg s (ps1 ++ (a, bytes) :: ps2) → word_alignment al → ready fuel bytes s →
    deallocate fuel a bytes al s = (Ok tt, s') → run lg s' (ps1 ++ ps2).

Lemma word_alignment_le al : word_alignment al → al ≤ max_align.
Proof. intros [? Hd]. apply Z.divide_pos_le in Hd; unfold max_align; lia. Qed.
Lemma word_alignment_mod al a : word_alignment al → a mod 8 = 0 → a mod al = 0.
Proof.
  intros [Hp Hd] Ha. apply Z.mod_divide; [lia|]. etransitivity; [exact Hd|]. by apply Z.mod_divide in Ha.
Qed.
Lemma do_allocate_pool fuel bytes al s :
  bytes < largest s → al ≤ max_align → do_allocate fuel bytes al s = allocate_from_pool fuel bytes s.
Proof.
  intros Hb Ha. unfold do_allocate. rewrite bind_get. destruct (Z.leb_spec (largest s) bytes);
    [lia|]. by destruct (Z.ltb_spec max_align al); [lia|].
Qed.
(** [allocate] of what the pools serve. *)
Lemma allocate_spec fuel bytes al s gs ps :
  rep s gs ps → 1 ∈ keys s → 0 < bytes < largest s → word_alignment al → ready fuel bytes s →
  ∃ r s' gs', allocate fuel bytes al s = (r, s') ∧ keys s' = keys s ∧ largest s' = largest s ∧
    rep s' gs' (handed r bytes ++ ps) ∧ ((∃ a, r = Ok a) ∨ ∃ e, r = Throw e).
Proof.
  intros H Hk Hb Hal Hready. destruct (served_one (keys s) bytes Hk) as [i Hi].
  destruct (allocate_pool_spec fuel bytes s gs ps i H ltac:(lia) Hi Hready)
    as (r & s' & gs' & Hr & Hk' & Hl' & Hres).
  rewrite <- (do_allocate_pool fuel bytes al s) in Hr by (by apply word_alignment_le || lia).
  exists r, s', gs'. destruct Hres as [(a & -> & Ha & H')|(Hf & H')].
  - unfold allocate. rewrite (bind_ok _ _ _ _ _ Hr).
    rewrite bind_assert by (apply Z.eqb_eq, word_alignment_mod; [done|]; eapply rep_aligned; [exact H'|by left]).
    cbn. destruct (Z.eqb_spec a null) as [E|_]; [unfold null in E; lia|]. eauto 10.
  - assert (allocate fuel bytes al s = (r, s')).
    { unfold allocate. destruct Hf as [-> | [e ->]]; [|unfold bind; by rewrite Hr].
      rewrite (bind_ok _ _ _ _ _ Hr). by rewrite bind_assert by done. }
    assert (handed r bytes = []) as -> by (destruct Hf as [-> | [e ->]]; done).
    split_and!; try done. naive_solver.
Qed.
Lemma deallocate_spec fuel a bytes al s gs ps1 ps2 :
  rep s gs (ps1 ++ (a, bytes) :: ps2) → bytes < largest s → word_alignment al → ready fuel bytes s →
  ∃ s' gs', deallocate fuel a bytes al s = (Ok tt, s') ∧ keys s' = keys s ∧ largest s' = largest s ∧
    rep s' gs' (ps1 ++ ps2).
Proof.
  intros H Hb Hal Hready. pose proof (word_alignment_le al Hal).
  destruct (deallocate_pool_spec fuel a bytes s gs ps1 ps2 H Hready) as (s' & gs' & Hr & Hrest).
  exists s', gs'. split; [|exact Hrest]. unfold deallocate.
  rewrite bind_assert
    by (apply Z.eqb_eq, word_alignment_mod; [done|]; eapply (rep_aligned _ _ _ a bytes H); set_solver).
  unfold do_deallocate, noexcept. rewrite bind_get. destruct (Z.leb_spec (largest s) bytes); [lia|].
  destruct (Z.ltb_spec max_align al); [lia|]. cbn. by rewrite Hr.
Qed.
Lemma run_rep lg s ps :
  run lg s ps → largest s = lg ∧ (1 < lg → 1 ∈ keys s) ∧ (∃ gs, rep s gs ps) ∧
    (∀ a n, (a, n) ∈ ps → n < lg).
Proof.
  induction 1 as [h s Hc|fuel bytes al s ps r s' _ (Hl & Hk & [gs H] & Hn) Hb Hal Hready Hr|
    fuel a bytes al s ps1 ps2 s' _ (Hl & Hk & [gs H] & Hn) Hal Hready Hr].
  - destruct (construct_spec lg h) as (s1 & Hc1 & Hl & H & Hk). assert (s1 = s) as -> by congruence.
    split_and!; [done|done|eauto|]. intros a n Ha. by apply not_elem_of_nil in Ha.
  - destruct (allocate_spec fuel bytes al s gs ps H ltac:(apply Hk; lia) ltac:(lia) Hal Hready)
      as (r1 & s1 & gs1 & Hr1 & Hk1 & Hl1 & H1 & _). rewrite Hr1 in Hr. injection Hr as <- <-.
    split; [congruence|]. split; [by rewrite Hk1|]. split; [eauto|]. intros b n [Hin|Hin]%elem_of_app.
    + destruct r1 as [c| | | |]; cbn in Hin; [destruct (c =? null)|..]; try (by apply not_elem_of_nil in Hin).
      apply list_elem_of_singleton in Hin as [= -> ->]. lia.
    + by eapply Hn.
  - assert (bytes < lg) by (apply (Hn a); set_solver).
    destruct (deallocate_spec fuel a bytes al s gs ps1 ps2 H ltac:(lia) Hal Hready)
      as (s1 & gs1 & Hr1 & Hk1 & Hl1 & H1). rewrite Hr1 in Hr. injection Hr as <-.
    split; [congruence|]. split; [by rewrite Hk1|]. split; [eauto|].
    intros b n Hin. apply (Hn b). set_solver.
Qed.

(** C29: a client of a pool resource makes requests of at least one byte, below the limit
    [largest_required_pool_block] and at an alignment of 1, 2, 4 or 8, and gives pieces back with the
    size they were requested with; the sizes of the pools stay clear of the 64-bit limit ([ready]).
    Then the pieces it holds never overlap, within a pool and between the pools, and start at
    a word; [allocate] and [deallocate] neither abort nor access memory that is not mapped: a
    request returns a piece, a null pointer or throws what the upstream resource throws, and
    what is held can be given back. *)
Theorem pool_resource_pieces_apart lg s ps :
  run lg s ps →
  (∀ ps1 a n ps2 b m ps3, ps = ps1 ++ (a, n) :: ps2 ++ (b, m) :: ps3 → a + n ≤ b ∨ b + m ≤ a) ∧
  (∀ a n, (a, n) ∈ ps → a mod 8 = 0) ∧
  (∀ fuel bytes al, 0 < bytes < lg → word_alignment al → ready fuel bytes s →
     ∃ r s', allocate fuel bytes al s = (r, s') ∧ ((∃ a, r = Ok a) ∨ ∃ e, r = Throw e)) ∧
  (∀ fuel ps1 a n ps2 al, ps = ps1 ++ (a, n) :: ps2 → word_alignment al → ready fuel n s →
     ∃ s', deallocate fuel a n al s = (Ok tt, s')).
Proof.
  intros (Hl & Hk & [gs H] & Hn)%run_rep. split_and!.
  - intros ps1 a n ps2 b m ps3 ->. by eapply rep_disjoint.
  - intros a n. by apply (rep_aligned s gs).
  - intros fuel bytes al Hb Hal Hready.
    destruct (allocate_spec fuel bytes al s gs ps H ltac:(apply Hk; lia) ltac:(lia) Hal Hready)
      as (r & s' & gs' & Hr & _ & _ & _ & Hres). eauto.
  - intros fuel ps1 a n ps2 al -> Hal Hready.
    destruct (deallocate_spec fuel a n al s gs ps1 ps2 H) as (s' & gs' & Hr & _); [|done|done|eauto].
    rewrite Hl. apply (Hn a). set_solver.
Qed.
End specs.

(** ** Witnesses *)

(** An upstream resource that serves one block, at address 4096. *)
#[local] Instance one_block : Resource := {|
  res_alloc sz al h :=
    if bool_decide (h = ∅ ∧ sz < 2 ^ 40 ∧ al = 16) then (Ok 4096, map_block 4096 sz h) else (Ok null, h);
  res_free b sz al h := (Ok tt, unmap_block b sz h);
|}.
#[local] Instance one_block_ok : ResourceOk.
Proof.
  split; [|done]. intros sz al h Hsz Hal. simpl. case_bool_decide as Hd; [|by left].
  destruct Hd as (-> & ? & ->). right; right. exists 4096. split_and!; [done|lia|done|lia|].
  intros a [v Hv]. by rewrite lookup_empty in Hv.
Qed.

(** To be ready is decided by the one list that the pool holds. *)
Lemma ready_at fuel bytes s i k p l :
  served (keys s) bytes = Some i → pools_ s !! i = Some (k, p) →
    Seg.chain (heap s) (Seg.free_list_ (Pool.storage_ p)) l null →
  Pool.roomy (view (heap s) p) (Z.of_nat (Pool.count bytes (Pool.chunk_size_ p)) * Pool.chunk_size_ p) →
  Pool.enough_fuel (view (heap s) p) l
    (Z.of_nat (Pool.count bytes (Pool.chunk_size_ p)) * Pool.chunk_size_ p) fuel →
  ready fuel bytes s.
Proof.
  intros Hi Hp Hl Hroom Hf i' k' p' l' Hi' Hp' [Hl' _]. assert (i' = i) as -> by congruence.
  assert (p' = p) as -> by congruence.
  assert (l' = l) as -> by (by eapply Seg.chain_unique). done.
Qed.
Definition ex0 : state := snd (synchronised_pool_resource 128 ∅).
Definition ex1 : state := snd (allocate 400 40 8 ex0).
Definition ex2 : state := snd (allocate 800 8 8 ex1).
Lemma pool_resource_pieces_apart_witness :
  allocate 400 40 8 ex0 = (Ok 4096, ex1) ∧ allocate 800 8 8 ex1 = (Ok 4136, ex2) ∧
    (4136 + 8 ≤ 4096 ∨ 4096 + 40 ≤ 4136) ∧
  ∃ s, deallocate 1200 4096 40 8 ex2 = (Ok tt, s).
Proof.
  assert (E1 : allocate 400 40 8 ex0 = (Ok 4096, ex1)) by (vm_compute; reflexivity).
  assert (E2 : allocate 800 8 8 ex1 = (Ok 4136, ex2)) by (vm_compute; reflexivity).
  assert (A8 : word_alignment 8) by (split; [lia|apply Z.divide_refl]).
  split; [exact E1|]. split; [exact E2|].
  assert (R1 : ready 400 40 ex0).
  { eapply (ready_at 400 40 ex0 3 8 (default (new_pool ∅ 8) (snd <$> pools_ ex0 !! 3%nat)) []);
      [vm_compute; reflexivity|vm_compute; reflexivity|vm_compute; reflexivity|..].
    - vm_compute. repeat split; discriminate.
    - vm_compute. repeat split; discriminate. }
  set (l1 := Seg.chunks_of 4136 8 24).
  assert (R2 : ready 800 8 ex1).
  { eapply (ready_at 800 8 ex1 3 8 (default (new_pool ∅ 8) (snd <$> pools_ ex1 !! 3%nat)) l1);
      [vm_compute; reflexivity|vm_compute; reflexivity|..].
    - repeat (split;
        [vm_compute; reflexivity|split;
        [vm_compute; reflexivity|eexists; split; [vm_compute; reflexivity|]]]). vm_compute.
        reflexivity.
    - vm_compute. repeat split; discriminate.
    - vm_compute. repeat split; discriminate. }
  assert (R3 : ready 1200 40 ex2).
  { eapply (ready_at 1200 40 ex2 3 8 (default (new_pool ∅ 8) (snd <$> pools_ ex2 !! 3%nat))
      (Seg.chunks_of 4144 8 23)); [vm_compute; reflexivity|vm_compute; reflexivity|..].
    - repeat (split;
        [vm_compute; reflexivity|split;
        [vm_compute; reflexivity|eexists; split; [vm_compute; reflexivity|]]]). vm_compute.
        reflexivity.
    - vm_compute. repeat split; discriminate.
    - vm_compute. repeat split; discriminate. }
  assert (Hr : run 128 ex2 [(4136, 8); (4096, 40)]).
  { apply (run_allocate 128 800 8 8 ex1 [(4096, 40)] (Ok 4136));
      [|lia|exact A8|exact R2|exact E2].
    apply (run_allocate 128 400 40 8 ex0 [] (Ok 4096)); [|lia|exact A8|exact R1|exact E1].
    apply (run_start 128 ∅). vm_compute. reflexivity. }
  destruct (pool_resource_pieces_apart 128 ex2 _ Hr) as (Hap & _ & _ & Hde). split.
  - by apply (Hap [] 4136 8 [] 4096 40 []).
  - apply (Hde 1200%nat [(4136, 8)] 4096 40 [] 8); [done|exact A8|exact R3].
Defined.
(** The pools know nothing of alignment: 8 bytes at an alignment of 16 may come from the pool of
    8 byte objects, and [memory_resource::allocate] aborts.  A request of no bytes aborts in
    [ordered_malloc]. *)
Example pool_resource_misaligned :
  fst (do_allocate 800 8 16 ex1) = Ok 4136 ∧ fst (allocate 800 8 16 ex1) = Abort ∧
    fst (allocate 800 0 1 ex1) = Abort.
Proof. vm_compute. done. Qed.
(** A piece of several chunks comes back with one chunk less: the pool of 8 byte objects has 23
    free chunks and gets 4 of 5 back. *)
Example pool_resource_loses_a_chunk :
  ∃ k p, pools_ (snd (do_deallocate 1200 4096 40 8 ex2)) !! 3%nat = Some (k, p) ∧
    Seg.chain (heap (snd (do_deallocate 1200 4096 40 8 ex2))) (Seg.free_list_ (Pool.storage_ p))
      (4144 :: Seg.chunks_of 4096 8 4 ++ Seg.chunks_of 4152 8 22) null.
Proof.
  eexists _, _. split; [vm_compute; reflexivity|].
  repeat (split;
    [vm_compute; reflexivity|split;
    [vm_compute; reflexivity|eexists; split; [vm_compute; reflexivity|]]]). vm_compute. reflexivity.
Qed.

End PoolResource.
