(* ===== verification/LexicalCast.v ===== *)
(** * Characters, decimal numerals and lexical_cast (lexical_cast.hpp, narrow_cast.hpp)

    Strings are lists of [char].  The classification functions of [<cctype>]
    take an [int] that must be representable as [unsigned char] or be [EOF]; the
    code passes a plain (signed) [char], so a byte from 128 to 254 is undefined
    behaviour.  [print_int] is [os << i] and [lexical_cast_int] is
    [lexical_cast<I>(s)] for a signed integer type [I] of [w] bits. *)

From Stdlib Require Import Ascii.
From S2P Require Import Prelude.

Local Open Scope Z_scope.
Local Open Scope gpcl_scope.

Abbreviation str := (list ascii).

(** The code of a [char] as [unsigned char]. *)
Definition code (c : ascii) : Z := Z.of_N (N_of_ascii c).
Definition chr (z : Z) : ascii := ascii_of_N (Z.to_N z).
Definition lit (s : string) : str := String.list_ascii_of_string s.

Lemma code_inj a b : code a = code b → a = b.
Proof.
  unfold code. intros H%N2Z.inj. rewrite <- (ascii_N_embedding a), <- (ascii_N_embedding b).
  by rewrite H.
Qed.

Lemma code_chr z : 0 ≤ z < 256 → code (chr z) = z.
Proof. intros. unfold code, chr. rewrite N_ascii_embedding; lia. Qed.

Lemma code_range c : 0 ≤ code c < 256.
Proof. unfold code. pose proof (N_ascii_bounded c). lia. Qed.

Module Ctype.

(** [char] is signed: the byte 255 is [EOF], the others from 128 on are not a
    valid argument. *)
Definition valid (c : ascii) : bool := (code c <? 128) || (code c =? 255).
Definition isspace (c : ascii) : bool :=
  (code c =? 32) || ((9 <=? code c) && (code c <=? 13)).
Definition isdigit (c : ascii) : bool := (48 <=? code c) && (code c <=? 57).
Definition isalpha (c : ascii) : bool :=
  ((65 <=? code c) && (code c <=? 90)) || ((97 <=? code c) && (code c <=? 122)).
Definition isalnum (c : ascii) : bool := isalpha c || isdigit c.

End Ctype.

Module Lexical.
Import Ctype.

(** ** Decimal output *)

Definition digit (d : Z) : ascii := chr (48 + d).

(** The digits of [n] in front of [acc]. *)
Fixpoint dec_digits (fuel : nat) (n : Z) (acc : str) : str :=
  match fuel with
  | O => acc
  | S fuel =>
      let acc := digit (n mod 10) :: acc in
      if n <? 10 then acc else dec_digits fuel (n / 10) acc
  end.
Definition print_nat (n : Z) : str := dec_digits (S (Z.to_nat (Z.log2 n))) n [].
Definition print_int (z : Z) : str :=
  if z <? 0 then "-"%char :: print_nat (- z) else print_nat z.

(** ** Decimal input *)

Fixpoint dec_value (acc : Z) (s : str) : option Z :=
  match s with
  | [] => Some acc
  | c :: s => if isdigit c then dec_value (10 * acc + (code c - 48)) s else None
  end.

Fixpoint skip_space (s : str) : str :=
  match s with
  | [] => []
  | c :: s' => if isspace c then skip_space s' else s
  end.

(** [lexical_cast_extract_result(is, result)] for a signed [w]-bit target: the
    extraction skips white space, reads a sign and digits, fails when there is
    no digit or the number does not fit, and must stop at the end of the
    string. *)
Definition lexical_cast_int (w : Z) (s : str) : outcome Z :=
  let s := skip_space s in
  let '(neg, ds) := match s with
                    | c :: s' =>
                        if bool_decide (c = "-"%char) then (true, s')
                        else if bool_decide (c = "+"%char) then (false, s')
                        else (false, s)
                    | [] => (false, [])
                    end in
  match ds with
  | [] => Throw bad_lexical_cast
  | _ =>
      match dec_value 0 ds with
      | Some n =>
          let z := if neg : bool then - n else n in
          if (- 2 ^ (w - 1) <=? z) && (z <? 2 ^ (w - 1)) then Ok z
          else Throw bad_lexical_cast
      | None => Throw bad_lexical_cast
      end
  end.

(** [narrow_cast<To>(f)] with the conversions to [To] and back. *)
Definition narrow_cast_as (to from : Z → Z) (f : Z) : outcome Z :=
  let t := to f in oassert (from t =? f) ;;? Ok t.
(** [narrow_cast<To>(f)] and [narrow<To>(f)] from a [wf]-bit signed integer to a
    [wt]-bit signed one. *)
Definition narrow_cast (wf wt f : Z) : outcome Z := narrow_cast_as (sint wt) (sint wf) f.
Definition narrow (wf wt f : Z) : outcome Z :=
  let t := sint wt f in if sint wf t =? f then Ok t else Throw bad_narrow_cast.

(** ** Facts *)

Lemma code_digit d : 0 ≤ d < 10 → code (digit d) = 48 + d.
Proof. intros. unfold digit. apply code_chr. lia. Qed.

Lemma isdigit_digit d : 0 ≤ d < 10 → isdigit (digit d) = true.
Proof. intros. unfold isdigit. rewrite code_digit by done. lia. Qed.

Lemma dec_value_digits fuel n acc :
  0 ≤ n < 2 ^ Z.of_nat fuel → (0 < fuel)%nat →
  dec_value 0 (dec_digits fuel n acc) = dec_value n acc.
Proof.
  revert n acc. induction fuel as [|fuel IH]; intros n acc Hn Hf; [lia|].
  cbn [dec_digits]. pose proof (Z.mod_pos_bound n 10). pose proof (Z.div_mod n 10).
  destruct (Z.ltb_spec n 10).
  - rewrite Z.mod_small by lia. cbn [dec_value].
    rewrite isdigit_digit, code_digit by lia. f_equal. lia.
  - destruct fuel as [|fuel]; [simpl in Hn; lia|].
    rewrite IH; [|split; [apply Z.div_pos; lia|]|lia].
    + cbn [dec_value]. rewrite isdigit_digit, code_digit by lia. f_equal. lia.
    + apply Z.div_lt_upper_bound; [lia|].
      rewrite (Nat2Z.inj_succ (S fuel)), Z.pow_succ_r in Hn by lia. lia.
Qed.

Lemma log2_fuel n : 0 ≤ n → n < 2 ^ Z.of_nat (S (Z.to_nat (Z.log2 n))).
Proof.
  intros. rewrite Nat2Z.inj_succ, Z2Nat.id by apply Z.log2_nonneg.
  destruct (Z.eq_dec n 0) as [->|]; [reflexivity|]. apply Z.log2_spec. lia.
Qed.

Lemma dec_value_print n : 0 ≤ n → dec_value 0 (print_nat n) = Some n.
Proof.
  intros Hn. unfold print_nat. pose proof (log2_fuel n Hn).
  rewrite dec_value_digits; [done|lia|lia].
Qed.

Lemma dec_digits_all fuel n acc :
  0 ≤ n → Forall (λ c, isdigit c = true) acc →
  Forall (λ c, isdigit c = true) (dec_digits fuel n acc).
Proof.
  revert n acc. induction fuel as [|fuel IH]; intros n acc Hn Hacc; [done|].
  cbn [dec_digits].
  assert (isdigit (digit (n mod 10)) = true) by
    (apply isdigit_digit; pose proof (Z.mod_pos_bound n 10); lia).
  destruct (n <? 10); [by constructor|]. apply IH; [apply Z.div_pos; lia|by constructor].
Qed.

Lemma print_nat_digits n : 0 ≤ n → Forall (λ c, isdigit c = true) (print_nat n).
Proof. intros. by apply dec_digits_all. Qed.

Lemma dec_digits_length fuel n acc : (length acc ≤ length (dec_digits fuel n acc))%nat.
Proof.
  revert n acc. induction fuel as [|fuel IH]; intros n acc; cbn [dec_digits]; [done|].
  destruct (n <? 10); cbn [length]; [lia|]. etrans; [|apply IH]. cbn [length]. lia.
Qed.

Lemma print_nat_cons n : ∃ c s, print_nat n = c :: s.
Proof.
  unfold print_nat. cbn [dec_digits]. destruct (n <? 10); [eauto|].
  pose proof (dec_digits_length (Z.to_nat (Z.log2 n)) (n / 10) [digit (n mod 10)]) as Hl.
  destruct (dec_digits _ _ _) as [|c s]; [simpl in Hl; lia|eauto].
Qed.

Lemma isdigit_not_space c : isdigit c = true → isspace c = false.
Proof. unfold isdigit, isspace. lia. Qed.

Lemma isdigit_not_sign c : isdigit c = true → c ≠ "-"%char ∧ c ≠ "+"%char.
Proof. intros H. split; intros ->; done. Qed.

(** A string of digits with a value that fits is cast to that value. *)
Lemma lexical_cast_digits w c s n :
  isdigit c = true → dec_value 0 (c :: s) = Some n → 0 ≤ n < 2 ^ (w - 1) →
  lexical_cast_int w (c :: s) = Ok n.
Proof.
  intros Hc Hd Hn. unfold lexical_cast_int. cbn [skip_space].
  rewrite isdigit_not_space by done. destruct (isdigit_not_sign c Hc).
  rewrite !bool_decide_eq_false_2 by done. rewrite Hd.
  assert (0 ≤ 2 ^ (w - 1)) by (apply Z.pow_nonneg; lia).
  destruct (Z.leb_spec (- 2 ^ (w - 1)) n); [|lia]. by destruct (Z.ltb_spec n (2 ^ (w - 1))); [|lia].
Qed.

Lemma lexical_cast_int_range w s z :
  lexical_cast_int w s = Ok z → - 2 ^ (w - 1) ≤ z < 2 ^ (w - 1).
Proof.
  unfold lexical_cast_int. intros H. repeat case_match; simplify_eq; lia.
Qed.

(** Writing an integer with [<<] and reading it back with [lexical_cast]
    gives the integer, for every value of the signed [w]-bit type. *)
Theorem lexical_cast_print w z :
  - 2 ^ (w - 1) ≤ z < 2 ^ (w - 1) → lexical_cast_int w (print_int z) = Ok z.
Proof.
  intros Hz. unfold print_int. destruct (Z.ltb_spec z 0) as [Hneg|Hpos].
  - unfold lexical_cast_int. cbn [skip_space]. change (isspace "-"%char) with false. cbv iota.
    rewrite bool_decide_eq_true_2 by done.
    destruct (print_nat_cons (- z)) as (c & s & Hp). rewrite Hp, <- Hp, dec_value_print by lia.
    replace (- - z) with z by lia.
    destruct (Z.leb_spec (- 2 ^ (w - 1)) z); [|lia].
    by destruct (Z.ltb_spec z (2 ^ (w - 1))); [|lia].
  - pose proof (print_nat_digits z Hpos) as Hds. pose proof (dec_value_print z Hpos) as Hv.
    destruct (print_nat_cons z) as (c & s & Hp). rewrite Hp in *.
    apply lexical_cast_digits; [by inversion Hds|done|lia].
Qed.

Lemma lexical_cast_print_witness :
  lexical_cast_int 64 (print_int (- 9223372036854775808)) = Ok (- 9223372036854775808).
Proof. apply (lexical_cast_print 64). lia. Defined.

(** [narrow_cast] returns exactly the values of the narrower type, unchanged,
    and aborts on every other value (the documentation calls that undefined). *)
Theorem narrow_cast_spec wf wt f :
  0 < wt ≤ wf → - 2 ^ (wf - 1) ≤ f < 2 ^ (wf - 1) →
  narrow_cast wf wt f =
    if decide (- 2 ^ (wt - 1) ≤ f < 2 ^ (wt - 1)) then Ok f else Abort.
Proof.
  intros Hw Hf. unfold narrow_cast, narrow_cast_as, oassert.
  assert (Hle : 2 ^ (wt - 1) ≤ 2 ^ (wf - 1)) by (apply Z.pow_le_mono_r; lia).
  assert (Hr : - 2 ^ (wt - 1) ≤ sint wt f < 2 ^ (wt - 1)).
  { unfold sint. assert (2 ^ wt = 2 * 2 ^ (wt - 1)) by
      (rewrite <- Z.pow_succ_r by lia; f_equal; lia).
    pose proof (Z.mod_pos_bound (f + 2 ^ (wt - 1)) (2 ^ wt)). lia. }
  rewrite (sint_small wf) by lia. case_decide as Hin.
  - rewrite sint_small by lia. by rewrite Z.eqb_refl.
  - destruct (Z.eqb_spec (sint wt f) f); [lia|done].
Qed.

Lemma narrow_cast_witness : narrow_cast 64 32 (2 ^ 31) = Abort.
Proof. rewrite (narrow_cast_spec 64 32); [by vm_compute|lia|lia]. Defined.

End Lexical.
