(* ===== verification/JsonValue.v ===== *)
(** * JSON values (json.hpp: basic_json::value and its visitors)

    [value] is the variant [data_type] with its ten alternatives.  The three
    [shared_ptr<const T>] alternatives point to immutable data, so their sharing
    is not observable and they carry the pointee; what is observable is which
    alternative a value holds, and that mutable access first replaces a shared
    alternative by a copy (the copy-on-write visitor).  [object_type] is a
    [std::map]: a list of entries in strictly increasing key order.  Floating
    point numbers and their stream I/O are a parameter ([RealOps]). *)

From Stdlib Require Import Ascii.
From S2P Require Import Prelude.
From S2P Require Import LexicalCast.

Local Open Scope Z_scope.
Local Open Scope gpcl_scope.

(** [double] as the JSON code uses it: comparison, output with [<<], input with
    [>>] of a whole string (no result when the extraction fails or leaves
    characters), and the value-initialised number. *)
Class RealOps (real : Type) : Type := {
  real_eqb : real → real → bool;
  real_print : real → str;
  real_parse : str → option real;
  real_zero : real;
}.

Module Json.

Section value.
Context {real : Type} `{!RealOps real}.

Inductive value : Type :=
| null_
| boolean (b : bool)
| integer (i : Z)
| real_ (r : real)
| string_ (s : str)
| shared_string (s : str)
| object (o : list (str * value))
| shared_object (o : list (str * value))
| array (a : list value)
| shared_array (a : list value).

(** Induction with hypotheses for the elements of arrays and objects. *)
Section value_ind'.
Variable P : value → Prop.
Hypothesis Hnull : P null_.
Hypothesis Hbool : ∀ b, P (boolean b).
Hypothesis Hint : ∀ i, P (integer i).
Hypothesis Hreal : ∀ r, P (real_ r).
Hypothesis Hstr : ∀ s, P (string_ s).
Hypothesis Hsstr : ∀ s, P (shared_string s).
Hypothesis Hobj : ∀ o, Forall (λ kv, P kv.2) o → P (object o).
Hypothesis Hsobj : ∀ o, Forall (λ kv, P kv.2) o → P (shared_object o).
Hypothesis Harr : ∀ a, Forall P a → P (array a).
Hypothesis Hsarr : ∀ a, Forall P a → P (shared_array a).

Fixpoint value_ind' (v : value) : P v :=
  let list_ind' := fix go (a : list value) : Forall P a :=
    match a with [] => Forall_nil_2 _ | v :: a => Forall_cons_2 _ _ _ (value_ind' v) (go a) end in
  let map_ind' := fix go (o : list (str * value)) : Forall (λ kv, P kv.2) o :=
    match o with [] => Forall_nil_2 _ | kv :: o => Forall_cons_2 _ _ _ (value_ind' kv.2) (go o) end in
  match v with
  | null_ => Hnull
  | boolean b => Hbool b
  | integer i => Hint i
  | real_ r => Hreal r
  | string_ s => Hstr s
  | shared_string s => Hsstr s
  | object o => Hobj o (map_ind' o)
  | shared_object o => Hsobj o (map_ind' o)
  | array a => Harr a (list_ind' a)
  | shared_array a => Hsarr a (list_ind' a)
  end.
End value_ind'.

(** [value(const value &)]: [clone_visitor] puts strings, objects and arrays
    behind a shared pointer to a copy, whose elements are copied in turn. *)
Fixpoint clone (v : value) : value :=
  match v with
  | string_ s => shared_string s
  | object o => shared_object ((λ kv, (kv.1, clone kv.2)) <$> o)
  | array a => shared_array (clone <$> a)
  | _ => v
  end.

(** Copies of a [std::map] and of a [std::vector]. *)
Definition copy_object (o : list (str * value)) : list (str * value) :=
  (λ kv, (kv.1, clone kv.2)) <$> o.
Definition copy_array (a : list value) : list value := clone <$> a.

(** [operator==]: equal alternatives after dereferencing, then equal contents. *)
Fixpoint eqb (x y : value) : bool :=
  let arr := fix arr (a b : list value) : bool :=
    match a, b with
    | [], [] => true
    | v :: a, w :: b => eqb v w && arr a b
    | _, _ => false
    end in
  let obj := fix obj (a b : list (str * value)) : bool :=
    match a, b with
    | [], [] => true
    | kv :: a, lw :: b => bool_decide (kv.1 = lw.1) && eqb kv.2 lw.2 && obj a b
    | _, _ => false
    end in
  match x, y with
  | null_, null_ => true
  | boolean b, boolean c => Bool.eqb b c
  | integer i, integer j => bool_decide (i = j)
  | real_ r, real_ q => real_eqb r q
  | (string_ s | shared_string s), (string_ t | shared_string t) => bool_decide (s = t)
  | (object o | shared_object o), (object p | shared_object p) => obj o p
  | (array a | shared_array a), (array b | shared_array b) => arr a b
  | _, _ => false
  end.

(** ** Type checks *)

Definition is_null (v : value) : bool := match v with null_ => true | _ => false end.
Definition is_boolean (v : value) : bool := match v with boolean _ => true | _ => false end.
Definition is_integer (v : value) : bool := match v with integer _ => true | _ => false end.
Definition is_float (v : value) : bool := match v with real_ _ => true | _ => false end.
Definition is_number (v : value) : bool := is_integer v || is_float v.
Definition is_string (v : value) : bool :=
  match v with string_ _ | shared_string _ => true | _ => false end.
Definition is_object (v : value) : bool :=
  match v with object _ | shared_object _ => true | _ => false end.
Definition is_array (v : value) : bool :=
  match v with array _ | shared_array _ => true | _ => false end.

(** ** Copy on write *)

(** [cow_visitor]: a shared alternative is replaced by a copy of the pointee
    before the function sees it, whatever the function then does with it. *)
Definition unshare (v : value) : value :=
  match v with
  | shared_string s => string_ s
  | shared_object o => object (copy_object o)
  | shared_array a => array (copy_array a)
  | _ => v
  end.

(** [get<array_type>()], [get<object_type>()] and [get<string_type>()] on a
    non-const value: the reference to the content, after unsharing. *)
Definition get_array : M value (list value) :=
  modify unshare ;;;
  let! v := get in
  match v with array a => ret a | _ => throw (json_error type_mismatch) end.
Definition get_object : M value (list (str * value)) :=
  modify unshare ;;;
  let! v := get in
  match v with object o => ret o | _ => throw (json_error type_mismatch) end.
Definition get_string : M value str :=
  modify unshare ;;;
  let! v := get in
  match v with string_ s => ret s | _ => throw (json_error type_mismatch) end.

(** ** std::map *)

(** [std::less<std::string>]: lexicographic in [unsigned char]. *)
Fixpoint str_ltb (a b : str) : bool :=
  match a, b with
  | [], _ :: _ => true
  | x :: a, y :: b =>
      if bool_decide (code x < code y) then true
      else if bool_decide (code x = code y) then str_ltb a b else false
  | _, [] => false
  end.

Fixpoint map_find (k : str) (o : list (str * value)) : option value :=
  match o with
  | [] => None
  | kv :: o => if bool_decide (kv.1 = k) then Some kv.2 else map_find k o
  end.

(** [std::map::insert]: an existing entry is kept. *)
Fixpoint map_insert (k : str) (v : value) (o : list (str * value)) : list (str * value) :=
  match o with
  | [] => [(k, v)]
  | kv :: o =>
      if str_ltb k kv.1 then (k, v) :: kv :: o
      else if bool_decide (kv.1 = k) then kv :: o
      else kv :: map_insert k v o
  end.

(** Assignment through a reference to a mapped value. *)
Definition map_set (k : str) (v : value) (o : list (str * value)) : list (str * value) :=
  (λ kv, if bool_decide (kv.1 = k) then (kv.1, v) else kv) <$> o.

Definition map_erase (k : str) (o : list (str * value)) : list (str * value) :=
  filter (λ kv, kv.1 ≠ k) o.

(** ** Element access *)

(** [at(index)]: the address of the element, as the value after unsharing and
    the position; [operator[](index)] is the same function. *)
Definition at_index (index : nat) : M value value :=
  modify unshare ;;;
  let! v := get in
  match v with
  | array a => match a !! index with Some x => ret x | None => throw out_of_range end
  | _ => throw (json_error operation_not_supported)
  end.

(** [at(index) const]. *)
Definition at_index_const (index : nat) (v : value) : outcome value :=
  match v with
  | array a | shared_array a =>
      match a !! index with Some x => Ok x | None => Throw out_of_range end
  | _ => Throw (json_error operation_not_supported)
  end.

(** [at(key)]. *)
Definition at_key (k : str) : M value value :=
  modify unshare ;;;
  let! v := get in
  match v with
  | object o => match map_find k o with Some x => ret x | None => throw out_of_range end
  | _ => throw (json_error operation_not_supported)
  end.

(** [at(key) const]. *)
Definition at_key_const (k : str) (v : value) : outcome value :=
  match v with
  | object o | shared_object o =>
      match map_find k o with Some x => Ok x | None => Throw out_of_range end
  | _ => Throw (json_error operation_not_supported)
  end.

(** [operator[](key)]: a missing entry is created as null. *)
Definition index_key (k : str) : M value value :=
  modify unshare ;;;
  let! v := get in
  match v with
  | object o =>
      let o' := map_insert k null_ o in
      put (object o') ;;;
      match map_find k o' with Some x => ret x | None => undef end
  | _ => throw (json_error operation_not_supported)
  end.

(** [operator[](key) const]: a const [std::map] has no [operator[]], so every
    alternative takes the throwing overload of [json_index]. *)
Definition index_key_const (k : str) (v : value) : outcome value :=
  Throw (json_error operation_not_supported).

(** Assigning to the element [at(index)] or [operator[](key)] returns. *)
Definition assign_index (index : nat) (x : value) : M value unit :=
  at_index index ;;;
  let! v := get in
  match v with
  | array a => put (array (<[index := clone x]> a))
  | _ => undef
  end.
Definition assign_key (k : str) (x : value) : M value unit :=
  index_key k ;;;
  let! v := get in
  match v with
  | object o => put (object (map_set k (clone x) o))
  | _ => undef
  end.

Definition size (v : value) : outcome Z :=
  match v with
  | string_ s | shared_string s => Ok (Z.of_nat (length s))
  | object o | shared_object o => Ok (Z.of_nat (length o))
  | array a | shared_array a => Ok (Z.of_nat (length a))
  | _ => Throw (json_error operation_not_supported)
  end.

Definition clear (v : value) : value :=
  match v with
  | null_ => null_
  | boolean _ => boolean false
  | integer _ => integer 0
  | real_ _ => real_ real_zero
  | string_ _ | shared_string _ => string_ []
  | object _ | shared_object _ => object []
  | array _ | shared_array _ => array []
  end.

Definition front : M value value :=
  let! a := get_array in
  match a with [] => throw (json_error json_out_of_range) | x :: _ => ret x end.
Definition back : M value value :=
  let! a := get_array in
  match last a with None => throw (json_error json_out_of_range) | Some x => ret x end.

(** [push_back(const value &)] and [push_back(CharType)]. *)
Definition push_back (x : value) : M value unit :=
  let! a := get_array in put (array (a ++ [clone x])).
Definition push_back_char (c : ascii) : M value unit :=
  let! s := get_string in put (string_ (s ++ [c])).

(** [insert(const pair &)]: whether the entry is new. *)
Definition insert (k : str) (x : value) : M value bool :=
  let! o := get_object in
  put (object (map_insert k (clone x) o)) ;;;
  ret (match map_find k o with None => true | Some _ => false end).

(** [erase(pos, count)]; on an array the range must exist. *)
Definition erase_range (pos count : nat) : M value unit :=
  modify unshare ;;;
  let! v := get in
  match v with
  | array a =>
      if bool_decide (pos + count ≤ length a)%nat then
        put (array (take pos a ++ drop (pos + count) a))
      else undef
  | string_ s =>
      if bool_decide (pos ≤ length s)%nat then
        put (string_ (take pos s ++ drop (pos + count) s))
      else throw out_of_range
  | _ => throw (json_error type_mismatch)
  end.

(** [erase(key)]. *)
Definition erase_key (k : str) : M value unit :=
  let! v := get in
  gpcl_assert (is_object v) ;;;
  let! o := get_object in
  put (object (map_erase k o)).

(** ** Order of keys *)

Lemma str_ltb_irrefl a : str_ltb a a = false.
Proof.
  induction a as [|x a IH]; simpl; [done|].
  rewrite bool_decide_eq_false_2 by lia. by rewrite bool_decide_eq_true_2.
Qed.

Lemma str_ltb_trans a b c : str_ltb a b = true → str_ltb b c = true → str_ltb a c = true.
Proof.
  revert b c. induction a as [|x a IH]; intros [|y b] [|z c]; simpl; try done.
  repeat case_bool_decide; try done; try lia. apply IH.
Qed.

Lemma str_ltb_total a b : str_ltb a b = false → str_ltb b a = false → a = b.
Proof.
  revert b. induction a as [|x a IH]; intros [|y b]; simpl; try done.
  repeat case_bool_decide; try done; try lia.
  intros. f_equal; [by apply code_inj|by apply IH].
Qed.

Lemma str_ltb_ne a b : str_ltb a b = true → a ≠ b.
Proof. intros H ->. by rewrite str_ltb_irrefl in H. Qed.

(** ** Well-formed values *)

Definition key_lt (x y : str * value) : Prop := str_ltb x.1 y.1 = true.
Definition sorted_map (o : list (str * value)) : Prop := StronglySorted key_lt o.

(** Integers fit [int64_t] and the entries of every object are in key order. *)
Inductive wf : value → Prop :=
| wf_null : wf null_
| wf_boolean b : wf (boolean b)
| wf_integer i : - 2 ^ 63 ≤ i < 2 ^ 63 → wf (integer i)
| wf_real r : wf (real_ r)
| wf_string s : wf (string_ s)
| wf_shared_string s : wf (shared_string s)
| wf_object o : sorted_map o → Forall (λ kv, wf kv.2) o → wf (object o)
| wf_shared_object o : sorted_map o → Forall (λ kv, wf kv.2) o → wf (shared_object o)
| wf_array a : Forall wf a → wf (array a)
| wf_shared_array a : Forall wf a → wf (shared_array a).

Lemma sorted_map_fmap (f : value → value) o :
  sorted_map o → sorted_map ((λ kv, (kv.1, f kv.2)) <$> o).
Proof.
  unfold sorted_map. induction 1 as [|kv o Hs IH Hf]; simpl; [constructor|].
  constructor; [done|]. apply Forall_fmap. eapply Forall_impl; [done|]. done.
Qed.

Lemma wf_clone v : wf v → wf (clone v).
Proof.
  induction v as [| | | | | |o IH|o IH|a IH|a IH] using value_ind'; intros Hw; simpl; try done.
  - constructor.
  - inversion Hw as [| | | | | |? Hs Hf| | |]; subst. constructor; [by apply sorted_map_fmap|].
    apply Forall_fmap. rewrite Forall_forall in *. intros kv Hin. simpl. auto.
  - inversion Hw as [| | | | | | | |? Hf|]; subst. constructor.
    apply Forall_fmap. rewrite Forall_forall in *. intros x Hin. simpl. auto.
Qed.

Lemma wf_unshare v : wf v → wf (unshare v).
Proof.
  destruct 1; simpl; constructor; try done.
  - by apply sorted_map_fmap.
  - apply Forall_fmap. eapply Forall_impl; [done|]. intros kv. apply wf_clone.
  - apply Forall_fmap. eapply Forall_impl; [done|]. intros. by apply wf_clone.
Qed.

Lemma map_find_None_lt k o :
  Forall (λ kv, str_ltb k kv.1 = true) o → map_find k o = None.
Proof.
  induction 1 as [|kv o Hlt _ IH]; simpl; [done|].
  rewrite bool_decide_eq_false_2; [done|]. intros <-. by rewrite str_ltb_irrefl in Hlt.
Qed.

Lemma map_find_insert_same k v o :
  sorted_map o →
  map_find k (map_insert k v o) = Some (default v (map_find k o)).
Proof.
  unfold sorted_map. induction 1 as [|kv o Hs IH Hf]; simpl.
  - by rewrite bool_decide_eq_true_2.
  - destruct (str_ltb k kv.1) eqn:Hlt; simpl.
    + rewrite bool_decide_eq_true_2 by done.
      rewrite bool_decide_eq_false_2 by (apply not_eq_sym; by apply str_ltb_ne).
      rewrite map_find_None_lt; [done|]. rewrite Forall_forall in *. intros kv' Hin.
      eapply str_ltb_trans; [done|]. by apply Hf.
    + case_bool_decide as Hk; simpl.
      * by rewrite bool_decide_eq_true_2.
      * by rewrite bool_decide_eq_false_2.
Qed.

Lemma map_find_insert_other k k' v o :
  k ≠ k' → map_find k' (map_insert k v o) = map_find k' o.
Proof.
  intros Hne. induction o as [|kv o IH]; simpl; [by rewrite bool_decide_eq_false_2|].
  destruct (str_ltb k kv.1); simpl; [by rewrite bool_decide_eq_false_2|].
  case_bool_decide; simpl; [done|]. by rewrite IH.
Qed.

Lemma map_insert_elem k v o kv : kv ∈ map_insert k v o → kv = (k, v) ∨ kv ∈ o.
Proof.
  induction o as [|kv' o IH]; simpl; [set_solver|].
  destruct (str_ltb k kv'.1); [set_solver|]. case_bool_decide; set_solver.
Qed.

Lemma map_insert_sorted k v o : sorted_map o → sorted_map (map_insert k v o).
Proof.
  unfold sorted_map. induction 1 as [|kv o Hs IH Hf]; simpl.
  - repeat constructor.
  - destruct (str_ltb k kv.1) eqn:Hlt.
    + constructor; [by constructor|]. constructor; [done|].
      eapply Forall_impl; [done|]. intros kv'. unfold key_lt. by apply str_ltb_trans.
    + case_bool_decide as Hk; [by constructor|]. constructor; [done|].
      rewrite Forall_forall in *. intros kv' [->|Hin]%map_insert_elem; [|by apply Hf].
      unfold key_lt. simpl. destruct (str_ltb kv.1 k) eqn:Hgt; [done|].
      exfalso. apply Hk. by apply str_ltb_total.
Qed.

Lemma map_find_set k k' v o :
  map_find k' (map_set k v o) =
    if decide (k = k') then (λ _, v) <$> map_find k' o else map_find k' o.
Proof.
  induction o as [|kv o IH]; simpl; [by case_decide|].
  repeat (case_bool_decide || case_decide); subst; simpl in *; try done.
Qed.

Lemma map_set_sorted k v o : sorted_map o → sorted_map (map_set k v o).
Proof.
  unfold sorted_map, map_set. induction 1 as [|kv o Hs IH Hf]; simpl; [constructor|].
  constructor; [done|]. apply Forall_fmap. eapply Forall_impl; [done|].
  intros kv'. unfold key_lt. simpl. by repeat case_bool_decide.
Qed.

Lemma map_erase_sorted k o : sorted_map o → sorted_map (map_erase k o).
Proof.
  unfold sorted_map, map_erase. induction 1 as [|kv o Hs IH Hf]; [constructor|].
  rewrite filter_cons. case_decide; [|done]. constructor; [done|].
  rewrite Forall_forall in *. intros kv' [_ Hin]%list_elem_of_filter. by apply Hf.
Qed.

Lemma map_find_erase k k' o :
  map_find k' (map_erase k o) = if decide (k = k') then None else map_find k' o.
Proof.
  unfold map_erase. induction o as [|kv o IH]; [by case_decide|].
  rewrite filter_cons. destruct (decide (kv.1 ≠ k)) as [Hk|Hk]; simpl; rewrite ?IH;
    repeat (case_bool_decide || case_decide); subst; try done.
Qed.

(** ** Equality *)

(** A value with every shared alternative replaced by the plain one. *)
Fixpoint norm (v : value) : value :=
  match v with
  | shared_string s => string_ s
  | object o | shared_object o => object ((λ kv, (kv.1, norm kv.2)) <$> o)
  | array a | shared_array a => array (norm <$> a)
  | _ => v
  end.

Fixpoint list_eqb (a b : list value) : bool :=
  match a, b with
  | [], [] => true
  | v :: a, w :: b => eqb v w && list_eqb a b
  | _, _ => false
  end.
Fixpoint map_eqb (a b : list (str * value)) : bool :=
  match a, b with
  | [], [] => true
  | kv :: a, lw :: b => bool_decide (kv.1 = lw.1) && eqb kv.2 lw.2 && map_eqb a b
  | _, _ => false
  end.

(** [eqb] with its inner loops named. *)
Lemma eqb_eq x y :
  eqb x y =
  match x, y with
  | null_, null_ => true
  | boolean b, boolean c => Bool.eqb b c
  | integer i, integer j => bool_decide (i = j)
  | real_ r, real_ q => real_eqb r q
  | (string_ s | shared_string s), (string_ t | shared_string t) => bool_decide (s = t)
  | (object o | shared_object o), (object p | shared_object p) => map_eqb o p
  | (array a | shared_array a), (array b | shared_array b) => list_eqb a b
  | _, _ => false
  end.
Proof.
  destruct x as [| | | | | |o|o|a|a], y as [| | | | | |p|p|c|c]; try done; simpl;
    first [ revert p; induction o as [|? ? IH]; intros [|? ?]; simpl; try done; by rewrite IH
          | revert c; induction a as [|? ? IH]; intros [|? ?]; simpl; try done; by rewrite IH ].
Qed.

(** Every number in the value is equal to itself: no NaN. *)
Fixpoint no_nan (v : value) : bool :=
  match v with
  | real_ r => real_eqb r r
  | object o | shared_object o => forallb (λ kv, no_nan kv.2) o
  | array a | shared_array a => forallb no_nan a
  | _ => true
  end.

Lemma norm_clone v : norm (clone v) = norm v.
Proof.
  induction v as [| | | | | |o IH|o IH|a IH|a IH] using value_ind'; simpl; try done; f_equal.
  - rewrite <- list_fmap_compose. apply list_fmap_ext. intros i kv Hkv. simpl.
    f_equal. rewrite Forall_forall in IH. apply IH. by eapply list_elem_of_lookup_2.
  - rewrite <- list_fmap_compose. apply list_fmap_ext. intros i x Hx. simpl.
    rewrite Forall_forall in IH. apply IH. by eapply list_elem_of_lookup_2.
Qed.

Lemma norm_copy_object o : (λ kv, (kv.1, norm kv.2)) <$> copy_object o = (λ kv, (kv.1, norm kv.2)) <$> o.
Proof.
  unfold copy_object. rewrite <- list_fmap_compose. apply list_fmap_ext.
  intros i kv _. simpl. by rewrite norm_clone.
Qed.
Lemma norm_copy_array a : norm <$> copy_array a = norm <$> a.
Proof.
  unfold copy_array. rewrite <- list_fmap_compose. apply list_fmap_ext.
  intros i x _. simpl. by rewrite norm_clone.
Qed.

Lemma norm_unshare v : norm (unshare v) = norm v.
Proof. destruct v; simpl; try done; by rewrite ?norm_copy_object, ?norm_copy_array. Qed.

(** Equality does not see sharing. *)
Lemma eqb_norm x y : eqb x y = eqb (norm x) (norm y).
Proof.
  revert y. induction x as [| | | | | |o IH|o IH|a IH|a IH] using value_ind'; intros y;
    try (by destruct y);
    (destruct y as [| | | | | |p|p|c|c]; try done; rewrite !eqb_eq; simpl;
     first [ revert p; induction IH as [|kv o Hkv _ IHo]; intros [|lw p]; simpl; try done;
             by rewrite <- Hkv, IHo
           | revert c; induction IH as [|x a Hx _ IHa]; intros [|z c]; simpl; try done;
             by rewrite <- Hx, IHa ]).
Qed.

Lemma eqb_refl v : no_nan v = true → eqb v v = true.
Proof.
  induction v as [| | | | | |o IH|o IH|a IH|a IH] using value_ind'; rewrite eqb_eq; simpl;
    try done; try (intros; by apply bool_decide_eq_true_2); try (by destruct b).
  1,2: induction IH as [|kv o Hkv _ IHo]; simpl; [done|];
    intros [H1 H2]%andb_true_iff; rewrite bool_decide_eq_true_2 by done; simpl;
    rewrite Hkv by done; by apply IHo.
  all: induction IH as [|x a Hx _ IHa]; simpl; [done|];
    intros [H1 H2]%andb_true_iff; rewrite Hx by done; by apply IHa.
Qed.

Lemma eqb_same_norm v w : no_nan w = true → norm v = norm w → eqb v w = true.
Proof. intros Hn Hv. rewrite eqb_norm, Hv, <- eqb_norm. by apply eqb_refl. Qed.

(** ** Element access and mutation *)

Lemma get_object_run v :
  get_object v =
  match unshare v with
  | object o => (Ok o, unshare v)
  | _ => (Throw (json_error type_mismatch), unshare v)
  end.
Proof. unfold get_object, modify, get, bind. by destruct (unshare v). Qed.
Lemma get_array_run v :
  get_array v =
  match unshare v with
  | array a => (Ok a, unshare v)
  | _ => (Throw (json_error type_mismatch), unshare v)
  end.
Proof. unfold get_array, modify, get, bind. by destruct (unshare v). Qed.
Lemma get_string_run v :
  get_string v =
  match unshare v with
  | string_ s => (Ok s, unshare v)
  | _ => (Throw (json_error type_mismatch), unshare v)
  end.
Proof. unfold get_string, modify, get, bind. by destruct (unshare v). Qed.

(** The non-const member functions of [value]. *)
Inductive op : Type :=
| op_at_index (i : nat) | op_at_key (k : str) | op_index_key (k : str)
| op_assign_index (i : nat) (x : value) | op_assign_key (k : str) (x : value)
| op_front | op_back | op_push_back (x : value) | op_push_back_char (c : ascii)
| op_insert (k : str) (x : value) | op_erase_range (pos count : nat)
| op_erase_key (k : str) | op_clear | op_assign (x : value).

Definition run_op (o : op) : M value unit :=
  match o with
  | op_at_index i => at_index i ;;; ret tt
  | op_at_key k => at_key k ;;; ret tt
  | op_index_key k => index_key k ;;; ret tt
  | op_assign_index i x => assign_index i x
  | op_assign_key k x => assign_key k x
  | op_front => front ;;; ret tt
  | op_back => back ;;; ret tt
  | op_push_back x => push_back x
  | op_push_back_char c => push_back_char c
  | op_insert k x => insert k x ;;; ret tt
  | op_erase_range p n => erase_range p n
  | op_erase_key k => erase_key k
  | op_clear => modify clear
  | op_assign x => put (clone x)
  end.

(** The argument an operation stores. *)
Definition op_arg_wf (o : op) : Prop :=
  match o with
  | op_assign_index _ x | op_assign_key _ x | op_push_back x | op_insert _ x
  | op_assign x => wf x
  | _ => True
  end.

Definition wf_entries (o : list (str * value)) : Prop :=
  sorted_map o ∧ Forall (λ kv, wf kv.2) o.

Lemma wf_object_inv o : wf (object o) → wf_entries o.
Proof. by inversion 1. Qed.
Lemma wf_array_inv a : wf (array a) → Forall wf a.
Proof. by inversion 1. Qed.

Lemma wf_entries_insert k x o : wf_entries o → wf x → wf_entries (map_insert k x o).
Proof.
  intros [Hs Hf] Hx. split; [by apply map_insert_sorted|].
  rewrite Forall_forall in *. intros kv [->|Hin]%map_insert_elem; [done|by apply Hf].
Qed.
Lemma wf_entries_set k x o : wf_entries o → wf x → wf_entries (map_set k x o).
Proof.
  intros [Hs Hf] Hx. split; [by apply map_set_sorted|].
  apply Forall_fmap. eapply Forall_impl; [done|]. intros kv ?. simpl. by case_bool_decide.
Qed.
Lemma wf_entries_erase k o : wf_entries o → wf_entries (map_erase k o).
Proof.
  intros [Hs Hf]. split; [by apply map_erase_sorted|].
  rewrite Forall_forall in *. intros kv [_ Hin]%list_elem_of_filter. by apply Hf.
Qed.
Lemma wf_clear v : wf (clear v).
Proof. destruct v; repeat constructor; lia. Qed.
Lemma wf_of_entries o : wf_entries o → wf (object o).
Proof. intros []; by constructor. Qed.

Create HintDb json.
#[local] Hint Resolve wf_clone wf_unshare wf_entries_insert wf_entries_set wf_entries_erase
  wf_object_inv wf_array_inv wf_clear wf_of_entries wf_null wf_string wf_array
  Forall_take Forall_drop Forall_app_2 Forall_insert Forall_singleton : json.

Ltac run_json :=
  unfold run_op, at_index, at_key, index_key, assign_index, assign_key, front, back,
    push_back, push_back_char, insert, erase_range, erase_key, gpcl_assert,
    index_key, at_index;
  unfold bind, get, put, modify, ret, throw, undef, abort;
  rewrite ?get_object_run, ?get_array_run, ?get_string_run.

Lemma run_op_wf o v : op_arg_wf o → wf v → wf (run_op o v).2.
Proof.
  intros Ho Hv. pose proof (wf_unshare v Hv) as Hu. pose proof (wf_clear v) as Hc.
  destruct o; simpl in Ho; run_json; simpl;
    destruct v as [| | | | | |m|m|a|a]; simpl in *; try done;
    repeat (case_match; simpl; simplify_eq; try done); cbn [snd]; auto 10 with json.
Qed.

Lemma run_op_throw o v e v' : run_op o v = (Throw e, v') → norm v' = norm v.
Proof.
  rewrite <- (norm_unshare v).
  destruct o; run_json; simpl; intros Hrun;
    destruct v as [| | | | | |m|m|a|a]; simpl in *; try done;
    repeat (case_match; simpl in *; simplify_eq; try done); by simplify_eq.
Qed.

(** Lookup of a key seen through equality. *)
Definition find_norm (k : str) (o : list (str * value)) : option value :=
  norm <$> map_find k o.

Lemma find_norm_copy k o : find_norm k (copy_object o) = find_norm k o.
Proof.
  unfold find_norm. induction o as [|kv o IH]; simpl; [done|].
  case_bool_decide; simpl; [by rewrite norm_clone|done].
Qed.

Definition entries (v : value) : option (list (str * value)) :=
  match v with object o | shared_object o => Some o | _ => None end.
Definition elements (v : value) : option (list value) :=
  match v with array a | shared_array a => Some a | _ => None end.

Lemma entries_wf v o : wf v → entries v = Some o → wf_entries o.
Proof. by destruct 1; simpl; intros [= <-]. Qed.

Lemma assign_key_run k x v o :
  wf v → entries v = Some o →
  ∃ o0, unshare v = object o0 ∧
    assign_key k x v = (Ok tt, object (map_set k (clone x) (map_insert k null_ o0))) ∧
    wf_entries o0 ∧ ∀ k', find_norm k' o0 = find_norm k' o.
Proof.
  intros Hv Ho. pose proof (λ o0, entries_wf _ o0 (wf_unshare v Hv)) as Hu.
  destruct v as [| | | | | |m|m| |]; simplify_eq/=; eexists; (split; [done|]);
    specialize (Hu _ eq_refl); (split; [|split; [done|]]);
    try (intros; by rewrite ?find_norm_copy); run_json; simpl;
    by rewrite map_find_insert_same by apply Hu.
Qed.

Lemma assign_index_run i x v a :
  elements v = Some a → (i < length a)%nat →
  ∃ a0, assign_index i x v = (Ok tt, array (<[i := clone x]> a0)) ∧
    norm <$> a0 = norm <$> a.
Proof.
  intros Ha Hi. destruct v as [| | | | | | | |b|b]; simplify_eq/=.
  - exists a. split; [|done]. run_json; simpl. by destruct (lookup_lt_is_Some_2 a i Hi) as [y ->].
  - exists (copy_array a). split; [|apply norm_copy_array]. run_json; simpl.
    unfold copy_array. rewrite list_lookup_fmap.
    by destruct (lookup_lt_is_Some_2 a i Hi) as [y ->].
Qed.

(** ** Equality is an equivalence *)

Class RealLaws : Prop := {
  real_eqb_sym r q : real_eqb r q = real_eqb q r;
  real_eqb_trans r q t : real_eqb r q = true → real_eqb q t = true → real_eqb r t = true;
}.

Section laws.
Context `{!RealLaws}.

Lemma eqb_sym x y : eqb x y = eqb y x.
Proof.
  revert y. induction x as [| | | | | |o IH|o IH|a IH|a IH] using value_ind'; intros y;
    destruct y as [| | | | | |p|p|c|c]; rewrite !eqb_eq; try done;
    try (by destruct b, b0); try (by apply real_eqb_sym);
    try (by apply bool_decide_ext);
    first [ revert p; induction IH as [|kv o Hkv _ IHo]; intros [|lw p]; simpl; try done;
            rewrite Hkv, IHo; by rewrite (bool_decide_ext (kv.1 = lw.1) (lw.1 = kv.1))
          | revert c; induction IH as [|x a Hx _ IHa]; intros [|z c]; simpl; try done;
            by rewrite Hx, IHa ].
Qed.

Lemma list_eqb_trans a b c :
  Forall (λ x, ∀ y z, eqb x y = true → eqb y z = true → eqb x z = true) a →
  list_eqb a b = true → list_eqb b c = true → list_eqb a c = true.
Proof.
  intros Ha. revert b c. induction Ha as [|x a Hx _ IH]; intros [|y b] [|z c]; simpl; try done.
  intros [? ?]%andb_true_iff [? ?]%andb_true_iff. apply andb_true_iff. eauto.
Qed.
Lemma map_eqb_trans a b c :
  Forall (λ kv, ∀ y z, eqb kv.2 y = true → eqb y z = true → eqb kv.2 z = true) a →
  map_eqb a b = true → map_eqb b c = true → map_eqb a c = true.
Proof.
  intros Ha. revert b c. induction Ha as [|x a Hx _ IH]; intros [|y b] [|z c]; simpl; try done.
  rewrite !andb_true_iff, !bool_decide_eq_true. intros [[-> ?] ?] [[-> ?] ?]. eauto.
Qed.

Lemma eqb_trans x y z : eqb x y = true → eqb y z = true → eqb x z = true.
Proof.
  revert y z. induction x as [| | | | | |o IH|o IH|a IH|a IH] using value_ind'; intros y z;
    destruct y, z; rewrite !eqb_eq; try done;
    try (rewrite !bool_decide_eq_true; congruence);
    try (by apply real_eqb_trans); try (by apply list_eqb_trans);
    try (by apply map_eqb_trans).
  by destruct b, b0, b1.
Qed.
End laws.

(** ** Properties *)

(** A copy of a value compares equal to it, is well formed when it is, and
    copying a copy changes nothing; no operation can tell them apart by
    comparing ([eqb] against any third value agrees). *)
Theorem json_clone_spec v :
  wf v → no_nan v = true →
  eqb (clone v) v = true ∧ wf (clone v) ∧ clone (clone v) = clone v ∧
  ∀ w, eqb (clone v) w = eqb v w.
Proof.
  intros Hw Hn. split_and!.
  - apply eqb_same_norm; [done|apply norm_clone].
  - by apply wf_clone.
  - by destruct v.
  - intros w. by rewrite eqb_norm, norm_clone, <- eqb_norm.
Qed.

(** Equality of values is an equivalence relation on values without NaN,
    when it is one on the numbers. *)
Theorem json_eq_equivalence `{!RealLaws} x y z :
  no_nan x = true →
  eqb x x = true ∧ eqb x y = eqb y x ∧
  (eqb x y = true → eqb y z = true → eqb x z = true).
Proof. intros Hn. split_and!; [by apply eqb_refl|apply eqb_sym|apply eqb_trans]. Qed.

(** Any sequence of member functions keeps a value well formed: object
    entries stay in strict key order, integers stay in range; this includes the
    calls that throw. *)
Theorem json_ops_wf ops v :
  Forall op_arg_wf ops → wf v → wf (foldl (λ v o, (run_op o v).2) v ops).
Proof.
  intros Hops. revert v. induction Hops as [|o ops Ho _ IH]; intros v Hv; simpl; [done|].
  apply IH. by apply run_op_wf.
Qed.

(** A member function that throws leaves a value that compares equal to the
    one before (at most, a shared alternative was replaced by a copy), if it holds no NaN;
    memory is taken not to run out. *)
Theorem json_strong_exception_safety o v e v' :
  no_nan v = true → run_op o v = (Throw e, v') → eqb v' v = true.
Proof. intros Hn Hrun. apply eqb_same_norm; [done|by eapply run_op_throw]. Qed.

(** Assigning to [v[k]] of an object and reading [v.at(k)] returns a copy of
    the assigned value, and every other key reads as before. *)
Theorem json_assign_key_lookup k x v o :
  wf v → entries v = Some o →
  ∃ o', assign_key k x v = (Ok tt, object o') ∧
    at_key_const k (object o') = Ok (clone x) ∧
    ∀ k', k' ≠ k → find_norm k' o' = find_norm k' o.
Proof.
  intros Hv Ho. destruct (assign_key_run k x v o Hv Ho) as (o0 & _ & Hrun & [Hs _] & Hfind).
  eexists. split; [exact Hrun|]. split.
  - simpl. rewrite map_find_set, decide_True by done. by rewrite map_find_insert_same.
  - intros k' Hne. rewrite <- Hfind. unfold find_norm.
    by rewrite map_find_set, decide_False, map_find_insert_other by done.
Qed.

(** Assigning to [v[i]] of an array replaces exactly that element; out of
    range it throws [std::out_of_range] and stores nothing. *)
Theorem json_assign_index_spec i x v a :
  elements v = Some a →
  (assign_index i x v).1 = (if decide (i < length a)%nat then Ok tt else Throw out_of_range) ∧
  norm (assign_index i x v).2 = array (<[i := norm x]> (norm <$> a)).
Proof.
  intros Ha. case_decide as Hi.
  - destruct (assign_index_run i x v a Ha Hi) as (a0 & -> & Hn). split; [done|].
    simpl. by rewrite list_fmap_insert, norm_clone, Hn.
  - assert (Hl : a !! i = None) by (apply lookup_ge_None; lia).
    rewrite list_insert_ge by (rewrite length_fmap; lia).
    destruct v as [| | | | | | | |b|b]; simplify_eq/=; run_json; simpl;
      unfold copy_array; rewrite ?list_lookup_fmap, Hl; simpl; (split; [done|]); [done|].
    f_equal. apply norm_copy_array.
Qed.

End value.
Arguments value : clear implicits.

(** ** Concrete inputs *)

(** Numbers with one decimal, as tenths. *)
Module Tenths.
Fixpoint tenths_parse (acc : Z) (s : str) : option Z :=
  match s with
  | [] => None
  | c :: s =>
      if bool_decide (c = "."%char) then
        match s with
        | [d] => if Ctype.isdigit d then Some (10 * acc + (code d - 48)) else None
        | _ => None
        end
      else if Ctype.isdigit c then tenths_parse (10 * acc + (code c - 48)) s else None
  end.
#[export] Instance tenths_ops : RealOps Z := {
  real_eqb := Z.eqb;
  real_print n := Lexical.print_nat (n / 10) ++ ["."%char; Lexical.digit (n mod 10)];
  real_parse := tenths_parse 0;
  real_zero := 0;
}.
#[export] Instance tenths_laws : RealLaws.
Proof. constructor; simpl; intros; lia. Qed.
End Tenths.
Import Tenths.

(** [{"a":[1,"x"],"b":{},"c":2.5,"d":true}]. *)
Definition doc : value Z :=
  object [ (lit "a", array [integer 1; string_ (lit "x")]); (lit "b", object []);
           (lit "c", real_ 25); (lit "d", boolean true) ].

Lemma doc_wf : wf doc.
Proof.
  constructor.
  - unfold sorted_map. repeat (constructor; [|repeat constructor]). constructor.
  - repeat constructor; lia.
Defined.

Lemma json_clone_witness : eqb (clone doc) doc = true.
Proof. apply json_clone_spec; [apply doc_wf|reflexivity]. Defined.

Lemma json_eq_equivalence_witness : eqb doc (clone doc) = eqb (clone doc) doc.
Proof. exact (proj1 (proj2 (json_eq_equivalence doc (clone doc) doc eq_refl))). Defined.

Lemma json_ops_wf_witness :
  wf (foldl (λ v o, (run_op o v).2) doc
    [op_index_key (lit "bb"); op_push_back (integer 3); op_assign_key (lit "A") doc;
     op_erase_key (lit "a")]).
Proof. apply json_ops_wf; [repeat constructor; try lia; apply doc_wf|apply doc_wf]. Defined.

Lemma json_strong_exception_safety_witness :
  eqb (run_op (op_push_back null_) doc).2 doc = true.
Proof.
  apply (json_strong_exception_safety (op_push_back null_) doc (json_error type_mismatch));
    vm_compute; reflexivity.
Defined.

Lemma json_assign_key_witness :
  ∃ o', assign_key (lit "b") null_ doc = (Ok tt, object o') ∧
    at_key_const (lit "b") (object o') = Ok (clone null_) ∧
    ∀ k', k' ≠ lit "b" → find_norm k' o' = find_norm k' (default [] (entries doc)).
Proof. apply json_assign_key_lookup; [apply doc_wf|reflexivity]. Defined.

Lemma json_assign_index_witness :
  (assign_index 3 null_ (array [integer 1; null_] : value Z)).1 = Throw out_of_range.
Proof. apply (json_assign_index_spec 3 null_ _ [integer 1; null_]). reflexivity. Defined.

End Json.
