(* ===== verification/JsonAccess.v ===== *)
(** * Construction, assignment and iteration of JSON values (json.hpp)

    The constructors, factories and assignments of [basic_json::value] and its iterators.
    An iterator is the variant [iterator_data_type]: the position of an element of an array
    or of an entry of an object; the default iterator is the first alternative.  It is used
    with the value it came from, which the model passes along.  [const_iterator] has the same
    members. *)

From Stdlib Require Import Ascii.
From S2P Require Import Prelude LexicalCast JsonValue.

Local Open Scope Z_scope.
Local Open Scope gpcl_scope.

Module JsonAccess.
Import Json.

Section access.
Context {real : Type} `{!RealOps real}.
Abbreviation value := (Json.value real).
Abbreviation J A := (M value A).

(** ** Constructors and factories *)

(** [value(T v)] for an integral type that [from] converts back to. *)
Definition value_of_integral (from : Z → Z) (v : Z) : outcome value :=
  let? n := Lexical.narrow_cast_as i64 from v in Ok (integer n).
Definition value_of_real (r : real) : value := real_ r.
Definition value_of_bool (b : bool) : value := boolean b.
Definition value_of_string (s : str) : value := string_ s.
(** A character array is read up to its first NUL. *)
Fixpoint c_string (s : str) : option str :=
  match s with
  | [] => None
  | c :: s => if code c =? 0 then Some [] else cons c <$> c_string s
  end.
Definition value_of_literal (s : str) : outcome value :=
  match c_string s with Some t => Ok (string_ t) | None => Undef end.
(** The elements of an initializer list, and of a range, are copied. *)
Definition value_of_array (il : list value) : value := array (copy_array il).
Definition map_of_list (il : list (str * value)) : list (str * value) :=
  foldl (λ o kv, map_insert kv.1 (clone kv.2) o) [] il.
Definition value_of_object (il : list (str * value)) : value := object (map_of_list il).

(** ** Assignment *)

Definition assign_null : J unit := put null_.
Definition assign_integer (n : Z) : J unit := put (integer n).
Definition assign_bool (b : bool) : J unit := put (boolean b).
(** [v = r] for a floating point number: whatever converts to [real_type] also converts to
    [integer_type], so the overload for numbers that do not is never chosen, and
    [operator=(integer_type)] takes the number, truncated. *)
Definition assign_real (trunc : real → Z) (r : real) : J unit := assign_integer (trunc r).
Definition assign_string (s : str) : J unit := put (string_ s).
Definition assign_literal (s : str) : J unit := match c_string s
    with Some t => put (string_ t) | None => undef end.
Definition assign_array (a : list value) : J unit := put (array a).
Definition assign_object (o : list (str * value)) : J unit := put (object o).
(** [operator=(const value &)]: a value is not assigned to itself. *)
Definition assign_copy (self : bool) (other : value) : J unit :=
    if self then ret tt else put (clone other).
(** [operator=(value &&)]: what the other value then holds is not said. *)
Definition assign_move (other : value) : J unit := put other.

(** ** get_if and get *)

Definition get_if_array : J (option (list value)) :=
  modify unshare ;;; gets (λ v, match v with array a => Some a | _ => None end).
Definition get_if_object : J (option (list (str * value))) :=
  modify unshare ;;; gets (λ v, match v with object o => Some o | _ => None end).
Definition get_if_integer : J (option Z) :=
  modify unshare ;;; gets (λ v, match v with integer i => Some i | _ => None end).
Definition get_integer : J Z :=
  let! p := get_if_integer in
  match p with Some i => ret i | None => throw (json_error type_mismatch) end.

(** ** Iterators *)

Inductive iterator : Type := ArrayIt (i : option nat) | ObjectIt (i : nat).
#[export] Instance iterator_eq_dec : EqDecision iterator.
Proof. solve_decision. Defined.

(** The default iterator is a value-initialized array iterator. *)
Definition default_iterator : iterator := ArrayIt None.

Definition begin : J iterator :=
  let! p := get_if_array in
  match p with
  | Some _ => ret (ArrayIt (Some O))
  | None => let! q := get_if_object in ret (match q with Some _ => ObjectIt O |
    None => default_iterator end)
  end.
Definition end_ : J iterator :=
  let! p := get_if_array in
  match p with
  | Some a => ret (ArrayIt (Some (length a)))
  | None => let! q := get_if_object in ret (match q with Some o => ObjectIt (length o) |
    None => default_iterator end)
  end.

(** [operator*] and [pair]; [key] and [value] are the parts of [pair]. *)
Definition deref (it : iterator) : J value :=
  match it with
  | ArrayIt (Some i) => λ v, match v with array a => match a !! i
    with Some x => (Ok x, v) | None => (Undef, v) end | _ => (Undef, v) end
  | ArrayIt None => undef
  | ObjectIt _ => throw (json_error operation_not_supported)
  end.
Definition pair_ (it : iterator) : J (str * value) :=
  match it with
  | ObjectIt i => λ v, match v with object o => match o !! i
    with Some x => (Ok x, v) | None => (Undef, v) end | _ => (Undef, v) end
  | ArrayIt _ => throw (json_error operation_not_supported)
  end.
Definition key (it : iterator) : J str := let! p := pair_ it in ret p.1.
Definition value_ (it : iterator) : J value := let! p := pair_ it in ret p.2.

(** [++] and [--]: from [begin] to [end] and back. *)
Definition extent (v : value) : nat := match v
    with array a => length a | object o => length o | _ => O end.
Definition step (f : nat → option nat) (it : iterator) : J iterator := λ v,
  match it with
  | ArrayIt None => (Undef, v)
  | ArrayIt (Some i) => match f i
    with Some j => if decide (j ≤ extent v)%nat then (Ok (ArrayIt (Some j)), v) else (Undef,
    v) | None => (Undef, v) end
  | ObjectIt i => match f i with Some j => if decide (j ≤ extent v)%nat then (Ok (ObjectIt j),
    v) else (Undef, v) | None => (Undef, v) end
  end.
Definition increment : iterator → J iterator := step (λ i, Some (S i)).
Definition decrement : iterator → J iterator := step (λ i, match i with O => None | S i => Some i end).
(** [it++] and [it--]: the old iterator and the new one. *)
Definition post_increment (it : iterator) : J (iterator * iterator) := let! it' := increment it
    in ret (it, it').
Definition post_decrement (it : iterator) : J (iterator * iterator) := let! it' := decrement it
    in ret (it, it').
(** [==] of the variants: the alternatives, then the iterators. *)
Definition equal (x y : iterator) : bool := bool_decide (x = y).

(** [insert(pair)]: where the entry is, and whether it is new. *)
Fixpoint map_position (k : str) (o : list (str * value)) : nat :=
  match o with
  | [] => O
  | kv :: o => if bool_decide (kv.1 = k) then O else S (map_position k o)
  end.
Definition insert_at (k : str) (x : value) : J (iterator * bool) :=
  let! b := insert k x in
  gets (λ v, (ObjectIt (match v with object o => map_position k o | _ => O end), b)).

(** ** Loops over a value

    [for (auto it = v.begin(); it != v.end(); ++it)], with the elements it visits. *)
Fixpoint walk {A} (fuel : nat) (visit : iterator → J A) (it : iterator) : J (list A) :=
  match fuel with
  | O => nofuel
  | S fuel =>
      let! e := end_ in
      if equal it e then ret []
      else
        let! x := visit it in
        let! it' := increment it in
        let! l := walk fuel visit it' in
        ret (x :: l)
  end.
Definition iterate {A} (fuel : nat) (visit : iterator → J A) : J (list A) := let! it := begin
    in walk fuel visit it.

(** ** Lemmas *)

Lemma get_if_array_run (v : value) :
    get_if_array v = (Ok (match unshare v with array a => Some a | _ => None end), unshare v).
Proof. done. Qed.
Lemma unshare_idem (v : value) : unshare (unshare v) = unshare v.
Proof. by destruct v. Qed.
Lemma begin_array (v : value) a : unshare v = array a → begin v = (Ok (ArrayIt (Some O)), array a) ∧
    end_ v = (Ok (ArrayIt (Some (length a))), array a).
Proof. intros H. unfold begin, end_. by rewrite !(bind_ok _ _ _ _ _ (get_if_array_run v)), H. Qed.
Lemma begin_object (v : value) o : unshare v = object o → begin v = (Ok (ObjectIt O), object o) ∧
    end_ v = (Ok (ObjectIt (length o)), object o).
Proof. intros H. unfold begin, end_. by rewrite !(bind_ok _ _ _ _ _ (get_if_array_run v)), H. Qed.

(** The loop from the [i]th element on. *)
Lemma walk_list {A B} (mk : nat → iterator) (wrap : list B → value) (visit : iterator →
    J A) (f : B → A) (l : list B) fuel i :
  (∀ j, end_ (wrap l) = (Ok (mk (length l)), wrap l) ∧
    equal (mk j) (mk (length l)) = bool_decide (j = length l)) →
  (∀ j x, l !! j = Some x → visit (mk j) (wrap l) = (Ok (f x), wrap l) ∧
    increment (mk j) (wrap l) = (Ok (mk (S j)), wrap l)) →
  (i ≤ length l)%nat → (length l - i < fuel)%nat →
  walk fuel visit (mk i) (wrap l) = (Ok (f <$> drop i l), wrap l).
Proof.
  intros Hend Hvis. revert i. induction fuel as [|fuel IH]; intros i Hi Hf; [lia|]. cbn [walk].
  destruct (Hend i) as [He Heq]. rewrite (bind_ok _ _ _ _ _ He), Heq. case_bool_decide as Hil.
  - subst i. by rewrite drop_all.
  - destruct (lookup_lt_is_Some_2 l i) as [x Hx]; [lia|]. destruct (Hvis i x Hx) as [Hv Hinc].
    rewrite (bind_ok _ _ _ _ _ Hv), (bind_ok _ _ _ _ _ Hinc).
    rewrite (bind_ok _ _ _ _ _ (IH (S i) ltac:(lia) ltac:(lia))).
    by rewrite (drop_S l x i Hx).
Qed.
Lemma iterate_array fuel (v : value) a :
  unshare v = array a → (length a < fuel)%nat → iterate fuel deref v = (Ok a, array a).
Proof.
  intros Hu Hf. unfold iterate. rewrite (bind_ok _ _ _ _ _ (proj1 (begin_array v a Hu))).
  rewrite (walk_list (λ i, ArrayIt (Some i)) array deref id a fuel 0);
    [by rewrite list_fmap_id| | |lia|lia].
  - intros j. split; [by apply (begin_array (array a) a)|]. unfold equal. apply bool_decide_ext.
    split; [by intros [=]|congruence].
  - intros j x Hx. split; [cbn; by rewrite Hx|]. unfold increment, step. cbn [extent].
    rewrite decide_True; [done|].
    apply lookup_lt_Some in Hx. lia.
Qed.
Lemma iterate_object fuel (v : value) o :
  unshare v = object o → (length o < fuel)%nat → iterate fuel pair_ v = (Ok o, object o).
Proof.
  intros Hu Hf. unfold iterate. rewrite (bind_ok _ _ _ _ _ (proj1 (begin_object v o Hu))).
  rewrite (walk_list ObjectIt object pair_ id o fuel 0); [by rewrite list_fmap_id| | |lia|lia].
  - intros j. split; [by apply (begin_object (object o) o)|]. unfold equal. apply bool_decide_ext.
    split; [by intros [=]|congruence].
  - intros j x Hx. split; [cbn; by rewrite Hx|]. unfold increment, step. cbn [extent].
    rewrite decide_True; [done|].
    apply lookup_lt_Some in Hx. lia.
Qed.

(** A loop from [begin()] to [end()] ends and visits every element of an array, and every
    entry of an object, once and in order, the keys of an object increasing; of any other
    value it visits nothing.  It changes nothing but that shared content becomes the
    value's own copy. *)
Theorem json_iteration fuel (v : value) :
  wf v → (extent (unshare v) < fuel)%nat →
  match v with
  | array a | shared_array a => ∃ a', iterate fuel deref v = (Ok a', array a') ∧ norm <$> a' = norm <$> a
  | object o | shared_object o =>
      ∃ o', iterate fuel pair_ v = (Ok o', object o') ∧ sorted_map o' ∧ o'.*1 = o.*1 ∧
        norm <$> o'.*2 = norm <$> o.*2
  | _ => iterate fuel deref v = (Ok [], unshare v)
  end.
Proof.
  intros Hwf Hf. pose proof (wf_unshare v Hwf) as Hwu.
  destruct v as [| | | | | |o|o|a|a]; cbn [unshare extent] in *; try by (destruct fuel; [lia|]).
  - exists o. split; [by apply iterate_object|]. split; [|done]. by apply wf_object_inv.
  - exists (copy_object o). split; [by apply iterate_object|]. split; [by apply wf_object_inv|].
    unfold copy_object. rewrite <- !list_fmap_compose. split; [by apply list_fmap_ext|].
    apply list_fmap_ext. intros ? [k x] _. apply norm_clone.
  - exists a. split; [by apply iterate_array|done].
  - exists (copy_array a). split; [by apply iterate_array|]. apply norm_copy_array.
Qed.

(** An object made of a list of entries holds, for each key, the first entry of the list. *)
Lemma map_of_list_acc (il : list (str * value)) acc k :
  sorted_map acc →
  sorted_map (foldl (λ o kv, map_insert kv.1 (clone kv.2) o) acc il) ∧
  map_find k (foldl (λ o kv, map_insert kv.1 (clone kv.2) o) acc il) =
    match map_find k acc with Some x => Some x | None => clone <$> map_find k il end.
Proof.
  revert acc. induction il as [|kv il IH]; intros acc Hs; cbn; [by destruct (map_find k acc)|].
  destruct (IH (map_insert kv.1 (clone kv.2) acc)) as [Hs' Hf]; [by apply map_insert_sorted|].
  split; [done|].
  rewrite Hf. case_bool_decide as Hk.
  - subst k. rewrite map_find_insert_same by done. by destruct (map_find kv.1 acc).
  - by rewrite map_find_insert_other.
Qed.
Lemma json_object_of_list il k :
  match value_of_object il with object o => sorted_map o ∧
    map_find k o = clone <$> map_find k il | _ => False end.
Proof. apply (map_of_list_acc il [] k). constructor. Qed.

(** A number of any signed type of at most 64 bits is stored as it is; one of an unsigned
    type of 64 bits that does not fit passes the check and becomes negative. *)
Lemma value_of_signed w v : 0 < w ≤ 64 → - 2 ^ (w - 1) ≤ v < 2 ^ (w - 1) →
    value_of_integral (sint w) v = Ok (integer v).
Proof.
  intros Hw Hv. unfold value_of_integral, Lexical.narrow_cast_as, i64.
  assert (2 ^ (w - 1) ≤ 2 ^ 63) by (apply Z.pow_le_mono_r; lia).
  rewrite (sint_small 64) by lia. rewrite sint_small by lia. by rewrite Z.eqb_refl.
Qed.
Lemma value_of_unsigned_wraps v : 2 ^ 63 ≤ v < 2 ^ 64 →
    value_of_integral u64 v = Ok (integer (v - 2 ^ 64)).
Proof.
  intros Hv. unfold value_of_integral, Lexical.narrow_cast_as.
  assert (Hi : i64 v = v - 2 ^ 64).
  { unfold i64, sint. replace (v + 2 ^ (64 - 1)) with (v - 2 ^ 63 + 1 * 2 ^ 64) by lia.
      rewrite Z.mod_add by lia. rewrite Z.mod_small by lia. lia. }
  rewrite Hi. assert (Hu : u64 (v - 2 ^ 64) = v).
  { unfold u64, wrap. replace (v - 2 ^ 64) with (v + (-1) * 2 ^ 64) by lia.
      rewrite Z.mod_add by lia. apply Z.mod_small. lia. }
  rewrite Hu, Z.eqb_refl. done.
Qed.

(** A value that is assigned a floating point number does not hold one. *)
Lemma json_assign_real_truncates trunc r (v : value) :
  is_integer (assign_real trunc r v).2 = true ∧ is_float (assign_real trunc r v).2 = false ∧
    is_float (value_of_real r) = true.
Proof. done. Qed.

(** Moving an iterator forward and back gives the same iterator. *)
Lemma json_iterator_round_trip (v : value) it it' :
  increment it v = (Ok it', v) → decrement it' v = (Ok it, v).
Proof.
  unfold increment, decrement, step. intros H. destruct it as [[i|]|i]; try discriminate;
    destruct (decide _) as [Hle|]; try discriminate;
    injection H as <-; by rewrite decide_True by lia.
Qed.

End access.

Import Json.Tenths.
Lemma json_iteration_witness :
  ∃ o', iterate 9 pair_ Json.doc = (Ok o', object o') ∧ sorted_map o' ∧
    o'.*1 = [lit "a"; lit "b"; lit "c"; lit "d"] ∧
    norm <$> o'.*2 = [array [integer 1; string_ (lit "x")]; object []; real_ 25; boolean true].
Proof. apply (json_iteration 9 Json.doc Json.doc_wf). cbn. lia. Defined.

End JsonAccess.
