(* ===== verification/JsonParser.v ===== *)
(** * JSON parser and value builder (json.hpp: basic_json::parser, value_builder)

    The parser is a push parser: [put] feeds characters to a four-state machine
    which calls a visitor with events; the state of the computation is the pair
    of the parser's [state_] and the visitor's own state.  [value_builder] is the
    visitor that keeps a stack of contexts ([stack_.back()] is the head of the
    list).  [parse] runs the two together.

    The inner [do ... while (!consumed)] loop has fuel; [put_fuel] shows two
    rounds are enough for every visitor that leaves on an error event, and
    [parser_loops_on_ignored_error] that no fuel is enough for one that does
    not. *)

From Stdlib Require Import Ascii.
From S2P Require Import Prelude.
From S2P Require Import LexicalCast.
From S2P Require Import JsonValue.
Import Json.

Local Open Scope Z_scope.
Local Open Scope gpcl_scope.

(** The double quote, code 34. *)
Definition dquote : ascii := Ascii false true false false false true false false.

Module Parser.
Import Ctype.

Section parser.
Context {real : Type} `{!RealOps real}.
Abbreviation value := (value real).

Inductive event : Type :=
| error_event
| null_event
| true_event
| false_event
| integer_event (value : Z)
| float_event (value : real)
| string_event (value : str)
| start_array_event
| end_array_event
| start_object_event
| object_key_event (value : str)
| end_object_event.

Inductive parsing_state : Type :=
| indeterminate_state
| parsing_literal (chars : str)
| parsing_number (chars : str)
| parsing_string (chars : str) (quote_closed : bool).

Section put.
Context {B : Type} (visitor : event → M B unit).

Abbreviation pstate := (parsing_state * B)%type.

Definition visit_event (e : event) : M pstate unit :=
  zoom snd (λ b s, (s.1, b)) (visitor e).
Definition set_state (st : parsing_state) : M pstate unit :=
  modify (λ s, (st, s.2)).

(** A call of a [<cctype>] predicate on a plain [char]. *)
Definition ctype (p : ascii → bool) (ch : ascii) : M pstate bool :=
  if valid ch then ret (p ch) else undef.

(** [json_cast<T>(chars)] of a string is [lexical_cast]. *)
Definition cast_integer (chars : str) : M pstate Z :=
  match Lexical.lexical_cast_int 64 chars with
  | Ok i => ret i
  | _ => throw bad_lexical_cast
  end.
Definition cast_real (chars : str) : M pstate real :=
  match real_parse chars with
  | Some r => ret r
  | None => throw bad_lexical_cast
  end.

(** [put(indeterminate_state, ch, visitor)]; the result is [consumed]. *)
Definition put_indeterminate (ch : ascii) : M pstate bool :=
  let! space := ctype isspace ch in
  if space : bool then ret true else
  let! alpha := ctype isalpha ch in
  if alpha : bool then set_state (parsing_literal [ch]) ;;; ret true else
  let! digit := ctype isdigit ch in
  if digit || bool_decide (ch = "+"%char) || bool_decide (ch = "+"%char) then
    set_state (parsing_number [ch]) ;;; ret true else
  if bool_decide (ch = dquote) then set_state (parsing_string [] false) ;;; ret true else
  if bool_decide (ch = "["%char) then visit_event start_array_event ;;; ret true else
  if bool_decide (ch = ","%char) then ret true else
  if bool_decide (ch = "]"%char) then visit_event end_array_event ;;; ret true else
  if bool_decide (ch = "{"%char) then visit_event start_object_event ;;; ret true else
  if bool_decide (ch = "}"%char) then visit_event end_object_event ;;; ret true else
  visit_event error_event ;;; ret false.

(** [put(parsing_literal &, ch, visitor)]. *)
Definition put_literal (chars : str) (ch : ascii) : M pstate bool :=
  let! alnum := ctype isalnum ch in
  if alnum : bool then set_state (parsing_literal (chars ++ [ch])) ;;; ret true else
  (if bool_decide (chars = lit "null") then visit_event null_event
   else if bool_decide (chars = lit "true") then visit_event true_event
   else if bool_decide (chars = lit "false") then visit_event false_event
   else visit_event error_event) ;;;
  set_state indeterminate_state ;;;
  ret false.

(** [put(parsing_number &, ch, visitor)]. *)
Definition put_number (chars : str) (ch : ascii) : M pstate bool :=
  let! digit := ctype isdigit ch in
  if digit || bool_decide (ch = "."%char) then
    set_state (parsing_number (chars ++ [ch])) ;;; ret true else
  (if bool_decide ("."%char ∈ chars) then
     let! r := cast_real chars in visit_event (float_event r)
   else
     let! i := cast_integer chars in visit_event (integer_event i)) ;;;
  set_state indeterminate_state ;;;
  ret false.

(** [put(parsing_string &, ch, visitor)].  Moving [s.chars] into the event
    leaves it empty while the visitor runs. *)
Definition put_string (chars : str) (quote_closed : bool) (ch : ascii) : M pstate bool :=
  if negb quote_closed then
    if negb (bool_decide (ch = dquote)) then
      set_state (parsing_string (chars ++ [ch]) false) ;;; ret true
    else set_state (parsing_string chars true) ;;; ret true
  else
    let! space := ctype isspace ch in
    if space : bool then ret true else
    set_state (parsing_string [] true) ;;;
    if bool_decide (ch = ":"%char) then
      visit_event (object_key_event chars) ;;;
      set_state indeterminate_state ;;; ret true
    else
      visit_event (string_event chars) ;;;
      set_state indeterminate_state ;;; ret false.

Definition put_state (ch : ascii) : M pstate bool :=
  let! s := get in
  match s.1 with
  | indeterminate_state => put_indeterminate ch
  | parsing_literal chars => put_literal chars ch
  | parsing_number chars => put_number chars ch
  | parsing_string chars closed => put_string chars closed ch
  end.

(** [do { consumed = ... } while (!consumed)]. *)
Fixpoint put_char (fuel : nat) (ch : ascii) : M pstate unit :=
  match fuel with
  | O => nofuel
  | S fuel =>
      let! consumed := put_state ch in
      if consumed : bool then ret tt else put_char fuel ch
  end.

(** [put(first, last, visitor)]. *)
Fixpoint put_range (fuel : nat) (chars : str) : M pstate unit :=
  match chars with
  | [] => ret tt
  | ch :: chars => put_char fuel ch ;;; put_range fuel chars
  end.

End put.

(** ** value_builder *)

Inductive context : Type :=
| value_context (v : value)
| array_context (a : list value)
| object_context (o : list (str * value)) (key : str).

Abbreviation stack := (list context).

Definition value_builder_init : stack := [value_context null_].

(** [handle_value(ctx, v)].  The object overload moves the key out. *)
Definition handle_value_ctx (v : value) : M context unit :=
  let! ctx := get in
  match ctx with
  | value_context _ => put (value_context v)
  | array_context a => put (array_context (a ++ [v]))
  | object_context o key =>
      gpcl_assert (negb (bool_decide (key = []))) ;;;
      put (object_context (map_insert key v o) [])
  end.

(** [handle_value(v)]: the visitor lambda captures a copy of [v]. *)
Definition handle_value (v : value) : M stack unit :=
  let! s := get in
  match s with
  | ctx :: s' =>
      let '(r, ctx') := handle_value_ctx (clone v) ctx in
      put (ctx' :: s') ;;; (λ s, (r, s))
  | [] => undef
  end.

(** [value_builder::operator()]. *)
Definition handle_event (e : event) : M stack unit :=
  match e with
  | null_event => handle_value null_
  | true_event => handle_value (boolean true)
  | false_event => handle_value (boolean false)
  | integer_event i => handle_value (integer i)
  | float_event r => handle_value (real_ r)
  | string_event s => handle_value (string_ s)
  | start_array_event => modify (λ s, array_context [] :: s)
  | end_array_event =>
      let! s := get in
      match s with
      | array_context a :: s' => put s' ;;; handle_value (array a)
      | _ :: _ => throw bad_variant_access
      | [] => undef
      end
  | start_object_event => modify (λ s, object_context [] [] :: s)
  | object_key_event k =>
      let! s := get in
      match s with
      | object_context o _ :: s' => put (object_context o k :: s')
      | _ :: _ => throw bad_variant_access
      | [] => undef
      end
  | end_object_event =>
      let! s := get in
      match s with
      | object_context o _ :: s' => put s' ;;; handle_value (object o)
      | _ :: _ => throw bad_variant_access
      | [] => undef
      end
  | error_event => throw (json_error failed_to_parse)
  end.

Definition get_value : M stack value :=
  let! s := get in
  match s with
  | [value_context v] => ret (clone v)
  | [_] => throw bad_variant_access
  | _ => throw (json_error failed_to_parse)
  end.

(** [parse(first, last)], with the fuel of the inner loop. *)
Definition parse (s : str) : outcome value :=
  ((put_range handle_event 2 s ;;; zoom snd (λ b s, (s.1, b)) get_value)
    (indeterminate_state, value_builder_init)).1.

(** ** What the parser needs of a visitor *)

Definition event_ok (e : event) : Prop :=
  match e with integer_event i => - 2 ^ 63 ≤ i < 2 ^ 63 | _ => True end.

(** A visitor keeps its invariant on every event (also when it throws) and does
    not return from an error event. *)
Class VisitorOk {B} (visitor : event → M B unit) (Inv : B → Prop) : Prop := {
  visit_safe e b : event_ok e → Inv b → safe Inv (λ _, Inv) (visitor e) b;
  visit_error b : Inv b → safe Inv (λ _ _, False) (visitor error_event) b;
}.

Section safety.
Context {B} (visitor : event → M B unit) (Inv : B → Prop) `{!VisitorOk visitor Inv}.
Abbreviation PInv := (λ s : parsing_state * B, Inv s.2).

Lemma visit_event_safe e s :
  event_ok e → PInv s → safe PInv (λ _, PInv) (visit_event visitor e) s.
Proof. intros. apply safe_zoom. by apply (visit_safe (visitor := visitor)). Qed.

Lemma visit_error_safe (Q : bool → parsing_state * B → Prop) s :
  PInv s → safe PInv Q (visit_event visitor error_event ;;; ret false) s.
Proof.
  intros Hs. apply safe_bind, safe_zoom. eapply safe_mono; [by apply visit_error|done].
Qed.

Lemma visit_then_safe e (b : bool) (Q : bool → parsing_state * B → Prop) s :
  event_ok e → PInv s → (∀ s', PInv s' → s'.1 = s.1 → Q b s') →
  safe PInv Q (visit_event visitor e ;;; ret b) s.
Proof.
  intros He Hs HQ. apply safe_bind, safe_zoom.
  eapply safe_mono; [by apply visit_safe|]. intros [] b' Hb. by apply HQ.
Qed.

(** An event, then back to the indeterminate state. *)
Lemma visit_reset_safe e (b : bool) (Q : bool → parsing_state * B → Prop) s :
  event_ok e → PInv s → (∀ s', PInv s' → s'.1 = indeterminate_state → Q b s') →
  safe PInv Q (visit_event visitor e ;;; set_state indeterminate_state ;;; ret b) s.
Proof.
  intros He Hs HQ. apply safe_bind, safe_zoom.
  eapply safe_mono; [by apply visit_safe|]. intros [] b' Hb. by apply HQ.
Qed.

Lemma safe_ctype {A} P (Q : A → parsing_state * B → Prop) p ch k s :
  valid ch = true → safe P Q (k (p ch)) s → safe P Q (bind (ctype p ch) k) s.
Proof. intros Hv H. unfold ctype. by rewrite Hv. Qed.

Ltac put_step :=
  match goal with
  | |- safe _ _ (bind (ctype _ _) _) _ => apply safe_ctype; [done|]; cbv beta
  | |- safe _ _ (if ?b then _ else _) _ => destruct b eqn:?; cbv iota
  | |- safe _ _ (bind (set_state _) _) _ => apply safe_bind; cbn
  | |- safe _ _ (ret _) _ => split; [done|try done]
  | |- safe _ _ (bind (visit_event _ error_event) (λ _, ret false)) _ => by apply visit_error_safe
  | |- safe _ _ (bind (visit_event _ _) (λ _, ret _)) _ => apply visit_then_safe; [done..|]
  | |- safe _ _ (bind (visit_event _ _) _) _ => apply visit_reset_safe; [done..|]
  end.

(** One round of the loop: the character is consumed, or the state has become
    [indeterminate_state], which consumes it in the next round. *)
Abbreviation Round := (λ (strict consumed : bool) (s : parsing_state * B),
  PInv s ∧ (consumed = false → strict = false ∧ s.1 = indeterminate_state)).

Lemma put_indeterminate_safe ch s :
  valid ch = true → PInv s → safe PInv (Round true) (put_indeterminate visitor ch) s.
Proof.
  intros Hv Hs. unfold put_indeterminate. repeat put_step; by intros.
Qed.

Lemma reset_safe (m : M (parsing_state * B) unit) s :
  safe PInv (λ _, PInv) m s →
  safe PInv (Round false) (m ;;; set_state indeterminate_state ;;; ret false) s.
Proof.
  intros Hm. apply safe_bind. eapply safe_mono; [done|]. intros [] s' Hs'. by split.
Qed.

Lemma put_literal_safe chars ch s :
  valid ch = true → PInv s → safe PInv (Round false) (put_literal visitor chars ch) s.
Proof.
  intros Hv Hs. unfold put_literal. put_step; put_step; [by repeat put_step|].
  apply reset_safe. repeat case_bool_decide; by apply visit_event_safe.
Qed.

Lemma put_number_safe chars ch s :
  valid ch = true → PInv s → safe PInv (Round false) (put_number visitor chars ch) s.
Proof.
  intros Hv Hs. unfold put_number. put_step; put_step; [by repeat put_step|].
  apply reset_safe. put_step; apply safe_bind.
  - unfold cast_real. destruct (real_parse chars); [by apply visit_event_safe|done].
  - unfold cast_integer. destruct (Lexical.lexical_cast_int 64 chars) eqn:Hc; try done.
    apply visit_event_safe; [|done]. by apply Lexical.lexical_cast_int_range in Hc.
Qed.

Lemma put_string_safe chars closed ch s :
  valid ch = true → PInv s → safe PInv (Round false) (put_string visitor chars closed ch) s.
Proof.
  intros Hv Hs. unfold put_string. repeat put_step; by intros.
Qed.

Lemma put_char_safe ch s :
  valid ch = true → PInv s → safe PInv (λ _, PInv) (put_char visitor 2 ch) s.
Proof.
  intros Hv Hs.
  assert (Hlast : ∀ s, PInv s → s.1 = indeterminate_state →
    safe PInv (λ _, PInv) (put_char visitor 1 ch) s).
  { intros [st b] Hb Hst. simpl in Hst. subst st. cbn [put_char]. apply safe_bind.
    eapply safe_mono; [by apply put_indeterminate_safe|].
    intros [] s' [Hs' Hc]; [done|]. by destruct (Hc eq_refl). }
  change (put_char visitor 2 ch) with
    (let! consumed := put_state visitor ch in
     if consumed : bool then ret tt else put_char visitor 1 ch).
  apply safe_bind. apply (safe_mono _ (Round false)).
  - destruct s as [st b]. destruct st.
    + eapply safe_mono; [by apply put_indeterminate_safe|].
      intros c s' [Hs' Hc]. split; [done|]. intros ->. by destruct (Hc eq_refl).
    + by apply put_literal_safe.
    + by apply put_number_safe.
    + by apply put_string_safe.
  - intros [] s' [Hs' Hc]; [done|]. apply Hlast; [done|]. by apply Hc.
Qed.

Lemma put_range_safe chars s :
  Forall (λ ch, valid ch = true) chars → PInv s →
  safe PInv (λ _, PInv) (put_range visitor 2 chars) s.
Proof.
  intros Hv. revert s. induction Hv as [|ch chars Hch _ IH]; intros s Hs; [done|].
  cbn [put_range]. apply safe_bind. eapply safe_mono; [by apply put_char_safe|].
  intros []. apply IH.
Qed.


End safety.

(** ** The builder is such a visitor *)

(** The stack: array and object contexts on top of one value context, their
    contents well formed. *)
Inductive builder_ok : stack → Prop :=
| builder_ok_value v : wf v → builder_ok [value_context v]
| builder_ok_array a s : Forall wf a → builder_ok s → builder_ok (array_context a :: s)
| builder_ok_object o k s : wf_entries o → builder_ok s → builder_ok (object_context o k :: s).

Lemma handle_value_safe v s :
  wf v → builder_ok s → safe builder_ok (λ _, builder_ok) (handle_value v) s.
Proof.
  intros Hv%wf_clone Hs. unfold safe, handle_value, bind, get.
  destruct Hs as [w Hw|a s Ha Hs|o k s Ho Hs]; simpl.
  - by constructor.
  - constructor; [by apply Forall_app_2; [|apply Forall_singleton]|done].
  - unfold handle_value_ctx, gpcl_assert, bind, get. case_bool_decide; simpl; [done|].
    constructor; [by apply wf_entries_insert|done].
Qed.

#[export] Instance value_builder_visitor : VisitorOk handle_event builder_ok.
Proof.
  split; [|intros s Hs; exact Hs]. intros e s He Hs.
  destruct e; simpl in *; try (apply handle_value_safe; [by constructor|done]); try done.
  - by constructor.
  - destruct Hs; [by constructor| |by constructor]. apply handle_value_safe; [by constructor|done].
  - constructor; [|done]. split; [constructor|by constructor].
  - destruct Hs; [by constructor|by constructor|]. by constructor.
  - destruct Hs; [by constructor|by constructor|]. apply handle_value_safe; [by apply wf_of_entries|done].
Qed.

Lemma get_value_safe s : builder_ok s → safe builder_ok (λ v _, wf v) get_value s.
Proof.
  destruct 1 as [v Hv|a s Ha Hs|o k s Ho Hs]; [by apply wf_clone|..]; inversion Hs;
    subst; by constructor.
Qed.

(** ** Properties *)

(** C38: for every visitor that keeps its invariant and does not return from an
    error event, and every input whose characters are valid arguments of the
    [<cctype>] functions, two rounds per character are enough, the parser does not run
    into undefined behaviour, and the visitor's invariant holds afterwards. *)
Theorem json_put_terminates {B} (visitor : event → M B unit) Inv
    `{!VisitorOk visitor Inv} chars st b :
  Forall (λ ch, valid ch = true) chars → Inv b →
  safe (λ s, Inv s.2) (λ _ s, Inv s.2) (put_range visitor 2 chars) (st, b).
Proof. intros. by apply put_range_safe. Qed.

(** C40: [parse] of a text of valid [<cctype>] arguments returns a well formed value, throws, or aborts on
    a failed assertion; it always terminates. *)
Theorem json_parse_total s :
  Forall (λ ch, valid ch = true) s →
  match parse s with
  | Ok v => wf v
  | Throw _ | Abort => True
  | Undef | NoFuel => False
  end.
Proof.
  intros Hs.
  assert (Hb : safe (λ s, builder_ok s.2) (λ v _, wf v)
    (put_range handle_event 2 s ;;; zoom snd (λ b s, (s.1, b)) get_value)
    (indeterminate_state, value_builder_init)).
  { apply safe_bind. eapply safe_mono; [apply (put_range_safe handle_event builder_ok); [done|by repeat constructor]|].
    intros [] [st b] Hb. apply safe_zoom. by apply get_value_safe. }
  unfold parse, safe in *. by destruct (bind _ _ _) as [[] ?].
Qed.

(** A visitor that returns from error events makes [put] loop for ever on a
    character that starts no token: no number of rounds is enough. *)
Theorem json_put_loops_on_ignored_error {B} (visitor : event → M B unit) fuel b :
  (∀ b, ∃ b', visitor error_event b = (Ok tt, b')) →
  (put_char visitor fuel "-"%char (indeterminate_state, b)).1 = NoFuel.
Proof.
  intros Herr. revert b. induction fuel as [|fuel IH]; intros b; [done|].
  destruct (Herr b) as [b' Hb'].
  change (put_char visitor (S fuel) "-"%char (indeterminate_state, b)) with
    (bind (put_indeterminate visitor "-"%char)
       (λ c : bool, if c then ret tt else put_char visitor fuel "-"%char)
       (indeterminate_state, b)).
  rewrite (bind_ok _ _ _ false (indeterminate_state, b')); [apply IH|].
  change (put_indeterminate visitor "-"%char (indeterminate_state, b)) with
    (bind (visit_event visitor error_event) (λ _, ret false) (indeterminate_state, b)).
  unfold visit_event. erewrite bind_ok; [|by apply zoom_eq]. done.
Qed.

(** A value that is not preceded by a non-empty key inside an object aborts
    the process, whatever follows it. *)
Theorem json_parse_missing_key_aborts rest :
  parse (lit "{true," ++ rest) = Abort ∧
  parse (lit "{" ++ [dquote; dquote] ++ lit ":true," ++ rest) = Abort.
Proof. split; reflexivity. Qed.

End parser.

Import Json.Tenths.

Lemma json_put_terminates_witness :
  safe (λ s, builder_ok (real := Z) s.2) (λ _ s, builder_ok s.2)
    (put_range handle_event 2 (lit "[1,{]")) (indeterminate_state, value_builder_init).
Proof.
  apply (json_put_terminates handle_event builder_ok); repeat constructor.
Defined.

Lemma json_parse_total_witness :
  match parse (real := Z) (lit "[1,2.5]") with
  | Ok v => wf v
  | Throw _ | Abort => True
  | Undef | NoFuel => False
  end.
Proof. apply json_parse_total. repeat constructor. Defined.

Lemma json_put_loops_witness :
  (put_char (real := Z) (λ _, ret tt) 1000 "-"%char (indeterminate_state, tt)).1 = NoFuel.
Proof. apply json_put_loops_on_ignored_error. intros b. by exists b. Defined.

End Parser.
