(* ===== verification/JsonSerial.v ===== *)
(** * JSON serializer and the round trip through the parser
      (json.hpp: serializer, serializing_visitor, operator<<; json_iomanip.hpp)

    The serializer writes to a stream that accepts all output; its state is what
    was written and the indentation level.  [print] is what it writes, as a
    function of the value; the round trip is proved on [print]. *)

From Stdlib Require Import Ascii.
From S2P Require Import Prelude.
From S2P Require Import LexicalCast.
From S2P Require Import JsonValue.
From S2P Require Import JsonParser.
Import Json Parser.

Local Open Scope Z_scope.
Local Open Scope gpcl_scope.

Module Serial.
Import Ctype.

Inductive json_print_style : Type := json_print_compressed | json_print_pretty.

Record serializer : Type := Serializer { os : str; indent : Z }.

Definition backslash : ascii := "\"%char.
Definition newline_char : ascii := chr 10.

(** [std::quoted]. *)
Definition quoted (s : str) : str :=
  dquote ::
  (s ≫= λ c, if bool_decide (c = dquote) || bool_decide (c = backslash)
             then [backslash; c] else [c]) ++ [dquote].

Section serial.
Context {real : Type} `{!RealOps real} (style : json_print_style).

Abbreviation ser A := (M serializer A).

Definition out (s : str) : ser unit := modify (λ st, Serializer (os st ++ s) (indent st)).
Definition add_indent (d : Z) : ser unit := modify (λ st, Serializer (os st) (indent st + d)).

Definition indent_item : str := lit "    ".

(** [for (int i = 0; i != indent(); ++i) os << indent_item()]. *)
Fixpoint indent_loop (n : nat) : ser unit :=
  match n with O => ret tt | S n => out indent_item ;;; indent_loop n end.

Definition newline : ser unit :=
  match style with
  | json_print_compressed => ret tt
  | json_print_pretty =>
      out [newline_char] ;;; let! n := gets indent in indent_loop (Z.to_nat n)
  end.
Definition space : ser unit :=
  match style with json_print_compressed => ret tt | json_print_pretty => out (lit " ") end.

(** Constructor and destructor of [indent_sentry]. *)
Definition sentry_enter : ser unit :=
  match style with
  | json_print_compressed => ret tt
  | json_print_pretty => add_indent 1 ;;; newline
  end.
Definition sentry_exit : ser unit :=
  match style with
  | json_print_compressed => ret tt
  | json_print_pretty => add_indent (-1) ;;; newline
  end.

(** [serializing_visitor::operator()]. *)
Fixpoint visit (v : value real) : ser unit :=
  let rest_array := fix rest (a : list (value real)) : ser unit :=
    match a with
    | [] => ret tt
    | x :: a => out (lit ",") ;;; newline ;;; visit x ;;; rest a
    end in
  let rest_object := fix rest (o : list (str * value real)) : ser unit :=
    match o with
    | [] => ret tt
    | kv :: o =>
        out (lit ",") ;;; newline ;;;
        out (quoted kv.1 ++ lit ":") ;;; space ;;; visit kv.2 ;;; rest o
    end in
  match v with
  | null_ => out (lit "null")
  | boolean b => out (if b then lit "true" else lit "false")
  | integer i => out (Lexical.print_int i)
  | real_ r => out (real_print r)
  | string_ s | shared_string s => out (quoted s)
  | array a | shared_array a =>
      out (lit "[") ;;;
      match a with
      | [] => ret tt
      | x :: a => sentry_enter ;;; visit x ;;; rest_array a ;;; sentry_exit
      end ;;;
      out (lit "]")
  | object o | shared_object o =>
      out (lit "{") ;;;
      match o with
      | [] => ret tt
      | kv :: o =>
          sentry_enter ;;; out (quoted kv.1 ++ lit ":") ;;; space ;;; visit kv.2 ;;;
          rest_object o ;;; sentry_exit
      end ;;;
      out (lit "}")
  end.

(** [os << v]: what is written. *)
Definition serialize (v : value real) : str := os (visit v (Serializer [] 0)).2.

(** ** The text written *)

Definition nl (n : nat) : str :=
  match style with
  | json_print_compressed => []
  | json_print_pretty => newline_char :: concat (replicate n indent_item)
  end.
Definition sp : str :=
  match style with json_print_compressed => [] | json_print_pretty => lit " " end.

(** Indentation inside an array or object: unchanged in the compressed style. *)
Definition deeper (n : nat) : nat :=
  match style with json_print_compressed => n | json_print_pretty => S n end.

Fixpoint print (n : nat) (v : value real) : str :=
  let elems := fix elems (a : list (value real)) : str :=
    match a with
    | [] => []
    | x :: a => lit "," ++ nl (deeper n) ++ print (deeper n) x ++ elems a
    end in
  let members := fix members (o : list (str * value real)) : str :=
    match o with
    | [] => []
    | kv :: o =>
        lit "," ++ nl (deeper n) ++ quoted kv.1 ++ lit ":" ++ sp ++ print (deeper n) kv.2 ++ members o
    end in
  match v with
  | null_ => lit "null"
  | boolean b => if b then lit "true" else lit "false"
  | integer i => Lexical.print_int i
  | real_ r => real_print r
  | string_ s | shared_string s => quoted s
  | array a | shared_array a =>
      lit "[" ++
      match a with
      | [] => []
      | x :: a => nl (deeper n) ++ print (deeper n) x ++ elems a ++ nl n
      end ++ lit "]"
  | object o | shared_object o =>
      lit "{" ++
      match o with
      | [] => []
      | kv :: o =>
          nl (deeper n) ++ quoted kv.1 ++ lit ":" ++ sp ++ print (deeper n) kv.2 ++ members o ++ nl n
      end ++ lit "}"
  end.

Fixpoint print_elems (n : nat) (a : list (value real)) : str :=
  match a with
  | [] => []
  | x :: a => lit "," ++ nl (deeper n) ++ print (deeper n) x ++ print_elems n a
  end.
Fixpoint print_members (n : nat) (o : list (str * value real)) : str :=
  match o with
  | [] => []
  | kv :: o =>
      lit "," ++ nl (deeper n) ++ quoted kv.1 ++ lit ":" ++ sp ++ print (deeper n) kv.2 ++ print_members n o
  end.

(** A computation that writes [s] and takes the indentation from [n] to [n']. *)
Definition writes (m : ser unit) (n n' : nat) (s : str) : Prop :=
  ∀ o, m (Serializer o (Z.of_nat n)) = (Ok tt, Serializer (o ++ s) (Z.of_nat n')).

Lemma writes_out n s : writes (out s) n n s.
Proof. done. Qed.
Lemma writes_ret n : writes (ret tt) n n [].
Proof. intros o. by rewrite app_nil_r. Qed.
Lemma writes_seq m1 m2 n1 n2 n3 s1 s2 :
  writes m1 n1 n2 s1 → writes m2 n2 n3 s2 → writes (m1 ;;; m2) n1 n3 (s1 ++ s2).
Proof. intros H1 H2 o. by rewrite (bind_ok _ _ _ _ _ (H1 o)), H2, app_assoc. Qed.

Lemma writes_indent n k : writes (indent_loop k) n n (concat (replicate k indent_item)).
Proof.
  induction k as [|k IH]; [apply writes_ret|]. cbn [indent_loop replicate concat].
  eapply writes_seq; [apply writes_out|done].
Qed.
Lemma writes_newline n : writes newline n n (nl n).
Proof.
  unfold newline, nl. destruct style; [apply writes_ret|].
  apply (writes_seq _ _ n n n [newline_char]); [done|]. intros o. rewrite bind_gets.
  cbn [indent]. rewrite Nat2Z.id. apply writes_indent.
Qed.
Lemma writes_space n : writes space n n sp.
Proof. unfold space, sp. destruct style; [apply writes_ret|done]. Qed.

Lemma writes_enter n : writes sentry_enter n (deeper n) (nl (deeper n)).
Proof.
  pose proof (writes_newline (S n)) as Hn. unfold sentry_enter, deeper, newline, nl in *.
  destruct style; [apply writes_ret|].
  intros o. unfold add_indent. rewrite bind_modify. cbn [os indent].
  replace (Z.of_nat n + 1) with (Z.of_nat (S n)) by lia. apply Hn.
Qed.
Lemma writes_exit n : writes sentry_exit (deeper n) n (nl n).
Proof.
  pose proof (writes_newline n) as Hn. unfold sentry_exit, deeper, newline, nl in *.
  destruct style; [apply writes_ret|].
  intros o. unfold add_indent. rewrite bind_modify. cbn [os indent].
  replace (Z.of_nat (S n) + -1) with (Z.of_nat n) by lia. apply Hn.
Qed.

#[local] Hint Resolve writes_out writes_ret writes_newline writes_space writes_enter
  writes_exit : core.

Ltac writes_steps := repeat first [ solve [auto] | eapply writes_seq ].

Abbreviation visit_ok := (λ v, ∀ n, writes (visit v) n n (print n v)).

Lemma visit_array_writes a n : Forall visit_ok a → writes (visit (array a)) n n (print n (array a)).
Proof.
  intros Ha. cbn [visit print]. eapply writes_seq; [auto|]. eapply writes_seq; [|auto].
  destruct Ha as [|x a Hx Ha]; [auto|]. do 2 (eapply writes_seq; [auto|]).
  eapply writes_seq; [|auto]. induction Ha as [|y a Hy _ IH]; [auto|]. writes_steps.
Qed.
Lemma visit_object_writes o n :
  Forall (λ kv, visit_ok kv.2) o → writes (visit (object o)) n n (print n (object o)).
Proof.
  intros Ho. cbn [visit print]. eapply writes_seq; [auto|]. eapply writes_seq; [|auto].
  destruct Ho as [|kv o Hkv Ho]; [auto|]. eapply writes_seq; [auto|].
  rewrite (app_assoc (quoted _)). do 3 (eapply writes_seq; [auto|]).
  eapply writes_seq; [|auto]. induction Ho as [|lw o Hlw _ IH]; [auto|].
  rewrite (app_assoc (quoted _)). writes_steps.
Qed.

Lemma visit_writes v n : writes (visit v) n n (print n v).
Proof.
  revert n. induction v as [| | | | | |o IH|o IH|a IH|a IH] using value_ind'; intros n;
    try apply writes_out; first [by apply visit_object_writes | by apply visit_array_writes].
Qed.

(** Serialising writes exactly [print 0 v] after what the stream held, and
    leaves the indentation as it was. *)
Theorem json_visit_refines_print v o n :
  visit v (Serializer o (Z.of_nat n)) = (Ok tt, Serializer (o ++ print n v) (Z.of_nat n)).
Proof. apply visit_writes. Qed.

Lemma serialize_print v : serialize v = print 0 v.
Proof. unfold serialize. by rewrite (visit_writes v 0). Qed.

Lemma print_array_cons n x a :
  print n (array (x :: a)) =
  lit "[" ++ (nl (deeper n) ++ print (deeper n) x ++ print_elems n a ++ nl n) ++ lit "]".
Proof.
  cbn [print]. do 4 f_equal. f_equal. induction a as [|y a IH]; [done|].
  cbn [print_elems]. by rewrite IH.
Qed.
Lemma print_object_cons n kv o :
  print n (object (kv :: o)) =
  lit "{" ++ (nl (deeper n) ++ quoted kv.1 ++ lit ":" ++ sp ++ print (deeper n) kv.2 ++
    print_members n o ++ nl n) ++ lit "}".
Proof.
  cbn [print]. do 7 f_equal. f_equal. induction o as [|y o IH]; [done|].
  cbn [print_members]. by rewrite IH.
Qed.

(** ** Feeding the parser *)

Abbreviation state := (parsing_state * list (context (real := real)))%type.
Abbreviation I := indeterminate_state.
Abbreviation feed := (put_range (handle_event (real := real)) 2).

(** The text [s] takes the parser from [x] to [y]. *)
Definition feeds (s : str) (x y : state) : Prop :=
  ∀ rest, feed (s ++ rest) x = feed rest y.

Lemma feeds_nil x : feeds [] x x.
Proof. done. Qed.
Lemma feeds_app s1 s2 x y z : feeds s1 x y → feeds s2 y z → feeds (s1 ++ s2) x z.
Proof. intros H1 H2 rest. by rewrite <- app_assoc, H1, H2. Qed.
Lemma feeds_char c x y : put_char handle_event 2 c x = (Ok tt, y) → feeds [c] x y.
Proof. intros H rest. cbn [app put_range]. by rewrite (bind_ok _ _ _ _ _ H). Qed.
Lemma feeds_cons c s x y z : feeds [c] x y → feeds s y z → feeds (c :: s) x z.
Proof. apply (feeds_app [c]). Qed.

Lemma put_char_consumed c (x y : state) :
  put_state handle_event c x = (Ok true, y) → put_char handle_event 2 c x = (Ok tt, y).
Proof. intros H. cbn [put_char]. by rewrite (bind_ok _ _ _ _ _ H). Qed.

(** In the indeterminate state the builder consumes the character or throws. *)
Lemma put_char_indeterminate c b :
  put_char handle_event 2 c (I, b) = put_char (real := real) handle_event 1 c (I, b).
Proof.
  change (put_char (real := real) handle_event ?n c (I, b)) with
    (bind (put_indeterminate handle_event c)
      (λ r : bool, if r then ret tt else put_char handle_event (pred n) c) (I, b)).
  cbn [pred]. unfold bind at 1 2.
  destruct (put_indeterminate handle_event c (I, b)) as [[[]| | | |] y] eqn:H; try done.
  exfalso. revert H. unfold put_indeterminate, ctype, bind, ret, undef, visit_event, zoom.
  repeat case_match; intros; simplify_eq/=.
Qed.

(** A character that closes the current token is read again in the
    indeterminate state. *)
Lemma feed_again c rest st b b' :
  put_state handle_event c (st, b) = (Ok false, (I, b')) →
  feed (c :: rest) (st, b) = feed (c :: rest) (I, b').
Proof.
  intros H. assert (Hc : put_char handle_event 2 c (st, b) = put_char handle_event 2 c (I, b')).
  { rewrite put_char_indeterminate.
    change (put_char handle_event 2 c (st, b)) with
      (bind (put_state handle_event c)
        (λ r : bool, if r then ret tt else put_char handle_event 1 c) (st, b)).
    by rewrite (bind_ok _ _ _ _ _ H). }
  cbn [put_range]. unfold bind. by rewrite Hc.
Qed.

(** ** Tokens *)

(** The value a context receives. *)
Definition add (v : value real) (b : list context) : list context :=
  match b with
  | value_context _ :: s => value_context v :: s
  | array_context a :: s => array_context (a ++ [v]) :: s
  | object_context o k :: s => object_context (map_insert k v o) [] :: s
  | [] => []
  end.
Definition accepts (b : list (context (real := real))) : Prop :=
  match b with [] => False | object_context _ [] :: _ => False | _ => True end.

Lemma handle_value_add v b : accepts b → handle_value v b = (Ok tt, add (clone v) b).
Proof.
  destruct b as [|[| |o [|c k]] s]; simpl; try done.
Qed.

Definition spaces (s : str) : Prop := Forall (λ c, isspace c = true) s.
Definition delimiter (c : ascii) : Prop := c = ","%char ∨ c = "]"%char ∨ c = "}"%char.

(** The text [s], followed by white space and a delimiter, is read as a token. *)
Definition ends (s : str) (x y : state) : Prop :=
  ∀ ws d rest, spaces ws → delimiter d →
    feed (s ++ ws ++ d :: rest) x = feed (d :: rest) y.

Lemma isspace_valid c : isspace c = true → valid c = true.
Proof. unfold isspace, valid. pose proof (code_range c). lia. Qed.

Lemma feeds_spaces ws b : spaces ws → feeds ws (I, b) (I, b).
Proof.
  induction 1 as [|c ws Hc _ IH]; [apply feeds_nil|]. eapply feeds_cons; [|exact IH].
  apply feeds_char, put_char_consumed. cbn. unfold put_indeterminate, ctype.
  rewrite isspace_valid by done. by rewrite bind_ret_l, Hc.
Qed.

Lemma feeds_ends s x b : feeds s x (I, b) → ends s x (I, b).
Proof. intros H ws d rest Hws Hd. by rewrite H, (feeds_spaces ws b Hws). Qed.

(** A token that is still open at the end of its text is closed by white space
    or a delimiter. *)
Lemma open_ends s x st b b' :
  feeds s x (st, b) →
  (∀ c, isspace c = true ∨ delimiter c →
    put_state handle_event c (st, b) = (Ok false, (I, b'))) →
  ends s x (I, b').
Proof.
  intros Hs Hc ws d rest Hws Hd. rewrite Hs.
  destruct Hws as [|c ws Hsp Hws]; [apply feed_again; auto|].
  change ((c :: ws) ++ d :: rest) with (c :: ws ++ d :: rest).
  rewrite (feed_again _ _ _ _ b') by auto.
  change (c :: ws ++ d :: rest) with ((c :: ws) ++ d :: rest).
  by rewrite (feeds_spaces (c :: ws) b') by (by constructor).
Qed.

Lemma closing_char c :
  isspace c = true ∨ delimiter c →
  valid c = true ∧ isalnum c = false ∧ isdigit c = false ∧ c ≠ "."%char.
Proof.
  intros [Hc|[->|[->| ->]]]; try (by vm_compute).
  assert (c ≠ "."%char) by (intros ->; done).
  unfold isspace, valid, isalnum, isalpha, isdigit in *. pose proof (code_range c).
  split_and!; [lia|lia|lia|done].
Qed.

(** Literals. *)
Definition literal_event (s : str) (e : event (real := real)) (v : value real) : Prop :=
  (s = lit "null" ∧ e = null_event ∧ v = null_) ∨
  (s = lit "true" ∧ e = true_event ∧ v = boolean true) ∨
  (s = lit "false" ∧ e = false_event ∧ v = boolean false).

Lemma literal_ends s e v b :
  literal_event s e v → accepts b → ends s (I, b) (I, add v b).
Proof.
  intros Hs Hb. apply (open_ends _ _ (parsing_literal s) b).
  - destruct Hs as [(-> & _)|[(-> & _)|(-> & _)]]; intros rest; reflexivity.
  - intros c Hc. destruct (closing_char c Hc) as (Hv & Ha & _).
    unfold put_state, put_literal, ctype. rewrite bind_get. cbn [fst].
    rewrite Hv, bind_ret_l, Ha.
    assert (Hh : visit_event handle_event e (parsing_literal s, b) =
      (Ok tt, (parsing_literal s, add v b))).
    { unfold visit_event. erewrite zoom_eq; [reflexivity|]. cbn [snd].
      destruct Hs as [(_ & -> & ->)|[(_ & -> & ->)|(_ & -> & ->)]]; by apply handle_value_add. }
    destruct Hs as [(-> & -> & _)|[(-> & -> & _)|(-> & -> & _)]];
      rewrite (bind_ok _ _ _ tt (_, add v b)) by exact Hh; reflexivity.
Qed.

(** Numbers. *)
Definition numeric (c : ascii) : Prop := isdigit c = true ∨ c = "."%char.

Lemma numeric_valid c : numeric c → valid c = true.
Proof. intros [H| ->]; [|done]. unfold isdigit, valid in *. lia. Qed.

Lemma feeds_number p s b :
  Forall numeric s → feeds s (parsing_number p, b) (parsing_number (p ++ s), b).
Proof.
  intros Hs. revert p. induction Hs as [|c s Hc _ IH]; intros p.
  { rewrite app_nil_r. apply feeds_nil. }
  eapply feeds_cons; [apply feeds_char, put_char_consumed|rewrite (cons_middle c p s), app_assoc; apply IH].
  unfold put_state, put_number, ctype. rewrite bind_get. cbn [fst].
  rewrite numeric_valid by done. rewrite bind_ret_l.
  assert (isdigit c || bool_decide (c = "."%char) = true) as ->.
  { destruct Hc as [-> | ->]; done. }
  reflexivity.
Qed.

Lemma feeds_number_start c s b :
  isdigit c = true → Forall numeric s →
  feeds (c :: s) (I, b) (parsing_number (c :: s), b).
Proof.
  intros Hc Hs. eapply feeds_cons; [|apply (feeds_number [c]); done].
  apply feeds_char, put_char_consumed. unfold put_state, put_indeterminate, ctype.
  rewrite bind_get. cbn [fst]. rewrite numeric_valid by (by left). rewrite !bind_ret_l.
  rewrite Lexical.isdigit_not_space by done.
  assert (isalpha c = false) as -> by (unfold isdigit, isalpha in *; lia).
  by rewrite !bind_ret_l, Hc.
Qed.

(** The events a number emits, given what the cast of its text returns. *)
Lemma number_ends c s v b :
  isdigit c = true → Forall numeric s → accepts b →
  (if bool_decide ("."%char ∈ c :: s)
   then ∃ r, real_parse (c :: s) = Some r ∧ v = real_ r
   else ∃ i, Lexical.lexical_cast_int 64 (c :: s) = Ok i ∧ v = integer i) →
  ends (c :: s) (I, b) (I, add v b).
Proof.
  intros Hc Hs Hb Hv. apply (open_ends _ _ (parsing_number (c :: s)) b);
    [by apply feeds_number_start|].
  intros d Hd. destruct (closing_char d Hd) as (Hd1 & _ & Hd2 & Hd3).
  unfold put_state, put_number, ctype. rewrite bind_get. cbn [fst].
  rewrite Hd1, bind_ret_l, Hd2, bool_decide_eq_false_2 by done. cbn [orb].
  rewrite (bind_ok _ _ _ tt (parsing_number (c :: s), add v b)); [done|].
  unfold cast_real, cast_integer. case_bool_decide.
  - destruct Hv as (r & -> & ->). rewrite bind_ret_l. unfold visit_event.
    erewrite zoom_eq; [reflexivity|]. by apply handle_value_add.
  - destruct Hv as (i & -> & ->). rewrite bind_ret_l. unfold visit_event.
    erewrite zoom_eq; [reflexivity|]. by apply handle_value_add.
Qed.

(** Strings. *)
Definition plain (s : str) : Prop := Forall (λ c, c ≠ dquote ∧ c ≠ backslash) s.

Lemma quoted_plain s : plain s → quoted s = dquote :: s ++ [dquote].
Proof.
  intros Hs. unfold quoted. do 2 f_equal. induction Hs as [|c s [H1 H2] _ IH]; [done|].
  cbn. rewrite !bool_decide_eq_false_2 by done. cbn. by rewrite IH.
Qed.

Lemma feeds_string p s b :
  plain s → feeds s (parsing_string p false, b) (parsing_string (p ++ s) false, b).
Proof.
  intros Hs. revert p. induction Hs as [|c s [Hc _] _ IH]; intros p.
  { rewrite app_nil_r. apply feeds_nil. }
  eapply feeds_cons; [apply feeds_char, put_char_consumed|rewrite (cons_middle c p s), app_assoc; apply IH].
  unfold put_state, put_string. rewrite bind_get. cbn [fst negb].
  by rewrite bool_decide_eq_false_2.
Qed.

Lemma feeds_quoted s b : plain s → feeds (quoted s) (I, b) (parsing_string s true, b).
Proof.
  intros Hs. rewrite quoted_plain by done. eapply feeds_cons; [by apply feeds_char|].
  eapply feeds_app; [by apply (feeds_string [])|]. by apply feeds_char.
Qed.

Lemma feeds_closed_spaces ws s b :
  spaces ws → feeds ws (parsing_string s true, b) (parsing_string s true, b).
Proof.
  induction 1 as [|c ws Hc _ IH]; [apply feeds_nil|]. eapply feeds_cons; [|exact IH].
  apply feeds_char, put_char_consumed. unfold put_state, put_string, ctype. rewrite bind_get.
  cbn [fst negb]. rewrite isspace_valid by done. by rewrite bind_ret_l, Hc.
Qed.

Lemma string_ends s b : plain s → accepts b → ends (quoted s) (I, b) (I, add (shared_string s) b).
Proof.
  intros Hs Hb ws d rest Hws Hd.
  rewrite (feeds_quoted s b Hs), (feeds_closed_spaces ws s b Hws). apply feed_again.
  unfold put_state, put_string. rewrite bind_get. cbn [fst negb].
  assert (Hh : visit_event handle_event (string_event s) (parsing_string [] true, b) =
    (Ok tt, (parsing_string [] true, add (shared_string s) b))).
  { unfold visit_event. erewrite zoom_eq; [reflexivity|]. by apply handle_value_add. }
  assert (valid d = true ∧ isspace d = false ∧ d ≠ ":"%char) as (Hd1 & Hd2 & Hd3) by
    (by destruct Hd as [->|[->| ->]]).
  unfold ctype. rewrite Hd1, bind_ret_l, Hd2, bool_decide_eq_false_2 by done.
  unfold set_state at 1. rewrite bind_modify. by rewrite (bind_ok _ _ _ _ _ Hh).
Qed.

(** ["key":] inside an object. *)
Lemma feeds_key k o k0 b :
  plain k → feeds (quoted k ++ lit ":") (I, object_context o k0 :: b) (I, object_context o k :: b).
Proof.
  intros Hk. eapply feeds_app; [by apply feeds_quoted|]. by apply feeds_char.
Qed.

(** ** Values the parser can read back *)

(** A number whose text is digits with a decimal point after the first one and
    reads back as the same number. *)
Definition real_ok (r : real) : Prop :=
  real_eqb r r = true ∧ real_parse (real_print r) = Some r ∧
  "."%char ∈ real_print r ∧
  ∃ c s, real_print r = c :: s ∧ isdigit c = true ∧ Forall numeric s.

(** Strings without quotes and backslashes, keys that are not empty, integers
    that are not negative. *)
Inductive printable : value real → Prop :=
| printable_null : printable null_
| printable_boolean b : printable (boolean b)
| printable_integer i : 0 ≤ i → printable (integer i)
| printable_real r : real_ok r → printable (real_ r)
| printable_string s : plain s → printable (string_ s)
| printable_shared_string s : plain s → printable (shared_string s)
| printable_object o :
    Forall (λ kv, (plain kv.1 ∧ kv.1 ≠ []) ∧ printable kv.2) o → printable (object o)
| printable_shared_object o :
    Forall (λ kv, (plain kv.1 ∧ kv.1 ≠ []) ∧ printable kv.2) o → printable (shared_object o)
| printable_array a : Forall printable a → printable (array a)
| printable_shared_array a : Forall printable a → printable (shared_array a).

(** The value the parser builds: everything shared. *)
Fixpoint built (v : value real) : value real :=
  match v with
  | string_ s => shared_string s
  | object o | shared_object o => shared_object ((λ kv, (kv.1, built kv.2)) <$> o)
  | array a | shared_array a => shared_array (built <$> a)
  | _ => v
  end.

Lemma built_clone v : clone (built v) = built v.
Proof. by destruct v. Qed.

Lemma norm_built v : norm (built v) = norm v.
Proof.
  induction v as [| | | | | |o IH|o IH|a IH|a IH] using value_ind'; simpl; try done; f_equal;
    rewrite <- list_fmap_compose; apply list_fmap_ext; intros i x Hx%list_elem_of_lookup_2;
    rewrite Forall_forall in IH; simpl; [f_equal..| |]; by apply IH.
Qed.

(** ** Arrays and objects *)

Abbreviation reads_back := (λ v, ∀ n b,
  accepts b → ends (print n v) (I, b) (I, add (built v) b)).

Lemma spaces_nl n : spaces (nl n).
Proof.
  unfold spaces, nl. destruct style; [constructor|]. constructor; [done|].
  induction n as [|n IH]; [constructor|]. cbn [replicate concat].
  apply Forall_app_2; [|done]. repeat constructor.
Qed.
Lemma spaces_sp : spaces sp.
Proof. unfold spaces, sp. destruct style; repeat constructor. Qed.

Lemma feeds_end_array a b :
  accepts b → feeds (lit "]") (I, array_context a :: b) (I, add (clone (array a)) b).
Proof.
  intros Hb. apply feeds_char, put_char_consumed.
  change (put_state handle_event "]"%char (I, array_context a :: b)) with
    (bind (visit_event handle_event end_array_event) (λ _, ret true) (I, array_context a :: b)).
  erewrite bind_ok; [reflexivity|]. unfold visit_event. erewrite zoom_eq; [reflexivity|].
  by apply handle_value_add.
Qed.
Lemma feeds_end_object o k b :
  accepts b → feeds (lit "}") (I, object_context o k :: b) (I, add (clone (object o)) b).
Proof.
  intros Hb. apply feeds_char, put_char_consumed.
  change (put_state handle_event "}"%char (I, object_context o k :: b)) with
    (bind (visit_event handle_event end_object_event) (λ _, ret true) (I, object_context o k :: b)).
  erewrite bind_ok; [reflexivity|]. unfold visit_event. erewrite zoom_eq; [reflexivity|].
  by apply handle_value_add.
Qed.

Lemma feeds_comma n b : feeds (lit "," ++ nl n) (I, b) (I, b).
Proof. eapply feeds_app; [by apply feeds_char|]. apply feeds_spaces, spaces_nl. Qed.

(** A value in front of white space and a delimiter. *)
Lemma reads_back_feed v n b ws d rest :
  reads_back v → accepts b → spaces ws → delimiter d →
  feed (print n v ++ ws ++ d :: rest) (I, b) = feed (d :: rest) (I, add (built v) b).
Proof. intros Hv Hb Hws Hd. by apply Hv. Qed.

Lemma feeds_elems n x a acc b :
  reads_back x → Forall reads_back a → accepts b →
  feeds (print (deeper n) x ++ print_elems n a ++ nl n ++ lit "]") (I, array_context acc :: b)
    (I, add (clone (array (acc ++ (built <$> x :: a)))) b).
Proof.
  intros Hx Ha Hb. revert x acc Hx. induction Ha as [|y a Hy _ IH]; intros x acc Hx rest;
    cbn [print_elems]; rewrite <- !app_assoc.
  - change (feed (print (deeper n) x ++ nl n ++ "]"%char :: rest) (I, array_context acc :: b) =
      feed rest (I, add (clone (array (acc ++ (built <$> [x])))) b)).
    rewrite reads_back_feed; [|done|done|apply spaces_nl|by right; left].
    by apply (feeds_end_array (acc ++ [built x])).
  - change (feed (print (deeper n) x ++ [] ++ ","%char ::
      (nl (deeper n) ++ print (deeper n) y ++ print_elems n a ++ nl n ++ lit "]" ++ rest))
      (I, array_context acc :: b) =
      feed rest (I, add (clone (array (acc ++ (built <$> x :: y :: a)))) b)).
    rewrite reads_back_feed; [|done|done|constructor|by left].
    rewrite (feeds_comma (deeper n) _ (print (deeper n) y ++ print_elems n a ++ nl n ++ lit "]" ++ rest)).
    cbn [add]. pose proof (IH y (acc ++ [built x]) Hy rest) as H.
    rewrite <- !app_assoc in H. exact H.
Qed.

Lemma built_array_clone a : clone (array (built <$> a)) = built (array a).
Proof.
  simpl. f_equal. rewrite <- list_fmap_compose. apply list_fmap_ext. intros i x _.
  apply built_clone.
Qed.
Lemma built_object_clone o :
  clone (object ((λ kv, (kv.1, built kv.2)) <$> o)) = built (object o).
Proof.
  simpl. f_equal. rewrite <- list_fmap_compose. apply list_fmap_ext. intros i x _.
  simpl. by rewrite built_clone.
Qed.

Lemma array_feeds n a b :
  Forall reads_back a → accepts b →
  feeds (print n (array a)) (I, b) (I, add (built (array a)) b).
Proof.
  intros Ha Hb. rewrite <- built_array_clone. destruct Ha as [|x a Hx Ha].
  { change (print n (array [])) with (lit "[" ++ lit "]").
    eapply feeds_app; [by apply feeds_char|by apply feeds_end_array]. }
  rewrite print_array_cons. eapply feeds_app; [by apply feeds_char|]. rewrite <- !app_assoc.
  eapply feeds_app; [apply feeds_spaces, spaces_nl|]. by apply (feeds_elems n x a []).
Qed.

Lemma map_insert_end k v (o : list (str * value real)) :
  Forall (λ kv, str_ltb kv.1 k = true) o → map_insert k v o = o ++ [(k, v)].
Proof.
  induction 1 as [|kv o Hk _ IH]; simpl; [done|].
  destruct (str_ltb k kv.1) eqn:Hlt.
  { by pose proof (str_ltb_irrefl k) as Hi; rewrite (str_ltb_trans _ _ _ Hlt Hk) in Hi. }
  rewrite bool_decide_eq_false_2 by (by apply str_ltb_ne). by rewrite IH.
Qed.


Abbreviation member_ok := (λ kv : str * value real,
  (plain kv.1 ∧ kv.1 ≠ []) ∧ reads_back kv.2).

(** One member: its key, its value, then white space and a delimiter. *)
Lemma member_feed n kv o b ws d rest :
  member_ok kv → Forall (λ lw, str_ltb lw.1 kv.1 = true) o → spaces ws → delimiter d →
  feed (quoted kv.1 ++ lit ":" ++ sp ++ print n kv.2 ++ ws ++ d :: rest)
    (I, object_context o [] :: b) =
  feed (d :: rest) (I, object_context (o ++ [(kv.1, built kv.2)]) [] :: b).
Proof.
  intros [[Hp Hne] Hv] Ho Hws Hd. rewrite app_assoc, feeds_key by done.
  rewrite feeds_spaces by apply spaces_sp.
  rewrite reads_back_feed; [|done| |done|done].
  - cbn [add]. by rewrite map_insert_end.
  - cbn. by destruct (kv.1).
Qed.

Definition sorted_keys (ks : list str) : Prop := StronglySorted (λ x y, str_ltb x y = true) ks.

Lemma sorted_map_keys (o : list (str * value real)) : sorted_map o → sorted_keys o.*1.
Proof.
  unfold sorted_map, sorted_keys. induction 1 as [|kv o _ IH Hf]; [constructor|].
  cbn. constructor; [done|]. apply Forall_fmap. exact Hf.
Qed.

Lemma sorted_keys_before (o : list (str * value real)) k ks :
  sorted_keys (o.*1 ++ k :: ks) → Forall (λ lw, str_ltb lw.1 k = true) o.
Proof.
  unfold sorted_keys. rewrite Forall_forall. intros Hs lw Hin.
  apply StronglySorted_app in Hs as (Hlt & _ & _). apply Hlt.
  - by apply list_elem_of_fmap_2.
  - by apply list_elem_of_here.
Qed.

Lemma feeds_members n kv m o b :
  member_ok kv → Forall member_ok m → sorted_keys (o.*1 ++ kv.1 :: m.*1) → accepts b →
  feeds (quoted kv.1 ++ lit ":" ++ sp ++ print (deeper n) kv.2 ++
      print_members n m ++ nl n ++ lit "}") (I, object_context o [] :: b)
    (I, add (clone (object (o ++ ((λ kv, (kv.1, built kv.2)) <$> kv :: m)))) b).
Proof.
  intros Hkv Hm Hs Hb. revert kv o Hkv Hs.
  induction Hm as [|lw m Hlw _ IH]; intros kv o Hkv Hs rest; cbn [print_members];
    rewrite <- !app_assoc; pose proof (sorted_keys_before _ _ _ Hs) as Hlt.
  - change (feed (quoted kv.1 ++ lit ":" ++ sp ++ print (deeper n) kv.2 ++ nl n ++ "}"%char :: rest)
      (I, object_context o [] :: b) =
      feed rest (I, add (clone (object (o ++ [(kv.1, built kv.2)]))) b)).
    rewrite member_feed; [|done|done|apply spaces_nl|by right; right].
    by apply (feeds_end_object (o ++ [(kv.1, built kv.2)]) []).
  - set (tail := quoted lw.1 ++ lit ":" ++ sp ++ print (deeper n) lw.2 ++
      print_members n m ++ nl n ++ lit "}" ++ rest).
    change (feed (quoted kv.1 ++ lit ":" ++ sp ++ print (deeper n) kv.2 ++ [] ++
      ","%char :: (nl (deeper n) ++ tail)) (I, object_context o [] :: b) =
      feed rest (I, add (clone (object (o ++
        ((λ kv, (kv.1, built kv.2)) <$> kv :: lw :: m)))) b)).
    rewrite member_feed; [|done|done|constructor|by left].
    rewrite (feeds_comma (deeper n) _ tail). unfold tail.
    pose proof (IH lw (o ++ [(kv.1, built kv.2)]) Hlw) as H.
    rewrite fmap_app, <- app_assoc in H. specialize (H Hs rest).
    rewrite <- !app_assoc in H. exact H.
Qed.

Lemma object_feeds n o b :
  Forall member_ok o → sorted_map o → accepts b →
  feeds (print n (object o)) (I, b) (I, add (built (object o)) b).
Proof.
  intros Ho Hs%sorted_map_keys Hb. rewrite <- built_object_clone. destruct Ho as [|kv o Hkv Ho].
  { change (print n (object [])) with (lit "{" ++ lit "}").
    eapply feeds_app; [by apply feeds_char|by apply (feeds_end_object [])]. }
  rewrite print_object_cons. eapply feeds_app; [by apply feeds_char|]. rewrite <- !app_assoc.
  eapply feeds_app; [apply feeds_spaces, spaces_nl|]. by apply (feeds_members n kv o []).
Qed.

Lemma integer_ends i b :
  0 ≤ i < 2 ^ 63 → accepts b → ends (Lexical.print_int i) (I, b) (I, add (integer i) b).
Proof.
  intros Hi Hb. unfold Lexical.print_int. rewrite (proj2 (Z.ltb_ge i 0)) by lia.
  pose proof (Lexical.print_nat_digits i (proj1 Hi)) as Hds.
  pose proof (Lexical.dec_value_print i (proj1 Hi)) as Hv.
  destruct (Lexical.print_nat_cons i) as (c & s & Hp). rewrite Hp in *.
  pose proof (Forall_inv Hds) as Hc. apply number_ends; try done.
  - eapply Forall_impl; [exact (Forall_inv_tail Hds)|]. by left.
  - rewrite bool_decide_eq_false_2.
    + exists i. split; [|done]. by apply Lexical.lexical_cast_digits.
    + intros Hin. rewrite Forall_forall in Hds. by apply Hds in Hin.
Qed.

Lemma real_ends r b : real_ok r → accepts b → ends (real_print r) (I, b) (I, add (real_ r) b).
Proof.
  intros (_ & Hr & Hdot & c & s & Hp & Hc & Hs) Hb. rewrite Hp in *.
  apply number_ends; try done. rewrite bool_decide_eq_true_2 by done. eauto.
Qed.

(** Every printable value is read back at any depth. *)
Lemma printable_reads_back v : wf v → printable v → reads_back v.
Proof.
  induction v as [| | | | | |o IH|o IH|a IH|a IH] using value_ind'; intros Hw Hp m st Hst;
    inversion Hp; subst; inversion Hw; subst; cbn [built].
  - apply (literal_ends _ null_event); [by left|done].
  - destruct b; [apply (literal_ends _ true_event)|apply (literal_ends _ false_event)];
      try done; right; [left|right]; done.
  - apply integer_ends; [lia|done].
  - by apply real_ends.
  - by apply string_ends.
  - by apply string_ends.
  - apply feeds_ends, object_feeds; [|done|done].
    rewrite Forall_forall in *. naive_solver.
  - apply feeds_ends, (object_feeds m o); [|done|done].
    rewrite Forall_forall in *. naive_solver.
  - apply feeds_ends, array_feeds; [|done]. rewrite Forall_forall in *. naive_solver.
  - apply feeds_ends, (array_feeds m a); [|done]. rewrite Forall_forall in *. naive_solver.
Qed.


Lemma printable_no_nan v : printable v → no_nan v = true.
Proof.
  induction v as [| | | | | |o IH|o IH|a IH|a IH] using value_ind'; intros Hp; simpl; try done;
    inversion Hp as [| | |? Hr| | |? Hf|? Hf|? Hf|? Hf]; subst; [by destruct Hr|..];
    apply Is_true_true, forallb_True, Forall_forall; rewrite Forall_forall in *; intros x Hx;
    apply Is_true_true; naive_solver.
Qed.

Lemma container_feeds v :
  wf v → printable v → is_array v || is_object v = true →
  feeds (print 0 v) (I, value_builder_init) (I, [value_context (built v)]).
Proof.
  intros Hw Hp Hc.
  destruct v as [| | | | | |o|o|a|a]; try done; inversion Hp; subst; inversion Hw; subst.
  1,2: apply (object_feeds 0 o value_builder_init); [|done|done];
    rewrite Forall_forall in *; intros kv Hkv; split; [naive_solver|];
    apply printable_reads_back; naive_solver.
  all: apply (array_feeds 0 a value_builder_init); [|done];
    rewrite Forall_forall in *; intros x Hx; apply printable_reads_back; naive_solver.
Qed.

Lemma parse_feeds s v : feeds s (I, value_builder_init) (I, [value_context v]) → parse s = Ok (clone v).
Proof.
  intros Hf. specialize (Hf []). rewrite app_nil_r in Hf. unfold parse, bind. by rewrite Hf.
Qed.


(** A negative integer inside an array is printed but cannot be parsed: the
    parser accepts a sign [+] and not [-]. *)
Theorem json_negative_integer_fails i rest :
  i < 0 →
  (put_range (handle_event (real := real)) 2
    (lit "[" ++ Lexical.print_int i ++ rest) (I, value_builder_init)).1 =
  Throw (json_error failed_to_parse).
Proof.
  intros Hi. unfold Lexical.print_int. by rewrite (proj2 (Z.ltb_lt i 0)).
Qed.

(** A number at the top level is lost: nothing ends its token, and [parse]
    returns null. *)
Theorem json_top_level_integer_lost i :
  0 ≤ i → parse (real := real) (Lexical.print_int i) = Ok null_.
Proof.
  intros Hi. unfold Lexical.print_int. rewrite (proj2 (Z.ltb_ge i 0)) by lia.
  pose proof (Lexical.print_nat_digits i Hi) as Hds.
  destruct (Lexical.print_nat_cons i) as (c & s & Hp). rewrite Hp in *.
  assert (Hf : feeds (c :: s) (I, value_builder_init)
    (parsing_number (c :: s), value_builder_init)).
  { apply feeds_number_start; [exact (Forall_inv Hds)|].
    eapply Forall_impl; [exact (Forall_inv_tail Hds)|]. by left. }
  specialize (Hf []). rewrite app_nil_r in Hf. unfold parse, bind. by rewrite Hf.
Qed.

End serial.

Import Json.Tenths.

Lemma doc_printable : printable doc.
Proof.
  repeat first [ done | constructor ]; try lia.
  exists "2"%char, (lit ".5"). split_and!; [done|done|].
  constructor; [by right|]. constructor; [by left|constructor].
Defined.


Lemma json_negative_integer_witness :
  (put_range (handle_event (real := Z)) 2
    (lit "[" ++ Lexical.print_int (-7) ++ lit "]") (indeterminate_state, value_builder_init)).1 =
  Throw (json_error failed_to_parse).
Proof. apply json_negative_integer_fails. lia. Defined.

Lemma json_top_level_integer_witness : parse (real := Z) (Lexical.print_int 42) = Ok null_.
Proof. apply json_top_level_integer_lost. lia. Defined.

End Serial.
