(* ===== verification/TlsfBits.v ===== *)
(** * TLSF: bit scans, size rounding and size classes (detail/impl/tlsf.ipp)

    The 64-bit configuration of the allocator: constants, the [ffs]/[fls] bit
    scans in their builtin and generic versions, alignment and request rounding,
    and the mapping from sizes to the two-level index [(fl, sl)] of a free list.
    Sizes are unsigned 64-bit integers with their wrap-around written out. *)

From S2P Require Import Prelude.

Local Open Scope Z_scope.
Local Open Scope gpcl_scope.

Module Tlsf.

(** ** Constants *)

Definition SL_INDEX_COUNT_LOG2 : Z := 5.
Definition ALIGN_SIZE_LOG2 : Z := 3.
Definition ALIGN_SIZE : Z := Z.shiftl 1 ALIGN_SIZE_LOG2.
Definition FL_INDEX_MAX : Z := 32.
Definition SL_INDEX_COUNT : Z := Z.shiftl 1 SL_INDEX_COUNT_LOG2.
Definition FL_INDEX_SHIFT : Z := SL_INDEX_COUNT_LOG2 + ALIGN_SIZE_LOG2.
Definition FL_INDEX_COUNT : Z := FL_INDEX_MAX - FL_INDEX_SHIFT + 1.
Definition SMALL_BLOCK_SIZE : Z := Z.shiftl 1 FL_INDEX_SHIFT.

(** [block_header_t] has four pointer-sized fields. *)
Definition sizeof_block_header : Z := 32.
Definition block_header_free_bit : Z := 1.
Definition block_header_prev_free_bit : Z := 2.
Definition block_header_overhead : Z := 8.
Definition block_start_offset : Z := 16.
Definition block_size_min : Z := sizeof_block_header - 8.
Definition block_size_max : Z := Z.shiftl 1 FL_INDEX_MAX.

(** ** Bit scans *)

(** [__builtin_clz] of a non-zero word and [__builtin_ffs]. *)
Definition builtin_clz (word : Z) : Z := 31 - Z.log2 word.
Fixpoint first_bit (n : nat) (i word : Z) : Z :=
  match n with
  | O => 0
  | S n => if Z.testbit word i then i + 1 else first_bit n (i + 1) word
  end.
Definition builtin_ffs (word : Z) : Z := first_bit 32 0 word.

Definition tlsf_ffs (word : Z) : Z := builtin_ffs word - 1.
Definition tlsf_fls (word : Z) : Z :=
  (if negb (word =? 0) then 32 - builtin_clz word else 0) - 1.

(** The portable versions. *)
Definition fls_step (mask shift : Z) (s : Z * Z) : Z * Z :=
  let '(word, bit) := s in
  if Z.land word mask =? 0 then (u32 (Z.shiftl word shift), bit - shift) else (word, bit).
Definition tlsf_fls_generic (word : Z) : Z :=
  let bit := if word =? 0 then 32 - 1 else 32 in
  let s := fls_step 0xffff0000 16 (word, bit) in
  let s := fls_step 0xff000000 8 s in
  let s := fls_step 0xf0000000 4 s in
  let s := fls_step 0xc0000000 2 s in
  let s := fls_step 0x80000000 1 s in
  s.2.
Definition tlsf_ffs_portable (word : Z) : Z :=
  tlsf_fls_generic (Z.land word (u32 (u32 (Z.lnot word) + 1))) - 1.
Definition tlsf_fls_portable (word : Z) : Z := tlsf_fls_generic word - 1.

(** [GPCL_DETAIL_TLSF_FLS_SIZET]. *)
Definition tlsf_fls_sizet (size : Z) : Z :=
  let high := i32 (Z.shiftr size 32) in
  if negb (high =? 0) then 32 + tlsf_fls (u32 high)
  else tlsf_fls (Z.land (u32 (i32 size)) 0xffffffff).

(** ** Rounding *)

Definition is_pow2_mask (align : Z) : bool := Z.land align (u64 (align - 1)) =? 0.

Definition align_up (x align : Z) : outcome Z :=
  if is_pow2_mask align then
    Ok (Z.land (u64 (x + u64 (align - 1))) (u64 (Z.lnot (u64 (align - 1)))))
  else Abort.
Definition align_down (x align : Z) : outcome Z :=
  if is_pow2_mask align then Ok (u64 (x - Z.land x (u64 (align - 1)))) else Abort.
(** [align_ptr]: the same computation on an address. *)
Definition align_ptr (ptr align : Z) : outcome Z := align_up ptr align.

Definition adjust_request_size (size align : Z) : outcome Z :=
  if size =? 0 then Ok 0
  else match align_up size align with
       | Ok aligned =>
           if aligned <? block_size_max then Ok (Z.max aligned block_size_min) else Ok 0
       | r => r
       end.

(** ** Size classes *)

Definition mapping_insert (size : Z) : Z * Z :=
  if size <? SMALL_BLOCK_SIZE then
    (0, i32 size / (SMALL_BLOCK_SIZE / SL_INDEX_COUNT))
  else
    let fl := tlsf_fls_sizet size in
    let sl := Z.lxor (i32 (Z.shiftr size (fl - SL_INDEX_COUNT_LOG2)))
                     (Z.shiftl 1 SL_INDEX_COUNT_LOG2) in
    (fl - (FL_INDEX_SHIFT - 1), sl).

Definition mapping_search (size : Z) : Z * Z :=
  let size :=
    if SMALL_BLOCK_SIZE <=? size then
      let round := Z.shiftl 1 (tlsf_fls_sizet size - SL_INDEX_COUNT_LOG2) - 1 in
      u64 (size + round)
    else size in
  mapping_insert size.

(** ** The classes as intervals *)

(** Width and least size of the class [(fl, sl)]. *)
Definition class_width (fl : Z) : Z := if fl =? 0 then 8 else 2 ^ (fl + 2).
Definition class_lo (c : Z * Z) : Z :=
  if c.1 =? 0 then 8 * c.2 else 2 ^ (c.1 + 7) + c.2 * 2 ^ (c.1 + 2).
Definition class_ok (c : Z * Z) : Prop := 0 ≤ c.1 < FL_INDEX_COUNT ∧ 0 ≤ c.2 < SL_INDEX_COUNT.
Definition class_le (c d : Z * Z) : Prop := c.1 < d.1 ∨ (c.1 = d.1 ∧ c.2 ≤ d.2).

(** ** Bit scans, proofs *)

Lemma land_top word k :
  0 ≤ k ≤ 32 → 0 ≤ word < 2 ^ 32 →
  (Z.land word (Z.shiftl (Z.ones k) (32 - k)) =? 0) = (word <? 2 ^ (32 - k)).
Proof.
  intros Hk Hw. assert (Hpow : 0 < 2 ^ (32 - k)) by (apply Z.pow_pos_nonneg; lia).
  assert (Heq : Z.land word (Z.shiftl (Z.ones k) (32 - k)) =
    Z.shiftl (Z.shiftr word (32 - k)) (32 - k)).
  { apply Z.bits_inj'. intros n Hn. rewrite Z.land_spec.
    destruct (Z.lt_ge_cases n (32 - k)).
    - rewrite !Z.shiftl_spec_low by lia. by rewrite andb_false_r.
    - rewrite !Z.shiftl_spec by lia. rewrite Z.shiftr_spec by lia.
      replace (n - (32 - k) + (32 - k)) with n by lia.
      destruct (Z.lt_ge_cases n 32).
      + rewrite Z.ones_spec_low by lia. apply andb_true_r.
      + rewrite Z.ones_spec_high, andb_false_r by lia.
        destruct (Z.eq_dec word 0) as [->|]; [by rewrite Z.bits_0|].
        rewrite Z.bits_above_log2; [done|lia|].
        assert (Z.log2 word < 32) by (apply Z.log2_lt_pow2; lia). lia. }
  rewrite Heq, Z.shiftl_mul_pow2, Z.shiftr_div_pow2 by lia.
  destruct (Z.ltb_spec word (2 ^ (32 - k))).
  - rewrite Z.div_small by lia. reflexivity.
  - assert (1 ≤ word / 2 ^ (32 - k)) by (apply Z.div_le_lower_bound; lia).
    destruct (Z.eqb_spec (word / 2 ^ (32 - k) * 2 ^ (32 - k)) 0); [nia|done].
Qed.

(** After the steps so far: the word is [w] shifted left by [32 - bit], and its
    top [k] bits are to be examined next. *)
Lemma fls_step_inv w word bit k mask :
  mask = Z.shiftl (Z.ones k) (32 - k) → 0 < k ≤ 32 → 0 < w →
  word = w * 2 ^ (32 - bit) → bit ≤ 32 → 2 ^ (32 - 2 * k) ≤ word < 2 ^ 32 → 2 * k ≤ 32 →
  ∃ word' bit', fls_step mask k (word, bit) = (word', bit') ∧
    word' = w * 2 ^ (32 - bit') ∧ bit' ≤ 32 ∧ 2 ^ (32 - k) ≤ word' < 2 ^ 32.
Proof.
  intros -> Hk Hw Hword Hbit Hr H2k. unfold fls_step.
  assert (0 ≤ 2 ^ (32 - 2 * k)) by (apply Z.pow_nonneg; lia).
  rewrite land_top by lia.
  destruct (Z.ltb_spec word (2 ^ (32 - k))) as [Hlt|Hge].
  - eexists _, _. split; [reflexivity|].
    assert (Hp : 2 ^ 32 = 2 ^ (32 - k) * 2 ^ k) by (rewrite <- Z.pow_add_r by lia; f_equal; lia).
    assert (Hp2 : 2 ^ (32 - k) = 2 ^ (32 - 2 * k) * 2 ^ k) by
      (rewrite <- Z.pow_add_r by lia; f_equal; lia).
    assert (0 < 2 ^ k) by (apply Z.pow_pos_nonneg; lia).
    rewrite Z.shiftl_mul_pow2 by lia. rewrite u32_small by nia.
    split_and!; [|lia|nia|nia].
    rewrite Hword. replace (32 - (bit - k)) with (32 - bit + k) by lia.
    rewrite Z.pow_add_r by lia. ring.
  - eexists _, _. split; [reflexivity|]. split_and!; lia.
Qed.

Lemma fls_generic_pos w : 0 < w < 2 ^ 32 → tlsf_fls_generic w = Z.log2 w + 1.
Proof.
  intros Hw. unfold tlsf_fls_generic. rewrite (proj2 (Z.eqb_neq w 0)) by lia.
  destruct (fls_step_inv w w 32 16 0xffff0000) as (w1 & b1 & -> & Hw1 & Hb1 & Hr1);
    [done|lia|lia|lia|lia|cbn; lia|lia|].
  destruct (fls_step_inv w w1 b1 8 0xff000000) as (w2 & b2 & -> & Hw2 & Hb2 & Hr2);
    [done|lia|lia|lia|lia|exact Hr1|lia|].
  destruct (fls_step_inv w w2 b2 4 0xf0000000) as (w3 & b3 & -> & Hw3 & Hb3 & Hr3);
    [done|lia|lia|lia|lia|exact Hr2|lia|].
  destruct (fls_step_inv w w3 b3 2 0xc0000000) as (w4 & b4 & -> & Hw4 & Hb4 & Hr4);
    [done|lia|lia|lia|lia|exact Hr3|lia|].
  destruct (fls_step_inv w w4 b4 1 0x80000000) as (w5 & b5 & -> & Hw5 & Hb5 & Hr5);
    [done|lia|lia|lia|lia|exact Hr4|lia|].
  cbn [snd]. rewrite Hw5 in Hr5. change (32 - 1) with 31 in Hr5.
  assert (Hlog : Z.log2 (w * 2 ^ (32 - b5)) = Z.log2 w + (32 - b5)) by
    (rewrite Z.log2_mul_pow2; lia).
  assert (Z.log2 (w * 2 ^ (32 - b5)) = 31); [|lia].
  apply Z.log2_unique; [lia|]. exact Hr5.
Qed.

Lemma tlsf_fls_log2 w : 0 < w → tlsf_fls w = Z.log2 w.
Proof.
  intros Hw. unfold tlsf_fls, builtin_clz. rewrite (proj2 (Z.eqb_neq w 0)) by lia. simpl. lia.
Qed.

Lemma tlsf_fls_sizet_log2 size : 0 < size < 2 ^ 64 → tlsf_fls_sizet size = Z.log2 size.
Proof.
  intros Hs. unfold tlsf_fls_sizet.
  pose proof (Z.mod_pos_bound size (2 ^ 32)). pose proof (Z.div_mod size (2 ^ 32)).
  assert (Hu : ∀ z, u32 (i32 z) = z mod 2 ^ 32).
  { intros z. unfold u32, wrap, i32, sint. rewrite Zminus_mod, Z.mod_mod by lia.
    rewrite <- Zminus_mod. f_equal. lia. }
  rewrite Z.shiftr_div_pow2 by lia. set (hi := size / 2 ^ 32) in *.
  assert (Hhi : 0 ≤ hi < 2 ^ 32) by (split; [apply Z.div_pos|apply Z.div_lt_upper_bound]; lia).
  assert (Hz : (i32 hi =? 0) = (hi =? 0)).
  { specialize (Hu hi). rewrite Z.mod_small in Hu by lia.
    destruct (Z.eqb_spec (i32 hi) 0) as [E0|E0], (Z.eqb_spec hi 0) as [E1|E1]; try done.
    - rewrite E0 in Hu. by rewrite <- Hu in E1.
    - by rewrite E1 in E0. }
  rewrite Hz, Hu. destruct (Z.eqb_spec hi 0) as [E0|E0]; cbn [negb].
  - rewrite Hu. change 0xffffffff with (Z.ones 32). rewrite Z.land_ones, Z.mod_mod by lia.
    rewrite Z.mod_small by lia. apply tlsf_fls_log2. lia.
  - rewrite Z.mod_small by lia. rewrite tlsf_fls_log2 by lia. symmetry.
    apply Z.log2_unique; [pose proof (Z.log2_nonneg hi); lia|].
    pose proof (Z.log2_spec hi). pose proof (Z.log2_nonneg hi).
    rewrite <- Z.add_succ_r, !Z.pow_add_r by lia. nia.
Qed.

(** Lowest set bit: [w = 2 ^ k * (2 * m + 1)]. *)
Lemma odd_part w : 0 < w → ∃ k m, 0 ≤ k ∧ 0 ≤ m ∧ w = 2 ^ k * (2 * m + 1).
Proof.
  induction w as [w IH] using (well_founded_induction (Z.lt_wf 0)). intros Hw.
  destruct (Z.Even_or_Odd w) as [[h Hh]|[h Hh]].
  - destruct (IH h) as (k & m & Hk & Hm & ->); [lia|lia|].
    exists (k + 1), m. rewrite Z.pow_add_r by lia. split_and!; lia.
  - exists 0, h. lia.
Qed.

Lemma testbit_odd_part k m n :
  0 ≤ k → 0 ≤ m → 0 ≤ n ≤ k →
  Z.testbit (2 ^ k * (2 * m + 1)) n = bool_decide (n = k).
Proof.
  intros Hk Hm Hn. rewrite Z.mul_comm, <- Z.shiftl_mul_pow2 by lia. case_bool_decide; subst.
  - rewrite Z.shiftl_spec by lia. rewrite Z.sub_diag. apply Z.testbit_odd_0.
  - apply Z.shiftl_spec_low. lia.
Qed.

Lemma first_bit_odd_part n i k m :
  0 ≤ i ≤ k → k < i + Z.of_nat n → 0 ≤ m → first_bit n i (2 ^ k * (2 * m + 1)) = k + 1.
Proof.
  revert i. induction n as [|n IH]; intros i Hi Hk Hm; [lia|]. cbn [first_bit].
  rewrite testbit_odd_part by lia. case_bool_decide; [lia|]. apply IH; lia.
Qed.

(** [word & (~word + 1)] isolates the lowest set bit. *)
Lemma lowest_bit k m :
  0 ≤ k → 0 ≤ m → 2 ^ k * (2 * m + 1) < 2 ^ 32 →
  Z.land (2 ^ k * (2 * m + 1)) (u32 (u32 (Z.lnot (2 ^ k * (2 * m + 1))) + 1)) = 2 ^ k.
Proof.
  intros Hk Hm Hw. assert (Hp : 0 < 2 ^ k) by (apply Z.pow_pos_nonneg; lia).
  set (w := 2 ^ k * (2 * m + 1)) in *.
  assert (Hneg : u32 (u32 (Z.lnot w) + 1) = 2 ^ 32 - w).
  { unfold u32, wrap. rewrite Zplus_mod_idemp_l. unfold Z.lnot.
    replace (Z.pred (- w) + 1) with (2 ^ 32 - w + (-1) * 2 ^ 32) by lia.
    rewrite Z.mod_add by lia. apply Z.mod_small. nia. }
  rewrite Hneg. assert (Hk32 : k < 32) by (apply (Z.pow_lt_mono_r_iff 2); nia).
  assert (H32 : 2 ^ 32 = 2 ^ k * (2 * 2 ^ (31 - k))).
  { rewrite <- Z.pow_succ_r, <- Z.pow_add_r by lia. f_equal. lia. }
  set (q := 2 ^ (31 - k) - 1 - m).
  assert (Hc : 2 ^ 32 - w = 2 ^ k * (2 * q + 1)) by (unfold w, q; nia).
  assert (Hq : q = Z.lnot m + 2 ^ (31 - k)) by (unfold q, Z.lnot; lia).
  apply Z.bits_inj'. intros n Hn. rewrite Z.land_spec, Hc. unfold w.
  rewrite Z.pow2_bits_eqb by lia.
  rewrite !(Z.mul_comm (2 ^ k)), <- !Z.shiftl_mul_pow2 by lia.
  destruct (Z.lt_trichotomy n k) as [H|[->|H]].
  - rewrite !Z.shiftl_spec_low by lia. by rewrite (proj2 (Z.eqb_neq k n)) by lia.
  - rewrite !Z.shiftl_spec by lia. rewrite !Z.sub_diag, !Z.testbit_odd_0. by rewrite Z.eqb_refl.
  - rewrite !Z.shiftl_spec by lia. rewrite (proj2 (Z.eqb_neq k n)) by lia.
    replace (n - k) with (Z.succ (n - k - 1)) by lia. rewrite !Z.testbit_odd_succ by lia.
    rewrite Hq.
    destruct (Z.lt_ge_cases (n - k - 1) (31 - k)) as [Hlo|Hhi].
    + rewrite <- (Z.mod_pow2_bits_low (Z.lnot m + 2 ^ (31 - k)) (31 - k)) by lia.
      replace (Z.lnot m + 2 ^ (31 - k)) with (Z.lnot m + 1 * 2 ^ (31 - k)) by lia.
      rewrite Z.mod_add by (apply Z.pow_nonzero; lia). rewrite Z.mod_pow2_bits_low by lia.
      rewrite Z.lnot_spec by lia. apply andb_negb_r.
    + assert (m < 2 ^ (31 - k)) by nia.
      assert (Z.testbit m (n - k - 1) = false) as ->; [|done].
      destruct (Z.eq_dec m 0) as [->|]; [apply Z.bits_0|].
      apply Z.bits_above_log2; [lia|].
      assert (Z.log2 m < 31 - k) by (apply Z.log2_lt_pow2; lia). lia.
Qed.

(** The bit [ffs] returns is the lowest one set. *)
Lemma tlsf_ffs_lowest w :
  0 < w < 2 ^ 32 →
  0 ≤ tlsf_ffs w < 32 ∧ Z.testbit w (tlsf_ffs w) = true ∧
  ∀ i, 0 ≤ i < tlsf_ffs w → Z.testbit w i = false.
Proof.
  intros Hw. destruct (odd_part w) as (k & m & Hk & Hm & Heq); [lia|].
  assert (Hp : 0 < 2 ^ k) by (apply Z.pow_pos_nonneg; lia).
  assert (k < 32) by (apply (Z.pow_lt_mono_r_iff 2); nia).
  assert (tlsf_ffs w = k) as ->.
  { unfold tlsf_ffs, builtin_ffs. rewrite Heq, first_bit_odd_part; lia. }
  split; [lia|]. rewrite Heq. split.
  - rewrite testbit_odd_part by lia. by apply bool_decide_eq_true_2.
  - intros i Hi. rewrite testbit_odd_part by lia. apply bool_decide_eq_false_2. lia.
Qed.

(** The portable bit scans compute the same as the builtin ones on every
    32-bit word, zero included; [fls] is the integer logarithm. *)
Theorem tlsf_bit_scans_agree w :
  0 ≤ w < 2 ^ 32 →
  tlsf_fls_portable w = tlsf_fls w ∧ tlsf_ffs_portable w = tlsf_ffs w ∧
  tlsf_fls w = (if decide (w = 0) then -1 else Z.log2 w) ∧
  (w ≠ 0 → Z.testbit w (tlsf_ffs w) = true ∧
    ∀ i, 0 ≤ i < tlsf_ffs w → Z.testbit w i = false).
Proof.
  intros Hw. destruct (decide (w = 0)) as [->|Hnz]; [done|].
  destruct (odd_part w) as (k & m & Hk & Hm & Heq); [lia|].
  assert (Hp : 0 < 2 ^ k) by (apply Z.pow_pos_nonneg; lia).
  assert (k < 32) by (apply (Z.pow_lt_mono_r_iff 2); nia).
  assert (Hffs : tlsf_ffs w = k).
  { unfold tlsf_ffs, builtin_ffs. rewrite Heq, first_bit_odd_part; lia. }
  split_and!.
  - unfold tlsf_fls_portable. rewrite fls_generic_pos, tlsf_fls_log2 by lia. lia.
  - unfold tlsf_ffs_portable. rewrite Hffs, Heq, lowest_bit by lia.
    rewrite fls_generic_pos, Z.log2_pow2 by nia. lia.
  - apply tlsf_fls_log2. lia.
  - intros _. destruct (tlsf_ffs_lowest w) as (_ & H1 & H2); [lia|done].
Qed.

Lemma tlsf_bit_scans_witness : tlsf_ffs_portable 0x80008000 = tlsf_ffs 0x80008000.
Proof. apply (tlsf_bit_scans_agree 0x80008000). lia. Defined.

(** ** Rounding, proofs *)

Lemma land_u64_lnot y x : 0 ≤ y < 2 ^ 64 → Z.land y (u64 (Z.lnot x)) = Z.ldiff y x.
Proof.
  intros Hy. apply Z.bits_inj'. intros n Hn. rewrite Z.land_spec, Z.ldiff_spec.
  unfold u64, wrap. destruct (Z.lt_ge_cases n 64).
  - by rewrite Z.mod_pow2_bits_low, Z.lnot_spec by lia.
  - assert (Z.testbit y n = false) as ->; [|done].
    destruct (Z.eq_dec y 0) as [->|]; [apply Z.bits_0|].
    apply Z.bits_above_log2; [lia|].
    assert (Z.log2 y < 64) by (apply Z.log2_lt_pow2; lia). lia.
Qed.

Lemma pow2_mask k : 0 ≤ k < 64 → u64 (2 ^ k - 1) = Z.ones k.
Proof.
  intros Hk. assert (0 < 2 ^ k) by (apply Z.pow_pos_nonneg; lia).
  assert (2 ^ k < 2 ^ 64) by (apply Z.pow_lt_mono_r; lia).
  rewrite u64_small by lia. rewrite Z.ones_equiv. lia.
Qed.

Lemma is_pow2_mask_pow2 k : 0 ≤ k < 64 → is_pow2_mask (2 ^ k) = true.
Proof.
  intros Hk. unfold is_pow2_mask. rewrite pow2_mask by lia.
  rewrite Z.land_ones, Z.mod_same by (try apply Z.pow_nonzero; lia). done.
Qed.

Lemma align_up_pow2 x k :
  0 ≤ k < 64 → align_up x (2 ^ k) = Ok (2 ^ k * (u64 (x + (2 ^ k - 1)) / 2 ^ k)).
Proof.
  intros Hk. unfold align_up. rewrite is_pow2_mask_pow2, pow2_mask by lia.
  rewrite land_u64_lnot by apply u64_range. rewrite Z.ldiff_ones_r by lia.
  rewrite Z.shiftl_mul_pow2, Z.shiftr_div_pow2 by lia. rewrite Z.ones_equiv.
  f_equal. rewrite Z.mul_comm. do 2 f_equal.
Qed.

(** Rounding up to a power of two gives the least multiple that is not
    smaller, as long as the sum does not wrap. *)
Theorem tlsf_align_up_spec x k :
  0 ≤ k < 64 → 0 ≤ x → x + 2 ^ k - 1 < 2 ^ 64 →
  ∃ r, align_up x (2 ^ k) = Ok r ∧ r mod 2 ^ k = 0 ∧ x ≤ r < x + 2 ^ k.
Proof.
  intros Hk Hx Hs. assert (Hp : 0 < 2 ^ k) by (apply Z.pow_pos_nonneg; lia).
  eexists. split; [by apply align_up_pow2|]. rewrite u64_small by lia.
  split; [rewrite Z.mul_comm; apply Z.mod_mul; lia|].
  pose proof (Z.div_mod (x + (2 ^ k - 1)) (2 ^ k)).
  pose proof (Z.mod_pos_bound (x + (2 ^ k - 1)) (2 ^ k)). lia.
Qed.

Lemma tlsf_align_up_witness :
  ∃ r, align_up 100 (2 ^ 4) = Ok r ∧ r mod 2 ^ 4 = 0 ∧ 100 ≤ r < 100 + 2 ^ 4.
Proof. apply tlsf_align_up_spec; lia. Defined.

Lemma align_up_8 x : 0 ≤ x < 2 ^ 64 - 8 → align_up x ALIGN_SIZE = Ok (8 * ((x + 7) / 8)).
Proof.
  intros Hx. change ALIGN_SIZE with (2 ^ 3). rewrite align_up_pow2 by lia.
  change (2 ^ 3 - 1) with 7. by rewrite u64_small by lia.
Qed.

(** A request is rounded to a multiple of 8 that holds it and is neither
    below the least nor above the greatest block size; a request of 0 or of
    4 GiB less 7 bytes and more gives 0, up to the last 8 sizes. *)
Theorem tlsf_adjust_request_spec size :
  0 ≤ size < 2 ^ 64 - 8 →
  ∃ adjust, adjust_request_size size ALIGN_SIZE = Ok adjust ∧
    (if decide (0 < size ≤ 2 ^ 32 - 8)
     then size ≤ adjust ∧ adjust mod 8 = 0 ∧ block_size_min ≤ adjust < block_size_max
     else adjust = 0).
Proof.
  intros Hs. unfold adjust_request_size. change block_size_max with (2 ^ 32).
  change block_size_min with 24. destruct (Z.eqb_spec size 0) as [->|Hnz].
  { exists 0. by rewrite decide_False by lia. }
  rewrite align_up_8 by lia.
  pose proof (Z.div_mod (size + 7) 8). pose proof (Z.mod_pos_bound (size + 7) 8).
  destruct (Z.ltb_spec (8 * ((size + 7) / 8)) (2 ^ 32)).
  - eexists. split; [done|]. rewrite decide_True by lia. split_and!; [lia| |lia|lia].
    destruct (Z.max_spec (8 * ((size + 7) / 8)) 24) as [[_ ->]|[_ ->]]; [done|].
    rewrite Z.mul_comm. by apply Z.mod_mul.
  - exists 0. rewrite decide_False by lia. done.
Qed.

Lemma tlsf_adjust_request_witness :
  ∃ adjust, adjust_request_size 100 ALIGN_SIZE = Ok adjust ∧
    (if decide (0 < 100 ≤ 2 ^ 32 - 8)
     then 100 ≤ adjust ∧ adjust mod 8 = 0 ∧ block_size_min ≤ adjust < block_size_max
     else adjust = 0).
Proof. apply tlsf_adjust_request_spec. lia. Defined.

(** For the seven greatest sizes the rounding wraps to 0 and passes the
    bound, so the request is taken for one of 24 bytes. *)
Theorem tlsf_adjust_request_wraps size :
  2 ^ 64 - 7 ≤ size < 2 ^ 64 → adjust_request_size size ALIGN_SIZE = Ok block_size_min.
Proof.
  intros Hs. unfold adjust_request_size. rewrite (proj2 (Z.eqb_neq size 0)) by lia.
  change ALIGN_SIZE with (2 ^ 3). rewrite align_up_pow2 by lia.
  assert (u64 (size + (2 ^ 3 - 1)) = size + 7 - 2 ^ 64) as ->.
  { unfold u64, wrap. replace (size + (2 ^ 3 - 1)) with (size + 7 - 2 ^ 64 + 1 * 2 ^ 64) by lia.
    rewrite Z.mod_add by lia. apply Z.mod_small. lia. }
  rewrite Z.div_small by lia. done.
Qed.

Lemma tlsf_adjust_request_wraps_witness :
  adjust_request_size (2 ^ 64 - 1) ALIGN_SIZE = Ok block_size_min.
Proof. apply tlsf_adjust_request_wraps. lia. Defined.

(** ** Size classes, proofs *)

Lemma lxor_32 r : 0 ≤ r < 32 → Z.lxor (32 + r) 32 = r.
Proof.
  intros Hr. assert (Hall : Forall (λ r, Z.lxor (32 + r) 32 = r) (seqZ 0 32)) by
    (vm_compute; repeat constructor).
  rewrite Forall_forall in Hall. apply Hall, elem_of_seqZ. lia.
Qed.

Lemma mapping_insert_small size : 0 ≤ size < 256 → mapping_insert size = (0, size / 8).
Proof.
  intros Hs. unfold mapping_insert. change SMALL_BLOCK_SIZE with 256.
  destruct (Z.ltb_spec size 256); [|lia]. unfold i32. by rewrite sint_small by lia.
Qed.

Lemma mapping_insert_large size :
  256 ≤ size < 2 ^ 64 →
  mapping_insert size =
    (Z.log2 size - 7, size / 2 ^ (Z.log2 size - 5) - 32) ∧
  32 ≤ size / 2 ^ (Z.log2 size - 5) < 64 ∧ 8 ≤ Z.log2 size.
Proof.
  intros Hs. assert (Hlog : 8 ≤ Z.log2 size) by (apply (Z.log2_le_mono 256); lia).
  set (f := Z.log2 size) in *. assert (Hp : 0 < 2 ^ (f - 5)) by (apply Z.pow_pos_nonneg; lia).
  destruct (Z.log2_spec size) as [H1 H2]; [lia|]. fold f in H1, H2.
  replace f with (f - 5 + 5) in H1 by lia. replace (Z.succ f) with (f - 5 + 6) in H2 by lia.
  rewrite Z.pow_add_r in H1, H2 by lia.
  assert (Hq : 32 ≤ size / 2 ^ (f - 5) < 64).
  { split; [apply Z.div_le_lower_bound|apply Z.div_lt_upper_bound]; lia. }
  split; [|lia]. unfold mapping_insert. change SMALL_BLOCK_SIZE with 256.
  destruct (Z.ltb_spec size 256); [lia|]. rewrite tlsf_fls_sizet_log2 by lia. fold f.
  change (FL_INDEX_SHIFT - 1) with 7. f_equal. unfold SL_INDEX_COUNT_LOG2.
  rewrite Z.shiftr_div_pow2 by lia. unfold i32. rewrite sint_small by lia.
  change (Z.shiftl 1 5) with 32.
  replace (size / 2 ^ (f - 5)) with (32 + (size / 2 ^ (f - 5) - 32)) at 1 by lia.
  apply lxor_32. lia.
Qed.

Lemma mapping_insert_interval size :
  0 ≤ size < 2 ^ 64 →
  0 ≤ (mapping_insert size).1 ∧ 0 ≤ (mapping_insert size).2 < 32 ∧
  class_lo (mapping_insert size) ≤ size <
    class_lo (mapping_insert size) + class_width (mapping_insert size).1.
Proof.
  intros Hs. destruct (Z.lt_ge_cases size 256).
  - rewrite mapping_insert_small by lia. unfold class_lo, class_width. cbn [fst snd Z.eqb].
    pose proof (Z.div_mod size 8). pose proof (Z.mod_pos_bound size 8). lia.
  - destruct (mapping_insert_large size) as (-> & Hq & Hf); [lia|].
    unfold class_lo, class_width. cbn [fst snd]. set (f := Z.log2 size) in *.
    rewrite (proj2 (Z.eqb_neq (f - 7) 0)) by lia.
    replace (f - 7 + 7) with f by lia. replace (f - 7 + 2) with (f - 5) by lia.
    assert (Hp : 0 < 2 ^ (f - 5)) by (apply Z.pow_pos_nonneg; lia).
    assert (Hf2 : 2 ^ f = 32 * 2 ^ (f - 5)).
    { replace f with (5 + (f - 5)) at 1 by lia. rewrite Z.pow_add_r by lia. reflexivity. }
    pose proof (Z.div_mod size (2 ^ (f - 5))). pose proof (Z.mod_pos_bound size (2 ^ (f - 5))).
    split_and!; [lia|lia|lia|nia|nia].
Qed.

Lemma class_lo_mono c d :
  0 ≤ c.1 → 0 ≤ c.2 < 32 → 0 ≤ d.2 → class_le c d →
  class_lo c ≤ class_lo d ∧ (c ≠ d → class_lo c + class_width c.1 ≤ class_lo d).
Proof.
  destruct c as [f s], d as [g t]. unfold class_lo, class_width, class_le. cbn [fst snd].
  intros Hf Hs Ht Hle.
  assert (Hw : ∀ n, 0 ≤ n → 2 ^ (n + 7) = 32 * 2 ^ (n + 2) ∧ 0 < 2 ^ (n + 2)).
  { intros n Hn. rewrite !Z.pow_add_r by lia.
    assert (0 < 2 ^ n) by (apply Z.pow_pos_nonneg; lia). lia. }
  destruct Hle as [Hlt|[-> Hst]].
  - assert (Hg : 2 ^ (f + 8) ≤ 2 ^ (g + 7)) by (apply Z.pow_le_mono_r; lia).
    replace (f + 8) with (Z.succ (f + 7)) in Hg by lia. rewrite Z.pow_succ_r in Hg by lia.
    destruct (Hw f) as [Hf7 Hf2]; [lia|]. destruct (Hw g) as [_ Hg2]; [lia|].
    rewrite (proj2 (Z.eqb_neq g 0)) by lia.
    destruct (Z.eqb_spec f 0) as [->|]; [cbn in *; nia|split; [nia|intros _; nia]].
  - destruct (Hw g) as [_ Hg2]; [lia|]. destruct (Z.eqb_spec g 0).
    + split; [lia|]. intros Hne. assert (s ≠ t) by congruence. lia.
    + split; [nia|]. intros Hne. assert (s ≠ t) by congruence. nia.
Qed.

(** Every block size below 4 GiB is mapped to a class inside the tables,
    and the classes are the intervals of [class_lo] and [class_width]: two sizes
    share a class exactly when they fall in the same interval. *)
Theorem tlsf_mapping_insert_spec size :
  0 ≤ size < 2 ^ 32 →
  class_ok (mapping_insert size) ∧
  ∀ c, class_ok c →
    (mapping_insert size = c ↔ class_lo c ≤ size < class_lo c + class_width c.1).
Proof.
  intros Hs. destruct (mapping_insert_interval size) as (H1 & H2 & H3); [lia|].
  assert (Hok : class_ok (mapping_insert size)).
  { unfold class_ok. change FL_INDEX_COUNT with 25. change SL_INDEX_COUNT with 32.
    split; [split; [lia|]|lia]. destruct (Z.lt_ge_cases size 256).
    - rewrite mapping_insert_small by lia. simpl. lia.
    - destruct (mapping_insert_large size) as (-> & _); [lia|]. cbn [fst].
      assert (Z.log2 size < 32) by (apply Z.log2_lt_pow2; lia). lia. }
  split; [done|]. intros c Hc. split; [by intros <-|]. intros Hin.
  destruct (decide (mapping_insert size = c)) as [|Hne]; [done|exfalso].
  unfold class_ok in *. change SL_INDEX_COUNT with 32 in *.
  assert (class_le (mapping_insert size) c ∨ class_le c (mapping_insert size)) as [Hle|Hle]
    by (unfold class_le; lia).
  - destruct (class_lo_mono _ _ H1 H2 (proj1 (proj2 Hc)) Hle) as [_ Hlt]. specialize (Hlt Hne). lia.
  - destruct (class_lo_mono c (mapping_insert size)) as [_ Hlt]; [lia|lia|lia|done|].
    specialize (Hlt (not_eq_sym Hne)). lia.
Qed.

Lemma tlsf_mapping_insert_witness : class_ok (mapping_insert 1000).
Proof. apply tlsf_mapping_insert_spec. lia. Defined.

Lemma mapping_search_lo size :
  0 ≤ size < 2 ^ 32 → size mod 8 = 0 →
  size ≤ class_lo (mapping_search size) ∧
  0 ≤ (mapping_search size).1 ∧ 0 ≤ (mapping_search size).2 < 32.
Proof.
  intros Hs Hm. unfold mapping_search. change SMALL_BLOCK_SIZE with 256. destruct (Z.leb_spec 256 size).
  - assert (Hf : 8 ≤ Z.log2 size) by (apply (Z.log2_le_mono 256); lia).
    assert (Hf' : Z.log2 size < 32) by (apply Z.log2_lt_pow2; lia).
    rewrite tlsf_fls_sizet_log2 by lia. set (f := Z.log2 size) in *.
    unfold SL_INDEX_COUNT_LOG2. rewrite Z.shiftl_mul_pow2, Z.mul_1_l by lia.
    assert (Hp : 0 < 2 ^ (f - 5)) by (apply Z.pow_pos_nonneg; lia).
    assert (Hp' : 2 ^ (f - 5) ≤ 2 ^ 32) by (apply Z.pow_le_mono_r; lia).
    rewrite u64_small by lia. set (size2 := size + (2 ^ (f - 5) - 1)).
    destruct (mapping_insert_interval size2) as (H1 & H2 & H3); [lia|].
    split; [|done].
    destruct (mapping_insert_large size2) as (Heq & Hq & Hf2); [lia|].
    rewrite Heq in *. unfold class_lo, class_width in *. cbn [fst snd] in *.
    set (g := Z.log2 size2) in *.
    assert (Hfg : f ≤ g) by (apply Z.log2_le_mono; lia).
    rewrite (proj2 (Z.eqb_neq (g - 7) 0)) in * by lia.
    replace (g - 7 + 7) with g in * by lia. replace (g - 7 + 2) with (g - 5) in * by lia.
    destruct (Z.log2_spec size) as [_ Hub]; [lia|]. fold f in Hub.
    destruct (Z.eq_dec f g) as [Hfg'|Hfg'].
    + rewrite <- Hfg' in *. assert (Hg2 : 2 ^ f = 32 * 2 ^ (f - 5)).
      { replace f with (5 + (f - 5)) at 1 by lia. rewrite Z.pow_add_r by lia. reflexivity. }
      pose proof (Z.div_mod size2 (2 ^ (f - 5))).
      pose proof (Z.mod_pos_bound size2 (2 ^ (f - 5))). nia.
    + assert (2 ^ Z.succ f ≤ 2 ^ g) by (apply Z.pow_le_mono_r; lia).
      assert (0 < 2 ^ (g - 5)) by (apply Z.pow_pos_nonneg; lia). nia.
  - rewrite mapping_insert_small by lia. unfold class_lo. cbn [fst snd Z.eqb].
    pose proof (Z.div_mod size 8). pose proof (Z.mod_pos_bound size 8). lia.
Qed.

Lemma tlsf_good_fit_mono size size' :
  0 ≤ size < 2 ^ 32 → size mod 8 = 0 → 0 ≤ size' < 2 ^ 64 →
  class_le (mapping_search size) (mapping_insert size') → size ≤ size'.
Proof.
  intros Hs Hm Hs' Hle.
  destruct (mapping_search_lo size Hs Hm) as (Hlo & Hl1 & Hl2).
  destruct (mapping_insert_interval size') as (H1 & H2 & H3); [lia|].
  destruct (class_lo_mono _ _ Hl1 Hl2 (proj1 H2) Hle). lia.
Qed.

(** Good fit. Every block in the class [mapping_search] returns, or in a
    later one, is large enough for the (rounded) request. *)
Theorem tlsf_good_fit size size' :
  0 ≤ size < 2 ^ 32 → size mod 8 = 0 → 0 ≤ size' < 2 ^ 64 →
  class_le (mapping_search size) (mapping_insert size') → size ≤ size'.
Proof. apply tlsf_good_fit_mono. Qed.

Lemma tlsf_good_fit_witness :
  class_le (mapping_search 1000) (mapping_insert 1008) ∧ 1000 ≤ 1008.
Proof. split; [vm_compute; right; done|]. apply tlsf_good_fit; [lia|done|lia|vm_compute; right; done]. Defined.

End Tlsf.
