(* ===== verification/TlsfOps.v ===== *)
(** * TLSF allocator (detail/impl/tlsf.ipp, detail/tlsf.hpp)

    Block headers live in the flat memory of the prelude: the fields
    [prev_phys_block], [size], [next_free] and [prev_free] of the header at [b]
    are the words at [b], [b + 8], [b + 16] and [b + 24].  The control structure
    is a record; its member [block_null] is the header at the address [ctl] of
    the structure.  Reads and writes outside the tables or the mapped memory are
    undefined behaviour.  Loops take fuel. *)

From S2P Require Import Prelude.
From S2P Require Import TlsfBits.

Local Open Scope Z_scope.
Local Open Scope gpcl_scope.

Module TlsfAlloc.
Import Tlsf.

Record control : Type := Control {
  heap : mem;
  ctl : Z;
  fl_bitmap : Z;
  sl_bitmap : list Z;
  blocks : list (list Z);
}.

Definition set_heap (h : mem) (c : control) : control :=
  Control h (ctl c) (fl_bitmap c) (sl_bitmap c) (blocks c).
Definition set_fl_bitmap (b : Z) (c : control) : control :=
  Control (heap c) (ctl c) b (sl_bitmap c) (blocks c).
Definition set_sl_bitmap (l : list Z) (c : control) : control :=
  Control (heap c) (ctl c) (fl_bitmap c) l (blocks c).
Definition set_blocks (l : list (list Z)) (c : control) : control :=
  Control (heap c) (ctl c) (fl_bitmap c) (sl_bitmap c) l.

Abbreviation T A := (M control A).

Definition on_heap {A} (m : M mem A) : T A := zoom heap set_heap m.

(** A call of a pure function that may abort. *)
Definition lift {A} (r : outcome A) : T A := λ s, (r, s).

(** ** Header fields *)

Definition prev_phys_block (b : Z) : Z := b.
Definition size (b : Z) : Z := b + 8.
Definition next_free (b : Z) : Z := b + 16.
Definition prev_free (b : Z) : Z := b + 24.

Definition read (field : Z → Z) (b : Z) : T Z := on_heap (load (field b)).
Definition write (field : Z → Z) (b v : Z) : T unit := on_heap (store (field b) v).

(** ** Tables of the control structure *)

Definition read_sl (fl : Z) : T Z :=
  let! l := gets sl_bitmap in
  if fl <? 0 then undef else
  match l !! Z.to_nat fl with Some v => ret v | None => undef end.
Definition write_sl (fl v : Z) : T unit :=
  let! l := gets sl_bitmap in
  if fl <? 0 then undef else
  match l !! Z.to_nat fl with
  | Some _ => modify (set_sl_bitmap (<[Z.to_nat fl := v]> l))
  | None => undef
  end.
Definition read_blocks (fl sl : Z) : T Z :=
  let! t := gets blocks in
  if (fl <? 0) || (sl <? 0) then undef else
  match t !! Z.to_nat fl ≫= (.!! Z.to_nat sl) with Some v => ret v | None => undef end.
Definition write_blocks (fl sl v : Z) : T unit :=
  let! t := gets blocks in
  if (fl <? 0) || (sl <? 0) then undef else
  match t !! Z.to_nat fl with
  | Some row =>
      match row !! Z.to_nat sl with
      | Some _ => modify (set_blocks (<[Z.to_nat fl := <[Z.to_nat sl := v]> row]> t))
      | None => undef
      end
  | None => undef
  end.

(** ** Block headers *)

Definition flag_bits : Z := Z.lor block_header_free_bit block_header_prev_free_bit.
(** [~mask] as a [size_t]. *)
Definition not64 (mask : Z) : Z := u64 (Z.lnot mask).

Definition block_size (b : Z) : T Z :=
  let! s := read size b in ret (Z.land s (not64 flag_bits)).
Definition block_set_size (b sz : Z) : T unit :=
  let! oldsize := read size b in
  write size b (Z.lor sz (Z.land oldsize flag_bits)).
Definition block_is_last (b : Z) : T bool :=
  let! s := block_size b in ret (s =? 0).
Definition block_is_free (b : Z) : T bool :=
  let! s := read size b in ret (negb (Z.land s block_header_free_bit =? 0)).
Definition block_set_free (b : Z) : T unit :=
  let! s := read size b in write size b (Z.lor s block_header_free_bit).
Definition block_set_used (b : Z) : T unit :=
  let! s := read size b in write size b (Z.land s (not64 block_header_free_bit)).
Definition block_is_prev_free (b : Z) : T bool :=
  let! s := read size b in ret (negb (Z.land s block_header_prev_free_bit =? 0)).
Definition block_set_prev_free (b : Z) : T unit :=
  let! s := read size b in write size b (Z.lor s block_header_prev_free_bit).
Definition block_set_prev_used (b : Z) : T unit :=
  let! s := read size b in write size b (Z.land s (not64 block_header_prev_free_bit)).

Definition block_from_ptr (ptr : Z) : Z := u64 (ptr - block_start_offset).
Definition block_to_ptr (b : Z) : Z := u64 (b + block_start_offset).
Definition offset_to_block (ptr sz : Z) : Z := u64 (ptr + sz).

Definition block_prev (b : Z) : T Z :=
  let! pf := block_is_prev_free b in
  gpcl_assert pf ;;; read prev_phys_block b.
Definition block_next (b : Z) : T Z :=
  let! sz := block_size b in
  let next := offset_to_block (block_to_ptr b) (u64 (sz - block_header_overhead)) in
  let! last := block_is_last b in
  gpcl_assert (negb last) ;;; ret next.
Definition block_link_next (b : Z) : T Z :=
  let! next := block_next b in
  write prev_phys_block next b ;;; ret next.
Definition block_mark_as_free (b : Z) : T unit :=
  let! next := block_link_next b in
  block_set_prev_free next ;;; block_set_free b.
Definition block_mark_as_used (b : Z) : T unit :=
  let! next := block_next b in
  block_set_prev_used next ;;; block_set_used b.

(** ** Free lists *)

(** [search_suitable_block]: the block (0 for none) and the updated indices. *)
Definition search_suitable_block (fl sl : Z) : T (Z * (Z * Z)) :=
  let! sl_list := read_sl fl in
  let sl_map := Z.land sl_list (u32 (Z.shiftl 0xffffffff sl)) in
  let found (fl sl_map : Z) : T (Z * (Z * Z)) :=
    gpcl_assert (negb (sl_map =? 0)) ;;;
    let sl := tlsf_ffs sl_map in
    let! b := read_blocks fl sl in ret (b, (fl, sl)) in
  if sl_map =? 0 then
    let! flb := gets fl_bitmap in
    let fl_map := Z.land flb (u32 (Z.shiftl 0xffffffff (fl + 1))) in
    if fl_map =? 0 then ret (0, (fl, sl)) else
    let fl := tlsf_ffs fl_map in
    let! sl_map := read_sl fl in
    found fl sl_map
  else found fl sl_map.

(** [x &= ~(1U << i)] and [x |= (1U << i)]. *)
Definition clear_bit32 (x i : Z) : Z := Z.land x (u32 (Z.lnot (u32 (Z.shiftl 1 i)))).
Definition set_bit32 (x i : Z) : Z := Z.lor x (u32 (Z.shiftl 1 i)).

Definition remove_free_block (b fl sl : Z) : T unit :=
  let! prev := read prev_free b in
  let! next := read next_free b in
  gpcl_assert (negb (prev =? 0)) ;;;
  gpcl_assert (negb (next =? 0)) ;;;
  write prev_free next prev ;;;
  write next_free prev next ;;;
  let! head := read_blocks fl sl in
  if head =? b then
    write_blocks fl sl next ;;;
    let! block_null := gets ctl in
    if next =? block_null then
      let! m := read_sl fl in
      write_sl fl (clear_bit32 m sl) ;;;
      let! m := read_sl fl in
      if m =? 0 then modify (λ c, set_fl_bitmap (clear_bit32 (fl_bitmap c) fl) c) else ret tt
    else ret tt
  else ret tt.

Definition insert_free_block (b fl sl : Z) : T unit :=
  let! current := read_blocks fl sl in
  gpcl_assert (negb (current =? 0)) ;;;
  gpcl_assert (negb (b =? 0)) ;;;
  write next_free b current ;;;
  let! block_null := gets ctl in
  write prev_free b block_null ;;;
  write prev_free current b ;;;
  let! aligned := lift (align_ptr (block_to_ptr b) ALIGN_SIZE) in
  gpcl_assert (block_to_ptr b =? aligned) ;;;
  write_blocks fl sl b ;;;
  modify (λ c, set_fl_bitmap (set_bit32 (fl_bitmap c) fl) c) ;;;
  let! m := read_sl fl in
  write_sl fl (set_bit32 m sl).

Definition block_remove (b : Z) : T unit :=
  let! sz := block_size b in
  let '(fl, sl) := mapping_insert sz in remove_free_block b fl sl.
Definition block_insert (b : Z) : T unit :=
  let! sz := block_size b in
  let '(fl, sl) := mapping_insert sz in insert_free_block b fl sl.

(** ** Splitting and merging *)

Definition block_can_split (b sz : Z) : T bool :=
  let! bs := block_size b in ret (u64 (sizeof_block_header + sz) <=? bs).

Definition block_split (b sz : Z) : T Z :=
  let remaining := offset_to_block (block_to_ptr b) (u64 (sz - block_header_overhead)) in
  let! bs := block_size b in
  let remain_size := u64 (bs - u64 (sz + block_header_overhead)) in
  let! aligned := lift (align_ptr (block_to_ptr remaining) ALIGN_SIZE) in
  gpcl_assert (block_to_ptr remaining =? aligned) ;;;
  gpcl_assert (bs =? u64 (remain_size + sz + block_header_overhead)) ;;;
  block_set_size remaining remain_size ;;;
  let! rs := block_size remaining in
  gpcl_assert (block_size_min <=? rs) ;;;
  block_set_size b sz ;;;
  block_mark_as_free remaining ;;;
  ret remaining.

Definition block_absorb (prev b : Z) : T Z :=
  let! last := block_is_last prev in
  gpcl_assert (negb last) ;;;
  let! ps := read size prev in
  let! bs := block_size b in
  write size prev (u64 (ps + (bs + block_header_overhead))) ;;;
  block_link_next prev ;;;
  ret prev.

Definition block_merge_prev (b : Z) : T Z :=
  let! pf := block_is_prev_free b in
  if pf : bool then
    let! prev := block_prev b in
    gpcl_assert (negb (prev =? 0)) ;;;
    let! free := block_is_free prev in
    gpcl_assert free ;;;
    block_remove prev ;;;
    block_absorb prev b
  else ret b.

Definition block_merge_next (b : Z) : T Z :=
  let! next := block_next b in
  gpcl_assert (negb (next =? 0)) ;;;
  let! free := block_is_free next in
  if free : bool then
    let! last := block_is_last b in
    gpcl_assert (negb last) ;;;
    block_remove next ;;;
    block_absorb b next
  else ret b.

Definition block_trim_free (b sz : Z) : T unit :=
  let! free := block_is_free b in
  gpcl_assert free ;;;
  let! split := block_can_split b sz in
  if split : bool then
    let! remaining_block := block_split b sz in
    block_link_next b ;;;
    block_set_prev_free remaining_block ;;;
    block_insert remaining_block
  else ret tt.

Definition block_trim_used (b sz : Z) : T unit :=
  let! free := block_is_free b in
  gpcl_assert (negb free) ;;;
  let! split := block_can_split b sz in
  if split : bool then
    let! remaining_block := block_split b sz in
    block_set_prev_used remaining_block ;;;
    let! remaining_block := block_merge_next remaining_block in
    block_insert remaining_block
  else ret tt.

Definition block_trim_free_leading (b sz : Z) : T Z :=
  let! split := block_can_split b sz in
  if split : bool then
    let! remaining_block := block_split b (u64 (sz - block_header_overhead)) in
    block_set_prev_free remaining_block ;;;
    block_link_next b ;;;
    block_insert b ;;;
    ret remaining_block
  else ret b.

Definition block_locate_free (sz : Z) : T Z :=
  let! '(b, (fl, sl)) :=
    (if negb (sz =? 0) then
       let '(fl, sl) := mapping_search sz in
       if fl <? FL_INDEX_COUNT then search_suitable_block fl sl else ret (0, (fl, sl))
     else ret (0, (0, 0))) in
  if negb (b =? 0) then
    let! bs := block_size b in
    gpcl_assert (sz <=? bs) ;;;
    remove_free_block b fl sl ;;;
    ret b
  else ret b.

Definition block_prepare_used (b sz : Z) : T Z :=
  if negb (b =? 0) then
    gpcl_assert (negb (sz =? 0)) ;;;
    block_trim_free b sz ;;;
    block_mark_as_used b ;;;
    ret (block_to_ptr b)
  else ret 0.

(** ** Construction, checks *)

(** [control_construct]; the loops fill the tables. *)
Definition control_construct : T unit :=
  let! block_null := gets ctl in
  write next_free block_null block_null ;;;
  write prev_free block_null block_null ;;;
  modify (set_fl_bitmap 0) ;;;
  modify (set_sl_bitmap (replicate (Z.to_nat FL_INDEX_COUNT) 0)) ;;;
  modify (set_blocks (replicate (Z.to_nat FL_INDEX_COUNT)
    (replicate (Z.to_nat SL_INDEX_COUNT) block_null))).

(** [integrity_t], and [integrity_walker] with its assertions. *)
Record integrity : Type := Integrity { prev_status : Z; status : Z }.

Definition integrity_walker (ptr sz : Z) (used : bool) (integ : integrity) : T integrity :=
  let b := block_from_ptr ptr in
  let! pf := block_is_prev_free b in
  let! fr := block_is_free b in
  let! this_block_size := block_size b in
  gpcl_assert (prev_status integ =? (if pf : bool then 1 else 0)) ;;;
  gpcl_assert (sz =? this_block_size) ;;;
  ret (Integrity (if fr : bool then 1 else 0) (status integ + 0)).

(** [tlsf_walk_pool]: the walker threads its user data. *)
Fixpoint walk_loop {U} (fuel : nat) (walker : Z → Z → bool → U → T U) (b : Z) (user : U) : T U :=
  match fuel with
  | O => nofuel
  | S fuel =>
      if b =? 0 then ret user else
      let! last := block_is_last b in
      if last : bool then ret user else
      let! sz := block_size b in
      let! free := block_is_free b in
      let! user := walker (block_to_ptr b) sz (negb free) user in
      let! next := block_next b in
      walk_loop fuel walker next user
  end.
Definition tlsf_walk_pool {U} (fuel : nat) (pool : Z) (walker : Z → Z → bool → U → T U) (user : U) : T U :=
  walk_loop fuel walker (offset_to_block pool (- block_header_overhead)) user.
Definition tlsf_check_pool (fuel : nat) (pool : Z) : T Z :=
  let! integ := tlsf_walk_pool fuel pool integrity_walker (Integrity 0 0) in
  ret (status integ).

(** [tlsf_check]: the blocks of one list, then all lists. *)
Fixpoint check_list (fuel : nat) (b i j : Z) : T unit :=
  match fuel with
  | O => nofuel
  | S fuel =>
      let! block_null := gets ctl in
      if b =? block_null then ret tt else
      let! free := block_is_free b in gpcl_assert free ;;;
      let! pf := block_is_prev_free b in gpcl_assert (negb pf) ;;;
      let! next := block_next b in
      let! nfree := block_is_free next in gpcl_assert (negb nfree) ;;;
      let! next := block_next b in
      let! npf := block_is_prev_free next in gpcl_assert npf ;;;
      let! sz := block_size b in gpcl_assert (block_size_min <=? sz) ;;;
      let '(fli, sli) := mapping_insert sz in
      gpcl_assert ((fli =? i) && (sli =? j)) ;;;
      let! b := read next_free b in
      check_list fuel b i j
  end.
Definition check_class (fuel : nat) (i j : Z) : T unit :=
  let! flb := gets fl_bitmap in
  let fl_map := Z.land flb (u32 (Z.shiftl 1 i)) in
  let! sl_list := read_sl i in
  let sl_map := Z.land sl_list (u32 (Z.shiftl 1 j)) in
  let! b := read_blocks i j in
  (if fl_map =? 0 then gpcl_assert (sl_map =? 0) else ret tt) ;;;
  let! block_null := gets ctl in
  if sl_map =? 0 then gpcl_assert (b =? block_null) else
  gpcl_assert (negb (sl_list =? 0)) ;;;
  gpcl_assert (negb (b =? block_null)) ;;;
  check_list fuel b i j.
Fixpoint check_classes (fuel : nat) (cs : list (Z * Z)) : T unit :=
  match cs with
  | [] => ret tt
  | c :: cs => check_class fuel c.1 c.2 ;;; check_classes fuel cs
  end.
Definition all_classes : list (Z * Z) :=
  i ← seqZ 0 FL_INDEX_COUNT; j ← seqZ 0 SL_INDEX_COUNT; [(i, j)].
Definition tlsf_check (fuel : nat) : T Z := check_classes fuel all_classes ;;; ret 0.

(** ** Interface *)

Definition sizeof_control : Z := 6536.
Definition tlsf_size : Z := sizeof_control.
Definition tlsf_align_size : Z := ALIGN_SIZE.
Definition tlsf_block_size_min : Z := block_size_min.
Definition tlsf_block_size_max : Z := block_size_max.
Definition tlsf_pool_overhead : Z := 2 * block_header_overhead.
Definition tlsf_alloc_overhead : Z := block_header_overhead.

Definition tlsf_block_size (ptr : Z) : T Z :=
  if negb (ptr =? 0) then block_size (block_from_ptr ptr) else ret 0.

Definition tlsf_add_pool (mem bytes : Z) : T Z :=
  let! pool_bytes := lift (align_down (u64 (bytes - tlsf_pool_overhead)) ALIGN_SIZE) in
  if negb (i64 mem mod ALIGN_SIZE =? 0) then ret 0 else
  if (pool_bytes <? block_size_min) || (block_size_max <? pool_bytes) then abort else
  let b := offset_to_block mem (- block_header_overhead) in
  block_set_size b pool_bytes ;;;
  block_set_free b ;;;
  block_set_prev_used b ;;;
  block_insert b ;;;
  let! next := block_link_next b in
  block_set_size next 0 ;;;
  block_set_used next ;;;
  block_set_prev_free next ;;;
  ret mem.

Definition tlsf_remove_pool (pool : Z) : T unit :=
  let b := offset_to_block pool (- block_header_overhead) in
  let! free := block_is_free b in gpcl_assert free ;;;
  let! next := block_next b in
  let! nfree := block_is_free next in gpcl_assert (negb nfree) ;;;
  let! next := block_next b in
  let! nsz := block_size next in gpcl_assert (nsz =? 0) ;;;
  let! sz := block_size b in
  let '(fl, sl) := mapping_insert sz in
  remove_free_block b fl sl.

(** [tlsf_create(mem)] builds the control structure at [mem]. *)
Definition tlsf_create (mem : Z) : T Z :=
  if negb (i64 mem mod ALIGN_SIZE =? 0) then ret 0 else
  modify (λ c, Control (heap c) mem (fl_bitmap c) (sl_bitmap c) (blocks c)) ;;;
  control_construct ;;;
  ret mem.
Definition tlsf_create_with_pool (mem bytes : Z) : T Z :=
  let! tlsf := tlsf_create mem in
  tlsf_add_pool (u64 (mem + tlsf_size)) (u64 (bytes - tlsf_size)) ;;;
  ret tlsf.
Definition tlsf_get_pool : T Z := gets (λ c, u64 (ctl c + tlsf_size)).

Definition tlsf_malloc (sz : Z) : T Z :=
  let! adjust := lift (adjust_request_size sz ALIGN_SIZE) in
  let! b := block_locate_free adjust in
  block_prepare_used b adjust.

Definition tlsf_memalign (align sz : Z) : T Z :=
  let! adjust := lift (adjust_request_size sz ALIGN_SIZE) in
  let gap_minimum := sizeof_block_header in
  let! size_with_gap := lift (adjust_request_size (u64 (adjust + align + gap_minimum)) align) in
  let aligned_size := if negb (adjust =? 0) && (ALIGN_SIZE <? align) then size_with_gap else adjust in
  let! b := block_locate_free aligned_size in
  gpcl_assert (sizeof_block_header =? block_size_min + block_header_overhead) ;;;
  let! b :=
    (if negb (b =? 0) then
       let ptr := block_to_ptr b in
       let! aligned := lift (align_ptr ptr align) in
       let gap := u64 (aligned - ptr) in
       let! gap :=
         (if negb (gap =? 0) && (gap <? gap_minimum) then
            let gap_remain := gap_minimum - gap in
            let offset := Z.max gap_remain align in
            let next_aligned := u64 (aligned + offset) in
            let! aligned := lift (align_ptr next_aligned align) in
            ret (u64 (aligned - ptr))
          else ret gap) in
       if negb (gap =? 0) then
         gpcl_assert (gap_minimum <=? gap) ;;; block_trim_free_leading b gap
       else ret b
     else ret b) in
  block_prepare_used b adjust.

Definition tlsf_free (ptr : Z) : T unit :=
  if negb (ptr =? 0) then
    let b := block_from_ptr ptr in
    let! free := block_is_free b in
    gpcl_assert (negb free) ;;;
    block_mark_as_free b ;;;
    let! b := block_merge_prev b in
    let! b := block_merge_next b in
    block_insert b
  else ret tt.

(** [memcpy] of [n] bytes between word-aligned areas: whole words, then the low
    bytes of the last word. *)
Fixpoint copy_words (k : nat) (dst src : Z) : T unit :=
  match k with
  | O => ret tt
  | S k =>
      let! v := on_heap (load src) in
      on_heap (store dst v) ;;;
      copy_words k (dst + word_size) (src + word_size)
  end.
Definition memcpy (dst src n : Z) : T unit :=
  let k := n / word_size in
  let r := n mod word_size in
  copy_words (Z.to_nat k) dst src ;;;
  if r =? 0 then ret tt else
  let! v := on_heap (load (src + word_size * k)) in
  let! w := on_heap (load (dst + word_size * k)) in
  on_heap (store (dst + word_size * k)
    (Z.lor (Z.land v (Z.ones (8 * r))) (Z.ldiff w (Z.ones (8 * r))))).

Definition tlsf_realloc (ptr sz : Z) : T Z :=
  if negb (ptr =? 0) && (sz =? 0) then tlsf_free ptr ;;; ret 0
  else if ptr =? 0 then tlsf_malloc sz
  else
    let b := block_from_ptr ptr in
    let! next := block_next b in
    let! cursize := block_size b in
    let! nsize := block_size next in
    let combined := u64 (cursize + nsize + block_header_overhead) in
    let! adjust := lift (adjust_request_size sz ALIGN_SIZE) in
    let! free := block_is_free b in
    gpcl_assert (negb free) ;;;
    let! nfree := block_is_free next in
    if (cursize <? adjust) && (negb nfree || (combined <? adjust)) then
      let! p := tlsf_malloc sz in
      if negb (p =? 0) then
        let minsize := Z.min cursize sz in
        memcpy p ptr minsize ;;;
        tlsf_free ptr ;;;
        ret p
      else ret p
    else
      (if cursize <? adjust then block_merge_next b ;;; block_mark_as_used b else ret tt) ;;;
      block_trim_used b adjust ;;;
      ret ptr.

End TlsfAlloc.
