(* ===== verification/TlsfLists.v ===== *)
(** * TLSF: the free lists and their bitmaps

    The free-list layer of the allocator, seen as a map [L] from size classes to
    lists of blocks: [lists_ok] says the control structure and the links in
    memory represent [L].  Insertion and removal update [L], the search finds
    the first non-empty class that fits, and [block_locate_free] hands out a
    block that is large enough whenever a fitting class has one. *)

From S2P Require Import Prelude.
From S2P Require Import TlsfBits.
From S2P Require Import TlsfOps.

Local Open Scope Z_scope.
Local Open Scope gpcl_scope.

Module FreeLists.
Import Tlsf TlsfAlloc.

Abbreviation lists := (Z * Z → list Z).

Definition upd (c : Z * Z) (l : list Z) (L : lists) : lists :=
  λ d, if decide (d = c) then l else L d.

(** Headers at [a] and [b] do not overlap. *)
Definition far (a b : Z) : Prop := a + 32 ≤ b ∨ b + 32 ≤ a.

(** The blocks [l] are linked in order, from [p] in front to [e] behind. *)
Fixpoint dseg (h : mem) (p : Z) (l : list Z) (e : Z) : Prop :=
  match l with
  | [] => True
  | b :: l => h !! prev_free b = Some p ∧ h !! next_free b = Some (hd e l) ∧ dseg h b l e
  end.

Definition mask_at (st : control) (fl : Z) : Z := default 0 (sl_bitmap st !! Z.to_nat fl).
Definition head_at (st : control) (c : Z * Z) : option Z :=
  blocks st !! Z.to_nat c.1 ≫= (.!! Z.to_nat c.2).

Record lists_ok (st : control) (L : lists) : Prop := {
  lo_ctl : ctl st ≠ 0;
  lo_null : is_Some (heap st !! next_free (ctl st)) ∧ is_Some (heap st !! prev_free (ctl st));
  lo_sl_len : length (sl_bitmap st) = 25%nat;
  lo_head c : class_ok c → head_at st c = Some (hd (ctl st) (L c));
  lo_mask fl : 0 ≤ fl < 25 → 0 ≤ mask_at st fl < 2 ^ 32;
  lo_bit c : class_ok c → Z.testbit (mask_at st c.1) c.2 = bool_decide (L c ≠ []);
  lo_fl : 0 ≤ fl_bitmap st < 2 ^ 25;
  lo_fl_bit fl : 0 ≤ fl < 25 → Z.testbit (fl_bitmap st) fl = negb (mask_at st fl =? 0);
  lo_links c : class_ok c → dseg (heap st) (ctl st) (L c) (ctl st);
  lo_nonnull c b : class_ok c → b ∈ L c → b ≠ 0;
  lo_far_ctl c b : class_ok c → b ∈ L c → far (ctl st) b;
  lo_far c d a b : class_ok c → class_ok d → a ∈ L c → b ∈ L d → a = b ∨ far a b;
  lo_nodup c : class_ok c → NoDup (L c);
  lo_disj c d b : class_ok c → class_ok d → b ∈ L c → b ∈ L d → c = d;
}.

(** ** Linked segments *)

Lemma dseg_frame h h' p l e :
  (∀ b, b ∈ l → h' !! prev_free b = h !! prev_free b ∧ h' !! next_free b = h !! next_free b) →
  dseg h p l e → dseg h' p l e.
Proof.
  revert p. induction l as [|b l IH]; intros p Heq; [done|]. cbn [dseg].
  destruct (Heq b) as [-> ->]; [by left|]. intros (? & ? & ?). split_and!; [done|done|].
  apply IH; [|done]. intros c Hc. apply Heq. by right.
Qed.

Lemma dseg_app h p l1 b l2 e :
  dseg h p (l1 ++ b :: l2) e ↔
  dseg h p l1 b ∧ h !! prev_free b = Some (default p (last l1)) ∧
  h !! next_free b = Some (hd e l2) ∧ dseg h b l2 e.
Proof.
  revert p. induction l1 as [|x l1 IH]; intros p; [cbn; tauto|].
  cbn [dseg app]. rewrite IH. rewrite last_cons.
  assert (hd e (l1 ++ b :: l2) = hd b l1) as -> by (by destruct l1).
  assert (default x (last l1) = default p (match last l1 with Some y => Some y | None => Some x end))
    as -> by (by destruct (last l1)). tauto.
Qed.

Lemma dseg_join h p l1 l2 e :
  dseg h p l1 (hd e l2) → dseg h (default p (last l1)) l2 e → dseg h p (l1 ++ l2) e.
Proof.
  revert p. induction l1 as [|x l1 IH]; intros p; [done|]. cbn [dseg app].
  intros (H1 & H2 & H3) H4.
  assert (hd e (l1 ++ l2) = hd (hd e l2) l1) as -> by (by destruct l1).
  split_and!; [done|done|]. apply IH; [done|]. rewrite last_cons in H4. by destruct (last l1).
Qed.

(** Redirecting the last block's [next_free], the first block's [prev_free]. *)
Lemma dseg_set_next h p l x e e' :
  last l = Some x → NoDup l → (∀ b, b ∈ l → b = x ∨ far x b) →
  dseg h p l e → dseg (<[next_free x := e']> h) p l e'.
Proof.
  intros Hlast. apply last_Some in Hlast as [l' ->].
  rewrite NoDup_app. intros (_ & Hnin & _) Hfar (H1 & H2 & _ & _)%dseg_app.
  assert (Hne : ∀ b, b ∈ l' → b ≠ x ∧ (b = x ∨ far x b)).
  { intros b Hb. split; [intros ->; by apply (Hnin x Hb), list_elem_of_singleton|].
    apply Hfar. apply elem_of_app. by left. }
  apply dseg_app. cbn [hd dseg]. split_and!; [| |by rewrite lookup_insert_eq|done].
  - eapply dseg_frame; [|exact H1]. intros b Hb. destruct (Hne b Hb) as [Hbx [?|Hf]]; [done|].
    unfold far, next_free, prev_free in *. split; rewrite lookup_insert_ne by lia; done.
  - rewrite lookup_insert_ne by (unfold next_free, prev_free; lia). done.
Qed.

Lemma dseg_set_prev h p p' x l e :
  NoDup (x :: l) → (∀ b, b ∈ l → far x b) →
  dseg h p (x :: l) e → dseg (<[prev_free x := p']> h) p' (x :: l) e.
Proof.
  intros Hnd Hfar (H1 & H2 & H3). cbn [dseg]. split_and!.
  - by rewrite lookup_insert_eq.
  - rewrite lookup_insert_ne by (unfold next_free, prev_free; lia). done.
  - eapply dseg_frame; [|exact H3]. intros b Hb. specialize (Hfar b Hb).
    unfold far, next_free, prev_free in *. split; rewrite lookup_insert_ne by lia; done.
Qed.

(** ** Steps *)

Lemma set_heap_heap st : set_heap (heap st) st = st.
Proof. by destruct st. Qed.

Lemma read_ok field b v st : heap st !! field b = Some v → read field b st = (Ok v, st).
Proof.
  intros H. unfold read, on_heap. erewrite zoom_eq by (by apply load_ok).
  by rewrite set_heap_heap.
Qed.
Lemma write_ok field b v st :
  is_Some (heap st !! field b) →
  write field b v st = (Ok tt, set_heap (<[field b := v]> (heap st)) st).
Proof. intros H. unfold write, on_heap. by erewrite zoom_eq by (by apply store_ok). Qed.

Lemma class_ok_nat c :
  class_ok c → (c.1 <? 0) = false ∧ (c.2 <? 0) = false ∧
    (Z.to_nat c.1 < 25)%nat ∧ (Z.to_nat c.2 < 32)%nat.
Proof.
  unfold class_ok. change FL_INDEX_COUNT with 25. change SL_INDEX_COUNT with 32. lia.
Qed.

Lemma read_blocks_ok fl sl v st :
  class_ok (fl, sl) → head_at st (fl, sl) = Some v → read_blocks fl sl st = (Ok v, st).
Proof.
  intros (H1 & H2 & _)%class_ok_nat Hh. unfold read_blocks. rewrite bind_gets.
  cbn [fst snd] in *. rewrite H1, H2. cbn [orb]. unfold head_at in Hh. cbn [fst snd] in Hh.
  by rewrite Hh.
Qed.

(** The table with the head of class [c] replaced. *)
Definition set_head (c : Z * Z) (v : Z) (t : list (list Z)) : list (list Z) :=
  match t !! Z.to_nat c.1 with
  | Some row => <[Z.to_nat c.1 := <[Z.to_nat c.2 := v]> row]> t
  | None => t
  end.
Lemma write_blocks_ok fl sl v st :
  class_ok (fl, sl) → is_Some (head_at st (fl, sl)) →
  write_blocks fl sl v st = (Ok tt, set_blocks (set_head (fl, sl) v (blocks st)) st).
Proof.
  intros (H1 & H2 & _)%class_ok_nat [w Hh]. unfold write_blocks. rewrite bind_gets.
  cbn [fst snd] in *. rewrite H1, H2. cbn [orb]. unfold head_at, set_head in *. cbn [fst snd] in *.
  destruct (blocks st !! Z.to_nat fl) as [row|]; [|done]. cbn in Hh. by rewrite Hh.
Qed.
Lemma head_at_set_head st c d v :
  class_ok c → class_ok d → is_Some (head_at st c) →
  head_at (set_blocks (set_head c v (blocks st)) st) d =
    if decide (d = c) then Some v else head_at st d.
Proof.
  destruct c as [f s], d as [g t]. intros Hc Hd [w Hh]. unfold head_at, set_head in *.
  cbn [blocks set_blocks fst snd] in *.
  destruct (blocks st !! Z.to_nat f) as [row|] eqn:Hrow; [|done]. cbn in Hh.
  assert (Hinj : ∀ x y, 0 ≤ x → 0 ≤ y → Z.to_nat x = Z.to_nat y → x = y) by lia.
  destruct Hc as [[Hc1 _] [Hc2 _]], Hd as [[Hd1 _] [Hd2 _]]. cbn [fst snd] in *.
  destruct (decide (f = g)) as [->|Hfg].
  - rewrite list_lookup_insert_eq by (by eapply lookup_lt_Some). cbn.
    destruct (decide (s = t)) as [->|Hst].
    + rewrite decide_True by done. apply list_lookup_insert_eq. by eapply lookup_lt_Some.
    + rewrite decide_False by congruence. rewrite list_lookup_insert_ne by (intros ?; by apply Hst, Hinj).
      by rewrite Hrow.
  - rewrite decide_False by congruence.
    rewrite list_lookup_insert_ne by (intros ?; by apply Hfg, Hinj). done.
Qed.

Lemma read_sl_ok fl st :
  length (sl_bitmap st) = 25%nat → 0 ≤ fl < 25 → read_sl fl st = (Ok (mask_at st fl), st).
Proof.
  intros Hl Hf. unfold read_sl, mask_at. rewrite bind_gets.
  rewrite (proj2 (Z.ltb_ge fl 0)) by lia.
  destruct (lookup_lt_is_Some_2 (sl_bitmap st) (Z.to_nat fl)) as [v ->]; [lia|done].
Qed.
Lemma write_sl_ok fl v st :
  length (sl_bitmap st) = 25%nat → 0 ≤ fl < 25 →
  write_sl fl v st = (Ok tt, set_sl_bitmap (<[Z.to_nat fl := v]> (sl_bitmap st)) st).
Proof.
  intros Hl Hf. unfold write_sl. rewrite bind_gets. rewrite (proj2 (Z.ltb_ge fl 0)) by lia.
  destruct (lookup_lt_is_Some_2 (sl_bitmap st) (Z.to_nat fl)) as [w ->]; [lia|done].
Qed.
Lemma mask_at_set st fl g v :
  length (sl_bitmap st) = 25%nat → 0 ≤ fl < 25 → 0 ≤ g < 25 →
  mask_at (set_sl_bitmap (<[Z.to_nat fl := v]> (sl_bitmap st)) st) g =
    if decide (g = fl) then v else mask_at st g.
Proof.
  intros Hl Hf Hg. unfold mask_at. cbn [sl_bitmap set_sl_bitmap]. case_decide as Heq.
  - subst. by rewrite list_lookup_insert_eq by lia.
  - by rewrite list_lookup_insert_ne by lia.
Qed.

(** ** Bits *)

Lemma testbit_small x n k : 0 ≤ x < 2 ^ n → 0 ≤ n ≤ k → Z.testbit x k = false.
Proof.
  intros Hx Hn. destruct (Z.eq_dec x 0) as [->|]; [apply Z.bits_0|].
  apply Z.bits_above_log2; [lia|]. assert (Z.log2 x < n) by (apply Z.log2_lt_pow2; lia). lia.
Qed.

Lemma bits_small x n : 0 ≤ n → 0 ≤ x → (∀ k, n ≤ k → Z.testbit x k = false) → x < 2 ^ n.
Proof.
  intros Hn Hx Hb. destruct (Z.eq_dec x 0) as [->|]; [by apply Z.pow_pos_nonneg|].
  apply Z.log2_lt_pow2; [lia|]. destruct (Z.lt_ge_cases (Z.log2 x) n) as [|Hge]; [done|].
  specialize (Hb _ Hge). rewrite Z.bit_log2 in Hb by lia. done.
Qed.

Lemma u32_shiftl_1 i : 0 ≤ i < 32 → u32 (Z.shiftl 1 i) = 2 ^ i.
Proof.
  intros Hi. rewrite Z.shiftl_1_l. apply u32_small.
  split; [apply Z.pow_nonneg; lia|apply Z.pow_lt_mono_r; lia].
Qed.

Lemma testbit_set_bit32 x i k :
  0 ≤ i < 32 → 0 ≤ k → Z.testbit (set_bit32 x i) k = bool_decide (k = i) || Z.testbit x k.
Proof.
  intros Hi Hk. unfold set_bit32. rewrite u32_shiftl_1, Z.lor_spec, Z.pow2_bits_eqb by lia.
  rewrite orb_comm. f_equal. case_bool_decide; subst; [apply Z.eqb_refl|apply Z.eqb_neq; lia].
Qed.
Lemma testbit_clear_bit32 x i k :
  0 ≤ x < 2 ^ 32 → 0 ≤ i < 32 → 0 ≤ k →
  Z.testbit (clear_bit32 x i) k = negb (bool_decide (k = i)) && Z.testbit x k.
Proof.
  intros Hx Hi Hk. unfold clear_bit32. rewrite u32_shiftl_1 by lia. rewrite Z.land_spec.
  unfold u32, wrap. destruct (Z.lt_ge_cases k 32).
  - rewrite Z.mod_pow2_bits_low, Z.lnot_spec, Z.pow2_bits_eqb by lia. rewrite andb_comm. f_equal.
    f_equal. case_bool_decide; subst; [apply Z.eqb_refl|apply Z.eqb_neq; lia].
  - by rewrite (testbit_small x 32 k), andb_false_r by lia.
Qed.

Lemma set_bit32_range x i n : 0 ≤ x < 2 ^ n → 0 ≤ i < n → n ≤ 32 → 0 ≤ set_bit32 x i < 2 ^ n.
Proof.
  intros Hx Hi Hn. split.
  - unfold set_bit32. rewrite u32_shiftl_1 by lia. apply Z.lor_nonneg.
    split; [lia|apply Z.pow_nonneg; lia].
  - apply bits_small; [lia| |].
    + unfold set_bit32. rewrite u32_shiftl_1 by lia. apply Z.lor_nonneg.
      split; [lia|apply Z.pow_nonneg; lia].
    + intros k Hk. rewrite testbit_set_bit32 by lia. rewrite bool_decide_eq_false_2 by lia.
      apply (testbit_small x n); lia.
Qed.
Lemma clear_bit32_range x i n : 0 ≤ x < 2 ^ n → 0 ≤ i < 32 → 0 ≤ n ≤ 32 → 0 ≤ clear_bit32 x i < 2 ^ n.
Proof.
  intros Hx Hi Hn. assert (0 ≤ clear_bit32 x i) by (apply Z.land_nonneg; lia).
  assert (2 ^ n ≤ 2 ^ 32) by (apply Z.pow_le_mono_r; lia).
  split; [done|]. apply bits_small; [lia|done|]. intros k Hk.
  rewrite testbit_clear_bit32 by lia. by rewrite (testbit_small x n k), andb_false_r by lia.
Qed.

Lemma zero_bits x n : 0 ≤ x < 2 ^ n → 0 ≤ n → (∀ k, 0 ≤ k < n → Z.testbit x k = false) → x = 0.
Proof.
  intros Hx Hn Hb. apply Z.bits_inj'. intros k Hk. rewrite Z.bits_0.
  destruct (Z.lt_ge_cases k n); [apply Hb; lia|apply (testbit_small x n); lia].
Qed.

Lemma nonzero_bit x k : Z.testbit x k = true → x ≠ 0.
Proof. intros H ->. by rewrite Z.bits_0 in H. Qed.

(** ** Insertion *)

(** A header the lists may take: mapped, aligned, apart from all others. *)
Record fresh (st : control) (L : lists) (b : Z) : Prop := {
  fr_range : 0 < b < 2 ^ 63;
  fr_align : b mod 8 = 0;
  fr_next : is_Some (heap st !! next_free b);
  fr_prev : is_Some (heap st !! prev_free b);
  fr_far_ctl : far (ctl st) b;
  fr_far c a : class_ok c → a ∈ L c → far a b;
}.

Definition inserted (st : control) (c : Z * Z) (b : Z) : control :=
  let cur := default 0 (head_at st c) in
  let h := <[prev_free cur := b]> (<[prev_free b := ctl st]> (<[next_free b := cur]> (heap st))) in
  Control h (ctl st) (set_bit32 (fl_bitmap st) c.1)
    (<[Z.to_nat c.1 := set_bit32 (mask_at st c.1) c.2]> (sl_bitmap st))
    (set_head c b (blocks st)).

Lemma align_ptr_aligned b : 0 < b < 2 ^ 63 → b mod 8 = 0 →
  block_to_ptr b = b + 16 ∧ align_ptr (block_to_ptr b) ALIGN_SIZE = Ok (b + 16).
Proof.
  intros Hb Hm. unfold block_to_ptr, block_start_offset. rewrite u64_small by lia.
  split; [done|]. unfold align_ptr. rewrite align_up_8 by lia. f_equal.
  apply Z.mod_divide in Hm as [k ->]; [|lia].
  replace (k * 8 + 16 + 7) with (7 + (k + 2) * 8) by lia. rewrite Z.div_add by lia.
  change (7 / 8) with 0. lia.
Qed.

Lemma hd_cases (L : lists) c e :
  (L c = [] ∧ hd e (L c) = e) ∨ (∃ x l, L c = x :: l ∧ hd e (L c) = x).
Proof. destruct (L c) as [|x l]; [by left|right; by eauto]. Qed.

(** The head of a list is the null block or a member. *)
Lemma head_mapped st L c :
  lists_ok st L → class_ok c →
  hd (ctl st) (L c) ≠ 0 ∧ is_Some (heap st !! prev_free (hd (ctl st) (L c))).
Proof.
  intros Hok Hc. destruct (hd_cases L c (ctl st)) as [[_ ->]|(x & l & Hl & ->)].
  - split; [apply (lo_ctl _ _ Hok)|apply (lo_null _ _ Hok)].
  - split; [apply (lo_nonnull _ _ Hok c); [done|rewrite Hl; by left]|].
    pose proof (lo_links _ _ Hok c Hc) as Hd. rewrite Hl in Hd. destruct Hd as [-> _]. eauto.
Qed.

Ltac run H := rewrite (bind_ok _ _ _ _ _ H).

Lemma insert_free_block_run st L b fl sl :
  lists_ok st L → fresh st L b → class_ok (fl, sl) →
  insert_free_block b fl sl st = (Ok tt, inserted st (fl, sl) b).
Proof.
  intros Hok Hf Hc. destruct (head_mapped st L _ Hok Hc) as [Hcur Hcurm].
  pose proof (lo_head _ _ Hok _ Hc) as Hh. set (cur := hd (ctl st) (L (fl, sl))) in *.
  destruct (align_ptr_aligned b (fr_range _ _ _ Hf) (fr_align _ _ _ Hf)) as [Hptr Hal].
  unfold insert_free_block. run (read_blocks_ok fl sl cur st Hc Hh).
  rewrite !bind_assert by (by apply negb_true_iff, Z.eqb_neq; pose proof (fr_range _ _ _ Hf); lia).
  run (write_ok next_free b cur st (fr_next _ _ _ Hf)). rewrite bind_gets.
  erewrite bind_ok; [|apply write_ok, lookup_insert_is_Some'; right; apply (fr_prev _ _ _ Hf)].
  erewrite bind_ok; [|apply write_ok; cbn [heap set_heap]; rewrite !lookup_insert_is_Some'; auto].
  unfold lift. rewrite Hal. unfold bind at 1. rewrite bind_assert by (apply Z.eqb_eq; lia).
  erewrite bind_ok; [|apply write_blocks_ok; [done|unfold head_at in *; cbn; eauto]].
  rewrite bind_modify.
  destruct Hc as [Hc1 Hc2]. change FL_INDEX_COUNT with 25 in Hc1. cbn [fst] in Hc1.
  erewrite bind_ok; [|apply read_sl_ok; [apply (lo_sl_len _ _ Hok)|done]].
  rewrite write_sl_ok; [|apply (lo_sl_len _ _ Hok)|done].
  unfold inserted. rewrite Hh. cbn. reflexivity.
Qed.

Lemma far_sym a b : far a b → far b a.
Proof. unfold far. lia. Qed.
Lemma far_ne a b : far a b → a ≠ b.
Proof. unfold far. lia. Qed.
Lemma far_cells a b :
  far a b → prev_free a ≠ prev_free b ∧ next_free a ≠ next_free b ∧
    prev_free a ≠ next_free b ∧ next_free a ≠ prev_free b.
Proof. unfold far, prev_free, next_free. lia. Qed.

Lemma own_cells b : next_free b ≠ prev_free b.
Proof. unfold next_free, prev_free. lia. Qed.

(** The head of class [c] is far from every other listed block. *)
Lemma head_far st L c d x :
  lists_ok st L → class_ok c → class_ok d → x ∈ L d →
  x = hd (ctl st) (L c) ∨ far (hd (ctl st) (L c)) x.
Proof.
  intros Hok Hc Hd Hx. destruct (hd_cases L c (ctl st)) as [[_ ->]|(y & l & Hl & ->)].
  - right. by apply (lo_far_ctl _ _ Hok d).
  - destruct (lo_far _ _ Hok c d y x) as [->|?]; [done|done|rewrite Hl; by left|done|by left|by right].
Qed.

Lemma inserted_links st L b c d :
  lists_ok st L → fresh st L b → class_ok c → class_ok d →
  dseg (heap (inserted st c b)) (ctl st) (upd c (b :: L c) L d) (ctl st).
Proof.
  intros Hok Hf Hc Hd. unfold inserted. rewrite (lo_head _ _ Hok c Hc). cbn [heap].
  change (default 0 (Some ?x)) with x.
  set (cur := hd (ctl st) (L c)).
  assert (Hcur : far cur b).
  { unfold cur. destruct (hd_cases L c (ctl st)) as [[_ ->]|(y & l & Hl & ->)].
    - apply (fr_far_ctl _ _ _ Hf).
    - apply (fr_far _ _ _ Hf c); [done|]. rewrite Hl. by left. }
  pose proof (own_cells b) as Hown. destruct (far_cells _ _ Hcur) as (Hc1 & Hc2 & Hc3 & Hc4).
  set (h1 := <[prev_free b := ctl st]> (<[next_free b := cur]> (heap st))).
  assert (Hfr : ∀ x, far x b → h1 !! prev_free x = heap st !! prev_free x ∧
    h1 !! next_free x = heap st !! next_free x).
  { intros x (H1 & H2 & H3 & H4)%far_cells. unfold h1. rewrite !lookup_insert_ne by done. done. }
  assert (Hseg : ∀ d, class_ok d → dseg h1 (ctl st) (L d) (ctl st)).
  { intros e He. eapply dseg_frame; [|by apply (lo_links _ _ Hok)]. intros x Hx.
    apply Hfr. by apply (fr_far _ _ _ Hf e). }
  unfold upd. case_decide as Hdc; [subst d|].
  - cbn [dseg]. rewrite (lookup_insert_ne _ _ (prev_free b)) by done.
    rewrite (lookup_insert_ne _ _ (next_free b)) by done.
    split_and!; [by unfold h1; rewrite lookup_insert_eq|
      by unfold h1; rewrite lookup_insert_ne, lookup_insert_eq by done|]. pose proof (Hseg c Hc) as Hs. pose proof (lo_nodup _ _ Hok c Hc) as Hnd.
    destruct (hd_cases L c (ctl st)) as [[-> _]|(y & l & Hl & Heq)]; [done|].
    fold cur in Heq. clearbody h1 cur. subst cur. rewrite Hl in Hs, Hnd |- *.
    apply (dseg_set_prev _ (ctl st)); [done| |done].
    intros x Hx. destruct (lo_far _ _ Hok c c y x) as [->|?]; try done;
      [rewrite Hl; by left|rewrite Hl; by right|]. by apply NoDup_cons in Hnd as [? _].
  - eapply dseg_frame; [|by apply Hseg]. intros x Hx.
    destruct (head_far st L c d x Hok Hc Hd Hx) as [Heq|Hx2].
    + exfalso. destruct (hd_cases L c (ctl st)) as [[Hl Hh]|(y & l & Hl & Hh)].
      * rewrite Hh in Heq. subst x. by pose proof (far_ne _ _ (lo_far_ctl _ _ Hok d _ Hd Hx)).
      * apply Hdc, (lo_disj _ _ Hok d c x Hd Hc Hx). rewrite Hl, Heq, Hh. by left.
    + apply far_cells in Hx2 as (H1 & H2 & H3 & H4). rewrite !lookup_insert_ne by done. done.
Qed.

Lemma upd_same c l L : upd c l L c = l.
Proof. unfold upd. by rewrite decide_True. Qed.
Lemma upd_other c d l L : d ≠ c → upd c l L d = L d.
Proof. intros. unfold upd. by rewrite decide_False. Qed.

Lemma class_ok_bounds c : class_ok c → 0 ≤ c.1 < 25 ∧ 0 ≤ c.2 < 32.
Proof. done. Qed.

(** Membership in the lists after an insertion. *)
Lemma upd_cons_elem c b (L : lists) d x :
  x ∈ upd c (b :: L c) L d → (x = b ∧ d = c) ∨ x ∈ L d.
Proof.
  unfold upd. case_decide as H; [subst d|by right]. intros [->|?]%elem_of_cons; auto.
Qed.

Lemma inserted_ok st L b c :
  lists_ok st L → fresh st L b → class_ok c →
  lists_ok (inserted st c b) (upd c (b :: L c) L).
Proof.
  intros Hok Hf Hc. destruct (class_ok_bounds c Hc) as [Hb1 Hb2].
  pose proof (lo_sl_len _ _ Hok) as Hlen. pose proof (lo_mask _ _ Hok c.1 Hb1) as Hm.
  assert (Hmask : ∀ g, 0 ≤ g < 25 → mask_at (inserted st c b) g =
    if decide (g = c.1) then set_bit32 (mask_at st c.1) c.2 else mask_at st g).
  { intros g Hg. by apply (mask_at_set st). }
  split.
  - apply (lo_ctl _ _ Hok).
  - destruct (lo_null _ _ Hok). cbn. rewrite !lookup_insert_is_Some'. auto.
  - cbn. by rewrite length_insert.
  - intros d Hd. pose proof (head_at_set_head st c d b Hc Hd) as Hh.
    change (head_at (inserted st c b) d) with
      (head_at (set_blocks (set_head c b (blocks st)) st) d).
    rewrite Hh by (rewrite (lo_head _ _ Hok) by done; eauto). unfold upd.
    case_decide; [done|]. by apply (lo_head _ _ Hok).
  - intros g Hg. rewrite Hmask by done. case_decide; [|by apply (lo_mask _ _ Hok)].
    apply set_bit32_range; lia.
  - intros [g t] Hd. destruct (class_ok_bounds _ Hd) as [Hg Ht]. cbn [fst snd] in *.
    rewrite Hmask by done. unfold upd. destruct c as [f s0]. cbn [fst snd] in *.
    pose proof (lo_bit _ _ Hok (g, t) Hd) as Hbit. cbn [fst snd] in Hbit.
    destruct (decide (g = f)) as [->|Hgf].
    + rewrite testbit_set_bit32 by lia. rewrite Hbit. destruct (decide (t = s0)) as [->|Hts].
      * rewrite decide_True by done. rewrite (bool_decide_eq_true_2 (s0 = s0)) by done.
        by rewrite (bool_decide_eq_true_2 (b :: _ ≠ [])).
      * rewrite decide_False by congruence. by rewrite (bool_decide_eq_false_2 (t = s0)).
    + rewrite decide_False by congruence. done.
  - apply set_bit32_range; [apply (lo_fl _ _ Hok)|lia|lia].
  - intros g Hg. cbn [fl_bitmap inserted]. rewrite testbit_set_bit32, Hmask by lia.
    rewrite (lo_fl_bit _ _ Hok) by done. destruct (decide (g = c.1)) as [->|].
    + rewrite bool_decide_eq_true_2 by done. cbn [orb]. symmetry. apply negb_true_iff, Z.eqb_neq.
      apply (nonzero_bit _ c.2). rewrite testbit_set_bit32 by lia.
      by rewrite bool_decide_eq_true_2.
    + by rewrite bool_decide_eq_false_2.
  - intros d Hd. change (ctl (inserted st c b)) with (ctl st). by apply inserted_links.
  - intros d x Hd [[-> _]|Hx]%upd_cons_elem; [pose proof (fr_range _ _ _ Hf); lia|].
    by apply (lo_nonnull _ _ Hok d).
  - intros d x Hd [[-> _]|Hx]%upd_cons_elem; [apply (fr_far_ctl _ _ _ Hf)|].
    by apply (lo_far_ctl _ _ Hok d).
  - intros d e x y Hd He [[-> _]|Hx]%upd_cons_elem [[-> _]|Hy]%upd_cons_elem.
    + by left.
    + right. apply far_sym. by apply (fr_far _ _ _ Hf e).
    + right. by apply (fr_far _ _ _ Hf d).
    + by apply (lo_far _ _ Hok d e).
  - intros d Hd. unfold upd. case_decide; [|by apply (lo_nodup _ _ Hok)].
    apply NoDup_cons. split; [|by apply (lo_nodup _ _ Hok)].
    intros Hin. by destruct (far_ne b b); [apply (fr_far _ _ _ Hf c)|].
  - intros d e x Hd He [[-> ->]|Hx]%upd_cons_elem [[Hy ->]|Hy]%upd_cons_elem; [done| | |].
    + by destruct (far_ne b b); [apply (fr_far _ _ _ Hf e)|].
    + subst x. by destruct (far_ne b b); [apply (fr_far _ _ _ Hf d)|].
    + by apply (lo_disj _ _ Hok d e x).
Qed.

(** ** Removal *)

(** The neighbours of the block between [l1] and [l2]. *)
Definition prev_of (st : control) (l1 : list Z) : Z := default (ctl st) (last l1).
Definition next_of (st : control) (l2 : list Z) : Z := hd (ctl st) l2.

Definition unlinked (st : control) (l1 l2 : list Z) : mem :=
  <[next_free (prev_of st l1) := next_of st l2]>
    (<[prev_free (next_of st l2) := prev_of st l1]> (heap st)).

Definition removed (st : control) (c : Z * Z) (l1 l2 : list Z) : control :=
  let h := unlinked st l1 l2 in
  match l1, l2 with
  | [], [] =>
      let m := clear_bit32 (mask_at st c.1) c.2 in
      Control h (ctl st)
        (if m =? 0 then clear_bit32 (fl_bitmap st) c.1 else fl_bitmap st)
        (<[Z.to_nat c.1 := m]> (sl_bitmap st)) (set_head c (ctl st) (blocks st))
  | [], next :: _ =>
      Control h (ctl st) (fl_bitmap st) (sl_bitmap st) (set_head c next (blocks st))
  | _, _ => Control h (ctl st) (fl_bitmap st) (sl_bitmap st) (blocks st)
  end.

Section removal.
Context (st : control) (L : lists) (c : Z * Z) (b : Z) (l1 l2 : list Z).
Context (Hok : lists_ok st L) (Hc : class_ok c) (HL : L c = l1 ++ b :: l2).

Lemma member_in x : x ∈ l1 ∨ x = b ∨ x ∈ l2 → x ∈ L c.
Proof using HL. rewrite HL, elem_of_app, elem_of_cons. tauto. Qed.

Lemma prev_of_cases :
  (l1 = [] ∧ prev_of st l1 = ctl st) ∨
  (∃ l x, l1 = l ++ [x] ∧ prev_of st l1 = x ∧ x ∈ L c).
Proof using HL.
  unfold prev_of. destruct l1 as [|y l _] using rev_ind; [by left|right].
  exists l, y. rewrite last_snoc. split_and!; [done|done|].
  rewrite HL, !elem_of_app. left. right. by apply list_elem_of_singleton.
Qed.
Lemma next_of_cases :
  (l2 = [] ∧ next_of st l2 = ctl st) ∨ (∃ x l, l2 = x :: l ∧ next_of st l2 = x ∧ x ∈ L c).
Proof using HL.
  unfold next_of. destruct l2 as [|x l]; [by left|right]. exists x, l. split_and!; [done|done|].
  rewrite HL, elem_of_app. right. right. by left.
Qed.

Lemma member_links x :
  x ∈ L c → is_Some (heap st !! next_free x) ∧ is_Some (heap st !! prev_free x).
Proof using Hok Hc.
  intros (k1 & k2 & Heq)%list_elem_of_split. pose proof (lo_links _ _ Hok c Hc) as Hd.
  rewrite Heq in Hd. apply dseg_app in Hd as (_ & -> & -> & _). eauto.
Qed.

Lemma prev_of_ok : prev_of st l1 ≠ 0 ∧ is_Some (heap st !! next_free (prev_of st l1)).
Proof using Hok Hc HL.
  destruct prev_of_cases as [[_ ->]|(l & x & _ & -> & Hx)].
  - split; [apply (lo_ctl _ _ Hok)|apply (lo_null _ _ Hok)].
  - split; [by apply (lo_nonnull _ _ Hok c)|by apply member_links].
Qed.
Lemma next_of_ok : next_of st l2 ≠ 0 ∧ is_Some (heap st !! prev_free (next_of st l2)).
Proof using Hok Hc HL.
  destruct next_of_cases as [[_ ->]|(x & l & _ & -> & Hx)].
  - split; [apply (lo_ctl _ _ Hok)|apply (lo_null _ _ Hok)].
  - split; [by apply (lo_nonnull _ _ Hok c)|by apply member_links].
Qed.

Lemma not_in_rest : (b ∉ l1) ∧ (b ∉ l2).
Proof using Hok Hc HL.
  pose proof (lo_nodup _ _ Hok c Hc) as Hnd. rewrite HL in Hnd.
  apply NoDup_app in Hnd as (_ & Hd & [? _]%NoDup_cons). split; [|done].
  intros Hb. apply (Hd b Hb). by left.
Qed.

Lemma remove_free_block_run :
  remove_free_block b c.1 c.2 st = (Ok tt, removed st c l1 l2).
Proof using Hok Hc HL.
  pose proof (lo_links _ _ Hok c Hc) as Hd. rewrite HL in Hd.
  apply dseg_app in Hd as (_ & Hp & Hn & _). fold (prev_of st l1) in Hp. fold (next_of st l2) in Hn.
  destruct prev_of_ok as [Hp0 Hpm]. destruct next_of_ok as [Hn0 Hnm].
  pose proof next_of_cases as Hncases. destruct not_in_rest as [Hnin _].
  unfold remove_free_block. run (read_ok prev_free b _ st Hp). run (read_ok next_free b _ st Hn).
  rewrite !bind_assert by (by apply negb_true_iff, Z.eqb_neq).
  run (write_ok prev_free _ (prev_of st l1) st Hnm).
  erewrite bind_ok; [|apply write_ok, lookup_insert_is_Some'; auto].
  cbn [heap set_heap]. fold (unlinked st l1 l2).
  pose proof (lo_head _ _ Hok c Hc) as Hh. destruct c as [fl sl]. cbn [fst snd].
  erewrite bind_ok; [|apply (read_blocks_ok fl sl); [done|exact Hh]].
  rewrite HL in Hh |- *. unfold removed. destruct l1 as [|x k1]; cbn [app hd] in Hh |- *.
  - rewrite Z.eqb_refl. erewrite bind_ok; [|apply write_blocks_ok; [done|unfold head_at in *; cbn; eauto]].
    rewrite bind_gets. cbn [ctl set_blocks set_heap].
    destruct Hncases as [[-> Hn']|(x & l & -> & Hn' & Hx)]; rewrite Hn'.
    + rewrite Z.eqb_refl.
      pose proof (lo_sl_len _ _ Hok) as Hlen. destruct (class_ok_bounds _ Hc) as [Hb1 Hb2].
      erewrite bind_ok; [|apply read_sl_ok; done].
      erewrite bind_ok; [|apply write_sl_ok; done].
      erewrite bind_ok; [|apply read_sl_ok; [cbn; by rewrite length_insert|done]].
      rewrite (mask_at_set _ fl fl) by done. rewrite decide_True by done. cbn [fst snd].
      change (mask_at (set_blocks ?t (set_heap ?h (set_heap ?h' st))) fl) with (mask_at st fl).
      destruct (clear_bit32 (mask_at st fl) sl =? 0); done.
    + rewrite (proj2 (Z.eqb_neq x (ctl st))); [done|].
      intros ->. by apply (far_ne _ _ (lo_far_ctl _ _ Hok _ _ Hc Hx)).
  - rewrite (proj2 (Z.eqb_neq x b)); [done|]. intros ->.
    apply Hnin. by left.
Qed.

(** The cells of a listed block other than the neighbours are not touched. *)
Lemma unlinked_other x :
  (x = prev_of st l1 ∨ far (prev_of st l1) x) → (x = next_of st l2 ∨ far (next_of st l2) x) →
  (x ≠ next_of st l2 → unlinked st l1 l2 !! prev_free x = heap st !! prev_free x) ∧
  (x ≠ prev_of st l1 → unlinked st l1 l2 !! next_free x = heap st !! next_free x).
Proof.
  intros H1 H2. unfold unlinked. pose proof (own_cells x) as Hx. split; intros Hne.
  - destruct H2 as [?|(Ha & Hb & Hd & He)%far_cells]; [done|].
    rewrite lookup_insert_ne; [by rewrite lookup_insert_ne|].
    destruct H1 as [<-|(? & ? & ? & ?)%far_cells]; done.
  - destruct H1 as [?|(Ha & Hb & Hd & He)%far_cells]; [done|].
    rewrite lookup_insert_ne by done. rewrite lookup_insert_ne; [done|].
    destruct H2 as [<-|(? & ? & ? & ?)%far_cells]; done.
Qed.

Lemma member_far_next d x : class_ok d → x ∈ L d → x = next_of st l2 ∨ far (next_of st l2) x.
Proof using Hok Hc HL.
  intros Hd Hx. destruct next_of_cases as [[_ ->]|(y & l & _ & -> & Hy)].
  - right. by apply (lo_far_ctl _ _ Hok d).
  - destruct (lo_far _ _ Hok c d y x) as [->|?]; auto.
Qed.
Lemma member_far_prev d x : class_ok d → x ∈ L d → x = prev_of st l1 ∨ far (prev_of st l1) x.
Proof using Hok Hc HL.
  intros Hd Hx. destruct prev_of_cases as [[_ ->]|(l & y & _ & -> & Hy)].
  - right. by apply (lo_far_ctl _ _ Hok d).
  - destruct (lo_far _ _ Hok c d y x) as [->|?]; auto.
Qed.

Lemma unlinked_other_class d : class_ok d → d ≠ c → dseg (unlinked st l1 l2) (ctl st) (L d) (ctl st).
Proof using Hok Hc HL.
  intros Hd Hdc. eapply dseg_frame; [|by apply (lo_links _ _ Hok)]. intros x Hx.
  assert (Hnl : ∀ y, y = ctl st ∨ y ∈ L c → x ≠ y).
  { intros y [->|Hy] ->.
    - by apply (far_ne _ _ (lo_far_ctl _ _ Hok d _ Hd Hx)).
    - by apply Hdc, (lo_disj _ _ Hok d c y). }
  destruct (unlinked_other x (member_far_prev d x Hd Hx) (member_far_next d x Hd Hx)) as [H1 H2].
  split; [apply H1|apply H2]; apply Hnl.
  - destruct next_of_cases as [[_ ->]|(y & l & _ & -> & Hy)]; auto.
  - destruct prev_of_cases as [[_ ->]|(l & y & _ & -> & Hy)]; auto.
Qed.

Lemma split_members :
  NoDup l1 ∧ NoDup l2 ∧ (∀ x y, x ∈ l1 → y ∈ l2 → x ≠ y) ∧
  (∀ x, x ∈ l1 ∨ x ∈ l2 → x ∈ L c ∧ x ≠ ctl st).
Proof using Hok Hc HL.
  pose proof (lo_nodup _ _ Hok c Hc) as Hnd. rewrite HL in Hnd.
  apply NoDup_app in Hnd as (Hnd1 & Hdis & [_ Hnd2]%NoDup_cons).
  split_and!; [done|done| |].
  - intros x y Hx Hy ->. apply (Hdis y Hx). by right.
  - intros x Hx. assert (Hin : x ∈ L c) by (apply member_in; naive_solver).
    split; [done|]. intros ->. by apply (far_ne _ _ (lo_far_ctl _ _ Hok c _ Hc Hin)).
Qed.

Lemma unlinked_front : dseg (unlinked st l1 l2) (ctl st) l1 (next_of st l2).
Proof using Hok Hc HL.
  destruct split_members as (Hnd & _ & Hne & Hin).
  pose proof (lo_links _ _ Hok c Hc) as Hd. rewrite HL in Hd. apply dseg_app in Hd as (Hs & _).
  unfold unlinked. set (h1 := <[prev_free (next_of st l2) := prev_of st l1]> (heap st)).
  assert (Hs1 : dseg h1 (ctl st) l1 b).
  { eapply dseg_frame; [|exact Hs]. intros x Hx. destruct (Hin x) as [Hx1 Hx2]; [by left|].
    assert (Hxn : x ≠ next_of st l2).
    { destruct next_of_cases as [[_ ->]|(y & l & Hl & -> & _)]; [done|]. apply Hne; [done|].
      rewrite Hl. by left. }
    destruct (member_far_next c x Hc Hx1) as [?|(? & ? & ? & ?)%far_cells]; [done|].
    unfold h1. by rewrite !lookup_insert_ne. }
  destruct prev_of_cases as [[Hl _]|(l & x & Hl & -> & Hx)]; [by rewrite Hl|].
  apply dseg_set_next with b; [by rewrite Hl, last_snoc|done| |done].
  intros y Hy. destruct (Hin y) as [Hy1 _]; [by left|].
  destruct (lo_far _ _ Hok c c x y) as [->|?]; auto.
Qed.

Lemma unlinked_back : dseg (unlinked st l1 l2) (prev_of st l1) l2 (ctl st).
Proof using Hok Hc HL.
  destruct split_members as (_ & Hnd & Hne & Hin).
  pose proof (lo_links _ _ Hok c Hc) as Hd. rewrite HL in Hd. apply dseg_app in Hd as (_ & _ & _ & Hs).
  unfold unlinked. apply dseg_frame with (<[prev_free (next_of st l2) := prev_of st l1]> (heap st)).
  - intros x Hx. destruct (Hin x) as [Hx1 Hx2]; [by right|].
    assert (Hxp : x ≠ prev_of st l1).
    { destruct prev_of_cases as [[_ ->]|(l & y & Hl & -> & _)]; [done|].
      apply not_eq_sym, Hne; [|done]. rewrite Hl, elem_of_app. right. by apply list_elem_of_singleton. }
    destruct (member_far_prev c x Hc Hx1) as [?|(? & ? & ? & ?)%far_cells]; [done|].
    split; by rewrite (lookup_insert_ne _ (next_free (prev_of st l1))).
  - destruct next_of_cases as [[Hl _]|(y & l & Hl & -> & Hy)]; [by rewrite Hl|].
    rewrite Hl in Hnd, Hs, Hin |- *. apply dseg_set_prev with b; [done| |done].
    intros x Hx. destruct (lo_far _ _ Hok c c y x) as [->|?]; [done|done|done| | |done].
    + apply Hin. right. by right.
    + by apply NoDup_cons in Hnd as [? _].
Qed.

Lemma unlinked_links d :
  class_ok d → dseg (unlinked st l1 l2) (ctl st) (upd c (l1 ++ l2) L d) (ctl st).
Proof using Hok Hc HL.
  intros Hd. unfold upd. case_decide; [|by apply unlinked_other_class].
  apply dseg_join; [apply unlinked_front|apply unlinked_back].
Qed.

Lemma upd_removed_elem d x : x ∈ upd c (l1 ++ l2) L d → x ∈ L d.
Proof using HL.
  unfold upd. case_decide as H; [subst d|done]. rewrite HL, !elem_of_app, elem_of_cons. tauto.
Qed.

Lemma removed_tables :
  length (sl_bitmap (removed st c l1 l2)) = 25%nat ∧
  (∀ d, class_ok d → head_at (removed st c l1 l2) d =
     Some (hd (ctl st) (upd c (l1 ++ l2) L d))) ∧
  (∀ g, 0 ≤ g < 25 → mask_at (removed st c l1 l2) g =
     if decide (g = c.1 ∧ l1 ++ l2 = []) then clear_bit32 (mask_at st g) c.2 else mask_at st g) ∧
  fl_bitmap (removed st c l1 l2) =
    (if decide (l1 ++ l2 = [] ∧ clear_bit32 (mask_at st c.1) c.2 = 0)
     then clear_bit32 (fl_bitmap st) c.1 else fl_bitmap st).
Proof using Hok Hc HL.
  pose proof (lo_sl_len _ _ Hok) as Hlen. destruct (class_ok_bounds c Hc) as [Hb1 Hb2].
  pose proof (lo_head _ _ Hok c Hc) as Hhc.
  assert (Hset : ∀ v d, class_ok d →
    head_at (set_blocks (set_head c v (blocks st)) st) d =
      if decide (d = c) then Some v else Some (hd (ctl st) (L d))).
  { intros v d Hd. rewrite head_at_set_head by eauto. case_decide; [done|].
    by apply (lo_head _ _ Hok). }
  unfold removed, upd. rewrite HL in Hhc.
  destruct l1 as [|x k1]; [destruct l2 as [|y k2]|]; cbn [app] in *; split_and!.
  - cbn. by rewrite length_insert.
  - intros d Hd. etrans; [apply (Hset (ctl st) d Hd)|]. by case_decide.
  - intros g Hg. etrans; [by apply (mask_at_set st)|].
    destruct (decide (g = c.1)) as [->|]; [by rewrite decide_True|by rewrite decide_False by naive_solver].
  - cbn. destruct (Z.eqb_spec (clear_bit32 (mask_at st c.1) c.2) 0);
      [by rewrite decide_True|by rewrite decide_False by naive_solver].
  - done.
  - intros d Hd. etrans; [apply (Hset y d Hd)|]. by case_decide.
  - intros g Hg. rewrite decide_False by naive_solver. done.
  - by rewrite decide_False by naive_solver.
  - done.
  - intros d Hd. etrans; [apply (lo_head _ _ Hok d Hd)|]. case_decide as Hdc; [subst d|done].
    by rewrite HL.
  - intros g Hg. rewrite decide_False by naive_solver. done.
  - by rewrite decide_False by naive_solver.
Qed.

(** After removal the bit of class [d] still says whether its list is empty. *)
Lemma removed_bit d :
  class_ok d →
  Z.testbit (mask_at (removed st c l1 l2) d.1) d.2 = bool_decide (upd c (l1 ++ l2) L d ≠ []).
Proof using Hok Hc HL.
  intros Hd. destruct removed_tables as (_ & _ & Hmask & _).
  destruct (class_ok_bounds c Hc) as [Hc1 Hc2], (class_ok_bounds d Hd) as [Hd1 Hd2].
  rewrite Hmask by done. pose proof (lo_bit _ _ Hok d Hd) as Hbit.
  pose proof (lo_mask _ _ Hok d.1 Hd1) as Hm. unfold upd.
  destruct (decide (d = c)) as [->|Hdc].
  - destruct (decide (l1 ++ l2 = [])) as [He|He].
    + rewrite decide_True by done. rewrite testbit_clear_bit32 by lia.
      rewrite bool_decide_eq_true_2 by done. by rewrite He.
    + rewrite decide_False by tauto. rewrite Hbit, HL, !bool_decide_eq_true_2; [done|done|].
      by destruct l1.
  - case_decide as He; [|done]. rewrite testbit_clear_bit32 by lia.
    rewrite bool_decide_eq_false_2; [by rewrite Hbit|].
    intros Heq. apply Hdc. destruct d, c. naive_solver.
Qed.

Lemma removed_ok : lists_ok (removed st c l1 l2) (upd c (l1 ++ l2) L).
Proof using Hok Hc HL.
  destruct removed_tables as (Hlen & Hhead & Hmask & Hfl).
  destruct (class_ok_bounds c Hc) as [Hc1 Hc2].
  assert (Hctl : ctl (removed st c l1 l2) = ctl st) by (unfold removed; by repeat case_match).
  assert (Hheap : heap (removed st c l1 l2) = unlinked st l1 l2) by
    (unfold removed; by repeat case_match).
  split; rewrite ?Hctl, ?Hheap; try done.
  - apply (lo_ctl _ _ Hok).
  - destruct (lo_null _ _ Hok). unfold unlinked. rewrite !lookup_insert_is_Some'. auto.
  - intros g Hg. rewrite Hmask by done. pose proof (lo_mask _ _ Hok g Hg).
    destruct (decide (g = c.1 ∧ l1 ++ l2 = [])); [|lia]. apply clear_bit32_range; lia.
  - apply removed_bit.
  - rewrite Hfl. pose proof (lo_fl _ _ Hok).
    destruct (decide (l1 ++ l2 = [] ∧ clear_bit32 (mask_at st c.1) c.2 = 0)); [|lia]. apply clear_bit32_range; lia.
  - intros g Hg. rewrite Hfl, Hmask by done. pose proof (lo_fl_bit _ _ Hok g Hg) as Hb.
    pose proof (lo_fl _ _ Hok) as Hr.
    destruct (decide (l1 ++ l2 = [])) as [He|He].
    2:{ rewrite !decide_False by tauto. done. }
    destruct (decide (g = c.1)) as [->|Hgc].
    + rewrite (decide_True (P := c.1 = c.1 ∧ _)) by done.
      destruct (decide (clear_bit32 (mask_at st c.1) c.2 = 0)) as [H0|H0].
      * rewrite decide_True by done. rewrite testbit_clear_bit32 by lia.
        by rewrite bool_decide_eq_true_2, H0.
      * rewrite decide_False by tauto. rewrite Hb, (proj2 (Z.eqb_neq _ _) H0). apply negb_true_iff.
        apply Z.eqb_neq. intros Hz. apply H0. unfold clear_bit32. by rewrite Hz.
    + rewrite (decide_False (P := g = c.1 ∧ _)) by tauto. rewrite <- Hb.
      case_decide; [|done]. rewrite testbit_clear_bit32 by lia. by rewrite bool_decide_eq_false_2.
  - apply unlinked_links.
  - intros d x Hd Hx%upd_removed_elem. by apply (lo_nonnull _ _ Hok d).
  - intros d x Hd Hx%upd_removed_elem. by apply (lo_far_ctl _ _ Hok d).
  - intros d e x y Hd He Hx%upd_removed_elem Hy%upd_removed_elem. by apply (lo_far _ _ Hok d e).
  - intros d Hd. unfold upd. destruct (decide (d = c)); [|by apply (lo_nodup _ _ Hok)].
    destruct split_members as (H1 & H2 & H3 & _). apply NoDup_app. split_and!; [done| |done].
    intros x Hx1 Hx2. by apply (H3 x x).
  - intros d e x Hd He Hx%upd_removed_elem Hy%upd_removed_elem. by apply (lo_disj _ _ Hok d e x).
Qed.

End removal.

(** ** Search *)

(** Some class at or after [c] has a block. *)
Definition available (L : lists) (c : Z * Z) : Prop :=
  ∃ d, class_ok d ∧ class_le c d ∧ L d ≠ [].

Lemma testbit_mask_from x sl k :
  0 ≤ sl → 0 ≤ k < 32 → 0 ≤ x < 2 ^ 32 →
  Z.testbit (Z.land x (u32 (Z.shiftl 0xffffffff sl))) k = Z.testbit x k && (sl <=? k).
Proof.
  intros Hs Hk Hx. rewrite Z.land_spec. f_equal. unfold u32, wrap.
  rewrite Z.mod_pow2_bits_low by lia. change 0xffffffff with (Z.ones 32).
  destruct (Z.leb_spec sl k).
  - rewrite Z.shiftl_spec by lia. apply Z.ones_spec_low. lia.
  - apply Z.shiftl_spec_low. lia.
Qed.

Lemma land_range x y n : 0 ≤ n → 0 ≤ x < 2 ^ n → 0 ≤ y → 0 ≤ Z.land x y < 2 ^ n.
Proof.
  intros Hn Hx Hy. assert (0 ≤ Z.land x y) by (apply Z.land_nonneg; lia). split; [done|].
  apply bits_small; [done|done|]. intros k Hk. by rewrite Z.land_spec, (testbit_small x n) by lia.
Qed.

Section search.
Context (st : control) (L : lists) (Hok : lists_ok st L).

(** A non-empty mask of level [fl] gives a class with a block. *)
Lemma mask_has_block fl m :
  0 ≤ fl < 25 → 0 < m < 2 ^ 32 →
  (∀ k, 0 ≤ k < 32 → Z.testbit m k = true → Z.testbit (mask_at st fl) k = true) →
  class_ok (fl, tlsf_ffs m) ∧ L (fl, tlsf_ffs m) ≠ [] ∧
  (gpcl_assert (negb (m =? 0)) ;;;
   let! b := read_blocks fl (tlsf_ffs m) in ret (b, (fl, tlsf_ffs m))) st =
    (Ok (hd (ctl st) (L (fl, tlsf_ffs m)), (fl, tlsf_ffs m)), st).
Proof using Hok.
  intros Hfl Hm Hsub. destruct (tlsf_ffs_lowest m Hm) as (Hr & Hb & _).
  assert (Hc : class_ok (fl, tlsf_ffs m)) by done.
  pose proof (lo_bit _ _ Hok _ Hc) as Hbit. cbn [fst snd] in Hbit.
  rewrite Hsub in Hbit by done. symmetry in Hbit. apply bool_decide_eq_true in Hbit.
  split_and!; [done|done|]. rewrite bind_assert by (apply negb_true_iff, Z.eqb_neq; lia).
  by run (read_blocks_ok fl (tlsf_ffs m) _ st Hc (lo_head _ _ Hok _ Hc)).
Qed.

Lemma search_run fl sl :
  class_ok (fl, sl) →
  (∃ d, class_ok d ∧ class_le (fl, sl) d ∧ L d ≠ [] ∧
     search_suitable_block fl sl st = (Ok (hd (ctl st) (L d), d), st)) ∨
  (¬ available L (fl, sl) ∧ search_suitable_block fl sl st = (Ok (0, (fl, sl)), st)).
Proof using Hok.
  intros Hc. destruct (class_ok_bounds _ Hc) as [Hfl Hsl]. cbn [fst snd] in Hfl, Hsl.
  pose proof (lo_mask _ _ Hok fl Hfl) as Hm. pose proof (lo_fl _ _ Hok) as Hf.
  unfold search_suitable_block. run (read_sl_ok fl st (lo_sl_len _ _ Hok) Hfl).
  set (sl_map := Z.land (mask_at st fl) (u32 (Z.shiftl 0xffffffff sl))).
  assert (Hslr : 0 ≤ sl_map < 2 ^ 32) by (apply land_range; [lia|lia|apply u32_range]).
  destruct (Z.eqb_spec sl_map 0) as [H0|H0].
  - rewrite bind_gets. set (fl_map := Z.land (fl_bitmap st) (u32 (Z.shiftl 0xffffffff (fl + 1)))).
    assert (Hflr : 0 ≤ fl_map < 2 ^ 25) by (apply land_range; [lia|lia|apply u32_range]).
    assert (Hfb : ∀ k, 0 ≤ k < 25 →
      Z.testbit fl_map k = negb (mask_at st k =? 0) && (fl + 1 <=? k)).
    { intros k Hk. unfold fl_map. rewrite testbit_mask_from by lia. by rewrite (lo_fl_bit _ _ Hok). }
    destruct (Z.eqb_spec fl_map 0) as [H1|H1].
    + right. split; [|done]. intros ([g t] & Hd & Hle & Hne).
      destruct (class_ok_bounds _ Hd) as [Hg Ht]. cbn [fst snd] in Hg, Ht.
      pose proof (lo_bit _ _ Hok _ Hd) as Hbit. rewrite (bool_decide_eq_true_2 _ Hne) in Hbit.
      cbn [fst snd] in Hbit. destruct Hle as [Hlt|[Heq Hst]]; cbn [fst snd] in *.
      * specialize (Hfb g Hg). rewrite H1, Z.bits_0 in Hfb.
        rewrite (proj2 (Z.eqb_neq _ _) (nonzero_bit _ _ Hbit)) in Hfb. cbn in Hfb. lia.
      * subst g. pose proof (testbit_mask_from (mask_at st fl) sl t) as Hb.
        fold sl_map in Hb. rewrite H0, Z.bits_0, Hbit in Hb by lia. cbn in Hb. specialize (Hb ltac:(lia) ltac:(lia) ltac:(lia)). lia.
    + left. assert (Hpos : 0 < fl_map < 2 ^ 32) by lia.
      destruct (tlsf_ffs_lowest fl_map Hpos) as (Hr & Hb & _).
      assert (Hg : 0 ≤ tlsf_ffs fl_map < 25).
      { destruct (Z.lt_ge_cases (tlsf_ffs fl_map) 25); [lia|].
        by rewrite (testbit_small fl_map 25) in Hb by lia. }
      rewrite Hfb in Hb by done. apply andb_true_iff in Hb as [Hb1 Hb2].
      apply negb_true_iff, Z.eqb_neq in Hb1. apply Z.leb_le in Hb2.
      run (read_sl_ok (tlsf_ffs fl_map) st (lo_sl_len _ _ Hok) Hg).
      pose proof (lo_mask _ _ Hok _ Hg) as Hm2.
      destruct (mask_has_block (tlsf_ffs fl_map) (mask_at st (tlsf_ffs fl_map)))
        as (Hd & Hne & Hrun); [done|lia|done|].
      eexists. split_and!; [exact Hd|left; cbn; lia|done|exact Hrun].
  - left. assert (Hbits : ∀ k, 0 ≤ k < 32 →
      Z.testbit sl_map k = Z.testbit (mask_at st fl) k && (sl <=? k)).
    { intros k Hk. apply testbit_mask_from; lia. }
    destruct (mask_has_block fl sl_map) as (Hd & Hne & Hrun); [done|lia| |].
    { intros k Hk. rewrite Hbits by done. by intros [? _]%andb_true_iff. }
    destruct (tlsf_ffs_lowest sl_map) as (Hr & Hb & _); [lia|].
    rewrite Hbits in Hb by done. apply andb_true_iff in Hb as [_ Hb]. apply Z.leb_le in Hb.
    rewrite (proj2 (Z.eqb_neq _ _) H0) in Hrun.
    eexists. split_and!; [exact Hd|right; cbn; lia|done|exact Hrun].
Qed.

End search.

(** ** Locating a free block *)

Definition size_of (s : Z) : Z := Z.land s (not64 flag_bits).

(** Every listed block is in the class of its size. *)
Definition sizes_ok (st : control) (L : lists) : Prop :=
  ∀ c b, class_ok c → b ∈ L c →
    ∃ s, heap st !! size b = Some s ∧ 0 ≤ s < 2 ^ 64 ∧ mapping_insert (size_of s) = c.

Lemma block_size_run st b s : heap st !! size b = Some s → block_size b st = (Ok (size_of s), st).
Proof. intros H. unfold block_size. by run (read_ok size b s st H). Qed.

Lemma size_of_range s : 0 ≤ s < 2 ^ 64 → 0 ≤ size_of s < 2 ^ 64.
Proof. intros Hs. apply land_range; [lia|lia|apply u64_range]. Qed.

(** Inserting a block into the list of its class keeps the free lists and
    bitmaps consistent, with the block in front. *)
Theorem tlsf_insert_free_block_spec st L b c :
  lists_ok st L → fresh st L b → class_ok c →
  ∃ st', insert_free_block b c.1 c.2 st = (Ok tt, st') ∧ lists_ok st' (upd c (b :: L c) L).
Proof.
  intros Hok Hf Hc. eexists. split; [|by apply inserted_ok].
  destruct c as [fl sl]. by apply (insert_free_block_run st L).
Qed.

(** Removing a block from anywhere in the list of its class takes out that
    block and nothing else, and clears the bitmap bits exactly when the list
    (and then the level) has become empty. *)
Theorem tlsf_remove_free_block_spec st L b c l1 l2 :
  lists_ok st L → class_ok c → L c = l1 ++ b :: l2 →
  ∃ st', remove_free_block b c.1 c.2 st = (Ok tt, st') ∧ lists_ok st' (upd c (l1 ++ l2) L).
Proof.
  intros Hok Hc HL. eexists.
  split; [by apply (remove_free_block_run st L c b l1 l2)|by apply (removed_ok st L c b l1 l2)].
Qed.

Lemma mapping_search_ok size :
  0 ≤ size < 2 ^ 32 → size mod 8 = 0 → (mapping_search size).1 < FL_INDEX_COUNT →
  class_ok (mapping_search size).
Proof.
  intros Hs Hm Hf. destruct (mapping_search_lo size Hs Hm) as (_ & H1 & H2).
  split; [split; [done|done]|done].
Qed.

(** [block_locate_free] takes the first block of the first list that fits, or finds none. *)
Lemma block_locate_free_run st L adjust :
  lists_ok st L → sizes_ok st L → 0 < adjust < 2 ^ 32 → adjust mod 8 = 0 →
  (∃ c b l s, class_ok c ∧ L c = b :: l ∧ b ≠ 0 ∧
     heap st !! size b = Some s ∧ adjust ≤ size_of s ∧
     block_locate_free adjust st = (Ok b, removed st c [] l)) ∨
  (¬ available L (mapping_search adjust) ∧ block_locate_free adjust st = (Ok 0, st)).
Proof.
  intros Hok Hsz Ha Hm. unfold block_locate_free. rewrite (proj2 (Z.eqb_neq adjust 0)) by lia.
  cbn [negb]. pose proof (mapping_search_ok adjust) as Hms.
  pose proof (λ s, tlsf_good_fit_mono adjust s) as Hfit.
  destruct (mapping_search adjust) as [fl sl]. cbn [fst] in Hms.
  destruct (Z.ltb_spec fl FL_INDEX_COUNT) as [Hlt|Hge].
  - specialize (Hms ltac:(lia) Hm Hlt).
    destruct (search_run st L Hok fl sl Hms) as [(d & Hd & Hle & Hne & Hrun)|[Hna Hrun]].
    + left. destruct d as [g t]. run Hrun. cbv iota beta.
      destruct (L (g, t)) as [|b l] eqn:HL; [done|]. cbn [hd].
      assert (Hb : b ∈ L (g, t)) by (rewrite HL; by left).
      destruct (Hsz _ b Hd Hb) as (s & Hs & Hsr & Hmap).
      pose proof (size_of_range s Hsr) as Hr.
      assert (adjust ≤ size_of s) by (apply Hfit; [lia|done|lia|by rewrite Hmap]).
      pose proof (lo_nonnull _ _ Hok _ b Hd Hb) as Hb0.
      exists (g, t), b, l, s. split_and!; try done.
      rewrite (proj2 (Z.eqb_neq b 0)) by done. cbn [negb].
        run (block_size_run st b s Hs). rewrite bind_assert by (by apply Z.leb_le).
        by run (remove_free_block_run st L (g, t) b [] l Hok Hd HL).
    + right. split; [done|]. by run Hrun.
  - right. split; [|done]. intros ([g t] & Hd & Hle & _).
    destruct (class_ok_bounds _ Hd) as [Hg _]. change FL_INDEX_COUNT with 25 in Hge.
    destruct Hle as [?|[? _]]; cbn [fst] in *; lia.
Qed.

(** [block_locate_free] takes a block of at least the requested size out of
    the free lists whenever the class of the request or a later one has a block,
    and otherwise returns null and changes nothing. *)
Theorem tlsf_block_locate_free_spec st L adjust :
  lists_ok st L → sizes_ok st L → 0 < adjust < 2 ^ 32 → adjust mod 8 = 0 →
  (∃ c b l s st', class_ok c ∧ L c = b :: l ∧ b ≠ 0 ∧
     heap st !! size b = Some s ∧ adjust ≤ size_of s ∧
     block_locate_free adjust st = (Ok b, st') ∧ lists_ok st' (upd c l L)) ∨
  (¬ available L (mapping_search adjust) ∧ block_locate_free adjust st = (Ok 0, st)).
Proof.
  intros Hok Hsz Ha Hm. destruct (block_locate_free_run st L adjust Hok Hsz Ha Hm) as [(c & b & l & s & Hc & HL & ? & ? & ? & Hr)|?]; [left|by right].
  exists c, b, l, s, (removed st c [] l). split_and!; try done. by apply (removed_ok st L c b [] l).
Qed.

(** ** Construction *)

(** The control structure [control_construct] leaves behind. *)
Definition constructed (h : mem) (a : Z) : control :=
  Control h a 0 (replicate 25 0) (replicate 25 (replicate 32 a)).

Lemma constructed_ok h a :
  a ≠ 0 → is_Some (h !! next_free a) → is_Some (h !! prev_free a) →
  lists_ok (constructed h a) (λ _, []).
Proof.
  intros Ha Hn Hp.
  assert (Hmask : ∀ g, 0 ≤ g < 25 → mask_at (constructed h a) g = 0).
  { intros g Hg. unfold mask_at, constructed. cbn [sl_bitmap]. by rewrite lookup_replicate_2 by lia. }
  split; try done.
  - intros c (_ & _ & H1 & H2)%class_ok_nat. unfold head_at, constructed. cbn [blocks].
    rewrite lookup_replicate_2 by lia.
    change (replicate 32 a !! Z.to_nat c.2 = Some a). by rewrite lookup_replicate_2 by lia.
  - intros g Hg. by rewrite Hmask.
  - intros c [Hc _]%class_ok_bounds. by rewrite Hmask, Z.bits_0.
  - intros g Hg. cbn [fl_bitmap constructed]. by rewrite Hmask, Z.bits_0.
  - by intros c b _ ?%not_elem_of_nil.
  - by intros c b _ ?%not_elem_of_nil.
  - by intros c d x b _ _ ?%not_elem_of_nil.
  - intros. apply NoDup_nil_2.
  - by intros c d b _ _ ?%not_elem_of_nil.
Qed.

Lemma control_construct_run st :
  is_Some (heap st !! next_free (ctl st)) → is_Some (heap st !! prev_free (ctl st)) →
  control_construct st =
    (Ok tt, constructed (<[prev_free (ctl st) := ctl st]>
      (<[next_free (ctl st) := ctl st]> (heap st))) (ctl st)).
Proof.
  intros Hn Hp. unfold control_construct. rewrite bind_gets. run (write_ok _ _ (ctl st) _ Hn).
  erewrite bind_ok; [|apply write_ok, lookup_insert_is_Some'; auto]. done.
Qed.

(** ** Concrete states *)

Definition ex_empty : control := constructed (map_block 4096 32 (map_block 8192 32 ∅)) 4096.
Definition ex_one : control := inserted ex_empty (mapping_insert 1000) 8192.

Lemma ex_empty_ok : lists_ok ex_empty (λ _, []).
Proof. apply constructed_ok; [done|eexists; vm_compute; reflexivity..]. Defined.

Lemma ex_fresh : fresh ex_empty (λ _, []) 8192.
Proof.
  split; [lia|done|eexists; vm_compute; reflexivity..| |by intros c a _ ?%not_elem_of_nil].
  left. vm_compute. done.
Defined.

Lemma ex_class : class_ok (mapping_insert 1000).
Proof. vm_compute. done. Defined.

Lemma tlsf_insert_free_block_witness :
  ∃ st', insert_free_block 8192 (mapping_insert 1000).1 (mapping_insert 1000).2 ex_empty = (Ok tt, st') ∧
    lists_ok st' (upd (mapping_insert 1000) [8192] (λ _, [])).
Proof.
  apply (tlsf_insert_free_block_spec ex_empty (λ _, []) 8192 (mapping_insert 1000));
    [apply ex_empty_ok|apply ex_fresh|apply ex_class].
Defined.

Lemma ex_one_ok : lists_ok ex_one (upd (mapping_insert 1000) [8192] (λ _, [])).
Proof.
  apply (inserted_ok ex_empty (λ _, []) 8192 (mapping_insert 1000));
    [apply ex_empty_ok|apply ex_fresh|apply ex_class].
Qed.

Lemma tlsf_remove_free_block_witness :
  ∃ st', remove_free_block 8192 (mapping_insert 1000).1 (mapping_insert 1000).2 ex_one = (Ok tt, st') ∧
    lists_ok st' (upd (mapping_insert 1000) ([] ++ [])
      (upd (mapping_insert 1000) [8192] (λ _, []))).
Proof.
  apply (tlsf_remove_free_block_spec ex_one _ 8192 (mapping_insert 1000) [] []);
    [apply ex_one_ok|apply ex_class|reflexivity].
Defined.

(** The same state with the size of the block in its header. *)
Definition ex_sized : control :=
  set_heap (<[size 8192 := 1001]> (heap ex_one)) ex_one.

Lemma ex_sized_ok : lists_ok ex_sized (upd (mapping_insert 1000) [8192] (λ _, [])).
Proof.
  destruct ex_one_ok as [H1 H2 H3 H4 H5 H6 H7 H8 H9 H10 H11 H12 H13 H14]. split; try done.
  intros c Hc. eapply dseg_frame; [|by apply H9]. intros b Hb.
    unfold upd in Hb. case_decide; [|by apply not_elem_of_nil in Hb].
    apply list_elem_of_singleton in Hb as ->.
    unfold ex_sized. cbn [heap set_heap]. by rewrite !lookup_insert_ne.
Qed.

Lemma ex_sizes : sizes_ok ex_sized (upd (mapping_insert 1000) [8192] (λ _, [])).
Proof.
  intros c b Hc Hb. unfold upd in Hb. case_decide; [|by apply not_elem_of_nil in Hb].
  apply list_elem_of_singleton in Hb as ->. subst c. exists 1001. split_and!; [|lia|lia|].
  - unfold ex_sized. cbn [heap set_heap]. apply lookup_insert_eq.
  - by vm_compute.
Qed.

Lemma tlsf_block_locate_free_witness :
  ∃ c b l s st', class_ok c ∧ upd (mapping_insert 1000) [8192] (λ _, []) c = b :: l ∧ b ≠ 0 ∧
     heap ex_sized !! size b = Some s ∧ 104 ≤ size_of s ∧
     block_locate_free 104 ex_sized = (Ok b, st') ∧
     lists_ok st' (upd c l (upd (mapping_insert 1000) [8192] (λ _, []))).
Proof.
  destruct (tlsf_block_locate_free_spec ex_sized _ 104 ex_sized_ok ex_sizes) as [H|[Hna _]];
    [lia|done|exact H|].
  exfalso. apply Hna. exists (mapping_insert 1000). split_and!; [apply ex_class| |done].
  vm_compute. by left.
Defined.

(** ** Header updates *)

Definition set_word (b v : Z) (st : control) : control :=
  set_heap (<[size b := v]> (heap st)) st.

Lemma block_set_size_run st b s z :
  heap st !! size b = Some s →
  block_set_size b z st = (Ok tt, set_word b (Z.lor z (Z.land s flag_bits)) st).
Proof.
  intros H. unfold block_set_size. run (read_ok size b s st H). apply write_ok. eauto.
Qed.
Lemma block_set_free_run st b s :
  heap st !! size b = Some s →
  block_set_free b st = (Ok tt, set_word b (Z.lor s block_header_free_bit) st).
Proof.
  intros H. unfold block_set_free. run (read_ok size b s st H). apply write_ok. eauto.
Qed.
Lemma block_set_prev_used_run st b s :
  heap st !! size b = Some s →
  block_set_prev_used b st =
    (Ok tt, set_word b (Z.land s (not64 block_header_prev_free_bit)) st).
Proof.
  intros H. unfold block_set_prev_used. run (read_ok size b s st H). apply write_ok. eauto.
Qed.
Lemma set_word_size st b v : heap (set_word b v st) !! size b = Some v.
Proof. apply lookup_insert_eq. Qed.

(** The size field does not depend on the flag bits. *)
Lemma size_of_flags z s :
  0 ≤ z < 2 ^ 64 → z mod 4 = 0 →
  size_of (Z.land (Z.lor (Z.lor z (Z.land s flag_bits)) block_header_free_bit)
    (not64 block_header_prev_free_bit)) = z.
Proof.
  intros Hz Hm. unfold size_of, not64. apply Z.bits_inj'. intros n Hn.
  rewrite !Z.land_spec, !Z.lor_spec, Z.land_spec. unfold u64, wrap.
  assert (Hf : flag_bits = Z.ones 2) by done. rewrite Hf.
  destruct (Z.lt_ge_cases n 64) as [Hlt|Hge].
  - rewrite !Z.mod_pow2_bits_low, !Z.lnot_spec by lia.
    destruct (Z.lt_ge_cases n 2) as [H2|H2].
    + rewrite Z.ones_spec_low by lia. cbn [negb]. rewrite andb_false_r.
      assert (z mod 2 ^ 2 = 0) as Hz2 by done.
      rewrite <- (Z.mod_pow2_bits_low z 2 n) by lia. by rewrite Hz2, Z.bits_0.
    + rewrite Z.ones_spec_high by lia.
      change block_header_free_bit with (2 ^ 0). change block_header_prev_free_bit with (2 ^ 1).
      rewrite !Z.pow2_bits_eqb by lia.
      rewrite (proj2 (Z.eqb_neq 0 n)), (proj2 (Z.eqb_neq 1 n)) by lia. cbn [negb].
      by rewrite !andb_false_r, !orb_false_r, !andb_true_r.
  - rewrite (testbit_small z 64 n) by lia.
    rewrite !Z.mod_pow2_bits_high by lia. by rewrite !andb_false_r.
Qed.

(** ** Boundary cases of the interface *)

(** The table of list heads has its rows. *)
Definition tables_allocated (st : control) : Prop := length (blocks st) = Z.to_nat FL_INDEX_COUNT.

(** A pool of exactly [block_size_max] bytes passes the size check of
    [tlsf_add_pool], and its block is then filed outside the tables. *)
Theorem tlsf_add_pool_max_overflows st mem s :
  tables_allocated st → 8 ≤ mem < 2 ^ 63 → mem mod 8 = 0 → heap st !! mem = Some s →
  (tlsf_add_pool mem (block_size_max + tlsf_pool_overhead) st).1 = Undef.
Proof.
  intros Hlen Hr Hm Hs. change (length (blocks st) = 25%nat) in Hlen. unfold tlsf_add_pool.
  change (lift (align_down (u64 (block_size_max + tlsf_pool_overhead - tlsf_pool_overhead)) ALIGN_SIZE))
    with (ret (2 ^ 32) : M control Z).
  rewrite bind_ret_l.
  assert (i64 mem mod ALIGN_SIZE = 0) as -> by (unfold i64; by rewrite sint_small by lia).
  change ((2 ^ 32 <? block_size_min) || (block_size_max <? 2 ^ 32)) with false.
  change (negb (0 =? 0)) with false. cbv iota.
  assert (offset_to_block mem (- block_header_overhead) = mem - 8) as ->.
  { unfold offset_to_block, block_header_overhead. rewrite u64_small by lia. lia. }
  assert (Hs' : heap st !! size (mem - 8) = Some s) by (unfold size; by rewrite Z.sub_add).
  run (block_set_size_run st _ s (2 ^ 32) Hs').
  erewrite bind_ok; [|apply block_set_free_run, set_word_size].
  erewrite bind_ok; [|apply block_set_prev_used_run, set_word_size].
  unfold block_insert. rewrite bind_assoc.
  erewrite bind_ok; [|apply block_size_run, set_word_size].
  rewrite size_of_flags by (done || lia). change (mapping_insert (2 ^ 32)) with (25, 0). cbv iota.
  unfold insert_free_block. rewrite bind_assoc. unfold read_blocks at 1. rewrite bind_assoc, bind_gets.
  cbn [blocks set_word set_heap]. change ((25 <? 0) || (0 <? 0)) with false. cbv iota.
  by rewrite (lookup_ge_None_2 (blocks st)) by lia.
Qed.

Lemma tlsf_add_pool_max_witness :
  (tlsf_add_pool 8192 (block_size_max + tlsf_pool_overhead) ex_empty).1 = Undef.
Proof. apply (tlsf_add_pool_max_overflows ex_empty 8192 0); [done|lia|done|by vm_compute]. Defined.

(** Memory for the control structure at 4096 and a pool of 1024 bytes after it. *)
Definition ex_memory : control :=
  Control (map_block 4096 32 (map_block (4096 + 6536 - 16) (1024 + 16) ∅)) 0 0 [] [].

(** [tlsf_realloc] to a size above the limit reports success: it returns the
    old pointer of a 64-byte block, having set the size of that block to 0. *)
Theorem tlsf_realloc_too_large_succeeds :
  (tlsf_create_with_pool 4096 (6536 + 1024) ;;;
   let! p := tlsf_malloc 64 in
   let! before := tlsf_block_size p in
   let! q := tlsf_realloc p (2 ^ 32) in
   let! after := tlsf_block_size p in
   ret (p, q, before, after)) ex_memory =
  (Ok (10640, 10640, 64, 0),
   snd ((tlsf_create_with_pool 4096 (6536 + 1024) ;;;
         let! p := tlsf_malloc 64 in tlsf_realloc p (2 ^ 32)) ex_memory)).
Proof. vm_compute. reflexivity. Qed.

(** A session of allocations, an aligned allocation and frees ends in one
    free block again, with both integrity checks passing on the way. *)
Theorem tlsf_session_coalesces :
  ((tlsf_create_with_pool 4096 (6536 + 1024) ;;;
    let! pool := tlsf_get_pool in
    let walk := tlsf_walk_pool 20 pool (λ p sz used acc, ret (acc ++ [(p, sz, used)])) [] in
    let! a := tlsf_malloc 100 in
    let! b := tlsf_malloc 200 in
    let! c := tlsf_memalign 64 50 in
    tlsf_free b ;;;
    let! w1 := walk in
    tlsf_check 20 ;;; tlsf_check_pool 20 pool ;;;
    tlsf_free a ;;; tlsf_free c ;;;
    tlsf_check 20 ;;; tlsf_check_pool 20 pool ;;;
    let! w2 := walk in
    ret (w1, w2)) ex_memory).1 =
  Ok ([(10640, 104, true); (10752, 248, false); (11008, 56, true); (11072, 576, false)],
      [(10640, 1008, false)]).
Proof. vm_compute. reflexivity. Qed.

End FreeLists.
