(* ===== verification/TlsfHeap.v ===== *)
(** * TLSF: the blocks of the heap

    The physical layer of the allocator (detail/impl/tlsf.ipp): the blocks that fill the
    pools, seen as a map [B] from their addresses to size, state and the state of the block
    in front.  [layout] says that the blocks of a pool follow each other without gaps up to
    the sentinel, [memory_ok] that the headers in memory say so, and [heap_ok] that the free
    lists of TlsfLists.v hold the free blocks.  Splitting, merging and marking blocks keep
    them, and so do [tlsf_malloc], [tlsf_memalign] and [tlsf_free], which neither abort nor
    touch the memory in use. *)

From S2P Require Import Prelude.
From S2P Require Import TlsfBits.
From S2P Require Import TlsfOps.
From S2P Require Import TlsfLists.

Local Open Scope Z_scope.
Local Open Scope gpcl_scope.

Module TlsfHeap.
Import Tlsf TlsfAlloc FreeLists.

(** ** Header words *)

(** The word at [size]: the size with the flags of the block and of the block in front. *)
Definition flags (f p : bool) : Z := Z.b2z f + 2 * Z.b2z p.
Definition word (sz : Z) (f p : bool) : Z := sz + flags f p.

Lemma land_aligned sz y : sz mod 8 = 0 → 0 ≤ y < 4 → Z.land sz y = 0.
Proof.
  intros [k ->]%Z.mod_divide Hy; [|lia]. change 8 with (2 ^ 3). rewrite <-Z.shiftl_mul_pow2 by lia.
  apply Z.bits_inj'. intros n Hn. rewrite Z.land_spec, Z.bits_0. destruct (Z.lt_ge_cases n 3).
  - by rewrite Z.shiftl_spec_low.
  - by rewrite (testbit_small y 2 n), andb_false_r by lia.
Qed.
Lemma add_lor sz y : sz mod 8 = 0 → 0 ≤ y < 4 → sz + y = Z.lor sz y.
Proof. intros Hal Hy. rewrite Z.add_nocarry_lxor, Z.lxor_lor by (by apply land_aligned). done. Qed.
Lemma two_bits (P : Z → Z → Prop) x m :
  P 0 0 → P 0 1 → P 0 2 → P 0 3 → P 1 0 → P 1 1 → P 1 2 → P 1 3 → P 2 0 → P 2 1 → P 2 2 → P 2 3 →
  P 3 0 → P 3 1 → P 3 2 → P 3 3 → 0 ≤ x < 4 → 0 ≤ m < 4 → P x m.
Proof.
  intros. assert (x = 0 ∨ x = 1 ∨ x = 2 ∨ x = 3) as Hx by lia.
  assert (m = 0 ∨ m = 1 ∨ m = 2 ∨ m = 3) as Hm by lia.
  by destruct Hx as [->|[->|[->| ->]]], Hm as [->|[->|[->| ->]]].
Qed.
Lemma small_lor x m : 0 ≤ x < 4 → 0 ≤ m < 4 → 0 ≤ Z.lor x m < 4.
Proof. by apply (two_bits (λ x m, 0 ≤ Z.lor x m < 4)). Qed.
Lemma small_ldiff x m : 0 ≤ x < 4 → 0 ≤ m < 4 → 0 ≤ Z.ldiff x m < 4.
Proof. by apply (two_bits (λ x m, 0 ≤ Z.ldiff x m < 4)). Qed.
Lemma word_land sz x m : sz mod 8 = 0 → 0 ≤ x < 4 → 0 ≤ m < 4 → Z.land (sz + x) m = Z.land x m.
Proof. intros Hal Hx Hm. rewrite add_lor, Z.land_lor_distr_l, land_aligned by done. done. Qed.
Lemma word_lor sz x m : sz mod 8 = 0 → 0 ≤ x < 4 → 0 ≤ m < 4 → Z.lor (sz + x) m = sz + Z.lor x m.
Proof. intros Hal Hx Hm. rewrite (add_lor sz x) by done. rewrite <-Z.lor_assoc. symmetry.
  apply add_lor; [done|by apply small_lor]. Qed.
Lemma ldiff_aligned sz m : sz mod 8 = 0 → 0 ≤ m < 4 → Z.ldiff sz m = sz.
Proof.
  intros Hal Hm. pose proof (land_aligned sz m Hal Hm) as Hl. apply Z.bits_inj'. intros n Hn.
  apply (f_equal (λ z, Z.testbit z n)) in Hl. rewrite Z.land_spec, Z.bits_0 in Hl.
  rewrite Z.ldiff_spec. destruct (Z.testbit sz n), (Z.testbit m n); done.
Qed.
Lemma word_clear sz x m :
  0 ≤ sz < 2 ^ 64 → sz mod 8 = 0 → 0 ≤ x < 4 → 0 ≤ m < 4 → Z.land (sz + x) (not64 m) = sz + Z.ldiff x m.
Proof.
  intros Hsz Hal Hx Hm. pose proof (small_ldiff x m Hx Hm) as Hd.
  pose proof (ldiff_aligned sz m Hal Hm) as Hl.
  assert (sz + x < 2 ^ 64) by (apply Z.mod_divide in Hal as [k ->]; lia).
  unfold not64. rewrite land_u64_lnot, (add_lor sz x), (add_lor sz _) by (done || lia).
  apply Z.bits_inj'. intros n Hn.
  rewrite Z.ldiff_spec, !Z.lor_spec, Z.ldiff_spec. apply (f_equal (λ z, Z.testbit z n)) in Hl.
  rewrite Z.ldiff_spec in Hl.
  destruct (Z.testbit sz n), (Z.testbit x n), (Z.testbit m n); done.
Qed.

Lemma flags_range f p : 0 ≤ flags f p < 4.
Proof. by destruct f, p. Qed.

Lemma word_size sz f p : 0 ≤ sz < 2 ^ 64 → sz mod 8 = 0 → size_of (word sz f p) = sz.
Proof. intros. unfold size_of, word. rewrite word_clear; [|done|done|apply flags_range|done].
  assert (Z.ldiff (flags f p) flag_bits = 0) as -> by (by destruct f, p). lia. Qed.
Lemma word_free sz f p : sz mod 8 = 0 → negb (Z.land (word sz f p) block_header_free_bit =? 0) = f.
Proof. intros. unfold word. rewrite word_land; [|done|apply flags_range|done]. by destruct f, p. Qed.
Lemma word_prev_free sz f p : sz mod 8 = 0 →
    negb (Z.land (word sz f p) block_header_prev_free_bit =? 0) = p.
Proof. intros. unfold word. rewrite word_land; [|done|apply flags_range|done]. by destruct f, p. Qed.
Lemma word_set_free sz f p : sz mod 8 = 0 → Z.lor (word sz f p) block_header_free_bit = word sz true p.
Proof. intros. unfold word. rewrite word_lor; [|done|apply flags_range|done]. by destruct f, p. Qed.
Lemma word_set_used sz f p : 0 ≤ sz < 2 ^ 64 → sz mod 8 = 0 →
    Z.land (word sz f p) (not64 block_header_free_bit) = word sz false p.
Proof. intros. unfold word. rewrite word_clear; [|done|done|apply flags_range|done].
  by destruct f, p. Qed.
Lemma word_set_prev_free sz f p : sz mod 8 = 0 →
    Z.lor (word sz f p) block_header_prev_free_bit = word sz f true.
Proof. intros. unfold word. rewrite word_lor; [|done|apply flags_range|done]. by destruct f, p. Qed.
Lemma word_set_prev_used sz f p : 0 ≤ sz < 2 ^ 64 → sz mod 8 = 0 →
    Z.land (word sz f p) (not64 block_header_prev_free_bit) = word sz f false.
Proof. intros. unfold word. rewrite word_clear; [|done|done|apply flags_range|done].
  by destruct f, p. Qed.
Lemma word_set_size sz f p s : sz mod 8 = 0 → s mod 8 = 0 →
    Z.lor s (Z.land (word sz f p) flag_bits) = word s f p.
Proof.
  intros Hsz Hs. unfold word. rewrite word_land; [|done|apply flags_range|done].
  rewrite <-add_lor; [|done|]; by destruct f, p.
Qed.
(** The flags of a word that was not a header. *)
Lemma word_of_garbage s v : s mod 8 = 0 → ∃ f p, Z.lor s (Z.land v flag_bits) = word s f p.
Proof.
  intros Hs. assert (0 ≤ Z.land v flag_bits < 4) as Hr by (change flag_bits with (Z.ones 2);
    rewrite Z.land_ones by lia; apply Z.mod_pos_bound; lia).
  rewrite <-add_lor by done. unfold word. generalize dependent (Z.land v flag_bits). intros z Hz.
  assert (z = 0 ∨ z = 1 ∨ z = 2 ∨ z = 3) as [->|[->|[->| ->]]] by lia;
    [exists false, false|exists true, false|exists false, true|exists true, true]; done.
Qed.

(** ** Layout *)

(** Size, state, state of the block in front, and the sentinel of the pool. *)
Record blk : Type := Blk { bsz : Z; bfree : bool; bpf : bool; bend : Z }.
Definition nxt (b : Z) (k : blk) : Z := b + bsz k + 8.
Abbreviation blocks_map := (gmap Z blk).

Record layout (B : blocks_map) : Prop := {
  ly_range b k : B !! b = Some k → 0 < b ∧ b + 16 + bsz k < 2 ^ 63 ∧ b mod 8 = 0;
  ly_size b k : B !! b = Some k → bsz k mod 8 = 0 ∧ (bsz k = 0 ∧ bfree k = false ∨ 24 ≤ bsz k);
  ly_end b k : B !! b = Some k → bsz k ≠ 0 → nxt b k ≤ bend k ∧ bend k - b - 8 < 2 ^ 32;
  ly_next b k : B !! b = Some k → bsz k ≠ 0 →
    ∃ n, B !! nxt b k = Some n ∧ bpf n = bfree k ∧ bend n = bend k;
  ly_prev b k : B !! b = Some k → bpf k = true → ∃ p q, B !! p = Some q ∧ bfree q = true ∧ nxt p q = b;
  ly_apart b k c m : B !! b = Some k → B !! c = Some m → b < c → nxt b k ≤ c;
  ly_sent b k : B !! b = Some k → bsz k = 0 → bend k = b;
}.

Definition set_pf (v : bool) (k : blk) : blk := Blk (bsz k) (bfree k) v (bend k).
Definition set_fr (v : bool) (k : blk) : blk := Blk (bsz k) v (bpf k) (bend k).
Definition set_sz (s : Z) (k : blk) : blk := Blk s (bfree k) (bpf k) (bend k).

(** The state of block [b], and what the next block [n] says about it, become [v]. *)
Definition flipped (b : Z) (k : blk) (n : blk) (v : bool) (B : blocks_map) : blocks_map :=
  <[nxt b k := set_pf v n]> (<[b := set_fr v k]> B).
Lemma layout_flip B b k n v :
  layout B → B !! b = Some k → bsz k ≠ 0 → B !! nxt b k = Some n → layout (flipped b k n v B).
Proof.
  intros [H1 H2 H3 H4 H5 H6 H7] Hb Hs Hn. assert (24 ≤ bsz k) by (destruct (H2 b k Hb); lia).
  assert (b ≠ nxt b k) as Hne by (unfold nxt; lia).
  assert (Hget : ∀ c m, flipped b k n v B !! c = Some m → ∃ m0, B !! c = Some m0 ∧ bsz m = bsz m0 ∧
    bend m = bend m0 ∧
    (c = b ∧ bfree m = v ∧ bpf m = bpf m0 ∨ c = nxt b k ∧ bfree m = bfree m0 ∧ bpf m = v ∨ c ≠ b ∧
      c ≠ nxt b k ∧ m = m0)).
  { unfold flipped.
      intros c m [[<- <-]|[Hc [[<- <-]|[Hc' Hm]]%lookup_insert_Some]]%lookup_insert_Some;
      [exists n|exists k|exists m]; split_and!; try done; cbn; auto 8. }
  assert (Hput : ∀ c m0, B !! c = Some m0 → ∃ m, flipped b k n v B !! c = Some m ∧ bsz m = bsz m0 ∧
    bend m = bend m0 ∧
    (c ≠ b → bfree m = bfree m0) ∧ (c = b → bfree m = v) ∧ (c ≠ nxt b k → bpf m = bpf m0) ∧
      (c = nxt b k → bpf m = v)).
  { intros c m0 Hc. unfold flipped. destruct (decide (c = nxt b k)) as [->|];
      [rewrite lookup_insert_eq; eexists; split; [done|]; simplify_eq; naive_solver|].
    rewrite lookup_insert_ne by done. destruct (decide (c = b)) as [->|];
      [rewrite lookup_insert_eq; eexists; split; [done|]; simplify_eq; naive_solver|].
    rewrite lookup_insert_ne by done. exists m0. naive_solver. }
  split.
  - intros c m (m0 & Hc & -> & _)%Hget. by apply H1.
  - intros c m (m0 & Hc & -> & _ & Hcase)%Hget. destruct (H2 c m0 Hc) as [? Hs0]. split; [done|].
    destruct Hcase as [(-> & _)|[(-> & -> & _)|(_ & _ & ->)]]; [right; simplify_eq; lia|done|done].
  - intros c m (m0 & Hc & Hsz & -> & _)%Hget. unfold nxt. rewrite Hsz. by apply (H3 c m0).
  - intros c m (m0 & Hc & Hsz & Hend & Hcase)%Hget. unfold nxt. rewrite Hsz. intros Hms.
    destruct (H4 c m0 Hc Hms) as (n0 & Hn0 & Hpf & He).
    destruct (Hput _ n0 Hn0) as (n1 & Hn1 & _ & He1 & _ & _ & Hp1 & Hp2). exists n1.
    split_and!; [done| |congruence].
    destruct (decide (c = b)) as [->|Hcb].
    + simplify_eq. rewrite Hp2 by done. destruct Hcase as [(_ & -> & _)|[(? & _)|(? & _)]]; done.
    + assert (nxt c m0 ≠ nxt b k) as Hnn.
      { intros Heq. unfold nxt in Heq. destruct (H2 c m0 Hc) as [_ [|]]; [lia|].
        destruct (Z.lt_ge_cases c b);
        [pose proof (H6 c m0 b k Hc Hb ltac:(lia))|pose proof (H6 b k c m0 Hb Hc ltac:(lia))];
        unfold nxt in *; lia. }
      rewrite Hp1 by done. destruct Hcase as [(-> & _)|[(_ & -> & _)|(_ & _ & ->)]]; done.
  - intros c m (m0 & Hc & Hsz & Hend & Hcase)%Hget Hpf. destruct (decide (c = nxt b k)) as [->|Hcn].
    + assert (v = true) as -> by (destruct Hcase as [(? & _)|[(_ & _ & <-)|(_ & ? & _)]]; done).
      destruct (Hput b k Hb) as (k1 & Hk1 & Hk1s & _ & _ & Hk1f & _). exists b, k1.
      split_and!; [done|by apply Hk1f|]. unfold nxt. lia.
    + assert (bpf m0 = true) as Hpf0 by (destruct Hcase as [(_ & _ & <-)|[(? & _)|(_ & _ & ->)]]; done).
      destruct (H5 c m0 Hc Hpf0) as (p & q & Hp & Hq & Hpq).
      destruct (Hput p q Hp) as (q1 & Hq1 & Hq1s & _ & Hq1f & _). exists p, q1.
      assert (p ≠ b) by (intros ->; simplify_eq). split_and!; [done|by rewrite Hq1f|].
      unfold nxt in *. lia.
  - intros c m d l (m0 & Hc & Hsz & _)%Hget (l0 & Hd & _)%Hget Hlt. unfold nxt. rewrite Hsz.
    by apply (H6 c m0 d l0).
  - intros c m (m0 & Hc & -> & -> & _)%Hget. by apply H7.
Qed.

Lemma nxt_gt B b k : layout B → B !! b = Some k → b + 8 ≤ nxt b k.
Proof. intros H Hb. destruct (ly_size B H b k Hb) as [_ [|]]; unfold nxt; lia. Qed.
Lemma nxt_inj B b k c m : layout B → B !! b = Some k → B !! c = Some m → nxt b k = nxt c m → b = c.
Proof.
  intros H Hb Hc Heq. pose proof (nxt_gt B b k H Hb). pose proof (nxt_gt B c m H Hc).
  destruct (Z.lt_trichotomy b c) as [Hlt|[|Hlt]]; [|done|].
  - pose proof (ly_apart B H b k c m Hb Hc Hlt). lia.
  - pose proof (ly_apart B H c m b k Hc Hb Hlt). lia.
Qed.
(** Where a block lies with respect to another one. *)
Lemma beside_block B b k c m : layout B → B !! b = Some k → B !! c = Some m → c = b ∨ nxt c m ≤ b ∨
    nxt b k ≤ c.
Proof.
  intros H Hb Hc. destruct (Z.lt_trichotomy b c) as [Hlt|[|Hlt]]; [|by left|].
  - right; right. by apply (ly_apart B H b k c m).
  - right; left. by apply (ly_apart B H c m b k).
Qed.

(** Block [b] keeps [sz] bytes, the rest becomes a free block. *)
Definition rest_of (b sz : Z) : Z := b + sz + 8.
Definition splitted (b : Z) (k n : blk) (sz : Z) (B : blocks_map) : blocks_map :=
  <[nxt b k := set_pf true n]> (<[rest_of b sz := Blk (bsz k - sz - 8) true (bfree k) (bend k)]>
    (<[b := set_sz sz k]> B)).
Section split.
Context (B : blocks_map) (b : Z) (k n : blk) (sz : Z).
Context (H : layout B) (Hb : B !! b = Some k) (Hn : B !! nxt b k = Some n).
Context (Hsz : 24 ≤ sz) (Hal : sz mod 8 = 0) (Hk : sz + 32 ≤ bsz k).
Let r : Z := rest_of b sz.
Let rk : blk := Blk (bsz k - sz - 8) true (bfree k) (bend k).

Lemma split_outside c m : B !! c = Some m → c = b ∨ nxt c m ≤ b ∨ nxt b k ≤ c.
Proof. intros Hc. by apply (beside_block B b k c m). Qed.
Lemma split_order : b + 32 ≤ r ∧ r + 32 ≤ nxt b k ∧ nxt r rk = nxt b k ∧ nxt b (set_sz sz k) = r.
Proof. unfold r, rk, rest_of, nxt, set_sz. cbn. lia. Qed.
Lemma split_fresh : B !! r = None.
Proof.
  apply eq_None_not_Some. intros [m Hm]. pose proof (nxt_gt B r m H Hm). pose proof split_order.
  destruct (split_outside r m Hm) as [|[|]]; lia.
Qed.
Lemma split_lookup c m :
  splitted b k n sz B !! c = Some m ↔
  c = b ∧ m = set_sz sz k ∨ c = r ∧ m = rk ∨ c = nxt b k ∧ m = set_pf true n ∨
  (nxt c m ≤ b ∨ nxt b k < c) ∧ B !! c = Some m.
Proof.
  pose proof split_order as Ho. unfold splitted. fold r rk. rewrite !lookup_insert_Some. split.
  - intros [[<- <-]|[H1 [[<- <-]|[H2 [[<- <-]|[H3 Hc]]]]]]; auto 8. right; right; right.
    split; [|done]. destruct (split_outside c m Hc) as [|[|]]; [done|auto|lia].
  - intros [[-> ->]|[[-> ->]|[[-> ->]|[Hc Hm]]]];
      [right; split; [lia|]; right; split; [lia|]; auto|right; split; [lia|]; auto|auto|].
    pose proof (nxt_gt B c m H Hm). right. split; [lia|]. right. split; [lia|]. right. split; [lia|done].
Qed.
Lemma split_aligned : r mod 8 = 0 ∧ bsz rk mod 8 = 0.
Proof.
  destruct (ly_range B H b k Hb) as (_ & _ & Hb2). destruct (ly_size B H b k Hb) as [Hk8 _].
  unfold r, rk, rest_of. cbn.
  split; [rewrite Z.add_mod, (Z.add_mod b), Hb2, Hal by lia; done|].
  rewrite Zminus_mod, (Zminus_mod (bsz k)), Hk8, Hal. done.
Qed.
Lemma split_next c m :
  splitted b k n sz B !! c = Some m → bsz m ≠ 0 →
  ∃ n', splitted b k n sz B !! nxt c m = Some n' ∧ bpf n' = bfree m ∧ bend n' = bend m.
Proof.
  pose proof split_order as Ho.
  destruct (ly_next B H b k Hb ltac:(lia)) as (n0 & Hn0 & Hnpf & Hnend).
  assert (n0 = n) as -> by congruence.
  intros [[-> ->]|[[-> ->]|[[-> ->]|[Hc Hm]]]]%split_lookup Hs.
  - exists rk. split; [apply split_lookup; right; left; split; [lia|done]|done].
  - exists (set_pf true n). split; [apply split_lookup; right; right; left; split; [lia|done]|done].
  - destruct (ly_next B H _ n Hn Hs) as (n' & Hn' & Hp & He). pose proof (nxt_gt B _ n H Hn).
    exists n'. split; [|done]. apply split_lookup. right; right; right.
    split; [right; unfold nxt in *; cbn; lia|done].
  - destruct (ly_next B H c m Hm Hs) as (n' & Hn' & Hp & He). pose proof (nxt_gt B c m H Hm).
    destruct (decide (nxt c m = b)) as [Heq|Hne].
    { exists (set_sz sz k). rewrite Heq in Hn' |- *. assert (n' = k) as -> by congruence.
        split; [apply split_lookup; by left|done]. }
    exists n'. split; [|done]. apply split_lookup. right; right; right. split; [|done].
    destruct (split_outside _ n' Hn') as [|[|Hge]]; [done|by left|]. right.
    pose proof (nxt_inj B c m b k H Hm Hb). lia.
Qed.
Lemma split_prev c m :
  splitted b k n sz B !! c = Some m → bpf m = true →
  ∃ p q, splitted b k n sz B !! p = Some q ∧ bfree q = true ∧ nxt p q = c.
Proof.
  pose proof split_order as Ho. intros [[-> ->]|[[-> ->]|[[-> ->]|[Hc Hm]]]]%split_lookup Hpf.
  - destruct (ly_prev B H b k Hb Hpf) as (p & q & Hp & Hq & Hpq). exists p, q. split; [|done].
    apply split_lookup. right; right; right. split; [left; lia|done].
  - exists b, (set_sz sz k). split; [apply split_lookup; by left|]. split; [done|lia].
  - exists r, rk. split; [apply split_lookup; auto|]. split; [done|lia].
  - destruct (ly_prev B H c m Hm Hpf) as (p & q & Hp & Hq & Hpq). pose proof (nxt_gt B c m H Hm).
    destruct (split_outside p q Hp) as [->|[Hle|Hge]].
    + assert (q = k) as -> by congruence. lia.
    + exists p, q. split; [|done]. apply split_lookup. right; right; right. by split; [left|].
    + destruct (decide (p = nxt b k)) as [->|]; [|exists p, q; split; [|done]; apply split_lookup;
        right; right; right; split; [right; lia|done]].
      assert (q = n) as -> by congruence. exists (nxt b k), (set_pf true n).
      split; [apply split_lookup; auto|done].
Qed.
Lemma layout_split : layout (splitted b k n sz B).
Proof.
  pose proof split_order as Ho. pose proof split_aligned as [Hr8 Hrs8].
  destruct (H) as [H1 H2 H3 H4 H5 H6 H7].
  destruct (H1 b k Hb) as (Hb0 & Hb1 & Hb2). destruct (H3 b k Hb ltac:(lia)) as [He1 He2]. split.
  - intros c m [[-> ->]|[[-> ->]|[[-> ->]|[_ Hm]]]]%split_lookup;
      [cbn; lia| |by apply (H1 (nxt b k) n)|by apply H1]. unfold nxt in Ho. cbn in *. lia.
  - intros c m [[-> ->]|[[-> ->]|[[-> ->]|[_ Hm]]]]%split_lookup;
      [cbn; lia| |by apply (H2 (nxt b k) n)|by apply (H2 c m)]. split; [done|]. right. cbn. lia.
  - intros c m [[-> ->]|[[-> ->]|[[-> ->]|[_ Hm]]]]%split_lookup;
      [unfold nxt in *; cbn in *; lia| |by apply (H3 (nxt b k) n)|by apply H3]. intros _.
    cbn [bend rk]. lia.
  - apply split_next.
  - apply split_prev.
  - assert (∀ c m, splitted b k n sz B !! c = Some m → c = b ∧ nxt c m = r ∨ c = r ∧
      nxt c m = nxt b k ∨ (nxt c m ≤ b ∨ nxt b k ≤ c) ∧ ∃ m', B !! c = Some m' ∧ nxt c m' = nxt c m)
      as Hcase.
    { intros c m [[-> ->]|[[-> ->]|[[-> ->]|[Hc Hm]]]]%split_lookup;
        [left; lia|right; left; lia| |]; right; right; (split; [lia|]); eexists;
        (split; [done|done]). }
    intros c m d l Hc Hd Hlt. pose proof Hd as Hd'. apply Hcase in Hd'.
    destruct (Hcase c m Hc) as [[-> ->]|[[-> ->]|[Hc1 (m' & Hm' & Hnm)]]].
    + destruct Hd' as [[-> _]|[[-> _]|[[Hd1|Hd1] (l' & Hl' & Hnl)]]]; try lia.
      pose proof (nxt_gt B d l' H Hl'). lia.
    + destruct Hd' as [[-> _]|[[-> _]|[[Hd1|Hd1] (l' & Hl' & Hnl)]]]; try lia.
      pose proof (nxt_gt B d l' H Hl'). lia.
    + destruct Hd' as [[-> _]|[[-> _]|[Hd1 (l' & Hl' & Hnl)]]]; [lia|lia|]. rewrite <-Hnm.
      by apply (H6 c m' d l').
  - intros c m [[-> ->]|[[-> ->]|[[-> ->]|[_ Hm]]]]%split_lookup;
      [cbn; lia|cbn; lia|by apply (H7 (nxt b k) n)|by apply H7].
Qed.
End split.

(** Block [p] takes in the free block [b] behind it. *)
Definition absorbed (p : Z) (q : blk) (b : Z) (k : blk) (B : blocks_map) : blocks_map :=
  <[p := set_sz (bsz q + bsz k + 8) q]> (delete b B).
Section absorb.
Context (B : blocks_map) (p : Z) (q : blk) (b : Z) (k : blk).
Context (H : layout B) (Hp : B !! p = Some q) (Hb : B !! b = Some k) (Hpb : nxt p q = b).
Context (Hq : bfree q = true) (Hk : bfree k = true).
Let pk : blk := set_sz (bsz q + bsz k + 8) q.

Lemma absorb_order : p + 32 ≤ b ∧ b + 32 ≤ nxt b k ∧ nxt p pk = nxt b k ∧ 24 ≤ bsz q ∧ 24 ≤ bsz k.
Proof.
  destruct (ly_size B H p q Hp) as [_ [[_ ?]|?]]; [congruence|].
  destruct (ly_size B H b k Hb) as [_ [[_ ?]|?]]; [congruence|]. unfold pk, nxt, set_sz in *. cbn.
  lia.
Qed.
Lemma absorb_lookup c m :
  absorbed p q b k B !! c = Some m ↔ c = p ∧ m = pk ∨ (nxt c m ≤ p ∨ nxt b k ≤ c) ∧ B !! c = Some m.
Proof.
  pose proof absorb_order as Ho. unfold absorbed. fold pk.
  rewrite lookup_insert_Some, lookup_delete_Some. split.
  - intros [[<- <-]|[H1 [H2 Hc]]]; [by left|right]. split; [|done].
    destruct (beside_block B p q c m H Hp Hc) as [|[|]]; [done|auto|].
    destruct (beside_block B b k c m H Hb Hc) as [|[|]]; [done| |auto].
    pose proof (nxt_gt B c m H Hc). lia.
  - intros [[-> ->]|[Hc Hm]]; [by left|]. pose proof (nxt_gt B c m H Hm). right. split; [lia|].
    split; [lia|done].
Qed.
Lemma layout_absorb : layout (absorbed p q b k B).
Proof.
  pose proof absorb_order as Ho. destruct (H) as [H1 H2 H3 H4 H5 H6 H7].
  destruct (H1 p q Hp) as (Hp0 & Hp1 & Hp2). destruct (H1 b k Hb) as (Hb0 & Hb1 & Hb2).
  destruct (H3 p q Hp ltac:(lia)) as [Hpe1 Hpe2]. destruct (H3 b k Hb ltac:(lia)) as [Hbe1 Hbe2].
  destruct (H4 p q Hp ltac:(lia)) as (b' & Hb' & _ & Hbe). rewrite Hpb in Hb'.
  assert (b' = k) as -> by congruence.
  destruct (H4 _ k Hb ltac:(lia)) as (n & Hn & Hnpf & Hne). split.
  - intros c m [[-> ->]|[_ Hm]]%absorb_lookup; [unfold nxt in *; cbn; lia|by apply H1].
  - intros c m [[-> ->]|[_ Hm]]%absorb_lookup; [|by apply (H2 c m)]. cbn. split; [|lia].
    destruct (H2 p q Hp) as [Hq8 _], (H2 _ k Hb) as [Hk8 _].
    rewrite Z.add_mod, (Z.add_mod (bsz q)), Hq8, Hk8 by lia. done.
  - intros c m [[-> ->]|[_ Hm]]%absorb_lookup; [|by apply H3]. intros _. cbn [bend pk set_sz].
    unfold nxt in *. cbn in *. lia.
  - intros c m [[-> ->]|[Hc Hm]]%absorb_lookup Hs.
    + exists n.
      split; [apply absorb_lookup; right; split; [right; lia|];
        by replace (nxt p pk) with (nxt b k) by lia|]. cbn. split; congruence.
    + destruct (H4 c m Hm Hs) as (n' & Hn' & Hp' & He). pose proof (nxt_gt B c m H Hm).
      destruct (decide (nxt c m = p)) as [Heq|Hne'].
      { exists pk. rewrite Heq in Hn' |- *. assert (n' = q) as -> by congruence.
          split; [apply absorb_lookup; by left|done]. }
      exists n'. split; [|done]. apply absorb_lookup. right. split; [|done].
      destruct Hc as [Hc|Hc]; [left|right; lia]. pose proof (H6 _ n' p q Hn' Hp). lia.
  - intros c m [[-> ->]|[Hc Hm]]%absorb_lookup Hpf.
    + destruct (H5 p q Hp Hpf) as (p' & q' & Hp' & Hq' & Hpq'). exists p', q'. split; [|done].
      apply absorb_lookup. right. split; [left; lia|done].
    + destruct (H5 c m Hm Hpf) as (p' & q' & Hp' & Hq' & Hpq'). pose proof (nxt_gt B c m H Hm).
      destruct (decide (p' = b)) as [->|Hnb].
      { assert (q' = k) as -> by congruence. exists p, pk. split; [apply absorb_lookup; by left|].
          split; [done|lia]. }
      exists p', q'. split; [|done]. apply absorb_lookup. right. split; [|done].
      destruct (beside_block B p q p' q' H Hp Hp') as [->|[|Hge]];
        [assert (q' = q) as -> by congruence; lia|by left|].
      destruct (beside_block B b k p' q' H Hb Hp') as [|[|]]; [done| |by right].
      pose proof (nxt_gt B p' q' H Hp'). lia.
  - intros c m d l [[-> ->]|[Hc Hm]]%absorb_lookup [[-> ->]|[Hd Hl]]%absorb_lookup Hlt;
      [lia| | |by apply (H6 c m d l)].
    + destruct Hd as [Hd|Hd]; [pose proof (nxt_gt B d l H Hl)|]; lia.
    + by apply (H6 c m p q).
  - intros c m [[-> ->]|[_ Hm]]%absorb_lookup; [cbn; lia|by apply H7].
Qed.
End absorb.

(** ** Memory *)

Definition wd (k : blk) : Z := word (bsz k) (bfree k) (bpf k).
Record memory_ok (h : mem) (B : blocks_map) : Prop := {
  mo_word b k : B !! b = Some k → h !! size b = Some (wd k);
  mo_link b k : B !! b = Some k → bfree k = true → h !! nxt b k = Some b;
  mo_mapped b k a : B !! b = Some k → b + 8 ≤ a < b + 16 + bsz k → a mod 8 = 0 → is_Some (h !! a);
}.
(** [X] holds the free blocks that are in no list at the moment. *)
Record heap_ok (st : control) (B : blocks_map) (L : lists) (X : gset Z) : Prop := {
  ho_layout : layout B;
  ho_memory : memory_ok (heap st) B;
  ho_lists : lists_ok st L;
  ho_listed c b : class_ok c → (b ∈ L c) ↔
    ∃ k, B !! b = Some k ∧ bfree k = true ∧ (b ∉ X) ∧ mapping_insert (bsz k) = c;
  ho_ctl b k : B !! b = Some k → ctl st + 32 ≤ b ∨ b + 16 + bsz k ≤ ctl st;
}.
(** Block [b] is in use, with [s] bytes. *)
Definition in_use (B : blocks_map) (b s : Z) : Prop := s ≠ 0 ∧ ∃ k, B !! b = Some k ∧
    bfree k = false ∧ bsz k = s.
(** The pools, with their first block and their sentinel, hold the blocks. *)
Definition pools (P : list (Z * Z)) (B : blocks_map) : Prop :=
  (∀ s e, (s, e) ∈ P → (∃ k, B !! s = Some k ∧ bsz k ≠ 0 ∧ bend k = e) ∧
    (∀ c m, B !! c = Some m → bsz m ≠ 0 → nxt c m ≠ s)) ∧
  (∀ c m, B !! c = Some m → ∃ s, (s, bend m) ∈ P ∧ s ≤ c).
(** Memory that belongs to no pool. *)
Definition outside (P : list (Z * Z)) (a : Z) : Prop := ∀ s e, (s, e) ∈ P → a < s + 8 ∨ e + 16 ≤ a.
(** The memory that is not the allocator's: pieces in use, and what is outside of the pools. *)
Definition user (B : blocks_map) (a : Z) : Prop :=
  (∃ b s, in_use B b s ∧ b + 16 ≤ a < b + 16 + s) ∨ (∃ P, pools P B ∧ outside P a).
(** The part of it that does not belong to the piece at [b]. *)
Definition others (B : blocks_map) (b a : Z) : Prop :=
  (∃ c t, c ≠ b ∧ in_use B c t ∧ c + 16 ≤ a < c + 16 + t) ∨ (∃ P, pools P B ∧ outside P a).
(** What an operation leaves alone: [U], without the links of the control structure. *)
Definition ctl_cell (z a : Z) : Prop := z + 16 ≤ a < z + 32.
Definition same (st st' : control) (U : Z → Prop) : Prop :=
  ctl st' = ctl st ∧ ∀ a, U a → ¬ ctl_cell (ctl st) a → heap st' !! a = heap st !! a.
Lemma same_trans st1 st2 st3 U : same st1 st2 U → same st2 st3 U → same st1 st3 U.
Proof. intros [H1 H2] [H3 H4]. split; [congruence|]. intros a Ha Hz. rewrite H4, H2; [done|done|done|done|by rewrite H1]. Qed.
Lemma same_mono st st' (U V : Z → Prop) : same st st' U → (∀ a, V a → U a) → same st st' V.
Proof. intros [H1 H2] HV. split; [done|auto]. Qed.
Lemma others_user B b a : others B b a → user B a.
Proof. intros [(c & t & _ & Hc & Ha)|HP]; [left; eauto|by right]. Qed.
Lemma in_use_not_ctl st B L X b s a : heap_ok st B L X → in_use B b s → b + 16 ≤ a < b + 16 + s → ¬ ctl_cell (ctl st) a.
Proof. intros H (_ & k & Hb & _ & <-) Ha. destruct (ho_ctl _ _ _ _ H b k Hb); unfold ctl_cell; lia. Qed.
Lemma pools_cell P B b k a : layout B → pools P B → B !! b = Some k → b + 8 ≤ a < b + 16 + bsz k → ¬ outside P a.
Proof.
  intros H [_ HP] Hb Ha Ho. destruct (HP b k Hb) as (s & Hs & Hle). assert (b + bsz k ≤ bend k).
  { destruct (decide (bsz k = 0)) as [Hz|Hz]; [rewrite (ly_sent B H b k Hb Hz); lia|].
    destruct (ly_end B H b k Hb Hz). unfold nxt in *. lia. }
  destruct (Ho _ _ Hs); lia.
Qed.

Lemma free_size B b k : layout B → B !! b = Some k → bfree k = true → 24 ≤ bsz k < 2 ^ 32 ∧
    bsz k mod 8 = 0 ∧ 0 < b < 2 ^ 63 ∧ b mod 8 = 0.
Proof.
  intros H Hb Hf. destruct (ly_size B H b k Hb) as [? [[_ ?]|?]]; [congruence|].
  destruct (ly_end B H b k Hb ltac:(lia)). destruct (ly_range B H b k Hb) as (? & ? & ?).
  unfold nxt in *. split_and!; try done; lia.
Qed.
Lemma free_class B b k : layout B → B !! b = Some k → bfree k = true → class_ok (mapping_insert (bsz k)).
Proof. intros H Hb Hf. destruct (free_size B b k H Hb Hf). apply tlsf_mapping_insert_spec. lia. Qed.
Lemma size_range B b k : layout B → B !! b = Some k → 0 ≤ bsz k < 2 ^ 63 ∧ bsz k mod 8 = 0.
Proof. intros H Hb. destruct (ly_size B H b k Hb) as [? [[? _]|?]];
    destruct (ly_range B H b k Hb) as (? & ? & _); lia. Qed.

(** The cells of the links of the free lists. *)
Definition link_cell (B : blocks_map) (z a : Z) : Prop :=
  (a = next_free z ∨ a = prev_free z) ∨ ∃ b k, B !! b = Some k ∧ bfree k = true ∧
    (a = next_free b ∨ a = prev_free b).
Lemma link_cell_apart st B L X b k a :
  heap_ok st B L X → B !! b = Some k → b + 8 ≤ a < b + 16 + bsz k → link_cell B (ctl st) a →
  bfree k = true ∧ (a = next_free b ∨ a = prev_free b).
Proof.
  intros H Hb Ha [Hz|(c & m & Hc & Hf & Hca)].
  - destruct (ho_ctl _ _ _ _ H b k Hb); unfold next_free, prev_free in Hz; lia.
  - destruct (beside_block B b k c m (ho_layout _ _ _ _ H) Hb Hc) as [->|Hd];
      [split; [congruence|done]|].
    destruct (free_size B c m (ho_layout _ _ _ _ H) Hc Hf) as [? _].
    unfold next_free, prev_free, nxt in *. lia.
Qed.
Lemma memory_links st B L X h' :
  heap_ok st B L X → (∀ a, ¬ link_cell B (ctl st) a → h' !! a = heap st !! a) →
  (∀ a, is_Some (heap st !! a) → is_Some (h' !! a)) → memory_ok h' B.
Proof.
  intros H Heq Hsome. destruct (ho_memory _ _ _ _ H) as [M1 M2 M3]. split.
  - intros b k Hb. rewrite Heq; [by apply M1|]. intros Hl.
    pose proof (size_range B b k (ho_layout _ _ _ _ H) Hb).
    destruct (link_cell_apart st B L X b k (size b) H Hb) as [_ ?]; [unfold size; lia|done|].
    unfold size, next_free, prev_free in *. lia.
  - intros b k Hb Hf. rewrite Heq; [by apply M2|]. intros Hl.
    destruct (free_size B b k (ho_layout _ _ _ _ H) Hb Hf) as [? _].
    destruct (link_cell_apart st B L X b k (nxt b k) H Hb) as [_ ?]; [unfold nxt; lia|done|].
    unfold nxt, next_free, prev_free in *. lia.
  - intros b k a Hb Ha Hal. apply Hsome. by eapply M3.
Qed.
Lemma user_links st B L X a : heap_ok st B L X → user B a → ¬ ctl_cell (ctl st) a → ¬ link_cell B (ctl st) a.
Proof.
  intros H [(b & s & (_ & k & Hb & Hf & <-) & Ha)|(P & HP & Ho)] Hz Hl.
  - destruct (link_cell_apart st B L X b k a H Hb) as [? _]; [lia|done|congruence].
  - destruct Hl as [Hc|(b & k & Hb & Hf & Ha)]; [unfold ctl_cell, next_free, prev_free in *; lia|].
    destruct (free_size B b k (ho_layout _ _ _ _ H) Hb Hf) as [? _].
    apply (pools_cell P B b k a); try done; [apply (ho_layout _ _ _ _ H)|unfold next_free, prev_free in *; lia].
Qed.
Lemma listed_link st B L X c b a :
  heap_ok st B L X → class_ok c → b ∈ L c → a = next_free b ∨ a = prev_free b → link_cell B (ctl st) a.
Proof. intros H Hc Hb Ha. right. apply (ho_listed _ _ _ _ H) in Hb as (k & Hk & Hf & _); [|done].
  eauto. Qed.

(** ** Taking blocks out of the lists and putting them in *)

Lemma removed_heap st c l1 l2 : heap (removed st c l1 l2) = unlinked st l1 l2.
Proof. unfold removed. by repeat case_match. Qed.
Lemma removed_ctl st c l1 l2 : ctl (removed st c l1 l2) = ctl st.
Proof. unfold removed. by repeat case_match. Qed.
Lemma removed_heap_ok st B L X c b l1 l2 :
  heap_ok st B L X → class_ok c → L c = l1 ++ b :: l2 →
  heap_ok (removed st c l1 l2) B (upd c (l1 ++ l2) L) ({[ b ]} ∪ X) ∧
    same st (removed st c l1 l2) (user B).
Proof.
  intros H Hc HL. pose proof (ho_lists _ _ _ _ H) as Hlo.
  assert (Hcells : ∀ a, ¬ link_cell B (ctl st) a → unlinked st l1 l2 !! a = heap st !! a).
  { intros a Ha. unfold unlinked. rewrite !lookup_insert_ne; [done| |]; intros <-; apply Ha.
    - destruct (next_of_cases st L c b l1 l2 HL) as [[_ ->]|(x & l & _ & -> & Hx)];
        [left; by right|by eapply listed_link; eauto].
    - destruct (prev_of_cases st L c b l1 l2 HL) as [[_ ->]|(l & x & _ & -> & Hx)];
        [left; by left|by eapply listed_link; eauto]. }
  split.
  - split; [apply (ho_layout _ _ _ _ H)| |by apply (removed_ok st L c b)| |rewrite removed_ctl;
      apply (ho_ctl _ _ _ _ H)].
    + rewrite removed_heap. eapply memory_links; [done|done|]. intros a Ha. unfold unlinked.
      rewrite !lookup_insert_is_Some'. auto.
    + intros d x Hd. pose proof (ho_listed _ _ _ _ H d x Hd) as Hl.
      destruct (not_in_rest st L c b l1 l2 Hlo Hc HL) as [Hn1 Hn2].
      unfold upd. case_decide as Hdc; [subst d|].
      * rewrite elem_of_app. rewrite HL, elem_of_app, elem_of_cons in Hl. split.
        -- intros Hx. assert (x ≠ b) by (intros ->; tauto).
           destruct (proj1 Hl) as (k & ? & ? & ? & ?); [tauto|]. exists k.
           split_and!; [done|done|set_solver|done].
        -- intros (k & ? & ? & Hx & ?). destruct (proj2 Hl) as [|[->|]];
             [exists k; split_and!; try done; set_solver|by left|set_solver|by right].
      * rewrite Hl. split; intros (k & ? & ? & Hx & ?); exists k; (split_and!; [done|done| |done]);
          [|set_solver].
        assert (b ∈ L c) as Hbc by (rewrite HL; set_solver).
        apply (ho_listed _ _ _ _ H) in Hbc as (k' & ? & ? & ? & ?); [|done].
        assert (x ≠ b) by (intros ->; congruence). set_solver.
  - split; [apply removed_ctl|]. intros a Ha Hz. rewrite removed_heap. apply Hcells. by eapply user_links.
Qed.
Lemma block_remove_ok st B L X b k :
  heap_ok st B L X → B !! b = Some k → bfree k = true → b ∉ X →
  ∃ st' L', block_remove b st = (Ok tt, st') ∧ heap_ok st' B L' ({[ b ]} ∪ X) ∧ same st st' (user B).
Proof.
  intros H Hb Hf HX. pose proof (free_class B b k (ho_layout _ _ _ _ H) Hb Hf) as Hc.
  assert (b ∈ L (mapping_insert (bsz k))) as (l1 & l2 & HL)%list_elem_of_split
    by (apply (ho_listed _ _ _ _ H); eauto).
  destruct (removed_heap_ok st B L X _ b l1 l2 H Hc HL) as [H1 H2].
  exists (removed st (mapping_insert (bsz k)) l1 l2), (upd (mapping_insert (bsz k)) (l1 ++ l2) L).
  split; [|done].
  unfold block_remove. run (block_size_run st b _ (mo_word _ _ (ho_memory _ _ _ _ H) b k Hb)).
  destruct (size_range B b k (ho_layout _ _ _ _ H) Hb). unfold wd. rewrite word_size by lia.
  pose proof (remove_free_block_run st L _ b l1 l2 (ho_lists _ _ _ _ H) Hc HL) as Hr.
  by destruct (mapping_insert (bsz k)).
Qed.
Lemma block_insert_ok st B L X b k :
  heap_ok st B L X → B !! b = Some k → bfree k = true → b ∈ X →
  ∃ st' L', block_insert b st = (Ok tt, st') ∧ heap_ok st' B L' (X ∖ {[ b ]}) ∧ same st st' (user B).
Proof.
  intros H Hb Hf HX. pose proof (ho_layout _ _ _ _ H) as Hly.
  pose proof (free_class B b k Hly Hb Hf) as Hc. pose proof (ho_lists _ _ _ _ H) as Hlo.
  destruct (free_size B b k Hly Hb Hf) as (Hs & Hs8 & Hbr & Hb8). set (c := mapping_insert (bsz k)) in *.
  assert (Hfr : fresh st L b).
  { split; [done|done| | | |].
    - eapply (mo_mapped _ _ (ho_memory _ _ _ _ H)); [done|unfold next_free; lia|]. unfold next_free.
      rewrite Z.add_mod, Hb8 by lia. done.
    - eapply (mo_mapped _ _ (ho_memory _ _ _ _ H)); [done|unfold prev_free; lia|]. unfold prev_free.
      rewrite Z.add_mod, Hb8 by lia. done.
    - destruct (ho_ctl _ _ _ _ H b k Hb); unfold far; lia.
    - intros d a Hd Ha. apply (ho_listed _ _ _ _ H) in Ha as (m & Hm & Hmf & HaX & _); [|done].
      destruct (free_size B a m Hly Hm Hmf) as [? _].
      destruct (beside_block B b k a m Hly Hb Hm) as [->|Hd']; [done|]. unfold far, nxt in *. lia. }
  exists (inserted st c b), (upd c (b :: L c) L). split; [|split].
  - unfold block_insert. run (block_size_run st b _ (mo_word _ _ (ho_memory _ _ _ _ H) b k Hb)).
    unfold wd. rewrite word_size by lia. fold c.
    pose proof (insert_free_block_run st L b c.1 c.2 Hlo Hfr) as Hr. destruct c. by apply Hr.
  - assert (Hcells : ∀ a, ¬ link_cell B (ctl st) a → heap (inserted st c b) !! a = heap st !! a).
    { intros a Ha. unfold inserted. cbn [heap]. rewrite (lo_head _ _ Hlo c Hc). cbn [default].
        rewrite !lookup_insert_ne; [done| | |]; intros <-; apply Ha.
      - right. exists b, k. auto.
      - right. exists b, k. auto.
      - destruct (hd_cases L c (ctl st)) as [[_ ->]|(x & l & Hl & ->)]; [left; by right|].
        eapply listed_link; [done|exact Hc|rewrite Hl; by left|by right]. }
    split; [done| |by apply inserted_ok| |apply (ho_ctl _ _ _ _ H)].
    + eapply memory_links; [done|done|]. intros a Ha. unfold inserted. cbn [heap].
      rewrite !lookup_insert_is_Some'. auto.
    + intros d x Hd. pose proof (ho_listed _ _ _ _ H d x Hd) as Hl. unfold upd.
      case_decide as Hdc; [subst d|].
      * rewrite elem_of_cons, Hl. split.
        -- intros [->|(m & ? & ? & ? & ?)]; [exists k|exists m]; split_and!; try done; set_solver.
        -- intros (m & ? & ? & ? & ?). destruct (decide (x = b)) as [->|]; [by left|]. right.
           exists m. split_and!; try done. set_solver.
      * rewrite Hl. split; intros (m & ? & ? & ? & ?); exists m; (split_and!; [done|done| |done]);
          [set_solver|]. assert (x ≠ b) by (intros ->; simplify_eq). set_solver.
  - split; [done|]. intros a Ha Hz. pose proof (user_links st B L X a H Ha Hz) as Hn. unfold inserted.
    cbn [heap]. rewrite (lo_head _ _ Hlo c Hc). cbn [default]. rewrite !lookup_insert_ne;
      [done| | |]; intros <-; apply Hn.
    + right. exists b, k. auto.
    + right. exists b, k. auto.
    + destruct (hd_cases L c (ctl st)) as [[_ ->]|(x & l & Hl & ->)]; [left; by right|].
      eapply listed_link; [done|exact Hc|rewrite Hl; by left|by right].
Qed.

(** ** Changes of the headers *)

Definition listed (B : blocks_map) (X : gset Z) (b s : Z) : Prop :=
  ∃ k, B !! b = Some k ∧ bfree k = true ∧ (b ∉ X) ∧ bsz k = s.
(** The cells an operation may write without touching the links of the lists: headers, and the
    inside of blocks that are in no list. *)
Definition hcell (B : blocks_map) (X : gset Z) (a : Z) : Prop :=
  ∃ b k, B !! b = Some k ∧ b + 8 ≤ a < b + 16 + bsz k ∧
    ((bfree k = false ∨ b ∈ X) ∨ a = size b ∨ a = nxt b k).

Lemma hcell_link st B L X a b k :
  heap_ok st B L X → hcell B X a → B !! b = Some k → bfree k = true → b ∉ X → a ≠ next_free b ∧
    a ≠ prev_free b.
Proof.
  intros H (c & m & Hc & Ha & Hcase) Hb Hf HX. pose proof (ho_layout _ _ _ _ H) as Hly.
  destruct (free_size B b k Hly Hb Hf) as [? _].
  destruct (beside_block B b k c m Hly Hb Hc) as [->|[?|?]];
    unfold next_free, prev_free, nxt, size in *; [|lia..].
  simplify_eq. destruct Hcase as [[?|?]|[?|?]]; [congruence|done|lia..].
Qed.
Lemma hcell_ctl st B L X a : heap_ok st B L X → hcell B X a → a ≠ next_free (ctl st) ∧
    a ≠ prev_free (ctl st).
Proof. intros H (c & m & Hc & Ha & _). destruct (ho_ctl _ _ _ _ H c m Hc);
    unfold next_free, prev_free; lia. Qed.

Lemma lists_ok_heap st L h' :
  lists_ok st L → (∀ a, a = next_free (ctl st) ∨ a = prev_free (ctl st) → h' !! a = heap st !! a) →
  (∀ c b, class_ok c → b ∈ L c → h' !! prev_free b = heap st !! prev_free b ∧
    h' !! next_free b = heap st !! next_free b) →
  lists_ok (set_heap h' st) L.
Proof.
  intros [H1 [H2 H2'] H3 H4 H5 H6 H7 H8 H9 H10 H11 H12 H13 H14] Hz Hl. split; try done.
  - cbn [heap set_heap ctl]. rewrite !Hz by auto. done.
  - intros c Hc. cbn [heap set_heap ctl]. eapply dseg_frame; [|by apply H9]. eauto.
Qed.
Lemma heap_change st B L X h' B' X' :
  heap_ok st B L X → layout B' → memory_ok h' B' → (∀ b s, listed B' X' b s ↔ listed B X b s) →
  (∀ a, hcell B X a ∨ h' !! a = heap st !! a) →
  (∀ b k, B' !! b = Some k → ctl st + 32 ≤ b ∨ b + 16 + bsz k ≤ ctl st) →
    heap_ok (set_heap h' st) B' L X'.
Proof.
  intros H Hly Hmem Hlist Hcells Hctl. split; [done|done| | |done].
  - apply lists_ok_heap; [apply (ho_lists _ _ _ _ H)| |].
    + intros a Ha. destruct (Hcells a) as [Hh|]; [|done]. destruct (hcell_ctl st B L X a H Hh).
      destruct Ha; congruence.
    + intros c b Hc (k & Hb & Hf & HX & _)%(ho_listed _ _ _ _ H); [|done].
      split; [destruct (Hcells (prev_free b)) as [Hh|]|destruct (Hcells (next_free b)) as [Hh|]];
        try done; destruct (hcell_link st B L X _ b k H Hh); done.
  - intros c b Hc. rewrite (ho_listed _ _ _ _ H c b Hc). split; intros (k & Hb & Hf & HX & <-).
    + destruct (proj2 (Hlist b (bsz k))) as (k' & ? & ? & ? & Hs); [by exists k|]. exists k'.
      rewrite Hs. done.
    + destruct (proj1 (Hlist b (bsz k))) as (k' & ? & ? & ? & Hs); [by exists k|]. exists k'.
      rewrite Hs. done.
Qed.

(** Reading and writing header words. *)
Section accessors.
Context (st : control) (B : blocks_map) (L : lists) (X : gset Z) (b : Z) (k : blk).
Context (H : heap_ok st B L X) (Hb : B !! b = Some k).

Lemma word_at : heap st !! size b = Some (wd k).
Proof. apply (mo_word _ _ (ho_memory _ _ _ _ H) b k Hb). Qed.
Lemma block_size_at : block_size b st = (Ok (bsz k), st).
Proof. rewrite (block_size_run st b _ word_at).
  destruct (size_range B b k (ho_layout _ _ _ _ H) Hb). unfold wd. by rewrite word_size by lia. Qed.
Lemma next_mapped : bsz k ≠ 0 → is_Some (heap st !! nxt b k).
Proof.
  intros Hk. destruct (size_range B b k (ho_layout _ _ _ _ H) Hb) as [? Hs8].
  destruct (ly_range B (ho_layout _ _ _ _ H) b k Hb) as (_ & _ & Hb8).
  apply (mo_mapped _ _ (ho_memory _ _ _ _ H) b k); [done|unfold nxt; lia|]. unfold nxt.
  rewrite Z.add_mod, (Z.add_mod b), Hb8, Hs8 by lia. done.
Qed.
Lemma block_is_last_at : block_is_last b st = (Ok (bsz k =? 0), st).
Proof. unfold block_is_last. by run block_size_at. Qed.
Lemma block_is_free_at : block_is_free b st = (Ok (bfree k), st).
Proof. unfold block_is_free. run (read_ok size b _ st word_at).
  destruct (size_range B b k (ho_layout _ _ _ _ H) Hb). unfold wd. by rewrite word_free. Qed.
Lemma block_is_prev_free_at : block_is_prev_free b st = (Ok (bpf k), st).
Proof. unfold block_is_prev_free. run (read_ok size b _ st word_at).
  destruct (size_range B b k (ho_layout _ _ _ _ H) Hb). unfold wd. by rewrite word_prev_free. Qed.
Lemma block_can_split_at z : 0 ≤ z < 2 ^ 63 → block_can_split b z st = (Ok (z + 32 <=? bsz k), st).
Proof.
  intros Hz. unfold block_can_split. run block_size_at. unfold ret, sizeof_block_header.
  rewrite u64_small by lia. do 2 f_equal. f_equal. lia.
Qed.
End accessors.

(** The same on a header word, where the heap is between two steps. *)
Section words.
Context (st : control) (b s : Z) (f p : bool).
Context (Hw : heap st !! size b = Some (word s f p)) (Hs : 0 ≤ s < 2 ^ 63) (Hs8 : s mod 8 = 0).

Lemma set_free_word : block_set_free b st = (Ok tt, set_word b (word s true p) st).
Proof. rewrite (block_set_free_run st b _ Hw). by rewrite word_set_free. Qed.
Lemma set_used_word : block_set_used b st = (Ok tt, set_word b (word s false p) st).
Proof. unfold block_set_used. run (read_ok size b _ st Hw). rewrite word_set_used by (done || lia).
  apply write_ok. eauto. Qed.
Lemma set_prev_free_word : block_set_prev_free b st = (Ok tt, set_word b (word s f true) st).
Proof. unfold block_set_prev_free. run (read_ok size b _ st Hw). rewrite word_set_prev_free by done.
  apply write_ok. eauto. Qed.
Lemma set_prev_used_word : block_set_prev_used b st = (Ok tt, set_word b (word s f false) st).
Proof. rewrite (block_set_prev_used_run st b _ Hw). rewrite word_set_prev_used by (done || lia).
  done. Qed.
Lemma set_size_word z : z mod 8 = 0 → block_set_size b z st = (Ok tt, set_word b (word z f p) st).
Proof. intros Hz. rewrite (block_set_size_run st b _ z Hw). by rewrite word_set_size. Qed.
Lemma block_size_word : block_size b st = (Ok s, st).
Proof. rewrite (block_size_run st b _ Hw). by rewrite word_size by (done || lia). Qed.
Lemma block_next_word : 0 < s → 0 < b → b + 16 + s < 2 ^ 63 → block_next b st = (Ok (b + s + 8), st).
Proof.
  intros Hs0 Hb0 Hr. unfold block_next. run block_size_word. unfold block_is_last.
  rewrite bind_assoc. run block_size_word. rewrite bind_ret_l.
  rewrite bind_assert by (apply negb_true_iff, Z.eqb_neq; lia).
  unfold ret, offset_to_block, block_to_ptr, block_header_overhead, block_start_offset.
  do 2 f_equal. change (wrap 64) with u64.
  destruct (decide (8 ≤ s)) as [Hge|]; [|exfalso; apply Z.mod_divide in Hs8 as [j ->]; lia].
  rewrite (u64_small (b + 16)), (u64_small (s - 8)), u64_small by lia. lia.
Qed.
Lemma block_link_next_word :
  0 < s → 0 < b → b + 16 + s < 2 ^ 63 → is_Some (heap st !! (b + s + 8)) →
  block_link_next b st = (Ok (b + s + 8), set_heap (<[b + s + 8 := b]> (heap st)) st).
Proof. intros. unfold block_link_next. run (block_next_word ltac:(done) ltac:(done) ltac:(done)).
  by run (write_ok prev_phys_block (b + s + 8) b st ltac:(done)). Qed.
End words.

(** [block_mark_as_free] on the words of a block and of the one behind it. *)
Lemma mark_as_free_word st b s f p ns nf np :
  heap st !! size b = Some (word s f p) → 0 < s < 2 ^ 63 → s mod 8 = 0 → 0 < b → b + 16 + s < 2 ^ 63 →
  is_Some (heap st !! (b + s + 8)) → heap st !! size (b + s + 8) = Some (word ns nf np) → ns mod 8 = 0 →
  block_mark_as_free b st =
    (Ok tt, set_heap (<[size b := word s true p]> (<[size (b + s + 8) := word ns nf true]>
      (<[b + s + 8 := b]> (heap st)))) st).
Proof.
  intros Hw Hs Hs8 Hb Hr Hm Hwn Hns8. assert (8 ≤ s) by (apply Z.mod_divide in Hs8 as [j ->]; lia).
  unfold block_mark_as_free.
  run (block_link_next_word st b _ _ _ Hw ltac:(lia) Hs8 ltac:(lia) ltac:(lia) ltac:(lia) Hm).
  erewrite bind_ok; [|apply (set_prev_free_word _ _ ns nf np); [|done]];
    [|cbn; by rewrite lookup_insert_ne by (unfold size; lia)].
  rewrite (set_free_word _ b s f p); [done| |done]. cbn.
  by rewrite !lookup_insert_ne by (unfold size; lia).
Qed.

Lemma link_not_size B c m d l : layout B → B !! c = Some m → bfree m = true → B !! d = Some l →
    nxt c m ≠ size d.
Proof.
  intros H Hc Hf Hd. destruct (free_size B c m H Hc Hf) as [? _]. pose proof (nxt_gt B d l H Hd).
  unfold size. destruct (beside_block B d l c m H Hd Hc) as [->|[?|?]]; unfold nxt in *; lia.
Qed.
Lemma size_not_link B b k d l : layout B → B !! b = Some k → bsz k ≠ 0 → B !! d = Some l →
    size d ≠ nxt b k.
Proof.
  intros H Hb Hk Hd. destruct (ly_size B H b k Hb) as [_ [[? _]|?]]; [done|].
  pose proof (nxt_gt B d l H Hd). unfold size.
  destruct (beside_block B d l b k H Hd Hb) as [->|[?|?]]; unfold nxt in *; lia.
Qed.

(** ** Marking a block *)

Lemma flipped_lookup B b k n v c m :
  b ≠ nxt b k →
  flipped b k n v B !! c = Some m ↔
  c = b ∧ m = set_fr v k ∨ c = nxt b k ∧ m = set_pf v n ∨ c ≠ b ∧ c ≠ nxt b k ∧ B !! c = Some m.
Proof. intros Hne. unfold flipped. rewrite !lookup_insert_Some. naive_solver. Qed.

Section flip.
Context (st : control) (B : blocks_map) (L : lists) (X X' : gset Z) (b : Z) (k n : blk) (v :
    bool) (h' : mem).
Context (H : heap_ok st B L X) (Hb : B !! b = Some k) (Hk : bsz k ≠ 0) (Hn : B !! nxt b k = Some n).
Context (Hout : bfree k = false ∨ b ∈ X) (HX' : (v = true → b ∈ X') ∧ (∀ x, x ≠ b → (x ∈ X') ↔ (x ∈ X))).
Context (Hwb : h' !! size b = Some (wd (set_fr v k))) (Hwn :
    h' !! size (nxt b k) = Some (wd (set_pf v n))).
Context (Hlink : v = true → h' !! nxt b k = Some b).
Context (Hother : ∀ a, a ≠ size b → a ≠ size (nxt b k) → a ≠ nxt b k → h' !! a = heap st !! a).
Context (Hmap : ∀ a, is_Some (heap st !! a) → is_Some (h' !! a)).

Lemma flip_gt : b + 32 ≤ nxt b k.
Proof. destruct (ly_size B (ho_layout _ _ _ _ H) b k Hb) as [_ [[? _]|?]]; [done|]. unfold nxt. lia. Qed.
Lemma flip_lookup c m :
  flipped b k n v B !! c = Some m ↔
  c = b ∧ m = set_fr v k ∨ c = nxt b k ∧ m = set_pf v n ∨ c ≠ b ∧ c ≠ nxt b k ∧ B !! c = Some m.
Proof. apply flipped_lookup. pose proof flip_gt. lia. Qed.
Lemma flip_memory : memory_ok h' (flipped b k n v B).
Proof.
  pose proof flip_gt as Hgt. destruct (ho_memory _ _ _ _ H) as [M1 M2 M3].
  pose proof (ho_layout _ _ _ _ H) as Hly. split.
  - intros c m [[-> ->]|[[-> ->]|(H1 & H2 & Hc)]]%flip_lookup; [done|done|].
    rewrite Hother;
      [by apply M1|unfold size; lia|unfold size; lia|by apply (size_not_link B b k c m)].
  - assert (∀ c m, c ≠ b → B !! c = Some m → bfree m = true → h' !! nxt c m = Some c) as Hfr.
    { intros c m Hcb Hc Hf.
        rewrite Hother;
        [by apply M2|by apply (link_not_size B c m b k)|
        by apply (link_not_size B c m (nxt b k) n)|]. intros Heq. by apply Hcb, (nxt_inj B c m b k).
        }
    intros c m [[-> ->]|[[-> ->]|(H1 & H2 & Hc)]]%flip_lookup Hf;
      [by apply Hlink|by apply (Hfr (nxt b k) n); [lia|..]|by apply Hfr].
  - intros c m a [[-> ->]|[[-> ->]|(H1 & H2 & Hc)]]%flip_lookup Ha Hal; apply Hmap;
      [by apply (M3 b k)|by apply (M3 (nxt b k) n)|by apply (M3 c m)].
Qed.
Lemma flip_listed c s : listed (flipped b k n v B) X' c s ↔ listed B X c s.
Proof.
  pose proof flip_gt as Hgt. destruct HX' as [HX1 HX2]. split.
  - intros (m & [[-> ->]|[[-> ->]|(H1 & H2 & Hc)]]%flip_lookup & Hf & HX & <-).
    + cbn in Hf. subst v. by destruct (HX (HX1 eq_refl)).
    + exists n. cbn in Hf |- *. rewrite <-HX2 by lia. done.
    + exists m. rewrite <-HX2 by done. done.
  - intros (m & Hc & Hf & HX & <-).
    assert (c ≠ b) as Hcb by (intros ->; simplify_eq; destruct Hout; [congruence|done]).
    destruct (decide (c = nxt b k)) as [->|Hcn].
    + exists (set_pf v n). simplify_eq. rewrite flip_lookup, HX2 by done. cbn. auto 8.
    + exists m. rewrite flip_lookup, HX2 by done. auto 8.
Qed.
Lemma flip_ok : heap_ok (set_heap h' st) (flipped b k n v B) L X'.
Proof.
  pose proof flip_gt as Hgt. apply (heap_change st B L X);
    [done|by apply layout_flip; [apply (ho_layout _ _ _ _ H)|..]|apply flip_memory|
    apply flip_listed| |].
  - pose proof (size_range B _ n (ho_layout _ _ _ _ H) Hn). intros a.
    destruct (decide (a = size b)) as [->|H1]; [left; exists b, k; unfold size, nxt in *; split;
      [done|lia]|].
    destruct (decide (a = size (nxt b k))) as [->|H2];
      [left; exists (nxt b k), n; unfold size, nxt in *; split; [done|lia]|].
    destruct (decide (a = nxt b k)) as [->|H3]; [left; exists b, k; unfold size, nxt in *; split;
      [done|lia]|right; by apply Hother].
  - intros c m [[-> ->]|[[-> ->]|(H1 & H2 & Hc)]]%flip_lookup;
      [by apply (ho_ctl _ _ _ _ H b k)|by apply (ho_ctl _ _ _ _ H (nxt b k) n)|
      by apply (ho_ctl _ _ _ _ H)].
Qed.
End flip.

Lemma size_not_user B a d l : layout B → B !! d = Some l → a = size d → ¬ user B a.
Proof.
  intros H Hd -> [(b & s & (_ & k & Hb & Hf & <-) & Ha)|(P & HP & Ho)].
  - pose proof (nxt_gt B d l H Hd). unfold size in *.
    destruct (beside_block B d l b k H Hd Hb) as [->|[?|?]]; unfold nxt in *; lia.
  - destruct (size_range B d l H Hd) as [? _]. apply (pools_cell P B d l (size d)); try done. unfold size. lia.
Qed.
Lemma free_not_user B a d l :
  layout B → B !! d = Some l → bfree l = true → d + 8 ≤ a < d + 16 + bsz l → ¬ user B a.
Proof.
  intros H Hd Hf Ha [(b & s & (_ & k & Hb & Hbf & <-) & Hab)|(P & HP & Ho)]; [|by apply (pools_cell P B d l a)].
  destruct (beside_block B d l b k H Hd Hb) as [->|[?|?]]; [congruence|unfold nxt in *; lia..].
Qed.
Lemma link_not_user B a d l : layout B → B !! d = Some l → bfree l = true → a = nxt d l → ¬ user B a.
Proof.
  intros H Hd Hf ->. destruct (free_size B d l H Hd Hf) as [? _]. apply (free_not_user B _ d l); try done. unfold nxt. lia.
Qed.
Lemma block_mark_as_used_ok st B L X b k n :
  heap_ok st B L X → B !! b = Some k → bfree k = true → b ∈ X → B !! nxt b k = Some n →
  ∃ st', block_mark_as_used b st = (Ok tt, st') ∧
    heap_ok st' (flipped b k n false B) L (X ∖ {[ b ]}) ∧ same st st' (user B).
Proof.
  intros H Hb Hf HX Hn. pose proof (ho_layout _ _ _ _ H) as Hly.
  destruct (free_size B b k Hly Hb Hf) as (Hs & Hs8 & Hb0 & _).
  destruct (ly_range B Hly b k Hb) as (_ & Hr & _).
  pose proof (size_range B _ n Hly Hn) as [Hns Hns8]. pose proof (word_at st B L X b k H Hb) as Hwb.
  pose proof (word_at st B L X _ n H Hn) as Hwn.
  assert (size b ≠ size (nxt b k)) by (unfold size, nxt; lia).
  set (h' := <[size b := word (bsz k) false (bpf k)]>
    (<[size (nxt b k) := word (bsz n) (bfree n) false]> (heap st))).
  exists (set_heap h' st). split; [|split].
  - unfold block_mark_as_used.
    run (block_next_word st b _ _ _ Hwb ltac:(lia) Hs8 ltac:(lia) ltac:(lia) ltac:(lia)).
    change (b + bsz k + 8) with (nxt b k).
    run (set_prev_used_word st _ _ _ _ Hwn ltac:(lia) Hns8).
    rewrite (set_used_word _ b (bsz k) (bfree k) (bpf k)); [done| |lia|done]. cbn.
    by rewrite lookup_insert_ne.
  - apply (flip_ok st B L X); try done; [lia|by right|split; [done|set_solver]| | | |].
    + unfold h'. by rewrite lookup_insert_eq.
    + unfold h'. by rewrite lookup_insert_ne, lookup_insert_eq.
    + intros a H1 H2 H3. unfold h'. by rewrite !lookup_insert_ne.
    + intros a Ha. unfold h'. rewrite !lookup_insert_is_Some'. auto.
  - split; [done|]. intros a Ha. cbn. unfold h'. rewrite !lookup_insert_ne; [done| |]; intros <-;
      [by apply (size_not_user B _ (nxt b k) n Hly Hn eq_refl)|
      by apply (size_not_user B _ b k Hly Hb eq_refl)].
Qed.
Lemma block_mark_as_free_ok st B L X b k n :
  heap_ok st B L X → B !! b = Some k → bfree k = false → bsz k ≠ 0 → B !! nxt b k = Some n →
  ∃ st', block_mark_as_free b st = (Ok tt, st') ∧ heap_ok st' (flipped b k n true B) L ({[ b ]} ∪ X) ∧
    same st st' (λ a, user B a ∧ a ≠ nxt b k).
Proof.
  intros H Hb Hf Hk Hn. pose proof (ho_layout _ _ _ _ H) as Hly.
  destruct (ly_range B Hly b k Hb) as (Hb0 & Hr & Hb8).
  destruct (size_range B b k Hly Hb) as [Hs Hs8].
  assert (24 ≤ bsz k) by (destruct (ly_size B Hly b k Hb); lia).
  pose proof (size_range B _ n Hly Hn) as [Hns Hns8]. pose proof (word_at st B L X b k H Hb) as Hwb.
  pose proof (word_at st B L X _ n H Hn) as Hwn.
  assert (size b ≠ size (nxt b k) ∧ size b ≠ nxt b k ∧ size (nxt b k) ≠ nxt b k)
    as (Hd1 & Hd2 & Hd3) by (unfold size, nxt; lia).
  set (h' := <[size b := word (bsz k) true (bpf k)]>
    (<[size (nxt b k) := word (bsz n) (bfree n) true]> (<[nxt b k := b]> (heap st)))).
  exists (set_heap h' st). split; [|split].
  - apply (mark_as_free_word st b (bsz k) (bfree k) (bpf k) (bsz n) (bfree n) (bpf n)); try done;
      try lia.
    by apply (next_mapped st B L X b k).
  - apply (flip_ok st B L X); try done; [by left|split; set_solver| | | | |].
    + unfold h'. by rewrite lookup_insert_eq.
    + unfold h'. by rewrite lookup_insert_ne, lookup_insert_eq.
    + intros _. unfold h'. by rewrite lookup_insert_ne, lookup_insert_ne, lookup_insert_eq.
    + intros a H1 H2 H3. unfold h'. by rewrite !lookup_insert_ne.
    + intros a Ha. unfold h'. rewrite !lookup_insert_is_Some'. auto.
  - split; [done|]. intros a [Ha Hne]. cbn. unfold h'. rewrite !lookup_insert_ne; [done|done| |];
      intros <-; [by apply (size_not_user B _ (nxt b k) n Hly Hn eq_refl)|
      by apply (size_not_user B _ b k Hly Hb eq_refl)].
Qed.

(** ** Merging two blocks *)
Section absorbing.
Context (st : control) (B : blocks_map) (L : lists) (X : gset Z) (p : Z) (q : blk) (b : Z) (k : blk).
Context (H : heap_ok st B L X) (Hp : B !! p = Some q) (Hb : B !! b = Some k) (Hpb : nxt p q = b).
Context (Hq : bfree q = true) (Hk : bfree k = true) (HpX : p ∈ X) (HbX : b ∈ X).
Let s : Z := bsz q + bsz k + 8.
Let h' : mem := <[nxt b k := p]> (<[size p := word s true (bpf q)]> (heap st)).
Let Hly : layout B := ho_layout _ _ _ _ H.

Lemma absorbing_run : block_absorb p b st = (Ok p, set_heap h' st).
Proof.
  pose proof (absorb_order B p q b k Hly Hp Hb Hpb Hq Hk) as (Ho1 & Ho2 & Ho3 & Ho4 & Ho5).
  pose proof (word_at st B L X p q H Hp) as Hw.
  destruct (ly_range B Hly b k Hb) as (_ & Hr & _).
  destruct (ly_range B Hly p q Hp) as (Hp0 & _ & Hp8).
  destruct (size_range B p q Hly Hp) as [_ Hq8]. destruct (size_range B b k Hly Hb) as [_ Hk8].
  assert (Hs8 : s mod 8 = 0) by (unfold s; rewrite Z.add_mod, (Z.add_mod (bsz q)), Hq8, Hk8 by lia;
    done).
  unfold block_absorb. run (block_is_last_at st B L X p q H Hp).
  rewrite bind_assert by (apply negb_true_iff, Z.eqb_neq; lia). run (read_ok size p _ st Hw).
  run (block_size_at st B L X b k H Hb).
  assert (u64 (wd q + (bsz k + block_header_overhead)) = word s true (bpf q)) as ->.
  { unfold wd, word, s, block_header_overhead. rewrite Hq. pose proof (flags_range true (bpf q)).
      rewrite u64_small by (unfold nxt in *; lia). lia. }
  run (write_ok size p (word s true (bpf q)) st ltac:(eauto)).
  assert (p + s + 8 = nxt b k) as Hn by (unfold nxt, s in *; lia).
  erewrite bind_ok; [|apply (block_link_next_word _ p s true (bpf q));
    [cbn; by rewrite lookup_insert_eq|unfold nxt, s in *; lia|done|unfold s;
    lia|done|unfold nxt, s in *; lia|]].
  - by rewrite Hn.
  - rewrite Hn. cbn. rewrite lookup_insert_is_Some'. right. apply (next_mapped st B L X b k);
      [done|done|lia].
Qed.
Lemma absorbing_memory : memory_ok h' (absorbed p q b k B).
Proof.
  pose proof (absorb_order B p q b k Hly Hp Hb Hpb Hq Hk) as (Ho1 & Ho2 & Ho3 & Ho4 & Ho5).
  destruct (ho_memory _ _ _ _ H) as [M1 M2 M3].
  pose proof (size_not_link B b k p q Hly Hb ltac:(lia) Hp) as Hd. split.
  - intros c m [[-> ->]|[Hc Hm]]%(absorb_lookup B p q b k Hly Hp Hb Hpb Hq Hk); unfold h'.
    + rewrite lookup_insert_ne, lookup_insert_eq by done. unfold wd, set_sz. cbn. by rewrite Hq.
    + rewrite !lookup_insert_ne; [by apply M1| |by apply not_eq_sym, (size_not_link B b k c m);
        [..|lia|]]. unfold size. pose proof (nxt_gt B c m Hly Hm). lia.
  - intros c m [[-> ->]|[Hc Hm]]%(absorb_lookup B p q b k Hly Hp Hb Hpb Hq Hk) Hf; unfold h'.
    + rewrite Ho3. apply lookup_insert_eq.
    + pose proof (nxt_gt B c m Hly Hm). rewrite !lookup_insert_ne;
        [by apply M2|by apply not_eq_sym, (link_not_size B c m p q)|]. intros Heq.
      pose proof (nxt_inj B b k c m Hly Hb Hm Heq). lia.
  - intros c m a [[-> ->]|[Hc Hm]]%(absorb_lookup B p q b k Hly Hp Hb Hpb Hq Hk) Ha Hal; unfold h';
      rewrite !lookup_insert_is_Some'; right; right.
    + cbn in Ha. destruct (decide (a < b + 8)); [apply (M3 p q)|apply (M3 b k)]; try done;
        unfold nxt in *; lia.
    + by apply (M3 c m).
Qed.
Lemma absorbing_ok : heap_ok (set_heap h' st) (absorbed p q b k B) L (X ∖ {[ b ]}).
Proof.
  pose proof (absorb_order B p q b k Hly Hp Hb Hpb Hq Hk) as (Ho1 & Ho2 & Ho3 & Ho4 & Ho5).
  apply (heap_change st B L X); [done|by apply layout_absorb|apply absorbing_memory| | |].
  - intros c z. split.
    + intros (m & [[-> ->]|[Hc Hm]]%(absorb_lookup B p q b k Hly Hp Hb Hpb Hq Hk) & Hf & HX & <-);
        [set_solver by lia|]. exists m. split_and!; [done|done| |done].
      pose proof (nxt_gt B c m Hly Hm). assert (c ≠ b) by lia. set_solver.
    + intros (m & Hm & Hf & HX & <-). exists m. split_and!; [|done|set_solver|done].
      apply (absorb_lookup B p q b k Hly Hp Hb Hpb Hq Hk). right. split; [|done].
      pose proof (nxt_gt B c m Hly Hm).
      destruct (beside_block B p q c m Hly Hp Hm) as [->|[|]]; [done|by left|].
      destruct (beside_block B b k c m Hly Hb Hm) as [->|[|]]; [done|lia|by right].
  - intros a. unfold h'. destruct (decide (a = nxt b k)) as [->|H1];
      [left; exists b, k; unfold nxt; split; [done|]; split; [lia|auto]|].
    destruct (decide (a = size p)) as [->|H2]; [left; exists p, q; unfold size; split; [done|];
      split; [lia|auto]|].
    right. by rewrite !lookup_insert_ne.
  - intros c m [[-> ->]|[Hc Hm]]%(absorb_lookup B p q b k Hly Hp Hb Hpb Hq Hk);
      [|by apply (ho_ctl _ _ _ _ H)]. destruct (ho_ctl _ _ _ _ H p q Hp), (ho_ctl _ _ _ _ H b k Hb);
      cbn; unfold nxt in *; lia.
Qed.
Lemma block_absorb_ok :
  ∃ st', block_absorb p b st = (Ok p, st') ∧ heap_ok st' (absorbed p q b k B) L (X ∖ {[ b ]}) ∧
    same st st' (user B).
Proof.
  exists (set_heap h' st). split_and!; [apply absorbing_run|apply absorbing_ok|]. split; [done|].
  intros a Ha. cbn. unfold h'. rewrite !lookup_insert_ne; [done| |]; intros <-.
  - by apply (size_not_user B _ p q Hly Hp eq_refl).
  - by apply (link_not_user B _ b k Hly Hb Hk eq_refl).
Qed.
End absorbing.

(** ** What stays the same *)

(** The operations that only concern free blocks keep the blocks in use and the pools. *)
Definition kept (B B' : blocks_map) : Prop := (∀ b s, in_use B' b s ↔ in_use B b s) ∧
    (∀ P, pools P B → pools P B').
(** Free blocks are not neighbours, [x] aside. *)
Definition coalesced (B : blocks_map) (x : Z) : Prop :=
  ∀ c m n, B !! c = Some m → bfree m = true → B !! nxt c m = Some n → bfree n = true → c = x ∨
    nxt c m = x.

Lemma kept_refl B : kept B B.
Proof. done. Qed.
Lemma kept_trans B1 B2 B3 : kept B1 B2 → kept B2 B3 → kept B1 B3.
Proof. intros [H1 H2] [H3 H4]. split; [intros b s; by rewrite H3|auto]. Qed.
Lemma in_use_user B b s a : in_use B b s → b + 16 ≤ a < b + 16 + s → user B a.
Proof. intros Hu Ha. left. eauto. Qed.
Lemma user_kept B B' a : kept B B' → user B a → user B' a.
Proof. intros [H HP] [(b & s & Hb & Ha)|(P & Hp & Ho)]; [left; exists b, s; by rewrite H|right; eauto]. Qed.

Lemma absorb_kept B p q b k :
  layout B → B !! p = Some q → B !! b = Some k → nxt p q = b → bfree q = true → bfree k = true →
    kept B (absorbed p q b k B).
Proof.
  intros H Hp Hb Hpb Hq Hk. pose proof (absorb_lookup B p q b k H Hp Hb Hpb Hq Hk) as Hl.
  pose proof (absorb_order B p q b k H Hp Hb Hpb Hq Hk) as (Ho1 & Ho2 & Ho3 & Ho4 & Ho5). split.
  - intros c s. split; intros [Hs (m & Hm & Hf & Hsz)]; split; try done.
    + apply Hl in Hm as [[-> ->]|[_ Hm]]; [cbn in Hf; congruence|eauto].
    + exists m. split; [|done]. apply Hl. right. split; [|done]. pose proof (nxt_gt B c m H Hm).
      destruct (beside_block B p q c m H Hp Hm) as [->|[|]]; [congruence|by left|].
      destruct (beside_block B b k c m H Hb Hm) as [->|[|]]; [congruence|lia|by right].
  - intros P [HP Hin]. split; [|intros c m [[-> ->]|[_ Hc]]%Hl; [by apply (Hin p q)|by apply Hin]].
    intros s e Hse. destruct (HP s e Hse) as [(m & Hm & Hs & He) Hno].
    assert (s ≠ b) by (intros ->; apply (Hno p q Hp); [lia|done]). split.
    + destruct (decide (s = p)) as [->|];
        [|exists m; unfold absorbed; by rewrite lookup_insert_ne, lookup_delete_ne].
      assert (m = q) as -> by congruence. exists (set_sz (bsz q + bsz k + 8) q).
      split_and!; [apply lookup_insert_eq|cbn; lia|done].
    + intros c l [[-> ->]|[_ Hc]]%Hl Hc0; [|by apply Hno]. rewrite Ho3. apply Hno; [done|lia].
Qed.

(** ** Merging with the neighbours *)

Lemma block_merge_prev_ok st B L b k :
  heap_ok st B L {[ b ]} → B !! b = Some k → bfree k = true → coalesced B b →
  ∃ st' L' B' p q, block_merge_prev b st = (Ok p, st') ∧ heap_ok st' B' L' {[ p ]} ∧
    B' !! p = Some q ∧ bfree q = true ∧ bpf q = false ∧
    coalesced B' p ∧ kept B B' ∧ same st st' (user B).
Proof.
  intros H Hb Hk Hco. pose proof (ho_layout _ _ _ _ H) as Hly. unfold block_merge_prev.
  run (block_is_prev_free_at st B L _ b k H Hb). destruct (bpf k) eqn:Hpf.
  2: { exists st, L, B, b, k. split_and!; done. }
  destruct (ly_prev B Hly b k Hb Hpf) as (p & q & Hp & Hq & Hpb).
  pose proof (absorb_order B p q b k Hly Hp Hb Hpb Hq Hk) as (Ho1 & Ho2 & Ho3 & Ho4 & Ho5).
  pose proof (absorb_lookup B p q b k Hly Hp Hb Hpb Hq Hk) as Hl.
  destruct (ly_range B Hly p q Hp) as (Hp0 & _).
  destruct (block_remove_ok st B L {[ b ]} p q H Hp Hq ltac:(set_solver by lia))
    as (st1 & L1 & Hr1 & H1 & Hs1).
  destruct (block_absorb_ok st1 B L1 _ p q b k H1 Hp Hb Hpb Hq Hk ltac:(set_solver)
    ltac:(set_solver)) as (st2 & Hr2 & H2 & Hs2).
  exists st2, L1, (absorbed p q b k B), p, (set_sz (bsz q + bsz k + 8) q). split_and!.
  - unfold block_prev. rewrite bind_assoc. run (block_is_prev_free_at st B L _ b k H Hb).
    rewrite Hpf. rewrite bind_assoc, bind_assert by done.
    run (read_ok prev_phys_block b p st ltac:(unfold prev_phys_block; rewrite <-Hpb;
      by apply (mo_link _ _ (ho_memory _ _ _ _ H)))).
    rewrite bind_assert by (apply negb_true_iff, Z.eqb_neq; lia).
    run (block_is_free_at st B L _ p q H Hp). rewrite Hq, bind_assert by done. run Hr1. exact Hr2.
  - replace {[ p ]} with (({[ p ]} ∪ {[ b ]} : gset Z) ∖ {[ b ]}) by (apply leibniz_equiv;
      set_solver by lia). exact H2.
  - apply Hl. by left.
  - done.
  - destruct (bpf q) eqn:Hqp; [|done].
    destruct (ly_prev B Hly p q Hp Hqp) as (p' & q' & Hp' & Hq' & Hpp).
    pose proof (nxt_gt B p' q' Hly Hp').
    destruct (Hco p' q' q Hp' Hq' ltac:(by rewrite Hpp) Hq); lia.
  - intros c m n [[-> ->]|[Hc Hm]]%Hl Hf Hn Hnf; [by left|]. apply Hl in Hn as [[-> ->]|[Hc' Hn]];
      [by right|]. pose proof (nxt_gt B _ n Hly Hn). pose proof (nxt_gt B c m Hly Hm).
    destruct (Hco c m n Hm Hf Hn Hnf); lia.
  - by apply absorb_kept.
  - by eapply same_trans.
Qed.
Lemma block_merge_next_ok st B L b k :
  heap_ok st B L {[ b ]} → B !! b = Some k → bfree k = true → bpf k = false → coalesced B b →
  ∃ st' L' B' k', block_merge_next b st = (Ok b, st') ∧ heap_ok st' B' L' {[ b ]} ∧
    B' !! b = Some k' ∧ bfree k' = true ∧
    coalesced B' 0 ∧ kept B B' ∧ same st st' (user B).
Proof.
  intros H Hb Hk Hpf Hco. pose proof (ho_layout _ _ _ _ H) as Hly.
  destruct (free_size B b k Hly Hb Hk) as (Hs & Hs8 & Hb0 & _).
  destruct (ly_range B Hly b k Hb) as (_ & Hr & _).
  destruct (ly_next B Hly b k Hb ltac:(lia)) as (n & Hn & Hnpf & _). unfold block_merge_next.
  run (block_next_word st b _ _ _ (word_at st B L _ b k H Hb) ltac:(lia) Hs8 ltac:(lia) ltac:(lia)
    ltac:(lia)).
  change (b + bsz k + 8) with (nxt b k). destruct (ly_range B Hly _ n Hn) as (Hn0 & _).
  rewrite bind_assert by (apply negb_true_iff, Z.eqb_neq; lia).
  run (block_is_free_at st B L _ _ n H Hn).
  assert (Hprev : ∀ c m, B !! c = Some m → bfree m = true → nxt c m ≠ b).
  { intros c m Hc Hf Heq. destruct (free_size B c m Hly Hc Hf) as [? _].
      destruct (ly_next B Hly c m Hc ltac:(lia)) as (k' & Hk' & Hp' & _). rewrite Heq in Hk'.
    simplify_eq. congruence. }
  destruct (bfree n) eqn:Hnf.
  2: { exists st, L, B, k. split_and!; try done. intros c m l Hc Hf Hl Hlf.
         destruct (Hco c m l Hc Hf Hl Hlf) as [->|?];
         [simplify_eq; congruence|by destruct (Hprev c m Hc Hf)]. }
  pose proof (absorb_order B b k _ n Hly Hb Hn eq_refl Hk Hnf) as (Ho1 & Ho2 & Ho3 & Ho4 & Ho5).
  pose proof (absorb_lookup B b k _ n Hly Hb Hn eq_refl Hk Hnf) as Hl.
  destruct (block_remove_ok st B L {[ b ]} _ n H Hn Hnf ltac:(set_solver by lia))
    as (st1 & L1 & Hr1 & H1 & Hs1).
  destruct (block_absorb_ok st1 B L1 _ b k _ n H1 Hb Hn eq_refl Hk Hnf ltac:(set_solver)
    ltac:(set_solver)) as (st2 & Hr2 & H2 & Hs2).
  exists st2, L1, (absorbed b k (nxt b k) n B), (set_sz (bsz k + bsz n + 8) k). split_and!.
  - run (block_is_last_at st B L _ b k H Hb).
    rewrite bind_assert by (apply negb_true_iff, Z.eqb_neq; lia). run Hr1. exact Hr2.
  - replace {[ b ]} with (({[ nxt b k ]} ∪ {[ b ]} : gset Z) ∖ {[ nxt b k ]})
      by (apply leibniz_equiv; set_solver by lia). exact H2.
  - apply Hl. by left.
  - done.
  - intros c m l [[-> ->]|[Hc Hm]]%Hl Hf Hn' Hlf.
    + rewrite Ho3 in Hn'. apply Hl in Hn' as [[? _]|[_ Hn']]; [lia|].
      pose proof (nxt_gt B _ n Hly Hn). destruct (Hco _ n l Hn Hnf Hn' Hlf); lia.
    + apply Hl in Hn' as [[Heq _]|[_ Hn']]; [by destruct (Hprev c m Hm Hf)|].
      destruct (Hco c m l Hm Hf Hn' Hlf) as [->|?]; [|by destruct (Hprev c m Hm Hf)].
      pose proof (nxt_gt B _ m Hly Hm). lia.
  - by apply absorb_kept.
  - by eapply same_trans.
Qed.

(** ** Freeing *)

Lemma flip_pools B b k n v P : layout B → B !! b = Some k → bsz k ≠ 0 → B !! nxt b k = Some n →
    pools P B → pools P (flipped b k n v B).
Proof.
  intros H Hb Hk Hn [HP Hin]. pose proof (nxt_gt B b k H Hb) as Hgt.
  split; [|intros c m [[-> ->]|[[-> ->]|(_ & _ & Hc)]]%flipped_lookup;
    [by apply (Hin b k)|by apply (Hin _ n)|by apply Hin|lia]].
  intros s e Hse. destruct (HP s e Hse) as [(m & Hm & Hs & He) Hno]. unfold flipped. split.
  - destruct (decide (s = nxt b k)) as [->|]; [by destruct (Hno b k)|].
    rewrite lookup_insert_ne by done. destruct (decide (s = b)) as [->|];
      [|exists m; by rewrite lookup_insert_ne].
    rewrite lookup_insert_eq. simplify_eq. eexists. split; [done|]. done.
  - intros c l [[<- <-]|[_ [[<- <-]|[_ Hc]]%lookup_insert_Some]]%lookup_insert_Some Hl;
      [by apply (Hno _ n Hn)|by apply (Hno b k)|by apply Hno].
Qed.
Lemma flip_in_use B b k n v c t :
  layout B → B !! b = Some k → bsz k ≠ 0 → B !! nxt b k = Some n →
  in_use (flipped b k n v B) c t ↔ (c ≠ b ∧ in_use B c t) ∨ (c = b ∧ v = false ∧ t = bsz k).
Proof.
  intros H Hb Hk Hn. assert (b ≠ nxt b k) as Hne by (pose proof (nxt_gt B b k H Hb); lia).
  unfold flipped. split.
  - intros [Ht (m & [[<- <-]|[Hc1 [[<- <-]|[Hc2 Hc]]%lookup_insert_Some]]%lookup_insert_Some & Hf & Hs)].
    + left. split; [done|]. split; [done|]. exists n. done.
    + right. done.
    + left. split; [done|]. split; [done|]. by exists m.
  - intros [[Hcb [Ht (m & Hm & Hf & Hs)]]|(-> & -> & ->)].
    + split; [done|]. destruct (decide (c = nxt b k)) as [->|];
        [exists (set_pf v n); rewrite lookup_insert_eq; simplify_eq; done|]. exists m.
      by rewrite !lookup_insert_ne.
    + split; [done|]. exists (set_fr false k). by rewrite lookup_insert_ne, lookup_insert_eq.
Qed.

Lemma flip_free_coalesced B b k n :
  layout B → B !! b = Some k → B !! nxt b k = Some n → coalesced B 0 →
    coalesced (flipped b k n true B) b.
Proof.
  intros Hly Hb Hn Hco c m l Hc Hcf Hl Hlf. pose proof (nxt_gt B b k Hly Hb).
  assert (Hold : ∀ d i, flipped b k n true B !! d = Some i → bfree i = true →
    d = b ∨ ∃ i0, B !! d = Some i0 ∧ bfree i0 = true ∧ nxt d i0 = nxt d i).
  { intros d i [[-> ->]|[[-> ->]|(_ & _ & Hd)]]%(flipped_lookup B b k n true d i ltac:(lia)) Hi;
      [by left|right; by exists n|right; by exists i]. }
  destruct (Hold c m Hc Hcf) as [->|(m0 & Hm0 & Hm0f & Heq)]; [by left|].
  destruct (Hold _ l Hl Hlf) as [->|(l0 & Hl0 & Hl0f & _)]; [by right|]. rewrite <-Heq in Hl0.
  destruct (ly_range B Hly _ _ Hm0) as (? & _). destruct (ly_range B Hly _ _ Hl0) as (? & _).
  destruct (Hco c m0 l0 Hm0 Hm0f Hl0 Hl0f); lia.
Qed.
Lemma tlsf_free_ok st B L b s :
  heap_ok st B L ∅ → coalesced B 0 → in_use B b s →
  ∃ st' L' B', tlsf_free (b + 16) st = (Ok tt, st') ∧ heap_ok st' B' L' ∅ ∧ coalesced B' 0 ∧
    (∀ c t, in_use B' c t ↔ c ≠ b ∧ in_use B c t) ∧ (∀ P, pools P B → pools P B') ∧
    same st st' (others B b).
Proof.
  intros H Hco [Hs0 (k & Hb & Hf & Hs)]. pose proof (ho_layout _ _ _ _ H) as Hly.
  assert (bsz k ≠ 0) as Hk by lia. destruct (ly_next B Hly b k Hb Hk) as (n & Hn & Hnpf & _).
  destruct (ly_range B Hly b k Hb) as (Hb0 & Hr & _). destruct (size_range B b k Hly Hb) as [? _].
  pose proof (nxt_gt B b k Hly Hb) as Hgt.
  destruct (block_mark_as_free_ok st B L ∅ b k n H Hb Hf Hk Hn) as (st1 & Hr1 & H1 & Hs1).
  rewrite (right_id_L ∅ (∪)) in H1. set (B1 := flipped b k n true B) in *.
  assert (Hb1 : B1 !! b = Some (set_fr true k)) by (unfold B1, flipped;
    rewrite lookup_insert_ne by lia; apply lookup_insert_eq).
  pose proof (flip_free_coalesced B b k n Hly Hb Hn Hco) as Hco1. fold B1 in Hco1.
  destruct (block_merge_prev_ok st1 B1 L b _ H1 Hb1 eq_refl Hco1)
    as (st2 & L2 & B2 & p & q & Hr2 & H2 & Hp & Hq & Hqp & Hco2 & Hkp2 & Hs2).
  destruct (block_merge_next_ok st2 B2 L2 p q H2 Hp Hq Hqp Hco2)
    as (st3 & L3 & B3 & q3 & Hr3 & H3 & Hp3 & Hq3 & Hco3 & Hkp3 & Hs3).
  destruct (block_insert_ok st3 B3 L3 _ p q3 H3 Hp3 Hq3 ltac:(set_solver))
    as (st4 & L4 & Hr4 & H4 & Hs4). rewrite difference_diag_L in H4.
  pose proof (kept_trans _ _ _ Hkp2 Hkp3) as Hkp.
  assert (Hin : ∀ c t, in_use B3 c t ↔ c ≠ b ∧ in_use B c t).
  { intros c t. rewrite (proj1 Hkp). unfold B1. rewrite flip_in_use by done. naive_solver. }
  assert (Hu1 : ∀ a, others B b a → user B1 a).
  { intros a [(c & d & Hc & Hd & Ha)|(P & HP & Ho)]; [left|right; exists P; split; [by apply flip_pools|done]].
    exists c, d. split; [|done]. unfold B1. rewrite flip_in_use by done. by left. }
  exists st4, L4, B3. split_and!; [|done|done|done| |].
  - unfold tlsf_free. rewrite (proj2 (Z.eqb_neq (b + 16) 0)) by lia. cbn [negb].
    assert (block_from_ptr (b + 16) = b) as -> by (unfold block_from_ptr, block_start_offset;
      rewrite u64_small by lia; lia).
    run (block_is_free_at st B L _ b k H Hb). rewrite Hf, bind_assert by done. run Hr1. run Hr2.
    run Hr3. exact Hr4.
  - intros P HP. apply Hkp. by apply flip_pools.
  - eapply same_trans; [eapply same_mono; [exact Hs1|]|]; [|eapply same_trans; [eapply same_mono; [exact Hs2|exact Hu1]|]].
    + intros a Ha. split; [by eapply others_user|]. intros ->. apply Hu1 in Ha. revert Ha.
      by apply (link_not_user B1 _ b (set_fr true k)); [apply (ho_layout _ _ _ _ H1)|..].
    + eapply same_trans; [eapply same_mono; [exact Hs3|]|eapply same_mono; [exact Hs4|]]; intros a Ha%Hu1.
      * by apply (user_kept B1 B2).
      * by apply (user_kept B1 B3).
Qed.

(** ** Splitting a block *)
Section splitting.
Context (st : control) (B : blocks_map) (L : lists) (X : gset Z) (b : Z) (k n : blk) (sz : Z).
Context (H : heap_ok st B L X) (Hb : B !! b = Some k) (Hn : B !! nxt b k = Some n).
Context (Hsz : 24 ≤ sz) (Hal : sz mod 8 = 0) (Hk : sz + 32 ≤ bsz k).
Let r : Z := rest_of b sz.
Let rs : Z := bsz k - sz - 8.
Let Hly : layout B := ho_layout _ _ _ _ H.

Section result.
Context (h' : mem) (Hout : bfree k = false ∨ b ∈ X).
Context (Hwb : h' !! size b = Some (wd (set_sz sz k))) (Hwr :
    h' !! size r = Some (word rs true (bfree k))).
Context (Hwn : h' !! size (nxt b k) = Some (wd (set_pf true n))) (Hln : h' !! nxt b k = Some r).
Context (Hlr : bfree k = true → h' !! r = Some b).
Context (Hother : ∀ a, a ≠ size b → a ≠ size r → a ≠ size (nxt b k) → a ≠ nxt b k → a ≠ r →
    h' !! a = heap st !! a).
Context (Hmap : ∀ a, is_Some (heap st !! a) → is_Some (h' !! a)).

Lemma splitting_memory : memory_ok h' (splitted b k n sz B).
Proof.
  pose proof (split_order b k sz Hsz Hk) as Ho. fold r in Ho.
  pose proof (split_lookup B b k n sz Hly Hb Hsz Hk) as Hl. fold r in Hl.
  destruct (ho_memory _ _ _ _ H) as [M1 M2 M3].
  split.
  - intros c m [[-> ->]|[[-> ->]|[[-> ->]|[Hc Hm]]]]%Hl; [done|done|done|].
    pose proof (nxt_gt B c m Hly Hm). rewrite Hother; [by apply M1|unfold size in *; lia..].
  - assert (Hfr : ∀ c m, nxt c m ≤ b ∨ nxt b k ≤ c → B !! c = Some m → bfree m = true →
      h' !! nxt c m = Some c).
    { intros c m Hc Hm Hf. destruct (free_size B c m Hly Hm Hf) as [? _].
        assert (c + 32 ≤ nxt c m) by (unfold nxt; lia). rewrite Hother; [by apply M2|..];
        unfold size in *; lia. }
    intros c m [[-> ->]|[[-> ->]|[[-> ->]|[Hc Hm]]]]%Hl Hf.
    + destruct Ho as (_ & _ & _ & ->). by apply Hlr.
    + destruct Ho as (_ & _ & -> & _). done.
    + by apply (Hfr (nxt b k) n); [lia|..].
    + apply Hfr; [lia|done..].
  - intros c m a [[-> ->]|[[-> ->]|[[-> ->]|[Hc Hm]]]]%Hl Ha Ha8; apply Hmap.
    + apply (M3 b k); [done|cbn in Ha; lia|done].
    + apply (M3 b k); [done| |done]. unfold r, rest_of in *. cbn in Ha. lia.
    + by apply (M3 (nxt b k) n).
    + by apply (M3 c m).
Qed.
Lemma splitting_listed c s : listed (splitted b k n sz B) ({[ r ]} ∪ X) c s ↔ listed B X c s.
Proof.
  pose proof (split_order b k sz Hsz Hk) as Ho. fold r in Ho.
  pose proof (split_lookup B b k n sz Hly Hb Hsz Hk) as Hl. fold r in Hl.
  pose proof (split_fresh B b k sz Hly Hb Hsz Hk) as Hfresh. fold r in Hfresh. split.
  - intros (m & [[-> ->]|[[-> ->]|[[-> ->]|[Hc Hm]]]]%Hl & Hf & HX & <-).
    + cbn in Hf. destruct Hout; [congruence|set_solver].
    + set_solver.
    + exists n. split_and!; [done|done|set_solver|done].
    + exists m. split_and!; [done|done|set_solver|done].
  - intros (m & Hm & Hf & HX & <-). assert (c ≠ r) by congruence.
    assert (c ≠ b) by (intros ->; simplify_eq; destruct Hout; [congruence|done]).
    destruct (decide (c = nxt b k)) as [->|Hcn].
    + exists (set_pf true n). simplify_eq. split_and!; [apply Hl; auto|done|set_solver|done].
    + exists m. split_and!; [|done|set_solver|done]. apply Hl. right; right; right. split; [|done].
      destruct (beside_block B b k c m Hly Hb Hm) as [|[|]]; [done|auto|lia].
Qed.
Lemma splitting_ok : heap_ok (set_heap h' st) (splitted b k n sz B) L ({[ r ]} ∪ X).
Proof.
  pose proof (split_order b k sz Hsz Hk) as Ho. fold r in Ho.
  pose proof (split_lookup B b k n sz Hly Hb Hsz Hk) as Hl. fold r in Hl.
  pose proof (size_range B _ n Hly Hn).
  apply (heap_change st B L X);
    [done|by apply layout_split|apply splitting_memory|apply splitting_listed| |].
  - assert (Hin : ∀ a, b + 8 ≤ a < b + 16 + bsz k → hcell B X a) by (intros a Ha; exists b, k;
      split_and!; auto; lia). intros a.
    destruct (decide (a = size (nxt b k))) as [->|H3];
      [left; exists (nxt b k), n; split; [done|]; unfold size; split; [lia|auto]|].
    destruct (decide (b + 8 ≤ a < b + 16 + bsz k)); [left; auto|]. right.
    unfold nxt, r, rest_of in *. apply Hother; unfold size, rest_of in *; lia.
  - intros c m [[-> ->]|[[-> ->]|[[-> ->]|[Hc Hm]]]]%Hl;
      [|destruct (ho_ctl _ _ _ _ H b k Hb)|by apply (ho_ctl _ _ _ _ H (nxt b k) n)|
      by apply (ho_ctl _ _ _ _ H)]; [destruct (ho_ctl _ _ _ _ H b k Hb)|..]; unfold r, rest_of in *;
      cbn; lia.
Qed.
End result.

Lemma block_split_run : ∃ h1 p,
  block_split b sz st = (Ok r, set_heap h1 st) ∧ h1 !! size b = Some (wd (set_sz sz k)) ∧
    h1 !! size r = Some (word rs true p) ∧
  h1 !! size (nxt b k) = Some (wd (set_pf true n)) ∧ h1 !! nxt b k = Some r ∧
  (∀ a, a ≠ size b → a ≠ size r → a ≠ size (nxt b k) → a ≠ nxt b k → h1 !! a = heap st !! a) ∧
  (∀ a, is_Some (heap st !! a) → is_Some (h1 !! a)).
Proof.
  pose proof (split_order b k sz Hsz Hk) as (Ho1 & Ho2 & _). fold r in Ho1, Ho2.
  pose proof (split_aligned B b k sz Hly Hb Hal) as [Hr8 Hrs8]. fold r in Hr8. cbn in Hrs8.
  fold rs in Hrs8.
  destruct (ly_range B Hly b k Hb) as (Hb0 & Hbr & Hb8).
  destruct (size_range B b k Hly Hb) as [_ Hk8]. destruct (size_range B _ n Hly Hn) as [_ Hn8].
  assert (Hv : is_Some (heap st !! size r))
    by (apply (mo_mapped _ _ (ho_memory _ _ _ _ H) b k _ Hb); unfold size, r, rest_of in *;
    [lia|rewrite Z.add_mod, Hr8 by lia; done]). destruct Hv as [v Hv].
  destruct (word_of_garbage rs v Hrs8) as (f & p & Hg).
  assert (size b ≠ size r ∧ size b ≠ size (nxt b k) ∧ size b ≠ nxt b k ∧ size r ≠ size (nxt b k) ∧
    size r ≠ nxt b k ∧ size (nxt b k) ≠ nxt b k) as (Hd1 & Hd2 & Hd3 & Hd4 & Hd5 & Hd6)
    by (unfold size; lia).
  set (h0 := <[size b := wd (set_sz sz k)]> (<[size r := word rs f p]> (heap st))).
  exists (<[size r :=
    word rs true p]> (<[size (nxt b k) := wd (set_pf true n)]> (<[nxt b k := r]> h0))), p.
  split_and!.
  - unfold block_split.
    assert (offset_to_block (block_to_ptr b) (u64 (sz - block_header_overhead)) = r) as ->.
    { unfold offset_to_block, block_to_ptr, block_header_overhead, block_start_offset.
        rewrite (u64_small (sz - 8)), (u64_small (b + 16)), u64_small by lia. unfold r, rest_of.
      lia. }
    unfold block_header_overhead.
    run (block_size_at st B L X b k H Hb).
    rewrite (u64_small (sz + 8)), (u64_small (bsz k - (sz + 8))) by lia.
    replace (bsz k - (sz + 8)) with rs by (unfold rs; lia).
    destruct (align_ptr_aligned r ltac:(unfold nxt in *; lia) Hr8) as [Hp1 Hp2].
    rewrite bind_ok with (a := r + 16) (s' := st) by (unfold lift; by rewrite Hp2).
    rewrite bind_assert by (rewrite Hp1; apply Z.eqb_refl).
    rewrite bind_assert by (apply Z.eqb_eq; rewrite u64_small by (unfold rs; lia); unfold rs; lia).
    run (block_set_size_run st r v rs Hv). rewrite Hg.
    erewrite bind_ok;
      [|apply (block_size_word _ r rs f p); [apply set_word_size|unfold rs; lia|done]].
    rewrite bind_assert by (apply Z.leb_le; unfold rs; change block_size_min with 24; lia).
    erewrite bind_ok; [|apply (set_size_word _ b (bsz k) (bfree k) (bpf k));
      [cbn; rewrite lookup_insert_ne by done; apply (word_at st B L X b k H Hb)|done|done]].
    assert (Hrn : r + rs + 8 = nxt b k) by (unfold r, rest_of, rs, nxt; lia).
    erewrite bind_ok; [|apply (mark_as_free_word _ r rs f p (bsz n) (bfree n) (bpf n));
      rewrite ?Hrn; [|unfold rs; lia|done|lia|unfold nxt, rs in *; lia| | |done]]; [|cbn..].
    + unfold set_word, set_heap. cbn. by rewrite Hrn.
    + by rewrite lookup_insert_ne, lookup_insert_eq.
    + rewrite !lookup_insert_is_Some'. right; right. apply (next_mapped st B L X b k H Hb). lia.
    + rewrite !lookup_insert_ne by done. apply (word_at st B L X _ n H Hn).
  - unfold h0. rewrite !lookup_insert_ne by done. apply lookup_insert_eq.
  - by rewrite lookup_insert_eq.
  - by rewrite lookup_insert_ne, lookup_insert_eq.
  - by rewrite lookup_insert_ne, lookup_insert_ne, lookup_insert_eq.
  - intros a H1 H2 H3 H4. unfold h0. by rewrite !lookup_insert_ne.
  - intros a Ha. unfold h0. rewrite !lookup_insert_is_Some'. auto 8.
Qed.

Lemma split_pools P : pools P B → pools P (splitted b k n sz B).
Proof.
  pose proof (split_order b k sz Hsz Hk) as Ho. fold r in Ho.
  pose proof (split_lookup B b k n sz Hly Hb Hsz Hk) as Hl. fold r in Hl.
  pose proof (split_fresh B b k sz Hly Hb Hsz Hk) as Hfresh. fold r in Hfresh.
  intros [HP Hin].
  split; [|intros c m [[-> ->]|[[-> ->]|[[-> ->]|[_ Hm]]]]%Hl;
    [by apply (Hin b k)| |by apply (Hin _ n)|by apply Hin]; destruct (Hin b k Hb) as (x & ? & ?);
    exists x; split; [done|lia]].
  intros s e Hse. destruct (HP s e Hse) as [(m & Hm & Hms & He) Hno]. split.
  - assert (s ≠ r) by congruence.
    assert (s ≠ nxt b k) by (intros ->; apply (Hno b k Hb); [lia|done]).
    destruct (decide (s = b)) as [->|].
    + exists (set_sz sz k). simplify_eq. split; [apply Hl; by left|cbn]. split; [lia|done].
    + exists m. split; [|done]. apply Hl. right; right; right. split; [|done].
      destruct (beside_block B b k s m Hly Hb Hm) as [|[|]]; [done|auto|lia].
  - intros c l [[-> ->]|[[-> ->]|[[-> ->]|[_ Hm']]]]%Hl Hl0.
    + destruct Ho as (_ & _ & _ & ->). congruence.
    + destruct Ho as (_ & _ & -> & _). apply (Hno b k Hb). lia.
    + by apply (Hno _ n Hn).
    + by apply Hno.
Qed.
Lemma split_in_use c s : in_use (splitted b k n sz B) c s ↔ (c ≠ b ∧ in_use B c s) ∨
    (c = b ∧ bfree k = false ∧ s = sz).
Proof.
  pose proof (split_order b k sz Hsz Hk) as Ho. fold r in Ho.
  pose proof (split_lookup B b k n sz Hly Hb Hsz Hk) as Hl. fold r in Hl.
  pose proof (split_fresh B b k sz Hly Hb Hsz Hk) as Hfresh. fold r in Hfresh. split.
  - intros [Hs (m & Hm & Hmf & Hms)]. apply Hl in Hm as [[-> ->]|[[-> ->]|[[-> ->]|[Hc Hm]]]];
      [by right|done|left; split; [lia|]; split; [done|exists n; done]|]. left.
    pose proof (nxt_gt B c m Hly Hm). split; [lia|]. split; [done|by exists m].
  - intros [[Hcb [Hs (m & Hm & Hmf & Hms)]]|(-> & Hf & ->)].
    + split; [done|]. assert (c ≠ r) by congruence. destruct (decide (c = nxt b k)) as [->|];
        [exists (set_pf true n); simplify_eq; split; [apply Hl; auto|done]|].
      exists m. split; [|done]. apply Hl. right; right; right. split; [|done].
      destruct (beside_block B b k c m Hly Hb Hm) as [|[|]]; [done|auto|lia].
    + split; [lia|]. exists (set_sz sz k). split; [apply Hl; by left|done].
Qed.
Lemma split_kept : bfree k = true → kept B (splitted b k n sz B).
Proof.
  intros Hf. split; [|apply split_pools]. intros c s. rewrite split_in_use.
  split; [naive_solver congruence|]. intros Hc. left. split; [|done]. intros ->.
  destruct Hc as (_ & m & ? & ? & _). congruence.
Qed.
Lemma split_used_coalesced : bfree k = false → coalesced B 0 → coalesced (splitted b k n sz B) r.
Proof.
  intros Hf Hco c m l Hc Hcf Hl' Hlf. pose proof (split_order b k sz Hsz Hk) as Ho. fold r in Ho.
  pose proof (split_lookup B b k n sz Hly Hb Hsz Hk) as Hl. fold r in Hl.
  assert (∃ m0, (c = r ∨ B !! c = Some m0 ∧ bfree m0 = true ∧ nxt c m0 = nxt c m))
    as (m0 & [Hcr|(Hm0 & Hm0f & Heq)]); [|by left|].
  { apply Hl in Hc as [[-> ->]|[[-> ->]|[[-> ->]|[_ Hm]]]];
      [cbn in Hcf; congruence|exists k; by left|exists n; right; done|exists m; right; done]. }
  assert (nxt c m = r ∨ ∃ l0, B !! nxt c m = Some l0 ∧ bfree l0 = true) as [Hr|(l0 & Hl0 & Hl0f)];
    [|by right|].
  { apply Hl in Hl' as [[_ ->]|[[-> ->]|[[-> ->]|[_ Hm]]]];
      [cbn in Hlf; congruence|by left|right; exists n; done|right; exists l; done]. }
  rewrite <-Heq in Hl0. destruct (ly_range B Hly c m0 Hm0) as (? & _).
  destruct (ly_range B Hly _ l0 Hl0) as (? & _). destruct (Hco c m0 l0 Hm0 Hm0f Hl0 Hl0f); lia.
Qed.
Lemma split_coalesced x : x = b ∨ x = r → bfree n = false → coalesced B b →
    (x = r → bpf k = false) → coalesced (splitted b k n sz B) x.
Proof.
  intros Hx Hnf Hco Hxr c m l. pose proof (split_order b k sz Hsz Hk) as Ho. fold r in Ho.
  pose proof (split_lookup B b k n sz Hly Hb Hsz Hk) as Hl. fold r in Hl.
  pose proof (nxt_gt B _ n Hly Hn) as Hng.
  intros Hc Hf Hn' Hlf. apply Hl in Hc as [[-> ->]|[[-> ->]|[[-> ->]|[Hc Hm]]]].
  - destruct Hx as [->| ->]; [by left|right; by destruct Ho as (_ & _ & _ & ->)].
  - destruct Ho as (Ho1 & Ho2 & Ho3 & Ho4). rewrite Ho3 in *.
    apply Hl in Hn' as [[? _]|[[? _]|[[_ ->]|[_ Hm']]]];
      [lia|lia|cbn in Hlf; congruence|congruence].
  - cbn in Hf. congruence.
  - pose proof (nxt_gt B c m Hly Hm) as Hcg. assert (B !! nxt c m = Some l ∨ nxt c m = b) as [Hl'|Heq].
    { apply Hl in Hn' as [[? _]|[[? _]|[[_ ->]|[_ Hn']]]];
        [by right| |cbn in Hlf; congruence|by left]. destruct Hc; lia. }
    + destruct (Hco c m l Hm Hf Hl' Hlf) as [->|Heq]; [lia|]. destruct Hx as [->| ->]; [by right|].
      specialize (Hxr eq_refl). destruct (free_size B c m Hly Hm Hf) as [? _].
      destruct (ly_next B Hly c m Hm ltac:(lia)) as (k' & Hk' & Hp' & _). rewrite Heq in Hk'.
      simplify_eq. congruence.
    + destruct Hx as [->| ->]; [by right|]. specialize (Hxr eq_refl).
      destruct (free_size B c m Hly Hm Hf) as [? _].
      destruct (ly_next B Hly c m Hm ltac:(lia)) as (k' & Hk' & Hp' & _). rewrite Heq in Hk'.
      simplify_eq. congruence.
Qed.
End splitting.

Lemma coalesced_any B x : layout B → coalesced B 0 → coalesced B x.
Proof.
  intros H Hco c m n Hc Hf Hn Hnf. destruct (ly_range B H c m Hc) as (? & _).
  destruct (ly_range B H _ n Hn) as (? & _). destruct (Hco c m n Hc Hf Hn Hnf); lia.
Qed.

(** ** Allocating *)

(** What splitting off the rest [r] of a free block leaves: both are free and in no list. *)
Lemma split_free_ok st B L X b k n sz :
  heap_ok st B L X → B !! b = Some k → B !! nxt b k = Some n → 24 ≤ sz → sz mod 8 = 0 →
    sz + 32 ≤ bsz k → bfree k = true → b ∈ X →
  ∃ h1, block_split b sz st = (Ok (rest_of b sz), set_heap h1 st) ∧
    (∃ p, h1 !! size (rest_of b sz) = Some (word (bsz k - sz - 8) true p)) ∧
      h1 !! size b = Some (word sz true (bpf k)) ∧ is_Some (h1 !! rest_of b sz) ∧
    (∀ h2, h2 = <[size (rest_of b sz) := word (bsz k - sz - 8) true true]> (<[rest_of b sz := b]> h1) →
      heap_ok (set_heap h2 st) (splitted b k n sz B) L ({[ rest_of b sz ]} ∪ X) ∧
        same st (set_heap h2 st) (user B)).
Proof.
  intros H Hb Hn Hsz Hal Hk Hf HX. pose proof (ho_layout _ _ _ _ H) as Hly.
  pose proof (split_order b k sz Hsz Hk) as (Ho1 & Ho2 & _).
  destruct (split_aligned B b k sz Hly Hb Hal) as [Hr8 _].
  destruct (block_split_run st B L X b k n sz H Hb Hn Hsz Hal Hk)
    as (h1 & p & Hrun & Hwb & Hwr & Hwn & Hln & Hother & Hmap). exists h1.
  assert (Hmr : is_Some (heap st !! rest_of b sz))
    by (apply (mo_mapped _ _ (ho_memory _ _ _ _ H) b k); [done|unfold rest_of in *; lia|done]).
  assert (size b ≠ size (rest_of b sz) ∧ size b ≠ rest_of b sz ∧
    size (rest_of b sz) ≠ size (nxt b k) ∧ size (rest_of b sz) ≠ nxt b k ∧
    rest_of b sz ≠ size (nxt b k) ∧ rest_of b sz ≠ nxt b k ∧ size (rest_of b sz) ≠ rest_of b sz)
    as (D1 & D2 & D3 & D4 & D5 & D6 & D7) by (unfold size; lia).
  split_and!; [done|by exists p|rewrite Hwb; unfold wd, set_sz; cbn; by rewrite Hf|by apply Hmap|].
  intros h2 ->. split.
  - apply splitting_ok; try done; [by right|..].
    + by rewrite !lookup_insert_ne.
    + rewrite lookup_insert_eq. by rewrite Hf.
    + by rewrite !lookup_insert_ne.
    + by rewrite !lookup_insert_ne.
    + intros _. by rewrite lookup_insert_ne, lookup_insert_eq.
    + intros a H1 H2 H3 H4 H5. rewrite !lookup_insert_ne by done. by apply Hother.
    + intros a Ha. rewrite !lookup_insert_is_Some'. auto.
  - split; [done|]. intros a Ha Hz. cbn.
    assert (¬ (b + 8 ≤ a < b + 16 + bsz k)) by (intros Hin;
      by apply (free_not_user B a b k Hly Hb Hf)).
    rewrite !lookup_insert_ne by (unfold size, rest_of in *; lia).
    apply Hother; try (unfold size, rest_of, nxt in *; lia). intros ->.
    by apply (size_not_user B _ (nxt b k) n Hly Hn eq_refl).
Qed.

Lemma block_trim_free_ok st B L b k n sz :
  heap_ok st B L {[ b ]} → B !! b = Some k → bfree k = true → B !! nxt b k = Some n →
    bfree n = false → coalesced B b → 24 ≤ sz → sz mod 8 = 0 → sz ≤ bsz k →
  ∃ st' L' B' k' n', block_trim_free b sz st = (Ok tt, st') ∧ heap_ok st' B' L' {[ b ]} ∧
    B' !! b = Some k' ∧ bfree k' = true ∧ B' !! nxt b k' = Some n' ∧ sz ≤ bsz k' < sz + 32 ∧
    coalesced B' b ∧ kept B B' ∧ same st st' (user B).
Proof.
  intros H Hb Hf Hn Hnf Hco Hsz Hal Hle. pose proof (ho_layout _ _ _ _ H) as Hly.
  destruct (free_size B b k Hly Hb Hf) as (Hks & _ & Hb0 & _).
  destruct (ly_range B Hly b k Hb) as (_ & Hbr & _). unfold block_trim_free.
  run (block_is_free_at st B L _ b k H Hb). rewrite Hf, bind_assert by done.
  run (block_can_split_at st B L _ b k H Hb sz ltac:(lia)).
  destruct (Z.leb_spec (sz + 32) (bsz k)) as [Hk|Hk].
  2: { exists st, L, B, k, n. split_and!; done. }
  set (r := rest_of b sz). pose proof (split_order b k sz Hsz Hk) as (Ho1 & Ho2 & Ho3 & Ho4).
  fold r in Ho1, Ho2, Ho3, Ho4. destruct (split_aligned B b k sz Hly Hb Hal) as [Hr8 Hrs8].
  cbn in Hrs8.
  destruct (split_free_ok st B L _ b k n sz H Hb Hn Hsz Hal Hk Hf ltac:(set_solver))
    as (h1 & Hrun & (p & Hwr) & Hwb & Hmr & Hfin). fold r in Hrun, Hwr, Hmr, Hfin. run Hrun.
  erewrite bind_ok; [|apply (block_link_next_word _ b sz true (bpf k));
    [done|lia|done|lia|lia|lia|done]]. change (b + sz + 8) with r.
  erewrite bind_ok; [|apply (set_prev_free_word _ r (bsz k - sz - 8) true p);
    [cbn; by rewrite lookup_insert_ne by (unfold size; lia)|done]].
  destruct (Hfin _ eq_refl) as [H2 Hs2]. pose proof (split_lookup B b k n sz Hly Hb Hsz Hk) as Hl.
  fold r in Hl.
  destruct (block_insert_ok _ _ L _ r (Blk (bsz k - sz - 8) true (bfree k) (bend k)) H2
    ltac:(apply Hl; auto) eq_refl ltac:(set_solver)) as (st3 & L3 & Hr3 & H3 & Hs3).
  exists st3, L3, (splitted b k n sz B), (set_sz sz k),
    (Blk (bsz k - sz - 8) true (bfree k) (bend k)).
  pose proof (split_kept st B L _ b k n sz H Hb Hn Hsz Hk Hf) as Hkept. split_and!.
  - exact Hr3.
  - replace {[ b ]} with (({[ r ]} ∪ {[ b ]} : gset Z) ∖ {[ r ]}) by (apply leibniz_equiv;
      set_solver by lia). exact H3.
  - apply Hl. by left.
  - done.
  - rewrite Ho4. apply Hl. auto.
  - cbn. lia.
  - cbn. lia.
  - apply (split_coalesced st B L _ b k n sz H Hb Hn Hsz Hk b); [by left|done|done|]. intros Heq.
    fold r in Heq. lia.
  - done.
  - eapply same_trans; [exact Hs2|]. eapply same_mono; [exact Hs3|]. intros a. by apply user_kept.
Qed.

Lemma flip_used_coalesced B b k n : layout B → B !! b = Some k → bsz k ≠ 0 → B !! nxt b k = Some n →
    coalesced B b → coalesced (flipped b k n false B) 0.
Proof.
  intros H Hb Hk Hn Hco c m l Hc Hf Hl Hlf.
  assert (b ≠ nxt b k) as Hne by (pose proof (nxt_gt B b k H Hb); lia).
  assert (Hold : ∀ d i, flipped b k n false B !! d = Some i → bfree i = true → d ≠ b ∧
    ∃ i0, B !! d = Some i0 ∧ bfree i0 = true ∧ nxt d i0 = nxt d i).
  { intros d i [[-> ->]|[[-> ->]|(H1 & H2 & Hd)]]%(flipped_lookup B b k n false d i Hne) Hi;
      [done| |]; (split; [done|]); [exists n|exists i]; done. }
  destruct (Hold c m Hc Hf) as [Hcb (m0 & Hm0 & Hm0f & Heq)].
  destruct (Hold _ l Hl Hlf) as [Hlb (l0 & Hl0 & Hl0f & _)]. rewrite <-Heq in Hl0, Hlb.
  by destruct (Hco c m0 l0 Hm0 Hm0f Hl0 Hl0f).
Qed.
(** The outcome of an allocation of at least [sz] bytes that gives block [b]. *)
Definition handed_out (B : blocks_map) (b sz : Z) (B' : blocks_map) : Prop :=
  ∃ s, sz ≤ s < sz + 32 ∧ (∀ t, ¬ in_use B b t) ∧ ∀ c t, in_use B' c t ↔ in_use B c t ∨ (c = b ∧ t = s).

Lemma block_prepare_used_ok st B L b k n sz :
  heap_ok st B L {[ b ]} → B !! b = Some k → bfree k = true → B !! nxt b k = Some n →
    bfree n = false → coalesced B b → 24 ≤ sz → sz mod 8 = 0 → sz ≤ bsz k →
  ∃ st' L' B', block_prepare_used b sz st = (Ok (b + 16), st') ∧ heap_ok st' B' L' ∅ ∧
    coalesced B' 0 ∧ handed_out B b sz B' ∧
    (∀ P, pools P B → pools P B') ∧ same st st' (user B).
Proof.
  intros H Hb Hf Hn Hnf Hco Hsz Hal Hle.
  destruct (ly_range B (ho_layout _ _ _ _ H) b k Hb) as (Hb0 & Hbr & _).
  destruct (block_trim_free_ok st B L b k n sz H Hb Hf Hn Hnf Hco Hsz Hal Hle)
    as (st1 & L1 & B1 & k1 & n1 & Hr1 & H1 & Hb1 & Hf1 & Hn1 & Hs1 & Hco1 & Hkp & Hsm1).
  pose proof (ho_layout _ _ _ _ H1) as Hly1.
  destruct (block_mark_as_used_ok st1 B1 L1 {[ b ]} b k1 n1 H1 Hb1 Hf1 ltac:(set_solver) Hn1)
    as (st2 & Hr2 & H2 & Hsm2). rewrite difference_diag_L in H2.
  exists st2, L1, (flipped b k1 n1 false B1). split_and!.
  - unfold block_prepare_used. rewrite (proj2 (Z.eqb_neq b 0)) by lia. cbn [negb].
    rewrite bind_assert by (apply negb_true_iff, Z.eqb_neq; lia). run Hr1. run Hr2.
    unfold ret, block_to_ptr, block_start_offset. by rewrite u64_small by lia.
  - done.
  - apply flip_used_coalesced; try done. lia.
  - exists (bsz k1). split; [done|]. split; [intros t (_ & m & Hm & ? & _); congruence|].
    intros c t. rewrite flip_in_use by (done || lia). destruct Hkp as [Hin _]. rewrite Hin.
    split; [tauto|]. intros [Hc|[-> ->]]; [|by right; auto]. left. split; [|done]. intros ->.
    apply Hin in Hc as (_ & m & Hm & ? & _). congruence.
  - intros P HP. apply flip_pools; try done; [lia|]. by apply Hkp.
  - eapply same_trans; [exact Hsm1|]. eapply same_mono; [exact Hsm2|]. intros a. by apply user_kept.
Qed.

Lemma heap_sizes st B L X : heap_ok st B L X → sizes_ok st L.
Proof.
  intros H c b Hc (k & Hb & Hf & _ & Hm)%(ho_listed _ _ _ _ H); [|done].
  destruct (free_size B b k (ho_layout _ _ _ _ H) Hb Hf) as (Hs & Hs8 & _). exists (wd k).
  split_and!.
  - by apply (mo_word _ _ (ho_memory _ _ _ _ H)).
  - unfold wd, word. pose proof (flags_range (bfree k) (bpf k)). lia.
  - unfold wd, word. pose proof (flags_range (bfree k) (bpf k)). lia.
  - unfold wd. by rewrite word_size by lia.
Qed.
(** [block_locate_free] takes a free block that is large enough out of its list. *)
Lemma block_locate_free_ok st B L adjust :
  heap_ok st B L ∅ → coalesced B 0 → 0 < adjust < 2 ^ 32 → adjust mod 8 = 0 →
  (∃ st' L' b k n, block_locate_free adjust st = (Ok b, st') ∧ heap_ok st' B L' {[ b ]} ∧
    B !! b = Some k ∧ bfree k = true ∧ bpf k = false ∧ adjust ≤ bsz k ∧
     B !! nxt b k = Some n ∧ bfree n = false ∧ same st st' (user B)) ∨
  (block_locate_free adjust st = (Ok 0, st) ∧ ∀ b k, B !! b = Some k → bfree k = true →
    ¬ class_le (mapping_search adjust) (mapping_insert (bsz k))).
Proof.
  intros H Hco Ha Ha8. pose proof (ho_layout _ _ _ _ H) as Hly.
  destruct (block_locate_free_run st L adjust (ho_lists _ _ _ _ H) (heap_sizes _ _ _ _ H) Ha Ha8)
    as [(c & b & l & s & Hc & HL & Hb0 & Hs & Hle & Hr)|[Hno Hr]]; [left|right].
  - assert (b ∈ L c) as Hin by (rewrite HL; by left).
    apply (ho_listed _ _ _ _ H) in Hin as (k & Hb & Hf & _ & _); [|done].
    destruct (removed_heap_ok st B L ∅ c b [] l H Hc HL) as [H1 Hsm].
    rewrite (right_id_L ∅ (∪)) in H1.
    destruct (free_size B b k Hly Hb Hf) as (Hks & Hks8 & _).
    destruct (ly_next B Hly b k Hb ltac:(lia)) as (n & Hn & Hnpf & _).
    destruct (ly_range B Hly _ n Hn) as (Hn0 & _). destruct (ly_range B Hly _ k Hb) as (Hbb0 & _).
    exists (removed st c [] l), (upd c ([] ++ l) L), b, k, n. split_and!; try done.
    + destruct (bpf k) eqn:Hpf; [|done].
      destruct (ly_prev B Hly b k Hb Hpf) as (p & q & Hp & Hq & Hpq).
      destruct (ly_range B Hly _ q Hp) as (? & _).
      destruct (Hco p q k Hp Hq ltac:(by rewrite Hpq) Hf); lia.
    + rewrite (mo_word _ _ (ho_memory _ _ _ _ H) b k Hb) in Hs. injection Hs as <-.
      unfold wd in Hle. by rewrite word_size in Hle by lia.
    + destruct (bfree n) eqn:Hnf; [|done]. destruct (Hco b k n Hb Hf Hn Hnf); lia.
  - split; [done|]. intros b k Hb Hf Hle. apply Hno. exists (mapping_insert (bsz k)).
    pose proof (free_class B b k Hly Hb Hf) as Hc. split_and!; [done|done|]. intros Hnil.
    assert (b ∈ L (mapping_insert (bsz k))) as Hin by (apply (ho_listed _ _ _ _ H); [done|];
      exists k; split_and!; done). rewrite Hnil in Hin. by apply not_elem_of_nil in Hin.
Qed.

Lemma adjust_request_ok sz :
  0 ≤ sz < 2 ^ 64 - 8 → ∃ adjust, adjust_request_size sz ALIGN_SIZE = Ok adjust ∧
    (adjust = 0 ∨ sz ≤ adjust ∧ 0 < adjust ∧ adjust mod 8 = 0 ∧ 24 ≤ adjust < 2 ^ 32) ∧
      (0 < sz ≤ 2 ^ 32 - 8 → adjust ≠ 0).
Proof.
  intros Hsz. destruct (tlsf_adjust_request_spec sz Hsz) as (adjust & Ha & Hcase). exists adjust.
  split; [done|]. change block_size_min with 24 in Hcase.
  change block_size_max with (2 ^ 32) in Hcase.
  case_decide; [split; [right; split_and!; lia|lia]|]. split; [by left|done].
Qed.
(** When an allocation may fail: the request is too large, or no free block is in a class that is searched. *)
Definition no_block_for (B : blocks_map) (adjust : Z) : Prop :=
  adjust = 0 ∨ ∀ b k, B !! b = Some k → bfree k = true →
    ¬ class_le (mapping_search adjust) (mapping_insert (bsz k)).

Lemma tlsf_malloc_ok st B L sz adjust :
  heap_ok st B L ∅ → coalesced B 0 → 0 ≤ sz < 2 ^ 64 - 8 →
    adjust_request_size sz ALIGN_SIZE = Ok adjust →
  (tlsf_malloc sz st = (Ok 0, st) ∧ no_block_for B adjust) ∨
  (∃ st' L' B' b, tlsf_malloc sz st = (Ok (b + 16), st') ∧ sz ≤ adjust ∧ heap_ok st' B' L' ∅ ∧
    coalesced B' 0 ∧ handed_out B b adjust B' ∧
    (∀ P, pools P B → pools P B') ∧ same st st' (user B)).
Proof.
  intros H Hco Hsz Hadj. destruct (adjust_request_ok sz Hsz) as (? & Ha & Hcase & _).
  rewrite Hadj in Ha. injection Ha as <-. unfold tlsf_malloc.
  rewrite bind_ok with (a := adjust) (s' := st) by (unfold lift; by rewrite Hadj).
  destruct Hcase as [->|(Hle & Ha0 & Ha8 & Har)]; [left; split; [reflexivity|by left]|].
  destruct (block_locate_free_ok st B L adjust H Hco ltac:(lia) Ha8)
    as [(st1 & L1 & b & k & n & Hr & H1 & Hb & Hf & _ & Hks & Hn & Hnf & Hsm1)|[Hr Hno]];
    [right|left; split; [by run Hr|by right]].
  destruct (block_prepare_used_ok st1 B L1 b k n adjust H1 Hb Hf Hn Hnf ltac:(apply coalesced_any;
    [apply (ho_layout _ _ _ _ H)|done]) ltac:(lia) Ha8 Hks)
    as (st2 & L2 & B2 & Hr2 & H2 & Hco2 & Hho & Hp & Hsm2).
  exists st2, L2, B2, b. split_and!; try done; [by run Hr|by eapply same_trans].
Qed.

(** ** Aligned allocation *)

Lemma block_trim_free_leading_ok st B L b k n gap :
  heap_ok st B L {[ b ]} → B !! b = Some k → bfree k = true → bpf k = false →
    B !! nxt b k = Some n → bfree n = false → coalesced B b →
  32 ≤ gap → gap mod 8 = 0 → gap + 32 ≤ bsz k →
  ∃ st' L' B' k' n', block_trim_free_leading b gap st = (Ok (b + gap), st') ∧
    heap_ok st' B' L' {[ b + gap ]} ∧ B' !! (b + gap) = Some k' ∧ bfree k' = true ∧
    bsz k' = bsz k - gap ∧
    B' !! nxt (b + gap) k' = Some n' ∧ bfree n' = false ∧ coalesced B' (b + gap) ∧ kept B B' ∧
      same st st' (user B).
Proof.
  intros H Hb Hf Hpf Hn Hnf Hco Hg Hg8 Hle. pose proof (ho_layout _ _ _ _ H) as Hly.
  destruct (free_size B b k Hly Hb Hf) as (Hks & _ & Hb0 & _).
  destruct (ly_range B Hly b k Hb) as (_ & Hbr & _). unfold block_trim_free_leading.
  run (block_can_split_at st B L _ b k H Hb gap ltac:(lia)).
  rewrite (proj2 (Z.leb_le (gap + 32) (bsz k))) by lia. unfold block_header_overhead.
  rewrite u64_small by lia.
  assert (24 ≤ gap - 8) as Hsz by lia.
  assert ((gap - 8) mod 8 = 0) as Hal by (rewrite Zminus_mod, Hg8; done).
  assert (gap - 8 + 32 ≤ bsz k) as Hk by lia.
  assert (rest_of b (gap - 8) = b + gap) as Hr by (unfold rest_of; lia).
  pose proof (split_order b k _ Hsz Hk) as (Ho1 & Ho2 & Ho3 & Ho4).
  rewrite Hr in Ho1, Ho2, Ho3, Ho4. destruct (split_aligned B b k _ Hly Hb Hal) as [Hr8 Hrs8].
  cbn in Hrs8.
  destruct (split_free_ok st B L _ b k n _ H Hb Hn Hsz Hal Hk Hf ltac:(set_solver))
    as (h1 & Hrun & (p & Hwr) & Hwb & Hmr & Hfin). rewrite Hr in Hrun, Hwr, Hmr, Hfin. run Hrun.
  erewrite bind_ok; [|apply (set_prev_free_word (set_heap h1 st) (b + gap) _ true p Hwr Hrs8)].
  erewrite bind_ok; [|apply (block_link_next_word _ b (gap - 8) true (bpf k));
    [cbn; by rewrite lookup_insert_ne by (unfold size; lia)|lia|done|lia|lia|lia|]].
  2: { replace (b + (gap - 8) + 8) with (b + gap) by lia. cbn. rewrite lookup_insert_is_Some'. auto. }
  replace (b + (gap - 8) + 8) with (b + gap) by lia. destruct (Hfin _ eq_refl) as [H2 Hs2].
  pose proof (split_lookup B b k n _ Hly Hb Hsz Hk) as Hl. rewrite Hr in Hl.
  rewrite insert_insert_ne in H2, Hs2 by (unfold size; lia).
  destruct (block_insert_ok _ _ L _ b (set_sz (gap - 8) k) H2 ltac:(apply Hl;
    by left) Hf ltac:(set_solver)) as (st3 & L3 & Hr3 & H3 & Hs3).
  exists st3, L3, (splitted b k n (gap - 8) B),
    (Blk (bsz k - (gap - 8) - 8) true (bfree k) (bend k)), (set_pf true n).
  pose proof (split_kept st B L _ b k n _ H Hb Hn Hsz Hk Hf) as Hkept. split_and!.
  - by run Hr3.
  - replace {[ b + gap ]} with (({[ b + gap ]} ∪ {[ b ]} : gset Z) ∖ {[ b ]})
      by (apply leibniz_equiv; set_solver by lia). exact H3.
  - apply Hl. auto.
  - done.
  - cbn. lia.
  - rewrite Ho3. apply Hl. auto.
  - done.
  - rewrite <-Hr. apply (split_coalesced st B L _ b k n _ H Hb Hn Hsz Hk); auto.
  - done.
  - eapply same_trans; [exact Hs2|]. eapply same_mono; [exact Hs3|]. intros a. by apply user_kept.
Qed.

(** The size searched for, and the gap that is left in front of the aligned piece. *)
Lemma adjust_with_gap x j :
  0 ≤ j < 62 → 0 < x < 2 ^ 62 → ∃ s, adjust_request_size x (2 ^ j) = Ok s ∧
    (s = 0 ∨ x ≤ s < 2 ^ 32 ∧ (3 ≤ j → s mod 8 = 0)).
Proof.
  intros Hj Hx. unfold adjust_request_size. rewrite (proj2 (Z.eqb_neq x 0)) by lia.
  assert (0 < 2 ^ j < 2 ^ 62) by (split; [|apply Z.pow_lt_mono_r]; lia).
  destruct (tlsf_align_up_spec x j) as (a & -> & Ha & Hr); [lia..|].
  change block_size_max with (2 ^ 32). change block_size_min with 24.
  destruct (Z.ltb_spec a (2 ^ 32)); [|exists 0; auto].
  eexists. split; [done|]. right. split; [lia|]. intros Hj3. assert (a mod 8 = 0) as Ha8.
  { apply Z.mod_divide in Ha as [q ->]; [|lia]. replace j with (j - 3 + 3) by lia.
      rewrite Z.pow_add_r, Z.mul_assoc by lia. by apply Z.mod_mul. }
  destruct (Z.max_spec a 24) as [[_ ->]|[_ ->]]; done.
Qed.
Lemma gap_run (st : control) ptr j aligned :
  4 ≤ j < 61 → 0 < ptr < 2 ^ 63 → ptr mod 8 = 0 → align_ptr ptr (2 ^ j) = Ok aligned →
  ∃ gap, (let gap := u64 (aligned - ptr) in
          if negb (gap =? 0) && (gap <? sizeof_block_header) then
            let gap_remain := sizeof_block_header - gap in
            let offset := Z.max gap_remain (2 ^ j) in
            let next_aligned := u64 (aligned + offset) in
            let! aligned := lift (align_ptr next_aligned (2 ^ j)) in ret (u64 (aligned - ptr))
          else ret gap) st = (Ok gap, st) ∧
    (gap = 0 ∨ 32 ≤ gap) ∧ gap + 8 ≤ 2 ^ j + 32 ∧ gap mod 8 = 0 ∧ (ptr + gap) mod 2 ^ j = 0.
Proof.
  intros Hj Hp Hp8 Ha.
  assert (16 ≤ 2 ^ j < 2 ^ 61) as Hal by (split;
    [change 16 with (2 ^ 4); apply Z.pow_le_mono_r|apply Z.pow_lt_mono_r]; lia).
  assert (H8 : ∀ x, x mod 2 ^ j = 0 → x mod 8 = 0).
  { intros x [q ->]%Z.mod_divide; [|lia]. replace j with (j - 3 + 3) by lia.
      rewrite Z.pow_add_r, Z.mul_assoc by lia. by apply Z.mod_mul. }
  destruct (tlsf_align_up_spec ptr j) as (a & Ha' & Ham & Har); [lia..|]. unfold align_ptr in Ha.
  rewrite Ha in Ha'. injection Ha' as <-. cbv zeta. rewrite (u64_small (aligned - ptr)) by lia.
  unfold sizeof_block_header.
  assert (Hg8 : ∀ x, x mod 2 ^ j = 0 → (x - ptr) mod 8 = 0) by (intros x Hx;
    by rewrite Zminus_mod, (H8 x Hx), Hp8).
  assert (Hgap : ∀ x, x - ptr < 2 ^ j + 32 → x mod 2 ^ j = 0 → x - ptr + 8 ≤ 2 ^ j + 32).
  { intros x Hx Hxm. pose proof (Hg8 x Hxm) as [q Hq]%Z.mod_divide; [|lia].
      assert (2 ^ j = 2 ^ (j - 3) * 8) as Hj8 by (replace j with (j - 3 + 3) at 1 by lia;
      by rewrite Z.pow_add_r by lia). lia. }
  destruct (negb (aligned - ptr =? 0) && (aligned - ptr <? 32)) eqn:Hc.
  - apply andb_true_iff in Hc as [Hc1%negb_true_iff%Z.eqb_neq Hc2%Z.ltb_lt].
    set (off := Z.max (32 - (aligned - ptr)) (2 ^ j)).
    assert (32 - (aligned - ptr) ≤ off ∧ 2 ^ j ≤ off ≤ 2 ^ j + 32) by (unfold off; lia).
    rewrite (u64_small (aligned + off)) by lia.
    destruct (tlsf_align_up_spec (aligned + off) j) as (a2 & Ha2 & Ha2m & Ha2r); [lia..|].
    exists (a2 - ptr). unfold align_ptr. rewrite Ha2.
    rewrite bind_ok with (a := a2) (s' := st) by done. rewrite u64_small by lia. split; [done|].
    assert (a2 - ptr < 2 ^ j + 32) as Hlt.
    { destruct (Z.max_spec (32 - (aligned - ptr)) (2 ^ j)) as [[? Hm]|[? Hm]]; fold off in Hm;
        [|lia]. assert (a2 = aligned + off); [|lia].
      apply Z.mod_divide in Ham as [q Hq]; [|lia]. apply Z.mod_divide in Ha2m as [q2 Hq2]; [|lia].
      rewrite Hm in Ha2r |- *. rewrite Hq, Hq2 in Ha2r |- *. clear - Ha2r Hal.
      generalize dependent (2 ^ j). intros z Hz1 Hz2. assert (q2 = q + 1) as -> by nia. lia. }
    split_and!; [right; lia|by apply Hgap|by apply Hg8|]. by replace (ptr + (a2 - ptr)) with a2 by lia.
  - exists (aligned - ptr). split; [done|]. apply andb_false_iff in Hc.
    rewrite negb_false_iff, Z.eqb_eq, Z.ltb_ge in Hc.
    split_and!; [lia|apply Hgap; [lia|done]|by apply Hg8|].
    by replace (ptr + (aligned - ptr)) with aligned by lia.
Qed.
Lemma align_ptr_same ptr j : 0 ≤ j < 61 → 0 ≤ ptr < 2 ^ 63 → ptr mod 2 ^ j = 0 →
    align_ptr ptr (2 ^ j) = Ok ptr.
Proof.
  intros Hj Hp Hm. assert (0 < 2 ^ j < 2 ^ 61) by (split; [|apply Z.pow_lt_mono_r]; lia).
  destruct (tlsf_align_up_spec ptr j) as (a & Ha & Ham & Har); [lia..|]. unfold align_ptr.
  rewrite Ha. f_equal.
  apply Z.mod_divide in Ham as [q Hq]; [|lia]. apply Z.mod_divide in Hm as [q2 Hq2]; [|lia]. subst.
  assert (q = q2) as -> by nia. done.
Qed.
(** The size that is searched for. *)
Lemma memalign_request_ok adjust j :
  24 ≤ adjust < 2 ^ 32 → adjust mod 8 = 0 → 0 ≤ j < 61 →
  ∃ s, adjust_request_size (adjust + 2 ^ j + 32) (2 ^ j) = Ok s ∧
    let want := if 8 <? 2 ^ j then s else adjust in
    want = 0 ∨ (0 < want < 2 ^ 32 ∧ want mod 8 = 0 ∧ adjust ≤ want ∧
      (j ≤ 3 ∨ adjust + 2 ^ j + 32 ≤ want ∧ 4 ≤ j)).
Proof.
  intros Ha Ha8 Hj. assert (0 < 2 ^ j < 2 ^ 61) by (split; [|apply Z.pow_lt_mono_r]; lia).
  destruct (adjust_with_gap (adjust + 2 ^ j + 32) j ltac:(lia) ltac:(lia)) as (s & Hs & Hscase).
  exists s. split; [done|]. destruct (Z.ltb_spec 8 (2 ^ j)) as [Hgt|Hgt].
  - assert (4 ≤ j).
    { destruct (Z.le_gt_cases 4 j); [done|]. assert (2 ^ j ≤ 2 ^ 3) by (apply Z.pow_le_mono_r; lia).
        lia. }
    destruct Hscase as [->|[Hsr Hs8]]; [by left|]. right.
    split_and!; [lia|lia|apply Hs8; lia|lia|right; lia].
  - assert (j ≤ 3).
    { destruct (Z.le_gt_cases j 3); [done|]. assert (2 ^ 4 ≤ 2 ^ j) by (apply Z.pow_le_mono_r; lia).
        lia. }
    right. split_and!; lia.
Qed.
(** What [tlsf_memalign] does with the block it has found. *)
Definition place (align b adjust : Z) : T Z :=
  let! b :=
    (if negb (b =? 0) then
       let ptr := block_to_ptr b in
       let! aligned := lift (align_ptr ptr align) in
       let gap := u64 (aligned - ptr) in
       let! gap :=
         (if negb (gap =? 0) && (gap <? sizeof_block_header) then
            let gap_remain := sizeof_block_header - gap in
            let offset := Z.max gap_remain align in
            let next_aligned := u64 (aligned + offset) in
            let! aligned := lift (align_ptr next_aligned align) in
            ret (u64 (aligned - ptr))
          else ret gap) in
       if negb (gap =? 0) then
         gpcl_assert (sizeof_block_header <=? gap) ;;; block_trim_free_leading b gap
       else ret b
     else ret b) in
  block_prepare_used b adjust.
Definition placed (st : control) (B : blocks_map) (align adjust : Z) (res : outcome Z * control) :
    Prop :=
  ∃ st' L' B' b, res = (Ok (b + 16), st') ∧ (b + 16) mod align = 0 ∧ heap_ok st' B' L' ∅ ∧
    coalesced B' 0 ∧
    handed_out B b adjust B' ∧ (∀ P, pools P B → pools P B') ∧ same st st' (user B).

Section place.
Context (st : control) (B : blocks_map) (L : lists) (b : Z) (k n : blk) (j adjust : Z).
Context (H : heap_ok st B L {[ b ]}) (Hb : B !! b = Some k) (Hf : bfree k = true) (Hpf : bpf k = false).
Context (Hn : B !! nxt b k = Some n) (Hnf : bfree n = false) (Hco : coalesced B b).
Context (Hj : 0 ≤ j < 61) (Ha : 24 ≤ adjust) (Ha8 : adjust mod 8 = 0).
Let Hly : layout B := ho_layout _ _ _ _ H.

Lemma place_start : block_to_ptr b = b + 16 ∧ (b =? 0) = false ∧ (b + 16) mod 8 = 0.
Proof.
  destruct (free_size B b k Hly Hb Hf) as (_ & _ & Hb0 & Hb8).
  destruct (ly_range B Hly b k Hb) as (_ & Hbr & _).
  unfold block_to_ptr, block_start_offset. rewrite u64_small by lia.
  split_and!; [done|apply Z.eqb_neq; lia|].
  rewrite Z.add_mod, Hb8 by lia. done.
Qed.
Lemma place_here : adjust ≤ bsz k → (b + 16) mod 2 ^ j = 0 →
    placed st B (2 ^ j) adjust (block_prepare_used b adjust st).
Proof.
  intros Hle Hm. destruct (block_prepare_used_ok st B L b k n adjust H Hb Hf Hn Hnf Hco Ha Ha8 Hle)
    as (st2 & L2 & B2 & Hr2 & H2 & Hco2 & Hho & Hp & Hsm2). by exists st2, L2, B2, b.
Qed.
Lemma place_behind gap :
  32 ≤ gap → gap mod 8 = 0 → gap + 32 ≤ bsz k → adjust + gap ≤ bsz k → (b + 16 + gap) mod 2 ^ j = 0 →
  placed st B (2 ^ j) adjust ((let! b := block_trim_free_leading b gap
    in block_prepare_used b adjust) st).
Proof.
  intros Hg Hg8 Hle Hle2 Hm.
  destruct (block_trim_free_leading_ok st B L b k n gap H Hb Hf Hpf Hn Hnf Hco Hg Hg8 Hle)
    as (st2 & L2 & B2 & k2 & n2 & Hr2 & H2 & Hb2 & Hf2 & Hk2 & Hn2 & Hnf2 & Hco2 & Hkp2 & Hsm2). run Hr2.
  destruct (block_prepare_used_ok st2 B2 L2 (b + gap) k2 n2 adjust H2 Hb2 Hf2 Hn2 Hnf2 Hco2 Ha Ha8
    ltac:(lia))
    as (st3 & L3 & B3 & Hr3 & H3 & Hco3 & (t & Ht & Hfresh & Hin) & Hp3 & Hsm3).
  exists st3, L3, B3, (b + gap). split_and!; try done.
  - by replace (b + gap + 16) with (b + 16 + gap) by lia.
  - exists t. destruct Hkp2 as [Hk2' _]. split; [done|]. split; [intros z; by rewrite <-Hk2'|].
    intros c z. by rewrite Hin, Hk2'.
  - intros P HP. apply Hp3. by apply Hkp2.
  - eapply same_trans; [exact Hsm2|]. eapply same_mono; [exact Hsm3|]. intros a. by apply user_kept.
Qed.
Lemma place_ok :
  adjust ≤ bsz k → j ≤ 3 ∨ adjust + 2 ^ j + 32 ≤ bsz k ∧ 4 ≤ j →
    placed st B (2 ^ j) adjust (place (2 ^ j) b adjust st).
Proof.
  intros Hle Hcase. destruct place_start as (Hptr & Hb0 & Hp8).
  destruct (ly_range B Hly b k Hb) as (? & Hbr & _).
  destruct (free_size B b k Hly Hb Hf) as (Hks & _).
  assert (0 < 2 ^ j < 2 ^ 61) by (split; [|apply Z.pow_lt_mono_r]; lia).
  unfold place. rewrite Hb0, Hptr. cbn [negb]. rewrite bind_assoc. destruct Hcase as [Hsmall|[Hbig Hj4]].
  - assert ((b + 16) mod 2 ^ j = 0) as Hpj.
    { apply Z.mod_divide; [lia|]. apply Z.divide_trans with 8; [|by apply Z.mod_divide].
      exists (2 ^ (3 - j)). rewrite <-Z.pow_add_r by lia. by replace (3 - j + j) with 3 by lia. }
    rewrite bind_ok with (a := b + 16) (s' := st) by (unfold lift;
      by rewrite align_ptr_same by (done || lia)).
    rewrite Z.sub_diag. change (u64 0) with 0. cbn [Z.eqb negb andb]. rewrite bind_assoc, bind_ret_l.
    cbn [Z.eqb negb]. rewrite bind_ret_l. by apply place_here.
  - destruct (tlsf_align_up_spec (b + 16) j) as (aligned & Haln & _); [lia..|].
    rewrite bind_ok with (a := aligned) (s' := st) by (unfold lift, align_ptr; by rewrite Haln).
    destruct (gap_run st (b + 16) j aligned ltac:(lia) ltac:(lia) Hp8 Haln)
      as (gap & Hgr & Hg1 & Hg2 & Hg8 & Hgm). cbv zeta in Hgr. rewrite bind_assoc. run Hgr.
      destruct Hg1 as [->|Hg32].
    + cbn [Z.eqb negb]. rewrite bind_ret_l. apply place_here; [done|]. by rewrite Z.add_0_r in Hgm.
    + rewrite (proj2 (Z.eqb_neq gap 0)) by lia. cbn [negb].
      rewrite bind_assoc, bind_assert by (apply Z.leb_le; unfold sizeof_block_header; lia).
      apply place_behind; (done || lia).
Qed.
End place.

(** The size that [tlsf_memalign] searches for. *)
Definition wanted (align sz : Z) : Z :=
  match adjust_request_size sz ALIGN_SIZE with
  | Ok adjust =>
      if negb (adjust =? 0) && (ALIGN_SIZE <? align) then
        match adjust_request_size (u64 (adjust + align + sizeof_block_header)) align with Ok s => s | _ => 0 end
      else adjust
  | _ => 0
  end.
Lemma tlsf_memalign_ok st B L j sz :
  heap_ok st B L ∅ → coalesced B 0 → 0 ≤ j < 61 → 0 ≤ sz < 2 ^ 64 - 8 →
  tlsf_memalign (2 ^ j) sz st = (Ok 0, st) ∧ no_block_for B (wanted (2 ^ j) sz) ∨
  ∃ adjust, sz ≤ adjust ∧ placed st B (2 ^ j) adjust (tlsf_memalign (2 ^ j) sz st).
Proof.
  intros H Hco Hj Hsz. pose proof (ho_layout _ _ _ _ H) as Hly.
  destruct (adjust_request_ok sz Hsz) as (adjust & Hadj & Hcase & _).
  assert (0 < 2 ^ j < 2 ^ 61) as Hal by (split; [|apply Z.pow_lt_mono_r]; lia).
  remember (tlsf_memalign (2 ^ j) sz st) as res eqn:Hres. unfold tlsf_memalign in Hres.
  rewrite bind_ok with (a := adjust) (s' := st) in Hres by (unfold lift; by rewrite Hadj).
  cbv zeta in Hres. unfold sizeof_block_header at 1 in Hres.
  assert (0 ≤ adjust < 2 ^ 32) as Har by lia. rewrite (u64_small (adjust + 2 ^ j + 32)) in Hres by lia.
  destruct Hcase as [->|(Hle & Ha0 & Ha8 & Ha24)].
  { destruct (adjust_with_gap (0 + 2 ^ j + 32) j ltac:(lia) ltac:(lia)) as (s & Hs & _).
    rewrite bind_ok with (a := s) (s' := st) in Hres by (unfold lift; by rewrite Hs). left.
    split; [exact Hres|]. left. unfold wanted. by rewrite Hadj. }
  destruct (memalign_request_ok adjust j Ha24 Ha8 Hj) as (s & Hs & Hwant).
  rewrite bind_ok with (a := s) (s' := st) in Hres by (unfold lift; by rewrite Hs).
  rewrite (proj2 (Z.eqb_neq adjust 0)) in Hres by lia. cbn [negb andb] in Hres.
  change ALIGN_SIZE with 8 in Hres. cbv zeta in Hwant.
  set (want := if 8 <? 2 ^ j then s else adjust) in *.
  assert (wanted (2 ^ j) sz = want) as ->.
  { unfold wanted, sizeof_block_header. rewrite Hadj, (proj2 (Z.eqb_neq adjust 0)), u64_small by lia.
    cbn [negb andb]. change ALIGN_SIZE with 8. rewrite Hs. done. }
  destruct Hwant as [Hw0|(Hw0 & Hw8 & Hwa & Hwj)]; [rewrite Hw0 in Hres; left; split; [exact Hres|by left]|].
  destruct (block_locate_free_ok st B L want H Hco Hw0 Hw8)
    as [(st1 & L1 & b & k & n & Hr & H1 & Hb & Hf & Hpf & Hks & Hn & Hnf & Hsm1)|[Hr Hno]];
    rewrite (bind_ok _ _ _ _ _ Hr) in Hres; [right|left; split; [exact Hres|by right]].
  rewrite bind_assert in Hres by done. change (res = place (2 ^ j) b adjust st1) in Hres.
  exists adjust. split; [done|].
  destruct (place_ok st1 B L1 b k n j adjust H1 Hb Hf Hpf Hn Hnf (coalesced_any B b Hly Hco) Hj
    ltac:(lia) Ha8)
    as (st2 & L2 & B2 & c & Hc & ? & ? & ? & ? & ? & Hsm2); [lia|lia|].
  exists st2, L2, B2, c. split_and!; try done; [by rewrite Hres|by eapply same_trans].
Qed.
End TlsfHeap.
