(* ===== verification/TlsfRealloc.v ===== *)
(** * TLSF: resizing a block

    [block_trim_used], growing a block into the free block behind it, [memcpy] between two
    pieces and [tlsf_realloc] (detail/impl/tlsf.ipp) on the heap of TlsfHeap.v. *)

From S2P Require Import Prelude.
From S2P Require Import TlsfBits.
From S2P Require Import TlsfOps.
From S2P Require Import TlsfLists.
From S2P Require Import TlsfHeap.

Local Open Scope Z_scope.
Local Open Scope gpcl_scope.

Module TlsfRealloc.
Import Tlsf TlsfAlloc FreeLists TlsfHeap.

(** Block [b] has [s] bytes now; the other blocks in use are as before. *)
Definition resized (B : blocks_map) (b s : Z) (B' : blocks_map) : Prop :=
  ∀ c t, in_use B' c t ↔ (c ≠ b ∧ in_use B c t) ∨ (c = b ∧ t = s).

Lemma used_size B b k : layout B → B !! b = Some k → bsz k ≠ 0 → 24 ≤ bsz k < 2 ^ 32 ∧
    bsz k mod 8 = 0 ∧ 0 < b ∧ b + 16 + bsz k < 2 ^ 63 ∧ b mod 8 = 0.
Proof.
  intros H Hb Hk. destruct (ly_size B H b k Hb) as [? [[? _]|?]]; [done|].
  destruct (ly_end B H b k Hb Hk). destruct (ly_range B H b k Hb) as (? & ? & ?). unfold nxt in *.
  split_and!; try done; lia.
Qed.

(** The memory that is not the allocator's when the piece at [b] has [s] bytes. *)
Definition trimmed (B : blocks_map) (b s a : Z) : Prop := others B b a ∨ b + 16 ≤ a < b + 16 + s.

(** Splitting a block in use: the rest is free and in no list. *)
Lemma split_used_ok st B L b k n sz :
  heap_ok st B L ∅ → B !! b = Some k → B !! nxt b k = Some n → 24 ≤ sz → sz mod 8 = 0 →
    sz + 32 ≤ bsz k → bfree k = false →
  let r := rest_of b sz in
  ∃ h1 h2, block_split b sz st = (Ok r, set_heap h1 st) ∧
    block_set_prev_used r (set_heap h1 st) = (Ok tt, set_heap h2 st) ∧
    heap_ok (set_heap h2 st) (splitted b k n sz B) L {[ r ]} ∧
      same st (set_heap h2 st) (user (splitted b k n sz B)).
Proof.
  intros H Hb Hn Hsz Hal Hk Hf r. pose proof (ho_layout _ _ _ _ H) as Hly.
  pose proof (split_order b k sz Hsz Hk) as (Ho1 & Ho2 & Ho3 & Ho4). fold r in Ho1, Ho2, Ho3, Ho4.
  destruct (split_aligned B b k sz Hly Hb Hal) as [Hr8 Hrs8]. cbn in Hrs8.
  destruct (size_range B b k Hly Hb) as [? _].
  destruct (block_split_run st B L _ b k n sz H Hb Hn Hsz Hal Hk)
    as (h1 & p & Hrun & Hwb & Hwr & Hwn & Hln & Hother & Hmap). fold r in Hrun, Hwr, Hln, Hother.
  set (h2 := <[size r := word (bsz k - sz - 8) true false]> h1). exists h1, h2.
  assert (size r ≠ size b ∧ size r ≠ size (nxt b k) ∧ size r ≠ nxt b k) as (D1 & D2 & D3)
    by (unfold size; lia).
  assert (Hother2 : ∀ a, a ≠ size b → a ≠ size r → a ≠ size (nxt b k) → a ≠ nxt b k →
    h2 !! a = heap st !! a).
  { intros a E1 E2 E3 E4. unfold h2. rewrite lookup_insert_ne by done. by apply Hother. }
  assert (H2 : heap_ok (set_heap h2 st) (splitted b k n sz B) L {[ r ]}).
  { rewrite <-(right_id_L ∅ (∪) {[ r ]}). apply (splitting_ok st B L ∅ b k n sz H Hb Hn Hsz Hal Hk h2);
      unfold h2; fold r; rewrite ?lookup_insert_eq, ?lookup_insert_ne by done; try done;
        [by left|by rewrite Hf|congruence| |].
    - intros a E1 E2 E3 E4 _. by apply Hother2.
    - intros a Ha. rewrite lookup_insert_is_Some'. auto. }
  pose proof (split_lookup B b k n sz Hly Hb Hsz Hk) as Hl. fold r in Hl.
  pose proof (ho_layout _ _ _ _ H2) as Hly2.
  set (rk := Blk (bsz k - sz - 8) true (bfree k) (bend k)) in *. split_and!; [done| |done|].
  - apply (set_prev_used_word (set_heap h1 st) r (bsz k - sz - 8) true p Hwr); [lia|done].
  - split; [done|]. intros a Ha _. apply Hother2; intros ->.
    + by apply (size_not_user _ _ b (set_sz sz k) Hly2 ltac:(apply Hl; by left) eq_refl).
    + by apply (size_not_user _ _ r rk Hly2 ltac:(apply Hl; auto) eq_refl).
    + by apply (size_not_user _ _ (nxt b k) (set_pf true n) Hly2 ltac:(apply Hl; auto) eq_refl).
    + by apply (link_not_user _ _ r rk Hly2 ltac:(apply Hl; auto) eq_refl (eq_sym Ho3)).
Qed.
Lemma trimmed_split st B L b k n sz a :
  heap_ok st B L ∅ → B !! b = Some k → B !! nxt b k = Some n → 24 ≤ sz → sz + 32 ≤ bsz k → bfree k = false →
  trimmed B b sz a → user (splitted b k n sz B) a.
Proof.
  intros H Hb Hn Hsz Hk Hf Ht. pose proof (split_in_use st B L ∅ b k n sz H Hb Hn Hsz Hk) as Hin.
  destruct Ht as [[(c & t & Hc & Ht & Ha)|(P & HP & Ho)]|Ha].
  - left. exists c, t. split; [apply Hin; by left|done].
  - right. exists P. split; [by apply (split_pools st B L ∅)|done].
  - left. exists b, sz. split; [apply Hin; by right|done].
Qed.
Lemma resized_same B b s : in_use B b s → resized B b s B.
Proof.
  intros Hu c t. split; [|by intros [[_ Hc]|[-> ->]]].
  intros Hc. destruct (decide (c = b)) as [->|]; [right; split; [done|]|by left].
  destruct Hc as (_ & m & Hm & _ & <-), Hu as (_ & k & Hk & _ & <-). congruence.
Qed.
(** Giving back the end of a block in use. *)
Lemma block_trim_used_ok st B L b s sz :
  heap_ok st B L ∅ → coalesced B 0 → in_use B b s → 24 ≤ sz → sz mod 8 = 0 → sz ≤ s →
  ∃ st' L' B' s', block_trim_used b sz st = (Ok tt, st') ∧ heap_ok st' B' L' ∅ ∧ coalesced B' 0 ∧
    sz ≤ s' ≤ s ∧ s' < sz + 32 ∧ resized B b s' B' ∧
    (∀ P, pools P B → pools P B') ∧ same st st' (trimmed B b s').
Proof.
  intros H Hco Huse Hsz Hal Hle. pose proof Huse as [Hs0 (k & Hb & Hf & Hs)].
  pose proof (ho_layout _ _ _ _ H) as Hly.
  destruct (used_size B b k Hly Hb ltac:(lia)) as (Hkr & Hk8 & Hb0 & Hbr & Hb8). unfold block_trim_used.
  run (block_is_free_at st B L _ b k H Hb). rewrite Hf, bind_assert by done.
  run (block_can_split_at st B L _ b k H Hb sz ltac:(lia)).
  destruct (Z.leb_spec (sz + 32) (bsz k)) as [Hk|Hk].
  2: { exists st, L, B, s. split_and!; try done; try lia. by apply resized_same. }
  destruct (ly_next B Hly b k Hb ltac:(lia)) as (n & Hn & Hnpf & _). set (r := rest_of b sz).
  destruct (split_used_ok st B L b k n sz H Hb Hn Hsz Hal Hk Hf) as (h1 & h2 & Hr1 & Hr2 & H2 & Hsm2).
  fold r in Hr1, Hr2, H2. set (B2 := splitted b k n sz B) in *.
  pose proof (split_lookup B b k n sz Hly Hb Hsz Hk) as Hl. fold r B2 in Hl.
  pose proof (split_used_coalesced st B L ∅ b k n sz H Hb Hn Hsz Hk Hf Hco) as Hco2. fold r B2 in Hco2.
  destruct (block_merge_next_ok (set_heap h2 st) B2 L r (Blk (bsz k - sz - 8) true (bfree k) (bend k)) H2
    ltac:(apply Hl; auto) eq_refl Hf Hco2)
      as (st3 & L3 & B3 & k3 & Hr3 & H3 & Hb3 & Hf3 & Hco3 & Hkp3 & Hsm3).
  destruct (block_insert_ok st3 B3 L3 _ r k3 H3 Hb3 Hf3 ltac:(set_solver))
    as (st4 & L4 & Hr4 & H4 & Hsm4).
  rewrite difference_diag_L in H4. assert (Hu : ∀ a, trimmed B b sz a → user B2 a) by (intros a; by apply (trimmed_split st B L)).
  exists st4, L4, B3, sz. split_and!; try done; try lia.
  - run Hr1. run Hr2. run Hr3. exact Hr4.
  - intros c t. rewrite (proj1 Hkp3). unfold B2.
    rewrite (split_in_use st B L ∅ b k n sz H Hb Hn Hsz Hk). naive_solver.
  - intros P HP. apply Hkp3. by apply (split_pools st B L ∅).
  - eapply same_trans; [eapply same_mono; [exact Hsm2|exact Hu]|].
    eapply same_trans; [eapply same_mono; [exact Hsm3|exact Hu]|].
    eapply same_mono; [exact Hsm4|]. intros a Ha%Hu. by apply (user_kept B2 B3).
Qed.

(** ** Growing into the free block behind *)

Definition grown (b : Z) (k nk n2k : blk) (B : blocks_map) : blocks_map :=
  <[nxt (nxt b k) nk := set_pf false n2k]> (<[b := set_sz (bsz k + bsz nk + 8) k]> (delete (nxt b k) B)).
Section grow.
Context (st : control) (B : blocks_map) (L : lists) (b : Z) (k nk n2k : blk).
Let nb : Z := nxt b k.
Let n2 : Z := nxt nb nk.
Let s : Z := bsz k + bsz nk + 8.
Context (H : heap_ok st B L {[ nb ]}) (Hb : B !! b = Some k) (Hf : bfree k = false) (Hk : bsz k ≠ 0).
Context (Hn : B !! nb = Some nk) (Hnf : bfree nk = true) (Hn2 : B !! n2 = Some n2k).
Let Hly : layout B := ho_layout _ _ _ _ H.

Lemma grow_order : b + 32 ≤ nb ∧ nb + 32 ≤ n2 ∧ nxt b (set_sz s k) = n2 ∧ n2 + 8 ≤ nxt n2 n2k.
Proof.
  destruct (used_size B b k Hly Hb Hk) as [? _]. destruct (free_size B nb nk Hly Hn Hnf) as [? _].
  pose proof (nxt_gt B n2 n2k Hly Hn2) as Hg. unfold n2, nb, nxt, s, set_sz in *. cbn. lia.
Qed.
Lemma grown_lookup c m :
  grown b k nk n2k B !! c = Some m ↔ c = b ∧ m = set_sz s k ∨ c = n2 ∧ m = set_pf false n2k ∨
    (nxt c m ≤ b ∨ n2 < c) ∧ B !! c = Some m.
Proof.
  pose proof grow_order as Ho. unfold grown. fold nb n2 s.
  rewrite !lookup_insert_Some, lookup_delete_Some. split.
  - intros [[<- <-]|[H1 [[<- <-]|[H2 [H3 Hc]]]]]; [auto|auto|]. right; right. split; [|done].
    pose proof (nxt_gt B c m Hly Hc).
    destruct (beside_block B b k c m Hly Hb Hc) as [|[|]]; [done|by left|].
    destruct (beside_block B nb nk c m Hly Hn Hc) as [|[|Hge]]; [done|fold nb in H4; lia|].
    fold n2 in Hge. right. lia.
  - intros [[-> ->]|[[-> ->]|[Hc Hm]]]; [right; split; [lia|auto]|by left|].
    pose proof (nxt_gt B c m Hly Hm). right. split; [lia|]. right. split; [lia|]. split; [lia|done].
Qed.
Lemma layout_grown : layout (grown b k nk n2k B).
Proof.
  pose proof grow_order as (Ho1 & Ho2 & Ho3 & Ho4). set (B1 := flipped b k nk true B).
  assert (layout B1) as Hl1 by (by apply layout_flip).
  assert (B1 !! b = Some (set_fr true k)) as Hb1 by (unfold B1, flipped; fold nb;
    rewrite lookup_insert_ne by lia; apply lookup_insert_eq).
    assert (B1 !! nb = Some (set_pf true nk)) as Hn1 by apply lookup_insert_eq.
  pose proof (layout_absorb B1 b (set_fr true k) nb (set_pf true nk) Hl1 Hb1 Hn1 eq_refl eq_refl
    Hnf) as Hl2. set (B2 := absorbed b (set_fr true k) nb (set_pf true nk) B1) in Hl2.
  assert (B2 !! b = Some (set_sz s (set_fr true k))) as Hb2 by apply lookup_insert_eq.
  assert (B2 !! nxt b (set_sz s (set_fr true k)) = Some n2k) as Hn22.
  { change (nxt b (set_sz s (set_fr true k))) with (nxt b (set_sz s k)). rewrite Ho3.
      unfold B2, absorbed, B1, flipped. fold nb.
    by rewrite lookup_insert_ne, lookup_delete_ne, !lookup_insert_ne by lia. }
  pose proof (layout_flip B2 b _ n2k false Hl2 Hb2 ltac:(cbn; unfold s;
    destruct (used_size B b k Hly Hb Hk); destruct (free_size B nb nk Hly Hn Hnf); lia) Hn22)
    as Hl3.
  assert (flipped b (set_sz s (set_fr true k)) n2k false B2 = grown b k nk n2k B) as <-; [|done].
  unfold flipped, grown, B2, absorbed, B1, flipped. fold nb n2.
  change (nxt b (set_sz s (set_fr true k))) with (nxt b (set_sz s k)).
  rewrite Ho3, insert_insert_eq. f_equal.
  change (bsz k + bsz nk + 8) with s.
  assert (set_fr false (set_sz s (set_fr true k)) = set_sz s k) as -> by (unfold set_fr, set_sz;
    cbn; by rewrite Hf). rewrite delete_insert_eq. apply map_eq. intros c.
    destruct (decide (c = b)) as [->|]; [by rewrite !lookup_insert_eq|].
  rewrite !(lookup_insert_ne _ b) by done. destruct (decide (c = nb)) as [->|];
    [by rewrite !lookup_delete_eq|]. by rewrite !lookup_delete_ne, lookup_insert_ne by done.
Qed.
Let h' : mem :=
  <[size b :=
  word s false (bpf k)]>
  (<[size n2 :=
  wd (set_pf false n2k)]> (<[n2 := b]> (<[size b := word s false (bpf k)]> (heap st)))).

Lemma grown_memory : memory_ok h' (grown b k nk n2k B).
Proof.
  pose proof grow_order as (Ho1 & Ho2 & Ho3 & Ho4). destruct (ho_memory _ _ _ _ H) as [M1 M2 M3].
  assert (Hother : ∀ a, a ≠ size b → a ≠ size n2 → a ≠ n2 → h' !! a = heap st !! a)
    by (intros a E1 E2 E3; unfold h'; by rewrite !lookup_insert_ne). split.
  - intros c m [[-> ->]|[[-> ->]|[Hc Hm]]]%grown_lookup.
    + unfold h'. rewrite lookup_insert_eq. unfold wd, set_sz. cbn. by rewrite Hf.
    + unfold h'. rewrite lookup_insert_ne by (unfold size; lia). apply lookup_insert_eq.
    + pose proof (nxt_gt B c m Hly Hm). rewrite Hother by (unfold size; lia). by apply M1.
  - assert (Hfr : ∀ c m, nxt c m ≤ b ∨ n2 ≤ c → B !! c = Some m → bfree m = true →
      h' !! nxt c m = Some c).
    { intros c m Hc Hm Hmf. destruct (free_size B c m Hly Hm Hmf) as [? _].
        rewrite Hother; [by apply M2|..]; unfold size; destruct Hc; unfold nxt in *; lia. }
    intros c m [[-> ->]|[[-> ->]|[Hc Hm]]]%grown_lookup Hmf;
      [cbn in Hmf; congruence|by apply (Hfr n2 n2k); [lia|..]|apply Hfr; [lia|done..]].
  - intros c m a [[-> ->]|[[-> ->]|[Hc Hm]]]%grown_lookup Ha Hal; unfold h';
      rewrite !lookup_insert_is_Some'; do 4 right; [|by apply (M3 n2 n2k)|by apply (M3 c m)].
    cbn in Ha. destruct (decide (a < nb + 8)); [apply (M3 b k)|apply (M3 nb nk)]; try done;
      unfold nb, nxt, s in *; lia.
Qed.
Lemma grown_ok : heap_ok (set_heap h' st) (grown b k nk n2k B) L ∅.
Proof.
  pose proof grow_order as (Ho1 & Ho2 & Ho3 & Ho4).
  pose proof (size_range B n2 n2k Hly Hn2) as [? _].
  destruct (free_size B nb nk Hly Hn Hnf) as [? _].
  apply (heap_change st B L {[ nb ]}); [done|apply layout_grown|apply grown_memory| | |].
  - intros c t. split.
    + intros (m & [[-> ->]|[[-> ->]|[Hc Hm]]]%grown_lookup & Hmf & _ & <-);
        [cbn in Hmf; congruence|exists n2k; split_and!; [done|done|set_solver by lia|done]|].
      exists m. pose proof (nxt_gt B c m Hly Hm). split_and!; [done|done|set_solver by lia|done].
    + intros (m & Hm & Hmf & HX & <-). assert (c ≠ nb) by set_solver. assert (c ≠ b) by congruence.
      destruct (decide (c = n2)) as [->|].
      { exists (set_pf false n2k). assert (m = n2k) as -> by congruence.
          split_and!; [apply grown_lookup; auto|done|set_solver|done]. }
      exists m. split_and!; [|done|set_solver|done]. apply grown_lookup. right; right.
      split; [|done]. pose proof (nxt_gt B c m Hly Hm).
      destruct (beside_block B b k c m Hly Hb Hm) as [|[|Hge]]; [done|by left|]. fold nb in Hge.
      destruct (beside_block B nb nk c m Hly Hn Hm) as [|[|Hge2]]; [done|lia|]. fold n2 in Hge2.
      right. lia.
  - intros a. unfold h'. destruct (decide (a = size b)) as [->|E1];
      [left; exists b, k; unfold size, nb, nxt in *; split; [done|lia]|].
    destruct (decide (a = size n2)) as [->|E2]; [left; exists n2, n2k; unfold size; split; [done|];
      split; [lia|auto]|].
    destruct (decide (a = n2)) as [->|E3]; [left; exists nb, nk; unfold n2, nxt in *; split;
      [done|lia]|]. right. by rewrite !lookup_insert_ne.
  - intros c m [[-> ->]|[[-> ->]|[Hc Hm]]]%grown_lookup;
      [|by apply (ho_ctl _ _ _ _ H n2 n2k)|by apply (ho_ctl _ _ _ _ H c m)].
    destruct (ho_ctl _ _ _ _ H b k Hb), (ho_ctl _ _ _ _ H nb nk Hn); unfold nb, nxt, s in *; cbn;
      lia.
Qed.
Lemma grown_run : (block_absorb b nb ;;; block_mark_as_used b) st = (Ok tt, set_heap h' st).
Proof.
  pose proof grow_order as (Ho1 & Ho2 & Ho3 & Ho4).
  destruct (used_size B b k Hly Hb Hk) as (Hkr & Hk8 & Hb0 & Hbr & Hb8).
  destruct (free_size B nb nk Hly Hn Hnf) as (Hnr & Hn8 & _).
  destruct (ly_range B Hly nb nk Hn) as (_ & Hnr2 & _).
  pose proof (size_range B n2 n2k Hly Hn2) as [Hn2r Hn28].
  assert (Hs8 : s mod 8 = 0) by (unfold s; rewrite Z.add_mod, (Z.add_mod (bsz k)), Hk8, Hn8 by lia;
    done). assert (Hsr : 0 < s < 2 ^ 63 ∧ b + 16 + s < 2 ^ 63) by (unfold s, nb, nxt in *; lia).
    assert (Hbs : b + s + 8 = n2) by (unfold nxt in Ho3; cbn in Ho3; lia).
  unfold block_absorb. rewrite bind_assoc. run (block_is_last_at st B L _ b k H Hb).
  rewrite bind_assoc, bind_assert by (apply negb_true_iff, Z.eqb_neq; lia). rewrite bind_assoc.
  run (read_ok size b _ st (word_at st B L _ b k H Hb)). rewrite bind_assoc.
  run (block_size_at st B L _ nb nk H Hn).
  assert (u64 (wd k + (bsz nk + block_header_overhead)) = word s false (bpf k)) as ->.
  { unfold wd, word, s, block_header_overhead. rewrite Hf. pose proof (flags_range false (bpf k)).
      rewrite u64_small by (unfold s in *; lia). lia. }
  rewrite bind_assoc.
  run (write_ok size b (word s false (bpf k)) st ltac:(exists (wd k);
    by apply (word_at st B L {[ nb ]}))).
  rewrite bind_assoc.
  erewrite bind_ok; [|apply (block_link_next_word _ b s false (bpf k));
    [cbn; by rewrite lookup_insert_eq|lia|done|lia|lia|lia|]].
  2: { rewrite Hbs. cbn. rewrite lookup_insert_is_Some'. right.
         apply (next_mapped st B L _ nb nk H Hn). lia. }
  rewrite Hbs, bind_ret_l. unfold block_mark_as_used.
  erewrite bind_ok;
    [|apply (block_next_word _ b s false (bpf k));
    [cbn; rewrite lookup_insert_ne by (unfold size; lia); apply lookup_insert_eq|lia|done|lia|lia|
    lia]].
  rewrite Hbs. erewrite bind_ok; [|apply (set_prev_used_word _ n2 (bsz n2k) (bfree n2k) (bpf n2k));
    [|lia|done]].
  2: { cbn. rewrite !lookup_insert_ne by (unfold size; lia). apply (word_at st B L _ n2 n2k H Hn2). }
  erewrite set_used_word; [reflexivity| |lia|done]. cbn.
  rewrite !lookup_insert_ne by (unfold size; lia). apply lookup_insert_eq.
Qed.
Lemma grown_resized : resized B b s (grown b k nk n2k B).
Proof.
  pose proof grow_order as (Ho1 & Ho2 & Ho3 & Ho4). destruct (used_size B b k Hly Hb Hk) as [? _].
  destruct (free_size B nb nk Hly Hn Hnf) as [? _]. intros c t. split.
  - intros [Ht (m & [[-> ->]|[[-> ->]|[Hc Hm]]]%grown_lookup & Hmf & Hms)];
      [by right|left; split; [lia|]; split; [done|exists n2k; done]|].
    pose proof (nxt_gt B c m Hly Hm). left. split; [lia|]. split; [done|by exists m].
  - intros [[Hcb [Ht (m & Hm & Hmf & Hms)]]|[-> ->]].
    + split; [done|]. destruct (decide (c = n2)) as [->|];
        [exists (set_pf false n2k); assert (m = n2k) as -> by congruence; split;
        [apply grown_lookup; auto|done]|]. exists m. split; [|done]. apply grown_lookup.
        right; right. split; [|done].
      pose proof (nxt_gt B c m Hly Hm). destruct (beside_block B b k c m Hly Hb Hm) as [|[|Hge]];
        [done|by left|]. fold nb in Hge.
      destruct (beside_block B nb nk c m Hly Hn Hm) as [->|[|Hge2]]; [congruence|lia|].
      fold n2 in Hge2. right. lia.
    + split; [unfold s; lia|]. exists (set_sz s k). split; [apply grown_lookup; auto|done].
Qed.
Lemma grown_pools P : pools P B → pools P (grown b k nk n2k B).
Proof.
  pose proof grow_order as (Ho1 & Ho2 & Ho3 & Ho4). destruct (used_size B b k Hly Hb Hk) as [? _].
  destruct (free_size B nb nk Hly Hn Hnf) as [? _]. intros [HP Hin].
  split; [|intros c m [[-> ->]|[[-> ->]|[_ Hm]]]%grown_lookup;
    [by apply (Hin b k)|by apply (Hin n2 n2k)|by apply Hin]]. intros x e Hse.
    destruct (HP x e Hse) as [(m & Hm & Hms & He) Hno].
  assert (x ≠ nb) by (intros ->; by apply (Hno b k Hb)).
  assert (x ≠ n2) by (intros ->; apply (Hno nb nk Hn); [lia|done]). split.
  - unfold grown. fold nb n2 s. rewrite lookup_insert_ne by done.
    destruct (decide (x = b)) as [->|]; [rewrite lookup_insert_eq; exists (set_sz s k); simplify_eq;
      split; [done|]; cbn; unfold s; split; [lia|done]|]. exists m.
      by rewrite lookup_insert_ne, lookup_delete_ne.
  - intros c l [[-> ->]|[[-> ->]|[Hc Hl]]]%grown_lookup Hl0;
      [rewrite Ho3; congruence|by apply (Hno n2 n2k Hn2)|by apply Hno].
Qed.
Lemma grown_coalesced : coalesced B 0 → coalesced (grown b k nk n2k B) 0.
Proof.
  intros Hco c m l Hc Hcf Hl' Hlf. pose proof grow_order as (Ho1 & Ho2 & Ho3 & Ho4).
  assert (Hold : ∀ d i, grown b k nk n2k B !! d = Some i → bfree i = true → ∃ i0, B !! d = Some i0 ∧
    bfree i0 = true ∧ nxt d i0 = nxt d i).
  { intros d i [[-> ->]|[[-> ->]|[_ Hd]]]%grown_lookup Hi;
      [cbn in Hi; congruence|exists n2k; done|exists i; done]. }
  destruct (Hold c m Hc Hcf) as (m0 & Hm0 & Hm0f & Heq).
  destruct (Hold _ l Hl' Hlf) as (l0 & Hl0 & Hl0f & _). rewrite <-Heq in Hl0 |- *.
  by apply (Hco c m0 l0).
Qed.
Lemma block_grown_same : same st (set_heap h' st) (user B).
Proof.
  split; [done|]. intros a Ha. cbn. unfold h'. rewrite !lookup_insert_ne; [done|..]; intros <-.
  - by apply (size_not_user B _ b k Hly Hb eq_refl).
  - by apply (link_not_user B _ nb nk Hly Hn Hnf eq_refl).
  - by apply (size_not_user B _ n2 n2k Hly Hn2 eq_refl).
  - by apply (size_not_user B _ b k Hly Hb eq_refl).
Qed.
End grow.

Lemma block_grow_ok st B L b k nk :
  heap_ok st B L ∅ → coalesced B 0 → B !! b = Some k → bfree k = false → bsz k ≠ 0 →
    B !! nxt b k = Some nk → bfree nk = true →
  ∃ st' L' B', (block_merge_next b ;;; block_mark_as_used b) st = (Ok tt, st') ∧
    heap_ok st' B' L' ∅ ∧ coalesced B' 0 ∧ resized B b (bsz k + bsz nk + 8) B' ∧
    (∀ P, pools P B → pools P B') ∧ same st st' (user B).
Proof.
  intros H Hco Hb Hf Hk Hn Hnf. pose proof (ho_layout _ _ _ _ H) as Hly.
  destruct (used_size B b k Hly Hb Hk) as (Hkr & Hk8 & Hb0 & Hbr & Hb8).
  destruct (free_size B _ nk Hly Hn Hnf) as (Hnr & _ & Hn0 & _).
  destruct (ly_next B Hly _ nk Hn ltac:(lia)) as (n2k & Hn2 & _).
  destruct (block_remove_ok st B L ∅ _ nk H Hn Hnf ltac:(set_solver))
    as (st1 & L1 & Hr1 & H1 & Hsm1). rewrite (right_id_L ∅ (∪)) in H1.
  eexists _, L1, (grown b k nk n2k B). split_and!.
  - unfold block_merge_next. rewrite bind_assoc.
    run (block_next_word st b _ _ _ (word_at st B L _ b k H Hb) ltac:(lia) Hk8 ltac:(lia) ltac:(lia)
      ltac:(lia)). change (b + bsz k + 8) with (nxt b k).
    rewrite bind_assoc, bind_assert by (apply negb_true_iff, Z.eqb_neq; lia). rewrite bind_assoc.
    run (block_is_free_at st B L _ _ nk H Hn). rewrite Hnf. rewrite bind_assoc.
    run (block_is_last_at st B L _ b k H Hb).
    rewrite bind_assoc, bind_assert by (apply negb_true_iff, Z.eqb_neq; lia).
    rewrite bind_assoc. run Hr1. by apply (grown_run st1 B L1 b k nk n2k).
  - by apply grown_ok.
  - by apply (grown_coalesced st1 B L1).
  - by apply (grown_resized st1 B L1).
  - intros P. by apply (grown_pools st1 B L1).
  - eapply same_trans; [exact Hsm1|by apply (block_grown_same st1 B L1)].
Qed.

(** ** Copying *)

(** Memory that is not the allocator's may be written. *)
Lemma user_write_ok st B L X h' :
  heap_ok st B L X → (∀ a, user B a ∧ ¬ ctl_cell (ctl st) a ∨ h' !! a = heap st !! a) →
  (∀ a, is_Some (heap st !! a) → is_Some (h' !! a)) → heap_ok (set_heap h' st) B L X.
Proof.
  intros H Hu Hm. pose proof (ho_layout _ _ _ _ H) as Hly. destruct (ho_memory _ _ _ _ H) as [M1 M2 M3].
  assert (Hl : ∀ a, link_cell B (ctl st) a → h' !! a = heap st !! a).
  { intros a Ha. destruct (Hu a) as [[Hua Hz]|]; [|done]. by destruct (user_links st B L X a H Hua Hz). }
  split; [done| | |apply (ho_listed _ _ _ _ H)|apply (ho_ctl _ _ _ _ H)].
  - change (memory_ok h' B). split.
    + intros b k Hb. destruct (Hu (size b)) as [[Ha _]| ->];
        [by destruct (size_not_user B _ b k Hly Hb eq_refl)|by apply M1].
    + intros b k Hb Hf. destruct (Hu (nxt b k)) as [[Ha _]| ->];
        [by destruct (link_not_user B _ b k Hly Hb Hf eq_refl)|by apply M2].
    + intros b k a Hb Ha Hal. by apply Hm, (M3 b k).
  - apply lists_ok_heap; [apply (ho_lists _ _ _ _ H)|intros a Ha; apply Hl; by left|].
    intros c b Hc Hb. split; apply Hl; eapply listed_link; eauto.
Qed.

(** The first [n] bytes at [dst] are those that were at [src]. *)
Definition copied (h : mem) (dst src n : Z) (h' : mem) : Prop :=
  (∀ i, 0 ≤ i < n / 8 → h' !! (dst + 8 * i) = h !! (src + 8 * i)) ∧
  (n mod 8 ≠ 0 → ∃ v w, h !! (src + 8 * (n / 8)) = Some v ∧ h' !! (dst + 8 * (n / 8)) = Some w ∧
    Z.land w (Z.ones (8 * (n mod 8))) = Z.land v (Z.ones (8 * (n mod 8)))).

Lemma copy_words_run m dst src st :
  (∀ i, 0 ≤ i < Z.of_nat m → is_Some (heap st !! (src + 8 * i)) ∧
    is_Some (heap st !! (dst + 8 * i))) → src + 8 * Z.of_nat m ≤ dst ∨ dst + 8 * Z.of_nat m ≤ src →
  ∃ h', copy_words m dst src st = (Ok tt, set_heap h' st) ∧
    (∀ i, 0 ≤ i < Z.of_nat m → h' !! (dst + 8 * i) = heap st !! (src + 8 * i)) ∧
    (∀ a, ¬ (dst ≤ a < dst + 8 * Z.of_nat m) → h' !! a = heap st !! a) ∧
      (∀ a, is_Some (heap st !! a) → is_Some (h' !! a)).
Proof.
  revert dst src st. induction m as [|m IH]; intros dst src st Hm Hd;
    [exists (heap st); rewrite set_heap_heap; split_and!; try done; lia|].
  destruct (Hm 0 ltac:(lia)) as [[v Hv] Hw]. rewrite Z.mul_0_r, Z.add_0_r in Hv, Hw.
  set (st1 := set_heap (<[dst := v]> (heap st)) st).
  assert (Hmap1 : ∀ a, is_Some (heap st !! a) → is_Some (heap st1 !! a)) by (intros a Ha; cbn;
    rewrite lookup_insert_is_Some'; auto).
  destruct (IH (dst + 8) (src + 8) st1) as (h' & Hr & Hc & Ho & Hmp); [|lia|].
  { intros i Hi. replace (src + 8 + 8 * i) with (src + 8 * (i + 1)) by lia.
      replace (dst + 8 + 8 * i) with (dst + 8 * (i + 1)) by lia. destruct (Hm (i + 1) ltac:(lia)).
    auto. }
  exists h'. split_and!.
  - cbn [copy_words].
    rewrite bind_ok with (a := v) (s' := st) by (by apply (read_ok (λ x, x) src v st)).
    rewrite bind_ok with (a := tt) (s' := st1) by (by apply (write_ok (λ x, x) dst v st)).
    change Prelude.word_size with 8. exact Hr.
  - intros i Hi. destruct (decide (i = 0)) as [->|].
    + rewrite Z.mul_0_r, !Z.add_0_r, Ho by lia. cbn. by rewrite lookup_insert_eq.
    + replace (dst + 8 * i) with (dst + 8 + 8 * (i - 1)) by lia. rewrite Hc by lia. cbn.
      rewrite lookup_insert_ne by lia. by replace (src + 8 + 8 * (i - 1)) with (src + 8 * i) by lia.
  - intros a Ha. rewrite Ho by lia. cbn. by rewrite lookup_insert_ne by lia.
  - auto.
Qed.
Lemma low_bytes v w k : 0 ≤ k →
    Z.land (Z.lor (Z.land v (Z.ones k)) (Z.ldiff w (Z.ones k))) (Z.ones k) = Z.land v (Z.ones k).
Proof.
  intros Hk. apply Z.bits_inj'. intros n Hn.
  rewrite !Z.land_spec, Z.lor_spec, Z.land_spec, Z.ldiff_spec.
  destruct (Z.testbit v n), (Z.testbit w n), (Z.testbit (Z.ones k) n); done.
Qed.
Lemma memcpy_run dst src n st :
  0 ≤ n → (∀ i, 0 ≤ i → 8 * i < n → is_Some (heap st !! (src + 8 * i)) ∧
    is_Some (heap st !! (dst + 8 * i))) → src + n + 8 ≤ dst ∨ dst + n + 8 ≤ src →
  ∃ h', memcpy dst src n st = (Ok tt, set_heap h' st) ∧ copied (heap st) dst src n h' ∧
    (∀ a, ¬ (dst ≤ a < dst + n) → h' !! a = heap st !! a) ∧
    (∀ a, is_Some (heap st !! a) → is_Some (h' !! a)).
Proof.
  intros Hn Hm Hd. pose proof (Z.div_mod n 8 ltac:(lia)) as Hdm.
  pose proof (Z.mod_pos_bound n 8 ltac:(lia)) as Hmb.
  pose proof (Z.div_pos n 8 Hn ltac:(lia)) as Hq.
  destruct (copy_words_run (Z.to_nat (n / 8)) dst src st) as (h1 & Hr & Hc & Ho & Hmp);
    [intros i Hi; apply Hm; lia|lia|]. rewrite Z2Nat.id in Hc, Ho by lia.
  unfold memcpy. change Prelude.word_size with 8. run Hr. destruct (Z.eqb_spec (n mod 8) 0) as [Hz|Hz].
  - exists h1. split_and!; try done. intros a Ha. apply Ho. lia.
  - destruct (Hm (n / 8) ltac:(lia) ltac:(lia)) as [[v Hv] Hw%Hmp].
    assert (h1 !! (src + 8 * (n / 8)) = Some v) as Hv1 by (rewrite Ho; [done|lia]).
    destruct Hw as [w Hw].
    rewrite bind_ok with (a := v) (s' := set_heap h1 st) by (by apply (read_ok (λ x, x) _ v)).
    rewrite bind_ok with (a := w) (s' := set_heap h1 st) by (by apply (read_ok (λ x, x) _ w)).
    set (x := Z.lor _ _). exists (<[dst + 8 * (n / 8) := x]> h1). split_and!.
    + exact (write_ok (λ x, x) (dst + 8 * (n / 8)) x (set_heap h1 st) (ex_intro _ w Hw)).
    + split; [intros i Hi; rewrite lookup_insert_ne by lia; by apply Hc|]. intros _. exists v, x.
      split_and!; [done|apply lookup_insert_eq|]. unfold x. apply low_bytes. lia.
    + intros a Ha. rewrite lookup_insert_ne by lia. apply Ho. lia.
    + intros a Ha. rewrite lookup_insert_is_Some'. auto.
Qed.

(** ** Reallocation *)

Lemma in_use_facts B b s : layout B → in_use B b s → 24 ≤ s < 2 ^ 32 ∧ s mod 8 = 0 ∧ 0 < b ∧
    b + 16 + s < 2 ^ 63 ∧ b mod 8 = 0.
Proof. intros H [Hs (k & Hb & Hf & <-)]. by apply (used_size B b k). Qed.
Lemma in_use_mapped st B L X b s i : heap_ok st B L X → in_use B b s → 0 ≤ i → 8 * i < s →
    is_Some (heap st !! (b + 16 + 8 * i)).
Proof.
  intros H Hu Hi Hs.
  destruct (in_use_facts B b s (ho_layout _ _ _ _ H) Hu) as (_ & _ & _ & _ & Hb8).
  destruct Hu as [_ (k & Hb & _ & Hk)]. apply (mo_mapped _ _ (ho_memory _ _ _ _ H) b k);
    [done|lia|].
  rewrite Z.mul_comm, Z.mod_add, Z.add_mod, Hb8 by lia. done.
Qed.
Lemma in_use_apart B b s c t : layout B → in_use B b s → in_use B c t → b ≠ c → b + s + 8 ≤ c ∨
    c + t + 8 ≤ b.
Proof. intros H [_ (k & Hb & _ & <-)] [_ (m & Hc & _ & <-)] Hne.
  destruct (beside_block B b k c m H Hb Hc) as [->|[?|?]]; [done|unfold nxt in *; lia..]. Qed.
Lemma in_use_eq B b s t : in_use B b s → in_use B b t → s = t.
Proof. intros (_ & k & Hb & _ & <-) (_ & m & Hm & _ & <-). congruence. Qed.
Lemma copied_same h p n h' :
  0 ≤ n → (∀ a, p ≤ a < p + n → h' !! a = h !! a) →
    (∀ i, 0 ≤ i → 8 * i < n → is_Some (h !! (p + 8 * i))) → copied h p p n h'.
Proof.
  intros Hn He Hm. pose proof (Z.div_mod n 8 ltac:(lia)) as Hdm.
  pose proof (Z.mod_pos_bound n 8 ltac:(lia)) as Hmb.
  pose proof (Z.div_pos n 8 Hn ltac:(lia)) as Hq. split; [intros i Hi; apply He; lia|].
  intros Hr. destruct (Hm (n / 8)) as [v Hv]; [lia..|]. exists v, v. rewrite He by lia. done.
Qed.
(** What a reallocation of the piece of [s] bytes at [b] to [sz] bytes promises. *)
Definition moved (st : control) (B : blocks_map) (b s sz : Z) (st' : control) (B' :
    blocks_map) (b' : Z) : Prop :=
  ∃ s', sz ≤ s' ∧ (b' = b ∨ ∀ t, ¬ in_use B b' t) ∧ (∀ c t, in_use B' c t ↔ (c ≠ b ∧ in_use B c t) ∨
    (c = b' ∧ t = s')) ∧
    same st st' (others B b) ∧ copied (heap st) (b' + 16) (b + 16) (Z.min s sz) (heap st').

(** Trimming the block, after it has grown or not. *)
Lemma realloc_trim_ok st0 B0 L0 b s0 st B L s sz adjust :
  heap_ok st0 B0 L0 ∅ → in_use B0 b s0 → same st0 st (user B0) → heap_ok st B L ∅ → coalesced B 0 →
    resized B0 b s B → (∀ P, pools P B0 → pools P B) → in_use B b s →
  0 < sz ≤ adjust → 24 ≤ adjust → adjust mod 8 = 0 → adjust ≤ s →
  ∃ st' L' B', block_trim_used b adjust st = (Ok tt, st') ∧ heap_ok st' B' L' ∅ ∧ coalesced B' 0 ∧
    (∀ P, pools P B → pools P B') ∧ moved st0 B0 b s0 sz st' B' b.
Proof.
  intros H0 Hu0 [Hc0 Hs0] H Hco Hres HP0 Hu Hsz Ha Ha8 Hle.
  destruct (block_trim_used_ok st B L b s adjust H Hco Hu Ha Ha8 Hle)
    as (st' & L' & B' & s' & Hr & H' & Hco' & Hs' & _ & Hres' & HP & [Hc' Hsm]).
  destruct (in_use_facts B0 b s0 (ho_layout _ _ _ _ H0) Hu0) as (Hs0r & _).
  assert (Hin : ∀ c t, in_use B' c t ↔ (c ≠ b ∧ in_use B0 c t) ∨ (c = b ∧ t = s')) by (intros c t;
    rewrite (Hres' c t), (Hres c t); naive_solver).
  exists st', L', B'. split_and!; try done. exists s'. split_and!; [lia|by left|done| |].
  - split; [congruence|]. intros a Ho Hz. rewrite Hsm, Hs0; [done|by eapply others_user|done| |by rewrite Hc0].
    left. destruct Ho as [(c & t & Hc & Ht & Har)|(P & HP1 & Ho)]; [left|right; eauto].
    exists c, t. split; [done|]. split; [|done]. apply Hres. by left.
  - apply copied_same; [lia| |].
    + intros a Har. assert (Hz : ¬ ctl_cell (ctl st0) a) by (eapply in_use_not_ctl; [exact H0|exact Hu0|lia]).
      rewrite Hsm, Hs0; [done|apply (in_use_user B0 b s0); [done|lia]|done|right; lia|by rewrite Hc0].
    + intros i Hi Hlt. eapply in_use_mapped; [exact H0|exact Hu0|done|lia].
Qed.
(** Moving the piece: allocate, copy, free. *)
Lemma realloc_move_ok st B L b s sz adjust :
  heap_ok st B L ∅ → coalesced B 0 → in_use B b s → 0 < sz ≤ 2 ^ 32 - 8 →
    adjust_request_size sz ALIGN_SIZE = Ok adjust → s < adjust →
  let move := (let! p := tlsf_malloc sz in
               if negb (p =? 0) then memcpy p (b + 16) (Z.min s sz) ;;; tlsf_free (b + 16) ;;;
                 ret p else ret p) in
  move st = (Ok 0, st) ∨
  ∃ st' L' B' b', move st = (Ok (b' + 16), st') ∧ heap_ok st' B' L' ∅ ∧ coalesced B' 0 ∧
    (∀ P, pools P B → pools P B') ∧ moved st B b s sz st' B' b'.
Proof.
  intros H Hco Hu Hsz Hadj Hlt move. pose proof (ho_layout _ _ _ _ H) as Hly.
  destruct (tlsf_malloc_ok st B L sz adjust H Hco ltac:(lia) Hadj)
    as [[Hr _]|
    (st1 & L1 & B1 & b' & Hr & Hle & H1 & Hco1 & (s' & Hs' & Hfresh & Hin1) & HP1 & [Hc1 Hsm1])];
    [left|right].
  { unfold move. by run Hr. }
  pose proof (ho_layout _ _ _ _ H1) as Hly1. assert (Hne : b' ≠ b) by (intros ->; by eapply Hfresh).
  assert (Hu' : in_use B1 b' s') by (apply Hin1; by right).
  assert (Hub : in_use B1 b s) by (apply Hin1; by left).
  destruct (in_use_facts B b s Hly Hu) as (Hsr & _ & Hb0 & _).
  destruct (in_use_facts B1 b' s' Hly1 Hu') as (_ & _ & Hb'0 & _).
  pose proof (in_use_apart B1 b s b' s' Hly1 Hub Hu' (not_eq_sym Hne)) as Hap.
  destruct (memcpy_run (b' + 16) (b + 16) (Z.min s sz) st1) as (h2 & Hr2 & Hcp & Ho2 & Hmp2);
    [lia| |lia|].
  { intros i Hi Hlti. split; eapply in_use_mapped;
      [exact H1|exact Hub|done|lia|exact H1|exact Hu'|done|lia]. }
  assert (H2 : heap_ok (set_heap h2 st1) B1 L1 ∅).
  { apply user_write_ok; [done| |done]. intros a.
    destruct (decide (b' + 16 ≤ a < b' + 16 + Z.min s sz)); [left|right; by apply Ho2].
    split; [apply (in_use_user B1 b' s'); [done|lia]|]. eapply in_use_not_ctl; [exact H1|exact Hu'|lia]. }
  destruct (tlsf_free_ok (set_heap h2 st1) B1 L1 b s H2 Hco1 Hub)
    as (st3 & L3 & B3 & Hr3 & H3 & Hco3 & Hin3 & HP3 & [Hc3 Hsm3]).
  assert (Hin : ∀ c t, in_use B3 c t ↔ (c ≠ b ∧ in_use B c t) ∨ (c = b' ∧ t = s')) by (intros c t;
    rewrite Hin3, Hin1; naive_solver).
  exists st3, L3, B3, b'. split_and!; [|done|done|auto|].
  - unfold move. run Hr. rewrite (proj2 (Z.eqb_neq (b' + 16) 0)) by lia. cbn [negb]. run Hr2. by run Hr3.
  - exists s'. split_and!; [lia|by right|done| |].
    + split; [rewrite Hc3; exact Hc1|]. intros a Ho Hz. assert (Hz1 : ¬ ctl_cell (ctl st1) a) by (by rewrite Hc1).
      assert (others B1 b a ∧ ¬ (b' + 16 ≤ a < b' + 16 + s')) as [Ho1 Hnb].
      { destruct Ho as [(c & t & Hcb & Hct & Har)|(P & HP & Ho)].
        - assert (c ≠ b') by (intros ->; by eapply Hfresh). assert (in_use B1 c t) by (apply Hin1; by left).
          split; [left; eauto 6|]. destruct (in_use_apart B1 c t b' s' Hly1) as [?|?]; [done..|lia|lia].
        - apply HP1 in HP. split; [right; eauto|]. intros Har. destruct Hu' as (_ & k' & Hk' & _ & Hks').
          apply (pools_cell P B1 b' k' a); try done. lia. }
      rewrite Hsm3 by done. cbn. rewrite Ho2 by lia. apply Hsm1; [by eapply others_user|done].
    + assert (Heq : ∀ a, b' + 16 ≤ a < b' + 16 + s' → heap st3 !! a = h2 !! a).
      { intros a Har. apply Hsm3; [left; exists b', s'; auto|]. eapply in_use_not_ctl; [exact H2|exact Hu'|done]. }
      assert (Heq1 : ∀ a, b + 16 ≤ a < b + 16 + s → heap st1 !! a = heap st !! a).
      { intros a Har. apply Hsm1; [by apply (in_use_user B b s)|]. eapply in_use_not_ctl; [exact H|exact Hu|done]. }
      pose proof (Z.div_mod (Z.min s sz) 8 ltac:(lia)) as Hdm.
      pose proof (Z.mod_pos_bound (Z.min s sz) 8 ltac:(lia)) as Hmb.
      pose proof (Z.div_pos (Z.min s sz) 8 ltac:(lia) ltac:(lia)) as Hq.
      destruct Hcp as [Hcp1 Hcp2]. split.
      * intros i Hi. rewrite Heq by lia. rewrite Hcp1 by done. apply Heq1. lia.
      * intros Hr0. destruct (Hcp2 Hr0) as (v & w & Hv & Hw & Hvw). exists v, w. rewrite Heq by lia.
        rewrite Heq1 in Hv by lia. done.
Qed.

Lemma tlsf_realloc_ok st B L b s sz :
  heap_ok st B L ∅ → coalesced B 0 → in_use B b s → 0 < sz ≤ 2 ^ 32 - 8 →
  tlsf_realloc (b + 16) sz st = (Ok 0, st) ∨
  ∃ st' L' B' b', tlsf_realloc (b + 16) sz st = (Ok (b' + 16), st') ∧ heap_ok st' B' L' ∅ ∧
    coalesced B' 0 ∧ (∀ P, pools P B → pools P B') ∧ moved st B b s sz st' B' b'.
Proof.
  intros H Hco Hu Hsz. pose proof Hu as [_ (k & Hb & Hf & Hks)].
  pose proof (ho_layout _ _ _ _ H) as Hly.
  destruct (in_use_facts B b s Hly Hu) as (Hsr & Hs8 & Hb0 & Hbr & Hb8).
  destruct (ly_next B Hly b k Hb ltac:(lia)) as (n & Hn & Hnpf & _).
  destruct (adjust_request_ok sz ltac:(lia)) as (adjust & Hadj & Hcase & Hnz). specialize (Hnz Hsz).
  destruct Hcase as [?|(Hsa & _ & Ha8 & Har)]; [done|].
  destruct (size_range B _ n Hly Hn) as [Hnr _]. destruct (ly_range B Hly _ n Hn) as (_ & Hnr2 & _).
  remember (tlsf_realloc (b + 16) sz st) as res eqn:Hres. unfold tlsf_realloc in Hres.
  rewrite (proj2 (Z.eqb_neq (b + 16) 0)), (proj2 (Z.eqb_neq sz 0)) in Hres by lia.
  cbn [negb andb] in Hres.
  assert (block_from_ptr (b + 16) = b) as Hp by (unfold block_from_ptr, block_start_offset;
    rewrite u64_small by lia; lia). cbv zeta in Hres. rewrite Hp in Hres.
  rewrite (bind_ok _ _ _ _ _ (block_next_word st b _ _ _ (word_at st B L _ b k H Hb) ltac:(lia)
    ltac:(by rewrite Hks) ltac:(lia) ltac:(lia) ltac:(lia))) in Hres.
    change (b + bsz k + 8) with (nxt b k) in Hres.
  rewrite (bind_ok _ _ _ _ _ (block_size_at st B L _ b k H Hb)),
    (bind_ok _ _ _ _ _ (block_size_at st B L _ _ n H Hn)) in Hres.
  rewrite bind_ok with (a := adjust) (s' := st) in Hres by (unfold lift; by rewrite Hadj).
  rewrite (bind_ok _ _ _ _ _ (block_is_free_at st B L _ b k H Hb)), Hf, bind_assert in Hres by done.
  rewrite (bind_ok _ _ _ _ _ (block_is_free_at st B L _ _ n H Hn)) in Hres.
  unfold block_header_overhead in Hres. rewrite u64_small in Hres by (unfold nxt in *; lia).
  rewrite Hks in Hres.
  assert (Htrim : ∀ st1 B1 L1 s1, heap_ok st1 B1 L1 ∅ → coalesced B1 0 → resized B b s1 B1 →
    in_use B1 b s1 → same st st1 (user B) → adjust ≤ s1 → (∀ P, pools P B → pools P B1) →
    (block_trim_used b adjust ;;; ret (b + 16)) st1 = res →
      ∃ st' L' B' b', res = (Ok (b' + 16), st') ∧ heap_ok st' B' L' ∅ ∧ coalesced B' 0 ∧
      (∀ P, pools P B → pools P B') ∧ moved st B b s sz st' B' b').
  { intros st1 B1 L1 s1 H1 Hco1 Hres1 Hu1 Hsm1 Hle1 HP1 Hr1.
      destruct (realloc_trim_ok st B L b s st1 B1 L1 s1 sz adjust H Hu Hsm1 H1 Hco1 Hres1 HP1 Hu1)
      as (st2 & L2 & B2 & Hr2 & H2 & Hco2 & HP2 & Hmv); [lia|lia|done|done|].
    exists st2, L2, B2, b. split_and!; try done; [|auto]. rewrite <-Hr1. by run Hr2. }
  destruct (Z.ltb_spec s adjust) as [Hlt|Hge]; cbn [andb] in Hres.
  - destruct (negb (bfree n) || (s + bsz n + 8 <? adjust)) eqn:Hc.
    + rewrite Hres. by apply (realloc_move_ok st B L b s sz adjust).
    + apply orb_false_iff in Hc as [Hnf%negb_false_iff Hcomb%Z.ltb_ge]. right.
      destruct (block_grow_ok st B L b k n H Hco Hb Hf ltac:(lia) Hn Hnf)
        as (st1 & L1 & B1 & Hr1 & H1 & Hco1 & Hres1 & HP1 & Hsm1).
      rewrite (bind_ok _ _ _ _ _ Hr1) in Hres. rewrite Hks in Hres1.
      apply (Htrim st1 B1 L1 (s + bsz n + 8)); try done. apply Hres1. by right.
  - right. rewrite bind_ret_l in Hres. apply (Htrim st B L s); try done. by apply resized_same.
Qed.
End TlsfRealloc.
