(* ===== verification/TlsfSession.v ===== *)
(** * TLSF: pools and sessions

    The interface of the allocator (detail/impl/tlsf.ipp) on top of TlsfHeap.v: creating the
    control structure, adding a pool, and what a client may rely on over a whole session of
    allocations, aligned allocations, reallocations and frees. *)

From S2P Require Import Prelude.
From S2P Require Import TlsfBits.
From S2P Require Import TlsfOps.
From S2P Require Import TlsfLists.
From S2P Require Import TlsfHeap.
From S2P Require Import TlsfRealloc.

Local Open Scope Z_scope.
Local Open Scope gpcl_scope.

Module TlsfSession.
Import Tlsf TlsfAlloc FreeLists TlsfHeap TlsfRealloc.

(** ** Adding a pool *)

(** The pool at [base] with a block of [ps] bytes and the sentinel behind it. *)
Definition with_pool (base ps : Z) (B : blocks_map) : blocks_map :=
  <[base + ps := Blk 0 false true (base + ps)]> (<[base - 8 := Blk ps true false (base + ps)]> B).

Section add_pool.
Context (st : control) (B : blocks_map) (L : lists) (base ps : Z).
Context (H : heap_ok st B L ∅) (Hps : 24 ≤ ps < 2 ^ 32) (Hps8 : ps mod 8 = 0).
Context (Hm8 : base mod 8 = 0) (Hmem : 8 < base) (Hend : base + ps + 16 < 2 ^ 63).
Context (Hmapped : ∀ a, base ≤ a < base + ps + 16 → a mod 8 = 0 → is_Some (heap st !! a)).
Context (Hapart : ∀ b k, B !! b = Some k → b + 16 + bsz k ≤ base ∨ base + ps + 8 ≤ b).
Context (Hctl : ctl st + 40 ≤ base ∨ base + ps + 16 ≤ ctl st).
Let Hly : layout B := ho_layout _ _ _ _ H.
Let b : Z := base - 8.
Let n : Z := base + ps.

Lemma pool_lookup c m :
  with_pool base ps B !! c = Some m ↔
  c = b ∧ m = Blk ps true false n ∨ c = n ∧ m = Blk 0 false true n ∨ B !! c = Some m.
Proof.
  unfold with_pool. fold b n. rewrite !lookup_insert_Some.
  split; [intros [[<- <-]|[_ [[<- <-]|[_ Hc]]]]; auto|]. intros [[-> ->]|[[-> ->]|Hc]].
  - right. split; [unfold b, n; lia|]. by left.
  - by left.
  - destruct (size_range B c m Hly Hc). destruct (Hapart c m Hc); right; (split; [unfold n; lia|]);
      right; (split; [unfold b; lia|done]).
Qed.
Lemma layout_pool : layout (with_pool base ps B).
Proof.
  destruct (Hly) as [H1 H2 H3 H4 H5 H6 H7].
  assert (Hn8 : n mod 8 = 0) by (unfold n; rewrite Z.add_mod, Hm8, Hps8 by lia; done).
  assert (Hb8 : b mod 8 = 0) by (unfold b; rewrite Zminus_mod, Hm8; done).
  assert (Hbn : nxt b (Blk ps true false n) = n) by (unfold nxt, b, n; cbn; lia). split.
  - intros c m [[-> ->]|[[-> ->]|Hc]]%pool_lookup;
      [unfold b in *; cbn; lia|unfold n in *; cbn; lia|by apply H1].
  - intros c m [[-> ->]|[[-> ->]|Hc]]%pool_lookup; [cbn; lia|cbn; auto|by apply (H2 c m)].
  - intros c m [[-> ->]|[[-> ->]|Hc]]%pool_lookup Hs; [unfold nxt, b, n; cbn; lia|done|by apply H3].
  - intros c m [[-> ->]|[[-> ->]|Hc]]%pool_lookup Hs; [|done|].
    + eexists. split; [rewrite Hbn; apply pool_lookup; auto|done].
    + destruct (H4 c m Hc Hs) as (l & Hl & ?). exists l. split; [apply pool_lookup; auto|done].
  - intros c m [[-> ->]|[[-> ->]|Hc]]%pool_lookup Hpf; [done| |].
    + eexists b, _. split; [apply pool_lookup; auto|]. done.
    + destruct (H5 c m Hc Hpf) as (p & q & Hp & ?). exists p, q. split; [apply pool_lookup; auto|done].
  - intros c m d l [[-> ->]|[[-> ->]|Hc]]%pool_lookup [[-> ->]|[[-> ->]|Hd]]%pool_lookup Hlt;
      unfold nxt, b, n in *; cbn; try lia.
    + destruct (Hapart d l Hd), (size_range B d l Hly Hd); lia.
    + destruct (Hapart d l Hd), (size_range B d l Hly Hd); lia.
    + destruct (Hapart c m Hc), (size_range B c m Hly Hc); lia.
    + destruct (Hapart c m Hc), (size_range B c m Hly Hc); lia.
    + by apply (H6 c m d l).
  - intros c m [[-> ->]|[[-> ->]|Hc]]%pool_lookup Hs; [cbn in Hs; lia|done|by apply H7].
Qed.
Lemma pool_in_use c t : in_use (with_pool base ps B) c t ↔ in_use B c t.
Proof.
  split; intros [Ht (m & Hm & Hf & Hs)]; (split; [done|]).
  - apply pool_lookup in Hm as [[-> ->]|[[-> ->]|Hm]]; [done|by cbn in Hs|eauto].
  - exists m. split; [apply pool_lookup; auto|done].
Qed.
Lemma pool_coalesced : coalesced B 0 → coalesced (with_pool base ps B) 0.
Proof.
  intros Hco c m l [[-> ->]|[[-> ->]|Hc]]%pool_lookup Hf Hl Hlf; [|done|].
  - replace (nxt b (Blk ps true false n)) with n in * by (unfold nxt, b, n; cbn; lia).
    apply pool_lookup in Hl as [[? _]|[[_ ->]|Hl]]; [unfold b, n in *; lia|done|].
    destruct (Hapart _ l Hl), (size_range B _ l Hly Hl); unfold n in *; lia.
  - destruct (free_size B c m Hly Hc Hf) as [? _].
    destruct (ly_next B Hly c m Hc ltac:(lia)) as (l' & Hl' & _).
    apply pool_lookup in Hl as [[Heq _]|[[Heq _]|Hl]]; [| |by apply (Hco c m l)].
    + rewrite Heq in Hl'. destruct (Hapart _ l' Hl'), (size_range B _ l' Hly Hl'); unfold b in *; lia.
    + rewrite Heq in Hl'. destruct (Hapart _ l' Hl'), (size_range B _ l' Hly Hl'); unfold n in *; lia.
Qed.
Lemma pool_pools P : pools P B → pools ((b, n) :: P) (with_pool base ps B).
Proof.
  intros [HP Hin]. split.
  2: { intros c m [[-> ->]|[[-> ->]|Hc]]%pool_lookup;
         [exists b; split; [left|lia]|exists b; split; [left|unfold b, n; lia]|].
       destruct (Hin c m Hc) as (s & ? & ?). exists s. split; [by right|done]. }
  intros s e [[= -> ->]|Hse]%elem_of_cons.
  - split; [eexists; split; [apply pool_lookup; auto|]; cbn; lia|].
    intros c m [[-> ->]|[[-> ->]|Hc]]%pool_lookup Hm; [unfold nxt, b; cbn; lia|done|].
    destruct (ly_next B Hly c m Hc Hm) as (l & Hl & _). intros Heq. rewrite Heq in Hl.
    destruct (Hapart _ l Hl), (size_range B _ l Hly Hl); unfold b in *; lia.
  - destruct (HP s e Hse) as [(k & Hk & Hk0 & He) Hno].
    split; [exists k; split; [apply pool_lookup; auto|done]|].
    intros c m [[-> ->]|[[-> ->]|Hc]]%pool_lookup Hm; [|done|by apply Hno].
    intros Heq. destruct (Hapart s k Hk), (size_range B s k Hly Hk); unfold nxt, b in *; cbn in *; lia.
Qed.

(** The headers of the block are written, the block is filed, then the sentinel is written. *)
Let cl : Z * Z := mapping_insert ps.
Let st1 : control := set_word b (word ps true false) st.
Let h2 : mem := heap (inserted st1 cl b).
Let h' : mem := <[size n := word 0 false true]> (<[n := b]> h2).

Lemma pool_class : class_ok cl.
Proof. apply tlsf_mapping_insert_spec. lia. Qed.
(** Cells of other blocks are outside the pool. *)
Lemma link_outside a : link_cell B (ctl st) a → a < base ∨ base + ps + 16 ≤ a.
Proof.
  intros [Hz|(c & m & Hc & Hf & Ha)]; unfold next_free, prev_free in *; [lia|].
  destruct (free_size B c m Hly Hc Hf) as [? _]. destruct (Hapart c m Hc); lia.
Qed.
Lemma pool_lists1 : lists_ok st1 L.
Proof.
  apply lists_ok_heap; [apply (ho_lists _ _ _ _ H)| |].
  - intros a Ha. rewrite lookup_insert_ne; [done|].
    assert (link_cell B (ctl st) a) as Hl%link_outside by (by left). unfold size, b. lia.
  - intros c x Hc Hx. split; (rewrite lookup_insert_ne; [done|]).
    + pose proof (listed_link st B L ∅ c x (prev_free x) H Hc Hx ltac:(auto)) as Hl%link_outside.
      unfold size, b. lia.
    + pose proof (listed_link st B L ∅ c x (next_free x) H Hc Hx ltac:(auto)) as Hl%link_outside.
      unfold size, b. lia.
Qed.
Lemma pool_fresh : fresh st1 L b.
Proof.
  assert (Hc : ∀ d, (base + d) mod 8 = 0 ↔ d mod 8 = 0) by (intros d;
    rewrite Z.add_mod, Hm8, Z.add_0_l, Z.mod_mod by lia; done). split.
  - unfold b. lia.
  - unfold b. rewrite Zminus_mod, Hm8. done.
  - cbn. rewrite lookup_insert_is_Some'. right. apply Hmapped; unfold next_free, b; [lia|].
    replace (base - 8 + 16) with (base + 8) by lia. by apply Hc.
  - cbn. rewrite lookup_insert_is_Some'. right. apply Hmapped; unfold prev_free, b; [lia|].
    replace (base - 8 + 24) with (base + 16) by lia. by apply Hc.
  - unfold far, b. cbn. lia.
  - intros c a Hc' Ha. apply (ho_listed _ _ _ _ H) in Ha as (m & Hm & Hf & _); [|done].
    destruct (free_size B a m Hly Hm Hf) as [? _]. destruct (Hapart a m Hm); unfold far, b; lia.
Qed.
Lemma pool_head : ∃ cur, head_at st1 cl = Some cur ∧ link_cell B (ctl st) (prev_free cur).
Proof.
  exists (hd (ctl st) (L cl)). split; [apply (lo_head _ _ pool_lists1 cl pool_class)|].
  destruct (hd_cases L cl (ctl st)) as [[_ ->]|(x & l & Hl & ->)]; [left; by right|].
  apply (listed_link st B L ∅ cl x _ H pool_class); [rewrite Hl; by left|by right].
Qed.
Lemma pool_cells a : (a < base ∨ base + ps + 16 ≤ a) → ¬ link_cell B (ctl st) a → h' !! a = heap st !! a.
Proof.
  intros Ha Hl. destruct pool_head as (cur & Hcur & Hlc). unfold h', h2, inserted. cbn [heap].
  rewrite Hcur. change (default 0 (Some cur)) with cur. unfold st1, set_word. cbn [heap set_heap].
  rewrite !lookup_insert_ne; [done|..]; try (unfold size, n, b, next_free, prev_free; lia).
  intros <-. done.
Qed.
Lemma pool_mapped a : is_Some (heap st !! a) → is_Some (h' !! a).
Proof. intros Ha. unfold h', h2, inserted. cbn [heap]. cbn. rewrite !lookup_insert_is_Some'.
  auto 10. Qed.
Lemma pool_memory : memory_ok h' (with_pool base ps B).
Proof.
  destruct (ho_memory _ _ _ _ H) as [M1 M2 M3]. destruct pool_head as (cur & Hcur & Hlc).
  pose proof (link_outside _ Hlc) as Hout. split.
  - intros c m [[-> ->]|[[-> ->]|Hc]]%pool_lookup.
    + unfold h', h2, inserted. cbn [heap]. rewrite Hcur. change (default 0 (Some cur)) with cur.
      unfold st1, set_word. cbn [heap set_heap].
      assert (size b = base) as -> by (unfold size, b; lia).
      rewrite !lookup_insert_ne by (unfold size, n, b, next_free, prev_free in Hout |- *; lia).
      apply lookup_insert_eq.
    + unfold h'. by rewrite lookup_insert_eq.
    + destruct (size_range B c m Hly Hc).
      rewrite pool_cells; [by apply M1|destruct (Hapart c m Hc); unfold size; lia|]. intros Hl.
      destruct (link_cell_apart st B L ∅ c m (size c) H Hc) as [_ ?]; [unfold size; lia|done|].
      unfold size, next_free, prev_free in *. lia.
  - intros c m [[-> ->]|[[-> ->]|Hc]]%pool_lookup Hf; [|done|].
    + replace (nxt b _) with n by (unfold nxt, b, n; cbn; lia). unfold h'.
      rewrite lookup_insert_ne by (unfold size; lia). apply lookup_insert_eq.
    + destruct (free_size B c m Hly Hc Hf) as [? _].
      rewrite pool_cells; [by apply M2|destruct (Hapart c m Hc); unfold nxt; lia|]. intros Hl.
      destruct (link_cell_apart st B L ∅ c m (nxt c m) H Hc) as [_ ?]; [unfold nxt; lia|done|].
      unfold nxt, next_free, prev_free in *. lia.
  - intros c m a [[-> ->]|[[-> ->]|Hc]]%pool_lookup Ha Ha8; apply pool_mapped;
      [apply Hmapped; [unfold b, n in *; cbn in Ha; lia|done]..|by apply (M3 c m)].
Qed.
Lemma pool_heap_ok :
    heap_ok (set_heap h' (inserted st1 cl b)) (with_pool base ps B) (upd cl (b :: L cl) L) ∅.
Proof.
  split; [apply layout_pool|apply pool_memory| | |].
  - assert (Hne : ∀ a, link_cell B (ctl st) a ∨ a = next_free b ∨ a = prev_free b → h' !! a = h2 !! a).
    { intros a Ha. unfold h'. rewrite !lookup_insert_ne; [done|..];
        destruct Ha as [Hl%link_outside|Ha]; unfold size, n, b, next_free, prev_free in *; lia. }
    apply lists_ok_heap; [apply inserted_ok; [apply pool_lists1|apply pool_fresh|apply pool_class]| |].
    + intros a Ha. apply Hne. left. by left.
    + intros c x Hc Hx. assert (∀ a, a = prev_free x ∨ a = next_free x → h' !! a = h2 !! a) as Hx';
        [|auto]. intros a Ha. apply Hne. unfold upd in Hx.
      case_decide; [subst c; apply elem_of_cons in Hx as [->|Hx]; [tauto|]|]; left;
        eapply (listed_link st B L ∅); eauto; tauto.
  - intros c x Hc. pose proof (ho_listed _ _ _ _ H c x Hc) as Hl.
    assert (Hold : (∃ k, B !! x = Some k ∧ bfree k = true ∧ (x ∉ (∅ : gset Z)) ∧
      mapping_insert (bsz k) = c) ↔ (x ∈ L c)) by (by rewrite Hl).
    assert (x ∈ upd cl (b :: L cl) L c ↔ x = b ∧ c = cl ∨ x ∈ L c) as -> by (unfold upd;
      case_decide; [subst c; rewrite elem_of_cons|]; naive_solver). rewrite Hl. split.
    + intros [[-> ->]|(k & Hk & ?)]; [eexists; split; [apply pool_lookup; auto|]; done|]. exists k.
      split; [apply pool_lookup; auto|done].
    + intros (k & [[-> ->]|[[-> ->]|Hk]]%pool_lookup & Hf & HX & Hm);
        [left; split; [done|by rewrite <-Hm]|done|right; eauto].
  - intros c m [[-> ->]|[[-> ->]|Hc]]%pool_lookup;
      [unfold b, n; cbn; lia|unfold n; cbn; lia|by apply (ho_ctl _ _ _ _ H c m)].
Qed.
Lemma pool_same :
  same st (set_heap h' (inserted st1 cl b)) (λ a, user B a ∧ (a < base ∨ base + ps + 16 ≤ a)).
Proof. split; [done|]. intros a [Ha Hout] Hz. apply pool_cells; [done|by eapply user_links]. Qed.

Lemma pool_run bytes :
  align_down (u64 (bytes - tlsf_pool_overhead)) ALIGN_SIZE = Ok ps →
  tlsf_add_pool base bytes st = (Ok base, set_heap h' (inserted st1 cl b)).
Proof.
  intros Hd. assert (Hmb : ∀ d, d mod 8 = 0 → 0 ≤ d < ps + 16 → is_Some (heap st !! (base + d)))
    by (intros d Hd8 Hdr; apply Hmapped; [lia|]; rewrite Z.add_mod, Hm8, Hd8 by lia; done).
  unfold tlsf_add_pool. rewrite bind_ok with (a := ps) (s' := st) by (unfold lift; by rewrite Hd).
  assert (i64 base mod ALIGN_SIZE = 0) as -> by (unfold i64; rewrite sint_small by lia; done).
  cbn [Z.eqb negb]. change block_size_min with 24. change block_size_max with (2 ^ 32).
  rewrite (proj2 (Z.ltb_ge ps 24)), (proj2 (Z.ltb_ge (2 ^ 32) ps)) by lia. cbn [orb].
  assert (offset_to_block base (- block_header_overhead) = b) as ->
    by (unfold offset_to_block, block_header_overhead, b; rewrite u64_small by lia; lia).
  assert (size b = base) as Hsb by (unfold size, b; lia).
  destruct (Hmb 0 eq_refl ltac:(lia)) as [v Hv]. rewrite Z.add_0_r in Hv.
  run (block_set_size_run st b v ps ltac:(by rewrite Hsb)).
  destruct (word_of_garbage ps v Hps8) as (f & p & ->).
  erewrite bind_ok; [|apply (set_free_word _ b ps f p); [apply set_word_size|done]].
  erewrite bind_ok; [|apply (set_prev_used_word _ b ps true p); [apply set_word_size|lia|done]].
  assert (set_word b (word ps true false)
    (set_word b (word ps true p) (set_word b (word ps f p) st)) = st1) as ->.
  { unfold st1, set_word, set_heap. cbn. f_equal. by rewrite !insert_insert_eq. }
  unfold block_insert. rewrite bind_assoc.
  erewrite bind_ok; [|apply (block_size_word _ b ps true false); [apply set_word_size|lia|done]].
  pose proof (insert_free_block_run st1 L b cl.1 cl.2 pool_lists1 pool_fresh) as Hins.
  rewrite <-(surjective_pairing cl) in Hins. specialize (Hins pool_class). unfold cl in Hins.
  rewrite (surjective_pairing (mapping_insert ps)). cbv iota. run Hins. fold cl.
  destruct pool_head as (cur & Hcur & Hlc). pose proof (link_outside _ Hlc) as Hout.
  assert (Hbn : b + ps + 8 = n) by (unfold b, n; lia). assert (Hnl : is_Some (h2 !! n)).
  { unfold h2, inserted. cbn. rewrite !lookup_insert_is_Some'. do 4 right. by apply Hmb; [|lia]. }
  assert (Hwb : h2 !! size b = Some (word ps true false)).
  { pose proof (mo_word _ _ pool_memory b (Blk ps true false n) ltac:(apply pool_lookup; auto))
      as Hw. unfold h' in Hw. by rewrite !lookup_insert_ne in Hw by (unfold size, n, b; lia). }
  erewrite bind_ok; [|apply (block_link_next_word (inserted st1 cl b) b ps true false Hwb);
    [lia|done|lia|unfold b; lia|unfold b; lia|by rewrite Hbn]]. rewrite Hbn. fold h2.
  assert (is_Some ((<[n := b]> h2) !! size n)) as [w Hw].
  { unfold h2, inserted. cbn. rewrite !lookup_insert_is_Some'. do 5 right. unfold size, n.
      rewrite <-Z.add_assoc. apply Hmb; [|lia]. rewrite Z.add_mod, Hps8 by lia. done. }
  run (block_set_size_run (set_heap (<[n := b]> h2) (inserted st1 cl b)) n w 0 Hw).
  destruct (word_of_garbage 0 w eq_refl) as (f' & p' & ->).
  erewrite bind_ok; [|apply (set_used_word _ n 0 f' p'); [apply set_word_size|lia|done]].
  erewrite bind_ok; [|apply (set_prev_free_word _ n 0 false p'); [apply set_word_size|done]].
  unfold ret. do 2 f_equal. unfold set_word, set_heap, h'. cbn. f_equal. by rewrite !insert_insert_eq.
Qed.
End add_pool.

Lemma align_down_8 x : 0 ≤ x < 2 ^ 64 → align_down x ALIGN_SIZE = Ok (8 * (x / 8)).
Proof.
  intros Hx. unfold align_down. change (is_pow2_mask ALIGN_SIZE) with true. cbv iota.
  change (u64 (ALIGN_SIZE - 1)) with (Z.ones 3). rewrite Z.land_ones by lia. f_equal.
  pose proof (Z.div_mod x 8). pose proof (Z.mod_pos_bound x 8). change (2 ^ 3) with 8.
  rewrite u64_small by lia. lia.
Qed.

(** Room for a pool of [bytes] bytes at [base]. *)
Record room (st : control) (B : blocks_map) (base bytes : Z) : Prop := {
  rm_align : base mod 8 = 0;
  rm_bytes : 40 ≤ bytes < 2 ^ 32 + 16;
  rm_range : 8 < base ∧ base + bytes < 2 ^ 63;
  rm_mapped a : base ≤ a < base + bytes → a mod 8 = 0 → is_Some (heap st !! a);
  rm_apart b k : B !! b = Some k → b + 16 + bsz k ≤ base ∨ base + bytes ≤ b + 8;
  rm_ctl : ctl st + 40 ≤ base ∨ base + bytes ≤ ctl st;
}.
Definition pool_bytes (bytes : Z) : Z := 8 * ((bytes - 16) / 8).
Lemma tlsf_add_pool_ok st B L base bytes :
  heap_ok st B L ∅ → coalesced B 0 → room st B base bytes → let ps := pool_bytes bytes in
  ∃ st' L', tlsf_add_pool base bytes st = (Ok base, st') ∧ heap_ok st' (with_pool base ps B) L' ∅ ∧
    coalesced (with_pool base ps B) 0 ∧
    (∀ c t, in_use (with_pool base ps B) c t ↔ in_use B c t) ∧
      (∀ P, pools P B → pools ((base - 8, base + ps) :: P) (with_pool base ps B)) ∧
    same st st' (λ a, user B a ∧ (a < base ∨ base + ps + 16 ≤ a)).
Proof.
  intros H Hco [R1 R2 [R3 R3'] R4 R5 R6] ps.
  assert (Hb : ps ≤ bytes - 16 < ps + 8) by (unfold ps, pool_bytes;
    pose proof (Z.div_mod (bytes - 16) 8); pose proof (Z.mod_pos_bound (bytes - 16) 8); lia).
  assert (Hps8 : ps mod 8 = 0) by (unfold ps, pool_bytes; rewrite Z.mul_comm; by apply Z.mod_mul).
  assert (24 ≤ ps < 2 ^ 32) as Hps.
  { split; [|lia]. apply Z.mod_divide in Hps8 as [q Hq]; lia. }
  assert (Hmapped : ∀ a, base ≤ a < base + ps + 16 → a mod 8 = 0 → is_Some (heap st !! a))
    by (intros a Ha; apply R4; lia).
  assert (Hapart : ∀ b k, B !! b = Some k → b + 16 + bsz k ≤ base ∨ base + ps + 8 ≤ b)
    by (intros b k Hk; destruct (R5 b k Hk); lia).
  eexists _, _. split_and!.
  - eapply (pool_run st B L base ps); try done; try lia.
    unfold tlsf_pool_overhead, block_header_overhead. rewrite u64_small by lia.
    by apply align_down_8; lia.
  - eapply (pool_heap_ok st B L base ps); try done; lia.
  - eapply pool_coalesced; try done.
  - intros c t. eapply pool_in_use; try done.
  - intros P. eapply pool_pools; try done.
  - eapply (pool_same st B L base ps); try done; lia.
Qed.

(** The control structure alone. *)
Lemma tlsf_create_ok st base :
  8 < base < 2 ^ 63 → base mod 8 = 0 → is_Some (heap st !! next_free base) →
    is_Some (heap st !! prev_free base) →
  ∃ st', tlsf_create base st = (Ok base, st') ∧ ctl st' = base ∧ heap_ok st' ∅ (λ _, []) ∅ ∧
    (∀ a, is_Some (heap st !! a) → is_Some (heap st' !! a)) ∧
    (∀ a, ¬ ctl_cell base a → heap st' !! a = heap st !! a).
Proof.
  intros Hb Hb8 Hn Hp. unfold tlsf_create.
  assert (i64 base mod ALIGN_SIZE = 0) as -> by (unfold i64; rewrite sint_small by lia; done).
  cbn [Z.eqb negb]. rewrite bind_modify.
  eexists. split; [erewrite bind_ok; [|by apply control_construct_run]; done|]. split_and!; [done| | |].
  - split; [split; by intros|split; by intros| | |by intros].
    + apply constructed_ok; [cbn; lia|cbn..]; rewrite !lookup_insert_is_Some'; auto.
    + intros c x _. rewrite elem_of_nil. split; [done|]. by intros (k & ? & _).
  - intros a Ha. cbn. rewrite !lookup_insert_is_Some'. auto.
  - intros a Ha. cbn. unfold ctl_cell, next_free, prev_free in *. by rewrite !lookup_insert_ne by lia.
Qed.

(** ** Sessions *)

(** Memory for [tlsf_create_with_pool]. *)
Record start_ok (st : control) (base bytes : Z) : Prop := {
  so_align : base mod 8 = 0;
  so_bytes : tlsf_size + 40 ≤ bytes < tlsf_size + 2 ^ 32 + 16;
  so_range : 8 < base ∧ base + bytes < 2 ^ 63;
  so_ctl : is_Some (heap st !! next_free base) ∧ is_Some (heap st !! prev_free base);
  so_mapped a : base + tlsf_size ≤ a < base + bytes → a mod 8 = 0 → is_Some (heap st !! a);
}.
(** Memory for a further pool, apart from the control structure and the pools there are. *)
Record pool_ok (st : control) (P : list (Z * Z)) (base bytes : Z) : Prop := {
  po_align : base mod 8 = 0;
  po_bytes : 40 ≤ bytes < 2 ^ 32 + 16;
  po_range : 8 < base ∧ base + bytes < 2 ^ 63;
  po_mapped a : base ≤ a < base + bytes → a mod 8 = 0 → is_Some (heap st !! a);
  po_apart s e : (s, e) ∈ P → e + 16 ≤ base ∨ base + bytes ≤ s + 8;
  po_ctl : ctl st + 40 ≤ base ∨ base + bytes ≤ ctl st;
}.
Abbreviation pool_of base bytes := (base - 8, base + pool_bytes bytes).

(** The states a client can bring the allocator to, the pools [P] it has given, and the pieces
    it holds with the sizes it asked for. *)
Inductive session : control → list (Z * Z) → gmap Z Z → Prop :=
  | session_create st base bytes st' :
      start_ok st base bytes → tlsf_create_with_pool base bytes st = (Ok base, st') →
      session st' [pool_of (base + tlsf_size) (bytes - tlsf_size)] ∅
  | session_add_pool st P live base bytes p st' :
      session st P live → pool_ok st P base bytes → tlsf_add_pool base bytes st = (Ok p, st') →
      session st' (pool_of base bytes :: P) live
  | session_malloc st P live sz p st' :
      session st P live → 0 ≤ sz < 2 ^ 64 - 8 → tlsf_malloc sz st = (Ok p, st') →
      session st' P (if decide (p = 0) then live else <[p := sz]> live)
  | session_memalign st P live j sz p st' :
      session st P live → 0 ≤ j < 61 → 0 ≤ sz < 2 ^ 64 - 8 → tlsf_memalign (2 ^ j) sz st = (Ok p, st') →
      session st' P (if decide (p = 0) then live else <[p := sz]> live)
  | session_realloc st P live p n sz q st' :
      session st P live → live !! p = Some n → 0 < sz ≤ 2 ^ 32 - 8 → tlsf_realloc p sz st = (Ok q, st') →
      session st' P (if decide (q = 0) then live else <[q := sz]> (delete p live))
  | session_free st P live p n st' :
      session st P live → live !! p = Some n → tlsf_free p st = (Ok tt, st') →
        session st' P (delete p live)
  | session_write st P live p n a v :
      session st P live → live !! p = Some n → p ≤ a < p + n → a mod 8 = 0 →
      session (set_heap (<[a := v]> (heap st)) st) P live.

(** The pieces are the blocks in use. *)
Record matches (B : blocks_map) (live : gmap Z Z) : Prop := {
  mt_live p n : live !! p = Some n → ∃ s, in_use B (p - 16) s ∧ 0 ≤ n ≤ s;
  mt_used b s : in_use B b s → is_Some (live !! (b + 16));
}.
Definition inv (st : control) (P : list (Z * Z)) (live : gmap Z Z) : Prop :=
  ∃ B L, heap_ok st B L ∅ ∧ coalesced B 0 ∧ pools P B ∧ matches B live.

Lemma matches_same B B' live : (∀ c t, in_use B' c t ↔ in_use B c t) → matches B live → matches B' live.
Proof. intros Hin [H1 H2].
  split; [intros p n (s & ? & ?)%H1; exists s; by rewrite Hin|intros b s; rewrite Hin; apply H2].
  Qed.
(** Block [b] goes, block [b'] comes; either may be missing. *)
Lemma matches_delete B B' live b : (∀ c t, in_use B' c t ↔ c ≠ b ∧ in_use B c t) → matches B live →
    matches B' (delete (b + 16) live).
Proof.
  intros Hin [H1 H2]. split.
  - intros p n [Hp (s & ? & ?)%H1]%lookup_delete_Some. exists s. rewrite Hin.
    split; [split; [lia|done]|done].
  - intros c s [Hc Hu]%Hin. rewrite lookup_delete_ne by lia. by eapply H2.
Qed.
Lemma matches_insert B B' live b s n : 0 ≤ n ≤ s →
    (∀ c t, in_use B' c t ↔ in_use B c t ∨ (c = b ∧ t = s)) → (∀ t, ¬ in_use B b t) →
    matches B live → matches B' (<[b + 16 := n]> live).
Proof.
  intros Hn Hin Hfr [H1 H2]. split.
  - intros p m [[<- <-]|[Hp (t & ? & ?)%H1]]%lookup_insert_Some;
      [exists s; rewrite Hin; split; [right; lia|done]|]. exists t. rewrite Hin. auto.
  - intros c t [Hu|[-> ->]]%Hin; [|by rewrite lookup_insert_eq]. rewrite lookup_insert_is_Some'.
    right. by eapply H2.
Qed.
(** A piece that a client holds is a block in use. *)
Lemma matches_in_use B live p n : matches B live → live !! p = Some n → ∃ b s, p = b + 16 ∧
    in_use B b s ∧ 0 ≤ n ≤ s.
Proof. intros [H1 _] (s & Hu & Hn)%H1. exists (p - 16), s. split; [lia|done]. Qed.

(** What is in the pieces of [live], and outside of the pools and the control structure, is
    untouched. *)
Record data_kept (P : list (Z * Z)) (live : gmap Z Z) (st st' : control) : Prop := {
  dk_live p n a : live !! p = Some n → p ≤ a < p + n → heap st' !! a = heap st !! a;
  dk_outside a : outside P a → ¬ ctl_cell (ctl st) a → heap st' !! a = heap st !! a;
  dk_ctl : ctl st' = ctl st;
}.
Lemma data_kept_refl P live st : data_kept P live st st.
Proof. done. Qed.
Lemma same_data P live st st' (U : Z → Prop) :
  (∀ p n a, live !! p = Some n → p ≤ a < p + n → U a ∧ ¬ ctl_cell (ctl st) a) →
    (∀ a, outside P a → U a) →
  same st st' U → data_kept P live st st'.
Proof. intros H1 H2 [Hc Hs]. split; [|auto|done]. intros p n a Hp Ha. by apply Hs; eapply H1. Qed.
Lemma user_data st B L P live st' :
  heap_ok st B L ∅ → pools P B → matches B live → same st st' (user B) → data_kept P live st st'.
Proof.
  intros H HP Hm Hs. apply (same_data P live st st' (user B)); [|intros a Ha; right; eauto|done].
  intros p n a Hp Ha. destruct (matches_in_use B live p n Hm Hp) as (b & s & -> & Hu & Hn).
  split; [apply (in_use_user B b s); [done|lia]|]. eapply in_use_not_ctl; [exact H|exact Hu|lia].
Qed.
Lemma others_data st B L P live b st' :
  heap_ok st B L ∅ → pools P B → matches B live → same st st' (others B b) →
    data_kept P (delete (b + 16) live) st st'.
Proof.
  intros H HP Hm Hs. apply (same_data P _ st st' (others B b)); [|intros a Ha; right; eauto|done].
  intros p n a [Hpb Hp]%lookup_delete_Some Ha.
  destruct (matches_in_use B live p n Hm Hp) as (c & s & -> & Hu & Hn).
  split; [left; exists c, s; split; [lia|]; split; [done|lia]|].
  eapply in_use_not_ctl; [exact H|exact Hu|lia].
Qed.

(** *** The operations on a session state *)

Lemma malloc_inv st P live sz :
  inv st P live → 0 ≤ sz < 2 ^ 64 - 8 →
  ∃ p st', tlsf_malloc sz st = (Ok p, st') ∧ data_kept P live st st' ∧
    ((p = 0 ∧ st' = st) ∨ (p ≠ 0 ∧ live !! p = None ∧ inv st' P (<[p := sz]> live))).
Proof.
  intros (B & L & H & Hco & HP & Hm) Hsz.
  destruct (adjust_request_ok sz Hsz) as (adjust & Hadj & _).
  destruct (tlsf_malloc_ok st B L sz adjust H Hco Hsz Hadj)
    as [[Hr _]|(st' & L' & B' & b & Hr & Hle & H' & Hco' & (s & Hs & Hfr & Hin) & HP' & Hsm)].
  - exists 0, st. split_and!; [done|apply data_kept_refl|auto].
  - assert (Hu : in_use B' b s) by (apply Hin; by right).
    destruct (in_use_facts B' b s (ho_layout _ _ _ _ H') Hu) as (_ & _ & Hb0 & _).
    exists (b + 16), st'. split_and!; [done|by eapply user_data|]. right. split_and!; [lia| |].
    + apply eq_None_not_Some. intros [n Hn].
      destruct (matches_in_use B live _ n Hm Hn) as (b2 & s2 & Heq & Hu2 & _).
      assert (b2 = b) as -> by lia. by eapply Hfr.
    + exists B', L'. split_and!; [done|done|by apply HP'|]. by apply (matches_insert B B' live b s);
        [lia|..].
Qed.
Lemma memalign_inv st P live j sz :
  inv st P live → 0 ≤ j < 61 → 0 ≤ sz < 2 ^ 64 - 8 →
  ∃ p st', tlsf_memalign (2 ^ j) sz st = (Ok p, st') ∧ data_kept P live st st' ∧
    ((p = 0 ∧ st' = st) ∨ (p ≠ 0 ∧ p mod 2 ^ j = 0 ∧ live !! p = None ∧ inv st' P (<[p := sz]> live))).
Proof.
  intros (B & L & H & Hco & HP & Hm) Hj Hsz.
  destruct (tlsf_memalign_ok st B L j sz H Hco Hj Hsz)
    as [[Hr _]|
      (adjust & Hle & st' & L' & B' & b & Hr & Hal & H' & Hco' & (s & Hs & Hfr & Hin) & HP' & Hsm)].
  - exists 0, st. split_and!; [done|apply data_kept_refl|auto].
  - assert (Hu : in_use B' b s) by (apply Hin; by right).
    destruct (in_use_facts B' b s (ho_layout _ _ _ _ H') Hu) as (_ & _ & Hb0 & _).
    exists (b + 16), st'. split_and!; [done|by eapply user_data|]. right. split_and!; [lia|done| |].
    + apply eq_None_not_Some. intros [n Hn].
      destruct (matches_in_use B live _ n Hm Hn) as (b2 & s2 & Heq & Hu2 & _).
      assert (b2 = b) as -> by lia. by eapply Hfr.
    + exists B', L'. split_and!; [done|done|by apply HP'|]. by apply (matches_insert B B' live b s);
        [lia|..].
Qed.
Lemma free_inv st P live p n :
  inv st P live → live !! p = Some n → ∃ st', tlsf_free p st = (Ok tt, st') ∧
    data_kept P (delete p live) st st' ∧ inv st' P (delete p live).
Proof.
  intros (B & L & H & Hco & HP & Hm) Hp.
  destruct (matches_in_use B live p n Hm Hp) as (b & s & -> & Hu & Hn).
  destruct (tlsf_free_ok st B L b s H Hco Hu) as (st' & L' & B' & Hr & H' & Hco' & Hin & HP' & Hsm).
  pose proof (matches_delete B B' live b Hin Hm) as Hm'. exists st'.
  split_and!; [done|by eapply others_data|]. exists B', L'. auto.
Qed.
Lemma copied_prefix h dst src n m h' :
  0 ≤ m ≤ n → (∀ i, 0 ≤ i → 8 * i < n → is_Some (h !! (src + 8 * i))) → copied h dst src n h' →
    copied h dst src m h'.
Proof.
  intros Hm Hmap [H1 H2]. pose proof (Z.div_mod n 8 ltac:(lia)) as Hn1.
  pose proof (Z.mod_pos_bound n 8 ltac:(lia)) as Hn2. pose proof (Z.div_mod m 8 ltac:(lia)) as Hm1.
  pose proof (Z.mod_pos_bound m 8 ltac:(lia)) as Hm2. split; [intros i Hi; apply H1; lia|].
  intros Hr. destruct (Z.lt_ge_cases (m / 8) (n / 8)) as [Hlt|Hge].
  - destruct (Hmap (m / 8)) as [v Hv]; [apply Z.div_pos; lia|lia|]. exists v, v.
    rewrite H1 by (split; [apply Z.div_pos; lia|done]). done.
  - assert (m / 8 = n / 8) as -> by lia. destruct H2 as (v & w & Hv & Hw & Heq); [lia|].
    exists v, w. split_and!; try done.
    assert (∀ x, Z.land x (Z.ones (8 * (m mod 8))) = Z.land (Z.land x (Z.ones (8 * (n mod 8))))
      (Z.ones (8 * (m mod 8)))) as Hsub; [|by rewrite (Hsub w), (Hsub v), Heq].
    intros x. rewrite <-Z.land_assoc. f_equal.
    rewrite (Z.land_comm (Z.ones (8 * (n mod 8)))), Z.land_ones by lia.
    rewrite (Z.mod_small (Z.ones _)); [done|]. rewrite !Z.ones_equiv.
    assert (0 < 2 ^ (8 * (m mod 8)) ≤ 2 ^ (8 * (n mod 8))) by (split;
      [apply Z.pow_pos_nonneg|apply Z.pow_le_mono_r]; lia). lia.
Qed.
Lemma realloc_inv st P live p n sz :
  inv st P live → live !! p = Some n → 0 < sz ≤ 2 ^ 32 - 8 →
  ∃ q st', tlsf_realloc p sz st = (Ok q, st') ∧ data_kept P (delete p live) st st' ∧
    ((q = 0 ∧ st' = st) ∨
      (q ≠ 0 ∧ (q = p ∨ live !! q = None) ∧ copied (heap st) q p (Z.min n sz) (heap st') ∧
      inv st' P (<[q := sz]> (delete p live)))).
Proof.
  intros (B & L & H & Hco & HP & Hm) Hp Hsz.
  destruct (matches_in_use B live p n Hm Hp) as (b & s & -> & Hu & Hn).
  destruct (tlsf_realloc_ok st B L b s sz H Hco Hu Hsz)
    as [Hr|(st' & L' & B' & b' & Hr & H' & Hco' & HP' & (s' & Hs' & Hfr & Hin & Hsm & Hcp))];
    [exists 0, st; split_and!; [done|apply data_kept_refl|auto]|].
  assert (Hu' : in_use B' b' s') by (apply Hin; by right).
  destruct (in_use_facts B' b' s' (ho_layout _ _ _ _ H') Hu') as (_ & _ & Hb0 & _).
  exists (b' + 16), st'. split_and!; [done| |right; split_and!; [lia| | |]].
  - by eapply others_data.
  - destruct Hfr as [->|Hfr]; [by left|right]. apply eq_None_not_Some. intros [m Hq].
    destruct (matches_in_use B live _ m Hm Hq) as (c & t & Heq & Hc & _).
    assert (c = b') as -> by lia. by eapply Hfr.
  - apply (copied_prefix _ _ _ (Z.min s sz)); [lia| |done]. intros i Hi Hlt.
    eapply in_use_mapped; [exact H|exact Hu|done|lia].
  - exists B', L'. split_and!; [done|done|by apply HP'|]. split.
    + intros q m [[<- <-]|[Hq [Hqb Hqm]%lookup_delete_Some]]%lookup_insert_Some;
        [exists s'; split; [|lia]; apply Hin; right; lia|].
      destruct (matches_in_use B live q m Hm Hqm) as (c & t & -> & Hc & Ht). exists t.
      split; [|done]. apply Hin. left. replace (c + 16 - 16) with c by lia. split; [lia|done].
    + intros c t [[Hc Ht]|[-> ->]]%Hin; [|by rewrite lookup_insert_eq].
      rewrite lookup_insert_is_Some'. right. rewrite lookup_delete_ne by lia.
      by apply (mt_used _ _ Hm c t).
Qed.
Lemma write_inv st P live p n a v :
  inv st P live → live !! p = Some n → p ≤ a < p + n → a mod 8 = 0 →
    inv (set_heap (<[a := v]> (heap st)) st) P live.
Proof.
  intros (B & L & H & Hco & HP & Hm) Hp Ha _.
  destruct (matches_in_use B live p n Hm Hp) as (b & s & -> & Hu & Hn). exists B, L.
  split_and!; try done. apply user_write_ok; [done| |intros x Hx; rewrite lookup_insert_is_Some';
    auto].
  intros x. destruct (decide (x = a)) as [->|];
    [left|right; by rewrite lookup_insert_ne].
  split; [apply (in_use_user B b s); [done|lia]|]. eapply in_use_not_ctl; [exact H|exact Hu|lia].
Qed.
(** A free block of [ps] bytes is large enough for the requests whose classes are searched. *)
Definition serves (st : control) (ps : Z) : Prop :=
  ∀ j sz, 0 ≤ j < 61 → 0 ≤ sz < 2 ^ 64 - 8 → wanted (2 ^ j) sz ≠ 0 →
    class_le (mapping_search (wanted (2 ^ j) sz)) (mapping_insert ps) →
      (tlsf_memalign (2 ^ j) sz st).1 ≠ Ok 0.
Lemma block_serves st B L b k :
  heap_ok st B L ∅ → coalesced B 0 → B !! b = Some k → bfree k = true → serves st (bsz k).
Proof.
  intros H Hco Hb Hf j sz Hj Hsz Hw Hle.
  destruct (tlsf_memalign_ok st B L j sz H Hco Hj Hsz) as [[_ [?|Hno]]|Hok].
  - done.
  - by destruct (Hno b k Hb Hf).
  - destruct Hok as (adjust & _ & st' & L' & B' & c & -> & _ & H' & _ & (s & _ & _ & Hin) & _). cbn.
    intros [= Hc].
    destruct (in_use_facts B' c s (ho_layout _ _ _ _ H') ltac:(apply Hin; by right))
      as (_ & _ & ? & _). lia.
Qed.
Lemma add_pool_inv st P live base bytes :
  inv st P live → pool_ok st P base bytes → ∃ st', tlsf_add_pool base bytes st = (Ok base, st') ∧
    data_kept (pool_of base bytes :: P) live st st' ∧ serves st' (pool_bytes bytes) ∧
    inv st' (pool_of base bytes :: P) live.
Proof.
  intros (B & L & H & Hco & HP & Hm) [P1 P2 P3 P4 P5 P6]. assert (Hroom : room st B base bytes).
  { split; try done. intros b k Hb. destruct (proj2 HP b k Hb) as (s & Hse & Hsb).
      pose proof (ho_layout _ _ _ _ H) as Hly. assert (b + 16 + bsz k ≤ bend k + 16) as He.
    { destruct (decide (bsz k = 0)) as [Hz|Hz]; [rewrite (ly_sent B Hly b k Hb Hz); lia|].
        destruct (ly_end B Hly b k Hb Hz). unfold nxt in *. lia. }
    destruct (P5 _ _ Hse); lia. }
  destruct (tlsf_add_pool_ok st B L base bytes H Hco Hroom)
    as (st' & L' & Hr & H' & Hco' & Hin & HP' & Hsm). exists st'.
  assert (pool_bytes bytes + 16 ≤ bytes) as Hpb by (unfold pool_bytes;
    pose proof (Z.mul_div_le (bytes - 16) 8); lia).
  split_and!; [done| | |exists (with_pool base (pool_bytes bytes) B), L'].
  { apply (same_data _ live st st' (λ a, user B a ∧ (a < base ∨ base + pool_bytes bytes + 16 ≤ a)));
      [| |done].
    - intros p n a Hp Ha. destruct (matches_in_use B live p n Hm Hp) as (b & s & -> & Hu & Hn).
      split; [split; [apply (in_use_user B b s); [done|lia]|]|eapply in_use_not_ctl;
        [exact H|exact Hu|lia]].
      destruct Hu as (_ & k & Hb & _ & Hk). destruct (rm_apart _ _ _ _ Hroom b k Hb); lia.
    - intros a Ho. split; [right; exists P; split; [done|]; intros s e Hse; apply Ho; by right|].
      destruct (Ho (base - 8) (base + pool_bytes bytes)); [by left|lia..]. }
  { assert (24 ≤ pool_bytes bytes) by (unfold pool_bytes;
      assert (3 ≤ (bytes - 16) / 8) by (apply Z.div_le_lower_bound; lia); lia).
    apply (block_serves st' (with_pool base (pool_bytes bytes) B) L' (base - 8)
      (Blk (pool_bytes bytes) true false
      (base + pool_bytes bytes))); try done. unfold with_pool. rewrite lookup_insert_ne by lia.
        apply lookup_insert_eq. }
  split_and!; [done|done|by apply HP'|by apply (matches_same B)].
Qed.
Lemma control_inv st base :
  8 < base < 2 ^ 63 → base mod 8 = 0 → is_Some (heap st !! next_free base) →
    is_Some (heap st !! prev_free base) →
  ∃ st', tlsf_create base st = (Ok base, st') ∧ ctl st' = base ∧ inv st' [] ∅ ∧
    (∀ a, is_Some (heap st !! a) → is_Some (heap st' !! a)) ∧
    (∀ a, ¬ ctl_cell base a → heap st' !! a = heap st !! a).
Proof.
  intros Hb Hb8 Hn Hp. destruct (tlsf_create_ok st base Hb Hb8 Hn Hp) as (st' & Hr & Hc & H & Hm & Hf).
  exists st'. split_and!; try done. exists ∅, (λ _, []).
  split_and!; [done|by intros ????|split; [by intros ?? ?%elem_of_nil|by intros ???]|].
  split; [by intros ???|]. by intros b s (_ & k & Hk & _).
Qed.
Lemma create_inv st base bytes :
  start_ok st base bytes → ∃ st', tlsf_create_with_pool base bytes st = (Ok base, st') ∧
    inv st' [pool_of (base + tlsf_size) (bytes - tlsf_size)] ∅.
Proof.
  intros [S1 S2 [S3 S3'] [S4 S4'] S5]. change tlsf_size with 6536 in S2.
  destruct (control_inv st base ltac:(lia) S1 S4 S4') as (st1 & Hr1 & Hc1 & Hi & Hm1 & _).
  change tlsf_size with 6536 in *.
  destruct (add_pool_inv st1 [] ∅ (base + 6536) (bytes - 6536) Hi) as (st2 & Hr2 & _ & _ & Hi2).
  { split; [rewrite Z.add_mod, S1 by lia; done|lia|lia| |by intros ?? ?%elem_of_nil|lia].
      intros a Ha Ha8. apply Hm1, S5; [lia|done]. }
  exists st2. split; [|done]. unfold tlsf_create_with_pool. run Hr1. change tlsf_size with 6536.
  rewrite (u64_small (base + 6536)), (u64_small (bytes - 6536)) by lia. by run Hr2.
Qed.
Lemma session_inv st P live : session st P live → inv st P live.
Proof.
  induction 1 as [st base bytes st' Hs Hr|st P live base bytes p st' _ IH Hp Hr|
    st P live sz p st' _ IH Hsz Hr|st P live j sz p st' _ IH Hj Hsz Hr|st P live p n sz q st' _ IH
    Hp Hsz Hr|st P live p n st' _ IH Hp Hr|st P live p n a v _ IH Hp Ha Ha8].
  - destruct (create_inv st base bytes Hs) as (st2 & Hr2 & Hi). congruence.
  - destruct (add_pool_inv st P live base bytes IH Hp) as (st2 & Hr2 & _ & _ & Hi). congruence.
  - destruct (malloc_inv st P live sz IH Hsz) as (q & st2 & Hr2 & _ & Hi).
    assert (q = p ∧ st2 = st') as [-> ->] by (split; congruence).
    destruct Hi as [[-> ->]|(Hp & _ & Hi)]; [by rewrite decide_True|by rewrite decide_False].
  - destruct (memalign_inv st P live j sz IH Hj Hsz) as (q & st2 & Hr2 & _ & Hi).
    assert (q = p ∧ st2 = st') as [-> ->] by (split; congruence).
    destruct Hi as [[-> ->]|(Hp & _ & _ & Hi)]; [by rewrite decide_True|by rewrite decide_False].
  - destruct (realloc_inv st P live p n sz IH Hp Hsz) as (q2 & st2 & Hr2 & _ & Hi).
    assert (q2 = q ∧ st2 = st') as [-> ->] by (split; congruence).
    destruct Hi as [[-> ->]|(Hq & _ & _ & Hi)]; [by rewrite decide_True|by rewrite decide_False].
  - destruct (free_inv st P live p n IH Hp) as (st2 & Hr2 & _ & Hi). congruence.
  - by apply (write_inv st P live p n).
Qed.

(** The pieces that a client holds. *)
Lemma inv_sound st P live :
  inv st P live →
  (∀ p n, live !! p = Some n → 0 < p ∧ p mod 8 = 0 ∧ ∀ a, p ≤ a < p + n → a mod 8 = 0 →
    is_Some (heap st !! a)) ∧
  (∀ p n q m, live !! p = Some n → live !! q = Some m → p ≠ q → p + n ≤ q ∨ q + m ≤ p).
Proof.
  intros (B & L & H & _ & _ & Hm). pose proof (ho_layout _ _ _ _ H) as Hly. split.
  - intros p n Hp. destruct (matches_in_use B live p n Hm Hp) as (b & s & -> & Hu & Hn).
    destruct (in_use_facts B b s Hly Hu) as (_ & _ & Hb0 & _ & Hb8).
    split_and!; [lia|rewrite Z.add_mod, Hb8 by lia; done|]. intros a Ha Ha8.
    destruct Hu as (_ & k & Hb & _ & Hk).
    apply (mo_mapped _ _ (ho_memory _ _ _ _ H) b k); [done|lia|done].
  - intros p n q m Hp Hq Hne. destruct (matches_in_use B live p n Hm Hp) as (b & s & -> & Hu & Hn).
    destruct (matches_in_use B live q m Hm Hq) as (c & t & -> & Hv & Ht).
    destruct (in_use_apart B b s c t Hly Hu Hv); lia.
Qed.

(** C1: at any point of a session, the pieces a client holds are aligned, mapped for their whole
    length, not null, and no two of them overlap. *)
Theorem tlsf_session_sound st P live :
  session st P live →
  (∀ p n, live !! p = Some n → 0 < p ∧ p mod 8 = 0 ∧ ∀ a, p ≤ a < p + n → a mod 8 = 0 →
    is_Some (heap st !! a)) ∧
  (∀ p n q m, live !! p = Some n → live !! q = Some m → p ≠ q → p + n ≤ q ∨ q + m ≤ p).
Proof. intros Hi%session_inv. by apply (inv_sound st P). Qed.

(** C2: at any point of a session the operations complete without an assertion failure or an
    access outside of the memory: an allocation of less than 2^64 - 8 bytes returns null and
    changes nothing, or a piece the client does not hold (aligned as asked for, up to 2^60); a reallocation
    of a piece to at least 1 and at most 2^32 - 8 bytes returns null and leaves everything as it is, or
    copies the contents up to the smaller of the two sizes ([tlsf_realloc_too_large_succeeds] shows
    what larger ones do); none of them, nor the free of a piece or a new pool, changes what
    the client has in its other pieces or anything outside of the pools and the control
    structure. *)
Theorem tlsf_session_progress st P live :
  session st P live →
  (∀ sz, 0 ≤ sz < 2 ^ 64 - 8 → ∃ p st', tlsf_malloc sz st = (Ok p, st') ∧ data_kept P live st st' ∧
    (p = 0 ∧ st' = st ∨ p ≠ 0 ∧ live !! p = None)) ∧
  (∀ j sz, 0 ≤ j < 61 → 0 ≤ sz < 2 ^ 64 - 8 → ∃ p st', tlsf_memalign (2 ^ j) sz st = (Ok p, st') ∧
    data_kept P live st st' ∧
     (p = 0 ∧ st' = st ∨ p ≠ 0 ∧ p mod 2 ^ j = 0 ∧ live !! p = None)) ∧
  (∀ p n sz, live !! p = Some n → 0 < sz ≤ 2 ^ 32 - 8 →
    ∃ q st', tlsf_realloc p sz st = (Ok q, st') ∧ data_kept P (delete p live) st st' ∧
     (q = 0 ∧ st' = st ∨ q ≠ 0 ∧ (q = p ∨ live !! q = None) ∧
       copied (heap st) q p (Z.min n sz) (heap st'))) ∧
  (∀ p n, live !! p = Some n → ∃ st', tlsf_free p st = (Ok tt, st') ∧
    data_kept P (delete p live) st st') ∧
  (∀ base bytes, pool_ok st P base bytes → ∃ st', tlsf_add_pool base bytes st = (Ok base, st') ∧
    data_kept (pool_of base bytes :: P) live st st').
Proof.
  intros Hi%session_inv. split_and!.
  - intros sz Hsz. destruct (malloc_inv st P live sz Hi Hsz) as (p & st' & ? & ? & Hc).
    exists p, st'. naive_solver.
  - intros j sz Hj Hsz. destruct (memalign_inv st P live j sz Hi Hj Hsz) as (p & st' & ? & ? & Hc).
    exists p, st'. naive_solver.
  - intros p n sz Hp Hsz.
    destruct (realloc_inv st P live p n sz Hi Hp Hsz) as (q & st' & ? & ? & Hc). exists q, st'.
    naive_solver.
  - intros p n Hp. destruct (free_inv st P live p n Hi Hp) as (st' & ? & ? & _). eauto.
  - intros base bytes Hp.
    destruct (add_pool_inv st P live base bytes Hi Hp) as (st' & ? & ? & _ & _). eauto.
Qed.

(** C3: once a client has given back all its pieces, every pool is one free block again, whatever the
    order of the allocations and frees was, and a request for which a pool is large enough
    succeeds. *)
Theorem tlsf_session_restored st P s e :
  session st P ∅ → (s, e) ∈ P →
  block_is_free s st = (Ok true, st) ∧ block_size s st = (Ok (e - s - 8), st) ∧
    block_next s st = (Ok e, st) ∧ block_is_last e st = (Ok true, st) ∧
  (∀ sz adjust, 0 < sz ≤ 2 ^ 32 - 8 → adjust_request_size sz ALIGN_SIZE = Ok adjust →
    class_le (mapping_search adjust) (mapping_insert (e - s - 8)) →
     ∃ p st', tlsf_malloc sz st = (Ok p, st') ∧ p ≠ 0).
Proof.
  intros (B & L & H & Hco & [HP _] & Hm)%session_inv Hse. pose proof (ho_layout _ _ _ _ H) as Hly.
  destruct (HP s e Hse) as [(k & Hk & Hk0 & He) _].
  assert (Hno : ∀ b k, B !! b = Some k → bsz k ≠ 0 → bfree k = true).
  { intros b k' Hb Hz. destruct (bfree k') eqn:Hf; [done|].
    destruct (mt_used _ _ Hm b (bsz k')) as [x Hx]; [split; [done|by exists k']|done]. }
  pose proof (Hno s k Hk Hk0) as Hf. destruct (free_size B s k Hly Hk Hf) as (Hks & Hk8 & Hs0 & _).
  destruct (ly_range B Hly s k Hk) as (_ & Hsr & _).
  destruct (ly_next B Hly s k Hk Hk0) as (n & Hn & _ & Hne).
  assert (bsz n = 0) as Hn0.
  { destruct (decide (bsz n = 0)); [done|]. destruct (ly_range B Hly _ n Hn) as (? & _).
    destruct (Hco s k n Hk Hf Hn (Hno _ n Hn ltac:(done))); lia. }
  pose proof (ly_sent B Hly _ n Hn Hn0) as Hsent. assert (nxt s k = e) as Hnx by congruence.
  assert (bsz k = e - s - 8) as Hsz by (unfold nxt in Hnx; lia). split_and!.
  - rewrite (block_is_free_at st B L _ s k H Hk). by rewrite Hf.
  - rewrite (block_size_at st B L _ s k H Hk). by rewrite Hsz.
  - rewrite (block_next_word st s _ _ _ (word_at st B L _ s k H Hk)) by (done || lia). do 2 f_equal.
    unfold nxt in Hnx. lia.
  - rewrite Hnx in Hn. rewrite (block_is_last_at st B L _ e n H Hn). by rewrite Hn0.
  - intros sz adjust Hs Hadj Hle.
    destruct (adjust_request_ok sz ltac:(lia)) as (adj & Hadj2 & Hcase & Hnz).
    rewrite Hadj in Hadj2. injection Hadj2 as <-.
    destruct (tlsf_malloc_ok st B L sz adjust H Hco ltac:(lia) Hadj)
      as [[_ [Hz|Hnone]]|(st' & L' & B' & b & Hr & _ & H' & _ & (t & _ & _ & Hin) & _)];
      [by destruct (Hnz Hs)| |].
    + destruct (Hnone s k Hk Hf). by rewrite Hsz.
    + exists (b + 16), st'. split; [done|].
      destruct (in_use_facts B' b t (ho_layout _ _ _ _ H') ltac:(apply Hin; by right))
        as (_ & _ & ? & _). lia.
Qed.

(** ** The integrity checks *)

Lemma land_bit x i : 0 ≤ i < 32 → (Z.land x (u32 (Z.shiftl 1 i)) =? 0) = negb (Z.testbit x i).
Proof.
  intros Hi. rewrite u32_shiftl_1 by done. destruct (Z.testbit x i) eqn:Hb; cbn [negb].
  - apply Z.eqb_neq. intros Hz. apply (f_equal (λ z, Z.testbit z i)) in Hz.
    by rewrite Z.land_spec, Hb, Z.pow2_bits_true, Z.bits_0 in Hz by lia.
  - apply Z.eqb_eq, Z.bits_inj'. intros n Hn. rewrite Z.land_spec, Z.bits_0, Z.pow2_bits_eqb by lia.
    destruct (Z.eqb_spec i n) as [<-|]; [by rewrite Hb|by rewrite andb_false_r].
Qed.
Section checks.
Context (st : control) (B : blocks_map) (L : lists) (H : heap_ok st B L ∅) (Hco : coalesced B 0).
Let Hly : layout B := ho_layout _ _ _ _ H.

(** What [tlsf_check] tests on a block of a list. *)
Lemma listed_block c b :
  class_ok c → b ∈ L c → ∃ k n, B !! b = Some k ∧ bfree k = true ∧ bpf k = false ∧
    mapping_insert (bsz k) = c ∧ B !! nxt b k = Some n ∧ bfree n = false ∧ bpf n = true ∧
    b ≠ ctl st.
Proof.
  intros Hc Hb. pose proof (lo_far_ctl _ _ (ho_lists _ _ _ _ H) c b Hc Hb) as Hfar%far_ne.
  apply (ho_listed _ _ _ _ H) in Hb as (k & Hk & Hf & _ & Hm); [|done].
  destruct (free_size B b k Hly Hk Hf) as (Hs & _ & Hb0 & _).
  destruct (ly_next B Hly b k Hk ltac:(lia)) as (n & Hn & Hnp & _).
  exists k, n. split_and!; try done; [| |congruence].
  - destruct (bpf k) eqn:Hp; [|done].
    destruct (ly_prev B Hly b k Hk Hp) as (p & q & Hp' & Hq & Hpq).
    destruct (ly_range B Hly p q Hp') as (? & _).
    destruct (Hco p q k Hp' Hq ltac:(by rewrite Hpq) Hf); lia.
  - destruct (bfree n) eqn:Hnf; [|done]. destruct (ly_range B Hly _ n Hn) as (? & _).
    destruct (Hco b k n Hk Hf Hn Hnf); lia.
Qed.
Lemma next_at b k : B !! b = Some k → bsz k ≠ 0 → block_next b st = (Ok (nxt b k), st).
Proof. intros Hb Hk. destruct (used_size B b k Hly Hb Hk) as (? & ? & ? & ? & _).
  apply (block_next_word st b _ _ _ (word_at st B L _ b k H Hb)); (done || lia). Qed.
Lemma check_list_run c l p fuel :
  class_ok c → dseg (heap st) p l (ctl st) → (∀ b, b ∈ l → b ∈ L c) → (length l < fuel)%nat →
    check_list fuel (hd (ctl st) l) c.1 c.2 st = (Ok tt, st).
Proof.
  intros Hc. revert p fuel. induction l as [|b l IH]; intros p [|fuel] Hd Hl Hfuel; [lia| |lia|];
    cbn [check_list hd]; rewrite bind_gets; [by rewrite Z.eqb_refl|].
  destruct (listed_block c b Hc (Hl b ltac:(by left)))
    as (k & n & Hb & Hf & Hpf & Hm & Hn & Hnf & Hnp & Hctl).
  rewrite (proj2 (Z.eqb_neq b (ctl st))) by done. destruct (free_size B b k Hly Hb Hf) as (Hs & _).
  destruct Hd as (_ & Hnext & Hd).
  run (block_is_free_at st B L _ b k H Hb). rewrite Hf, bind_assert by done.
  run (block_is_prev_free_at st B L _ b k H Hb). rewrite Hpf, bind_assert by done.
  run (next_at b k Hb ltac:(lia)). run (block_is_free_at st B L _ _ n H Hn).
  rewrite Hnf, bind_assert by done.
  run (next_at b k Hb ltac:(lia)). run (block_is_prev_free_at st B L _ _ n H Hn).
  rewrite Hnp, bind_assert by done. run (block_size_at st B L _ b k H Hb).
  rewrite bind_assert by (apply Z.leb_le; change block_size_min with 24; lia). rewrite Hm.
  destruct c as [i j]. cbn [fst snd] in *. rewrite !Z.eqb_refl, bind_assert by done.
  run (read_ok next_free b _ st Hnext).
  apply (IH b); [done|intros x Hx; apply Hl; by right|cbn in Hfuel; lia].
Qed.
Lemma list_length c : class_ok c → (length (L c) ≤ Datatypes.length (elements (dom B)))%nat.
Proof.
  intros Hc. apply submseteq_length, NoDup_submseteq;
    [apply (lo_nodup _ _ (ho_lists _ _ _ _ H) c Hc)|]. intros b (k & Hk & _)%(ho_listed _ _ _ _ H);
    [|done]. apply elem_of_elements, elem_of_dom. eauto.
Qed.
Lemma check_class_run c fuel : class_ok c → (Datatypes.length (elements (dom B)) < fuel)%nat →
    check_class fuel c.1 c.2 st = (Ok tt, st).
Proof.
  intros Hc Hfuel. pose proof (ho_lists _ _ _ _ H) as Hlo.
  destruct (class_ok_bounds c Hc) as [Hc1 Hc2]. pose proof (list_length c Hc) as Hlen.
  unfold check_class. rewrite bind_gets. run (read_sl_ok c.1 st (lo_sl_len _ _ Hlo) Hc1).
  destruct c as [i j]. cbn [fst snd] in *. run (read_blocks_ok i j _ st Hc (lo_head _ _ Hlo _ Hc)).
  rewrite !land_bit by lia.
  pose proof (lo_bit _ _ Hlo _ Hc) as Hbit. pose proof (lo_fl_bit _ _ Hlo i Hc1) as Hfl.
  cbn [fst snd] in Hbit. rewrite Hbit, Hfl, negb_involutive.
  assert (Hz : mask_at st i = 0 → L (i, j) = []) by (intros Hz; rewrite Hz, Z.bits_0 in Hbit;
    symmetry in Hbit; apply bool_decide_eq_false in Hbit; destruct (L (i, j));
    [done|by destruct Hbit]).
  destruct (L (i, j)) as [|b l] eqn:HL; cbn [hd].
  - rewrite (bool_decide_eq_false_2 ([] ≠ [])) by (intros Hx; by apply Hx). cbn [negb].
    destruct (mask_at st i =? 0); [rewrite bind_assert by done|rewrite bind_ret_l];
      rewrite bind_gets, Z.eqb_refl; done.
  - rewrite (bool_decide_eq_true_2 (b :: l ≠ [])) by done. cbn [negb].
    destruct (Z.eqb_spec (mask_at st i) 0) as [Hz0|_]; [by specialize (Hz Hz0)|].
    rewrite bind_ret_l, bind_gets. rewrite bind_assert by done.
    destruct (listed_block (i, j) b Hc ltac:(rewrite HL; by left))
      as (k & n & _ & _ & _ & _ & _ & _ & _ & Hctl).
    rewrite bind_assert by (by apply negb_true_iff, Z.eqb_neq).
    apply (check_list_run (i, j) (b :: l) (ctl st) fuel Hc);
      [rewrite <-HL; by apply (lo_links _ _ Hlo)|by rewrite HL|lia].
Qed.
Lemma check_classes_run cs fuel : Forall class_ok cs →
    (Datatypes.length (elements (dom B)) < fuel)%nat → check_classes fuel cs st = (Ok tt, st).
Proof. intros Hcs Hfuel. induction Hcs as [|c cs Hc _ IH]; cbn [check_classes]; [done|].
  by run (check_class_run c fuel Hc Hfuel). Qed.
Lemma all_classes_ok : Forall class_ok all_classes.
Proof.
  apply Forall_forall. intros c. unfold all_classes.
  intros (i & (j & ->%list_elem_of_singleton & Hj%elem_of_seqZ)%list_elem_of_bind &
    Hi%elem_of_seqZ)%list_elem_of_bind. split; cbn; lia.
Qed.
(** The walk over the blocks of a pool. *)
Lemma walk_run fuel b k :
  B !! b = Some k → bend k - b < 8 * Z.of_nat fuel →
  ∃ i, walk_loop fuel integrity_walker b (Integrity (if bpf k then 1 else 0) 0) st = (Ok i, st) ∧
    status i = 0.
Proof.
  assert (Hend : ∀ b k, B !! b = Some k → b ≤ bend k) by (intros b0 k0 Hb0;
    destruct (decide (bsz k0 = 0)) as [Hz|Hz];
    [rewrite (ly_sent B Hly b0 k0 Hb0 Hz); lia|destruct (ly_end B Hly b0 k0 Hb0 Hz);
    pose proof (nxt_gt B b0 k0 Hly Hb0); lia]).
  revert b k. induction fuel as [|fuel IH]; intros b k Hb Hfuel; [specialize (Hend b k Hb); lia|].
  cbn [walk_loop]. destruct (ly_range B Hly b k Hb) as (Hb0 & Hbr & _).
  rewrite (proj2 (Z.eqb_neq b 0)) by lia.
  run (block_is_last_at st B L _ b k H Hb). destruct (Z.eqb_spec (bsz k) 0) as [Hz|Hz];
    [eexists; split; [reflexivity|done]|]. destruct (used_size B b k Hly Hb Hz) as (Hs & _).
  destruct (ly_next B Hly b k Hb Hz) as (n & Hn & Hnp & Hne). run (block_size_at st B L _ b k H Hb).
  run (block_is_free_at st B L _ b k H Hb). unfold integrity_walker at 1.
  assert (block_from_ptr (block_to_ptr b) = b) as ->
    by (unfold block_from_ptr, block_to_ptr, block_start_offset;
    rewrite (u64_small (b + 16)), u64_small by lia; lia). rewrite bind_assoc.
    run (block_is_prev_free_at st B L _ b k H Hb). rewrite bind_assoc.
  run (block_is_free_at st B L _ b k H Hb).
  rewrite bind_assoc. run (block_size_at st B L _ b k H Hb).
  rewrite bind_assoc, bind_assert by (cbn; apply Z.eqb_refl).
  rewrite bind_assoc, bind_assert by apply Z.eqb_refl. rewrite bind_ret_l. cbn [status].
  run (next_at b k Hb Hz). rewrite <-Hnp.
  apply (IH _ n Hn). rewrite Hne. unfold nxt. lia.
Qed.
End checks.

(** C4: at any point of a session, [tlsf_check] and [tlsf_check_pool] on every pool return 0 without an
    assertion failing: their loops end, and they change nothing. *)
Theorem tlsf_session_checks st P live :
  session st P live →
  (∃ enough, ∀ fuel, (enough ≤ fuel)%nat → tlsf_check fuel st = (Ok 0, st)) ∧
  (∀ s e fuel, (s, e) ∈ P → e - s < 8 * Z.of_nat fuel → tlsf_check_pool fuel (s + 8) st = (Ok 0, st)).
Proof.
  intros (B & L & H & Hco & [HP _] & _)%session_inv. pose proof (ho_layout _ _ _ _ H) as Hly. split.
  - exists (S (Datatypes.length (elements (dom B)))). intros fuel Hfuel. unfold tlsf_check.
    by run (check_classes_run st B L H Hco all_classes fuel all_classes_ok ltac:(lia)).
  - intros s e fuel Hse Hfuel. destruct (HP s e Hse) as [(k & Hk & Hk0 & <-) Hno].
    destruct (used_size B s k Hly Hk Hk0) as (Hks & _ & Hs0 & Hsr & _).
    assert (bpf k = false) as Hpf.
    { destruct (bpf k) eqn:Hp; [|done].
        destruct (ly_prev B Hly s k Hk Hp) as (p & q & Hp' & Hq & Hpq).
      destruct (free_size B p q Hly Hp' Hq) as (? & _). destruct (Hno p q Hp'); [lia|done]. }
    destruct (walk_run st B L H fuel s k Hk Hfuel) as (i & Hr & Hi). rewrite Hpf in Hr.
    unfold tlsf_check_pool, tlsf_walk_pool.
    assert (offset_to_block (s + 8) (- block_header_overhead) = s) as ->
      by (unfold offset_to_block, block_header_overhead; rewrite u64_small by lia; lia).
    run Hr. by rewrite Hi.
Qed.

(** ** A session *)

Definition ex_pool : list (Z * Z) := [pool_of (4096 + tlsf_size) 1024].
Definition ex1 : control := (tlsf_create_with_pool 4096 (tlsf_size + 1024) ex_memory).2.
Definition ex2 : control := (tlsf_malloc 100 ex1).2.
Definition ex3 : control := (tlsf_memalign 64 200 ex2).2.
Definition ex4 : control := (tlsf_realloc 10640 300 ex3).2.
Definition ex5 : control := (tlsf_free 10752 ex4).2.
Definition ex6 : control := (tlsf_free 10960 ex5).2.

Lemma ex_start : start_ok ex_memory 4096 (tlsf_size + 1024).
Proof.
  change tlsf_size with 6536.
  split; [done|change tlsf_size with 6536; lia|lia|split; eexists; vm_compute; reflexivity|].
  change tlsf_size with 6536. intros a Ha Ha8. unfold ex_memory. cbn [heap].
  rewrite !lookup_map_block. case_decide; [done|]. rewrite decide_True; [done|].
  apply elem_of_block_cells. change Prelude.word_size with 8.
  apply Z.mod_divide in Ha8 as [q Hq]; [|lia]. split; [lia|]. split; [lia|]. rewrite Hq.
  replace (q * 8 - (4096 + 6536 - 16)) with ((q - 1327) * 8) by lia. by apply Z.mod_mul.
Qed.
Lemma ex1_session : session ex1 ex_pool ∅.
Proof. apply (session_create ex_memory 4096 (tlsf_size + 1024));
    [apply ex_start|vm_compute; reflexivity]. Qed.
Lemma ex2_session : session ex2 ex_pool {[ 10640 := 100 ]}.
Proof. apply (session_malloc ex1 ex_pool ∅ 100 10640 ex2);
    [apply ex1_session|lia|vm_compute; reflexivity]. Qed.
Lemma ex3_session : session ex3 ex_pool (<[10752 := 200]> {[ 10640 := 100 ]}).
Proof. apply (session_memalign ex2 ex_pool {[ 10640 := 100 ]} 6 200 10752 ex3);
    [apply ex2_session|lia|lia|vm_compute; reflexivity]. Qed.
Lemma session_live st P live live' : session st P live → live = live' → session st P live'.
Proof. by intros H <-. Qed.
Lemma ex4_session : session ex4 ex_pool {[ 10752 := 200; 10960 := 300 ]}.
Proof. eapply session_live;
    [apply (session_realloc ex3 ex_pool (<[10752 := 200]> {[ 10640 := 100 ]}) 10640 100 300 10960
    ex4); [apply ex3_session|done|lia|vm_compute; reflexivity]|vm_compute; reflexivity]. Qed.
Lemma ex6_session : session ex6 ex_pool ∅.
Proof.
  eapply session_live;
    [apply (session_free ex5 ex_pool (delete 10752 {[ 10752 := 200; 10960 := 300 ]}) 10960 300 ex6);
    [|done|vm_compute; reflexivity]|vm_compute; reflexivity].
  apply (session_free ex4 ex_pool {[ 10752 := 200; 10960 := 300 ]} 10752 200 ex5);
    [apply ex4_session|done|vm_compute; reflexivity].
Qed.

Lemma tlsf_session_sound_witness : session ex4 ex_pool {[ 10752 := 200; 10960 := 300 ]} ∧
    (10752 + 200 ≤ 10960 ∨ 10960 + 300 ≤ 10752).
Proof.
  split; [apply ex4_session|].
  destruct (tlsf_session_sound ex4 ex_pool {[ 10752 := 200; 10960 := 300 ]} ex4_session) as [_ H].
  apply (H 10752 200 10960 300); done.
Defined.
Lemma tlsf_session_progress_witness : ∃ q st', tlsf_realloc 10752 24 ex4 = (Ok q, st') ∧
    data_kept ex_pool (delete 10752 {[ 10752 := 200; 10960 := 300 ]}) ex4 st'.
Proof.
  destruct (tlsf_session_progress ex4 ex_pool {[ 10752 := 200; 10960 := 300 ]} ex4_session)
    as (_ & _ & H & _). destruct (H 10752 200 24) as (q & st' & Hr & Hk & _); [done|lia|].
  exists q, st'. split; [exact Hr|exact Hk].
Defined.
Lemma tlsf_session_restored_witness : block_size 10624 ex6 = (Ok 1008, ex6) ∧
    ∃ p st', tlsf_malloc 900 ex6 = (Ok p, st') ∧ p ≠ 0.
Proof.
  destruct (tlsf_session_restored ex6 ex_pool 10624 11640 ex6_session ltac:(vm_compute; by left))
    as (_ & H1 & _ & _ & H2). split; [exact H1|].
  apply (H2 900 904); [lia|vm_compute; reflexivity|]. right.
  split; vm_compute; [reflexivity|discriminate].
Defined.
Lemma tlsf_session_checks_witness : tlsf_check_pool 200 10632 ex4 = (Ok 0, ex4) ∧
    ∃ enough, ∀ fuel, (enough ≤ fuel)%nat → tlsf_check fuel ex4 = (Ok 0, ex4).
Proof.
  destruct (tlsf_session_checks ex4 ex_pool {[ 10752 := 200; 10960 := 300 ]} ex4_session)
    as [H1 H2]. split; [|exact H1]. apply (H2 10624 11640 200%nat); [vm_compute; by left|lia].
Defined.
End TlsfSession.
