(* ===== verification/TlsfResource.v ===== *)
(** * TLSF resource (pmr/tlsf_resource.hpp, pmr/impl/tlsf_resource.ipp, pmr/memory_resource.hpp)

    A memory resource on top of the TLSF allocator: when the allocator has no block for a
    request, a buffer twice as large as the last one is requested from the upstream resource
    and added as a pool.  The buffers start with a [pool_base], their size and the address of
    the buffer before, through which the destructor finds them; these words are in the same
    memory as the headers of the allocator. *)

From S2P Require Import Prelude.
From S2P Require Import TlsfBits.
From S2P Require Import TlsfOps.
From S2P Require Import TlsfLists.
From S2P Require Import TlsfHeap.
From S2P Require Import TlsfRealloc.
From S2P Require Import TlsfSession.
From S2P Require Import Pool.
From S2P Require Import PoolResource.

Local Open Scope Z_scope.
Local Open Scope gpcl_scope.

(** Addresses of user space are in the lower half of the address space. *)
Class ResourceLow `{!Resource} : Prop :=
  res_alloc_low sz al h b h' : res_alloc sz al h = (Ok b, h') → b ≠ null → b + sz < 2 ^ 63.

Module TlsfResource.
Import Tlsf TlsfAlloc FreeLists TlsfHeap TlsfRealloc TlsfSession.

Record state : Type := State { tlsf_ : control; pool_list_ : Z; next_request_size_ : Z }.
Abbreviation R A := (M state A).

Definition set_tlsf (t : control) (s : state) : state := State t (pool_list_ s) (next_request_size_ s).
Definition set_pool_list (p : Z) (s : state) : state := State (tlsf_ s) p (next_request_size_ s).
Definition set_next (n : Z) (s : state) : state := State (tlsf_ s) (pool_list_ s) n.
Definition on_tlsf {A} (m : T A) : R A := zoom tlsf_ set_tlsf m.
Definition on_memory {A} (m : M mem A) : R A := on_tlsf (on_heap m).

(** [pool_base]: [size] and [next]. *)
Definition sizeof_pool_base : Z := 16.
Definition alignof_pool_base : Z := 8.
Definition pool_size (base : Z) : Z := base.
Definition pool_next (base : Z) : Z := base + 8.

Section resource.
Context {upstream : Resource}.

(** [memory_resource::allocate] and [deallocate] of the upstream resource. *)
Definition upstream_allocate (bytes al : Z) : R Z :=
  let! p := on_memory (res_alloc bytes al) in
  gpcl_assert (p mod al =? 0) ;;; ret p.
Definition upstream_deallocate (p bytes al : Z) : R unit :=
  gpcl_assert (p mod al =? 0) ;;; on_memory (res_free p bytes al).

Definition request_new_buffer (bytes : Z) : R Z :=
  let! base := upstream_allocate bytes alignof_pool_base in
  if base =? 0 then throw bad_alloc else
  on_memory (store (pool_size base) bytes) ;;;
  on_memory (store (pool_next base) null) ;;;
  let! l := gets pool_list_ in
  on_memory (store (pool_next base) l) ;;;
  modify (set_pool_list base) ;;;
  ret (base + sizeof_pool_base).

(** The loop of [release]. *)
Fixpoint release (fuel : nat) : R unit :=
  match fuel with
  | O => nofuel
  | S fuel =>
      let! l := gets pool_list_ in
      if l =? 0 then ret tt else
      let! next := on_memory (load (pool_next l)) in
      let! size := on_memory (load (pool_size l)) in
      upstream_deallocate l size alignof_pool_base ;;;
      modify (set_pool_list next) ;;;
      release fuel
  end.

Definition initial (h : mem) : state := State (Control h 0 0 [] []) 0 8152.
(** The constructors, in memory [h]. *)
Definition tlsf_resource_buffer (buffer size : Z) : R unit :=
  gpcl_assert (tlsf_size <? size) ;;;
  let! t := on_tlsf (tlsf_create_with_pool buffer size) in
  if t =? 0 then throw runtime_error else ret tt.
Definition tlsf_resource_size (fuel : nat) (initial_buffer : Z) : R unit :=
  let! p := request_new_buffer (u64 (initial_buffer + tlsf_size + sizeof_pool_base)) in
  let! t := on_tlsf (tlsf_create p) in
  if t =? 0 then release fuel ;;; throw runtime_error else ret tt.
Definition tlsf_resource_default (fuel : nat) : R unit := tlsf_resource_size fuel 8152.
(** [~tlsf_resource]. *)
Definition destruct_ (fuel : nat) : R unit := release fuel.

Definition alloc_from_buffer (bytes alignment : Z) : R Z := on_tlsf (tlsf_memalign alignment bytes).
Definition request_from_upstream : R unit :=
  let! n := gets next_request_size_ in
  let! p := request_new_buffer n in
  let! r := on_tlsf (tlsf_add_pool p (u64 (n - sizeof_pool_base))) in
  (if r =? 0 then abort else ret tt) ;;;
  modify (set_next (u64 (n * 2))).
Fixpoint do_allocate (fuel : nat) (bytes alignment : Z) : R Z :=
  match fuel with
  | O => nofuel
  | S fuel =>
      let! r := alloc_from_buffer bytes alignment in
      if negb (r =? 0) then ret r else
      request_from_upstream ;;;
      do_allocate fuel bytes alignment
  end.
Definition do_deallocate (p bytes alignment : Z) : R unit := on_tlsf (tlsf_free p).
(** [memory_resource::allocate] and [deallocate]. *)
Definition allocate (fuel : nat) (bytes alignment : Z) : R Z :=
  let! r := do_allocate fuel bytes alignment in
  gpcl_assert (r mod alignment =? 0) ;;; ret r.
Definition deallocate (p bytes alignment : Z) : R unit :=
  gpcl_assert (p mod alignment =? 0) ;;; do_deallocate p bytes alignment.
End resource.

(** ** The memory of the pools *)

(** The blocks of a pool fill it. *)
Lemma tile B c k a :
  layout B → B !! c = Some k → c + 8 ≤ a < bend k + 16 →
  ∃ b m, B !! b = Some m ∧ b + 8 ≤ a < b + 16 + bsz m.
Proof.
  intros H. remember (Z.to_nat (bend k - c)) as d eqn:Hd. revert c k Hd.
  induction d as [d IH] using lt_wf_ind. intros c k Hd Hc Ha.
  destruct (decide (bsz k = 0)) as [Hz|Hz].
  { exists c, k. rewrite (ly_sent B H c k Hc Hz) in Ha. split; [done|lia]. }
  destruct (decide (a < c + 16 + bsz k)); [exists c, k; split; [done|lia]|].
  destruct (ly_next B H c k Hc Hz) as (m & Hm & _ & He). destruct (ly_end B H c k Hc Hz) as [Hle _].
  pose proof (nxt_gt B c k H Hc) as Hgt.
  apply (IH (Z.to_nat (bend m - nxt c k)) ltac:(rewrite He; lia) (nxt c k) m eq_refl Hm).
  rewrite He. unfold nxt in *. lia.
Qed.
Lemma pool_area_mapped st P live s e a :
  inv st P live → (s, e) ∈ P → s + 8 ≤ a < e + 16 → a mod 8 = 0 → is_Some (heap st !! a).
Proof.
  intros (B & L & H & _ & [HP _] & _) Hse Ha Ha8. destruct (HP s e Hse) as [(k & Hk & _ & He) _].
  destruct (tile B s k a (ho_layout _ _ _ _ H) Hk) as (b & m & Hb & Hab); [lia|].
  by apply (mo_mapped _ _ (ho_memory _ _ _ _ H) b m).
Qed.
Lemma pool_aligned st P live s e : inv st P live → (s, e) ∈ P → s mod 8 = 0 ∧ s < e.
Proof.
  intros (B & L & H & _ & [HP _] & _) Hse. destruct (HP s e Hse) as [(k & Hk & Hz & He) _].
  pose proof (ho_layout _ _ _ _ H) as Hly. split; [apply (ly_range B Hly s k Hk)|].
  destruct (ly_end B Hly s k Hk Hz). pose proof (nxt_gt B s k Hly Hk). lia.
Qed.
Lemma inside P a : ¬ outside P a → ∃ s e, (s, e) ∈ P ∧ s + 8 ≤ a < e + 16.
Proof.
  intros Ho. destruct (decide (Exists (λ p : Z * Z, p.1 + 8 ≤ a < p.2 + 16) P)) as [HE|HE].
  - apply Exists_exists in HE as ([s e] & Hse & Ha). by exists s, e.
  - destruct Ho. intros s e Hse. destruct (decide (s + 8 ≤ a < e + 16)); [|lia].
    destruct HE. apply Exists_exists. by exists (s, e).
Qed.
#[local] Instance outside_dec P a : Decision (outside P a).
Proof.
  destruct (decide (Forall (λ p : Z * Z, a < p.1 + 8 ∨ p.2 + 16 ≤ a) P)) as [f|f]; [left|right].
  - intros s e Hse. by apply (proj1 (Forall_forall _ _) f (s, e)).
  - intros Ho. apply f. apply Forall_forall. intros [s e] Hse. by apply Ho.
Defined.
(** The links of the control structure are mapped. *)
Lemma ctl_mapped st P live a :
  inv st P live → ctl st mod 8 = 0 → a mod 8 = 0 → ctl_cell (ctl st) a → is_Some (heap st !! a).
Proof.
  intros (B & L & H & _) Hc8 Ha8 Hc. destruct (lo_null _ _ (ho_lists _ _ _ _ H)) as [H1 H2].
  unfold ctl_cell, next_free, prev_free in *. apply Z.mod_divide in Hc8 as [q Hq]; [|lia].
  apply Z.mod_divide in Ha8 as [r Hr]; [|lia].
  assert (a = ctl st + 16 ∨ a = ctl st + 24) as [->| ->] by lia; eauto.
Qed.
(** No operation of the allocator unmaps memory. *)
Lemma mapped_kept st st' P live live' a :
  inv st' P live' → data_kept P live st st' → ctl st mod 8 = 0 → a mod 8 = 0 →
  is_Some (heap st !! a) → is_Some (heap st' !! a).
Proof.
  intros Hi Hk Hc8 Ha8 Ha. destruct (decide (outside P a)) as [Ho|(s & e & Hse & Hin)%inside];
    [|by eapply pool_area_mapped].
  destruct (decide (ctl st + 16 ≤ a < ctl st + 32)) as [Hc|Hc];
    [|by rewrite (dk_outside _ _ _ _ Hk a Ho)].
  rewrite <-(dk_ctl _ _ _ _ Hk) in Hc, Hc8. by eapply ctl_mapped.
Qed.
(** Memory outside of the pools and the control structure may be written. *)
Lemma outside_write_inv st P live h' :
  inv st P live → (∀ a, outside P a ∧ ¬ ctl_cell (ctl st) a ∨ h' !! a = heap st !! a) →
  (∀ a, is_Some (heap st !! a) → is_Some (h' !! a)) → inv (set_heap h' st) P live.
Proof.
  intros (B & L & H & Hco & HP & Hm) Hu Hmap. exists B, L. split_and!; try done.
  apply user_write_ok; [done| |done]. intros a. destruct (Hu a) as [[Ho Hc]|]; [left|by right].
  split; [|done]. right. by exists P.
Qed.

(** ** The buffers *)

(** A block that overlaps nothing that is mapped. *)
Definition unused (h : mem) (b n : Z) : Prop := ∀ a, is_Some (h !! a) → a + 8 ≤ b ∨ b + n ≤ a.
Lemma unused_apart h b n lo hi :
  unused h b n → 0 < n → b mod 8 = 0 → lo < hi → lo mod 8 = 0 →
  (∀ a, lo ≤ a < hi → a mod 8 = 0 → is_Some (h !! a)) → hi ≤ b ∨ b + n ≤ lo.
Proof.
  intros Hu Hn Hb Hlt Hlo Hm. destruct (Hu lo (Hm lo ltac:(lia) Hlo)); [|by right].
  destruct (decide (hi ≤ b)); [by left|]. destruct (Hu b (Hm b ltac:(lia) Hb)); lia.
Qed.

Definition cells_of (bs : list (Z * Z)) : list Z := bs ≫= λ b, block_cells b.1 b.2.
Fixpoint chain (h : mem) (l : Z) (bs : list (Z * Z)) : Prop :=
  match bs with
  | [] => l = null
  | (b, n) :: bs' =>
      l = b ∧ ∃ next, h !! pool_size b = Some n ∧ h !! pool_next b = Some next ∧ chain h next bs'
  end.
(** The buffers [bs] that the resource has from upstream, with their sizes. *)
Record buffers (h : mem) (l : Z) (bs : list (Z * Z)) : Prop := {
  bf_chain : chain h l bs;
  bf_good b n : (b, n) ∈ bs → 0 < b ∧ b mod 8 = 0 ∧ 16 ≤ n;
  bf_apart : NoDup (cells_of bs);
  bf_mapped a : a ∈ cells_of bs → is_Some (h !! a);
}.
Definition header_cell (bs : list (Z * Z)) (a : Z) : Prop :=
  ∃ b n, (b, n) ∈ bs ∧ (a = pool_size b ∨ a = pool_next b).

Lemma elem_of_cells_of bs a : a ∈ cells_of bs ↔ ∃ b n, (b, n) ∈ bs ∧ a ∈ block_cells b n.
Proof.
  unfold cells_of. rewrite list_elem_of_bind. split.
  - intros ([b n] & Ha & Hb). by exists b, n.
  - intros (b & n & Hb & Ha). by exists (b, n).
Qed.
Lemma in_cells b n a : b ≤ a → a + 8 ≤ b + n → b mod 8 = 0 → a mod 8 = 0 → a ∈ block_cells b n.
Proof.
  intros H1 H2 Hb Ha. apply elem_of_block_cells. change Prelude.word_size with 8. split_and!; [lia|lia|].
  by rewrite Zminus_mod, Ha, Hb.
Qed.
Lemma cells_aligned b n a : b mod 8 = 0 → a ∈ block_cells b n → b ≤ a ∧ a + 8 ≤ b + n ∧ a mod 8 = 0.
Proof.
  intros Hb (H1 & H2 & H3)%elem_of_block_cells. change Prelude.word_size with 8 in *.
  split_and!; [lia|lia|].
  replace a with (b + (a - b)) by lia. by rewrite Z.add_mod, Hb, H3.
Qed.
Lemma header_cells h l bs a : buffers h l bs → header_cell bs a → a ∈ cells_of bs ∧ a mod 8 = 0.
Proof.
  intros H (b & n & Hb & Ha). destruct (bf_good _ _ _ H b n Hb) as (? & Hb8 & ?).
  assert (a mod 8 = 0) by (destruct Ha as [->| ->]; unfold pool_size, pool_next;
    [|rewrite Z.add_mod, Hb8]; done).
  split; [|done]. apply elem_of_cells_of. exists b, n. split; [done|].
  apply in_cells; [..|done|done]; destruct Ha as [->| ->]; unfold pool_size, pool_next; lia.
Qed.
Lemma buffer_chain_frame h h' l bs : chain h l bs → (∀ a, header_cell bs a → h' !! a = h !! a) → chain h' l bs.
Proof.
  revert l. induction bs as [|[b n] bs IH]; intros l; cbn; [done|]. intros (-> & next & H1 & H2 & Hc) Hh.
  split; [done|]. exists next. rewrite !Hh by (exists b, n; split; [by left|auto]). split_and!; try done.
  apply IH; [done|]. intros a (c & m & Hc' & Ha). apply Hh. exists c, m. split; [by right|done].
Qed.
Lemma buffers_frame h h' l bs :
  buffers h l bs → (∀ a, header_cell bs a → h' !! a = h !! a) →
  (∀ a, a ∈ cells_of bs → is_Some (h !! a) → is_Some (h' !! a)) → buffers h' l bs.
Proof.
  intros [H1 H2 H3 H4] Hh Hm. split; [by eapply buffer_chain_frame|done|done|]. intros a Ha. auto.
Qed.

Section upstream.
Context {upstream : Resource} {upstream_ok : ResourceOk} {upstream_low : ResourceLow}.

Lemma bind_abort {S A B} (m : M S A) (f : A → M S B) s s' : m s = (Abort, s') → bind m f s = (Abort, s').
Proof. unfold bind. by intros ->. Qed.
Lemma on_memory_eq {A} (m : M mem A) s r h' :
  m (heap (tlsf_ s)) = (r, h') → on_memory m s = (r, set_tlsf (set_heap h' (tlsf_ s)) s).
Proof. intros H. unfold on_memory, on_tlsf. by do 2 apply zoom_eq. Qed.
Lemma on_memory_same {A} (m : M mem A) s r :
  m (heap (tlsf_ s)) = (r, heap (tlsf_ s)) → on_memory m s = (r, s).
Proof. intros H. rewrite (on_memory_eq m s _ _ H). by destruct s as [[] ? ?]. Qed.
Lemma on_tlsf_eq {A} (m : T A) s r t : m (tlsf_ s) = (r, t) → on_tlsf m s = (r, set_tlsf t s).
Proof. apply zoom_eq. Qed.
Lemma on_tlsf_same {A} (m : T A) s r : m (tlsf_ s) = (r, tlsf_ s) → on_tlsf m s = (r, s).
Proof. intros H. rewrite (on_tlsf_eq m s _ _ H). by destruct s. Qed.

(** A new buffer: the memory, with the header. *)
Definition headed (h : mem) (b n l : Z) : mem :=
  <[pool_next b := l]> (<[pool_next b := null]> (<[pool_size b := n]> (map_block b n h))).
Definition with_buffer (b n : Z) (s : state) : state :=
  State (set_heap (headed (heap (tlsf_ s)) b n (pool_list_ s)) (tlsf_ s)) b (next_request_size_ s).
(** What the upstream resource promises of it. *)
Record new_buffer (h : mem) (b n : Z) : Prop := {
  nb_range : 0 < b ∧ b + n < 2 ^ 63;
  nb_align : b mod 8 = 0;
  nb_unused : unused h b n;
}.

Lemma request_new_buffer_run n s :
  16 ≤ n → (∃ e, request_new_buffer n s = (Throw e, s)) ∨
  ∃ b, new_buffer (heap (tlsf_ s)) b n ∧ request_new_buffer n s = (Ok (b + 16), with_buffer b n s).
Proof.
  intros Hn. unfold request_new_buffer, upstream_allocate, alignof_pool_base.
  destruct (res_alloc_ok n 8 (heap (tlsf_ s)) ltac:(lia) ltac:(lia))
    as [Hr|[[e Hr]|(b & Hr & Hb0 & Hb8 & Hb & Hu)]].
  - left. exists bad_alloc. rewrite bind_assoc. by run (on_memory_same _ _ _ Hr).
  - left. exists e. rewrite bind_assoc. by rewrite (bind_throw _ _ _ _ _ (on_memory_same _ _ _ Hr)).
  - right. exists b. pose proof (res_alloc_low _ _ _ _ _ Hr ltac:(unfold null; lia)) as Hlow.
    split; [done|]. rewrite bind_assoc. run (on_memory_eq _ _ _ _ Hr).
    rewrite bind_assoc, bind_assert by (by apply Z.eqb_eq). rewrite bind_ret_l.
    rewrite (proj2 (Z.eqb_neq b 0)) by lia.
    assert (Hcell : ∀ a, b ≤ a → a + 8 ≤ b + n → a mod 8 = 0 →
      is_Some (map_block b n (heap (tlsf_ s)) !! a)).
    { intros a H1 H2 Ha. rewrite lookup_map_block, decide_True; [done|]. by apply in_cells. }
    assert (pool_next b mod 8 = 0) by (unfold pool_next; rewrite Z.add_mod, Hb8; done).
    erewrite bind_ok by (apply on_memory_eq, store_ok, Hcell; unfold pool_size; [lia|lia|done]).
    erewrite bind_ok by (apply on_memory_eq, store_ok; cbn; apply lookup_insert_is_Some'; right;
      apply Hcell; unfold pool_next in *; [lia|lia|done]).
    rewrite bind_gets.
    erewrite bind_ok by (apply on_memory_eq, store_ok; cbn; by rewrite lookup_insert_eq). done.
Qed.

Lemma headed_old h b n l a : b mod 8 = 0 → 16 ≤ n → a ∉ block_cells b n → headed h b n l !! a = h !! a.
Proof.
  intros Hb8 Hn Ha.
  assert (pool_next b mod 8 = 0) as Hx by (unfold pool_next; rewrite Z.add_mod, Hb8; done).
  assert (pool_size b ∈ block_cells b n) by (apply in_cells; unfold pool_size; (lia || done)).
  assert (pool_next b ∈ block_cells b n) by (apply in_cells; unfold pool_next in *; (lia || done)).
  unfold headed. rewrite !lookup_insert_ne by (intros <-; done). rewrite lookup_map_block.
  by case_decide.
Qed.
Lemma headed_new h b n l a : a ∈ block_cells b n → is_Some (headed h b n l !! a).
Proof.
  intros Ha. unfold headed. rewrite !lookup_insert_is_Some'. do 3 right.
  by rewrite lookup_map_block, decide_True.
Qed.
Lemma unused_cell h b n a : unused h b n → a ∈ block_cells b n → h !! a = None.
Proof.
  intros Hu (H1 & H2 & _)%elem_of_block_cells. apply eq_None_not_Some. intros Hm.
  change Prelude.word_size with 8 in *. destruct (Hu a Hm); lia.
Qed.
Lemma headed_mapped h b n l a : new_buffer h b n → 16 ≤ n → is_Some (h !! a) →
    headed h b n l !! a = h !! a.
Proof.
  intros H Hn Ha. apply headed_old; [apply H|done|]. intros Hc. rewrite (unused_cell h b n a) in Ha;
    [|apply H|done].
  by destruct Ha.
Qed.
Lemma NoDup_block_cells b n : NoDup (block_cells b n).
Proof. unfold block_cells. apply NoDup_fmap_Z. unfold Prelude.word_size. lia. Qed.
Lemma headed_buffers h l bs b n :
  buffers h l bs → new_buffer h b n → 16 ≤ n → buffers (headed h b n l) b ((b, n) :: bs).
Proof.
  intros H Hnb Hn. pose proof Hnb as [[Hb0 _] Hb8 Hu].
  destruct (buffers_frame h (headed h b n l) l bs H) as [H1 H2 H3 H4].
  { intros a Ha. apply headed_mapped; [done|done|]. apply (bf_mapped _ _ _ H). by eapply header_cells. }
  { intros a _ Ha. by rewrite headed_mapped. }
  split.
  - cbn. split; [done|]. exists l. unfold headed. split_and!; [|by rewrite lookup_insert_eq|done].
    rewrite !lookup_insert_ne by (unfold pool_next, pool_size; lia). apply lookup_insert_eq.
  - intros c m [[= -> ->]|Hc]%elem_of_cons; [auto|by eapply H2].
  - unfold cells_of. cbn [mbind list_bind fst snd]. apply NoDup_app.
    split_and!; [apply NoDup_block_cells| |done].
    intros a Ha Hin. destruct (bf_mapped _ _ _ H a Hin) as [v Hv].
    by rewrite (unused_cell h b n a) in Hv.
  - intros a. unfold cells_of. cbn [mbind list_bind fst snd]. rewrite elem_of_app.
    intros [Ha|Ha]; [by apply headed_new|by apply H4].
Qed.

(** The loop of [release] gives back every buffer. *)
Definition given_back (bs : list (Z * Z)) (h : mem) : mem := foldl (λ h b, unmap_block b.1 b.2 h) h bs.
Lemma release_buffers_run fuel s bs :
  buffers (heap (tlsf_ s)) (pool_list_ s) bs → (length bs < fuel)%nat →
  release fuel s = (Ok tt,
    State (set_heap (given_back bs (heap (tlsf_ s))) (tlsf_ s)) null (next_request_size_ s)).
Proof.
  revert s bs. induction fuel as [|fuel IH]; intros s bs H Hf; [lia|]. cbn [release]. rewrite bind_gets.
  destruct bs as [|[b n] bs].
  - pose proof (bf_chain _ _ _ H) as Hc. cbn in Hc. rewrite Hc. cbn. by destruct s as [[] ? ?];
      cbn in *; subst.
  - pose proof (bf_chain _ _ _ H) as (-> & next & Hs & Hnx & Hch).
    destruct (bf_good _ _ _ H b n) as (Hb0 & Hb8 & Hn); [by left|].
    rewrite (proj2 (Z.eqb_neq b 0)) by lia.
    erewrite bind_ok by (apply on_memory_same, load_ok; exact Hnx).
    erewrite bind_ok by (apply on_memory_same, load_ok; exact Hs).
    unfold upstream_deallocate. rewrite bind_assoc, bind_assert by (by apply Z.eqb_eq).
    erewrite bind_ok by (apply on_memory_eq, res_free_ok). rewrite bind_modify.
    pose proof (bf_apart _ _ _ H) as Hnd. unfold cells_of in Hnd. cbn [mbind list_bind fst snd] in Hnd.
    apply NoDup_app in Hnd as (_ & Hap & Hnd).
    assert (Hkeep : ∀ a, a ∈ cells_of bs → unmap_block b n (heap (tlsf_ s)) !! a = heap (tlsf_ s) !! a).
    { intros a Ha. rewrite Pool.lookup_unmap_block, decide_False; [done|]. intros Hc. by eapply Hap. }
    assert (buffers (heap (tlsf_ s)) next bs) as Hb.
    { split; [done|intros c m Hc; apply (bf_good _ _ _ H); by right|done|].
      intros a Ha. apply (bf_mapped _ _ _ H). unfold cells_of in *. cbn [mbind list_bind fst snd].
      apply elem_of_app. by right. }
    rewrite (IH _ bs); [done| |cbn in Hf; lia]. cbn. eapply buffers_frame; [exact Hb| |].
    + intros a Ha. apply Hkeep. by eapply header_cells.
    + intros a Ha Hm. by rewrite Hkeep.
Qed.

(** ** The invariant *)

(** The resource has the buffers [bs] from upstream, which were not there in the memory [h0] it
    started with, and the buffers [ub] from its user; the pools and the control structure are in
    them, and the rest of the memory is as it was. *)
Record owns (h0 : mem) (ub : list (Z * Z)) (s : state) (bs P : list (Z * Z)) (live : gmap Z Z) :
    Prop := {
  ow_inv : inv (tlsf_ s) P live;
  ow_buffers : buffers (heap (tlsf_ s)) (pool_list_ s) bs;
  ow_headers a : header_cell bs a → outside P a ∧ ¬ ctl_cell (ctl (tlsf_ s)) a;
  ow_pools a : ¬ outside P a → a mod 8 = 0 → a ∈ cells_of (bs ++ ub);
  ow_align : ctl (tlsf_ s) mod 8 = 0;
  ow_ctl a : ctl (tlsf_ s) ≤ a < ctl (tlsf_ s) + 40 → a mod 8 = 0 → a ∈ cells_of (bs ++ ub);
  ow_given a : a ∈ cells_of ub → a mod 8 = 0 ∧ is_Some (heap (tlsf_ s) !! a);
  ow_new a : a ∈ cells_of bs → h0 !! a = None;
  ow_rest a : a mod 8 = 0 → a ∉ cells_of (bs ++ ub) → heap (tlsf_ s) !! a = h0 !! a;
  ow_next : ∃ i, 0 ≤ i ≤ 20 ∧ next_request_size_ s = 8152 * 2 ^ i;
}.

Lemma cells_of_app bs cs a : a ∈ cells_of (bs ++ cs) ↔ a ∈ cells_of bs ∨ a ∈ cells_of cs.
Proof. unfold cells_of. by rewrite bind_app, elem_of_app. Qed.
Lemma cells_of_cons b n bs a : a ∈ cells_of ((b, n) :: bs) ↔ a ∈ block_cells b n ∨ a ∈ cells_of bs.
Proof. unfold cells_of. cbn [mbind list_bind fst snd]. by rewrite elem_of_app. Qed.
Lemma buffers_aligned h l bs a : buffers h l bs → a ∈ cells_of bs → a mod 8 = 0.
Proof.
  intros H (b & n & Hb & Ha)%elem_of_cells_of. eapply cells_aligned; [|exact Ha].
  by apply (bf_good _ _ _ H b n).
Qed.

Section invariant.
Context (h0 : mem) (ub : list (Z * Z)).
Abbreviation own := (owns h0 ub).

Lemma own_mapped s bs P live a : own s bs P live → a ∈ cells_of (bs ++ ub) → a mod 8 = 0 ∧
    is_Some (heap (tlsf_ s) !! a).
Proof.
  intros H [Ha|Ha]%cells_of_app; [|by apply (ow_given _ _ _ _ _ _ H)].
  pose proof (ow_buffers _ _ _ _ _ _ H) as Hb.
  split; [by eapply buffers_aligned|by apply (bf_mapped _ _ _ Hb)].
Qed.
(** An operation of the allocator. *)
Lemma own_tlsf s bs P live t' P' live' live'' :
  own s bs P live → inv t' P' live' → data_kept P' live'' (tlsf_ s) t' →
  (∀ a, header_cell bs a → outside P' a) →
    (∀ a, ¬ outside P' a → a mod 8 = 0 → a ∈ cells_of (bs ++ ub)) →
  own (set_tlsf t' s) bs P' live'.
Proof.
  intros H Hi Hk Hh HP. pose proof H as [_ H2 H3 _ H5 H6 H7 H8 H9 H10].
  pose proof (dk_ctl _ _ _ _ Hk) as Hc.
  assert (Hmap : ∀ a, a ∈ cells_of (bs ++ ub) → is_Some (heap t' !! a)).
  { intros a Ha. destruct (own_mapped s bs P live a H Ha). by eapply mapped_kept. }
  split; cbn -[Z.modulo]; [done| | |done|by rewrite Hc|by rewrite Hc| |done| |done].
  - eapply buffers_frame; [exact H2| |].
    + intros a Ha. apply (dk_outside _ _ _ _ Hk); [by apply Hh|by apply H3].
    + intros a Ha _. apply Hmap, cells_of_app. by left.
  - intros a Ha. rewrite Hc. split; [by apply Hh|by apply H3].
  - intros a Ha. split; [by apply H7|]. apply Hmap, cells_of_app. by right.
  - intros a Ha8 Ha. rewrite <-H9 by done. apply (dk_outside _ _ _ _ Hk).
    + destruct (decide (outside P' a)) as [|Hn]; [done|]. by destruct Ha; apply HP.
    + intros Hcell. destruct Ha. apply H6; [|done]. unfold ctl_cell in Hcell. lia.
Qed.
Lemma own_tlsf_same s bs P live t' live' live'' :
  own s bs P live → inv t' P live' → data_kept P live'' (tlsf_ s) t' → own (set_tlsf t' s) bs P live'.
Proof.
  intros H Hi Hk. eapply own_tlsf; [exact H|done|exact Hk| |apply H]. intros a Ha.
  by apply (ow_headers _ _ _ _ _ _ H).
Qed.

Lemma new_apart s bs P live b n :
  own s bs P live → new_buffer (heap (tlsf_ s)) b n → 0 < n →
  (∀ x e, (x, e) ∈ P → e + 16 ≤ b ∨ b + n ≤ x + 8) ∧ (ctl (tlsf_ s) + 40 ≤ b ∨ b + n ≤ ctl (tlsf_ s)).
Proof.
  intros H [_ Hb8 Hu] Hn. pose proof (ow_inv _ _ _ _ _ _ H) as Hi. split.
  - intros x e Hxe. destruct (pool_aligned _ _ _ _ _ Hi Hxe) as [Hx8 Hlt].
    apply (unused_apart (heap (tlsf_ s)) b n (x + 8) (e + 16)); try done;
      [lia|rewrite Z.add_mod, Hx8; done|].
    intros a Ha. by eapply pool_area_mapped.
  - apply (unused_apart (heap (tlsf_ s)) b n); try done; [lia|apply (ow_align _ _ _ _ _ _ H)|].
    intros a Ha Ha8. eapply own_mapped; [exact H|]. by apply (ow_ctl _ _ _ _ _ _ H).
Qed.
Lemma own_buffer s bs P live b n :
  own s bs P live → new_buffer (heap (tlsf_ s)) b n → 16 ≤ n →
    own (with_buffer b n s) ((b, n) :: bs) P live.
Proof.
  intros H Hnb Hn. destruct (new_apart s bs P live b n H Hnb) as [HaP Hac]; [lia|].
  pose proof H as [H1 H2 H3 H4 H5 H6 H7 H8 H9 H10]. pose proof Hnb as [_ Hb8 Hu].
  assert (Hin : ∀ a, b ≤ a < b + n → outside P a ∧ ¬ ctl_cell (ctl (tlsf_ s)) a).
  { intros a Ha. unfold ctl_cell. split; [|lia]. intros x e Hxe. destruct (HaP x e Hxe); lia. }
  assert (Hcell : ∀ a, a ∈ block_cells b n → b ≤ a ∧ a + 8 ≤ b + n ∧ a mod 8 = 0) by (intros a;
    by apply cells_aligned).
  assert (Hmono : ∀ a, a ∈ cells_of (bs ++ ub) → a ∈ cells_of ((b, n) :: bs ++ ub))
    by (intros a Ha; apply cells_of_cons; by right).
  assert (Hold : ∀ a, is_Some (heap (tlsf_ s) !! a) →
    headed (heap (tlsf_ s)) b n (pool_list_ s) !! a = heap (tlsf_ s) !! a)
    by (intros a; by apply headed_mapped).
  split; cbn -[Z.modulo cells_of]; [| | |auto|done|auto| | | |done].
  - apply outside_write_inv; [done| |intros a Ha; by rewrite Hold]. intros a.
    destruct (decide (a ∈ block_cells b n)) as [Ha|Ha];
      [left; apply Hin; destruct (Hcell a Ha); lia|right].
    by apply headed_old.
  - by apply headed_buffers.
  - intros a (c & m & [[= -> ->]|Hc]%elem_of_cons & Ha); [|apply H3; by exists c, m].
    apply Hin. destruct Ha as [->| ->]; unfold pool_size, pool_next; lia.
  - intros a Ha. destruct (H7 a Ha) as [Ha8 Ham]. by rewrite Hold.
  - intros a [Ha|Ha]%cells_of_cons; [|by apply H8].
    destruct (decide (a ∈ cells_of (bs ++ ub))) as [Hc|Hc].
    + destruct (own_mapped s bs P live a H Hc) as [_ [v Hv]].
      by rewrite (unused_cell _ _ _ _ Hu Ha) in Hv.
    + rewrite <-H9; [by apply (unused_cell _ b n)|by apply Hcell|done].
  - intros a Ha8 Ha. rewrite cells_of_cons in Ha.
    rewrite headed_old by (done || (intros ?; apply Ha; by left)).
    apply H9; [done|]. intros ?. apply Ha. by right.
Qed.

(** ** Requests to the upstream resource *)

Definition buffer_size (i : Z) : Z := 8152 * 2 ^ i.
Lemma buffer_size_aligned i : 0 ≤ i → buffer_size i mod 8 = 0.
Proof. intros Hi. unfold buffer_size. replace (8152 * 2 ^ i) with (1019 * 2 ^ i * 8) by lia.
  by apply Z.mod_mul. Qed.
Lemma aligned_end b a n : b mod 8 = 0 → a mod 8 = 0 → n mod 8 = 0 → a < b + n → a + 8 ≤ b + n.
Proof.
  intros Hb Ha Hn Hlt. apply Z.mod_divide in Hb as [x Hx], Ha as [y Hy], Hn as [z Hz]; lia.
Qed.
Lemma buffer_size_range i : 0 ≤ i ≤ 20 → 8152 ≤ buffer_size i ≤ buffer_size 20.
Proof.
  intros Hi. unfold buffer_size. pose proof (Z.pow_le_mono_r 2 0 i ltac:(lia) ltac:(lia)).
  pose proof (Z.pow_le_mono_r 2 i 20 ltac:(lia) ltac:(lia)). lia.
Qed.
Lemma buffer_size_small i : 0 ≤ i < 20 → buffer_size i ≤ buffer_size 19.
Proof. intros Hi. unfold buffer_size. pose proof (Z.pow_le_mono_r 2 i 19 ltac:(lia) ltac:(lia)).
  lia. Qed.

(** What a client has in its pieces stays. *)
Definition pieces_kept (live : gmap Z Z) (s s' : state) : Prop :=
  ∀ p n a, live !! p = Some n → p ≤ a < p + n → a mod 8 = 0 →
    heap (tlsf_ s') !! a = heap (tlsf_ s) !! a.
Lemma live_inside st P live p n a :
  inv st P live → live !! p = Some n → p ≤ a < p + n → ¬ outside P a ∧
    (a mod 8 = 0 → is_Some (heap st !! a)).
Proof.
  intros (B & L & H & _ & HP & Hm) Hp Ha.
  destruct (matches_in_use B live p n Hm Hp) as (b & m & -> & Hu & Hn).
  destruct Hu as (_ & k & Hb & _ & Hk).
  split; [|intros; apply (mo_mapped _ _ (ho_memory _ _ _ _ H) b k); [done|lia|done]].
  apply (pools_cell P B b k); [apply H|done|done|lia].
Qed.

Lemma add_pool_too_large (t : control) base bytes :
  base mod 8 = 0 → 0 < base < 2 ^ 63 → 2 ^ 32 + 32 ≤ bytes < 2 ^ 63 →
    tlsf_add_pool base bytes t = (Abort, t).
Proof.
  intros Hb8 Hb Hn. unfold tlsf_add_pool, tlsf_pool_overhead, block_header_overhead.
  rewrite u64_small by lia. rewrite bind_ok with (a := 8 * ((bytes - 2 * 8) / 8)) (s' := t)
    by (unfold lift; by rewrite align_down_8 by lia).
  unfold i64. rewrite sint_small by lia. change ALIGN_SIZE with 8. rewrite Hb8. cbn [Z.eqb negb].
  pose proof (Z.div_mod (bytes - 2 * 8) 8). pose proof (Z.mod_pos_bound (bytes - 2 * 8) 8).
  rewrite (proj2 (Z.ltb_lt block_size_max _)) by (change block_size_max with (2 ^ 32); lia).
  by rewrite orb_true_r.
Qed.
Lemma own_next s bs P live i : own s bs P live → 0 ≤ i ≤ 20 → own (set_next (buffer_size i) s) bs P live.
Proof. intros [] Hi. split; try done. by exists i. Qed.
(** The buffer behind its header becomes a pool. *)
Lemma own_pool s bs P live b n :
  own s bs P live → new_buffer (heap (tlsf_ s)) b n → n mod 8 = 0 → 56 ≤ n < 2 ^ 32 + 32 →
  ∃ t, tlsf_add_pool (b + 16) (n - 16) (tlsf_ (with_buffer b n s)) = (Ok (b + 16), t) ∧
    own (set_tlsf t (with_buffer b n s)) ((b, n) :: bs) (pool_of (b + 16) (n - 16) :: P) live ∧
    pieces_kept live s (set_tlsf t (with_buffer b n s)) ∧ serves t (pool_bytes (n - 16)).
Proof.
  intros H Hnb Hn8 Hn. destruct (new_apart s bs P live b n H Hnb ltac:(lia)) as [HaP Hac].
  pose proof (own_buffer s bs P live b n H Hnb ltac:(lia)) as H1. pose proof Hnb as [[Hb0 Hb63] Hb8 Hu].
  assert (Hpb : pool_bytes (n - 16) + 32 ≤ n) by (unfold pool_bytes;
    pose proof (Z.mul_div_le (n - 16 - 16) 8); lia).
  set (s1 := with_buffer b n s) in *.
  destruct (add_pool_inv (tlsf_ s1) P live (b + 16) (n - 16) (ow_inv _ _ _ _ _ _ H1))
    as (t & Ht & Hk & Hsv & Hi2).
  { split; [rewrite Z.add_mod, Hb8; done|lia|lia| | |change (ctl (tlsf_ s1)) with (ctl (tlsf_ s)); lia].
    - intros a Ha Ha8. apply headed_new, in_cells; [lia| |done|done].
      apply (aligned_end b); (done || lia).
    - intros x e Hxe. destruct (HaP x e Hxe); lia. }
  exists t. split_and!; [done| | |done].
  - eapply own_tlsf; [exact H1|done|exact Hk| |].
    + intros a Ha x e [[= -> ->]|Hxe]%elem_of_cons; [|by apply (ow_headers _ _ _ _ _ _ H1 a Ha)].
      destruct Ha as (c & m & [[= -> ->]|Hc]%elem_of_cons & Ha);
        [destruct Ha as [->| ->]; unfold pool_size, pool_next; lia|].
      assert (is_Some (heap (tlsf_ s) !! a)) as Hm.
      { pose proof (ow_buffers _ _ _ _ _ _ H) as Hb. apply (bf_mapped _ _ _ Hb).
          eapply header_cells; [exact Hb|by exists c, m]. }
      destruct (Hu a Hm); lia.
    + intros a (x & e & [[= -> ->]|Hxe]%elem_of_cons & Ha)%inside Ha8.
      * apply cells_of_cons. left. apply in_cells; [lia| |done|done].
        apply (aligned_end b); (done || lia).
      * apply (ow_pools _ _ _ _ _ _ H1); [|done]. intros Ho. destruct (Ho x e Hxe); lia.
  - intros p m a Hp Ha Ha8. cbn. rewrite (dk_live _ _ _ _ Hk p m a Hp Ha).
    apply headed_mapped; [done|lia|].
    destruct (live_inside _ _ _ p m a (ow_inv _ _ _ _ _ _ H) Hp Ha) as [_ Hm]. by apply Hm.
Qed.
Lemma request_ok s bs P live i :
  own s bs P live → 0 ≤ i ≤ 20 → next_request_size_ s = buffer_size i →
  (∃ e, request_from_upstream s = (Throw e, s)) ∨
    (i = 20 ∧ ∃ s', request_from_upstream s = (Abort, s')) ∨
  (i < 20 ∧ ∃ b s', request_from_upstream s = (Ok tt, s') ∧
    own s' ((b, buffer_size i) :: bs) (pool_of (b + 16) (buffer_size i - 16) :: P) live ∧
    next_request_size_ s' = buffer_size (i + 1) ∧ pieces_kept live s s' ∧
    serves (tlsf_ s') (pool_bytes (buffer_size i - 16))).
Proof.
  intros H Hi Hnext. pose proof (buffer_size_range i Hi) as Hsz. unfold request_from_upstream.
  rewrite bind_gets, Hnext.
  destruct (request_new_buffer_run (buffer_size i) s ltac:(lia)) as [[e Hr]|(b & Hnb & Hr)].
  { left. exists e. by apply bind_throw. }
  right. run Hr. pose proof Hnb as [[Hb0 Hb63] Hb8 _]. change (buffer_size 20) with 8547991552 in Hsz.
  assert ((b + 16) mod 8 = 0) as Hb16 by (rewrite Z.add_mod, Hb8; done).
  unfold sizeof_pool_base. rewrite u64_small by lia. destruct (decide (i = 20)) as [->|Hi20].
  { left. split; [done|]. eexists. change (buffer_size 20) with 8547991552 in *.
    apply (bind_abort _ _ _ _
      (on_tlsf_eq _ _ _ _ (add_pool_too_large _ _ (8547991552 - 16) Hb16 ltac:(lia) ltac:(lia)))). }
  right. split; [lia|]. pose proof (buffer_size_small i ltac:(lia)) as Hs19.
  change (buffer_size 19) with 4273995776 in Hs19.
  destruct (own_pool s bs P live b (buffer_size i) H Hnb (buffer_size_aligned i ltac:(lia))
    ltac:(lia)) as (t & Ht & H1 & Hk & Hsv).
  exists b, (set_next (buffer_size (i + 1)) (set_tlsf t (with_buffer b (buffer_size i) s))).
  assert (buffer_size (i + 1) = buffer_size i * 2) as Hdouble
    by (unfold buffer_size; rewrite Z.pow_add_r by lia; lia).
  split_and!; [|apply own_next; [done|lia]|done|done|done].
  run (on_tlsf_eq _ _ _ _ Ht). rewrite (proj2 (Z.eqb_neq (b + 16) 0)) by lia.
  rewrite bind_ret_l. unfold modify. by rewrite u64_small, <-Hdouble by lia.
Qed.

(** ** Allocation *)

(** A buffer of [buffer_size i] bytes is large enough for the request. *)
Definition fits (i al sz : Z) : Prop :=
  wanted al sz ≠ 0 ∧
    class_le (mapping_search (wanted al sz)) (mapping_insert (pool_bytes (buffer_size i - 16))).
(** The outcomes of an allocation: a new piece; an exception of the upstream resource, with
    nothing lost; or the end of the program. *)
Definition allocated (live : gmap Z Z) (al sz : Z) (s : state) (r : outcome Z) (s' : state) : Prop :=
  match r with
  | Ok p => p ≠ 0 ∧ p mod al = 0 ∧ live !! p = None ∧ pieces_kept live s s' ∧
      ∃ bs P, own s' bs P (<[p := sz]> live)
  | Throw _ => pieces_kept live s s' ∧ ∃ bs P, own s' bs P live
  | Abort => True
  | Undef | NoFuel => False
  end.
Lemma allocated_kept live al sz s1 s2 r s3 : pieces_kept live s1 s2 → allocated live al sz s2 r s3 →
    allocated live al sz s1 r s3.
Proof.
  intros Hk. assert (Ht : pieces_kept live s2 s3 → pieces_kept live s1 s3)
    by (intros Hk' p n a Hp Ha Ha8; rewrite (Hk' p n a), (Hk p n a); done).
  destruct r; cbn; naive_solver.
Qed.

Lemma do_allocate_ok fuel s bs P live i j sz :
  own s bs P live → next_request_size_ s = buffer_size i → 0 ≤ i ≤ 20 → 0 ≤ j < 61 →
    0 ≤ sz < 2 ^ 64 - 8 →
  20 - i < Z.of_nat fuel →
  ∃ r s', do_allocate fuel sz (2 ^ j) s = (r, s') ∧ allocated live (2 ^ j) sz s r s' ∧
    (r = Abort → (tlsf_memalign (2 ^ j) sz (tlsf_ s)).1 = Ok 0 ∧ ∀ k, i ≤ k < 20 → ¬ fits k (2 ^ j) sz).
Proof.
  revert s bs P i. induction fuel as [|fuel IH]; intros s bs P i H Hn Hi Hj Hsz Hf; [lia|].
  cbn [do_allocate].
  unfold alloc_from_buffer.
  destruct (memalign_inv (tlsf_ s) P live j sz (ow_inv _ _ _ _ _ _ H) Hj Hsz)
    as (p & t & Hr & Hk & [[-> ->]|(Hp0 & Hpj & Hpl & Hi')]).
  2: { exists (Ok p), (set_tlsf t s). run (on_tlsf_eq _ s _ _ Hr).
         rewrite (proj2 (Z.eqb_neq p 0)) by done.
       split_and!; [done| |done]. cbn. split_and!; [done..| |].
       - intros q n a Hq Ha _. by apply (dk_live _ _ _ _ Hk q n a).
       - exists bs, P. by eapply own_tlsf_same. }
  run (on_tlsf_same _ s _ Hr). cbn [Z.eqb negb].
  destruct (request_ok s bs P live i H Hi Hn)
    as [[e Hq]|[[-> [s' Hq]]|(Hi20 & b & s1 & Hq & H1 & Hn1 & Hk1 & Hsv)]].
  - exists (Throw e), s. rewrite (bind_throw _ _ _ _ _ Hq). split_and!; [done| |done].
    split; [by intros ????|]. by exists bs, P.
  - exists Abort, s'. rewrite (bind_abort _ _ _ _ Hq). split_and!; [done|done|]. intros _.
    rewrite Hr. split; [done|lia].
  - destruct (IH s1 _ _ (i + 1) H1 Hn1 ltac:(lia) Hj Hsz ltac:(lia)) as (r & s' & Hr' & Ha & Hab).
    exists r, s'. run Hq. split_and!; [done|by eapply allocated_kept|]. intros Hra.
    destruct (Hab Hra) as [Hz Hno].
    rewrite Hr. split; [done|]. intros k Hk' [Hw Hfit]. destruct (decide (k = i)) as [->|].
    + by destruct (Hsv j sz Hj Hsz Hw Hfit).
    + apply (Hno k); [lia|done].
Qed.
Lemma allocate_ok fuel s bs P live i j sz :
  own s bs P live → next_request_size_ s = buffer_size i → 0 ≤ i ≤ 20 → 0 ≤ j < 61 →
    0 ≤ sz < 2 ^ 64 - 8 →
  (20 < fuel)%nat →
  ∃ r s', allocate fuel sz (2 ^ j) s = (r, s') ∧ allocated live (2 ^ j) sz s r s' ∧
    (r = Abort → ∀ k, i ≤ k < 20 → ¬ fits k (2 ^ j) sz).
Proof.
  intros H Hn Hi Hj Hsz Hf.
  destruct (do_allocate_ok fuel s bs P live i j sz H Hn Hi Hj Hsz ltac:(lia))
    as (r & s' & Hr & Ha & Hab).
  exists r, s'. split_and!; [|done|intros E; by apply Hab]. unfold allocate.
  destruct r as [p|e| | |]; try done.
  - run Hr. rewrite bind_assert; [done|]. apply Z.eqb_eq, Ha.
  - by apply bind_throw.
  - by apply bind_abort.
Qed.
Lemma deallocate_ok s bs P live p n al :
  own s bs P live → live !! p = Some n → p mod al = 0 →
  ∃ s', deallocate p n al s = (Ok tt, s') ∧ pieces_kept (delete p live) s s' ∧
    own s' bs P (delete p live).
Proof.
  intros H Hp Hal.
  destruct (free_inv (tlsf_ s) P live p n (ow_inv _ _ _ _ _ _ H) Hp) as (t & Hr & Hk & Hi).
  exists (set_tlsf t s). split_and!; [| |by eapply own_tlsf_same].
  - unfold deallocate, do_deallocate. rewrite bind_assert by (by apply Z.eqb_eq). by apply on_tlsf_eq.
  - intros q m a Hq Ha _. by apply (dk_live _ _ _ _ Hk q m a).
Qed.
(** A client writes into a piece. *)
Lemma client_write_ok s bs P live p n a v :
  own s bs P live → live !! p = Some n → p ≤ a < p + n → a mod 8 = 0 →
  own (set_tlsf (set_heap (<[a := v]> (heap (tlsf_ s))) (tlsf_ s)) s) bs P live.
Proof.
  intros H Hp Ha Ha8. pose proof (ow_inv _ _ _ _ _ _ H) as Hi.
  destruct (live_inside _ _ _ p n a Hi Hp Ha) as [Ho _].
  eapply (own_tlsf s bs P live _ P live ∅); [done|by eapply write_inv| | |apply H].
  - split; [by intros ??? ?%lookup_empty_Some| |done]. intros x Hx _. cbn.
    by rewrite lookup_insert_ne by (intros <-; done).
  - intros x Hx. by apply (ow_headers _ _ _ _ _ _ H).
Qed.

(** ** Construction *)

(** The control structure is built at [base], in one of the buffers. *)
Lemma own_create st l bs base :
  8 < base < 2 ^ 63 → base mod 8 = 0 → buffers (heap st) l bs →
  (∀ a, header_cell bs a → a < base) →
    (∀ a, base ≤ a < base + 40 → a mod 8 = 0 → a ∈ cells_of (bs ++ ub)) →
  (∀ a, a ∈ cells_of ub → a mod 8 = 0 ∧ is_Some (heap st !! a)) →
    (∀ a, a ∈ cells_of bs → h0 !! a = None) →
  (∀ a, a mod 8 = 0 → a ∉ cells_of (bs ++ ub) → heap st !! a = h0 !! a) →
  ∃ t, tlsf_create base st = (Ok base, t) ∧ own (State t l (buffer_size 0)) bs [] ∅ ∧ ctl t = base.
Proof.
  intros Hb Hb8 Hbf Hh Hc Hu Hnew Hrest.
  assert (Hm : ∀ a, base ≤ a < base + 40 → a mod 8 = 0 → is_Some (heap st !! a)).
  { intros a Ha Ha8. destruct (proj1 (cells_of_app bs ub a) (Hc a Ha Ha8)) as [Hin|Hin];
      [by apply (bf_mapped _ _ _ Hbf)|by apply Hu]. }
  destruct (control_inv st base Hb Hb8) as (t & Hr & Hct & Hi & Hmono & Hf);
    [apply Hm; unfold next_free; [lia|rewrite Z.add_mod, Hb8; done]|
     apply Hm; unfold prev_free; [lia|rewrite Z.add_mod, Hb8; done]|].
  exists t. split_and!; [done| |done]. split; cbn -[Z.modulo]; rewrite ?Hct; try done.
  - eapply buffers_frame; [exact Hbf| |auto]. intros a Ha. apply Hf. unfold ctl_cell.
    specialize (Hh a Ha). lia.
  - intros a Ha. unfold ctl_cell. specialize (Hh a Ha). split; [by intros ?? ?%elem_of_nil|lia].
  - intros a Ho. destruct Ho. by intros ?? ?%elem_of_nil.
  - intros a Ha. split; [by apply Hu|]. by apply Hmono, Hu.
  - intros a Ha8 Ha. rewrite Hf; [by apply Hrest|]. intros Hin. apply Ha, Hc; [|done].
    unfold ctl_cell in Hin. lia.
  - exists 0. done.
Qed.
End invariant.

Lemma tlsf_resource_size_ok fuel n h :
  0 ≤ n < 2 ^ 63 → (∃ e, tlsf_resource_size fuel n (initial h) = (Throw e, initial h)) ∨
  ∃ s bs, tlsf_resource_size fuel n (initial h) = (Ok tt, s) ∧ owns h [] s bs [] ∅.
Proof.
  intros Hn. unfold tlsf_resource_size. change tlsf_size with 6536. change sizeof_pool_base with 16.
  rewrite u64_small by lia. set (m := n + 6536 + 16).
  destruct (request_new_buffer_run m (initial h) ltac:(lia)) as [[e Hr]|(b & Hnb & Hr)].
  { left. exists e. by apply bind_throw. }
  right. run Hr. pose proof Hnb as [[Hb0 Hb63] Hb8 Hu]. cbn in Hu.
  assert (Hb16 : (b + 16) mod 8 = 0) by (rewrite Z.add_mod, Hb8; done).
  assert (buffers h 0 []) as H0 by (split;
    [done|by intros ?? ?%elem_of_nil|apply NoDup_nil_2|by intros ? ?%elem_of_nil]).
  destruct (own_create h [] (tlsf_ (with_buffer b m (initial h))) b [(b, m)] (b + 16))
    as (t & Ht & H & _); try done.
  - lia.
  - apply (headed_buffers h 0 [] b m); [done|done|lia].
  - intros a (c & k & [[= -> ->]|?%elem_of_nil]%elem_of_cons & Ha); [|done].
    destruct Ha as [->| ->]; unfold pool_size, pool_next; lia.
  - intros a Ha Ha8. apply cells_of_cons. left. apply in_cells; (done || lia).
  - by intros a ?%elem_of_nil.
  - intros a [Ha|?%elem_of_nil]%cells_of_cons; [|done]. by apply (unused_cell h b m).
  - intros a Ha8 Ha. apply headed_old; [done|lia|]. intros Hin. apply Ha, cells_of_cons. by left.
  - exists (set_tlsf t (with_buffer b m (initial h))), [(b, m)]. split; [|exact H].
    run (on_tlsf_eq _ _ _ _ Ht). by rewrite (proj2 (Z.eqb_neq (b + 16) 0)) by lia.
Qed.

(** A buffer of the user: aligned, mapped, of a size that the allocator can manage. *)
Record user_buffer (h : mem) (buffer size : Z) : Prop := {
  ub_align : buffer mod 8 = 0;
  ub_range : 8 < buffer ∧ buffer + size < 2 ^ 63;
  ub_size : tlsf_size + 40 ≤ size < tlsf_size + 2 ^ 32 + 16;
  ub_mapped a : buffer ≤ a < buffer + size → a mod 8 = 0 → is_Some (h !! a);
}.
Lemma tlsf_resource_buffer_ok h buffer size :
  user_buffer h buffer size → ∃ s, tlsf_resource_buffer buffer size (initial h) = (Ok tt, s) ∧
    owns h [(buffer, size)] s [] [pool_of (buffer + tlsf_size) (size - tlsf_size)] ∅.
Proof.
  intros [U1 [U2 U2'] U3 U4]. unfold tlsf_resource_buffer. change tlsf_size with 6536 in *.
  rewrite bind_assert by (apply Z.ltb_lt; lia). unfold tlsf_create_with_pool. change tlsf_size with 6536.
  assert (Hin : ∀ a, buffer ≤ a → a + 8 ≤ buffer + size → a mod 8 = 0 → a ∈ cells_of [(buffer, size)])
    by (intros; apply cells_of_cons; left; by apply in_cells).
  assert (Hcell : ∀ a, a ∈ cells_of [(buffer, size)] → a mod 8 = 0 ∧ is_Some (h !! a))
    by (intros a [(? & ? & ?)%cells_aligned|?%elem_of_nil]%cells_of_cons; [|done..]; split;
      [done|apply U4; [lia|done]]).
  destruct (own_create h [(buffer, size)] (tlsf_ (initial h)) 0 [] buffer) as (t & Ht & H & Hct);
    try done.
  - lia.
  - split; [done|by intros ?? ?%elem_of_nil|apply NoDup_nil_2|by intros ? ?%elem_of_nil].
  - by intros a (? & ? & ?%elem_of_nil & _).
  - intros a Ha Ha8. apply Hin; (done || lia).
  - by intros a ?%elem_of_nil.
  - assert (Hpb : pool_bytes (size - 6536) + 16 ≤ size - 6536 ∧ pool_bytes (size - 6536) mod 8 = 0).
    { unfold pool_bytes. pose proof (Z.mul_div_le (size - 6536 - 16) 8). split; [lia|].
        rewrite Z.mul_comm. by apply Z.mod_mul. }
    assert (Hb8 : (buffer + 6536) mod 8 = 0) by (rewrite Z.add_mod, U1; done).
    destruct (add_pool_inv t [] ∅ (buffer + 6536) (size - 6536) (ow_inv _ _ _ _ _ _ H))
      as (t2 & Hr2 & Hk & _ & Hi2).
    { split; [done|lia|lia| |by intros ?? ?%elem_of_nil|lia]. intros a Ha Ha8.
      destruct (decide (a ∈ cells_of [(buffer, size)])) as [Hc|Hc];
        [by apply (own_mapped _ _ _ _ _ _ a H)|].
      change (heap t) with (heap (tlsf_ (State t 0 (buffer_size 0)))).
      rewrite (ow_rest _ _ _ _ _ _ H) by done.
      apply U4; [lia|done]. }
    exists (set_tlsf t2 (initial h)). split.
    + erewrite bind_ok;
        [|apply on_tlsf_eq; run Ht; rewrite (u64_small (buffer + 6536)), (u64_small (size - 6536))
        by lia;
        run Hr2; done]. by rewrite (proj2 (Z.eqb_neq buffer 0)) by lia.
    + eapply (own_tlsf h _ (State t 0 (buffer_size 0)) [] [] ∅);
        [exact H|done|exact Hk|by intros a (? & ? & ?%elem_of_nil & _)|].
      intros a (x & e & [[= -> ->]|?%elem_of_nil]%elem_of_cons & Ha)%inside Ha8; [|done].
      apply Hin; [lia| |done].
      pose proof (aligned_end (buffer + 6536) a (pool_bytes (size - 6536) + 16) Hb8 Ha8) as Hend.
      rewrite Z.add_mod, (proj2 Hpb) in Hend by lia. specialize (Hend eq_refl). lia.
Qed.

(** ** Use *)

(** The states a client can bring a resource to in the memory [h0], with the buffer [ub] it has
    given and the pieces it holds. *)
Inductive uses (h0 : mem) : list (Z * Z) → state → gmap Z Z → Prop :=
  | uses_buffer buffer size s :
      user_buffer h0 buffer size → tlsf_resource_buffer buffer size (initial h0) = (Ok tt, s) →
      uses h0 [(buffer, size)] s ∅
  | uses_size fuel n s :
      0 ≤ n < 2 ^ 63 → tlsf_resource_size fuel n (initial h0) = (Ok tt, s) → uses h0 [] s ∅
  | uses_allocate ub s live fuel j sz p s' :
      uses h0 ub s live → (20 < fuel)%nat → 0 ≤ j < 61 → 0 ≤ sz < 2 ^ 64 - 8 →
      allocate fuel sz (2 ^ j) s = (Ok p, s') → uses h0 ub s' (<[p := sz]> live)
  | uses_throw ub s live fuel j sz e s' :
      uses h0 ub s live → (20 < fuel)%nat → 0 ≤ j < 61 → 0 ≤ sz < 2 ^ 64 - 8 →
      allocate fuel sz (2 ^ j) s = (Throw e, s') → uses h0 ub s' live
  | uses_deallocate ub s live p n al s' :
      uses h0 ub s live → live !! p = Some n → p mod al = 0 →
      deallocate p n al s = (Ok tt, s') → uses h0 ub s' (delete p live)
  | uses_write ub s live p n a v :
      uses h0 ub s live → live !! p = Some n → p ≤ a < p + n → a mod 8 = 0 →
      uses h0 ub (set_tlsf (set_heap (<[a := v]> (heap (tlsf_ s))) (tlsf_ s)) s) live.

Lemma uses_owns h0 ub s live : uses h0 ub s live → ∃ bs P, owns h0 ub s bs P live.
Proof.
  induction 1 as [buffer size s Hu Hr|fuel n s Hn Hr|
    ub s live fuel j sz p s' _ (bs & P & IH) Hf Hj Hsz Hr
    |ub s live fuel j sz e s' _ (bs & P & IH) Hf Hj Hsz Hr|ub s live p n al s' _ (bs & P & IH) Hp Hal Hr
    |ub s live p n a v _ (bs & P & IH) Hp Ha Ha8].
  - destruct (tlsf_resource_buffer_ok h0 buffer size Hu) as (s2 & Hr2 & H).
    assert (s2 = s) as -> by congruence. eauto.
  - destruct (tlsf_resource_size_ok fuel n h0 Hn) as [[e Hr2]|(s2 & bs & Hr2 & H)]; [congruence|].
    assert (s2 = s) as -> by congruence. eauto.
  - destruct (ow_next _ _ _ _ _ _ IH) as (i & Hi & Hn).
    destruct (allocate_ok h0 ub fuel s bs P live i j sz IH Hn Hi Hj Hsz Hf) as (r & s2 & Hr2 & Ha & _).
    rewrite Hr in Hr2. injection Hr2 as <- <-. apply Ha.
  - destruct (ow_next _ _ _ _ _ _ IH) as (i & Hi & Hn).
    destruct (allocate_ok h0 ub fuel s bs P live i j sz IH Hn Hi Hj Hsz Hf) as (r & s2 & Hr2 & Ha & _).
    rewrite Hr in Hr2. injection Hr2 as <- <-. apply Ha.
  - destruct (deallocate_ok h0 ub s bs P live p n al IH Hp Hal) as (s2 & Hr2 & _ & H).
    assert (s2 = s') as -> by congruence. eauto.
  - exists bs, P. by eapply client_write_ok.
Qed.

(** C5: at any point of the use of a TLSF resource, the pieces of a client are mapped and do not
    overlap.  An allocation ends (no more than twenty-one tries): with a new piece, aligned as
    asked for; with the exception of the upstream resource; or, only when no buffer that may
    still be requested is large enough, in an abort.  A deallocation completes.  What is in the
    other pieces of the client stays. *)
Theorem tlsf_resource_sound h0 ub s live :
  uses h0 ub s live →
  (∀ p n, live !! p = Some n → 0 < p ∧ ∀ a, p ≤ a < p + n → a mod 8 = 0 →
    is_Some (heap (tlsf_ s) !! a)) ∧
  (∀ p n q m, live !! p = Some n → live !! q = Some m → p ≠ q → p + n ≤ q ∨ q + m ≤ p) ∧
  (∀ fuel j sz, (20 < fuel)%nat → 0 ≤ j < 61 → 0 ≤ sz < 2 ^ 64 - 8 →
    match allocate fuel sz (2 ^ j) s with
    | (Ok p, s') => p ≠ 0 ∧ p mod 2 ^ j = 0 ∧ live !! p = None ∧ pieces_kept live s s'
    | (Throw _, s') => pieces_kept live s s'
    | (Abort, _) => ∀ i, 0 ≤ i < 20 → next_request_size_ s ≤ buffer_size i → ¬ fits i (2 ^ j) sz
    | (Undef, _) | (NoFuel, _) => False
    end) ∧
  (∀ p n al, live !! p = Some n → p mod al = 0 →
    ∃ s', deallocate p n al s = (Ok tt, s') ∧ pieces_kept (delete p live) s s').
Proof.
  intros (bs & P & H)%uses_owns. destruct (inv_sound _ _ _ (ow_inv _ _ _ _ _ _ H)) as [H1 H2].
  split_and!.
  - intros p n (? & _ & ?)%H1. done.
  - done.
  - intros fuel j sz Hf Hj Hsz. destruct (ow_next _ _ _ _ _ _ H) as (i & Hi & Hn).
    destruct (allocate_ok h0 ub fuel s bs P live i j sz H Hn Hi Hj Hsz Hf) as (r & s2 & -> & Ha & Hab).
    destruct r; cbn in Ha; [naive_solver|naive_solver| |done|done]. intros k Hk Hle. apply Hab; [done|].
    split; [|lia]. rewrite Hn in Hle. unfold buffer_size in Hle. apply (Z.pow_le_mono_r_iff 2); lia.
  - intros p n al Hp Hal.
    destruct (deallocate_ok h0 ub s bs P live p n al H Hp Hal) as (s' & ? & ? & _). eauto.
Qed.

Lemma lookup_given_back bs h a :
  given_back bs h !! a = if decide (a ∈ cells_of bs) then None else h !! a.
Proof.
  unfold given_back. revert h. induction bs as [|[b n] bs IH]; intros h; cbn [foldl].
  - rewrite decide_False; [done|]. by intros ?%elem_of_nil.
  - rewrite IH. cbn [fst snd]. rewrite Pool.lookup_unmap_block. pose proof (cells_of_cons b n bs a).
    repeat case_decide; naive_solver.
Qed.
(** C6: the destructor ends, and gives the memory back: every word is as it was before the resource
    was made, but for those of the buffer its user gave it. *)
Theorem tlsf_resource_gives_back h0 ub s live :
  uses h0 ub s live → ∃ enough, ∀ fuel, (enough ≤ fuel)%nat →
    ∃ s', destruct_ fuel s = (Ok tt, s') ∧ pool_list_ s' = null ∧
      ∀ a, a mod 8 = 0 → a ∉ cells_of ub → heap (tlsf_ s') !! a = h0 !! a.
Proof.
  intros (bs & P & H)%uses_owns. exists (S (length bs)). intros fuel Hf.
  eexists. split_and!; [apply (release_buffers_run fuel s bs); [apply H|lia]|done|]. intros a Ha8 Hu. cbn.
  rewrite lookup_given_back. case_decide as Ha; [by rewrite (ow_new _ _ _ _ _ _ H)|].
  apply (ow_rest _ _ _ _ _ _ H); [done|]. by intros [?|?]%cells_of_app.
Qed.

(** *** Requests that cannot be served *)

Lemma memalign_zero j (t : control) : 0 ≤ j < 61 → tlsf_memalign (2 ^ j) 0 t = (Ok 0, t).
Proof.
  intros Hj. destruct (adjust_request_ok 0 ltac:(lia)) as (adjust & Hadj & Hcase & _).
  assert (0 < 2 ^ j < 2 ^ 61) as Hal by (split; [|apply Z.pow_lt_mono_r]; lia). unfold tlsf_memalign.
  rewrite bind_ok with (a := 0) (s' := t) by (unfold lift; by vm_compute). cbv zeta.
  unfold sizeof_block_header at 1. rewrite (u64_small (0 + 2 ^ j + 32)) by lia.
  destruct (adjust_with_gap (0 + 2 ^ j + 32) j ltac:(lia) ltac:(lia)) as (s & Hs & _).
  by rewrite bind_ok with (a := s) (s' := t) by (unfold lift; by rewrite Hs).
Qed.
(** A request for nothing is never served: buffer after buffer is requested, until the upstream
    resource has no more or the program aborts. *)
Theorem tlsf_resource_allocate_zero fuel j s p s' : 0 ≤ j < 61 → allocate fuel 0 (2 ^ j) s ≠ (Ok p, s').
Proof.
  intros Hj (r & s1 & Hr & _)%bind_ok_inv. revert s Hr. induction fuel as [|fuel IH]; intros s;
    cbn [do_allocate]; [done|].
  unfold alloc_from_buffer. run (on_tlsf_same _ s _ (memalign_zero j (tlsf_ s) Hj)). cbn [Z.eqb negb].
  intros (u & s2 & _ & Hr)%bind_ok_inv. by eapply IH.
Qed.
Lemma no_pools st live j sz : inv st [] live → 0 ≤ j < 61 → 0 ≤ sz < 2 ^ 64 - 8 →
    tlsf_memalign (2 ^ j) sz st = (Ok 0, st).
Proof.
  intros Hi Hj Hsz.
  destruct (memalign_inv st [] live j sz Hi Hj Hsz)
    as (p & st' & Hr & _ & [[-> ->]|(_ & _ & _ & Hi')]); [done|].
  destruct Hi' as (B & L & _ & _ & [_ HP] & Hm).
  destruct (mt_live _ _ Hm p sz) as (t & (_ & k & Hb & _) & _); [apply lookup_insert_eq|].
  by destruct (HP _ _ Hb) as (? & ?%elem_of_nil & _).
Qed.
(** The memory that the constructor requests for the first allocations is not used for them:
    it is no pool of the allocator. *)
Theorem tlsf_resource_initial_unused fuel n h s j sz :
  0 ≤ n < 2 ^ 63 → tlsf_resource_size fuel n (initial h) = (Ok tt, s) → 0 ≤ j < 61 →
    0 ≤ sz < 2 ^ 64 - 8 →
  alloc_from_buffer sz (2 ^ j) s = (Ok 0, s).
Proof.
  intros Hn Hr Hj Hsz.
  destruct (tlsf_resource_size_ok fuel n h Hn) as [[e Hr2]|(s2 & bs & Hr2 & H)]; [congruence|].
  assert (s2 = s) as -> by congruence. apply on_tlsf_same. by eapply no_pools, Hsz; [apply H|].
Qed.
End upstream.

(** ** A resource in use *)

(** An upstream resource with two places for buffers. *)
Definition ex_places (sz al : Z) (h : mem) : list Z :=
  filter (λ b, b mod al = 0 ∧ sz < 2 ^ 40 ∧ map_Forall (λ a _, a + 8 ≤ b ∨ b + sz ≤ a) h) [65536;
    131072].
#[local] Instance ex_resource : Resource := {
  res_alloc sz al h :=
    match ex_places sz al h with
    | b :: _ => (Ok b, map_block b sz h)
    | [] => (Ok null, h)
    end;
  res_free b sz al h := (Ok tt, unmap_block b sz h);
}.
Lemma ex_alloc sz al h b l :
  ex_places sz al h = b :: l →
  0 < b ≤ 131072 ∧ b mod al = 0 ∧ sz < 2 ^ 40 ∧ unused h b sz.
Proof.
  intros E. assert (b ∈ b :: l) as Hb by by left. rewrite <-E in Hb.
  apply list_elem_of_filter in Hb as ((H1 & H2 & H3) & Hb).
  split_and!; [set_unfold; lia|set_unfold; lia|done|done|]. intros a [v Hv]. by apply (H3 a v).
Qed.
#[local] Instance ex_resource_ok : ResourceOk.
Proof.
  split; [|done]. intros sz al h Hsz Hal. cbn -[ex_places].
  destruct (ex_places sz al h) as [|b l] eqn:E; [by left|].
  apply ex_alloc in E as (Hb & Hm & Hs & Hu). right; right. exists b.
  split_and!; [done|lia|done|lia|done].
Qed.
#[local] Instance ex_resource_low : ResourceLow.
Proof.
  intros sz al h b h'. cbn -[ex_places]. destruct (ex_places sz al h) as [|c l] eqn:E;
    [by intros [= <- <-]|]. intros [= <- _] _.
  apply ex_alloc in E as (Hb & Hm & Hs & Hu). lia.
Qed.

Definition ex_r1 : state := (tlsf_resource_size 2 0 (initial ∅)).2.
Definition ex_r2 : state := (allocate 21 100 16 ex_r1).2.
Definition ex_r3 : state := (allocate 21 200 64 ex_r2).2.

Lemma ex_r3_uses : uses ∅ [] ex_r3 {[ 131136 := 100; 131328 := 200 ]}.
Proof.
  replace ({[ 131136 := 100; 131328 := 200 ]} : gmap Z Z)
    with (<[131328 := 200]> (<[131136 := 100]> ∅) : gmap Z Z)
    by (vm_compute; reflexivity).
  apply (uses_allocate ∅ [] ex_r2 (<[131136 := 100]> ∅) 21 6 200);
    [|lia|lia|lia|vm_compute; reflexivity].
  apply (uses_allocate ∅ [] ex_r1 ∅ 21 4 100); [|lia|lia|lia|vm_compute; reflexivity].
  apply (uses_size ∅ 2 0); [lia|vm_compute; reflexivity].
Qed.
Lemma tlsf_resource_sound_witness :
  uses ∅ [] ex_r3 {[ 131136 := 100; 131328 := 200 ]} ∧ (131136 + 100 ≤ 131328 ∨ 131328 + 200 ≤ 131136) ∧
  ∃ s', deallocate 131136 100 16 ex_r3 = (Ok tt, s').
Proof.
  destruct (tlsf_resource_sound ∅ [] ex_r3 {[ 131136 := 100; 131328 := 200 ]} ex_r3_uses)
    as (_ & H2 & _ & H4).
  split; [apply ex_r3_uses|]. split; [by apply (H2 131136 100 131328 200)|].
  destruct (H4 131136 100 16 eq_refl eq_refl) as (s' & Hr & _). by exists s'.
Defined.
Lemma tlsf_resource_gives_back_witness :
  ∃ enough, ∀ fuel, (enough ≤ fuel)%nat → ∃ s', destruct_ fuel ex_r3 = (Ok tt, s') ∧
    pool_list_ s' = null ∧
    ∀ a, a mod 8 = 0 → a ∉ cells_of [] → heap (tlsf_ s') !! a = (∅ : mem) !! a.
Proof. exact (tlsf_resource_gives_back ∅ [] ex_r3 {[ 131136 := 100; 131328 := 200 ]} ex_r3_uses).
  Defined.
End TlsfResource.
