(* ===== verification/Ring.v ===== *)
(** * Circular doubly linked lists in memory

    The node memory and the ring predicate shared by [list] (list.hpp) and
    [intrusive_list] (intrusive_list.hpp).  A node is an object with two links
    and, unless it is a head, a value; the memory maps addresses of live nodes to
    their contents, and an access to any other address is undefined behaviour. *)

From S2P Require Import Prelude.

Local Open Scope Z_scope.
Local Open Scope gpcl_scope.

Module Ring.

Record node (V : Type) : Type := Node { prev : Z; next : Z; val : option V }.
Arguments Node {V} _ _ _.
Arguments prev {V} _.
Arguments next {V} _.
Arguments val {V} _.

Section ring.
Context {V : Type}.

Abbreviation nodes := (gmap Z (node V)).

Definition read (f : node V → Z) (a : Z) : M nodes Z :=
  λ m, match m !! a with Some n => (Ok (f n), m) | None => (Undef, m) end.
Definition get_prev : Z → M nodes Z := read prev.
Definition get_next : Z → M nodes Z := read next.
Definition set_prev (a p : Z) : M nodes unit :=
  λ m, match m !! a with
       | Some n => (Ok tt, <[a := Node p (next n) (val n)]> m)
       | None => (Undef, m)
       end.
Definition set_next (a q : Z) : M nodes unit :=
  λ m, match m !! a with
       | Some n => (Ok tt, <[a := Node (prev n) q (val n)]> m)
       | None => (Undef, m)
       end.

(** The two links of a node, as functions of the memory. *)
Definition nx (m : nodes) (a : Z) : option Z := next <$> m !! a.
Definition pv (m : nodes) (a : Z) : option Z := prev <$> m !! a.

(** Consecutive elements of [l] are linked to each other. *)
Fixpoint links (m : nodes) (l : list Z) : Prop :=
  match l with
  | a :: (b :: _) as t => nx m a = Some b ∧ pv m b = Some a ∧ links m t
  | _ => True
  end.

(** The head [s] and the nodes [l] form a ring, in this order. *)
Definition ring (m : nodes) (s : Z) (l : list Z) : Prop :=
  NoDup (s :: l) ∧ links m (s :: l ++ [s]).

(** ** Links *)

Lemma links_cons2 m a b l :
  links m (a :: b :: l) ↔ nx m a = Some b ∧ pv m b = Some a ∧ links m (b :: l).
Proof. done. Qed.

Lemma links_app m l1 a l2 :
  links m (l1 ++ a :: l2) ↔ links m (l1 ++ [a]) ∧ links m (a :: l2).
Proof.
  induction l1 as [|x l1 IH]; [cbn; tauto|].
  destruct l1 as [|y l1]; [cbn; tauto|]. cbn [app] in *. rewrite !links_cons2. tauto.
Qed.

(** Links only read the next link of all but the last and the previous link of
    all but the first. *)
Lemma links_frame m m' l :
  (∀ a, a ∈ removelast l → nx m' a = nx m a) → (∀ a, a ∈ tail l → pv m' a = pv m a) →
  links m l → links m' l.
Proof.
  induction l as [|a l IH]; [done|]. destruct l as [|b l]; [done|].
  intros Hn Hp (H1 & H2 & H3). rewrite links_cons2.
  change (removelast (a :: b :: l)) with (a :: removelast (b :: l)) in Hn. cbn [tail] in *.
  split_and!.
  - rewrite <- H1. apply Hn. by left.
  - rewrite <- H2. apply Hp. by left.
  - apply IH; [|..|done].
    + intros x Hx. apply Hn. by right.
    + intros x Hx. apply Hp. by right.
Qed.

(** ** Single steps *)

Lemma get_prev_ok m a p : pv m a = Some p → get_prev a m = (Ok p, m).
Proof. unfold pv, get_prev, read. destruct (m !! a); [|done]. cbn. by intros [= ->]. Qed.
Lemma get_next_ok m a q : nx m a = Some q → get_next a m = (Ok q, m).
Proof. unfold nx, get_next, read. destruct (m !! a); [|done]. cbn. by intros [= ->]. Qed.

(** Writing a link, as an update of the memory. *)
Definition upd_prev (a p : Z) (m : nodes) : nodes :=
  alter (λ n, Node p (next n) (val n)) a m.
Definition upd_next (a q : Z) (m : nodes) : nodes :=
  alter (λ n, Node (prev n) q (val n)) a m.

Lemma insert_as_alter (f : node V → node V) (m : nodes) (a : Z) n :
  m !! a = Some n → <[a := f n]> m = alter f a m.
Proof.
  intros Hn. apply map_eq. intros b. destruct (decide (a = b)) as [<-|Hne].
  - by rewrite lookup_insert_eq, lookup_alter_eq, Hn.
  - by rewrite lookup_insert_ne, lookup_alter_ne.
Qed.

Lemma set_prev_ok m a p : is_Some (m !! a) → set_prev a p m = (Ok tt, upd_prev a p m).
Proof.
  intros [n Hn]. unfold set_prev, upd_prev. rewrite Hn.
  by rewrite <- (insert_as_alter (λ n, Node p (next n) (val n)) m a n Hn).
Qed.
Lemma set_next_ok m a q : is_Some (m !! a) → set_next a q m = (Ok tt, upd_next a q m).
Proof.
  intros [n Hn]. unfold set_next, upd_next. rewrite Hn.
  by rewrite <- (insert_as_alter (λ n, Node (prev n) q (val n)) m a n Hn).
Qed.

Lemma nx_upd_prev m a p b : nx (upd_prev a p m) b = nx m b.
Proof.
  unfold nx, upd_prev. destruct (decide (a = b)) as [<-|].
  - rewrite lookup_alter_eq. by destruct (m !! a).
  - by rewrite lookup_alter_ne.
Qed.
Lemma pv_upd_next m a q b : pv (upd_next a q m) b = pv m b.
Proof.
  unfold pv, upd_next. destruct (decide (a = b)) as [<-|].
  - rewrite lookup_alter_eq. by destruct (m !! a).
  - by rewrite lookup_alter_ne.
Qed.
Lemma pv_upd_prev m a p b :
  pv (upd_prev a p m) b = if decide (a = b) then (λ _, p) <$> m !! a else pv m b.
Proof.
  unfold pv, upd_prev. case_decide as H; [subst b|].
  - rewrite lookup_alter_eq. by destruct (m !! a).
  - by rewrite lookup_alter_ne.
Qed.
Lemma nx_upd_next m a q b :
  nx (upd_next a q m) b = if decide (a = b) then (λ _, q) <$> m !! a else nx m b.
Proof.
  unfold nx, upd_next. case_decide as H; [subst b|].
  - rewrite lookup_alter_eq. by destruct (m !! a).
  - by rewrite lookup_alter_ne.
Qed.
Lemma mapped_upd_prev m a p b : is_Some (upd_prev a p m !! b) ↔ is_Some (m !! b).
Proof. unfold upd_prev. by rewrite lookup_alter_is_Some. Qed.
Lemma mapped_upd_next m a q b : is_Some (upd_next a q m !! b) ↔ is_Some (m !! b).
Proof. unfold upd_next. by rewrite lookup_alter_is_Some. Qed.

Lemma nx_mapped m a b : nx m a = Some b → is_Some (m !! a).
Proof. unfold nx. destruct (m !! a); [eauto|done]. Qed.
Lemma pv_mapped m a b : pv m a = Some b → is_Some (m !! a).
Proof. unfold pv. destruct (m !! a); [eauto|done]. Qed.

(** ** Connecting two nodes *)

(** [q->prev = p; p->next = q]. *)
Definition connect (p q : Z) (m : nodes) : nodes := upd_next p q (upd_prev q p m).

Lemma nx_connect m p q a :
  is_Some (m !! p) → nx (connect p q m) a = if decide (p = a) then Some q else nx m a.
Proof.
  intros Hp. unfold connect. rewrite nx_upd_next. case_decide; [|apply nx_upd_prev].
  apply (mapped_upd_prev m q p) in Hp as [n ->]. done.
Qed.
Lemma pv_connect m p q a :
  is_Some (m !! q) → pv (connect p q m) a = if decide (q = a) then Some p else pv m a.
Proof.
  intros [n Hq]. unfold connect. rewrite pv_upd_next, pv_upd_prev. case_decide; [|done].
  by rewrite Hq.
Qed.
Lemma mapped_connect m p q a : is_Some (connect p q m !! a) ↔ is_Some (m !! a).
Proof. unfold connect. by rewrite mapped_upd_next, mapped_upd_prev. Qed.

Lemma removelast_tail_elem (l : list Z) a : a ∈ removelast (tail l) → a ∈ removelast l.
Proof. destruct l as [|x [|y l]]; [done|done|]. intros Ha. by right. Qed.

(** Two linked sequences joined by [connect]. *)
Lemma links_connect m A p q B :
  links m (A ++ [p]) → links m (q :: B) → is_Some (m !! p) → is_Some (m !! q) →
  (p ∉ A) → (p ∉ removelast (q :: B)) → (q ∉ B) → (q ∉ tail (A ++ [p])) →
  links (connect p q m) (A ++ p :: q :: B).
Proof.
  intros HA HB Hp Hq H1 H2 H3 H4. apply links_app. split.
  - eapply links_frame; [| |exact HA].
    + rewrite removelast_last. intros a Ha. rewrite nx_connect by done.
      by rewrite decide_False by (by intros <-).
    + intros a Ha. rewrite pv_connect by done. by rewrite decide_False by (by intros <-).
  - apply links_cons2. rewrite nx_connect, pv_connect, !decide_True by done.
    split_and!; [done|done|]. eapply links_frame; [| |exact HB].
    + intros a Ha. rewrite nx_connect by done. by rewrite decide_False by (by intros <-).
    + intros a Ha. rewrite pv_connect by done. by rewrite decide_False by (by intros <-).
Qed.

(** ** Rings *)

(** Last element of the part [s :: l1] in front of a node, first of the part
    [l2 ++ [s]] behind it. *)
Definition before (s : Z) (l1 : list Z) : Z := default s (last l1).
Definition after (s : Z) (l2 : list Z) : Z := hd s l2.

Lemma before_split s l1 : ∃ A, s :: l1 = A ++ [before s l1] ∧ (l1 = [] ∧ A = [] ∨ ∃ A', A = s :: A' ∧ l1 = A' ++ [before s l1]).
Proof.
  unfold before. destruct l1 as [|x l1 _] using rev_ind; [by exists []; split; [|left]|].
  rewrite last_snoc. exists (s :: l1). split; [done|]. right. by exists l1.
Qed.
Lemma after_split s l2 : ∃ B, l2 ++ [s] = after s l2 :: B ∧ (l2 = [] ∧ B = [] ∨ ∃ B', B = B' ++ [s] ∧ l2 = after s l2 :: B').
Proof.
  unfold after. destruct l2 as [|x l2]; [by exists []; split; [|left]|].
  exists (l2 ++ [s]). split; [done|]. right. by exists l2.
Qed.

Lemma ring_seq (s : Z) l1 l2 A p q B :
  s :: l1 = A ++ [p] → l2 ++ [s] = q :: B →
  s :: (l1 ++ l2) ++ [s] = A ++ p :: q :: B.
Proof.
  intros HA HB. rewrite <- app_assoc, app_comm_cons, HA, HB. by rewrite <- app_assoc.
Qed.

Lemma ring_app m s l1 l2 :
  ring m s (l1 ++ l2) →
  links m (s :: l1) ∧ links m (l2 ++ [s]) ∧
  nx m (before s l1) = Some (after s l2) ∧ pv m (after s l2) = Some (before s l1).
Proof.
  intros [_ Hl]. destruct (before_split s l1) as (A & HA & _), (after_split s l2) as (B & HB & _).
  rewrite (ring_seq _ _ _ _ _ _ _ HA HB) in Hl. apply links_app in Hl as [H1 H2].
  rewrite HA, HB. apply links_cons2 in H2 as (? & ? & ?). done.
Qed.

(** The parts of a ring, joined anew. *)
Lemma ring_join m s l1 l2 :
  NoDup (s :: l1 ++ l2) → links m (s :: l1) → links m (l2 ++ [s]) →
  is_Some (m !! before s l1) → is_Some (m !! after s l2) →
  ring (connect (before s l1) (after s l2) m) s (l1 ++ l2).
Proof.
  intros Hnd H1 H2 Hp Hq. split; [done|].
  destruct (before_split s l1) as (A & HA & HA'), (after_split s l2) as (B & HB & HB').
  apply NoDup_cons in Hnd as [Hs Hnd]. rewrite elem_of_app in Hs.
  apply NoDup_app in Hnd as (Hnd1 & Hdis & Hnd2).
  rewrite (ring_seq _ _ _ _ _ _ _ HA HB). rewrite HA in H1. rewrite HB in H2. apply links_connect; try done.
  - destruct HA' as [[-> ->]|(A' & -> & Heq)]; [by apply not_elem_of_nil|].
    rewrite Heq in Hnd1, Hs. apply NoDup_app in Hnd1 as (_ & Hd & _).
    intros [Hin|Hin]%elem_of_cons.
    + apply Hs. left. rewrite elem_of_app. right. rewrite Hin. by apply list_elem_of_singleton.
    + apply (Hd _ Hin). by apply list_elem_of_singleton.
  - rewrite <- HB, removelast_last. intros Hin.
    destruct HA' as [[-> ->]|(A' & -> & Heq)]; [apply Hs; by right|].
    apply (Hdis (before s l1)); [|done]. rewrite Heq at 2. rewrite elem_of_app. right.
    by apply list_elem_of_singleton.
  - destruct HB' as [[-> ->]|(B' & -> & Heq)]; [by apply not_elem_of_nil|].
    rewrite Heq in Hnd2, Hs. apply NoDup_cons in Hnd2 as [Hd _]. rewrite elem_of_app.
    intros [Hin|Hin%list_elem_of_singleton]; [done|]. apply Hs. right. rewrite Hin. by left.
  - rewrite <- HA. cbn [tail]. intros Hin.
    destruct HB' as [[-> ->]|(B' & -> & Heq)]; [apply Hs; by left|].
    apply (Hdis _ Hin). rewrite Heq at 2. by left.
Qed.

Lemma ring_mapped m s l a : ring m s l → a ∈ s :: l → is_Some (m !! a).
Proof.
  intros Hr [->|Hin]%elem_of_cons.
  - apply (nx_mapped m s (after s l)). apply (ring_app m s [] l Hr).
  - apply list_elem_of_split in Hin as (l1 & l2 & ->).
    apply (pv_mapped m a (before s l1)). apply (ring_app m s l1 (a :: l2) Hr).
Qed.

Lemma before_elem s l1 : before s l1 ∈ s :: l1.
Proof.
  destruct (before_split s l1) as (A & -> & _). rewrite elem_of_app. right.
  by apply list_elem_of_singleton.
Qed.
Lemma after_elem s l2 : after s l2 ∈ s :: l2.
Proof. unfold after. destruct l2 as [|x l2]; [by left|right; by left]. Qed.

Lemma before_in s l1 l2 : before s l1 ∈ s :: l1 ++ l2.
Proof. pose proof (before_elem s l1) as H. rewrite elem_of_cons in *. rewrite elem_of_app. tauto. Qed.
Lemma after_in s l1 l2 : after s l2 ∈ s :: l1 ++ l2.
Proof. pose proof (after_elem s l2) as H. rewrite elem_of_cons in *. rewrite elem_of_app. tauto. Qed.

(** Links of a node in the middle. *)
Lemma ring_neighbours m s l1 x l2 :
  ring m s (l1 ++ x :: l2) → pv m x = Some (before s l1) ∧ nx m x = Some (after s l2).
Proof.
  intros Hr. split; [apply (ring_app m s l1 (x :: l2) Hr)|].
  rewrite (cons_middle x l1 l2), app_assoc in Hr.
  destruct (ring_app m s (l1 ++ [x]) l2 Hr) as (_ & _ & Hn & _).
  unfold before in Hn. by rewrite last_snoc in Hn.
Qed.

Lemma NoDup_middle (s x : Z) l1 l2 :
  NoDup (s :: l1 ++ x :: l2) ↔ NoDup (s :: l1 ++ l2) ∧ (x ∉ s :: l1 ++ l2).
Proof.
  assert (Hp : s :: l1 ++ x :: l2 ≡ₚ x :: s :: l1 ++ l2).
  { rewrite <- Permutation_middle. apply Permutation_swap. }
  rewrite Hp, NoDup_cons. tauto.
Qed.

(** Taking a node out. *)
Lemma ring_delete m s l1 x l2 :
  ring m s (l1 ++ x :: l2) → ring (connect (before s l1) (after s l2) m) s (l1 ++ l2).
Proof.
  intros Hr. destruct (ring_app m s l1 (x :: l2) Hr) as (H1 & H2 & _).
  assert (Hm : ∀ a, a ∈ s :: l1 ++ l2 → is_Some (m !! a)).
  { intros a Ha. apply (ring_mapped m s (l1 ++ x :: l2)); [done|].
    rewrite elem_of_cons, elem_of_app in *. rewrite elem_of_cons. tauto. }
  destruct Hr as [[Hnd _]%NoDup_middle _].
  apply ring_join; [done|done| |apply Hm, before_in|apply Hm, after_in].
  destruct (after_split s l2) as (B & HB & _). cbn [app] in H2. rewrite HB in H2 |- *.
  by apply links_cons2 in H2 as (_ & _ & ?).
Qed.

(** Putting a node in. *)
Lemma ring_insert m s l1 x l2 :
  ring m s (l1 ++ l2) → is_Some (m !! x) → (x ∉ s :: l1 ++ l2) →
  ring (connect (before s l1) x (connect x (after s l2) m)) s (l1 ++ x :: l2).
Proof.
  intros Hr Hx Hnin. destruct (ring_app m s l1 l2 Hr) as (H1 & H2 & _).
  assert (Hm : ∀ a, a ∈ s :: l1 ++ l2 → is_Some (m !! a)) by (intros; by eapply ring_mapped).
  pose proof (Hm _ (before_in s l1 l2)) as Hp. pose proof (Hm _ (after_in s l1 l2)) as Hq.
  destruct Hr as [Hnd _].
  assert (Hnd' : NoDup (s :: l1 ++ x :: l2)) by (by apply NoDup_middle).
  change x with (after s (x :: l2)) at 1. apply ring_join; [done| | |by apply mapped_connect..].
  - apply NoDup_cons in Hnd as [Hs Hnd]. rewrite elem_of_app in Hs.
    apply NoDup_app in Hnd as (_ & Hdis & _).
    eapply links_frame; [| |exact H1]; intros a Ha.
    + rewrite nx_connect by done. rewrite decide_False; [done|]. intros <-. apply Hnin.
      assert (x ∈ s :: l1) by (destruct (before_split s l1) as (A & HA & _);
        rewrite HA, removelast_last in Ha; rewrite HA, elem_of_app; by left).
      rewrite elem_of_cons in *. rewrite elem_of_app. tauto.
    + cbn [tail] in Ha. rewrite pv_connect by done. rewrite decide_False; [done|].
      intros <-. pose proof (after_elem s l2) as [Heq|Hin]%elem_of_cons.
      * rewrite Heq in Ha. tauto.
      * by apply (Hdis _ Ha).
  - destruct (after_split s l2) as (B & HB & HB'). cbn [app]. rewrite HB in H2 |- *.
    apply NoDup_cons in Hnd as [Hs Hnd]. apply NoDup_app in Hnd as (_ & _ & Hnd2).
    rewrite elem_of_app in Hs.
    apply (links_connect m [] x); try done.
    + by apply not_elem_of_nil.
    + rewrite <- HB, removelast_last. intros Hin. apply Hnin. rewrite elem_of_cons, elem_of_app. tauto.
    + destruct HB' as [[-> ->]|(B' & -> & Heq)]; [by apply not_elem_of_nil|].
      rewrite elem_of_app. intros [Hin|Hin%list_elem_of_singleton].
      * rewrite Heq in Hnd2. by apply NoDup_cons in Hnd2 as [? _].
      * apply Hs. right. rewrite Heq, Hin. by left.
    + cbn. by apply not_elem_of_nil.
Qed.

Lemma ring_ext m m' s l :
  (∀ a, a ∈ s :: l → nx m' a = nx m a) → (∀ a, a ∈ s :: l → pv m' a = pv m a) →
  ring m s l → ring m' s l.
Proof.
  intros Hn Hp [Hnd Hl]. split; [done|]. eapply links_frame; [| |exact Hl].
  - change (s :: l ++ [s]) with ((s :: l) ++ [s]). rewrite removelast_last. apply Hn.
  - intros a. cbn [tail]. rewrite elem_of_app, list_elem_of_singleton. intros [Ha| ->]; apply Hp;
      [by right|by left].
Qed.

(** Values are not touched by links. *)
Lemma val_connect m p q a : val <$> connect p q m !! a = val <$> m !! a.
Proof.
  unfold connect, upd_next, upd_prev.
  destruct (decide (p = a)) as [<-|]; [rewrite lookup_alter_eq|rewrite lookup_alter_ne by done];
    (destruct (decide (q = p)) as [<-|]; [|]);
    try (destruct (decide (q = a)) as [<-|]);
    rewrite ?lookup_alter_eq, ?lookup_alter_ne by done; try (by destruct (m !! _)).
Qed.

Lemma lookup_connect_ne m p q a : a ≠ p → a ≠ q → connect p q m !! a = m !! a.
Proof. intros. unfold connect, upd_next, upd_prev. by rewrite !lookup_alter_ne. Qed.

(** Rings of disjoint nodes do not see each other's updates. *)
Lemma ring_frame m m' s l :
  (∀ a, a ∈ s :: l → m' !! a = m !! a) → ring m s l → ring m' s l.
Proof.
  intros Hm. apply ring_ext; intros a Ha; unfold nx, pv; by rewrite Hm.
Qed.

Lemma ring_single m x : ring m x [] ↔ nx m x = Some x ∧ pv m x = Some x.
Proof.
  unfold ring. cbn. split; [naive_solver|]. intros [H1 H2]. split_and!; try done.
  apply NoDup_singleton.
Qed.

(** ** Normal forms of link updates *)

Lemma upd_comm m a p b q : upd_prev a p (upd_next b q m) = upd_next b q (upd_prev a p m).
Proof.
  unfold upd_prev, upd_next. destruct (decide (a = b)) as [<-|].
  - by rewrite !alter_alter_eq.
  - by rewrite alter_alter_ne.
Qed.
Lemma upd_prev_comm m a p b q : a ≠ b → upd_prev a p (upd_prev b q m) = upd_prev b q (upd_prev a p m).
Proof. intros. unfold upd_prev. by rewrite alter_alter_ne. Qed.
Lemma connect_delete m p q x : x ≠ p → x ≠ q → connect p q (delete x m) = delete x (connect p q m).
Proof. intros. unfold connect, upd_prev, upd_next. by rewrite <- !delete_alter_ne. Qed.

Lemma connect_lookup_ext m m' p q b : m' !! b = m !! b → connect p q m' !! b = connect p q m !! b.
Proof.
  intros H. unfold connect, upd_next, upd_prev. rewrite !lookup_alter.
  repeat case_decide; subst; by rewrite ?lookup_alter_eq, ?lookup_alter_ne, ?H by done.
Qed.

(** Putting a linked segment in. *)
Lemma ring_insert_segment m s l1 k l2 x y :
  ring m s (l1 ++ l2) → links m k → head k = Some x → last k = Some y →
  (∀ a, a ∈ k → is_Some (m !! a)) → NoDup (s :: l1 ++ k ++ l2) →
  ring (connect (before s l1) x (connect y (after s l2) m)) s (l1 ++ k ++ l2).
Proof.
  intros Hr Hk Hx Hy Hmk Hnd. destruct (ring_app m s l1 l2 Hr) as (H1 & H2 & _).
  assert (Hm : ∀ a, a ∈ s :: l1 ++ l2 → is_Some (m !! a)) by (intros; by eapply ring_mapped).
  pose proof (Hm _ (before_in s l1 l2)) as Hp. pose proof (Hm _ (after_in s l1 l2)) as Hq.
  destruct k as [|x' k0]; [done|]. cbn in Hx. injection Hx as ->.
  assert (Hyk : y ∈ x :: k0) by (by apply last_Some_elem_of).
  assert (Hxk : x ∈ x :: k0) by (by left).
  change x with (after s ((x :: k0) ++ l2)) at 1.
  pose proof Hnd as Hnd'.
  apply NoDup_cons in Hnd' as [Hs Hnd']. apply NoDup_app in Hnd' as (_ & Hd1 & Hnd2).
  apply NoDup_app in Hnd2 as (Hndk & Hd2 & Hnd2). rewrite !elem_of_app in Hs.
  apply ring_join; [done| | |by apply mapped_connect|by apply mapped_connect, Hmk].
  - eapply links_frame; [| |exact H1]; intros a Ha.
    + rewrite nx_connect by (by apply Hmk). rewrite decide_False; [done|]. intros <-.
      assert (y ∈ s :: l1) as [->|Hin]%elem_of_cons by
        (destruct (before_split s l1) as (A & HA & _);
         rewrite HA, removelast_last in Ha; rewrite HA, elem_of_app; by left); [tauto|].
      apply (Hd1 _ Hin). rewrite elem_of_app. tauto.
    + cbn [tail] in Ha. rewrite pv_connect by done. rewrite decide_False; [done|]. intros <-.
      pose proof (after_elem s l2) as [Heq|Hin]%elem_of_cons; [rewrite Heq in Ha; tauto|].
      apply (Hd1 _ Ha). rewrite elem_of_app. tauto.
  - destruct (after_split s l2) as (B & HB & HB'). rewrite <- app_assoc. rewrite HB in H2 |- *.
    apply last_Some in Hy as [k' Hk']. rewrite Hk' in Hk, Hndk, Hd2, Hyk, Hs |- *.
    rewrite <- app_assoc. cbn [app].
    apply NoDup_app in Hndk as (_ & Hdk & _).
    apply links_connect; try done.
    + apply Hmk. by rewrite Hk'.
    + intros Hin. apply (Hdk _ Hin). by apply list_elem_of_singleton.
    + rewrite <- HB, removelast_last. by apply Hd2.
    + destruct HB' as [[-> ->]|(B' & -> & Heq)]; [by apply not_elem_of_nil|].
      rewrite elem_of_app. intros [Hin|Hin%list_elem_of_singleton].
      * rewrite Heq in Hnd2. by apply NoDup_cons in Hnd2 as [? _].
      * apply Hs. right. right. rewrite Heq, Hin. by left.
    + intros Hin. assert (Hin' : after s l2 ∈ k' ++ [y]) by (by destruct (k' ++ [y]); [|right]).
      pose proof (after_elem s l2) as [Heq|Hin2]%elem_of_cons.
      * rewrite Heq in Hin'. tauto.
      * by apply (Hd2 _ Hin').
Qed.

(** Taking a segment out. *)
Lemma ring_delete_segment m s l1 k l2 :
  ring m s (l1 ++ k ++ l2) →
  ring (connect (before s l1) (after s l2) m) s (l1 ++ l2) ∧ links m k.
Proof.
  intros Hr. destruct (ring_app m s l1 (k ++ l2) Hr) as (H1 & H2 & _).
  assert (Hm : ∀ a, a ∈ s :: l1 ++ l2 → is_Some (m !! a)).
  { intros a Ha. apply (ring_mapped m s (l1 ++ k ++ l2)); [done|].
    rewrite elem_of_cons, !elem_of_app in *. tauto. }
  destruct Hr as [Hnd _]. rewrite <- app_assoc in H2.
  destruct (after_split s l2) as (B & HB & _). rewrite HB in H2. apply links_app in H2 as [Hk H2].
  split.
  - apply ring_join; [|done| |apply Hm, before_in|apply Hm, after_in].
    + eapply sublist_NoDup; [exact Hnd|]. apply sublist_skip, sublist_app; [done|].
      by apply sublist_inserts_l.
    + by rewrite HB.
  - destruct k as [|a k _] using rev_ind; [done|]. rewrite <- app_assoc in Hk.
    by apply links_app in Hk as [? _].
Qed.

End ring.
End Ring.
