(* ===== verification/IntrusiveList.v ===== *)
(** * Intrusive list (intrusive_list.hpp)

    A list object is its head node [this]; the elements are nodes the caller
    owns.  [rep m this l] says that the ring of [this] holds the nodes [l]. *)

From S2P Require Import Prelude.
From S2P Require Import Ring.

Local Open Scope Z_scope.
Local Open Scope gpcl_scope.

Module Intrusive.
Import Ring.

Abbreviation mem := (gmap Z (node unit)).
Abbreviation I A := (M mem A).

(** ** Node functions *)

Definition init (a : Z) : I unit := set_prev a a ;;; set_next a a.
Definition in_list (a : Z) : I bool :=
  let! p := get_prev a in
  let! n := get_next a in
  ret (negb ((p =? a) && (n =? a))).
(** [~intrusive_list_node_base]. *)
Definition node_destroy (a : Z) : I unit :=
  let! b := in_list a in
  gpcl_assert (negb b) ;;; modify (delete a).
Definition node_swap (x y : Z) : I unit :=
  let! xp := get_prev x in
  let! yp := get_prev y in
  set_prev x yp ;;; set_prev y xp ;;;
  let! xn := get_next x in
  let! yn := get_next y in
  set_next x yn ;;; set_next y xn.

Definition insert_between (node prev next : Z) : I unit :=
  set_prev next node ;;; set_next node next ;;; set_prev node prev ;;; set_next prev node.
Definition delete_between (prev next : Z) : I unit :=
  set_prev next prev ;;; set_next prev next.
Definition delete_entry (entry : Z) : I unit :=
  let! p := get_prev entry in
  let! n := get_next entry in
  delete_between p n.
Definition replace_entry (old node : Z) : I unit :=
  let! n := get_next old in
  set_next node n ;;;
  let! n := get_next node in
  set_prev n node ;;;
  let! p := get_prev old in
  set_prev node p ;;;
  let! p := get_prev node in
  set_next p node ;;;
  init old.

(** ** List functions *)

Definition empty (this : Z) : I bool := let! n := get_next this in ret (n =? this).
Definition begin (this : Z) : I Z := get_next this.
Definition end_ (this : Z) : I Z := ret this.

Definition push_front (this node : Z) : I unit :=
  delete_entry node ;;;
  let! n := get_next this in
  insert_between node this n.
Definition push_back (this node : Z) : I unit :=
  delete_entry node ;;;
  let! p := get_prev this in
  insert_between node p this.
Definition erase (node : Z) : I unit := delete_entry node ;;; init node.

Definition back (this : Z) : I Z :=
  let! e := empty this in
  gpcl_assert (negb e) ;;; get_prev this.
Definition front (this : Z) : I Z :=
  let! e := empty this in
  gpcl_assert (negb e) ;;; get_next this.
Definition pop_front (this : Z) : I unit :=
  let! e := empty this in
  gpcl_assert (negb e) ;;; let! x := front this in erase x.
Definition pop_back (this : Z) : I unit :=
  let! e := empty this in
  gpcl_assert (negb e) ;;; let! x := back this in erase x.
Definition replace (old new_ : Z) : I unit := replace_entry old new_.
Definition is_singular (this : Z) : I bool :=
  let! e := empty this in
  if e : bool then ret false else
  let! n := get_next this in
  let! p := get_prev this in
  ret (n =? p).

Fixpoint clear (fuel : nat) (this : Z) : I unit :=
  match fuel with
  | O => nofuel
  | S fuel =>
      let! e := empty this in
      if negb e then pop_back this ;;; clear fuel this else ret tt
  end.

(** [intrusive_list(intrusive_list &&)] and the move assignment; a new list's
    head is linked to itself. *)
Definition move_construct (this other : Z) : I unit :=
  modify (<[this := Node this this None]>) ;;;
  let! e := empty other in
  if negb e then replace_entry other this else ret tt.
Definition move_assign (fuel : nat) (this other : Z) : I unit :=
  if this =? other then ret tt else
  clear fuel this ;;;
  let! e := empty other in
  if negb e then replace_entry other this else ret tt.
Definition destroy (fuel : nat) (this : Z) : I unit :=
  clear fuel this ;;; node_destroy this.

(** [reverse] moves the elements to the local list [stack] and back. *)
Fixpoint reverse_out (fuel : nat) (this stack : Z) : I unit :=
  match fuel with
  | O => nofuel
  | S fuel =>
      let! e := empty this in
      if negb e then
        let! entry := front this in
        erase entry ;;; push_back stack entry ;;; reverse_out fuel this stack
      else ret tt
  end.
Fixpoint reverse_in (fuel : nat) (this stack : Z) : I unit :=
  match fuel with
  | O => nofuel
  | S fuel =>
      let! e := empty stack in
      if negb e then
        let! entry := back stack in
        erase entry ;;; push_back this entry ;;; reverse_in fuel this stack
      else ret tt
  end.
Definition reverse (fuel : nat) (this stack : Z) : I unit :=
  modify (<[stack := Node stack stack None]>) ;;;
  reverse_out fuel this stack ;;;
  reverse_in fuel this stack ;;;
  destroy fuel stack.

Definition exchange (x y : Z) : I unit := node_swap x y.

(** ** Steps *)

Lemma delete_entry_run m x p q :
  pv m x = Some p → nx m x = Some q → is_Some (m !! p) → is_Some (m !! q) →
  delete_entry x m = (Ok tt, connect p q m).
Proof.
  intros Hp Hq Mp Mq. unfold delete_entry, delete_between.
  rewrite (bind_ok _ _ _ _ _ (get_prev_ok m x p Hp)), (bind_ok _ _ _ _ _ (get_next_ok m x q Hq)).
  rewrite (bind_ok _ _ _ _ _ (set_prev_ok m q p Mq)). apply set_next_ok. by apply mapped_upd_prev.
Qed.

Lemma insert_between_run m x p q :
  is_Some (m !! x) → is_Some (m !! p) → is_Some (m !! q) →
  insert_between x p q m = (Ok tt, connect p x (connect x q m)).
Proof.
  intros Mx Mp Mq. unfold insert_between, connect.
  rewrite (bind_ok _ _ _ _ _ (set_prev_ok m q x Mq)).
  erewrite bind_ok; [|apply set_next_ok; by apply mapped_upd_prev].
  erewrite bind_ok; [|apply set_prev_ok; by apply mapped_upd_next, mapped_upd_prev].
  apply set_next_ok. by apply mapped_upd_prev, mapped_upd_next, mapped_upd_prev.
Qed.

Lemma init_run m x : is_Some (m !! x) → init x m = (Ok tt, connect x x m).
Proof.
  intros Mx. unfold init, connect. rewrite (bind_ok _ _ _ _ _ (set_prev_ok m x x Mx)).
  apply set_next_ok. by apply mapped_upd_prev.
Qed.

Lemma empty_run m s l : ring m s l → empty s m = (Ok (bool_decide (l = [])), m).
Proof.
  intros Hr. destruct (ring_app m s [] l Hr) as (_ & _ & Hn & _). cbn in Hn. unfold empty.
  rewrite (bind_ok _ _ _ _ _ (get_next_ok m s _ Hn)). unfold ret. do 2 f_equal.
  destruct Hr as [[Hs _]%NoDup_cons _]. destruct l as [|x l]; [by rewrite Z.eqb_refl|].
  apply Z.eqb_neq. cbn. intros ->. apply Hs. by left.
Qed.

(** ** Specifications *)

Section specs.
Context (m : mem) (s : Z).

Lemma erase_run l1 x l2 :
  ring m s (l1 ++ x :: l2) →
  ∃ m', erase x m = (Ok tt, m') ∧ ring m' s (l1 ++ l2) ∧ ring m' x [] ∧
    ∀ a, a ∉ s :: l1 ++ x :: l2 → m' !! a = m !! a.
Proof.
  intros Hr. destruct (ring_neighbours _ _ _ _ _ Hr) as [Hp Hq].
  assert (Hin : ∀ a, a ∈ s :: l1 ++ l2 → a ∈ s :: l1 ++ x :: l2).
  { intros a. rewrite !elem_of_cons, !elem_of_app, elem_of_cons. tauto. }
  assert (Hm : ∀ a, a ∈ s :: l1 ++ x :: l2 → is_Some (m !! a)) by (intros; by eapply ring_mapped).
  assert (Hx : x ∈ s :: l1 ++ x :: l2) by (rewrite elem_of_cons, elem_of_app, elem_of_cons; auto).
  pose proof (ring_delete m s l1 x l2 Hr) as Hr'.
  destruct Hr as [[_ Hnin]%NoDup_middle _].
  set (m1 := connect (before s l1) (after s l2) m) in *.
  exists (connect x x m1).
  assert (M1 : is_Some (m1 !! x)) by (apply mapped_connect; auto).
  split_and!.
  - unfold erase. rewrite (bind_ok _ _ _ tt m1).
    + by apply init_run.
    + apply delete_entry_run; [done|done|apply Hm, Hin, before_in|apply Hm, Hin, after_in].
  - eapply ring_frame; [|exact Hr']. intros a Ha. apply lookup_connect_ne; intros ->; done.
  - apply ring_single. rewrite nx_connect, pv_connect by done. by rewrite !decide_True.
  - intros a Ha. unfold m1. rewrite !lookup_connect_ne; [done|..]; intros ->; apply Ha; try done;
      [apply Hin, before_in|apply Hin, after_in].
Qed.

(** Pushing a node that is not in any list. *)
Lemma push_run (l1 l2 : list Z) x :
  ring m s (l1 ++ l2) → ring m x [] → (x ∉ s :: l1 ++ l2) →
  ∃ m1, delete_entry x m = (Ok tt, m1) ∧ (∀ a, nx m1 a = nx m a ∧ pv m1 a = pv m a) ∧
    ring m1 s (l1 ++ l2) ∧
    ring (connect (before s l1) x (connect x (after s l2) m1)) s (l1 ++ x :: l2) ∧
    insert_between x (before s l1) (after s l2) m1 =
      (Ok tt, connect (before s l1) x (connect x (after s l2) m1)) ∧
    ∀ a, a ∉ s :: x :: l1 ++ l2 →
      connect (before s l1) x (connect x (after s l2) m1) !! a = m !! a.
Proof.
  intros Hr Hx Hnin. assert (Mx : is_Some (m !! x)) by (eapply ring_mapped; [done|by left]).
  apply ring_single in Hx as [Hn Hp].
  assert (Heq : ∀ a, nx (connect x x m) a = nx m a ∧ pv (connect x x m) a = pv m a).
  { intros a. rewrite nx_connect, pv_connect by done. by case_decide; subst. }
  assert (Hr1 : ring (connect x x m) s (l1 ++ l2)).
  { eapply ring_ext; [| |exact Hr]; intros a _; apply Heq. }
  assert (Mx1 : is_Some (connect x x m !! x)) by (by apply mapped_connect).
  exists (connect x x m). split_and!.
  - by apply delete_entry_run.
  - done.
  - done.
  - by apply ring_insert.
  - apply insert_between_run; [done|..]; (eapply ring_mapped; [exact Hr1|]);
      [apply before_in|apply after_in].
  - intros a Ha.
    assert (a ≠ x ∧ a ≠ before s l1 ∧ a ≠ after s l2) as (? & ? & ?).
    { split_and!; intros ->; apply Ha.
      - right. by left.
      - pose proof (before_in s l1 l2) as [->|?]%elem_of_cons; [by left|right; by right].
      - pose proof (after_in s l1 l2) as [->|?]%elem_of_cons; [by left|right; by right]. }
    by rewrite !lookup_connect_ne.
Qed.

Lemma push_back_run l x :
  ring m s l → ring m x [] → (x ∉ s :: l) →
  ∃ m', push_back s x m = (Ok tt, m') ∧ ring m' s (l ++ [x]) ∧
    ∀ a, a ∉ s :: x :: l → m' !! a = m !! a.
Proof.
  intros Hr Hx Hnin. rewrite <- (app_nil_r l) in Hr, Hnin.
  destruct (push_run l [] x Hr Hx Hnin) as (m1 & H1 & Heq & Hr1 & H2 & H3 & H4).
  rewrite app_nil_r in H4. eexists. split_and!; [|exact H2|exact H4].
  unfold push_back. rewrite (bind_ok _ _ _ _ _ H1).
  destruct (ring_app _ _ _ _ Hr1) as (_ & _ & _ & Hp). cbn [after hd] in Hp.
  rewrite (bind_ok _ _ _ _ _ (get_prev_ok _ _ _ Hp)). exact H3.
Qed.
Lemma push_front_run l x :
  ring m s l → ring m x [] → (x ∉ s :: l) →
  ∃ m', push_front s x m = (Ok tt, m') ∧ ring m' s (x :: l) ∧
    ∀ a, a ∉ s :: x :: l → m' !! a = m !! a.
Proof.
  intros Hr Hx Hnin.
  destruct (push_run [] l x Hr Hx Hnin) as (m1 & H1 & Heq & Hr1 & H2 & H3 & H4).
  eexists. split_and!; [|exact H2|exact H4].
  unfold push_front. rewrite (bind_ok _ _ _ _ _ H1).
  destruct (ring_app _ _ _ _ Hr1) as (_ & _ & Hn & _). cbn [before last] in Hn.
  rewrite (bind_ok _ _ _ _ _ (get_next_ok _ _ _ Hn)). exact H3.
Qed.

Lemma front_run x l : ring m s (x :: l) → front s m = (Ok x, m).
Proof.
  intros Hr. unfold front. rewrite (bind_ok _ _ _ _ _ (empty_run m s _ Hr)).
  rewrite bind_assert by done. apply get_next_ok. apply (ring_app m s [] (x :: l) Hr).
Qed.
Lemma back_run x l : ring m s (l ++ [x]) → back s m = (Ok x, m).
Proof.
  intros Hr. unfold back. rewrite (bind_ok _ _ _ _ _ (empty_run m s _ Hr)).
  rewrite bind_assert by (by rewrite bool_decide_eq_false_2 by (by destruct l)).
  apply get_prev_ok. destruct (ring_app m s (l ++ [x]) []) as (_ & _ & _ & Hp);
    [by rewrite app_nil_r|]. unfold before in Hp. by rewrite last_snoc in Hp.
Qed.
Lemma pop_back_run x l :
  ring m s (l ++ [x]) →
  ∃ m', pop_back s m = (Ok tt, m') ∧ ring m' s l ∧ ring m' x [] ∧
    ∀ a, a ∉ s :: l ++ [x] → m' !! a = m !! a.
Proof.
  intros Hr. destruct (erase_run l x [] Hr) as (m' & H1 & H2 & H3 & H4).
  rewrite app_nil_r in H2. exists m'. split_and!; try done.
  unfold pop_back. rewrite (bind_ok _ _ _ _ _ (empty_run m s _ Hr)).
  rewrite bind_assert by (by rewrite bool_decide_eq_false_2 by (by destruct l)).
  by rewrite (bind_ok _ _ _ _ _ (back_run x l Hr)).
Qed.
End specs.

(** ** Loops *)

Lemma clear_run fuel m s l :
  (length l < fuel)%nat → ring m s l →
  ∃ m', clear fuel s m = (Ok tt, m') ∧ ring m' s [] ∧ (∀ x, x ∈ l → ring m' x []) ∧
    ∀ a, a ∉ s :: l → m' !! a = m !! a.
Proof.
  revert m fuel. induction l as [|x l IH] using rev_ind; intros m fuel Hf Hr;
    (destruct fuel as [|fuel]; [lia|]); cbn [clear];
    rewrite (bind_ok _ _ _ _ _ (empty_run m s _ Hr)).
  - exists m. split_and!; try done. by intros x ?%not_elem_of_nil.
  - rewrite bool_decide_eq_false_2 by (by destruct l). cbn [negb].
    destruct (pop_back_run m s x l Hr) as (m1 & H1 & H2 & H3 & H4).
    rewrite length_app in Hf. cbn in Hf.
    destruct (IH m1 fuel ltac:(lia) H2) as (m' & G1 & G2 & G3 & G4).
    destruct Hr as [Hnd _]. rewrite <- (app_nil_r (l ++ [x])), <- app_assoc in Hnd.
    apply NoDup_middle in Hnd as [_ Hnin]. rewrite app_nil_r in Hnin.
    exists m'. split_and!.
    + by rewrite (bind_ok _ _ _ _ _ H1).
    + done.
    + intros y [Hy|Hy%list_elem_of_singleton]%elem_of_app; [by apply G3|subst y].
      eapply ring_frame; [|exact H3]. intros a Ha%list_elem_of_singleton. subst a. by apply G4.
    + intros a Ha. rewrite G4; [by apply H4|]. intros Hin. apply Ha.
      rewrite elem_of_cons, elem_of_app in *. tauto.
Qed.

(** Moving a node from one ring to the end of another. *)
Lemma move_step m s t l1 x l2 k :
  ring m s (l1 ++ x :: l2) → ring m t k → (∀ a, a ∈ s :: l1 ++ x :: l2 → a ∉ t :: k) →
  ∃ m', (erase x ;;; push_back t x) m = (Ok tt, m') ∧
    ring m' s (l1 ++ l2) ∧ ring m' t (k ++ [x]) ∧
    ∀ a, a ∉ s :: l1 ++ x :: l2 → a ∉ t :: k → m' !! a = m !! a.
Proof.
  intros Hs Ht Hd. destruct (erase_run m s l1 x l2 Hs) as (m1 & H1 & H2 & H3 & H4).
  assert (Hx : x ∈ s :: l1 ++ x :: l2) by (rewrite elem_of_cons, elem_of_app, elem_of_cons; auto).
  assert (Ht1 : ring m1 t k).
  { eapply ring_frame; [|exact Ht]. intros a Ha. apply H4. intros Hin. by apply (Hd a). }
  destruct (push_back_run m1 t k x Ht1 H3 (Hd x Hx)) as (m2 & G1 & G2 & G3).
  exists m2. split_and!.
  - by rewrite (bind_ok _ _ _ _ _ H1).
  - eapply ring_frame; [|exact H2]. intros a Ha. apply G3.
    destruct Hs as [[_ Hnin]%NoDup_middle _].
    rewrite !elem_of_cons. intros [->|[->|Hk]].
    + apply (Hd t); [|by left]. rewrite !elem_of_cons, !elem_of_app in *. rewrite elem_of_cons. tauto.
    + done.
    + apply (Hd a); [|by right]. rewrite !elem_of_cons, !elem_of_app in *. rewrite elem_of_cons. tauto.
  - done.
  - intros a Ha1 Ha2. rewrite G3; [by apply H4|].
    rewrite !elem_of_cons in *. intros [->|[->|Hk]]; [tauto| |tauto].
    apply Ha1. rewrite elem_of_app, elem_of_cons. tauto.
Qed.

Lemma NoDup_two (s t : Z) l k a :
  NoDup (s :: t :: l ++ k) → (a ∈ s :: l → a ∉ t :: k) ∧ (a ∈ t :: k → a ∉ s :: l).
Proof.
  intros Hnd. assert (Hp : NoDup ((s :: l) ++ t :: k)).
  { assert (Hq : s :: t :: l ++ k ≡ₚ (s :: l) ++ t :: k) by
      (cbn; apply perm_skip, Permutation_middle). by rewrite <- Hq. }
  apply NoDup_app in Hp as (_ & Hd & _). split; [by apply Hd|]. intros Ha Hb. by apply (Hd a).
Qed.

Lemma reverse_out_run fuel m s t l k :
  (length l < fuel)%nat → ring m s l → ring m t k → NoDup (s :: t :: l ++ k) →
  ∃ m', reverse_out fuel s t m = (Ok tt, m') ∧ ring m' s [] ∧ ring m' t (k ++ l) ∧
    ∀ a, a ∉ s :: t :: l ++ k → m' !! a = m !! a.
Proof.
  revert m k fuel. induction l as [|x l IH]; intros m k fuel Hf Hs Ht Hnd;
    (destruct fuel as [|fuel]; [cbn in Hf; lia|]); cbn [reverse_out];
    rewrite (bind_ok _ _ _ _ _ (empty_run m s _ Hs)).
  - exists m. rewrite app_nil_r. done.
  - rewrite bool_decide_eq_false_2 by done. cbn [negb]. rewrite (bind_ok _ _ _ _ _ (front_run m s x l Hs)).
    assert (Hd : ∀ a, a ∈ s :: [] ++ x :: l → a ∉ t :: k).
    { intros a. exact (proj1 (NoDup_two s t (x :: l) k a Hnd)). }
    destruct (move_step m s t [] x l k Hs Ht Hd) as (m1 & H1 & H2 & H3 & H4).
    assert (Hnd' : NoDup (s :: t :: l ++ k ++ [x])).
    { assert (Hq : s :: t :: (x :: l) ++ k ≡ₚ s :: t :: l ++ k ++ [x]).
      { do 2 apply perm_skip. rewrite app_assoc. apply (Permutation_cons_append (l ++ k) x). }
      by rewrite <- Hq. }
    destruct (IH m1 (k ++ [x]) fuel ltac:(cbn in Hf; lia) H2 H3 Hnd') as (m' & G1 & G2 & G3 & G4).
    exists m'. split_and!.
    + rewrite <- bind_assoc. by rewrite (bind_ok _ _ _ _ _ H1).
    + done.
    + by rewrite (cons_middle x k l), app_assoc.
    + intros a Ha. rewrite G4, H4; [done|..]; clear -Ha; set_solver.
Qed.

Lemma reverse_in_run fuel m s t l k :
  (length k < fuel)%nat → ring m s l → ring m t k → NoDup (s :: t :: l ++ k) →
  ∃ m', reverse_in fuel s t m = (Ok tt, m') ∧ ring m' s (l ++ rev k) ∧ ring m' t [] ∧
    ∀ a, a ∉ s :: t :: l ++ k → m' !! a = m !! a.
Proof.
  revert m l fuel. induction k as [|x k IH] using rev_ind; intros m l fuel Hf Hs Ht Hnd;
    (destruct fuel as [|fuel]; [lia|]); cbn [reverse_in];
    rewrite (bind_ok _ _ _ _ _ (empty_run m t _ Ht)).
  - exists m. rewrite app_nil_r. done.
  - rewrite bool_decide_eq_false_2 by (by destruct k). cbn [negb].
    rewrite (bind_ok _ _ _ _ _ (back_run m t x k Ht)).
    assert (Hd : ∀ a, a ∈ t :: k ++ [x] → a ∉ s :: l).
    { intros a. exact (proj2 (NoDup_two s t l (k ++ [x]) a Hnd)). }
    destruct (move_step m t s k x [] l Ht Hs Hd) as (m1 & H1 & H2 & H3 & H4).
    rewrite app_nil_r in H2. rewrite length_app in Hf. cbn in Hf.
    assert (Hnd' : NoDup (s :: t :: (l ++ [x]) ++ k)).
    { assert (Hq : s :: t :: l ++ k ++ [x] ≡ₚ s :: t :: (l ++ [x]) ++ k).
      { do 2 apply perm_skip. rewrite <- app_assoc. apply Permutation_app_head, Permutation_app_comm. }
      by rewrite <- Hq. }
    destruct (IH m1 (l ++ [x]) fuel ltac:(lia) H3 H2 Hnd') as (m' & G1 & G2 & G3 & G4).
    exists m'. split_and!.
    + rewrite <- bind_assoc. by rewrite (bind_ok _ _ _ _ _ H1).
    + rewrite rev_unit. by rewrite <- app_assoc in G2.
    + done.
    + intros a Ha. rewrite G4, H4; [done|..]; clear -Ha; set_solver.
Qed.

(** ** Properties *)

(** [push_back] of a node that is in no list appends it and changes no node
    outside the list; [erase] takes exactly that node out again. *)
Theorem intrusive_push_erase m s l x :
  ring m s l → ring m x [] → (x ∉ s :: l) →
  ∃ m1 m2, push_back s x m = (Ok tt, m1) ∧ ring m1 s (l ++ [x]) ∧
    erase x m1 = (Ok tt, m2) ∧ ring m2 s l ∧ ring m2 x [] ∧
    ∀ a, a ∉ s :: x :: l → m2 !! a = m !! a.
Proof.
  intros Hr Hx Hnin. destruct (push_back_run m s l x Hr Hx Hnin) as (m1 & H1 & H2 & H3).
  destruct (erase_run m1 s l x [] H2) as (m2 & G1 & G2 & G3 & G4). rewrite app_nil_r in G2.
  exists m1, m2. split_and!; try done. intros a Ha. rewrite G4, H3; [done|done|].
  clear -Ha. set_solver.
Qed.

(** [reverse] terminates, reverses the list, touches no other node and
    leaves nothing of its local list behind. *)
Theorem intrusive_reverse_spec fuel m s t l :
  (length l < fuel)%nat → ring m s l → m !! t = None →
  ∃ m', reverse fuel s t m = (Ok tt, m') ∧ ring m' s (rev l) ∧ m' !! t = None ∧
    ∀ a, a ∉ s :: t :: l → m' !! a = m !! a.
Proof.
  intros Hf Hr Ht.
  assert (Hnin : t ∉ s :: l).
  { intros Hin. destruct (ring_mapped m s l t Hr Hin) as [n Hn]. by rewrite Ht in Hn. }
  set (m0 := <[t := Node t t None]> m : mem).
  assert (Hr0 : ring m0 s l).
  { eapply ring_frame; [|exact Hr]. intros a Ha. apply lookup_insert_ne. by intros <-. }
  assert (Ht0 : ring m0 t []).
  { apply ring_single. unfold nx, pv, m0. by rewrite lookup_insert_eq. }
  assert (Hnd : NoDup (s :: t :: l ++ [])).
  { rewrite app_nil_r. destruct Hr as [Hnd _]. rewrite elem_of_cons in Hnin.
    apply NoDup_cons in Hnd as [? ?]. apply NoDup_cons. rewrite elem_of_cons.
    split; [naive_solver|]. apply NoDup_cons. naive_solver. }
  destruct (reverse_out_run fuel m0 s t l [] Hf Hr0 Ht0 Hnd) as (m1 & H1 & H2 & H3 & H4).
  rewrite app_nil_r in Hnd, H4.
  destruct (reverse_in_run fuel m1 s t [] l Hf H2 H3 Hnd) as (m2 & G1 & G2 & G3 & G4).
  destruct (clear_run fuel m2 t [] ltac:(cbn; lia) G3) as (m3 & K1 & K2 & _ & K4).
  exists (delete t m3). split_and!.
  - unfold reverse. rewrite bind_modify. rewrite (bind_ok _ _ _ _ _ H1), (bind_ok _ _ _ _ _ G1).
    unfold destroy, node_destroy, in_list. rewrite (bind_ok _ _ _ _ _ K1).
    apply ring_single in K2 as [Hn Hp]. rewrite bind_assoc.
    rewrite (bind_ok _ _ _ _ _ (get_prev_ok _ _ _ Hp)), bind_assoc.
    rewrite (bind_ok _ _ _ _ _ (get_next_ok _ _ _ Hn)), bind_ret_l.
    rewrite Z.eqb_refl. done.
  - eapply ring_frame; [|exact G2]. intros a Ha.
    assert (Hat : a ≠ t).
    { intros ->. apply Hnin. cbn in Ha. by rewrite <- (Permutation_rev l) in Ha. }
    rewrite lookup_delete_ne by done. apply K4. by rewrite list_elem_of_singleton.
  - apply lookup_delete_eq.
  - intros a Ha. assert (a ≠ t) by (intros ->; apply Ha; set_solver).
    rewrite lookup_delete_ne by done. rewrite K4, G4, H4; [|clear -Ha; set_solver..].
    unfold m0. by apply lookup_insert_ne.
Qed.

(** A list at 1 with the nodes 2 and 3, and a free node 4. *)
Definition ex_mem : mem :=
  <[1 := Node 3 2 None]> (<[2 := Node 1 3 None]> (<[3 := Node 2 1 None]>
    (<[4 := Node 4 4 None]> ∅))).

(** [exchange] of two neighbouring elements does not swap them: afterwards
    the head is not part of any ring. *)
Theorem intrusive_exchange_breaks_ring :
  ring ex_mem 1 [2; 3] ∧
  ∃ m, exchange 2 3 ex_mem = (Ok tt, m) ∧ ¬ ∃ l, ring m 1 l.
Proof.
  split.
  - split; [apply (bool_decide_unpack _); by vm_compute|by vm_compute].
  - eexists. split; [vm_compute; reflexivity|].
    intros (l & Hnd & Hl). destruct l as [|a l]; [by vm_compute in Hl; destruct Hl|].
    cbn [app] in Hl. apply links_cons2 in Hl as (H1 & _ & Hl). vm_compute in H1. simplify_eq.
    destruct l as [|b l]; apply links_cons2 in Hl as (H1 & H2 & _); vm_compute in H1, H2; simplify_eq.
Qed.

Lemma ex_ring : ring ex_mem 1 [2; 3].
Proof. split; [apply (bool_decide_unpack _); by vm_compute|by vm_compute]. Defined.

Lemma intrusive_push_erase_witness :
  ∃ m1 m2, push_back 1 4 ex_mem = (Ok tt, m1) ∧ ring m1 1 ([2; 3] ++ [4]) ∧
    erase 4 m1 = (Ok tt, m2) ∧ ring m2 1 [2; 3] ∧ ring m2 4 [] ∧
    ∀ a, a ∉ [1; 4; 2; 3] → m2 !! a = ex_mem !! a.
Proof.
  apply intrusive_push_erase; [apply ex_ring|by apply ring_single|].
  apply (bool_decide_unpack _). by vm_compute.
Defined.

Lemma intrusive_reverse_witness :
  ∃ m', reverse 5 1 9 ex_mem = (Ok tt, m') ∧ ring m' 1 (rev [2; 3]) ∧ m' !! 9 = None ∧
    ∀ a, a ∉ [1; 9; 2; 3] → m' !! a = ex_mem !! a.
Proof. apply intrusive_reverse_spec; [cbn; lia|apply ex_ring|by vm_compute]. Defined.

End Intrusive.
