(* ===== verification/List.v ===== *)
(** * Doubly linked list (list.hpp)

    A list object is identified with the address [this] of its past-the-end node
    [p_.second()]; [sizes] holds the member [size_] of every list object.  Nodes
    come from an allocator that may fail with [std::bad_alloc]; allocators of all
    lists are equal and do not propagate, as with [default_allocator].  The constructor of
    an element may throw.  An iterator is the address of its node. *)

From S2P Require Import Prelude.
From S2P Require Import Ring.

Local Open Scope Z_scope.
Local Open Scope gpcl_scope.

(** The node allocator: the address of a new node, if there is memory; and the exception of the
    constructor of an element from the value [v], if it throws. *)
Class NodeAlloc (V : Type) : Type := {
  node_alloc : gmap Z (Ring.node V) → option Z;
  value_throws : gmap Z (Ring.node V) → V → option exn;
}.
(** It returns addresses that are not in use. *)
Class NodeAllocOk (V : Type) `{!NodeAlloc V} : Prop :=
  node_alloc_fresh m a : node_alloc m = Some a → m !! a = None.

Module Linked.
Import Ring.

Section list.
Context {V : Type} `{!NodeAlloc V}.

Record state : Type := State { nodes : gmap Z (node V); sizes : gmap Z Z }.

Definition set_nodes (m : gmap Z (node V)) (s : state) : state := State m (sizes s).
Definition set_sizes (z : gmap Z Z) (s : state) : state := State (nodes s) z.

Abbreviation L A := (M state A).

Definition on_nodes {A} (f : M (gmap Z (node V)) A) : L A := zoom nodes set_nodes f.
Definition node_prev (a : Z) : L Z := on_nodes (get_prev a).
Definition node_next (a : Z) : L Z := on_nodes (get_next a).
Definition put_prev (a p : Z) : L unit := on_nodes (set_prev a p).
Definition put_next (a q : Z) : L unit := on_nodes (set_next a q).
(** [node->val_]: the union member must be alive. *)
Definition node_val (a : Z) : L V :=
  λ s, match nodes s !! a ≫= val with Some v => (Ok v, s) | None => (Undef, s) end.
Definition put_val (a : Z) (v : V) : L unit :=
  λ s, match nodes s !! a with
       | Some (Node p q (Some _)) => (Ok tt, set_nodes (<[a := Node p q (Some v)]> (nodes s)) s)
       | _ => (Undef, s)
       end.

Definition size (this : Z) : L Z :=
  λ s, match sizes s !! this with Some n => (Ok n, s) | None => (Undef, s) end.
Definition put_size (this n : Z) : L unit := modify (λ s, set_sizes (<[this := n]> (sizes s)) s).

(** ** Nodes *)

(** [list_node::swap]: exchanges the positions of two nodes. *)
Definition node_swap (x y : Z) : L unit :=
  if x =? y then ret tt else
  let! prev := node_prev x in
  let! next := node_next x in
  let! other_prev := node_prev y in
  let! other_next := node_next y in
  put_prev x other_prev ;;; put_next x other_next ;;;
  put_next prev y ;;; put_prev next y ;;;
  put_next other_prev x ;;; put_prev other_next x ;;;
  put_prev y prev ;;; put_next y next.

Definition create_node (prev next : Z) (v : V) : L Z :=
  let! s := get in
  match node_alloc (nodes s) with
  | Some a =>
      put (set_nodes (<[a := Node prev next None]> (nodes s)) s) ;;;
      match value_throws (nodes s) v with
      | None => modify (λ s, set_nodes (<[a := Node prev next (Some v)]> (nodes s)) s) ;;; ret a
      | Some e => modify (λ s, set_nodes (delete a (nodes s)) s) ;;; throw e
      end
  | None => throw bad_alloc
  end.
(** How it ends. *)
Definition new_node (m : gmap Z (node V)) (v : V) : Z + exn :=
  match node_alloc m with
  | Some a => match value_throws m v with None => inl a | Some e => inr e end
  | None => inr bad_alloc
  end.
(** [destroy_node]: destroys the value, then the node. *)
Definition destroy_node (a : Z) : L unit :=
  node_val a ;;; modify (λ s, set_nodes (delete a (nodes s)) s).

(** ** Access *)

Definition begin (this : Z) : L Z := node_next this.
Definition end_ (this : Z) : L Z := ret this.
Definition front (this : Z) : L V := let! a := begin this in node_val a.
Definition back (this : Z) : L V := let! a := node_prev this in node_val a.
Definition empty (this : Z) : L bool := let! a := begin this in ret (a =? this).

(** ** Insertion and removal *)

Definition emplace (this pos : Z) (v : V) : L Z :=
  let! p := node_prev pos in
  let! node := create_node p pos v in
  let! p := node_prev pos in
  put_next p node ;;;
  put_prev pos node ;;;
  let! n := size this in
  put_size this (u64 (n + 1)) ;;;
  ret node.

Definition erase (this pos : Z) : L Z :=
  let! prev := node_prev pos in
  let! next := node_next pos in
  destroy_node pos ;;;
  let! n := size this in
  put_size this (u64 (n - 1)) ;;;
  put_next prev next ;;;
  put_prev next prev ;;;
  ret next.

Fixpoint erase_loop (fuel : nat) (this node next : Z) : L unit :=
  match fuel with
  | O => nofuel
  | S fuel =>
      if node =? next then ret tt else
      let! tmp := node_next node in
      destroy_node node ;;;
      let! n := size this in
      put_size this (u64 (n - 1)) ;;;
      erase_loop fuel this tmp next
  end.
Definition erase_range (fuel : nat) (this first last : Z) : L Z :=
  let! prev := node_prev first in
  erase_loop fuel this first last ;;;
  put_next prev last ;;;
  put_prev last prev ;;;
  ret last.

Definition clear (fuel : nat) (this : Z) : L unit :=
  let! b := begin this in
  erase_range fuel this b this ;;; ret tt.
(** [~list()]: the elements, then the past-the-end node and the object. *)
Definition destroy (fuel : nat) (this : Z) : L unit :=
  clear fuel this ;;;
  modify (λ s, State (delete this (nodes s)) (delete this (sizes s))).
(** [list(a)]: an empty list at [this]. *)
Definition construct (this : Z) : L unit :=
  modify (λ s, State (<[this := Node this this None]> (nodes s)) (<[this := 0]> (sizes s))).

(** The handler of the [insert] loops: erases the [n] elements at [pos]. *)
Fixpoint unwind (n : nat) (this pos : Z) : L unit :=
  match n with
  | O => ret tt
  | S n => let! pos := erase this pos in unwind n this pos
  end.

(** [insert(pos, count, value)]: [count] rounds left, [n] done. *)
Fixpoint insert_count_loop (count n : nat) (this pos : Z) (v : V) : L Z :=
  match count with
  | O => ret pos
  | S count =>
      let! pos := try_catch (emplace this pos v) (unwind n this pos) in
      insert_count_loop count (S n) this pos v
  end.
Definition insert_count (this pos : Z) (count : nat) (v : V) : L Z :=
  insert_count_loop count 0 this pos v.

(** [insert(pos, first, last)] from a sequence of values, last one first. *)
Fixpoint insert_values_loop (rvs : list V) (n : nat) (this pos : Z) : L Z :=
  match rvs with
  | [] => ret pos
  | v :: rvs =>
      let! pos := try_catch (emplace this pos v) (unwind n this pos) in
      insert_values_loop rvs (S n) this pos
  end.
Definition insert_values (this pos : Z) (vs : list V) : L Z :=
  insert_values_loop (rev vs) 0 this pos.

(** The same from the nodes of a list. *)
Fixpoint insert_nodes_loop (fuel : nat) (n : nat) (this pos first last : Z) : L Z :=
  match fuel with
  | O => nofuel
  | S fuel =>
      if first =? last then ret pos else
      let! l := node_prev last in
      let! v := node_val l in
      let! pos := try_catch (emplace this pos v) (unwind n this pos) in
      insert_nodes_loop fuel (S n) this pos first l
  end.
Definition insert_nodes (fuel : nat) (this pos first last : Z) : L Z :=
  insert_nodes_loop fuel 0 this pos first last.

Definition emplace_front (this : Z) (v : V) : L Z := let! b := begin this in emplace this b v.
Definition push_front (this : Z) (v : V) : L unit := emplace_front this v ;;; ret tt.
Definition pop_front (this : Z) : L unit := let! b := begin this in erase this b ;;; ret tt.
Definition emplace_back (this : Z) (v : V) : L Z := emplace this this v.
Definition push_back (this : Z) (v : V) : L unit := emplace_back this v ;;; ret tt.
Definition pop_back (this : Z) : L unit := let! p := node_prev this in erase this p ;;; ret tt.

(** [while (size_ > count) pop_back()] and [while (count > size_) emplace_back()]. *)
Fixpoint shrink_loop (fuel : nat) (this count : Z) : L unit :=
  match fuel with
  | O => nofuel
  | S fuel =>
      let! n := size this in
      if count <? n then pop_back this ;;; shrink_loop fuel this count else ret tt
  end.
Fixpoint grow_loop (fuel : nat) (this count : Z) (v : V) : L unit :=
  match fuel with
  | O => nofuel
  | S fuel =>
      let! n := size this in
      if n <? count then emplace_back this v ;;; grow_loop fuel this count v else ret tt
  end.
(** [resize(count)], with the default value [v0] of the element type. *)
Definition resize (v0 : V) (fuel : nat) (this count : Z) : L unit :=
  let! n := size this in
  (if n <? count then grow_loop fuel this count v0 else shrink_loop fuel this count) ;;;
  let! n := size this in
  gpcl_assert (count =? n).
Definition resize_value (fuel : nat) (this count : Z) (v : V) : L unit :=
  let! n := size this in
  (if n <? count then insert_count this this (Z.to_nat (count - n)) v ;;; ret tt
   else shrink_loop fuel this count) ;;;
  let! n := size this in
  gpcl_assert (count =? n).

(** ** Splicing *)

(** [std::distance(first, last)]. *)
Fixpoint distance (fuel : nat) (first last : Z) : L Z :=
  match fuel with
  | O => nofuel
  | S fuel =>
      if first =? last then ret 0 else
      let! n := node_next first in
      let! d := distance fuel n last in
      ret (d + 1)
  end.

(** The links of [splice]: the nodes [node .. next) go in front of [pos]. *)
Definition splice_links (pos node next : Z) : L unit :=
  let! prev := node_prev node in
  let! node_last := node_prev next in
  put_next prev next ;;;
  put_prev next prev ;;;
  let! pos_prev := node_prev pos in
  put_prev node pos_prev ;;;
  put_next node_last pos ;;;
  put_next pos_prev node ;;;
  put_prev pos node_last.
Definition splice_range (fuel : nat) (this pos other first last : Z) : L unit :=
  (if negb (this =? other) then
     let! count := distance fuel first last in
     let! n := size other in
     put_size other (u64 (n - count)) ;;;
     let! n := size this in
     put_size this (u64 (n + count))
   else ret tt) ;;;
  splice_links pos first last.
Definition splice_all (fuel : nat) (this pos other : Z) : L unit :=
  let! b := begin other in splice_range fuel this pos other b other.
Definition splice_one (fuel : nat) (this pos other it : Z) : L unit :=
  let! n := node_next it in splice_range fuel this pos other it n.

(** [swap(other)]: swaps the past-the-end nodes and the sizes. *)
Definition swap (this other : Z) : L unit :=
  node_swap this other ;;;
  let! n := size this in
  let! k := size other in
  put_size this k ;;; put_size other n.

(** A constructor that delegates to [list(a)]: an exception in its body runs the
    destructor of the list made so far. *)
Definition delegating (fuel : nat) (this : Z) (body : L unit) : L unit :=
  construct this ;;; try_catch body (destroy fuel this).
(** [list(first, last)], [list(count, value)], [list(list &&)], [list(const list &)]. *)
Definition construct_values (fuel : nat) (this : Z) (vs : list V) : L unit :=
  delegating fuel this (insert_values this this vs ;;; ret tt).
Definition construct_count (fuel : nat) (this count : Z) (v : V) : L unit :=
  delegating fuel this (resize_value fuel this count v).
Definition move_construct (fuel : nat) (this other : Z) : L unit :=
  delegating fuel this (splice_all fuel this this other).
Definition copy_construct (fuel : nat) (this other : Z) : L unit :=
  delegating fuel this
    (let! b := begin other in insert_nodes fuel this this b other ;;; ret tt).

(** The element-wise loops of the assignment: to the end of this list, or of the
    other one. *)
Fixpoint assign_loop (fuel : nat) (this_end : bool) (first last other_first other_last : Z) : L (Z * Z) :=
  match fuel with
  | O => nofuel
  | S fuel =>
      if (if this_end then first =? last else other_first =? other_last)
      then ret (first, other_first) else
      let! v := node_val other_first in
      put_val first v ;;;
      let! first := node_next first in
      let! other_first := node_next other_first in
      assign_loop fuel this_end first last other_first other_last
  end.
Definition copy_assign (fuel : nat) (this other : Z) : L unit :=
  let! n := size this in
  let! k := size other in
  let! first := begin this in
  let! other_first := begin other in
  let! '(f, o) := assign_loop fuel (n <? k) first this other_first other in
  if n <? k then insert_nodes fuel this this o other ;;; ret tt
  else erase_range fuel this f this ;;; ret tt.
Definition move_assign (fuel : nat) (this other : Z) : L unit :=
  clear fuel this ;;; splice_all fuel this this other.

(** ** Sorting *)

Fixpoint sort_inner (lt : V → V → bool) (fuel : nat) (this i j : Z) : L Z :=
  match fuel with
  | O => nofuel
  | S fuel =>
      if j =? this then ret i else
      let! vj := node_val j in
      let! vi := node_val i in
      let! next := node_next j in
      if lt vj vi then
        splice_one fuel this i this j ;;;
        sort_inner lt fuel this j next
      else sort_inner lt fuel this i next
  end.
Fixpoint sort_outer (lt : V → V → bool) (fuel : nat) (this i : Z) : L unit :=
  match fuel with
  | O => nofuel
  | S fuel' =>
      if i =? this then ret tt else
      let! j := node_next i in
      let! i := sort_inner lt fuel this i j in
      let! i := node_next i in
      sort_outer lt fuel' this i
  end.
Definition sort (lt : V → V → bool) (fuel : nat) (this : Z) : L unit :=
  let! b := begin this in sort_outer lt fuel this b.

(** [operator==]: sizes, then [std::equal] over the first list. *)
Fixpoint equal_loop (eqb : V → V → bool) (fuel : nat) (x x_end y : Z) : L bool :=
  match fuel with
  | O => nofuel
  | S fuel =>
      if x =? x_end then ret true else
      let! a := node_val x in
      let! b := node_val y in
      if eqb a b then
        let! x := node_next x in
        let! y := node_next y in
        equal_loop eqb fuel x x_end y
      else ret false
  end.
Definition equal (eqb : V → V → bool) (fuel : nat) (x y : Z) : L bool :=
  let! n := size x in
  let! k := size y in
  if negb (n =? k) then ret false else
  let! a := begin x in
  let! b := begin y in
  equal_loop eqb fuel a x b.

(** ** Representation *)

(** The list at [this] holds the nodes and values [l]. *)
Record rep (s : state) (this : Z) (l : list (Z * V)) : Prop := {
  rep_ring : ring (nodes s) this l.*1;
  rep_head : val <$> nodes s !! this = Some None;
  rep_vals a v : (a, v) ∈ l → val <$> nodes s !! a = Some (Some v);
  rep_size : sizes s !! this = Some (Z.of_nat (length l));
  rep_bound : Z.of_nat (length l) < 2 ^ 64;
}.

Lemma on_nodes_ok {A} (f : M (gmap Z (node V)) A) s r m :
  f (nodes s) = (r, m) → on_nodes f s = (r, set_nodes m s).
Proof. intros H. unfold on_nodes. by rewrite (zoom_eq _ _ _ _ _ _ H). Qed.
Lemma set_nodes_id s : set_nodes (nodes s) s = s.
Proof. by destruct s. Qed.

Lemma node_prev_ok s a p : pv (nodes s) a = Some p → node_prev a s = (Ok p, s).
Proof.
  intros H. unfold node_prev. erewrite on_nodes_ok by (by apply get_prev_ok). by rewrite set_nodes_id.
Qed.
Lemma node_next_ok s a q : nx (nodes s) a = Some q → node_next a s = (Ok q, s).
Proof.
  intros H. unfold node_next. erewrite on_nodes_ok by (by apply get_next_ok). by rewrite set_nodes_id.
Qed.
Lemma put_prev_ok s a p :
  is_Some (nodes s !! a) → put_prev a p s = (Ok tt, set_nodes (upd_prev a p (nodes s)) s).
Proof. intros H. by apply on_nodes_ok, set_prev_ok. Qed.
Lemma put_next_ok s a q :
  is_Some (nodes s !! a) → put_next a q s = (Ok tt, set_nodes (upd_next a q (nodes s)) s).
Proof. intros H. by apply on_nodes_ok, set_next_ok. Qed.
Lemma size_ok s this n : sizes s !! this = Some n → size this s = (Ok n, s).
Proof. intros H. unfold size. by rewrite H. Qed.
Lemma node_val_ok s a v : val <$> nodes s !! a = Some (Some v) → node_val a s = (Ok v, s).
Proof.
  unfold node_val. destruct (nodes s !! a) as [n|]; [|done]. cbn. intros [= Hn]. by rewrite Hn.
Qed.

Lemma val_upd_prev (m : gmap Z (node V)) a p b : val <$> upd_prev a p m !! b = val <$> m !! b.
Proof.
  unfold upd_prev. destruct (decide (a = b)) as [<-|]; [|by rewrite lookup_alter_ne].
  rewrite lookup_alter_eq. by destruct (m !! a).
Qed.
Lemma val_upd_next (m : gmap Z (node V)) a q b : val <$> upd_next a q m !! b = val <$> m !! b.
Proof.
  unfold upd_next. destruct (decide (a = b)) as [<-|]; [|by rewrite lookup_alter_ne].
  rewrite lookup_alter_eq. by destruct (m !! a).
Qed.
Lemma lookup_upd_prev_ne (m : gmap Z (node V)) a p b : a ≠ b → upd_prev a p m !! b = m !! b.
Proof. intros. by apply lookup_alter_ne. Qed.
Lemma lookup_upd_next_ne (m : gmap Z (node V)) a q b : a ≠ b → upd_next a q m !! b = m !! b.
Proof. intros. by apply lookup_alter_ne. Qed.

Ltac run H := rewrite (bind_ok _ _ _ _ _ H).

(** ** Insertion *)

(** The memory after [emplace] at the place between [l1] and [l2]. *)
Definition emplaced (m : gmap Z (node V)) (p q a : Z) (v : V) : gmap Z (node V) :=
  upd_prev q a (upd_next p a (<[a := Node p q (Some v)]> m)).

Lemma emplaced_ring m this l1 l2 a v :
  ring m this (l1 ++ l2) → m !! a = None →
  ring (emplaced m (before this l1) (after this l2) a v) this (l1 ++ a :: l2).
Proof.
  intros Hr Ha. set (p := before this l1). set (q := after this l2).
  set (m1 := <[a := Node p q (Some v)]> m).
  assert (Hnin : a ∉ this :: l1 ++ l2).
  { intros Hin. destruct (ring_mapped _ _ _ _ Hr Hin) as [n Hn]. by rewrite Ha in Hn. }
  assert (Hr1 : ring m1 this (l1 ++ l2)).
  { eapply ring_frame; [|exact Hr]. intros b Hb. unfold m1. apply lookup_insert_ne. by intros <-. }
  assert (Ma : is_Some (m1 !! a)) by (unfold m1; rewrite lookup_insert_eq; eauto).
  assert (Mp : is_Some (m1 !! p)) by (eapply ring_mapped; [exact Hr1|apply before_in]).
  assert (Mq : is_Some (m1 !! q)) by (eapply ring_mapped; [exact Hr1|apply after_in]).
  assert (a ≠ p) by (intros ->; apply Hnin, before_in).
  assert (a ≠ q) by (intros ->; apply Hnin, after_in).
  eapply ring_ext; [| |exact (ring_insert m1 this l1 a l2 Hr1 Ma Hnin)]; intros b _;
    unfold emplaced; fold m1 p q.
  - rewrite nx_upd_prev, nx_upd_next, nx_connect by (by apply mapped_connect).
    rewrite nx_connect by done. destruct (decide (p = b)) as [<-|]; [by destruct Mp as [? ->]|].
    destruct (decide (a = b)) as [<-|]; [|done]. unfold nx, m1. by rewrite lookup_insert_eq.
  - rewrite pv_upd_prev, pv_upd_next, pv_connect by (by apply mapped_connect).
    rewrite pv_connect by done. destruct (decide (q = b)) as [<-|].
    + rewrite (decide_False (P := a = q)) by done.
      apply (mapped_upd_next m1 p a q) in Mq as [? ->]. done.
    + destruct (decide (a = b)) as [<-|]; [|done]. unfold pv, m1. by rewrite lookup_insert_eq.
Qed.

Lemma emplaced_val m p q a v b :
  val <$> emplaced m p q a v !! b = if decide (b = a) then Some (Some v) else val <$> m !! b.
Proof.
  unfold emplaced. rewrite val_upd_prev, val_upd_next. case_decide as H.
  - subst b. by rewrite lookup_insert_eq.
  - by rewrite lookup_insert_ne.
Qed.
Lemma emplaced_other m p q a v b : b ≠ p → b ≠ q → b ≠ a → emplaced m p q a v !! b = m !! b.
Proof.
  intros. unfold emplaced. by rewrite lookup_upd_prev_ne, lookup_upd_next_ne, lookup_insert_ne.
Qed.

Context `{!NodeAllocOk V}.

(** Values of the nodes of a list after a change elsewhere. *)
Lemma elem_fst (l : list (Z * V)) a v : (a, v) ∈ l → a ∈ l.*1.
Proof. intros H. apply (list_elem_of_fmap_2 fst) in H. done. Qed.

Lemma new_node_fresh m v a : new_node m v = inl a → m !! a = None.
Proof.
  unfold new_node. destruct (node_alloc m) eqn:E; [|done]. destruct (value_throws m v); [done|].
  intros [= <-]. by apply node_alloc_fresh.
Qed.
Lemma create_node_eq prev next v s :
  create_node prev next v s =
  match new_node (nodes s) v with
  | inl a => (Ok a, set_nodes (<[a := Node prev next (Some v)]> (nodes s)) s)
  | inr e => (Throw e, s)
  end.
Proof.
  unfold create_node, new_node. rewrite bind_get. destruct (node_alloc (nodes s)) as [a|] eqn:Ha; [|done].
  unfold bind, put. destruct (value_throws (nodes s) v); cbn; unfold set_nodes; cbn.
  - rewrite delete_insert_id by (by apply node_alloc_fresh). by destruct s.
  - by rewrite insert_insert_eq.
Qed.
Lemma emplace_run s this l1 l2 v :
  rep s this (l1 ++ l2) → Z.of_nat (length (l1 ++ l2)) + 1 < 2 ^ 64 →
  match new_node (nodes s) v with
  | inr e => emplace this (after this l2.*1) v s = (Throw e, s)
  | inl a =>
      ∃ s', emplace this (after this l2.*1) v s = (Ok a, s') ∧ rep s' this (l1 ++ (a, v) :: l2) ∧
        (∀ b, b ∉ this :: a :: (l1 ++ l2).*1 → nodes s' !! b = nodes s !! b) ∧
        (∀ t, t ≠ this → sizes s' !! t = sizes s !! t)
  end.
Proof.
  intros Hrep Hlen. pose proof (rep_ring _ _ _ Hrep) as Hr. rewrite fmap_app in Hr.
  destruct (ring_app _ _ _ _ Hr) as (_ & _ & Hn & Hp).
  set (p := before this l1.*1) in *. set (q := after this l2.*1) in *.
  unfold emplace. run (node_prev_ok _ _ _ Hp). pose proof (create_node_eq p q v s) as Hnew.
  destruct (new_node (nodes s) v) as [a|e] eqn:Ha; [|unfold bind; by rewrite Hnew].
  pose proof (new_node_fresh _ _ _ Ha) as Hfresh.
  assert (Hnin : a ∉ this :: l1.*1 ++ l2.*1).
  { intros Hin. destruct (ring_mapped _ _ _ _ Hr Hin) as [n Hn']. by rewrite Hfresh in Hn'. }
  assert (Hpin : p ∈ this :: l1.*1 ++ l2.*1) by apply before_in.
  assert (Hqin : q ∈ this :: l1.*1 ++ l2.*1) by apply after_in.
  pose proof (ring_mapped _ _ _ _ Hr Hpin) as Mp. pose proof (ring_mapped _ _ _ _ Hr Hqin) as Mq.
  assert (a ≠ p) by (by intros ->). assert (a ≠ q) by (by intros ->).
  set (m1 := <[a := Node p q (Some v)]> (nodes s)).
  exists (State (emplaced (nodes s) p q a v) (<[this := Z.of_nat (length (l1 ++ l2)) + 1]> (sizes s))).
  split_and!.
  - rewrite (bind_ok _ _ _ a (set_nodes m1 s)) by exact Hnew.
    erewrite bind_ok; [|apply node_prev_ok; unfold pv; cbn [nodes set_nodes m1];
      unfold m1; rewrite lookup_insert_ne by done; exact Hp].
    erewrite bind_ok; [|apply put_next_ok; cbn; unfold m1; by rewrite lookup_insert_ne].
    erewrite bind_ok; [|apply put_prev_ok; apply mapped_upd_next; cbn; unfold m1; by rewrite lookup_insert_ne].
    erewrite bind_ok; [|apply size_ok; exact (rep_size _ _ _ Hrep)].
    unfold put_size. rewrite bind_modify. rewrite u64_small by lia. reflexivity.
  - split; cbn [nodes sizes].
    + rewrite fmap_app, fmap_cons. cbn [fst]. by apply emplaced_ring.
    + rewrite emplaced_val, decide_False; [apply (rep_head _ _ _ Hrep)|].
      intros <-. apply Hnin. by left.
    + intros b w Hb. rewrite emplaced_val. rewrite elem_of_app, elem_of_cons in Hb.
      assert (Hbw : (b, w) = (a, v) ∨ (b, w) ∈ l1 ++ l2) by (rewrite elem_of_app; tauto).
      destruct Hbw as [[= -> ->]|Hbw]; [by rewrite decide_True|].
      rewrite decide_False; [by apply (rep_vals _ _ _ Hrep)|]. intros ->. apply Hnin.
      right. rewrite <- fmap_app. by eapply elem_fst.
    + rewrite lookup_insert_eq, !length_app. cbn. f_equal. lia.
    + rewrite !length_app in *. cbn. lia.
  - intros b Hb. cbn. rewrite fmap_app in Hb. apply emplaced_other; intros ->; apply Hb.
    + rewrite !elem_of_cons in *. tauto.
    + rewrite !elem_of_cons in *. tauto.
    + right. by left.
  - intros t Ht. cbn. by apply lookup_insert_ne.
Qed.

(** ** Removal *)

(** Outside the nodes [X] and the list object [this], nothing changed. *)
Definition unchanged (s s' : state) (this : Z) (X : list Z) : Prop :=
  (∀ b, b ∉ this :: X → nodes s' !! b = nodes s !! b) ∧
  (∀ t, t ≠ this → sizes s' !! t = sizes s !! t).

Lemma unchanged_trans s1 s2 s3 this X :
  unchanged s1 s2 this X → unchanged s2 s3 this X → unchanged s1 s3 this X.
Proof.
  intros [H1 H2] [H3 H4]. split; intros b Hb; [rewrite H3, H1|rewrite H4, H2]; done.
Qed.
Lemma unchanged_mono s s' this X Y : X ⊆ Y → unchanged s s' this X → unchanged s s' this Y.
Proof.
  intros HX [H1 H2]. split; [|done]. intros b Hb. apply H1. rewrite elem_of_cons in *.
  intros [?|?%HX]; tauto.
Qed.
Lemma unchanged_refl s this X : unchanged s s this X.
Proof. done. Qed.
Hint Resolve unchanged_refl : core.

Lemma rep_neighbours s this l1 a v l2 :
  rep s this (l1 ++ (a, v) :: l2) →
  pv (nodes s) a = Some (before this l1.*1) ∧ nx (nodes s) a = Some (after this l2.*1).
Proof.
  intros Hr. pose proof (rep_ring _ _ _ Hr) as H. rewrite fmap_app, fmap_cons in H.
  by apply ring_neighbours.
Qed.
Lemma rep_ends s this l1 l2 :
  rep s this (l1 ++ l2) →
  nx (nodes s) (before this l1.*1) = Some (after this l2.*1) ∧
  pv (nodes s) (after this l2.*1) = Some (before this l1.*1).
Proof.
  intros Hr. pose proof (rep_ring _ _ _ Hr) as H. rewrite fmap_app in H.
  destruct (ring_app _ _ _ _ H) as (_ & _ & ? & ?). done.
Qed.
Lemma rep_mapped s this l a : rep s this l → a ∈ this :: l.*1 → is_Some (nodes s !! a).
Proof. intros Hr. apply ring_mapped, Hr. Qed.
Lemma rep_NoDup s this l : rep s this l → NoDup (this :: l.*1).
Proof. intros Hr. apply (rep_ring _ _ _ Hr). Qed.

(** A list is determined by its nodes and values. *)
Lemma rep_unique s s' this l :
  rep s this l → rep s' this l → unchanged s s' this l.*1 → s' = s.
Proof.
  intros Hs Hs' [H1 H2]. assert (nodes s' = nodes s ∧ sizes s' = sizes s) as [E1 E2].
  2:{ destruct s, s'. cbn in *. by subst. }
  set (m := nodes s) in *. set (m' := nodes s') in *. split.
  - apply map_eq. intros b. destruct (decide (b ∈ this :: l.*1)) as [Hb|Hb]; [|by apply H1].
    assert (Hv : val <$> m' !! b = val <$> m !! b).
    { apply elem_of_cons in Hb as [->|Hb].
      - unfold m, m'. by rewrite (rep_head _ _ _ Hs), (rep_head _ _ _ Hs').
      - apply list_elem_of_fmap in Hb as ([b' v] & -> & Hb). cbn [fst].
        unfold m, m'. by rewrite (rep_vals _ _ _ Hs _ _ Hb), (rep_vals _ _ _ Hs' _ _ Hb). }
    assert (Hl : nx m' b = nx m b ∧ pv m' b = pv m b).
    { apply elem_of_cons in Hb as [->|Hb].
      - destruct (rep_ends _ _ [] l Hs) as [E1 _], (rep_ends _ _ [] l Hs') as [E2 _].
        destruct (rep_ends _ _ l [] ltac:(rewrite app_nil_r; exact Hs)) as [_ E3],
          (rep_ends _ _ l [] ltac:(rewrite app_nil_r; exact Hs')) as [_ E4].
        unfold m, m'. cbn in *. split; congruence.
      - apply list_elem_of_fmap in Hb as ([b' v] & -> & Hb). cbn [fst] in *.
        apply list_elem_of_split in Hb as (l1 & l2 & ->).
        unfold m, m'. destruct (rep_neighbours _ _ _ _ _ _ Hs) as [-> ->].
        by destruct (rep_neighbours _ _ _ _ _ _ Hs') as [-> ->]. }
    unfold nx, pv in Hl. destruct (m !! b) as [[p q v]|], (m' !! b) as [[p' q' v']|]; naive_solver.
  - apply map_eq. intros t. destruct (decide (t = this)) as [->|Ht]; [|by apply H2].
    by rewrite (rep_size _ _ _ Hs), (rep_size _ _ _ Hs').
Qed.

Lemma destroy_node_ok s a v :
  val <$> nodes s !! a = Some (Some v) → destroy_node a s = (Ok tt, set_nodes (delete a (nodes s)) s).
Proof. intros H. unfold destroy_node. erewrite bind_ok; [|by apply node_val_ok]. done. Qed.

(** The list without one of its nodes. *)
Lemma rep_erased s this l1 a v l2 z :
  rep s this (l1 ++ (a, v) :: l2) →
  z !! this = Some (Z.of_nat (length (l1 ++ l2))) →
  rep (State (delete a (connect (before this l1.*1) (after this l2.*1) (nodes s))) z) this (l1 ++ l2).
Proof.
  intros Hr Hz. pose proof (rep_ring _ _ _ Hr) as Hg. rewrite fmap_app, fmap_cons in Hg. cbn [fst] in Hg.
  pose proof (rep_NoDup _ _ _ Hr) as Hnd. rewrite fmap_app, fmap_cons in Hnd. cbn [fst] in Hnd.
  apply NoDup_middle in Hnd as [Hnd Hnin].
  assert (Hval : ∀ b, b ∈ this :: l1.*1 ++ l2.*1 →
    val <$> delete a (connect (before this l1.*1) (after this l2.*1) (nodes s)) !! b = val <$> nodes s !! b).
  { intros b Hb. rewrite lookup_delete_ne by (by intros ->). apply val_connect. }
  split; cbn [nodes sizes].
  - rewrite fmap_app. eapply ring_frame; [|by eapply ring_delete].
    intros b Hb. by rewrite lookup_delete_ne by (by intros ->).
  - rewrite Hval by (by left). apply (rep_head _ _ _ Hr).
  - intros b w Hb. rewrite Hval.
    + apply (rep_vals _ _ _ Hr). rewrite elem_of_app in *. rewrite elem_of_cons. tauto.
    + right. rewrite <- fmap_app. by eapply elem_fst.
  - done.
  - pose proof (rep_bound _ _ _ Hr) as Hb. rewrite !length_app in *. cbn in Hb. lia.
Qed.

Lemma list_erase_run s this l1 a v l2 :
  rep s this (l1 ++ (a, v) :: l2) →
  ∃ s', erase this a s = (Ok (after this l2.*1), s') ∧ rep s' this (l1 ++ l2) ∧
    nodes s' !! a = None ∧ unchanged s s' this (l1 ++ (a, v) :: l2).*1.
Proof.
  intros Hr. destruct (rep_neighbours _ _ _ _ _ _ Hr) as [Hp Hq].
  pose proof (rep_NoDup _ _ _ Hr) as Hnd. rewrite fmap_app, fmap_cons in Hnd. cbn [fst] in Hnd.
  apply NoDup_middle in Hnd as [Hnd Hnin].
  set (p := before this l1.*1) in *. set (q := after this l2.*1) in *.
  assert (Hpin : p ∈ this :: l1.*1 ++ l2.*1) by apply before_in.
  assert (Hqin : q ∈ this :: l1.*1 ++ l2.*1) by apply after_in.
  assert (a ≠ p) by (by intros ->). assert (a ≠ q) by (by intros ->).
  assert (Hsub : ∀ b, b ∈ this :: l1.*1 ++ l2.*1 → b ∈ this :: (l1 ++ (a, v) :: l2).*1).
  { intros b. rewrite fmap_app, fmap_cons, !elem_of_cons, !elem_of_app, elem_of_cons. tauto. }
  pose proof (rep_mapped _ _ _ _ Hr (Hsub _ Hpin)) as Mp.
  pose proof (rep_mapped _ _ _ _ Hr (Hsub _ Hqin)) as Mq.
  pose proof (rep_bound _ _ _ Hr) as Hb.
  assert (Hlen : length (l1 ++ (a, v) :: l2) = S (length (l1 ++ l2))) by (rewrite !length_app; cbn; lia).
  exists (State (delete a (connect p q (nodes s))) (<[this := Z.of_nat (length (l1 ++ l2))]> (sizes s))).
  split_and!.
  - unfold erase. run (node_prev_ok _ _ _ Hp). run (node_next_ok _ _ _ Hq).
    erewrite bind_ok; [|eapply destroy_node_ok, (rep_vals _ _ _ Hr); rewrite elem_of_app; right; by left].
    erewrite bind_ok; [|apply size_ok; exact (rep_size _ _ _ Hr)].
    unfold put_size. rewrite bind_modify.
    erewrite bind_ok; [|apply put_next_ok; cbn; by rewrite lookup_delete_ne].
    erewrite bind_ok; [|apply put_prev_ok; apply mapped_upd_next; cbn; by rewrite lookup_delete_ne].
    unfold ret, set_nodes, set_sizes. cbn [nodes sizes]. rewrite upd_comm.
    rewrite u64_small by lia. rewrite <- connect_delete by done. unfold connect.
    do 3 f_equal. lia.
  - apply rep_erased with (v := v); [done|]. apply lookup_insert_eq.
  - cbn. apply lookup_delete_eq.
  - split; cbn [nodes sizes].
    + intros b Hb'. rewrite lookup_delete_ne.
      2:{ intros <-. apply Hb'. rewrite fmap_app, elem_of_cons, elem_of_app. right. right. by left. }
      apply lookup_connect_ne; intros ->; apply Hb', Hsub; done.
    + intros t Ht. by apply lookup_insert_ne.
Qed.

(** ** Insertion of several elements *)

Lemma unwind_run s this l1 k l2 :
  rep s this (l1 ++ k ++ l2) →
  ∃ s', unwind (length k) this (after this (k ++ l2).*1) s = (Ok tt, s') ∧ rep s' this (l1 ++ l2) ∧
    (∀ a, a ∈ k.*1 → nodes s' !! a = None) ∧ unchanged s s' this (l1 ++ k ++ l2).*1.
Proof.
  revert s. induction k as [|[a v] k IH]; intros s Hr.
  { exists s. split_and!; [done|done| |done]. by intros a ?%elem_of_nil. }
  pose proof (rep_NoDup _ _ _ Hr) as Hnd.
  cbn [app] in Hr. destruct (list_erase_run _ _ _ _ _ _ Hr) as (s1 & H1 & Hr1 & Ha & Hu1).
  destruct (IH s1 Hr1) as (s2 & H2 & Hr2 & Hk & Hu2). exists s2. split_and!.
  - cbn [unwind length]. run H1. exact H2.
  - done.
  - intros b [->|Hb]%elem_of_cons; [|by apply Hk]. cbn [fst]. destruct Hu2 as [Hu2 _].
    rewrite Hu2; [done|]. cbn [app] in Hnd. rewrite fmap_app, fmap_cons in Hnd.
    apply NoDup_middle in Hnd as [_ Hnin]. by rewrite fmap_app.
  - eapply unchanged_trans; [exact Hu1|]. eapply unchanged_mono; [|exact Hu2].
    intros b. cbn [app]. rewrite !fmap_app, fmap_cons, !elem_of_app, elem_of_cons, fmap_app, elem_of_app. tauto.
Qed.

(** From [s0], the nodes [k], fresh, were inserted between [l1] and [l2]. *)
Record inserted (s0 s : state) (this : Z) (l1 k l2 : list (Z * V)) : Prop := {
  ins_rep : rep s this (l1 ++ k ++ l2);
  ins_fresh a : a ∈ k.*1 → nodes s0 !! a = None;
  ins_unchanged : unchanged s0 s this (l1 ++ k ++ l2).*1;
}.

Lemma inserted_nil s this l1 l2 : rep s this (l1 ++ l2) → inserted s s this l1 [] l2.
Proof. intros Hr. split; [done| |done]. by intros a ?%elem_of_nil. Qed.

(** Undoing the insertion restores the state. *)
Lemma unwind_inserted s0 s this l1 k l2 :
  rep s0 this (l1 ++ l2) → inserted s0 s this l1 k l2 →
  unwind (length k) this (after this (k ++ l2).*1) s = (Ok tt, s0).
Proof.
  intros Hr0 [Hr Hf Hu]. destruct (unwind_run _ _ _ _ _ Hr) as (s' & H & Hr' & Hk & Hu').
  rewrite H. f_equal. eapply rep_unique; [done|done|].
  destruct (unchanged_trans _ _ _ _ _ Hu Hu') as [U1 U2]. split; [|done].
  intros b Hb. destruct (decide (b ∈ k.*1)) as [Hk'|Hk'].
  - by rewrite (Hk b), (Hf b).
  - apply U1. intros Hin. apply Hb. rewrite !fmap_app, elem_of_cons, !elem_of_app in *. tauto.
Qed.

(** One more element in front. *)
Lemma emplace_inserted s0 s this l1 k l2 v :
  inserted s0 s this l1 k l2 → Z.of_nat (length (l1 ++ k ++ l2)) + 1 < 2 ^ 64 →
  match new_node (nodes s) v with
  | inr e => emplace this (after this (k ++ l2).*1) v s = (Throw e, s)
  | inl a => ∃ s', emplace this (after this (k ++ l2).*1) v s = (Ok a, s') ∧
      inserted s0 s' this l1 ((a, v) :: k) l2
  end.
Proof.
  intros [Hr Hf Hu] Hlen. pose proof (emplace_run s this l1 (k ++ l2) v Hr Hlen) as He.
  destruct (new_node (nodes s) v) as [a|e] eqn:Ha; [|done].
  destruct He as (s' & He & Hr' & Hb & Ht). exists s'. split; [done|].
  assert (Hfresh : nodes s0 !! a = None).
  { pose proof (new_node_fresh _ _ _ Ha) as Hfa. destruct Hu as [Hu _]. rewrite <- Hu; [done|].
    intros Hin. destruct (rep_mapped _ _ _ _ Hr Hin) as [n Hn]. by rewrite Hfa in Hn. }
  split; [done| |].
  - intros b. cbn [fmap list_fmap fst]. intros [->|Hin]%elem_of_cons; [done|by apply Hf].
  - eapply unchanged_trans.
    + eapply unchanged_mono; [|exact Hu]. intros b. cbn [app].
      rewrite !fmap_app, fmap_cons, !elem_of_app, elem_of_cons, fmap_app, elem_of_app. tauto.
    + split; [|exact Ht]. intros b Hb'. apply Hb. intros Hin. apply Hb'. cbn [app].
      rewrite !fmap_app, !elem_of_cons, !elem_of_app in *.
      rewrite fmap_cons, elem_of_cons, fmap_app, elem_of_app. cbn [fst]. tauto.
Qed.

Lemma insert_values_run s0 this l1 l2 rvs :
  rep s0 this (l1 ++ l2) → ∀ k s,
  inserted s0 s this l1 k l2 → Z.of_nat (length (l1 ++ k ++ l2)) + Z.of_nat (length rvs) < 2 ^ 64 →
  (∃ k' s', insert_values_loop rvs (length k) this (after this (k ++ l2).*1) s =
      (Ok (after this (k' ++ k ++ l2).*1), s') ∧
      k'.*2 = rev rvs ∧ inserted s0 s' this l1 (k' ++ k) l2) ∨
  (∃ e m v, new_node m v = inr e ∧ v ∈ rvs ∧
   insert_values_loop rvs (length k) this (after this (k ++ l2).*1) s = (Throw e, s0)).
Proof.
  intros Hr0. induction rvs as [|v rvs IH]; intros k s Hi Hlen.
  { left. exists [], s. done. }
  cbn [insert_values_loop length] in *.
  pose proof (emplace_inserted s0 s this l1 k l2 v Hi ltac:(lia)) as He.
  destruct (new_node (nodes s) v) as [a|e] eqn:Ha.
  - destruct He as (s1 & He & Hi1).
    assert (Hl : Z.of_nat (length (l1 ++ ((a, v) :: k) ++ l2)) + Z.of_nat (length rvs) < 2 ^ 64)
      by (rewrite !length_app in *; cbn [length] in *; lia).
    assert (Hrun : try_catch (emplace this (after this (k ++ l2).*1) v)
      (unwind (length k) this (after this (k ++ l2).*1)) s = (Ok a, s1)).
    { unfold try_catch. by rewrite He. }
    run Hrun. destruct (IH ((a, v) :: k) s1 Hi1 Hl) as [(k' & s' & H1 & H2 & H3)|(e & m & w & He1 & Hw & H1)].
    + left. exists (k' ++ [(a, v)]), s'. cbn [length] in H1. cbn [app fmap list_fmap after hd fst] in H1.
      split_and!; [by rewrite <- app_assoc| |by rewrite <- app_assoc].
      rewrite fmap_app, H2. done.
    + right. exists e, m, w. split_and!; [done|by right|exact H1].
  - right. exists e, (nodes s), v. split_and!; [done|by left|].
    unfold bind, try_catch. rewrite He. unfold bind.
    by rewrite (unwind_inserted s0 s this l1 k l2 Hr0 Hi).
Qed.

Lemma rev_replicate n (v : V) : rev (replicate n v) = replicate n v.
Proof.
  induction n as [|n IH]; [done|]. cbn [rev replicate]. rewrite IH.
  change [v] with (replicate 1 v). rewrite <- replicate_add, Nat.add_comm. done.
Qed.
Lemma insert_count_values count n this pos v s :
  insert_count_loop count n this pos v s = insert_values_loop (replicate count v) n this pos s.
Proof.
  revert n pos s. induction count as [|count IH]; intros n pos s; [done|].
  cbn [insert_count_loop insert_values_loop replicate]. unfold bind.
  destruct (try_catch _ _ s) as [[] ?]; [apply IH|done..].
Qed.

(** ** Removal of several elements *)

(** The memory without the nodes [k]. *)
Definition delete_all (k : list Z) (m : gmap Z (node V)) : gmap Z (node V) :=
  foldl (λ m a, delete a m) m k.

Lemma lookup_delete_all k m b : delete_all k m !! b = if decide (b ∈ k) then None else m !! b.
Proof.
  unfold delete_all. revert m. induction k as [|a k IH]; intros m; cbn [foldl].
  { by rewrite decide_False by (by intros ?%elem_of_nil). }
  rewrite IH. destruct (decide (b ∈ k)) as [Hb|Hb].
  - by rewrite decide_True by (by right).
  - destruct (decide (b = a)) as [->|Hne].
    + rewrite lookup_delete_eq. by rewrite decide_True by (by left).
    + rewrite lookup_delete_ne by done. rewrite decide_False; [done|].
      by intros [?|?]%elem_of_cons.
Qed.

Lemma erase_loop_run this e k : ∀ fuel s n,
  links (nodes s) (k.*1 ++ [e]) → (∀ a v, (a, v) ∈ k → val <$> nodes s !! a = Some (Some v)) →
  NoDup (k.*1 ++ [e]) → sizes s !! this = Some n →
  Z.of_nat (length k) ≤ n < 2 ^ 64 → (length k < fuel)%nat →
  erase_loop fuel this (after e k.*1) e s =
    (Ok tt, State (delete_all k.*1 (nodes s)) (<[this := n - Z.of_nat (length k)]> (sizes s))).
Proof.
  induction k as [|[a v] k IH]; intros fuel s n Hl Hv Hnd Hn Hlen Hfuel;
    (destruct fuel as [|fuel]; [cbn in Hfuel; lia|]); cbn [erase_loop after hd fmap list_fmap fst] in *.
  { rewrite Z.eqb_refl. cbn. rewrite Z.sub_0_r, insert_id by done. by destruct s. }
  cbn [app] in Hnd. apply NoDup_cons in Hnd as [Hnin Hnd].
  rewrite (proj2 (Z.eqb_neq a e)).
  2:{ intros ->. apply Hnin. rewrite elem_of_app. right. by apply list_elem_of_singleton. }
  destruct (after_split e k.*1) as (B & HB & _).
  cbn [app] in Hl. rewrite HB in Hl. apply links_cons2 in Hl as (Hnx & Hpv & Hl). rewrite <- HB in Hl.
  run (node_next_ok _ _ _ Hnx). erewrite bind_ok; [|eapply destroy_node_ok, Hv; by left].
  erewrite bind_ok; [|by apply size_ok]. unfold put_size. rewrite bind_modify. cbn [length] in *.
  rewrite u64_small by lia.
  rewrite IH with (n := n - 1).
  - unfold set_nodes, set_sizes. cbn [nodes sizes delete_all foldl].
    rewrite insert_insert_eq. do 3 f_equal. lia.
  - eapply links_frame; [| |exact Hl]; intros b Hb; unfold nx, pv; cbn [nodes set_nodes set_sizes];
      rewrite lookup_delete_ne; try done; intros <-; apply Hnin.
    + rewrite removelast_last in Hb. rewrite elem_of_app. by left.
    + destruct (k.*1 ++ [e]); [done|by right].
  - intros b w Hb. cbn [nodes set_nodes set_sizes]. rewrite lookup_delete_ne; [apply Hv; by right|].
    intros <-. apply Hnin. rewrite elem_of_app. left. by eapply elem_fst.
  - done.
  - cbn. by rewrite lookup_insert_eq.
  - lia.
  - lia.
Qed.

Lemma erase_range_run fuel s this l1 k l2 :
  rep s this (l1 ++ k ++ l2) → (length k < fuel)%nat →
  ∃ s', erase_range fuel this (after this (k ++ l2).*1) (after this l2.*1) s = (Ok (after this l2.*1), s') ∧
    rep s' this (l1 ++ l2) ∧ (∀ a, a ∈ k.*1 → nodes s' !! a = None) ∧
    unchanged s s' this (l1 ++ k ++ l2).*1.
Proof.
  intros Hr Hfuel. pose proof (rep_ring _ _ _ Hr) as Hg. rewrite !fmap_app in Hg.
  destruct (ring_delete_segment _ _ _ _ _ Hg) as [Hg' Hlk].
  destruct (ring_app _ _ _ _ Hg) as (_ & Hl & _ & Hp).
  set (p := before this l1.*1) in *. set (q := after this l2.*1) in *.
  pose proof (rep_NoDup _ _ _ Hr) as Hnd. rewrite !fmap_app in Hnd.
  assert (Hnotk : ∀ b, b ∈ this :: l1.*1 ++ l2.*1 → b ∉ k.*1).
  { intros b Hb Hk. apply NoDup_cons in Hnd as [Ht Hnd]. apply NoDup_app in Hnd as (_ & D1 & Hnd).
    apply NoDup_app in Hnd as (_ & D2 & _). rewrite elem_of_cons, elem_of_app in Hb. rewrite !elem_of_app in Ht.
    destruct Hb as [->|[Hb|Hb]]; [tauto| |by apply (D2 b)]. apply (D1 b Hb). rewrite elem_of_app. tauto. }
  assert (Hpin : p ∈ this :: l1.*1 ++ l2.*1) by apply before_in.
  assert (Hqin : q ∈ this :: l1.*1 ++ l2.*1) by apply after_in.
  assert (Hsub : ∀ b, b ∈ this :: l1.*1 ++ l2.*1 → b ∈ this :: (l1 ++ k ++ l2).*1).
  { intros b. rewrite !fmap_app, !elem_of_cons, !elem_of_app. tauto. }
  pose proof (rep_mapped _ _ _ _ Hr (Hsub _ Hpin)) as Mp.
  pose proof (rep_mapped _ _ _ _ Hr (Hsub _ Hqin)) as Mq.
  pose proof (rep_bound _ _ _ Hr) as Hb. rewrite !length_app in Hb.
  set (m' := delete_all k.*1 (nodes s)).
  assert (Hm' : ∀ b, b ∈ this :: l1.*1 ++ l2.*1 → m' !! b = nodes s !! b).
  { intros b Hb'. unfold m'. rewrite lookup_delete_all, decide_False; [done|]. by apply Hnotk. }
  set (z' := <[this := Z.of_nat (length (l1 ++ l2))]> (sizes s)).
  exists (State (connect p q m') z').
  assert (Hsame : ∀ b, b ∈ this :: l1.*1 ++ l2.*1 → connect p q m' !! b = connect p q (nodes s) !! b)
    by (intros b Hb'; by apply connect_lookup_ext, Hm').
  split_and!.
  - unfold erase_range. rewrite fmap_app. run (node_prev_ok _ _ _ Hp).
    assert (Ha : after this (k.*1 ++ l2.*1) = after q k.*1) by (by destruct k).
    rewrite Ha. erewrite bind_ok.
    2:{ eapply erase_loop_run; [| | |exact (rep_size _ _ _ Hr)| |done].
        - destruct (after_split this l2.*1) as (B & HB & _). rewrite <- app_assoc, HB in Hl.
          by apply links_app in Hl as [? _].
        - intros b w Hbw. apply (rep_vals _ _ _ Hr). rewrite !elem_of_app. tauto.
        - apply NoDup_app. split_and!.
          + apply NoDup_cons in Hnd as [_ Hnd]. apply NoDup_app in Hnd as (_ & _ & Hnd).
            by apply NoDup_app in Hnd as (? & _).
          + intros b Hb' ->%list_elem_of_singleton. by apply (Hnotk q).
          + apply NoDup_singleton.
        - rewrite !length_app. lia. }
    fold m'. erewrite bind_ok; [|apply put_next_ok; cbn; by rewrite Hm'].
    erewrite bind_ok; [|apply put_prev_ok, mapped_upd_next; cbn; by rewrite Hm'].
    unfold ret, set_nodes. cbn [nodes sizes]. rewrite upd_comm. fold (connect p q m').
    unfold z'. do 4 f_equal. rewrite !length_app. lia.
  - split; cbn [nodes sizes].
    + rewrite fmap_app. eapply ring_frame; [|exact Hg']. done.
    + rewrite Hsame by (by left). rewrite val_connect. apply (rep_head _ _ _ Hr).
    + intros b w Hbw. rewrite Hsame by (right; rewrite <- fmap_app; by eapply elem_fst).
      rewrite val_connect. apply (rep_vals _ _ _ Hr). rewrite !elem_of_app in *. tauto.
    + unfold z'. by rewrite lookup_insert_eq.
    + rewrite !length_app. lia.
  - intros b Hbk. cbn [nodes]. rewrite lookup_connect_ne by (intros ->; revert Hbk; by apply Hnotk).
    unfold m'. by rewrite lookup_delete_all, decide_True.
  - split; cbn [nodes sizes].
    + intros b Hb'. rewrite lookup_connect_ne by (intros ->; by apply Hb', Hsub).
      unfold m'. rewrite lookup_delete_all, decide_False; [done|]. intros Hin. apply Hb'.
      rewrite !fmap_app, elem_of_cons, !elem_of_app. tauto.
    + intros t Ht. unfold z'. by rewrite lookup_insert_ne.
Qed.

Lemma rep_begin s this l : rep s this l → begin this s = (Ok (after this l.*1), s).
Proof. intros Hr. apply node_next_ok. apply (rep_ends s this [] l Hr). Qed.

Lemma list_clear_run fuel s this l :
  rep s this l → (length l < fuel)%nat →
  ∃ s', clear fuel this s = (Ok tt, s') ∧ rep s' this [] ∧
    (∀ a, a ∈ l.*1 → nodes s' !! a = None) ∧ unchanged s s' this l.*1.
Proof.
  intros Hr Hfuel. destruct (erase_range_run fuel s this [] l []) as (s' & H & Hr' & Hl & Hu);
    [by rewrite app_nil_r|done|]. rewrite app_nil_r in *. exists s'. split_and!; [|done..].
  unfold clear. run (rep_begin _ _ _ Hr). by run H.
Qed.

(** The state [s] without the list at [this] and its nodes [l]. *)
Lemma list_destroy_run fuel s this l :
  rep s this l → (length l < fuel)%nat →
  ∃ s', destroy fuel this s = (Ok tt, s') ∧ (∀ a, a ∈ this :: l.*1 → nodes s' !! a = None) ∧
    sizes s' !! this = None ∧ unchanged s s' this l.*1.
Proof.
  intros Hr Hfuel. destruct (list_clear_run fuel s this l Hr Hfuel) as (s' & H & Hr' & Hl & [Hu1 Hu2]).
  exists (State (delete this (nodes s')) (delete this (sizes s'))). split_and!; cbn [nodes sizes].
  - unfold destroy. by run H.
  - intros a [->|Ha]%elem_of_cons; [apply lookup_delete_eq|].
    destruct (decide (a = this)) as [->|]; [apply lookup_delete_eq|].
    rewrite lookup_delete_ne by done. by apply Hl.
  - apply lookup_delete_eq.
  - split; cbn [nodes sizes]; intros b Hb.
    + rewrite lookup_delete_ne; [by apply Hu1|]. intros ->. apply Hb. by left.
    + rewrite lookup_delete_ne by done. by apply Hu2.
Qed.

Definition constructed (this : Z) (s : state) : state :=
  State (<[this := Node this this None]> (nodes s)) (<[this := 0]> (sizes s)).

Lemma constructed_rep this s : rep (constructed this s) this [].
Proof.
  split; cbn [nodes sizes constructed].
  - apply ring_single. unfold nx, pv. by rewrite lookup_insert_eq.
  - by rewrite lookup_insert_eq.
  - by intros a v ?%elem_of_nil.
  - by rewrite lookup_insert_eq.
  - done.
Qed.
Lemma constructed_unchanged this s : unchanged s (constructed this s) this [].
Proof.
  split; cbn; intros b Hb; apply lookup_insert_ne; [|done]. intros <-. apply Hb. by left.
Qed.
Lemma destroy_constructed fuel this s :
  nodes s !! this = None → sizes s !! this = None → (0 < fuel)%nat →
  destroy fuel this (constructed this s) = (Ok tt, s).
Proof.
  intros Hn Hz Hfuel.
  destruct (list_destroy_run fuel _ _ _ (constructed_rep this s) Hfuel) as (s' & -> & H1 & H2 & [H3 H4]).
  f_equal. destruct (constructed_unchanged this s) as [H5 H6].
  assert (nodes s' = nodes s ∧ sizes s' = sizes s) as [E1 E2].
  2:{ destruct s, s'. cbn in *. by subst. }
  split; apply map_eq; intros b; destruct (decide (b = this)) as [->|Hb].
  - rewrite Hn. apply H1. by left.
  - rewrite H3, H5; [done|..]; by intros [?|?%elem_of_nil]%elem_of_cons.
  - congruence.
  - by rewrite H4, H6.
Qed.

(** Lists that share no node do not see each other's changes. *)
Lemma rep_frame s s' this X o k :
  rep s o k → unchanged s s' this X → (∀ a, a ∈ o :: k.*1 → a ∉ this :: X) → rep s' o k.
Proof.
  intros Hr [H1 H2] Hd. split.
  - eapply ring_frame; [|exact (rep_ring _ _ _ Hr)]. intros a Ha. by apply H1, Hd.
  - rewrite H1 by (apply Hd; by left). apply Hr.
  - intros a v Ha. rewrite H1; [by apply Hr|]. apply Hd. right. by eapply elem_fst.
  - rewrite H2; [apply Hr|]. intros ->. apply (Hd this); by left.
  - apply Hr.
Qed.

(** Inserting copies of the elements of another list. *)
Lemma insert_nodes_values s0 this l1 l2 o k1 k2 k3 :
  rep s0 this (l1 ++ l2) → rep s0 o (k1 ++ k2 ++ k3) →
  (∀ a, a ∈ o :: (k1 ++ k2 ++ k3).*1 → a ∉ this :: (l1 ++ l2).*1) →
  ∀ fuel k s, inserted s0 s this l1 k l2 → (length k2 < fuel)%nat →
  Z.of_nat (length (l1 ++ k ++ l2)) + Z.of_nat (length k2) < 2 ^ 64 →
  insert_nodes_loop fuel (length k) this (after this (k ++ l2).*1)
    (after o (k2 ++ k3).*1) (after o k3.*1) s =
  insert_values_loop (rev k2.*2) (length k) this (after this (k ++ l2).*1) s.
Proof.
  intros Hr0. revert k3. induction k2 as [|[x v] k2 IH] using rev_ind; intros k3 Ho Hd fuel k s Hi Hfuel Hlen;
    (destruct fuel as [|fuel]; [cbn in Hfuel; lia|]); cbn [insert_nodes_loop].
  { cbn [app]. by rewrite Z.eqb_refl. }
  rewrite (length_app k2) in Hfuel, Hlen. cbn [length] in Hfuel, Hlen.
  assert (Hos : rep s o (k1 ++ (k2 ++ [(x, v)]) ++ k3)).
  { eapply rep_frame; [exact Ho|apply (ins_unchanged _ _ _ _ _ _ Hi)|]. intros a Ha Hin.
    destruct (rep_mapped _ _ _ _ Ho Ha) as [n Hn].
    assert (a ∉ k.*1) by (intros Hk; by rewrite (ins_fresh _ _ _ _ _ _ Hi _ Hk) in Hn).
    apply (Hd a Ha). rewrite !fmap_app, elem_of_cons, !elem_of_app in *. tauto. }
  assert (Hne : after o ((k2 ++ [(x, v)]) ++ k3).*1 ≠ after o k3.*1).
  { pose proof (rep_NoDup _ _ _ Hos) as Hnd. rewrite !fmap_app in Hnd.
    apply NoDup_cons in Hnd as [Hno Hnd]. apply NoDup_app in Hnd as (_ & _ & Hnd).
    apply NoDup_app in Hnd as (_ & Hdis & _).
    assert (Hin : after o ((k2 ++ [(x, v)]) ++ k3).*1 ∈ (k2.*1 ++ [(x, v)].*1)).
    { destruct k2 as [|[y w] k2]; cbn; by left. }
    intros Heq. pose proof (after_elem o k3.*1) as [He|He]%elem_of_cons.
    - rewrite Heq, He in Hin. apply Hno. rewrite !elem_of_app in *. tauto.
    - rewrite Heq in Hin. by apply (Hdis _ Hin). }
  rewrite (proj2 (Z.eqb_neq _ _) Hne).
  rewrite <- app_assoc in Hos, Ho, Hd |- *. cbn [app] in Hos, Ho, Hd |- *.
  rewrite app_assoc in Hos.
  destruct (rep_ends s o (k1 ++ k2 ++ [(x, v)]) k3) as [_ Hpv].
  { rewrite <- !app_assoc. cbn [app]. by rewrite app_assoc. }
  replace (before o (k1 ++ k2 ++ [(x, v)]).*1) with x in Hpv
    by (rewrite app_assoc, fmap_app; unfold before; change ([(x, v)].*1) with [x]; by rewrite last_snoc).
  run (node_prev_ok _ _ _ Hpv).
  erewrite bind_ok; [|apply node_val_ok, (rep_vals _ _ _ Hos); rewrite elem_of_app; right; by left].
  rewrite (fmap_app snd), rev_app_distr. cbn [fmap list_fmap rev app insert_values_loop snd].
  pose proof (emplace_inserted s0 s this l1 k l2 v Hi ltac:(lia)) as He.
  destruct (new_node (nodes s) v) as [a|e] eqn:Ha.
  - destruct He as (s1 & He & Hi1).
    unfold bind, try_catch. rewrite He.
    change a with (after this (((a, v) :: k) ++ l2).*1). change (S (length k)) with (length ((a, v) :: k)).
    change x with (after o ((x, v) :: k3).*1) at 2.
    apply IH; [done|done|done|lia|]. rewrite !length_app in *. cbn [length]. lia.
  - unfold bind, try_catch. rewrite He. unfold bind. by rewrite (unwind_inserted s0 s this l1 k l2 Hr0 Hi).
Qed.

(** ** Splicing *)

Lemma splice_links_run s pos x q p y pp :
  pv (nodes s) x = Some p → pv (nodes s) q = Some y →
  is_Some (nodes s !! p) → is_Some (nodes s !! y) → is_Some (nodes s !! pp) → pos ≠ x →
  pv (connect p q (nodes s)) pos = Some pp →
  splice_links pos x q s =
    (Ok tt, set_nodes (connect pp x (connect y pos (connect p q (nodes s)))) s).
Proof.
  intros Hp Hy Mp My Mpp Hne Hpp. pose proof (pv_mapped _ _ _ Hp) as Mx.
  pose proof (pv_mapped _ _ _ Hy) as Mq.
  assert (Mpos : is_Some (nodes s !! pos)) by (apply pv_mapped in Hpp; by apply mapped_connect in Hpp).
  unfold splice_links. run (node_prev_ok _ _ _ Hp). run (node_prev_ok _ _ _ Hy).
  erewrite bind_ok; [|by apply put_next_ok].
  erewrite bind_ok; [|by apply put_prev_ok, mapped_upd_next].
  cbn [set_nodes nodes]. rewrite upd_comm. fold (connect p q (nodes s)).
  set (m1 := connect p q (nodes s)) in *.
  assert (Hm1 : ∀ a, is_Some (nodes s !! a) → is_Some (m1 !! a)) by (intros a; apply mapped_connect).
  erewrite bind_ok; [|by apply node_prev_ok].
  erewrite bind_ok; [|by apply put_prev_ok, Hm1].
  erewrite bind_ok; [|by apply put_next_ok, mapped_upd_prev, Hm1].
  erewrite bind_ok; [|by apply put_next_ok, mapped_upd_next, mapped_upd_prev, Hm1].
  rewrite put_prev_ok by (by apply mapped_upd_next, mapped_upd_next, mapped_upd_prev, Hm1).
  unfold set_nodes. cbn [nodes sizes]. do 2 f_equal. unfold connect at 1 2.
  rewrite !upd_comm. by rewrite upd_prev_comm.
Qed.

Lemma distance_run s e k : ∀ fuel,
  links (nodes s) (k ++ [e]) → NoDup (k ++ [e]) → (length k < fuel)%nat →
  distance fuel (after e k) e s = (Ok (Z.of_nat (length k)), s).
Proof.
  induction k as [|a k IH]; intros fuel Hl Hnd Hfuel;
    (destruct fuel as [|fuel]; [cbn in Hfuel; lia|]); cbn [distance after hd length app] in *.
  { by rewrite Z.eqb_refl. }
  apply NoDup_cons in Hnd as [Hnin Hnd]. rewrite (proj2 (Z.eqb_neq a e)).
  2:{ intros ->. apply Hnin. rewrite elem_of_app. right. by apply list_elem_of_singleton. }
  destruct (after_split e k) as (B & HB & _). rewrite HB in Hl.
  apply links_cons2 in Hl as (Hnx & _ & Hl). rewrite <- HB in Hl.
  run (node_next_ok _ _ _ Hnx). erewrite bind_ok; [|apply IH; [done|done|lia]].
  unfold ret. do 2 f_equal. lia.
Qed.

(** Moving a node of a list forward, to the place of [i]. *)
Lemma splice_one_run fuel s this A i vi B j vj C :
  rep s this (A ++ (i, vi) :: B ++ (j, vj) :: C) →
  ∃ s', splice_one fuel this i this j s = (Ok tt, s') ∧
    rep s' this (A ++ (j, vj) :: (i, vi) :: B ++ C) ∧
    unchanged s s' this (A ++ (i, vi) :: B ++ (j, vj) :: C).*1.
Proof.
  intros Hr. set (P := A ++ (i, vi) :: B).
  assert (HP : A ++ (i, vi) :: B ++ (j, vj) :: C = P ++ (j, vj) :: C) by (unfold P; by rewrite <- app_assoc).
  rewrite HP in *. pose proof (rep_neighbours _ _ _ _ _ _ Hr) as [Hpj Hnj].
  pose proof (rep_ring _ _ _ Hr) as Hg. rewrite fmap_app, fmap_cons in Hg. cbn [fst] in Hg.
  pose proof (rep_NoDup _ _ _ Hr) as Hnd. rewrite fmap_app, fmap_cons in Hnd. cbn [fst] in Hnd.
  apply NoDup_middle in Hnd as [Hnd Hnin].
  assert (Hq : pv (nodes s) (after this C.*1) = Some j).
  { destruct (rep_ends s this (P ++ [(j, vj)]) C) as [_ Hq]; [by rewrite <- app_assoc|].
    rewrite fmap_app in Hq. unfold before in Hq. change ([(j, vj)].*1) with [j] in Hq.
    by rewrite last_snoc in Hq. }
  set (p := before this P.*1) in *. set (q := after this C.*1) in *.
  pose proof (ring_delete _ _ _ _ _ Hg) as Hg1. fold p q in Hg1.
  assert (HPC : P.*1 ++ C.*1 = A.*1 ++ (i :: B.*1 ++ C.*1)).
  { unfold P. rewrite fmap_app, fmap_cons, <- app_assoc. done. }
  assert (Hij : i ≠ j). { intros ->. apply Hnin. rewrite HPC, elem_of_cons, elem_of_app. right. right. by left. }
  assert (Hmap : ∀ b, b ∈ this :: P.*1 ++ C.*1 → is_Some (nodes s !! b)).
  { intros b Hb. eapply (rep_mapped _ _ _ _ Hr). rewrite fmap_app, fmap_cons.
    rewrite elem_of_cons, elem_of_app in *. rewrite elem_of_cons. tauto. }
  assert (Hppin : before this A.*1 ∈ this :: P.*1 ++ C.*1) by (rewrite HPC; apply before_in).
  assert (Hpin : p ∈ this :: P.*1 ++ C.*1) by apply before_in.
  assert (Hqin : q ∈ this :: P.*1 ++ C.*1) by apply after_in.
  assert (Hiin : i ∈ this :: P.*1 ++ C.*1).
  { rewrite HPC, elem_of_cons, elem_of_app. right. right. by left. }
  assert (Mj : is_Some (nodes s !! j)) by (by eapply pv_mapped).
  set (m1 := connect p q (nodes s)) in *. rewrite HPC in Hg1.
  destruct (ring_app _ _ _ _ Hg1) as (_ & _ & _ & Hpp). cbn [after hd] in Hpp.
  eexists. split_and!.
  - unfold splice_one. run (node_next_ok _ _ _ Hnj). unfold splice_range. rewrite Z.eqb_refl. cbn [negb].
    rewrite bind_ret_l. apply (splice_links_run _ _ _ _ p j (before this A.*1)); auto.
  - assert (Hval : ∀ b, val <$> connect (before this A.*1) j (connect j i m1) !! b = val <$> nodes s !! b)
      by (intros b; unfold m1; by rewrite !val_connect).
    fold m1. split; cbn [nodes sizes set_nodes].
    + rewrite fmap_app, !fmap_cons, fmap_app. cbn [fst].
      apply (ring_insert m1 this A.*1 j (i :: B.*1 ++ C.*1)); [done|by apply mapped_connect|].
      by rewrite <- HPC.
    + rewrite Hval. apply Hr.
    + intros b w Hb. rewrite Hval. apply Hr. unfold P. revert Hb.
      rewrite !elem_of_app, !elem_of_cons, !elem_of_app. tauto.
    + rewrite (rep_size _ _ _ Hr). unfold P. do 2 f_equal. rewrite !length_app. cbn.
      rewrite !length_app. cbn. lia.
    + pose proof (rep_bound _ _ _ Hr) as Hb. revert Hb. unfold P. rewrite !length_app. cbn.
      rewrite !length_app. cbn. lia.
  - split; [|done]. cbn [nodes set_nodes]. intros b Hb.
    assert (Hb' : (b ∉ this :: P.*1 ++ C.*1) ∧ b ≠ j).
    { rewrite fmap_app, fmap_cons in Hb. rewrite elem_of_cons, elem_of_app, elem_of_cons in *.
      cbn [fst] in Hb. tauto. }
    destruct Hb' as [Hb1 Hb2]. unfold m1. rewrite !lookup_connect_ne; try done; by intros ->.
Qed.

(** ** Sorting *)

Section sorting.
Context (lt : V → V → bool).

(** [x] may stand in front of [y]. *)
Definition le (x y : V) : Prop := lt y x = false.

Class StrictWeak : Prop := {
  lt_asym x y : lt x y = true → lt y x = false;
  le_trans x y z : le x y → le y z → le x z;
}.
Context `{!StrictWeak}.

(** The inner loop brings a least element of the rest to the front. *)
Lemma sort_inner_run this A : ∀ C fuel s i vi B,
  rep s this (A ++ (i, vi) :: B ++ C) → (∀ b, b ∈ B.*2 → le vi b) → (length C < fuel)%nat →
  ∃ s' i' vi' B', sort_inner lt fuel this i (after this C.*1) s = (Ok i', s') ∧
    rep s' this (A ++ (i', vi') :: B') ∧ (i', vi') :: B' ≡ₚ (i, vi) :: B ++ C ∧
    (∀ b, b ∈ B'.*2 → le vi' b) ∧ unchanged s s' this (A ++ (i, vi) :: B ++ C).*1.
Proof.
  clear NodeAllocOk0 NodeAlloc0.
  induction C as [|[j vj] C IH]; intros fuel s i vi B Hr Hmin Hfuel;
    (destruct fuel as [|fuel]; [cbn in Hfuel; lia|]); cbn [sort_inner after hd fmap list_fmap fst length] in *.
  { rewrite Z.eqb_refl. exists s, i, vi, B. rewrite app_nil_r in *. done. }
  pose proof (rep_NoDup _ _ _ Hr) as Hnd.
  assert (Hr1 : rep s this ((A ++ (i, vi) :: B) ++ (j, vj) :: C)) by (by rewrite <- app_assoc).
  destruct (rep_neighbours _ _ _ _ _ _ Hr1) as [_ Hnx].
  rewrite (proj2 (Z.eqb_neq j this)).
  2:{ intros ->. apply NoDup_cons in Hnd as [Hnd _]. apply Hnd.
      rewrite fmap_app, fmap_cons, fmap_app, fmap_cons, !elem_of_app, elem_of_cons, elem_of_app, elem_of_cons. cbn. tauto. }
  erewrite bind_ok; [|eapply node_val_ok, (rep_vals _ _ _ Hr1); rewrite elem_of_app; right; by left].
  erewrite bind_ok; [|eapply node_val_ok, (rep_vals _ _ _ Hr); rewrite elem_of_app; right; by left].
  run (node_next_ok _ _ _ Hnx). destruct (lt vj vi) eqn:Hlt.
  - destruct (splice_one_run fuel s this A i vi B j vj C Hr) as (s1 & H1 & Hrs & Hu1). run H1.
    destruct (IH fuel s1 j vj ((i, vi) :: B)) as (s2 & i' & vi' & B' & H2 & Hr2 & Hp & Hmin2 & Hu2); [done| |lia|].
    { assert (Hji : le vj vi) by (by apply lt_asym).
      intros b. cbn [fmap list_fmap snd]. intros [->|Hb]%elem_of_cons; [done|].
      eapply le_trans; [exact Hji|]. by apply Hmin. }
    exists s2, i', vi', B'. split_and!; [done|done| |done|].
    + rewrite Hp. change ((i, vi) :: B ++ (j, vj) :: C) with (((i, vi) :: B) ++ (j, vj) :: C).
      by rewrite <- Permutation_middle.
    + eapply unchanged_trans; [exact Hu1|]. eapply unchanged_mono; [|exact Hu2].
      intros b. rewrite !fmap_app, !fmap_cons. cbn [app]. rewrite fmap_cons, !fmap_app, fmap_cons. cbn [fst].
      rewrite !elem_of_app, !elem_of_cons, !elem_of_app, elem_of_cons. tauto.
  - destruct (IH fuel s i vi (B ++ [(j, vj)])) as (s2 & i' & vi' & B' & H2 & Hr2 & Hp & Hmin2 & Hu2);
      [by rewrite <- app_assoc| |lia|].
    { intros b. rewrite fmap_app. intros [Hb| ->%list_elem_of_singleton]%elem_of_app; [by apply Hmin|done]. }
    rewrite <- app_assoc in Hp, Hu2. by exists s2, i', vi', B'.
Qed.

Lemma sort_outer_run this : ∀ R fuel s A,
  rep s this (A ++ R) → StronglySorted le A.*2 → (∀ a r, a ∈ A.*2 → r ∈ R.*2 → le a r) →
  (length R < fuel)%nat →
  ∃ s' l', sort_outer lt fuel this (after this R.*1) s = (Ok tt, s') ∧ rep s' this l' ∧
    l' ≡ₚ A ++ R ∧ StronglySorted le l'.*2 ∧ unchanged s s' this (A ++ R).*1.
Proof.
  clear NodeAllocOk0 NodeAlloc0. intros R. remember (length R) as n eqn:Hn. revert R Hn.
  induction n as [|n IH]; intros R Hn fuel s A Hr HA Hle Hfuel;
    (destruct fuel as [|fuel]; [cbn in Hfuel; lia|]); destruct R as [|[i vi] C]; try done; cbn [sort_outer after hd fmap list_fmap fst] in *.
  { rewrite Z.eqb_refl. exists s, A. rewrite app_nil_r in *. done. }
  injection Hn as Hn. pose proof (rep_NoDup _ _ _ Hr) as Hnd. destruct (rep_neighbours _ _ _ _ _ _ Hr) as [_ Hnx].
  rewrite (proj2 (Z.eqb_neq i this)).
  2:{ intros ->. apply NoDup_cons in Hnd as [Hnd _]. apply Hnd.
      rewrite fmap_app, fmap_cons, elem_of_app, elem_of_cons. cbn. tauto. }
  run (node_next_ok _ _ _ Hnx).
  destruct (sort_inner_run this A C (S fuel) s i vi []) as (s1 & i' & vi' & B' & H1 & Hr1 & Hp & Hmin & Hu1);
    [done|by intros b ?%elem_of_nil|lia|]. run H1.
  destruct (rep_neighbours _ _ _ _ _ _ Hr1) as [_ Hnx1]. run (node_next_ok _ _ _ Hnx1).
  assert (Hp2 : vi' :: B'.*2 ≡ₚ vi :: C.*2) by (apply (fmap_Permutation snd) in Hp; exact Hp).
  cbn [app] in Hp.
  destruct (IH B') with (fuel := fuel) (s := s1) (A := A ++ [(i', vi')]) as (s2 & l' & H2 & Hr2 & Hpl & Hs & Hu2).
  - apply Permutation_length in Hp. cbn in Hp. lia.
  - by rewrite <- app_assoc.
  - rewrite fmap_app. apply StronglySorted_app. split_and!; [|done|repeat constructor].
    intros a b Ha ->%list_elem_of_singleton. apply Hle; [done|]. cbn. rewrite <- Hp2. by left.
  - intros a r Ha Hr'. rewrite fmap_app in Ha. apply elem_of_app in Ha as [Ha| ->%list_elem_of_singleton].
    + apply Hle; [done|]. cbn. rewrite <- Hp2. by right.
    + by apply Hmin.
  - lia.
  - rewrite <- app_assoc in Hpl, Hu2. cbn [app] in Hpl, Hu2.
    exists s2, l'. split_and!; [done|done| |done|].
    + by rewrite Hpl, Hp.
    + eapply unchanged_trans; [exact Hu1|]. eapply unchanged_mono; [|exact Hu2].
      intros b. rewrite !fmap_app, !elem_of_app, !list_elem_of_fmap. setoid_rewrite Hp. done.
Qed.

End sorting.

(** ** Moving elements between lists *)

(** The memory of a splice of the nodes [k] of the ring at [o] into the ring at
    [this]. *)
Lemma splice_rings (m : gmap Z (node V)) this l1 l2 o k1 k k2 x y :
  ring m this (l1 ++ l2) → ring m o (k1 ++ k ++ k2) →
  (∀ a, a ∈ o :: k1 ++ k ++ k2 → a ∉ this :: l1 ++ l2) → head k = Some x → last k = Some y →
  let m' := connect (before this l1) x (connect y (after this l2) (connect (before o k1) (after o k2) m)) in
  pv (connect (before o k1) (after o k2) m) (after this l2) = Some (before this l1) ∧
  ring m' this (l1 ++ k ++ l2) ∧ ring m' o (k1 ++ k2).
Proof.
  intros Hr Ho Hd Hx Hy m'. destruct (ring_delete_segment _ _ _ _ _ Ho) as [Ho1 Hk].
  set (m1 := connect (before o k1) (after o k2) m) in *.
  assert (Hsub : ∀ a, a ∈ o :: k1 ++ k2 → a ∈ o :: k1 ++ k ++ k2).
  { intros a. rewrite !elem_of_cons, !elem_of_app. tauto. }
  assert (Hkin : ∀ a, a ∈ k → a ∈ o :: k1 ++ k ++ k2).
  { intros a. rewrite elem_of_cons, !elem_of_app. tauto. }
  assert (Hr1 : ring m1 this (l1 ++ l2)).
  { eapply ring_frame; [|exact Hr]. intros a Ha. unfold m1. apply lookup_connect_ne; intros ->.
    - apply (Hd _ (Hsub _ (before_in o k1 k2)) Ha).
    - apply (Hd _ (Hsub _ (after_in o k1 k2)) Ha). }
  pose proof (proj1 Ho) as Hndo. apply NoDup_cons in Hndo as [Hno Hndo].
  apply NoDup_app in Hndo as (_ & Hd1 & Hndo). apply NoDup_app in Hndo as (Hndk & Hd2 & _).
  assert (Hk1 : links m1 k).
  { eapply links_frame; [| |exact Hk]; intros a Ha.
    - assert (Hak : a ∈ k) by (destruct k as [|z k _] using rev_ind; [done|];
        rewrite removelast_last in Ha; rewrite elem_of_app; by left).
      unfold m1. rewrite nx_connect by (eapply ring_mapped; [exact Ho|apply Hsub, before_in]).
      rewrite decide_False; [done|]. intros <-. pose proof (before_elem o k1) as [He|He]%elem_of_cons.
      + rewrite He in Hak. apply Hno. rewrite !elem_of_app. tauto.
      + apply (Hd1 _ He). rewrite elem_of_app. tauto.
    - assert (Hak : a ∈ k) by (by destruct k; [|right]).
      unfold m1. rewrite pv_connect by (eapply ring_mapped; [exact Ho|apply Hsub, after_in]).
      rewrite decide_False; [done|]. intros <-. pose proof (after_elem o k2) as [He|He]%elem_of_cons.
      + rewrite He in Hak. apply Hno. rewrite !elem_of_app. tauto.
      + by apply (Hd2 _ Hak). }
  assert (Hnd : NoDup (this :: l1 ++ k ++ l2)).
  { assert (Hp : this :: l1 ++ k ++ l2 ≡ₚ k ++ this :: l1 ++ l2).
    { rewrite <- Permutation_middle. constructor. rewrite app_assoc, (Permutation_app_comm l1 k), <- app_assoc. done. }
    rewrite Hp. apply NoDup_app. split_and!; [done| |apply (proj1 Hr)]. intros a Ha. by apply Hd, Hkin. }
  split_and!.
  - by apply ring_app in Hr1 as (_ & _ & _ & ?).
  - apply ring_insert_segment; try done. intros a Ha. apply mapped_connect.
    eapply ring_mapped; [exact Ho|by apply Hkin].
  - eapply ring_frame; [|exact Ho1]. intros a Ha.
    assert (Hak : a ∉ k).
    { intros Hak. apply elem_of_cons in Ha as [->|[Ha|Ha]%elem_of_app].
      - apply Hno. rewrite !elem_of_app. tauto.
      - apply (Hd1 _ Ha). rewrite elem_of_app. tauto.
      - by apply (Hd2 _ Hak). }
    unfold m'. rewrite !lookup_connect_ne; [done|..]; intros ->.
    + apply Hak. by apply last_Some_elem_of.
    + by apply (Hd _ (Hsub _ Ha)), after_in.
    + by apply (Hd _ (Hsub _ Ha)), before_in.
    + apply Hak. by apply head_Some_elem_of.
Qed.

(** What a splice leaves alone. *)
Definition unchanged2 (s s' : state) (this o : Z) (X : list Z) : Prop :=
  (∀ b, b ∉ this :: o :: X → nodes s' !! b = nodes s !! b) ∧
  (∀ t, t ≠ this → t ≠ o → sizes s' !! t = sizes s !! t).

Lemma rep_distance fuel s o k1 k k2 :
  rep s o (k1 ++ k ++ k2) → (length k < fuel)%nat →
  distance fuel (after o (k ++ k2).*1) (after o k2.*1) s = (Ok (Z.of_nat (length k)), s).
Proof.
  intros Ho Hfuel. pose proof (rep_ring _ _ _ Ho) as Hg. rewrite !fmap_app in Hg.
  destruct (ring_app _ _ _ _ Hg) as (_ & Hl & _). rewrite fmap_app.
  replace (after o (k.*1 ++ k2.*1)) with (after (after o k2.*1) k.*1) by (by destruct k).
  rewrite <- (length_fmap fst k). apply distance_run; [| |by rewrite length_fmap].
  - destruct (after_split o k2.*1) as (B & HB & _). rewrite <- app_assoc, HB in Hl.
    by apply links_app in Hl as [? _].
  - destruct Hg as [Hnd _]. apply NoDup_cons in Hnd as [Hno Hnd].
    apply NoDup_app in Hnd as (_ & _ & Hnd). apply NoDup_app in Hnd as (Hnd & Hd & _).
    apply NoDup_app. split_and!; [done| |apply NoDup_singleton].
    intros a Ha ->%list_elem_of_singleton. pose proof (after_elem o k2.*1) as [He|He]%elem_of_cons.
    + rewrite He in Ha. apply Hno. rewrite !elem_of_app. tauto.
    + by apply (Hd _ Ha).
Qed.
(** The links of a splice are in the two rings. *)
Lemma splice_outside (m : gmap Z (node V)) this l1 l2 o k1 k k2 x y b :
  head k = Some x → last k = Some y → b ∉ this :: l1 ++ l2 → b ∉ o :: k1 ++ k ++ k2 →
  connect (before this l1) x (connect y (after this l2) (connect (before o k1) (after o k2) m)) !! b = m !! b.
Proof.
  intros Hx%head_Some_elem_of Hy%last_Some_elem_of Hnt Hno.
  assert (Hno2 : b ∉ o :: k1 ++ k2) by (rewrite !elem_of_cons, !elem_of_app in *; tauto).
  assert (Hk : b ∉ k) by (rewrite !elem_of_cons, !elem_of_app in Hno; tauto).
  rewrite !lookup_connect_ne; [done|..]; intros ->;
    (by apply Hno2, before_in) || (by apply Hno2, after_in) || (by apply Hnt, after_in) ||
    (by apply Hnt, before_in) || done.
Qed.

Lemma splice_range_run fuel s this l1 l2 o k1 k k2 :
  rep s this (l1 ++ l2) → rep s o (k1 ++ k ++ k2) → k ≠ [] →
  (∀ a, a ∈ o :: (k1 ++ k ++ k2).*1 → a ∉ this :: (l1 ++ l2).*1) →
  Z.of_nat (length (l1 ++ k ++ l2)) < 2 ^ 64 → (length k < fuel)%nat →
  ∃ s', splice_range fuel this (after this l2.*1) o (after o (k ++ k2).*1) (after o k2.*1) s = (Ok tt, s') ∧
    rep s' this (l1 ++ k ++ l2) ∧ rep s' o (k1 ++ k2) ∧
    unchanged2 s s' this o ((l1 ++ l2).*1 ++ (k1 ++ k ++ k2).*1).
Proof.
  intros Hr Ho Hk Hd Hb Hfuel.
  pose proof (rep_ring _ _ _ Hr) as Hg. pose proof (rep_ring _ _ _ Ho) as Hgo.
  rewrite !fmap_app in Hg. rewrite !fmap_app in Hgo.
  assert (Hto : this ≠ o) by (intros ->; apply (Hd o); by left).
  destruct (head k.*1) as [x|] eqn:Hx; [|by destruct k].
  destruct (last k.*1) as [y|] eqn:Hy; [|by apply last_None, fmap_nil_inv in Hy].
  destruct (splice_rings _ _ _ _ _ _ _ _ x y Hg Hgo) as (Hpp & Hr' & Ho'); [|done|done|].
  { rewrite <- !fmap_app. done. }
  destruct (ring_app _ _ _ _ Hgo) as (_ & Hlk & _ & Hpx).
  assert (Hax : after o (k ++ k2).*1 = x) by (rewrite fmap_app; destruct k; [done|]; cbn in *; congruence).
  assert (Hpy : pv (nodes s) (after o k2.*1) = Some y).
  { pose proof Ho as Ho2. rewrite (app_assoc k1) in Ho2. destruct (rep_ends s o (k1 ++ k) k2 Ho2) as [_ ->].
    unfold before. rewrite fmap_app, last_app, Hy. done. }
  rewrite <- fmap_app, Hax in Hpx.
  set (m' := connect (before this l1.*1) x _) in *.
  assert (Hval : ∀ b, val <$> m' !! b = val <$> nodes s !! b) by (intros b; unfold m'; by rewrite !val_connect).
  set (zo := Z.of_nat (length (k1 ++ k2))). set (zt := Z.of_nat (length (l1 ++ k ++ l2))).
  pose proof (rep_bound _ _ _ Ho) as Hbo. pose proof (rep_bound _ _ _ Hr) as Hbt.
  assert (Hzo : zo = Z.of_nat (length (k1 ++ k ++ k2)) - Z.of_nat (length k)) by (unfold zo; rewrite !length_app; lia).
  assert (Hzt : zt = Z.of_nat (length (l1 ++ l2)) + Z.of_nat (length k)) by (unfold zt; rewrite !length_app; lia).
  exists (State m' (<[this := zt]> (<[o := zo]> (sizes s)))). split_and!.
  - unfold splice_range. rewrite (proj2 (Z.eqb_neq _ _) Hto). cbn [negb].
    erewrite bind_ok.
    2:{ erewrite bind_ok; [|by eapply rep_distance].
        erewrite bind_ok; [|apply size_ok; exact (rep_size _ _ _ Ho)].
        unfold put_size at 1. rewrite bind_modify. erewrite bind_ok; [reflexivity|].
        apply size_ok. cbn. rewrite lookup_insert_ne by done. exact (rep_size _ _ _ Hr). }
    rewrite Hax. erewrite splice_links_run.
    + unfold set_nodes, set_sizes. cbn [nodes sizes]. rewrite !u64_small by lia. by rewrite <- Hzo, <- Hzt.
    + exact Hpx.
    + exact Hpy.
    + eapply (ring_mapped _ _ _ _ Hgo), before_in.
    + eapply (ring_mapped _ _ _ _ Hgo). rewrite elem_of_cons, !elem_of_app. right; right; left.
      by apply last_Some_elem_of.
    + eapply (ring_mapped _ _ _ _ Hg), before_in.
    + intros Heq. apply (Hd x).
      * rewrite !fmap_app, elem_of_cons, !elem_of_app. right; right; left. by apply head_Some_elem_of.
      * rewrite <- Heq, fmap_app. apply after_in.
    + exact Hpp.
  - split; cbn [nodes sizes].
    + by rewrite !fmap_app.
    + rewrite Hval. apply Hr.
    + intros b w. rewrite Hval, !elem_of_app. intros [Hb'|[Hb'|Hb']];
        [apply Hr|apply Ho|apply Hr]; rewrite !elem_of_app; tauto.
    + by rewrite lookup_insert_eq.
    + done.
  - split; cbn [nodes sizes].
    + by rewrite !fmap_app.
    + rewrite Hval. apply Ho.
    + intros b w. rewrite Hval, !elem_of_app. intros Hb'. apply Ho. rewrite !elem_of_app. tauto.
    + by rewrite lookup_insert_ne, lookup_insert_eq.
    + unfold zo in Hzo. lia.
  - split; cbn [nodes sizes]; [|intros t H1 H2; by rewrite !lookup_insert_ne].
    intros b Hb'. apply (splice_outside _ _ _ _ _ _ k.*1); [done|done|..]; intros Hin; apply Hb';
      rewrite !fmap_app, !elem_of_cons, !elem_of_app in *; tauto.
Qed.

(** ** Properties *)

(** C10: [insert(pos, first, last)] puts the values, in order, in front of [pos]
    and returns the position of the first of them; if the allocator fails on the way, or the
    constructor of an element throws, [bad_alloc] or that exception is passed on and the whole
    state is as before the call.
    [insert(pos, count, value)] is the same with [count] copies. *)
Theorem list_insert_strong s this l1 l2 vs :
  rep s this (l1 ++ l2) → Z.of_nat (length (l1 ++ l2)) + Z.of_nat (length vs) < 2 ^ 64 →
  (∀ count v, insert_count this (after this l2.*1) count v s =
              insert_values this (after this l2.*1) (replicate count v) s) ∧
  ((∃ k s', insert_values this (after this l2.*1) vs s = (Ok (after this (k ++ l2).*1), s') ∧
      k.*2 = vs ∧ rep s' this (l1 ++ k ++ l2) ∧ (∀ a, a ∈ k.*1 → nodes s !! a = None) ∧
      unchanged s s' this (l1 ++ k ++ l2).*1) ∨
   (∃ e m v, new_node m v = inr e ∧ v ∈ vs ∧ insert_values this (after this l2.*1) vs s = (Throw e, s))).
Proof.
  intros Hr Hlen. split.
  { intros count v. unfold insert_count, insert_values. rewrite insert_count_values. do 2 f_equal.
    symmetry. apply rev_replicate. }
  destruct (insert_values_run s this l1 l2 (rev vs) Hr [] s (inserted_nil _ _ _ _ Hr))
    as [(k & s' & H1 & H2 & Hi)|(e & m & v & He & Hv & H1)].
  - by rewrite length_rev.
  - left. exists k, s'. rewrite app_nil_r in Hi. rewrite rev_involutive in H2.
    destruct Hi as [Hi1 Hi2 Hi3]. done.
  - right. exists e, m, v. split; [done|]. split; [|done]. by apply list_elem_of_In, in_rev, list_elem_of_In.
Qed.

(** The copy constructor makes a list of new nodes with the same values in
    the same order and leaves the source as it was; if the allocator fails or the constructor
    of an element throws, it throws, and the whole state is as before the call. *)
Theorem list_copy_spec fuel s this o l :
  rep s o l → nodes s !! this = None → sizes s !! this = None → (length l < fuel)%nat →
  (∃ k s', copy_construct fuel this o s = (Ok tt, s') ∧ k.*2 = l.*2 ∧ rep s' this k ∧ rep s' o l ∧
     (∀ a, a ∈ k.*1 → nodes s !! a = None) ∧ unchanged s s' this k.*1) ∨
  (∃ e m v, new_node m v = inr e ∧ copy_construct fuel this o s = (Throw e, s)).
Proof.
  intros Ho Hn Hz Hfuel. set (s1 := constructed this s).
  pose proof (constructed_rep this s) as Hr1. pose proof (constructed_unchanged this s) as Hu1. fold s1 in Hr1, Hu1.
  assert (Hd : ∀ a, a ∈ o :: l.*1 → a ∉ [this]).
  { intros a Ha ->%list_elem_of_singleton. destruct (rep_mapped _ _ _ _ Ho Ha) as [n Hn']. by rewrite Hn in Hn'. }
  pose proof (rep_frame _ _ _ _ _ _ Ho Hu1 Hd) as Ho1. pose proof (rep_bound _ _ _ Ho) as Hb.
  pose proof (insert_nodes_values s1 this [] [] o [] l [] Hr1) as Heq. cbn [app after hd fmap list_fmap] in Heq.
  rewrite app_nil_r in Heq. specialize (Heq Ho1 Hd fuel [] s1 (inserted_nil s1 this [] [] Hr1) Hfuel Hb).
  cbn in Heq. unfold copy_construct, delegating.
  destruct (insert_values_run s1 this [] [] (rev l.*2) Hr1 [] s1 (inserted_nil s1 this [] [] Hr1))
    as [(k & s' & H1 & H2 & Hi)|(e & m & v & He & _ & H1)].
  { rewrite length_rev, length_fmap. cbn. lia. }
  - left. exists k, s'. rewrite app_nil_r in Hi. destruct Hi as [Hi1 Hi2 Hi3].
    cbn [app] in Hi1, Hi3. rewrite app_nil_r in Hi1, Hi3. rewrite rev_involutive in H2.
    assert (Hfresh : ∀ a, a ∈ k.*1 → nodes s !! a = None).
    { intros a Ha. destruct (decide (a = this)) as [->|Hne]; [done|].
      rewrite <- (proj1 Hu1); [by apply Hi2|]. by intros ->%list_elem_of_singleton. }
    split_and!; [|done|done| |done|].
    + unfold construct. rewrite bind_modify. unfold try_catch, bind at 1. fold (constructed this s). fold s1.
      erewrite (rep_begin s1 o l) by done. unfold insert_nodes, bind. cbn in H1. by rewrite Heq, H1.
    + eapply rep_frame; [exact Ho1|exact Hi3|]. intros a Ha [->|Hin]%elem_of_cons.
      * apply (Hd this Ha). by left.
      * destruct (rep_mapped _ _ _ _ Ho Ha) as [n Hn']. by rewrite (Hfresh a Hin) in Hn'.
    + eapply unchanged_trans; [|exact Hi3]. eapply unchanged_mono; [|exact Hu1]. set_solver.
  - right. exists e, m, v. split; [done|]. unfold construct. rewrite bind_modify. unfold try_catch.
    fold (constructed this s). fold s1. unfold bind at 1. erewrite (rep_begin s1 o l) by done.
    unfold insert_nodes, bind. cbn in H1. rewrite Heq, H1.
    unfold s1. by rewrite (destroy_constructed fuel this s Hn Hz ltac:(lia)).
Qed.

(** The destructor returns every node of the list to the allocator, ends the
    list object, and changes nothing else. *)
Theorem list_destroy_spec fuel s this l :
  rep s this l → (length l < fuel)%nat →
  ∃ s', destroy fuel this s = (Ok tt, s') ∧ (∀ a, a ∈ this :: l.*1 → nodes s' !! a = None) ∧
    sizes s' !! this = None ∧ unchanged s s' this l.*1.
Proof. apply list_destroy_run. Qed.

(** [splice] of a non-empty range of another list moves its nodes, without
    copying, in front of [pos]; both lists keep the order of their elements and
    their sizes, and nothing else changes. *)
Theorem list_splice_spec fuel s this l1 l2 o k1 k k2 :
  rep s this (l1 ++ l2) → rep s o (k1 ++ k ++ k2) → k ≠ [] →
  (∀ a, a ∈ o :: (k1 ++ k ++ k2).*1 → a ∉ this :: (l1 ++ l2).*1) →
  Z.of_nat (length (l1 ++ k ++ l2)) < 2 ^ 64 → (length k < fuel)%nat →
  ∃ s', splice_range fuel this (after this l2.*1) o (after o (k ++ k2).*1) (after o k2.*1) s = (Ok tt, s') ∧
    rep s' this (l1 ++ k ++ l2) ∧ rep s' o (k1 ++ k2) ∧
    unchanged2 s s' this o ((l1 ++ l2).*1 ++ (k1 ++ k ++ k2).*1).
Proof. apply splice_range_run. Qed.

(** C11: [sort] ends, rearranges the nodes of the list without copying them and
    leaves their values in ascending order, for every strict weak ordering. *)
Theorem list_sort_spec lt `{!StrictWeak lt} fuel s this l :
  rep s this l → (length l < fuel)%nat →
  ∃ s' l', sort lt fuel this s = (Ok tt, s') ∧ rep s' this l' ∧ l' ≡ₚ l ∧
    StronglySorted (le lt) l'.*2 ∧ unchanged s s' this l.*1.
Proof.
  intros Hr Hfuel. unfold sort. run (rep_begin _ _ _ Hr).
  apply (sort_outer_run lt this l fuel s []); [done|constructor| |done]. by intros a r ?%elem_of_nil.
Qed.

End list.
Arguments state : clear implicits.

(** ** An allocator with room for a number of nodes *)

Definition bump (limit : nat) : NodeAlloc Z := {|
  node_alloc m := if (map_size m <? limit)%nat then Some (fresh_key m) else None;
  value_throws m v := if v =? -1 then Some bad_function_call else None;
|}.
#[export] Instance bump_ok limit : @NodeAllocOk Z (bump limit).
Proof.
  intros m a. cbn -[Nat.ltb]. case_match; intros [= <-]. apply fresh_key_fresh.
Qed.

(** The list of [10 30 20] at [1] and the list of [7] at [2]. *)
Definition sample : state Z :=
  snd ((construct 1 ;;; construct 2 ;;;
        @insert_values _ (bump 100) 1 1 [10; 30; 20] ;;; @push_back _ (bump 100) 2 7) (State ∅ ∅)).

Ltac solve_rep :=
  split; [split; [apply (bool_decide_eq_true_1 _); vm_compute; reflexivity|vm_compute; tauto]
         |vm_compute; reflexivity
         |intros a v Hav; repeat (apply elem_of_cons in Hav as [[= -> ->]|Hav]; [vm_compute; reflexivity|]);
          by apply elem_of_nil in Hav
         |vm_compute; reflexivity|vm_compute; reflexivity].

Lemma sample_rep1 : rep sample 1 [(5, 10); (4, 30); (3, 20)].
Proof. solve_rep. Qed.
Lemma sample_rep2 : rep sample 2 [(6, 7)].
Proof. solve_rep. Qed.
#[export] Instance ltb_strict_weak : StrictWeak Z.ltb.
Proof. split; unfold le; intros; lia. Qed.

(** Two elements are inserted, and none when only one node is left or a constructor throws. *)
Lemma list_insert_witness :
  (∃ k s', @insert_values _ (bump 8) 1 4 [8; 9] sample = (Ok 8, s') ∧ k.*2 = [8; 9] ∧
     rep s' 1 ([(5, 10)] ++ k ++ [(4, 30); (3, 20)])) ∧
  @insert_values _ (bump 7) 1 4 [8; 9] sample = (Throw bad_alloc, sample) ∧
  @insert_values _ (bump 9) 1 4 [-1; 9] sample = (Throw bad_function_call, sample).
Proof.
  split; [|split].
  - destruct (@list_insert_strong _ (bump 8) (bump_ok 8) sample 1 [(5, 10)] [(4, 30); (3, 20)] [8; 9]
      sample_rep1 ltac:(vm_compute; reflexivity)) as [_ [(k & s' & H1 & H2 & H3 & _)|(e & _ & _ & _ & _ & H1)]].
    + exists k, s'. split; [|exact (conj H2 H3)].
      assert (Hf : fst (@insert_values _ (bump 8) 1 4 [8; 9] sample) = Ok 8) by (vm_compute; reflexivity).
      cbn [after hd fmap list_fmap fst] in H1. rewrite H1 in Hf |- *. cbn [fst] in Hf. rewrite Hf. reflexivity.
    + exfalso. apply (f_equal fst) in H1. vm_compute in H1. discriminate H1.
  - destruct (@list_insert_strong _ (bump 7) (bump_ok 7) sample 1 [(5, 10)] [(4, 30); (3, 20)] [8; 9]
      sample_rep1 ltac:(vm_compute; reflexivity)) as [_ [(k & s' & H1 & _)|(e & _ & _ & _ & _ & H1)]];
      [exfalso; apply (f_equal fst) in H1; vm_compute in H1; discriminate H1|].
    assert (Hf : fst (@insert_values _ (bump 7) 1 4 [8; 9] sample) = Throw bad_alloc)
      by (vm_compute; reflexivity).
    cbn [after hd fmap list_fmap fst] in H1. rewrite H1 in Hf |- *. cbn [fst] in Hf. rewrite Hf. reflexivity.
  - destruct (@list_insert_strong _ (bump 9) (bump_ok 9) sample 1 [(5, 10)] [(4, 30); (3, 20)] [-1; 9]
      sample_rep1 ltac:(vm_compute; reflexivity)) as [_ [(k & s' & H1 & _)|(e & _ & _ & _ & _ & H1)]];
      [exfalso; apply (f_equal fst) in H1; vm_compute in H1; discriminate H1|].
    assert (Hf : fst (@insert_values _ (bump 9) 1 4 [-1; 9] sample) = Throw bad_function_call)
      by (vm_compute; reflexivity).
    cbn [after hd fmap list_fmap fst] in H1. rewrite H1 in Hf |- *. cbn [fst] in Hf. rewrite Hf. reflexivity.
Defined.

Lemma list_copy_witness :
  ∃ k s', @copy_construct _ (bump 100) 4 9 1 sample = (Ok tt, s') ∧ k.*2 = [10; 30; 20] ∧ rep s' 9 k.
Proof.
  destruct (@list_copy_spec _ (bump 100) (bump_ok 100) 4 sample 9 1 _ sample_rep1
    ltac:(vm_compute; reflexivity) ltac:(vm_compute; reflexivity) ltac:(vm_compute; lia))
    as [(k & s' & H1 & H2 & H3 & _)|(e & m & v & _ & H1)].
  - exists k, s'. exact (conj H1 (conj H2 H3)).
  - exfalso. apply (f_equal fst) in H1. vm_compute in H1. discriminate H1.
Defined.

Lemma list_destroy_witness :
  ∃ s', destroy 4 1 sample = (Ok tt, s') ∧ nodes s' !! 5 = None ∧ sizes s' !! 1 = None.
Proof.
  destruct (list_destroy_spec 4 sample 1 _ sample_rep1 ltac:(vm_compute; lia)) as (s' & H1 & H2 & H3 & _).
  exists s'. split; [exact H1|]. split; [|exact H3]. apply H2.
  apply (bool_decide_eq_true_1 _). reflexivity.
Defined.

Lemma list_splice_witness :
  ∃ s', splice_range 3 2 6 1 5 3 sample = (Ok tt, s') ∧
    rep s' 2 [(5, 10); (4, 30); (6, 7)] ∧ rep s' 1 [(3, 20)].
Proof.
  destruct (list_splice_spec 3 sample 2 [] [(6, 7)] 1 [] [(5, 10); (4, 30)] [(3, 20)]
    sample_rep2 sample_rep1) as (s' & H1 & H2 & H3 & _); [discriminate| |vm_compute; reflexivity|vm_compute; lia|].
  - clear. intros a Ha Hb. cbn in Ha, Hb. rewrite !elem_of_cons, elem_of_nil in *. lia.
  - exists s'. exact (conj H1 (conj H2 H3)).
Defined.

Lemma list_sort_witness :
  ∃ s' l', sort Z.ltb 4 1 sample = (Ok tt, s') ∧ rep s' 1 l' ∧ l' ≡ₚ [(5, 10); (4, 30); (3, 20)].
Proof.
  destruct (list_sort_spec Z.ltb 4 sample 1 _ sample_rep1 ltac:(vm_compute; lia)) as (s' & l' & H1 & H2 & H3 & _).
  exists s', l'. exact (conj H1 (conj H2 H3)).
Defined.

(** Moving from an empty list breaks both lists.  The new list has no element
    and size 0, but its begin is not its end: the begin is the past-the-end node of
    the other list, and a loop over the elements reads a value that is not there. *)
Theorem list_move_from_empty_breaks :
  let s := snd ((construct 2 ;;; @move_construct Z 5 1 2) (State ∅ ∅)) in
  fst (size 1 s) = Ok 0 ∧ fst (empty 1 s) = Ok false ∧ fst (begin 1 s) = Ok 2 ∧
  fst (front 1 s) = Undef.
Proof. vm_compute. done. Qed.

End Linked.
