(* ===== verification/SharedPtr.v ===== *)
(** * Reference-counted pointers (shared_ptr.hpp, weak_ptr.hpp, ref_count.hpp)

    A control block has the two counts and the pointer to the managed object;
    [0] is the null pointer.  [objects] holds the live objects that pointers may
    manage, with the member [weak_this] of those whose class derives from
    [enable_shared_from_this].  The pointer objects themselves are variables,
    [shareds] and [weaks], from their construction to their destruction.  The
    counts are [long]s; there are fewer than 2^63 pointer objects.  Allocation of
    a control block may fail with [std::bad_alloc].  Here each member function
    runs on its own; RefCount.v has the interleavings of several threads. *)

From S2P Require Import Prelude.

Local Open Scope Z_scope.
Local Open Scope gpcl_scope.

(** [shared_ptr] and [weak_ptr] have the same two members. *)
Record ptr : Type := Ptr { p_ : Z; s_ : Z }.
Definition null_ptr : ptr := Ptr 0 0.

Record block : Type := Block { use_count_ : Z; weak_count_ : Z; managed : option Z }.

Record heap : Type := Heap { blocks : gmap Z block; objects : gmap Z (option ptr) }.

Record pointers : Type := Pointers { heap_of : heap; shareds : gmap Z ptr; weaks : gmap Z ptr }.

(** The allocator of control blocks. *)
Class BlockAlloc : Type := block_alloc : heap → option Z.
Class BlockAllocOk `{!BlockAlloc} : Prop :=
  block_alloc_fresh h b : block_alloc h = Some b → b ≠ 0 ∧ blocks h !! b = None.

Module Shared.

Abbreviation H A := (M heap A).
Abbreviation L A := (M pointers A).

(** ** Control blocks (ref_count_base.hpp) *)

Definition block_at (b : Z) : H block :=
  λ h, match blocks h !! b with Some k => (Ok k, h) | None => (Undef, h) end.
Definition set_block (b : Z) (k : block) : H unit :=
  modify (λ h, Heap (<[b := k]> (blocks h)) (objects h)).

Definition use_count (b : Z) : H Z := let! k := block_at b in ret (use_count_ k).
Definition weak_count (b : Z) : H Z := let! k := block_at b in ret (weak_count_ k).

(** [use_count_.fetch_add(d)], [weak_count_.fetch_add(d)]: return the old value. *)
Definition fetch_add_use (b d : Z) : H Z :=
  let! k := block_at b in
  set_block b (Block (use_count_ k + d) (weak_count_ k) (managed k)) ;;;
  ret (use_count_ k).
Definition fetch_add_weak (b d : Z) : H Z :=
  let! k := block_at b in
  set_block b (Block (use_count_ k) (weak_count_ k + d) (managed k)) ;;;
  ret (weak_count_ k).

Definition get (b : Z) : H unit :=
  let! n := use_count b in
  gpcl_assert (0 <? n) ;;;
  fetch_add_use b 1 ;;; ret tt.
Definition weak_get (b : Z) : H unit :=
  let! n := weak_count b in
  gpcl_assert (0 <? n) ;;;
  fetch_add_weak b 1 ;;; ret tt.

(** [delete p]: the object ends, then its [weak_this] is destroyed. *)
Definition delete_object (wput : Z → H unit) (p : Z) : H unit :=
  λ h, match objects h !! p with
       | None => (Undef, h)
       | Some w =>
           (match w with
            | Some w => if s_ w =? 0 then ret tt else wput (s_ w)
            | None => ret tt
            end) (Heap (blocks h) (delete p (objects h)))
       end.

Definition delete_managed_object (wput : Z → H unit) (b : Z) : H unit :=
  let! n := use_count b in
  gpcl_assert (n =? 0) ;;;
  let! k := block_at b in
  match managed k with
  | Some p =>
      delete_object wput p ;;;
      let! k := block_at b in
      set_block b (Block (use_count_ k) (weak_count_ k) None)
  | None => ret tt
  end.

(** [delete_this]: the destructor of the derived class deletes the managed object
    if it is still there, then the memory of the block is released. *)
Definition delete_this (wput : Z → H unit) (b : Z) : H unit :=
  let! n := use_count b in
  gpcl_assert (n =? 0) ;;;
  let! n := weak_count b in
  gpcl_assert (n =? 0) ;;;
  delete_managed_object wput b ;;;
  modify (λ h, Heap (delete b (blocks h)) (objects h)).

(** [weak_put]; the fuel bounds the nesting through [weak_this] members. *)
Fixpoint weak_put (fuel : nat) (b : Z) : H unit :=
  match fuel with
  | O => nofuel
  | S fuel =>
      let! n := weak_count b in
      gpcl_assert (0 <? n) ;;;
      let! old := fetch_add_weak b (-1) in
      if old =? 1 then
        let! n := use_count b in
        gpcl_assert (n =? 0) ;;;
        delete_this (weak_put fuel) b
      else ret tt
  end.

Definition put (fuel : nat) (b : Z) : H unit :=
  let! n := use_count b in
  gpcl_assert (0 <? n) ;;;
  let! old := fetch_add_use b (-1) in
  if old =? 1 then
    delete_managed_object (weak_put fuel) b ;;;
    let! old := fetch_add_weak b (-1) in
    if old =? 1 then delete_this (weak_put fuel) b else ret tt
  else ret tt.

(** [lock], run on its own: the compare-exchange loop ends at the first success. *)
Definition lock (b : Z) : H bool :=
  let! n := weak_count b in
  gpcl_assert (0 <? n) ;;;
  let! n := use_count b in
  if 0 <? n then fetch_add_use b 1 ;;; ret true else ret false.

(** [ref_count_ptr::create]: the block of the object at [p]. *)
Definition create `{!BlockAlloc} (p : Z) : H Z :=
  λ h, match block_alloc h with
       | Some b => (Ok b, Heap (<[b := Block 1 1 (Some p)]> (blocks h)) (objects h))
       | None => (Throw bad_alloc, h)
       end.

(** ** Pointer values *)

(** The copy constructors and destructors of the two pointer types. *)
Definition copy_shared (x : ptr) : H ptr := (if s_ x =? 0 then ret tt else get (s_ x)) ;;; ret x.
Definition drop_shared (fuel : nat) (x : ptr) : H unit := if s_ x =? 0 then ret tt else put fuel (s_ x).
Definition copy_weak (x : ptr) : H ptr := (if s_ x =? 0 then ret tt else weak_get (s_ x)) ;;; ret x.
Definition drop_weak (fuel : nat) (x : ptr) : H unit := if s_ x =? 0 then ret tt else weak_put fuel (s_ x).

Definition expired (x : ptr) : H bool :=
  if s_ x =? 0 then ret true else let! n := use_count (s_ x) in ret (n =? 0).

(** [weak_ptr::lock]. *)
Definition lock_weak (x : ptr) : H ptr :=
  if s_ x =? 0 then ret null_ptr else
  let! ok := lock (s_ x) in
  if ok then ret x else ret null_ptr.

Definition weak_this (p : Z) : H (option ptr) :=
  λ h, match objects h !! p with Some w => (Ok w, h) | None => (Undef, h) end.
Definition set_weak_this (p : Z) (w : ptr) : H unit :=
  modify (λ h, Heap (blocks h) (<[p := Some w]> (objects h))).

(** [enables_shared_from_this(ptr)] of the pointer [x]: assigns a temporary
    [shared_ptr( *this, ptr)] to [weak_this]. *)
Definition enables_shared_from_this (fuel : nat) (x : ptr) (p : Z) : H unit :=
  if p =? 0 then ret tt else
  let! w := weak_this p in
  match w with
  | None => ret tt
  | Some w =>
      let! e := expired w in
      if e then
        let! t := copy_shared (Ptr p (s_ x)) in
        let! wt := copy_weak t in
        set_weak_this p wt ;;;
        drop_weak fuel w ;;;
        drop_shared fuel t
      else ret tt
  end.

(** ** Member functions *)

Definition on_heap {A} (f : H A) : L A := zoom heap_of (λ h s, Pointers h (shareds s) (weaks s)) f.
Definition shared_at (v : Z) : L ptr :=
  λ s, match shareds s !! v with Some x => (Ok x, s) | None => (Undef, s) end.
Definition weak_at (v : Z) : L ptr :=
  λ s, match weaks s !! v with Some x => (Ok x, s) | None => (Undef, s) end.
Definition set_shared (v : Z) (x : ptr) : L unit :=
  modify (λ s, Pointers (heap_of s) (<[v := x]> (shareds s)) (weaks s)).
Definition set_weak (v : Z) (x : ptr) : L unit :=
  modify (λ s, Pointers (heap_of s) (shareds s) (<[v := x]> (weaks s))).

(** A constructor needs storage in which no pointer lives. *)
Definition new_shared (v : Z) (x : ptr) : L unit :=
  λ s, match shareds s !! v with None => set_shared v x s | Some _ => (Undef, s) end.
Definition new_weak (v : Z) (x : ptr) : L unit :=
  λ s, match weaks s !! v with None => set_weak v x s | Some _ => (Undef, s) end.

Section members.
Context `{!BlockAlloc} (fuel : nat).

(** [shared_ptr()], [shared_ptr(ptr)], copies and moves. *)
Definition shared_default (this : Z) : L unit := new_shared this null_ptr.
Definition shared_from_raw (this p : Z) : L unit :=
  let! b := on_heap (create p) in
  new_shared this (Ptr p b) ;;;
  on_heap (enables_shared_from_this fuel (Ptr p b) p).
Definition shared_copy (this r : Z) : L unit :=
  let! x := shared_at r in
  let! x := on_heap (copy_shared x) in
  new_shared this x.
(** The aliasing constructor [shared_ptr(r, ptr)]. *)
Definition shared_alias (this r p : Z) : L unit :=
  let! x := shared_at r in
  let! x := on_heap (copy_shared (Ptr p (s_ x))) in
  new_shared this x.
Definition shared_move (this r : Z) : L unit :=
  let! x := shared_at r in
  set_shared r null_ptr ;;;
  new_shared this x.
(** [shared_ptr(const weak_ptr &)]: an exception destroys nothing, [s_] is null. *)
Definition shared_from_weak (this r : Z) : L unit :=
  let! x := weak_at r in
  let! x := on_heap (lock_weak x) in
  if s_ x =? 0 then throw bad_weak_ptr else new_shared this x.
Definition shared_destroy (this : Z) : L unit :=
  let! x := shared_at this in
  on_heap (drop_shared fuel x) ;;;
  modify (λ s, Pointers (heap_of s) (delete this (shareds s)) (weaks s)).

Definition shared_swap (this r : Z) : L unit :=
  let! x := shared_at this in
  let! y := shared_at r in
  set_shared this y ;;; set_shared r x.
(** [shared_ptr(r).swap( *this)]: the temporary ends up with the old value. *)
Definition shared_assign (this r : Z) : L unit :=
  let! y := shared_at r in
  let! t := on_heap (copy_shared y) in
  let! old := shared_at this in
  set_shared this t ;;;
  on_heap (drop_shared fuel old).
Definition shared_move_assign (this r : Z) : L unit := shared_swap r this.
Definition shared_reset (this : Z) : L unit :=
  let! old := shared_at this in
  set_shared this null_ptr ;;;
  on_heap (drop_shared fuel old).
Definition shared_reset_raw (this p : Z) : L unit :=
  let! b := on_heap (create p) in
  on_heap (enables_shared_from_this fuel (Ptr p b) p) ;;;
  let! old := shared_at this in
  set_shared this (Ptr p b) ;;;
  on_heap (drop_shared fuel old).

Definition shared_get (this : Z) : L Z := let! x := shared_at this in ret (p_ x).
Definition shared_use_count (this : Z) : L Z :=
  let! x := shared_at this in
  if s_ x =? 0 then ret 0 else on_heap (use_count (s_ x)).

(** [weak_ptr]. *)
Definition weak_default (this : Z) : L unit := new_weak this null_ptr.
Definition weak_from_shared (this r : Z) : L unit :=
  let! x := shared_at r in
  let! x := on_heap (copy_weak x) in
  new_weak this x.
Definition weak_copy (this r : Z) : L unit :=
  let! x := weak_at r in
  let! x := on_heap (copy_weak x) in
  new_weak this x.
Definition weak_move (this r : Z) : L unit :=
  let! x := weak_at r in
  set_weak r null_ptr ;;;
  new_weak this x.
Definition weak_destroy (this : Z) : L unit :=
  let! x := weak_at this in
  on_heap (drop_weak fuel x) ;;;
  modify (λ s, Pointers (heap_of s) (shareds s) (delete this (weaks s))).
Definition weak_swap (this r : Z) : L unit :=
  let! x := weak_at this in
  let! y := weak_at r in
  set_weak this y ;;; set_weak r x.
Definition weak_assign (this r : Z) : L unit :=
  let! y := weak_at r in
  let! t := on_heap (copy_weak y) in
  let! old := weak_at this in
  set_weak this t ;;;
  on_heap (drop_weak fuel old).
Definition weak_move_assign (this r : Z) : L unit := weak_swap r this.
Definition weak_assign_shared (this r : Z) : L unit :=
  let! y := shared_at r in
  let! t := on_heap (copy_weak y) in
  let! old := weak_at this in
  set_weak this t ;;;
  on_heap (drop_weak fuel old).
Definition weak_reset (this : Z) : L unit :=
  let! x := weak_at this in
  on_heap (drop_weak fuel x) ;;;
  set_weak this null_ptr.
Definition weak_use_count (this : Z) : L Z :=
  let! x := weak_at this in
  if s_ x =? 0 then ret 0 else on_heap (use_count (s_ x)).
Definition weak_expired (this : Z) : L bool :=
  let! x := weak_at this in on_heap (expired x).
(** [weak_ptr::lock], its result the new pointer [v]. *)
Definition weak_lock (this v : Z) : L unit :=
  let! x := weak_at this in
  let! x := on_heap (lock_weak x) in
  new_shared v x.

End members.

(** ** Owners and the invariant *)

Definition cnt (b : Z) (l : list Z) : Z := Z.of_nat (count_occ Z.eq_dec l b).

Lemma cnt_nil b : cnt b [] = 0.
Proof. done. Qed.
Lemma cnt_cons b a l : cnt b (a :: l) = (if decide (a = b) then 1 else 0) + cnt b l.
Proof. unfold cnt. cbn. destruct (Z.eq_dec a b); case_decide; try done; lia. Qed.
Lemma cnt_app b l k : cnt b (l ++ k) = cnt b l + cnt b k.
Proof. unfold cnt. rewrite count_occ_app. lia. Qed.
Lemma cnt_nonneg b l : 0 ≤ cnt b l.
Proof. unfold cnt. lia. Qed.
#[local] Instance cnt_perm b : Proper ((≡ₚ) ==> (=)) (cnt b).
Proof. intros l k Hp. unfold cnt. f_equal. by apply Permutation_count_occ. Qed.
Lemma cnt_elem b l : 0 < cnt b l ↔ b ∈ l.
Proof.
  induction l as [|a l IH]; [rewrite cnt_nil, elem_of_nil; lia|].
  rewrite cnt_cons, elem_of_cons. pose proof (cnt_nonneg b l). case_decide; [naive_solver lia|].
  rewrite Z.add_0_l, IH. naive_solver.
Qed.
Lemma cnt_NoDup b l : NoDup l → cnt b l ≤ 1.
Proof.
  induction 1 as [|a l Ha _ IH]; [rewrite cnt_nil; lia|]. rewrite cnt_cons. case_decide; [|lia]. subst.
  destruct (decide (0 < cnt b l)) as [Hb%cnt_elem|]; [done|lia].
Qed.

(** The control blocks that the variables, and the [weak_this] members, refer to. *)
Definition owners (m : gmap Z ptr) : list Z := s_ <$> (map_to_list m).*2.
Definition this_owners (o : gmap Z (option ptr)) : list Z := s_ <$> omap id (map_to_list o).*2.

Lemma owners_insert m v x : m !! v = None → owners (<[v := x]> m) ≡ₚ s_ x :: owners m.
Proof. intros Hv. unfold owners. by rewrite map_to_list_insert. Qed.
Lemma owners_delete m v x : m !! v = Some x → owners m ≡ₚ s_ x :: owners (delete v m).
Proof. intros Hv. unfold owners. by rewrite <- (map_to_list_delete m v x Hv). Qed.
Lemma owners_update m v x y :
  m !! v = Some x → s_ x :: owners (<[v := y]> m) ≡ₚ s_ y :: owners m.
Proof.
  intros Hv. rewrite <- insert_delete_eq, owners_insert by apply lookup_delete_eq.
  rewrite (owners_delete m v x) by done. apply Permutation_swap.
Qed.
Lemma owners_elem m v x : m !! v = Some x → s_ x ∈ owners m.
Proof. intros Hv. rewrite (owners_delete m v x) by done. by left. Qed.

Definition this_owner (w : option ptr) : list Z := match w with Some w => [s_ w] | None => [] end.
Lemma this_owners_delete o p w :
  o !! p = Some w → this_owners o ≡ₚ this_owner w ++ this_owners (delete p o).
Proof.
  intros Hp. unfold this_owners. rewrite <- (map_to_list_delete o p w Hp). by destruct w.
Qed.
Lemma this_owners_insert o p w :
  o !! p = None → this_owners (<[p := w]> o) ≡ₚ this_owner w ++ this_owners o.
Proof. intros Hp. unfold this_owners. rewrite map_to_list_insert by done. by destruct w. Qed.
Lemma this_owners_update o p w y :
  o !! p = Some w → this_owner w ++ this_owners (<[p := y]> o) ≡ₚ this_owner y ++ this_owners o.
Proof.
  intros Hp. rewrite <- insert_delete_eq, this_owners_insert by apply lookup_delete_eq.
  rewrite (this_owners_delete o p w Hp), !app_assoc. f_equiv. apply Permutation_app_comm.
Qed.

(** [Ss] and [Ws] are the blocks referred to by the strong and weak pointers, the
    latter without the [weak_this] members; [T] holds the blocks whose owners
    together hold one weak reference. *)
Record wf (h : heap) (Ss Ws T : list Z) : Prop := {
  wf_null b k : blocks h !! b = Some k → b ≠ 0;
  wf_use b k : blocks h !! b = Some k → use_count_ k = cnt b Ss;
  wf_weak b k : blocks h !! b = Some k →
    weak_count_ k = cnt b Ws + cnt b (this_owners (objects h)) + cnt b T;
  wf_pos b k : blocks h !! b = Some k → 0 < weak_count_ k;
  wf_refs b : b ≠ 0 → 0 < cnt b Ss + cnt b Ws + cnt b (this_owners (objects h)) + cnt b T →
    is_Some (blocks h !! b);
  wf_token b : cnt b T ≤ 1;
  wf_token0 : cnt 0 T = 0;
  wf_strong b : b ≠ 0 → 0 < cnt b Ss → cnt b T = 1;
  wf_managed b k o : blocks h !! b = Some k → managed k = Some o → cnt b T = 1;
  wf_alive b k : blocks h !! b = Some k → 0 < cnt b Ss →
    ∃ o, managed k = Some o ∧ is_Some (objects h !! o);
  wf_inj b c k j o : blocks h !! b = Some k → blocks h !! c = Some j →
    managed k = Some o → managed j = Some o → b = c;
}.

(** Between calls, only blocks with an owner have the common weak reference. *)
Definition stable (Ss T : list Z) : Prop := ∀ b, 0 < cnt b T → 0 < cnt b Ss.

(** ** Steps of the control block *)

Ltac run H := rewrite (bind_ok _ _ _ _ _ H).

Lemma block_at_ok h b k : blocks h !! b = Some k → block_at b h = (Ok k, h).
Proof. unfold block_at. by intros ->. Qed.
Lemma block_use_count h b k : blocks h !! b = Some k → use_count b h = (Ok (use_count_ k), h).
Proof. intros Hk. unfold use_count. by run (block_at_ok _ _ _ Hk). Qed.
Lemma block_weak_count h b k : blocks h !! b = Some k → weak_count b h = (Ok (weak_count_ k), h).
Proof. intros Hk. unfold weak_count. by run (block_at_ok _ _ _ Hk). Qed.
Lemma block_fetch_add_use h b d k :
  blocks h !! b = Some k → fetch_add_use b d h =
    (Ok (use_count_ k), Heap (<[b := Block (use_count_ k + d) (weak_count_ k) (managed k)]> (blocks h)) (objects h)).
Proof. intros Hk. unfold fetch_add_use. by run (block_at_ok _ _ _ Hk). Qed.
Lemma block_fetch_add_weak h b d k :
  blocks h !! b = Some k → fetch_add_weak b d h =
    (Ok (weak_count_ k), Heap (<[b := Block (use_count_ k) (weak_count_ k + d) (managed k)]> (blocks h)) (objects h)).
Proof. intros Hk. unfold fetch_add_weak. by run (block_at_ok _ _ _ Hk). Qed.

Lemma delete_this_ok wput h b :
  blocks h !! b = Some (Block 0 0 None) →
  delete_this wput b h = (Ok tt, Heap (delete b (blocks h)) (objects h)).
Proof.
  intros Hk. unfold delete_this. run (block_use_count _ _ _ Hk). rewrite bind_assert by done.
  run (block_weak_count _ _ _ Hk). rewrite bind_assert by done. unfold delete_managed_object.
  rewrite bind_assoc. run (block_use_count _ _ _ Hk). unfold gpcl_assert. cbn [use_count_ Z.eqb].
  rewrite bind_assoc, bind_ret_l, bind_assoc. by run (block_at_ok _ _ _ Hk).
Qed.

(** Replacing the contents of a block. *)
Lemma wf_update h Ss Ws T b k k' Ss' Ws' T' :
  wf h Ss Ws T → blocks h !! b = Some k →
  (∀ c, c ≠ b → cnt c Ss' = cnt c Ss ∧ cnt c Ws' = cnt c Ws ∧ cnt c T' = cnt c T) →
  use_count_ k' = cnt b Ss' →
  weak_count_ k' = cnt b Ws' + cnt b (this_owners (objects h)) + cnt b T' →
  0 < weak_count_ k' → cnt b T' ≤ 1 → (0 < cnt b Ss' → cnt b T' = 1) →
  (∀ o, managed k' = Some o → managed k = Some o ∧ cnt b T' = 1) →
  (0 < cnt b Ss' → ∃ o, managed k' = Some o ∧ is_Some (objects h !! o)) →
  wf (Heap (<[b := k']> (blocks h)) (objects h)) Ss' Ws' T'.
Proof.
  intros W Hk Hc Hu Hw Hpos HT HST Hm Ha. pose proof (wf_null _ _ _ _ W b k Hk) as Hb.
  assert (Hl : ∀ c j, <[b := k']> (blocks h) !! c = Some j → (c = b ∧ j = k') ∨ (c ≠ b ∧ blocks h !! c = Some j)).
  { intros c j. destruct (decide (b = c)) as [<-|Hne].
    - rewrite lookup_insert_eq. intros [= <-]. by left.
    - rewrite lookup_insert_ne by done. right. by split. }
  split; cbn [blocks objects].
  - intros c j [[-> ->]|[? ?]]%Hl; [done|]. by eapply wf_null.
  - intros c j [[-> ->]|[Hne Hj]]%Hl; [done|]. destruct (Hc c Hne) as (-> & _). by apply (wf_use _ _ _ _ W).
  - intros c j [[-> ->]|[Hne Hj]]%Hl; [done|]. destruct (Hc c Hne) as (_ & -> & ->). by apply (wf_weak _ _ _ _ W).
  - intros c j [[-> ->]|[Hne Hj]]%Hl; [done|]. by apply (wf_pos _ _ _ _ W c).
  - intros c Hc0 Hcnt. destruct (decide (b = c)) as [<-|Hne]; [rewrite lookup_insert_eq; eauto|].
    rewrite lookup_insert_ne by done. destruct (Hc c ltac:(congruence)) as (E1 & E2 & E3).
    rewrite E1, E2, E3 in Hcnt. by apply (wf_refs _ _ _ _ W).
  - intros c. destruct (decide (c = b)) as [->|Hne]; [done|]. destruct (Hc c Hne) as (_ & _ & ->). apply (wf_token _ _ _ _ W).
  - destruct (Hc 0 ltac:(congruence)) as (_ & _ & ->). apply (wf_token0 _ _ _ _ W).
  - intros c Hc0. destruct (decide (c = b)) as [->|Hne]; [done|]. destruct (Hc c Hne) as (-> & _ & ->). by apply (wf_strong _ _ _ _ W).
  - intros c j o [[-> ->]|[Hne Hj]]%Hl; [by intros [_ ?]%Hm|]. destruct (Hc c Hne) as (_ & _ & ->). by apply (wf_managed _ _ _ _ W).
  - intros c j [[-> ->]|[Hne Hj]]%Hl; [done|]. destruct (Hc c Hne) as (-> & _). by apply (wf_alive _ _ _ _ W).
  - intros c d j i o [[-> ->]|[Hne Hj]]%Hl [[-> ->]|[Hne' Hi]]%Hl; [done|..].
    + intros [Ho _]%Hm. by apply (wf_inj _ _ _ _ W b d k i o).
    + intros Ho [Ho' _]%Hm. by apply (wf_inj _ _ _ _ W c b j k o).
    + by apply (wf_inj _ _ _ _ W).
Qed.

(** Removing a block that nothing refers to. *)
Lemma wf_remove h Ss Ws T b Ws' T' :
  wf h Ss Ws T →
  (∀ c, c ≠ b → cnt c Ws' = cnt c Ws ∧ cnt c T' = cnt c T) →
  b ≠ 0 → cnt b Ss = 0 → cnt b Ws' + cnt b (this_owners (objects h)) + cnt b T' = 0 →
  wf (Heap (delete b (blocks h)) (objects h)) Ss Ws' T'.
Proof.
  intros W Hc Hb0 HS H0. pose proof (cnt_nonneg b Ws'). pose proof (cnt_nonneg b T').
  pose proof (cnt_nonneg b (this_owners (objects h))).
  assert (Hl : ∀ c j, delete b (blocks h) !! c = Some j → c ≠ b ∧ blocks h !! c = Some j).
  { intros c j. rewrite lookup_delete_Some. intros [? ?]. split; congruence. }
  split; cbn [blocks objects].
  - intros c j [? ?]%Hl. by eapply wf_null.
  - intros c j [Hne Hj]%Hl. by apply (wf_use _ _ _ _ W).
  - intros c j [Hne Hj]%Hl. destruct (Hc c Hne) as (-> & ->). by apply (wf_weak _ _ _ _ W).
  - intros c j [Hne Hj]%Hl. by apply (wf_pos _ _ _ _ W c).
  - intros c Hc0 Hcnt. destruct (decide (b = c)) as [<-|Hne]; [lia|].
    rewrite lookup_delete_ne by done. destruct (Hc c ltac:(congruence)) as (E2 & E3).
    rewrite E2, E3 in Hcnt. by apply (wf_refs _ _ _ _ W).
  - intros c. destruct (decide (c = b)) as [->|Hne]; [lia|]. destruct (Hc c Hne) as (_ & ->). apply (wf_token _ _ _ _ W).
  - destruct (Hc 0 ltac:(congruence)) as (_ & ->). apply (wf_token0 _ _ _ _ W).
  - intros c Hc0 Hpos. destruct (decide (c = b)) as [->|Hne]; [lia|]. destruct (Hc c Hne) as (_ & ->). by apply (wf_strong _ _ _ _ W).
  - intros c j o [Hne Hj]%Hl. destruct (Hc c Hne) as (_ & ->). by apply (wf_managed _ _ _ _ W).
  - intros c j [Hne Hj]%Hl. by apply (wf_alive _ _ _ _ W).
  - intros c d j i o [Hne Hj]%Hl [Hne' Hi]%Hl. by apply (wf_inj _ _ _ _ W).
Qed.

(** The lists matter up to permutation. *)
#[local] Instance wf_perm h : Proper ((≡ₚ) ==> (≡ₚ) ==> (≡ₚ) ==> iff) (wf h).
Proof.
  assert (Hdir : ∀ S1 S2 W1 W2 T1 T2, S1 ≡ₚ S2 → W1 ≡ₚ W2 → T1 ≡ₚ T2 → wf h S1 W1 T1 → wf h S2 W2 T2).
  { intros S1 S2 W1 W2 T1 T2 E1 E2 E3 [? ? ? ? ? ? ? ? ? ? ?]. split; intros *;
      rewrite <- ?E1, <- ?E2, <- ?E3; eauto. }
  intros S1 S2 E1 W1 W2 E2 T1 T2 E3. split; apply Hdir; by symmetry || done.
Qed.

Ltac cnt := rewrite ?cnt_cons, ?cnt_app, ?cnt_nil in *; rewrite ?decide_True by done; rewrite ?decide_False by congruence.

(** The block of a referred pointer. *)
Lemma wf_block h Ss Ws T b :
  wf h Ss Ws T → b ≠ 0 → 0 < cnt b Ss + cnt b Ws → ∃ k, blocks h !! b = Some k.
Proof.
  intros W Hb Hc. apply (wf_refs _ _ _ _ W b Hb). pose proof (cnt_nonneg b T).
  pose proof (cnt_nonneg b (this_owners (objects h))). lia.
Qed.

Lemma get_run h Ss Ws T b :
  wf h Ss Ws T → b ≠ 0 → 0 < cnt b Ss →
  ∃ h', get b h = (Ok tt, h') ∧ wf h' (b :: Ss) Ws T ∧ objects h' = objects h.
Proof.
  intros W Hb Hs. destruct (wf_block _ _ _ _ b W Hb) as [k Hk]; [pose proof (cnt_nonneg b Ws); lia|].
  pose proof (wf_use _ _ _ _ W _ _ Hk) as Hu. eexists. split_and!.
  - unfold get. run (block_use_count _ _ _ Hk). rewrite bind_assert by lia. by run (block_fetch_add_use _ _ 1 _ Hk).
  - pose proof (wf_strong _ _ _ _ W _ Hb Hs).
    eapply wf_update; [done|done|..]; cbn [use_count_ weak_count_ managed].
    + intros c Hne. cnt. done.
    + cnt. lia.
    + by apply (wf_weak _ _ _ _ W).
    + by apply (wf_pos _ _ _ _ W b).
    + lia.
    + done.
    + done.
    + intros _. by apply (wf_alive _ _ _ _ W b).
  - done.
Qed.

Lemma weak_get_run h Ss Ws T b :
  wf h Ss Ws T → b ≠ 0 → 0 < cnt b Ss + cnt b Ws →
  ∃ h', weak_get b h = (Ok tt, h') ∧ wf h' Ss (b :: Ws) T ∧ objects h' = objects h.
Proof.
  intros W Hb Hs. destruct (wf_block _ _ _ _ b W Hb Hs) as [k Hk].
  pose proof (wf_weak _ _ _ _ W _ _ Hk) as Hw. pose proof (wf_pos _ _ _ _ W _ _ Hk) as Hp. eexists. split_and!.
  - unfold weak_get. run (block_weak_count _ _ _ Hk). rewrite bind_assert by lia. by run (block_fetch_add_weak _ _ 1 _ Hk).
  - eapply wf_update; [done|done|..]; cbn [use_count_ weak_count_ managed].
    + intros c Hne. cnt. done.
    + by apply (wf_use _ _ _ _ W).
    + cnt. lia.
    + lia.
    + apply (wf_token _ _ _ _ W).
    + by apply (wf_strong _ _ _ _ W).
    + intros o Ho. split; [done|]. by apply (wf_managed _ _ _ _ W b k o).
    + by apply (wf_alive _ _ _ _ W b).
  - done.
Qed.

Lemma weak_put_run fuel h Ss Ws T b :
  wf h Ss (b :: Ws) T → b ≠ 0 →
  ∃ h', weak_put (S fuel) b h = (Ok tt, h') ∧ wf h' Ss Ws T ∧ objects h' = objects h.
Proof.
  intros W Hb. pose proof (cnt_nonneg b Ss). pose proof (cnt_nonneg b Ws). pose proof (cnt_nonneg b T).
  pose proof (cnt_nonneg b (this_owners (objects h))).
  destruct (wf_block _ _ _ _ b W Hb) as [k Hk]; [cnt; lia|].
  pose proof (wf_weak _ _ _ _ W _ _ Hk) as Hw. rewrite cnt_cons, decide_True in Hw by done.
  pose proof (wf_use _ _ _ _ W _ _ Hk) as Hu.
  cbn [weak_put]. run (block_weak_count _ _ _ Hk). rewrite bind_assert by lia. run (block_fetch_add_weak _ _ (-1) _ Hk).
  destruct (weak_count_ k =? 1) eqn:E.
  - assert (Hno : cnt b Ss = 0).
    { destruct (decide (0 < cnt b Ss)) as [Hs|]; [|lia]. pose proof (wf_strong _ _ _ _ W _ Hb Hs). lia. }
    assert (Hm : managed k = None).
    { destruct (managed k) as [o|] eqn:Ho; [|done]. pose proof (wf_managed _ _ _ _ W b k o Hk Ho). lia. }
    set (h1 := Heap _ _). assert (Hk1 : blocks h1 !! b = Some (Block 0 0 None)).
    { unfold h1. cbn. rewrite lookup_insert_eq, Hm. do 3 f_equal; lia. }
    run (block_use_count _ _ _ Hk1). rewrite bind_assert by done. rewrite (delete_this_ok _ _ _ Hk1).
    eexists. split_and!; [done| |done]. unfold h1. cbn [blocks objects]. rewrite delete_insert_eq.
    eapply wf_remove; [exact W|..]; try done; [|lia]. intros c Hne. cnt. done.
  - eexists. split_and!; [done| |done].
    eapply wf_update; [done|done|..]; cbn [use_count_ weak_count_ managed].
    + intros c Hne. cnt. done.
    + done.
    + lia.
    + pose proof (wf_pos _ _ _ _ W _ _ Hk). lia.
    + apply (wf_token _ _ _ _ W).
    + by apply (wf_strong _ _ _ _ W).
    + intros o Ho. split; [done|]. by apply (wf_managed _ _ _ _ W b k o).
    + by apply (wf_alive _ _ _ _ W b).
Qed.

(** Null pointers do not count. *)
Lemma wf_ext h Ss Ws T Ss' Ws' :
  wf h Ss Ws T → (∀ c, c ≠ 0 → cnt c Ss' = cnt c Ss ∧ cnt c Ws' = cnt c Ws) → wf h Ss' Ws' T.
Proof.
  intros W Hc. pose proof (wf_null _ _ _ _ W) as H0. split; try apply W.
  - intros b k Hk. destruct (Hc b (H0 _ _ Hk)) as [-> _]. by apply (wf_use _ _ _ _ W).
  - intros b k Hk. destruct (Hc b (H0 _ _ Hk)) as [_ ->]. by apply (wf_weak _ _ _ _ W).
  - intros b Hb. destruct (Hc b Hb) as [-> ->]. by apply (wf_refs _ _ _ _ W).
  - intros b Hb. destruct (Hc b Hb) as [-> _]. by apply (wf_strong _ _ _ _ W).
  - intros b k Hk. destruct (Hc b (H0 _ _ Hk)) as [-> _]. by apply (wf_alive _ _ _ _ W).
Qed.
Lemma wf_weak0 h Ss Ws T : wf h Ss (0 :: Ws) T ↔ wf h Ss Ws T.
Proof. split; intros W; (eapply wf_ext; [exact W|]); intros c Hc; cnt; done. Qed.
Lemma wf_strong0 h Ss Ws T : wf h (0 :: Ss) Ws T ↔ wf h Ss Ws T.
Proof. split; intros W; (eapply wf_ext; [exact W|]); intros c Hc; cnt; done. Qed.

(** The end of an object that no counted block manages. *)
Lemma wf_kill h Ss Ws T o w :
  wf h Ss Ws T → objects h !! o = Some w →
  (∀ b k, blocks h !! b = Some k → managed k = Some o → cnt b Ss = 0) →
  wf (Heap (blocks h) (delete o (objects h))) Ss (this_owner w ++ Ws) T.
Proof.
  intros W Ho Hno. pose proof (this_owners_delete _ _ _ Ho) as Hp.
  assert (Hc : ∀ b, cnt b (this_owners (objects h)) = cnt b (this_owner w) + cnt b (this_owners (delete o (objects h))))
    by (intros b; by rewrite Hp, cnt_app).
  split; cbn [blocks objects]; try apply W.
  - intros b k Hk. rewrite (wf_weak _ _ _ _ W _ _ Hk), Hc, cnt_app. lia.
  - intros b Hb Hpos. apply (wf_refs _ _ _ _ W b Hb). rewrite Hc. rewrite cnt_app in Hpos. lia.
  - intros b k Hk Hs. destruct (wf_alive _ _ _ _ W b k Hk Hs) as (o' & Ho' & Hal). exists o'. split; [done|].
    rewrite lookup_delete_ne; [done|]. intros <-. rewrite (Hno b k Hk Ho') in Hs. lia.
Qed.

(** [~weak_ptr] in [delete_object]. *)
Lemma delete_object_run fuel h Ss Ws T o w :
  wf h Ss Ws T → objects h !! o = Some w →
  (∀ b k, blocks h !! b = Some k → managed k = Some o → cnt b Ss = 0) →
  ∃ h', delete_object (weak_put (S fuel)) o h = (Ok tt, h') ∧ wf h' Ss Ws T ∧
    objects h' = delete o (objects h).
Proof.
  intros W Ho Hno. pose proof (wf_kill _ _ _ _ _ _ W Ho Hno) as W1. unfold delete_object. rewrite Ho.
  destruct w as [w|]; [|by eexists]. destruct (s_ w =? 0) eqn:E.
  - apply Z.eqb_eq in E. eexists. split_and!; [done| |done]. cbn [this_owner app] in W1. rewrite E in W1.
    by apply wf_weak0.
  - apply Z.eqb_neq in E. destruct (weak_put_run fuel _ _ _ _ _ W1 E) as (h' & -> & W' & Ho'). eauto.
Qed.

Lemma cnt_remove b c l : cnt c (remove Z.eq_dec b l) = if decide (b = c) then 0 else cnt c l.
Proof.
  induction l as [|a l IH]; [by case_decide|]. cbn [remove].
  destruct (Z.eq_dec b a); rewrite ?cnt_cons, ?IH; repeat case_decide; subst; try done; lia.
Qed.

(** The last owner goes: the object and, unless weak pointers remain, the block. *)
Lemma put_last fuel h Ss Ws T b k o :
  wf h (b :: Ss) Ws T → b ≠ 0 → cnt b Ss = 0 → blocks h !! b = Some k → managed k = Some o →
  ∃ h', put (S fuel) b h = (Ok tt, h') ∧ wf h' Ss Ws (remove Z.eq_dec b T) ∧
    objects h' = delete o (objects h).
Proof.
  intros W Hb Hs Hk Ho. pose proof (wf_use _ _ _ _ W _ _ Hk) as Hu. rewrite cnt_cons, decide_True in Hu by done.
  assert (HT : cnt b T = 1) by (apply (wf_strong _ _ _ _ W b Hb); cnt; lia).
  destruct (wf_alive _ _ _ _ W b k Hk) as (o' & Ho' & [w Hw]); [cnt; lia|].
  assert (o' = o) as -> by congruence.
  unfold put. run (block_use_count _ _ _ Hk). rewrite bind_assert by lia. run (block_fetch_add_use _ _ (-1) _ Hk).
  rewrite (proj2 (Z.eqb_eq (use_count_ k) 1)) by lia.
  set (k1 := Block _ _ _). set (h1 := Heap _ _). assert (Hk1 : blocks h1 !! b = Some k1) by (by apply lookup_insert_eq).
  assert (W1 : wf h1 Ss Ws T).
  { eapply wf_update; [exact W|exact Hk|..]; unfold k1; cbn [use_count_ weak_count_ managed].
    - intros c Hne. cnt. done.
    - lia.
    - by apply (wf_weak _ _ _ _ W).
    - by apply (wf_pos _ _ _ _ W b).
    - lia.
    - lia.
    - intros o1 Ho1. split; [done|lia].
    - lia. }
  destruct (delete_object_run fuel h1 Ss Ws T o w W1 Hw) as (h2 & Hrun & W2 & Hobj).
  { intros c j Hj Hjo. by rewrite (wf_inj _ _ _ _ W1 c b j k1 o). }
  destruct (wf_refs _ _ _ _ W2 b Hb) as [k2 Hk2].
  { pose proof (cnt_nonneg b Ss). pose proof (cnt_nonneg b Ws). pose proof (cnt_nonneg b (this_owners (objects h2))). lia. }
  pose proof (wf_use _ _ _ _ W2 _ _ Hk2) as Hu2. pose proof (wf_weak _ _ _ _ W2 _ _ Hk2) as Hw2.
  set (k3 := Block (use_count_ k2) (weak_count_ k2) None).
  set (h3 := Heap (<[b := k3]> (blocks h2)) (objects h2)).
  assert (Hk3 : blocks h3 !! b = Some k3) by (by apply lookup_insert_eq).
  erewrite bind_ok.
  2:{ unfold delete_managed_object. run (block_use_count _ _ _ Hk1).
      rewrite bind_assert by (unfold k1; cbn [use_count_]; lia). run (block_at_ok _ _ _ Hk1).
      replace (managed k1) with (Some o) by (unfold k1; cbn; by rewrite Ho).
      run Hrun. run (block_at_ok _ _ _ Hk2). reflexivity. }
  fold k3 h3. run (block_fetch_add_weak _ _ (-1) _ Hk3). cbn [weak_count_ k3].
  destruct (weak_count_ k2 =? 1) eqn:E.
  - rewrite delete_this_ok by (cbn; rewrite lookup_insert_eq; do 3 f_equal; lia).
    eexists. split_and!; [done| |done]. cbn [blocks objects h3]. rewrite !delete_insert_eq.
    eapply wf_remove; [exact W2|..]; try done.
    + intros c Hne. rewrite cnt_remove, decide_False by congruence. done.
    + rewrite cnt_remove, decide_True by done. lia.
  - eexists. split_and!; [done| |done]. cbn [blocks objects h3]. rewrite insert_insert_eq.
    eapply wf_update; [exact W2|exact Hk2|..]; cbn [use_count_ weak_count_ managed k3];
      rewrite ?cnt_remove, ?decide_True by done; try lia.
    + intros c Hne. rewrite cnt_remove, decide_False by congruence. done.
    + pose proof (wf_pos _ _ _ _ W2 _ _ Hk2). lia.
    + done.
Qed.

Lemma put_run fuel h Ss Ws T b :
  wf h (b :: Ss) Ws T → stable (b :: Ss) T → b ≠ 0 →
  ∃ h' T' k, put (S fuel) b h = (Ok tt, h') ∧ wf h' Ss Ws T' ∧ stable Ss T' ∧
    blocks h !! b = Some k ∧
    if decide (b ∈ Ss) then objects h' = objects h
    else ∃ o, managed k = Some o ∧ objects h' = delete o (objects h).
Proof.
  intros W St Hb. destruct (wf_block _ _ _ _ b W Hb) as [k Hk].
  { pose proof (cnt_nonneg b Ss). pose proof (cnt_nonneg b Ws). cnt. lia. }
  destruct (decide (b ∈ Ss)) as [Hin|Hnin].
  - apply cnt_elem in Hin. pose proof (wf_use _ _ _ _ W _ _ Hk) as Hu. rewrite cnt_cons, decide_True in Hu by done.
    exists (Heap (<[b := Block (use_count_ k + -1) (weak_count_ k) (managed k)]> (blocks h)) (objects h)), T, k.
    split_and!; try done.
    + unfold put. run (block_use_count _ _ _ Hk). rewrite bind_assert by lia. run (block_fetch_add_use _ _ (-1) _ Hk).
      by rewrite (proj2 (Z.eqb_neq (use_count_ k) 1)) by lia.
    + eapply wf_update; [exact W|exact Hk|..]; cbn [use_count_ weak_count_ managed].
      * intros c Hne. cnt. done.
      * lia.
      * by apply (wf_weak _ _ _ _ W).
      * by apply (wf_pos _ _ _ _ W b).
      * apply (wf_token _ _ _ _ W).
      * intros _. apply (wf_strong _ _ _ _ W b Hb). cnt. lia.
      * intros o Ho. split; [done|]. by apply (wf_managed _ _ _ _ W b k o).
      * intros _. apply (wf_alive _ _ _ _ W b k Hk). cnt. lia.
    + intros c Hc. specialize (St c Hc). rewrite cnt_cons in St. case_decide; [by subst|lia].
  - destruct (wf_alive _ _ _ _ W b k Hk) as (o & Ho & _).
    { pose proof (cnt_nonneg b Ss). cnt. lia. }
    assert (Hs : cnt b Ss = 0). { rewrite <- cnt_elem in Hnin. pose proof (cnt_nonneg b Ss). lia. }
    destruct (put_last fuel _ _ _ _ _ _ _ W Hb Hs Hk Ho) as (h' & H1 & W' & Ho').
    exists h', (remove Z.eq_dec b T), k. split_and!; try done; [|by exists o].
    intros c. rewrite cnt_remove. case_decide; [lia|]. intros Hc. specialize (St c Hc).
    rewrite cnt_cons, decide_False in St by done. lia.
Qed.

(** ** Pointer values *)

Definition consistent (h : heap) (Ss Ws : list Z) : Prop := ∃ T, wf h Ss Ws T ∧ stable Ss T.

#[local] Instance consistent_perm h : Proper ((≡ₚ) ==> (≡ₚ) ==> iff) (consistent h).
Proof.
  intros S1 S2 E1 W1 W2 E2. unfold consistent, stable. setoid_rewrite E1. setoid_rewrite E2. done.
Qed.

Lemma consistent_strong0 h Ss Ws : consistent h (0 :: Ss) Ws ↔ consistent h Ss Ws.
Proof.
  unfold consistent. setoid_rewrite wf_strong0. split; intros (T & W & St); exists T; (split; [done|]);
    intros c Hc; pose proof (wf_token0 _ _ _ _ W) as H0; specialize (St c Hc); rewrite cnt_cons in *.
  - case_decide; [subst; lia|lia].
  - case_decide; lia.
Qed.
Lemma consistent_weak0 h Ss Ws : consistent h Ss (0 :: Ws) ↔ consistent h Ss Ws.
Proof. unfold consistent. by setoid_rewrite wf_weak0. Qed.

Lemma copy_shared_run h Ss Ws x :
  consistent h Ss Ws → s_ x = 0 ∨ s_ x ∈ Ss →
  ∃ h', copy_shared x h = (Ok x, h') ∧ consistent h' (s_ x :: Ss) Ws ∧ objects h' = objects h.
Proof.
  intros C Hx. unfold copy_shared. destruct (s_ x =? 0) eqn:E.
  - apply Z.eqb_eq in E. exists h. rewrite E. by rewrite consistent_strong0.
  - apply Z.eqb_neq in E. destruct C as (T & W & St). destruct Hx as [?|Hx%cnt_elem]; [done|].
    destruct (get_run _ _ _ _ _ W E Hx) as (h' & H1 & W' & Ho). exists h'. run H1. split_and!; [done| |done].
    exists T. split; [done|]. intros c Hc. specialize (St c Hc). rewrite cnt_cons. case_decide; lia.
Qed.

Lemma drop_shared_run fuel h Ss Ws x :
  consistent h (s_ x :: Ss) Ws →
  ∃ h', drop_shared (S fuel) x h = (Ok tt, h') ∧ consistent h' Ss Ws ∧
    if decide (s_ x = 0 ∨ s_ x ∈ Ss) then objects h' = objects h
    else ∃ k o, blocks h !! s_ x = Some k ∧ managed k = Some o ∧ objects h' = delete o (objects h).
Proof.
  intros C. unfold drop_shared. destruct (s_ x =? 0) eqn:E.
  - apply Z.eqb_eq in E. exists h. split_and!; [done| |by rewrite decide_True by tauto].
    rewrite E in C. by apply consistent_strong0.
  - apply Z.eqb_neq in E. destruct C as (T & W & St).
    destruct (put_run fuel _ _ _ _ _ W St E) as (h' & T' & k & H1 & W' & St' & Hk & Ho).
    exists h'. split_and!; [done|by exists T'|]. destruct (decide (s_ x ∈ Ss)).
    + by rewrite decide_True by tauto.
    + rewrite decide_False by tauto. destruct Ho as (o & ? & ?). by exists k, o.
Qed.

Lemma copy_weak_run h Ss Ws x :
  consistent h Ss Ws → s_ x = 0 ∨ s_ x ∈ Ss ++ Ws →
  ∃ h', copy_weak x h = (Ok x, h') ∧ consistent h' Ss (s_ x :: Ws) ∧ objects h' = objects h.
Proof.
  intros C Hx. unfold copy_weak. destruct (s_ x =? 0) eqn:E.
  - apply Z.eqb_eq in E. exists h. rewrite E. by rewrite consistent_weak0.
  - apply Z.eqb_neq in E. destruct C as (T & W & St). destruct Hx as [?|Hx%cnt_elem]; [done|]. rewrite cnt_app in Hx.
    destruct (weak_get_run _ _ _ _ _ W E Hx) as (h' & H1 & W' & Ho). exists h'. run H1.
    split_and!; [done|by exists T|done].
Qed.

Lemma drop_weak_run fuel h Ss Ws x :
  consistent h Ss (s_ x :: Ws) →
  ∃ h', drop_weak (S fuel) x h = (Ok tt, h') ∧ consistent h' Ss Ws ∧ objects h' = objects h.
Proof.
  intros C. unfold drop_weak. destruct (s_ x =? 0) eqn:E.
  - apply Z.eqb_eq in E. rewrite E in C. exists h. by rewrite consistent_weak0 in C.
  - apply Z.eqb_neq in E. destruct C as (T & W & St).
    destruct (weak_put_run fuel _ _ _ _ _ W E) as (h' & H1 & W' & Ho). exists h'. split_and!; [done|by exists T|done].
Qed.

(** [lock] succeeds as long as there is an owner. *)
Lemma lock_weak_run h Ss Ws x :
  consistent h Ss Ws → s_ x = 0 ∨ s_ x ∈ Ws →
  ∃ h', lock_weak x h = (Ok (if decide (s_ x ≠ 0 ∧ s_ x ∈ Ss) then x else null_ptr), h') ∧
    consistent h' (s_ (if decide (s_ x ≠ 0 ∧ s_ x ∈ Ss) then x else null_ptr) :: Ss) Ws ∧
    objects h' = objects h ∧ (¬ (s_ x ≠ 0 ∧ s_ x ∈ Ss) → h' = h).
Proof.
  intros C Hx. unfold lock_weak. destruct (s_ x =? 0) eqn:E.
  - apply Z.eqb_eq in E. exists h. rewrite decide_False by tauto. cbn [s_ null_ptr]. by rewrite consistent_strong0.
  - apply Z.eqb_neq in E. destruct Hx as [?|Hx%cnt_elem]; [done|]. destruct C as (T & W & St).
    pose proof (cnt_nonneg (s_ x) Ss). destruct (wf_block _ _ _ _ _ W E) as [k Hk]; [lia|].
    pose proof (wf_pos _ _ _ _ W _ _ Hk). pose proof (wf_use _ _ _ _ W _ _ Hk) as Hu.
    unfold lock. rewrite bind_assoc. run (block_weak_count _ _ _ Hk). rewrite bind_assoc, bind_assert by lia.
    rewrite bind_assoc. run (block_use_count _ _ _ Hk).
    destruct (decide (s_ x ≠ 0 ∧ s_ x ∈ Ss)) as [[_ Hin]|Hno].
    + pose proof Hin as Hin0. apply cnt_elem in Hin. rewrite (proj2 (Z.ltb_lt 0 (use_count_ k))) by lia.
      destruct (get_run _ _ _ _ _ W E Hin) as (h' & H1 & W' & Ho). exists h'.
      unfold get in H1. rewrite (bind_ok _ _ _ _ _ (block_use_count _ _ _ Hk)) in H1. rewrite bind_assert in H1 by lia.
      rewrite (bind_ok _ _ _ _ _ (block_fetch_add_use _ _ 1 _ Hk)) in H1. injection H1 as <-.
      rewrite bind_assoc. run (block_fetch_add_use _ _ 1 _ Hk). split_and!; [done| |done|tauto].
      exists T. split; [done|]. intros c Hc. specialize (St c Hc). rewrite cnt_cons. case_decide; lia.
    + assert (s_ x ∉ Ss) as Hnin by tauto. rewrite <- cnt_elem in Hnin.
      rewrite (proj2 (Z.ltb_ge 0 (use_count_ k))) by lia. exists h. split_and!; try done.
      cbn [s_ null_ptr]. rewrite consistent_strong0. by exists T.
Qed.

Lemma expired_run h Ss Ws x :
  consistent h Ss Ws → s_ x = 0 ∨ s_ x ∈ Ss ++ Ws ++ this_owners (objects h) →
  expired x h = (Ok (bool_decide (¬ (s_ x ≠ 0 ∧ s_ x ∈ Ss))), h).
Proof.
  intros (T & W & St) Hx. unfold expired. destruct (s_ x =? 0) eqn:E.
  - apply Z.eqb_eq in E. rewrite bool_decide_true by tauto. done.
  - apply Z.eqb_neq in E. destruct Hx as [?|Hx%cnt_elem]; [done|]. rewrite !cnt_app in Hx.
    destruct (wf_refs _ _ _ _ W _ E) as [k Hk]; [pose proof (cnt_nonneg (s_ x) T); lia|].
    run (block_use_count _ _ _ Hk). unfold ret. do 2 f_equal. rewrite (wf_use _ _ _ _ W _ _ Hk).
    pose proof (cnt_nonneg (s_ x) Ss). destruct (decide (s_ x ∈ Ss)) as [Hin|Hnin].
    + rewrite bool_decide_false by tauto. apply cnt_elem in Hin. lia.
    + rewrite bool_decide_true by tauto. rewrite <- cnt_elem in Hnin. lia.
Qed.

(** A new control block. *)
Lemma create_run `{!BlockAlloc, !BlockAllocOk} h Ss Ws p b :
  consistent h Ss Ws → is_Some (objects h !! p) →
  (∀ c k, blocks h !! c = Some k → managed k ≠ Some p) → block_alloc h = Some b →
  ∃ h', create p h = (Ok b, h') ∧ consistent h' (b :: Ss) Ws ∧ objects h' = objects h ∧ b ≠ 0.
Proof.
  intros (T & W & St) Hp Hm Hb. destruct (block_alloc_fresh h b Hb) as [Hb0 Hfresh].
  assert (Hz : cnt b Ss = 0 ∧ cnt b Ws = 0 ∧ cnt b (this_owners (objects h)) = 0 ∧ cnt b T = 0).
  { pose proof (cnt_nonneg b Ss). pose proof (cnt_nonneg b Ws). pose proof (cnt_nonneg b T).
    pose proof (cnt_nonneg b (this_owners (objects h))).
    destruct (decide (0 < cnt b Ss + cnt b Ws + cnt b (this_owners (objects h)) + cnt b T)) as [Hpos|]; [|lia].
    destruct (wf_refs _ _ _ _ W b Hb0 Hpos) as [k Hk]. congruence. }
  destruct Hz as (C1 & C2 & C3 & C4). unfold create. rewrite Hb. eexists. split_and!; [done| |done|done].
  assert (Hl : ∀ c j, <[b := Block 1 1 (Some p)]> (blocks h) !! c = Some j →
    (c = b ∧ j = Block 1 1 (Some p)) ∨ (c ≠ b ∧ blocks h !! c = Some j)).
  { intros c j. destruct (decide (b = c)) as [<-|Hne].
    - rewrite lookup_insert_eq. intros [= <-]. by left.
    - rewrite lookup_insert_ne by done. right. by split. }
  exists (b :: T). split.
  2:{ intros c. rewrite !cnt_cons. case_decide; [pose proof (cnt_nonneg c Ss); lia|]. rewrite !Z.add_0_l. apply St. }
  split; cbn [blocks objects].
  - intros c j [[-> ->]|[? ?]]%Hl; [done|]. by eapply wf_null.
  - intros c j [[-> ->]|[Hne Hj]]%Hl; cnt; cbn; [lia|]. rewrite Z.add_0_l. by apply (wf_use _ _ _ _ W).
  - intros c j [[-> ->]|[Hne Hj]]%Hl; cnt; cbn; [lia|]. rewrite Z.add_0_l. by apply (wf_weak _ _ _ _ W).
  - intros c j [[-> ->]|[Hne Hj]]%Hl; [done|]. by apply (wf_pos _ _ _ _ W c).
  - intros c Hc0 Hcnt. destruct (decide (b = c)) as [<-|Hne]; [rewrite lookup_insert_eq; eauto|].
    rewrite lookup_insert_ne by done. apply (wf_refs _ _ _ _ W c Hc0).
    rewrite !cnt_cons, !decide_False in Hcnt by done. lia.
  - intros c. pose proof (wf_token _ _ _ _ W c). rewrite cnt_cons. case_decide; [subst|]; lia.
  - rewrite cnt_cons, decide_False by done. apply (wf_token0 _ _ _ _ W).
  - intros c Hc0. rewrite !cnt_cons. case_decide; [subst; lia|]. rewrite !Z.add_0_l. by apply (wf_strong _ _ _ _ W).
  - intros c j o [[-> ->]|[Hne Hj]]%Hl Ho; cnt; [lia|]. rewrite Z.add_0_l. by apply (wf_managed _ _ _ _ W c j o).
  - intros c j [[-> ->]|[Hne Hj]]%Hl; cnt; [intros _; by exists p|]. rewrite Z.add_0_l. by apply (wf_alive _ _ _ _ W).
  - intros c d j i o [[-> ->]|[Hne Hj]]%Hl [[-> ->]|[Hne' Hi]]%Hl; cbn; [done|..].
    + intros [= <-] ?. by destruct (Hm d i Hi).
    + intros ? [= <-]. by destruct (Hm c j Hj).
    + by apply (wf_inj _ _ _ _ W).
Qed.

(** Moving a weak reference into [weak_this], and the old one out. *)
Lemma set_weak_this_run h Ss Ws p w wt :
  consistent h Ss (s_ wt :: Ws) → objects h !! p = Some (Some w) →
  consistent (Heap (blocks h) (<[p := Some wt]> (objects h))) Ss (s_ w :: Ws).
Proof.
  intros (T & W & St) Hp. exists T. split; [|done].
  assert (Hc : ∀ c, cnt c (s_ w :: Ws) + cnt c (this_owners (<[p := Some wt]> (objects h))) =
                    cnt c (s_ wt :: Ws) + cnt c (this_owners (objects h))).
  { intros c. pose proof (this_owners_update _ _ _ (Some wt) Hp) as E.
    assert (E' := f_equal (λ z, z) (cnt_perm c _ _ E)). cbn [this_owner app] in E'.
    rewrite !cnt_cons in *. lia. }
  split; cbn [blocks objects]; try apply W.
  - intros b k Hk. rewrite (wf_weak _ _ _ _ W _ _ Hk). specialize (Hc b). lia.
  - intros b Hb Hpos. apply (wf_refs _ _ _ _ W b Hb). specialize (Hc b). lia.
  - intros b k Hk Hs. destruct (wf_alive _ _ _ _ W b k Hk Hs) as (o & Ho & Hal). exists o. split; [done|].
    destruct (decide (p = o)) as [<-|]; [rewrite lookup_insert_eq; eauto|by rewrite lookup_insert_ne].
Qed.

Lemma this_owners_elem o p w : o !! p = Some (Some w) → s_ w ∈ this_owners o.
Proof. intros Hp. rewrite (this_owners_delete _ _ _ Hp). by left. Qed.

Lemma enables_run fuel h Ss Ws x p :
  consistent h Ss Ws → s_ x ∈ Ss → is_Some (objects h !! p) →
  ∃ h', enables_shared_from_this (S fuel) x p h = (Ok tt, h') ∧ consistent h' Ss Ws ∧
    (∀ o, is_Some (objects h' !! o) ↔ is_Some (objects h !! o)).
Proof.
  intros C Hx [w Hp]. unfold enables_shared_from_this. destruct (p =? 0); [by exists h|].
  assert (Hw : weak_this p h = (Ok w, h)) by (unfold weak_this; by rewrite Hp). run Hw.
  destruct w as [w|]; [|by exists h].
  erewrite bind_ok; [|eapply expired_run; [exact C|]; right; rewrite !elem_of_app; right; right; by eapply this_owners_elem].
  destruct (bool_decide _); [|by exists h].
  destruct (copy_shared_run h Ss Ws (Ptr p (s_ x)) C) as (h1 & H1 & C1 & Ho1); [by right|]. run H1.
  destruct (copy_weak_run _ _ _ (Ptr p (s_ x)) C1) as (h2 & H2 & C2 & Ho2).
  { right. by left. } run H2.
  unfold set_weak_this at 1. rewrite bind_modify.
  assert (Hp2 : objects h2 !! p = Some (Some w)) by (by rewrite Ho2, Ho1).
  pose proof (set_weak_this_run _ _ _ _ _ _ C2 Hp2) as C3. set (h3 := Heap _ _) in *.
  destruct (drop_weak_run fuel _ _ _ _ C3) as (h4 & H4 & C4 & Ho4). run H4.
  destruct (drop_shared_run fuel _ _ _ _ C4) as (h5 & H5 & C5 & Ho5).
  rewrite decide_True in Ho5 by (by right). exists h5. split_and!; [done|done|].
  intros o. rewrite Ho5, Ho4. unfold h3. cbn [objects]. rewrite Ho2, Ho1.
  destruct (decide (p = o)) as [<-|]; [|by rewrite lookup_insert_ne].
  rewrite lookup_insert_eq, Hp. split; eauto.
Qed.

(** ** The pointers of a program *)

Definition inv (s : pointers) : Prop := consistent (heap_of s) (owners (shareds s)) (owners (weaks s)).

(** The member functions of a program. *)
Inductive op : Type :=
| SharedDefault (this : Z) | SharedRaw (this p : Z) | SharedCopy (this r : Z)
| SharedAlias (this r p : Z) | SharedMove (this r : Z) | SharedFromWeak (this r : Z)
| SharedDestroy (this : Z) | SharedSwap (this r : Z) | SharedAssign (this r : Z)
| SharedMoveAssign (this r : Z) | SharedReset (this : Z) | SharedResetRaw (this p : Z)
| WeakDefault (this : Z) | WeakFromShared (this r : Z) | WeakCopy (this r : Z)
| WeakMove (this r : Z) | WeakDestroy (this : Z) | WeakSwap (this r : Z)
| WeakAssign (this r : Z) | WeakMoveAssign (this r : Z) | WeakAssignShared (this r : Z)
| WeakReset (this : Z) | WeakLock (this v : Z).

Definition run_op `{!BlockAlloc} (fuel : nat) (o : op) : L unit :=
  match o with
  | SharedDefault this => shared_default this
  | SharedRaw this p => shared_from_raw fuel this p
  | SharedCopy this r => shared_copy this r
  | SharedAlias this r p => shared_alias this r p
  | SharedMove this r => shared_move this r
  | SharedFromWeak this r => shared_from_weak this r
  | SharedDestroy this => shared_destroy fuel this
  | SharedSwap this r => shared_swap this r
  | SharedAssign this r => shared_assign fuel this r
  | SharedMoveAssign this r => shared_move_assign this r
  | SharedReset this => shared_reset fuel this
  | SharedResetRaw this p => shared_reset_raw fuel this p
  | WeakDefault this => weak_default this
  | WeakFromShared this r => weak_from_shared this r
  | WeakCopy this r => weak_copy this r
  | WeakMove this r => weak_move this r
  | WeakDestroy this => weak_destroy fuel this
  | WeakSwap this r => weak_swap this r
  | WeakAssign this r => weak_assign fuel this r
  | WeakMoveAssign this r => weak_move_assign this r
  | WeakAssignShared this r => weak_assign_shared fuel this r
  | WeakReset this => weak_reset fuel this
  | WeakLock this v => weak_lock this v
  end.

(** What the language asks of a caller: objects are used between construction and
    destruction, and a raw pointer given to a [shared_ptr] is to a live object that
    no other pointer owns. *)
Definition live (m : gmap Z ptr) (v : Z) : Prop := is_Some (m !! v).
Definition free (m : gmap Z ptr) (v : Z) : Prop := m !! v = None.
Definition raw (s : pointers) (p : Z) : Prop :=
  is_Some (objects (heap_of s) !! p) ∧
  ∀ b k, blocks (heap_of s) !! b = Some k → managed k ≠ Some p.
Definition op_ok (s : pointers) (o : op) : Prop :=
  match o with
  | SharedDefault this => free (shareds s) this
  | SharedRaw this p => free (shareds s) this ∧ raw s p
  | SharedCopy this r | SharedAlias this r _ | SharedMove this r =>
      free (shareds s) this ∧ live (shareds s) r
  | SharedFromWeak this r => free (shareds s) this ∧ live (weaks s) r
  | SharedDestroy this | SharedReset this => live (shareds s) this
  | SharedSwap this r | SharedAssign this r | SharedMoveAssign this r =>
      live (shareds s) this ∧ live (shareds s) r
  | SharedResetRaw this p => live (shareds s) this ∧ raw s p
  | WeakDefault this => free (weaks s) this
  | WeakFromShared this r => free (weaks s) this ∧ live (shareds s) r
  | WeakCopy this r | WeakMove this r => free (weaks s) this ∧ live (weaks s) r
  | WeakDestroy this | WeakReset this => live (weaks s) this
  | WeakSwap this r | WeakAssign this r | WeakMoveAssign this r => live (weaks s) this ∧ live (weaks s) r
  | WeakAssignShared this r => live (weaks s) this ∧ live (shareds s) r
  | WeakLock this v => free (shareds s) v ∧ live (weaks s) this
  end.

(** A call returns, or throws [bad_alloc] or [bad_weak_ptr]; the counts are right. *)
Definition sound (r : outcome unit * pointers) : Prop :=
  match r with
  | (Ok _, s) => inv s
  | (Throw e, s) => (e = bad_alloc ∨ e = bad_weak_ptr) ∧ inv s
  | _ => False
  end.

Lemma on_heap_ok {A} (f : H A) s r h :
  f (heap_of s) = (r, h) → on_heap f s = (r, Pointers h (shareds s) (weaks s)).
Proof. intros E. unfold on_heap. by rewrite (zoom_eq _ _ _ _ _ _ E). Qed.
Lemma shared_at_ok s v x : shareds s !! v = Some x → shared_at v s = (Ok x, s).
Proof. unfold shared_at. by intros ->. Qed.
Lemma weak_at_ok s v x : weaks s !! v = Some x → weak_at v s = (Ok x, s).
Proof. unfold weak_at. by intros ->. Qed.

Lemma new_shared_sound h sh we v x :
  consistent h (s_ x :: owners sh) (owners we) → sh !! v = None →
  sound (new_shared v x (Pointers h sh we)).
Proof.
  intros C Hv. unfold new_shared. cbn [shareds]. rewrite Hv. cbn. unfold inv. cbn. by rewrite owners_insert.
Qed.
Lemma new_weak_sound h sh we v x :
  consistent h (owners sh) (s_ x :: owners we) → we !! v = None →
  sound (new_weak v x (Pointers h sh we)).
Proof.
  intros C Hv. unfold new_weak. cbn [weaks]. rewrite Hv. cbn. unfold inv. cbn. by rewrite owners_insert.
Qed.
Lemma replace_shared_sound fuel h sh we this old t :
  consistent h (s_ t :: owners sh) (owners we) → sh !! this = Some old →
  sound ((set_shared this t ;;; on_heap (drop_shared (S fuel) old)) (Pointers h sh we)).
Proof.
  intros C Hv. unfold set_shared. rewrite bind_modify. cbn [heap_of shareds weaks].
  rewrite <- (owners_update sh this old t Hv) in C.
  destruct (drop_shared_run fuel _ _ _ _ C) as (h' & E & C' & _).
  erewrite on_heap_ok by exact E. done.
Qed.
Lemma replace_weak_sound fuel h sh we this old t :
  consistent h (owners sh) (s_ t :: owners we) → we !! this = Some old →
  sound ((set_weak this t ;;; on_heap (drop_weak (S fuel) old)) (Pointers h sh we)).
Proof.
  intros C Hv. unfold set_weak. rewrite bind_modify. cbn [heap_of shareds weaks].
  rewrite <- (owners_update we this old t Hv) in C.
  destruct (drop_weak_run fuel _ _ _ _ C) as (h' & E & C' & _).
  erewrite on_heap_ok by exact E. done.
Qed.
Lemma owners_swap m v w x y :
  m !! v = Some x → m !! w = Some y → owners (<[w := x]> (<[v := y]> m)) ≡ₚ owners m.
Proof.
  intros Hv Hw. destruct (decide (v = w)) as [<-|Hne].
  { by rewrite insert_insert_eq, insert_id by done. }
  apply (Permutation_cons_inv (a := s_ y)).
  rewrite (owners_update (<[v := y]> m) w y x) by (by rewrite lookup_insert_ne).
  by apply owners_update.
Qed.
Lemma swap_shared_sound s this r :
  inv s → live (shareds s) this → live (shareds s) r → sound (shared_swap this r s).
Proof.
  intros I [x Hx] [y Hy]. unfold shared_swap. run (shared_at_ok _ _ _ Hx). run (shared_at_ok _ _ _ Hy).
  unfold set_shared. rewrite bind_modify. unfold modify, sound, inv. cbn. by rewrite (owners_swap _ _ _ _ _ Hx Hy).
Qed.
Lemma swap_weak_sound s this r :
  inv s → live (weaks s) this → live (weaks s) r → sound (weak_swap this r s).
Proof.
  intros I [x Hx] [y Hy]. unfold weak_swap. run (weak_at_ok _ _ _ Hx). run (weak_at_ok _ _ _ Hy).
  unfold set_weak. rewrite bind_modify. unfold modify, sound, inv. cbn. by rewrite (owners_swap _ _ _ _ _ Hx Hy).
Qed.

Section soundness.
Context `{!BlockAlloc, !BlockAllocOk} (fuel : nat).

(** Constructors. *)
Lemma raw_sound s this p :
  inv s → free (shareds s) this → raw s p → sound (shared_from_raw (S fuel) this p s).
Proof.
  intros I Hf [Hp Hm]. unfold shared_from_raw. destruct (block_alloc (heap_of s)) as [b|] eqn:Hb.
  - destruct (create_run _ _ _ _ _ I Hp Hm Hb) as (h1 & E1 & C1 & Ho1 & Hb0).
    rewrite (bind_ok _ _ _ _ _ (on_heap_ok _ _ _ _ E1)).
    unfold new_shared, bind at 1. cbn [shareds]. rewrite Hf. unfold set_shared, modify. cbn [heap_of shareds weaks].
    assert (C2 : consistent h1 (owners (<[this := Ptr p b]> (shareds s))) (owners (weaks s))) by (by rewrite owners_insert).
    destruct (enables_run fuel h1 _ _ (Ptr p b) p C2) as (h2 & E2 & C3 & _).
    + rewrite owners_insert by done. by left.
    + by rewrite Ho1.
    + erewrite on_heap_ok by exact E2. done.
  - unfold bind, on_heap, zoom, create. rewrite Hb. split; [by left|]. exact I.
Qed.
Lemma reset_raw_sound s this p :
  inv s → live (shareds s) this → raw s p → sound (shared_reset_raw (S fuel) this p s).
Proof.
  intros I [old Hold] [Hp Hm]. unfold shared_reset_raw. destruct (block_alloc (heap_of s)) as [b|] eqn:Hb.
  - destruct (create_run _ _ _ _ _ I Hp Hm Hb) as (h1 & E1 & C1 & Ho1 & Hb0).
    rewrite (bind_ok _ _ _ _ _ (on_heap_ok _ _ _ _ E1)).
    destruct (enables_run fuel h1 _ _ (Ptr p b) p C1) as (h2 & E2 & C3 & _); [by left|by rewrite Ho1|].
    erewrite bind_ok; [|eapply on_heap_ok; exact E2]. erewrite bind_ok; [|by apply shared_at_ok].
    by apply replace_shared_sound.
  - unfold bind, on_heap, zoom, create. rewrite Hb. split; [by left|]. exact I.
Qed.
Lemma alias_sound s this r p :
  inv s → free (shareds s) this → live (shareds s) r → sound (shared_alias this r p s).
Proof.
  intros I Hf [x Hx]. unfold shared_alias. run (shared_at_ok _ _ _ Hx).
  destruct (copy_shared_run _ _ _ (Ptr p (s_ x)) I) as (h' & E & C & _); [right; exact (owners_elem _ _ _ Hx)|].
  rewrite (bind_ok _ _ _ _ _ (on_heap_ok _ _ _ _ E)). by apply new_shared_sound.
Qed.
Lemma from_weak_sound s this r :
  inv s → free (shareds s) this → live (weaks s) r →
  sound (weak_lock r this s) ∧ sound (shared_from_weak this r s).
Proof.
  intros I Hf [x Hx]. unfold weak_lock, shared_from_weak. run (weak_at_ok _ _ _ Hx). run (weak_at_ok _ _ _ Hx).
  destruct (lock_weak_run _ _ _ x I) as (h' & E & C & _); [right; by eapply owners_elem|].
  run (on_heap_ok _ _ _ _ E). rewrite (bind_ok _ _ _ _ _ (on_heap_ok _ _ _ _ E)).
  split; [by apply new_shared_sound|]. set (y := if decide _ then x else null_ptr) in *.
  destruct (s_ y =? 0) eqn:Ey; [|by apply new_shared_sound]. apply Z.eqb_eq in Ey.
  split; [by right|]. unfold inv. cbn. by rewrite Ey, consistent_strong0 in C.
Qed.
Lemma move_sound s this r :
  inv s → free (shareds s) this → live (shareds s) r → sound (shared_move this r s).
Proof.
  intros I Hf [x Hx]. unfold shared_move. run (shared_at_ok _ _ _ Hx). unfold set_shared at 1. rewrite bind_modify.
  apply new_shared_sound.
  - rewrite (owners_update _ _ _ null_ptr Hx). cbn [s_ null_ptr]. by rewrite consistent_strong0.
  - rewrite lookup_insert_ne; [done|]. intros ->. unfold free in Hf. congruence.
Qed.
Lemma weak_move_sound s this r :
  inv s → free (weaks s) this → live (weaks s) r → sound (weak_move this r s).
Proof.
  intros I Hf [x Hx]. unfold weak_move. run (weak_at_ok _ _ _ Hx). unfold set_weak at 1. rewrite bind_modify.
  apply new_weak_sound.
  - rewrite (owners_update _ _ _ null_ptr Hx). cbn [s_ null_ptr]. by rewrite consistent_weak0.
  - rewrite lookup_insert_ne; [done|]. intros ->. unfold free in Hf. congruence.
Qed.

(** Destructors and [reset]. *)
Lemma shared_destroy_run s this x :
  inv s → shareds s !! this = Some x →
  ∃ s', shared_destroy (S fuel) this s = (Ok tt, s') ∧ inv s' ∧ shareds s' = delete this (shareds s) ∧
    weaks s' = weaks s ∧
    if decide (s_ x = 0 ∨ s_ x ∈ owners (delete this (shareds s))) then objects (heap_of s') = objects (heap_of s)
    else ∃ k o, blocks (heap_of s) !! s_ x = Some k ∧ managed k = Some o ∧
         objects (heap_of s') = delete o (objects (heap_of s)).
Proof.
  intros I Hx. unfold shared_destroy. run (shared_at_ok _ _ _ Hx). unfold inv in I.
  rewrite (owners_delete _ _ _ Hx) in I. destruct (drop_shared_run fuel _ _ _ _ I) as (h' & E & C & Ho).
  rewrite (bind_ok _ _ _ _ _ (on_heap_ok _ _ _ _ E)). eexists. split_and!; done.
Qed.
Lemma weak_destroy_sound s this : inv s → live (weaks s) this → sound (weak_destroy (S fuel) this s).
Proof.
  intros I [x Hx]. unfold weak_destroy. run (weak_at_ok _ _ _ Hx). unfold inv in I.
  rewrite (owners_delete _ _ _ Hx) in I. destruct (drop_weak_run fuel _ _ _ _ I) as (h' & E & C & Ho).
  rewrite (bind_ok _ _ _ _ _ (on_heap_ok _ _ _ _ E)). done.
Qed.
Lemma weak_reset_sound s this : inv s → live (weaks s) this → sound (weak_reset (S fuel) this s).
Proof.
  intros I [x Hx]. unfold weak_reset. run (weak_at_ok _ _ _ Hx).
  assert (C0 : consistent (heap_of s) (owners (shareds s)) (s_ x :: owners (<[this := null_ptr]> (weaks s)))).
  { rewrite (owners_update _ _ _ null_ptr Hx). cbn [s_ null_ptr]. by rewrite consistent_weak0. }
  destruct (drop_weak_run fuel _ _ _ _ C0) as (h' & E & C & Ho).
  rewrite (bind_ok _ _ _ _ _ (on_heap_ok _ _ _ _ E)). done.
Qed.

Lemma op_sound s o : inv s → op_ok s o → sound (run_op (S fuel) o s).
Proof.
  intros I Hok. destruct o; cbn [op_ok run_op] in *.
  - destruct s. apply new_shared_sound; [|done]. cbn [s_ null_ptr]. by rewrite consistent_strong0.
  - destruct Hok. by apply raw_sound.
  - destruct Hok as [Hf [x Hx]]. unfold shared_copy. run (shared_at_ok _ _ _ Hx).
    destruct (copy_shared_run _ _ _ x I) as (h' & E & C & _); [right; by eapply owners_elem|].
    rewrite (bind_ok _ _ _ _ _ (on_heap_ok _ _ _ _ E)). by apply new_shared_sound.
  - destruct Hok. by apply alias_sound.
  - destruct Hok. by apply move_sound.
  - destruct Hok. by apply from_weak_sound.
  - destruct Hok as [x Hx]. by destruct (shared_destroy_run s this x I Hx) as (s' & -> & ? & _).
  - destruct Hok. by apply swap_shared_sound.
  - destruct Hok as [[old Hold] [x Hx]]. unfold shared_assign. run (shared_at_ok _ _ _ Hx).
    destruct (copy_shared_run _ _ _ x I) as (h' & E & C & _); [right; by eapply owners_elem|].
    rewrite (bind_ok _ _ _ _ _ (on_heap_ok _ _ _ _ E)). erewrite bind_ok; [|by apply shared_at_ok].
    by apply replace_shared_sound.
  - destruct Hok. by apply swap_shared_sound.
  - destruct Hok as [old Hold]. unfold shared_reset. run (shared_at_ok _ _ _ Hold). destruct s.
    apply replace_shared_sound; [|done]. cbn [s_ null_ptr]. by rewrite consistent_strong0.
  - destruct Hok. by apply reset_raw_sound.
  - destruct s. apply new_weak_sound; [|done]. cbn [s_ null_ptr]. by rewrite consistent_weak0.
  - destruct Hok as [Hf [x Hx]]. unfold weak_from_shared. run (shared_at_ok _ _ _ Hx).
    destruct (copy_weak_run _ _ _ x I) as (h' & E & C & _); [right; rewrite elem_of_app; left; by eapply owners_elem|].
    rewrite (bind_ok _ _ _ _ _ (on_heap_ok _ _ _ _ E)). by apply new_weak_sound.
  - destruct Hok as [Hf [x Hx]]. unfold weak_copy. run (weak_at_ok _ _ _ Hx).
    destruct (copy_weak_run _ _ _ x I) as (h' & E & C & _); [right; rewrite elem_of_app; right; by eapply owners_elem|].
    rewrite (bind_ok _ _ _ _ _ (on_heap_ok _ _ _ _ E)). by apply new_weak_sound.
  - destruct Hok. by apply weak_move_sound.
  - by apply weak_destroy_sound.
  - destruct Hok. by apply swap_weak_sound.
  - destruct Hok as [[old Hold] [x Hx]]. unfold weak_assign. run (weak_at_ok _ _ _ Hx).
    destruct (copy_weak_run _ _ _ x I) as (h' & E & C & _); [right; rewrite elem_of_app; right; by eapply owners_elem|].
    rewrite (bind_ok _ _ _ _ _ (on_heap_ok _ _ _ _ E)). erewrite bind_ok; [|by apply weak_at_ok].
    by apply replace_weak_sound.
  - destruct Hok. by apply swap_weak_sound.
  - destruct Hok as [[old Hold] [x Hx]]. unfold weak_assign_shared. run (shared_at_ok _ _ _ Hx).
    destruct (copy_weak_run _ _ _ x I) as (h' & E & C & _); [right; rewrite elem_of_app; left; by eapply owners_elem|].
    rewrite (bind_ok _ _ _ _ _ (on_heap_ok _ _ _ _ E)). erewrite bind_ok; [|by apply weak_at_ok].
    by apply replace_weak_sound.
  - by apply weak_reset_sound.
  - destruct Hok. by apply from_weak_sound.
Qed.

(** A program creates objects and calls member functions. *)
Inductive reachable : pointers → Prop :=
| reach_start : reachable (Pointers (Heap ∅ ∅) ∅ ∅)
| reach_object s p (esft : bool) :
    reachable s → objects (heap_of s) !! p = None →
    reachable (Pointers (Heap (blocks (heap_of s))
                              (<[p := if esft then Some null_ptr else None]> (objects (heap_of s))))
                        (shareds s) (weaks s))
| reach_op s o : reachable s → op_ok s o → reachable (snd (run_op (S fuel) o s)).

Lemma wf_object h Ss Ws T p w :
  wf h Ss Ws T → objects h !! p = None → (∀ c, c ≠ 0 → cnt c (this_owner w) = 0) →
  wf (Heap (blocks h) (<[p := w]> (objects h))) Ss Ws T.
Proof.
  intros W Hp Hw.
  assert (Hc : ∀ c, c ≠ 0 → cnt c (this_owners (<[p := w]> (objects h))) = cnt c (this_owners (objects h))).
  { intros c Hc. rewrite this_owners_insert, cnt_app, Hw by done. lia. }
  split; cbn [blocks objects]; try apply W.
  - intros b k Hk. rewrite Hc by (by eapply wf_null). by apply (wf_weak _ _ _ _ W).
  - intros b Hb. rewrite Hc by done. by apply (wf_refs _ _ _ _ W).
  - intros b k Hk Hs. destruct (wf_alive _ _ _ _ W b k Hk Hs) as (o & Ho & Hal). exists o. split; [done|].
    rewrite lookup_insert_ne; [done|]. intros <-. by destruct Hal as [? Hal]; rewrite Hp in Hal.
Qed.

Lemma pointers_inv s : reachable s → inv s.
Proof.
  induction 1 as [|s p esft _ (T & W & St) Hp|s o _ I Hok].
  - exists []. split; [|done]. split; cbn; try done; intros *; rewrite ?lookup_empty; try done; unfold cnt; cbn; lia.
  - exists T. split; [|done]. apply wf_object; [done|done|]. intros c Hc. destruct esft; [|done].
    cbn [this_owner s_ null_ptr]. cnt. done.
  - pose proof (op_sound s o I Hok) as Hs. unfold sound in Hs.
    destruct (run_op (S fuel) o s) as [[] ?]; naive_solver.
Qed.

(** ** Properties *)

(** C8: in every state a program can reach with [shared_ptr]s and [weak_ptr]s,
    every further member function returns, or throws [bad_alloc] or
    [bad_weak_ptr]: no assertion of the reference counts fails, nothing is deleted
    twice and no deleted control block is touched; afterwards again every use count
    is the number of [shared_ptr]s of its block and every weak count the number of
    [weak_ptr]s, plus one while there is an owner. *)
Theorem shared_reachable_sound s o :
  reachable s → op_ok s o → sound (run_op (S fuel) o s).
Proof. intros Hr. by apply op_sound, pointers_inv. Qed.

(** A non-empty [shared_ptr] keeps its object alive: its control block
    exists, the managed object is alive, and [use_count()] is the number of
    [shared_ptr] variables that share the block. *)
Theorem shared_object_alive s v x :
  reachable s → shareds s !! v = Some x → s_ x ≠ 0 →
  ∃ k o, blocks (heap_of s) !! s_ x = Some k ∧ managed k = Some o ∧ is_Some (objects (heap_of s) !! o) ∧
    shared_use_count v s = (Ok (cnt (s_ x) (owners (shareds s))), s).
Proof.
  intros Hr Hv Hx. destruct (pointers_inv s Hr) as (T & W & St).
  assert (Hc : 0 < cnt (s_ x) (owners (shareds s))) by (apply cnt_elem; by eapply owners_elem).
  destruct (wf_block _ _ _ _ _ W Hx) as [k Hk]; [pose proof (cnt_nonneg (s_ x) (owners (weaks s))); lia|].
  destruct (wf_alive _ _ _ _ W _ _ Hk Hc) as (o & Ho & Hal). exists k, o. split_and!; [done|done|done|].
  unfold shared_use_count. run (shared_at_ok _ _ _ Hv). rewrite (proj2 (Z.eqb_neq _ _) Hx).
  erewrite on_heap_ok by (by apply block_use_count). rewrite (wf_use _ _ _ _ W _ _ Hk). by destruct s.
Qed.

(** The destructor of a non-empty [shared_ptr] destroys the managed object,
    and no other, exactly when no other [shared_ptr] has the same control block. *)
Theorem shared_destroy_last s this x :
  reachable s → shareds s !! this = Some x → s_ x ≠ 0 →
  ∃ s' k o, shared_destroy (S fuel) this s = (Ok tt, s') ∧
    blocks (heap_of s) !! s_ x = Some k ∧ managed k = Some o ∧
    objects (heap_of s') = if decide (s_ x ∈ owners (delete this (shareds s)))
                           then objects (heap_of s) else delete o (objects (heap_of s)).
Proof.
  intros Hr Hv Hx. pose proof (pointers_inv s Hr) as I.
  assert (Hb : ∃ k o, blocks (heap_of s) !! s_ x = Some k ∧ managed k = Some o).
  { destruct I as (T & W & St).
    assert (Hc : 0 < cnt (s_ x) (owners (shareds s))) by (apply cnt_elem; by eapply owners_elem).
    destruct (wf_block _ _ _ _ _ W Hx) as [k Hk]; [pose proof (cnt_nonneg (s_ x) (owners (weaks s))); lia|].
    destruct (wf_alive _ _ _ _ W _ _ Hk Hc) as (o & Ho & _). eauto. }
  destruct Hb as (k & o & Hk & Ho). destruct (shared_destroy_run s this x I Hv) as (s' & E & _ & _ & _ & Hobj).
  exists s', k, o. split_and!; [done|done|done|].
  destruct (decide (s_ x ∈ owners (delete this (shareds s)))).
  - by rewrite decide_True in Hobj by tauto.
  - rewrite decide_False in Hobj by tauto. destruct Hobj as (k' & o' & ? & ? & ->). congruence.
Qed.

(** [weak_ptr::lock] gives an owner of the object exactly when there still is
    one, and an empty pointer otherwise; [shared_ptr(const weak_ptr &)] throws
    [bad_weak_ptr] in the second case and changes nothing. *)
Theorem weak_lock_spec s this v x :
  reachable s → weaks s !! this = Some x → shareds s !! v = None →
  if decide (s_ x ≠ 0 ∧ s_ x ∈ owners (shareds s)) then
    ∃ s', weak_lock this v s = (Ok tt, s') ∧ shared_from_weak v this s = (Ok tt, s') ∧
      shareds s' = <[v := x]> (shareds s) ∧ objects (heap_of s') = objects (heap_of s) ∧ inv s'
  else shared_from_weak v this s = (Throw bad_weak_ptr, s) ∧
    weak_lock this v s = (Ok tt, Pointers (heap_of s) (<[v := null_ptr]> (shareds s)) (weaks s)).
Proof.
  intros Hr Hw Hv. pose proof (pointers_inv s Hr) as I.
  pose proof (proj1 (from_weak_sound s v this I Hv (ex_intro _ x Hw))) as Hs.
  destruct (lock_weak_run _ _ _ x I) as (h' & E & C & Ho & Hsame); [right; by eapply owners_elem|].
  unfold weak_lock, shared_from_weak in *. rewrite (bind_ok _ _ _ _ _ (weak_at_ok _ _ _ Hw)) in Hs |- *.
  run (weak_at_ok _ _ _ Hw).
  rewrite (bind_ok _ _ _ _ _ (on_heap_ok _ _ _ _ E)) in Hs |- *. run (on_heap_ok _ _ _ _ E).
  destruct (decide _) as [[Hx _]|Hno].
  - rewrite (proj2 (Z.eqb_neq _ _) Hx). unfold new_shared, set_shared, modify, sound in *. cbn [shareds] in *.
    rewrite Hv in *. eexists. split_and!; try done.
  - rewrite (Hsame Hno) in *. cbn [s_ null_ptr Z.eqb]. unfold new_shared, set_shared, modify. cbn [shareds].
    rewrite Hv. split; [by destruct s|done].
Qed.

(** When no control block can be allocated, [shared_ptr(ptr)] throws
    [bad_alloc] and the object stays alive without an owner. *)
Theorem shared_raw_bad_alloc_leaks s this p :
  raw s p → block_alloc (heap_of s) = None →
  shared_from_raw (S fuel) this p s = (Throw bad_alloc, s) ∧ is_Some (objects (heap_of s) !! p).
Proof.
  intros [Hp _] Hb. split; [|done]. unfold shared_from_raw, bind, on_heap, zoom, create. rewrite Hb. by destruct s.
Qed.

End soundness.

(** ** A program

    An object of a class with [shared_from_this] gets two owners and a weak
    pointer, then loses its first owner. *)

Definition bump_block (limit : nat) : BlockAlloc := λ h,
  if (map_size (blocks h) <? limit)%nat then Some (fresh_key (blocks h)) else None.
#[export] Instance bump_block_ok limit : @BlockAllocOk (bump_block limit).
Proof.
  intros h b. unfold block_alloc, bump_block. destruct (_ <? _)%nat; [|done]. intros [= <-].
  pose proof (fresh_key_pos (blocks h)). split; [lia|apply fresh_key_fresh].
Qed.

Definition start : pointers :=
  Pointers (Heap ∅ (<[100 := Some null_ptr]> ∅)) ∅ ∅.
Definition program : list op :=
  [SharedRaw 1 100; SharedCopy 2 1; WeakFromShared 1 1; SharedDestroy 1].
Definition run_program (ops : list op) (s : pointers) : pointers :=
  foldl (λ s o, snd (@run_op (bump_block 9) 1 o s)) s ops.

Lemma start_reachable : @reachable (bump_block 9) 0 start.
Proof.
  exact (@reach_object (bump_block 9) 0 _ 100 true (reach_start 0) eq_refl).
Qed.
Lemma start_raw : raw start 100.
Proof. split; [by eexists|]. intros b k Hk. cbn [blocks heap_of start] in Hk. by rewrite lookup_empty in Hk. Qed.

Lemma program_reachable : @reachable (bump_block 9) 0 (run_program program start).
Proof.
  unfold run_program, program, foldl.
  apply (@reach_op (bump_block 9) 0); [|eexists; vm_compute; reflexivity].
  apply (@reach_op (bump_block 9) 0); [|split; [vm_compute; reflexivity|eexists; vm_compute; reflexivity]].
  apply (@reach_op (bump_block 9) 0); [|split; [vm_compute; reflexivity|eexists; vm_compute; reflexivity]].
  apply (@reach_op (bump_block 9) 0); [exact start_reachable|split; [reflexivity|exact start_raw]].
Qed.

Lemma shared_reachable_sound_witness :
  sound (@run_op (bump_block 9) 1 (SharedReset 2) (run_program program start)).
Proof.
  apply (@shared_reachable_sound (bump_block 9) (bump_block_ok 9) 0); [exact program_reachable|].
  eexists. vm_compute. reflexivity.
Defined.

Lemma shared_object_alive_witness :
  ∃ k o, blocks (heap_of (run_program program start)) !! 1 = Some k ∧ managed k = Some o ∧
    is_Some (objects (heap_of (run_program program start)) !! o).
Proof.
  destruct (@shared_object_alive (bump_block 9) (bump_block_ok 9) 0 (run_program program start) 2 (Ptr 100 1)
    program_reachable ltac:(vm_compute; reflexivity) ltac:(discriminate)) as (k & o & H1 & H2 & H3 & _).
  exists k, o. exact (conj H1 (conj H2 H3)).
Defined.

Lemma shared_destroy_last_witness :
  ∃ s' o, shared_destroy 1 2 (run_program program start) = (Ok tt, s') ∧
    objects (heap_of s') = delete o (objects (heap_of (run_program program start))).
Proof.
  destruct (@shared_destroy_last (bump_block 9) (bump_block_ok 9) 0 (run_program program start) 2 (Ptr 100 1)
    program_reachable ltac:(vm_compute; reflexivity) ltac:(discriminate)) as (s' & k & o & H1 & _ & _ & H2).
  exists s', o. split; [exact H1|]. rewrite decide_False in H2; [exact H2|].
  apply (bool_decide_eq_false_1 _). vm_compute. reflexivity.
Defined.

Lemma weak_lock_witness :
  ∃ s', weak_lock 1 3 (run_program program start) = (Ok tt, s') ∧ inv s'.
Proof.
  pose proof (@weak_lock_spec (bump_block 9) (bump_block_ok 9) 0 (run_program program start) 1 3 (Ptr 100 1)
    program_reachable ltac:(vm_compute; reflexivity) ltac:(vm_compute; reflexivity)) as Hl.
  rewrite decide_True in Hl.
  - destruct Hl as (s' & H1 & _ & _ & _ & H2). exists s'. exact (conj H1 H2).
  - split; [discriminate|]. apply (bool_decide_eq_true_1 _). vm_compute. reflexivity.
Defined.

Lemma shared_raw_bad_alloc_witness :
  @shared_from_raw (bump_block 0) 1 1 100 start = (Throw bad_alloc, start) ∧
  is_Some (objects (heap_of start) !! 100).
Proof. apply (@shared_raw_bad_alloc_leaks (bump_block 0) 0 start 1 100 start_raw). reflexivity. Defined.

End Shared.
