(* ===== verification/RefCount.v ===== *)
(** * Reference counts under concurrency (detail/ref_count_base.hpp)

    One control block shared by several threads.  Each atomic access of the
    counts is a step of its own and the steps of the threads interleave in any
    order, with sequentially consistent accesses.  A thread knows how many strong
    and weak references to the block it holds, and where it is in a member
    function of [ref_count_base].  An access to the block after it was deleted, and
    a second deletion of the object, are undefined behaviour. *)

From S2P Require Import Prelude.

Local Open Scope Z_scope.
Local Open Scope gpcl_scope.

Module Threads.

(** Where a thread is: between calls, or in front of the named access. *)
Inductive pc : Type :=
| Idle
| GetAdd                  (* get: fetch_add *)
| PutSub                  (* put: fetch_sub of the use count *)
| PutDestroy              (* put: destroy_managed_object *)
| PutWeak                 (* put: fetch_sub of the weak count *)
| WeakGetAdd              (* weak_get: fetch_add *)
| WeakPutSub              (* weak_put: fetch_sub *)
| WeakPutCheck            (* weak_put: the assertion on the use count *)
| DeleteBlock             (* delete_control_block *)
| LockRead                (* lock: first load of the use count *)
| LockCas (old_val : Z).  (* lock: the loop with this value *)

Record thread : Type := Thread { strong : Z; weak : Z; at_ : pc }.

(** The control block, whether the object and the block itself are alive. *)
Record control : Type :=
  Control { use_count_ : Z; weak_count_ : Z; object_alive : bool; block_alive : bool }.

Record system : Type := System { ctl : control; threads : list thread }.

(** The member function a thread between calls enters. *)
Inductive call : Type := Get | Put | WeakGet | WeakPut | Lock.

(** ** Atomic steps *)

Abbreviation C A := (M control A).

(** An access to the control block. *)
Definition access {A} (f : C A) : C A := λ c, if block_alive c then f c else (Undef, c).

Definition use_count : C Z := access (gets use_count_).
Definition weak_count : C Z := access (gets weak_count_).
Definition fetch_add_use (d : Z) : C Z := access (λ c,
  (Ok (use_count_ c), Control (use_count_ c + d) (weak_count_ c) (object_alive c) (block_alive c))).
Definition fetch_add_weak (d : Z) : C Z := access (λ c,
  (Ok (weak_count_ c), Control (use_count_ c) (weak_count_ c + d) (object_alive c) (block_alive c))).

(** [compare_exchange_weak(old, old + 1)]: may fail without reason; on failure it
    gives the current value. *)
Definition compare_exchange (spurious : bool) (old : Z) : C (option Z) := access (λ c,
  if (use_count_ c =? old) && negb spurious
  then (Ok None, Control (old + 1) (weak_count_ c) (object_alive c) (block_alive c))
  else (Ok (Some (use_count_ c)), c)).

(** [operate(destroy_managed_object)] and [operate(delete_control_block)]. *)
Definition destroy_managed_object : C unit :=
  let! n := use_count in
  gpcl_assert (n =? 0) ;;;
  λ c, if object_alive c then (Ok tt, Control (use_count_ c) (weak_count_ c) false (block_alive c))
       else (Undef, c).
Definition delete_control_block : C unit :=
  let! n := use_count in
  gpcl_assert (n =? 0) ;;;
  let! n := weak_count in
  gpcl_assert (n =? 0) ;;;
  modify (λ c, Control (use_count_ c) (weak_count_ c) (object_alive c) false).

(** The first access of a member function: the load of its assertion. *)
Definition enter (k : call) : C pc :=
  match k with
  | Get => let! n := use_count in gpcl_assert (0 <? n) ;;; ret GetAdd
  | Put => let! n := use_count in gpcl_assert (0 <? n) ;;; ret PutSub
  | WeakGet => let! n := weak_count in gpcl_assert (0 <? n) ;;; ret WeakGetAdd
  | WeakPut => let! n := weak_count in gpcl_assert (0 <? n) ;;; ret WeakPutSub
  | Lock => let! n := weak_count in gpcl_assert (0 <? n) ;;; ret LockRead
  end.

(** What a caller must hold. *)
Definition allowed (t : thread) (k : call) : bool :=
  match k with
  | Get | Put => 0 <? strong t
  | WeakGet => (0 <? strong t) || (0 <? weak t)
  | WeakPut | Lock => 0 <? weak t
  end.

(** One atomic step of a thread: the references it holds then, and where it is.
    [k] is the function entered by an idle thread, [spurious] an unwarranted failure
    of the compare-exchange. *)
Definition step (k : call) (spurious : bool) (t : thread) : C thread :=
  let '(Thread s w p) := t in
  match p with
  | Idle => let! p := enter k in ret (Thread s w p)
  | GetAdd => fetch_add_use 1 ;;; ret (Thread (s + 1) w Idle)
  | PutSub =>
      let! old := fetch_add_use (-1) in
      ret (Thread (s - 1) w (if old =? 1 then PutDestroy else Idle))
  | PutDestroy => destroy_managed_object ;;; ret (Thread s w PutWeak)
  | PutWeak =>
      let! old := fetch_add_weak (-1) in
      ret (Thread s w (if old =? 1 then DeleteBlock else Idle))
  | WeakGetAdd => fetch_add_weak 1 ;;; ret (Thread s (w + 1) Idle)
  | WeakPutSub =>
      let! old := fetch_add_weak (-1) in
      ret (Thread s (w - 1) (if old =? 1 then WeakPutCheck else Idle))
  | WeakPutCheck =>
      let! n := use_count in
      gpcl_assert (n =? 0) ;;; ret (Thread s w DeleteBlock)
  | DeleteBlock => delete_control_block ;;; ret (Thread s w Idle)
  | LockRead => let! n := use_count in ret (Thread s w (LockCas n))
  | LockCas old =>
      if 0 <? old then
        let! r := compare_exchange spurious old in
        match r with
        | None => ret (Thread (s + 1) w Idle)
        | Some n => ret (Thread s w (LockCas n))
        end
      else ret (Thread s w Idle)
  end.

(** A thread may take a step if it is in a call, or is allowed to enter one. *)
Definition enabled (t : thread) (k : call) : bool :=
  match at_ t with Idle => allowed t k | _ => true end.

(** ** Interleavings *)

Inductive reachable : system → Prop :=
| reach_start n :
    (* the first thread holds the only reference *)
    reachable (System (Control 1 1 true true) (Thread 1 0 Idle :: replicate n (Thread 0 0 Idle)))
| reach_step y i t k spurious t' c' :
    reachable y → threads y !! i = Some t → enabled t k = true →
    step k spurious t (ctl y) = (Ok t', c') →
    reachable (System c' (<[i := t']> (threads y)))
| reach_give y i j t u :
    (* an idle thread hands references over to another one *)
    reachable y → threads y !! i = Some t → threads y !! j = Some u → i ≠ j →
    at_ t = Idle → ∀ ds dw, 0 ≤ ds ≤ strong t → 0 ≤ dw ≤ weak t →
    reachable (System (ctl y) (<[i := Thread (strong t - ds) (weak t - dw) Idle]>
                              (<[j := Thread (strong u + ds) (weak u + dw) (at_ u)]> (threads y)))).

(** ** Invariant *)

(** The thread is destroying the object or about to give up the owners' common weak
    reference; is destroying the object; is deleting the block. *)
Definition dying (t : thread) : Z := match at_ t with PutDestroy | PutWeak => 1 | _ => 0 end.
Definition destroying (t : thread) : Z := match at_ t with PutDestroy => 1 | _ => 0 end.
Definition deleting (t : thread) : Z := match at_ t with WeakPutCheck | DeleteBlock => 1 | _ => 0 end.

(** A thread in a call holds the reference the call is about. *)
Definition thread_ok (t : thread) : Prop :=
  0 ≤ strong t ∧ 0 ≤ weak t ∧
  match at_ t with
  | GetAdd | PutSub => 0 < strong t
  | WeakGetAdd => 0 < strong t + weak t
  | WeakPutSub | LockRead | LockCas _ => 0 < weak t
  | _ => True
  end.

Record inv (y : system) : Prop := {
  inv_threads t : t ∈ threads y → thread_ok t;
  inv_use : use_count_ (ctl y) = sum_of strong (threads y);
  inv_weak : weak_count_ (ctl y) = sum_of weak (threads y) +
    (if 0 <? sum_of strong (threads y) then 1 else 0) + sum_of dying (threads y);
  inv_dying : sum_of dying (threads y) ≤ 1;
  inv_owner : 0 < sum_of strong (threads y) → sum_of dying (threads y) = 0;
  inv_object : object_alive (ctl y) = (0 <? sum_of strong (threads y) + sum_of destroying (threads y));
  inv_block : block_alive (ctl y) = (0 <? weak_count_ (ctl y) + sum_of deleting (threads y));
  inv_deleting : sum_of deleting (threads y) ≤ 1;
  inv_last : 0 < sum_of deleting (threads y) → weak_count_ (ctl y) = 0;
}.

(** The facts about one thread and the sums that its steps need. *)
Lemma inv_facts y i t :
  inv y → threads y !! i = Some t →
  thread_ok t ∧ strong t ≤ sum_of strong (threads y) ∧ weak t ≤ sum_of weak (threads y) ∧
  dying t ≤ sum_of dying (threads y) ∧ destroying t ≤ sum_of destroying (threads y) ∧
  deleting t ≤ sum_of deleting (threads y) ∧ sum_of destroying (threads y) ≤ sum_of dying (threads y) ∧
  0 ≤ sum_of strong (threads y) ∧ 0 ≤ sum_of weak (threads y) ∧ 0 ≤ sum_of destroying (threads y) ∧
  0 ≤ sum_of deleting (threads y).
Proof.
  intros I Hi. assert (Hs : ∀ u, u ∈ threads y → 0 ≤ strong u) by (intros u Hu; apply (inv_threads y I u Hu)).
  assert (Hw : ∀ u, u ∈ threads y → 0 ≤ weak u) by (intros u Hu; apply (inv_threads y I u Hu)).
  assert (Hd : ∀ u, u ∈ threads y → 0 ≤ dying u) by (intros [? ? []] _; cbn; lia).
  assert (Ha : ∀ u, u ∈ threads y → 0 ≤ destroying u) by (intros [? ? []] _; cbn; lia).
  assert (Hx : ∀ u, u ∈ threads y → 0 ≤ deleting u) by (intros [? ? []] _; cbn; lia).
  split_and!; try (by eapply sum_of_elem); try (by apply sum_of_nonneg).
  - apply (inv_threads y I). by eapply list_elem_of_lookup_2.
  - apply sum_of_le. intros [? ? []]; cbn; lia.
Qed.

(** A step of the invariant: the new thread and control block fit the sums. *)
Lemma inv_insert y i t t' c' :
  inv y → threads y !! i = Some t → thread_ok t' →
  let S' := sum_of strong (threads y) - strong t + strong t' in
  let W' := sum_of weak (threads y) - weak t + weak t' in
  let D' := sum_of dying (threads y) - dying t + dying t' in
  let A' := sum_of destroying (threads y) - destroying t + destroying t' in
  let X' := sum_of deleting (threads y) - deleting t + deleting t' in
  use_count_ c' = S' → weak_count_ c' = W' + (if 0 <? S' then 1 else 0) + D' →
  D' ≤ 1 → (0 < S' → D' = 0) → object_alive c' = (0 <? S' + A') →
  block_alive c' = (0 <? weak_count_ c' + X') → X' ≤ 1 → (0 < X' → weak_count_ c' = 0) →
  inv (System c' (<[i := t']> (threads y))).
Proof.
  intros I Hi Ht. intros. split; cbn [ctl threads]; rewrite ?(sum_of_insert _ _ _ _ _ Hi); try done.
  intros u Hu. apply list_elem_of_lookup_1 in Hu as [j Hj]. destruct (decide (i = j)) as [<-|Hne].
  - rewrite list_lookup_insert_eq in Hj by (by eapply lookup_lt_Some). by injection Hj as <-.
  - rewrite list_lookup_insert_ne in Hj by done. apply (inv_threads y I). by eapply list_elem_of_lookup_2.
Qed.

Lemma access_ok {A} (f : C A) c : block_alive c = true → access f c = f c.
Proof. intros H. unfold access. by rewrite H. Qed.
Lemma use_count_ok c : block_alive c = true → use_count c = (Ok (use_count_ c), c).
Proof. intros H. unfold use_count. by rewrite access_ok. Qed.
Lemma weak_count_ok c : block_alive c = true → weak_count c = (Ok (weak_count_ c), c).
Proof. intros H. unfold weak_count. by rewrite access_ok. Qed.
Lemma fetch_add_use_ok d c : block_alive c = true → fetch_add_use d c =
  (Ok (use_count_ c), Control (use_count_ c + d) (weak_count_ c) (object_alive c) true).
Proof. intros H. unfold fetch_add_use. rewrite access_ok by done. by rewrite H. Qed.
Lemma fetch_add_weak_ok d c : block_alive c = true → fetch_add_weak d c =
  (Ok (weak_count_ c), Control (use_count_ c) (weak_count_ c + d) (object_alive c) true).
Proof. intros H. unfold fetch_add_weak. rewrite access_ok by done. by rewrite H. Qed.

Ltac sums :=
  repeat match goal with
         | |- context [if ?a <? ?b then _ else _] => destruct (Z.ltb_spec a b)
         | H : context [if ?a <? ?b then _ else _] |- _ => destruct (Z.ltb_spec a b)
         end; lia.

Lemma enter_ok k c :
  block_alive c = true →
  (match k with Get | Put => 0 < use_count_ c | _ => 0 < weak_count_ c end) →
  enter k c = (Ok (match k with Get => GetAdd | Put => PutSub | WeakGet => WeakGetAdd
                               | WeakPut => WeakPutSub | Lock => LockRead end), c).
Proof.
  intros Hb Hk. destruct k; unfold enter;
    (erewrite bind_ok; [|by (apply use_count_ok || apply weak_count_ok)]); rewrite bind_assert by lia; done.
Qed.

(** A thread that can take a step finds the block alive. *)
Lemma inv_block_alive y i t k :
  inv y → threads y !! i = Some t → enabled t k = true → block_alive (ctl y) = true.
Proof.
  intros I Hi He. destruct (inv_facts y i t I Hi) as (Ht & HS & HW & HD & HA & HX & HAD & S0 & W0 & A0 & X0).
  rewrite (inv_block y I), (inv_weak y I). destruct t as [s w p], Ht as (Hs & Hw & Hp).
  destruct p; unfold dying, destroying, deleting, enabled in *; cbn [strong weak at_] in *; try sums.
  destruct k; cbn in He; sums.
Qed.

Ltac solve_inv I Hi := eapply inv_insert; [exact I|exact Hi|..];
  unfold thread_ok, dying, destroying, deleting in *; cbn [strong weak at_ use_count_ weak_count_ object_alive block_alive] in *;
  try sums;
  repeat match goal with
         | H : ?b = (_ <? _) |- ?b = _ => rewrite H; clear H
         | |- context [?a <? ?b] => destruct (Z.ltb_spec a b)
         end; (reflexivity || (exfalso; sums)).

(** No thread can fail, and the invariant is kept. *)
Lemma step_run y i t k sp :
  inv y → threads y !! i = Some t → enabled t k = true →
  ∃ t' c', step k sp t (ctl y) = (Ok t', c') ∧ inv (System c' (<[i := t']> (threads y))).
Proof.
  intros I Hi He. pose proof (inv_block_alive y i t k I Hi He) as Hb.
  destruct (inv_facts y i t I Hi) as (Ht & HS & HW & HD & HA & HX & HAD & S0 & W0 & A0 & X0).
  pose proof (inv_use y I) as Iu. pose proof (inv_weak y I) as Iw. pose proof (inv_dying y I) as Id.
  pose proof (inv_owner y I) as Io. pose proof (inv_object y I) as Iobj. pose proof (inv_block y I) as Ib.
  pose proof (inv_deleting y I) as Idel. pose proof (inv_last y I) as Il.
  destruct t as [s w p]. destruct (id Ht) as (Hs & Hw & Hp). cbn [strong weak at_] in Hs, Hw, Hp, HS, HW.
  destruct p; cbn [step].
  - destruct k; unfold enabled, allowed in He; cbn [at_ strong weak] in He;
      (erewrite bind_ok; [|apply enter_ok; [done|sums]]); (eexists _, _; split; [reflexivity|]); solve_inv I Hi.
  - erewrite bind_ok; [|by apply fetch_add_use_ok]. eexists _, _; split; [reflexivity|]. solve_inv I Hi.
  - erewrite bind_ok; [|by apply fetch_add_use_ok]. destruct (use_count_ (ctl y) =? 1) eqn:E;
      (eexists _, _; split; [reflexivity|]); solve_inv I Hi.
  - assert (1 ≤ sum_of dying (threads y)) by exact HD. assert (1 ≤ sum_of destroying (threads y)) by exact HA.
    unfold destroy_managed_object. rewrite bind_assoc. erewrite bind_ok; [|by apply use_count_ok].
    rewrite bind_assoc, bind_assert by sums. unfold bind at 1.
    rewrite Iobj, (proj2 (Z.ltb_lt 0 _)) by lia.
    eexists _, _; split; [reflexivity|]. rewrite Hb. solve_inv I Hi.
  - assert (1 ≤ sum_of dying (threads y)) by exact HD.
    erewrite bind_ok; [|by apply fetch_add_weak_ok]. destruct (weak_count_ (ctl y) =? 1) eqn:E;
      (eexists _, _; split; [reflexivity|]); solve_inv I Hi.
  - erewrite bind_ok; [|by apply fetch_add_weak_ok]. eexists _, _; split; [reflexivity|]. solve_inv I Hi.
  - erewrite bind_ok; [|by apply fetch_add_weak_ok]. destruct (weak_count_ (ctl y) =? 1) eqn:E;
      (eexists _, _; split; [reflexivity|]); solve_inv I Hi.
  - assert (1 ≤ sum_of deleting (threads y)) by exact HX.
    erewrite bind_ok; [|by apply use_count_ok]. rewrite bind_assert by sums.
    eexists _, _; split; [reflexivity|]. solve_inv I Hi.
  - assert (1 ≤ sum_of deleting (threads y)) by exact HX.
    unfold delete_control_block. rewrite bind_assoc.
    erewrite bind_ok; [|by apply use_count_ok]. rewrite bind_assoc, bind_assert by sums.
    rewrite bind_assoc. erewrite bind_ok; [|by apply weak_count_ok]. rewrite bind_assoc, bind_assert by sums.
    eexists _, _; split; [reflexivity|]. solve_inv I Hi.
  - erewrite bind_ok; [|by apply use_count_ok]. eexists _, _; split; [reflexivity|]. solve_inv I Hi.
  - destruct (0 <? old_val) eqn:E0; [|eexists _, _; split; [reflexivity|]; solve_inv I Hi].
    unfold compare_exchange, bind. rewrite access_ok by done.
    destruct ((use_count_ (ctl y) =? old_val) && negb sp) eqn:E;
      (eexists _, _; split; [reflexivity|]); rewrite ?Hb; solve_inv I Hi.
Qed.

Lemma start_inv n :
  inv (System (Control 1 1 true true) (Thread 1 0 Idle :: replicate n (Thread 0 0 Idle))).
Proof.
  assert (E : ∀ f, f (Thread 0 0 Idle) = 0 →
    sum_of f (Thread 1 0 Idle :: replicate n (Thread 0 0 Idle)) = f (Thread 1 0 Idle)).
  { intros f Hf. cbn. fold (sum_of f (replicate n (Thread 0 0 Idle))). rewrite sum_of_replicate by done. lia. }
  split; cbn [ctl threads use_count_ weak_count_ object_alive block_alive]; rewrite ?E by done; try done.
  intros t [->|Ht]%elem_of_cons; [|apply elem_of_replicate_inv in Ht as ->]; unfold thread_ok; cbn; lia.
Qed.

(** Handing references over leaves all sums as they are. *)
Lemma give_inv y i j t u ds dw :
  inv y → threads y !! i = Some t → threads y !! j = Some u → i ≠ j → at_ t = Idle →
  0 ≤ ds ≤ strong t → 0 ≤ dw ≤ weak t →
  inv (System (ctl y) (<[i := Thread (strong t - ds) (weak t - dw) Idle]>
                      (<[j := Thread (strong u + ds) (weak u + dw) (at_ u)]> (threads y)))).
Proof.
  intros I Hi Hj Hne Ht Hds Hdw.
  pose proof (inv_threads y I t ltac:(by eapply list_elem_of_lookup_2)) as Okt.
  pose proof (inv_threads y I u ltac:(by eapply list_elem_of_lookup_2)) as Oku.
  set (u' := Thread _ _ (at_ u)). set (t' := Thread _ _ Idle).
  assert (Hi' : <[j := u']> (threads y) !! i = Some t) by (by rewrite list_lookup_insert_ne).
  assert (E : ∀ f, f t' + f u' = f t + f u → sum_of f (<[i := t']> (<[j := u']> (threads y))) = sum_of f (threads y)).
  { intros f Hf. rewrite (sum_of_insert f _ i t t' Hi'), (sum_of_insert f _ j u u' Hj). lia. }
  destruct t as [s w p], u as [s2 w2 p2]. cbn [strong weak at_] in *. subst p.
  destruct I as [Ith Iu Iw Id Io Iobj Ib Idel Il].
  split; cbn [ctl threads]; rewrite ?E by (unfold t', u'; cbn; try lia; by destruct p2); try done.
  intros v Hv. apply list_elem_of_lookup_1 in Hv as [l Hl].
  destruct (decide (i = l)) as [<-|Hil].
  { rewrite list_lookup_insert_eq in Hl by (by eapply lookup_lt_Some). injection Hl as <-. unfold thread_ok, t'. cbn. lia. }
  rewrite list_lookup_insert_ne in Hl by done. destruct (decide (j = l)) as [<-|Hjl].
  { rewrite list_lookup_insert_eq in Hl by (by eapply lookup_lt_Some). injection Hl as <-.
    unfold thread_ok, u' in *. cbn in *. destruct p2; lia. }
  rewrite list_lookup_insert_ne in Hl by done. apply Ith. by eapply list_elem_of_lookup_2.
Qed.

Lemma reachable_inv y : reachable y → inv y.
Proof.
  induction 1 as [n|y i t k sp t' c' _ I Hi He Hs|y i j t u _ I Hi Hj Hne Ht ds dw Hds Hdw].
  - apply start_inv.
  - destruct (step_run y i t k sp I Hi He) as (t1 & c1 & E & I1). rewrite Hs in E. by injection E as -> ->.
  - by apply give_inv.
Qed.

(** ** Schedules *)

Fixpoint run (sched : list (nat * call * bool)) (y : system) : option system :=
  match sched with
  | [] => Some y
  | (i, k, sp) :: sched =>
      match threads y !! i with
      | Some t =>
          if enabled t k then
            match step k sp t (ctl y) with
            | (Ok t', c') => run sched (System c' (<[i := t']> (threads y)))
            | _ => None
            end
          else None
      | None => None
      end
  end.

Lemma run_reachable sched y y' : reachable y → run sched y = Some y' → reachable y'.
Proof.
  revert y. induction sched as [|[[i k] sp] sched IH]; intros y Hy; cbn; [by intros [= <-]|].
  destruct (threads y !! i) as [t|] eqn:Hi; [|done]. destruct (enabled t k) eqn:He; [|done].
  destruct (step k sp t (ctl y)) as [[] c'] eqn:Hs; try done. apply IH. by eapply reach_step.
Qed.

(** ** Properties *)

(** C9: whatever the interleaving of threads that copy, drop, lock and exchange
    references they hold, no atomic step of any of them fails an assertion, touches
    a deleted control block or deletes the object a second time. *)
Theorem refcount_interleavings_safe y i t k spurious :
  reachable y → threads y !! i = Some t → enabled t k = true →
  ∃ t' c', step k spurious t (ctl y) = (Ok t', c').
Proof.
  intros Hr Hi He. destruct (step_run y i t k spurious (reachable_inv y Hr) Hi He) as (t' & c' & E & _). eauto.
Qed.

(** In every interleaving, the object is alive as long as some thread holds a
    strong reference, also one obtained by [lock]; the use count is the number of
    strong references, and the control block is alive as long as any reference is. *)
Theorem refcount_owner_alive y t :
  reachable y → t ∈ threads y →
  use_count_ (ctl y) = sum_of strong (threads y) ∧
  (0 < strong t → object_alive (ctl y) = true) ∧
  (0 < strong t + weak t → block_alive (ctl y) = true).
Proof.
  intros Hr Ht. pose proof (reachable_inv y Hr) as I. apply list_elem_of_lookup_1 in Ht as [i Hi].
  destruct (inv_facts y i t I Hi) as (_ & HS & HW & HD & HA & HX & HAD & S0 & W0 & A0 & X0).
  split_and!; [apply (inv_use y I)|..].
  - intros Hs. rewrite (inv_object y I). lia.
  - intros Hs. rewrite (inv_block y I), (inv_weak y I). sums.
Qed.

(** When every thread is between calls and holds no reference, the object has
    been destroyed and the control block deleted. *)
Theorem refcount_no_leak y :
  reachable y → (∀ t, t ∈ threads y → t = Thread 0 0 Idle) →
  object_alive (ctl y) = false ∧ block_alive (ctl y) = false.
Proof.
  intros Hr Hall. pose proof (reachable_inv y Hr) as I.
  assert (E : ∀ f, f (Thread 0 0 Idle) = 0 → sum_of f (threads y) = 0).
  { intros f Hf. clear -Hall Hf. induction (threads y) as [|t l IH]; [done|]. cbn.
    rewrite (Hall t), Hf by (by left). rewrite Z.add_0_l. apply IH. intros u Hu. apply Hall. by right. }
  rewrite (inv_object y I), (inv_block y I), (inv_weak y I), !E by done. done.
Qed.

(** The first of two threads makes a weak reference and gives it to the second.
    The second one is in [lock] with the use count 1 when the first drops the last
    strong reference: its compare-exchange fails and so does [lock]. *)
Definition start2 : system := System (Control 1 1 true true) [Thread 1 0 Idle; Thread 0 0 Idle].
Definition given : system := System (Control 1 2 true true) [Thread 1 0 Idle; Thread 0 1 Idle].
Definition race_schedule : list (nat * call * bool) :=
  [(1%nat, Lock, false); (1%nat, Lock, false); (0%nat, Put, false); (0%nat, Put, false)].
Definition race : system := System (Control 0 2 true true) [Thread 0 0 PutDestroy; Thread 0 1 (LockCas 1)].
Definition end_schedule : list (nat * call * bool) :=
  [(1%nat, Lock, false); (0%nat, Put, false); (1%nat, Lock, false); (0%nat, Put, false);
   (1%nat, WeakPut, false); (1%nat, WeakPut, false); (1%nat, WeakPut, false); (1%nat, WeakPut, false)].
Definition finished : system := System (Control 0 0 false false) [Thread 0 0 Idle; Thread 0 0 Idle].

Lemma given_reachable : reachable given.
Proof.
  assert (H : reachable (System (Control 1 2 true true) [Thread 1 1 Idle; Thread 0 0 Idle])).
  { apply (run_reachable [(0%nat, WeakGet, false); (0%nat, WeakGet, false)] start2); [apply (reach_start 1)|reflexivity]. }
  exact (reach_give _ 0 1 _ _ H eq_refl eq_refl ltac:(done) eq_refl 0 1 ltac:(cbn; lia) ltac:(cbn; lia)).
Qed.
Lemma race_reachable : reachable race.
Proof. apply (run_reachable race_schedule given); [exact given_reachable|reflexivity]. Qed.
Lemma finished_reachable : reachable finished.
Proof. apply (run_reachable end_schedule race); [exact race_reachable|reflexivity]. Qed.

Lemma refcount_interleavings_witness :
  ∃ t' c', step Lock false (Thread 0 1 (LockCas 1)) (ctl race) = (Ok t', c').
Proof. exact (refcount_interleavings_safe race 1 _ Lock false race_reachable eq_refl eq_refl). Defined.

Lemma refcount_owner_alive_witness : object_alive (ctl given) = true ∧ block_alive (ctl given) = true.
Proof.
  destruct (refcount_owner_alive given (Thread 1 0 Idle) given_reachable ltac:(by left)) as (_ & H1 & H2).
  split; [apply H1|apply H2]; cbn; lia.
Defined.

Lemma refcount_no_leak_witness : object_alive (ctl finished) = false ∧ block_alive (ctl finished) = false.
Proof.
  apply (refcount_no_leak finished finished_reachable).
  intros t Ht. cbn in Ht. rewrite !elem_of_cons, elem_of_nil in Ht. naive_solver.
Defined.

End Threads.
