(* ===== verification/Getopt.v ===== *)
(** * Command line parser (getopt.hpp, impl/getopt.ipp)

    [argv] holds the [argc] argument strings, none of them null; the character
    behind the last one of a string is 0, and a read behind that, or of an argument
    behind the last one, is undefined behaviour.  [optarg_] is the string its pointer
    points to.  The [int]s that options set through [flag] are cells of [ints]. *)

From Stdlib Require Import Ascii.
From S2P Require Import Prelude.
From S2P Require Import LexicalCast.

Local Open Scope Z_scope.
Local Open Scope gpcl_scope.

Inductive getopt_option_type : Type :=
| no_arg | required | optional | flag_set | flag_and | flag_or.

#[export] Instance getopt_option_type_eq_dec : EqDecision getopt_option_type.
Proof. solve_decision. Defined.

Record getopt_option : Type := Option {
  name : option str;
  name_short : ascii;
  type : getopt_option_type;
  flag : option Z;
  value : Z;
  desc : option str;
  value_desc : option str;
}.

Record getopt : Type := Getopt {
  optind_ : Z;
  optpos_ : Z;
  optarg_ : option str;
  opt_ : option getopt_option;
  ints : gmap Z Z;
}.

Module Opt.

Definition nul : ascii := chr 0.
Definition dash : ascii := "-"%char.
Definition question : Z := 63.

Section getopt.
Context (argv : list str) (opts : list getopt_option).

Abbreviation G A := (M getopt A).

Definition set_optind (i : Z) : G unit :=
  modify (λ s, Getopt (u64 i) (optpos_ s) (optarg_ s) (opt_ s) (ints s)).
Definition set_optpos (p : Z) : G unit :=
  modify (λ s, Getopt (optind_ s) (u64 p) (optarg_ s) (opt_ s) (ints s)).
Definition set_optarg (a : option str) : G unit :=
  modify (λ s, Getopt (optind_ s) (optpos_ s) a (opt_ s) (ints s)).
Definition set_opt (o : option getopt_option) : G unit :=
  modify (λ s, Getopt (optind_ s) (optpos_ s) (optarg_ s) o (ints s)).

Definition size : Z := Z.of_nat (length argv).
(** [argv_[i]], [argv_[i][j]] and [&argv_[i][j]]. *)
Definition arg (i : Z) : G str :=
  match argv !! Z.to_nat i with Some a => ret a | None => undef end.
Definition char_at (a : str) (j : Z) : G ascii :=
  match a !! Z.to_nat j with
  | Some c => ret c
  | None => if j =? Z.of_nat (length a) then ret nul else undef
  end.
Definition arg_char (i j : Z) : G ascii := let! a := arg i in char_at a j.
Definition arg_suffix (i j : Z) : G str :=
  let! a := arg i in
  if j <=? Z.of_nat (length a) then ret (drop (Z.to_nat j) a) else undef.

(** [getopt(argc, argv, opts)]. *)
Definition construct (mem : gmap Z Z) : outcome getopt :=
  if (size =? 0) || bool_decide (opts = []) then Abort else Ok (Getopt 0 0 None None mem).

(** [arg.find('=')]. *)
Fixpoint find_eq (a : str) : option nat :=
  match a with
  | [] => None
  | c :: a => if decide (c = "="%char) then Some O else S <$> find_eq a
  end.

(** The first option of this long, or short, name. *)
Definition find_long (n : str) : option getopt_option :=
  list_find (λ o, name o = Some n) opts ≫= λ r, Some (snd r).
Definition find_short (c : ascii) : option getopt_option :=
  list_find (λ o, c = name_short o) opts ≫= λ r, Some (snd r).

(** [*opt_->flag]. *)
Definition load_int (p : Z) : G Z :=
  λ s, match ints s !! p with Some v => (Ok v, s) | None => (Undef, s) end.
Definition store_int (p v : Z) : G unit :=
  modify (λ s, Getopt (optind_ s) (optpos_ s) (optarg_ s) (opt_ s) (<[p := v]> (ints s))).

(** The part of [operator()] from the label [handle_option] on. *)
Definition handle_option (o : getopt_option) : G Z :=
  (if decide (type o = no_arg) then set_optarg None else ret tt) ;;;
  let! i := gets optind_ in
  let! p := gets optpos_ in
  let! takes :=
    (if decide (type o = required) then ret true
     else if decide (type o = optional) then
       if i <? size then let! c := arg_char i p in ret (negb (bool_decide (c = dash))) else ret false
     else ret false) in
  (if takes then
     let! a := arg_suffix i p in
     set_optind (i + 1) ;;; set_optarg (Some a) ;;; set_optpos 0
   else ret tt) ;;;
  match flag o with
  | Some f =>
      match type o with
      | flag_set => load_int f ;;; store_int f (value o) ;;; ret 0
      | flag_and => let! v := load_int f in store_int f (Z.land v (value o)) ;;; ret 0
      | flag_or => let! v := load_int f in store_int f (Z.lor v (value o)) ;;; ret 0
      | _ => ret question
      end
  | None => ret (value o)
  end.

(** A long option: [--name] or [--name=value]. *)
Definition long_option (i : Z) : G Z :=
  let! a := arg_suffix i 2 in
  let pos := find_eq a in
  let n := match pos with Some k => take k a | None => a end in
  match find_long n with
  | Some o =>
      set_opt (Some o) ;;;
      match pos with
      | Some k => set_optpos (2 + Z.of_nat k + 1)
      | None => set_optind (i + 1) ;;; set_optpos 0
      end ;;;
      handle_option o
  | None => ret question
  end.

(** The next character of a group of short options. *)
Definition short_option (i : Z) : G Z :=
  let! p := gets optpos_ in
  (if p =? 0 then set_optpos 1 else ret tt) ;;;
  let! p := gets optpos_ in
  let! c := arg_char i p in
  set_optpos (p + 1) ;;;
  let! e := arg_char i (p + 1) in
  (if decide (e = nul) then set_optind (i + 1) ;;; set_optpos 0 else ret tt) ;;;
  match find_short c with
  | Some o => set_opt (Some o) ;;; handle_option o
  | None => ret question
  end.

(** [operator()]. *)
Definition next : G Z :=
  set_optarg None ;;; set_opt None ;;;
  let! i := gets optind_ in
  (if i =? 0 then set_optind 1 else ret tt) ;;;
  let! i := gets optind_ in
  if size <=? i then ret (-1) else
  let! c0 := arg_char i 0 in
  if negb (bool_decide (c0 = dash)) then ret (-1) else
  let! c1 := arg_char i 1 in
  if decide (c1 = nul) then ret (-1) else
  if decide (c1 = dash) then
    let! c2 := arg_char i 2 in
    if decide (c2 = nul) then set_optind (i + 1) ;;; ret (-1) else long_option i
  else short_option i.

(** The documented loop [while ((c = getopt()) != -1)]: the results and arguments. *)
Fixpoint parse_all (fuel : nat) : G (list (Z * option str)) :=
  match fuel with
  | O => nofuel
  | S fuel =>
      let! c := next in
      if c =? -1 then ret [] else
      let! a := gets optarg_ in
      let! l := parse_all fuel in
      ret ((c, a) :: l)
  end.

(** ** Steps *)

Ltac run H := rewrite (bind_ok _ _ _ _ _ H).

Lemma arg_ok i a s : argv !! Z.to_nat i = Some a → arg i s = (Ok a, s).
Proof. intros H. unfold arg. by rewrite H. Qed.
Lemma arg_char_ok i j a c s :
  argv !! Z.to_nat i = Some a → a !! Z.to_nat j = Some c → arg_char i j s = (Ok c, s).
Proof. intros H Hc. unfold arg_char. run (arg_ok i a s H). unfold char_at. by rewrite Hc. Qed.
Lemma arg_char_end i a s :
  argv !! Z.to_nat i = Some a → arg_char i (Z.of_nat (length a)) s = (Ok nul, s).
Proof.
  intros H. unfold arg_char. run (arg_ok i a s H). unfold char_at.
  rewrite Nat2Z.id, lookup_ge_None_2 by lia. by rewrite Z.eqb_refl.
Qed.
Lemma arg_suffix_ok i j a s :
  argv !! Z.to_nat i = Some a → j ≤ Z.of_nat (length a) →
  arg_suffix i j s = (Ok (drop (Z.to_nat j) a), s).
Proof. intros H Hj. unfold arg_suffix. run (arg_ok i a s H). by rewrite (proj2 (Z.leb_le _ _) Hj). Qed.

(** An option without argument changes no position. *)
Lemma handle_no_arg o i p oa op m :
  type o = no_arg → flag o = None →
  handle_option o (Getopt i p oa op m) = (Ok (value o), Getopt i p None op m).
Proof.
  intros Ht Hf. unfold handle_option. rewrite decide_True by done. unfold set_optarg at 1.
  rewrite bind_modify.
  rewrite !bind_gets. rewrite decide_False by congruence. rewrite decide_False by congruence.
  rewrite bind_ret_l. cbn. by rewrite Hf.
Qed.
(** An option with an argument takes the rest of the string at the position. *)
Lemma handle_required o i p oa op m a :
  type o = required → flag o = None → argv !! Z.to_nat i = Some a →
  p ≤ Z.of_nat (length a) → 0 ≤ i + 1 < 2 ^ 64 →
  handle_option o (Getopt i p oa op m) =
    (Ok (value o), Getopt (i + 1) 0 (Some (drop (Z.to_nat p) a)) op m).
Proof.
  intros Ht Hf Ha Hp Hi. unfold handle_option. rewrite decide_False by congruence. rewrite bind_ret_l.
  rewrite !bind_gets. cbn [optind_ optpos_]. rewrite decide_True by done. rewrite bind_ret_l.
  rewrite bind_assoc. erewrite bind_ok; [|by apply arg_suffix_ok].
  rewrite bind_assoc. unfold set_optind, set_optarg, set_optpos.
  rewrite bind_modify, bind_assoc, !bind_modify.
  cbn. rewrite Hf. by rewrite u64_small.
Qed.

(** The start of a call at argument [a] of index [i]. *)
Lemma next_short i p oa op m a c1 r :
  argv !! Z.to_nat i = Some a → a = dash :: c1 :: r → c1 ≠ nul → c1 ≠ dash → 1 ≤ i →
  next (Getopt i p oa op m) = short_option i (Getopt i p None None m).
Proof.
  intros Ha -> H1 H2 Hi. unfold next, set_optarg, set_opt. rewrite !bind_modify, bind_gets.
  cbn [optind_ optpos_ optarg_ opt_ ints].
  rewrite (proj2 (Z.eqb_neq i 0)) by lia. rewrite bind_ret_l, bind_gets. cbn [optind_].
  assert (i < size) by (apply lookup_lt_Some in Ha; unfold size; lia).
  rewrite (proj2 (Z.leb_gt size i)) by lia.
  erewrite bind_ok; [|eapply arg_char_ok; [exact Ha|reflexivity]]. cbn [negb bool_decide decide].
  rewrite bool_decide_true by done.
  cbn [negb]. erewrite bind_ok; [|eapply arg_char_ok; [exact Ha|reflexivity]].
  by rewrite !decide_False by done.
Qed.
Lemma next_long i p oa op m a c2 r :
  argv !! Z.to_nat i = Some a → a = dash :: dash :: c2 :: r → c2 ≠ nul → 1 ≤ i →
  next (Getopt i p oa op m) = long_option i (Getopt i p None None m).
Proof.
  intros Ha -> H2 Hi. unfold next, set_optarg, set_opt. rewrite !bind_modify, bind_gets.
  cbn [optind_ optpos_ optarg_ opt_ ints].
  rewrite (proj2 (Z.eqb_neq i 0)) by lia. rewrite bind_ret_l, bind_gets. cbn [optind_].
  assert (i < size) by (apply lookup_lt_Some in Ha; unfold size; lia).
  rewrite (proj2 (Z.leb_gt size i)) by lia.
  erewrite bind_ok; [|eapply arg_char_ok; [exact Ha|reflexivity]]. rewrite bool_decide_true by done.
  cbn [negb]. erewrite bind_ok; [|eapply arg_char_ok; [exact Ha|reflexivity]].
  rewrite (decide_False (P := dash = nul)) by done. rewrite decide_True by done.
  erewrite bind_ok; [|eapply arg_char_ok; [exact Ha|reflexivity]]. by rewrite decide_False.
Qed.

(** One character [c] of a group, at position [q]. *)
Lemma short_option_ok i p m a c o q :
  argv !! Z.to_nat i = Some a → nul ∉ a → q = (if p =? 0 then 1 else p) → 0 ≤ p →
  a !! Z.to_nat q = Some c → find_short c = Some o →
  Z.of_nat (length a) < 2 ^ 64 → 0 ≤ i + 1 < 2 ^ 64 →
  short_option i (Getopt i p None None m) =
    handle_option o (if decide (q + 1 = Z.of_nat (length a))
                     then Getopt (i + 1) 0 None (Some o) m else Getopt i (q + 1) None (Some o) m).
Proof.
  intros Ha Hnul Hq Hp Hc Ho Hlen Hi. pose proof (lookup_lt_Some _ _ _ Hc) as Hlt.
  assert (Hq0 : 1 ≤ q) by (subst q; destruct (p =? 0) eqn:E; lia).
  unfold short_option. rewrite bind_gets. cbn [optpos_].
  assert (E1 : (if p =? 0 then set_optpos 1 else ret tt) (Getopt i p None None m) = (Ok tt,
    Getopt i q None None m)).
  { subst q. by destruct (p =? 0). }
  run E1. rewrite bind_gets. cbn [optpos_]. erewrite bind_ok; [|by eapply arg_char_ok].
  unfold set_optpos at 1. rewrite bind_modify. cbn [optind_ optpos_ optarg_ opt_ ints].
  rewrite u64_small by lia.
  destruct (decide (q + 1 = Z.of_nat (length a))) as [He|Hne].
  - erewrite bind_ok; [|rewrite He; by apply arg_char_end]. rewrite decide_True by done.
    unfold set_optind, set_optpos. rewrite bind_assoc, !bind_modify. rewrite Ho. unfold set_opt.
    rewrite bind_modify.
    cbn [optind_ optpos_ optarg_ opt_ ints]. by rewrite (u64_small (i + 1)).
  - destruct (lookup_lt_is_Some_2 a (Z.to_nat (q + 1))) as [e He]; [lia|].
    erewrite bind_ok; [|by eapply arg_char_ok]. rewrite decide_False.
    2:{ intros ->. apply Hnul. by eapply list_elem_of_lookup_2. }
    rewrite bind_ret_l, Ho. unfold set_opt. by rewrite bind_modify.
Qed.

Lemma find_eq_app n v : "="%char ∉ n → find_eq (n ++ "="%char :: v) = Some (length n).
Proof.
  induction n as [|c n IH]; intros Hn; cbn; [done|].
  rewrite decide_False by (intros ->; apply Hn; by left). rewrite IH; [done|]. intros H. apply Hn.
  by right.
Qed.
Lemma find_eq_none n : "="%char ∉ n → find_eq n = None.
Proof.
  induction n as [|c n IH]; intros Hn; cbn; [done|].
  rewrite decide_False by (intros ->; apply Hn; by left). rewrite IH; [done|]. intros H. apply Hn.
  by right.
Qed.

Lemma long_option_plain i p m a n o :
  argv !! Z.to_nat i = Some a → a = dash :: dash :: n → "="%char ∉ n → find_long n = Some o →
    0 ≤ i + 1 < 2 ^ 64 →
  long_option i (Getopt i p None None m) = handle_option o (Getopt (i + 1) 0 None (Some o) m).
Proof.
  intros Ha -> Hn Ho Hi. unfold long_option.
  erewrite bind_ok; [|eapply arg_suffix_ok; [exact Ha|cbn; lia]].
  change (drop (Z.to_nat 2) (dash :: dash :: n)) with n. rewrite (find_eq_none n Hn), Ho.
  unfold set_opt, set_optind, set_optpos.
  rewrite bind_modify, bind_assoc, !bind_modify. cbn [optind_ optpos_ optarg_ opt_ ints].
  by rewrite u64_small.
Qed.
Lemma long_option_eq i p m a n v o :
  argv !! Z.to_nat i = Some a → a = dash :: dash :: n ++ "="%char :: v → "="%char ∉ n →
    find_long n = Some o →
  Z.of_nat (length a) < 2 ^ 64 →
  long_option i (Getopt i p None None m) =
    handle_option o (Getopt i (2 + Z.of_nat (length n) + 1) None (Some o) m).
Proof.
  intros Ha -> Hn Ho Hlen. unfold long_option.
  erewrite bind_ok; [|eapply arg_suffix_ok; [exact Ha|cbn; lia]].
  change (drop (Z.to_nat 2) (dash :: dash :: n ++ "="%char :: v)) with (n ++ "="%char :: v).
  rewrite (find_eq_app n v Hn), take_app_length, Ho.
  unfold set_opt, set_optpos.
  rewrite !bind_modify. cbn [optind_ optpos_ optarg_ opt_ ints]. rewrite u64_small; [done|].
  cbn [length] in Hlen. rewrite length_app in Hlen. cbn [length] in Hlen. lia.
Qed.

(** ** Whole command lines *)

(** The loop collects [l] from [s] and stops in [s']. *)
Definition parses (s : getopt) (l : list (Z * option str)) (s' : getopt) : Prop :=
  ∀ fuel, (length l < fuel)%nat → parse_all fuel s = (Ok l, s').

Lemma parses_step s v s1 l s' :
  next s = (Ok v, s1) → v ≠ -1 → parses s1 l s' → parses s ((v, optarg_ s1) :: l) s'.
Proof.
  intros Hn Hv Hp [|fuel] Hf; cbn [length] in Hf; [lia|]. cbn [parse_all]. run Hn.
  rewrite (proj2 (Z.eqb_neq _ _) Hv), bind_gets. erewrite bind_ok; [|apply Hp; lia]. done.
Qed.
Lemma parses_stop s s' : next s = (Ok (-1), s') → parses s [] s'.
Proof. intros Hn [|fuel] Hf; cbn [length] in Hf; [lia|]. cbn [parse_all]. by run Hn. Qed.

(** The ways to write an option, as the strings of the command line. *)
Inductive usage : Type :=
| Group (os : list getopt_option)                  (* -abc *)
| ShortGlued (o : getopt_option) (v : str)         (* -ovalue *)
| ShortSep (o : getopt_option) (v : str)           (* -o value *)
| Long (o : getopt_option)                         (* --name *)
| LongEq (o : getopt_option) (v : str)             (* --name=value *)
| LongSep (o : getopt_option) (v : str).           (* --name value *)

Definition long_name (o : getopt_option) : str := default [] (name o).

Definition render (u : usage) : list str :=
  match u with
  | Group os => [dash :: (name_short <$> os)]
  | ShortGlued o v => [dash :: name_short o :: v]
  | ShortSep o v => [[dash; name_short o]; v]
  | Long o => [dash :: dash :: long_name o]
  | LongEq o v => [dash :: dash :: long_name o ++ "="%char :: v]
  | LongSep o v => [dash :: dash :: long_name o; v]
  end.
Definition results (u : usage) : list (Z * option str) :=
  match u with
  | Group os => (λ o, (value o, None)) <$> os
  | Long o => [(value o, None)]
  | ShortGlued o v | ShortSep o v | LongEq o v | LongSep o v => [(value o, Some v)]
  end.

(** The option has the kind [t], reports its value, and is found by its name. *)
Definition plain (t : getopt_option_type) (o : getopt_option) : Prop :=
  type o = t ∧ flag o = None ∧ value o ≠ -1.
Definition by_short (o : getopt_option) : Prop :=
  name_short o ≠ nul ∧ name_short o ≠ dash ∧ find_short (name_short o) = Some o.
Definition by_long (o : getopt_option) : Prop :=
  head (long_name o) ≠ None ∧ head (long_name o) ≠ Some nul ∧ ("="%char ∉ long_name o) ∧
  find_long (long_name o) = Some o.
Definition usage_ok (u : usage) : Prop :=
  match u with
  | Group os => os ≠ [] ∧ Forall (λ o, plain no_arg o ∧ by_short o) os
  | ShortGlued o v => plain required o ∧ by_short o ∧ v ≠ [] ∧ (nul ∉ v)
  | ShortSep o v => plain required o ∧ by_short o
  | Long o => plain no_arg o ∧ by_long o
  | LongEq o v | LongSep o v => plain required o ∧ by_long o
  end.

(** A position: the state between two calls. *)
Definition ready (s : getopt) (i p : Z) : Prop := optind_ s = i ∧ optpos_ s = p.

Hypothesis argv_small : size < 2 ^ 64 ∧ Forall (λ a, Z.of_nat (length a) < 2 ^ 64) argv.

Lemma argv_at pre a post : argv = pre ++ a :: post →
  argv !! Z.to_nat (Z.of_nat (length pre)) = Some a ∧ Z.of_nat (length a) < 2 ^ 64 ∧
  0 ≤ Z.of_nat (length pre) + 1 < 2 ^ 64.
Proof.
  intros E. destruct argv_small as [H1 H2]. rewrite Nat2Z.id, E, list_lookup_middle by done.
  split_and!; [done| |lia|].
  - rewrite Forall_forall in H2. apply H2. rewrite E, elem_of_app. right. by left.
  - unfold size in H1. rewrite E, length_app in H1. cbn in H1. lia.
Qed.

(** One option of a group [-...], the characters [d] before it read already. *)
Lemma group_next s pre post d o os :
  argv = pre ++ (dash :: d ++ (name_short <$> o :: os)) :: post → (1 ≤ length pre)%nat →
  (nul ∉ d) → head d ≠ Some dash → Forall (λ o, plain no_arg o ∧ by_short o) (o :: os) →
  ready s (Z.of_nat (length pre)) (match d with [] => 0 | _ => Z.of_nat (S (length d)) end) →
  ∃ s', next s = (Ok (value o), s') ∧ optarg_ s' = None ∧
    ready s' (match os with [] => Z.of_nat (length pre) + 1 | _ => Z.of_nat (length pre) end)
             (match os with [] => 0 | _ => Z.of_nat (S (S (length d))) end).
Proof.
  intros E Hpre Hd Hdash Hall [Hi Hp]. destruct (argv_at _ _ _ E) as (Ha & Hlen & Hi1).
  destruct s as [i p oa op m]. cbn in Hi, Hp. subst i.
  set (a := dash :: d ++ (name_short <$> o :: os)) in *.
  assert (Hos : Forall by_short (o :: os)) by (eapply Forall_impl; [exact Hall|]; by intros x [_ ?]).
  assert (Hnul : nul ∉ a).
  { unfold a. rewrite elem_of_cons, elem_of_app, list_elem_of_fmap. intros [H|[H|(x & Hx & Hin)]];
      [done|done|].
    rewrite Forall_forall in Hos. destruct (Hos x Hin) as [Hn _]. congruence. }
  apply Forall_cons in Hall as [[(Ht & Hf & Hv) (Hs1 & Hs2 & Hs3)] _].
  assert (Hc1 : ∃ c1 r, a = dash :: c1 :: r ∧ c1 ≠ nul ∧ c1 ≠ dash).
  { unfold a. destruct d as [|c d]; [by exists (name_short o), (name_short <$> os)|].
      exists c, (d ++ (name_short <$> o :: os)).
    split_and!; [done| |]; intros ->; [apply Hd; by left|by apply Hdash]. }
  destruct Hc1 as (c1 & r & Ea & ? & ?). rewrite (next_short _ p oa op m a c1 r Ha Ea) by (done || lia).
  set (q := 1 + Z.of_nat (length d)).
  rewrite (short_option_ok _ p m a (name_short o) o q Ha Hnul); try done.
  - destruct (decide (q + 1 = Z.of_nat (length a))) as [Hq|Hq].
    + destruct os as [|o2 os].
      2:{ exfalso. unfold q, a in Hq. cbn [length] in Hq. rewrite length_app, length_fmap in Hq.
        cbn in Hq. lia. }
      rewrite handle_no_arg by done. by eexists.
    + destruct os as [|o2 os].
      { exfalso. apply Hq. unfold q, a. cbn [length]. rewrite length_app, length_fmap. cbn. lia. }
      rewrite handle_no_arg by done. eexists. split_and!; [done|done|]. split; [done|]. cbn.
      unfold q. lia.
  - subst p q. destruct d; cbn [Z.eqb length]; [done|]. rewrite (proj2 (Z.eqb_neq _ 0)) by lia. lia.
  - subst p. destruct d; lia.
  - unfold q, a. replace (Z.to_nat (1 + Z.of_nat (length d))) with (S (length d)) by lia.
    change ((d ++ name_short o :: (name_short <$> os)) !! length d = Some (name_short o)).
    by rewrite list_lookup_middle.
Qed.

(** From argument [i] on, the loop collects [l] and stops at argument [e]. *)
Definition collects (i : Z) (l : list (Z * option str)) (e : Z) : Prop :=
  ∀ s, ready s i 0 → ∃ s', parses s l s' ∧ optind_ s' = e.

Lemma group_collects pre post os d s l e :
  argv = pre ++ (dash :: d ++ (name_short <$> os)) :: post → (1 ≤ length pre)%nat →
  (nul ∉ d) → head d ≠ Some dash → Forall (λ o, plain no_arg o ∧ by_short o) os → os ≠ [] →
  ready s (Z.of_nat (length pre)) (match d with [] => 0 | _ => Z.of_nat (S (length d)) end) →
  collects (Z.of_nat (length pre) + 1) l e →
  ∃ s', parses s (results (Group os) ++ l) s' ∧ optind_ s' = e.
Proof.
  revert d s. induction os as [|o os IH]; intros d s E Hpre Hd Hdash Hall Hne Hr Hl; [done|].
  destruct (group_next s pre post d o os E Hpre Hd Hdash Hall Hr) as (s1 & H1 & Ho1 & Hr1).
  assert (Hv : value o ≠ -1) by (by apply Forall_cons in Hall as [[(_ & _ & ?) _] _]).
  assert (Hrest : ∃ s', parses s1 (results (Group os) ++ l) s' ∧ optind_ s' = e).
  { destruct os as [|o2 os]; [by apply Hl|].
    apply Forall_cons in Hall as [[_ (Hs1 & Hs2 & _)] Hall].
    apply (IH (d ++ [name_short o])); try done.
    - rewrite E. cbn [fmap list_fmap]. by rewrite <- app_assoc.
    - rewrite elem_of_app, list_elem_of_singleton. intros [?|?]; congruence.
    - destruct d; [cbn; congruence|done].
    - destruct Hr1 as [H2 H3]. split; [done|]. rewrite H3. destruct (d ++ [name_short o]) eqn:Ed;
        [by destruct d|].
      rewrite <- Ed, length_app. cbn. lia. }
  destruct Hrest as (s' & Hp & He). exists s'. split; [|done].
  pose proof (parses_step s (value o) s1 _ s' H1 Hv Hp) as Hq. rewrite Ho1 in Hq. exact Hq.
Qed.

(** A usage that is one option. *)
Lemma one_collects i i' v a l e :
  (∀ s, ready s i 0 → ∃ s1, next s = (Ok v, s1) ∧ optarg_ s1 = a ∧ ready s1 i' 0) → v ≠ -1 →
  collects i' l e → collects i ((v, a) :: l) e.
Proof.
  intros Hn Hv Hl s Hs. destruct (Hn s Hs) as (s1 & H1 & <- & Hr). destruct (Hl s1 Hr) as (s' & Hp & He).
  exists s'. split; [|done]. by eapply parses_step.
Qed.

(** What a usage of an option gives. *)
Definition usage_gives (u : usage) : Prop := ∀ pre post l e,
  usage_ok u → argv = pre ++ render u ++ post → (1 ≤ length pre)%nat →
  collects (Z.of_nat (length pre + length (render u))) l e →
  collects (Z.of_nat (length pre)) (results u ++ l) e.
Lemma usage_group os : usage_gives (Group os).
Proof.
  intros pre post l e Hok E Hpre Hl. cbn [render results app usage_ok length] in *.
  destruct Hok as [Hne Hall]. intros s Hs.
  replace (Z.of_nat (length pre + 1)) with (Z.of_nat (length pre) + 1) in Hl by lia.
  apply (group_collects pre post os []); try done. set_solver.
Qed.
Lemma usage_short_glued o v : usage_gives (ShortGlued o v).
Proof.
  intros pre post l e Hok E Hpre Hl. cbn [render results app usage_ok length] in *.
  destruct Hok as ((Ht & Hf & Hv) & (Hs1 & Hs2 & Hs3) & Hne & Hnul).
  destruct (argv_at _ _ _ E) as (Ha & Hlen & Hi).
  eapply one_collects; [|done|exact Hl]. intros [i p oa op m] [Hi0 Hp0]. cbn in Hi0, Hp0. subst i p.
  rewrite (next_short _ 0 oa op m _ (name_short o) v Ha eq_refl) by (done || lia).
  rewrite (short_option_ok _ 0 m _ (name_short o) o 1 Ha); try done;
    [|rewrite !elem_of_cons; intros [?|[?|?]]; congruence || done].
  rewrite decide_False by (destruct v; cbn; [done|lia]).
  rewrite (handle_required _ _ _ _ _ _ _ Ht Hf Ha) by (cbn; lia).
  eexists. split_and!; [done|done|]. split; cbn; lia.
Qed.
Lemma usage_short_sep o v : usage_gives (ShortSep o v).
Proof.
  intros pre post l e Hok E Hpre Hl. cbn [render results app usage_ok length] in *.
  destruct Hok as ((Ht & Hf & Hv) & (Hs1 & Hs2 & Hs3)).
  destruct (argv_at _ _ _ E) as (Ha & Hlen & Hi).
  destruct (argv_at (pre ++ [[dash; name_short o]]) v post) as (Ha2 & Hlen2 & Hi2);
    [by rewrite <- app_assoc|].
  rewrite length_app in Ha2, Hi2. cbn [length] in Ha2, Hi2.
  eapply one_collects; [|done|exact Hl]. intros [i p oa op m] [Hi0 Hp0]. cbn in Hi0, Hp0. subst i p.
  rewrite (next_short _ 0 oa op m _ (name_short o) [] Ha eq_refl) by (done || lia).
  rewrite (short_option_ok _ 0 m _ (name_short o) o 1 Ha); try done;
    [|rewrite !elem_of_cons, elem_of_nil; intros [?|[?|?]]; congruence || done].
  rewrite decide_True by done.
  replace (Z.of_nat (length pre) + 1) with (Z.of_nat (length pre + 1)) by lia.
  rewrite (handle_required _ _ _ _ _ _ _ Ht Hf Ha2) by lia.
  eexists. split_and!; [done|done|]. split; cbn; lia.
Qed.
Lemma usage_long o : usage_gives (Long o).
Proof.
  intros pre post l e Hok E Hpre Hl. cbn [render results app usage_ok length] in *.
  destruct Hok as ((Ht & Hf & Hv) & (Hs1 & Hs2 & Hs3 & Hs4)).
  destruct (argv_at _ _ _ E) as (Ha & Hlen & Hi).
  eapply one_collects; [|done|exact Hl]. intros [i p oa op m] [Hi0 Hp0]. cbn in Hi0, Hp0. subst i p.
  destruct (long_name o) as [|c2 r] eqn:En; [done|].
  rewrite (next_long _ 0 oa op m _ c2 r Ha eq_refl) by (naive_solver || lia).
  rewrite (long_option_plain _ 0 m _ (c2 :: r) o Ha) by done. rewrite handle_no_arg by done.
  eexists. split_and!; [done|done|]. split; cbn; lia.
Qed.
Lemma usage_long_eq o v : usage_gives (LongEq o v).
Proof.
  intros pre post l e Hok E Hpre Hl. cbn [render results app usage_ok length] in *.
  destruct Hok as ((Ht & Hf & Hv) & (Hs1 & Hs2 & Hs3 & Hs4)).
  destruct (argv_at _ _ _ E) as (Ha & Hlen & Hi).
  eapply one_collects; [|done|exact Hl]. intros [i p oa op m] [Hi0 Hp0]. cbn in Hi0, Hp0. subst i p.
  assert (Hnext : next (Getopt (Z.of_nat (length pre)) 0 oa op m) =
    long_option (Z.of_nat (length pre)) (Getopt (Z.of_nat (length pre)) 0 None None m)).
  { destruct (long_name o) as [|c2 r] eqn:En; [done|].
    apply (next_long _ 0 oa op m _ c2 (r ++ "="%char :: v) Ha eq_refl); [naive_solver|lia]. }
  rewrite Hnext. rewrite (long_option_eq _ 0 m _ (long_name o) v o Ha) by done.
  rewrite (handle_required _ _ _ _ _ _ _ Ht Hf Ha) by (cbn [length]; rewrite ?length_app;
    cbn [length]; lia).
  eexists. split_and!; [done| |split; cbn; lia]. cbn [optarg_]. f_equal.
  replace (Z.to_nat (2 + Z.of_nat (length (long_name o)) + 1))
    with (S (S (S (length (long_name o))))) by lia.
  cbn [drop]. change ("="%char :: v) with (["="%char] ++ v). rewrite app_assoc.
  rewrite drop_app_length'; [done|]. rewrite length_app. cbn. lia.
Qed.
Lemma usage_long_sep o v : usage_gives (LongSep o v).
Proof.
  intros pre post l e Hok E Hpre Hl. cbn [render results app usage_ok length] in *.
  destruct Hok as ((Ht & Hf & Hv) & (Hs1 & Hs2 & Hs3 & Hs4)).
  destruct (argv_at _ _ _ E) as (Ha & Hlen & Hi).
  destruct (argv_at (pre ++ [dash :: dash :: long_name o]) v post) as (Ha2 & Hlen2 & Hi2);
    [by rewrite <- app_assoc|].
  rewrite length_app in Ha2, Hi2. cbn [length] in Ha2, Hi2.
  eapply one_collects; [|done|exact Hl]. intros [i p oa op m] [Hi0 Hp0]. cbn in Hi0, Hp0. subst i p.
  destruct (long_name o) as [|c2 r] eqn:En; [done|].
  rewrite (next_long _ 0 oa op m _ c2 r Ha eq_refl) by (naive_solver || lia).
  rewrite (long_option_plain _ 0 m _ (c2 :: r) o Ha) by done.
  replace (Z.of_nat (length pre) + 1) with (Z.of_nat (length pre + 1)) by lia.
  rewrite (handle_required _ _ _ _ _ _ _ Ht Hf Ha2) by lia.
  eexists. split_and!; [done|done|]. split; cbn; lia.
Qed.
Lemma usage_collects u : usage_gives u.
Proof.
  destruct u; [apply usage_group|apply usage_short_glued|apply usage_short_sep|apply usage_long
    |apply usage_long_eq|apply usage_long_sep].
Qed.

(** The arguments behind the options: none, an operand, [-], or [--], which is
    skipped; the number of arguments the stop consumes. *)
Definition stop (rest : list str) : option Z :=
  match rest with
  | [] => Some 0
  | a :: _ => if decide (a = [dash; dash]) then Some 1
              else match a with
                   | c0 :: c1 :: _ => if decide (c0 = dash) then None else Some 0
                   | _ => Some 0
                   end
  end.

Lemma stop_collects pre rest k :
  argv = pre ++ rest → (1 ≤ length pre)%nat → stop rest = Some k →
  collects (Z.of_nat (length pre)) [] (Z.of_nat (length pre) + k).
Proof.
  intros E Hpre Hk [i p oa op m] [Hi Hp]. cbn in Hi, Hp. subst i p.
  assert (Hnext : ∃ s', next (Getopt (Z.of_nat (length pre)) 0 oa op m) = (Ok (-1), s') ∧
    optind_ s' = Z.of_nat (length pre) + k).
  { unfold next, set_optarg, set_opt. rewrite !bind_modify, bind_gets.
      cbn [optind_ optpos_ optarg_ opt_ ints].
    rewrite (proj2 (Z.eqb_neq _ 0)) by lia. rewrite bind_ret_l, bind_gets. cbn [optind_].
    destruct rest as [|a rest].
    { injection Hk as <-. rewrite (proj2 (Z.leb_le size _)).
      - eexists. split; [done|]. cbn. lia.
      - unfold size. rewrite E, length_app. cbn. lia. }
    destruct (argv_at _ _ _ E) as (Ha & _ & Hi). rewrite (proj2 (Z.leb_gt size _)).
    2:{ unfold size. rewrite E, length_app. cbn. lia. }
    cbn [stop] in Hk. destruct (decide (a = [dash; dash])) as [->|Hne].
    - injection Hk as <-. erewrite bind_ok; [|eapply arg_char_ok; [exact Ha|reflexivity]].
      rewrite bool_decide_true by done. cbn [negb].
      erewrite bind_ok; [|eapply arg_char_ok; [exact Ha|reflexivity]].
      rewrite (decide_False (P := dash = nul)), (decide_True (P := dash = dash)) by done.
      erewrite bind_ok; [|exact (arg_char_end _ _ _ Ha)]. rewrite decide_True by done.
      unfold set_optind. rewrite bind_modify. eexists. split; [done|]. cbn. by rewrite u64_small.
    - assert (k = 0) as -> by (destruct a as [|c0 [|c1 a]]; [| |destruct (decide (c0 = dash))];
        naive_solver).
      destruct a as [|c0 a].
      { erewrite bind_ok; [|exact (arg_char_end _ _ _ Ha)]. rewrite bool_decide_false by done.
        eexists. split; [done|]. cbn. lia. }
      erewrite bind_ok; [|eapply arg_char_ok; [exact Ha|reflexivity]].
      destruct (decide (c0 = dash)) as [->|Hc].
      + rewrite bool_decide_true by done. cbn [negb]. destruct a as [|c1 a]; [|done].
        erewrite bind_ok; [|exact (arg_char_end _ _ _ Ha)]. rewrite decide_True by done.
        eexists. split; [done|]. cbn. lia.
      + rewrite bool_decide_false by done. eexists. split; [done|]. cbn. lia. }
  destruct Hnext as (s' & Hn & He). exists s'. split; [|done]. by apply parses_stop.
Qed.

Lemma usages_collect us : ∀ pre rest k,
  Forall usage_ok us → argv = pre ++ concat (render <$> us) ++ rest → (1 ≤ length pre)%nat →
    stop rest = Some k →
  collects (Z.of_nat (length pre)) (concat (results <$> us))
    (Z.of_nat (length pre + length (concat (render <$> us))) + k).
Proof.
  induction us as [|u us IH]; intros pre rest k Hok E Hpre Hk; cbn [fmap list_fmap concat] in *.
  { rewrite Nat.add_0_r. by eapply stop_collects. }
  apply Forall_cons in Hok as [Hu Hus]. rewrite <- app_assoc in E.
  eapply usage_collects; [exact Hu|exact E|done|].
  rewrite (length_app (render u)), Nat.add_assoc, <- length_app.
  eapply IH; [done|by rewrite <- app_assoc| |done].
  rewrite length_app. lia.
Qed.

(** The first call starts behind the program's name. *)
Lemma next_start oa op m : next (Getopt 0 0 oa op m) = next (Getopt 1 0 oa op m).
Proof. reflexivity. Qed.
Lemma parse_all_start fuel m :
  parse_all (S fuel) (Getopt 0 0 None None m) = parse_all (S fuel) (Getopt 1 0 None None m).
Proof. reflexivity. Qed.

(** C13: the parser recovers options without an argument and options with a required
    argument from a command line.  For a program name, any sequence of such options ([usage_ok]: they
    are found under their names and report a value other than -1) written as groups [-abc],
    with a glued or separate argument, or as long names with [=] or a separate argument, and
    then operands, the documented loop ends and returns exactly the values and arguments of the
    options in order; the parser stands at the first operand.  Options with an optional
    argument and unknown options are not among them: the code goes wrong there. *)
Theorem getopt_roundtrip prog us rest k m fuel :
  Forall usage_ok us → argv = prog :: concat (render <$> us) ++ rest → stop rest = Some k →
  (length (concat (results <$> us)) < fuel)%nat →
  ∃ s', parse_all fuel (Getopt 0 0 None None m) = (Ok (concat (results <$> us)), s') ∧
    optind_ s' = 1 + Z.of_nat (length (concat (render <$> us))) + k.
Proof.
  intros Hok E Hk Hf.
  destruct (usages_collect us [prog] rest k Hok E ltac:(cbn; lia) Hk (Getopt 1 0 None None m))
    as (s' & Hp & He);
    [done|]. exists s'. split; [|rewrite He; cbn [length]; lia].
  destruct fuel as [|fuel]; [lia|]. rewrite parse_all_start. by apply Hp.
Qed.

(** A call that reports something and leaves the position as it was, for ever. *)
Lemma parse_all_stuck s v :
  v ≠ -1 → (∀ oa op, ∃ oa' op', next (Getopt 1 0 oa op (ints s)) = (Ok v, Getopt 1 0 oa' op' (ints s))) →
  ∀ fuel oa op, fst (parse_all fuel (Getopt 1 0 oa op (ints s))) = NoFuel.
Proof.
  intros Hv Hn. induction fuel as [|fuel IH]; intros oa op; [done|]. cbn [parse_all].
  destruct (Hn oa op) as (oa' & op' & E). run E. rewrite (proj2 (Z.eqb_neq _ _) Hv), bind_gets.
  specialize (IH oa' op'). unfold bind. destruct (parse_all fuel _) as [[] ?]; done.
Qed.

(** An unknown long option makes the documented loop run for ever: the parser
    reports it without moving on. *)
Theorem getopt_unknown_long_loops a c r m fuel :
  argv !! 1%nat = Some a → a = dash :: dash :: c :: r → c ≠ nul →
  find_long (match find_eq (c :: r) with Some k => take k (c :: r) | None => c :: r end) = None →
  fst (parse_all fuel (Getopt 0 0 None None m)) = NoFuel.
Proof.
  intros Ha -> Hc Hno. destruct fuel as [|fuel]; [done|]. rewrite parse_all_start.
  apply (parse_all_stuck (Getopt 1 0 None None m) question); [done|]. intros oa op. exists None, None.
  rewrite (next_long 1 0 oa op _ _ c r Ha eq_refl Hc) by lia. unfold long_option.
  erewrite bind_ok; [|eapply (arg_suffix_ok 1); [exact Ha|cbn; lia]].
  change (drop (Z.to_nat 2) (dash :: dash :: c :: r)) with (c :: r). by rewrite Hno.
Qed.

End getopt.

(** ** Help text *)

Definition pad (n : nat) (s : str) : str := s ++ replicate (n - length s) " "%char.
Definition tab : ascii := chr 9.
Definition newline : ascii := chr 10.

(** One line of [operator<<]. *)
Definition print_option (o : getopt_option) : str :=
  let long_name := match name o with Some n => lit "--" ++ n | None => [] end in
  let argument :=
    match type o with
    | optional => lit " [" ++ default (lit "arg") (value_desc o) ++ lit "]"
    | required => lit " " ++ default (lit "arg") (value_desc o)
    | _ => []
    end in
  lit "  " ++
  (if decide (name_short o = nul) then [] else [dash; name_short o]) ++
  match name o with
  | Some _ => if decide (name_short o = nul) then lit "    " else lit ", "
  | None => []
  end ++
  pad 20 (long_name ++ argument) ++ [tab] ++ default [] (desc o) ++ [newline].

Fixpoint print_loop (opts : list getopt_option) : str :=
  match opts with
  | [] => []
  | o :: opts =>
      if bool_decide (name o = None) && bool_decide (name_short o = nul) then []
      else print_option o ++ print_loop opts
  end.
Definition print_options (opts : list getopt_option) : str :=
    lit "Options:" ++ [newline] ++ print_loop opts.

(** ** An example *)

Definition help_opt : getopt_option := Option (Some (lit "help")) "h" no_arg None 104 None None.
Definition quiet_opt : getopt_option := Option None "q" no_arg None 113 None None.
Definition output_opt : getopt_option := Option (Some (lit "output")) "o" required None 111 None None.
Definition sample_opts : list getopt_option := [help_opt; quiet_opt; output_opt].
Definition sample_usages : list usage :=
  [Group [help_opt; quiet_opt]; ShortGlued output_opt (lit "x"); ShortSep output_opt (lit "-y");
   Long help_opt; LongEq output_opt (lit "a=b"); LongSep output_opt (lit "z")].
Definition sample_argv : list str :=
  lit "prog" :: concat (render <$> sample_usages) ++ [lit "--"; lit "file"].

Ltac solve_usage :=
  repeat first [done | split | (intros Hin; vm_compute in Hin; set_solver) |
    (apply (bool_decide_eq_true_1 _); vm_compute; reflexivity)
               | (vm_compute; reflexivity) | (vm_compute; discriminate)].

Lemma getopt_roundtrip_witness :
  ∃ s', parse_all sample_argv sample_opts 20 (Getopt 0 0 None None ∅) =
    (Ok [(104, None); (113, None); (111, Some (lit "x")); (111, Some (lit "-y")); (104, None);
         (111, Some (lit "a=b")); (111, Some (lit "z"))], s') ∧ optind_ s' = 10.
Proof.
  apply (getopt_roundtrip sample_argv sample_opts) with (prog := lit "prog") (us := sample_usages)
    (rest := [lit "--"; lit "file"]) (k := 1).
  - split; [vm_compute; reflexivity|]. unfold sample_argv, sample_usages.
    repeat constructor; vm_compute; reflexivity.
  - unfold sample_usages. repeat (apply Forall_cons; split); [..|by apply Forall_nil]; cbn [usage_ok].
    + split; [done|]. repeat (apply Forall_cons; split); [..|by apply Forall_nil]; solve_usage.
    + solve_usage.
    + solve_usage.
    + solve_usage.
    + solve_usage.
    + solve_usage.
  - reflexivity.
  - reflexivity.
  - vm_compute. lia.
Defined.

Lemma getopt_unknown_long_witness :
  fst (parse_all [lit "prog"; lit "--nope"] sample_opts 1000 (Getopt 0 0 None None ∅)) = NoFuel.
Proof.
  apply (getopt_unknown_long_loops [lit "prog";
    lit "--nope"] sample_opts (lit "--nope") "n" (lit "ope"));
    [reflexivity|reflexivity|discriminate|vm_compute; reflexivity].
Defined.

End Opt.
