(* ===== verification/Dynarray.v ===== *)
(** * Dynamic array (dynarray.hpp)

    [buffers] maps the address of an allocated buffer to its cells, [None] where no
    element lives; [0] is the null pointer.  [arrays] holds the members of every
    array object.  Allocation may fail with [std::bad_alloc].  Constructing an element
    may throw: [budget] is the number of constructions that still succeed, and the
    exception of the element type is [runtime_error].  Allocators are always equal, as
    with [default_allocator]; a value given to [push_back] or [resize] does not live in
    the array itself. *)

From S2P Require Import Prelude.

Local Open Scope Z_scope.
Local Open Scope gpcl_scope.

Record array : Type := Array { data_ : Z; size_ : Z; capacity_ : Z }.

(** The allocator: the address of a new buffer of [n] elements. *)
Class BufferAlloc (V : Type) : Type := buffer_alloc : gmap Z (list (option V)) → Z → option Z.
Class BufferAllocOk (V : Type) `{!BufferAlloc V} : Prop :=
  buffer_alloc_fresh m n a : buffer_alloc m n = Some a → a ≠ 0 ∧ m !! a = None.

Module Dyn.

Section dynarray.
Context {V : Type}.

Record state : Type := State {
  buffers : gmap Z (list (option V));
  arrays : gmap Z array;
  budget : nat;
}.

Abbreviation D A := (M state A).

(** ** Buffers *)

Definition set_buffer (p : Z) (cells : list (option V)) : D unit :=
  modify (λ s, State (<[p := cells]> (buffers s)) (arrays s) (budget s)).
Definition allocate `{!BufferAlloc V} (n : Z) : D Z :=
  λ s, match buffer_alloc (buffers s) n with
       | Some a => (Ok a, State (<[a := replicate (Z.to_nat n) None]> (buffers s)) (arrays s) (budget s))
       | None => (Throw bad_alloc, s)
       end.
Definition deallocate (p n : Z) : D unit :=
  if p =? 0 then ret tt else
  λ s, match buffers s !! p with
       | Some cells => if Z.of_nat (length cells) =? n
                       then (Ok tt, State (delete p (buffers s)) (arrays s) (budget s))
                       else (Undef, s)
       | None => (Undef, s)
       end.
(** [construct(&p[i], v)], [destroy(&p[i])] and the value of [p[i]]. *)
Definition construct (p i : Z) (v : V) : D unit :=
  λ s, match buffers s !! p with
       | Some cells =>
           match cells !! Z.to_nat i, budget s with
           | None, _ => (Undef, s)
           | Some _, O => (Throw runtime_error, s)
           | Some _, S b =>
               (Ok tt, State (<[p := <[Z.to_nat i := Some v]> cells]> (buffers s)) (arrays s) b)
           end
       | None => (Undef, s)
       end.
Definition destroy (p i : Z) : D unit :=
  λ s, match buffers s !! p ≫= λ cells, cells !! Z.to_nat i with
       | Some (Some _) =>
           (Ok tt, State (alter (λ cells, <[Z.to_nat i := None]> cells) p (buffers s)) (arrays s) (budget s))
       | _ => (Undef, s)
       end.
Definition load (p i : Z) : D V :=
  λ s, match buffers s !! p ≫= λ cells, cells !! Z.to_nat i with
       | Some (Some v) => (Ok v, s)
       | _ => (Undef, s)
       end.

(** Copy assignment of an element. *)
Definition element_assign (p i : Z) (v : V) : D unit :=
  λ s, match buffers s !! p ≫= λ cells, cells !! Z.to_nat i with
       | Some (Some _) =>
           (Ok tt, State (alter (λ cells, <[Z.to_nat i := Some v]> cells) p (buffers s)) (arrays s) (budget s))
       | _ => (Undef, s)
       end.

(** ** Members *)

Definition self (this : Z) : D array :=
  λ s, match arrays s !! this with Some a => (Ok a, s) | None => (Undef, s) end.
Definition set_self (this : Z) (a : array) : D unit :=
  modify (λ s, State (buffers s) (<[this := a]> (arrays s)) (budget s)).
Definition set_size (this n : Z) : D unit :=
  let! a := self this in set_self this (Array (data_ a) (u64 n) (capacity_ a)).

(** [while (size_ > num_to_keep) { destroy(&data[size_ - 1]); --size_; }]. *)
Fixpoint keep_loop (fuel : nat) (this num_to_keep : Z) : D unit :=
  match fuel with
  | O => nofuel
  | S fuel =>
      let! a := self this in
      if num_to_keep <? size_ a then
        destroy (data_ a) (size_ a - 1) ;;;
        set_size this (size_ a - 1) ;;;
        keep_loop fuel this num_to_keep
      else ret tt
  end.
Definition keep_first_n (this num_to_keep : Z) : D unit :=
  let! a := self this in
  gpcl_assert (num_to_keep <=? size_ a) ;;;
  keep_loop (S (Z.to_nat (size_ a))) this num_to_keep.
Definition clear (this : Z) : D unit := keep_first_n this 0.
Definition release (this : Z) : D unit :=
  clear this ;;;
  let! a := self this in
  deallocate (data_ a) (capacity_ a) ;;;
  set_self this (Array 0 (size_ a) 0).

(** A constructor: an exception ends the object under construction. *)
Definition constructor (this : Z) (body : D unit) : D unit :=
  try_catch body (modify (λ s, State (buffers s) (delete this (arrays s)) (budget s))).

(** The elements of a range: [src i] is the value of [first[i]]. *)
Abbreviation source := (Z → D V).
Definition values (vs : list V) : source :=
  λ i s, match vs !! Z.to_nat i with Some v => (Ok v, s) | None => (Undef, s) end.

(** [n] rounds of the loops that fill an array:
    [construct(&s[size_], src[size_]); ++size_]. *)
Fixpoint fill_loop (n : nat) (this : Z) (src : source) : D unit :=
  match n with
  | O => ret tt
  | S n =>
      let! a := self this in
      let! v := src (size_ a) in
      construct (data_ a) (size_ a) v ;;;
      set_size this (size_ a + 1) ;;;
      fill_loop n this src
  end.

Context `{!BufferAlloc V}.

Definition default_construct (this : Z) : D unit := set_self this (Array 0 0 0).
(** [dynarray(first, last)] of a range of [n] elements, [dynarray(n)] with the default
    element [v0], [dynarray(init)] and [dynarray(const dynarray &)]. *)
Definition construct_range (this n : Z) (src : source) : D unit :=
  constructor this
    (set_self this (Array 0 0 n) ;;;
     let! p := allocate n in
     set_self this (Array p 0 n) ;;;
     try_catch (fill_loop (Z.to_nat n) this src) (release this)).
Definition construct_count (v0 : V) (this n : Z) : D unit :=
  construct_range this n (λ _, ret v0).
Definition construct_init (this : Z) (init : list V) : D unit :=
  construct_range this (Z.of_nat (length init)) (values init).
Definition copy_construct (this other : Z) : D unit :=
  let! o := self other in
  construct_range this (size_ o) (load (data_ o)).
Definition move_construct (this other : Z) : D unit :=
  let! o := self other in
  set_self this o ;;;
  set_self other (Array 0 0 0).
(** [~dynarray()]. *)
Definition destruct_ (this : Z) : D unit :=
  release this ;;;
  modify (λ s, State (buffers s) (delete this (arrays s)) (budget s)).

Definition swap (this other : Z) : D unit :=
  let! a := self this in
  let! o := self other in
  set_self this o ;;; set_self other a.

(** [( *this)[i] = *first++] from [i] on, [n] times. *)
Fixpoint assign_loop (n : nat) (this i : Z) (src : source) : D unit :=
  match n with
  | O => ret tt
  | S n =>
      let! a := self this in
      gpcl_assert (i <? size_ a) ;;;
      let! v := src i in
      element_assign (data_ a) i v ;;;
      assign_loop n this (i + 1) src
  end.
(** [assign(first, last, alloc)] with allocators that are always equal; [tmp] is the
    place of the temporary, [nothrow] is [is_nothrow_copy_assignable<T>]. *)
Definition assign_range (nothrow : bool) (tmp this count : Z) (src : source) : D unit :=
  let! a := self this in
  if (size_ a <? count) || negb nothrow then
    construct_range tmp count src ;;;
    swap tmp this ;;;
    destruct_ tmp
  else
    keep_first_n this count ;;;
    assign_loop (Z.to_nat count) this 0 src.
Definition copy_assign (nothrow : bool) (tmp this other : Z) : D unit :=
  let! o := self other in
  assign_range nothrow tmp this (size_ o) (load (data_ o)).
Definition init_assign (nothrow : bool) (tmp this : Z) (il : list V) : D unit :=
  assign_range nothrow tmp this (Z.of_nat (length il)) (values il).
Definition move_assign (this other : Z) : D unit := swap this other.
Definition shrink_to_fit (tmp this : Z) : D unit :=
  copy_construct tmp this ;;;
  swap tmp this ;;;
  destruct_ tmp.

(** The loop of [reserve] that destroys the old elements, last one first. *)
Fixpoint destroy_backup (n : nat) (p : Z) : D unit :=
  match n with
  | O => ret tt
  | S n => destroy p (Z.of_nat n) ;;; destroy_backup n p
  end.

Definition reserve (this n : Z) : D unit :=
  let! backup := self this in
  if n <=? capacity_ backup then ret tt else
  set_self this (Array (data_ backup) 0 n) ;;;
  let! s := allocate n in
  set_self this (Array s 0 n) ;;;
  try_catch
    (fill_loop (Z.to_nat (size_ backup)) this (load (data_ backup)) ;;;
     destroy_backup (Z.to_nat (size_ backup)) (data_ backup) ;;;
     deallocate (data_ backup) (capacity_ backup))
    (release this ;;; set_self this backup) ;;;
  let! a := self this in
  gpcl_assert (n <=? capacity_ a).

Definition grow (this n : Z) : D unit :=
  let! a := self this in
  (if (capacity_ a =? 0) && negb (n =? 0) then reserve this n
   else if capacity_ a <? n then
     reserve this (u64 (u64 (n + capacity_ a - 1) / capacity_ a * capacity_ a))
   else ret tt) ;;;
  let! a := self this in
  gpcl_assert (n <=? capacity_ a).

(** [resize(n, x)]; [resize(n)] is the same with the default element. *)
Definition resize (this n : Z) (x : V) : D unit :=
  reserve this n ;;;
  let! a := self this in
  if n <=? size_ a then keep_first_n this n
  else try_catch (fill_loop (Z.to_nat (n - size_ a)) this (λ _, ret x)) (keep_first_n this (size_ a)).

Definition at_ (this i : Z) : D V :=
  let! a := self this in
  if i <? size_ a then load (data_ a) i else throw out_of_range.
Definition index (this i : Z) : D V :=
  let! a := self this in
  gpcl_assert (i <? size_ a) ;;; load (data_ a) i.
Definition front (this : Z) : D V :=
  let! a := self this in
  gpcl_assert (negb (size_ a =? 0)) ;;; load (data_ a) 0.
Definition back (this : Z) : D V :=
  let! a := self this in
  gpcl_assert (negb (size_ a =? 0)) ;;; load (data_ a) (size_ a - 1).

(** [emplace_back], [push_back]. *)
Definition push_back (this : Z) (x : V) : D unit :=
  let! a := self this in
  grow this (u64 (size_ a + 1)) ;;;
  let! a := self this in
  construct (data_ a) (size_ a) x ;;;
  set_size this (size_ a + 1) ;;;
  back this ;;; ret tt.
Definition pop_back (v0 : V) (this : Z) : D unit :=
  noexcept
    (let! a := self this in
     construct (data_ a) (size_ a) v0 ;;;
     set_size this (size_ a - 1)).

(** ** Representation *)

(** A buffer with the elements [l] and room for [k] more. *)
Definition cells (l : list V) (k : nat) : list (option V) := (Some <$> l) ++ replicate k None.

(** The array at [this] has the elements [l], its buffer at [p], room for [k] more. *)
Record rep (s : state) (this p : Z) (l : list V) (k : nat) : Prop := {
  rep_self : arrays s !! this = Some (Array p (Z.of_nat (length l)) (Z.of_nat (length l + k)));
  rep_data : (p = 0 ∧ l = [] ∧ k = O) ∨ (p ≠ 0 ∧ buffers s !! p = Some (cells l k));
  rep_null : buffers s !! 0 = None;
  rep_small : Z.of_nat (length l + k) < 2 ^ 63;
}.

Ltac run H := rewrite (bind_ok _ _ _ _ _ H).

Lemma length_cells l k : length (cells l k) = (length l + k)%nat.
Proof. unfold cells. by rewrite length_app, length_fmap, length_replicate. Qed.
Lemma cells_snoc l k v : cells (l ++ [v]) k = (Some <$> l) ++ Some v :: replicate k None.
Proof. unfold cells. by rewrite fmap_app, <- app_assoc. Qed.
Lemma cells_insert l k v : <[length l := Some v]> (cells l (S k)) = cells (l ++ [v]) k.
Proof.
  rewrite cells_snoc. unfold cells. cbn [replicate].
  rewrite <- (length_fmap (@Some V) l) at 1. by rewrite insert_app_r_alt, Nat.sub_diag by lia.
Qed.
Lemma cells_remove l k v : <[length l := None]> (cells (l ++ [v]) k) = cells l (S k).
Proof.
  rewrite cells_snoc. unfold cells. cbn [replicate].
  rewrite <- (length_fmap (@Some V) l) at 1. by rewrite insert_app_r_alt, Nat.sub_diag by lia.
Qed.
Lemma cells_lookup l k i v : l !! i = Some v → cells l k !! i = Some (Some v).
Proof.
  intros Hi. unfold cells. rewrite lookup_app_l.
  - by rewrite list_lookup_fmap, Hi.
  - rewrite length_fmap. by eapply lookup_lt_Some.
Qed.

Lemma self_ok s this a : arrays s !! this = Some a → self this s = (Ok a, s).
Proof. intros H. unfold self. by rewrite H. Qed.
Lemma array_load_ok s p l k i v :
  buffers s !! p = Some (cells l k) → l !! Z.to_nat i = Some v → load p i s = (Ok v, s).
Proof. intros H Hi. unfold load. rewrite H. cbn. by rewrite (cells_lookup l k _ v Hi). Qed.

(** The element type's constructor succeeds, or throws. *)
Lemma construct_ok bufs arrs b p l k v :
  bufs !! p = Some (cells l (S k)) →
  construct p (Z.of_nat (length l)) v (State bufs arrs b) =
    match b with
    | O => (Throw runtime_error, State bufs arrs b)
    | S b => (Ok tt, State (<[p := cells (l ++ [v]) k]> bufs) arrs b)
    end.
Proof.
  intros H. unfold construct. cbn [buffers]. rewrite H, Nat2Z.id.
  destruct (lookup_lt_is_Some_2 (cells l (S k)) (length l)) as [c Hc]; [rewrite length_cells; lia|].
  rewrite Hc. cbn [budget]. destruct b; [done|]. by rewrite cells_insert.
Qed.
Lemma destroy_ok bufs arrs b p l k v :
  bufs !! p = Some (cells (l ++ [v]) k) →
  destroy p (Z.of_nat (length l)) (State bufs arrs b) =
    (Ok tt, State (<[p := cells l (S k)]> bufs) arrs b).
Proof.
  intros H. unfold destroy. cbn [buffers]. rewrite H. cbn [mbind option_bind]. rewrite Nat2Z.id.
  rewrite (cells_lookup _ _ _ v) by (by rewrite list_lookup_middle). cbn [arrays budget]. do 2 f_equal.
  apply map_eq. intros q. destruct (decide (p = q)) as [<-|Hne].
  - by rewrite lookup_alter_eq, H, lookup_insert_eq; cbn; rewrite cells_remove.
  - by rewrite lookup_alter_ne, lookup_insert_ne.
Qed.

(** The size changes alone. *)
Lemma set_size_ok bufs arrs b this p n c m :
  arrs !! this = Some (Array p n c) → 0 ≤ m < 2 ^ 64 →
  set_size this m (State bufs arrs b) = (Ok tt, State bufs (<[this := Array p m c]> arrs) b).
Proof.
  intros Ha Hm. unfold set_size. run (self_ok (State bufs arrs b) this _ Ha).
  cbn [data_ capacity_]. by rewrite u64_small.
Qed.

(** [keep_first_n] destroys the elements from the end down to the [n]th. *)
Lemma keep_loop_run this p c l2 : ∀ fuel l1 k bufs arrs b,
  arrs !! this = Some (Array p (Z.of_nat (length (l1 ++ l2))) c) →
  bufs !! p = Some (cells (l1 ++ l2) k) → Z.of_nat (length (l1 ++ l2)) < 2 ^ 63 →
  (length l2 < fuel)%nat →
  keep_loop fuel this (Z.of_nat (length l1)) (State bufs arrs b) =
    (Ok tt, State (<[p := cells l1 (length l2 + k)]> bufs)
                  (<[this := Array p (Z.of_nat (length l1)) c]> arrs) b).
Proof.
  induction l2 as [|v l2 IH] using rev_ind; intros fuel l1 k bufs arrs b Ha Hb Hs Hf;
    (destruct fuel as [|fuel]; [cbn in Hf; lia|]); cbn [keep_loop].
  { rewrite app_nil_r in *. run (self_ok (State bufs arrs b) this _ Ha). cbn [size_].
    rewrite (proj2 (Z.ltb_ge _ _)) by lia. by rewrite !insert_id. }
  rewrite app_assoc in *. run (self_ok (State bufs arrs b) this _ Ha). cbn [size_ data_].
  rewrite !(length_app _ [v]) in *. cbn [length] in *.
  rewrite (proj2 (Z.ltb_lt _ _)) by (rewrite length_app; lia).
  replace (Z.of_nat (length (l1 ++ l2) + 1) - 1) with (Z.of_nat (length (l1 ++ l2))) by lia.
  run (destroy_ok bufs arrs b p (l1 ++ l2) k v Hb). erewrite bind_ok; [|eapply set_size_ok; [exact Ha|lia]].
  rewrite (IH fuel l1 (S k)); [|by rewrite lookup_insert_eq|by rewrite lookup_insert_eq|lia|lia].
  rewrite !insert_insert_eq. do 4 f_equal. lia.
Qed.
Lemma keep_first_n_run this p c l1 l2 k bufs arrs b :
  arrs !! this = Some (Array p (Z.of_nat (length (l1 ++ l2))) c) →
  bufs !! p = Some (cells (l1 ++ l2) k) → Z.of_nat (length (l1 ++ l2)) < 2 ^ 63 →
  keep_first_n this (Z.of_nat (length l1)) (State bufs arrs b) =
    (Ok tt, State (<[p := cells l1 (length l2 + k)]> bufs)
                  (<[this := Array p (Z.of_nat (length l1)) c]> arrs) b).
Proof.
  intros Ha Hb Hs. unfold keep_first_n. run (self_ok (State bufs arrs b) this _ Ha). cbn [size_].
  rewrite bind_assert by (apply Z.leb_le; rewrite length_app; lia). apply keep_loop_run; [done..|].
  rewrite length_app. lia.
Qed.

(** [release] of an array that owns a buffer. *)
Lemma release_run this p l k bufs arrs b :
  arrs !! this = Some (Array p (Z.of_nat (length l)) (Z.of_nat (length l + k))) →
  bufs !! p = Some (cells l k) → p ≠ 0 → Z.of_nat (length l + k) < 2 ^ 63 →
  release this (State bufs arrs b) = (Ok tt, State (delete p bufs) (<[this := Array 0 0 0]> arrs) b).
Proof.
  intros Ha Hb Hp Hs. unfold release, clear.
  erewrite bind_ok; [|eapply (keep_first_n_run this p _ [] l k); [exact Ha|exact Hb|cbn [app]; lia]].
  erewrite bind_ok; [|apply self_ok; cbn [arrays]; apply lookup_insert_eq].
  cbn [data_ size_ capacity_]. unfold deallocate. rewrite (proj2 (Z.eqb_neq _ _) Hp).
  erewrite bind_ok; cycle 1.
  { cbn [buffers]. rewrite lookup_insert_eq, length_cells. cbn [length Nat.add].
    rewrite Z.eqb_refl. reflexivity. }
  unfold set_self, modify. cbn [arrays buffers budget length].
  by rewrite delete_insert_eq, insert_insert_eq.
Qed.
(** [release] of an array without a buffer. *)
Lemma release_null this bufs arrs b :
  arrs !! this = Some (Array 0 0 0) → release this (State bufs arrs b) = (Ok tt, State bufs arrs b).
Proof.
  intros Ha. unfold release, clear, keep_first_n. rewrite bind_assoc.
  run (self_ok (State bufs arrs b) this _ Ha). cbn [size_]. rewrite bind_assoc, bind_assert by done.
  change (S (Z.to_nat 0)) with 1%nat. cbn [keep_loop]. rewrite bind_assoc.
  run (self_ok (State bufs arrs b) this _ Ha). cbn [size_ Z.ltb Z.compare]. rewrite bind_ret_l.
  run (self_ok (State bufs arrs b) this _ Ha). cbn [data_ capacity_ size_]. unfold deallocate. cbn [Z.eqb].
  rewrite bind_ret_l. unfold set_self, modify. cbn [arrays buffers budget]. by rewrite insert_id.
Qed.

(** A source that yields [l] from index [i] on, as long as only the buffer [p] changes. *)
Definition yields (src : source) (bufs : gmap Z (list (option V))) (p : Z) (i : nat) (l : list V) : Prop :=
  ∀ j v bufs' arrs' b', l !! j = Some v → (∀ q, q ≠ p → bufs' !! q = bufs !! q) →
  src (Z.of_nat (i + j)) (State bufs' arrs' b') = (Ok v, State bufs' arrs' b').

Lemma yields_load q bufs p l k :
  q ≠ p → bufs !! q = Some (cells l k) → yields (load q) bufs p 0 l.
Proof.
  intros Hqp Hb j v bufs' arrs' b' Hj Hbufs. apply (array_load_ok _ _ l k); [by rewrite <- Hb, <- Hbufs|].
  by rewrite Nat2Z.id.
Qed.
Lemma yields_values vs bufs p : yields (values vs) bufs p 0 vs.
Proof. intros j v bufs' arrs' b' Hj _. unfold values. cbn [Nat.add]. by rewrite Nat2Z.id, Hj. Qed.
Lemma yields_const x bufs p i n : yields (λ _, ret x) bufs p i (replicate n x).
Proof. intros j v bufs' arrs' b' [-> _]%lookup_replicate _. done. Qed.
Lemma yields_cons src bufs p i v l cs :
  yields src bufs p i (v :: l) → yields src (<[p := cs]> bufs) p (S i) l.
Proof.
  intros Hy j w bufs' arrs' b' Hj Hb. replace (S i + j)%nat with (i + S j)%nat by lia. apply Hy; [done|].
  intros q Hq. by rewrite Hb, lookup_insert_ne.
Qed.

(** The filling loop constructs all the elements, or as many as the element type
    allows and throws. *)
Lemma fill_loop_run this p c src l2 : ∀ l1 k bufs arrs b,
  arrs !! this = Some (Array p (Z.of_nat (length l1)) c) →
  bufs !! p = Some (cells l1 (length l2 + k)) → Z.of_nat (length (l1 ++ l2)) < 2 ^ 63 →
  yields src bufs p (length l1) l2 →
  fill_loop (length l2) this src (State bufs arrs b) =
    (if decide (length l2 ≤ b)%nat then Ok tt else Throw runtime_error,
     State (<[p := cells (l1 ++ take b l2) (length l2 - b + k)]> bufs)
           (<[this := Array p (Z.of_nat (length (l1 ++ take b l2))) c]> arrs) (b - length l2)).
Proof.
  induction l2 as [|v l2 IH]; intros l1 k bufs arrs b Ha Hb Hs Hy; cbn [length fill_loop].
  { rewrite take_nil, app_nil_r, Nat.sub_0_r. cbn [Nat.sub].
    rewrite decide_True by lia. by rewrite !insert_id. }
  run (self_ok (State bufs arrs b) this _ Ha). cbn [size_ data_].
  pose proof (Hy 0%nat v bufs arrs b eq_refl (λ _ _, eq_refl)) as Hv. rewrite Nat.add_0_r in Hv. run Hv.
  pose proof (construct_ok bufs arrs b p l1 (length l2 + k) v Hb) as Hc. destruct b as [|b].
  { unfold bind. rewrite Hc, decide_False by lia. cbn [take]. rewrite app_nil_r.
    by rewrite !insert_id. }
  run Hc. rewrite length_app in Hs. cbn [length] in Hs.
  erewrite bind_ok; [|eapply set_size_ok; [exact Ha|lia]].
  replace (Z.of_nat (length l1) + 1) with (Z.of_nat (length (l1 ++ [v]))) by (rewrite length_app; cbn; lia).
  rewrite (IH (l1 ++ [v]) k).
  - rewrite !insert_insert_eq, <- !app_assoc. cbn [app take Nat.sub].
    f_equal. do 2 case_decide; try done; lia.
  - by rewrite lookup_insert_eq.
  - by rewrite lookup_insert_eq.
  - rewrite !length_app. cbn [length]. lia.
  - replace (length (l1 ++ [v])) with (S (length l1)) by (rewrite length_app; cbn; lia). by apply (yields_cons _ _ _ _ v).
Qed.

(** ** The allocator *)

Lemma allocate_run bufs arrs b n :
  allocate n (State bufs arrs b) =
    match buffer_alloc bufs n with
    | Some p => (Ok p, State (<[p := cells [] (Z.to_nat n)]> bufs) arrs b)
    | None => (Throw bad_alloc, State bufs arrs b)
    end.
Proof. done. Qed.
Lemma deallocate_run bufs arrs b p cs n :
  bufs !! p = Some cs → p ≠ 0 → Z.of_nat (length cs) = n →
  deallocate p n (State bufs arrs b) = (Ok tt, State (delete p bufs) arrs b).
Proof.
  intros Hb Hp <-. unfold deallocate. rewrite (proj2 (Z.eqb_neq _ _) Hp). cbn [buffers].
  by rewrite Hb, Z.eqb_refl.
Qed.
Lemma destroy_backup_run p l : ∀ k bufs arrs b,
  bufs !! p = Some (cells l k) →
  destroy_backup (length l) p (State bufs arrs b) =
    (Ok tt, State (<[p := cells [] (length l + k)]> bufs) arrs b).
Proof.
  induction l as [|v l IH] using rev_ind; intros k bufs arrs b Hb.
  { cbn. by rewrite insert_id. }
  rewrite length_app, Nat.add_comm. cbn [length Nat.add destroy_backup].
  run (destroy_ok bufs arrs b p l k v Hb). rewrite (IH (S k)) by apply lookup_insert_eq.
  rewrite insert_insert_eq. do 4 f_equal. lia.
Qed.

Lemma yields_frame src bufs p i l cs : yields src bufs p i l → yields src (<[p := cs]> bufs) p i l.
Proof.
  intros Hy j v bufs' arrs' b' Hj Hb. apply Hy; [done|]. intros q Hq.
  by rewrite Hb, lookup_insert_ne.
Qed.

(** ** Construction and growth *)

Context `{!BufferAllocOk V}.

(** The new buffer is filled, or everything is as before. *)
Lemma fill_new this p c src l k bufs arrs b :
  bufs !! p = None → p ≠ 0 → c = Z.of_nat (length l + k) → c < 2 ^ 63 → yields src bufs p 0 l →
  fill_loop (length l) this src
    (State (<[p := cells [] (Z.to_nat c)]> bufs) (<[this := Array p 0 c]> arrs) b) =
  if decide (length l ≤ b)%nat
  then (Ok tt, State (<[p := cells l k]> bufs) (<[this := Array p (Z.of_nat (length l)) c]> arrs) (b - length l))
  else (Throw runtime_error,
        State (<[p := cells (take b l) (length l - b + k)]> bufs)
              (<[this := Array p (Z.of_nat b) c]> arrs) 0).
Proof.
  intros Hb Hp Hc Hs Hy.
  rewrite (fill_loop_run this p c src l [] k).
  - cbn [app]. rewrite !insert_insert_eq. case_decide as Hd.
    + rewrite take_ge by done. replace (length l - b)%nat with 0%nat by lia. done.
    + rewrite length_take, Nat.min_l by lia. replace (b - length l)%nat with 0%nat by lia. done.
  - by rewrite lookup_insert_eq.
  - rewrite lookup_insert_eq. do 2 f_equal. lia.
  - cbn [app]. lia.
  - by apply yields_frame.
Qed.
Lemma release_new this p c l k bufs arrs b :
  bufs !! p = None → p ≠ 0 → c = Z.of_nat (length l + k) → c < 2 ^ 63 → (b < length l)%nat →
  release this
    (State (<[p := cells (take b l) (length l - b + k)]> bufs) (<[this := Array p (Z.of_nat b) c]> arrs) 0) =
  (Ok tt, State bufs (<[this := Array 0 0 0]> arrs) 0).
Proof.
  intros Hb Hp Hc Hs Hl.
  rewrite (release_run this p (take b l) (length l - b + k)).
  - by rewrite delete_insert_id, insert_insert_eq.
  - rewrite lookup_insert_eq, length_take, Nat.min_l by lia. do 2 f_equal. lia.
  - apply lookup_insert_eq.
  - done.
  - rewrite length_take. lia.
Qed.

Lemma construct_range_run this src l bufs arrs b :
  (∀ p, bufs !! p = None → yields src bufs p 0 l) → Z.of_nat (length l) < 2 ^ 63 →
  construct_range this (Z.of_nat (length l)) src (State bufs arrs b) =
  match buffer_alloc bufs (Z.of_nat (length l)) with
  | None => (Throw bad_alloc, State bufs (delete this arrs) b)
  | Some p =>
      if decide (length l ≤ b)%nat
      then (Ok tt, State (<[p := cells l 0]> bufs)
              (<[this := Array p (Z.of_nat (length l)) (Z.of_nat (length l))]> arrs) (b - length l))
      else (Throw runtime_error, State bufs (delete this arrs) 0)
  end.
Proof.
  intros Hy Hs. unfold construct_range, constructor.
  pose proof (allocate_run bufs (<[this := Array 0 0 (Z.of_nat (length l))]> arrs) b (Z.of_nat (length l))) as Ha.
  destruct (buffer_alloc bufs (Z.of_nat (length l))) as [p|] eqn:Hp; cycle 1.
  { eapply try_throw.
    - unfold set_self. rewrite bind_modify. cbn [arrays buffers budget]. apply bind_throw, Ha.
    - unfold modify. cbn [arrays buffers budget]. by rewrite delete_insert_eq. }
  destruct (buffer_alloc_fresh _ _ _ Hp) as [Hp0 Hf].
  assert (Hlen : Z.of_nat (length l) = Z.of_nat (length l + 0)) by lia.
  pose proof (fill_new this p _ src l 0 bufs arrs b Hf Hp0 Hlen Hs (Hy p Hf)) as Hfill.
  rewrite Nat2Z.id in Ha, Hfill.
  case_decide as Hd.
  - apply try_ok. unfold set_self. rewrite bind_modify. cbn [arrays buffers budget].
    run Ha. rewrite bind_modify. cbn [arrays buffers budget]. rewrite insert_insert_eq, Nat2Z.id.
    apply try_ok. exact Hfill.
  - eapply try_throw.
    + unfold set_self. rewrite bind_modify. cbn [arrays buffers budget].
      run Ha. rewrite bind_modify. cbn [arrays buffers budget]. rewrite insert_insert_eq, Nat2Z.id.
      eapply try_throw; [exact Hfill|]. eapply release_new; try done; lia.
    + unfold modify. cbn [arrays buffers budget]. by rewrite delete_insert_eq.
Qed.

(** The old buffer is emptied and given back. *)
Lemma backup_gone p l k bufs arrs b :
  (p = 0 ∧ l = [] ∧ k = O) ∨ (p ≠ 0 ∧ bufs !! p = Some (cells l k)) → (p = 0 → bufs !! p = None) →
  (destroy_backup (length l) p ;;; deallocate p (Z.of_nat (length l + k))) (State bufs arrs b) =
  (Ok tt, State (delete p bufs) arrs b).
Proof.
  intros [(-> & -> & ->)|[Hp Hb]] H0.
  - unfold deallocate, bind. cbn. by rewrite delete_id by auto.
  - run (destroy_backup_run p l k bufs arrs b Hb).
    rewrite (deallocate_run _ _ _ p (cells [] (length l + k))); [by rewrite delete_insert_eq|apply lookup_insert_eq|done|].
    by rewrite length_cells.
Qed.

(** [reserve] beyond the capacity, on every branch. *)
Lemma reserve_run s this p l k n :
  rep s this p l k → Z.of_nat (length l + k) < n < 2 ^ 63 →
  reserve this n s =
  match buffer_alloc (buffers s) n with
  | None => (Throw bad_alloc, State (buffers s) (<[this := Array p 0 n]> (arrays s)) (budget s))
  | Some q =>
      if decide (length l ≤ budget s)%nat
      then (Ok tt, State (<[q := cells l (Z.to_nat n - length l)]> (delete p (buffers s)))
              (<[this := Array q (Z.of_nat (length l)) n]> (arrays s)) (budget s - length l))
      else (Throw runtime_error, State (buffers s) (arrays s) 0)
  end.
Proof.
  intros Hrep Hn. destruct s as [bufs arrs b]. destruct Hrep as [Ha Hd H0 Hs]. cbn [arrays buffers budget] in *.
  unfold reserve. run (self_ok (State bufs arrs b) this _ Ha). cbn [data_ size_ capacity_].
  rewrite (proj2 (Z.leb_gt _ _)) by lia.
  unfold set_self at 1. rewrite bind_modify. cbn [arrays buffers budget].
  pose proof (allocate_run bufs (<[this := Array p 0 n]> arrs) b n) as Hal.
  destruct (buffer_alloc bufs n) as [q|] eqn:Hq; [|by apply bind_throw].
  destruct (buffer_alloc_fresh _ _ _ Hq) as [Hq0 Hf]. run Hal.
  unfold set_self at 1. rewrite bind_modify. cbn [arrays buffers budget].
  rewrite insert_insert_eq, Nat2Z.id.
  assert (Hc : n = Z.of_nat (length l + (Z.to_nat n - length l))) by lia.
  assert (Hy : yields (load p) bufs q 0 l).
  { destruct Hd as [(-> & -> & ->)|[Hp0 Hb]]; [intros j v ? ? ? Hj; by rewrite lookup_nil in Hj|].
    apply (yields_load _ _ _ _ k); [|done]. intros ->. congruence. }
  pose proof (fill_new this q n (load p) l _ bufs arrs b Hf Hq0 Hc ltac:(lia) Hy) as Hfill.
  assert (Hpq : q ≠ p) by (destruct Hd as [(-> & _)|[? ?]]; congruence).
  case_decide as Hle.
  - erewrite bind_ok; cycle 1.
    { apply try_ok. run Hfill. rewrite backup_gone; [reflexivity| |].
      - destruct Hd as [?|[Hp0 Hb]]; [by left|right]. rewrite lookup_insert_ne by congruence. done.
      - intros ->. by rewrite lookup_insert_ne. }
    erewrite bind_ok; [|apply self_ok; cbn [arrays]; apply lookup_insert_eq].
    cbn [capacity_]. rewrite Z.leb_refl. cbn [gpcl_assert].
    unfold ret. do 2 f_equal. by rewrite delete_insert_ne.
  - apply bind_throw. eapply try_throw; [by apply bind_throw|].
    erewrite bind_ok; [|eapply release_new; try done; lia].
    unfold set_self, modify. cbn [arrays buffers budget]. by rewrite insert_insert_eq, insert_id.
Qed.

(** Only the array [this] and its buffer change: [p'] replaces [p]. *)
Definition only (this p p' : Z) (s s' : state) : Prop :=
  delete this (arrays s') = delete this (arrays s) ∧ delete p' (buffers s') = delete p (buffers s).

Lemma only_refl this p s : only this p p s s.
Proof. done. Qed.
Lemma only_trans this p1 p2 p3 s1 s2 s3 :
  only this p1 p2 s1 s2 → only this p2 p3 s2 s3 → only this p1 p3 s1 s3.
Proof. intros [? ?] [? ?]. split; congruence. Qed.

(** A state in which only the array [this] differs. *)
Lemma rep_update s this p l l' k k' b :
  rep s this p l k → p ≠ 0 → (length l' + k' = length l + k)%nat →
  let s' := State (<[p := cells l' k']> (buffers s))
              (<[this := Array p (Z.of_nat (length l')) (Z.of_nat (length l + k))]> (arrays s)) b in
  rep s' this p l' k' ∧ only this p p s s'.
Proof.
  intros [Ha Hd H0 Hs] Hp Hlen. split; [split|split]; cbn [arrays buffers].
  - rewrite lookup_insert_eq. do 2 f_equal. lia.
  - right. by rewrite lookup_insert_eq.
  - by rewrite lookup_insert_ne.
  - lia.
  - by rewrite delete_insert_eq.
  - by rewrite delete_insert_eq.
Qed.

(** Constructing one more element in place. *)
Lemma extend s this p l k v :
  rep s this p l (S k) →
  let s' := State (<[p := cells (l ++ [v]) k]> (buffers s))
              (<[this := Array p (Z.of_nat (length (l ++ [v]))) (Z.of_nat (length l + S k))]> (arrays s))
              (pred (budget s)) in
  rep s' this p (l ++ [v]) k ∧ only this p p s s'.
Proof.
  intros Hrep. destruct (rep_data _ _ _ _ _ Hrep) as [(_ & _ & ?)|[Hp _]]; [done|].
  apply (rep_update s this p l); [done..|]. rewrite length_app. cbn. lia.
Qed.

(** [reserve] is an operation of one array, with its elements kept. *)
Lemma reserve_rep s this p l k n :
  rep s this p l k → 0 ≤ n < 2 ^ 63 →
  match reserve this n s with
  | (Ok _, s') => ∃ p' k', rep s' this p' l k' ∧ only this p p' s s' ∧ n ≤ Z.of_nat (length l + k') ∧
                           (k ≤ k')%nat
  | (Throw runtime_error, s') => arrays s' = arrays s ∧ buffers s' = buffers s
  | (Throw bad_alloc, s') =>
      Z.of_nat (length l + k) < n ∧ buffer_alloc (buffers s) n = None ∧
      buffers s' = buffers s ∧ arrays s' = <[this := Array p 0 n]> (arrays s)
  | _ => False
  end.
Proof.
  intros Hrep Hn. destruct (decide (n ≤ Z.of_nat (length l + k))) as [Hle|Hgt].
  { unfold reserve. run (self_ok _ _ _ (rep_self _ _ _ _ _ Hrep)). cbn [capacity_].
    rewrite (proj2 (Z.leb_le _ _)) by done. cbn [ret]. exists p, k.
    split; [done|]. by split. }
  rewrite (reserve_run s this p l k n Hrep) by lia.
  destruct (buffer_alloc (buffers s) n) as [q|] eqn:Hq; [|split; [lia|done]].
  destruct (buffer_alloc_fresh _ _ _ Hq) as [Hq0 Hf]. destruct Hrep as [Ha Hd H0 Hs].
  case_decide; [|done]. exists q, (Z.to_nat n - length l)%nat.
  split; [split|split; [split|]]; cbn [arrays buffers].
  - rewrite lookup_insert_eq. do 2 f_equal. lia.
  - right. by rewrite lookup_insert_eq.
  - rewrite lookup_insert_ne, lookup_delete_None by done. by right.
  - lia.
  - by rewrite delete_insert_eq.
  - rewrite delete_insert_eq, delete_delete. by rewrite (delete_id (buffers s) q).
  - lia.
Qed.

(** The capacity [grow] asks for when one more element does not fit. *)
Definition grown (l : list V) : Z := if decide (l = []) then 1 else 2 * Z.of_nat (length l).

(** [grow(size() + 1)] makes room for one more element. *)
Lemma grow_rep s this p l k :
  rep s this p l k → Z.of_nat (length l) < 2 ^ 62 →
  match grow this (Z.of_nat (length l) + 1) s with
  | (Ok _, s') => ∃ p' k', rep s' this p' l (S k') ∧ only this p p' s s'
  | (Throw runtime_error, s') => arrays s' = arrays s ∧ buffers s' = buffers s
  | (Throw bad_alloc, s') =>
      k = O ∧ buffer_alloc (buffers s) (grown l) = None ∧
      buffers s' = buffers s ∧ arrays s' = <[this := Array p 0 (grown l)]> (arrays s)
  | _ => False
  end.
Proof.
  intros Hrep Hl. unfold grow. run (self_ok _ _ _ (rep_self _ _ _ _ _ Hrep)). cbn [capacity_].
  destruct k as [|k].
  - rewrite Nat.add_0_r.
    replace (if _ && _ then _ else _) with (reserve this (grown l)); cycle 1.
    { unfold grown. case_decide as Hnil; [by subst|]. assert (0 < length l)%nat by (destruct l; cbn; [done|lia]).
      rewrite (proj2 (Z.eqb_neq _ _)), (proj2 (Z.ltb_lt _ _)) by lia. cbn [andb]. f_equal.
      rewrite (u64_small (_ - 1)) by lia.
      replace (Z.of_nat (length l) + 1 + Z.of_nat (length l) - 1) with (2 * Z.of_nat (length l)) by lia.
      rewrite Z.div_mul by lia. by rewrite u64_small by lia. }
    assert (Hg : Z.of_nat (length l) + 1 ≤ grown l < 2 ^ 63).
    { unfold grown. case_decide; [by subst|]. destruct l; [done|cbn [length] in *; lia]. }
    pose proof (reserve_rep s this p l 0 (grown l) Hrep ltac:(lia)) as Hr.
    destruct (reserve this (grown l) s) as [[[]|[]| | |] s'] eqn:Hrun; try done.
    + destruct Hr as (p' & k' & Hrep' & Ho & Hc & _). run Hrun.
      run (self_ok _ _ _ (rep_self _ _ _ _ _ Hrep')). cbn [capacity_].
      destruct k' as [|k']; [lia|]. rewrite (proj2 (Z.leb_le _ _)) by lia. by exists p', k'.
    + rewrite (bind_throw _ _ _ _ _ Hrun). by destruct Hr as (_ & ? & ? & ?).
    + by rewrite (bind_throw _ _ _ _ _ Hrun).
  - rewrite (proj2 (Z.eqb_neq _ _)), (proj2 (Z.ltb_ge _ _)) by lia. cbn [andb]. rewrite bind_ret_l.
    run (self_ok _ _ _ (rep_self _ _ _ _ _ Hrep)). cbn [capacity_].
    rewrite (proj2 (Z.leb_le _ _)) by lia. by exists p, k.
Qed.

(** [push_back] appends the element, reallocating when the array is full; when the
    element type throws, the array still holds its old elements, and nothing but the
    array and its buffer has changed.  Only when the new buffer cannot be allocated
    ([bad_alloc]) is the array damaged: see [dynarray_reserve_bad_alloc]. *)
Theorem dynarray_push_back_spec s this p l k x :
  rep s this p l k → Z.of_nat (length l) < 2 ^ 62 →
  match push_back this x s with
  | (Ok _, s') => ∃ p' k', rep s' this p' (l ++ [x]) k' ∧ only this p p' s s'
  | (Throw runtime_error, s') => ∃ p' k', rep s' this p' l k' ∧ only this p p' s s'
  | (Throw bad_alloc, _) => k = O ∧ buffer_alloc (buffers s) (grown l) = None
  | _ => False
  end.
Proof.
  intros Hrep Hl. pose proof (grow_rep s this p l k Hrep Hl) as Hg.
  unfold push_back. run (self_ok _ _ _ (rep_self _ _ _ _ _ Hrep)). cbn [size_].
  rewrite u64_small by lia.
  destruct (grow this (Z.of_nat (length l) + 1) s) as [[[]|[]| | |] s1] eqn:Hrun; try done; cycle 1.
  { rewrite (bind_throw _ _ _ _ _ Hrun). by destruct Hg as (? & ? & _). }
  { rewrite (bind_throw _ _ _ _ _ Hrun). destruct Hg as [Ha Hb]. exists p, k.
    destruct Hrep. split; [split; rewrite ?Ha, ?Hb; done|]. unfold only. by rewrite Ha, Hb. }
  run Hrun. destruct Hg as (p1 & k1 & Hrep1 & Ho1). pose proof (extend s1 this p1 l k1 x Hrep1) as [Hrep2 Ho2].
  run (self_ok _ _ _ (rep_self _ _ _ _ _ Hrep1)). cbn [size_ data_]. destruct s1 as [bufs arrs b].
  pose proof Hrep1 as [Ha [(_ & _ & ?)|[Hp Hb]] _ Hs]; [done|]. cbn [arrays buffers budget] in *.
  pose proof (construct_ok bufs arrs b p1 l k1 x Hb) as Hc. destruct b as [|b].
  { rewrite (bind_throw _ _ _ _ _ Hc). by exists p1, (S k1). }
  run Hc. erewrite bind_ok; [|eapply set_size_ok; [exact Ha|lia]].
  replace (Z.of_nat (length l) + 1) with (Z.of_nat (length (l ++ [x]))) by (rewrite length_app; cbn; lia).
  cbn [pred] in *. unfold back. rewrite bind_assoc. run (self_ok _ _ _ (rep_self _ _ _ _ _ Hrep2)).
  cbn [size_ data_]. rewrite bind_assoc, bind_assert by (apply negb_true_iff, Z.eqb_neq; rewrite length_app; cbn [length]; lia).
  erewrite bind_ok; [|eapply (array_load_ok _ _ (l ++ [x]) k1 _ x)].
  - exists p1, k1. split; [done|]. by eapply only_trans.
  - apply lookup_insert_eq.
  - rewrite length_app. cbn [length]. replace (Z.to_nat _) with (length l) by lia. by apply list_lookup_middle.
Qed.

Lemma keep_first_n_rep s this p l k n :
  rep s this p l k → (n ≤ length l)%nat →
  ∃ s', keep_first_n this (Z.of_nat n) s = (Ok tt, s') ∧
        rep s' this p (take n l) (length l - n + k) ∧ only this p p s s'.
Proof.
  intros Hrep Hn. pose proof Hrep as [Ha [(-> & -> & ->)|[Hp Hb]] H0 Hs].
  - cbn in Hn. assert (n = O) as -> by lia. exists s. split; [|by split].
    unfold keep_first_n. run (self_ok _ _ _ Ha). rewrite bind_assert by done.
    cbn [length size_ Z.of_nat Z.to_nat keep_loop]. by run (self_ok _ _ _ Ha).
  - destruct s as [bufs arrs b].
    pose proof (keep_first_n_run this p (Z.of_nat (length l + k)) (take n l) (drop n l) k bufs arrs b) as Hrun.
    rewrite take_drop, length_drop, length_take, Nat.min_l in Hrun by lia.
    eexists. split; [apply Hrun; [done|done|lia]|].
    pose proof (rep_update _ this p l (take n l) k (length l - n + k) b Hrep Hp) as Hu.
    rewrite length_take, Nat.min_l in Hu by lia. apply Hu. lia.
Qed.

(** The filling loops of [resize], which keep the old elements when an element throws. *)
Lemma fill_rep s this p l k n x :
  rep s this p l k → (0 < n ≤ k)%nat →
  match try_catch (fill_loop n this (λ _, ret x)) (keep_first_n this (Z.of_nat (length l))) s with
  | (Ok _, s') => rep s' this p (l ++ replicate n x) (k - n) ∧ only this p p s s'
  | (Throw runtime_error, s') => rep s' this p l k ∧ only this p p s s'
  | _ => False
  end.
Proof.
  intros Hrep Hn. pose proof Hrep as [Ha [(_ & _ & ?)|[Hp Hb]] H0 Hs]; [lia|].
  destruct s as [bufs arrs b]. cbn [arrays buffers] in *.
  pose proof (fill_loop_run this p (Z.of_nat (length l + k)) (λ _, ret x) (replicate n x) l (k - n) bufs arrs b) as Hf.
  rewrite !length_app, !length_replicate in Hf. replace (n + (k - n))%nat with k in Hf by lia.
  specialize (Hf Ha Hb ltac:(lia) (yields_const x bufs p _ n)).
  pose proof (rep_update _ this p l (l ++ take b (replicate n x)) k (n - b + (k - n)) (b - n) Hrep Hp) as Hu.
  rewrite !length_app, length_take, length_replicate in Hu. rewrite length_take, length_replicate in Hf.
  specialize (Hu ltac:(lia)) as [Hr Ho].
  cbn [arrays buffers] in Hr, Ho. case_decide as Hd.
  - rewrite (try_ok _ _ _ _ _ Hf). rewrite take_ge in * by (rewrite length_replicate; lia).
    replace (n - b + (k - n))%nat with (k - n)%nat in * by lia. done.
  - destruct (keep_first_n_rep _ this p _ _ (length l) Hr) as (s' & Hk & Hrep' & Ho').
    { rewrite length_app. lia. }
    rewrite (try_throw _ _ _ _ _ _ Hf Hk). rewrite take_app_length, length_app in Hrep'.
    rewrite length_take, length_replicate in Hrep'. replace (_ + (_ + _))%nat with k in Hrep' by lia.
    split; [done|]. by eapply only_trans.
Qed.

(** [resize(n, x)] truncates the array or appends copies of [x]; when the element
    type throws, the old elements are all there, and nothing but the array and its buffer
    has changed. *)
Theorem dynarray_resize_spec s this p l k n x :
  rep s this p l k → Z.of_nat n < 2 ^ 63 →
  match resize this (Z.of_nat n) x s with
  | (Ok _, s') => ∃ p' k', rep s' this p' (take n l ++ replicate (n - length l) x) k' ∧ only this p p' s s'
  | (Throw runtime_error, s') => ∃ p' k', rep s' this p' l k' ∧ only this p p' s s'
  | (Throw bad_alloc, _) => (length l + k < n)%nat ∧ buffer_alloc (buffers s) (Z.of_nat n) = None
  | _ => False
  end.
Proof.
  intros Hrep Hn. pose proof (reserve_rep s this p l k (Z.of_nat n) Hrep ltac:(lia)) as Hr. unfold resize.
  destruct (reserve this (Z.of_nat n) s) as [[[]|[]| | |] s1] eqn:Hrun; try done; cycle 1.
  { rewrite (bind_throw _ _ _ _ _ Hrun). destruct Hr as (? & ? & _). split; [lia|done]. }
  { rewrite (bind_throw _ _ _ _ _ Hrun). destruct Hr as [Ha Hb]. exists p, k.
    destruct Hrep. split; [split; rewrite ?Ha, ?Hb; done|]. unfold only. by rewrite Ha, Hb. }
  run Hrun. destruct Hr as (p1 & k1 & Hrep1 & Ho1 & Hc & _).
  run (self_ok _ _ _ (rep_self _ _ _ _ _ Hrep1)). cbn [size_].
  destruct (decide (n ≤ length l)%nat) as [Hle|Hgt].
  - rewrite (proj2 (Z.leb_le _ _)) by lia.
    destruct (keep_first_n_rep s1 this p1 l k1 n Hrep1 Hle) as (s' & -> & Hrep' & Ho').
    replace (n - length l)%nat with O by lia. cbn [replicate]. rewrite app_nil_r.
    eexists p1, _. split; [done|]. by eapply only_trans.
  - rewrite (proj2 (Z.leb_gt _ _)) by lia. rewrite <- Nat2Z.inj_sub, Nat2Z.id by lia.
    pose proof (fill_rep s1 this p1 l k1 (n - length l) x Hrep1 ltac:(lia)) as Hf.
    destruct (try_catch _ _ _) as [[[]|[]| | |] s']; try done; destruct Hf as [Hrep' Ho'].
    + eexists p1, _. rewrite take_ge by lia. split; [done|]. by eapply only_trans.
    + eexists p1, _. split; [done|]. by eapply only_trans.
Qed.

(** ** Assignment *)

Lemma release_rep s this p l k :
  rep s this p l k →
  release this s = (Ok tt, State (delete p (buffers s)) (<[this := Array 0 0 0]> (arrays s)) (budget s)).
Proof.
  intros [Ha [(-> & -> & ->)|[Hp Hb]] H0 Hs]; destruct s as [bufs arrs b]; cbn [arrays buffers budget] in *.
  - by rewrite (release_null this bufs arrs b Ha), delete_id, insert_id.
  - by apply (release_run this p l k).
Qed.
Lemma destruct_rep s this p l k :
  rep s this p l k →
  destruct_ this s = (Ok tt, State (delete p (buffers s)) (delete this (arrays s)) (budget s)).
Proof.
  intros Hrep. unfold destruct_. run (release_rep _ _ _ _ _ Hrep). unfold modify. cbn [arrays buffers budget].
  by rewrite delete_insert_eq.
Qed.

(** The temporary takes the new elements, the array and the temporary are exchanged, and
    the temporary is destroyed with the old elements. *)
Lemma replace_run s tmp this p l k src l2 :
  rep s this p l k → arrays s !! tmp = None →
  (∀ q, buffers s !! q = None → yields src (buffers s) q 0 l2) → Z.of_nat (length l2) < 2 ^ 63 →
  match (construct_range tmp (Z.of_nat (length l2)) src ;;; swap tmp this ;;; destruct_ tmp) s with
  | (Ok _, s') => ∃ p', buffers s !! p' = None ∧ rep s' this p' l2 0 ∧ only this p p' s s'
  | (Throw _, s') => arrays s' = arrays s ∧ buffers s' = buffers s
  | _ => False
  end.
Proof.
  intros [Ha Hd H0 Hs] Ht Hy Hl. destruct s as [bufs arrs b]. cbn [arrays buffers] in *.
  pose proof (construct_range_run tmp src l2 bufs arrs b Hy Hl) as Hc.
  assert (this ≠ tmp) by congruence.
  destruct (buffer_alloc bufs _) as [q|] eqn:Hq; cycle 1.
  { rewrite (bind_throw _ _ _ _ _ Hc). cbn. by rewrite delete_id. }
  destruct (buffer_alloc_fresh _ _ _ Hq) as [Hq0 Hf]. case_decide as Hle; cycle 1.
  { rewrite (bind_throw _ _ _ _ _ Hc). cbn. by rewrite delete_id. }
  assert (Hpq : q ≠ p) by (destruct Hd as [(-> & _)|[? ?]]; congruence).
  run Hc. unfold swap. rewrite bind_assoc.
  erewrite bind_ok; [|apply self_ok; cbn [arrays]; apply lookup_insert_eq]. rewrite bind_assoc.
  erewrite bind_ok; [|apply self_ok; cbn [arrays]; rewrite lookup_insert_ne by done; exact Ha].
  unfold set_self. rewrite bind_assoc, !bind_modify. cbn [arrays buffers budget]. rewrite insert_insert_eq.
  rewrite (destruct_rep _ tmp p l k); [|split]; cbn [arrays buffers budget].
  - exists q. split; [done|]. split; [split|split]; cbn [arrays buffers].
    + rewrite lookup_delete_ne, lookup_insert_eq by done. by rewrite Nat.add_0_r.
    + right. by rewrite lookup_delete_ne, lookup_insert_eq.
    + rewrite lookup_delete_None. right. by rewrite lookup_insert_ne.
    + by rewrite Nat.add_0_r.
    + rewrite delete_delete, delete_insert_eq, delete_insert_ne by done.
      by rewrite delete_insert_eq, <- delete_delete, (delete_id arrs tmp).
    + by rewrite delete_delete, delete_insert_eq, (delete_id bufs q).
  - by rewrite lookup_insert_ne, lookup_insert_eq.
  - destruct Hd as [?|[Hp Hb]]; [by left|right]. by rewrite lookup_insert_ne.
  - by rewrite lookup_insert_ne.
  - done.
Qed.

Lemma element_assign_ok bufs arrs b p l1 v l2 k w :
  bufs !! p = Some (cells (l1 ++ v :: l2) k) →
  element_assign p (Z.of_nat (length l1)) w (State bufs arrs b) =
    (Ok tt, State (<[p := cells (l1 ++ w :: l2) k]> bufs) arrs b).
Proof.
  intros H. unfold element_assign. cbn [buffers]. rewrite H. cbn [mbind option_bind]. rewrite Nat2Z.id.
  rewrite (cells_lookup _ _ _ v) by (by apply list_lookup_middle). cbn [arrays budget]. do 2 f_equal.
  apply map_eq. intros q. destruct (decide (p = q)) as [<-|Hne].
  - rewrite lookup_alter_eq, H, lookup_insert_eq. cbn [fmap option_fmap option_map]. f_equal. unfold cells.
    rewrite !fmap_app, !fmap_cons, <- !app_assoc. rewrite <- (length_fmap Some l1) at 1.
    by rewrite insert_app_r_alt, Nat.sub_diag by lia.
  - by rewrite lookup_alter_ne, lookup_insert_ne.
Qed.
Lemma assign_loop_run this p c src l2 : ∀ l1 l k bufs arrs b,
  arrs !! this = Some (Array p (Z.of_nat (length (l1 ++ l))) c) →
  bufs !! p = Some (cells (l1 ++ l) k) → length l = length l2 →
  yields src bufs p (length l1) l2 →
  assign_loop (length l2) this (Z.of_nat (length l1)) src (State bufs arrs b) =
    (Ok tt, State (<[p := cells (l1 ++ l2) k]> bufs) arrs b).
Proof.
  induction l2 as [|w l2 IH]; intros l1 l k bufs arrs b Ha Hb Hlen Hy; (destruct l as [|v l]; [|]); try done.
  { cbn. by rewrite insert_id. }
  cbn [length assign_loop]. run (self_ok (State bufs arrs b) this _ Ha). cbn [size_ data_].
  rewrite bind_assert by (apply Z.ltb_lt; rewrite length_app; cbn [length]; lia).
  pose proof (Hy 0%nat w bufs arrs b eq_refl (λ _ _, eq_refl)) as Hv. rewrite Nat.add_0_r in Hv. run Hv.
  run (element_assign_ok bufs arrs b p l1 v l k w Hb).
  replace (Z.of_nat (length l1) + 1) with (Z.of_nat (length (l1 ++ [w]))) by (rewrite length_app; cbn; lia).
  rewrite (IH (l1 ++ [w]) l k); rewrite <- ?app_assoc; cbn [app].
  - by rewrite insert_insert_eq.
  - rewrite Ha. by rewrite !length_app.
  - by rewrite lookup_insert_eq.
  - by simplify_eq/=.
  - replace (length (l1 ++ [w])) with (S (length l1)) by (rewrite length_app; cbn; lia). by apply (yields_cons _ _ _ _ w).
Qed.

(** The elements of an array as the source of another one with the buffer [p]. *)
Lemma yields_rep s other q l k p : rep s other q l k → (q = p → q = 0) → yields (load q) (buffers s) p 0 l.
Proof.
  intros [_ [(-> & -> & ->)|[Hq Hb]] _ _] Hp; [intros j v ? ? ? Hj; by rewrite lookup_nil in Hj|].
  apply (yields_load _ _ _ _ k); [|done]. naive_solver.
Qed.

(** An operation on [this] does not touch another array. *)
Lemma rep_other s s' this p l k p' l' k' other q l2 k2 :
  rep s this p l k → rep s' this p' l' k' → rep s other q l2 k2 → this ≠ other → (q = p → q = 0) →
  only this p p' s s' → p' = p ∨ buffers s !! p' = None → rep s' other q l2 k2.
Proof.
  intros Hrep Hrep' [Ha2 Hd2 H02 ?] Hne Hqp [Hoa Hob] Hp'. split; [|..|apply Hrep'|done].
  - by rewrite <- (lookup_delete_ne (arrays s') this), Hoa, lookup_delete_ne.
  - destruct Hd2 as [?|[Hq Hb2]]; [by left|right]. split; [done|].
    rewrite <- (lookup_delete_ne (buffers s') p'); [|destruct Hp'; naive_solver].
    rewrite Hob, lookup_delete_ne; naive_solver.
Qed.
Lemma assign_in_place s this p l k src l2 :
  rep s this p l k → length l = length l2 → yields src (buffers s) p 0 l2 →
  ∃ s', assign_loop (length l2) this 0 src s = (Ok tt, s') ∧ rep s' this p l2 k ∧ only this p p s s'.
Proof.
  intros Hrep Hlen Hy. pose proof Hrep as [Ha [(-> & -> & ->)|[Hp Hb]] H0 Hs].
  { destruct l2; [|done]. by exists s. }
  destruct s as [bufs arrs b]. cbn [arrays buffers] in *. eexists.
  split; [apply (assign_loop_run this p _ src l2 [] l k bufs arrs b Ha Hb Hlen Hy)|].
  split; [split|split]; cbn [arrays buffers app].
  - by rewrite <- Hlen.
  - right. by rewrite lookup_insert_eq.
  - by rewrite lookup_insert_ne.
  - by rewrite <- Hlen.
  - done.
  - by rewrite delete_insert_eq.
Qed.

(** Copy assignment gives an array the elements of another one, which is left as
    it is, both with the temporary and, for an element type whose assignment does not
    throw, in place; when it throws, nothing has changed (strong exception guarantee). *)
Theorem dynarray_copy_assign_spec nothrow s tmp this other p l k q l2 k2 :
  rep s this p l k → rep s other q l2 k2 → this ≠ other → (q = p → q = 0) → arrays s !! tmp = None →
  match copy_assign nothrow tmp this other s with
  | (Ok _, s') => ∃ p' k', rep s' this p' l2 k' ∧ rep s' other q l2 k2 ∧ only this p p' s s'
  | (Throw _, s') => arrays s' = arrays s ∧ buffers s' = buffers s
  | _ => False
  end.
Proof.
  intros Hrep Ho Hne Hqp Ht. pose proof (rep_small _ _ _ _ _ Ho) as Hs2.
  unfold copy_assign. run (self_ok _ _ _ (rep_self _ _ _ _ _ Ho)). cbn [size_ data_]. unfold assign_range.
  run (self_ok _ _ _ (rep_self _ _ _ _ _ Hrep)). cbn [size_]. destruct (_ || _) eqn:Hcase.
  - pose proof (replace_run s tmp this p l k (load q) l2 Hrep Ht) as Hr. ospecialize (Hr _ _); [|lia|].
    { intros r Hr'. apply (yields_rep s other q l2 k2); [done|]. intros <-.
      destruct (rep_data _ _ _ _ _ Ho) as [(? & _)|[_ ?]]; [done|congruence]. }
    destruct (bind _ _ s) as [[[]| | | |] s']; try done.
    destruct Hr as (p' & Hp' & Hrep' & Ho'). exists p', 0%nat. split; [done|]. split; [|done].
    apply (rep_other s s' this p l k p' l2 0); auto.
  - apply orb_false_iff in Hcase as [Hle%Z.ltb_ge _].
    destruct (keep_first_n_rep s this p l k (length l2) Hrep ltac:(lia)) as (s1 & Hk & Hrep1 & Ho1). run Hk.
    destruct (assign_in_place s1 this p (take (length l2) l) (length l - length l2 + k) (load q) l2)
      as (s' & Hrun & Hrep' & Ho'); [done|rewrite length_take; lia| |].
    { apply (yields_rep s1 other q l2 k2); [|done]. by apply (rep_other s s1 this p l k _ _ _ _ _ _ _ Hrep Hrep1); auto. }
    rewrite Nat2Z.id, Hrun. exists p, (length l - length l2 + k)%nat. split; [done|].
    assert (only this p p s s') by by eapply only_trans. split; [|done].
    by apply (rep_other s s' this p l k _ _ _ _ _ _ _ Hrep Hrep'); auto.
Qed.

(** Checked access returns the element or throws. *)
Lemma dynarray_at_spec s this p l k i :
  rep s this p l k →
  at_ this (Z.of_nat i) s = (match l !! i with Some v => Ok v | None => Throw out_of_range end, s).
Proof.
  intros [Ha Hd H0 Hs]. unfold at_. run (self_ok _ _ _ Ha). cbn [size_ data_].
  destruct (l !! i) as [v|] eqn:Hi.
  - pose proof (lookup_lt_Some _ _ _ Hi). rewrite (proj2 (Z.ltb_lt _ _)) by lia.
    destruct Hd as [(_ & -> & _)|[_ Hb]]; [done|]. apply (array_load_ok _ _ l k); [done|]. by rewrite Nat2Z.id.
  - apply lookup_ge_None in Hi. by rewrite (proj2 (Z.ltb_ge _ _)) by lia.
Qed.

(** ** Where the guarantee is lost *)

(** When [reserve] cannot allocate, it has already set the size to 0 and the
    capacity to the one asked for: it throws [bad_alloc], the elements can no longer be
    reached, and the destructor gives the old buffer back with a wrong size. *)
Theorem dynarray_reserve_bad_alloc s this p l k n :
  rep s this p l k → p ≠ 0 → Z.of_nat (length l + k) < n < 2 ^ 63 → buffer_alloc (buffers s) n = None →
  ∃ s', reserve this n s = (Throw bad_alloc, s') ∧
        at_ this 0 s' = (Throw out_of_range, s') ∧ fst (destruct_ this s') = Undef.
Proof.
  intros Hrep Hp Hn Hal. rewrite (reserve_run s this p l k n Hrep Hn), Hal. eexists. split; [done|].
  destruct Hrep as [Ha [(? & _)|[_ Hb]] H0 Hs]; [done|]. destruct s as [bufs arrs b]. cbn [arrays buffers budget] in *.
  assert (Hself : arrays (State bufs (<[this := Array p 0 n]> arrs) b) !! this = Some (Array p 0 n))
    by apply lookup_insert_eq.
  split; [unfold at_; by run (self_ok _ _ _ Hself)|].
  unfold destruct_, release, clear, keep_first_n. rewrite !bind_assoc. run (self_ok _ _ _ Hself).
  rewrite bind_assoc, bind_assert by done. change (S (Z.to_nat 0)) with 1%nat. cbn [keep_loop]. rewrite bind_assoc.
  run (self_ok _ _ _ Hself). cbn [size_ Z.ltb Z.compare]. rewrite bind_ret_l, bind_assoc.
  run (self_ok _ _ _ Hself). cbn [data_ capacity_]. unfold deallocate. rewrite (proj2 (Z.eqb_neq _ _) Hp).
  unfold bind at 1. unfold bind at 1. cbn [buffers]. rewrite Hb, length_cells.
  by rewrite (proj2 (Z.eqb_neq _ _)) by lia.
Qed.

(** [pop_back] constructs an element behind the last one instead of destroying it: on
    a full array it writes past the end of the buffer, and otherwise both elements stay
    in the buffer where nothing will destroy them. *)
Lemma dynarray_pop_back_full s this p l v0 :
  rep s this p l 0 → p ≠ 0 → fst (pop_back v0 this s) = Undef.
Proof.
  intros [Ha [(? & _)|[_ Hb]] H0 Hs] Hp; [done|]. destruct s as [bufs arrs b]. cbn [arrays buffers] in *.
  unfold pop_back, noexcept. run (self_ok (State bufs arrs b) this _ Ha). cbn [data_ size_].
  unfold construct, bind at 1. cbn [buffers]. rewrite Hb.
  rewrite lookup_ge_None_2; [done|]. rewrite length_cells, Nat2Z.id. lia.
Qed.
Lemma dynarray_pop_back_leaks bufs arrs b this p l v v0 k :
  rep (State bufs arrs (S b)) this p (l ++ [v]) (S k) →
  pop_back v0 this (State bufs arrs (S b)) =
    (Ok tt, State (<[p := cells (l ++ [v; v0]) k]> bufs)
              (<[this := Array p (Z.of_nat (length l)) (Z.of_nat (length (l ++ [v]) + S k))]> arrs) b).
Proof.
  intros [Ha [(_ & ? & _)|[_ Hb]] H0 Hs]; [by destruct l|]. cbn [arrays buffers] in *.
  unfold pop_back, noexcept. run (self_ok (State bufs arrs (S b)) this _ Ha). cbn [data_ size_].
  run (construct_ok bufs arrs (S b) p (l ++ [v]) k v0 Hb). rewrite length_app in *. cbn [length] in *.
  erewrite set_size_ok; [|exact Ha|lia]. rewrite <- app_assoc. cbn [app]. do 5 f_equal. lia.
Qed.

End dynarray.
Arguments state : clear implicits.

(** ** A concrete allocator and array *)

#[export] Instance small_alloc : BufferAlloc Z := λ m n, if n <=? 4 then Some (fresh_key m) else None.
#[export] Instance small_alloc_ok : BufferAllocOk Z.
Proof.
  intros m n a. unfold buffer_alloc, small_alloc. destruct (n <=? 4); [|done]. intros [= <-].
  split; [pose proof (fresh_key_pos m); lia|apply fresh_key_fresh].
Qed.
Definition two : state Z :=
  State {[ 1 := [Some 10; Some 20]; 2 := [Some 7; None; None] ]} {[ 100 := Array 1 2 2; 200 := Array 2 1 3 ]} 9.
Lemma two_rep : rep two 100 1 [10; 20] 0.
Proof. split; [reflexivity|by right|reflexivity|cbn; lia]. Qed.
Lemma two_rep_other : rep two 200 2 [7] 2.
Proof. split; [reflexivity|by right|reflexivity|cbn; lia]. Qed.

Lemma dynarray_push_back_witness :
  ∃ s', push_back 100 30 two = (Ok tt, s') ∧ ∃ p' k', rep s' 100 p' [10; 20; 30] k' ∧ only 100 1 p' two s'.
Proof.
  pose proof (dynarray_push_back_spec two 100 1 [10; 20] 0 30 two_rep ltac:(cbn; lia)) as H.
  assert (E : fst (push_back 100 30 two) = Ok tt) by (vm_compute; reflexivity).
  destruct (push_back 100 30 two) as [o s']. cbn [fst] in E. subst o. by exists s'.
Defined.
Lemma dynarray_resize_witness :
  ∃ s', resize 100 (Z.of_nat 4) 5 two = (Ok tt, s') ∧
        ∃ p' k', rep s' 100 p' [10; 20; 5; 5] k' ∧ only 100 1 p' two s'.
Proof.
  pose proof (dynarray_resize_spec two 100 1 [10; 20] 0 4 5 two_rep ltac:(cbn; lia)) as H.
  assert (E : fst (resize 100 (Z.of_nat 4) 5 two) = Ok tt) by (vm_compute; reflexivity).
  destruct (resize 100 (Z.of_nat 4) 5 two) as [o s']. cbn [fst] in E. subst o. by exists s'.
Defined.
Lemma dynarray_copy_assign_witness :
  ∃ s', copy_assign false 300 200 100 two = (Ok tt, s') ∧
        ∃ p' k', rep s' 200 p' [10; 20] k' ∧ rep s' 100 1 [10; 20] 0 ∧ only 200 2 p' two s'.
Proof.
  pose proof (dynarray_copy_assign_spec false two 300 200 100 2 [7] 2 1 [10; 20] 0
    two_rep_other two_rep ltac:(lia) ltac:(lia) eq_refl) as H.
  assert (E : fst (copy_assign false 300 200 100 two) = Ok tt) by (vm_compute; reflexivity).
  destruct (copy_assign false 300 200 100 two) as [o s']. cbn [fst] in E. subst o. by exists s'.
Defined.
Lemma dynarray_reserve_bad_alloc_witness :
  ∃ s', reserve 100 5 two = (Throw bad_alloc, s') ∧
        at_ 100 0 s' = (Throw out_of_range, s') ∧ fst (destruct_ 100 s') = Undef.
Proof. apply (dynarray_reserve_bad_alloc two 100 1 [10; 20] 0 5 two_rep); [lia|cbn; lia|reflexivity]. Defined.

(** An element that throws while the array is reallocated leaves it as it was. *)
Example dynarray_reserve_throws :
  reserve 100 3 (State (buffers two) (arrays two) 1) = (Throw runtime_error, State (buffers two) (arrays two) 0).
Proof. vm_compute. reflexivity. Qed.
Example dynarray_pop_back_writes_past_end : fst (pop_back 0 100 two) = Undef.
Proof. apply (dynarray_pop_back_full two 100 1 [10; 20] 0 two_rep). lia. Qed.

End Dyn.
