(* ===== verification/FlatBuffer.v ===== *)
(** * Flat buffer (flat_buffer.hpp)

    [bytes] is the byte memory the allocator has handed out, [None] being a byte not
    yet written; [blocks] has the base address and the size of every block.  The other
    fields are the members of the buffer; [0] is the null pointer.  The abstract
    specification is a queue of bytes: a client that prepares, writes and commits
    appends to it, [consume] takes bytes from its front. *)

From S2P Require Import Prelude.

Local Open Scope Z_scope.
Local Open Scope gpcl_scope.

(** The allocator: the address of a new block of [n] bytes. *)
Abbreviation memory := (gmap Z (option Z)).
Class ByteAlloc : Type := byte_alloc : memory → Z → option Z.
Class ByteAllocOk `{!ByteAlloc} : Prop :=
  byte_alloc_fresh m n a : byte_alloc m n = Some a →
    0 < a ∧ a + n < 2 ^ 63 ∧ ∀ x, a ≤ x < a + n → m !! x = None.

Module Flat.

Record state : Type := State {
  bytes : memory;
  blocks : gmap Z Z;
  start_ : Z;
  end_ : Z;
  input_ : Z;
  output_ : Z;
}.
Abbreviation F A := (M state A).

(** ** Memory *)

Fixpoint store_list (a : Z) (vs : list (option Z)) (m : memory) : memory :=
  match vs with
  | [] => m
  | v :: vs => <[a := v]> (store_list (a + 1) vs m)
  end.
Fixpoint load_list (a : Z) (n : nat) (m : memory) : option (list (option Z)) :=
  match n with
  | O => Some []
  | S n => v ← m !! a; vs ← load_list (a + 1) n m; Some (v :: vs)
  end.
Definition set_bytes (m : memory) (s : state) : state :=
  State m (blocks s) (start_ s) (end_ s) (input_ s) (output_ s).
(** Bytes are written where memory is mapped only. *)
Definition write (a : Z) (vs : list (option Z)) : F unit :=
  λ s, if load_list a (length vs) (bytes s) is Some _
       then (Ok tt, set_bytes (store_list a vs (bytes s)) s) else (Undef, s).
Definition read (a n : Z) : F (list (option Z)) :=
  λ s, match load_list a (Z.to_nat n) (bytes s) with Some vs => (Ok vs, s) | None => (Undef, s) end.
(** [std::memcpy], [std::memmove]. *)
Definition memmove (dst src n : Z) : F unit :=
  let! vs := read src n in write dst vs.

Fixpoint unmap (a : Z) (n : nat) (m : memory) : memory :=
  match n with O => m | S n => delete a (unmap (a + 1) n m) end.
Definition deallocate (p n : Z) : F unit :=
  if p =? 0 then ret tt else
  λ s, if decide (blocks s !! p = Some n)
       then (Ok tt, State (unmap p (Z.to_nat n) (bytes s)) (delete p (blocks s))
                          (start_ s) (end_ s) (input_ s) (output_ s))
       else (Undef, s).

(** ** The buffer *)

Definition empty_buffer : state := State ∅ ∅ 0 0 0 0.
Definition max_size : Z := 2 ^ 31 - 1.
Definition set_input (p : Z) : F unit :=
  modify (λ s, State (bytes s) (blocks s) (start_ s) (end_ s) p (output_ s)).
Definition set_output (p : Z) : F unit :=
  modify (λ s, State (bytes s) (blocks s) (start_ s) (end_ s) (input_ s) p).
Definition set_start (p : Z) : F unit :=
  modify (λ s, State (bytes s) (blocks s) p (end_ s) (input_ s) (output_ s)).
Definition set_end (p : Z) : F unit :=
  modify (λ s, State (bytes s) (blocks s) (start_ s) p (input_ s) (output_ s)).

Definition size : F Z :=
  let! s := get in
  gpcl_assert (0 <=? output_ s - input_ s) ;;; ret (output_ s - input_ s).
Definition capacity : F Z :=
  let! s := get in
  gpcl_assert (0 <=? end_ s - input_ s) ;;; ret (end_ s - input_ s).
(** [data()]: the bytes it refers to. *)
Definition data : F (list (option Z)) :=
  let! s := get in
  let! n := size in
  read (input_ s) n.

Section buffer.
Context {HA : ByteAlloc}.

Definition allocate (n : Z) : F Z :=
  λ s, match byte_alloc (bytes s) n with
       | Some a => (Ok a, State (store_list a (replicate (Z.to_nat n) None) (bytes s))
                            (<[a := n]> (blocks s)) (start_ s) (end_ s) (input_ s) (output_ s))
       | None => (Throw bad_alloc, s)
       end.

Definition prepare (n : Z) : F (Z * Z) :=
  let! sz := size in
  if max_size <? u64 (sz + n) then throw length_error else
  let! s := get in
  (if u64 (end_ s - output_ s) <? n then
     if n <=? u64 (end_ s - output_ s + (input_ s - start_ s)) then
       memmove (start_ s) (input_ s) sz ;;;
       let! isize := size in
       set_input (start_ s) ;;;
       set_output (start_ s + isize)
     else
       let! newbuf := allocate (u64 (sz + n)) in
       (if sz =? 0 then ret tt else memmove newbuf (input_ s) sz) ;;;
       deallocate (start_ s) (end_ s - start_ s) ;;;
       let! isize := size in
       set_start newbuf ;;;
       set_input newbuf ;;;
       set_output (newbuf + isize) ;;;
       set_end (newbuf + isize + n)
   else ret tt) ;;;
  let! s := get in
  ret (output_ s, n).

Definition commit (n : Z) : F unit :=
  let! s := get in
  set_output (u64 (output_ s + n)) ;;;
  let! s := get in
  if end_ s <? output_ s then set_output (end_ s) else ret tt.
Definition consume (n : Z) : F unit :=
  let! s := get in
  set_input (u64 (input_ s + n)) ;;;
  let! s := get in
  if output_ s <? input_ s then set_input (output_ s) else ret tt.
(** [~basic_flat_buffer()]. *)
Definition destruct_ : F unit :=
  let! s := get in deallocate (start_ s) (end_ s - start_ s).

(** A client appends [vs]: it prepares room, writes and commits. *)
Definition append (vs : list (option Z)) : F unit :=
  let! '(p, n) := prepare (Z.of_nat (length vs)) in
  write p vs ;;;
  commit n.

(** ** Specification: a queue of bytes *)

Inductive op : Type :=
| Append (vs : list (option Z))
| Consume (n : Z).
Definition run_op (o : op) : F unit :=
  match o with Append vs => append vs | Consume n => consume n end.
Fixpoint run (ops : list op) : F unit :=
  match ops with [] => ret tt | o :: ops => run_op o ;;; run ops end.
Definition spec (q : list (option Z)) (o : op) : list (option Z) :=
  match o with Append vs => q ++ vs | Consume n => drop (Z.to_nat n) q end.
Definition op_ok (o : op) : Prop :=
  match o with Append vs => Z.of_nat (length vs) < 2 ^ 62 | Consume n => 0 ≤ n < 2 ^ 62 end.

(** The buffer holds the queue [q] in its only block. *)
Record rep (s : state) (q : list (option Z)) : Prop := {
  rep_order : 0 ≤ start_ s ≤ input_ s ∧ input_ s ≤ output_ s ≤ end_ s ∧ end_ s < 2 ^ 63;
  rep_block : blocks s = if decide (start_ s = 0) then ∅ else {[ start_ s := end_ s - start_ s ]};
  rep_null : (start_ s = 0 ∧ end_ s = 0) ∨ 0 < start_ s < end_ s;
  rep_mapped x : start_ s ≤ x < end_ s → is_Some (bytes s !! x);
  rep_length : Z.of_nat (length q) = output_ s - input_ s;
  rep_queue : load_list (input_ s) (length q) (bytes s) = Some q;
}.

Ltac run H := rewrite (bind_ok _ _ _ _ _ H).

(** ** Memory lemmas *)

Lemma store_list_lookup vs : ∀ a m x,
  store_list a vs m !! x =
    if decide (a ≤ x < a + Z.of_nat (length vs)) then vs !! Z.to_nat (x - a) else m !! x.
Proof.
  induction vs as [|v vs IH]; intros a m x; cbn [store_list length]; [by rewrite decide_False by lia|].
  destruct (decide (a = x)) as [<-|Hne].
  - rewrite lookup_insert_eq, decide_True by lia. by rewrite Z.sub_diag.
  - rewrite lookup_insert_ne, IH by done. do 2 case_decide; try done; try lia.
    replace (Z.to_nat (x - a)) with (S (Z.to_nat (x - (a + 1)))) by lia. done.
Qed.
Lemma load_list_Some n : ∀ a m vs,
  load_list a n m = Some vs ↔
  length vs = n ∧ ∀ i, (i < n)%nat → m !! (a + Z.of_nat i) = vs !! i.
Proof.
  induction n as [|n IH]; intros a m vs; cbn [load_list].
  { split; [intros [= <-]; split; [done|intros; lia]|]. intros [Hl _]. by apply nil_length_inv in Hl as ->. }
  destruct (m !! a) as [v|] eqn:Hv; cbn [mbind option_bind]; cycle 1.
  { split; [done|]. intros [Hl Hi]. specialize (Hi O ltac:(lia)). rewrite Z.add_0_r, Hv in Hi.
    by destruct vs. }
  destruct (load_list (a + 1) n m) as [ws|] eqn:Hw; cbn [mbind option_bind].
  - apply IH in Hw as [Hlen Hget]. split.
    + intros [= <-]. split; [cbn; lia|]. intros [|i] Hi; [by rewrite Z.add_0_r|].
      cbn. rewrite <- Hget by lia. f_equal. lia.
    + intros [Hl Hi]. destruct vs as [|w vs]; [done|]. f_equal.
      pose proof (Hi O ltac:(lia)) as H0. rewrite Z.add_0_r, Hv in H0. cbn in H0. simplify_eq/=. f_equal.
      apply list_eq_same_length with (n := length ws); [done|lia|]. intros i y z Hlt Hy Hz.
      specialize (Hi (S i) ltac:(lia)). cbn in Hi.
      replace (a + Z.of_nat (S i)) with (a + 1 + Z.of_nat i) in Hi by lia.
      rewrite Hget, Hy in Hi by lia. change (Some y = vs !! i) in Hi. rewrite Hz in Hi. by injection Hi.
  - split; [done|]. intros [Hl Hi]. destruct vs as [|w vs]; [done|]. exfalso.
    enough (load_list (a + 1) n m = Some vs) by congruence. apply IH. split; [by simplify_eq/=|].
    intros i Hlt. specialize (Hi (S i) ltac:(lia)). transitivity (m !! (a + Z.of_nat (S i))); [f_equal; lia|exact Hi].
Qed.
Lemma unmap_lookup n : ∀ a m x,
  unmap a n m !! x = if decide (a ≤ x < a + Z.of_nat n) then None else m !! x.
Proof.
  induction n as [|n IH]; intros a m x; cbn [unmap]; [by rewrite decide_False by lia|].
  destruct (decide (a = x)) as [<-|Hne].
  - by rewrite lookup_delete_eq, decide_True by lia.
  - rewrite lookup_delete_ne, IH by done. do 2 case_decide; try done; lia.
Qed.

(** Mapped memory can be loaded. *)
Lemma load_list_mapped m n : ∀ a,
  (∀ x, a ≤ x < a + Z.of_nat n → is_Some (m !! x)) → ∃ vs, load_list a n m = Some vs.
Proof.
  induction n as [|n IH]; intros a Hm; cbn [load_list]; [by eexists|].
  destruct (Hm a ltac:(lia)) as [v ->]. destruct (IH (a + 1)) as [vs ->]; [intros x ?; apply Hm; lia|].
  by eexists.
Qed.
Lemma load_list_ext a b m m' vs n :
  load_list a n m = Some vs → (∀ i, (i < n)%nat → m' !! (b + Z.of_nat i) = m !! (a + Z.of_nat i)) →
  load_list b n m' = Some vs.
Proof.
  intros [Hl Hi]%load_list_Some Heq. apply load_list_Some. split; [done|].
  intros i Hlt. by rewrite Heq, Hi.
Qed.
Lemma load_store a vs m : load_list a (length vs) (store_list a vs m) = Some vs.
Proof.
  apply load_list_Some. split; [done|]. intros i Hi. rewrite store_list_lookup, decide_True by lia.
  f_equal. lia.
Qed.
Lemma store_mapped a vs m x : is_Some (m !! x) → is_Some (store_list a vs m !! x).
Proof.
  intros Hx. rewrite store_list_lookup. case_decide; [|done]. apply lookup_lt_is_Some. lia.
Qed.

Lemma memmove_run s dst src n vs :
  load_list src (Z.to_nat n) (bytes s) = Some vs →
  (∀ x, dst ≤ x < dst + Z.of_nat (length vs) → is_Some (bytes s !! x)) →
  memmove dst src n s = (Ok tt, set_bytes (store_list dst vs (bytes s)) s).
Proof.
  intros Hl Hm. unfold memmove, bind, read. rewrite Hl. unfold write.
  by destruct (load_list_mapped (bytes s) (length vs) dst Hm) as [ws ->].
Qed.

(** ** Operations *)

Lemma buffer_size_ok s q : rep s q → size s = (Ok (Z.of_nat (length q)), s).
Proof.
  intros Hr. unfold size. rewrite bind_get, (rep_length _ _ Hr).
  destruct Hr as [Ho _ _ _ _ _]. by rewrite bind_assert by lia.
Qed.
Lemma data_ok s q : rep s q → data s = (Ok q, s).
Proof.
  intros Hr. unfold data. rewrite bind_get. run (buffer_size_ok s q Hr). unfold read.
  by rewrite Nat2Z.id, (rep_queue _ _ Hr).
Qed.

(** The bytes move to the start of the block. *)
Lemma compact_rep s q :
  rep s q →
  rep (State (store_list (start_ s) q (bytes s)) (blocks s) (start_ s) (end_ s)
         (start_ s) (start_ s + Z.of_nat (length q))) q.
Proof.
  intros [Ho Hb Hn Hm Hl Hq]. split; cbn; [lia|done|done| |lia|apply load_store].
  intros x Hx. by apply store_mapped, Hm.
Qed.

(** The bytes move to a new block [a], and the old block is given back. *)
Lemma copy_out s q a vs :
  rep s q → (∀ x, a ≤ x < a + Z.of_nat (length vs) → bytes s !! x = None) → (length q ≤ length vs)%nat →
  ∀ s1, bytes s1 = store_list a vs (bytes s) →
  (if Z.of_nat (length q) =? 0 then ret tt else memmove a (input_ s) (Z.of_nat (length q))) s1 =
  (Ok tt, set_bytes (store_list a q (bytes s1)) s1).
Proof.
  intros [Ho Hb Hn Hm Hl Hq] Hf Hle s1 Hs1. destruct (Z.eqb_spec (Z.of_nat (length q)) 0) as [H0|H0].
  - assert (q = []) as -> by (destruct q; [done|cbn in *; lia]). by destruct s1.
  - apply memmove_run.
    + rewrite Nat2Z.id. eapply load_list_ext; [exact Hq|]. intros i Hi.
      rewrite Hs1, store_list_lookup, decide_False; [done|]. intros Hx.
      destruct (Hm (input_ s + Z.of_nat i)) as [v Hv]; [lia|]. rewrite Hf in Hv by lia. done.
    + intros x Hx. rewrite Hs1, store_list_lookup, decide_True by lia. apply lookup_lt_is_Some. lia.
Qed.
Lemma give_back bs blks st en i o a n :
  (st = 0 ∧ en = 0) ∨ 0 < st < en → a ≠ st →
  blks = (if decide (st = 0) then ∅ else {[ st := en - st ]}) →
  deallocate st (en - st) (State bs (<[a := n]> blks) st en i o) =
  (Ok tt, State (unmap st (Z.to_nat (en - st)) bs) {[ a := n ]} st en i o).
Proof.
  intros [[-> ->]|Hst] Ha ->; unfold deallocate; [done|].
  rewrite (proj2 (Z.eqb_neq _ _)) by lia. cbn [blocks]. rewrite (decide_False (P := st = 0)) by lia.
  rewrite decide_True by (by rewrite lookup_insert_ne, lookup_singleton_eq).
  cbn. do 2 f_equal. rewrite delete_insert_ne by done. by rewrite delete_singleton_eq.
Qed.
Lemma moved_rep s q a n blks :
  rep s q → 0 < n → 0 < a → a + (Z.of_nat (length q) + n) < 2 ^ 63 →
  (∀ x, a ≤ x < a + (Z.of_nat (length q) + n) → bytes s !! x = None) →
  blks = {[ a := Z.of_nat (length q) + n ]} →
  rep (State (unmap (start_ s) (Z.to_nat (end_ s - start_ s))
                (store_list a q (store_list a (replicate (Z.to_nat (Z.of_nat (length q) + n)) None) (bytes s))))
         blks a (a + Z.of_nat (length q) + n) a (a + Z.of_nat (length q))) q.
Proof.
  intros [Ho Hb Hnl Hm Hl Hq] Hn Ha Hs Hf ->.
  assert (Hout : ∀ x, a ≤ x < a + (Z.of_nat (length q) + n) → ¬ (start_ s ≤ x < end_ s)).
  { intros x Hx Hin. destruct (Hm x Hin) as [v Hv]. rewrite Hf in Hv by done. done. }
  split; cbn [bytes blocks start_ end_ input_ output_]; try lia.
  - rewrite decide_False by lia. f_equal. lia.
  - intros x Hx. rewrite unmap_lookup, decide_False by (specialize (Hout x); lia). apply store_mapped.
    rewrite store_list_lookup, length_replicate, decide_True by lia.
    apply lookup_lt_is_Some. rewrite length_replicate. lia.
  - eapply load_list_ext; [apply (load_store a)|]. intros i Hi.
    rewrite unmap_lookup, decide_False; [done|]. specialize (Hout (a + Z.of_nat i)). lia.
Qed.

Context {HAok : ByteAllocOk}.

(** [prepare] makes room behind the bytes and keeps them, or throws and changes nothing. *)
Lemma prepare_spec s q n :
  rep s q → 0 ≤ n < 2 ^ 62 →
  match prepare n s with
  | (Ok (p, m), s') => m = n ∧ rep s' q ∧ p = output_ s' ∧ p + n ≤ end_ s'
  | (Throw length_error, s') => s' = s ∧ max_size < Z.of_nat (length q) + n
  | (Throw bad_alloc, s') => s' = s ∧ byte_alloc (bytes s) (Z.of_nat (length q) + n) = None
  | _ => False
  end.
Proof.
  intros Hr Hn. pose proof Hr as [Ho Hb Hnl Hm Hl Hq]. unfold prepare. run (buffer_size_ok s q Hr).
  rewrite (u64_small (_ + n)) by lia. destruct (Z.ltb_spec max_size (Z.of_nat (length q) + n)) as [Hgt|Hle]; [done|].
  rewrite bind_get, !u64_small by lia.
  destruct (Z.ltb_spec (end_ s - output_ s) n) as [Hlt|Hge]; cycle 1.
  { rewrite bind_ret_l, bind_get. cbn. repeat split; try done; lia. }
  destruct (Z.leb_spec n (end_ s - output_ s + (input_ s - start_ s))) as [Hfit|Hbig].
  - rewrite bind_assoc. erewrite bind_ok; [|apply memmove_run]; cycle 1.
    + rewrite Nat2Z.id. exact Hq.
    + intros x Hx. apply Hm. lia.
    + rewrite bind_assoc. erewrite bind_ok; cycle 1.
      { unfold size, set_bytes. rewrite bind_get. cbn. rewrite bind_assert by lia. reflexivity. }
      unfold set_input, set_output. rewrite bind_assoc, !bind_modify, bind_get. cbn [bytes blocks start_ end_ input_ output_ set_bytes]. rewrite <- Hl.
      split; [done|]. split; [by apply compact_rep|]. split; [done|cbn; lia].
  - rewrite bind_assoc. pose proof (byte_alloc_fresh (bytes s) (Z.of_nat (length q) + n)) as Hfresh.
    unfold allocate at 1, bind at 1. destruct (byte_alloc _ _) as [a|] eqn:Ha; [|done].
    destruct (Hfresh a eq_refl) as (Hpos & Hsm & Hfr). rewrite !bind_assoc. erewrite bind_ok; cycle 1.
    { apply (copy_out s q a (replicate (Z.to_nat (Z.of_nat (length q) + n)) None) Hr); [| |reflexivity];
        rewrite length_replicate; [|lia]. intros x Hx. apply Hfr. lia. }
    rewrite bind_assoc. unfold set_bytes. cbn [bytes blocks start_ end_ input_ output_].
    erewrite bind_ok; cycle 1.
    { apply give_back; [done| |exact Hb]. intros ->. destruct Hnl as [[? ?]|?]; [lia|].
      destruct (Hm (start_ s)) as [v Hv]; [lia|]. rewrite Hfr in Hv by lia. done. }
    rewrite bind_assoc. erewrite bind_ok; cycle 1.
    { unfold size. rewrite bind_get. cbn. rewrite bind_assert by lia. reflexivity. }
    unfold set_start, set_input, set_output, set_end. do 3 rewrite bind_assoc, bind_modify.
    rewrite bind_modify, bind_get.
    cbn [bytes blocks start_ end_ input_ output_ ret]. rewrite <- Hl. split; [done|].
    split; [apply moved_rep; auto; lia|]. split; [done|cbn; lia].
Qed.

Lemma load_list_app a n m vs1 vs2 n2 :
  load_list a n m = Some vs1 → load_list (a + Z.of_nat n) n2 m = Some vs2 →
  load_list a (n + n2) m = Some (vs1 ++ vs2).
Proof.
  intros [H1 Hi1]%load_list_Some [H2 Hi2]%load_list_Some. apply load_list_Some. split; [rewrite length_app; lia|].
  intros i Hi. destruct (decide (i < n)%nat).
  - by rewrite lookup_app_l, Hi1 by lia.
  - rewrite lookup_app_r, H1, <- Hi2 by lia. f_equal. lia.
Qed.

(** The client writes [vs] into the room and commits them. *)
Lemma write_commit s q vs :
  rep s q → output_ s + Z.of_nat (length vs) ≤ end_ s →
  match (write (output_ s) vs ;;; commit (Z.of_nat (length vs))) s with
  | (Ok _, s') => rep s' (q ++ vs)
  | _ => False
  end.
Proof.
  intros [Ho Hb Hn Hm Hl Hq] Hroom. unfold write, bind at 1.
  destruct (load_list_mapped (bytes s) (length vs) (output_ s)) as [ws ->]; [intros x Hx; apply Hm; lia|].
  unfold commit, set_output. rewrite bind_get, bind_modify, bind_get. cbn [end_ output_ set_bytes].
  rewrite u64_small, (proj2 (Z.ltb_ge _ _)) by lia. cbn.
  split; cbn [bytes blocks start_ end_ input_ output_]; try done; try lia.
  - intros x Hx. by apply store_mapped, Hm.
  - rewrite length_app. lia.
  - rewrite length_app. apply load_list_app.
    + eapply load_list_ext; [exact Hq|]. intros i Hi. by rewrite store_list_lookup, decide_False by lia.
    + replace (input_ s + Z.of_nat (length q)) with (output_ s) by lia. apply load_store.
Qed.
Lemma append_spec s q vs :
  rep s q → Z.of_nat (length vs) < 2 ^ 62 →
  match append vs s with
  | (Ok _, s') => rep s' (q ++ vs)
  | (Throw length_error, s') => s' = s ∧ max_size < Z.of_nat (length (q ++ vs))
  | (Throw bad_alloc, s') => s' = s ∧ byte_alloc (bytes s) (Z.of_nat (length (q ++ vs))) = None
  | _ => False
  end.
Proof.
  intros Hr Hvs. pose proof (prepare_spec s q (Z.of_nat (length vs)) Hr ltac:(lia)) as Hp.
  unfold append, bind at 1. rewrite length_app, Nat2Z.inj_add.
  destruct (prepare _ s) as [[[p n]|[]| | |] s1]; try done. destruct Hp as (-> & Hr1 & -> & Hroom).
  pose proof (write_commit s1 q vs Hr1 Hroom) as Hw. by destruct (bind _ _ s1) as [[[]| | | |] s2].
Qed.
Lemma consume_spec s q n :
  rep s q → 0 ≤ n < 2 ^ 62 →
  match consume n s with
  | (Ok _, s') => rep s' (drop (Z.to_nat n) q)
  | _ => False
  end.
Proof.
  intros [Ho Hb Hn Hm Hl Hq] Hbound. unfold consume, set_input. rewrite bind_get, bind_modify, bind_get.
  cbn [input_ output_ bytes blocks start_ end_]. rewrite u64_small by lia. apply load_list_Some in Hq as [_ Hq].
  destruct (Z.ltb_spec (output_ s) (input_ s + n)); cbn.
  - rewrite drop_ge by lia. split; cbn; try done; lia.
  - split; cbn; try done; try lia; rewrite length_drop; [lia|]. apply load_list_Some.
    split; [apply length_drop|]. intros i Hi. rewrite lookup_drop, <- Hq by lia. f_equal. lia.
Qed.
Lemma destruct_spec s q :
  rep s q → match destruct_ s with (Ok _, s') => blocks s' = ∅ | _ => False end.
Proof.
  intros [Ho Hb Hn Hm Hl Hq]. unfold destruct_, deallocate. rewrite bind_get.
  destruct (Z.eqb_spec (start_ s) 0) as [H0|H0]; cbn.
  - by rewrite Hb, decide_True.
  - rewrite (decide_False (P := start_ s = 0)) in Hb by done.
    rewrite decide_True by (by rewrite Hb, lookup_singleton_eq). cbn. by rewrite Hb, delete_singleton_eq.
Qed.

(** The buffer refines a queue of bytes.  A client that appends and consumes finds
    in [data()] exactly the bytes the queue would hold; when an operation throws, because
    the buffer would exceed [max_size] or memory is exhausted, it holds the queue of the
    operations before.  No operation fails an assertion or leaves its memory, and the
    destructor gives everything back. *)
Theorem flat_buffer_refines_queue ops s q :
  rep s q → Forall op_ok ops →
  ∃ ops1 ops2 s', ops = ops1 ++ ops2 ∧ snd (run ops s) = s' ∧
    match fst (run ops s) with
    | Ok _ => ops2 = []
    | Throw length_error => ∃ vs ops3, ops2 = Append vs :: ops3 ∧
                              max_size < Z.of_nat (length (foldl spec q ops1 ++ vs))
    | Throw bad_alloc => True
    | _ => False
    end ∧
    data s' = (Ok (foldl spec q ops1), s') ∧
    fst (destruct_ s') = Ok tt ∧ blocks (snd (destruct_ s')) = ∅.
Proof.
  intros Hr Hops. assert (Hend : ∀ s' q', rep s' q' → data s' = (Ok q', s') ∧
    fst (destruct_ s') = Ok tt ∧ blocks (snd (destruct_ s')) = ∅).
  { intros s' q' Hr'. split; [by apply data_ok|]. pose proof (destruct_spec s' q' Hr').
    by destruct (destruct_ s') as [[[]| | | |] s'']. }
  revert s q Hr. induction Hops as [|o ops Ho Hops IH]; intros s q Hr.
  { exists [], [], s. split; [done|]. split; [done|]. split; [done|]. by apply Hend. }
  cbn [run]. assert (Hstep : match run_op o s with
    | (Ok _, s') => rep s' (spec q o)
    | (Throw length_error, s') => s' = s ∧ ∃ vs, o = Append vs ∧ max_size < Z.of_nat (length (q ++ vs))
    | (Throw bad_alloc, s') => s' = s
    | _ => False
    end).
  { destruct o as [vs|n]; cbn [run_op spec].
    - pose proof (append_spec s q vs Hr Ho) as Ha.
      destruct (append vs s) as [[[]|[]| | |] s']; try done; destruct Ha; eauto.
    - pose proof (consume_spec s q n Hr Ho) as Ha. by destruct (consume n s) as [[[]|[]| | |] s']. }
  unfold bind at 1 2. destruct (run_op o s) as [[[]|[]| | |] s1]; try done.
  - destruct (IH s1 (spec q o) Hstep) as (ops1 & ops2 & s' & -> & ? & ? & ?). by exists (o :: ops1), ops2, s'.
  - destruct Hstep as (-> & vs & -> & Hgt). exists [], (Append vs :: ops), s.
    split; [done|]. split; [done|]. split; [by exists vs, ops|]. by apply Hend.
  - subst s1. exists [], (o :: ops), s. split; [done|]. split; [done|]. split; [done|]. by apply Hend.
Qed.

End buffer.

(** ** A concrete allocator *)

#[export] Instance bump_alloc : ByteAlloc :=
  λ m n, if (n <=? 100) && (fresh_key m <? 2 ^ 32) then Some (fresh_key m) else None.
#[export] Instance bump_alloc_ok : ByteAllocOk.
Proof.
  intros m n a. unfold byte_alloc, bump_alloc.
  destruct (Z.leb_spec n 100), (Z.ltb_spec (fresh_key m) (2 ^ 32)); try done. intros [= <-].
  pose proof (fresh_key_pos m). split; [done|]. split; [lia|]. intros x Hx. apply fresh_key_above. lia.
Qed.

Definition session : list op :=
  [Append [Some 1; Some 2; Some 3; Some 4]; Consume 3; Append [Some 5; Some 6]; Consume 1; Append [Some 7; Some 8; Some 9]].

Lemma flat_buffer_refines_queue_witness :
  data (snd (run session empty_buffer)) =
    (Ok [Some 5; Some 6; Some 7; Some 8; Some 9], snd (run session empty_buffer)).
Proof.
  destruct (flat_buffer_refines_queue session empty_buffer []) as (ops1 & ops2 & s' & Hops & Hs' & Hres & Hdata & _).
  - split; cbn; try done; try lia.
  - unfold session, op_ok. repeat constructor; cbn; lia.
  - assert (E : fst (run session empty_buffer) = Ok tt) by (vm_compute; reflexivity).
    rewrite E in Hres. subst ops2. rewrite app_nil_r in Hops. subst ops1. rewrite Hs'. exact Hdata.
Defined.

(** [size() + n] wraps around for the greatest [n]: the request passes the check, and the
    bytes are copied into a block that is too small. *)
Example flat_buffer_prepare_wraps :
  fst ((append [Some 1; Some 2] ;;; prepare (2 ^ 64 - 1)) empty_buffer) = Undef.
Proof. vm_compute. reflexivity. Qed.

End Flat.
