(* ===== verification/StringUtils.v ===== *)
(** * Flags and string splitting (flags.hpp, string_utils.hpp)

    A range of characters is a [text] with two positions; a [sub_string] is a pair of
    positions in the text.  The reference definition is the relation [splits], which cuts
    a range at the first occurrences of the delimiter; both implementations are proved to
    compute it. *)

From S2P Require Import Prelude.

Local Open Scope nat_scope.

Abbreviation text := (list Z).

Record sub_string : Type := SubString { first : nat; second : nat }.
Record split_results : Type := SplitResults { start_ : nat; sub_strings_ : list sub_string }.

#[export] Instance sub_string_eq_dec : EqDecision sub_string.
Proof. solve_decision. Defined.

(** ** basic_flags *)

Module Flags.

Record basic_flags : Type := Flags { value : Z }.
Definition of_enum (e : Z) : basic_flags := Flags e.
Definition band (x y : basic_flags) : basic_flags := Flags (Z.land (value x) (value y)).
Definition bor (x y : basic_flags) : basic_flags := Flags (Z.lor (value x) (value y)).
Definition bxor (x y : basic_flags) : basic_flags := Flags (Z.lxor (value x) (value y)).
Definition to_bool (x : basic_flags) : bool := negb (value x =? 0)%Z.
Definition eqb (x y : basic_flags) : bool := (value x =? value y)%Z.
(** [operator!=], which compares for equality. *)
Definition neqb (x y : basic_flags) : bool := (value x =? value y)%Z.
Definition is_set (x : basic_flags) (e : Z) : bool := eqb (band x (of_enum e)) (of_enum e).

(** For an enumerator of one bit, [is_set] is the test of [operator&], and the bit
    operators act on it as set operations. *)
Lemma flags_is_set_bit x n : (0 ≤ n)%Z → is_set x (2 ^ n) = Z.testbit (value x) n.
Proof.
  intros Hn. unfold is_set, eqb, band, of_enum. cbn. apply eq_bool_prop_intro.
  rewrite Is_true_true, Z.eqb_eq, Is_true_true. split.
  - intros H%(f_equal (λ z, Z.testbit z n)). rewrite Z.land_spec, Z.pow2_bits_true in H by done.
    by rewrite andb_true_r in H.
  - intros H. apply Z.bits_inj'. intros m Hm. rewrite Z.land_spec, Z.pow2_bits_eqb by done.
    destruct (Z.eqb_spec n m) as [<-|]; [by rewrite H|apply andb_false_r].
Qed.
Lemma flags_and_bit x n : (0 ≤ n)%Z → to_bool (band x (of_enum (2 ^ n))) = Z.testbit (value x) n.
Proof.
  intros Hn. rewrite <- flags_is_set_bit by done. unfold to_bool, is_set, eqb, band, of_enum. cbn.
  assert (Hb : Z.land (value x) (2 ^ n) = (if Z.testbit (value x) n then 2 ^ n else 0)%Z).
  { apply Z.bits_inj'. intros m Hm. rewrite Z.land_spec, Z.pow2_bits_eqb by done.
    destruct (Z.testbit (value x) n) eqn:E.
    - rewrite Z.pow2_bits_eqb by done. destruct (Z.eqb_spec n m) as [<-|]; [by rewrite E|apply andb_false_r].
    - rewrite Z.bits_0. destruct (Z.eqb_spec n m) as [<-|]; [by rewrite E|apply andb_false_r]. }
  rewrite Hb. pose proof (Z.pow_pos_nonneg 2 n ltac:(lia) Hn).
  destruct (Z.testbit (value x) n).
  - by rewrite Z.eqb_refl, (proj2 (Z.eqb_neq _ _)) by lia.
  - rewrite Z.eqb_refl. symmetry. apply Z.eqb_neq. lia.
Qed.
Lemma flags_or_is_set x y n : (0 ≤ n)%Z → is_set (bor x y) (2 ^ n) = is_set x (2 ^ n) || is_set y (2 ^ n).
Proof. intros Hn. rewrite !flags_is_set_bit by done. apply Z.lor_spec. Qed.
(** [operator!=] of equal flags is true. *)
Lemma flags_neq_wrong x : neqb x x = true.
Proof. apply Z.eqb_refl. Qed.

End Flags.

Module Split.
Import Flags.

(** [split_flag]. *)
Definition skip_empty_string : Z := 2 ^ 0.
Definition trim_results : Z := 2 ^ 1.
Definition split_flags : Type := basic_flags.

(** ** sub_string *)

Definition slice (t : text) (i j : nat) : text := take (j - i) (drop i t).
Definition length_of (s : sub_string) : nat := second s - first s.
Definition str (t : text) (s : sub_string) : text := slice t (first s) (second s).
Definition is_empty (s : sub_string) : bool := first s =? second s.

(** [std::isspace] in the "C" locale. *)
Definition isspace (c : Z) : bool := (c =? 32)%Z || ((9 <=? c)%Z && (c <=? 13)%Z).
(** [std::find_if] on the [n] characters from [i] on. *)
Fixpoint find_if (p : Z → bool) (t : text) (i n : nat) : nat :=
  match n with
  | O => i
  | S n => if from_option p false (t !! i) then i else find_if p t (S i) n
  end.
Definition trimmed (t : text) (s : sub_string) : sub_string :=
  let i := find_if (λ c, negb (isspace c)) t (first s) (second s - first s) in
  let j := find_if isspace t i (second s - i) in
  SubString i j.

(** ** split_results *)

Definition index (r : split_results) (n : nat) : option sub_string := sub_strings_ r !! n.
(** The value behind the end, [empty_value_], has no position in the text. *)
Definition result_str (t : text) (r : split_results) (n : nat) : text :=
  from_option (str t) [] (index r n).
Definition result_length (r : split_results) (n : nat) : nat :=
  from_option length_of 0 (index r n).
Definition position (r : split_results) (n : nat) : outcome Z :=
  match index r n with
  | Some s => Ok (Z.of_nat (first s) - Z.of_nat (start_ r))%Z
  | None => Undef
  end.
Definition swap (r1 r2 : split_results) : split_results * split_results := (r2, r1).
(** [split_results_builder]. *)
Definition builder (r : split_results) (start : nat) : split_results := SplitResults start [].
Definition add (r : split_results) (s : sub_string) : split_results :=
  SplitResults (start_ r) (sub_strings_ r ++ [s]).

(** ** split *)

(** The delimiter is a C string: the characters before the terminating zero. *)
Fixpoint c_string (s : list Z) : option text :=
  match s with
  | [] => None
  | c :: s => if (c =? 0)%Z then Some [] else (c ::.) <$> c_string s
  end.

(** The delimiter [d] stands at position [p] of the range that ends at [last]. *)
Definition match_at (t d : text) (last p : nat) : bool :=
  (p + length d <=? last) && bool_decide (slice t p (p + length d) = d).
(** [std::search] from [p], with [n] characters left. *)
Fixpoint search (t d : text) (last p n : nat) : nat :=
  if match_at t d last p then p
  else match n with O => last | S n => search t d last (S p) n end.

(** The part of both loops that adds a sub string to the results. *)
Definition add_unless_empty (flag : split_flags) (r : split_results) (s s' : sub_string) : split_results :=
  if negb (is_empty s) || negb (is_set flag skip_empty_string) then add r s' else r.

Fixpoint split_loop (fuel : nat) (t d : text) (flag : split_flags) (last : nat)
    (r : split_results) (first : nat) : outcome split_results :=
  match fuel with
  | O => NoFuel
  | S fuel =>
      let pos := search t d last first (last - first) in
      let substr := SubString first pos in
      let r := add_unless_empty flag r substr (if to_bool (band flag (of_enum trim_results)) then trimmed t substr else substr) in
      if pos =? last then Ok r
      else split_loop fuel t d flag last r (pos + length d)
  end.
Definition split (t : text) (first last : nat) (r : split_results) (delim : list Z) (flag : split_flags)
    : outcome split_results :=
  match c_string delim with
  | Some d => split_loop (S (last - first)) t d flag last (builder r first) first
  | None => Undef
  end.

(** [split_old]; [full_length] is a [ptrdiff_t] compared with a [size_t]. *)
Fixpoint split_old_loop (fuel : nat) (t d : text) (flag : split_flags)
    (r : split_results) (first substr_start : nat) (full_length : Z) : outcome (split_results * nat) :=
  match fuel with
  | O => NoFuel
  | S fuel =>
      if (Z.of_nat (length d) <=? u64 full_length)%Z then
        if bool_decide (slice t first (first + length d) = d) then
          let substr := SubString substr_start first in
          let r := add_unless_empty flag r substr substr in
          let first := first + length d in
          split_old_loop fuel t d flag r first first (full_length - Z.of_nat (length d))
        else split_old_loop fuel t d flag r (S first) substr_start (full_length - 1)
      else Ok (r, substr_start)
  end.
Definition split_old (t : text) (first last : nat) (r : split_results) (delim : list Z) (flag : split_flags)
    : outcome split_results :=
  match c_string delim with
  | Some d =>
      match split_old_loop (S (last - first)) t d flag (builder r first) first first
              (Z.of_nat last - Z.of_nat first) with
      | Ok (r, substr_start) =>
          let substr := SubString substr_start last in
          Ok (add_unless_empty flag r substr substr)
      | Throw e => Throw e
      | Abort => Abort
      | Undef => Undef
      | NoFuel => NoFuel
      end
  | None => Undef
  end.

(** The overloads for a C string and for a string object. *)
Definition split_c (ptr : list Z) (r : split_results) (delim : list Z) (flag : split_flags) : outcome split_results :=
  match c_string ptr with
  | Some t => split t 0 (length t) r delim flag
  | None => Undef
  end.
Definition split_string (s : text) (r : split_results) (delim : list Z) (flag : split_flags) : outcome split_results :=
  split s 0 (length s) r delim flag.

(** ** Reference definition *)

Section reference.
Context (t d : text) (last : nat).

(** The range from a position on, cut at the first occurrences of the delimiter. *)
Inductive splits : nat → list sub_string → Prop :=
| splits_last i :
    (∀ p, i ≤ p < last → match_at t d last p = false) → splits i [SubString i last]
| splits_cut i pos l :
    i ≤ pos → match_at t d last pos = true → (∀ p, i ≤ p < pos → match_at t d last p = false) →
    splits (pos + length d) l → splits i (SubString i pos :: l).

(** The sub strings that the flags let through, with their trimming. *)
Definition emitted (flag : split_flags) (l : list sub_string) : list sub_string :=
  (λ s, if to_bool (band flag (of_enum trim_results)) then trimmed t s else s) <$>
    filter (λ s, negb (is_empty s) || negb (is_set flag skip_empty_string)) l.

(** The pieces with the delimiter in between. *)
Fixpoint join (l : list text) : text :=
  match l with
  | [] => []
  | [s] => s
  | s :: l => s ++ d ++ join l
  end.

End reference.

(** ** Proofs *)

Section proofs.
Context (t d : text) (last : nat) (Hd : d ≠ []).

Lemma match_at_bound p : match_at t d last p = true → p + length d ≤ last ∧ slice t p (p + length d) = d.
Proof. unfold match_at. by intros [H%Nat.leb_le H2%bool_decide_eq_true]%andb_true_iff. Qed.
Lemma delim_length : 0 < length d.
Proof. destruct d; [done|cbn; lia]. Qed.

(** [search] finds the first occurrence. *)
Lemma search_spec n : ∀ p, p + n = last →
  let pos := search t d last p n in
  p ≤ pos ≤ last ∧ (∀ i, p ≤ i < pos → match_at t d last i = false) ∧
  (pos ≠ last → match_at t d last pos = true).
Proof.
  induction n as [|n IH]; intros p Hp; cbn [search]; destruct (match_at t d last p) eqn:Hm.
  - split; [lia|]. split; [lia|done].
  - split; [lia|]. split; [lia|done].
  - split; [lia|]. split; [lia|done].
  - destruct (IH (S p) ltac:(lia)) as (Hb & Hno & Hyes). split; [lia|]. split; [|done].
    intros i Hi. destruct (decide (i = p)) as [->|]; [done|]. apply Hno. lia.
Qed.

Lemma splits_det i l1 l2 : splits t d last i l1 → splits t d last i l2 → l1 = l2.
Proof.
  intros H1. revert l2. induction H1 as [i Hno|i pos l Hi Hm Hno _ IH]; intros l2 H2.
  - inversion H2 as [|? pos ? ? Hm]; subst; [done|]. pose proof (match_at_bound _ Hm). pose proof delim_length.
    rewrite Hno in Hm by lia. done.
  - inversion H2 as [? Hno'|? pos' l' ? Hm' Hno']; subst.
    + pose proof (match_at_bound _ Hm). pose proof delim_length. rewrite Hno' in Hm by lia. done.
    + assert (pos = pos') as ->; [|f_equal; by apply IH].
      destruct (lt_eq_lt_dec pos pos') as [[?|?]|?]; [|done|].
      * rewrite Hno' in Hm by lia. done.
      * rewrite Hno in Hm' by lia. done.
Qed.

Lemma emitted_cons flag s l :
  emitted t flag (s :: l) =
    (if negb (is_empty s) || negb (is_set flag skip_empty_string)
     then [if to_bool (band flag (of_enum trim_results)) then trimmed t s else s] else []) ++ emitted t flag l.
Proof. unfold emitted. rewrite filter_cons. destruct (negb (is_empty s) || _); by cbn. Qed.

(** [split] computes the reference. *)
Lemma split_loop_splits flag : ∀ fuel r i,
  i ≤ last → last - i < fuel →
  ∃ l, splits t d last i l ∧
       split_loop fuel t d flag last r i = Ok (SplitResults (start_ r) (sub_strings_ r ++ emitted t flag l)).
Proof.
  pose proof delim_length as Hlen.
  induction fuel as [|fuel IH]; intros r i Hi Hf; [lia|]. cbn [split_loop].
  destruct (search_spec (last - i) i ltac:(lia)) as (Hb & Hno & Hyes).
  set (pos := search t d last i (last - i)) in *.
  set (e := if to_bool (band flag (of_enum trim_results)) then trimmed t (SubString i pos) else SubString i pos).
  set (r' := add_unless_empty flag r (SubString i pos) e).
  assert (Hadd : ∀ l, SplitResults (start_ r') (sub_strings_ r' ++ emitted t flag l) =
    SplitResults (start_ r) (sub_strings_ r ++ emitted t flag (SubString i pos :: l))).
  { intros l. rewrite emitted_cons. subst r'. unfold add_unless_empty.
    destruct (_ || _); cbn; by rewrite <- ?app_assoc. }
  destruct (Nat.eqb_spec pos last) as [Heq|Hne].
  - exists [SubString i pos]. split; [rewrite Heq; constructor; intros p Hp; apply Hno; lia|].
    f_equal. rewrite <- Hadd. cbn. rewrite app_nil_r. by destruct r'.
  - destruct (match_at_bound pos (Hyes Hne)) as [Hle _].
    destruct (IH r' (pos + length d) ltac:(lia) ltac:(lia)) as (l & Hs & ->).
    exists (SubString i pos :: l). split; [by constructor; [lia|apply Hyes| |]|]. f_equal. apply Hadd.
Qed.

(** [split_old] computes the reference too. *)
Lemma split_old_loop_splits flag :
  to_bool (band flag (of_enum trim_results)) = false → (Z.of_nat last < 2 ^ 63)%Z →
  ∀ fuel r i start,
  start ≤ i ≤ last → last - i < fuel → (∀ p, start ≤ p < i → match_at t d last p = false) →
  ∃ l s0, splits t d last start (l ++ [SubString s0 last]) ∧
    split_old_loop fuel t d flag r i start (Z.of_nat last - Z.of_nat i) =
      Ok (SplitResults (start_ r) (sub_strings_ r ++ emitted t flag l), s0).
Proof.
  intros Htrim Hlast. pose proof delim_length as Hlen.
  induction fuel as [|fuel IH]; intros r i start Hi Hf Hno; [lia|]. cbn [split_old_loop].
  rewrite u64_small by lia. destruct (Z.leb_spec (Z.of_nat (length d)) (Z.of_nat last - Z.of_nat i)) as [Hle|Hgt].
  - case_bool_decide as Hm.
    + replace (Z.of_nat last - Z.of_nat i - Z.of_nat (length d))%Z with (Z.of_nat last - Z.of_nat (i + length d))%Z by lia.
      edestruct (IH (add_unless_empty flag r (SubString start i) (SubString start i)) (i + length d) (i + length d))
        as (l & s0 & Hs & ->); [lia|lia|intros; lia|].
      exists (SubString start i :: l), s0. split.
      * cbn [app]. constructor; [lia| |done|done]. unfold match_at.
        rewrite bool_decide_true by done. rewrite andb_true_r. apply Nat.leb_le. lia.
      * rewrite emitted_cons, Htrim. unfold add_unless_empty. destruct (_ || _); cbn; by rewrite <- ?app_assoc.
    + replace (Z.of_nat last - Z.of_nat i - 1)%Z with (Z.of_nat last - Z.of_nat (S i))%Z by lia.
      destruct (IH r (S i) start) as (l & s0 & Hs & ->); [lia|lia| |by exists l, s0].
      intros p Hp. destruct (decide (p = i)) as [->|]; [|apply Hno; lia].
      unfold match_at. by rewrite (bool_decide_false _ Hm), andb_false_r.
  - exists [], start. split; [|by cbn; rewrite app_nil_r; destruct r].
    constructor. intros p Hp. destruct (decide (p < i)) as [|]; [apply Hno; lia|].
    unfold match_at. rewrite (proj2 (Nat.leb_gt _ _)) by lia. done.
Qed.

(** ** Properties of the reference *)

Lemma slice_split i j k : i ≤ j ≤ k → slice t i k = slice t i j ++ slice t j k.
Proof.
  intros H. unfold slice. replace (k - i) with ((j - i) + (k - j)) by lia.
  rewrite <- take_take_drop, drop_drop. do 2 f_equal. f_equal. lia.
Qed.
(** The pieces, with the delimiter in between, are the text. *)
Lemma splits_join i l : splits t d last i l → i ≤ last → join d (str t <$> l) = slice t i last.
Proof.
  induction 1 as [i Hno|i pos l Hi Hm Hno Hl IH]; intros Hle; [done|].
  destruct (match_at_bound _ Hm) as [Hb Hsl]. rewrite (slice_split i pos last), (slice_split pos (pos + length d) last) by lia.
  rewrite Hsl, <- IH by lia. by destruct Hl.
Qed.
(** No piece contains the delimiter. *)
Lemma splits_no_delim i l s p :
  splits t d last i l → i ≤ last → s ∈ l → first s ≤ p → p + length d ≤ second s →
  slice t p (p + length d) ≠ d.
Proof.
  pose proof delim_length as Hlen.
  assert (Hno : ∀ j pos, pos ≤ last → (∀ q, j ≤ q < pos → match_at t d last q = false) → j ≤ p → p + length d ≤ pos →
    slice t p (p + length d) ≠ d).
  { intros j pos Hpos Hno Hj Hp Hsl. specialize (Hno p ltac:(lia)). unfold match_at in Hno.
    rewrite (proj2 (Nat.leb_le _ _)), bool_decide_true in Hno by (done || lia). done. }
  induction 1 as [i Hn|i pos l Hi Hm Hn Hl IH]; intros Hle Hin Hp1 Hp2.
  - apply list_elem_of_singleton in Hin as ->. cbn in *. by apply (Hno i last).
  - destruct (match_at_bound _ Hm) as [Hb _]. apply elem_of_cons in Hin as [->|Hin].
    + cbn in *. apply (Hno i pos); [lia|done..].
    + apply IH; done.
Qed.

End proofs.


(** The older implementation [split_old] gives the same results as [split] when the
    results are not to be trimmed. *)
Theorem split_old_equiv t i last r delim d flag :
  c_string delim = Some d → d ≠ [] → i ≤ last ≤ length t → (Z.of_nat (length t) < 2 ^ 63)%Z →
  to_bool (band flag (of_enum trim_results)) = false →
  split_old t i last r delim flag = split t i last r delim flag.
Proof.
  intros Hc Hd Hi Ht Htrim. unfold split, split_old. rewrite Hc.
  destruct (split_loop_splits t d last Hd flag (S (last - i)) (builder r i) i) as (l & Hs & ->); [lia|lia|].
  destruct (split_old_loop_splits t d last Hd flag Htrim ltac:(lia) (S (last - i)) (builder r i) i i)
    as (l' & s0 & Hs' & ->); [lia|lia|intros; lia|].
  rewrite (splits_det t d last Hd i l (l' ++ [SubString s0 last]) Hs Hs').
  unfold emitted. rewrite filter_app, fmap_app. unfold add_unless_empty. rewrite filter_cons.
  rewrite Htrim. destruct (_ || _); cbn; by rewrite ?app_nil_r.
Qed.

(** ** Concrete inputs *)

(** ["a,,b"] split at [","]. *)
Definition sample : text := [97; 44; 44; 98]%Z.
Definition comma : list Z := [44; 0]%Z.
Definition no_results : split_results := SplitResults 0 [].

Lemma split_old_witness :
  split_old sample 0 4 no_results comma (Flags 1) = Ok (SplitResults 0 [SubString 0 1; SubString 3 4]).
Proof.
  rewrite (split_old_equiv sample 0 4 no_results comma [44]%Z (Flags 1));
    [vm_compute; reflexivity|reflexivity|done|cbn; lia|cbn; lia|reflexivity].
Defined.

(** [trimmed] ends at the first space inside: ["a b"] becomes ["a"]. *)
Example split_trims_inside :
  str [97; 32; 98]%Z (trimmed [97; 32; 98]%Z (SubString 0 3)) = [97]%Z.
Proof. reflexivity. Qed.
(** With an empty delimiter [split] does not end. *)
Lemma split_empty_delim_loops t flag last : ∀ fuel r i,
  i < last → split_loop fuel t [] flag last r i = NoFuel.
Proof.
  induction fuel as [|fuel IH]; intros r i Hi; [done|]. cbn [split_loop].
  assert (Hm : match_at t [] last i = true).
  { unfold match_at. rewrite (proj2 (Nat.leb_le _ _)) by (cbn; lia). apply bool_decide_true.
    unfold slice. cbn [length]. by rewrite Nat.add_0_r, Nat.sub_diag. }
  replace (search t [] last i (last - i)) with i by (destruct (last - i); cbn [search]; by rewrite Hm).
  rewrite (proj2 (Nat.eqb_neq _ _)) by lia. apply IH. cbn. lia.
Qed.

End Split.
