(* ===== verification/Lifetime.v ===== *)
(** * Lifetimes of objects in raw storage

    [optional], [expected] and [variant] keep their value in a union and a flag that says
    what lives there.  [cells] maps the address of the storage to the object that lives in
    it: the alternative of the union and its value.  [flags] holds the flag of every object
    ([has_val_], [ok_] or [index_]).  A constructor or an assignment of an element may throw
    unless its type says otherwise: [budget] is the number of such calls that still succeed.
    Destroying or reading what does not live is undefined behaviour; an object that is
    overwritten by a constructor is never destroyed and is counted in [leaks]. *)

From S2P Require Import Prelude.

Local Open Scope Z_scope.
Local Open Scope gpcl_scope.

(** The value a moved-from object is left with. *)
Class Moved (V : Type) : Type := moved : V → V.

Module Life.

Section lifetime.
Context {V F : Type}.

Record state : Type := State {
  cells : gmap Z (Z * V);
  flags : gmap Z F;
  budget : nat;
  leaks : nat;
}.
Abbreviation L A := (M state A).

(** ** Flags *)

Definition flag (a : Z) : L F :=
  λ s, match flags s !! a with Some f => (Ok f, s) | None => (Undef, s) end.
Definition set_flag (a : Z) (f : F) : L unit :=
  modify (λ s, State (cells s) (<[a := f]> (flags s)) (budget s) (leaks s)).
(** The end of an object's life. *)
Definition end_life (a : Z) : L unit :=
  modify (λ s, State (cells s) (delete a (flags s)) (budget s) (leaks s)).

(** ** Elements *)

(** A call that throws when the budget is spent. *)
Definition risk (nothrow : bool) : L unit :=
  λ s, if nothrow then (Ok tt, s) else
       match budget s with
       | O => (Throw runtime_error, s)
       | S b => (Ok tt, State (cells s) (flags s) b (leaks s))
       end.
(** [::new (a) T(v)] for the alternative [t]. *)
Definition construct (nothrow : bool) (a t : Z) (v : V) : L unit :=
  risk nothrow ;;;
  modify (λ s, State (<[a := (t, v)]> (cells s)) (flags s) (budget s)
                 (if cells s !! a is Some _ then S (leaks s) else leaks s)).
(** [a.~T()]. *)
Definition destroy (a t : Z) : L unit :=
  λ s, match cells s !! a with
       | Some (t', _) => if t =? t' then (Ok tt, State (delete a (cells s)) (flags s) (budget s) (leaks s))
                         else (Undef, s)
       | None => (Undef, s)
       end.
Definition read (a t : Z) : L V :=
  λ s, match cells s !! a with
       | Some (t', v) => if t =? t' then (Ok v, s) else (Undef, s)
       | None => (Undef, s)
       end.
(** Overwriting the value of a living object. *)
Definition store (a t : Z) (v : V) : L unit :=
  λ s, match cells s !! a with
       | Some (t', _) => if t =? t' then (Ok tt, State (<[a := (t, v)]> (cells s)) (flags s) (budget s) (leaks s))
                         else (Undef, s)
       | None => (Undef, s)
       end.
(** Assignment to an element. *)
Definition assign (nothrow : bool) (a t : Z) (v : V) : L unit :=
  read a t ;;; risk nothrow ;;; store a t v.
(** A local copy of a value. *)
Definition local_copy (nothrow : bool) (v : V) : L V := risk nothrow ;;; ret v.

Context `{!Moved V}.

(** The value at [b] is moved into the raw storage [a], or assigned to the object there. *)
Definition move_construct (nothrow : bool) (a t b u : Z) : L unit :=
  let! v := read b u in
  construct nothrow a t v ;;;
  store b u (moved v).
Definition move_assign (nothrow : bool) (a t b u : Z) : L unit :=
  let! v := read b u in
  assign nothrow a t v ;;;
  store b u (moved v).
Definition local_move (nothrow : bool) (b u : Z) : L V :=
  let! v := read b u in
  risk nothrow ;;;
  store b u (moved v) ;;;
  ret v.

(** The storage and the flag are copied byte by byte. *)
Definition copy_bytes (a b : Z) : L unit :=
  let! f := flag b in
  set_flag a f ;;;
  modify (λ s, State (partial_alter (λ _, cells s !! b) a (cells s)) (flags s) (budget s) (leaks s)).

(** ** Abstract states

    An abstract state maps the address of each object to its value in [O]; [fl] and [ce]
    give the flag and the contents of the storage that represent it. *)
Section abstract.
Context {O : Type} (fl : O → F) (ce : O → option (Z * V)).

Definition conc (m : gmap Z O) (b : nat) : state := State (omap ce m) (fl <$> m) b 0.

Lemma conc_insert m a o b :
  conc (<[a := o]> m) b =
    State (partial_alter (λ _, ce o) a (omap ce m)) (<[a := fl o]> (fl <$> m)) b 0.
Proof.
  unfold conc. rewrite fmap_insert. f_equal. apply map_eq. intros i. rewrite lookup_omap.
  destruct (decide (a = i)) as [<-|Hne].
  - by rewrite lookup_insert_eq, lookup_partial_alter_eq.
  - by rewrite lookup_insert_ne, lookup_partial_alter_ne, lookup_omap.
Qed.
Lemma conc_delete m a b : conc (delete a m) b = State (delete a (omap ce m)) (delete a (fl <$> m)) b 0.
Proof. unfold conc. by rewrite omap_delete, fmap_delete. Qed.
Lemma cell_conc (m : gmap Z O) a o : m !! a = Some o → omap ce m !! a = ce o.
Proof. intros H. by rewrite lookup_omap, H. Qed.
Lemma cell_fresh (m : gmap Z O) a : m !! a = None → omap ce m !! a = None.
Proof. intros H. by rewrite lookup_omap, H. Qed.
Lemma flag_conc (m : gmap Z O) a o : m !! a = Some o → (fl <$> m) !! a = Some (fl o).
Proof. intros H. by rewrite lookup_fmap, H. Qed.

End abstract.

End lifetime.
Arguments state : clear implicits.

(** Numbers stand for a concrete element type: a moved-from one is 0. *)
#[export] Instance moved_Z : Moved Z := λ _, 0.

(** Symbolic execution: unfolds the operations and decides every lookup. *)
Ltac life_lookup :=
  match goal with
  | H : ?m !! ?a = _ |- context [?m !! ?a] => rewrite H
  | |- context [<[_ := _]> _ !! _] => rewrite lookup_insert
  | |- context [delete _ _ !! _] => rewrite lookup_delete
  | |- context [partial_alter _ _ _ !! _] => rewrite lookup_partial_alter
  | |- context [(_ <$> _) !! _] => rewrite lookup_fmap
  | |- context [omap _ _ !! _] => rewrite lookup_omap
  end.
Ltac life_unfold :=
  cbv [bind ret throw modify gpcl_assert try_catch noexcept flag set_flag end_life risk construct destroy
       read store assign local_copy move_construct move_assign local_move copy_bytes conc
       cells flags budget leaks] in *; cbn in *.
Ltac life_run :=
  repeat first
    [ life_lookup
    | rewrite Z.eqb_refl
    | case_decide; [|try (exfalso; congruence)]; simplify_eq
    | match goal with
      | |- context [match ?x with _ => _ end] => is_var x; destruct x
      | H : ?x = _ |- context [match ?x with _ => _ end] => rewrite H
      | |- context [if ?f ?T then _ else _] => is_var T; destruct (f T) eqn:?
      end
    | progress (life_unfold; simplify_eq) ].
(** Equality of two concrete states: pointwise on the maps. *)
Ltac life_eq :=
  repeat match goal with
  | |- @eq (state _ _) _ _ => f_equal
  | |- @eq (gmap _ _) _ _ => apply map_eq; intros ?i
  end;
  repeat first [ life_lookup | case_decide; simplify_eq | progress (cbn in *; simplify_eq) ];
  try done.

End Life.
