(* ===== verification/Optional.v ===== *)
(** * optional (optional.hpp, detail/optional.hpp)

    The storage and the flag [has_val_] of an optional have the same address.  [traits] are
    the properties of the element type the templates ask for: the base classes of
    [optional] select their copy and move operations by them.  The abstract value of an
    optional is an [option]. *)

From S2P Require Import Prelude Lifetime.

Local Open Scope Z_scope.
Local Open Scope gpcl_scope.

Module Optional.
Import Life.

Record traits : Type := Traits {
  trivial : bool;          (* trivially copyable, movable and destructible *)
  nothrow_copy : bool;
  nothrow_move : bool;
  nothrow_assign : bool;
}.

Section optional.
Context {V : Type} `{!Moved V} (T : traits).
Abbreviation O A := (M (state V bool) A).
Local Abbreviation flag := (@Life.flag V bool).

(** ** Construction and destruction *)

(** [~optional_destruct_base()]; the life of a trivial value ends with that of the
    optional. *)
Definition destruct_base (this : Z) : O unit :=
  let! has := flag this in
  if has then destroy this 0 else ret tt.
Definition destruct_ (this : Z) : O unit := destruct_base this ;;; end_life this.

(** A constructor whose body throws destroys the base class. *)
Definition constructor (this : Z) (body : O unit) : O unit :=
  try_catch body (destruct_ this).

(** [optional()] and [optional(nullopt)]. *)
Definition construct_nullopt (this : Z) : O unit := set_flag this false.
(** [optional(in_place, args...)] and [optional(U &&)]; [nothrow] is that of the
    constructor selected.  [val_] is initialized before the flag. *)
Definition construct_value (nothrow : bool) (this : Z) (v : V) : O unit :=
  construct nothrow this 0 v ;;; set_flag this true.
(** [optional(const optional &)]: copies [this->val_]. *)
Definition copy_construct (this other : Z) : O unit :=
  if trivial T then copy_bytes this other else
  set_flag this false ;;;
  constructor this
    (let! has := flag other in
     set_flag this has ;;;
     if has then let! v := read this 0 in construct (nothrow_copy T) this 0 v else ret tt).
(** [optional(optional &&)]. *)
Definition move_construct (this other : Z) : O unit :=
  if trivial T then copy_bytes this other else
  set_flag this false ;;;
  constructor this
    (let! has := flag other in
     set_flag other false ;;;
     set_flag this has ;;;
     if has then Life.move_construct (nothrow_move T) this 0 other 0 ;;; destroy other 0 else ret tt).
(** [optional(const optional<U> &)] and [optional(optional<U> &&)]; the latter copies
    the value as well, and does not destroy it in the source. *)
Definition convert_copy_construct (this other : Z) : O unit :=
  set_flag this false ;;;
  constructor this
    (let! has := flag other in
     set_flag this has ;;;
     if has then let! v := read other 0 in construct (nothrow_copy T) this 0 v else ret tt).
Definition convert_move_construct (this other : Z) : O unit :=
  set_flag this false ;;;
  constructor this
    (let! has := flag other in
     set_flag other false ;;;
     set_flag this has ;;;
     if has then let! v := read other 0 in construct (nothrow_copy T) this 0 v else ret tt).

(** ** Assignment *)

(** [operator=(nullopt)] and [reset()]. *)
Definition assign_nullopt (this : Z) : O unit :=
  let! has := flag this in
  set_flag this false ;;;
  if has then destroy this 0 else ret tt.
Definition reset (this : Z) : O unit := assign_nullopt this.

(** [operator=(const optional &)], and [operator=(const optional<U> &)]. *)
Definition copy_assign_cases (this other : Z) : O unit :=
  let! has := flag this in
  let! other_has := flag other in
  match has, other_has with
  | true, true => let! v := read other 0 in assign (nothrow_assign T) this 0 v
  | true, false => destroy this 0 ;;; set_flag this false
  | false, true =>
      set_flag this true ;;;
      let! v := read other 0 in construct (nothrow_copy T) this 0 v
  | false, false => ret tt
  end.
Definition copy_assign (this other : Z) : O unit :=
  if trivial T then copy_bytes this other else copy_assign_cases this other.

(** [operator=(optional &&)]. *)
Definition move_assign (this other : Z) : O unit :=
  if trivial T then copy_bytes this other else
  let! has := flag this in
  let! other_has := flag other in
  match has, other_has with
  | true, true =>
      Life.move_assign (nothrow_assign T) this 0 other 0 ;;;
      destroy other 0 ;;;
      set_flag other false
  | true, false => destroy this 0 ;;; set_flag this false
  | false, true =>
      set_flag this true ;;;
      Life.move_construct (nothrow_move T) this 0 other 0 ;;;
      destroy other 0 ;;;
      set_flag other false
  | false, false => ret tt
  end.
(** [operator=(optional<U> &&)]: the value of the source is not destroyed. *)
Definition convert_move_assign (this other : Z) : O unit :=
  let! has := flag this in
  let! other_has := flag other in
  match has, other_has with
  | true, true =>
      Life.move_assign (nothrow_assign T) this 0 other 0 ;;;
      set_flag other false
  | true, false => destroy this 0 ;;; set_flag this false
  | false, true =>
      set_flag this true ;;;
      Life.move_construct (nothrow_move T) this 0 other 0 ;;;
      set_flag other false
  | false, false => ret tt
  end.
(** [operator=(U &&)]. *)
Definition assign_value (nothrow : bool) (this : Z) (u : V) : O unit :=
  let! has := flag this in
  if has then assign nothrow this 0 u
  else construct nothrow this 0 u ;;; set_flag this true.

(** ** Modifiers *)

Definition emplace (nothrow : bool) (this : Z) (v : V) : O V :=
  let! has := flag this in
  (if has && negb (trivial T) then destroy this 0 ;;; set_flag this false
   else if has then destroy this 0 (* the new object reuses the storage *)
   else ret tt) ;;;
  construct nothrow this 0 v ;;;
  set_flag this true ;;;
  read this 0.

Definition swap (this other : Z) : O unit :=
  let! has := flag this in
  let! other_has := flag other in
  match has, other_has with
  | true, true =>
      let! v := read this 0 in
      let! w := read other 0 in
      store this 0 w ;;; store other 0 v
  | true, false =>
      move_assign other this ;;;
      destroy this 0 ;;;
      set_flag this false ;;;
      set_flag other true
  | false, true =>
      move_assign this other ;;;
      destroy other 0 ;;;
      set_flag other false ;;;
      set_flag this true
  | false, false => ret tt
  end.

(** ** Observers *)

Definition has_value (this : Z) : O bool := flag this.
(** [operator*] and [operator->]. *)
Definition deref (this : Z) : O V :=
  let! has := flag this in
  gpcl_assert has ;;; read this 0.
Definition value (this : Z) : O V :=
  let! has := has_value this in
  if has then deref this else throw bad_optional_access.
Definition value_or (this : Z) (default_value : V) : O V :=
  let! has := has_value this in
  if has then deref this else ret default_value.
Definition and_then {A} (this : Z) (f : V → O (option A)) : O (option A) :=
  let! has := has_value this in
  if has then let! v := value this in f v else ret None.

End optional.

(** ** Refinement

    An abstract state maps each optional to its value. *)

Section refinement.
Context {V : Type} `{!Moved V} (T : traits) (HT : trivial T = false).

Definition full (o : option V) : bool := match o with Some _ => true | None => false end.
Definition content (o : option V) : option (Z * V) := (λ v, (0, v)) <$> o.
Definition repr (m : gmap Z (option V)) (b : nat) : state V bool := conc full content m b.

Inductive op : Type :=
| ConstructNullopt (a : Z)
| ConstructValue (nothrow : bool) (a : Z) (v : V)
| MoveConstruct (a b : Z)
| Destruct (a : Z)
| Reset (a : Z)
| Emplace (nothrow : bool) (a : Z) (v : V)
| AssignValue (nothrow : bool) (a : Z) (v : V)
| CopyAssign (a b : Z)
| MoveAssign (a b : Z)
| Swap (a b : Z).

Definition run_op (o : op) : M (state V bool) unit :=
  match o with
  | ConstructNullopt a => construct_nullopt a
  | ConstructValue nt a v => construct_value nt a v
  | MoveConstruct a b => move_construct T a b
  | Destruct a => destruct_ a
  | Reset a => reset a
  | Emplace nt a v => emplace T nt a v ;;; ret tt
  | AssignValue nt a v => assign_value nt a v
  | CopyAssign a b => copy_assign T a b
  | MoveAssign a b => move_assign T a b
  | Swap a b => swap T a b
  end.

Definition value_at (m : gmap Z (option V)) (a : Z) : option V := m !! a ≫= id.
(** What the operations mean; and what an exception leaves. *)
Definition spec (m : gmap Z (option V)) (o : op) : gmap Z (option V) :=
  match o with
  | ConstructNullopt a | Reset a => <[a := None]> m
  | ConstructValue _ a v | Emplace _ a v | AssignValue _ a v => <[a := Some v]> m
  | MoveConstruct a b | MoveAssign a b => <[b := None]> (<[a := value_at m b]> m)
  | Destruct a => delete a m
  | CopyAssign a b => <[a := value_at m b]> m
  | Swap a b => <[b := value_at m a]> (<[a := value_at m b]> m)
  end.
Definition spec_throw (m : gmap Z (option V)) (o : op) : gmap Z (option V) :=
  match o with Emplace _ a _ => <[a := None]> m | _ => m end.

(** When an operation may be called: on objects that live, or into fresh storage; where
    the code sets the flag before it constructs the value, the constructor must not
    throw; and [swap] only if both or none have a value. *)
Definition allowed (m : gmap Z (option V)) (o : op) : Prop :=
  match o with
  | ConstructNullopt a | ConstructValue _ a _ => m !! a = None
  | MoveConstruct a b => m !! a = None ∧ is_Some (m !! b) ∧ nothrow_move T = true
  | Destruct a | Reset a | Emplace _ a _ | AssignValue _ a _ => is_Some (m !! a)
  | CopyAssign a b => a ≠ b ∧ is_Some (m !! a) ∧ is_Some (m !! b) ∧
                      (value_at m a = None → nothrow_copy T = true)
  | MoveAssign a b => a ≠ b ∧ is_Some (m !! a) ∧ is_Some (m !! b) ∧
                      (value_at m a = None → nothrow_move T = true)
  | Swap a b => a ≠ b ∧ is_Some (m !! a) ∧ is_Some (m !! b) ∧ full (value_at m a) = full (value_at m b)
  end.

(** The prerequisites of an operation, as facts about the values involved. *)
Ltac prerequisites :=
  unfold allowed, spec, spec_throw, value_at in *; cbn in *;
  repeat match goal with
  | H : _ ∧ _ |- _ => destruct H
  | H : is_Some _ |- _ => destruct H as [[?|] ?]
  | H : ?m !! ?a = _, H' : context [?m !! ?a] |- _ =>
      lazymatch H' with H => fail | _ => rewrite H in H'; cbn in H' end
  | H : ?x = ?x → _ |- _ => specialize (H eq_refl)
  end.

(** The operations of [optional] on a non-trivial element type refine those of
    [option]: each leaves in every optional exactly the value it should hold, with the flag
    that says so; an exception leaves the old values, but for [emplace], which leaves the
    optional empty.  No value is read or destroyed that does not live, and none is lost. *)
Theorem optional_refines_option m b o :
  allowed m o →
  match run_op o (repr m b) with
  | (Ok _, s') => ∃ b', s' = repr (spec m o) b'
  | (Throw _, s') => s' = repr (spec_throw m o) 0
  | _ => False
  end.
Proof.
  intros Ha. destruct o as [a|nt a v|a c|a|a|nt a v|nt a v|a c|a c|a c]; prerequisites; unfold repr;
    cbv [construct_nullopt construct_value move_construct constructor destruct_ destruct_base reset
         assign_nullopt emplace assign_value copy_assign copy_assign_cases move_assign swap];
    rewrite ?HT; life_run; try done; try (eexists; life_eq); try life_eq.
Qed.

(** Access. *)
Lemma optional_value_spec m b a o :
  m !! a = Some o →
  value a (repr m b) = (match o with Some v => Ok v | None => Throw bad_optional_access end, repr m b) ∧
  ∀ d, value_or a d (repr m b) = (Ok (default d o), repr m b).
Proof.
  intros Ha. unfold value, value_or, deref, has_value, repr. split; [|intros d]; destruct o; by life_run.
Qed.

(** ** Where the code breaks the type's invariant *)

(** The copy constructor of a non-trivial type copies the new, uninitialised value. *)
Lemma optional_copy_construct_undef m b a c v :
  m !! a = None → m !! c = Some (Some v) → fst (copy_construct T a c (repr m b)) = Undef.
Proof. intros. unfold copy_construct, constructor, repr. rewrite HT. by life_run. Qed.
(** Copy assignment sets the flag first: if the copy throws, the optional claims a value
    that does not live, and its destructor destroys it. *)
Lemma optional_copy_assign_throw m a c v :
  a ≠ c → m !! a = Some None → m !! c = Some (Some v) → nothrow_copy T = false →
  ∃ s', copy_assign T a c (repr m 0) = (Throw runtime_error, s') ∧ fst (destruct_ a s') = Undef.
Proof.
  intros. unfold copy_assign, copy_assign_cases, destruct_, destruct_base, repr. rewrite HT.
  eexists. split; [by life_run|]. by life_run.
Qed.
(** [swap] with an empty optional destroys the moved value twice. *)
Lemma optional_swap_undef m b a c v :
  a ≠ c → m !! a = Some (Some v) → m !! c = Some None → nothrow_move T = true →
  fst (swap T a c (repr m b)) = Undef.
Proof. intros. unfold swap, move_assign, repr. rewrite HT. by life_run. Qed.
(** The converting move constructor leaves a value in an optional that claims to be empty. *)
Lemma optional_convert_move_leaks m b a c v :
  a ≠ c → m !! a = None → m !! c = Some (Some v) → nothrow_copy T = true →
  ∃ s', convert_move_construct T a c (repr m b) = (Ok tt, s') ∧
        flags s' !! c = Some false ∧ cells s' !! c = Some (0, v).
Proof.
  intros. unfold convert_move_construct, constructor, repr. eexists. split; [by life_run|]. by life_run.
Qed.

End refinement.

(** ** Comparison, of the values two optionals hold *)

Section comparison.
Context {V : Type} (eqb ltb : V → V → bool).

Definition eq_op (x y : option V) : bool :=
  match x, y with
  | Some x, Some y => eqb x y
  | None, None => true
  | _, _ => false
  end.
Definition ne_op (x y : option V) : bool := negb (eq_op x y).
Definition both (r : V → V → bool) (x y : option V) : bool :=
  match x, y with Some x, Some y => r x y | _, _ => false end.
Definition lt_op : option V → option V → bool := both ltb.
Definition gt_op : option V → option V → bool := both (λ x y, ltb y x).
Definition le_op : option V → option V → bool := both (λ x y, negb (ltb y x)).
Definition ge_op : option V → option V → bool := both (λ x y, negb (ltb x y)).
(** [operator>=(const T &, const optional<U> &)] compares with [>]. *)
Definition ge_value_op (x : V) (y : option V) : bool :=
  match y with Some y => ltb y x | None => false end.

End comparison.

(** Two empty optionals are equal but neither [<=] nor [>=]; [x >= optional(x)] is false. *)
Example optional_le_not_reflexive : le_op Z.ltb None None = false ∧ eq_op Z.eqb None None = true.
Proof. done. Qed.
Example optional_ge_value_wrong : ge_value_op Z.ltb 5 (Some 5) = false.
Proof. done. Qed.

(** ** A concrete element type *)

Definition string_like : traits := Traits false false true false.
Definition sample : gmap Z (option Z) := {[ 1 := Some 7; 2 := None; 3 := Some 9 ]}.

Lemma optional_refines_option_witness :
  ∃ b', snd (run_op string_like (MoveAssign 2 1) (repr sample 5)) =
        repr {[ 1 := None; 2 := Some 7; 3 := Some 9 ]} b'.
Proof.
  pose proof (optional_refines_option string_like eq_refl sample 5 (MoveAssign 2 1)) as H.
  assert (Ha : allowed string_like sample (MoveAssign 2 1)).
  { split; [lia|]. split; [by eexists|]. split; [by eexists|]. done. }
  specialize (H Ha). assert (E : fst (run_op string_like (MoveAssign 2 1) (repr sample 5)) = Ok tt) by reflexivity.
  destruct (run_op string_like (MoveAssign 2 1) (repr sample 5)) as [r s']. cbn in E. subst r.
  destruct H as [b' ->]. by exists b'.
Defined.

End Optional.
