(* ===== verification/Expected.v ===== *)
(** * expected (expected.hpp, detail/expected.hpp, impl/expected.hpp)

    The union of an expected holds a value (alternative [0]) or an error (alternative
    [1]); [ok_] tells which.  [traits] are the properties of the two types by which the
    code chooses between its exception handling strategies.  The combinators are functions
    of the abstract value, a [result].  [expected<void, E>] keeps no value in its union. *)

From S2P Require Import Prelude Lifetime.

Local Open Scope Z_scope.
Local Open Scope gpcl_scope.

(** The value of an [expected<T, E>]. *)
Inductive result (T E : Type) : Type :=
| Val (v : T)
| Err (e : E).
Arguments Val {T E} v.
Arguments Err {T E} e.

Module Expected.
Import Life.

Record traits : Type := Traits {
  nothrow_copy_T : bool;
  nothrow_move_T : bool;
  nothrow_assign_T : bool;
  nothrow_copy_E : bool;
  nothrow_move_E : bool;
  nothrow_assign_E : bool;
}.

Section expected.
Context {V : Type} `{!Moved V} (T : traits).
Abbreviation X A := (M (state V bool) A).
Local Abbreviation flag := (@Life.flag V bool).

(** ** Construction and destruction *)

Definition destruct_base (this : Z) : X unit :=
  let! ok := flag this in
  if ok then destroy this 0 else destroy this 1.
Definition destruct_ (this : Z) : X unit := destruct_base this ;;; end_life this.

(** [expected(in_place, args...)], [expected(U &&)]. *)
Definition construct_value (nothrow : bool) (this : Z) (v : V) : X unit :=
  construct nothrow this 0 v ;;; set_flag this true.
(** [expected(unexpect, args...)], [expected(unexpected<G>)]. *)
Definition construct_error (nothrow : bool) (this : Z) (e : V) : X unit :=
  construct nothrow this 1 e ;;; set_flag this false.
(** The constructors below do not name their base class: its default constructor makes a
    default value [d] first.  A body that throws destroys the base class. *)
Definition constructor (d : V) (this : Z) (body : X unit) : X unit :=
  construct_value true this d ;;;
  try_catch body (destruct_ this).
(** [expected(const expected &)] and [expected(const expected<U, G> &)]. *)
Definition copy_construct (d : V) (this other : Z) : X unit :=
  constructor d this
    (let! ok := flag other in
     set_flag this ok ;;;
     if ok then let! v := read other 0 in construct (nothrow_copy_T T) this 0 v
     else let! e := read other 1 in construct (nothrow_copy_E T) this 1 e).
(** [expected(expected &&)] and [expected(expected<U, G> &&)]. *)
Definition move_construct (d : V) (this other : Z) : X unit :=
  constructor d this
    (let! ok := flag other in
     set_flag this ok ;;;
     if ok then Life.move_construct (nothrow_move_T T) this 0 other 0
     else Life.move_construct (nothrow_move_E T) this 1 other 1).

(** ** Assignment *)

(** [operator=(const expected &)]. *)
Definition copy_assign (this other : Z) : X unit :=
  let! ok := flag this in
  let! other_ok := flag other in
  match ok, other_ok with
  | true, true => let! v := read other 0 in assign (nothrow_assign_T T) this 0 v
  | true, false =>
      let! e := read other 1 in
      if nothrow_copy_E T then
        destroy this 0 ;;;
        construct true this 1 e ;;;
        set_flag this false
      else if nothrow_move_E T then
        let! tmp := local_copy false e in
        destroy this 0 ;;;
        construct true this 1 tmp ;;;
        set_flag this false
      else
        let! v := read this 0 in
        let! tmp := local_copy (nothrow_copy_T T) v in
        destroy this 0 ;;;
        try_catch (construct false this 1 e)
          (* the saved value is copied back *)
          (construct (nothrow_copy_T T) this 0 tmp) ;;;
        set_flag this false
  | false, true =>
      let! v := read other 0 in
      if nothrow_copy_T T then
        destroy this 1 ;;;
        construct true this 0 v ;;;
        set_flag this true
      else if nothrow_move_T T then
        let! tmp := local_copy false v in
        destroy this 1 ;;;
        construct true this 0 tmp ;;;
        set_flag this true
      else
        let! e := read this 1 in
        let! tmp := local_copy (nothrow_copy_E T) e in
        destroy this 1 ;;;
        try_catch (construct false this 0 v) (construct (nothrow_move_E T) this 1 tmp) ;;;
        set_flag this true
  | false, false => let! e := read other 1 in assign (nothrow_assign_E T) this 1 e
  end.

(** [operator=(expected &&)]. *)
Definition move_assign (this other : Z) : X unit :=
  let! ok := flag this in
  let! other_ok := flag other in
  match ok, other_ok with
  | true, true => Life.move_assign (nothrow_assign_T T) this 0 other 0
  | true, false =>
      if nothrow_move_E T then
        destroy this 0 ;;;
        Life.move_construct true this 1 other 1 ;;;
        set_flag this false
      else
        let! tmp := local_move (nothrow_move_T T) this 0 in
        destroy this 0 ;;;
        try_catch (Life.move_construct false this 1 other 1) (construct (nothrow_copy_T T) this 0 tmp) ;;;
        set_flag this false
  | false, true =>
      if nothrow_move_T T then
        destroy this 1 ;;;
        Life.move_construct true this 0 other 0 ;;;
        set_flag this true
      else
        let! tmp := local_move (nothrow_move_E T) this 1 in
        destroy this 1 ;;;
        try_catch (Life.move_construct false this 0 other 0) (construct (nothrow_move_E T) this 1 tmp) ;;;
        set_flag this true
  | false, false => Life.move_assign (nothrow_assign_E T) this 1 other 1
  end.

(** [operator=(U &&)]; [nothrow] is that of [T]'s constructor from [U].  The handler
    puts the error back and does not rethrow. *)
Definition assign_value (nothrow : bool) (this : Z) (v : V) : X unit :=
  let! ok := flag this in
  if ok then assign (nothrow_assign_T T) this 0 v
  else if nothrow then
    destroy this 1 ;;;
    construct true this 0 v ;;;
    set_flag this true
  else
    let! tmp := local_move (nothrow_move_E T) this 1 in
    destroy this 1 ;;;
    (λ s, match construct false this 0 v s with
          | (Throw _, s') => construct (nothrow_move_E T) this 1 tmp s'
          | r => r
          end) ;;;
    set_flag this true.
(** [operator=(const unexpected &)] (with a non-throwing copy constructor) and
    [operator=(unexpected &&)] (with a non-throwing move constructor). *)
Definition assign_error (this : Z) (e : V) : X unit :=
  let! ok := flag this in
  if ok then
    destroy this 0 ;;;
    construct true this 1 e ;;;
    set_flag this false
  else assign (nothrow_assign_E T) this 1 e.

(** [emplace(args...)]; [nothrow] is that of the constructor selected. *)
Definition emplace (nothrow : bool) (this : Z) (v : V) : X V :=
  let! ok := flag this in
  (if ok then
     let! tmp := local_copy nothrow v in
     assign (nothrow_assign_T T) this 0 tmp
   else if nothrow then
     destroy this 1 ;;;
     construct true this 0 v ;;;
     set_flag this true
   else if nothrow_move_T T then
     let! tmp := local_copy false v in
     destroy this 1 ;;;
     construct true this 0 tmp ;;;
     set_flag this true
   else
     let! tmp := local_move (nothrow_move_E T) this 1 in
     destroy this 1 ;;;
     try_catch (construct false this 0 v) (construct (nothrow_move_E T) this 1 tmp) ;;;
     set_flag this true) ;;;
  read this 0.

(** [swap]; [tmp] is the place of the temporary. *)
Definition swap (d : V) (tmp this other : Z) : X unit :=
  move_construct d tmp other ;;;
  move_assign other this ;;;
  move_assign this tmp ;;;
  destruct_ tmp.

(** ** Observers *)

Definition has_value (this : Z) : X bool := flag this.
Definition error (this : Z) : X V :=
  let! ok := flag this in
  gpcl_assert (negb ok) ;;; read this 1.
(** [operator*] and [operator->]. *)
Definition deref (this : Z) : X V :=
  let! ok := flag this in
  gpcl_assert ok ;;; read this 0.
Definition value (this : Z) : X V :=
  let! ok := flag this in
  if ok then deref this else error this ;;; throw bad_expected_access.
Definition value_or (this : Z) (v : V) : X V :=
  let! ok := flag this in
  if ok then deref this else ret v.

(** ** expected<void, E> *)

Definition void_destruct (this : Z) : X unit :=
  let! ok := flag this in
  (if ok then ret tt else destroy this 1) ;;;
  end_life this.
(** The copy constructor assigns to the error instead of constructing it. *)
Definition void_copy_construct (this other : Z) : X unit :=
  set_flag this true ;;;
  let! ok := flag other in
  set_flag this ok ;;;
  if ok then ret tt else let! e := read other 1 in assign (nothrow_copy_E T) this 1 e.
Definition void_move_construct (this other : Z) : X unit :=
  set_flag this true ;;;
  try_catch
    (let! ok := flag other in
     set_flag this ok ;;;
     if ok then ret tt else Life.move_construct (nothrow_move_E T) this 1 other 1)
    (void_destruct this).
Definition void_copy_assign (this other : Z) : X unit :=
  let! ok := flag this in
  let! other_ok := flag other in
  match ok, other_ok with
  | true, true => ret tt
  | true, false =>
      let! e := read other 1 in
      construct (nothrow_copy_E T) this 1 e ;;;
      set_flag this false
  | false, true => destroy this 1 ;;; set_flag this true
  | false, false => let! e := read other 1 in assign (nothrow_assign_E T) this 1 e
  end.
Definition void_move_assign (this other : Z) : X unit :=
  let! ok := flag this in
  let! other_ok := flag other in
  match ok, other_ok with
  | true, true => ret tt
  | true, false =>
      Life.move_construct (nothrow_move_E T) this 1 other 1 ;;;
      set_flag this false
  | false, true => destroy this 1 ;;; set_flag this true
  | false, false => Life.move_assign (nothrow_assign_E T) this 1 other 1
  end.
Definition void_assign_error (this : Z) (e : V) : X unit :=
  let! ok := flag this in
  if ok then construct true this 1 e ;;; set_flag this false
  else assign (nothrow_assign_E T) this 1 e.
Definition void_emplace (this : Z) : X unit :=
  let! ok := flag this in
  if ok then ret tt else destroy this 1 ;;; set_flag this true.
Definition void_value (this : Z) : X unit :=
  let! ok := flag this in
  if ok then ret tt else error this ;;; throw bad_expected_access.

End expected.

(** ** Refinement *)

Section refinement.
Context {V : Type} `{!Moved V} (T : traits).

Definition good (r : result V V) : bool := match r with Val _ => true | Err _ => false end.
Definition content (r : result V V) : option (Z * V) :=
  Some match r with Val v => (0, v) | Err e => (1, e) end.
Definition repr (m : gmap Z (result V V)) (b : nat) : state V bool := conc good content m b.
Definition moved_result (r : result V V) : result V V :=
  match r with Val v => Val (moved v) | Err e => Err (moved e) end.

Inductive op : Type :=
| ConstructValue (nothrow : bool) (a : Z) (v : V)
| ConstructError (nothrow : bool) (a : Z) (e : V)
| Destruct (a : Z)
| CopyAssign (a b : Z)
| MoveAssign (a b : Z)
| AssignValue (nothrow : bool) (a : Z) (v : V)
| AssignError (a : Z) (e : V)
| Emplace (nothrow : bool) (a : Z) (v : V).

Definition run_op (o : op) : M (state V bool) unit :=
  match o with
  | ConstructValue nt a v => construct_value nt a v
  | ConstructError nt a e => construct_error nt a e
  | Destruct a => destruct_ a
  | CopyAssign a b => copy_assign T a b
  | MoveAssign a b => move_assign T a b
  | AssignValue nt a v => assign_value T nt a v
  | AssignError a e => assign_error T a e
  | Emplace nt a v => emplace T nt a v ;;; ret tt
  end.

(** What the operations mean. *)
Definition spec (m : gmap Z (result V V)) (o : op) : gmap Z (result V V) :=
  match o with
  | ConstructValue _ a v | AssignValue _ a v | Emplace _ a v => <[a := Val v]> m
  | ConstructError _ a e | AssignError a e => <[a := Err e]> m
  | Destruct a => delete a m
  | CopyAssign a b => match m !! b with Some r => <[a := r]> m | None => m end
  | MoveAssign a b => match m !! b with Some r => <[b := moved_result r]> (<[a := r]> m) | None => m end
  end.

(** On objects that live, or into fresh storage, and under the conditions of the
    overloads; [operator=(U &&)] on an error must not throw, and copy assignment must be able
    to put the value back without throwing where it relies on that. *)
Definition allowed (m : gmap Z (result V V)) (o : op) : Prop :=
  match o with
  | ConstructValue _ a _ | ConstructError _ a _ => m !! a = None
  | Destruct a | AssignError a _ => is_Some (m !! a)
  | CopyAssign a b => a ≠ b ∧ is_Some (m !! a) ∧ is_Some (m !! b) ∧
                      nothrow_move_E T || nothrow_move_T T = true ∧
                      nothrow_copy_E T || nothrow_move_E T || nothrow_copy_T T = true
  | MoveAssign a b => a ≠ b ∧ is_Some (m !! a) ∧ is_Some (m !! b) ∧ nothrow_move_E T = true
  | AssignValue nt a _ => ∃ r, m !! a = Some r ∧ good r || nt = true
  | Emplace nt a _ => is_Some (m !! a) ∧ nt || nothrow_move_T T || nothrow_move_E T = true
  end.

Ltac prerequisites :=
  unfold allowed, spec in *; cbn in *;
  repeat match goal with
  | H : _ ∧ _ |- _ => destruct H
  | H : is_Some _ |- _ => destruct H as [[?|?] ?]
  | H : ∃ r, _ ∧ _ |- _ => destruct H as ([?|?] & ? & ?)
  end; cbn in *.

(** C35: Construction from a value or an error, destruction, copy and move assignment between
    different objects, assignment of a value or an error and [emplace] of [expected] refine those of a sum
    type and give the strong exception guarantee: each leaves exactly the value or error it
    should, with the flag that says so, whichever strategy the traits of the two types select, as
    long as what it relies on to put a value back does not throw ([allowed] lists the
    conditions); when it throws, every object holds what it held before.  No value is read or
    destroyed that does not live, and none is lost.  Copy and move construction and [swap] are not
    among the operations ([expected_copy_construct_leaks]). *)
Theorem expected_refines_sum m b o :
  allowed m o →
  match run_op o (repr m b) with
  | (Ok _, s') => ∃ b', s' = repr (spec m o) b'
  | (Throw _, s') => s' = repr m 0
  | _ => False
  end.
Proof.
  intros Ha. destruct o as [nt a v|nt a e|a|a c|a c|nt a v|a e|nt a v]; prerequisites; unfold repr;
    cbv [construct_value construct_error destruct_ destruct_base copy_assign move_assign assign_value
         assign_error emplace];
    life_run; try done; try (eexists; life_eq); try life_eq.
Qed.

(** Access. *)
Lemma expected_value_spec m b a r :
  m !! a = Some r →
  value a (repr m b) = (match r with Val v => Ok v | Err _ => Throw bad_expected_access end, repr m b) ∧
  error a (repr m b) = (match r with Val _ => Abort | Err e => Ok e end, repr m b).
Proof. intros Ha. unfold value, deref, error, repr. split; destruct r; by life_run. Qed.

(** ** Where the code breaks the type's invariant *)

(** The copy constructor overwrites the default value its base class has made. *)
Lemma expected_copy_construct_leaks d m b a c r :
  a ≠ c → m !! a = None → m !! c = Some r → nothrow_copy_T T = true → nothrow_copy_E T = true →
  ∃ s', copy_construct T d a c (repr m b) = (Ok tt, s') ∧ leaks s' = 1%nat.
Proof.
  intros. unfold copy_construct, constructor, construct_value, repr.
  destruct r; (eexists; split; [by life_run|]); by life_run.
Qed.
(** [operator=(U &&)] on an error: when the value's constructor throws, the handler puts
    the error back, swallows the exception, and the object then claims to hold a value. *)
Lemma expected_assign_value_swallows m a e v :
  m !! a = Some (Err e) → nothrow_move_E T = true →
  ∃ s', assign_value T false a v (repr m 0) = (Ok tt, s') ∧
        has_value a s' = (Ok true, s') ∧ fst (value a s') = Undef.
Proof.
  intros. unfold assign_value, has_value, value, deref, repr.
  eexists. split; [by life_run|]. split; by life_run.
Qed.
(** Copy assignment puts the saved value back by copying it: when that throws too,
    nothing lives in the union. *)
Lemma expected_copy_assign_rollback_throws m a c v e :
  a ≠ c → m !! a = Some (Val v) → m !! c = Some (Err e) →
  nothrow_copy_E T = false → nothrow_move_E T = false → nothrow_copy_T T = false →
  ∃ s', copy_assign T a c (repr m 1) = (Throw runtime_error, s') ∧ fst (destruct_ a s') = Undef.
Proof.
  intros. unfold copy_assign, destruct_, destruct_base, repr. eexists. split; [by life_run|]. by life_run.
Qed.
(** The copy constructor of [expected<void, E>] assigns to an error that does not live. *)
Lemma expected_void_copy_undef (s : state V bool) a c e :
  a ≠ c → flags s !! c = Some false → cells s !! c = Some (1, e) → cells s !! a = None →
  fst (void_copy_construct T a c s) = Undef.
Proof.
  destruct s as [ce fl b n]. cbn. intros. unfold void_copy_construct. by life_run.
Qed.

End refinement.

(** ** Combinators *)

Section combinators.
Context {T U E G : Type}.

Definition and_ (r : result T E) (x : result U E) : result U E :=
  match r with Val _ => x | Err e => Err e end.
Definition map (f : T → U) (r : result T E) : result U E :=
  match r with Val v => Val (f v) | Err e => Err e end.
Definition and_then (r : result T E) (f : T → result U E) : result U E :=
  match r with Val v => f v | Err e => Err e end.
Definition or_ (r : result T E) (x : result T G) : result T G :=
  match r with Val v => Val v | Err _ => x end.
(** [map_error]: the code builds an [unexpected<E>], so [f] maps errors to errors. *)
Definition map_error (f : E → E) (r : result T E) : result T E :=
  match r with Val v => Val v | Err e => Err (f e) end.
Definition or_else (r : result T E) (f : E → result T G) : result T G :=
  match r with Val v => Val v | Err e => f e end.
Definition get_or (r : result T E) (v : T) : T := match r with Val v => v | Err _ => v end.
Definition map_or_else (d : E → U) (f : T → U) (r : result T E) : U :=
  match r with Val v => f v | Err e => d e end.
Definition as_optional (r : result T E) : option T :=
  match r with Val v => Some v | Err _ => None end.
Definition as_optional_error (r : result T E) : option E :=
  match r with Val _ => None | Err e => Some e end.

End combinators.

Definition map_or {T U E} (default_ : U) (f : T → U) (r : result T E) : U := get_or (map f r) default_.
Definition flatten {T E} (r : result (result T E) E) : result T E := and_then r (λ x, x).

Section comparison.
Context {T E : Type} (eqT : T → T → bool) (eqE : E → E → bool).
Definition eq_op (x y : result T E) : bool :=
  match x, y with
  | Val x, Val y => eqT x y
  | Err x, Err y => eqE x y
  | _, _ => false
  end.
Definition eq_value (x : result T E) (y : T) : bool := match x with Val x => eqT x y | Err _ => false end.
Definition eq_error (x : result T E) (y : E) : bool := match x with Val _ => false | Err x => eqE x y end.
End comparison.

(** Laws of the combinators. *)
Lemma expected_and_then_assoc {A B C E} (r : result A E) (f : A → result B E) (g : B → result C E) :
  and_then (and_then r f) g = and_then r (λ v, and_then (f v) g).
Proof. by destruct r. Qed.
Lemma expected_map_and_then {A B E} (f : A → B) (r : result A E) : map f r = and_then r (λ v, Val (f v)).
Proof. by destruct r. Qed.
Lemma expected_map_or_else_agree {A B E} (d : B) (f : A → B) (r : result A E) :
  map_or d f r = map_or_else (λ _, d) f r.
Proof. by destruct r. Qed.
Lemma expected_or_else_and_then {A E} (r : result A E) :
  or_else r Err = r ∧ and_then r Val = r.
Proof. by destruct r. Qed.

(** ** Concrete types *)

(** A value whose copies may throw and an error that can be moved safely. *)
Definition string_and_code : traits := Traits false false false true true true.
Definition sample : gmap Z (result Z Z) := {[ 1 := Val 7; 2 := Err 9 ]}.

Lemma expected_refines_sum_witness :
  snd (run_op string_and_code (CopyAssign 2 1) (repr sample 0)) = repr sample 0 ∧
  ∃ b', snd (run_op string_and_code (CopyAssign 2 1) (repr sample 5)) = repr {[ 1 := Val 7; 2 := Val 7 ]} b'.
Proof.
  assert (Ha : allowed string_and_code sample (CopyAssign 2 1)).
  { split; [lia|]. split; [by eexists|]. split; [by eexists|]. done. }
  pose proof (expected_refines_sum string_and_code sample 0 (CopyAssign 2 1) Ha) as H0.
  pose proof (expected_refines_sum string_and_code sample 5 (CopyAssign 2 1) Ha) as H5.
  assert (E0 : fst (run_op string_and_code (CopyAssign 2 1) (repr sample 0)) = Throw runtime_error) by reflexivity.
  assert (E5 : fst (run_op string_and_code (CopyAssign 2 1) (repr sample 5)) = Ok tt) by reflexivity.
  destruct (run_op _ _ (repr sample 0)) as [r0 s0], (run_op _ _ (repr sample 5)) as [r5 s5].
  cbn in E0, E5. subst r0 r5. destruct H5 as [b' ->]. split; [exact H0|]. by exists b'.
Defined.

End Expected.
