(* ===== verification/Variant.v ===== *)
(** * variant (variant.hpp)

    The union of a variant holds an object of one of [n] alternatives; [index_] tells
    which, [-1] that there is none.  [traits] are the properties of the alternatives by
    which the code selects its base classes.  The abstract value of a variant is [None]
    (valueless) or an alternative and its value. *)

From S2P Require Import Prelude Lifetime.

Local Open Scope Z_scope.
Local Open Scope gpcl_scope.

Module Variant.
Import Life.

(** Each field says of all the alternatives. *)
Record traits : Type := Traits {
  trivially_movable : bool;
  trivially_copyable : bool;
  trivially_copy_assignable : bool;
  trivially_destructible : bool;
  nothrow_destructible : bool;
  nothrow_move : bool;
  nothrow_copy : bool;
  nothrow_assign : bool;
}.

(** The first parameter of [variant_storage] as [variant_move_construct_base] passes it:
    whether the storage skips the destructors. *)
Definition skips_destructors (T : traits) : bool :=
  if trivially_movable T then trivially_destructible T else nothrow_destructible T.

Section variant.
Context {V : Type} `{!Moved V} (T : traits) (n : nat).
Abbreviation W A := (M (state V Z) A).
Local Abbreviation flag := (@Life.flag V Z).

(** [std::index_sequence_for<Types...>]. *)
Definition indices : list Z := seqZ 0 (Z.of_nat n).

(** ** Storage *)

Fixpoint destruct_helper (this index : Z) (l : list Z) : W unit :=
  match l with
  | [] => abort
  | i :: l => if index =? i then destroy this i else destruct_helper this index l
  end.
(** [reset()]; without the destructors, the life of a trivial value ends all the same,
    any other value stays in the storage. *)
Definition reset (this : Z) : W unit :=
  let! i := flag this in
  if skips_destructors T then
    (if trivially_destructible T && negb (i =? -1) then destroy this i else ret tt) ;;;
    set_flag this (-1)
  else if i =? -1 then ret tt
  else destruct_helper this i indices ;;; set_flag this (-1).
(** [~variant_storage()]. *)
Definition destruct_ (this : Z) : W unit := reset this ;;; end_life this.

Definition set_index (this i : Z) : W unit :=
  let! j := flag this in
  gpcl_assert (j =? -1) ;;;
  set_flag this i ;;;
  gpcl_assert (-1 <? i).

(** ** Constructors *)

(** The base class is made valueless; a body that throws destroys it. *)
Definition constructor (this : Z) (body : W unit) : W unit :=
  set_flag this (-1) ;;;
  try_catch body (destruct_ this).
(** [variant()]: the first alternative, with its default value. *)
Definition default_construct (nothrow : bool) (this : Z) (v0 : V) : W unit :=
  constructor this (construct nothrow this 0 v0 ;;; set_flag this 0).
(** [variant(T &&)] and [variant(in_place_type, args...)]. *)
Definition construct_value (nothrow : bool) (this i : Z) (v : V) : W unit :=
  constructor this (construct nothrow this i v ;;; set_index this i).

Fixpoint move_helper (this other j : Z) (l : list Z) : W unit :=
  match l with
  | [] => ret tt
  | i :: l =>
      if j =? i then Life.move_construct (nothrow_move T) this i other i ;;; set_flag this i
      else move_helper this other j l
  end.
Definition move_construct (this other : Z) : W unit :=
  if trivially_movable T then copy_bytes this other else
  constructor this
    (let! j := flag other in
     if j =? -1 then set_flag this (-1) else move_helper this other j indices).
Fixpoint copy_helper (this other j : Z) (l : list Z) : W unit :=
  match l with
  | [] => ret tt
  | i :: l =>
      if j =? i then
        let! v := read other i in
        construct (nothrow_copy T) this i v ;;; set_flag this i
      else copy_helper this other j l
  end.
Definition copy_construct (this other : Z) : W unit :=
  if trivially_copyable T then copy_bytes this other else
  constructor this
    (let! j := flag other in
     if j =? -1 then set_flag this (-1) else copy_helper this other j indices).

(** ** Observers *)

Definition index (this : Z) : W Z :=
  let! i := flag this in
  gpcl_assert (-1 <? i) ;;;
  ret (if i =? -1 then 2 ^ 64 - 1 else i).
Definition valueless_by_exception (this : Z) : W bool :=
  let! i := index this in ret (i =? 2 ^ 64 - 1).
Definition holds_alternative (this i : Z) : W bool :=
  let! j := index this in ret (i =? j).
Definition get (this i : Z) : W V :=
  let! j := index this in
  if j =? i then read this i else throw bad_variant_access.
Definition get_if (this i : Z) : W (option V) :=
  let! b := holds_alternative this i in
  if b then let! v := read this i in ret (Some v) else ret None.

(** ** Modifiers *)

(** [operator=(T &&)] for a value of alternative [i]. *)
Definition assign_value (nothrow : bool) (this i : Z) (v : V) : W unit :=
  let! j := index this in
  if i =? j then assign (nothrow_assign T) this i v
  else
    reset this ;;;
    construct nothrow this i v ;;;
    set_index this i.
(** The same from a value of alternative [i] that is moved out of another variant. *)
Definition assign_move (this i src : Z) : W unit :=
  let! j := index this in
  if i =? j then Life.move_assign (nothrow_assign T) this i src i
  else
    reset this ;;;
    Life.move_construct (nothrow_move T) this i src i ;;;
    set_index this i.
Definition emplace (nothrow : bool) (this i : Z) (v : V) : W V :=
  reset this ;;;
  construct nothrow this i v ;;;
  set_index this i ;;;
  read this i.

(** *** Assignment between variants *)

(** The bytes of the storage are copied although the alternatives are not trivially
    copyable: no object comes to life, and the one that was there is lost. *)
Definition overwrite_bytes (this other : Z) : W unit :=
  let! j := flag other in
  set_flag this j ;;;
  modify (λ s, State (delete this (cells s)) (flags s) (budget s)
                 (if cells s !! this is Some _ then S (leaks s) else leaks s)).
(** [operator=(const variant &)] is defaulted in every base class. *)
Definition copy_assign (this other : Z) : W unit :=
  if this =? other then ret tt
  else if trivially_copyable T then copy_bytes this other else overwrite_bytes this other.

Fixpoint copy_assign_helper (this other j : Z) (l : list Z) : W unit :=
  match l with
  | [] => ret tt
  | i :: l =>
      if j =? i then let! v := read other i in assign (nothrow_assign T) this i v
      else copy_assign_helper this other j l
  end.
(** [operator=(variant &&)], which copies. *)
Definition move_assign (this other : Z) : W unit :=
  if trivially_copyable T && trivially_copy_assignable T then copy_bytes this other else
  if this =? other then ret tt else
  let! i := flag this in
  let! j := flag other in
  if (i =? j) && negb (i =? -1) then copy_assign_helper this other j indices
  else
    reset this ;;;
    if trivially_copyable T then copy_bytes this other else copy_helper this other j indices.

(** ** Visitation *)

Fixpoint apply_visitor {A} (this : Z) (callable : Z → V → W A) (l : list Z) : W A :=
  match l with
  | [] => abort
  | [i] =>
      let! j := index this in
      gpcl_assert (j =? i) ;;;
      let! v := get this i in callable i v
  | i :: l =>
      let! j := index this in
      if j =? i then let! v := get this i in callable i v
      else apply_visitor this callable l
  end.
Definition visit {A} (visitor : Z → V → W A) (this : Z) : W A :=
  let! b := valueless_by_exception this in
  gpcl_assert (negb b) ;;;
  apply_visitor this visitor indices.
(** The last variant is taken apart first. *)
Definition visit2 {A} (visitor : Z → V → Z → V → W A) (x y : Z) : W A :=
  visit (λ j w, visit (λ i v, visitor i v j w) x) y.

(** [swap]. *)
Definition swap (this other : Z) : W unit :=
  let! b1 := valueless_by_exception this in
  let! b2 := if b1 then valueless_by_exception other else ret false in
  if b1 && b2 then ret tt else
  let! i := index this in
  let! j := index other in
  if i =? j then
    visit2 (λ i v j w, if i =? j then store this i w ;;; store other j v else abort) this other
  else
    visit2 (λ i v j w,
      let! tmp := local_move (nothrow_move T) other j in
      assign_move other i this ;;;
      assign_value (nothrow_move T) this j tmp) this other.

End variant.

(** ** Runs of the building blocks *)

Section runs.
Context {V : Type} `{!Moved V} (T : traits) (n : nat).
Local Arguments Z.eqb : simpl never.
Local Arguments Z.ltb : simpl never.

Lemma elem_of_indices i : i ∈ indices n ↔ 0 ≤ i < Z.of_nat n.
Proof. unfold indices. rewrite elem_of_seqZ. lia. Qed.
Lemma destruct_helper_eq this i l : i ∈ l → destruct_helper (V := V) this i l = destroy this i.
Proof.
  induction l as [|j l IH]; [by intros ?%elem_of_nil|]. intros Hi. cbn.
  destruct (Z.eqb_spec i j) as [->|]; [done|]. apply IH. by apply elem_of_cons in Hi as [?|?].
Qed.
Lemma move_helper_eq this other i l :
  i ∈ l → move_helper T this other i l = (Life.move_construct (nothrow_move T) this i other i ;;; set_flag this i).
Proof.
  induction l as [|j l IH]; [by intros ?%elem_of_nil|]. intros Hi. cbn.
  destruct (Z.eqb_spec i j) as [->|]; [done|]. apply IH. by apply elem_of_cons in Hi as [?|?].
Qed.
Lemma copy_helper_eq this other i l :
  i ∈ l → copy_helper T this other i l =
    (let! v := read other i in construct (V := V) (nothrow_copy T) this i v ;;; set_flag this i).
Proof.
  induction l as [|j l IH]; [by intros ?%elem_of_nil|]. intros Hi. cbn.
  destruct (Z.eqb_spec i j) as [->|]; [done|]. apply IH. by apply elem_of_cons in Hi as [?|?].
Qed.

(** The destructors run, or need not. *)
Definition cleans : Prop := trivially_destructible T || negb (skips_destructors T) = true.
(** The storage of [a] agrees with its index. *)
Definition consistent (c : gmap Z (Z * V)) (a i : Z) : Prop :=
  (i = -1 ∧ c !! a = None) ∨ (0 ≤ i < Z.of_nat n ∧ ∃ v, c !! a = Some (i, v)).

Lemma copy_helper_none this other i l : i ∉ l → copy_helper (V := V) T this other i l = ret tt.
Proof.
  induction l as [|j l IH]; [done|]. intros [Hi Hl]%not_elem_of_cons. cbn.
  by rewrite (proj2 (Z.eqb_neq i j) Hi), IH.
Qed.
Lemma copy_assign_helper_eq this other i l :
  i ∈ l → copy_assign_helper T this other i l =
    (let! v := read other i in assign (V := V) (nothrow_assign T) this i v).
Proof.
  induction l as [|j l IH]; [by intros ?%elem_of_nil|]. intros Hi. cbn.
  destruct (Z.eqb_spec i j) as [->|]; [done|]. apply IH. by apply elem_of_cons in Hi as [?|?].
Qed.

Lemma reset_run (c : gmap Z (Z * V)) f b k a i :
  cleans → f !! a = Some i → consistent c a i →
  reset T n a (State c f b k) = (Ok tt, State (delete a c) (<[a := -1]> f) b k).
Proof.
  unfold cleans. intros Hc Hf Hcon. unfold reset, bind at 1, flag at 1. cbn. rewrite Hf.
  destruct Hcon as [[-> Hcell]|[Hi [v Hcell]]].
  - rewrite Z.eqb_refl, andb_false_r, delete_id by done. destruct (skips_destructors T); [done|].
    cbn. by rewrite insert_id.
  - rewrite (proj2 (Z.eqb_neq i (-1))) by lia. rewrite andb_true_r.
    destruct (skips_destructors T).
    + rewrite orb_false_r in Hc. rewrite Hc. unfold bind, destroy. cbn. by rewrite Hcell, Z.eqb_refl.
    + rewrite destruct_helper_eq by (apply elem_of_indices; lia).
      unfold bind, destroy. cbn. by rewrite Hcell, Z.eqb_refl.
Qed.
Lemma set_index_run (c : gmap Z (Z * V)) f b k a i :
  f !! a = Some (-1) → 0 ≤ i → set_index a i (State c f b k) = (Ok tt, State c (<[a := i]> f) b k).
Proof.
  intros Hf Hi. unfold set_index, bind at 1, flag at 1. cbn [flags]. rewrite Hf, bind_assert by done.
  unfold set_flag. rewrite bind_modify. by rewrite (proj2 (Z.ltb_lt _ _)) by lia.
Qed.
Lemma index_run (s : state V Z) a i : flags s !! a = Some i → 0 ≤ i → index a s = (Ok i, s).
Proof.
  intros Hf Hi. unfold index, bind at 1, flag at 1. rewrite Hf, bind_assert by (apply Z.ltb_lt; lia).
  by rewrite (proj2 (Z.eqb_neq i (-1))) by lia.
Qed.
Lemma index_valueless (s : state V Z) a : flags s !! a = Some (-1) → index a s = (Abort, s).
Proof. intros Hf. unfold index, bind at 1, flag at 1. by rewrite Hf. Qed.
Lemma valueless_run (s : state V Z) a i :
  flags s !! a = Some i → 0 ≤ i < 2 ^ 63 → valueless_by_exception a s = (Ok false, s).
Proof.
  intros Hf Hi. unfold valueless_by_exception. rewrite (bind_ok _ _ _ _ _ (index_run s a i Hf ltac:(lia))).
  by rewrite (proj2 (Z.eqb_neq i (2 ^ 64 - 1))) by lia.
Qed.
Lemma apply_visitor_run {A} (s : state V Z) (f : Z → V → M (state V Z) A) a i v l :
  flags s !! a = Some i → cells s !! a = Some (i, v) → 0 ≤ i → i ∈ l →
  apply_visitor a f l s = f i v s.
Proof.
  intros Hf Hc Hi. induction l as [|j l IH]; [by intros ?%elem_of_nil|]. intros Hin.
  assert (Hget : (let! w := get a i in f i w) s = f i v s).
  { unfold get. rewrite bind_assoc, (bind_ok _ _ _ _ _ (index_run s a i Hf Hi)), Z.eqb_refl.
    unfold bind, read. by rewrite Hc, Z.eqb_refl. }
  cbn [apply_visitor]. destruct l as [|j' l'].
  - apply list_elem_of_singleton in Hin as ->. rewrite (bind_ok _ _ _ _ _ (index_run s a j Hf Hi)).
    rewrite bind_assert by apply Z.eqb_refl. exact Hget.
  - rewrite (bind_ok _ _ _ _ _ (index_run s a i Hf Hi)). destruct (Z.eqb_spec i j) as [<-|Hne]; [exact Hget|].
    apply IH. by apply elem_of_cons in Hin as [?|?].
Qed.
Lemma visit_run {A} (s : state V Z) (f : Z → V → M (state V Z) A) a i v :
  flags s !! a = Some i → cells s !! a = Some (i, v) → 0 ≤ i < Z.of_nat n → Z.of_nat n < 2 ^ 31 →
  visit n f a s = f i v s.
Proof.
  intros Hf Hc Hi Hn. unfold visit. rewrite (bind_ok _ _ _ _ _ (valueless_run s a i Hf ltac:(lia))).
  rewrite bind_assert by done. apply apply_visitor_run with (i := i); try done; [lia|]. by apply elem_of_indices.
Qed.

End runs.

(** ** Refinement *)

Section refinement.
Context {V : Type} `{!Moved V} (T : traits) (n : nat).
Context (Hn : 0 < Z.of_nat n < 2 ^ 31) (Hclean : cleans T).
(** A trivial move copies. *)
Context (Htriv : trivially_movable T = true → ∀ v, moved v = v).
Local Arguments Z.eqb : simpl never.
Local Arguments Z.ltb : simpl never.

Abbreviation value := (option (Z * V)).
Definition tag (o : value) : Z := match o with Some (i, _) => i | None => -1 end.
Definition repr (m : gmap Z value) (b : nat) : state V Z := conc tag id m b.
(** Every variant holds one of its alternatives. *)
Definition typed (m : gmap Z value) : Prop :=
  ∀ a i v, m !! a = Some (Some (i, v)) → 0 ≤ i < Z.of_nat n.

Inductive op : Type :=
| DefaultConstruct (nothrow : bool) (a : Z) (v0 : V)
| ConstructValue (nothrow : bool) (a i : Z) (v : V)
| CopyConstruct (a c : Z)
| MoveConstruct (a c : Z)
| Destruct (a : Z)
| AssignValue (nothrow : bool) (a i : Z) (v : V)
| Emplace (nothrow : bool) (a i : Z) (v : V)
| MoveAssign (a c : Z)
| Swap (a c : Z).

Definition run_op (o : op) : M (state V Z) unit :=
  match o with
  | DefaultConstruct nt a v0 => default_construct T n nt a v0
  | ConstructValue nt a i v => construct_value T n nt a i v
  | CopyConstruct a c => copy_construct T n a c
  | MoveConstruct a c => move_construct T n a c
  | Destruct a => destruct_ T n a
  | AssignValue nt a i v => assign_value T n nt a i v
  | Emplace nt a i v => emplace T n nt a i v ;;; ret tt
  | MoveAssign a c => move_assign T n a c
  | Swap a c => swap T n a c
  end.

Definition value_at (m : gmap Z value) (a : Z) : value := m !! a ≫= id.
Definition moved_value (o : value) : value := (λ '(i, v), (i, moved v)) <$> o.
Definition spec (m : gmap Z value) (o : op) : gmap Z value :=
  match o with
  | DefaultConstruct _ a v0 => <[a := Some (0, v0)]> m
  | ConstructValue _ a i v | AssignValue _ a i v | Emplace _ a i v => <[a := Some (i, v)]> m
  | CopyConstruct a c | MoveAssign a c => <[a := value_at m c]> m
  | MoveConstruct a c => <[c := moved_value (value_at m c)]> (<[a := value_at m c]> m)
  | Destruct a => delete a m
  | Swap a c => <[c := value_at m a]> (<[a := value_at m c]> m)
  end.
(** An exception can leave a variant valueless. *)
Definition spec_throw (m : gmap Z value) (o : op) : gmap Z value :=
  match o with
  | AssignValue _ a i _ => if tag (value_at m a) =? i then m else <[a := None]> m
  | Emplace _ a _ _ => <[a := None]> m
  | MoveAssign a c => if tag (value_at m a) =? tag (value_at m c) then m else <[a := None]> m
  | _ => m
  end.

(** The alternatives exist, the objects live or the storage is fresh; a valueless variant
    is not assigned to or swapped. *)
Definition allowed (m : gmap Z value) (o : op) : Prop :=
  match o with
  | DefaultConstruct _ a _ => m !! a = None
  | ConstructValue _ a i _ => m !! a = None ∧ 0 ≤ i < Z.of_nat n
  | CopyConstruct a c | MoveConstruct a c => m !! a = None ∧ is_Some (m !! c)
  | Destruct a => is_Some (m !! a)
  | AssignValue _ a i _ => (∃ x, m !! a = Some (Some x)) ∧ 0 ≤ i < Z.of_nat n
  | Emplace _ a i _ => is_Some (m !! a) ∧ 0 ≤ i < Z.of_nat n
  | MoveAssign a c => is_Some (m !! a) ∧ is_Some (m !! c)
  | Swap a c => a ≠ c ∧ (∃ x, m !! a = Some (Some x)) ∧ (∃ x, m !! c = Some (Some x)) ∧ nothrow_move T = true
  end.

Lemma typed_insert m a o :
  typed m → (∀ i v, o = Some (i, v) → 0 ≤ i < Z.of_nat n) → typed (<[a := o]> m).
Proof.
  intros Hm Ho a' i v. rewrite lookup_insert. case_decide; [intros [= ->]; by eapply Ho|apply Hm].
Qed.
Lemma typed_value_at m a i v : typed m → value_at m a = Some (i, v) → 0 ≤ i < Z.of_nat n.
Proof.
  unfold value_at. intros Hm. destruct (m !! a) as [o|] eqn:Ha; [|done]. cbn. intros ->. by eapply Hm.
Qed.
(** The operations keep variants well typed. *)
Lemma typed_spec m o : typed m → allowed m o → typed (spec m o) ∧ typed (spec_throw m o).
Proof.
  intros Hm Ha. assert (Hone : ∀ j (w : V), 0 ≤ j < Z.of_nat n → ∀ i v, Some (j, w) = Some (i, v) → 0 ≤ i < Z.of_nat n)
    by (intros ?? ? ?? [= -> ->]; assumption).
  assert (Hnone : ∀ i v, None = Some (i, v : V) → 0 ≤ i < Z.of_nat n) by discriminate.
  assert (Hat : ∀ a i v, value_at m a = Some (i, v) → 0 ≤ i < Z.of_nat n) by (intros ???; by apply typed_value_at).
  destruct o as [nt a v0|nt a i v|a c|a c|a|nt a i v|nt a i v|a c|a c]; cbn [spec spec_throw]; cbn in Ha.
  - split; [|exact Hm]. apply typed_insert; [exact Hm|]. apply Hone. lia.
  - split; [|exact Hm]. apply typed_insert; [exact Hm|]. apply Hone, Ha.
  - split; [|exact Hm]. apply typed_insert; [exact Hm|apply Hat].
  - split; [|exact Hm]. apply typed_insert; [apply typed_insert; [exact Hm|apply Hat]|].
    intros i v. unfold moved_value. destruct (value_at m c) as [[j w]|] eqn:Hc; cbn; [|discriminate].
    intros [= <- _]. by eapply Hat.
  - split; [|exact Hm]. intros b i v. rewrite lookup_delete. case_decide; [done|]. apply Hm.
  - split; [apply typed_insert; [exact Hm|]; apply Hone, Ha|].
    destruct (_ =? _); [exact Hm|]. by apply typed_insert.
  - split; [apply typed_insert; [exact Hm|]; apply Hone, Ha|]. by apply typed_insert.
  - split; [apply typed_insert; [exact Hm|apply Hat]|]. destruct (_ =? _); [exact Hm|]. by apply typed_insert.
  - split; [|exact Hm]. apply typed_insert; [apply typed_insert; [exact Hm|]|]; apply Hat.
Qed.

(** The concrete state of a typed abstract one is consistent. *)
Lemma repr_consistent m a o : typed m → m !! a = Some o → consistent n (omap id m) a (tag o).
Proof.
  intros Hm Ha. unfold consistent. rewrite lookup_omap, Ha. cbn. destruct o as [[i v]|]; [right|by left].
  split; [by eapply Hm|]. by exists v.
Qed.

Ltac fetch H := rewrite (bind_ok _ _ _ _ _ H); cbn [cells flags budget leaks].

(** A new value in cleared storage: constructed, with its index, or not. *)
Lemma construct_set_run (c : gmap Z (Z * V)) f b k nt a i v :
  f !! a = Some (-1) → c !! a = None → 0 ≤ i →
  (construct nt a i v ;;; set_index a i) (State c f b k) =
    match (if nt then Some b else match b with O => None | S b => Some b end) with
    | Some b' => (Ok tt, State (<[a := (i, v)]> c) (<[a := i]> f) b' k)
    | None => (Throw runtime_error, State c f 0 k)
    end.
Proof.
  intros Hf Hc Hi. unfold construct. rewrite bind_assoc. unfold risk, bind at 1.
  destruct nt; [|destruct b as [|b]; [done|]]; cbn [budget cells flags leaks]; rewrite bind_modify;
    cbn [budget cells flags leaks]; rewrite Hc; by rewrite set_index_run.
Qed.

(** Every operation, on every branch. *)
Lemma emplace_repr m b nt a i v o :
  typed m → m !! a = Some o → 0 ≤ i < Z.of_nat n →
  match (reset T n a ;;; (construct nt a i v ;;; set_index a i)) (repr m b) with
  | (Ok _, s') => ∃ b', s' = repr (<[a := Some (i, v)]> m) b'
  | (Throw _, s') => s' = repr (<[a := None]> m) 0
  | _ => False
  end.
Proof.
  intros Hm Ha Hi. unfold repr, conc at 1.
  fetch (reset_run T n (omap id m) (tag <$> m) b 0 a (tag o) Hclean (flag_conc tag m a o Ha) (repr_consistent m a o Hm Ha)).
  rewrite construct_set_run; [|by rewrite lookup_insert_eq|by rewrite lookup_delete_eq|lia].
  assert (Hth : State (delete a (omap id m)) (<[a:=-1]> (tag <$> m)) 0 0 = conc tag id (<[a:=None]> m) 0).
  { rewrite conc_insert. by f_equal. }
  assert (Hok : ∀ b', State (<[a:=(i, v)]> (delete a (omap id m))) (<[a:=i]> (<[a:=-1]> (tag <$> m))) b' 0 =
    conc tag id (<[a:=Some (i, v)]> m) b').
  { intros b'. rewrite conc_insert, insert_insert_eq. f_equal. by rewrite insert_delete_eq. }
  destruct nt; [|destruct b as [|b]; [exact Hth|]]; eexists; apply Hok.
Qed.

(** A constructor whose body throws leaves everything as it was. *)
Lemma constructor_throw m b a body :
  m !! a = None →
  body (State (omap id m) (<[a := -1]> (tag <$> m)) b 0) =
    (Throw runtime_error, State (omap id m) (<[a := -1]> (tag <$> m)) 0 0) →
  constructor T n a body (repr m b) = (Throw runtime_error, repr m 0).
Proof.
  intros Ha Hbody. unfold constructor, repr, conc, set_flag. rewrite bind_modify. cbn [cells flags budget leaks].
  eapply try_throw; [exact Hbody|]. unfold destruct_. erewrite bind_ok; cycle 1.
  { eapply reset_run; [exact Hclean|apply lookup_insert_eq|]. left. split; [done|]. by rewrite lookup_omap, Ha. }
  unfold end_life, modify. cbn [cells flags budget leaks]. rewrite delete_insert_eq, delete_insert_eq.
  rewrite !delete_id; [done|by rewrite lookup_fmap, Ha|by rewrite lookup_omap, Ha].
Qed.
Lemma constructor_ok m b a o b' body :
  m !! a = None →
  body (State (omap id m) (<[a := -1]> (tag <$> m)) b 0) =
    (Ok tt, State (partial_alter (λ _, o) a (omap id m)) (<[a := tag o]> (<[a := -1]> (tag <$> m))) b' 0) →
  constructor T n a body (repr m b) = (Ok tt, repr (<[a := o]> m) b').
Proof.
  intros Ha Hbody. unfold constructor, repr, conc at 1, set_flag. rewrite bind_modify. cbn [cells flags budget leaks].
  rewrite (try_ok _ _ _ _ _ Hbody), insert_insert_eq. by rewrite conc_insert.
Qed.

Lemma construct_repr m b nt a i v (ix : Z → Z → M (state V Z) unit) :
  (∀ c f b, f !! a = Some (-1) → ix a i (State c f b 0) = (Ok tt, State c (<[a := i]> f) b 0)) →
  m !! a = None →
  match constructor T n a (construct nt a i v ;;; ix a i) (repr m b) with
  | (Ok _, s') => ∃ b', s' = repr (<[a := Some (i, v)]> m) b'
  | (Throw _, s') => s' = repr m 0
  | _ => False
  end.
Proof.
  intros Hix Ha. assert (Hc : omap id m !! a = None) by (by rewrite lookup_omap, Ha).
  assert (Hrun : ∀ b0 b', risk (V := V) nt (State (omap id m) (<[a := -1]> (tag <$> m)) b0 0) =
      (Ok tt, State (omap id m) (<[a := -1]> (tag <$> m)) b' 0) →
    constructor T n a (construct nt a i v ;;; ix a i) (repr m b0) = (Ok tt, repr (<[a := Some (i, v)]> m) b')).
  { intros b0 b' Hr. apply constructor_ok; [done|]. unfold construct. rewrite bind_assoc.
    rewrite (bind_ok _ _ _ _ _ Hr), bind_modify. cbn [cells flags budget leaks]. rewrite Hc.
    by rewrite Hix by apply lookup_insert_eq. }
  destruct nt.
  - rewrite (Hrun b b) by done. by exists b.
  - destruct b as [|b].
    + rewrite constructor_throw; [done|done|]. unfold construct. rewrite bind_assoc. by apply bind_throw.
    + rewrite (Hrun (S b) b) by done. by exists b.
Qed.

(** Trivially copyable variants are copied byte by byte. *)
Lemma copy_bytes_run m b a c o :
  m !! c = Some o → copy_bytes a c (repr m b) = (Ok tt, repr (<[a := o]> m) b).
Proof.
  intros Hc. unfold copy_bytes, repr. rewrite conc_insert. unfold conc, bind, flag. cbn [flags].
  rewrite (flag_conc tag m c o Hc). unfold set_flag, modify. cbn [cells flags budget leaks].
  by rewrite lookup_omap, Hc.
Qed.
Lemma copy_repr m b a c o :
  typed m → m !! a = None → m !! c = Some o →
  match copy_construct T n a c (repr m b) with
  | (Ok _, s') => ∃ b', s' = repr (<[a := o]> m) b'
  | (Throw _, s') => s' = repr m 0
  | _ => False
  end.
Proof.
  intros Hm Ha Hc. unfold copy_construct. assert (Hac : a ≠ c) by congruence.
  destruct (trivially_copyable T); [rewrite (copy_bytes_run m b a c o Hc); by exists b|].
  assert (Hf : (<[a := -1]> (tag <$> m)) !! c = Some (tag o)) by (by rewrite lookup_insert_ne, lookup_fmap, Hc).
  destruct o as [[i v]|]; cbn [tag] in Hf; cycle 1.
  { rewrite (constructor_ok m b a None b); [by exists b|done|].
    unfold bind, flag. cbn [flags]. rewrite Hf, Z.eqb_refl. unfold set_flag, modify. cbn. do 2 f_equal.
    symmetry. change (delete a (omap id m) = omap id m). apply delete_id. by rewrite lookup_omap, Ha. }
  assert (Hi : 0 ≤ i < Z.of_nat n) by (by eapply Hm).
  pose proof (construct_repr m b (nothrow_copy T) a i v set_flag ltac:(done) Ha) as Hr.
  replace (constructor T n a _ (repr m b))
    with (constructor T n a (construct (nothrow_copy T) a i v ;;; set_flag a i) (repr m b)); [exact Hr|].
  unfold constructor, repr, conc, set_flag. rewrite !bind_modify. cbn [cells flags budget leaks]. unfold try_catch.
  assert (Hbody : ∀ s, flags s = <[a := -1]> (tag <$> m) → cells s = omap id m →
    (let! j := flag c in if j =? -1 then set_flag a (-1) else copy_helper T a c j (indices n)) s =
    (construct (nothrow_copy T) a i v ;;; set_flag a i) s).
  { intros s Hs Hs'. unfold bind at 1, flag. rewrite Hs, Hf, (proj2 (Z.eqb_neq i (-1))) by lia.
    rewrite copy_helper_eq by (apply elem_of_indices; lia). unfold bind at 1, read.
    rewrite Hs', lookup_omap, Hc. cbn. by rewrite Z.eqb_refl. }
  unfold set_flag in Hbody. by rewrite Hbody.
Qed.

Lemma move_repr m b a c o :
  typed m → m !! a = None → m !! c = Some o →
  match move_construct T n a c (repr m b) with
  | (Ok _, s') => ∃ b', s' = repr (<[c := moved_value o]> (<[a := o]> m)) b'
  | (Throw _, s') => s' = repr m 0
  | _ => False
  end.
Proof.
  intros Hm Ha Hc. unfold move_construct. assert (Hac : a ≠ c) by congruence.
  destruct (trivially_movable T) eqn:HTm.
  { rewrite (copy_bytes_run m b a c o Hc). exists b. rewrite (insert_id _ c); [done|].
    rewrite lookup_insert_ne, Hc by done. destruct o as [[i v]|]; cbn; [|done]. by rewrite Htriv. }
  assert (Hf : (<[a := -1]> (tag <$> m)) !! c = Some (tag o)) by (by rewrite lookup_insert_ne, lookup_fmap, Hc).
  destruct o as [[i v]|]; cbn [tag] in Hf; cycle 1.
  { rewrite (constructor_ok m b a None b); [|done|].
    - exists b. rewrite (insert_id (<[a := None]> m) c); [done|]. by rewrite lookup_insert_ne.
    - unfold bind, flag. cbn [flags]. rewrite Hf, Z.eqb_refl. unfold set_flag, modify. cbn. do 2 f_equal.
      symmetry. change (delete a (omap id m) = omap id m). apply delete_id. by rewrite lookup_omap, Ha. }
  assert (Hi : 0 ≤ i < Z.of_nat n) by (by eapply Hm).
  assert (Hcell : omap id m !! c = Some (i, v)) by (by rewrite lookup_omap, Hc).
  assert (Hnew : omap id m !! a = None) by (by rewrite lookup_omap, Ha).
  set (body := (let! j := flag c in if j =? -1 then set_flag a (-1) else move_helper T a c j (indices n))).
  assert (Hbody : body (State (omap id m) (<[a := -1]> (tag <$> m)) b 0) =
    match (if nothrow_move T then Some b else match b with O => None | S b => Some b end) with
    | Some b' => (Ok tt, State (<[c := (i, moved v)]> (<[a := (i, v)]> (omap id m)))
                           (<[a := i]> (<[a := -1]> (tag <$> m))) b' 0)
    | None => (Throw runtime_error, State (omap id m) (<[a := -1]> (tag <$> m)) 0 0)
    end).
  { unfold body, bind at 1, flag. cbn [flags]. rewrite Hf, (proj2 (Z.eqb_neq i (-1))) by lia.
    rewrite move_helper_eq by (apply elem_of_indices; lia). unfold Life.move_construct. by life_run. }
  destruct (if nothrow_move T then _ else _) as [b'|] eqn:Hb; cycle 1.
  { rewrite (constructor_throw m b a body Ha); [done|]. exact Hbody. }
  unfold constructor, repr, conc at 1, set_flag. rewrite bind_modify. cbn [cells flags budget leaks].
  rewrite (try_ok _ _ _ _ _ Hbody). exists b'. rewrite !conc_insert, insert_insert_eq. cbn [tag moved_value fmap option_fmap option_map].
  f_equal; [|by rewrite fmap_insert, (insert_id _ c) by (by rewrite lookup_insert_ne, lookup_fmap, Hc)].
  apply map_eq. intros x. life_eq.
Qed.

Lemma assign_repr m b nt a i v j w :
  typed m → m !! a = Some (Some (j, w)) → 0 ≤ i < Z.of_nat n →
  match assign_value T n nt a i v (repr m b) with
  | (Ok _, s') => ∃ b', s' = repr (<[a := Some (i, v)]> m) b'
  | (Throw _, s') => s' = repr (if j =? i then m else <[a := None]> m) 0
  | _ => False
  end.
Proof.
  intros Hm Ha Hi. assert (Hj : 0 ≤ j < Z.of_nat n) by (by eapply Hm).
  assert (Hf : flags (repr m b) !! a = Some j) by (unfold repr, conc; cbn; by rewrite lookup_fmap, Ha).
  unfold assign_value. rewrite (bind_ok _ _ _ _ _ (index_run _ a j Hf ltac:(lia))), (Z.eqb_sym i j).
  destruct (Z.eqb_spec j i) as [<-|Hne]; [|by apply (emplace_repr m b nt a i v (Some (j, w)))].
  assert (Hc : omap id m !! a = Some (j, w)) by (by rewrite lookup_omap, Ha).
  assert (Hins : ∀ b', State (<[a := (j, v)]> (omap id m)) (tag <$> m) b' 0 = repr (<[a := Some (j, v)]> m) b').
  { intros b'. unfold repr. rewrite conc_insert. f_equal. by rewrite insert_id by (by rewrite lookup_fmap, Ha). }
  unfold repr, conc at 1. unfold assign, risk. life_run; try done; eexists; apply Hins.
Qed.

(** The value is put into cleared storage as [emplace] does it. *)
Lemma copy_into_cleared (s : state V Z) a c j w :
  0 ≤ j < Z.of_nat n → flags s !! a = Some (-1) → cells s !! c = Some (j, w) →
  copy_helper T a c j (indices n) s = (construct (nothrow_copy T) a j w ;;; set_index a j) s.
Proof.
  intros Hj Hf Hc. rewrite copy_helper_eq by (apply elem_of_indices; lia).
  unfold bind at 1, read. rewrite Hc, Z.eqb_refl. destruct s as [ce fl b k]. cbn in *.
  unfold construct, risk. rewrite !bind_assoc. unfold bind at 1 3.
  assert (Hset : ∀ (ce' : gmap Z (Z * V)) b' k', set_flag a j (State ce' fl b' k') = set_index (V := V) a j (State ce' fl b' k'))
    by (intros; rewrite set_index_run by (done || lia); done).
  destruct (nothrow_copy T); [|destruct b as [|b]; [done|]]; cbn [budget cells flags leaks]; rewrite !bind_modify; apply Hset.
Qed.

Lemma reset_repr m b a o :
  typed m → m !! a = Some o → reset T n a (conc tag id m b) = (Ok tt, repr (<[a := None]> m) b).
Proof.
  intros Hm Ha. unfold repr. rewrite conc_insert. apply reset_run with (i := tag o); [done|by apply flag_conc|].
  by apply repr_consistent.
Qed.
(** A copy into a variant that was reset. *)
Lemma copy_into_repr m b a c oc :
  typed m → a ≠ c → m !! c = Some oc →
  match (if trivially_copyable T then copy_bytes a c else copy_helper T a c (tag oc) (indices n))
          (repr (<[a := None]> m) b) with
  | (Ok _, s') => ∃ b', s' = repr (<[a := oc]> m) b'
  | (Throw _, s') => s' = repr (<[a := None]> m) 0
  | _ => False
  end.
Proof.
  intros Hm Hac Hc. assert (Hc' : (<[a := None]> m) !! c = Some oc) by (by rewrite lookup_insert_ne).
  destruct (trivially_copyable T).
  { rewrite (copy_bytes_run _ b a c oc Hc'), insert_insert_eq. by exists b. }
  destruct oc as [[j w]|]; cbn [tag].
  - assert (Hj : 0 ≤ j < Z.of_nat n) by (by eapply Hm). unfold repr at 1. rewrite conc_insert. cbn [tag].
    rewrite (copy_into_cleared _ a c j w); [|done|apply lookup_insert_eq|].
    + rewrite construct_set_run; [|apply lookup_insert_eq|by rewrite lookup_partial_alter_eq|lia].
      assert (Hok : ∀ b', State (<[a := (j, w)]> (partial_alter (λ _, id None) a (omap id m)))
        (<[a := j]> (<[a := -1]> (tag <$> m))) b' 0 = repr (<[a := Some (j, w)]> m) b').
      { intros b'. unfold repr. rewrite conc_insert, insert_insert_eq. f_equal. apply map_eq. intros x. life_eq. }
      destruct (nothrow_copy T); [eexists; apply Hok|].
      destruct b as [|b]; [unfold repr; by rewrite conc_insert|eexists; apply Hok].
    + cbn. by rewrite lookup_partial_alter_ne, lookup_omap, Hc.
  - rewrite copy_helper_none by (rewrite elem_of_indices; lia). by exists b.
Qed.

Lemma move_assign_repr m b a c oa oc :
  typed m → m !! a = Some oa → m !! c = Some oc →
  match move_assign T n a c (repr m b) with
  | (Ok _, s') => ∃ b', s' = repr (<[a := oc]> m) b'
  | (Throw _, s') => s' = repr (if tag oa =? tag oc then m else <[a := None]> m) 0
  | _ => False
  end.
Proof.
  intros Hm Ha Hc. unfold move_assign.
  destruct (trivially_copyable T && trivially_copy_assignable T);
    [rewrite (copy_bytes_run m b a c oc Hc); by exists b|].
  destruct (Z.eqb_spec a c) as [<-|Hac].
  { exists b. simplify_eq. by rewrite insert_id. }
  assert (Hfa := flag_conc tag m a oa Ha). assert (Hfc := flag_conc tag m c oc Hc).
  unfold repr, conc at 1. unfold bind at 1, flag at 1. cbn [flags]. rewrite Hfa.
  unfold bind at 1, flag at 1. cbn [flags]. rewrite Hfc.
  destruct (Z.eqb_spec (tag oa) (tag oc)) as [Heq|Hne]; cbn [andb].
  - destruct oa as [[i v]|]; cbn [tag] in *.
    + destruct oc as [[j w]|]; cbn [tag] in *; [subst j|apply Hm in Ha; lia].
      assert (Hi : 0 ≤ i < Z.of_nat n) by (by eapply Hm). rewrite (proj2 (Z.eqb_neq i (-1))) by lia. cbn [negb].
      rewrite copy_assign_helper_eq by (apply elem_of_indices; lia).
      assert (Hca : omap id m !! a = Some (i, v)) by (by rewrite lookup_omap, Ha).
      assert (Hcc : omap id m !! c = Some (i, w)) by (by rewrite lookup_omap, Hc).
      assert (Hins : ∀ b', State (<[a := (i, w)]> (omap id m)) (tag <$> m) b' 0 = conc tag id (<[a := Some (i, w)]> m) b').
      { intros b'. rewrite conc_insert. f_equal. by rewrite insert_id. }
      unfold assign, risk. life_run; try done; eexists; apply Hins.
    + destruct oc as [[j w]|]; cbn [tag] in *; [apply Hm in Hc; lia|]. rewrite Z.eqb_refl. cbn [negb].
      rewrite (bind_ok _ _ _ _ _ (reset_repr m b a None Hm Ha)).
      pose proof (copy_into_repr m b a c None Hm Hac Hc) as Hr. by rewrite (insert_id m a None Ha) in Hr |- *.
  - cbn [negb]. rewrite (bind_ok _ _ _ _ _ (reset_repr m b a oa Hm Ha)). by apply copy_into_repr.
Qed.

(** The two moves of [swap] between variants of different alternatives. *)
Lemma exchange_run (ce : gmap Z (Z * V)) fl b a c i v j w :
  a ≠ c → i ≠ j → 0 ≤ i < Z.of_nat n → 0 ≤ j < Z.of_nat n → nothrow_move T = true →
  fl !! a = Some i → fl !! c = Some j → ce !! a = Some (i, v) → ce !! c = Some (j, w) →
  (let! tmp := local_move (nothrow_move T) c j in
   assign_move T n c i a ;;;
   assign_value T n (nothrow_move T) a j tmp) (State ce fl b 0) =
  (Ok tt, State (<[c := (i, v)]> (<[a := (j, w)]> ce)) (<[c := i]> (<[a := j]> fl)) b 0).
Proof.
  intros Hac Hne Hi Hj Hnt Hfa Hfc Hca Hcc.
  assert (Hji : (i =? j) = false) by (by apply Z.eqb_neq).
  assert (Hij : (j =? i) = false) by (apply Z.eqb_neq; congruence).
  erewrite bind_ok; [|unfold local_move; rewrite Hnt; unfold bind, read, risk, store; cbn [cells flags budget leaks];
                      rewrite Hcc, Z.eqb_refl; cbn [cells flags budget leaks]; by rewrite Hcc, Z.eqb_refl].
  unfold assign_move. rewrite bind_assoc.
  erewrite bind_ok; [|by apply index_run with (i := j); [exact Hfc|lia]]. rewrite Hji, bind_assoc.
  erewrite bind_ok; [|apply reset_run with (i := j); [exact Hclean|exact Hfc|]]; cycle 1.
  { right. split; [done|]. exists (moved w). by rewrite lookup_insert_eq. }
  rewrite bind_assoc. erewrite bind_ok; cycle 1.
  { unfold Life.move_construct. rewrite Hnt. unfold bind, read, construct, risk, modify, store. cbn [cells flags budget leaks].
    rewrite lookup_delete_ne, lookup_insert_ne, Hca, Z.eqb_refl by done. cbn [cells flags budget leaks bind].
    unfold bind. cbn [cells flags budget leaks]. rewrite lookup_delete_eq.
    rewrite lookup_insert_ne, lookup_delete_ne, lookup_insert_ne, Hca, Z.eqb_refl by done. reflexivity. }
  erewrite bind_ok; [|apply set_index_run; [apply lookup_insert_eq|lia]].
  unfold assign_value.
  erewrite bind_ok; [|apply index_run with (i := i); [cbn; by rewrite !lookup_insert_ne|lia]]. rewrite Hij.
  erewrite bind_ok; [|apply reset_run with (i := i); [exact Hclean|by rewrite !lookup_insert_ne|]]; cycle 1.
  { right. split; [done|]. exists (moved v). by rewrite lookup_insert_eq. }
  rewrite construct_set_run; [|by rewrite lookup_insert_eq|by rewrite lookup_delete_eq|lia]. rewrite Hnt.
  do 2 f_equal; apply map_eq; intros x; life_eq.
Qed.

Lemma swap_repr m b a c i v j w :
  typed m → a ≠ c → m !! a = Some (Some (i, v)) → m !! c = Some (Some (j, w)) → nothrow_move T = true →
  swap T n a c (repr m b) = (Ok tt, repr (<[c := Some (i, v)]> (<[a := Some (j, w)]> m)) b).
Proof.
  intros Hm Hac Ha Hc Hnt.
  assert (Hi : 0 ≤ i < Z.of_nat n) by (by eapply Hm). assert (Hj : 0 ≤ j < Z.of_nat n) by (by eapply Hm).
  assert (Hfa : flags (repr m b) !! a = Some i) by (unfold repr, conc; cbn; by rewrite lookup_fmap, Ha).
  assert (Hfc : flags (repr m b) !! c = Some j) by (unfold repr, conc; cbn; by rewrite lookup_fmap, Hc).
  assert (Hca : cells (repr m b) !! a = Some (i, v)) by (unfold repr, conc; cbn; by rewrite lookup_omap, Ha).
  assert (Hcc : cells (repr m b) !! c = Some (j, w)) by (unfold repr, conc; cbn; by rewrite lookup_omap, Hc).
  unfold swap. rewrite (bind_ok _ _ _ _ _ (valueless_run _ a i Hfa ltac:(lia))), bind_ret_l. cbn [andb].
  rewrite (bind_ok _ _ _ _ _ (index_run _ a i Hfa ltac:(lia))), (bind_ok _ _ _ _ _ (index_run _ c j Hfc ltac:(lia))).
  assert (Hfin : repr (<[c := Some (i, v)]> (<[a := Some (j, w)]> m)) b =
    State (<[c := (i, v)]> (<[a := (j, w)]> (omap id m))) (<[c := i]> (<[a := j]> (tag <$> m))) b 0).
  { unfold repr, conc. f_equal; [|by rewrite !fmap_insert]. life_eq. }
  rewrite Hfin. clear Hfin. unfold visit2.
  destruct (Z.eqb_spec i j) as [<-|Hne];
    rewrite (visit_run n _ _ c _ w Hfc Hcc ltac:(lia) ltac:(lia)), (visit_run n _ _ a i v Hfa Hca ltac:(lia) ltac:(lia));
    unfold repr, conc in *; cbn [cells flags] in *.
  - rewrite Z.eqb_refl. unfold store, bind. cbn [cells flags budget leaks]. rewrite Hca, Z.eqb_refl.
    cbn [cells flags budget leaks]. rewrite lookup_insert_ne, Hcc, Z.eqb_refl by done.
    rewrite (insert_id (tag <$> m) a) by done. by rewrite (insert_id (tag <$> m) c).
  - by apply exchange_run.
Qed.

(** When the destructors are run, or need not be, no value is lost. *)
Lemma variant_clean_run m b o :
  typed m → allowed m o →
  match run_op o (repr m b) with
  | (Ok _, s') => typed (spec m o) ∧ ∃ b', s' = repr (spec m o) b'
  | (Throw _, s') => typed (spec_throw m o) ∧ s' = repr (spec_throw m o) 0
  | _ => False
  end.
Proof.
  intros Hm Ha. destruct (typed_spec m o Hm Ha) as [Ht Hth].
  enough (match run_op o (repr m b) with
    | (Ok _, s') => ∃ b', s' = repr (spec m o) b'
    | (Throw _, s') => s' = repr (spec_throw m o) 0
    | _ => False end) as Hrun by (by destruct (run_op o (repr m b)) as [[] ?]).
  clear Ht Hth.
  destruct o as [nt a v0|nt a i v|a c|a c|a|nt a i v|nt a i v|a c|a c]; cbn [run_op spec spec_throw]; cbn in Ha.
  - by apply (construct_repr m b nt a 0 v0 set_flag).
  - destruct Ha as [Ha Hi]. apply (construct_repr m b nt a i v set_index); [|done].
    intros. apply set_index_run; [done|lia].
  - destruct Ha as [Ha [oc Hc]]. unfold value_at. rewrite Hc. by apply copy_repr.
  - destruct Ha as [Ha [oc Hc]]. unfold value_at. rewrite Hc. by apply move_repr.
  - destruct Ha as [oa Ha]. unfold destruct_, repr, conc at 1.
    fetch (reset_run T n (omap id m) (tag <$> m) b 0 a (tag oa) Hclean (flag_conc tag m a oa Ha) (repr_consistent m a oa Hm Ha)).
    exists b. unfold end_life, modify. cbn. by rewrite conc_delete, delete_insert_eq.
  - destruct Ha as [[[j w] Ha] Hi]. unfold value_at. rewrite Ha. by apply (assign_repr m b nt a i v j w).
  - destruct Ha as [[oa Ha] Hi]. pose proof (emplace_repr m b nt a i v oa Hm Ha Hi) as He.
    assert (Hsplit : ∀ s, (emplace T n nt a i v ;;; ret tt) s =
      ((reset T n a ;;; (construct nt a i v ;;; set_index a i)) ;;; (read a i ;;; ret tt)) s).
    { intros s. unfold emplace, bind. destruct (reset T n a s) as [[] s1]; [|done..].
      destruct (construct nt a i v s1) as [[] s2]; [|done..]. by destruct (set_index a i s2) as [[] s3]. }
    rewrite Hsplit. unfold bind at 1. destruct (bind _ _ _) as [[] s']; try done. destruct He as [b' ->].
    assert (Hread : read a i (repr (<[a := Some (i, v)]> m) b') = (Ok v, repr (<[a := Some (i, v)]> m) b')).
    { unfold read, repr, conc. cbn [cells]. rewrite lookup_omap, lookup_insert_eq. cbn. by rewrite Z.eqb_refl. }
    rewrite (bind_ok _ _ _ _ _ Hread). by exists b'.
  - destruct Ha as ([oa Ha] & [oc Hc]). unfold value_at. rewrite Ha, Hc. by apply move_assign_repr.
  - destruct Ha as (Hac & [[i v] Ha] & [[j w] Hc] & Hnt). unfold value_at. rewrite Ha, Hc. cbn [mbind option_bind id].
    rewrite (swap_repr m b a c i v j w) by done. by exists b.
Qed.

(** Access by alternative. *)
Lemma variant_get_spec m b a i v j :
  typed m → m !! a = Some (Some (i, v)) →
  get a j (repr m b) = (if i =? j then Ok v else Throw bad_variant_access, repr m b).
Proof.
  intros Hm Ha. assert (Hi : 0 ≤ i < Z.of_nat n) by (by eapply Hm).
  assert (Hf : flags (repr m b) !! a = Some i) by (unfold repr, conc; cbn; by rewrite lookup_fmap, Ha).
  unfold get. rewrite (bind_ok _ _ _ _ _ (index_run _ a i Hf ltac:(lia))).
  destruct (Z.eqb_spec i j) as [<-|]; [|done]. unfold read, repr, conc. cbn [cells].
  rewrite lookup_omap, Ha. cbn. by rewrite Z.eqb_refl.
Qed.
(** A valueless variant cannot even be asked whether it is. *)
Lemma variant_valueless_aborts m b a :
  m !! a = Some None → valueless_by_exception a (repr m b) = (Abort, repr m b).
Proof.
  intros Ha. unfold valueless_by_exception, bind. rewrite index_valueless; [done|].
  unfold repr, conc. cbn. by rewrite lookup_fmap, Ha.
Qed.

End refinement.

(** ** Destructors that are skipped

    The storage skips destructors that are not trivial but do not throw.  Then it does what it
    would do if it ran them, but for values that stay where no index names them. *)

Section skipped.
Context {V : Type} `{!Moved V}.
Local Arguments Z.eqb : simpl never.
Local Arguments Z.ltb : simpl never.

(** The same objects with the same indices; in [s] some more values were not destroyed. *)
Definition within (t s : state V Z) : Prop :=
  flags t = flags s ∧ budget t = budget s ∧ cells t ⊆ cells s.
(** [m] does what [m'] does, where that returns or throws. *)
Definition follows {A} (m m' : M (state V Z) A) : Prop :=
  ∀ t s r t', within t s → m' t = (r, t') → (∃ a, r = Ok a) ∨ (∃ e, r = Throw e) →
    ∃ s', m s = (r, s') ∧ within t' s'.

Lemma within_cell t s a c : within t s → cells t !! a = Some c → cells s !! a = Some c.
Proof. intros (_ & _ & Hs) Hc. by eapply lookup_weaken. Qed.
Lemma follows_bind {A B} (m m' : M (state V Z) A) (f f' : A → M (state V Z) B) :
  follows m m' → (∀ a, follows (f a) (f' a)) → follows (bind m f) (bind m' f').
Proof.
  intros Hm Hf t s r t' Hw Hr Hok. unfold bind in *. destruct (m' t) as [r1 t1] eqn:E1.
  destruct r1 as [a|e| | |]; simplify_eq; try (by destruct Hok as [[? ?]|[? ?]]).
  - destruct (Hm t s (Ok a) t1 Hw E1 ltac:(eauto)) as (s1 & -> & Hw1). by apply (Hf a t1 s1).
  - destruct (Hm t s (Throw e) t' Hw E1 ltac:(eauto)) as (s1 & -> & Hw1). eauto.
Qed.
Lemma follows_throw {A} e : follows (throw (A := A) e) (throw e).
Proof. intros t s r t' Hw [= <- <-] _. by exists s. Qed.
Lemma follows_try {A} (m m' : M (state V Z) A) h h' :
  follows m m' → follows h h' → follows (try_catch m h) (try_catch m' h').
Proof.
  intros Hm Hh t s r t' Hw Hr Hok. unfold try_catch in *. destruct (m' t) as [r1 t1] eqn:E1.
  destruct r1 as [a|e| | |]; simplify_eq; try (by destruct Hok as [[? ?]|[? ?]]).
  - destruct (Hm t s (Ok a) t' Hw E1 ltac:(eauto)) as (s1 & -> & Hw1). eauto.
  - destruct (Hm t s (Throw e) t1 Hw E1 ltac:(eauto)) as (s1 & -> & Hw1).
    by apply (follows_bind _ _ _ _ Hh (λ _, follows_throw e) t1 s1).
Qed.
Lemma follows_ret {A} (a : A) : follows (ret a) (ret a).
Proof. intros t s r t' Hw [= <- <-] _. by exists s. Qed.
Lemma follows_abort {A} (m : M (state V Z) A) : follows m abort.
Proof. intros t s r t' Hw [= <- <-] [[? ?]|[? ?]]; done. Qed.
Lemma follows_flag a : follows (flag a) (flag a).
Proof.
  intros t s r t' Hw Hr _. unfold flag in *. destruct Hw as (Hf & Hb & Hc). rewrite Hf in Hr.
  exists s. destruct (flags s !! a); simplify_eq; done.
Qed.
Lemma follows_modify f :
  (∀ t s, within t s → within (f t) (f s)) → follows (modify f) (modify f).
Proof. intros Hf t s r t' Hw [= <- <-] _. eexists. split; [done|]. by apply Hf. Qed.
Lemma follows_set_flag a i : follows (set_flag a i) (set_flag a i).
Proof. apply follows_modify. intros t s (Hf & Hb & Hc). split_and!; cbn; [by rewrite Hf|done|done]. Qed.
Lemma follows_end_life a : follows (end_life a) (end_life a).
Proof. apply follows_modify. intros t s (Hf & Hb & Hc). split_and!; cbn; [by rewrite Hf|done|done]. Qed.
Lemma follows_risk nt : follows (risk nt) (risk nt).
Proof.
  intros t s r t' Hw Hr _. unfold risk in *. pose proof Hw as (Hf & Hb & Hc). rewrite Hb in Hr.
  destruct nt; [simplify_eq; by exists s|]. destruct (budget s); simplify_eq; [by exists s|].
  eexists. split; [done|]. done.
Qed.
Lemma follows_construct nt a i v : follows (construct nt a i v) (construct nt a i v).
Proof.
  apply follows_bind; [apply follows_risk|intros _]. apply follows_modify. intros t s (Hf & Hb & Hc).
  split_and!; cbn; [done|done|]. by apply insert_mono.
Qed.
Lemma follows_destroy a i : follows (destroy a i) (destroy a i).
Proof.
  intros t s r t' Hw Hr Hok. unfold destroy in *.
  destruct (cells t !! a) as [[j v]|] eqn:E; [|simplify_eq; by destruct Hok as [[? ?]|[? ?]]].
  rewrite (within_cell t s a _ Hw E). destruct (i =? j); simplify_eq; [|by destruct Hok as [[? ?]|[? ?]]].
  eexists. split; [done|]. destruct Hw as (Hf & Hb & Hc). split_and!; cbn; [done|done|]. by apply delete_mono.
Qed.
Lemma follows_read a i : follows (read a i) (read a i).
Proof.
  intros t s r t' Hw Hr Hok. unfold read in *.
  destruct (cells t !! a) as [[j v]|] eqn:E; [|simplify_eq; by destruct Hok as [[? ?]|[? ?]]].
  rewrite (within_cell t s a _ Hw E). destruct (i =? j); simplify_eq; [|by destruct Hok as [[? ?]|[? ?]]].
  by exists s.
Qed.
Lemma follows_store a i v : follows (store a i v) (store a i v).
Proof.
  intros t s r t' Hw Hr Hok. unfold store in *.
  destruct (cells t !! a) as [[j w]|] eqn:E; [|simplify_eq; by destruct Hok as [[? ?]|[? ?]]].
  rewrite (within_cell t s a _ Hw E). destruct (i =? j); simplify_eq; [|by destruct Hok as [[? ?]|[? ?]]].
  eexists. split; [done|]. destruct Hw as (Hf & Hb & Hc). split_and!; cbn; [done|done|]. by apply insert_mono.
Qed.
Lemma follows_copy_bytes a b : follows (copy_bytes a b) (copy_bytes a b).
Proof.
  apply follows_bind; [apply follows_flag|intros i]. apply follows_bind; [apply follows_set_flag|intros _].
  apply follows_modify. intros t s (Hf & Hb & Hc). split_and!; cbn; [done|done|].
  apply map_subseteq_spec. intros x y. rewrite !lookup_partial_alter. case_decide; intros Hx;
    by eapply lookup_weaken.
Qed.

(** The alternatives, if their destructors could throw: then they are run. *)
Definition may_throw (T : traits) : traits :=
  Traits (trivially_movable T) (trivially_copyable T) (trivially_copy_assignable T)
    (trivially_destructible T) false (nothrow_move T) (nothrow_copy T) (nothrow_assign T).
Lemma may_throw_cleans T : cleans (may_throw T).
Proof. unfold cleans, skips_destructors. cbn. destruct (trivially_movable T), (trivially_destructible T); done. Qed.

Context (T : traits) (n : nat).
Abbreviation T' := (may_throw T).

Lemma follows_helper a i l : follows (destroy a i) (destruct_helper (V := V) a i l).
Proof.
  induction l as [|j l IH]; [apply follows_abort|]. cbn.
  destruct (Z.eqb_spec i j) as [<-|]; [apply follows_destroy|exact IH].
Qed.
Lemma follows_same_helper a i l : follows (destruct_helper (V := V) a i l) (destruct_helper a i l).
Proof. induction l as [|j l IH]; [apply follows_abort|]. cbn. case_match; [apply follows_destroy|exact IH]. Qed.
Lemma follows_reset a : follows (reset T n a) (reset T' n a).
Proof.
  destruct (skips_destructors T) eqn:E; cycle 1.
  { assert (E' : skips_destructors T' = false).
    { unfold skips_destructors in *. cbn. by destruct (trivially_movable T). }
    unfold reset. rewrite E, E'. apply follows_bind; [apply follows_flag|intros i].
    case_match; [apply follows_ret|].
    apply follows_bind; [apply follows_same_helper|intros _; apply follows_set_flag]. }
  destruct (skips_destructors T') eqn:E'.
  { unfold reset. rewrite E, E'. apply follows_bind; [apply follows_flag|intros i].
    apply follows_bind; [|intros _; apply follows_set_flag]. cbn.
    case_match; [apply follows_destroy|apply follows_ret]. }
  intros t s r t' Hw Hr Hok. unfold reset, bind, flag in *. rewrite E. rewrite E' in Hr.
  pose proof Hw as (Hf & Hb & Hc). rewrite Hf in Hr. destruct (flags s !! a) as [i|] eqn:Ea;
    [|simplify_eq; by destruct Hok as [[? ?]|[? ?]]].
  destruct (Z.eqb_spec i (-1)) as [->|Hi].
  { rewrite andb_false_r. injection Hr as <- <-. eexists. split; [done|].
    split_and!; cbn; [by rewrite insert_id|done|done]. }
  rewrite andb_true_r. destruct (destruct_helper a i (indices n) t) as [r1 t1] eqn:Ed.
  destruct r1 as [[]|e| | |]; simplify_eq; try (by destruct Hok as [[? ?]|[? ?]]).
  - destruct (follows_helper a i _ t s (Ok tt) t1 Hw Ed ltac:(eauto)) as (s1 & Hd & Hw1).
    unfold set_flag, modify in *. injection Hr as <- <-.
    destruct (trivially_destructible T).
    + rewrite Hd. eexists. split; [done|]. destruct Hw1 as (Hf1 & Hb1 & Hc1). split_and!; cbn; [by rewrite Hf1|done|done].
    + eexists. split; [done|]. unfold destroy in Hd. destruct (cells s !! a) as [[k v]|] eqn:Es; [|done].
      destruct (i =? k); [|done]. injection Hd as <-. destruct Hw1 as (Hf1 & Hb1 & Hc1). cbn in *.
      split_and!; cbn; [by rewrite Hf1|done|]. etrans; [exact Hc1|]. apply delete_subseteq.
  - exfalso. destruct (follows_helper a i _ t s (Throw e) t' Hw Ed ltac:(eauto)) as (s1 & Hd & _).
    unfold destroy in Hd. by repeat case_match.
Qed.
Ltac follow_with tac :=
  repeat first
    [ tac | apply follows_reset | apply follows_ret | apply follows_throw | apply follows_abort
    | apply follows_flag | apply follows_set_flag | apply follows_end_life | apply follows_risk
    | apply follows_construct | apply follows_destroy | apply follows_read | apply follows_store
    | apply follows_copy_bytes | apply follows_bind; [|intros ?] | apply follows_try
    | progress case_match ].
Ltac follow := follow_with fail.
Lemma follows_visit {A} (f g : Z → V → M (state V Z) A) a :
  (∀ i v, follows (f i v) (g i v)) → follows (visit n f a) (visit n g a).
Proof.
  intros Hfg. unfold visit, valueless_by_exception, index, gpcl_assert. follow. generalize (indices n).
  induction l as [|i l IH]; [apply follows_abort|]. cbn [apply_visitor]. destruct l as [|j l];
    unfold get, index, gpcl_assert; follow; [apply Hfg..|exact IH].
Qed.
Lemma follows_op o : follows (run_op T n o) (run_op T' n o).
Proof.
  assert (Hmove : ∀ a c j l, follows (move_helper T a c j l) (move_helper T' a c j l)).
  { intros a c j. induction l as [|i l IH]; cbn; [follow|]. case_match; [unfold Life.move_construct; follow|exact IH]. }
  assert (Hcopy : ∀ a c j l, follows (copy_helper T a c j l) (copy_helper T' a c j l)).
  { intros a c j. induction l as [|i l IH]; cbn; [follow|]. case_match; [follow|exact IH]. }
  assert (Hassign : ∀ a c j l, follows (copy_assign_helper T a c j l) (copy_assign_helper T' a c j l)).
  { intros a c j. induction l as [|i l IH]; cbn; [follow|]. case_match; [unfold assign; follow|exact IH]. }
  destruct o; cbn [run_op].
  - unfold default_construct, constructor, destruct_. follow.
  - unfold construct_value, constructor, destruct_, set_index, gpcl_assert. follow.
  - unfold copy_construct, constructor, destruct_. cbn. follow; apply Hcopy.
  - unfold move_construct, constructor, destruct_. cbn. follow; apply Hmove.
  - unfold destruct_. follow.
  - unfold assign_value, index, assign, set_index, gpcl_assert. cbn. follow.
  - unfold emplace, set_index, gpcl_assert. follow.
  - unfold move_assign. cbn. follow; [apply Hassign|apply Hcopy].
  - unfold swap, valueless_by_exception, index, gpcl_assert, visit2.
    unfold local_move, assign_move, assign_value, Life.move_assign, Life.move_construct, assign, set_index, index,
      gpcl_assert. cbn [may_throw nothrow_move nothrow_assign].
    follow_with ltac:(idtac; lazymatch goal with |- follows (visit _ _ _) _ => apply follows_visit; intros ? ? end).
Qed.

Context (Hn : 0 < Z.of_nat n < 2 ^ 31) (Htriv : trivially_movable T = true → ∀ v, moved v = v).

(** C14: The constructors, the destructor, assignment of a value to a variant that has one,
    [emplace], move assignment and [swap] of different variants that have values (and whose moves do not
    throw) keep every variant well typed - its index names the alternative that lives in its
    storage - and leave the values of the specification; an exception leaves the
    old values, or a valueless variant if the new value has another alternative.  This
    holds for all alternatives, trivial or not.  If the destructors are run or are
    trivial ([cleans]), nothing else is left in the storage; if not, values that were replaced may
    remain without being destroyed ([within], [variant_emplace_leaks]).  Copy assignment is not among
    the operations ([variant_copy_assign_undef]). *)
Theorem variant_well_typed m b o s :
  typed n m → allowed T n m o → within (repr m b) s →
  match run_op T n o s with
  | (Ok _, s') => typed n (spec m o) ∧ ∃ b', within (repr (spec m o) b') s'
  | (Throw _, s') => typed n (spec_throw m o) ∧ within (repr (spec_throw m o) 0) s'
  | _ => False
  end ∧
  (cleans T → s = repr m b →
   match run_op T n o s with
   | (Ok _, s') => ∃ b', s' = repr (spec m o) b'
   | (Throw _, s') => s' = repr (spec_throw m o) 0
   | _ => False
   end).
Proof.
  intros Hm Ha Hw. split.
  - pose proof (variant_clean_run T' n Hn (may_throw_cleans T) Htriv m b o Hm Ha) as Hr.
    destruct (run_op T' n o (repr m b)) as [r t'] eqn:E.
    assert (Hok : (∃ a, r = Ok a) ∨ ∃ e, r = Throw e) by (destruct r; (done || eauto)).
    destruct (follows_op o _ s r t' Hw E Hok) as (s' & -> & Hw').
    destruct r; [|destruct Hr as [? ->]; done|done..]. destruct Hr as [? [b' ->]]. eauto.
  - intros Hc ->. pose proof (variant_clean_run T n Hn Hc Htriv m b o Hm Ha) as Hr.
    destruct (run_op T n o (repr m b)) as [[] s']; naive_solver.
Qed.

End skipped.

(** The storage skips the destructors of alternatives that are not trivially movable but
    whose destructors do not throw: every value is lost when it is replaced. *)
Lemma variant_emplace_leaks {V} `{!Moved V} T n (m : gmap Z (option (Z * V))) b a i v j w :
  trivially_movable T = false → nothrow_destructible T = true → trivially_destructible T = false →
  m !! a = Some (Some (j, w)) → 0 ≤ i →
  ∃ s', emplace T n true a i v (repr m b) = (Ok v, s') ∧ leaks s' = 1%nat.
Proof.
  intros HTm HTn HTd Ha Hi. unfold emplace, reset, skips_destructors. rewrite HTm, HTn, HTd. cbn [andb].
  eexists. rewrite bind_assoc. unfold repr, conc. unfold bind at 1, flag. cbn [flags]. rewrite lookup_fmap, Ha.
  cbn [fmap option_fmap option_map]. unfold bind at 1, set_flag, modify, bind at 1, ret. cbn [cells flags budget leaks].
  split.
  - unfold construct, risk. rewrite bind_assoc. unfold bind at 1. rewrite bind_modify. cbn [cells flags budget leaks].
    rewrite lookup_omap, Ha. cbn [mbind option_bind id].
    erewrite bind_ok; [|apply set_index_run; [apply lookup_insert_eq|exact Hi]].
    unfold read. cbn [cells]. by rewrite lookup_insert_eq, Z.eqb_refl.
  - done.
Qed.

(** Copy assignment of alternatives that are not trivially copyable copies bytes: the value
    of the target is lost, and what its index now promises is not there. *)
Lemma variant_copy_assign_undef {V} `{!Moved V} T (m : gmap Z (option (Z * V))) b a c i v j w :
  trivially_copyable T = false → a ≠ c → 0 ≤ j →
  m !! a = Some (Some (i, v)) → m !! c = Some (Some (j, w)) →
  ∃ s', copy_assign T a c (repr m b) = (Ok tt, s') ∧ leaks s' = 1%nat ∧ fst (get a j s') = Undef.
Proof.
  intros HT Hac Hj Ha Hc. unfold copy_assign. rewrite HT, (proj2 (Z.eqb_neq a c)) by done.
  unfold overwrite_bytes, repr, conc. unfold bind at 1, flag. cbn [flags]. rewrite lookup_fmap, Hc.
  eexists. cbn [cells flags budget leaks fmap option_fmap option_map tag]. unfold bind at 1, set_flag, modify. cbn [cells flags budget leaks].
  split; [reflexivity|]. cbn [leaks]. rewrite lookup_omap, Ha. split; [done|]. unfold get.
  erewrite bind_ok; [|apply (index_run _ _ j); [apply lookup_insert_eq|exact Hj]].
  rewrite Z.eqb_refl. unfold read. cbn [cells]. by rewrite lookup_delete_eq.
Qed.

(** ** Comparison *)

Section comparison.
Context {V : Type} (eqb ltb : V → V → bool).

(** [detail::compare] of two values and of two indices. *)
Definition compare_values (x y : V) : comparison :=
  if eqb x y then Eq else if ltb x y then Lt else Gt.
Definition compare_indices (i j : Z) : comparison :=
  if i =? j then Eq else if i <? j then Lt else Gt.
(** [detail::compare] of two variants. *)
Definition compare (n : nat) (x y : Z) : M (state V Z) comparison :=
  let! b1 := valueless_by_exception x in
  let! b2 := if b1 then valueless_by_exception y else ret false in
  if b1 && b2 then ret Eq else
  let! b1 := valueless_by_exception x in
  if b1 : bool then ret Lt else
  let! b2 := valueless_by_exception y in
  if b2 : bool then ret Gt else
  let! i := index x in
  let! j := index y in
  if negb (i =? j) then ret (compare_indices i j)
  else visit2 n (λ i v j w, if i =? j then ret (compare_values v w) else abort) x y.
Definition eq_op (n : nat) (x y : Z) : M (state V Z) bool :=
  let! r := compare n x y in ret (match r with Eq => true | _ => false end).
Definition ne_op (n : nat) (x y : Z) : M (state V Z) bool :=
  let! r := compare n x y in ret (match r with Eq => false | _ => true end).
Definition lt_op (n : nat) (x y : Z) : M (state V Z) bool :=
  let! r := compare n x y in ret (match r with Lt => true | _ => false end).
Definition gt_op (n : nat) (x y : Z) : M (state V Z) bool :=
  let! r := compare n x y in ret (match r with Gt => true | _ => false end).
Definition le_op (n : nat) (x y : Z) : M (state V Z) bool :=
  let! r := compare n x y in ret (match r with Gt => false | _ => true end).
Definition ge_op (n : nat) (x y : Z) : M (state V Z) bool :=
  let! r := compare n x y in ret (match r with Lt => false | _ => true end).

(** The order the comparison computes: by alternative, then by value. *)
Definition order (x y : Z * V) : comparison :=
  if negb (fst x =? fst y) then compare_indices (fst x) (fst y) else compare_values (snd x) (snd y).

Lemma variant_compare_spec n (m : gmap Z (option (Z * V))) b x y p q :
  0 < Z.of_nat n < 2 ^ 31 → typed n m → m !! x = Some (Some p) → m !! y = Some (Some q) →
  compare n x y (repr m b) = (Ok (order p q), repr m b).
Proof.
  destruct p as [i v], q as [j w]. intros Hn Hm Hx Hy.
  assert (Hi : 0 ≤ i < Z.of_nat n) by (by eapply Hm). assert (Hj : 0 ≤ j < Z.of_nat n) by (by eapply Hm).
  assert (Hfx : flags (repr m b) !! x = Some i) by apply (flag_conc tag m x _ Hx).
  assert (Hfy : flags (repr m b) !! y = Some j) by apply (flag_conc tag m y _ Hy).
  assert (Hcx : cells (repr m b) !! x = Some (i, v)) by (cbn; by rewrite lookup_omap, Hx).
  assert (Hcy : cells (repr m b) !! y = Some (j, w)) by (cbn; by rewrite lookup_omap, Hy).
  assert (Hvx := valueless_run (repr m b) x i Hfx ltac:(lia)).
  assert (Hvy := valueless_run (repr m b) y j Hfy ltac:(lia)).
  unfold compare, order. rewrite (bind_ok _ _ _ _ _ Hvx), bind_ret_l. cbn [andb].
  rewrite (bind_ok _ _ _ _ _ Hvx), (bind_ok _ _ _ _ _ Hvy).
  rewrite (bind_ok _ _ _ _ _ (index_run _ x i Hfx ltac:(lia))), (bind_ok _ _ _ _ _ (index_run _ y j Hfy ltac:(lia))).
  cbn [fst snd]. destruct (Z.eqb_spec i j) as [<-|Hne]; cbn [negb]; [|done].
  unfold visit2. erewrite visit_run by (done || lia). erewrite visit_run by (done || lia). by rewrite Z.eqb_refl.
Qed.

(** With an order on the values, the comparison of variants is one. *)
Lemma variant_order_antisym x y :
  (∀ v w, eqb v w = true ↔ v = w) → (∀ v w, v ≠ w → ltb v w = negb (ltb w v)) →
  order y x = CompOpp (order x y) ∧ (order x y = Eq ↔ x = y).
Proof.
  intros Heq Hlt. unfold order, compare_indices, compare_values.
  destruct x as [i v], y as [j w]. cbn. rewrite (Z.eqb_sym j i).
  destruct (Z.eqb_spec i j) as [<-|Hne]; cbn.
  - destruct (eqb v w) eqn:Hvw, (eqb w v) eqn:Hwv.
    + apply Heq in Hvw as ->. done.
    + apply Heq in Hvw as ->. by rewrite (proj2 (Heq w w) eq_refl) in Hwv.
    + apply Heq in Hwv as ->. by rewrite (proj2 (Heq v v) eq_refl) in Hvw.
    + assert (Hn : v ≠ w) by (intros ->; by rewrite (proj2 (Heq w w) eq_refl) in Hvw).
      rewrite (Hlt v w Hn). destruct (ltb w v); cbn; (split; [done|]); split; try done; intros [=]; done.
  - destruct (Z.ltb_spec i j), (Z.ltb_spec j i); cbn; try lia; (split; [done|]); split; try done; intros [=]; done.
Qed.

End comparison.

(** ** Concrete alternatives *)

(** Two alternatives with destructors that do not throw, of which one is not trivial; copies
    may throw. *)
Definition string_like : traits := Traits false false false false true true false false.
Definition sample : gmap Z (option (Z * Z)) := {[ 1 := Some (0, 7); 2 := Some (1, 9) ]}.

Lemma variant_well_typed_witness :
  (∃ s', run_op string_like 2 (AssignValue false 1 1 5) (repr sample 0) = (Throw runtime_error, s') ∧
     flags s' !! 1 = Some (-1) ∧ cells s' !! 2 = Some (1, 9)) ∧
  (∃ s', run_op string_like 2 (AssignValue false 1 1 5) (repr sample 3) = (Ok tt, s') ∧
     flags s' !! 1 = Some 1 ∧ cells s' !! 1 = Some (1, 5)).
Proof.
  assert (Ht : typed 2 sample).
  { intros a i v Ha. unfold sample in Ha. apply lookup_insert_Some in Ha as [[_ [= <- _]]|[_ Ha]]; [lia|].
    apply lookup_singleton_Some in Ha as [_ [= <- _]]. lia. }
  assert (Ha : allowed string_like 2 sample (AssignValue false 1 1 5)) by (split; [by eexists|lia]).
  assert (H2 : 0 < Z.of_nat 2 < 2 ^ 31) by lia.
  assert (Htr : trivially_movable string_like = true → ∀ v : Z, moved v = v) by discriminate.
  assert (Hw : ∀ b, within (repr sample b) (repr sample b)) by (intros b; exact (conj eq_refl (conj eq_refl (reflexivity _)))).
  pose proof (λ b : nat, proj1 (variant_well_typed string_like 2 H2 Htr sample b _ _ Ht Ha (Hw b))) as Hrun.
  split.
  - specialize (Hrun 0%nat).
    assert (E : fst (run_op string_like 2 (AssignValue false 1 1 5) (repr sample 0)) = Throw runtime_error) by reflexivity.
    destruct (run_op _ _ _ (repr sample 0)) as [r s']. cbn in E. subst r. exists s'. split; [done|].
    destruct Hrun as (_ & Hf & _ & Hc). split; [by rewrite <- Hf|]. eapply lookup_weaken; [|exact Hc]. done.
  - specialize (Hrun 3%nat).
    assert (E : fst (run_op string_like 2 (AssignValue false 1 1 5) (repr sample 3)) = Ok tt) by reflexivity.
    destruct (run_op _ _ _ (repr sample 3)) as [r s']. cbn in E. subst r. exists s'. split; [done|].
    destruct Hrun as (_ & b' & Hf & _ & Hc). split; [by rewrite <- Hf|]. eapply lookup_weaken; [|exact Hc]. done.
Defined.

End Variant.
