(* ===== verification/Any.v ===== *)
(** * basic_any (basic_any.hpp, detail/any_manager.hpp, any_cast.hpp)

    A [basic_any] keeps a value of any type in its own buffer when the type is small enough
    and does not throw when it is moved, and on the heap otherwise; [manage_] is the manage
    function of the type, or null.  Types are numbers; their sizes, alignments and whether
    their move constructor may throw are parameters.  [local] holds the objects that live in
    the buffers, [heap] those made by [new]; [budget] is the number of constructions and
    allocations that still succeed; an object that is overwritten is counted in [leaks]. *)

From S2P Require Import Prelude Lifetime.

Local Open Scope Z_scope.
Local Open Scope gpcl_scope.

Module Any.

Section any.
Context {V : Type} `{!Moved V}.
Context (LocalSize LocalAlign : Z) (sizeof alignof : Z → Z) (nothrow_move : Z → bool).

Record any : Type := MkAny { manage_ : option Z; remote_addr : Z }.
Record state : Type := State {
  anys : gmap Z any;
  local : gmap Z (Z * V);
  heap : gmap Z (Z * V);
  budget : nat;
  leaks : nat;
}.
Abbreviation A T := (M state T).

(** ** The fields *)

Definition self (a : Z) : A any := λ s, match anys s !! a
    with Some x => (Ok x, s) | None => (Undef, s) end.
Definition set_self (a : Z) (x : any) : A unit :=
  modify (λ s, State (<[a := x]> (anys s)) (local s) (heap s) (budget s) (leaks s)).
Definition manage (a : Z) : A (option Z) := let! x := self a in ret (manage_ x).
Definition set_manage (a : Z) (t : option Z) : A unit :=
  let! x := self a in set_self a (MkAny t (remote_addr x)).
Definition set_remote (a p : Z) : A unit :=
  let! x := self a in set_self a (MkAny (manage_ x) p).

(** ** any_manager *)

Definition local_storage (t : Z) : bool :=
  (sizeof t <=? LocalSize) && (alignof t <=? LocalAlign) && (LocalAlign mod alignof t =? 0) &&
    nothrow_move t.

Definition risk : A unit := λ s,
  match budget s with
  | O => (Throw bad_alloc, s)
  | S b => (Ok tt, State (anys s) (local s) (heap s) b (leaks s))
  end.
(** [::new (&dest->local_buffer) T(v)]. *)
Definition new_local (a t : Z) (v : V) : A unit :=
  modify (λ s, State (anys s) (<[a := (t, v)]> (local s)) (heap s) (budget s)
                 (if local s !! a is Some _ then S (leaks s) else leaks s)).
(** [new T(v)]. *)
Definition new_remote (t : Z) (v : V) : A Z := λ s,
  let p := fresh_key (heap s) in
  (Ok p, State (anys s) (local s) (<[p := (t, v)]> (heap s)) (budget s) (leaks s)).
(** An object of type [t] in the data of [a]; [get_pointer]. *)
Definition read (a t : Z) : A V := λ s,
  match (if local_storage t then local s !! a
         else match anys s !! a with Some x => heap s !! remote_addr x | None => None end) with
  | Some (t', v) => if t =? t' then (Ok v, s) else (Undef, s)
  | None => (Undef, s)
  end.
Definition construct_data (a t : Z) (v : V) : A unit :=
  if local_storage t then risk ;;; new_local a t v
  else risk ;;; let! p := new_remote t v in set_remote a p.
Definition clone (dest source t : Z) : A unit := let! v := read source t in construct_data dest t v.
(** Returns whether [manage_] of the source has to be cleared. *)
Definition move (dest source t : Z) : A bool :=
  let! v := read source t in
  if local_storage t then
    new_local dest t v ;;;
    modify (λ s, State (anys s) (<[source := (t, moved v)]> (local s)) (heap s) (budget s) (leaks s)) ;;;
    ret false
  else
    let! x := self source in
    set_remote dest (remote_addr x) ;;;
    ret true.
Definition destroy (a t : Z) : A unit :=
  read a t ;;;
  if local_storage t then
    modify (λ s, State (anys s) (delete a (local s)) (heap s) (budget s) (leaks s))
  else
    let! x := self a in
    modify (λ s, State (anys s) (local s) (delete (remote_addr x) (heap s)) (budget s) (leaks s)).

(** ** basic_any *)

(** A constructor that throws leaves no object. *)
Definition begin_life (a : Z) (t : option Z) : A unit := set_self a (MkAny t 0).
Definition end_life (a : Z) : A unit :=
  modify (λ s, State (delete a (anys s)) (local s) (heap s) (budget s) (leaks s)).

Definition construct_default (a : Z) : A unit := begin_life a None.
Definition copy_construct (a other : Z) : A unit :=
  let! t := manage other in
  begin_life a t ;;;
  match t with
  | Some t => try_catch (clone a other t) (end_life a)
  | None => ret tt
  end.
Definition move_data (a other : Z) (t : option Z) : A unit :=
  match t with
  | Some t => let! b := move a other t in if b : bool then set_manage other None else ret tt
  | None => ret tt
  end.
Definition move_construct (a other : Z) : A unit :=
  let! t := manage other in
  begin_life a t ;;;
  move_data a other t.
(** [basic_any(ValueType &&)] and [basic_any(in_place_type_t, ...)]. *)
Definition construct_value (a t : Z) (v : V) : A unit :=
  begin_life a (Some t) ;;; try_catch (construct_data a t v) (end_life a).
Definition destroy_data (a : Z) : A unit :=
  let! t := manage a in
  match t with Some t => destroy a t | None => ret tt end.
Definition destruct_ (a : Z) : A unit := destroy_data a ;;; end_life a.
Definition move_assign (a other : Z) : A unit :=
  destroy_data a ;;;
  let! t := manage other in
  set_manage a t ;;;
  move_data a other t.
(** The temporary is made at an address that is not in use. *)
Definition temporary : A Z := gets (λ s, fresh_key (anys s)).
Definition swap (a other : Z) : A unit :=
  let! temp := temporary in
  move_construct temp other ;;;
  move_assign other a ;;;
  move_assign a temp ;;;
  destruct_ temp.
Definition copy_assign (a other : Z) : A unit :=
  let! temp := temporary in
  copy_construct temp other ;;;
  swap temp a ;;;
  destruct_ temp.
(** [operator=(ValueType &&)] and [emplace]. *)
Definition assign_value (a t : Z) (v : V) : A unit :=
  let! temp := temporary in
  construct_value temp t v ;;;
  swap temp a ;;;
  destruct_ temp.
Definition reset (a : Z) : A unit := destroy_data a ;;; set_manage a None.
Definition emplace (a t : Z) (v : V) : A unit := assign_value a t v.

Definition has_value (a : Z) : A bool := let! t := manage a in ret (if t is Some _ then true else false).
Definition empty (a : Z) : A bool := let! t := manage a in ret (if t is Some _ then false else true).
(** [void] is no type of a value. *)
Definition type (a : Z) : A (option Z) := manage a.
Definition holds_type (a t : Z) : A bool := let! u := type a in ret (bool_decide (u = Some t)).
(** [raw_value]: a call of the manage function, also when it is null. *)
Definition raw_value (a : Z) : A V :=
  let! t := manage a in
  match t with Some t => read a t | None => undef end.

(** any_cast.hpp: by value, and by pointer, where [None] is the null pointer. *)
Definition any_cast_unchecked (a t : Z) : A V :=
  let! u := manage a in
  match u with Some u => if t =? u then read a t else undef | None => undef end.
Definition any_cast (a t : Z) : A V :=
  let! b := holds_type a t in
  if b : bool then any_cast_unchecked a t else throw bad_any_cast.
Definition any_cast_ptr (x : option Z) (t : Z) : A (option V) :=
  match x with
  | None => ret None
  | Some a =>
      let! b := holds_type a t in
      if b : bool then let! v := any_cast_unchecked a t in ret (Some v) else ret None
  end.

(** ** What the data stands for

    An abstract object is the type its manage function is for, and the value its data
    holds; between two steps of a member function these may differ. *)

Abbreviation cell := (option Z * option (Z * V))%type.

Definition owns (X : gmap Z cell) (s : state) (a p : Z) : Prop :=
  ∃ mg t v x, X !! a = Some (mg, Some (t, v)) ∧ local_storage t = false ∧ anys s !! a = Some x ∧
    remote_addr x = p.
Definition holds (s : state) (a : Z) (x : any) (c : option (Z * V)) : Prop :=
  match c with
  | None => local s !! a = None
  | Some (t, v) =>
      if local_storage t then local s !! a = Some (t, v)
      else local s !! a = None ∧ heap s !! remote_addr x = Some (t, v)
  end.
Record rep (X : gmap Z cell) (s : state) : Prop := {
  rep_some a mg c : X !! a = Some (mg, c) → ∃ x, anys s !! a = Some x ∧ manage_ x = mg ∧ holds s a x c;
  rep_none a : X !! a = None → anys s !! a = None ∧ local s !! a = None;
  rep_heap p : is_Some (heap s !! p) → ∃ a, owns X s a p;
  rep_inj a b p : owns X s a p → owns X s b p → a = b;
  rep_leaks : leaks s = O;
}.

Definition owned_by (c : option (Z * V)) (x : any) (p : Z) : Prop :=
  ∃ t v, c = Some (t, v) ∧ local_storage t = false ∧ remote_addr x = p.

Lemma owns_update X s s' a mg c x b p :
  anys s' = <[a := x]> (anys s) →
  owns (<[a := (mg, c)]> X) s' b p ↔ (b = a ∧ owned_by c x p) ∨ (b ≠ a ∧ owns X s b p).
Proof.
  intros Ha. unfold owns, owned_by. rewrite Ha, !lookup_insert. split.
  - intros (mg' & t & v & y & HX & Hl & Hy & Hp). case_decide; simplify_eq; [left|right]; eauto 10.
  - intros [(-> & t & v & -> & Hl & Hp)|(Hne & mg' & t & v & y & HX & Hl & Hy & Hp)].
    + rewrite !decide_True by done. eauto 10.
    + rewrite !decide_False by done. eauto 10.
Qed.
(** One object changes: its data may move, no other object's does. *)
Lemma any_rep_update X s s' a mg c x :
  rep X s → anys s' = <[a := x]> (anys s) → manage_ x = mg → holds s' a x c →
  (∀ b, b ≠ a → local s' !! b = local s !! b) →
  (∀ b p, b ≠ a → owns X s b p → heap s' !! p = heap s !! p ∧ ¬ owned_by c x p) →
  (∀ p, is_Some (heap s' !! p) → owned_by c x p ∨ ∃ b, b ≠ a ∧ owns X s b p) →
  leaks s' = O → rep (<[a := (mg, c)]> X) s'.
Proof.
  intros H Ha Hm Hc Hloc Hheap Hall Hleak. split; [| | | |done].
  - intros b mg' c'. rewrite Ha, !lookup_insert. case_decide as Hab; [intros [= <- <-]; subst; eauto|].
    intros HX. destruct (rep_some _ _ H _ _ _ HX) as (y & Hy & Hmy & Hcy). exists y. split; [done|].
    split; [done|].
    destruct c' as [[t v]|]; cbn in *; [|by rewrite Hloc].
    destruct (local_storage t) eqn:Hl; [by rewrite Hloc|]. rewrite Hloc by done. split; [apply Hcy|].
    rewrite (proj1 (Hheap b (remote_addr y) (not_eq_sym Hab) ltac:(unfold owns; eauto 10))). apply Hcy.
  - intros b. rewrite Ha, !lookup_insert. case_decide; [done|]. intros HX.
    destruct (rep_none _ _ H _ HX). by rewrite Hloc.
  - intros p Hp. destruct (Hall p Hp) as [Ho|(b & Hb & Ho)]; [exists a|exists b];
      apply (owns_update X s s' a mg c x _ p Ha); tauto.
  - intros b d p Hb%(owns_update X s s' a mg c x b p Ha) Hd%(owns_update X s s' a mg c x d p Ha).
    destruct Hb as [(-> & Hb)|(? & Hb)], Hd as [(-> & Hd)|(? & Hd)];
      [done| | |by eapply (rep_inj _ _ H)].
    + by destruct (Hheap d p).
    + by destruct (Hheap b p).
Qed.

(** The parts of an object that is represented. *)
Lemma self_run X s a mg c : rep X s → X !! a = Some (mg, c) → ∃ x, self a s = (Ok x, s) ∧
    anys s !! a = Some x ∧ manage_ x = mg ∧ holds s a x c.
Proof. intros H HX. destruct (rep_some _ _ H _ _ _ HX) as (x & Hx & Hm & Hc). exists x.
  split; [|done]. unfold self. by rewrite Hx. Qed.
Lemma manage_run X s a mg c : rep X s → X !! a = Some (mg, c) → manage a s = (Ok mg, s).
Proof. intros H HX. destruct (self_run _ _ _ _ _ H HX) as (x & Hx & _ & <- & _). unfold manage.
  by rewrite (bind_ok _ _ _ _ _ Hx). Qed.
Lemma any_read_run X s a mg t v : rep X s → X !! a = Some (mg, Some (t, v)) → read a t s = (Ok v, s).
Proof.
  intros H HX. destruct (self_run _ _ _ _ _ H HX) as (x & _ & Hx & _ & Hc). cbn in Hc. unfold read.
  destruct (local_storage t).
  - by rewrite Hc, Z.eqb_refl.
  - destruct Hc as [_ Hc]. by rewrite Hx, Hc, Z.eqb_refl.
Qed.
(** Others' heap objects when [a]'s own pointer does not change. *)
Lemma others_heap X s a mg c x c' :
  rep X s → X !! a = Some (mg, c) → anys s !! a = Some x → (∀ p, owned_by c' x p → owned_by c x p) →
  ∀ b p, b ≠ a → owns X s b p → ¬ owned_by c' x p.
Proof.
  intros H HX Hx Hsub b p Hb Ho Hown. apply Hb, (rep_inj _ _ H _ _ p Ho).
  destruct (Hsub p Hown) as (t & v & -> & Hl & Hp). unfold owns. eauto 10.
Qed.
Lemma heap_owned X s a mg c x p :
  rep X s → X !! a = Some (mg, c) → anys s !! a = Some x → is_Some (heap s !! p) → owned_by c x p ∨
    ∃ b, b ≠ a ∧ owns X s b p.
Proof.
  intros H HX Hx Hp. destruct (rep_heap _ _ H p Hp) as [b Hb].
  destruct (decide (b = a)) as [->|Hne]; [left|by right; eauto].
  destruct Hb as (mg' & t & v & y & HX' & Hl & Hy & Hpy). simplify_eq. unfold owned_by. eauto.
Qed.

(** *** The steps of the member functions *)

Lemma set_manage_run X s a mg c o :
  rep X s → X !! a = Some (mg, c) →
  ∃ s', set_manage a o s = (Ok tt, s') ∧ rep (<[a := (o, c)]> X) s' ∧ budget s' = budget s.
Proof.
  intros H HX. destruct (self_run _ _ _ _ _ H HX) as (x & Hx & Hax & Hm & Hc). unfold set_manage.
  rewrite (bind_ok _ _ _ _ _ Hx). eexists. split; [done|]. split; [|done].
  apply (any_rep_update X s _ a o c (MkAny o (remote_addr x)) H); try done.
  - intros b p Hb Ho. split; [done|]. by eapply (others_heap X s a mg c x).
  - intros p Hp. by eapply (heap_owned X s a mg c x).
  - apply H.
Qed.
Lemma begin_run X s a o :
  rep X s → X !! a = None →
  ∃ s', begin_life a o s = (Ok tt, s') ∧ rep (<[a := (o, None)]> X) s' ∧ budget s' = budget s.
Proof.
  intros H HX. eexists. split; [done|]. split; [|done].
  apply (any_rep_update X s _ a o None (MkAny o 0) H); try done.
  - cbn. apply (rep_none _ _ H a HX).
  - intros b p Hb Ho. split; [done|]. by intros (t & v & ? & _).
  - intros p Hp. right. destruct (rep_heap _ _ H p Hp) as [b Hb]. exists b. split; [|done].
    intros ->. destruct Hb as (? & ? & ? & ? & HX' & _). congruence.
  - apply H.
Qed.
Lemma end_run X s a mg :
  rep X s → X !! a = Some (mg, None) →
  ∃ s', end_life a s = (Ok tt, s') ∧ rep (delete a X) s' ∧ budget s' = budget s.
Proof.
  intros H HX. eexists. split; [done|]. split; [|done].
  assert (Ho : ∀ b p,
    owns (delete a X) (State (delete a (anys s)) (local s) (heap s) (budget s) (leaks s)) b p ↔
    owns X s b p).
  { intros b p. unfold owns. cbn. setoid_rewrite lookup_delete. split.
    - intros (mg' & t & v & x & HX' & Hl & Hx & Hp). repeat case_decide; simplify_eq. eauto 10.
    - intros (mg' & t & v & x & HX' & Hl & Hx & Hp). exists mg', t, v, x.
      repeat case_decide; simplify_eq. done. }
  split; cbn.
  - intros b mg' c. rewrite !lookup_delete. case_decide; [done|]. intros HX'.
    destruct (rep_some _ _ H _ _ _ HX') as (x & Hx & Hmx & Hc). exists x. by destruct c as [[t v]|].
  - intros b. rewrite !lookup_delete. case_decide as Hab; [|apply H]. subst b. intros _. split; [done|].
    by destruct (rep_some _ _ H _ _ _ HX) as (x & _ & _ & Hc).
  - intros p Hp. destruct (rep_heap _ _ H p Hp) as [b Hb]. exists b. by apply Ho.
  - intros b d p Hb%Ho Hd%Ho. by eapply (rep_inj _ _ H).
  - apply H.
Qed.
Lemma new_local_run X s a mg t v :
  rep X s → X !! a = Some (mg, None) → local_storage t = true →
  ∃ s', new_local a t v s = (Ok tt, s') ∧ rep (<[a := (mg, Some (t, v))]> X) s' ∧ budget s' = budget s.
Proof.
  intros H HX Hl. destruct (self_run _ _ _ _ _ H HX) as (x & Hx & Hax & Hm & Hc). cbn in Hc.
  eexists. split; [done|]. split; [|done].
  apply (any_rep_update X s _ a mg (Some (t, v)) x H); cbn.
  - by rewrite insert_id.
  - done.
  - rewrite Hl. apply lookup_insert_eq.
  - intros b Hb. by rewrite lookup_insert_ne.
  - intros b p Hb Ho. split; [done|]. intros (t' & v' & [= <- <-] & Hl' & _). congruence.
  - intros p Hp. destruct (heap_owned X s a mg None x p H HX Hax Hp) as [(? & ? & ? & _)|Ho];
      [done|by right].
  - rewrite Hc. apply H.
Qed.
(** An object on the heap that no one owns is given to [a], and is taken from it. *)
Lemma attach X s a mg t v p :
  rep X s → X !! a = Some (mg, None) → local_storage t = false → heap s !! p = None →
  rep (<[a := (mg, Some (t, v))]> X)
    (State (<[a := MkAny mg p]> (anys s)) (local s) (<[p := (t, v)]> (heap s)) (budget s) (leaks s)).
Proof.
  intros H HX Hl Hfr. destruct (self_run _ _ _ _ _ H HX) as (x & Hx & Hax & Hm & Hc). cbn in Hc.
  assert (Hno : ∀ b, ¬ owns X s b p).
  { intros b (mg' & t' & v' & y & HX' & Hl' & Hy & Hp).
      destruct (rep_some _ _ H _ _ _ HX') as (y' & Hy' & _ & Hc').
    simplify_eq. cbn in Hc'. rewrite Hl' in Hc'. destruct Hc'. congruence. }
  apply (any_rep_update X s _ a mg (Some (t, v)) (MkAny mg p) H); cbn; try done.
  - rewrite Hl. split; [done|apply lookup_insert_eq].
  - intros b q Hb Ho. assert (q ≠ p) by (intros ->; by apply (Hno b)).
    rewrite lookup_insert_ne by done. split; [done|].
    intros (? & ? & _ & _ & ?). cbn in *. congruence.
  - intros q. rewrite lookup_insert.
    case_decide as Hq; [intros _; left; unfold owned_by; cbn; eauto 10|].
    intros Hs. destruct (heap_owned X s a mg None x q H HX Hax Hs) as [(? & ? & ? & _)|Ho];
      [done|by right].
  - apply H.
Qed.
Lemma detach X s a mg t v x :
  rep X s → X !! a = Some (mg, Some (t, v)) → local_storage t = false → anys s !! a = Some x →
  rep (<[a := (mg, None)]> X) (State (anys s) (local s) (delete (remote_addr x) (heap s)) (budget s)
    (leaks s)).
Proof.
  intros H HX Hl Hx. destruct (rep_some _ _ H _ _ _ HX) as (y & Hy & Hm & Hc). simplify_eq.
  cbn in Hc. rewrite Hl in Hc.
  assert (Hown : owns X s a (remote_addr x)) by (unfold owns; eauto 10).
  apply (any_rep_update X s _ a (manage_ x) None x H); cbn; try done.
  - by rewrite insert_id.
  - apply Hc.
  - intros b p Hb Ho. split; [|by intros (? & ? & ? & _)].
    rewrite lookup_delete_ne; [done|]. intros <-. by apply Hb, (rep_inj _ _ H _ _ (remote_addr x)).
  - intros p. rewrite lookup_delete. case_decide as Hp; [by intros [? ?]|]. intros Hs.
    destruct (heap_owned X s a _ _ x p H HX Hx Hs) as [(? & ? & ? & ? & ?)|Ho]; [congruence|by right].
  - apply H.
Qed.
Lemma new_remote_run X s a mg t v :
  rep X s → X !! a = Some (mg, None) → local_storage t = false →
  ∃ s', (let! p := new_remote t v in set_remote a p) s = (Ok tt, s') ∧
    rep (<[a := (mg, Some (t, v))]> X) s' ∧ budget s' = budget s.
Proof.
  intros H HX Hl. destruct (self_run _ _ _ _ _ H HX) as (x & Hx & Hax & Hm & Hc).
  unfold new_remote, bind at 1, set_remote, self, bind. cbn [anys]. rewrite Hax, Hm. eexists.
  split; [done|].
  split; [|done]. refine (attach X s a mg t v _ H HX Hl _). apply fresh_key_fresh.
Qed.
Lemma put_local X s a mg t v v' :
  rep X s → X !! a = Some (mg, Some (t, v)) → local_storage t = true →
  rep (<[a := (mg, Some (t, v'))]> X) (State (anys s) (<[a := (t, v')]> (local s)) (heap s)
    (budget s) (leaks s)).
Proof.
  intros H HX Hl. destruct (self_run _ _ _ _ _ H HX) as (x & Hx & Hax & Hm & Hc).
  apply (any_rep_update X s _ a mg (Some (t, v')) x H); cbn.
  - by rewrite insert_id.
  - done.
  - rewrite Hl. apply lookup_insert_eq.
  - intros b Hb. by rewrite lookup_insert_ne.
  - intros b p Hb Ho. split; [done|]. intros (t' & ? & [= <- _] & Hl' & _). congruence.
  - intros p Hp.
    destruct (heap_owned X s a mg _ x p H HX Hax Hp) as [(t' & ? & [= <- _] & Hl' & _)|Ho];
      [congruence|by right].
  - apply H.
Qed.

(** The object in the data of [a] changes in place. *)
Lemma put_remote X s a mg t v v' x :
  rep X s → X !! a = Some (mg, Some (t, v)) → local_storage t = false → anys s !! a = Some x →
  rep (<[a := (mg, Some (t, v'))]> X)
    (State (anys s) (local s) (<[remote_addr x := (t, v')]> (heap s)) (budget s) (leaks s)).
Proof.
  intros H HX Hl Hx. destruct (rep_some _ _ H _ _ _ HX) as (y & Hy & <- & _). simplify_eq.
  pose proof (attach _ _ a (manage_ x) t v' (remote_addr x) (detach X s a _ t v x H HX Hl Hx))
    as Hat. cbn in Hat.
  rewrite insert_insert_eq, insert_delete_eq in Hat. destruct x as [mg p]. cbn in *.
  rewrite (insert_id (anys s)) in Hat by done.
  apply Hat; [apply lookup_insert_eq|done|apply lookup_delete_eq].
Qed.

Lemma any_destroy_run X s a mg t v :
  rep X s → X !! a = Some (mg, Some (t, v)) →
  ∃ s', destroy a t s = (Ok tt, s') ∧ rep (<[a := (mg, None)]> X) s' ∧ budget s' = budget s.
Proof.
  intros H HX. unfold destroy. rewrite (bind_ok _ _ _ _ _ (any_read_run X s a mg t v H HX)).
  destruct (self_run _ _ _ _ _ H HX) as (x & Hx & Hax & Hm & Hc). cbn in Hc.
  destruct (local_storage t) eqn:Hl.
  - eexists. split; [done|]. split; [|done].
    apply (any_rep_update X s _ a mg None x H); cbn.
    + by rewrite insert_id.
    + done.
    + apply lookup_delete_eq.
    + intros b Hb. by rewrite lookup_delete_ne.
    + intros b p Hb Ho. split; [done|]. by intros (? & ? & ? & _).
    + intros p Hp.
      destruct (heap_owned X s a mg _ x p H HX Hax Hp) as [(t' & ? & [= <- _] & Hl' & _)|Ho];
        [congruence|by right].
    + apply H.
  - rewrite (bind_ok _ _ _ _ _ Hx). eexists. split; [done|]. split; [|done]. by eapply detach.
Qed.

(** What a moved-from object holds. *)
Definition moved_value (t : Z) (v : V) : option (Z * V) :=
    if local_storage t then Some (t, moved v) else None.

Lemma any_move_run X s a b mga mgb t v :
  rep X s → a ≠ b → X !! a = Some (mga, None) → X !! b = Some (mgb, Some (t, v)) →
  ∃ s', move a b t s = (Ok (negb (local_storage t)), s') ∧ budget s' = budget s ∧
    rep (<[a := (mga, Some (t, v))]> (<[b := (mgb, moved_value t v)]> X)) s'.
Proof.
  intros H Hab Ha Hb. unfold move, moved_value.
  rewrite (bind_ok _ _ _ _ _ (any_read_run X s b mgb t v H Hb)).
  destruct (local_storage t) eqn:Hl; cbn [negb].
  - destruct (new_local_run X s a mga t v H Ha Hl) as (s1 & H1 & Hr1 & Hb1).
    rewrite (bind_ok _ _ _ _ _ H1), bind_modify. eexists. split; [done|]. split; [done|].
    rewrite insert_insert_ne by done. apply (put_local _ s1 b mgb t v);
      [done|by rewrite lookup_insert_ne|done].
  - destruct (self_run _ _ _ _ _ H Hb) as (x & Hx & Hbx & Hm & Hc). rewrite (bind_ok _ _ _ _ _ Hx).
    destruct (self_run _ _ _ _ _ H Ha) as (y & Hy & Hay & Hmy & _).
    unfold set_remote. rewrite bind_assoc, (bind_ok _ _ _ _ _ Hy). eexists. split; [done|].
    split; [done|]. cbn in Hc.
    rewrite Hl in Hc. pose proof (detach X s b mgb t v x H Hb Hl Hbx) as Hd.
    pose proof (attach _ _ a mga t v (remote_addr x) Hd) as Hat. cbn in Hat.
    rewrite insert_delete_eq, (insert_id (heap s)) in Hat by apply (proj2 Hc). rewrite Hmy.
    apply Hat; [|done|apply lookup_delete_eq].
    by rewrite lookup_insert_ne.
Qed.
Lemma construct_data_run X s a mg t v :
  rep X s → X !! a = Some (mg, None) →
  (budget s = O ∧ construct_data a t v s = (Throw bad_alloc, s)) ∨
  ∃ s', construct_data a t v s = (Ok tt, s') ∧ rep (<[a := (mg, Some (t, v))]> X) s'.
Proof.
  intros H HX.
  assert (Hrisk : budget s = O ∧ risk s = (Throw bad_alloc, s) ∨ ∃ s', risk s = (Ok tt, s') ∧
    rep X s').
  { unfold risk. destruct (budget s) as [|b]; [by left|right]. eexists. split; [done|].
    destruct H as [H1 H2 H3 H4 H5]. split; done. }
  unfold construct_data. destruct Hrisk as [[Hb Hr]|(s1 & Hr & H1)]; [left|right].
  - split; [done|]. by destruct (local_storage t); rewrite (bind_throw _ _ _ _ _ Hr).
  - destruct (local_storage t) eqn:Hl; rewrite (bind_ok _ _ _ _ _ Hr).
    + destruct (new_local_run X s1 a mg t v H1 HX Hl) as (s2 & H2 & Hr2 & _). eauto.
    + destruct (new_remote_run X s1 a mg t v H1 HX Hl) as (s2 & H2 & Hr2 & _). eauto.
Qed.

(** ** Refinement of optional values *)

(** Between member functions the manage function is that of the value. *)
Definition full (o : option (Z * V)) : cell := (fst <$> o, o).
Definition repr (m : gmap Z (option (Z * V))) (s : state) : Prop := rep (full <$> m) s.

Lemma full_lookup (m : gmap Z (option (Z * V))) a o : m !! a = Some o →
    (full <$> m) !! a = Some (full o).
Proof. intros H. by rewrite lookup_fmap, H. Qed.
Lemma full_none (m : gmap Z (option (Z * V))) a : m !! a = None → (full <$> m) !! a = None.
Proof. intros H. by rewrite lookup_fmap, H. Qed.

(** What a moved-from [basic_any] holds. *)
Definition leave (o : option (Z * V)) : option (Z * V) := o ≫= λ tv, moved_value (fst tv) (snd tv).

Lemma move_data_run X s a b mg o :
  rep X s → a ≠ b → X !! a = Some (mg, None) → X !! b = Some (full o) →
  ∃ s', move_data a b (fst <$> o) s = (Ok tt, s') ∧ budget s' = budget s ∧
    rep (<[a := (mg, o)]> (<[b := full (leave o)]> X)) s'.
Proof.
  intros H Hab Ha Hb. destruct o as [[t v]|]; cbn [move_data fmap option_fmap option_map fst].
  - destruct (any_move_run X s a b mg _ t v H Hab Ha Hb) as (s1 & H1 & Hb1 & Hr1).
    rewrite (bind_ok _ _ _ _ _ H1).
    unfold leave, moved_value in *. cbn [mbind option_bind fst snd] in *.
    destruct (local_storage t); cbn [negb] in *.
    + by exists s1.
    + destruct (set_manage_run _ s1 b (Some t) None None Hr1) as (s2 & H2 & Hr2 & Hb2).
      { by rewrite lookup_insert_ne, lookup_insert_eq. }
      exists s2. split; [done|]. split; [congruence|].
      by rewrite insert_insert_ne, insert_insert_eq in Hr2 by done.
  - exists s. split; [done|]. split; [done|]. cbn. by rewrite (insert_id X b), insert_id.
Qed.
Lemma destroy_data_run X s a o :
  rep X s → X !! a = Some (full o) →
  ∃ s', destroy_data a s = (Ok tt, s') ∧ budget s' = budget s ∧ rep (<[a := (fst <$> o, None)]> X) s'.
Proof.
  intros H Ha. unfold destroy_data. rewrite (bind_ok _ _ _ _ _ (manage_run X s a _ _ H Ha)).
  destruct o as [[t v]|]; cbn.
  - destruct (any_destroy_run X s a _ t v H Ha) as (s1 & H1 & Hr1 & Hb1). eauto.
  - exists s. split; [done|]. split; [done|]. by rewrite insert_id.
Qed.

Lemma move_construct_run m s a b o :
  repr m s → m !! a = None → m !! b = Some o →
  ∃ s', move_construct a b s = (Ok tt, s') ∧ budget s' = budget s ∧
    repr (<[a := o]> (<[b := leave o]> m)) s'.
Proof.
  intros H Ha Hb. assert (Hab : a ≠ b) by congruence. unfold move_construct.
  rewrite (bind_ok _ _ _ _ _ (manage_run _ s b _ _ H (full_lookup m b o Hb))).
  destruct (begin_run _ s a (fst <$> o) H (full_none m a Ha)) as (s1 & H1 & Hr1 & Hb1).
  rewrite (bind_ok _ _ _ _ _ H1).
  destruct (move_data_run _ s1 a b (fst <$> o) o Hr1 Hab) as (s2 & H2 & Hb2 & Hr2).
  { apply lookup_insert_eq. }
  { rewrite lookup_insert_ne by done. by apply full_lookup. }
  exists s2. split; [done|]. split; [congruence|]. unfold repr. rewrite !fmap_insert.
  by rewrite insert_insert_ne, insert_insert_eq, insert_insert_ne in Hr2 by done.
Qed.
Lemma destruct_run m s a o :
  repr m s → m !! a = Some o → ∃ s', destruct_ a s = (Ok tt, s') ∧ budget s' = budget s ∧
    repr (delete a m) s'.
Proof.
  intros H Ha. unfold destruct_.
  destruct (destroy_data_run _ s a o H (full_lookup m a o Ha)) as (s1 & H1 & Hb1 & Hr1).
  rewrite (bind_ok _ _ _ _ _ H1).
  destruct (end_run _ s1 a (fst <$> o) Hr1) as (s2 & H2 & Hr2 & Hb2); [apply lookup_insert_eq|].
  exists s2. split; [done|]. split; [congruence|]. unfold repr. rewrite fmap_delete.
  by rewrite delete_insert_eq in Hr2.
Qed.
Lemma move_assign_run m s a b oa ob :
  repr m s → a ≠ b → m !! a = Some oa → m !! b = Some ob →
  ∃ s', move_assign a b s = (Ok tt, s') ∧ budget s' = budget s ∧
    repr (<[a := ob]> (<[b := leave ob]> m)) s'.
Proof.
  intros H Hab Ha Hb. unfold move_assign.
  destruct (destroy_data_run _ s a oa H (full_lookup m a oa Ha)) as (s1 & H1 & Hb1 & Hr1).
  rewrite (bind_ok _ _ _ _ _ H1).
  assert (HXb : ∀ c, (<[a := c]> (full <$> m)) !! b = Some (full ob)).
  { intros c. rewrite lookup_insert_ne by done. by apply full_lookup. }
  rewrite (bind_ok _ _ _ _ _ (manage_run _ s1 b _ _ Hr1 (HXb _))).
  destruct (set_manage_run _ s1 a _ None (fst <$> ob) Hr1 (lookup_insert_eq _ _ _))
    as (s2 & H2 & Hr2 & Hb2).
  rewrite (bind_ok _ _ _ _ _ H2), insert_insert_eq in *.
  destruct (move_data_run _ s2 a b (fst <$> ob) ob Hr2 Hab (lookup_insert_eq _ _ _) (HXb _))
    as (s3 & H3 & Hb3 & Hr3).
  exists s3. split; [done|]. split; [congruence|]. unfold repr. rewrite !fmap_insert.
  by rewrite (insert_insert_ne _ a b), insert_insert_eq, insert_insert_ne in Hr3 by done.
Qed.
Lemma temporary_fresh m s : repr m s → m !! fresh_key (anys s) = None.
Proof.
  intros H. pose proof (fresh_key_fresh (anys s)) as Hf.
  destruct (m !! fresh_key (anys s)) as [o|] eqn:E; [|done].
  destruct (rep_some _ _ H _ _ _ (full_lookup m _ o E)) as (x & Hx & _). congruence.
Qed.
Ltac look := rewrite ?lookup_insert, ?lookup_delete, ?lookup_insert; repeat case_decide; congruence.
Ltac map_solve := apply map_eq; intros ?i; rewrite ?lookup_insert, ?lookup_delete, ?lookup_insert;
  repeat case_decide; congruence.
Lemma swap_run m s a b oa ob :
  repr m s → a ≠ b → m !! a = Some oa → m !! b = Some ob →
  ∃ s', swap a b s = (Ok tt, s') ∧ budget s' = budget s ∧ repr (<[a := ob]> (<[b := oa]> m)) s'.
Proof.
  intros H Hab Ha Hb. unfold swap, temporary. rewrite bind_gets.
  pose proof (temporary_fresh m s H) as Ht.
  set (t := fresh_key (anys s)) in *. assert (t ≠ a ∧ t ≠ b) as [Hta Htb] by (split; congruence).
  destruct (move_construct_run m s t b ob H Ht Hb) as (s1 & H1 & B1 & R1).
  rewrite (bind_ok _ _ _ _ _ H1).
  destruct (move_assign_run _ s1 b a (leave ob) oa R1) as (s2 & H2 & B2 & R2);
    [done|look|look|]. rewrite (bind_ok _ _ _ _ _ H2).
  destruct (move_assign_run _ s2 a t (leave oa) ob R2) as (s3 & H3 & B3 & R3);
    [done|look|look|]. rewrite (bind_ok _ _ _ _ _ H3).
  destruct (destruct_run _ s3 t (leave ob) R3) as (s4 & H4 & B4 & R4); [look|].
  exists s4. split; [done|]. split; [congruence|].
  assert (Heq :
    delete t (<[a :=
    ob]> (<[t := leave ob]> (<[b := oa]> (<[a := leave oa]> (<[t := ob]> (<[b := leave ob]> m))))))
    =
    <[a := ob]> (<[b := oa]> m)) by map_solve.
  by rewrite Heq in R4.
Qed.
(** A constructor that may throw, in [a]. *)
Lemma guarded_run m s a t v :
  repr m s → m !! a = None → ∀ s1, rep (<[a := (Some t, None)]> (full <$> m)) s1 → budget s1 = budget s →
  (budget s = O ∧ ∃ s', try_catch (construct_data a t v) (end_life a) s1 = (Throw bad_alloc, s') ∧
    repr m s') ∨
  ∃ s', try_catch (construct_data a t v) (end_life a) s1 = (Ok tt, s') ∧
    repr (<[a := Some (t, v)]> m) s'.
Proof.
  intros H Ha s1 H1 B1.
  destruct (construct_data_run _ s1 a (Some t) t v H1 (lookup_insert_eq _ _ _))
    as [[Hb Ht]|(s2 & H2 & R2)].
  - left. split; [congruence|].
    destruct (end_run _ s1 a (Some t) H1 (lookup_insert_eq _ _ _)) as (s2 & H2 & R2 & _).
    exists s2. split; [by eapply try_throw|]. by rewrite delete_insert_id in R2 by (by apply full_none).
  - right. exists s2. split; [by apply try_ok|]. unfold repr. rewrite fmap_insert.
    by rewrite insert_insert_eq in R2.
Qed.
Lemma construct_value_run m s a t v :
  repr m s → m !! a = None →
  (budget s = O ∧ ∃ s', construct_value a t v s = (Throw bad_alloc, s') ∧ repr m s') ∨
  ∃ s', construct_value a t v s = (Ok tt, s') ∧ repr (<[a := Some (t, v)]> m) s'.
Proof.
  intros H Ha. unfold construct_value.
  destruct (begin_run _ s a (Some t) H (full_none m a Ha)) as (s1 & H1 & R1 & B1).
  rewrite (bind_ok _ _ _ _ _ H1). by apply (guarded_run m s a t v H Ha s1 R1).
Qed.
Lemma copy_construct_run m s a b o :
  repr m s → m !! a = None → m !! b = Some o →
  (budget s = O ∧ ∃ s', copy_construct a b s = (Throw bad_alloc, s') ∧ repr m s') ∨
  ∃ s', copy_construct a b s = (Ok tt, s') ∧ repr (<[a := o]> m) s'.
Proof.
  intros H Ha Hb. unfold copy_construct.
  rewrite (bind_ok _ _ _ _ _ (manage_run _ s b _ _ H (full_lookup m b o Hb))).
  destruct (begin_run _ s a (fst <$> o) H (full_none m a Ha)) as (s1 & H1 & R1 & B1).
  rewrite (bind_ok _ _ _ _ _ H1).
  destruct o as [[t v]|]; cbn [fmap option_fmap option_map fst] in *.
  - assert (Hv : read b t s1 = (Ok v, s1)).
    { eapply any_read_run; [exact R1|]. rewrite lookup_insert_ne by congruence. by apply full_lookup. }
    unfold clone. assert (Hc : try_catch (let! v := read b t in construct_data a t v) (end_life a) s1 =
      try_catch (construct_data a t v) (end_life a) s1) by (unfold try_catch;
        by rewrite (bind_ok _ _ _ _ _ Hv)).
    rewrite Hc. by apply (guarded_run m s a t v H Ha s1 R1).
  - right. exists s1. split; [done|]. unfold repr. by rewrite fmap_insert.
Qed.
(** The temporary that takes the new value is swapped in and destroyed with the old one. *)
Lemma swap_in m s temp a o oa :
  repr (<[temp := o]> m) s → m !! temp = None → m !! a = Some oa →
  ∃ s', (swap temp a ;;; destruct_ temp) s = (Ok tt, s') ∧ repr (<[a := o]> m) s'.
Proof.
  intros H Ht Ha. assert (temp ≠ a) by congruence.
  destruct (swap_run _ s temp a o oa H) as (s1 & H1 & _ & R1); [done|look|look|].
  rewrite (bind_ok _ _ _ _ _ H1). destruct (destruct_run _ s1 temp oa R1) as (s2 & H2 & _ & R2); [look|].
  exists s2. split; [done|].
  assert (Heq : delete temp (<[temp := oa]> (<[a := o]> (<[temp := o]> m))) = <[a := o]> m)
    by map_solve.
  by rewrite Heq in R2.
Qed.

Lemma copy_assign_run m s a b oa ob :
  repr m s → m !! a = Some oa → m !! b = Some ob →
  (budget s = O ∧ ∃ s', copy_assign a b s = (Throw bad_alloc, s') ∧ repr m s') ∨
  ∃ s', copy_assign a b s = (Ok tt, s') ∧ repr (<[a := ob]> m) s'.
Proof.
  intros H Ha Hb. unfold copy_assign, temporary. pose proof (temporary_fresh m s H) as Ht.
  set (t := fresh_key (anys s)) in *.
  destruct (copy_construct_run m s t b ob H Ht Hb) as [(B & s1 & H1 & R1)|(s1 & H1 & R1)]; [left|right];
    rewrite bind_gets; fold t.
  - split; [done|]. exists s1. by rewrite (bind_throw _ _ _ _ _ H1).
  - rewrite (bind_ok _ _ _ _ _ H1). by eapply swap_in.
Qed.

(** ** Programs *)

Inductive op : Type :=
| Default (a : Z)
| Value (a t : Z) (v : V)
| Copy (a b : Z)
| Move (a b : Z)
| Destruct (a : Z)
| CopyAssign (a b : Z)
| MoveAssign (a b : Z)
| AssignValue (a t : Z) (v : V)
| Swap (a b : Z)
| Reset (a : Z).

Definition run_op (o : op) : A unit :=
  match o with
  | Default a => construct_default a
  | Value a t v => construct_value a t v
  | Copy a b => copy_construct a b
  | Move a b => move_construct a b
  | Destruct a => destruct_ a
  | CopyAssign a b => copy_assign a b
  | MoveAssign a b => move_assign a b
  | AssignValue a t v => assign_value a t v
  | Swap a b => swap a b
  | Reset a => reset a
  end.
Definition value_of (m : gmap Z (option (Z * V))) (a : Z) : option (Z * V) := default None (m !! a).
Definition spec (m : gmap Z (option (Z * V))) (o : op) : gmap Z (option (Z * V)) :=
  match o with
  | Default a | Reset a => <[a := None]> m
  | Value a t v | AssignValue a t v => <[a := Some (t, v)]> m
  | Copy a b | CopyAssign a b => <[a := value_of m b]> m
  | Move a b | MoveAssign a b => <[a := value_of m b]> (<[b := leave (value_of m b)]> m)
  | Destruct a => delete a m
  | Swap a b => <[a := value_of m b]> (<[b := value_of m a]> m)
  end.
Definition allowed (m : gmap Z (option (Z * V))) (o : op) : Prop :=
  match o with
  | Default a | Value a _ _ => m !! a = None
  | Copy a b | Move a b => m !! a = None ∧ is_Some (m !! b)
  | Destruct a | Reset a | AssignValue a _ _ => is_Some (m !! a)
  | CopyAssign a b => is_Some (m !! a) ∧ is_Some (m !! b)
  | MoveAssign a b | Swap a b => a ≠ b ∧ is_Some (m !! a) ∧ is_Some (m !! b)
  end.

(** C26: A [basic_any] behaves as a value that may be absent, wherever its data is kept:
    the constructors, copy and value assignment, [reset], the destructor, and move
    assignment and [swap] between different objects leave exactly the values of the
    specification, each destroyed once and none leaked, or throw when a construction or
    an allocation fails and leave every object as it was. *)
Theorem any_refines_option m s o :
  repr m s → allowed m o →
  (∃ s', run_op o s = (Ok tt, s') ∧ repr (spec m o) s') ∨
  (budget s = O ∧ ∃ s', run_op o s = (Throw bad_alloc, s') ∧ repr m s').
Proof.
  intros H Hal. destruct o as [a|a t v|a b|a b|a|a b|a b|a t v|a b|a]; cbn [run_op spec allowed] in *;
    unfold value_of; repeat match goal with E : _ ∧ _ |- _ => destruct E as [?Hc ?Hd] | E :
      is_Some _ |- _ => destruct E as [? E] end;
    repeat match goal with E : ?m !! ?a = Some ?o |- context [default None (?m !! ?a)] => rewrite E;
      cbn [default] end.
  - left. destruct (begin_run _ s a None H (full_none m a Hal)) as (s1 & H1 & R1 & _). exists s1.
    split; [done|].
    unfold repr. by rewrite fmap_insert.
  - destruct (construct_value_run m s a t v H Hal); auto.
  - destruct (copy_construct_run m s a b x H) as [?|?]; auto.
  - left. destruct (move_construct_run m s a b x H) as (s1 & H1 & _ & R1); eauto.
  - left. destruct (destruct_run m s a x H Hal) as (s1 & H1 & _ & R1). eauto.
  - destruct (copy_assign_run m s a b x0 x H) as [?|?]; auto.
  - left. destruct (move_assign_run m s a b x0 x H) as (s1 & H1 & _ & R1); eauto.
  - unfold assign_value, temporary. pose proof (temporary_fresh m s H) as Ht.
    set (u := fresh_key (anys s)) in *.
    destruct (construct_value_run m s u t v H Ht) as [(B & s1 & H1 & R1)|(s1 & H1 & R1)]; [right|left];
      rewrite bind_gets; fold u.
    + split; [done|]. exists s1. by rewrite (bind_throw _ _ _ _ _ H1).
    + rewrite (bind_ok _ _ _ _ _ H1). by eapply swap_in.
  - left. destruct (swap_run m s a b x0 x H) as (s1 & H1 & _ & R1); eauto.
  - left. unfold reset.
    destruct (destroy_data_run _ s a x H (full_lookup m a x Hal)) as (s1 & H1 & _ & R1).
    rewrite (bind_ok _ _ _ _ _ H1).
    destruct (set_manage_run _ s1 a _ None None R1 (lookup_insert_eq _ _ _)) as (s2 & H2 & R2 & _).
    exists s2. split; [done|]. unfold repr. rewrite fmap_insert. by rewrite insert_insert_eq in R2.
Qed.

(** [any_cast] gives the value exactly when its type is asked for. *)
Lemma any_cast_spec m s a o t :
  repr m s → m !! a = Some o →
  any_cast a t s = match o with
                   | Some (u, v) => if decide (u = t) then (Ok v, s) else (Throw bad_any_cast, s)
                   | None => (Throw bad_any_cast, s)
                   end ∧
  any_cast_ptr (Some a) t s =
    (Ok (match o with Some (u, v) => if decide (u = t) then Some v else None | None => None end),
    s).
Proof.
  intros H Ha. pose proof (full_lookup m a o Ha) as HX. unfold any_cast, any_cast_ptr, holds_type, type.
  rewrite !bind_assoc, !(bind_ok _ _ _ _ _ (manage_run _ s a _ _ H HX)), !bind_ret_l.
  unfold any_cast_unchecked.
  destruct o as [[u v]|]; cbn; [|by split]. destruct (decide (u = t)) as [->|Hne].
  - rewrite bool_decide_true by done.
    rewrite ?bind_assoc, !(bind_ok _ _ _ _ _ (manage_run _ s a _ _ H HX)). cbn. rewrite Z.eqb_refl.
    pose proof (any_read_run _ s a _ t v H HX) as Hr. unfold bind. by rewrite Hr.
  - by rewrite bool_decide_false by congruence.
Qed.

(** [raw_value] of an empty object calls a null function pointer. *)
Lemma raw_value_empty m s a : repr m s → m !! a = Some None → raw_value a s = (Undef, s).
Proof. intros H Ha. unfold raw_value.
  by rewrite (bind_ok _ _ _ _ _ (manage_run _ s a _ _ H (full_lookup m a None Ha))). Qed.

(** Moving or swapping an object with itself destroys the value it then reads, when it is
    kept in the buffer. *)
Lemma any_self_move_undef m s a t v :
  repr m s → m !! a = Some (Some (t, v)) → local_storage t = true → fst (move_assign a a s) = Undef.
Proof.
  intros H Ha Hl. unfold move_assign.
  destruct (destroy_data_run _ s a _ H (full_lookup m a _ Ha)) as (s1 & H1 & _ & R1).
  rewrite (bind_ok _ _ _ _ _ H1).
  rewrite (bind_ok _ _ _ _ _ (manage_run _ s1 a _ _ R1 (lookup_insert_eq _ _ _))).
  destruct (set_manage_run _ s1 a _ None (Some t) R1 (lookup_insert_eq _ _ _)) as (s2 & H2 & R2 & _).
  cbn [fmap option_fmap option_map fst]. rewrite (bind_ok _ _ _ _ _ H2). cbn [move_data].
  unfold move, read, bind. rewrite Hl.
  destruct (rep_some _ _ R2 a (Some t) None) as (x & _ & _ & Hc); [apply lookup_insert_eq|].
  cbn in Hc. by rewrite Hc.
Qed.

End any.
Arguments state : clear implicits.

(** Types below 10 are kept in the buffer. *)
Definition small (t : Z) : bool := t <? 10.
Abbreviation ex_size := (λ t : Z, if small t then 8 else 100) (only parsing).
Definition two : state Z :=
    State {[ 1 := MkAny (Some 3) 0; 2 := MkAny (Some 12) 77 ]} {[ 1 := (3, 5) ]} {[ 77 := (12, 6) ]}
    4 0.

#[local] Instance moved_number : Moved Z := λ _, 0.

Lemma two_repr : repr 24 16 ex_size (λ _, 8) (λ _, true) {[ 1 := Some (3, 5); 2 := Some (12, 6) ]} two.
Proof.
  split; cbn.
  - intros a mg c. rewrite lookup_fmap, lookup_insert, lookup_singleton.
    repeat case_decide; subst; intros [= <- <-]; eexists; repeat split; reflexivity.
  - intros a. rewrite lookup_fmap, !lookup_insert, !lookup_singleton. repeat case_decide; try done.
  - intros p [y Hy]. apply lookup_singleton_Some in Hy as [<- <-].
    exists 2, (Some 12), 12, 6, (MkAny (Some 12) 77). done.
  - intros a b p (mg & t & v & x & Ha & Hl & Hx & Hp) (mg' & t' & v' & x' & Hb & Hl' & Hx' & Hp').
    rewrite lookup_fmap, lookup_insert, lookup_singleton in Ha, Hb.
    unfold full in *. repeat case_decide; simplify_eq/=; done.
  - done.
Qed.
Lemma any_refines_option_witness :
  fst (run_op 24 16 ex_size (λ _, 8) (λ _, true) (Swap 1 2) two) = Ok tt ∧
  ((∃ s', run_op 24 16 ex_size (λ _, 8) (λ _, true) (Swap 1 2) two = (Ok tt, s') ∧
      repr 24 16 ex_size (λ _, 8) (λ _,
        true) (spec 24 16 ex_size (λ _, 8) (λ _, true) {[ 1 := Some (3, 5);
        2 := Some (12, 6) ]} (Swap 1 2)) s') ∨
   (budget two = O ∧
     ∃ s', run_op 24 16 ex_size (λ _, 8) (λ _, true) (Swap 1 2) two = (Throw bad_alloc, s') ∧
      repr 24 16 ex_size (λ _, 8) (λ _, true) {[ 1 := Some (3, 5); 2 := Some (12, 6) ]} s')).
Proof.
  split; [vm_compute; reflexivity|].
  apply (any_refines_option 24 16 ex_size (λ _, 8) (λ _, true) _ two (Swap 1 2) two_repr).
  split; [lia|]. split; by eexists.
Defined.

End Any.
