(* ===== verification/Function.v ===== *)
(** * function (function.hpp)

    A [function] keeps its target in a [basic_any] and a pointer [invoke_] to the code that
    calls a target of that type.  The model adds the pointers to the state of Any.v: a
    pointer is the type it calls, or null.  What a target does with its arguments is a
    parameter; it may change the target. *)

From S2P Require Import Prelude Lifetime Any.

Local Open Scope Z_scope.
Local Open Scope gpcl_scope.

Module Function.

Section function.
Context {V Arg Res : Type} `{!Moved V}.
Context (LocalSize LocalAlign : Z) (sizeof alignof : Z → Z) (nothrow_move : Z → bool).
(** [gpcl::invoke] of a target of a type. *)
Context (invoke : Z → V → Arg → outcome Res * V).

Abbreviation in_buffer :=
  (Any.local_storage LocalSize LocalAlign sizeof alignof nothrow_move) (only parsing).
Abbreviation any_repr := (Any.repr LocalSize LocalAlign sizeof alignof nothrow_move) (only parsing).
Abbreviation any_left := (Any.leave LocalSize LocalAlign sizeof alignof nothrow_move) (only parsing).

Record state : Type := State { data_ : Any.state V; invoke_ : gmap Z (option Z) }.
Abbreviation F T := (M state T).

(** A member function of [data_]. *)
Definition on_data {T} (m : M (Any.state V) T) : F T := λ s,
  let '(r, d) := m (data_ s) in (r, State d (invoke_ s)).
Definition get_invoke (f : Z) : F (option Z) := λ s,
  match invoke_ s !! f with Some i => (Ok i, s) | None => (Undef, s) end.
Definition set_invoke (f : Z) (i : option Z) : F unit :=
    modify (λ s, State (data_ s) (<[f := i]> (invoke_ s))).
(** [detail::exchange(other.invoke_, nullptr)]. *)
Definition exchange_invoke (other : Z) : F (option Z) :=
  let! i := get_invoke other in set_invoke other None ;;; ret i.

(** ** The member functions *)

(** [function()], [function(nullptr)]. *)
Definition construct_empty (f : Z) : F unit := on_data (Any.construct_default f) ;;; set_invoke f None.
Definition construct (f t : Z) (v : V) : F unit :=
  on_data (Any.construct_value LocalSize LocalAlign sizeof alignof nothrow_move f t v) ;;;
    set_invoke f (Some t).
Definition copy_construct (f other : Z) : F unit :=
  on_data (Any.copy_construct LocalSize LocalAlign sizeof alignof nothrow_move f other) ;;;
  let! i := get_invoke other in set_invoke f i.
Definition move_construct (f other : Z) : F unit :=
  on_data (Any.move_construct LocalSize LocalAlign sizeof alignof nothrow_move f other) ;;;
  let! i := exchange_invoke other in set_invoke f i.
Definition destruct_ (f : Z) : F unit :=
  on_data (Any.destruct_ LocalSize LocalAlign sizeof alignof nothrow_move f) ;;;
  modify (λ s, State (data_ s) (delete f (invoke_ s))).
Definition copy_assign (f other : Z) : F unit :=
  on_data (Any.copy_assign LocalSize LocalAlign sizeof alignof nothrow_move f other) ;;;
  let! i := get_invoke other in set_invoke f i.
Definition move_assign (f other : Z) : F unit :=
  on_data (Any.move_assign LocalSize LocalAlign sizeof alignof nothrow_move f other) ;;;
  let! i := exchange_invoke other in set_invoke f i.
Definition swap (f other : Z) : F unit :=
  on_data (Any.swap LocalSize LocalAlign sizeof alignof nothrow_move f other) ;;;
  let! i := get_invoke f in
  let! j := get_invoke other in
  set_invoke f j ;;; set_invoke other i.

Definition target_type (f : Z) : F (option Z) := on_data (Any.type f).
Definition target (f : Z) : F V :=
    on_data (Any.raw_value LocalSize LocalAlign sizeof alignof nothrow_move f).
Definition operator_bool (f : Z) : F bool := on_data (Any.has_value f).
Definition equals_null (f : Z) : F bool := let! b := operator_bool f in ret (negb b).

(** The target in the data of [f] after a call. *)
Definition store (f t : Z) (v : V) : F unit := on_data (λ d,
  if in_buffer t then (Ok tt,
    Any.State (Any.anys d) (<[f := (t, v)]> (Any.local d)) (Any.heap d) (Any.budget d)
    (Any.leaks d))
  else match Any.anys d !! f with
       | Some x => (Ok tt,
         Any.State (Any.anys d) (Any.local d) (<[Any.remote_addr x := (t, v)]> (Any.heap d))
         (Any.budget d) (Any.leaks d))
       | None => (Undef, d)
       end).
(** The lambda of the constructor. *)
Definition call_target (f t : Z) (args : Arg) : F Res :=
  let! v := on_data (Any.read LocalSize LocalAlign sizeof alignof nothrow_move f t) in
  let '(r, v') := invoke t v args in
  store f t v' ;;; λ s, (r, s).
(** [raw_value] never gives a null pointer, so the [throw] is not reached. *)
Definition call (f : Z) (args : Arg) : F Res :=
  target f ;;;
  let! i := get_invoke f in
  match i with Some t => call_target f t args | None => undef end.

(** ** What a function is *)

Inductive fn : Type :=
| NoTarget
| Target (t : Z) (v : V)
(** The target that was moved from is kept, without the pointer to its code. *)
| Leftover (t : Z) (v : V).

Definition held (x : fn) : option (Z * V) :=
  match x with NoTarget => None | Target t v | Leftover t v => Some (t, v) end.
Definition code (x : fn) : option Z := match x with Target t _ => Some t | _ => None end.
Definition repr (m : gmap Z fn) (s : state) : Prop := any_repr (held <$> m) (data_ s) ∧
    invoke_ s = code <$> m.

Definition left_by (x : fn) : fn :=
  match held x with
  | Some (t, v) => if in_buffer t then Leftover t (moved v) else NoTarget
  | None => NoTarget
  end.

Inductive op : Type :=
| Empty (f : Z)
| Value (f t : Z) (v : V)
| Copy (f g : Z)
| Move (f g : Z)
| Destruct (f : Z)
| CopyAssign (f g : Z)
| MoveAssign (f g : Z)
| Swap (f g : Z).

Definition run_op (o : op) : F unit :=
  match o with
  | Empty f => construct_empty f
  | Value f t v => construct f t v
  | Copy f g => copy_construct f g
  | Move f g => move_construct f g
  | Destruct f => destruct_ f
  | CopyAssign f g => copy_assign f g
  | MoveAssign f g => move_assign f g
  | Swap f g => swap f g
  end.
Definition fn_of (m : gmap Z fn) (f : Z) : fn := default NoTarget (m !! f).
Definition spec (m : gmap Z fn) (o : op) : gmap Z fn :=
  match o with
  | Empty f => <[f := NoTarget]> m
  | Value f t v => <[f := Target t v]> m
  | Copy f g | CopyAssign f g => <[f := fn_of m g]> m
  | Move f g | MoveAssign f g => <[f := fn_of m g]> (<[g := left_by (fn_of m g)]> m)
  | Destruct f => delete f m
  | Swap f g => <[f := fn_of m g]> (<[g := fn_of m f]> m)
  end.
Definition allowed (m : gmap Z fn) (o : op) : Prop :=
  match o with
  | Empty f | Value f _ _ => m !! f = None
  | Copy f g | Move f g => m !! f = None ∧ is_Some (m !! g)
  | Destruct f => is_Some (m !! f)
  | CopyAssign f g => is_Some (m !! f) ∧ is_Some (m !! g)
  | MoveAssign f g | Swap f g => f ≠ g ∧ is_Some (m !! f) ∧ is_Some (m !! g)
  end.

(** ** Lemmas *)

Lemma on_data_run {T} (m : M (Any.state V) T) d i r d' : m d = (r, d') →
    on_data m (State d i) = (r, State d' i).
Proof. intros H. unfold on_data. cbn. by rewrite H. Qed.
Lemma on_data_bind {T U} (m : M (Any.state V) T) (k : T → F U) d i x d' :
  m d = (Ok x, d') → (let! y := on_data m in k y) (State d i) = k x (State d' i).
Proof. intros H. by rewrite (bind_ok _ _ _ _ _ (on_data_run m d i _ _ H)). Qed.
Lemma on_data_throw {T U} (m : M (Any.state V) T) (k : T → F U) d i e d' :
  m d = (Throw e, d') → (let! y := on_data m in k y) (State d i) = (Throw e, State d' i).
Proof. intros H. by rewrite (bind_throw _ _ _ _ _ (on_data_run m d i _ _ H)). Qed.

Lemma held_some (m : gmap Z fn) f x : m !! f = Some x → (held <$> m) !! f = Some (held x).
Proof. intros H. by rewrite lookup_fmap, H. Qed.
Lemma held_none (m : gmap Z fn) f : m !! f = None → (held <$> m) !! f = None.
Proof. intros H. by rewrite lookup_fmap, H. Qed.
Lemma get_invoke_run (m : gmap Z fn) d f x : m !! f = Some x →
    get_invoke f (State d (code <$> m)) = (Ok (code x), State d (code <$> m)).
Proof. intros Hf. unfold get_invoke. cbn. by rewrite lookup_fmap, Hf. Qed.

Lemma held_left x : held (left_by x) = any_left (held x).
Proof. unfold left_by, Any.leave, Any.moved_value. destruct (held x) as [[t v]|]; cbn; [|done].
  by destruct (in_buffer t). Qed.
Lemma code_left x : code (left_by x) = None.
Proof. unfold left_by. destruct (held x) as [[t v]|]; [|done]. by destruct (in_buffer t). Qed.

(** The pointer is copied from [g], or exchanged with null. *)
Lemma copy_code (m : gmap Z fn) d f g x :
  m !! g = Some x → (let! i := get_invoke g in set_invoke f i) (State d (code <$> m)) = (Ok tt,
    State d (code <$> <[f := x]> m)).
Proof. intros Hg. rewrite (bind_ok _ _ _ _ _ (get_invoke_run m d g x Hg)), fmap_insert. done. Qed.
Lemma move_code (m : gmap Z fn) d f g x :
  f ≠ g → m !! g = Some x →
  (let! i := exchange_invoke g in set_invoke f i) (State d (code <$> m)) =
  (Ok tt, State d (code <$> <[f := x]> (<[g := left_by x]> m))).
Proof.
  intros Hfg Hg. unfold exchange_invoke.
  rewrite !bind_assoc, (bind_ok _ _ _ _ _ (get_invoke_run m d g x Hg)).
  by rewrite !fmap_insert, code_left.
Qed.
Lemma swap_code (m : gmap Z fn) d f g x y :
  f ≠ g → m !! f = Some x → m !! g = Some y →
  (let! i := get_invoke f in let! j := get_invoke g in set_invoke f j ;;;
    set_invoke g i) (State d (code <$> m)) =
  (Ok tt, State d (code <$> <[f := y]> (<[g := x]> m))).
Proof.
  intros Hfg Hf Hg.
  rewrite (bind_ok _ _ _ _ _ (get_invoke_run m d f x Hf)),
    (bind_ok _ _ _ _ _ (get_invoke_run m d g y Hg)).
  rewrite !fmap_insert, insert_insert_ne by done. done.
Qed.

(** What a member function does: the values of the specification, or an exception and no change. *)
Definition acts (m : gmap Z fn) (d : Any.state V) (o : op) : Prop :=
  (∃ s', run_op o (State d (code <$> m)) = (Ok tt, s') ∧ repr (spec m o) s') ∨
  (∃ s', run_op o (State d (code <$> m)) = (Throw bad_alloc, s') ∧ repr m s').
Section acts.
Context (m : gmap Z fn) (d : Any.state V) (H : any_repr (held <$> m) d).

Lemma empty_acts f : m !! f = None → acts m d (Empty f).
Proof.
  intros Hf. left. cbn [run_op spec]. unfold construct_empty.
  destruct (Any.begin_run LocalSize LocalAlign sizeof alignof nothrow_move _ d f None H
    (Any.full_none _ f (held_none m f Hf))) as (d1 & H1 & R1 & _).
  rewrite (on_data_bind _ _ _ _ _ _ H1). eexists. split; [done|].
  split; cbn; rewrite !fmap_insert; [|done]. unfold Any.repr. by rewrite fmap_insert.
Qed.
Lemma value_acts f t v : m !! f = None → acts m d (Value f t v).
Proof.
  intros Hf. unfold acts. cbn [run_op spec]. unfold construct.
  destruct (Any.construct_value_run _ _ _ _ _ _ d f t v H (held_none m f Hf))
    as [(_ & d1 & H1 & R1)|(d1 & H1 & R1)].
  - right. rewrite (on_data_throw _ _ _ _ _ _ H1). by eexists.
  - left. rewrite (on_data_bind _ _ _ _ _ _ H1). eexists. split; [done|].
    split; cbn; by rewrite !fmap_insert.
Qed.
Lemma copy_acts f g x : m !! f = None → m !! g = Some x → acts m d (Copy f g).
Proof.
  intros Hf Hg. unfold acts. cbn [run_op spec]. unfold copy_construct, fn_of. rewrite Hg. cbn [default].
  destruct (Any.copy_construct_run _ _ _ _ _ _ d f g _ H (held_none m f Hf) (held_some m g x Hg))
    as [(_ & d1 & H1 & R1)|(d1 & H1 & R1)].
  - right. rewrite (on_data_throw _ _ _ _ _ _ H1). by eexists.
  - left. rewrite (on_data_bind _ _ _ _ _ _ H1). cbn. rewrite (copy_code m d1 f g x Hg). eexists.
    split; [done|]. split; cbn; by rewrite ?fmap_insert.
Qed.
Lemma move_acts f g x : m !! f = None → m !! g = Some x → acts m d (Move f g).
Proof.
  intros Hf Hg. left. cbn [run_op spec]. unfold move_construct, fn_of. rewrite Hg. cbn [default].
  destruct (Any.move_construct_run _ _ _ _ _ _ d f g _ H (held_none m f Hf) (held_some m g x Hg))
    as (d1 & H1 & _ & R1).
  rewrite (on_data_bind _ _ _ _ _ _ H1). cbn. rewrite (move_code m d1 f g x) by congruence.
  eexists. split; [done|]. split; cbn; [|done]. by rewrite !fmap_insert, held_left.
Qed.
Lemma destruct_acts f x : m !! f = Some x → acts m d (Destruct f).
Proof.
  intros Hf. left. cbn [run_op spec]. unfold destruct_.
  destruct (Any.destruct_run _ _ _ _ _ _ d f _ H (held_some m f x Hf)) as (d1 & H1 & _ & R1).
  rewrite (on_data_bind _ _ _ _ _ _ H1). eexists. split; [done|]. split; cbn; by rewrite !fmap_delete.
Qed.
Lemma copy_assign_acts f g x y : m !! f = Some x → m !! g = Some y → acts m d (CopyAssign f g).
Proof.
  intros Hf Hg. unfold acts. cbn [run_op spec]. unfold copy_assign, fn_of. rewrite Hg. cbn [default].
  destruct (Any.copy_assign_run _ _ _ _ _ _ d f g _ _ H (held_some m f _ Hf) (held_some m g y Hg))
    as [(_ & d1 & H1 & R1)|(d1 & H1 & R1)].
  - right. rewrite (on_data_throw _ _ _ _ _ _ H1). by eexists.
  - left. rewrite (on_data_bind _ _ _ _ _ _ H1). cbn. rewrite (copy_code m d1 f g y Hg). eexists.
    split; [done|]. split; cbn; by rewrite ?fmap_insert.
Qed.
Lemma move_assign_acts f g x y : f ≠ g → m !! f = Some x → m !! g = Some y → acts m d (MoveAssign f g).
Proof.
  intros Hfg Hf Hg. left. cbn [run_op spec]. unfold move_assign, fn_of. rewrite Hg. cbn [default].
  destruct (Any.move_assign_run _ _ _ _ _ _ d f g _ _ H Hfg (held_some m f _ Hf) (held_some m g _ Hg))
    as (d1 & H1 & _ & R1).
  rewrite (on_data_bind _ _ _ _ _ _ H1). cbn. erewrite (move_code m d1 f g) by done. eexists.
  split; [done|]. split; cbn; [|done]. by rewrite !fmap_insert, held_left.
Qed.
Lemma swap_acts f g x y : f ≠ g → m !! f = Some x → m !! g = Some y → acts m d (Swap f g).
Proof.
  intros Hfg Hf Hg. left. cbn [run_op spec]. unfold swap, fn_of. rewrite Hf, Hg. cbn [default].
  destruct (Any.swap_run _ _ _ _ _ _ d f g _ _ H Hfg (held_some m f _ Hf) (held_some m g _ Hg))
    as (d1 & H1 & _ & R1).
  rewrite (on_data_bind _ _ _ _ _ _ H1). cbn. erewrite (swap_code m d1 f g) by done. eexists.
  split; [done|]. split; cbn; [|done]. by rewrite !fmap_insert.
Qed.
End acts.

(** C27: A [function] behaves as a value that is empty, holds a target that can be called,
    or holds a target left over by a move: every constructor, the destructor, copy assignment,
    and move assignment and [swap] between different functions leave the values of the
    specification, or throw when the target cannot be made and change no function. *)
Theorem function_refines m s o :
  repr m s → allowed m o →
  (∃ s', run_op o s = (Ok tt, s') ∧ repr (spec m o) s') ∨
  (∃ s', run_op o s = (Throw bad_alloc, s') ∧ repr m s').
Proof.
  intros [H Hi] Hal. destruct s as [d i]. cbn in H, Hi. subst i. change (acts m d o).
  destruct o; cbn [allowed] in Hal;
    repeat match goal with E : _ ∧ _ |- _ => destruct E | E : is_Some _ |- _ => destruct E end;
    eauto using empty_acts, value_acts, copy_acts, move_acts, destruct_acts, copy_assign_acts,
      move_assign_acts, swap_acts.
Qed.

(** ** Calls *)

Lemma target_run m d f x :
  repr m (State d (code <$> m)) → m !! f = Some x →
  target f (State d (code <$> m)) = match held x
    with Some (_, v) => (Ok v, State d (code <$> m)) | None => (Undef, State d (code <$> m)) end.
Proof.
  intros [H _] Hf. pose proof (Any.full_lookup _ f _ (held_some m f x Hf)) as HX. cbn in H.
  unfold target, on_data, Any.raw_value. cbn.
  rewrite (bind_ok _ _ _ _ _ (Any.manage_run _ _ _ _ _ _ d f _ _ H HX)).
  destruct (held x) as [[t v]|]; cbn; [|done].
  cbn in HX. by rewrite (Any.any_read_run _ _ _ _ _ _ d f _ t v H HX).
Qed.
Lemma store_run m d f t v v' :
  repr m (State d (code <$> m)) → m !! f = Some (Target t v) →
  ∃ d', store f t v' (State d (code <$> m)) = (Ok tt, State d' (code <$> m)) ∧
    repr (<[f := Target t v']> m) (State d' (code <$> m)).
Proof.
  intros [H _] Hf. cbn in H. pose proof (Any.full_lookup _ f _ (held_some m f _ Hf)) as HX.
  assert (Hcode : code <$> m = code <$> <[f := Target t v']> m).
  { rewrite fmap_insert. cbn. symmetry. apply insert_id. by rewrite lookup_fmap, Hf. }
  destruct (Any.rep_some _ _ _ _ _ _ _ H _ _ _ HX) as (x & Hx & _ & _).
  assert (Hrep : ∀ d',
    Any.rep LocalSize LocalAlign sizeof alignof nothrow_move
    (<[f := (Some t, Some (t, v'))]> (Any.full <$> (held <$> m))) d' →
    repr (<[f := Target t v']> m) (State d' (code <$> m))).
  { intros d' R. split; [|done]. unfold Any.repr. by rewrite !fmap_insert. }
  unfold store, on_data. cbn. destruct (in_buffer t) eqn:Hl; [|rewrite Hx]; eexists;
    (split; [done|]); apply Hrep.
  - by apply (Any.put_local _ _ _ _ _ _ _ _ _ t v).
  - by apply (Any.put_remote _ _ _ _ _ _ _ _ _ t v).
Qed.

(** A call runs the code of the target on the target as earlier calls left it, and a
    function whose target was not moved away still has it afterwards; a call of an empty
    function, and of one left over by a move, goes through a null pointer. *)
Theorem function_call_spec m s f x args :
  repr m s → m !! f = Some x →
  match x with
  | Target t v => ∃ s', call f args s = (fst (invoke t v args), s') ∧
    repr (<[f := Target t (snd (invoke t v args))]> m) s'
  | NoTarget | Leftover _ _ => call f args s = (Undef, s)
  end ∧
  operator_bool f s = (Ok (if x is NoTarget then false else true), s).
Proof.
  intros [H Hi] Hf. destruct s as [d i]. cbn in H, Hi. subst i.
  assert (R : repr m (State d (code <$> m))) by done.
  pose proof (Any.full_lookup _ f _ (held_some m f _ Hf)) as HX. split.
  - pose proof (target_run m d f x R Hf) as Ht. pose proof (get_invoke_run m d f x Hf) as Hi.
    unfold call.
    destruct x as [|t v|t v]; cbn [held code] in Ht, Hi; [unfold bind; by rewrite Ht| |].
    + rewrite (bind_ok _ _ _ _ _ Ht), (bind_ok _ _ _ _ _ Hi). unfold call_target.
      rewrite (on_data_bind _ _ _ _ _ _ (Any.any_read_run _ _ _ _ _ _ d f _ t v H HX)).
      destruct (invoke t v args) as [r v']. destruct (store_run m d f t v v' R Hf) as (d' & H' & R').
      rewrite (bind_ok _ _ _ _ _ H'). by eexists.
    + by rewrite (bind_ok _ _ _ _ _ Ht), (bind_ok _ _ _ _ _ Hi).
  - unfold operator_bool, Any.has_value. apply on_data_run.
    rewrite (bind_ok _ _ _ _ _ (Any.manage_run _ _ _ _ _ _ d f _ _ H HX)). by destruct x.
Qed.

End function.
Arguments state : clear implicits.

(** Two functions of [Any.two]: the first in the buffer, the second on the heap; a call adds
    its argument to the target. *)
#[local] Instance moved_counter : Moved Z := λ _, 0.
Definition adder (t v arg : Z) : outcome Z * Z := (Ok (v + arg), v + arg).
Definition two_fns : gmap Z fn := {[ 1 := Target 3 5; 2 := Target 12 6 ]}.
Definition two : state Z := State Any.two {[ 1 := Some 3; 2 := Some 12 ]}.

Lemma two_fns_repr : repr 24 16 Any.ex_size (λ _, 8) (λ _, true) two_fns two.
Proof. split; [exact Any.two_repr|done]. Qed.
Lemma function_refines_witness :
  fst (run_op 24 16 Any.ex_size (λ _, 8) (λ _, true) (MoveAssign 2 1) two) = Ok tt ∧
  ((∃ s', run_op 24 16 Any.ex_size (λ _, 8) (λ _, true) (MoveAssign 2 1) two = (Ok tt, s') ∧
      repr 24 16 Any.ex_size (λ _, 8) (λ _,
        true) (spec 24 16 Any.ex_size (λ _, 8) (λ _, true) two_fns (MoveAssign 2 1)) s') ∨
   (∃ s', run_op 24 16 Any.ex_size (λ _, 8) (λ _, true) (MoveAssign 2 1) two = (Throw bad_alloc, s') ∧
      repr 24 16 Any.ex_size (λ _, 8) (λ _, true) two_fns s')).
Proof.
  split; [vm_compute; reflexivity|].
  apply (function_refines 24 16 Any.ex_size (λ _, 8) (λ _, true) two_fns two (MoveAssign 2 1)
    two_fns_repr).
  split; [lia|]. split; by eexists.
Defined.
Lemma function_call_spec_witness :
  fst (call 24 16 Any.ex_size (λ _, 8) (λ _, true) adder 2 10 two) = Ok 16 ∧
  (∃ s', call 24 16 Any.ex_size (λ _, 8) (λ _, true) adder 2 10 two = (fst (adder 12 6 10), s') ∧
    repr 24 16 Any.ex_size (λ _, 8) (λ _, true) (<[2 := Target 12 (snd (adder 12 6 10))]> two_fns) s') ∧
  operator_bool 2 two = (Ok true, two).
Proof.
  split; [vm_compute; reflexivity|].
  apply (function_call_spec 24 16 Any.ex_size (λ _, 8) (λ _, true) adder two_fns two 2 (Target 12 6)
    10 two_fns_repr). done.
Defined.

End Function.
