(* ===== verification/WaitQueue.v ===== *)
(** * Wait queues

    What the operating system promises about the threads that wait for a futex word or a
    condition variable: a thread that goes to sleep joins the queue, a wake-up takes one
    sleeper off it if there is any - it is not said which - and a sleeper may leave it on
    its own.  The synchronisation primitives are verified against this interface. *)

From S2P Require Import Prelude.

Class WaitQueue (Q : Type) : Type := {
  empty_queue : Q;
  enqueue : nat → Q → Q;
  dequeue : Q → option (nat * Q);
  cancel : nat → Q → Q;
  sleepers : Q → list nat;
}.
Class WaitQueueOk (Q : Type) `{!WaitQueue Q} : Prop := {
  sleepers_empty : sleepers empty_queue = [];
  sleepers_enqueue i q : sleepers (enqueue i q) ≡ₚ i :: sleepers q;
  sleepers_none q : dequeue q = None → sleepers q = [];
  sleepers_dequeue i q q' : dequeue q = Some (i, q') → sleepers q ≡ₚ i :: sleepers q';
  sleepers_cancel i q : i ∈ sleepers q → sleepers q ≡ₚ i :: sleepers (cancel i q);
}.

(** ** A system that wakes the threads in the order in which they fell asleep *)

Fixpoint remove_first (i : nat) (q : list nat) : list nat :=
  match q with
  | [] => []
  | j :: q => if (i =? j)%nat then q else j :: remove_first i q
  end.

#[export] Instance fifo : WaitQueue (list nat) := {
  empty_queue := [];
  enqueue i q := q ++ [i];
  dequeue q := match q with [] => None | i :: q => Some (i, q) end;
  cancel := remove_first;
  sleepers q := q;
}.

#[export] Instance fifo_ok : WaitQueueOk (list nat).
Proof.
  split; cbn; try done.
  - intros i q. by rewrite Permutation_app_comm.
  - by intros [].
  - intros i [] q'; [done|]. by intros [= -> ->].
  - intros i q; induction q as [|j q IH]; cbn; [by intros ?%elem_of_nil|].
    intros Hi; destruct (Nat.eqb_spec i j) as [->|Hne]; [done|].
    apply elem_of_cons in Hi as [Hi|Hi]; [done|]. rewrite IH at 1 by done. constructor.
Qed.
