(* ===== verification/FutexMutex.v ===== *)
(** * Futex mutex (detail/futex_mutex.hpp, detail/impl/futex_mutex.ipp)

    Threads share the word of one mutex.  Every atomic access and every system call of the
    member functions is a step, and the steps of the threads interleave in any order.  The
    kernel's wait queue is a parameter: [WaitQueue] states what futex(2) promises about
    [FUTEX_WAIT] and [FUTEX_WAKE] - the word is compared and the caller put to sleep in one
    step, a wake-up takes a sleeper off the queue if there is one, it is not said which,
    and a sleeper may also wake up for no reason or because of a signal.  A thread calls
    [unlock] only while it owns the mutex. *)

From S2P Require Import Prelude WaitQueue.

Local Open Scope Z_scope.

Module Mutex.

(** [futex_locked], [futex_unlocked]. *)
Definition futex_locked : Z := 0.
Definition futex_unlocked : Z := 1.
Definition spin_count : nat := 10.

(** Where a thread is: outside, in front of the named access, asleep in [FUTEX_WAIT], or
    the owner of the mutex. *)
Inductive pc : Type :=
| Idle
| SpinCas (i : nat)   (* lock: round [i] of the spinning loop *)
| LoopCas             (* lock: the compare-exchange of the endless loop *)
| Wait                (* lock: the call of FUTEX_WAIT *)
| Asleep
| TryCas              (* try_lock *)
| Owner
| UnlockCas           (* unlock: the compare-exchange *)
| UnlockWake.         (* unlock: the call of FUTEX_WAKE *)

#[export] Instance pc_eq_dec : EqDecision pc.
Proof. solve_decision. Defined.

(** What a thread does at its next step, where it has a choice: the function it calls, or
    what ends its sleep without a wake-up. *)
Inductive event : Type := CallLock | CallTryLock | CallUnlock | Go | Spurious | Signal.

Section mutex.
Context {Q : Type} `{!WaitQueue Q}.

Record system : Type := System { fut_ : Z; queue : Q; threads : list pc }.

(** [__atomic_compare_exchange_n(&fut_, &expected, desired)]. *)
Definition compare_exchange (expected desired : Z) (y : system) : bool * system :=
  if fut_ y =? expected then (true, System desired (queue y) (threads y)) else (false, y).
Definition set_pc (i : nat) (p : pc) (y : system) : system :=
  System (fut_ y) (queue y) (<[i := p]> (threads y)).

(** [FUTEX_WAIT] with value 0: [EAGAIN] when the word is not 0. *)
Definition futex_wait (i : nat) (y : system) : system :=
  if fut_ y =? 0 then set_pc i Asleep (System (fut_ y) (enqueue i (queue y)) (threads y))
  else set_pc i LoopCas y.
(** [FUTEX_WAKE] of one thread: its [FUTEX_WAIT] returns. *)
Definition futex_wake (y : system) : system :=
  match dequeue (queue y) with
  | Some (j, q) => set_pc j LoopCas (System (fut_ y) q (threads y))
  | None => y
  end.

(** One step of thread [i] that is at [p]. *)
Definition step (i : nat) (p : pc) (e : event) : M system unit := λ y,
  match p, e with
  | Idle, CallLock => (Ok tt, set_pc i (SpinCas 0) y)
  | Idle, CallTryLock => (Ok tt, set_pc i TryCas y)
  | SpinCas k, Go =>
      let '(won, y) := compare_exchange futex_unlocked futex_locked y in
      (Ok tt, set_pc i (if won then Owner else if (S k <? spin_count)%nat then SpinCas (S k) else LoopCas) y)
  | LoopCas, Go =>
      let '(won, y) := compare_exchange futex_unlocked futex_locked y in
      (Ok tt, set_pc i (if won then Owner else Wait) y)
  | Wait, Go => (Ok tt, futex_wait i y)
  | Asleep, Spurious =>               (* futex returns 0 *)
      (Ok tt, set_pc i LoopCas (System (fut_ y) (cancel i (queue y)) (threads y)))
  | Asleep, Signal => (Abort, y)  (* EINTR: GPCL_UNREACHABLE("futex-FUTEX_WAIT") *)
  | TryCas, Go =>
      let '(won, y) := compare_exchange futex_unlocked futex_locked y in
      (Ok tt, set_pc i (if won then Owner else Idle) y)
  | Owner, CallUnlock => (Ok tt, set_pc i UnlockCas y)
  | UnlockCas, Go =>
      let '(won, y) := compare_exchange futex_locked futex_unlocked y in
      if won then (Ok tt, set_pc i UnlockWake y)
      else (Abort, y)                 (* GPCL_UNREACHABLE("futex not locked") *)
  | UnlockWake, Go => (Ok tt, set_pc i Idle (futex_wake y))
  | _, _ => (Ok tt, y)
  end.

(** ** Interleavings *)

Definition initial (n : nat) : system := System futex_unlocked empty_queue (replicate n Idle).

Inductive reachable : system → Prop :=
| reach_start n : reachable (initial n)
| reach_step y i p e y' :
    reachable y → threads y !! i = Some p → step i p e y = (Ok tt, y') → reachable y'.

(** The threads of a schedule step one after the other. *)
Fixpoint run (sched : list (nat * event)) (y : system) : option system :=
  match sched with
  | [] => Some y
  | (i, e) :: sched =>
      match threads y !! i with
      | Some p => match step i p e y with (Ok _, y') => run sched y' | _ => None end
      | None => None
      end
  end.

Lemma schedule_reachable sched y y' : reachable y → run sched y = Some y' → reachable y'.
Proof.
  revert y; induction sched as [|[i e] sched IH]; intros y Hy; cbn; [by intros [= <-]|].
  destruct (threads y !! i) as [p|] eqn:Hi; [|done].
  destruct (step i p e y) as [[[]| | | |] y1] eqn:Hs; try done. eauto using reach_step.
Qed.

(** ** Invariant *)

Definition owns (p : pc) : bool := match p with Owner | UnlockCas => true | _ => false end.
(** The thread will try to lock, or to wake another one. *)
Definition active (p : pc) : bool := match p with LoopCas | Wait | UnlockWake => true | _ => false end.

Record inv (y : system) : Prop := {
  inv_word : fut_ y = futex_locked ∨ fut_ y = futex_unlocked;
  inv_owner i p : threads y !! i = Some p → owns p = true → fut_ y = futex_locked;
  inv_unique i j p q : threads y !! i = Some p → threads y !! j = Some q →
    owns p = true → owns q = true → i = j;
  inv_held : fut_ y = futex_locked → ∃ i p, threads y !! i = Some p ∧ owns p = true;
  inv_sleepers i : i ∈ sleepers (queue y) ↔ threads y !! i = Some Asleep;
  inv_nodup : NoDup (sleepers (queue y));
  inv_awake : fut_ y = futex_unlocked → sleepers (queue y) ≠ [] →
    ∃ i p, threads y !! i = Some p ∧ active p = true;
}.


Definition elsewhere (i : nat) (p' : pc) (y : system) (q : Q) : Prop :=
  (∀ j, j ∈ sleepers q ↔ if decide (j = i) then p' = Asleep else j ∈ sleepers (queue y)) ∧
  NoDup (sleepers q).

(** How the owner may change when one thread moves from [p] to [p']. *)
Definition handover (p p' : pc) (f f' : Z) : Prop :=
  (owns p' = owns p ∧ f' = f) ∨
  (owns p = false ∧ owns p' = true ∧ f = futex_unlocked ∧ f' = futex_locked) ∨
  (owns p = true ∧ owns p' = false ∧ f' = futex_unlocked).

Lemma inv_update y i p p' f' q :
  inv y → threads y !! i = Some p → handover p p' (fut_ y) f' → elsewhere i p' y q →
  (f' = futex_unlocked → sleepers q ≠ [] →
    ∃ j r, <[i := p']> (threads y) !! j = Some r ∧ active r = true) →
  inv (System f' q (<[i := p']> (threads y))).
Proof.
  intros [Hw Ho Hu Hh Hs Hn Ha] Hi Hf [Hq Hd] Hact.
  assert (Hlk : ∀ j r, <[i := p']> (threads y) !! j = Some r →
    (j = i ∧ r = p') ∨ (j ≠ i ∧ threads y !! j = Some r)).
  { intros j r [[-> [-> _]]|[? ?]]%list_lookup_insert_Some; auto. }
  assert (Hii : <[i := p']> (threads y) !! i = Some p')
    by (apply list_lookup_insert_eq; eauto using lookup_lt_Some).
  split; cbn; try done.
  - unfold handover in Hf; naive_solver.
  - intros j r [[-> ->]|[Hne Hj]]%Hlk Hr; [destruct Hf as [[Heq ->]|[[_ [_ [_ ->]]]|[_ [Hf _]]]]|].
    + eapply Ho; [done|congruence].
    + done.
    + congruence.
    + destruct Hf as [[Heq ->]|[[_ [_ [_ ->]]]|[Hf _]]]; [eauto|done|destruct Hne; eauto].
  - intros j k r r' [[-> ->]|[Hne Hj]]%Hlk [[-> ->]|[Hne' Hk]]%Hlk Hr Hr'; [done| | |eauto].
    + destruct Hf as [[Heq ->]|[[_ [_ [Hf _]]]|[_ [Hf _]]]]; [|exfalso|congruence].
      * symmetry; eapply Hu; try done; congruence.
      * specialize (Ho k r' Hk Hr'); rewrite Ho in Hf; done.
    + destruct Hf as [[Heq ->]|[[_ [_ [Hf _]]]|[_ [Hf _]]]]; [|exfalso|congruence].
      * eapply Hu; try done; congruence.
      * specialize (Ho j r Hj Hr); rewrite Ho in Hf; done.
  - intros Hl. destruct Hf as [[Heq ->]|[[_ [Hf _]]|[_ [_ ->]]]]; [|eauto|done].
    destruct (Hh Hl) as (k & r & Hk & Hr). destruct (decide (k = i)) as [->|Hne].
    + exists i, p'; split; [done|congruence].
    + exists k, r; by rewrite list_lookup_insert_ne.
  - intros j; rewrite Hq. case_decide as Hji.
    + subst j; rewrite Hii; split; congruence.
    + rewrite list_lookup_insert_ne by done. apply Hs.
Qed.

(** A step that does not touch the queue. *)
Lemma elsewhere_same i p p' y :
  inv y → threads y !! i = Some p → p ≠ Asleep → p' ≠ Asleep → elsewhere i p' y (queue y).
Proof.
  intros Hy Hi Hp Hp'; split; [|apply Hy]. intros j; case_decide as Hj; [subst|done].
  rewrite (inv_sleepers _ Hy), Hi; split; congruence.
Qed.

(** The active thread other than [i] stays where it is. *)
Lemma active_elsewhere y i p p' :
  inv y → threads y !! i = Some p → active p = false →
  fut_ y = futex_unlocked → sleepers (queue y) ≠ [] →
  ∃ j r, <[i := p']> (threads y) !! j = Some r ∧ active r = true.
Proof.
  intros Hy Hi Hp Hf Hq. destruct (inv_awake _ Hy Hf Hq) as (j & r & Hj & Hr).
  exists j, r; split; [|done]. rewrite list_lookup_insert_ne; [done|congruence].
Qed.

Lemma active_here y i p p' :
  threads y !! i = Some p → active p' = true →
  ∃ j r, <[i := p']> (threads y) !! j = Some r ∧ active r = true.
Proof. exists i, p'; split; [apply list_lookup_insert_eq; eauto using lookup_lt_Some|done]. Qed.

(** A thread that is not asleep moves and the word stays. *)
Lemma inv_move y i p p' :
  inv y → threads y !! i = Some p → p ≠ Asleep → p' ≠ Asleep → owns p' = owns p →
  active p = false ∨ active p' = true ∨ fut_ y = futex_locked → inv (set_pc i p' y).
Proof.
  intros Hy Hi Hp Hp' Ho Ha.
  eapply inv_update; [done..|left; done|eauto using elsewhere_same|].
  destruct Ha as [Ha|[Ha|Ha]]; intros Hf Hq;
    [eauto using active_elsewhere|eauto using active_here|by rewrite Ha in Hf].
Qed.

(** [compare_exchange(futex_unlocked, futex_locked)] of [lock] and [try_lock]. *)
Lemma inv_acquire y i p p' :
  inv y → threads y !! i = Some p → p ≠ Asleep → p' ≠ Asleep → owns p = false → owns p' = false →
  let '(won, y') := compare_exchange futex_unlocked futex_locked y in
  inv (set_pc i (if won then Owner else p') y').
Proof.
  intros Hy Hi Hp Hp' Ho Ho'. unfold compare_exchange.
  destruct (Z.eqb_spec (fut_ y) futex_unlocked) as [Hf|Hf].
  - apply (inv_update y i p); [done..|by right; left|by apply (elsewhere_same i p Owner y)|done].
  - apply (inv_move _ _ p); try done; [congruence|]. destruct (inv_word _ Hy); auto; done.
Qed.

(** [FUTEX_WAIT]. *)
Lemma inv_futex_wait `{!WaitQueueOk Q} y i :
  inv y → threads y !! i = Some Wait → inv (futex_wait i y).
Proof.
  intros Hy Hi. unfold futex_wait. destruct (Z.eqb_spec (fut_ y) 0) as [Hf|Hf].
  - apply (inv_update y i Wait); [done..|by left| |by rewrite Hf].
    assert (Hni : i ∉ sleepers (queue y)) by (rewrite (inv_sleepers _ Hy), Hi; done).
    split; cbn; [|rewrite sleepers_enqueue]; [|by constructor; [|apply Hy]].
    intros j; rewrite sleepers_enqueue, elem_of_cons. case_decide; naive_solver.
  - eapply inv_move; eauto; done.
Qed.

(** A sleeper leaves the queue. *)
Lemma inv_leave y i q :
  inv y → sleepers (queue y) ≡ₚ i :: sleepers q →
  threads y !! i = Some Asleep ∧ inv (set_pc i LoopCas (System (fut_ y) q (threads y))).
Proof.
  intros Hy Hq.
  assert (Hi : threads y !! i = Some Asleep)
    by (apply (inv_sleepers _ Hy); rewrite Hq; apply elem_of_cons; auto).
  assert (Hn := inv_nodup _ Hy). rewrite Hq in Hn. apply NoDup_cons in Hn as [Hn Hn'].
  split; [done|]. apply (inv_update y i Asleep); [done..|by left| |eauto using active_here].
  split; [|done]. intros j; cbn.
  assert (Hj : j ∈ sleepers (queue y) ↔ j ∈ i :: sleepers q) by (by rewrite Hq).
  rewrite elem_of_cons in Hj. case_decide; naive_solver.
Qed.

(** [FUTEX_WAKE] and the return of [unlock]. *)
Lemma inv_futex_wake `{!WaitQueueOk Q} y i :
  inv y → threads y !! i = Some UnlockWake → inv (set_pc i Idle (futex_wake y)).
Proof.
  intros Hy Hi. unfold futex_wake.
  destruct (dequeue (queue y)) as [[j q]|] eqn:Hd; cbn.
  - apply sleepers_dequeue in Hd. destruct (inv_leave y j q Hy Hd) as [Hj Hy'].
    assert (Hji : j ≠ i) by congruence.
    assert (Hi' : threads (set_pc j LoopCas (System (fut_ y) q (threads y))) !! i = Some UnlockWake)
      by (cbn; by rewrite list_lookup_insert_ne).
    eapply (inv_update _ i UnlockWake); [done..|by left|by eapply elsewhere_same|].
    intros _ _. exists j, LoopCas; split; [|done]. cbn.
    rewrite list_lookup_insert_ne, list_lookup_insert_eq by eauto using lookup_lt_Some; done.
  - apply (inv_update y i UnlockWake); [done..|by left|by eapply elsewhere_same|].
    intros _ []. by apply sleepers_none.
Qed.

(** Every step a thread can take keeps the invariant; only a signal makes it abort. *)
Lemma inv_step `{!WaitQueueOk Q} y i p e :
  inv y → threads y !! i = Some p → (p = Asleep ∧ e = Signal) ∨
    ∃ y', step i p e y = (Ok tt, y') ∧ inv y'.
Proof.
  intros Hy Hi.
  assert (Hmove : ∀ p', p ≠ Asleep → p' ≠ Asleep → owns p' = owns p → active p = false →
    inv (set_pc i p' y)) by (intros; eapply inv_move; eauto).
  assert (Hacq : ∀ p', p ≠ Asleep → p' ≠ Asleep → owns p = false → owns p' = false → _)
    by (intros p' ? ? ? ?; exact (inv_acquire y i p p' Hy Hi ltac:(done) ltac:(done) ltac:(done) ltac:(done))).
  destruct p; destruct e; try (right; eexists; split; [reflexivity|by auto]); cbn [step].
  - specialize (Hacq (if (S i0 <? spin_count)%nat then SpinCas (S i0) else LoopCas)).
    destruct (compare_exchange _ _ _) as [[] y']; right; eexists; split; try done; apply Hacq;
      by destruct (_ <? _)%nat.
  - specialize (Hacq Wait).
    destruct (compare_exchange _ _ _) as [[] y']; right; eexists; split; try done; by apply Hacq.
  - right; eauto using inv_futex_wait.
  - right; eexists; split; [done|]. apply inv_leave; [done|]. apply sleepers_cancel.
    by apply (inv_sleepers _ Hy).
  - by left.
  - specialize (Hacq Idle).
    destruct (compare_exchange _ _ _) as [[] y']; right; eexists; split; try done; by apply Hacq.
  - right. unfold compare_exchange. rewrite (inv_owner _ Hy i _ Hi), Z.eqb_refl by done.
    eexists; split; [done|].
    apply (inv_update y i UnlockCas); [done..|by right; right|by apply (elsewhere_same i UnlockCas UnlockWake y)|].
    intros _ _; by eapply active_here.
  - right; eauto using inv_futex_wake.
Qed.

Lemma inv_initial `{!WaitQueueOk Q} n : inv (initial n).
Proof.
  assert (Hl : ∀ i p, replicate n Idle !! i = Some p → p = Idle)
    by (intros i p [-> _]%lookup_replicate; done).
  split; cbn; rewrite ?sleepers_empty; try done; [by right|naive_solver..| |constructor].
  intros i; split; [by intros ?%elem_of_nil|]. intros H; by apply Hl in H.
Qed.

Lemma inv_reachable `{!WaitQueueOk Q} y : reachable y → inv y.
Proof.
  induction 1 as [n|y i p e y' _ IH Hi Hs]; [apply inv_initial|].
  destruct (inv_step y i p e IH Hi) as [[-> ->]|(y'' & Hs' & ?)]; [done|congruence].
Qed.

(** C15: mutual exclusion.  In every reachable state of any number of threads that
    lock, try to lock and unlock the mutex at most one of them owns it, and no step of any
    thread reaches [GPCL_UNREACHABLE] unless a signal interrupts a thread that sleeps in
    [lock]. *)
Theorem mutex_mutual_exclusion `{!WaitQueueOk Q} (y : system) :
  reachable y →
  (∀ i j p q, threads y !! i = Some p → threads y !! j = Some q →
    owns p = true → owns q = true → i = j) ∧
  (∀ i p e, threads y !! i = Some p → e ≠ Signal → ∃ y', step i p e y = (Ok tt, y')).
Proof.
  intros Hr. apply inv_reachable in Hr as Hy. split; [apply Hy|].
  intros i p e Hi He. destruct (inv_step y i p e Hy Hi) as [[_ ?]|(y' & ? & _)]; eauto; done.
Qed.

(** C16: no wake-up is lost.  Where some thread sleeps in [lock], some other thread owns
    the mutex or is on its way to lock it or to wake a sleeper; so when no call is in
    progress but sleeping ones and nobody owns the mutex, nobody sleeps. *)
Theorem mutex_no_lost_wakeup `{!WaitQueueOk Q} (y : system) i :
  reachable y → threads y !! i = Some Asleep →
  ∃ j p, threads y !! j = Some p ∧ (owns p = true ∨ active p = true).
Proof.
  intros Hr Hi. apply inv_reachable in Hr as Hy. destruct (inv_word _ Hy) as [Hf|Hf].
  - destruct (inv_held _ Hy Hf) as (j & p & ? & ?); eauto.
  - apply (inv_sleepers _ Hy) in Hi.
    destruct (inv_awake _ Hy Hf) as (j & p & ? & ?); [intros H; rewrite H in Hi; by apply elem_of_nil in Hi|eauto].
Qed.

(** A signal that is handled while a thread sleeps in [lock] ends the program: FUTEX_WAIT
    fails with [EINTR], which is not [EAGAIN]. *)
Lemma mutex_signal_aborts y i : fst (step i Asleep Signal y) = Abort.
Proof. done. Qed.

End mutex.
Arguments system : clear implicits.

(** ** A concrete run *)

(** Thread 0 owns the mutex, thread 1 has given up spinning and sleeps. *)
Definition contended : list (nat * event) :=
  [(0%nat, CallLock); (0%nat, Go); (1%nat, CallLock)] ++ replicate 12 (1%nat, Go).

Example contended_runs :
  run contended (initial 2) = Some (System futex_locked [1%nat] [Owner; Asleep]).
Proof. reflexivity. Qed.

Lemma mutex_mutual_exclusion_witness :
  ∃ y', step 0 Owner CallUnlock (System futex_locked [1%nat] [Owner; Asleep]) = (Ok tt, y').
Proof.
  refine (proj2 (mutex_mutual_exclusion _ _) 0%nat Owner CallUnlock _ _); [|reflexivity|discriminate].
  exact (schedule_reachable contended _ _ (reach_start 2) contended_runs).
Defined.

Lemma mutex_no_lost_wakeup_witness :
  ∃ j p, [Owner; Asleep] !! j = Some p ∧ (owns p = true ∨ active p = true).
Proof.
  refine (mutex_no_lost_wakeup (System futex_locked [1%nat] [Owner; Asleep]) 1%nat _ _); [|reflexivity].
  exact (schedule_reachable contended _ _ (reach_start 2) contended_runs).
Defined.

(** The owner unlocks and the sleeper gets the mutex. *)
Example contended_handover :
  run (contended ++ [(0, CallUnlock); (0, Go); (0, Go); (1, Go)])%nat (initial 2) =
    Some (System futex_locked [] [Idle; Owner]).
Proof. reflexivity. Qed.

End Mutex.
