(* ===== verification/FutexCond.v ===== *)
(** * Futex condition variable (detail/futex_condition_variable.hpp and .ipp)

    Threads lock a mutex, wait for a condition variable and notify it.  Every atomic access
    and every system call is a step and the steps interleave; the wait queue of the kernel is
    the interface of WaitQueue.v, and of the mutex the model keeps the owner.  [told] records,
    for each thread, whether a notification has been stored since the thread last released
    the mutex in [wait]; no step depends on it. *)

From S2P Require Import Prelude WaitQueue.

Local Open Scope Z_scope.

Module Condition.

(** Where a thread is: outside, without or with the mutex, or in front of the named step. *)
Inductive pc : Type :=
| Idle
| Holder
| WaitCas             (* wait: the compare-exchange of 1 with 0 *)
| WaitUnlock          (* wait: the constructor of locker *)
| WaitFutex           (* wait: FUTEX_WAIT *)
| WaitAsleep
| WaitStore           (* wait: the store of 0 *)
| WaitLock            (* wait: the destructor of locker *)
| NotifyStore (all held : bool)
| NotifyWake (all held : bool).
#[export] Instance pc_eq_dec : EqDecision pc.
Proof. solve_decision. Defined.

Inductive event : Type := Lock | Unlock | Wait | NotifyOne | NotifyAll | Go | CasFails | Interrupt.

Record thread : Type := Thread { at_ : pc; told : bool }.

Section cond.
Context {Q : Type} `{!WaitQueue Q}.

Record system : Type := System { fut_ : Z; mtx : option nat; queue : Q; threads : list thread }.

Definition goto (i : nat) (p : pc) (y : system) : system :=
  System (fut_ y) (mtx y) (queue y) (alter (λ x, Thread p (told x)) i (threads y)).
Definition store (v : Z) (y : system) : system := System v (mtx y) (queue y) (threads y).
Definition set_mtx (m : option nat) (y : system) : system := System (fut_ y) m (queue y) (threads y).
Definition set_queue (q : Q) (y : system) : system := System (fut_ y) (mtx y) q (threads y).
Definition tell (v : bool) (i : nat) (y : system) : system :=
  System (fut_ y) (mtx y) (queue y) (alter (λ x, Thread (at_ x) v) i (threads y)).
Definition tell_all (y : system) : system :=
  System (fut_ y) (mtx y) (queue y) ((λ x, Thread (at_ x) true) <$> threads y).

Definition home (held : bool) : pc := if held then Holder else Idle.
(** [FUTEX_WAKE] of one thread, and of all of them. *)
Definition wake_one (y : system) : system :=
  match dequeue (queue y) with
  | Some (j, q) => goto j WaitStore (set_queue q y)
  | None => y
  end.
Fixpoint wake_all (n : nat) (y : system) : system :=
  match n with
  | O => y
  | S n => wake_all n (wake_one y)
  end.

(** One step of thread [i] that is at [p]; [None]: it cannot take it. *)
Definition step (i : nat) (p : pc) (e : event) (y : system) : option system :=
  match p, e with
  | Idle, Lock => if mtx y is Some _ then None else Some (goto i Holder (set_mtx (Some i) y))
  | Holder, Unlock => Some (goto i Idle (set_mtx None y))
  | Holder, Wait => Some (goto i WaitCas y)
  | Idle, NotifyOne => Some (goto i (NotifyStore false false) y)
  | Idle, NotifyAll => Some (goto i (NotifyStore true false) y)
  | Holder, NotifyOne => Some (goto i (NotifyStore false true) y)
  | Holder, NotifyAll => Some (goto i (NotifyStore true true) y)
  | WaitCas, Go => if fut_ y =? 1 then Some (goto i Holder (store 0 y)) else Some (goto i WaitUnlock y)
  | WaitCas, CasFails => Some (goto i WaitUnlock y)
  | WaitUnlock, Go => Some (goto i WaitFutex (tell false i (set_mtx None y)))
  | WaitFutex, Go =>
      if fut_ y =? 0 then Some (goto i WaitAsleep (set_queue (enqueue i (queue y)) y))
      else Some (goto i WaitStore y)
  | WaitAsleep, Interrupt => Some (goto i WaitStore (set_queue (cancel i (queue y)) y))
  | WaitStore, Go => Some (goto i WaitLock (store 0 y))
  | WaitLock, Go => if mtx y is Some _ then None else Some (goto i Holder (set_mtx (Some i) y))
  | NotifyStore all held, Go => Some (goto i (NotifyWake all held) (tell_all (store 1 y)))
  | NotifyWake all held, Go =>
      Some (goto i (home held) (if all then wake_all (length (threads y)) y else wake_one y))
  | _, _ => None
  end.

Definition initial (n : nat) : system := System 0 None empty_queue (replicate n (Thread Idle false)).

(** Runs in which the threads that call [wait] are in [waiters]. *)
Inductive reachable (waiters : list nat) : system → Prop :=
| reach_start n : reachable waiters (initial n)
| reach_step y i x e y' :
    reachable waiters y → threads y !! i = Some x → (e = Wait → i ∈ waiters) →
    step i (at_ x) e y = Some y' → reachable waiters y'.
Fixpoint run (sched : list (nat * event)) (y : system) : option system :=
  match sched with
  | [] => Some y
  | (i, e) :: sched => x ← threads y !! i; y' ← step i (at_ x) e y; run sched y'
  end.

(** ** Invariant for one waiting thread *)

Definition waiting (p : pc) : bool :=
  match p with WaitCas | WaitUnlock | WaitFutex | WaitAsleep | WaitStore | WaitLock => true | _ =>
    false end.
Definition waking (y : system) : Prop := ∃ j x a h, threads y !! j = Some x ∧ at_ x = NotifyWake a h.

Record inv (w : nat) (y : system) : Prop := {
  inv_word : fut_ y = 0 ∨ fut_ y = 1;
  inv_only i x : threads y !! i = Some x → waiting (at_ x) = true → i = w;
  inv_queue i : i ∈ sleepers (queue y) ↔ ∃ x, threads y !! i = Some x ∧ at_ x = WaitAsleep;
  inv_nodup : NoDup (sleepers (queue y));
  inv_futex x : threads y !! w = Some x → at_ x = WaitFutex → told x = true → fut_ y = 1;
  inv_asleep x : threads y !! w = Some x → at_ x = WaitAsleep → told x = true → waking y;
}.

Lemma lookup_goto i p y j x' :
  threads (goto i p y) !! j = Some x' ↔
  (i = j ∧ ∃ x, threads y !! i = Some x ∧ x' = Thread p (told x)) ∨ (i ≠ j ∧ threads y !! j = Some x').
Proof.
  cbn. destruct (decide (i = j)) as [->|Hne].
  - rewrite list_lookup_alter_eq. rewrite fmap_Some. naive_solver.
  - rewrite list_lookup_alter_ne by done. naive_solver.
Qed.
Context `{!WaitQueueOk Q}.

(** Steps that neither put the thread to sleep nor wake one up. *)
Lemma inv_goto w y i x p f m :
  inv w y → threads y !! i = Some x → at_ x ≠ WaitAsleep → p ≠ WaitAsleep → p ≠ WaitFutex →
  (waiting p = true → i = w) → (f = 0 ∨ f = 1) → (f = fut_ y ∨ i = w) →
  ((∀ a h, at_ x ≠ NotifyWake a h) ∨ sleepers (queue y) = []) →
  inv w (goto i p (System f m (queue y) (threads y))).
Proof.
  intros H Hi Hx Hp Hpf Hpw Hf Hfw Hnw.
  split; [done|..].
  - intros j z Hj Hz. apply lookup_goto in Hj as [(<- & v & _ & ->)|(_ & Hj)];
      [by apply Hpw|by eapply (inv_only _ _ H)].
  - intros j. cbn [queue goto]. rewrite (inv_queue _ _ H). split.
    + intros (z & Hj & Hz). exists z. split; [|done]. apply lookup_goto. right. split; [|done].
      intros ->. cbn in *. congruence.
    + intros (z & Hj & Hz). apply lookup_goto in Hj as [(_ & v & _ & ->)|(_ & Hj)]; [by cbn in Hz|eauto].
  - apply H.
  - intros z Hw Hz Ht. apply lookup_goto in Hw as [(_ & v & _ & ->)|(Hne & Hw)]; [by cbn in Hz|].
    cbn in *.
    destruct Hfw as [-> | ->]; [by eapply (inv_futex _ _ H)|done].
  - intros z Hw Hz Ht. apply lookup_goto in Hw as [(_ & v & _ & ->)|(Hne & Hw)]; [by cbn in Hz|].
    cbn in Hw.
    destruct Hnw as [Hnw|Hnw].
    + destruct (inv_asleep _ _ H z Hw Hz Ht) as (j & v & a & h & Hj & Hv). exists j, v, a, h.
      split; [|done].
      apply lookup_goto. right. split; [|done]. intros ->. cbn in *. simplify_eq. by destruct (Hnw a h).
    + assert (w ∈ sleepers (queue y)) as Hin by (apply (inv_queue _ _ H); eauto).
      rewrite Hnw in Hin. by apply not_elem_of_nil in Hin.
Qed.
(** The waiting thread releases the mutex, and goes to sleep. *)
Lemma cond_inv_unlock y w x :
  inv w y → threads y !! w = Some x → at_ x = WaitUnlock →
    inv w (goto w WaitFutex (tell false w (set_mtx None y))).
Proof.
  intros H Hw Hx.
  assert (Hl : ∀ j z, threads (goto w WaitFutex (tell false w (set_mtx None y))) !! j = Some z →
    (j = w ∧ z = Thread WaitFutex false) ∨ (j ≠ w ∧ threads y !! j = Some z)).
  { intros j z Hj. apply lookup_goto in Hj as [(<- & v & Hv & ->)|(Hne & Hj)].
    - left. split; [done|]. cbn in Hv. rewrite list_lookup_alter_eq, Hw in Hv. by injection Hv as <-.
    - right. split; [done|]. cbn in Hj. by rewrite list_lookup_alter_ne in Hj. }
  assert (Hl' : ∀ j z, j ≠ w → threads y !! j = Some z →
    threads (goto w WaitFutex (tell false w (set_mtx None y))) !! j = Some z).
  { intros j z Hne Hj. cbn. by rewrite !list_lookup_alter_ne. }
  split; [apply H|..].
  - intros j z [(-> & _)|(Hne & Hj)]%Hl; [done|by apply (inv_only _ _ H)].
  - intros j. cbn [queue goto tell set_mtx]. rewrite (inv_queue _ _ H). split.
    + intros (z & Hj & Hz). exists z. split; [|done]. apply Hl'; [|done]. intros ->. congruence.
    + intros (z & [(-> & ->)|(Hne & Hj)]%Hl & Hz); [done|eauto].
  - apply H.
  - intros z [(_ & ->)|(Hne & _)]%Hl; done.
  - intros z [(_ & ->)|(Hne & _)]%Hl; done.
Qed.
Lemma cond_inv_sleep y w x :
  inv w y → threads y !! w = Some x → at_ x = WaitFutex → fut_ y = 0 →
  inv w (goto w WaitAsleep (set_queue (enqueue w (queue y)) y)).
Proof.
  intros H Hw Hx Hf.
  assert (Hni : w ∉ sleepers (queue y)) by (rewrite (inv_queue _ _ H); intros (z & ? & ?);
    congruence).
  assert (Htold : told x = false).
  { apply not_true_is_false. intros E. pose proof (inv_futex _ _ H x Hw Hx E). congruence. }
  split; [apply H|..].
  - intros j z Hj Hz. apply lookup_goto in Hj as [(<- & _)|(_ & Hj)]; [done|by eapply (inv_only _ _ H)].
  - intros j. cbn [queue goto set_queue]. rewrite sleepers_enqueue, elem_of_cons, (inv_queue _ _ H).
    setoid_rewrite lookup_goto. split.
    + intros [->|(z & Hj & Hz)]; [naive_solver|]. exists z. split; [|done]. right. split; [|done].
      intros ->. cbn in *. congruence.
    + intros (z & [(<- & _)|(_ & Hj)] & Hz); [by left|right; eauto].
  - cbn [queue goto set_queue]. rewrite sleepers_enqueue. constructor; [done|apply H].
  - intros z Hz Hp. apply lookup_goto in Hz as [(_ & v & _ & ->)|(Hne & _)]; [by cbn in Hp|done].
  - intros z Hz Hp Ht. apply lookup_goto in Hz as [(_ & v & Hv & ->)|(Hne & _)]; [|done]. cbn in *.
    congruence.
Qed.
(** A sleeper is taken off the queue. *)
Lemma inv_wake w y j q :
  inv w y → sleepers (queue y) ≡ₚ j :: sleepers q → inv w (goto j WaitStore (set_queue q y)) ∧
    sleepers q = [] ∧ j = w.
Proof.
  intros H Hq. assert (Hin : ∀ k, k ∈ sleepers (queue y) → k = w).
  { intros k (z & Hk & Hz)%(inv_queue _ _ H). apply (inv_only _ _ H k z Hk). by rewrite Hz. }
  assert (Hj : j = w) by (apply Hin; rewrite Hq; set_solver). subst j.
  pose proof (inv_nodup _ _ H) as Hnd. rewrite Hq in Hnd. apply NoDup_cons in Hnd as [Hni Hnd].
  assert (Hnil : sleepers q = []).
  { destruct (sleepers q) as [|k l] eqn:E; [done|].
      assert (k = w) by (apply Hin; rewrite Hq; set_solver). set_solver. }
  split; [|done]. split; [apply H|..].
  - intros k z Hk Hz. apply lookup_goto in Hk as [(<- & _)|(_ & Hk)]; [done|by eapply (inv_only _ _ H)].
  - intros k. cbn [queue goto set_queue]. rewrite Hnil. split; [by intros ?%not_elem_of_nil|].
    intros (z & Hk & Hz).
    apply lookup_goto in Hk as [(<- & v & _ & ->)|(Hne & Hk)]; [by cbn in Hz|]. cbn in Hk.
    assert (k ∈ sleepers (queue y)) as ->%Hin by (apply (inv_queue _ _ H); eauto). done.
  - cbn [queue goto set_queue]. rewrite Hnil. constructor.
  - intros z Hz Hp. apply lookup_goto in Hz as [(_ & v & _ & ->)|(Hne & _)]; [by cbn in Hp|done].
  - intros z Hz Hp. apply lookup_goto in Hz as [(_ & v & _ & ->)|(Hne & _)]; [by cbn in Hp|done].
Qed.
Lemma inv_wake_one w y : inv w y → inv w (wake_one y) ∧ sleepers (queue (wake_one y)) = [] ∧
    fut_ (wake_one y) = fut_ y ∧
  ∀ i x, threads y !! i = Some x → at_ x ≠ WaitAsleep → threads (wake_one y) !! i = Some x.
Proof.
  intros H. unfold wake_one. destruct (dequeue (queue y)) as [[j q]|] eqn:E.
  - apply sleepers_dequeue in E. destruct (inv_wake w y j q H E) as (Hi & Hn & ->). split; [done|].
    split; [done|]. split; [done|].
    intros i x Hx Ha. apply lookup_goto. right. split; [|done]. intros <-. apply Ha.
    assert (w ∈ sleepers (queue y)) as (z & Hz & Hza)%(inv_queue _ _ H) by (rewrite E; set_solver).
    cbn in *. congruence.
  - apply sleepers_none in E. done.
Qed.
Lemma inv_wake_all w n y : inv w y → inv w (wake_all n y) ∧
    (n ≠ O → sleepers (queue (wake_all n y)) = []) ∧ fut_ (wake_all n y) = fut_ y ∧
  ∀ i x, threads y !! i = Some x → at_ x ≠ WaitAsleep → threads (wake_all n y) !! i = Some x.
Proof.
  revert y. induction n as [|n IH]; intros y H; cbn; [done|].
  destruct (inv_wake_one w y H) as (H1 & Hn1 & Hf1 & Ht1).
  destruct (IH _ H1) as (H2 & Hn2 & Hf2 & Ht2). split; [done|]. split; [|split; [congruence|auto]].
  intros _. destruct n; [done|by apply Hn2].
Qed.

(** A notification is stored. *)
Lemma inv_notify w y i x a h :
  inv w y → threads y !! i = Some x → at_ x = NotifyStore a h →
    inv w (goto i (NotifyWake a h) (tell_all (store 1 y))).
Proof.
  intros H Hi Hx.
  assert (Hl : ∀ j z, threads (goto i (NotifyWake a h) (tell_all (store 1 y))) !! j = Some z →
    (j = i ∧ at_ z = NotifyWake a h) ∨ (j ≠ i ∧ ∃ v, threads y !! j = Some v ∧ at_ z = at_ v)).
  { intros j z Hj. apply lookup_goto in Hj as [(<- & v & _ & ->)|(Hne & Hj)]; [by left|right].
      split; [done|].
    cbn in Hj. rewrite list_lookup_fmap, fmap_Some in Hj. destruct Hj as (v & Hv & ->). eauto. }
  assert (Hwk : waking (goto i (NotifyWake a h) (tell_all (store 1 y)))).
  { exists i, (Thread (NotifyWake a h) true), a, h. split; [|done]. apply lookup_goto. left.
      split; [done|].
    exists (Thread (at_ x) true). split; [|done]. cbn. by rewrite list_lookup_fmap, Hi. }
  split; [by right|..].
  - intros j z [(-> & E)|(Hne & v & Hj & E)]%Hl Hz; rewrite E in Hz; [done|by eapply (inv_only _ _ H)].
  - intros j. cbn [queue goto tell_all store]. rewrite (inv_queue _ _ H). split.
    + intros (z & Hj & Hz). exists (Thread (at_ z) true). split; [|done]. apply lookup_goto. right.
      split; [intros ->; congruence|]. cbn. by rewrite list_lookup_fmap, Hj.
    + intros (z & [(-> & E)|(Hne & v & Hj & E)]%Hl & Hz); rewrite E in Hz; [done|eauto].
  - apply H.
  - done.
  - done.
Qed.
Lemma cond_inv_step w y i x e y' :
  inv w y → threads y !! i = Some x → (e = Wait → i = w) → step i (at_ x) e y = Some y' → inv w y'.
Proof.
  intros H Hi He Hs. pose proof (inv_word _ _ H) as Hf.
  assert (Hgo : ∀ p f m, at_ x ≠ WaitAsleep → p ≠ WaitAsleep → p ≠ WaitFutex →
    (waiting p = true → i = w) → (f = 0 ∨ f = 1) →
    (f = fut_ y ∨ i = w) → (∀ a h, at_ x ≠ NotifyWake a h) →
      inv w (goto i p (System f m (queue y) (threads y)))).
  { intros. eapply inv_goto; eauto. }
  assert (Hw : waiting (at_ x) = true → i = w) by apply (inv_only _ _ H i x Hi).
  destruct y as [f m q ts]. destruct (at_ x) as [| | | | | | | |a h|a h] eqn:Hx, e;
    cbn [step] in Hs; try discriminate;
    try (injection Hs as <-; by apply Hgo; auto).
  - cbn in Hs. destruct m; [done|]. injection Hs as <-. by apply Hgo; auto.
  - cbn in Hs. destruct (Z.eqb_spec f 1); injection Hs as <-; apply Hgo; auto; cbn; auto.
  - injection Hs as <-. specialize (Hw eq_refl) as ->. by eapply cond_inv_unlock.
  - cbn in Hs. specialize (Hw eq_refl) as ->. destruct (Z.eqb_spec f 0); injection Hs as <-.
    + by eapply (cond_inv_sleep (System f m q ts)).
    + apply Hgo; auto.
  - injection Hs as <-. eapply inv_wake; [exact H|]. apply sleepers_cancel. apply (inv_queue _ _ H).
    eauto.
  - cbn in Hs. destruct m; [done|]. injection Hs as <-. by apply Hgo; auto.
  - injection Hs as <-. by eapply inv_notify.
  - injection Hs as <-. destruct a; cbn [threads].
    + destruct (inv_wake_all w (length ts) _ H) as (H1 & Hn & Hf1 & Ht).
      specialize (Ht i x Hi ltac:(congruence)).
      destruct (wake_all _ _) as [f1 m1 q1 ts1]. eapply (inv_goto w _ i x _ f1 m1 H1 Ht);
        try (by destruct h); try congruence.
      * exact (inv_word _ _ H1).
      * by left.
      * right. apply Hn. apply lookup_lt_Some in Hi. cbn in Hi. lia.
    + destruct (inv_wake_one w _ H) as (H1 & Hn & Hf1 & Ht). specialize (Ht i x Hi ltac:(congruence)).
      destruct (wake_one _) as [f1 m1 q1 ts1]. eapply (inv_goto w _ i x _ f1 m1 H1 Ht);
        try (by destruct h); try congruence.
      * exact (inv_word _ _ H1).
      * by left.
      * by right.
Qed.
Lemma cond_inv_reachable w y : reachable [w] y → inv w y.
Proof.
  induction 1 as [n|y i x e y' _ IH Hi He Hs].
  - split; cbn; try done; try (by left).
    + intros i x [-> _]%lookup_replicate. done.
    + intros i. rewrite sleepers_empty. split; [by intros ?%not_elem_of_nil|].
      by intros (x & [-> _]%lookup_replicate & ?).
    + rewrite sleepers_empty. constructor.
    + by intros x [-> _]%lookup_replicate.
    + by intros x [-> _]%lookup_replicate.
  - eapply cond_inv_step; eauto. intros E. specialize (He E). by apply list_elem_of_singleton in He.
Qed.

(** C24: When one thread waits for the condition variable, however many threads notify it,
    no notification is lost: if the thread sleeps although [notify_one] or [notify_all] has
    stored its notification after the thread released the mutex, the notifying thread is
    about to wake it up. *)
Theorem condition_no_lost_wakeup w y x :
  reachable [w] y → threads y !! w = Some x → at_ x = WaitAsleep → told x = true → waking y.
Proof. intros H%cond_inv_reachable. apply H. Qed.

End cond.
Arguments system : clear implicits.

Lemma cond_schedule_runs ws n sched (y : system (list nat)) :
  Forall (λ ie : nat * event, ie.2 = Wait → ie.1 ∈ ws) sched → run sched (initial n) = Some y →
    reachable ws y.
Proof.
  intros Hall. assert (Hgen : ∀ y0, reachable ws y0 → run sched y0 = Some y → reachable ws y).
  { induction Hall as [|[i e] sched He _ IH]; intros y0 Hr; cbn; [by intros [= <-]|].
    destruct (threads y0 !! i) as [x|] eqn:Ex; cbn; [|done].
    destruct (step i (at_ x) e y0) as [y1|] eqn:Es; cbn; [|done].
    apply IH. by econstructor. }
  apply Hgen. constructor.
Qed.

(** Thread 0 sleeps, thread 1 has stored its notification. *)
Definition one_waiter : list (nat * event) :=
  [(O, Lock); (O, Wait); (O, Go); (O, Go); (O, Go); (1%nat, NotifyOne); (1%nat, Go)].
Definition one_state : system (list nat) := default (initial 0) (run one_waiter (initial 2)).
Lemma condition_no_lost_wakeup_witness :
  threads one_state !! O = Some (Thread WaitAsleep true) ∧ waking one_state.
Proof.
  split; [vm_compute; reflexivity|].
  apply (condition_no_lost_wakeup O one_state (Thread WaitAsleep true)); [|vm_compute; reflexivity..].
  apply (cond_schedule_runs [O] 2 one_waiter); [|vm_compute; reflexivity].
  repeat (constructor; [cbn; intros; first [discriminate|by apply elem_of_cons; left]|]). constructor.
Defined.

(** With two waiting threads [notify_all] loses one: both have released the mutex but not
    yet called [FUTEX_WAIT] when it stores and wakes; the first returns at once and resets
    the word, and the second goes to sleep with no one left to wake it up. *)
Definition two_waiters : list (nat * event) :=
  [(O, Lock); (O, Wait); (O, Go); (O, Go); (1%nat, Lock); (1%nat, Wait); (1%nat, Go); (1%nat, Go);
   (2%nat, NotifyAll); (2%nat, Go); (2%nat, Go); (O, Go); (O, Go); (1%nat, Go); (O, Go); (O, Unlock)].
Lemma condition_notify_all_loses :
  (λ y, (threads y, queue y)) <$> run two_waiters (initial 3) =
    Some ([Thread Idle true; Thread WaitAsleep true; Thread Idle true], [1%nat]).
Proof. vm_compute. reflexivity. Qed.

End Condition.
