(* ===== verification/AtomicWait.v ===== *)
(** * Waiting for atomic objects (detail/futex_atomic_wait.hpp, detail/gcc_atomic.hpp,
      detail/futex.hpp)

    [wait] of an atomic object sleeps until it has another value.  An object of the size of a
    futex word is waited for directly, every other one through a word that it shares with the
    objects of its bucket.  Every atomic access and every system call is a step and the steps
    interleave; the wait queues of the kernel are the interface of WaitQueue.v. *)

From S2P Require Import Prelude WaitQueue.

Local Open Scope Z_scope.

Module AtomicWait.

(** Where a thread is: outside, or in front of the named step. *)
Inductive pc : Type :=
| Idle
| WaitEvent (a old : Z)          (* wait: the load of the futex word *)
| WaitLoad (a old e : Z)         (* wait: the first load of the object *)
| WaitStart (a old e : Z)        (* wait: start_waiting *)
| WaitFutex (a old e : Z)        (* wait: futex_wait *)
| WaitAsleep (a old e : Z)
| WaitReload (a old e : Z)       (* wait: the load in the loop *)
| WaitFinish (a : Z)             (* wait: finish_waiting *)
| SetStore (a v : Z) (all : bool)
| WakeBump (a : Z) (all : bool)  (* wake: the increment of the word of the bucket *)
| WakeCheck (a : Z) (all : bool) (* wake: is_waiting *)
| WakeFutex (a : Z) (all : bool).
(** A thread waits, notifies, stores a value, or stores a value and notifies; goes on; wakes up
    without reason; or a signal interrupts its system call. *)
Inductive event : Type :=
| Wait (a old : Z)
| Notify (a : Z) (all : bool)
| Put (a v : Z)
| Set_ (a v : Z) (all : bool)
| Go
| Spurious
| Signal.
#[export] Instance event_eq_dec : EqDecision event.
Proof. solve_decision. Defined.

(** The words threads sleep on: an object or the word of a bucket. *)
Abbreviation word := (Z + Z)%type.

Definition bucket (a : Z) : Z := Z.shiftr a 2 mod 16.
Section wait.
(** [word_sized a]: the object at [a] has the size of a futex word. *)
Context (word_sized : Z → bool).
Context {Q : Type} `{!WaitQueue Q}.

Record system : Type := System {
  values : gmap Z Z;
  proxies : gmap Z Z;       (* how often [proxy], a word of 32 bits, was incremented *)
  counts : gmap Z Z;        (* waiter_count *)
  queues : gmap word Q;
  threads : list pc;
}.

Definition value (a : Z) (y : system) : Z := default 0 (values y !! a).
Definition proxy (k : Z) (y : system) : Z := default 0 (proxies y !! k).
Definition waiter_count (k : Z) (y : system) : Z := default 0 (counts y !! k).
Definition queue (w : word) (y : system) : Q := default empty_queue (queues y !! w).

Definition goto (i : nat) (p : pc) (y : system) : system :=
  System (values y) (proxies y) (counts y) (queues y) (<[i := p]> (threads y)).
Definition store (a v : Z) (y : system) : system :=
  System (<[a := v]> (values y)) (proxies y) (counts y) (queues y) (threads y).
Definition bump (k : Z) (y : system) : system :=
  System (values y) (<[k := proxy k y + 1]> (proxies y)) (counts y) (queues y) (threads y).
(** [start_waiting], [finish_waiting], [is_waiting]. *)
Definition add_waiters (n k : Z) (y : system) : system :=
  System (values y) (proxies y) (<[k := waiter_count k y + n]> (counts y)) (queues y) (threads y).
Definition is_waiting (k : Z) (y : system) : bool := 0 <? i32 (waiter_count k y).
Definition set_queue (w : word) (q : Q) (y : system) : system :=
  System (values y) (proxies y) (counts y) (<[w := q]> (queues y)) (threads y).

Definition wait_address (a : Z) : word := if word_sized a then inl a else inr (bucket a).
Definition read_word (w : word) (y : system) : Z :=
  match w with inl a => value a y | inr k => u32 (proxy k y) end.
(** What a thread does that is woken up. *)
Definition woken (p : pc) : pc := match p with WaitAsleep a old e => WaitReload a old e | _ => p end.
Definition wake_one (w : word) (y : system) : system :=
  match dequeue (queue w y) with
  | Some (j, q) =>
      System (values y) (proxies y) (counts y) (<[w := q]> (queues y)) (alter woken j (threads y))
  | None => y
  end.
Fixpoint wake_n (n : nat) (w : word) (y : system) : system :=
  match n with O => y | S n => wake_n n w (wake_one w y) end.

Definition wake_begin (a : Z) (all : bool) : pc :=
    if word_sized a then WakeCheck a true else WakeBump a all.

(** The program has been aborted. *)
Definition aborted (y : system) : system := System (values y) (proxies y) ∅ ∅ [].

(** One step of thread [i] that is at [p]; [None]: it cannot take it.  [futex_wait] aborts when a
    signal interrupts it. *)
Definition step (i : nat) (p : pc) (e : event) (y : system) : option system :=
  match p, e with
  | Idle, Wait a old => Some (goto i (WaitEvent a old) y)
  | Idle, Notify a all => Some (goto i (wake_begin a all) y)
  | Idle, Put a v => Some (store a v y)
  | Idle, Set_ a v all => Some (goto i (SetStore a v all) y)
  | WaitEvent a old, Go => Some (goto i (WaitLoad a old (read_word (wait_address a) y)) y)
  | WaitLoad a old e, Go => Some (goto i (if value a y =? old then WaitStart a old e else Idle) y)
  | WaitStart a old e, Go => Some (goto i (WaitFutex a old e) (add_waiters 1 (bucket a) y))
  | WaitFutex a old e, Go =>
      let w := wait_address a in
      Some (if read_word w y =? e then goto i (WaitAsleep a old e)
        (set_queue w (enqueue i (queue w y)) y)
            else goto i (WaitReload a old e) y)
  | WaitAsleep a old e, Spurious =>
      let w := wait_address a
        in Some (goto i (WaitReload a old e) (set_queue w (cancel i (queue w y)) y))
  | WaitAsleep a old e, Signal => Some (aborted y)
  | WaitReload a old e,
    Go => Some (goto i (if value a y =? old then WaitFutex a old e else WaitFinish a) y)
  | WaitFinish a, Go => Some (goto i Idle (add_waiters (-1) (bucket a) y))
  | SetStore a v all, Go => Some (goto i (wake_begin a all) (store a v y))
  | WakeBump a all, Go => Some (goto i (WakeCheck a all) (bump (bucket a) y))
  | WakeCheck a all, Go => Some (goto i (if is_waiting (bucket a) y then WakeFutex a all else Idle) y)
  | WakeFutex a all,
    Go => Some (goto i Idle (wake_n (if all then length (threads y) else 1) (wait_address a) y))
  | _, _ => None
  end.

Definition initial (n : nat) : system := System ∅ ∅ ∅ ∅ (replicate n Idle).

(** Runs in which the objects that share a word are notified with [notify_all], and after every
    store. *)
Definition polite (e : event) : Prop :=
  match e with
  | Notify a all | Set_ a _ all => word_sized a = true ∨ all = true
  | Put a _ => word_sized a = true
  | _ => True
  end.
Inductive reachable : system → Prop :=
| reach_start n : reachable (initial n)
| reach_step y i p e y' :
    reachable y → threads y !! i = Some p → polite e → step i p e y = Some y' → reachable y'.
Fixpoint run (sched : list (nat * event)) (y : system) : option system :=
  match sched with
  | [] => Some y
  | (i, e) :: sched => p ← threads y !! i; y' ← step i p e y; run sched y'
  end.

(** ** Invariant *)

(** A thread is about to increment the word for [a]; a thread is going to wake all the
    sleepers of a bucket. *)
Definition bumping (a : Z) (y : system) : Prop := ∃ j, threads y !! j = Some (WakeBump a true).
Definition wakes (k : Z) (p : pc) : Prop :=
  match p with
  | WakeBump b all | WakeCheck b all | WakeFutex b all => word_sized b = false ∧ bucket b = k ∧
    all = true
  | _ => False
  end.
Definition waking (k : Z) (y : system) : Prop := ∃ j p, threads y !! j = Some p ∧ wakes k p.
Definition registered (k : Z) (p : pc) : Z :=
  match p with
  | WaitFutex a _ _ | WaitAsleep a _ _ | WaitReload a _ _ | WaitFinish a => if bucket a =? k then 1
    else 0
  | _ => 0
  end.
Definition seen (a e : Z) (c : Z) (y : system) : Prop := e = u32 c ∧ 0 ≤ c ≤ proxy (bucket a) y.
Definition ok (y : system) (p : pc) : Prop :=
  match p with
  | WaitLoad a old e | WaitReload a old e => word_sized a = false → ∃ c, seen a e c y
  | WaitStart a old e | WaitFutex a old e => word_sized a = false →
      ∃ c, seen a e c y ∧ (value a y = old ∨ bumping a y ∨ c < proxy (bucket a) y)
  | WaitAsleep a old e => word_sized a = false →
      ∃ c, seen a e c y ∧ (value a y = old ∨ waking (bucket a) y)
  | SetStore a _ all | WakeBump a all | WakeCheck a all | WakeFutex a all => word_sized a = true ∨
    all = true
  | _ => True
  end.
Definition asleep_on (w : word) (p : pc) : Prop := match p
    with WaitAsleep a _ _ => wait_address a = w | _ => False end.

Record inv (y : system) : Prop := {
  inv_ok i p : threads y !! i = Some p → ok y p;
  inv_queue w i : i ∈ sleepers (queue w y) ↔ ∃ p, threads y !! i = Some p ∧ asleep_on w p;
  inv_nodup w : NoDup (sleepers (queue w y));
  inv_count k : waiter_count k y = sum_of (registered k) (threads y);
  inv_proxy k : 0 ≤ proxy k y;
}.

Lemma ok_mono y y' p :
  (∀ a, word_sized a = false → value a y' = value a y ∨ bumping a y' ∧ waking (bucket a) y') →
  (∀ k, proxy k y ≤ proxy k y') →
  (∀ a, word_sized a = false → bumping a y → bumping a y' ∨ proxy (bucket a) y < proxy (bucket a) y') →
  (∀ k, asleep_on (inr k) p → waking k y → waking k y') →
  ok y p → ok y' p.
Proof.
  intros Hv Hp Hb Hw. assert (Hseen : ∀ a e c, seen a e c y → seen a e c y').
  { intros a e c [He Hc]. split; [done|]. specialize (Hp (bucket a)). lia. }
  destruct p as [| |a old e|a old e|a old e|a old e|a old e| | | | | ]; cbn; try done; intros H Ha;
    destruct (H Ha) as (c & Hc);
    try (exists c; by apply Hseen).
  1, 2: destruct Hc as [Hc Hor]; exists c; split; [by apply Hseen|];
    destruct (Hv a Ha) as [->|[Hn _]]; [|by right; left];
    destruct Hor as [->|[Hbu|Hlt]];
      [by left|destruct (Hb a Ha Hbu) as [Hbu'|Hlt];
      [by right; left|right; right; destruct Hc; lia]|];
    right; right; specialize (Hp (bucket a)); lia.
  destruct Hc as [Hc Hor]. exists c. split; [by apply Hseen|]. destruct (Hv a Ha) as [->|[_ Hn]];
    [|by right].
  destruct Hor as [->|Hwk]; [by left|right]. apply Hw; [|done]. cbn. unfold wait_address. by rewrite Ha.
Qed.

Lemma lookup_moved (l : list pc) i p p' j q :
  l !! i = Some p → <[i := p']> l !! j = Some q ↔ (j = i ∧ q = p') ∨ (j ≠ i ∧ l !! j = Some q).
Proof.
  intros Hi. rewrite list_lookup_insert_Some. apply lookup_lt_Some in Hi. naive_solver.
Qed.
Lemma not_queued y i p w : inv y → threads y !! i = Some p → (∀ w, ~ asleep_on w p) →
    i ∉ sleepers (queue w y).
Proof. intros H Hi Hn (q & Hq & Ha)%(inv_queue _ H). assert (q = p) as -> by congruence.
  by destruct (Hn w). Qed.

(** A step that leaves the queues alone. *)
Lemma inv_quiet y i p p' v' r' c' (y' := System v' r' c' (queues y) (<[i := p']> (threads y))) :
  inv y → threads y !! i = Some p → (∀ w, ~ asleep_on w p) → (∀ w, ~ asleep_on w p') →
  ok y' p' →
  (∀ a, word_sized a = false → value a y' = value a y ∨ p' = WakeBump a true) →
  (∀ k, proxy k y ≤ proxy k y') →
  (∀ a, word_sized a = false → p = WakeBump a true → proxy (bucket a) y < proxy (bucket a) y') →
  (∀ k, wakes k p → wakes k p' ∨ (∀ j q, threads y !! j = Some q → ~ asleep_on (inr k) q)) →
  (∀ k, waiter_count k y' = waiter_count k y - registered k p + registered k p') →
  inv y'.
Proof.
  intros H Hi Hp Hp' Hok Hv Hr Hb Hw Hc.
  assert (Hmoved : ∀ j q, threads y' !! j = Some q ↔ (j = i ∧ q = p') ∨
    (j ≠ i ∧ threads y !! j = Some q)).
  { intros j q. by apply (lookup_moved _ _ p). }
  split.
  - intros j q [(-> & ->)|(Hne & Hj)]%Hmoved; [done|]. apply (ok_mono y y'); [..|by eapply (inv_ok _ H)].
    + intros a Ha. destruct (Hv a Ha) as [E| ->]; [by left|right]. split.
      * exists i. apply Hmoved. by left.
      * exists i, (WakeBump a true). split; [apply Hmoved; by left|done].
    + done.
    + intros a Ha (k & Hk). destruct (decide (k = i)) as [->|Hki].
      * right. apply Hb; [done|]. congruence.
      * left. exists k. apply Hmoved. by right.
    + intros k Hq (m & z & Hm & Hz). destruct (decide (m = i)) as [->|Hmi].
      * assert (z = p) as -> by congruence. destruct (Hw k Hz) as [Hz'|Hno]; [|by destruct (Hno j q Hj)].
        exists i, p'. split; [apply Hmoved; by left|done].
      * exists m, z. split; [apply Hmoved; by right|done].
  - intros w j. change (queue w y') with (queue w y). rewrite (inv_queue _ H). split.
    + intros (q & Hj & Ha). exists q. split; [|done]. apply Hmoved. right. split; [|done]. intros ->.
      assert (q = p) as -> by congruence. by destruct (Hp w).
    + intros (q & [(-> & ->)|(Hne & Hj)]%Hmoved & Ha); [by destruct (Hp' w)|eauto].
  - intros w. apply (inv_nodup _ H).
  - intros k. rewrite Hc, (inv_count _ H). change (threads y') with (<[i := p']> (threads y)).
    by rewrite (sum_of_insert _ _ _ _ _ Hi).
  - intros k. etransitivity; [apply (inv_proxy _ H k)|apply Hr].
Qed.

Context `{!WaitQueueOk Q}.

Local Ltac quiet := try done; try (by intros ? []).

(** A sleeper is taken off its queue. *)
Definition take_off (w : word) (j : nat) (q : Q) (y : system) : system :=
  System (values y) (proxies y) (counts y) (<[w := q]> (queues y)) (alter woken j (threads y)).
Lemma lookup_woken y j p z :
  alter woken j (threads y) !! p = Some z ↔
  (p = j ∧ ∃ x, threads y !! j = Some x ∧ z = woken x) ∨ (p ≠ j ∧ threads y !! p = Some z).
Proof.
  destruct (decide (p = j)) as [->|Hne].
  - rewrite list_lookup_alter_eq, fmap_Some. naive_solver.
  - rewrite list_lookup_alter_ne by done. naive_solver.
Qed.
Lemma alter_woken (l : list pc) j x : l !! j = Some x → alter woken j l = <[j := woken x]> l.
Proof.
  intros Hj. apply list_eq. intros k. destruct (decide (k = j)) as [->|Hne].
  - rewrite list_lookup_alter_eq, Hj, list_lookup_insert_eq by (by eapply lookup_lt_Some). done.
  - by rewrite list_lookup_alter_ne, list_lookup_insert_ne.
Qed.
Lemma inv_take_off y w j q :
  inv y → sleepers (queue w y) ≡ₚ j :: sleepers q → inv (take_off w j q y) ∧
  ∃ a old e, threads y !! j = Some (WaitAsleep a old e) ∧ wait_address a = w.
Proof.
  intros H Hq. assert (j ∈ sleepers (queue w y)) as (x & Hj & Hx)%(inv_queue _ H) by (rewrite Hq;
    set_solver).
  destruct x as [| | | | |a old e| | | | | | ]; try done. cbn in Hx. split; [|eauto].
  pose proof (inv_nodup _ H w) as Hnd. rewrite Hq in Hnd. apply NoDup_cons in Hnd as [Hni Hnd].
  assert (Hqu : ∀ v, queue v (take_off w j q y) = if decide (v = w) then q else queue v y).
  { intros v. unfold queue. cbn. destruct (decide (v = w)) as [->|Hne];
      [by rewrite lookup_insert_eq|by rewrite lookup_insert_ne]. }
  assert (Hth : ∀ k z, threads (take_off w j q y) !! k = Some z ↔ (k = j ∧ z = WaitReload a old e) ∨
    (k ≠ j ∧ threads y !! k = Some z)).
  { intros k z. unfold take_off. cbn [threads]. rewrite lookup_woken.
      split; [|intros [(-> & ->)|]; [left; eauto|by right]].
    intros [(-> & x & E & ->)|]; [|by right]. left. split; [done|].
    assert (x = WaitAsleep a old e) as -> by congruence. done. }
  split.
  - intros k z [(-> & ->)|(Hne & Hk)]%Hth.
    + intros Ha. destruct (inv_ok _ H j _ Hj Ha) as (c & Hc & _). by exists c.
    + apply (ok_mono y); [by left|done|..|by eapply (inv_ok _ H)].
      * intros b _ (m & Hm). left. exists m. apply Hth. right. split; [|done]. intros ->. congruence.
      * intros b _ (m & u & Hm & Hu). exists m, u. split; [|done]. apply Hth. right. split; [|done].
        intros ->. rewrite Hj in Hm. by injection Hm as <-.
  - intros v k. rewrite Hqu. destruct (decide (v = w)) as [->|Hne].
    + split.
      * intros Hk. assert (k ≠ j) by (intros ->; done).
        assert (k ∈ sleepers (queue w y)) as (z & Hz & Ha)%(inv_queue _ H) by (rewrite Hq;
          set_solver).
        exists z. split; [|done]. apply Hth. by right.
      * intros (z & [(-> & ->)|(Hne & Hk)]%Hth & Ha); [done|].
        assert (k ∈ sleepers (queue w y)) as Hin by (apply (inv_queue _ H); eauto).
        rewrite Hq in Hin. set_solver.
    + rewrite (inv_queue _ H). split.
      * intros (z & Hz & Ha). exists z. split; [|done]. apply Hth. right. split; [|done]. intros ->.
        rewrite Hj in Hz. injection Hz as <-. cbn in Ha. congruence.
      * intros (z & [(-> & ->)|(Hk & Hz)]%Hth & Ha); [done|eauto].
  - intros v. rewrite Hqu. destruct (decide (v = w)); [done|apply (inv_nodup _ H)].
  - intros k. unfold take_off. change (waiter_count k (System _ _ _ _ _)) with (waiter_count k y).
    cbn [threads]. rewrite (inv_count _ H), (alter_woken _ _ _ Hj), (sum_of_insert _ _ _ _ _ Hj).
    cbn. lia.
  - intros k. apply (inv_proxy _ H).
Qed.
Lemma inv_wake_n n w y :
  inv y → inv (wake_n n w y) ∧
    ((length (sleepers (queue w y)) ≤ n)%nat → sleepers (queue w (wake_n n w y)) = []) ∧
  values (wake_n n w y) = values y ∧ proxies (wake_n n w y) = proxies y ∧
  ∀ i p, threads y !! i = Some p → (∀ w, ~ asleep_on w p) → threads (wake_n n w y) !! i = Some p.
Proof.
  revert y. induction n as [|n IH]; intros y H; cbn [wake_n].
  - split; [done|]. split; [|done]. intros Hl. apply nil_length_inv. lia.
  - unfold wake_one. destruct (dequeue (queue w y)) as [[j q]|] eqn:E.
    + apply sleepers_dequeue in E. destruct (inv_take_off y w j q H E) as (H1 & a & old & e & Hj & Ha).
      destruct (IH _ H1) as (H2 & Hl & Hv & Hp & Ht). split; [done|].
      split; [|split; [done|split; [done|]]].
      * intros Hlen. apply Hl. unfold queue, take_off. cbn. rewrite lookup_insert_eq. cbn.
        rewrite E in Hlen. cbn in Hlen. lia.
      * intros i p Hi Hn. apply Ht; [|done]. apply lookup_woken. right. split; [|done]. intros ->.
        rewrite Hj in Hi. injection Hi as <-. by destruct (Hn w).
    + apply sleepers_none in E. destruct (IH _ H) as (H2 & Hl & Hv & Hp & Ht). split; [done|].
      split; [|done]. intros _. apply Hl. rewrite E. cbn. lia.
Qed.
Lemma sleepers_bound y w : inv y → (length (sleepers (queue w y)) ≤ length (threads y))%nat.
Proof.
  intros H. rewrite <- (length_seq (length (threads y)) 0). apply submseteq_length, NoDup_submseteq;
    [apply (inv_nodup _ H)|].
  intros i (p & Hi & _)%(inv_queue _ H). apply elem_of_seq. apply lookup_lt_Some in Hi. lia.
Qed.

Lemma atomic_inv_asleep y i a old e (w := wait_address a) :
  inv y → threads y !! i = Some (WaitFutex a old e) → read_word w y = e → (∀ k, proxy k y < 2 ^ 32) →
  inv (goto i (WaitAsleep a old e) (set_queue w (enqueue i (queue w y)) y)).
Proof.
  intros H Hi Hr Hb. pose proof (not_queued y i _ w H Hi ltac:(by intros ? [])) as Hni.
  set (y' := goto _ _ _).
  assert (Hth : ∀ k z, threads y' !! k = Some z ↔ (k = i ∧ z = WaitAsleep a old e) ∨
    (k ≠ i ∧ threads y !! k = Some z)).
  { intros k z. by apply (lookup_moved _ _ (WaitFutex a old e)). }
  assert (Hqu : ∀ v, queue v y' = if decide (v = w) then enqueue i (queue w y) else queue v y).
  { intros v. unfold queue, y'. cbn. destruct (decide (v = w)) as [->|Hne];
      [by rewrite lookup_insert_eq|by rewrite lookup_insert_ne]. }
  split.
  - intros k z [(-> & ->)|(Hne & Hk)]%Hth.
    + intros Ha. destruct (inv_ok _ H i _ Hi Ha) as (c & [He Hc] & Hor). exists c. split; [by split|].
      destruct Hor as [Hv|[(j & Hj)|Hlt]]; [by left|right|exfalso].
      * exists j, (WakeBump a true). split; [|done]. apply Hth. right. split; [|done]. intros ->.
        congruence.
      * unfold w, wait_address in Hr. rewrite Ha in Hr. cbn in Hr. specialize (Hb (bucket a)).
        rewrite !u32_small in * by lia. lia.
    + apply (ok_mono y); [by left|done|..|by eapply (inv_ok _ H)].
      * intros b _ (m & Hm). left. exists m. apply Hth. right. split; [|done]. intros ->. congruence.
      * intros b _ (m & u & Hm & Hu). exists m, u. split; [|done]. apply Hth. right. split; [|done].
        intros ->. rewrite Hi in Hm. by injection Hm as <-.
  - intros v k. rewrite Hqu. destruct (decide (v = w)) as [->|Hne].
    + rewrite sleepers_enqueue, elem_of_cons, (inv_queue _ H). split.
      * intros [->|(z & Hz & Ha)]; [exists (WaitAsleep a old e); split; [apply Hth; by left|done]|].
        exists z. split; [|done]. apply Hth. right. split; [|done]. intros ->. rewrite Hi in Hz.
        by injection Hz as <-.
      * intros (z & [(-> & ->)|(Hk & Hz)]%Hth & Ha); [by left|right; eauto].
    + rewrite (inv_queue _ H). split.
      * intros (z & Hz & Ha). exists z. split; [|done]. apply Hth. right. split; [|done]. intros ->.
        rewrite Hi in Hz. by injection Hz as <-.
      * intros (z & [(-> & ->)|(Hk & Hz)]%Hth & Ha); [cbn in Ha; unfold w in Hne; congruence|eauto].
  - intros v. rewrite Hqu. destruct (decide (v = w)); [|apply (inv_nodup _ H)].
    rewrite sleepers_enqueue. constructor; [done|apply (inv_nodup _ H)].
  - intros k. change (waiter_count k y') with (waiter_count k y).
    change (threads y') with (<[i := WaitAsleep a old e]> (threads y)).
    rewrite (inv_count _ H), (sum_of_insert _ _ _ _ _ Hi). cbn. lia.
  - intros k. apply (inv_proxy _ H).
Qed.
(** Where a thread sleeps, its bucket has a waiter. *)
Lemma is_waiting_sleeper y j q k :
  inv y → Z.of_nat (length (threads y)) < 2 ^ 31 → threads y !! j = Some q → asleep_on (inr k) q →
    is_waiting k y = true.
Proof.
  intros H Hlen Hj Hq. assert (Hb : ∀ p, 0 ≤ registered k p ≤ 1) by (intros []; cbn; try case_match;
    lia).
  assert (H1 : registered k q = 1).
  { destruct q; cbn in Hq; try done. unfold wait_address in Hq. destruct (word_sized a); [done|].
      injection Hq as <-. cbn. by rewrite Z.eqb_refl. }
  pose proof (sum_of_elem (registered k) (threads y) j q ltac:(intros; apply Hb) Hj) as Hlow.
  assert (Hup : sum_of (registered k) (threads y) ≤ Z.of_nat (length (threads y))).
  { clear -Hb. induction (threads y) as [|p l IH]; cbn; [lia|]. specialize (Hb p).
      unfold sum_of in IH. lia. }
  unfold is_waiting, i32, sint. rewrite (inv_count _ H). rewrite Z.mod_small by lia. apply Z.ltb_lt. lia.
Qed.

Lemma value_store a v y b : value b (store a v y) = if decide (b = a) then v else value b y.
Proof. unfold value. cbn. destruct (decide (b = a)) as [->|Hne];
    [by rewrite lookup_insert_eq|by rewrite lookup_insert_ne]. Qed.
Lemma proxy_bump k y b : proxy b (bump k y) = if decide (b = k) then proxy k y + 1 else proxy b y.
Proof. unfold proxy at 1. cbn. destruct (decide (b = k)) as [->|Hne];
    [by rewrite lookup_insert_eq|by rewrite lookup_insert_ne]. Qed.
Lemma count_add n k y b :
    waiter_count b (add_waiters n k y) = waiter_count b y + (if k =? b then n else 0).
Proof.
  unfold waiter_count at 1. cbn. destruct (Z.eqb_spec k b) as [->|Hne];
    [by rewrite lookup_insert_eq|]. rewrite lookup_insert_ne by done. unfold waiter_count. lia.
Qed.
Lemma atomic_inv_goto y i p p' :
  inv y → threads y !! i = Some p → (∀ w, ~ asleep_on w p) → (∀ w, ~ asleep_on w p') →
    ok (goto i p' y) p' →
  (∀ k, registered k p = registered k p') → (∀ a, p ≠ WakeBump a true) →
  (∀ k, wakes k p → wakes k p' ∨ (∀ j q, threads y !! j = Some q → ~ asleep_on (inr k) q)) →
    inv (goto i p' y).
Proof.
  intros H Hi Hp Hp' Hok Hreg Hb Hw. apply (inv_quiet y i p); try done; auto.
  - intros a _ ->. by destruct (Hb a).
  - intros k. change (waiter_count k (System _ _ _ _ _)) with (waiter_count k y). rewrite Hreg. lia.
Qed.
Lemma ok_wake_begin y a all : word_sized a = true ∨ all = true → ok y (wake_begin a all).
Proof. intros H. unfold wake_begin. destruct (word_sized a) eqn:E; cbn; [by left|].
  by destruct H as [|]; [|right]. Qed.
Lemma wake_begin_facts a all :
  (∀ w, ~ asleep_on w (wake_begin a all)) ∧ (∀ k, registered k (wake_begin a all) = 0) ∧
  (word_sized a = false → wake_begin a all = WakeBump a all).
Proof. unfold wake_begin. split_and!; destruct (word_sized a); quiet. Qed.

Lemma step_wake_futex y i a all :
  inv y → threads y !! i = Some (WakeFutex a all) →
  inv (goto i Idle (wake_n (if all then length (threads y) else 1) (wait_address a) y)).
Proof.
  intros H Hi. set (n := if all then _ else _).
  destruct (inv_wake_n n (wait_address a) y H) as (H1 & Hemp & _ & _ & Hk).
  specialize (Hk i _ Hi ltac:(by intros ? [])). apply (atomic_inv_goto _ i (WakeFutex a all)); quiet.
  intros k (Ha & Hbk & ->). right. intros j q Hj Hq.
  assert (Hnil : sleepers (queue (wait_address a) (wake_n n (wait_address a) y)) = []).
  { apply Hemp. apply sleepers_bound, H. }
  assert (j ∈ sleepers (queue (inr k) (wake_n n (wait_address a) y))) as Hin
    by (apply (inv_queue _ H1); eauto).
  unfold wait_address in Hnil, Hin. rewrite Ha, Hbk in Hnil. rewrite Ha, Hbk in Hin.
  rewrite Hnil in Hin. by apply not_elem_of_nil in Hin.
Qed.
(** A store to an object that does not share a word. *)
Lemma atomic_inv_put y i a v :
  inv y → threads y !! i = Some Idle → word_sized a = true → inv (store a v y).
Proof.
  intros H Hi Ha. assert (E : store a v y =
    System (values (store a v y)) (proxies y) (counts y) (queues y) (<[i := Idle]> (threads y)))
    by (unfold store; by rewrite (list_insert_id _ _ _ Hi)).
  rewrite E. apply (inv_quiet y i Idle Idle); quiet; auto.
  - intros b Hb. left. change (value b (System _ _ _ _ _)) with (value b (store a v y)).
    rewrite value_store, decide_False; [done|congruence].
  - intros k. cbn. unfold waiter_count. cbn. lia.
Qed.
Lemma atomic_inv_step y i p e y' :
  inv y → (∀ k, proxy k y < 2 ^ 32) → Z.of_nat (length (threads y)) < 2 ^ 31 →
  threads y !! i = Some p → polite e → e ≠ Signal → step i p e y = Some y' → inv y'.
Proof.
  intros H Hb Hlen Hi He Hsig Hs. pose proof (inv_ok _ H i p Hi) as Hok.
  destruct p as [|a old|a old e0|a old e0|a old e0|a old e0|a old e0|a|a v all|a all|a all|a all], e
    as [a' o|a' al|a' v'|a' v' al| | |]; try discriminate; try done;
    cbn [step] in Hs; injection Hs as <-; cbn in He, Hok.
  - apply (atomic_inv_goto _ _ Idle); quiet.
  - destruct (wake_begin_facts a' al) as (H1 & H2 & _). apply (atomic_inv_goto _ _ Idle); quiet.
    by apply ok_wake_begin.
  - by eapply atomic_inv_put.
  - apply (atomic_inv_goto _ _ Idle); quiet.
  - apply (atomic_inv_goto _ _ (WaitEvent a old)); quiet. intros Ha. exists (proxy (bucket a) y).
    unfold wait_address. rewrite Ha. split; [done|].
    split; [apply (inv_proxy _ H)|done].
  - destruct (Z.eqb_spec (value a y) old) as [E|E]; apply (atomic_inv_goto _ _ (WaitLoad a old e0));
      quiet. intros Ha. destruct (Hok Ha) as (c & Hc). exists c. split; [done|by left].
  - apply (inv_quiet y i (WaitStart a old e0) (WaitFutex a old e0)); quiet; auto.
    + intros Ha. destruct (Hok Ha) as (c & Hc & Hor). exists c. split; [done|].
      destruct Hor as [|[(j & Hj)|]]; [by left|right; left|by right; right].
      exists j. cbn. rewrite list_lookup_insert_ne; [done|]. intros ->. congruence.
    + intros k.
      change (waiter_count k (System _ _ _ _ _)) with (waiter_count k (add_waiters 1 (bucket a) y)).
      rewrite count_add. cbn. lia.
  - destruct (Z.eqb_spec (read_word (wait_address a) y) e0) as [E|E]; [by apply atomic_inv_asleep|].
    apply (atomic_inv_goto _ _ (WaitFutex a old e0)); quiet.
    intros Ha. destruct (Hok Ha) as (c & Hc & _). by exists c.
  - destruct (inv_take_off y (wait_address a) i (cancel i (queue (wait_address a) y)) H) as [H1 _].
    { apply sleepers_cancel. apply (inv_queue _ H). eexists. by split. }
    unfold take_off in H1. rewrite (alter_woken _ _ _ Hi) in H1. exact H1.
  - destruct (Z.eqb_spec (value a y) old) as [E|E];
      apply (atomic_inv_goto _ _ (WaitReload a old e0)); quiet. intros Ha.
    destruct (Hok Ha) as (c & Hc). exists c. split; [done|by left].
  - apply (inv_quiet y i (WaitFinish a) Idle); quiet; auto.
    intros k. change (waiter_count k (System _ _ _ _ _))
      with (waiter_count k (add_waiters (-1) (bucket a) y)). rewrite count_add. cbn.
    destruct (bucket a =? k); lia.
  - destruct (wake_begin_facts a all) as (H1 & H2 & H3).
    apply (inv_quiet y i (SetStore a v all) (wake_begin a all)); quiet; auto.
    + by apply ok_wake_begin.
    + intros b Hbw. change (value b (System _ _ _ _ _)) with (value b (store a v y)).
      rewrite value_store. destruct (decide (b = a)) as [->|]; [right|by left].
      rewrite (H3 Hbw). destruct Hok as [|]; [congruence|by subst].
    + intros k. change (waiter_count k (System _ _ _ _ _)) with (waiter_count k y). rewrite H2. cbn. lia.
  - apply (inv_quiet y i (WakeBump a all) (WakeCheck a all)); quiet; auto.
    + intros k. change (proxy k (System _ _ _ _ _)) with (proxy k (bump (bucket a) y)).
      rewrite proxy_bump. destruct (decide (k = bucket a)) as [->|]; lia.
    + intros b _ [= -> _].
      change (proxy _ (System _ _ _ _ _)) with (proxy (bucket b) (bump (bucket b) y)).
      rewrite proxy_bump, decide_True by done. lia.
    + intros k. cbn. unfold waiter_count. cbn. lia.
  - destruct (is_waiting (bucket a) y) eqn:Ew; apply (atomic_inv_goto _ _ (WakeCheck a all)); quiet.
    + by left.
    + intros k (Ha & <- & _). right. intros j q Hj Hq.
      by rewrite (is_waiting_sleeper y j q _ H Hlen Hj Hq) in Ew.
  - by apply step_wake_futex.
Qed.

Lemma wake_n_frame n w y : proxies (wake_n n w y) = proxies y ∧
    length (threads (wake_n n w y)) = length (threads y).
Proof.
  revert y. induction n as [|n IH]; intros y; cbn [wake_n]; [done|].
  destruct (IH (wake_one w y)) as [-> ->].
  unfold wake_one. destruct (dequeue _) as [[j q]|]; [|done]. cbn. by rewrite length_alter.
Qed.
(** The words only grow and threads neither come nor go. *)
Lemma step_frame y i p e y' :
  step i p e y = Some y' → e ≠ Signal →
  (∀ k, proxy k y ≤ proxy k y') ∧ length (threads y') = length (threads y).
Proof.
  assert (Hgo : ∀ q z, (∀ k, proxy k y ≤ proxy k z) → length (threads z) = length (threads y) →
    (∀ k, proxy k y ≤ proxy k (goto i q z)) ∧ length (threads (goto i q z)) = length (threads y)).
  { intros q z Hp Hl. split; [exact Hp|]. cbn. by rewrite length_insert. }
  intros Hs Hsig. destruct p, e; try discriminate; try done; cbn [step] in Hs; injection Hs as <-;
    try case_match; try (apply Hgo; done).
  - done.
  - apply Hgo; [|done]. intros k. rewrite proxy_bump. destruct (decide (k = bucket a)) as [->|]; lia.
  - pose proof (wake_n_frame (length (threads y)) (wait_address a) y) as [Hp Hl].
    apply Hgo; [|done]. intros k. unfold proxy. by rewrite Hp.
  - pose proof (wake_n_frame 1 (wait_address a) y) as [Hp Hl]. apply Hgo; [|done]. intros k.
    unfold proxy. by rewrite Hp.
Qed.
Lemma atomic_inv_reachable y :
  reachable y → (∀ k, proxy k y < 2 ^ 32) → Z.of_nat (length (threads y)) < 2 ^ 31 →
  threads y = [] ∨ inv y.
Proof.
  induction 1 as [n|y i p e y' Hr IH Hi He Hs]; intros Hb Hl.
  - right. split; cbn [threads initial].
    + by intros i p [-> _]%lookup_replicate.
    + intros w i. unfold queue. cbn. rewrite lookup_empty. cbn. rewrite sleepers_empty.
      split; [by intros ?%not_elem_of_nil|].
      by intros (p & [-> _]%lookup_replicate & ?).
    + intros w. unfold queue. cbn. rewrite lookup_empty. cbn. rewrite sleepers_empty. constructor.
    + intros k. by rewrite sum_of_replicate.
    + intros k. done.
  - destruct (decide (e = Signal)) as [->|Hsig].
    { destruct p; try discriminate; injection Hs as <-. by left. }
    destruct (step_frame _ _ _ _ _ Hs Hsig) as [Hp Hlen].
    assert (Hb' : ∀ k, proxy k y < 2 ^ 32) by (intros k; specialize (Hp k); specialize (Hb k); lia).
    rewrite Hlen in Hl. destruct (IH Hb' Hl) as [E|H]; [by rewrite E in Hi|]. right.
    eapply atomic_inv_step; eauto.
Qed.

(** C21: Objects that are not of the size of a futex word, in programs in which every store to
    one of them is followed by [notify_all] of the thread that stores ([notify_one] and a store
    without notification are used for objects of the size of a word only), with less than 2^31
    threads and as long as no word was incremented 2^32 times.  A thread that sleeps in [wait]
    although the object has got another value is about to be woken up: some thread is on its
    way to wake all the sleepers of the bucket.  A signal that interrupts a sleeping thread
    aborts the program. *)
Theorem atomic_wait_no_lost_wakeup y i a old e :
  reachable y → (∀ k, proxy k y < 2 ^ 32) → Z.of_nat (length (threads y)) < 2 ^ 31 →
  threads y !! i = Some (WaitAsleep a old e) → word_sized a = false →
  value a y = old ∨ waking (bucket a) y.
Proof.
  intros Hr Hb Hl Hi Ha. destruct (atomic_inv_reachable y Hr Hb Hl) as [E|H]; [by rewrite E in Hi|].
  by destruct (inv_ok _ H i _ Hi Ha) as (c & _ & Hv).
Qed.
(** The thread that is on its way wakes them: afterwards no thread sleeps in the bucket. *)
Lemma atomic_wake_all y i a :
  reachable y → (∀ k, proxy k y < 2 ^ 32) → Z.of_nat (length (threads y)) < 2 ^ 31 →
  threads y !! i = Some (WakeFutex a true) → ∃ y', step i (WakeFutex a true) Go y = Some y' ∧
  ∀ j p, threads y' !! j = Some p → ~ asleep_on (wait_address a) p.
Proof.
  intros Hr Hb Hl Hi. destruct (atomic_inv_reachable y Hr Hb Hl) as [E|H]; [by rewrite E in Hi|].
  eexists. split; [done|].
  intros j p Hj Hp. cbn in Hj.
  destruct (inv_wake_n (length (threads y)) (wait_address a) y H) as (H1 & Hemp & _).
  specialize (Hemp (sleepers_bound y _ H)).
  apply list_lookup_insert_Some in Hj as [(-> & <- & _)|(Hne & Hj)]; [done|].
  assert (j ∈ sleepers (queue (wait_address a) (wake_n (length (threads y)) (wait_address a) y)))
    as Hin by (apply (inv_queue _ H1); eauto).
  rewrite Hemp in Hin. by apply not_elem_of_nil in Hin.
Qed.
End wait.
Arguments system : clear implicits.

Lemma atomic_schedule_runs ws n sched (y : system (list nat)) :
  Forall (λ ie : nat * event, polite ws ie.2) sched → run ws sched (initial n) = Some y → reachable ws y.
Proof.
  intros Hall. assert (Hgen : ∀ y0, reachable ws y0 → run ws sched y0 = Some y → reachable ws y).
  { induction Hall as [|[i e] sched He _ IH]; intros y0 Hr; cbn; [by intros [= <-]|].
    destruct (threads y0 !! i) as [p|] eqn:Ep; cbn; [|done].
    destruct (step ws i p e y0) as [y1|] eqn:Es; cbn; [|done].
    apply IH. by econstructor. }
  apply Hgen. constructor.
Qed.

(** Thread 0 sleeps, thread 1 has stored another value. *)
Definition no_words : Z → bool := λ _, false.
Definition sleeps (i : nat) (a old : Z) : list (nat * event) := [(i, Wait a old); (i, Go); (i, Go);
    (i, Go); (i, Go)].
Definition told : list (nat * event) := sleeps 0 8 0 ++ [(1%nat, Set_ 8 5 true); (1%nat, Go)].
Definition told_state : system (list nat) := default (initial 0) (run no_words told (initial 2)).
Lemma atomic_wait_no_lost_wakeup_witness :
  threads told_state !! O = Some (WaitAsleep 8 0 0) ∧ value 8 told_state = 5 ∧
  (value 8 told_state = 0 ∨ waking no_words (bucket 8) told_state).
Proof.
  split; [vm_compute; reflexivity|]. split; [vm_compute; reflexivity|].
  apply (atomic_wait_no_lost_wakeup no_words told_state O 8 0 0);
    [|intros k; vm_compute; reflexivity|vm_compute; reflexivity..].
  apply (atomic_schedule_runs no_words 2 told); [|vm_compute; reflexivity].
  repeat (constructor; [cbn; try exact I; by right|]). constructor.
Defined.

(** [notify_one] may wake a thread that waits for another object of the bucket: thread 1
    sleeps although its object has changed, and thread 0, whose word has changed, will not
    sleep again but loop. *)
Example notify_one_wrong_object :
  (λ y, (threads y, value 64 y)) <$>
    run no_words (sleeps 0 0 0 ++ sleeps 1 64 0 ++ [(2%nat, Set_ 64 5 false); (2%nat, Go);
      (2%nat, Go); (2%nat, Go); (2%nat, Go);
      (O, Go); (O, Go); (O, Go)]) (initial (Q := list nat) 3) =
    Some ([WaitFutex 0 0 0; WaitAsleep 64 0 0; Idle], 5).
Proof. vm_compute. reflexivity. Qed.
(** A store without notification leaves the thread asleep. *)
Example store_without_notification :
  (λ y, (threads y, value 64 y)) <$>
    run no_words (sleeps 0 64 0 ++ [(1%nat, Put 64 5)]) (initial (Q := list nat) 2) =
    Some ([WaitAsleep 64 0 0; Idle], 5).
Proof. vm_compute. reflexivity. Qed.
(** An object of the size of a futex word: the word is read before the object is compared with
    the old value.  When the object goes from 0 to 1 in between and back to 0 before
    [futex_wait], thread 0 sleeps although it waits for the object to be different from 1. *)
Example word_wait_loses :
  (λ y, (threads y, value 0 y)) <$>
    run (λ _, true) ([(O, Wait 0 1); (O, Go); (1%nat, Set_ 0 1 true); (1%nat, Go); (1%nat, Go);
      (O, Go); (O, Go);
      (1%nat, Set_ 0 0 true); (1%nat, Go); (1%nat, Go); (1%nat, Go);
        (O, Go)]) (initial (Q := list nat) 2) =
    Some ([WaitAsleep 0 1 0; Idle], 0).
Proof. vm_compute. reflexivity. Qed.

End AtomicWait.
