(* ===== verification/Future.v ===== *)
(** * Futures (future.hpp, event.hpp)

    A promise and its futures share a state: a mutex, an event and the result.  Threads
    call [promise::set_value], [promise::set_error] and [future::get], and interleave; a
    step is the acquisition of the mutex, what a thread does while it holds it, a wait or a
    notification.  The threads that wait for the condition variable of the event are a
    [WaitQueue].  The result is the abstract value of the variant [result_]. *)

From S2P Require Import Prelude Lifetime WaitQueue.

Local Open Scope Z_scope.

Module Future.

Section future.
Context {V : Type} `{!Moved V} {Q : Type} `{!WaitQueue Q}.

(** [variant<monostate, T, error_code>]. *)
Inductive content : Type :=
| Pending
| Value (v : V)
| Error (code : Z).

(** [shared_state], with the members of its event. *)
Record shared_state : Type := SharedState {
  mtx_ : option nat;   (* the thread that holds the mutex *)
  signaled_ : bool;
  waiters_ : Z;        (* 63 bits *)
  cond_ : Q;
  result_ : content;
}.

(** Where a thread is; in the lines marked [*] it holds the mutex. *)
Inductive pc : Type :=
| Idle
| SetLock (r : content)            (* set_value, set_error: [state_->lock()] *)
| SetBody (r : content)            (* * emplace_value, set_error *)
| SetUnlock (has_waiters : bool)   (* * unlock_and_signal_one: [lock.unlock()] *)
| SetNotify (has_waiters : bool)   (* unlock_and_signal_one: [cond_.notify_one()] *)
| GetLock                          (* get: [state_->lock()] *)
| GetPending                       (* * get: [is_pending] *)
| GetLoop                          (* * event::wait: the condition of the loop *)
| GetAsleep                        (* cond_.wait *)
| GetReacquire                     (* cond_.wait: woken up *)
| GetTake                          (* * shared_state::get *)
| GetUnlock (v : V)                (* * [~unique_lock] *)
| Got (v : V).

Record system : Type := System { shared : shared_state; threads : list pc }.

Definition set_pc (i : nat) (p : pc) (y : system) : system :=
  System (shared y) (<[i := p]> (threads y)).
Definition on_shared (f : shared_state → shared_state) (y : system) : system :=
  System (f (shared y)) (threads y).

(** ** The mutex *)

Definition set_mtx (o : option nat) (s : shared_state) : shared_state :=
  SharedState o (signaled_ s) (waiters_ s) (cond_ s) (result_ s).
(** A thread that finds the mutex taken stays where it is. *)
Definition acquire (i : nat) (f : shared_state → shared_state) (p : pc) : M system unit := λ y,
  match mtx_ (shared y) with
  | None => (Ok tt, set_pc i p (on_shared (λ s, f (set_mtx (Some i) s)) y))
  | Some _ => (Ok tt, y)
  end.
(** [GPCL_ASSERT(lock.owns_lock())]. *)
Definition holding (i : nat) (m : M system unit) : M system unit := λ y,
  if bool_decide (mtx_ (shared y) = Some i) then m y else (Abort, y).
Definition release (i : nat) (p : pc) : M system unit := λ y,
  (Ok tt, set_pc i p (on_shared (set_mtx None) y)).

(** ** event *)

Definition set_waiters (n : Z) (s : shared_state) : shared_state :=
  SharedState (mtx_ s) (signaled_ s) (n mod 2 ^ 63) (cond_ s) (result_ s).
Definition set_cond (q : Q) (s : shared_state) : shared_state :=
  SharedState (mtx_ s) (signaled_ s) (waiters_ s) q (result_ s).
(** [waiter w(this); cond_.wait(lock)]: the mutex is released and the thread put to sleep
    in one step. *)
Definition wait_begin (i : nat) : M system unit := λ y,
  (Ok tt, set_pc i GetAsleep (on_shared (λ s,
     set_mtx None (set_cond (enqueue i (cond_ s)) (set_waiters (waiters_ s + 1) s))) y)).
(** The end of [cond_.wait] and [~waiter]. *)
Definition wait_end (s : shared_state) : shared_state := set_waiters (waiters_ s - 1) s.
Definition notify_one (y : system) : system :=
  match dequeue (cond_ (shared y)) with
  | Some (j, q) => set_pc j GetReacquire (on_shared (set_cond q) y)
  | None => y
  end.

(** ** shared_state *)

(** [emplace_value] and [set_error], up to [lock.unlock()]. *)
Definition set_result (i : nat) (r : content) : M system unit := λ y,
  match result_ (shared y) with
  | Pending =>
      (Ok tt, set_pc i (SetUnlock (negb (waiters_ (shared y) =? 0)))
        (on_shared (λ s, SharedState (mtx_ s) true (waiters_ s) (cond_ s) r) y))
  | _ => (Abort, y)            (* GPCL_ASSERT(result_.index() == 0) *)
  end.
(** [get], and the move of the value out of it in [future::get]. *)
Definition get_result (i : nat) : M system unit := λ y,
  match result_ (shared y) with
  | Pending => (Abort, y)      (* GPCL_ASSERT(result_.index() != 0) *)
  | Value v =>
      (Ok tt, set_pc i (GetUnlock v) (on_shared (λ s,
         SharedState (mtx_ s) (signaled_ s) (waiters_ s) (cond_ s) (Value (moved v))) y))
  | Error _ => (Abort, y)      (* GPCL_UNREACHABLE after the error has been stored *)
  end.
Definition is_pending (s : shared_state) : bool :=
  match result_ s with Pending => true | _ => false end.

(** ** Threads *)

Inductive event : Type := Go | Spurious.

Definition step (i : nat) (p : pc) (e : event) : M system unit := λ y,
  match p, e with
  | SetLock r, Go => acquire i id (SetBody r) y
  | SetBody r, Go => holding i (set_result i r) y
  | SetUnlock w, Go => holding i (release i (SetNotify w)) y
  | SetNotify w, Go => (Ok tt, set_pc i Idle (if w then notify_one y else y))
  | GetLock, Go => acquire i id GetPending y
  | GetPending, Go =>
      holding i (λ y, (Ok tt, set_pc i (if is_pending (shared y) then GetLoop else GetTake) y)) y
  | GetLoop, Go =>
      holding i (λ y, if signaled_ (shared y) then (Ok tt, set_pc i GetTake y) else wait_begin i y) y
  | GetAsleep, Spurious =>
      (Ok tt, set_pc i GetReacquire (on_shared (λ s, set_cond (cancel i (cond_ s)) s) y))
  | GetReacquire, Go => acquire i wait_end GetLoop y
  | GetTake, Go => holding i (get_result i) y
  | GetUnlock v, Go => holding i (release i (Got v)) y
  | _, _ => (Ok tt, y)
  end.

(** The threads start in front of the call they make. *)
Definition initial (calls : list pc) : system :=
  System (SharedState None false 0 empty_queue Pending) calls.

Inductive reachable (calls : list pc) : system → Prop :=
| reach_start : reachable calls (initial calls)
| reach_step y i p e y' :
    reachable calls y → threads y !! i = Some p → step i p e y = (Ok tt, y') → reachable calls y'.

Fixpoint run (sched : list (nat * event)) (y : system) : option system :=
  match sched with
  | [] => Some y
  | (i, e) :: sched =>
      match threads y !! i with
      | Some p => match step i p e y with (Ok _, y') => run sched y' | _ => None end
      | None => None
      end
  end.

Lemma schedule_runs calls sched y y' : reachable calls y → run sched y = Some y' → reachable calls y'.
Proof.
  revert y; induction sched as [|[i e] sched IH]; intros y Hy; cbn; [by intros [= <-]|].
  destruct (threads y !! i) as [p|] eqn:Hi; [|done].
  destruct (step i p e y) as [[[]| | | |] y1] eqn:Hs; try done. eauto using reach_step.
Qed.

(** ** Invariant *)

Definition holds (p : pc) : bool :=
  match p with SetBody _ | SetUnlock _ | GetPending | GetLoop | GetTake | GetUnlock _ => true | _ => false end.
Definition setting (p : pc) : Z := match p with SetLock _ | SetBody _ => 1 | _ => 0 end.
Definition waiting (p : pc) : Z := match p with GetAsleep | GetReacquire => 1 | _ => 0 end.
(** The thread has called [get]; has taken the value; is going to wake a waiter. *)
Definition getting (p : pc) : Z :=
  match p with Idle | SetLock _ | SetBody _ | SetUnlock _ | SetNotify _ => 0 | _ => 1 end.
Definition taken (p : pc) : option V := match p with GetUnlock v | Got v => Some v | _ => None end.
Definition has_taken (p : pc) : Z := match taken p with Some _ => 1 | None => 0 end.
Definition notifying (p : pc) : Z := match p with SetUnlock true | SetNotify true => 1 | _ => 0 end.
Definition settled (s : shared_state) : Z := if is_pending s then 0 else 1.

Lemma counts_nonneg p :
  0 ≤ setting p ∧ 0 ≤ waiting p ∧ 0 ≤ getting p ∧ 0 ≤ has_taken p ∧ 0 ≤ notifying p.
Proof. destruct p as [| | |[]|[]| | | | | | | |]; cbn; lia. Qed.

Section invariant.
Context (v : V) (getters : Z).

Definition sets_value (p : pc) : Prop := match p with SetLock r | SetBody r => r = Value v | _ => True end.

Record inv (y : system) : Prop := {
  inv_sets i p : threads y !! i = Some p → sets_value p;
  inv_mtx i p : threads y !! i = Some p → holds p = true ↔ mtx_ (shared y) = Some i;
  inv_signal : signaled_ (shared y) = negb (is_pending (shared y));
  inv_setting : sum_of setting (threads y) + settled (shared y) ≤ 1;
  inv_length : Z.of_nat (length (threads y)) < 2 ^ 63;
  inv_waiters : waiters_ (shared y) = sum_of waiting (threads y);
  inv_sleepers i : i ∈ sleepers (cond_ (shared y)) ↔ threads y !! i = Some GetAsleep;
  inv_nodup : NoDup (sleepers (cond_ (shared y)));
  inv_take i : threads y !! i = Some GetTake → is_pending (shared y) = false;
  inv_result : result_ (shared y) =
    if is_pending (shared y) then Pending
    else Value (Nat.iter (Z.to_nat (sum_of has_taken (threads y))) moved v);
  inv_untaken : is_pending (shared y) = true → sum_of has_taken (threads y) = 0;
  inv_got i p w : threads y !! i = Some p → taken p = Some w →
    ∃ k, Z.of_nat k < sum_of has_taken (threads y) ∧ w = Nat.iter k moved v;
  inv_getters : sum_of getting (threads y) = getters;
  inv_wake : sum_of getting (threads y) ≤ 1 → is_pending (shared y) = false →
    sleepers (cond_ (shared y)) ≠ [] → 1 ≤ sum_of notifying (threads y);
}.

(** What a step does to the result. *)
Definition result_step (p p' : pc) (r r' : content) : Prop :=
  (r' = r ∧ taken p' = taken p) ∨
  (r = Pending ∧ r' = Value v ∧ taken p = None ∧ taken p' = None) ∨
  (∃ w, r = Value w ∧ r' = Value (moved w) ∧ taken p = None ∧ taken p' = Some w).

Lemma lookup_update {A} (l : list A) i j x y :
  l !! i = Some x → <[i := y]> l !! j = if decide (j = i) then Some y else l !! j.
Proof.
  intros Hi. case_decide as Hj; [subst|by rewrite list_lookup_insert_ne].
  apply list_lookup_insert_eq. eauto using lookup_lt_Some.
Qed.

Lemma sum_waiting_bound l : sum_of waiting l ≤ Z.of_nat (length l).
Proof.
  induction l as [|p l IH]; cbn; [lia|]. assert (waiting p ≤ 1) by (destruct p; cbn; lia). unfold sum_of in *. lia.
Qed.

Lemma result_update y i p p' s' (l := <[i := p']> (threads y)) :
  inv y → threads y !! i = Some p → result_step p p' (result_ (shared y)) (result_ s') →
  result_ s' = (if is_pending s' then Pending else Value (Nat.iter (Z.to_nat (sum_of has_taken l)) moved v)) ∧
  (is_pending s' = true → sum_of has_taken l = 0) ∧
  (∀ j q w, l !! j = Some q → taken q = Some w →
    ∃ k, Z.of_nat k < sum_of has_taken l ∧ w = Nat.iter k moved v).
Proof.
  intros Hy Hi Hr. unfold l. rewrite (sum_of_insert _ _ _ _ _ Hi).
  assert (Hres := inv_result _ Hy). assert (Hun := inv_untaken _ Hy). assert (Hgot := inv_got _ Hy).
  assert (Hpos : 0 ≤ sum_of has_taken (threads y)) by (apply sum_of_nonneg; intros q _; apply counts_nonneg).
  unfold is_pending in *. destruct Hr as [[Hr Ht]|[(Hr & Hr' & Ht & Ht')|(w & Hr & Hr' & Ht & Ht')]].
  - assert (Heq : has_taken p' = has_taken p) by (unfold has_taken; by rewrite Ht).
    rewrite Hr, Heq. replace (_ - _ + _) with (sum_of has_taken (threads y)) by lia.
    split; [exact Hres|]. split; [exact Hun|]. intros j q w. rewrite (lookup_update _ _ _ _ _ Hi).
    case_decide; [intros [= <-]; rewrite Ht; eauto|eauto].
  - rewrite Hr in Hun, Hres. specialize (Hun eq_refl). rewrite Hr'.
    assert (Heq : has_taken p' = 0 ∧ has_taken p = 0) by (unfold has_taken; by rewrite Ht, Ht').
    destruct Heq as [-> ->]. replace (_ - _ + _) with 0 by lia. split; [done|]. split; [done|].
    intros j q w. rewrite (lookup_update _ _ _ _ _ Hi). case_decide; [intros [= <-]; congruence|].
    intros Hj Hw. destruct (Hgot j q w Hj Hw) as (k & Hk & _). lia.
  - rewrite Hr in Hres, Hun. injection Hres as Hres. rewrite Hr'.
    assert (Heq : has_taken p' = 1 ∧ has_taken p = 0) by (unfold has_taken; by rewrite Ht, Ht').
    destruct Heq as [-> ->]. rewrite Z.sub_0_r. split; [|split; [done|]].
    { rewrite Z2Nat.inj_add by lia. change (Z.to_nat 1) with 1%nat. rewrite Nat.add_comm. cbn. by rewrite Hres. }
    intros j q w'. rewrite (lookup_update _ _ _ _ _ Hi). case_decide.
    + intros [= <-]. rewrite Ht'. intros [= <-]. exists (Z.to_nat (sum_of has_taken (threads y))). split; [lia|done].
    + intros Hj Hw. destruct (Hgot j q w' Hj Hw) as (k & Hk & ->). exists k; split; [lia|done].
Qed.

(** One thread moves from [p] to [p'] and the shared state becomes [s']. *)
Lemma future_update y i p p' s' :
  inv y → threads y !! i = Some p → sets_value p' →
  mtx_ s' = (if holds p' then Some i else if holds p then None else mtx_ (shared y)) →
  (holds p' = true → holds p = true ∨ mtx_ (shared y) = None) →
  signaled_ s' = negb (is_pending s') →
  setting p' + settled s' ≤ setting p + settled (shared y) →
  waiters_ s' = waiters_ (shared y) - waiting p + waiting p' →
  ((∀ j, j ∈ sleepers (cond_ s') ↔
         if decide (j = i) then p' = GetAsleep else j ∈ sleepers (cond_ (shared y))) ∧
   NoDup (sleepers (cond_ s'))) →
  settled (shared y) ≤ settled s' → (p' = GetTake → is_pending s' = false) →
  result_step p p' (result_ (shared y)) (result_ s') → getting p' = getting p →
  (sum_of getting (threads y) ≤ 1 → is_pending s' = false → sleepers (cond_ s') ≠ [] →
    1 ≤ sum_of notifying (threads y) - notifying p + notifying p') →
  inv (System s' (<[i := p']> (threads y))).
Proof.
  intros Hy Hi Hv Hm Hm' Hs Hset Hw [Hsl Hnd] Hmono Htake Hr Hg Hwake.
  destruct (result_update y i p p' s' Hy Hi Hr) as (Hres & Hun & Hgot).
  rewrite (sum_of_insert _ _ _ _ _ Hi) in Hres, Hun, Hgot.
  assert (Hhold := inv_mtx _ Hy i p Hi).
  split; cbn [shared threads]; rewrite ?(sum_of_insert _ _ _ _ _ Hi), ?length_insert; try done.
  - intros j q. rewrite (lookup_update _ _ _ _ _ Hi). case_decide; [by intros [= <-]|apply (inv_sets _ Hy)].
  - intros j q. rewrite (lookup_update _ _ _ _ _ Hi), Hm. case_decide as Hj.
    + intros [= <-]; subst j. destruct (holds p'); [done|]. split; [done|]. destruct (holds p); [done|].
      intros Hmi. by apply Hhold in Hmi.
    + intros Hq. rewrite (inv_mtx _ Hy j q Hq). destruct (holds p').
      * destruct (Hm' eq_refl) as [Hp|Hp]; [apply Hhold in Hp; rewrite Hp|rewrite Hp];
          split; try done; intros [= ?]; congruence.
      * destruct (holds p); [|done]. rewrite (proj1 Hhold eq_refl). split; [intros [= ?]; congruence|done].
  - pose proof (inv_setting _ Hy). lia.
  - apply (inv_length _ Hy).
  - rewrite Hw, (inv_waiters _ Hy). lia.
  - intros j. rewrite Hsl, (lookup_update _ _ _ _ _ Hi). case_decide; [|apply (inv_sleepers _ Hy)].
    split; congruence.
  - intros j. rewrite (lookup_update _ _ _ _ _ Hi). case_decide; [intros [= ?]; auto|].
    intros Hj%(inv_take _ Hy). unfold settled in Hmono. rewrite Hj in Hmono. by destruct (is_pending s').
  - rewrite <- (inv_getters _ Hy). lia.
  - intros Hone. apply Hwake. lia.
Qed.

Lemma waiters_range y : inv y → 0 ≤ waiters_ (shared y) ≤ Z.of_nat (length (threads y)).
Proof.
  intros Hy. rewrite (inv_waiters _ Hy). split; [|apply sum_waiting_bound].
  apply sum_of_nonneg; intros q _; apply counts_nonneg.
Qed.

(** The queue is not touched and the thread is not in it. *)
Lemma same_queue y i p p' q :
  inv y → threads y !! i = Some p → p ≠ GetAsleep → p' ≠ GetAsleep → q = cond_ (shared y) →
  (∀ j, j ∈ sleepers q ↔ if decide (j = i) then p' = GetAsleep else j ∈ sleepers (cond_ (shared y))) ∧
  NoDup (sleepers q).
Proof.
  intros Hy Hi Hp Hp' ->. split; [|apply Hy]. intros j. case_decide; [subst|done].
  rewrite (inv_sleepers _ Hy), Hi. split; congruence.
Qed.

(** A thread moves on and nothing changes but the owner of the mutex. *)
Lemma future_move y i p p' o :
  inv y → threads y !! i = Some p → sets_value p' → waiting p = 0 → waiting p' = 0 →
  o = (if holds p' then Some i else if holds p then None else mtx_ (shared y)) →
  (holds p' = true → holds p = true ∨ mtx_ (shared y) = None) →
  setting p' = setting p → taken p' = taken p → getting p' = getting p → notifying p' = notifying p →
  (p' = GetTake → is_pending (shared y) = false) →
  inv (set_pc i p' (on_shared (set_mtx o) y)).
Proof.
  intros Hy Hi Hv Hw Hw' Ho Ho' Hs Ht Hg Hn Htake. eapply (future_update y i p); try done; cbn.
  - apply Hy.
  - unfold settled, is_pending; cbn. lia.
  - lia.
  - eapply same_queue; try done; by intros ->.
  - by left.
  - intros Hone Hp Hq. pose proof (inv_wake _ Hy Hone Hp Hq). lia.
Qed.

(** A sleeper leaves the queue. *)
Lemma future_leave y i q :
  inv y → sleepers (cond_ (shared y)) ≡ₚ i :: sleepers q →
  threads y !! i = Some GetAsleep ∧ inv (set_pc i GetReacquire (on_shared (set_cond q) y)).
Proof.
  intros Hy Hq.
  assert (Hi : threads y !! i = Some GetAsleep)
    by (apply (inv_sleepers _ Hy); rewrite Hq; apply elem_of_cons; auto).
  assert (Hn := inv_nodup _ Hy). rewrite Hq in Hn. apply NoDup_cons in Hn as [Hn Hn'].
  split; [done|]. apply (future_update y i GetAsleep); try done; cbn.
  - apply Hy.
  - lia.
  - split; [|done]. intros j.
    assert (Hj : j ∈ sleepers (cond_ (shared y)) ↔ j ∈ i :: sleepers q) by (by rewrite Hq).
    rewrite elem_of_cons in Hj. case_decide; naive_solver.
  - by left.
  - intros Hone Hp _. pose proof (inv_wake _ Hy Hone Hp) as Hw. lapply Hw; [lia|].
    intros Hnil. rewrite Hnil in Hq. by apply Permutation_nil_cons in Hq.
Qed.

(** With a single getter, the queue is empty once it has been woken up. *)
Lemma only_sleeper y i q :
  inv y → sum_of getting (threads y) ≤ 1 → sleepers (cond_ (shared y)) ≡ₚ i :: sleepers q → sleepers q = [].
Proof.
  intros Hy Hone Hq. destruct (sleepers q) as [|j l] eqn:Hl; [done|exfalso].
  assert (Hn := inv_nodup _ Hy). rewrite Hq in Hn. apply NoDup_cons in Hn as [Hn _].
  assert (Hij : j ≠ i) by (intros ->; apply Hn; by left).
  assert (Hi : threads y !! i = Some GetAsleep) by (apply (inv_sleepers _ Hy); rewrite Hq; by left).
  assert (Hj : threads y !! j = Some GetAsleep) by (apply (inv_sleepers _ Hy); rewrite Hq; right; by left).
  pose proof (sum_of_insert getting _ i _ Idle Hi) as Hsum.
  assert (Hj' : <[i := Idle]> (threads y) !! j = Some GetAsleep) by (by rewrite list_lookup_insert_ne).
  pose proof (sum_of_elem getting _ j _ ltac:(intros q' _; apply counts_nonneg) Hj') as He.
  cbn in Hsum, He. lia.
Qed.

(** The steps that change more than the mutex. *)
Lemma inv_set_result y i r :
  inv y → threads y !! i = Some (SetBody r) → mtx_ (shared y) = Some i →
  ∃ y', set_result i r y = (Ok tt, y') ∧ inv y'.
Proof.
  intros Hy Hi Hm. assert (Hv : r = Value v) by apply (inv_sets _ Hy i _ Hi). subst r.
  pose proof (inv_setting _ Hy) as Hset.
  pose proof (sum_of_elem setting _ i _ ltac:(intros q' _; apply counts_nonneg) Hi) as Hone. cbn in Hone.
  unfold set_result. unfold settled, is_pending in Hset. destruct (result_ (shared y)) eqn:Hr; [|lia..].
  eexists; split; [done|]. apply (future_update y i (SetBody (Value v))); try done; cbn.
  - by left.
  - unfold settled, is_pending; cbn. rewrite Hr. lia.
  - lia.
  - by eapply same_queue.
  - unfold settled, is_pending. by rewrite Hr.
  - right; left. by rewrite Hr.
  - intros _ _ Hq. assert (Hw : 1 ≤ waiters_ (shared y)).
    { destruct (sleepers (cond_ (shared y))) as [|j l] eqn:Hl; [done|].
      assert (Hj : threads y !! j = Some GetAsleep) by (apply (inv_sleepers _ Hy); rewrite Hl; by left).
      rewrite (inv_waiters _ Hy).
      exact (sum_of_elem waiting _ j _ ltac:(intros q' _; apply counts_nonneg) Hj). }
    rewrite (proj2 (Z.eqb_neq _ _)) by lia. cbn.
    assert (0 ≤ sum_of notifying (threads y)) by (apply sum_of_nonneg; intros q' _; apply counts_nonneg). lia.
Qed.

Lemma inv_get_result y i :
  inv y → threads y !! i = Some GetTake → mtx_ (shared y) = Some i →
  ∃ y', get_result i y = (Ok tt, y') ∧ inv y'.
Proof.
  intros Hy Hi Hm. assert (Hp := inv_take _ Hy i Hi). assert (Hr := inv_result _ Hy). rewrite Hp in Hr.
  unfold get_result. rewrite Hr. eexists; split; [done|].
  apply (future_update y i GetTake); try done; cbn; rewrite ?Hm; try done.
  - by left.
  - by rewrite (inv_signal _ Hy), Hp.
  - unfold settled. rewrite Hp. cbn. lia.
  - lia.
  - by eapply same_queue.
  - unfold settled. rewrite Hp. cbn. lia.
  - right; right. eauto.
  - intros Hone _ Hq. pose proof (inv_wake _ Hy Hone Hp Hq). lia.
Qed.

Lemma inv_wait_begin `{!WaitQueueOk Q} y i :
  inv y → threads y !! i = Some GetLoop → mtx_ (shared y) = Some i → signaled_ (shared y) = false →
  ∃ y', wait_begin i y = (Ok tt, y') ∧ inv y'.
Proof.
  intros Hy Hi Hm Hs. eexists; split; [done|].
  assert (Hp : is_pending (shared y) = true)
    by (rewrite (inv_signal _ Hy) in Hs; by destruct (is_pending (shared y))).
  assert (Hpos := waiters_range y Hy). assert (Hlen := inv_length _ Hy).
  assert (Hroom : waiters_ (shared y) + 1 ≤ Z.of_nat (length (threads y))).
  { pose proof (sum_of_insert waiting _ i _ GetAsleep Hi) as Hsum.
    pose proof (sum_waiting_bound (<[i := GetAsleep]> (threads y))) as Hb.
    rewrite length_insert in Hb. rewrite (inv_waiters _ Hy). cbn in Hsum. lia. }
  assert (Hni : i ∉ sleepers (cond_ (shared y))) by (rewrite (inv_sleepers _ Hy), Hi; done).
  apply (future_update y i GetLoop); try done; cbn.
  - apply Hy.
  - rewrite Z.mod_small by lia. lia.
  - split; [|rewrite sleepers_enqueue; by constructor; [|apply Hy]].
    intros j. rewrite sleepers_enqueue, elem_of_cons. case_decide; naive_solver.
  - by left.
  - intros _ Hp'. unfold is_pending in *. cbn in Hp'. congruence.
Qed.

Lemma inv_reacquire y i :
  inv y → threads y !! i = Some GetReacquire → mtx_ (shared y) = None →
  inv (set_pc i GetLoop (on_shared (λ s, wait_end (set_mtx (Some i) s)) y)).
Proof.
  intros Hy Hi Hm. assert (Hpos := waiters_range y Hy). assert (Hlen := inv_length _ Hy).
  pose proof (sum_of_elem waiting _ i _ ltac:(intros q' _; apply counts_nonneg) Hi) as Hone.
  rewrite <- (inv_waiters _ Hy) in Hone. cbn in Hone.
  apply (future_update y i GetReacquire); try done; cbn.
  - by right.
  - apply Hy.
  - rewrite Z.mod_small by lia. lia.
  - by eapply same_queue.
  - by left.
  - intros Hg Hp Hq. pose proof (inv_wake _ Hy Hg Hp Hq). lia.
Qed.

Lemma inv_notified `{!WaitQueueOk Q} y i w :
  inv y → threads y !! i = Some (SetNotify w) → inv (set_pc i Idle (if w then notify_one y else y)).
Proof.
  intros Hy Hi.
  assert (Hlast : ∀ y', inv y' → threads y' !! i = Some (SetNotify w) →
    (sum_of getting (threads y') ≤ 1 → is_pending (shared y') = false → w = true →
      sleepers (cond_ (shared y')) = []) → inv (set_pc i Idle y')).
  { intros y' Hy' Hi' Hempty. apply (future_update y' i (SetNotify w)); try done; cbn.
    - apply Hy'.
    - lia.
    - by eapply same_queue.
    - by left.
    - intros Hg Hp Hq. pose proof (inv_wake _ Hy' Hg Hp Hq). destruct w; [|lia]. by destruct Hq; apply Hempty. }
  destruct w; [|by apply Hlast]. unfold notify_one.
  destruct (dequeue (cond_ (shared y))) as [[j q]|] eqn:Hd.
  - apply sleepers_dequeue in Hd. destruct (future_leave y j q Hy Hd) as [Hj Hy'].
    apply Hlast; [done|cbn; rewrite list_lookup_insert_ne by congruence; done|].
    intros Hg _ _. apply (only_sleeper y j q Hy); [|done].
    unfold set_pc, on_shared in Hg. cbn [threads] in Hg. rewrite (sum_of_insert _ _ _ _ _ Hj) in Hg. cbn in Hg. lia.
  - apply Hlast; [done..|]. intros _ _ _. by apply sleepers_none.
Qed.

Lemma own_mutex y i : mtx_ (shared y) = Some i → on_shared (set_mtx (Some i)) y = y.
Proof. destruct y as [[] l]; cbn. by intros ->. Qed.

Ltac move_to o :=
  match goal with Hi : threads ?y !! ?i = Some ?p |- inv (set_pc ?i ?p' _) =>
    apply (future_move y i p p' o); try done; auto end.

(** Every step of every thread succeeds and keeps the invariant. *)
Lemma future_step `{!WaitQueueOk Q} y i p e :
  inv y → threads y !! i = Some p → ∃ y', step i p e y = (Ok tt, y') ∧ inv y'.
Proof.
  intros Hy Hi. assert (Hh := inv_mtx _ Hy i p Hi). assert (Hv := inv_sets _ Hy i p Hi).
  assert (Hholding : ∀ m, holds p = true → holding i m y = m y).
  { intros m Hp. unfold holding. by rewrite bool_decide_true by (by apply Hh). }
  assert (Hacquire : ∀ f p', (mtx_ (shared y) = None → inv (set_pc i p' (on_shared (λ s, f (set_mtx (Some i) s)) y))) →
    ∃ y', acquire i f p' y = (Ok tt, y') ∧ inv y').
  { intros f p' H. unfold acquire. destruct (mtx_ (shared y)); eauto. }
  destruct p; destruct e; cbn [step]; try (by eexists; split; [done|]);
    try (rewrite Hholding by done); try (apply Hacquire; intros Hm).
  - move_to (Some i).
  - apply inv_set_result; [done..|by apply Hh].
  - eexists; split; [done|]. move_to (@None nat).
  - eexists; split; [done|]. by apply inv_notified.
  - move_to (Some i).
  - eexists; split; [done|]. rewrite <- (own_mutex y i) at 2 by (by apply Hh).
    destruct (is_pending (shared y)) eqn:Hp; move_to (Some i).
  - assert (Hm := proj1 Hh eq_refl). destruct (signaled_ (shared y)) eqn:Hs; [|by apply inv_wait_begin].
    eexists; split; [done|]. rewrite <- (own_mutex y i) by done. move_to (Some i).
    by rewrite (inv_signal _ Hy), negb_true_iff in Hs.
  - eexists; split; [done|]. apply future_leave; [done|]. apply sleepers_cancel. by apply (inv_sleepers _ Hy).
  - by apply inv_reacquire.
  - apply inv_get_result; [done..|by apply Hh].
  - eexists; split; [done|]. move_to (@None nat).
Qed.

(** ** Theorems *)

(** The threads that are about to call [set_value(v)], at most one, and [get]. *)
Definition calls_ok (calls : list pc) : Prop :=
  Forall (λ p, p = Idle ∨ p = SetLock (Value v) ∨ p = GetLock) calls ∧
  sum_of setting calls ≤ 1 ∧ Z.of_nat (length calls) < 2 ^ 63.

Lemma future_initial `{!WaitQueueOk Q} calls : calls_ok calls → sum_of getting calls = getters → inv (initial calls).
Proof.
  intros (Hc & Hs & Hl) Hg. rewrite Forall_lookup in Hc.
  assert (Hzero : ∀ f, f Idle = 0 → f (SetLock (Value v)) = 0 → f GetLock = 0 → sum_of f calls = 0).
  { intros f H1 H2 H3. clear Hs Hl Hg. revert Hc. induction calls as [|p calls IH]; [done|]. intros Hc.
    cbn. fold (sum_of f calls). rewrite IH by (intros i q Hi; apply (Hc (S i) q Hi)).
    destruct (Hc 0%nat p eq_refl) as [->|[->| ->]]; lia. }
  split; cbn -[sum_of]; rewrite ?sleepers_empty, ?(Hzero waiting), ?(Hzero has_taken); try done; try lia.
  - intros i p Hi. by destruct (Hc i p Hi) as [->|[->| ->]].
  - intros i p Hi. by destruct (Hc i p Hi) as [->|[->| ->]].
  - intros i. split; [by intros ?%elem_of_nil|]. intros Hi. by destruct (Hc i _ Hi) as [?|[?|?]].
  - constructor.
  - intros i Hi. by destruct (Hc i _ Hi) as [?|[?|?]].
  - intros i p w Hi Ht. by destruct (Hc i p Hi) as [->|[->| ->]].
Qed.

Lemma future_reachable `{!WaitQueueOk Q} calls y :
  calls_ok calls → sum_of getting calls = getters → reachable calls y → inv y.
Proof.
  intros Hc Hg. induction 1 as [|y i p e y' _ IH Hi Hs]; [by apply future_initial|].
  destruct (future_step y i p e IH Hi) as (y'' & Hs' & ?); congruence.
Qed.

End invariant.

(** C17: When one thread at most calls [set_value(v)] and any number of threads call
    [get], no step in any interleaving fails an assertion, and if a single thread calls
    [get] then what it returns is [v]. *)
Theorem future_get_value `{!WaitQueueOk Q} v calls (y : system) :
  calls_ok v calls → reachable calls y →
  (∀ i p e, threads y !! i = Some p → ∃ y', step i p e y = (Ok tt, y')) ∧
  (sum_of getting calls ≤ 1 → ∀ i w, threads y !! i = Some (Got w) → w = v).
Proof.
  intros Hc Hr. assert (Hy := future_reachable v _ calls y Hc eq_refl Hr). split.
  - intros i p e Hi. destruct (future_step v _ y i p e Hy Hi) as (y' & ? & _); eauto.
  - intros Hone i w Hi. destruct (inv_got v _ y Hy i _ w Hi eq_refl) as (k & Hk & ->).
    assert (Hle : sum_of has_taken (threads y) ≤ sum_of getting (threads y))
      by (apply sum_of_le; intros [| | |[]|[]| | | | | | | |]; cbn; lia).
    rewrite (inv_getters _ _ _ Hy) in Hle. assert (k = 0%nat) as -> by lia. done.
Qed.

(** C18: No wake-up is lost.  Where the only thread that has called [get] still sleeps,
    the value has not been set, or the thread that has set it is about to notify. *)
Theorem future_no_lost_wakeup `{!WaitQueueOk Q} v calls (y : system) i :
  calls_ok v calls → sum_of getting calls ≤ 1 → reachable calls y → threads y !! i = Some GetAsleep →
  result_ (shared y) = Pending ∨
  ∃ j, threads y !! j = Some (SetUnlock true) ∨ threads y !! j = Some (SetNotify true).
Proof.
  intros Hc Hone Hr Hi. assert (Hy := future_reachable v _ calls y Hc eq_refl Hr).
  assert (Hres := inv_result _ _ _ Hy). destruct (is_pending (shared y)) eqn:Hp; [by left|right].
  destruct (sum_of_pos notifying (threads y)) as (j & p & Hj & Hn).
  - assert (1 ≤ sum_of notifying (threads y)); [|lia]. apply (inv_wake v _ y Hy); [by rewrite (inv_getters _ _ _ Hy)|done|].
    apply (inv_sleepers _ _ _ Hy) in Hi. intros Hnil. rewrite Hnil in Hi. by apply elem_of_nil in Hi.
  - exists j. destruct p as [| | |[]|[]| | | | | | | |]; cbn in Hn; try lia; auto.
Qed.

(** An error that has been set ends the program when it is asked for. *)
Lemma future_error_aborts (y : system) i c :
  result_ (shared y) = Error c → mtx_ (shared y) = Some i → step i GetTake Go y = (Abort, y).
Proof. intros Hr Hm. cbn. unfold holding, get_result. by rewrite bool_decide_true, Hr by done. Qed.

(** A second value that is set ends it as well. *)
Lemma promise_set_twice_aborts (y : system) i r w :
  result_ (shared y) = Value w → mtx_ (shared y) = Some i → step i (SetBody r) Go y = (Abort, y).
Proof. intros Hr Hm. cbn. unfold holding, set_result. by rewrite bool_decide_true, Hr by done. Qed.

End future.
Arguments content : clear implicits.
Arguments pc : clear implicits.
Arguments system : clear implicits.
Arguments shared_state : clear implicits.

(** ** Concrete runs *)

#[local] Existing Instance Life.moved_Z.

(** One thread sets 7 while the other one sleeps in [get]. *)
Definition pair : list (pc Z) := [SetLock (Value 7); GetLock].
Definition sleeping : list (nat * event) := [(1, Go); (1, Go); (1, Go)]%nat.
Definition finishing : list (nat * event) :=
  [(0, Go); (0, Go); (0, Go); (0, Go); (1, Go); (1, Go); (1, Go); (1, Go)]%nat.

Lemma pair_ok : calls_ok 7 pair.
Proof. split; [|split; [vm_compute; discriminate|reflexivity]]. constructor; [by right; left|constructor; [by right; right|constructor]]. Qed.

Definition finished : system Z (list nat) := System (SharedState None true 0 [] (Value 0)) [Idle; Got 7].

Example pair_runs : run (sleeping ++ finishing) (initial pair) = Some finished.
Proof. reflexivity. Qed.

Lemma future_get_value_witness : threads finished !! 1%nat = Some (Got 7) ∧ 7 = 7.
Proof.
  split; [reflexivity|].
  refine (proj2 (future_get_value 7 pair finished pair_ok _) _ 1%nat 7 eq_refl); [|vm_compute; discriminate].
  apply (schedule_runs pair (sleeping ++ finishing) (initial pair)); [constructor|exact pair_runs].
Defined.

Lemma future_no_lost_wakeup_witness :
  result_ (SharedState None false 1 [1%nat] (Pending (V := Z))) = Pending ∨
  ∃ j, [SetLock (Value 7); GetAsleep] !! j = Some (SetUnlock true) ∨
       [SetLock (Value 7); GetAsleep] !! j = Some (SetNotify true).
Proof.
  refine (future_no_lost_wakeup 7 pair (System (SharedState None false 1 [1%nat] Pending)
    [SetLock (Value 7); GetAsleep]) 1%nat pair_ok _ _ eq_refl); [vm_compute; discriminate|].
  apply (schedule_runs pair sleeping (initial pair)); [constructor|reflexivity].
Defined.

(** Of two threads that sleep in [get] only one is woken up; the other one sleeps on
    although the value is there. *)
Example future_second_getter_sleeps :
  (λ y, (threads y, result_ (shared y))) <$>
    run (sleeping ++ [(2, Go); (2, Go); (2, Go)]%nat ++ finishing) (initial (pair ++ [GetLock])) =
  Some ([Idle; Got 7; GetAsleep], Value (moved 7)).
Proof. reflexivity. Qed.

End Future.
