(* ===== verification/Locks.v ===== *)
(** * Locks (unique_lock.hpp, lock.hpp, scoped_lock.hpp)

    One thread locks mutexes that other threads use too.  The others are a parameter:
    [others t m] says whether another thread holds the mutex [m] at time [t], unless this
    thread does; the clock advances with every attempt to lock a mutex.  The mutexes are not
    recursive. *)

From S2P Require Import Prelude.

Local Open Scope Z_scope.
Local Open Scope gpcl_scope.

Module Locks.

Record state : Type := State { mine : gset Z; clock : nat }.
Abbreviation K A := (M state A).

(** An object of type [unique_lock]. *)
Record unique_lock : Type := UniqueLock { mtx_ : option Z; owns_lock_ : bool }.

Section locks.
Context (others : nat → Z → bool).

(** ** Mutexes *)

Definition mutex_try_lock (m : Z) : K bool := λ s,
  if decide (m ∈ mine s) then (Ok false, State (mine s) (S (clock s)))
  else if others (clock s) m then (Ok false, State (mine s) (S (clock s)))
  else (Ok true, State ({[m]} ∪ mine s) (S (clock s))).
(** Waits until no other thread holds the mutex; for ever if this one does. *)
Fixpoint mutex_lock (fuel : nat) (m : Z) : K unit :=
  match fuel with
  | O => nofuel
  | S fuel => let! b := mutex_try_lock m in if b : bool then ret tt else mutex_lock fuel m
  end.
Definition mutex_unlock (m : Z) : K unit := λ s,
  if decide (m ∈ mine s) then (Ok tt, State (mine s ∖ {[m]}) (clock s)) else (Undef, s).

(** ** unique_lock *)

Definition deref (l : unique_lock) : K Z :=
  match mtx_ l with Some m => ret m | None => undef end.
Definition lock (fuel : nat) (l : unique_lock) : K unique_lock :=
  gpcl_assert (negb (owns_lock_ l)) ;;;
  let! m := deref l in
  mutex_lock fuel m ;;;
  ret (UniqueLock (mtx_ l) true).
Definition try_lock (l : unique_lock) : K unique_lock :=
  gpcl_assert (negb (owns_lock_ l)) ;;;
  let! m := deref l in
  let! b := mutex_try_lock m in
  ret (UniqueLock (mtx_ l) b).
Definition unlock (l : unique_lock) : K unique_lock :=
  gpcl_assert (owns_lock_ l) ;;;
  let! m := deref l in
  mutex_unlock m ;;;
  ret (UniqueLock (mtx_ l) false).
Definition construct (fuel : nat) (m : Z) : K unique_lock := lock fuel (UniqueLock (Some m) false).
Definition construct_defer (m : Z) : unique_lock := UniqueLock (Some m) false.
Definition construct_adopt (m : Z) : unique_lock := UniqueLock (Some m) true.
Definition construct_try (m : Z) : K unique_lock := try_lock (UniqueLock (Some m) false).
Definition destruct_ (l : unique_lock) : K unit :=
  if owns_lock_ l then let! m := deref l in mutex_unlock m else ret tt.
Definition release (l : unique_lock) : K unique_lock :=
  gpcl_assert (owns_lock_ l) ;;;
  gpcl_assert (bool_decide (is_Some (mtx_ l))) ;;;
  ret (UniqueLock None false).
(** [operator=(unique_lock &&)] swaps. *)
Definition swap (l1 l2 : unique_lock) : unique_lock * unique_lock := (l2, l1).

(** ** lock.hpp *)

(** [try_lock_impl]: -1, or the index of the mutex that could not be locked. *)
Fixpoint try_lock_impl (index : Z) (ms : list Z) : K Z :=
  match ms with
  | [] => undef
  | [m1] => let! b := mutex_try_lock m1 in ret (if b : bool then -1 else index)
  | m1 :: ms =>
      let! lock1 := construct_try m1 in
      let! '(index, lock1) :=
        (if owns_lock_ lock1 then
           let! index := try_lock_impl (index + 1) ms in
           if index =? -1 then let! lock1 := release lock1 in ret (index, lock1) else ret (index, lock1)
         else ret (index, lock1)) in
      destruct_ lock1 ;;;
      ret index
  end.

Definition attempt_lock_two (fuel : nat) (m1 m2 : Z) : K bool :=
  let! lock1 := construct fuel m1 in
  let! b := mutex_try_lock m2 in
  if b : bool then let! lock1 := release lock1 in destruct_ lock1 ;;; ret true
  else destruct_ lock1 ;;; ret false.

(** [lock_impl(m1, m2)]. *)
Fixpoint lock_two (fuel : nat) (m1 m2 : Z) : K unit :=
  match fuel with
  | O => nofuel
  | S fuel' =>
      let! b1 := attempt_lock_two fuel m1 m2 in
      if b1 : bool then ret tt else
      let! b2 := attempt_lock_two fuel m2 m1 in
      if b2 : bool then ret tt else lock_two fuel' m1 m2
  end.
(** [unlock(ms...)]. *)
Fixpoint unlock_all (ms : list Z) : K unit :=
  match ms with [] => ret tt | m :: ms => mutex_unlock m ;;; unlock_all ms end.

(** ** scoped_lock of one or two mutexes *)

Definition scoped_lock (fuel : nat) (ms : list Z) : K unit :=
  match ms with
  | [m1] => mutex_lock fuel m1
  | [m1; m2] => lock_two fuel m1 m2
  | _ => undef
  end.
Definition scoped_unlock (ms : list Z) : K unit := unlock_all ms.

(** ** Runs *)

(** The mutex is free from time [n] on. *)
Definition free_from (n : nat) (m : Z) : Prop := ∀ t, (n ≤ t)%nat → others t m = false.

Lemma try_lock_run m s :
  m ∉ mine s →
  mutex_try_lock m s = (Ok (negb (others (clock s) m)),
    State (if others (clock s) m then mine s else {[m]} ∪ mine s) (S (clock s))).
Proof. intros Hm. unfold mutex_try_lock. rewrite decide_False by done. by destruct (others (clock s) m). Qed.
Lemma unlock_run m s : m ∈ mine s → mutex_unlock m s = (Ok tt, State (mine s ∖ {[m]}) (clock s)).
Proof. intros Hm. unfold mutex_unlock. by rewrite decide_True. Qed.

Lemma mutex_lock_run n m : ∀ fuel s,
  m ∉ mine s → free_from n m → (n - clock s < fuel)%nat →
  ∃ t, (clock s < t ≤ S (clock s `max` n))%nat ∧ mutex_lock fuel m s = (Ok tt, State ({[m]} ∪ mine s) t).
Proof.
  induction fuel as [|fuel IH]; intros s Hm Hf Hn; [lia|]. cbn.
  unfold bind at 1. rewrite (try_lock_run m s Hm). destruct (others (clock s) m) eqn:Ho; cbn [negb]; [|by exists (S (clock s)); split; [lia|]].
  destruct (decide (n ≤ clock s)%nat) as [Hle|Hle]; [by rewrite (Hf _ Hle) in Ho|].
  destruct (IH (State (mine s) (S (clock s)))) as (t & Ht & ->); [done|done|cbn; lia|].
  exists t; split; [cbn in Ht; lia|done].
Qed.

Lemma attempt_run n m1 m2 fuel s :
  m1 ∉ mine s → m2 ∉ mine s → m1 ≠ m2 → free_from n m1 → (n - clock s < fuel)%nat →
  ∃ t, (clock s < t ≤ S (clock s `max` n))%nat ∧
    attempt_lock_two fuel m1 m2 s =
      (Ok (negb (others t m2)), State (if others t m2 then mine s else {[m2]} ∪ ({[m1]} ∪ mine s)) (S t)).
Proof.
  intros H1 H2 Hne Hf Hn. destruct (mutex_lock_run n m1 fuel s H1 Hf Hn) as (t & Ht & Hl).
  exists t; split; [done|]. unfold attempt_lock_two, construct, lock. rewrite bind_assoc, bind_assert by done.
  cbn [deref mtx_]. rewrite bind_assoc, bind_ret_l, bind_assoc, (bind_ok _ _ _ _ _ Hl), bind_ret_l.
  rewrite (bind_ok _ _ _ _ _ (try_lock_run m2 (State ({[m1]} ∪ mine s) t) ltac:(cbn; set_solver))). cbn [mine clock].
  destruct (others t m2); cbn [negb].
  - unfold destruct_. cbn [owns_lock_]. rewrite bind_assoc. cbn [deref mtx_]. rewrite bind_ret_l.
    erewrite bind_ok; [|apply unlock_run; cbn; set_solver]. cbn. unfold ret. do 2 f_equal. set_solver.
  - unfold release. rewrite bind_assoc, bind_assert, bind_assoc, bind_assert by done. by rewrite bind_ret_l.
Qed.

(** What [try_lock_impl] leaves: every mutex locked, or none, with the index of the first
    one that another thread held. *)
Lemma try_all_run ms : ∀ index s,
  ms ≠ [] → NoDup ms → (∀ m, m ∈ ms → m ∉ mine s) → 0 ≤ index →
  ∃ t, (clock s < t)%nat ∧
    ((try_lock_impl index ms s = (Ok (-1), State (list_to_set ms ∪ mine s) t)) ∨
     (∃ k, (k < length ms)%nat ∧ try_lock_impl index ms s = (Ok (index + Z.of_nat k), State (mine s) t))).
Proof.
  induction ms as [|m ms IH]; intros index s Hne Hnd Hfresh Hidx; [done|].
  apply NoDup_cons in Hnd as [Hm Hnd]. assert (Hms : m ∉ mine s) by (apply Hfresh; by left).
  assert (Htry := try_lock_run m s Hms).
  destruct ms as [|m' ms'].
  { exists (S (clock s)); split; [lia|]. cbn [try_lock_impl]. rewrite (bind_ok _ _ _ _ _ Htry).
    destruct (others (clock s) m); cbn [negb ret].
    - right. exists 0%nat. split; [cbn; lia|]. unfold ret. by rewrite Z.add_0_r.
    - left. unfold ret. do 2 f_equal. cbn. set_solver. }
  remember (m' :: ms') as ms eqn:Hmseq.
  assert (Hunfold : try_lock_impl index (m :: ms) =
    (let! lock1 := construct_try m in
     let! '(index, lock1) :=
       (if owns_lock_ lock1 then
          let! index := try_lock_impl (index + 1) ms in
          if index =? -1 then let! lock1 := release lock1 in ret (index, lock1) else ret (index, lock1)
        else ret (index, lock1)) in
     destruct_ lock1 ;;;
     ret index)) by (by rewrite Hmseq).
  rewrite Hunfold. unfold construct_try, try_lock. rewrite bind_assoc, bind_assert by done.
  cbn [deref mtx_]. rewrite bind_assoc, bind_ret_l, bind_assoc, (bind_ok _ _ _ _ _ Htry), bind_ret_l. cbn [owns_lock_].
  destruct (others (clock s) m); cbn [negb].
  { exists (S (clock s)); split; [lia|]. right. exists 0%nat. split; [cbn; lia|]. by rewrite bind_ret_l, Z.add_0_r. }
  destruct (IH (index + 1) (State ({[m]} ∪ mine s) (S (clock s)))) as (t & Ht & Hrun);
    [by rewrite Hmseq|done| |lia|]; cbn [mine clock] in *.
  { intros x Hx. apply not_elem_of_union. split; [set_solver|]. apply Hfresh. by right. }
  exists t; split; [lia|]. destruct Hrun as [Hrun|(k & Hk & Hrun)].
  - left. rewrite bind_assoc, (bind_ok _ _ _ _ _ Hrun), Z.eqb_refl, bind_assoc. unfold release.
    rewrite !bind_assoc, bind_assert by done. rewrite bind_assoc, bind_assert by done.
    rewrite !bind_ret_l. cbn. unfold ret. do 2 f_equal. set_solver.
  - right. exists (S k). split; [cbn; lia|]. rewrite bind_assoc, (bind_ok _ _ _ _ _ Hrun).
    rewrite (proj2 (Z.eqb_neq _ _)), bind_ret_l by lia. unfold destruct_. cbn [owns_lock_].
    rewrite bind_assoc. cbn [deref mtx_]. rewrite bind_ret_l.
    erewrite bind_ok; [|apply unlock_run; cbn; set_solver]. cbn. unfold ret. f_equal; [f_equal; lia|]. f_equal. set_solver.
Qed.

Lemma lock_two_run n m1 m2 : m1 ≠ m2 → free_from n m1 → free_from n m2 → ∀ fuel s,
  m1 ∉ mine s → m2 ∉ mine s → (n - clock s < fuel)%nat →
  ∃ t, lock_two fuel m1 m2 s = (Ok tt, State ({[m1]} ∪ ({[m2]} ∪ mine s)) t).
Proof.
  intros Hne Hf1 Hf2. induction fuel as [|fuel IH]; intros s H1 H2 Hn; [lia|]. cbn [lock_two].
  destruct (attempt_run n m1 m2 (S fuel) s H1 H2 Hne Hf1 Hn) as (t1 & Ht1 & Ha1).
  rewrite (bind_ok _ _ _ _ _ Ha1). destruct (others t1 m2) eqn:Ho1; cbn [negb]; cycle 1.
  { eexists. unfold ret. do 2 f_equal. set_solver. }
  destruct (attempt_run n m2 m1 (S fuel) (State (mine s) (S t1))) as (t2 & Ht2 & Ha2); [done..|cbn; lia|].
  rewrite (bind_ok _ _ _ _ _ Ha2). cbn [mine clock] in *. destruct (others t2 m1) eqn:Ho2; cbn [negb]; cycle 1.
  { by eexists. }
  apply (IH (State (mine s) (S t2))); [done..|]. cbn.
  destruct (decide (n ≤ t2)%nat) as [Hle|Hle]; [by rewrite (Hf1 _ Hle) in Ho2|lia].
Qed.

(** C19: [lock(m1, m2)] does not deadlock: as soon as the other threads leave both
    mutexes alone it returns, in whatever order they held them before, and this thread
    holds both. *)
Theorem lock_two_terminates n m1 m2 s :
  m1 ≠ m2 → free_from n m1 → free_from n m2 → m1 ∉ mine s → m2 ∉ mine s →
  ∃ t, lock_two (S n) m1 m2 s = (Ok tt, State ({[m1; m2]} ∪ mine s) t).
Proof.
  intros Hne Hf1 Hf2 H1 H2. destruct (lock_two_run n m1 m2 Hne Hf1 Hf2 (S n) s H1 H2 ltac:(lia)) as (t & ->).
  exists t. do 2 f_equal. set_solver.
Qed.

(** [try_lock] of several mutexes is all or nothing. *)
Lemma try_lock_all_or_nothing ms s :
  ms ≠ [] → NoDup ms → (∀ m, m ∈ ms → m ∉ mine s) →
  ∃ r s', try_lock_impl 0 ms s = (Ok r, s') ∧
    (if r =? -1 then mine s' = list_to_set ms ∪ mine s else 0 ≤ r < Z.of_nat (length ms) ∧ mine s' = mine s).
Proof.
  intros Hne Hnd Hf. destruct (try_all_run ms 0 s Hne Hnd Hf ltac:(lia)) as (t & _ & [->|(k & Hk & ->)]).
  - eexists _, _; split; [done|]. done.
  - eexists _, _; split; [done|]. rewrite (proj2 (Z.eqb_neq _ _)) by lia. split; [lia|done].
Qed.

(** The end of a [scoped_lock] undoes its beginning. *)
Lemma scoped_lock_roundtrip n m1 m2 s :
  m1 ≠ m2 → free_from n m1 → free_from n m2 → m1 ∉ mine s → m2 ∉ mine s →
  ∃ t, (scoped_lock (S n) [m1; m2] ;;; scoped_unlock [m1; m2]) s = (Ok tt, State (mine s) t).
Proof.
  intros Hne Hf1 Hf2 H1 H2. destruct (lock_two_run n m1 m2 Hne Hf1 Hf2 (S n) s H1 H2 ltac:(lia)) as (t & Hr).
  exists t. cbn [scoped_lock]. rewrite (bind_ok _ _ _ _ _ Hr). unfold scoped_unlock, unlock_all.
  erewrite bind_ok; [|apply unlock_run; cbn; set_solver]. cbn [mine clock].
  erewrite bind_ok; [|apply unlock_run; cbn; set_solver]. unfold ret. do 2 f_equal. cbn. set_solver.
Qed.

(** A [unique_lock] that has been released leaves its mutex locked. *)
Lemma unique_lock_release_keeps n m s :
  free_from n m → m ∉ mine s →
  ∃ t, (let! l := construct (S n) m in let! l := release l in destruct_ l) s = (Ok tt, State ({[m]} ∪ mine s) t).
Proof.
  intros Hf Hm. destruct (mutex_lock_run n m (S n) s Hm Hf ltac:(lia)) as (t & _ & Hl). exists t.
  unfold construct, lock. rewrite bind_assoc, bind_assert by done. cbn [deref mtx_].
  rewrite bind_assoc, bind_ret_l, bind_assoc, (bind_ok _ _ _ _ _ Hl), bind_ret_l.
  unfold release. by rewrite bind_assoc, bind_assert, bind_assoc, bind_assert by done.
Qed.

End locks.

(** Another thread holds the mutex 2 until time 5 and the mutex 1 at time 6. *)
Definition busy (t : nat) (m : Z) : bool := ((m =? 2) && (t <? 5)%nat) || ((m =? 1) && (t =? 6)%nat).

Lemma lock_two_terminates_witness : ∃ t, lock_two busy 8 1 2 (State ∅ 0) = (Ok tt, State ({[1; 2]} ∪ ∅) t).
Proof.
  apply (lock_two_terminates busy 7 1 2 (State ∅ 0)); [done| | |set_solver..].
  - intros t Ht. unfold busy. by rewrite (proj2 (Nat.eqb_neq t 6)) by lia.
  - intros t Ht. unfold busy. by rewrite (proj2 (Nat.ltb_ge t 5)) by lia.
Defined.

Example lock_two_runs : clock (snd (lock_two busy 8 1 2 (State ∅ 0))) = 9%nat.
Proof. vm_compute. reflexivity. Qed.

End Locks.
