(* ===== verification/Monotonic.v ===== *)
(** * Monotonic buffer resource (pmr/monotonic_buffer_resource.hpp,
      pmr/impl/monotonic_buffer_resource.ipp, const_buffer.hpp)

    Memory is handed out from the front of a buffer and never taken back.  An exhausted
    buffer is replaced by a block from the upstream resource; behind its usable bytes a
    block holds the [block_info] of the block before it.  The upstream resource is a
    parameter: [MemoryResource] states what it promises about a new block. *)

From S2P Require Import Prelude.

Local Open Scope Z_scope.
Local Open Scope gpcl_scope.

(** The live memory, by address: size and alignment of each piece. *)
Abbreviation pieces := (gmap Z (Z * Z)).
(** [upstream_->allocate(bytes, alignment)]; [None] is an exception. *)
Class MemoryResource : Type := resource_allocate : pieces → Z → Z → option Z.
Class MemoryResourceOk `{!MemoryResource} : Prop :=
  resource_allocate_ok m n al p : resource_allocate m n al = Some p →
    0 < p ∧ p mod al = 0 ∧ n < 2 ^ 63 ∧ p + n ≤ 2 ^ 64 ∧ m !! p = None ∧
    ∀ q k a, m !! q = Some (k, a) → p + n ≤ q ∨ q + k ≤ p.

Module Monotonic.

Record mutable_buffer : Type := MutableBuffer { p_ : Z; s_ : Z }.
Record block_info : Type := BlockInfo { ptr : Z; size : Z; alignment : Z }.

Record state : Type := State {
  buffer_ : mutable_buffer;
  next_buffer_bytes_ : Z;
  block_list_ : block_info;
  infos : gmap Z block_info;   (* the copies of [block_list_] in memory *)
  live : pieces;               (* all memory that is in use *)
}.
Abbreviation R A := (M state A).

Definition sizeof_block_info : Z := 24.
Definition max_align : Z := 16.

(** [mutable_buffer::operator+=]. *)
Definition advance (b : mutable_buffer) (n : Z) : mutable_buffer :=
  if n <? s_ b then MutableBuffer (p_ b + n) (s_ b - n) else MutableBuffer 0 0.

Section monotonic.
Context {resource : MemoryResource}.

(** ** Upstream *)

Definition upstream_allocate (n al : Z) : R Z := λ s,
  match resource_allocate (live s) n al with
  | Some p => (Ok p, State (buffer_ s) (next_buffer_bytes_ s) (block_list_ s) (infos s)
                       (<[p := (n, al)]> (live s)))
  | None => (Throw bad_alloc, s)
  end.
Definition upstream_deallocate (p n al : Z) : R unit := λ s,
  if bool_decide (live s !! p = Some (n, al))
  then (Ok tt, State (buffer_ s) (next_buffer_bytes_ s) (block_list_ s) (infos s) (delete p (live s)))
  else (Undef, s).

Definition set_buffer (b : mutable_buffer) : R unit :=
  modify (λ s, State b (next_buffer_bytes_ s) (block_list_ s) (infos s) (live s)).
Definition set_next (n : Z) : R unit :=
  modify (λ s, State (buffer_ s) (u64 n) (block_list_ s) (infos s) (live s)).
Definition set_blocks (b : block_info) : R unit :=
  modify (λ s, State (buffer_ s) (next_buffer_bytes_ s) b (infos s) (live s)).
(** [std::memcpy] of a [block_info] to and from memory. *)
Definition store_info (a : Z) (b : block_info) : R unit :=
  modify (λ s, State (buffer_ s) (next_buffer_bytes_ s) (block_list_ s) (<[a := b]> (infos s)) (live s)).
Definition load_info (a : Z) : R block_info := λ s,
  match infos s !! a with Some b => (Ok b, s) | None => (Undef, s) end.

(** ** Members *)

(** The null pointer is 0. *)
Definition alloc_from_buffer (bytes al : Z) : R Z :=
  let! b := gets buffer_ in
  let off := p_ b mod al in
  let off := (al - off) mod al in
  if s_ b <? off then ret 0 else
  set_buffer (advance b off) ;;;
  let! b := gets buffer_ in
  if s_ b <? bytes then ret 0 else
  set_buffer (advance b bytes) ;;;
  ret (p_ b).

Definition request_from_upstream : R unit :=
  let! n := gets next_buffer_bytes_ in
  let! p := upstream_allocate (u64 (n + sizeof_block_info)) max_align in
  let! b := gets block_list_ in
  store_info (p + n) b ;;;
  set_blocks (BlockInfo p n max_align) ;;;
  set_buffer (MutableBuffer p n) ;;;
  set_next (n * 2).

Definition do_allocate (bytes al : Z) : R Z :=
  let! r := alloc_from_buffer bytes al in
  if negb (r =? 0) then ret r else
  let! n := gets next_buffer_bytes_ in
  (if n <? bytes then set_next (u64 (bytes + 15) / 16 * 16) else ret tt) ;;;
  request_from_upstream ;;;
  alloc_from_buffer bytes al.
(** [memory_resource::allocate]. *)
Definition allocate (bytes al : Z) : R Z :=
  let! r := do_allocate bytes al in
  gpcl_assert (r mod al =? 0) ;;;
  ret r.
Definition do_deallocate (p bytes al : Z) : R unit := ret tt.

Fixpoint release_loop (fuel : nat) : R unit :=
  match fuel with
  | O => nofuel
  | S fuel =>
      let! b := gets block_list_ in
      if ptr b =? 0 then ret tt else
      let! next := load_info (ptr b + size b) in
      upstream_deallocate (ptr b) (size b + sizeof_block_info) (alignment b) ;;;
      set_blocks next ;;;
      release_loop fuel
  end.
Definition release : R unit :=
  let! m := gets live in
  release_loop (S (base.size m)) ;;;
  let! b := gets block_list_ in
  gpcl_assert (ptr b =? 0) ;;;
  gpcl_assert (size b =? 0).
(** [~monotonic_buffer_resource]. *)
Definition destruct_ : R unit := release.

Definition no_block : block_info := BlockInfo 0 0 0.
(** The constructors, in memory [m]. *)
Definition construct_buffer (m : pieces) (p n : Z) : outcome unit * state :=
  (gpcl_assert (negb (p =? 0))) (State (MutableBuffer p n) 1024 no_block ∅ m).
Definition construct_size (m : pieces) (n : Z) : outcome unit * state :=
  (gpcl_assert (negb (n =? 0)) ;;; request_from_upstream)
    (State (MutableBuffer 0 0) n no_block ∅ m).
Definition construct_default (m : pieces) : outcome unit * state := construct_size m 1024.

(** ** Representation *)

(** A stretch of memory: its address and its length. *)
Definition apart (x y : Z * Z) : Prop := fst x + snd x ≤ fst y ∨ fst y + snd y ≤ fst x.
Definition inside (x y : Z * Z) : Prop := fst y ≤ fst x ∧ fst x + snd x ≤ fst y + snd y.
Fixpoint disjoint_all (l : list (Z * Z)) : Prop :=
  match l with [] => True | x :: l => Forall (apart x) l ∧ disjoint_all l end.

(** The blocks reached from [block_list_], latest first. *)
Fixpoint chain (inf : gmap Z block_info) (b : block_info) (bl : list (Z * Z)) : Prop :=
  match bl with
  | [] => b = no_block
  | (p, n) :: bl =>
      0 < p ∧ 0 ≤ n ∧ b = BlockInfo p n max_align ∧ ∃ b', inf !! (p + n) = Some b' ∧ chain inf b' bl
  end.
Definition piece (x : Z * Z) : Z * Z := (snd x + sizeof_block_info, max_align).
Fixpoint with_blocks (m0 : pieces) (bl : list (Z * Z)) : pieces :=
  match bl with [] => m0 | x :: bl => <[fst x := piece x]> (with_blocks m0 bl) end.
(** Each block was allocated while those after it in the list were live. *)
Fixpoint fresh_blocks (m0 : pieces) (bl : list (Z * Z)) : Prop :=
  match bl with
  | [] => True
  | x :: bl =>
      with_blocks m0 bl !! fst x = None ∧
      (∀ q k a, with_blocks m0 bl !! q = Some (k, a) → apart (fst x, fst (piece x)) (q, k)) ∧
      fresh_blocks m0 bl
  end.

(** [m0] is the memory others use, [user] the buffer the resource was given, if any, [bl]
    the blocks it has obtained and [al] what it has handed out. *)
Record rep (m0 : pieces) (user bl al : list (Z * Z)) (s : state) : Prop := {
  rep_chain : chain (infos s) (block_list_ s) bl;
  rep_live : live s = with_blocks m0 bl;
  rep_fresh : fresh_blocks m0 bl;
  rep_user x : x ∈ user → 0 < fst x ∧ ∃ k a, m0 !! fst x = Some (k, a) ∧ snd x ≤ k;
  rep_next : 0 ≤ next_buffer_bytes_ s ≤ 2 ^ 64 - 50;
  rep_size : 0 ≤ s_ (buffer_ s);
  rep_avail : s_ (buffer_ s) = 0 ∨ ∃ y, y ∈ user ++ bl ∧ inside (p_ (buffer_ s), s_ (buffer_ s)) y;
  rep_inside x : x ∈ al → 0 < fst x ∧ ∃ y, y ∈ user ++ bl ∧ inside x y;
  rep_disjoint : disjoint_all al;
  rep_unused x : x ∈ al → s_ (buffer_ s) = 0 ∨ apart x (p_ (buffer_ s), s_ (buffer_ s));
}.

Lemma blocks_pos inf b bl x : chain inf b bl → x ∈ bl → 0 < fst x.
Proof.
  revert b. induction bl as [|[p n] bl IH]; intros b; [by intros _ ?%elem_of_nil|].
  intros (Hp & _ & _ & b' & _ & Hc) [->|Hx]%elem_of_cons; [done|by eapply IH].
Qed.
Lemma with_blocks_old m0 bl q x : fresh_blocks m0 bl → m0 !! q = Some x → with_blocks m0 bl !! q = Some x.
Proof.
  induction bl as [|y bl IH]; cbn; [done|]. intros (Hn & _ & Hf) Hq. specialize (IH Hf Hq).
  rewrite lookup_insert_ne; [done|congruence].
Qed.
Lemma with_blocks_elem m0 bl x : fresh_blocks m0 bl → x ∈ bl → with_blocks m0 bl !! fst x = Some (piece x).
Proof.
  induction bl as [|y bl IH]; cbn; [by intros _ ?%elem_of_nil|]. intros (Hn & _ & Hf) [->|Hx]%elem_of_cons.
  - by rewrite lookup_insert_eq.
  - specialize (IH Hf Hx). rewrite lookup_insert_ne; [done|congruence].
Qed.

Lemma fresh_not_old m0 bl x : fresh_blocks m0 bl → x ∈ bl → m0 !! fst x ≠ None → False.
Proof.
  induction bl as [|y bl IH]; cbn; [by intros _ ?%elem_of_nil|].
  intros (Hn & _ & Hf) [->|Hx]%elem_of_cons Hm; [|by apply IH].
  destruct (m0 !! fst y) as [z|] eqn:Hz; [|done]. apply (with_blocks_old _ bl) in Hz; congruence.
Qed.

(** A new block lies apart from every area in use. *)
Lemma area_apart m0 user bl al s p n y :
  rep m0 user bl al s → 0 ≤ n →
  (∀ q k a, live s !! q = Some (k, a) → apart (p, n + sizeof_block_info) (q, k)) →
  y ∈ user ++ bl → apart (p, n) y.
Proof.
  intros H Hn Hp [Hy|Hy]%elem_of_app.
  - destruct (rep_user _ _ _ _ _ H y Hy) as (_ & k & a & Hk & Hle).
    apply (with_blocks_old _ bl) in Hk; [|apply H]. rewrite <- (rep_live _ _ _ _ _ H) in Hk.
    specialize (Hp _ _ _ Hk). unfold apart, sizeof_block_info in *. cbn in *. lia.
  - apply (with_blocks_elem m0) in Hy; [|apply H]. rewrite <- (rep_live _ _ _ _ _ H) in Hy.
    specialize (Hp _ _ _ Hy). unfold apart, sizeof_block_info in *. cbn in *. unfold sizeof_block_info in *. lia.
Qed.

Definition with_buffer (b : mutable_buffer) (s : state) : state :=
  State b (next_buffer_bytes_ s) (block_list_ s) (infos s) (live s).

Lemma advance_spec b n :
  0 ≤ n → 0 ≤ s_ b →
  0 ≤ s_ (advance b n) ∧
  (s_ (advance b n) = 0 ∨ n < s_ b ∧ p_ (advance b n) = p_ b + n ∧ s_ (advance b n) = s_ b - n).
Proof. intros Hn Hs. unfold advance. destruct (Z.ltb_spec n (s_ b)); cbn; lia. Qed.

(** Skipping the first [n] bytes of the buffer. *)
Lemma skip_rep m0 user bl al s n :
  0 ≤ n → rep m0 user bl al s → rep m0 user bl al (with_buffer (advance (buffer_ s) n) s).
Proof.
  intros Hn H. destruct (advance_spec (buffer_ s) n Hn (rep_size _ _ _ _ _ H)) as [Hs Ha].
  split; cbn; try apply H; try done.
  - destruct Ha as [Ha|(Hlt & Hp & Hl)]; [by left|right].
    destruct (rep_avail _ _ _ _ _ H) as [?|(y & Hy & Hi)]; [lia|]. exists y; split; [done|].
    unfold inside in *. cbn in *. lia.
  - intros x Hx. destruct Ha as [Ha|(Hlt & Hp & Hl)]; [by left|right].
    destruct (rep_unused _ _ _ _ _ H x Hx) as [?|Hu]; [lia|]. unfold apart in *. cbn in *. lia.
Qed.

(** Handing out the first [n] bytes. *)
Lemma take_rep m0 user bl al s n (b := buffer_ s) :
  0 < n ≤ s_ b → rep m0 user bl al s →
  0 < p_ b ∧ rep m0 user bl ((p_ b, n) :: al) (with_buffer (advance b n) s).
Proof.
  intros Hn H. unfold b in *.
  destruct (rep_avail _ _ _ _ _ H) as [?|(y & Hy & Hi)]; [lia|].
  assert (Hypos : 0 < fst y).
  { apply elem_of_app in Hy as [Hy|Hy]; [by apply (rep_user _ _ _ _ _ H)|].
    eapply blocks_pos; [apply (rep_chain _ _ _ _ _ H)|done]. }
  assert (Hpos : 0 < p_ (buffer_ s)) by (unfold inside in Hi; cbn in Hi; lia).
  split; [done|]. assert (Hk := skip_rep m0 user bl al s n ltac:(lia) H).
  destruct (advance_spec (buffer_ s) n ltac:(lia) (rep_size _ _ _ _ _ H)) as [Hs Ha].
  split; try apply Hk.
  - intros x [->|Hx]%elem_of_cons; [|by apply (rep_inside _ _ _ _ _ Hk)]. split; [done|]. exists y; split; [done|].
    unfold inside in *. cbn in *. lia.
  - split; [|apply H]. apply Forall_forall. intros x Hx.
    destruct (rep_unused _ _ _ _ _ H x Hx) as [?|Hu]; [lia|]. unfold apart in *. cbn in *. lia.
  - intros x [->|Hx]%elem_of_cons; [|by apply (rep_unused _ _ _ _ _ Hk)].
    cbn [buffer_ with_buffer]. destruct Ha as [Ha|(Hlt & Hp & Hl)]; [by left|right].
    unfold apart. cbn. lia.
Qed.

Lemma align_off p al : 0 < al → 0 ≤ (al - p mod al) mod al < al ∧ (p + (al - p mod al) mod al) mod al = 0.
Proof.
  intros Hal. split; [by apply Z.mod_pos_bound|]. rewrite Zplus_mod_idemp_r.
  replace (p + (al - p mod al)) with (p - p mod al + 1 * al) by lia.
  rewrite Z.mod_add, Zminus_mod_idemp_r, Z.sub_diag by lia. apply Z.mod_0_l. lia.
Qed.

(** The result of [alloc_from_buffer]: null, or the next aligned address. *)
Lemma alloc_run m0 user bl al s bytes a :
  0 < bytes → 0 < a → rep m0 user bl al s →
  ∃ r b', alloc_from_buffer bytes a s = (Ok r, with_buffer b' s) ∧
    ((r = 0 ∧ rep m0 user bl al (with_buffer b' s) ∧
      s_ (buffer_ s) < (a - p_ (buffer_ s) mod a) mod a + bytes) ∨
     (0 < r ∧ r mod a = 0 ∧ rep m0 user bl ((r, bytes) :: al) (with_buffer b' s))).
Proof.
  intros Hb Ha H. destruct (align_off (p_ (buffer_ s)) a Ha) as [Hoff Hal].
  set (off := (a - p_ (buffer_ s) mod a) mod a) in *.
  unfold alloc_from_buffer. rewrite bind_gets. fold off.
  destruct (Z.ltb_spec (s_ (buffer_ s)) off) as [Hs|Hs].
  { exists 0, (buffer_ s). split; [by destruct s|]. left. split; [done|]. split; [by destruct s|lia]. }
  unfold set_buffer. rewrite bind_modify, bind_gets. cbn [buffer_].
  assert (Hk := skip_rep m0 user bl al s off ltac:(lia) H).
  destruct (advance_spec (buffer_ s) off ltac:(lia) (rep_size _ _ _ _ _ H)) as [Hs' Hadv].
  set (b1 := advance (buffer_ s) off) in *.
  destruct (Z.ltb_spec (s_ b1) bytes) as [Hlt|Hge].
  { exists 0, b1. split; [done|]. left. split; [done|]. split; [done|]. unfold b1, advance in *.
    destruct (Z.ltb_spec off (s_ (buffer_ s))); cbn in *; lia. }
  destruct Hadv as [?|(Hlt & Hp & Hl)]; [lia|].
  destruct (take_rep m0 user bl al (with_buffer b1 s) bytes ltac:(cbn; lia) Hk) as [Hpos Ht]. cbn in Hpos, Ht.
  exists (p_ b1), (advance b1 bytes). rewrite bind_modify. split; [done|]. right. split; [done|].
  split; [by rewrite Hp|exact Ht].
Qed.

Lemma infos_frame inf b bl a v :
  (∀ x, x ∈ bl → fst x + snd x ≠ a) → chain inf b bl → chain (<[a := v]> inf) b bl.
Proof.
  revert b. induction bl as [|[p n] bl IH]; intros b Hne; [done|].
  intros (Hp & Hn & -> & b' & Hb & Hc). split; [done|]. split; [done|]. split; [done|]. exists b'. split.
  - rewrite lookup_insert_ne; [done|]. intros Heq. apply (Hne (p, n)); [by left|cbn; lia].
  - apply IH; [|done]. intros x Hx. apply Hne. by right.
Qed.
Lemma blocks_sizes inf b bl x : chain inf b bl → x ∈ bl → 0 ≤ snd x.
Proof.
  revert b. induction bl as [|[p n] bl IH]; intros b; [by intros _ ?%elem_of_nil|].
  intros (_ & Hn & _ & b' & _ & Hc) [->|Hx]%elem_of_cons; [done|by eapply IH].
Qed.

(** [request_from_upstream] replaces the buffer by a new block, or throws. *)
Lemma request_run {ok : MemoryResourceOk} m0 user bl al s (n := next_buffer_bytes_ s) :
  rep m0 user bl al s →
  match request_from_upstream s with
  | (Ok _, s') => ∃ p, 0 < p ∧ p mod max_align = 0 ∧ buffer_ s' = MutableBuffer p n ∧
                       rep m0 user ((p, n) :: bl) al s'
  | (Throw e, s') => e = bad_alloc ∧ s' = s
  | _ => False
  end.
Proof.
  intros H. assert (Hn : 0 ≤ n ≤ 2 ^ 64 - 50) by apply H.
  unfold request_from_upstream. rewrite bind_gets. fold n.
  rewrite (u64_small (n + sizeof_block_info)) by (unfold sizeof_block_info; lia).
  unfold bind at 1, upstream_allocate.
  destruct (resource_allocate (live s) (n + sizeof_block_info) max_align) as [p|] eqn:Hr; [|done].
  apply resource_allocate_ok in Hr as (Hp & Hmod & Hmax & Hend & Hfree & Hapart).
  rewrite bind_gets. unfold store_info, set_blocks, set_buffer, set_next. rewrite !bind_modify.
  unfold modify. cbn [buffer_ next_buffer_bytes_ block_list_ infos live].
  exists p. split; [done|]. split; [done|]. split; [done|].
  assert (Hnew : ∀ q k a, with_blocks m0 bl !! q = Some (k, a) → apart (p, n + sizeof_block_info) (q, k)).
  { intros q k a Hq. rewrite <- (rep_live _ _ _ _ _ H) in Hq. exact (Hapart _ _ _ Hq). }
  assert (Harea : ∀ y, y ∈ user ++ bl → apart (p, n) y).
  { intros y Hy. eapply (area_apart m0 user bl al s); [done|lia|exact Hapart|done]. }
  split; cbn; try apply H.
  - split; [done|]. split; [lia|]. split; [done|]. exists (block_list_ s). split; [by rewrite lookup_insert_eq|].
    apply infos_frame; [|apply H]. intros x Hx Heq.
    assert (Hx0 := blocks_sizes _ _ _ x (rep_chain _ _ _ _ _ H) Hx).
    specialize (Hnew _ _ _ (with_blocks_elem m0 bl x (rep_fresh _ _ _ _ _ H) Hx)).
    unfold apart, sizeof_block_info in Hnew. cbn in Hnew. lia.
  - by rewrite (rep_live _ _ _ _ _ H).
  - split; [by rewrite <- (rep_live _ _ _ _ _ H)|]. split; [exact Hnew|apply H].
  - unfold sizeof_block_info in Hmax. rewrite u64_small by lia. lia.
  - right. exists (p, n). split; [apply elem_of_app; right; by left|]. unfold inside. cbn. lia.
  - intros x Hx. destruct (rep_inside _ _ _ _ _ H x Hx) as [? (y & Hy & Hi)]. split; [done|]. exists y; split; [set_solver|done].
  - intros x Hx. right. destruct (rep_inside _ _ _ _ _ H x Hx) as [? (y & Hy & Hi)].
    specialize (Harea y Hy). unfold apart, inside in *. cbn in *. lia.
Qed.

Lemma rep_set_next m0 user bl al s n :
  0 ≤ n ≤ 2 ^ 64 - 50 → rep m0 user bl al s →
  rep m0 user bl al (State (buffer_ s) n (block_list_ s) (infos s) (live s)).
Proof. intros Hn H. split; cbn; try apply H; done. Qed.

(** Requests that the resource can satisfy from one block. *)
Definition request_ok (bytes a : Z) : Prop := 0 < bytes < 2 ^ 63 ∧ 0 < a ∧ (a | max_align).

Lemma request_served {ok : MemoryResourceOk} m0 user bl al s bytes a :
  request_ok bytes a → rep m0 user bl al s →
  match allocate bytes a s with
  | (Ok r, s') => 0 < r ∧ r mod a = 0 ∧ ∃ bl', rep m0 user bl' ((r, bytes) :: al) s'
  | (Throw e, s') => e = bad_alloc ∧ rep m0 user bl al s'
  | _ => False
  end.
Proof.
  intros (Hb & Ha & Hdiv) H. unfold allocate, do_allocate.
  destruct (alloc_run m0 user bl al s bytes a ltac:(lia) Ha H) as (r & b' & Hr & Hcase).
  rewrite bind_assoc, (bind_ok _ _ _ _ _ Hr). destruct Hcase as [(-> & Hrep & _)|(Hpos & Hmod & Hrep)]; cycle 1.
  { rewrite (proj2 (Z.eqb_neq r 0)) by lia. cbn [negb]. rewrite bind_ret_l, bind_assert by (by rewrite Hmod). unfold ret. eauto. }
  rewrite Z.eqb_refl. cbn [negb]. rewrite bind_assoc, bind_gets. cbn [next_buffer_bytes_ with_buffer].
  set (n := next_buffer_bytes_ s). assert (Hn : 0 ≤ n ≤ 2 ^ 64 - 50) by apply H.
  set (n' := if n <? bytes then (bytes + 15) / 16 * 16 else n).
  assert (Hround : bytes ≤ (bytes + 15) / 16 * 16 ≤ bytes + 15).
  { pose proof (Z.div_mod (bytes + 15) 16 ltac:(lia)). pose proof (Z.mod_pos_bound (bytes + 15) 16 ltac:(lia)). lia. }
  assert (Hn' : bytes ≤ n' ≤ 2 ^ 64 - 50) by (unfold n'; destruct (Z.ltb_spec n bytes); lia).
  set (s1 := State b' n' (block_list_ s) (infos s) (live s)).
  assert (Hset : (if n <? bytes then set_next (u64 (bytes + 15) / 16 * 16) else ret tt) (with_buffer b' s) = (Ok tt, s1)).
  { unfold s1, n'. destruct (Z.ltb_spec n bytes); [|done]. rewrite (u64_small (bytes + 15)) by lia.
    unfold set_next, modify, with_buffer. cbn. by rewrite u64_small by lia. }
  rewrite bind_assoc, (bind_ok _ _ _ _ _ Hset).
  assert (Hrep1 : rep m0 user bl al s1) by (exact (rep_set_next _ _ _ _ (with_buffer b' s) n' ltac:(lia) Hrep)).
  pose proof (request_run m0 user bl al s1 Hrep1) as Hreq. rewrite bind_assoc. unfold bind at 1.
  destruct (request_from_upstream s1) as [[[]|e| | |] s2]; [|by destruct Hreq as [-> ->]|done..].
  destruct Hreq as (p & Hp & Hpm & Hbuf & Hrep2). cbn [next_buffer_bytes_ s1] in Hbuf.
  destruct (alloc_run m0 user _ al s2 bytes a ltac:(lia) Ha Hrep2) as (r & b2 & Hr2 & [(-> & _ & Hsmall)|(Hpos & Hmod & Hrep3)]).
  - exfalso. rewrite Hbuf in Hsmall. cbn in Hsmall. destruct Hdiv as [k Hk].
    assert (Hpa : p mod a = 0).
    { apply Z.mod_divide; [lia|]. apply (Z.divide_trans _ max_align); [by exists k|]. apply Z.mod_divide; [unfold max_align; lia|done]. }
    rewrite Hpa, Z.sub_0_r, Z.mod_same in Hsmall by lia. lia.
  - rewrite (bind_ok _ _ _ _ _ Hr2), bind_assert by (by rewrite Hmod). unfold ret. eauto.
Qed.

(** ** Release *)

Lemma release_loop_run m0 : ∀ bl fuel s,
  (length bl < fuel)%nat → chain (infos s) (block_list_ s) bl → live s = with_blocks m0 bl → fresh_blocks m0 bl →
  release_loop fuel s = (Ok tt, State (buffer_ s) (next_buffer_bytes_ s) no_block (infos s) m0).
Proof.
  induction bl as [|[p n] bl IH]; intros [|fuel] s Hf Hc Hl Hfr; cbn in Hf; try lia; cbn [release_loop]; rewrite bind_gets.
  - cbn in Hc, Hl. rewrite Hc. destruct s as [b k bl' inf lv]. cbn in *. by subst.
  - destruct Hc as (Hp & Hn & Hb & b' & Hinf & Hc). destruct Hfr as (Hnone & _ & Hfr). rewrite Hb. cbn [ptr size alignment].
    rewrite (proj2 (Z.eqb_neq p 0)) by lia. unfold bind at 1, load_info. rewrite Hinf.
    unfold bind at 1, upstream_deallocate. rewrite bool_decide_true by (rewrite Hl; cbn; by rewrite lookup_insert_eq).
    unfold set_blocks. rewrite bind_modify. cbn [buffer_ next_buffer_bytes_ infos live].
    rewrite IH; cbn [infos block_list_ live buffer_ next_buffer_bytes_]; [done|lia|done| |done].
    rewrite Hl. cbn. by rewrite delete_insert_id.
Qed.
Lemma length_with_blocks m0 bl : fresh_blocks m0 bl → (length bl ≤ base.size (with_blocks m0 bl))%nat.
Proof.
  induction bl as [|x bl IH]; cbn; [lia|]. intros (Hn & _ & Hf). rewrite map_size_insert_None by done.
  specialize (IH Hf). lia.
Qed.

Lemma release_gives_back m0 user bl al s :
  rep m0 user bl al s →
  release s = (Ok tt, State (buffer_ s) (next_buffer_bytes_ s) no_block (infos s) m0).
Proof.
  intros H. unfold release. rewrite bind_gets. erewrite bind_ok; [|eapply (release_loop_run m0 bl)]; try apply H.
  - rewrite bind_gets. cbn [block_list_]. by rewrite bind_assert.
  - rewrite (rep_live _ _ _ _ _ H). pose proof (length_with_blocks m0 bl (rep_fresh _ _ _ _ _ H)). lia.
Qed.

(** ** Clients *)

(** A sequence of requests; the pieces handed out, latest first. *)
Fixpoint allocate_all (reqs : list (Z * Z)) (got : list (Z * Z)) : R (list (Z * Z)) :=
  match reqs with
  | [] => ret got
  | (bytes, a) :: reqs => let! p := allocate bytes a in allocate_all reqs ((p, bytes) :: got)
  end.

Lemma allocate_all_run {ok : MemoryResourceOk} m0 user : ∀ reqs bl al s,
  Forall (λ r, request_ok (fst r) (snd r)) reqs → rep m0 user bl al s →
  match allocate_all reqs al s with
  | (Ok got, s') => length got = (length reqs + length al)%nat ∧ ∃ bl', rep m0 user bl' got s'
  | (Throw e, s') => e = bad_alloc ∧ ∃ bl' al', rep m0 user bl' al' s'
  | _ => False
  end.
Proof.
  induction reqs as [|[bytes a] reqs IH]; intros bl al s Hr H; cbn [allocate_all]; [by unfold ret; eauto|].
  apply Forall_cons in Hr as [Hreq Hr]. pose proof (request_served m0 user bl al s bytes a Hreq H) as Ha.
  unfold bind. destruct (allocate bytes a s) as [[p|e| | |] s1]; [|by destruct Ha as [-> ?]; eauto|done..].
  destruct Ha as (_ & _ & bl' & H'). specialize (IH bl' _ s1 Hr H').
  destruct (allocate_all reqs _ s1) as [[got|e| | |] s2]; try done. destruct IH as [-> IH]. split; [cbn; lia|done].
Qed.

Lemma construct_buffer_rep m p n k a :
  0 < p → 0 ≤ n → m !! p = Some (k, a) → n ≤ k → rep m [(p, n)] [] [] (snd (construct_buffer m p n)).
Proof.
  intros Hp Hn Hm Hk. unfold construct_buffer. rewrite (proj2 (Z.eqb_neq p 0)) by lia.
  split; cbn; try done; try lia; try (by intros x ?%elem_of_nil).
  - intros x Hx. apply list_elem_of_singleton in Hx as ->. cbn. eauto.
  - right. exists (p, n). split; [by left|]. unfold inside. cbn. lia.
Qed.

(** C20: A client constructs a resource over a buffer and makes requests of [0 < bytes < 2^63] at
    alignments that divide 16, without calling [release].  What it gets lies in that buffer or in
    blocks of the upstream resource, no two pieces overlap, and the destructor gives exactly
    the blocks back; when the upstream resource is exhausted [bad_alloc] is thrown and the
    destructor gives the blocks back all the same. *)
Theorem monotonic_allocations {ok : MemoryResourceOk} m p n k a reqs :
  0 < p → 0 ≤ n → m !! p = Some (k, a) → n ≤ k →
  Forall (λ r, request_ok (fst r) (snd r)) reqs →
  match allocate_all reqs [] (snd (construct_buffer m p n)) with
  | (Ok got, s') =>
      length got = length reqs ∧ disjoint_all got ∧
      (∀ x, x ∈ got → inside x (p, n) ∨ ∃ q z, live s' !! q = Some z ∧ m !! q = None ∧ inside x (q, fst z)) ∧
      live (snd (destruct_ s')) = m ∧ fst (destruct_ s') = Ok tt
  | (Throw e, s') => e = bad_alloc ∧ live (snd (destruct_ s')) = m ∧ fst (destruct_ s') = Ok tt
  | _ => False
  end.
Proof.
  intros Hp Hn Hm Hk Hr.
  pose proof (allocate_all_run m [(p, n)] reqs [] [] _ Hr (construct_buffer_rep m p n k a Hp Hn Hm Hk)) as Hrun.
  unfold destruct_. destruct (allocate_all reqs [] _) as [[got|e| | |] s']; try done.
  - destruct Hrun as [Hlen (bl' & H)]. rewrite (release_gives_back _ _ _ _ _ H). cbn [length] in Hlen.
    split; [lia|]. split; [apply H|]. split; [|done]. intros x Hx.
    destruct (rep_inside _ _ _ _ _ H x Hx) as [_ (y & [Hy|Hy]%elem_of_app & Hi)].
    { apply list_elem_of_singleton in Hy as ->. by left. }
    right. exists (fst y), (piece y). rewrite (rep_live _ _ _ _ _ H).
    split; [by apply with_blocks_elem; [apply H|]|]. split; [|unfold inside, piece, sizeof_block_info in *; cbn in *; lia].
    destruct (m !! fst y) as [z|] eqn:Hz; [exfalso|done]. eapply fresh_not_old; [apply (rep_fresh _ _ _ _ _ H)|done|by rewrite Hz].
  - destruct Hrun as [-> (bl' & al' & H)]. by rewrite (release_gives_back _ _ _ _ _ H).
Qed.

End monotonic.

(** ** An upstream resource that never reuses an address below a live piece *)

Definition top (m : pieces) : Z := map_fold (λ q x z, Z.max (Z.max q (q + fst x)) z) 0 m.
#[export] Instance bump_resource : MemoryResource := λ m n al,
  let p := al * (top m / al + 1) in
  if (0 <? al) && (n <? 2 ^ 63) && (p + n <=? 2 ^ 64) then Some p else None.

Lemma top_spec m : 0 ≤ top m ∧ ∀ q k a, m !! q = Some (k, a) → q ≤ top m ∧ q + k ≤ top m.
Proof.
  unfold top. apply (map_fold_weak_ind (λ z m, 0 ≤ z ∧ ∀ q k a, m !! q = Some (k, a) → q ≤ z ∧ q + k ≤ z)).
  - split; [lia|]. intros q k a Hq. by rewrite lookup_empty in Hq.
  - intros i x m' r Hi [Hr IH]. split; [lia|]. intros q k a.
    destruct (decide (i = q)) as [<-|Hne]; [rewrite lookup_insert_eq; intros [= ->]; cbn; lia|].
    rewrite lookup_insert_ne by done. intros Hq%IH. lia.
Qed.
#[export] Instance bump_resource_ok : MemoryResourceOk.
Proof.
  intros m n al p. unfold resource_allocate, bump_resource.
  destruct (Z.ltb_spec 0 al) as [Hal|]; [|done]. destruct (Z.ltb_spec n (2 ^ 63)) as [Hn|]; [|done].
  destruct (Z.leb_spec (al * (top m / al + 1) + n) (2 ^ 64)) as [He|]; [|done]. intros [= <-].
  destruct (top_spec m) as [Ht Hm].
  assert (Hgt : top m < al * (top m / al + 1)).
  { pose proof (Z.div_mod (top m) al ltac:(lia)). pose proof (Z.mod_pos_bound (top m) al ltac:(lia)). lia. }
  split; [lia|]. split; [by rewrite Z.mul_comm, Z.mod_mul by lia|]. split; [done|]. split; [done|]. split.
  - destruct (m !! (al * (top m / al + 1))) as [[k a]|] eqn:Hq; [|done]. apply Hm in Hq. lia.
  - intros q k a Hq%Hm. lia.
Qed.

Definition memory0 : pieces := {[ 16 := (64, 16) ]}.
Definition requests : list (Z * Z) := [(40, 8); (100, 16); (8, 4)].

(** The first request is served from the buffer, the others from a block. *)
Example monotonic_runs :
  fst (allocate_all requests [] (snd (construct_buffer memory0 16 64))) = Ok [(196, 8); (96, 100); (16, 40)].
Proof. vm_compute. reflexivity. Qed.

Lemma monotonic_allocations_witness :
  disjoint_all [(196, 8); (96, 100); (16, 40)] ∧
  live (snd (destruct_ (snd (allocate_all requests [] (snd (construct_buffer memory0 16 64)))))) = memory0.
Proof.
  assert (Hr : Forall (λ r, request_ok (fst r) (snd r)) requests).
  { unfold requests, request_ok, max_align.
    constructor; [split; [cbn; lia|split; [cbn; lia|by exists 2]]|].
    constructor; [split; [cbn; lia|split; [cbn; lia|by exists 1]]|].
    constructor; [split; [cbn; lia|split; [cbn; lia|by exists 4]]|constructor]. }
  pose proof (monotonic_allocations memory0 16 64 64 16 requests ltac:(lia) ltac:(lia) eq_refl ltac:(lia) Hr) as H.
  pose proof monotonic_runs as E. destruct (allocate_all _ _ _) as [r s']. cbn in E. subst r.
  destruct H as (_ & Hd & _ & Hl & _). split; [exact Hd|exact Hl].
Defined.

(** After [release] the resource still hands out the memory it has given back. *)
Example monotonic_release_dangles :
  (let! _ := release in let! p := allocate 8 8 in let! m := gets live in ret (p, m !! p))
    (snd (construct_default ∅)) = (Ok (16, None), snd ((release ;;; allocate 8 8) (snd (construct_default ∅)))).
Proof. vm_compute. reflexivity. Qed.

(** A request aligned more strictly than the blocks can end with a null pointer and no
    exception. *)
Example monotonic_overaligned_null :
  fst (allocate 2048 64 (snd (construct_default ∅))) = Ok 0.
Proof. vm_compute. reflexivity. Qed.

(** The size of the block for a huge request wraps around: the client gets a pointer to
    eight bytes. *)
Example monotonic_huge_wraps :
  (let! p := allocate (2 ^ 64 - 20) 8 in let! m := gets live in ret (p, m !! p))
    (snd (construct_buffer memory0 16 64)) =
  (Ok (96, Some (8, 16)), snd (allocate (2 ^ 64 - 20) 8 (snd (construct_buffer memory0 16 64)))).
Proof. vm_compute. reflexivity. Qed.

End Monotonic.
