(* ===== verification/Buffers.v ===== *)
(** * Buffers and sequences of buffers (const_buffer.hpp, buffer.hpp, buffer_sequence.hpp,
      buffer_iterator.hpp, buffer_size.hpp, buffer_to_string.hpp,
      detail/native_buffer_sequence.hpp)

    A buffer is an address and a size; a sequence is a list of them.  The bytes are read from
    a memory, and reading where nothing is mapped is undefined.  The sequence can be read as
    a string, byte by byte through an iterator, or by the operating system, which takes a
    list of [iovec]: the three agree, the iterator as long as no buffer is empty. *)

From S2P Require Import Prelude Monotonic.

Local Open Scope Z_scope.
Local Open Scope gpcl_scope.

Module Buffers.

Abbreviation bytes := (gmap Z Z).

(** ** One buffer *)

Record const_buffer : Type := ConstBuffer { p_ : Z; s_ : Z }.
Definition empty_buffer : const_buffer := ConstBuffer 0 0.
(** [const_buffer::operator+=]. *)
Definition advance (b : const_buffer) (n : Z) : const_buffer :=
  if n <? s_ b then ConstBuffer (p_ b + n) (s_ b - n) else ConstBuffer 0 0.
Definition of_mutable (b : Monotonic.mutable_buffer) : const_buffer :=
  ConstBuffer (Monotonic.p_ b) (Monotonic.s_ b).

(** A contiguous container: [data()], [size()] and the size of an element. *)
Record container : Type := Container { data : Z; size : Z; element : Z }.
Definition make_buffer (c : container) : const_buffer :=
  ConstBuffer (data c) (u64 (size c * element c)).

(** [std::string::append(data, size)] reads so many bytes. *)
Fixpoint load (m : bytes) (a : Z) (n : nat) : outcome (list Z) :=
  match n with
  | O => Ok []
  | S n => match m !! a with
           | Some v => let? vs := load m (a + 1) n in Ok (v :: vs)
           | None => Undef
           end
  end.
Definition contents (m : bytes) (b : const_buffer) : outcome (list Z) := load m (p_ b) (Z.to_nat (s_ b)).

(** ** Size and string *)

Definition buffer_size (bs : list const_buffer) : Z :=
  foldl (λ total b, u64 (total + s_ b)) 0 bs.

(** [max_size] is the one of [std::string]; [reserve] and [append] throw above it. *)
Fixpoint append_all (max_size : Z) (m : bytes) (bs : list const_buffer) (result : list Z) :
    outcome (list Z) :=
  match bs with
  | [] => Ok result
  | b :: bs =>
      if max_size - Z.of_nat (length result) <? s_ b then Throw length_error else
      let? vs := contents m b in append_all max_size m bs (result ++ vs)
  end.
Definition buffer_to_string (max_size : Z) (m : bytes) (bs : list const_buffer) : outcome (list Z) :=
  if max_size <? buffer_size bs then Throw length_error else append_all max_size m bs [].

(** ** The iterator over the bytes *)

Record buffers_iterator : Type := It { curr_buf : nat; byte_pos : Z }.
#[export] Instance buffers_iterator_eq_dec : EqDecision buffers_iterator.
Proof. solve_decision. Defined.
Definition buffers_begin (bs : list const_buffer) : buffers_iterator := It 0 0.
Definition buffers_end (bs : list const_buffer) : buffers_iterator := It (length bs) 0.
Definition deref (m : bytes) (bs : list const_buffer) (i : buffers_iterator) : outcome Z :=
  match bs !! curr_buf i with
  | Some b => match m !! (p_ b + byte_pos i) with Some v => Ok v | None => Undef end
  | None => Undef
  end.
Definition increment (bs : list const_buffer) (i : buffers_iterator) : outcome buffers_iterator :=
  let pos := u64 (byte_pos i + 1) in
  match bs !! curr_buf i with
  | Some b => Ok (if s_ b <=? pos then It (S (curr_buf i)) 0 else It (curr_buf i) pos)
  | None => Undef
  end.
(** The postfix operator returns the old iterator. *)
Definition post_increment (bs : list const_buffer) (i : buffers_iterator) :
    outcome (buffers_iterator * buffers_iterator) :=
  let? j := increment bs i in Ok (i, j).
Definition iterator_eq (i j : buffers_iterator) : bool :=
  (curr_buf i =? curr_buf j)%nat && (byte_pos i =? byte_pos j).
Definition iterator_ne (i j : buffers_iterator) : bool := negb (iterator_eq i j).

(** A loop from [i] to the end that collects the bytes. *)
Fixpoint walk (fuel : nat) (m : bytes) (bs : list const_buffer) (i : buffers_iterator) :
    outcome (list Z) :=
  match fuel with
  | O => NoFuel
  | S fuel =>
      if iterator_ne i (buffers_end bs) then
        let? v := deref m bs i in
        let? j := increment bs i in
        let? vs := walk fuel m bs j in Ok (v :: vs)
      else Ok []
  end.

(** ** What the operating system is given *)

Record iovec : Type := IoVec { iov_base : Z; iov_len : Z }.
Fixpoint fill (io : nat) (bs : list const_buffer) (iov : list iovec) : outcome (list iovec) :=
  match bs with
  | [] => Ok iov
  | b :: bs =>
      if (io <? length iov)%nat then fill (S io) bs (<[io := IoVec (p_ b) (s_ b)]> iov) else Undef
  end.
Definition native_buffer_sequence (bs : list const_buffer) : outcome (list iovec) :=
  fill 0 bs (replicate (length bs) (IoVec 0 0)).
Definition native_of_buffer (b : const_buffer) : list iovec := [IoVec (p_ b) (s_ b)].
(** [writev]: the buffers are read in the order of the list. *)
Fixpoint gather (m : bytes) (iov : list iovec) : outcome (list Z) :=
  match iov with
  | [] => Ok []
  | v :: iov => let? x := load m (iov_base v) (Z.to_nat (iov_len v)) in let? y := gather m iov
    in Ok (x ++ y)
  end.

(** ** Properties *)

Fixpoint total (bs : list const_buffer) : Z :=
  match bs with [] => 0 | b :: bs => s_ b + total bs end.
(** Every buffer is readable. *)
Definition readable (m : bytes) (b : const_buffer) (s : list Z) : Prop :=
  0 ≤ s_ b ∧ contents m b = Ok s.

Lemma load_length m a n s : load m a n = Ok s → length s = n.
Proof.
  revert a s. induction n as [|n IH]; intros a s; cbn; [by intros [= <-]|].
  destruct (m !! a); [|done]. destruct (load m (a + 1) n) eqn:E; try done. cbn. intros [= <-]. cbn.
  f_equal. by eapply IH.
Qed.
Lemma load_lookup m a n s k v : load m a n = Ok s → s !! k = Some v → m !! (a + Z.of_nat k) = Some v.
Proof.
  revert a s k. induction n as [|n IH]; intros a s k; cbn; [by intros [= <-]|].
  destruct (m !! a) eqn:Ea; [|done]. destruct (load m (a + 1) n) eqn:E; try done. cbn.
  intros [= <-]. destruct k as [|k]; cbn.
  - intros [= <-]. by rewrite Z.add_0_r.
  - intros Hk. rewrite <- (IH _ _ _ E Hk). f_equal. lia.
Qed.
Lemma load_drop m a n k s : load m a n = Ok s → (k ≤ n)%nat →
    load m (a + Z.of_nat k) (n - k) = Ok (drop k s).
Proof.
  revert a n s. induction k as [|k IH]; intros a n s Hl Hk.
  - rewrite Nat.sub_0_r, Z.add_0_r. by rewrite drop_0.
  - destruct n as [|n]; [lia|]. cbn in Hl. destruct (m !! a); [|done].
    destruct (load m (a + 1) n) eqn:E; try done.
    cbn in Hl. injection Hl as <-. cbn [drop].
    replace (a + Z.of_nat (S k)) with (a + 1 + Z.of_nat k) by lia.
    apply IH; [done|lia].
Qed.
Lemma readable_length m b s : readable m b s → s_ b = Z.of_nat (length s).
Proof. intros [H0 H]. apply load_length in H. lia. Qed.
(** [+=] drops bytes from the front; a buffer that is used up is null. *)
Lemma buffer_advance_spec m b s n :
  readable m b s → 0 ≤ n → readable m (advance b n) (drop (Z.to_nat n) s) ∧
    (s_ (advance b n) = 0 → p_ (advance b n) = 0).
Proof.
  intros Hr Hn. pose proof (readable_length _ _ _ Hr) as Hs. destruct Hr as [H0 H].
  unfold advance, readable, contents.
  destruct (Z.ltb_spec n (s_ b)); cbn.
  - split; [|lia]. split; [lia|]. rewrite Z2Nat.inj_sub by lia.
    rewrite <- (load_drop m _ _ _ _ H) by lia. f_equal. lia.
  - split; [|done]. split; [done|]. by rewrite drop_ge by lia.
Qed.

Lemma total_nonneg m bs ss : Forall2 (readable m) bs ss → total bs = Z.of_nat (length (concat ss)).
Proof.
  induction 1 as [|b s bs ss Hb _ IH]; cbn; [done|].
  rewrite length_app, IH, (readable_length _ _ _ Hb). lia.
Qed.
Lemma buffer_size_total bs : total bs < 2 ^ 64 → Forall (λ b, 0 ≤ s_ b) bs → buffer_size bs = total bs.
Proof.
  intros Ht Hall. unfold buffer_size.
  cut (∀ a, 0 ≤ a → a + total bs < 2 ^ 64 → foldl (λ t b, u64 (t + s_ b)) a bs = a + total bs).
  { intros H. rewrite H; lia. }
  clear Ht. induction Hall as [|b bs Hb Hall IH]; intros a Ha Hlt; cbn in *; [lia|].
  assert (0 ≤ total bs). { clear -Hall. induction Hall; cbn; lia. }
  rewrite u64_small by lia. rewrite IH by lia. lia.
Qed.
Lemma append_all_ok max m bs ss r :
  Forall2 (readable m) bs ss → Z.of_nat (length r) + total bs ≤ max →
    append_all max m bs r = Ok (r ++ concat ss).
Proof.
  intros H. revert r. induction H as [|b s bs ss Hb Hf IH]; intros r Hle; cbn in *;
    [by rewrite app_nil_r|].
  pose proof (readable_length _ _ _ Hb). pose proof (total_nonneg _ _ _ Hf).
  destruct (Z.ltb_spec (max - Z.of_nat (length r)) (s_ b)); [lia|].
  rewrite (proj2 Hb). cbn. rewrite IH by (rewrite length_app; lia). by rewrite app_assoc.
Qed.
Lemma fill_spec bs done_ rest :
  length rest = length bs →
    fill (length done_) bs (done_ ++ rest) = Ok (done_ ++ ((λ b, IoVec (p_ b) (s_ b)) <$> bs)).
Proof.
  revert done_ rest. induction bs as [|b bs IH]; intros dn rest Hl; cbn [fill].
  - by destruct rest.
  - destruct rest as [|r rest]; [done|].
    destruct (Nat.ltb_spec (length dn) (length (dn ++ r :: rest))) as [_|Hge];
      [|rewrite length_app in Hge; cbn in Hge; lia].
    rewrite insert_app_r_alt by done. rewrite Nat.sub_diag. cbn.
    specialize (IH (dn ++ [IoVec (p_ b) (s_ b)]) rest ltac:(cbn in Hl; lia)).
    rewrite length_app in IH. cbn in IH. rewrite Nat.add_1_r, <- !app_assoc in IH. exact IH.
Qed.
Lemma gather_spec m bs ss :
  Forall2 (readable m) bs ss → gather m ((λ b, IoVec (p_ b) (s_ b)) <$> bs) = Ok (concat ss).
Proof. induction 1 as [|b s bs ss [_ Hb] _ IH]; [done|]. cbn. unfold contents in Hb. rewrite Hb.
  cbn. by rewrite IH. Qed.

(** The iterator goes through the rest of one buffer and then through the others. *)
Lemma walk_rest m bs k b s rest pos fuel :
  bs !! k = Some b → readable m b s → s_ b < 2 ^ 64 → (pos < length s)%nat →
  walk fuel m bs (It (S k) 0) = Ok rest →
  walk (length s - pos + fuel) m bs (It k (Z.of_nat pos)) = Ok (drop pos s ++ rest).
Proof.
  intros Hk Hr Hmax Hpos Hw. pose proof (readable_length _ _ _ Hr) as Hlen. destruct Hr as [_ Hc].
  remember (length s - S pos)%nat as d eqn:Hd. revert pos Hpos Hd.
  assert (Hkl : (k < length bs)%nat) by (by eapply lookup_lt_Some).
  induction d as [|d IH]; intros pos Hpos Hd.
  all: destruct (lookup_lt_is_Some_2 s pos Hpos) as [v Hv];
    replace (length s - pos)%nat with (S (length s - S pos)) by lia; cbn [walk plus].
  all: unfold iterator_ne, iterator_eq, buffers_end; cbn [curr_buf byte_pos];
    destruct (Nat.eqb_spec k (length bs)); [lia|]; cbn [andb negb].
  all: unfold deref, increment; cbn [curr_buf byte_pos];
    rewrite Hk, (load_lookup _ _ _ _ _ _ Hc Hv); cbn [obind]; rewrite u64_small by lia.
  - destruct (Z.leb_spec (s_ b) (Z.of_nat pos + 1)); [|lia].
    replace (length s - S pos)%nat with O by lia. cbn [plus obind]. rewrite Hw. cbn.
    rewrite (drop_S _ _ _ Hv). cbn. rewrite drop_ge by lia. done.
  - destruct (Z.leb_spec (s_ b) (Z.of_nat pos + 1)); [lia|]. cbn [obind].
    replace (Z.of_nat pos + 1) with (Z.of_nat (S pos)) by lia.
    rewrite (IH (S pos)) by lia. cbn. by rewrite (drop_S _ _ _ Hv).
Qed.
Lemma walk_all m bs1 bs ss :
  Forall2 (readable m) bs ss → Forall (λ b, 0 < s_ b < 2 ^ 64) bs →
  walk (S (length (concat ss))) m (bs1 ++ bs) (It (length bs1) 0) = Ok (concat ss).
Proof.
  intros H. revert bs1. induction H as [|b s bs ss Hb Hf IH]; intros bs1 Hall; cbn [concat].
  - cbn [length walk]. unfold iterator_ne, iterator_eq, buffers_end. cbn [curr_buf byte_pos].
    by rewrite app_nil_r, Nat.eqb_refl.
  - apply Forall_cons in Hall as [Hs Hall]. pose proof (readable_length _ _ _ Hb).
    specialize (IH (bs1 ++ [b]) Hall). rewrite length_app, <- app_assoc, Nat.add_1_r in IH.
    cbn [app] in IH.
    pose proof (walk_rest m (bs1 ++ b :: bs) (length bs1) b s _ 0 _ ltac:(by rewrite lookup_app_r,
      Nat.sub_diag by done) Hb ltac:(lia) ltac:(lia) IH) as Hw.
    rewrite length_app. rewrite Nat.sub_0_r, drop_0, Nat.add_succ_r in Hw. exact Hw.
Qed.

(** C25: Of a sequence of readable buffers that fits into a string, [buffer_to_string], the
    bytes that [native_buffer_sequence] makes the operating system read, and, when no buffer
    is empty, a loop over [buffers_begin] and [buffers_end], which ends, all give the
    concatenated contents, and [buffer_size] is their number. *)
Theorem buffers_agree max m bs ss :
  Forall2 (readable m) bs ss → Z.of_nat (length (concat ss)) ≤ max < 2 ^ 64 →
  buffer_to_string max m bs = Ok (concat ss) ∧
  buffer_size bs = Z.of_nat (length (concat ss)) ∧
  (∃ iov, native_buffer_sequence bs = Ok iov ∧ gather m iov = Ok (concat ss)) ∧
  (Forall (λ b, 0 < s_ b) bs → walk (S (length (concat ss))) m bs (buffers_begin bs) = Ok (concat ss)).
Proof.
  intros H Hmax. pose proof (total_nonneg _ _ _ H) as Ht.
  assert (Hn : Forall (λ b, 0 ≤ s_ b) bs). { eapply Forall2_Forall_l; [exact H|]. apply Forall_true.
    by intros s b [? _]. }
  assert (Hsz : buffer_size bs = Z.of_nat (length (concat ss))) by (rewrite buffer_size_total;
    [done|lia|done]).
  split; [|split; [done|split]].
  - unfold buffer_to_string. rewrite Hsz. destruct (Z.ltb_spec max (Z.of_nat (length (concat ss))));
      [lia|].
    rewrite (append_all_ok max m bs ss []); [done|done|cbn; lia].
  - eexists. split; [apply (fill_spec bs [])|by apply gather_spec]. apply length_replicate.
  - intros Hp. apply (walk_all m [] bs ss H). apply Forall_forall. intros b Hb.
    rewrite Forall_forall in Hp. specialize (Hp b Hb). split; [done|].
    assert (s_ b ≤ total bs); [|lia]. clear -Hn Hb. induction Hn as [|c bs Hc Hn IH];
      [by apply not_elem_of_nil in Hb|].
    assert (0 ≤ total bs). { clear -Hn. induction Hn; cbn; lia. }
    apply elem_of_cons in Hb as [->|Hb]; cbn; [lia|]. specialize (IH Hb). lia.
Qed.

Definition sample : bytes := list_to_map [(8, 1); (9, 2); (10, 3); (11, 4)].
Lemma buffers_agree_witness :
  buffer_to_string 100 sample [ConstBuffer 10 2; ConstBuffer 8 1] = Ok [3; 4; 1] ∧
  walk 4 sample [ConstBuffer 10 2; ConstBuffer 8 1] (It 0 0) = Ok [3; 4; 1].
Proof.
  destruct (buffers_agree 100 sample [ConstBuffer 10 2; ConstBuffer 8 1] [[3; 4]; [1]])
    as (H1 & _ & _ & H2).
  - repeat constructor; cbn; lia.
  - cbn. lia.
  - split; [exact H1|]. apply H2. repeat constructor; cbn; lia.
Defined.
(** The iterator does not skip an empty buffer: it reads a byte that belongs to none, or where
    nothing is mapped. *)
Example walk_reads_past_empty :
  walk 9 sample [ConstBuffer 8 1; ConstBuffer 9 0; ConstBuffer 10 1] (It 0 0) = Ok [1; 2; 3] ∧
  buffer_to_string 100 sample [ConstBuffer 8 1; ConstBuffer 9 0; ConstBuffer 10 1] = Ok [1; 3] ∧
  walk 9 sample [empty_buffer] (It 0 0) = Undef.
Proof. vm_compute. done. Qed.

End Buffers.
