(* ===== verification/PointerCount.v ===== *)
(** * Counting the pointer variables that refer to an object

    Shared by the models of [intrusive_ptr] and [unique_ptr]: variables are the keys of a
    finite map, the null pointer is 0. *)

From S2P Require Import Prelude.

Local Open Scope Z_scope.

Section points.
Context {A : Type} (f : A → Z).

(** The number of variables in [m] that point to [p]. *)
Definition one (p q : Z) : Z := if decide (q = p) then 1 else 0.
Definition points (p : Z) (m : gmap Z A) : Z := map_fold (λ _ x z, one p (f x) + z) 0 m.

Lemma one_range p q : 0 ≤ one p q ≤ 1.
Proof. unfold one. case_decide; lia. Qed.
Lemma points_empty p : points p ∅ = 0.
Proof. unfold points. by rewrite map_fold_empty. Qed.
Lemma points_insert p v x m : m !! v = None → points p (<[v := x]> m) = one p (f x) + points p m.
Proof. intros Hv. unfold points. rewrite map_fold_insert_L; [done| |done]. intros. lia. Qed.
Lemma points_singleton p v x : points p {[ v := x ]} = one p (f x).
Proof. rewrite <- insert_empty, points_insert, points_empty by apply lookup_empty. lia. Qed.
Lemma points_delete p v x m : m !! v = Some x → points p (delete v m) = points p m - one p (f x).
Proof.
  intros Hv. rewrite <- (insert_delete_id m v x Hv) at 2. rewrite points_insert by apply lookup_delete_eq. lia.
Qed.
Lemma points_update p v x y m :
  m !! v = Some x → points p (<[v := y]> m) = points p m - one p (f x) + one p (f y).
Proof.
  intros Hv. rewrite <- insert_delete_eq, points_insert by apply lookup_delete_eq.
  rewrite (points_delete p v x) by done. lia.
Qed.
Lemma points_nonneg p m : 0 ≤ points p m.
Proof.
  unfold points. apply (map_fold_weak_ind (λ z _, 0 ≤ z)); [lia|]. intros i x m' z _ Hz.
  pose proof (one_range p (f x)). lia.
Qed.
Lemma points_pos p v x m : m !! v = Some x → f x = p → 1 ≤ points p m.
Proof.
  intros Hv Hx. pose proof (points_delete p v x m Hv) as H. pose proof (points_nonneg p (delete v m)).
  unfold one in H. rewrite decide_True in H by done. lia.
Qed.

End points.

Lemma one_null q : q ≠ 0 → one q 0 = 0.
Proof. intros Hq. unfold one. by rewrite decide_False by congruence. Qed.
Lemma one_eq p : one p p = 1.
Proof. unfold one. by rewrite decide_True. Qed.
