(* ===== verification/IntrusivePtr.v ===== *)
(** * intrusive_ptr (intrusive_ptr.hpp)

    The pointer variables of a program live in a map from their names; the null pointer
    is 0.  Next to them the program has raw pointers that it got from [release] or [new]. *)

From S2P Require Import Prelude PointerCount.

Local Open Scope Z_scope.
Local Open Scope gpcl_scope.

(** ** Reference counted objects *)

(** The objects of the program, in a memory of type [H]: [ref_count] is the number of
    references an object that lives has been given; [inc] and [dec] are
    [intrusive_ref_count_inc] and [intrusive_ref_count_dec] of its type, [None] when the
    object is gone. *)
Class RefCountable (H : Type) : Type := {
  ref_count : H → Z → option Z;
  create : Z → H → H;
  intrusive_ref_count_inc : Z → H → option H;
  intrusive_ref_count_dec : Z → H → option H;
}.
Class RefCountableOk (H : Type) `{!RefCountable H} : Prop := {
  ref_count_create p h q :
    ref_count h p = None → ref_count (create p h) q = if decide (q = p) then Some 1 else ref_count h q;
  ref_count_inc p h c : ref_count h p = Some c → ∃ h',
    intrusive_ref_count_inc p h = Some h' ∧
    ∀ q, ref_count h' q = if decide (q = p) then Some (c + 1) else ref_count h q;
  (** The last reference takes the object with it. *)
  ref_count_dec p h c : ref_count h p = Some c → ∃ h',
    intrusive_ref_count_dec p h = Some h' ∧
    ∀ q, ref_count h' q = if decide (q = p) then (if decide (c = 1) then None else Some (c - 1)) else ref_count h q;
}.

(** A count in each object. *)
#[export] Instance counter : RefCountable (gmap Z Z) := {
  ref_count h p := h !! p;
  create p h := <[p := 1]> h;
  intrusive_ref_count_inc p h := c ← h !! p; Some (<[p := c + 1]> h);
  intrusive_ref_count_dec p h := c ← h !! p; Some (if c =? 1 then delete p h else <[p := c - 1]> h);
}.
#[export] Instance counter_ok : RefCountableOk (gmap Z Z).
Proof.
  split; cbn.
  - intros p h q _. rewrite lookup_insert. repeat case_decide; congruence.
  - intros p h c Hc. rewrite Hc. eexists; split; [done|]. intros q.
    rewrite lookup_insert. repeat case_decide; congruence.
  - intros p h c Hc. rewrite Hc. eexists; split; [done|]. intros q.
    destruct (Z.eqb_spec c 1); rewrite ?lookup_insert, ?lookup_delete; repeat case_decide; congruence.
Qed.

Module Intrusive_ptr.
Section intrusive.
Context {H : Type} `{!RefCountable H}.

Record state : Type := State { vars : gmap Z Z; raws : gmap Z Z; objs : H }.
Abbreviation I A := (M state A).

Definition var (v : Z) : I Z := λ s, match vars s !! v with Some p => (Ok p, s) | None => (Undef, s) end.
Definition set_var (v p : Z) : I unit := modify (λ s, State (<[v := p]> (vars s)) (raws s) (objs s)).
Definition raw (r : Z) : I Z := λ s, match raws s !! r with Some p => (Ok p, s) | None => (Undef, s) end.
Definition set_raw (r p : Z) : I unit := modify (λ s, State (vars s) (<[r := p]> (raws s)) (objs s)).

Definition inc (p : Z) : I unit := λ s,
  match intrusive_ref_count_inc p (objs s) with
  | Some h => (Ok tt, State (vars s) (raws s) h)
  | None => (Undef, s)
  end.
Definition dec (p : Z) : I unit := λ s,
  match intrusive_ref_count_dec p (objs s) with
  | Some h => (Ok tt, State (vars s) (raws s) h)
  | None => (Undef, s)
  end.

(** ** Members *)

(** [intrusive_ptr(p, inc)]; the value of the pointer that is constructed. *)
Definition make (p : Z) (b : bool) : I Z := (if b && negb (p =? 0) then inc p else ret tt) ;;; ret p.
Definition drop (p : Z) : I unit := if p =? 0 then ret tt else dec p.

Definition construct_null (v : Z) : I unit := set_var v 0.
Definition construct_raw (v r : Z) (b : bool) : I unit :=
  let! p := raw r in let! p := make p b in set_var v p.
Definition copy_construct (v w : Z) : I unit :=
  let! p := var w in (if p =? 0 then ret tt else inc p) ;;; set_var v p.
Definition move_construct (v w : Z) : I unit :=
  let! p := var w in set_var v p ;;; set_var w 0.
Definition destruct_ (v : Z) : I unit :=
  let! p := var v in
  drop p ;;;
  modify (λ s, State (delete v (vars s)) (raws s) (objs s)).
Definition swap (v w : Z) : I unit :=
  let! p := var v in let! q := var w in set_var v q ;;; set_var w p.
(** [intrusive_ptr(tmp).swap( *this)] and the end of the temporary. *)
Definition replace (v p : Z) : I unit :=
  let! q := var v in set_var v p ;;; drop q.
Definition copy_assign (v w : Z) : I unit :=
  let! p := var w in (if p =? 0 then ret tt else inc p) ;;; replace v p.
Definition move_assign (v w : Z) : I unit :=
  let! p := var w in set_var w 0 ;;; replace v p.
Definition reset (v : Z) : I unit :=
  let! p := var v in if p =? 0 then ret tt else dec p ;;; set_var v 0.
Definition reset_raw (v r : Z) (b : bool) : I unit :=
  let! p := raw r in let! p := make p b in replace v p.
Definition release (v r : Z) : I unit :=
  let! p := var v in set_var v 0 ;;; set_raw r p.
Definition get (v : Z) : I Z := var v.

(** ** Programs *)

Inductive op : Type :=
| New (r p : Z)                  (* r = new T, with a count of one *)
| ConstructNull (v : Z)
| Adopt (v r : Z)                (* intrusive_ptr v(r), and r is not used any more *)
| Share (v r : Z)                (* intrusive_ptr v(r, true) *)
| CopyConstruct (v w : Z)
| MoveConstruct (v w : Z)
| Destruct (v : Z)
| CopyAssign (v w : Z)
| MoveAssign (v w : Z)
| Swap (v w : Z)
| Reset (v : Z)
| ResetShare (v r : Z)
| Release (v r : Z).

Definition forget (r : Z) : I unit := modify (λ s, State (vars s) (delete r (raws s)) (objs s)).
Definition run_op (o : op) : I unit :=
  match o with
  | New r p => modify (λ s, State (vars s) (<[r := p]> (raws s)) (create p (objs s)))
  | ConstructNull v => construct_null v
  | Adopt v r => construct_raw v r false ;;; forget r
  | Share v r => construct_raw v r true
  | CopyConstruct v w => copy_construct v w
  | MoveConstruct v w => move_construct v w
  | Destruct v => destruct_ v
  | CopyAssign v w => copy_assign v w
  | MoveAssign v w => move_assign v w
  | Swap v w => swap v w
  | Reset v => reset v
  | ResetShare v r => reset_raw v r true
  | Release v r => release v r
  end.
(** Variables exist where they are used and do not where they are declared. *)
Definition allowed (o : op) (s : state) : Prop :=
  match o with
  | New r p => raws s !! r = None ∧ ref_count (objs s) p = None ∧ p ≠ 0
  | ConstructNull v => vars s !! v = None
  | Adopt v r | Share v r => vars s !! v = None ∧ is_Some (raws s !! r)
  | CopyConstruct v w | MoveConstruct v w => vars s !! v = None ∧ is_Some (vars s !! w)
  | Destruct v | Reset v => is_Some (vars s !! v)
  | CopyAssign v w | MoveAssign v w | Swap v w => is_Some (vars s !! v) ∧ is_Some (vars s !! w)
  | ResetShare v r => is_Some (vars s !! v) ∧ is_Some (raws s !! r)
  | Release v r => is_Some (vars s !! v) ∧ raws s !! r = None
  end.

(** ** Invariant *)

(** The references to [p]; [extra] counts those a running member function still holds. *)
Definition refs (p : Z) (s : state) : Z := points id p (vars s) + points id p (raws s).
Definition counted (extra : Z → Z) (s : state) : Prop :=
  ∀ p, p ≠ 0 → 0 ≤ extra p + refs p s ∧
    ref_count (objs s) p = if decide (extra p + refs p s = 0) then None else Some (extra p + refs p s).
Definition inv (s : state) : Prop := counted (λ _, 0) s.

Lemma counted_ext e1 e2 s : (∀ p, p ≠ 0 → e1 p = e2 p) → counted e1 s → counted e2 s.
Proof. intros He Hi p Hp. rewrite <- (He p Hp). by apply Hi. Qed.

(** The variables change, and with them the references a function holds. *)
Lemma counted_vars e1 e2 s vs rs :
  (∀ p, p ≠ 0 → e2 p + (points id p vs + points id p rs) = e1 p + refs p s) →
  counted e1 s → counted e2 (State vs rs (objs s)).
Proof. intros He Hi p Hp. unfold refs. cbn. rewrite (He p Hp). by apply Hi. Qed.

Context `{!RefCountableOk H}.

Lemma inc_run e s p :
  p ≠ 0 → 1 ≤ e p + refs p s → counted e s →
  ∃ s', inc p s = (Ok tt, s') ∧ vars s' = vars s ∧ raws s' = raws s ∧ counted (λ q, e q + one q p) s'.
Proof.
  intros Hp Hpos Hi. destruct (Hi p Hp) as [_ Ho]. rewrite decide_False in Ho by lia.
  destruct (ref_count_inc _ _ _ Ho) as (h & Hh & Hc).
  unfold inc. rewrite Hh. eexists; split; [done|]. split; [done|]. split; [done|]. intros q Hq.
  destruct (Hi q Hq) as [Hn Hoq]. unfold refs, one in *. cbn [vars raws objs]. rewrite Hc.
  destruct (decide (p = q)) as [<-|Hne].
  - rewrite (decide_True (P := p = p)), decide_False by lia. split; [lia|f_equal; lia].
  - by rewrite Z.add_0_r, (decide_False (P := q = p)) by congruence.
Qed.
Lemma dec_run e s p :
  p ≠ 0 → 1 ≤ e p + refs p s → counted e s →
  ∃ s', dec p s = (Ok tt, s') ∧ vars s' = vars s ∧ raws s' = raws s ∧ counted (λ q, e q - one q p) s'.
Proof.
  intros Hp Hpos Hi. destruct (Hi p Hp) as [_ Ho]. rewrite decide_False in Ho by lia.
  destruct (ref_count_dec _ _ _ Ho) as (h & Hh & Hc).
  unfold dec. rewrite Hh. eexists; split; [done|]. split; [done|]. split; [done|]. intros q Hq.
  destruct (Hi q Hq) as [Hn Hoq]. unfold refs, one in *. cbn [vars raws objs]. rewrite Hc.
  destruct (decide (p = q)) as [<-|Hne].
  - rewrite (decide_True (P := p = p)) by done. split; [lia|]. repeat case_decide; try lia; [done|f_equal; lia].
  - by rewrite Z.sub_0_r, (decide_False (P := q = p)) by congruence.
Qed.

Lemma refs_nonneg p s : 0 ≤ refs p s.
Proof. unfold refs. pose proof (points_nonneg id p (vars s)). pose proof (points_nonneg id p (raws s)). lia. Qed.
Lemma refs_var p v s : vars s !! v = Some p → 1 ≤ refs p s.
Proof.
  intros Hv. unfold refs. pose proof (points_pos id p v p (vars s) Hv eq_refl). pose proof (points_nonneg id p (raws s)). lia.
Qed.
Lemma refs_raw p r s : raws s !! r = Some p → 1 ≤ refs p s.
Proof.
  intros Hv. unfold refs. pose proof (points_pos id p r p (raws s) Hv eq_refl). pose proof (points_nonneg id p (vars s)). lia.
Qed.
Lemma intrusive_var_run v p s : vars s !! v = Some p → var v s = (Ok p, s).
Proof. intros Hv. unfold var. by rewrite Hv. Qed.
Lemma intrusive_raw_run r p s : raws s !! r = Some p → raw r s = (Ok p, s).
Proof. intros Hv. unfold raw. by rewrite Hv. Qed.

(** Taking a reference to what some variable points to, unless it is null. *)
Lemma share_run s p :
  1 ≤ refs p s → inv s →
  ∃ s', (if p =? 0 then ret tt else inc p) s = (Ok tt, s') ∧ vars s' = vars s ∧ raws s' = raws s ∧
    counted (λ q, one q p) s'.
Proof.
  intros Hr Hi. destruct (Z.eqb_spec p 0) as [->|Hp].
  - exists s. split; [done|]. split; [done|]. split; [done|]. eapply counted_ext; [|exact Hi].
    intros q Hq. by rewrite one_null.
  - destruct (inc_run (λ _, 0) s p Hp ltac:(lia) Hi) as (s' & Hinc & Hv & Hrw & Hc). exists s'. eauto.
Qed.
Lemma drop_run e s q0 :
  counted (λ q, e q + one q q0) s → (∀ q, 0 ≤ e q) →
  ∃ s', drop q0 s = (Ok tt, s') ∧ vars s' = vars s ∧ raws s' = raws s ∧ counted e s'.
Proof.
  intros Hi He. unfold drop. destruct (Z.eqb_spec q0 0) as [->|Hq0].
  - exists s. split; [done|]. split; [done|]. split; [done|]. eapply counted_ext; [|exact Hi].
    intros q Hq. cbn. rewrite one_null by done. lia.
  - destruct (dec_run (λ q, e q + one q q0) s q0 Hq0 ltac:(cbv beta; rewrite one_eq; pose proof (refs_nonneg q0 s); specialize (He q0); lia) Hi)
      as (s' & Hdec & Hv & Hrw & Hc).
    exists s'. split; [done|]. split; [done|]. split; [done|]. eapply counted_ext; [|exact Hc]. intros. cbn. lia.
Qed.
Lemma intrusive_replace_run s v p q0 :
  vars s !! v = Some q0 → counted (λ q, one q p) s → ∃ s', replace v p s = (Ok tt, s') ∧ inv s'.
Proof.
  intros Hv Hi. unfold replace. rewrite (bind_ok _ _ _ _ _ (intrusive_var_run _ _ _ Hv)). unfold set_var. rewrite bind_modify.
  destruct (drop_run (λ _, 0) (State (<[v := p]> (vars s)) (raws s) (objs s)) q0) as (s' & Hd & _ & _ & Hc); [|lia|by eauto].
  eapply (counted_vars _ _ s); [|exact Hi]. intros q Hq. cbn. rewrite (points_update id q v q0 p) by done. unfold refs, id. lia.
Qed.

(** New and changed variables. *)
Lemma declare_inv s v p : vars s !! v = None → counted (λ q, one q p) s → inv (State (<[v := p]> (vars s)) (raws s) (objs s)).
Proof.
  intros Hv Hi. eapply (counted_vars _ _ s); [|exact Hi]. intros q Hq. rewrite points_insert by done. unfold refs, id. lia.
Qed.
Lemma forget_inv s v p : vars s !! v = Some p → inv s → counted (λ q, one q p) (State (<[v := 0]> (vars s)) (raws s) (objs s)).
Proof.
  intros Hv Hi. eapply (counted_vars _ _ s); [|exact Hi]. intros q Hq.
  rewrite (points_update id q v p 0) by done. unfold refs, id. rewrite (one_null q Hq). lia.
Qed.

Lemma drop_var s v p :
  vars s !! v = Some p → inv s →
  ∃ s', drop p s = (Ok tt, s') ∧ vars s' = vars s ∧ raws s' = raws s ∧ counted (λ q, - one q p) s'.
Proof.
  intros Hv Hi. unfold drop. destruct (Z.eqb_spec p 0) as [->|Hp].
  - exists s. split; [done|]. split; [done|]. split; [done|]. eapply counted_ext; [|exact Hi].
    intros q Hq. by rewrite one_null.
  - destruct (dec_run (λ _, 0) s p Hp ltac:(pose proof (refs_var _ _ _ Hv); lia) Hi) as (s' & Hdec & Hvs & Hrs & Hc).
    exists s'. split; [done|]. split; [done|]. split; [done|]. eapply counted_ext; [|exact Hc]. intros. cbn. lia.
Qed.

(** *** The member functions *)

Lemma new_counts s r p :
  raws s !! r = None → ref_count (objs s) p = None → p ≠ 0 → inv s →
  inv (State (vars s) (<[r := p]> (raws s)) (create p (objs s))).
Proof.
  intros Hr Ho Hp Hi q Hq. destruct (Hi q Hq) as [Hn Hoq]. unfold refs in *. cbn [vars raws objs].
  rewrite points_insert, ref_count_create by done. change (id p) with p. unfold one. cbv beta in *.
  destruct (decide (p = q)) as [<-|Hpq].
  - rewrite (decide_True (P := p = p)) by done. rewrite Ho in Hoq. case_decide as Hz; [|done].
    rewrite decide_False by lia. split; [lia|f_equal; lia].
  - rewrite (decide_False (P := q = p)), Z.add_0_l by congruence. by split.
Qed.
Lemma adopt_counts s v r p :
  vars s !! v = None → raws s !! r = Some p → inv s →
  ∃ s', (construct_raw v r false ;;; forget r) s = (Ok tt, s') ∧ inv s'.
Proof.
  intros Hv Hr Hi. unfold construct_raw. rewrite bind_assoc, (bind_ok _ _ _ _ _ (intrusive_raw_run _ _ _ Hr)).
  unfold make. cbn [andb]. rewrite !bind_assoc, !bind_ret_l. unfold set_var. rewrite bind_modify.
  eexists; split; [done|]. eapply (counted_vars _ _ s); [|exact Hi]. intros q Hq. cbn.
  rewrite points_insert, (points_delete id q r p) by done. unfold refs, id. lia.
Qed.
Lemma make_share s p :
  1 ≤ refs p s → inv s →
  ∃ s', make p true s = (Ok p, s') ∧ vars s' = vars s ∧ raws s' = raws s ∧ counted (λ q, one q p) s'.
Proof.
  intros Hr Hi. destruct (share_run s p Hr Hi) as (s' & Hs & Hvs & Hrs & Hc). exists s'. split; [|done].
  unfold make. cbn [andb]. replace (if negb (p =? 0) then inc p else ret tt) with (if p =? 0 then ret tt else inc p)
    by (by destruct (p =? 0)). by rewrite (bind_ok _ _ _ _ _ Hs).
Qed.
Lemma share_counts s v r p :
  vars s !! v = None → raws s !! r = Some p → inv s → ∃ s', construct_raw v r true s = (Ok tt, s') ∧ inv s'.
Proof.
  intros Hv Hr Hi. unfold construct_raw. rewrite (bind_ok _ _ _ _ _ (intrusive_raw_run _ _ _ Hr)).
  destruct (make_share s p (refs_raw _ _ _ Hr) Hi) as (s' & Hs & Hvs & Hrs & Hc).
  rewrite (bind_ok _ _ _ _ _ Hs). eexists; split; [done|]. apply declare_inv; [by rewrite Hvs|done].
Qed.
Lemma copy_counts s v w p :
  vars s !! v = None → vars s !! w = Some p → inv s → ∃ s', copy_construct v w s = (Ok tt, s') ∧ inv s'.
Proof.
  intros Hv Hw Hi. unfold copy_construct. rewrite (bind_ok _ _ _ _ _ (intrusive_var_run _ _ _ Hw)).
  destruct (share_run s p (refs_var _ _ _ Hw) Hi) as (s' & Hs & Hvs & Hrs & Hc).
  rewrite (bind_ok _ _ _ _ _ Hs). eexists; split; [done|]. apply declare_inv; [by rewrite Hvs|done].
Qed.
Lemma move_counts s v w p :
  vars s !! v = None → vars s !! w = Some p → inv s → ∃ s', move_construct v w s = (Ok tt, s') ∧ inv s'.
Proof.
  intros Hv Hw Hi. unfold move_construct. rewrite (bind_ok _ _ _ _ _ (intrusive_var_run _ _ _ Hw)).
  unfold set_var. rewrite bind_modify. eexists; split; [done|]. cbn. assert (Hne : v ≠ w) by congruence.
  eapply (counted_vars _ _ s); [|exact Hi]. intros q Hq.
  rewrite (points_update id q w p 0) by (by rewrite lookup_insert_ne). rewrite points_insert by done.
  unfold refs, id. rewrite (one_null q Hq). lia.
Qed.
Lemma destruct_counts s v p : vars s !! v = Some p → inv s → ∃ s', destruct_ v s = (Ok tt, s') ∧ inv s'.
Proof.
  intros Hv Hi. unfold destruct_. rewrite (bind_ok _ _ _ _ _ (intrusive_var_run _ _ _ Hv)).
  destruct (drop_var s v p Hv Hi) as (s' & Hd & Hvs & Hrs & Hc). rewrite (bind_ok _ _ _ _ _ Hd).
  eexists; split; [done|]. eapply (counted_vars _ _ s'); [|exact Hc]. intros q Hq. cbn.
  rewrite Hvs, (points_delete id q v p) by done. unfold refs, id. rewrite Hvs. lia.
Qed.
Lemma reset_counts s v p : vars s !! v = Some p → inv s → ∃ s', reset v s = (Ok tt, s') ∧ inv s'.
Proof.
  intros Hv Hi. unfold reset. rewrite (bind_ok _ _ _ _ _ (intrusive_var_run _ _ _ Hv)).
  destruct (drop_var s v p Hv Hi) as (s' & Hd & Hvs & Hrs & Hc). unfold drop in Hd.
  destruct (Z.eqb_spec p 0) as [->|Hp]; [by exists s|]. rewrite (bind_ok _ _ _ _ _ Hd).
  eexists; split; [done|]. eapply (counted_vars _ _ s'); [|exact Hc]. intros q Hq. cbn.
  rewrite Hvs, (points_update id q v p 0) by done. unfold refs, id. rewrite Hvs, (one_null q Hq). lia.
Qed.
Lemma assign_counts s v w q0 p :
  vars s !! v = Some q0 → vars s !! w = Some p → inv s →
  (∃ s', copy_assign v w s = (Ok tt, s') ∧ inv s') ∧ (∃ s', move_assign v w s = (Ok tt, s') ∧ inv s').
Proof.
  intros Hv Hw Hi. unfold copy_assign, move_assign. rewrite !(bind_ok _ _ _ _ _ (intrusive_var_run _ _ _ Hw)). split.
  - destruct (share_run s p (refs_var _ _ _ Hw) Hi) as (s' & Hs & Hvs & Hrs & Hc).
    rewrite (bind_ok _ _ _ _ _ Hs). eapply intrusive_replace_run; [by rewrite Hvs|done].
  - unfold set_var. rewrite bind_modify. eapply (intrusive_replace_run _ v p (if decide (w = v) then 0 else q0)).
    + cbn. rewrite lookup_insert. by case_decide.
    + by apply forget_inv.
Qed.
Lemma swap_counts s v w q0 p :
  vars s !! v = Some q0 → vars s !! w = Some p → inv s → ∃ s', swap v w s = (Ok tt, s') ∧ inv s'.
Proof.
  intros Hv Hw Hi. unfold swap. rewrite (bind_ok _ _ _ _ _ (intrusive_var_run _ _ _ Hv)), (bind_ok _ _ _ _ _ (intrusive_var_run _ _ _ Hw)).
  unfold set_var. rewrite bind_modify. eexists; split; [done|]. cbn. eapply (counted_vars _ _ s); [|exact Hi]. intros q Hq.
  destruct (decide (v = w)) as [<-|Hne].
  - rewrite insert_insert_eq, (points_update id q v q0 q0) by done. unfold refs. lia.
  - rewrite (points_update id q w p q0) by (by rewrite lookup_insert_ne). rewrite (points_update id q v q0 p) by done.
    unfold refs. lia.
Qed.
Lemma reset_raw_counts s v r q0 p :
  vars s !! v = Some q0 → raws s !! r = Some p → inv s → ∃ s', reset_raw v r true s = (Ok tt, s') ∧ inv s'.
Proof.
  intros Hv Hr Hi. unfold reset_raw. rewrite (bind_ok _ _ _ _ _ (intrusive_raw_run _ _ _ Hr)).
  destruct (make_share s p (refs_raw _ _ _ Hr) Hi) as (s' & Hs & Hvs & Hrs & Hc).
  rewrite (bind_ok _ _ _ _ _ Hs). eapply intrusive_replace_run; [by rewrite Hvs|done].
Qed.
Lemma release_counts s v r p :
  vars s !! v = Some p → raws s !! r = None → inv s → ∃ s', release v r s = (Ok tt, s') ∧ inv s'.
Proof.
  intros Hv Hr Hi. unfold release. rewrite (bind_ok _ _ _ _ _ (intrusive_var_run _ _ _ Hv)).
  unfold set_var, set_raw. rewrite bind_modify. eexists; split; [done|]. cbn. eapply (counted_vars _ _ s); [|exact Hi]. intros q Hq.
  rewrite (points_update id q v p 0), points_insert by done. unfold refs, id. rewrite (one_null q Hq). lia.
Qed.

(** Programs that use [intrusive_ptr] keep the counts right: every member function,
    called on variables that exist, succeeds - it touches no object that is gone - and
    afterwards the objects that live are those some variable refers to, each with the
    number of references to it. *)
Theorem intrusive_counts_right o s :
  inv s → allowed o s → ∃ s', run_op o s = (Ok tt, s') ∧ inv s'.
Proof.
  intros Hi Ha. destruct o; cbn [run_op]; cbn in Ha;
    repeat match goal with
    | E : _ ∧ _ |- _ => destruct E
    | E : is_Some _ |- _ => destruct E
    end.
  - eexists; split; [done|]. by apply new_counts.
  - eexists; split; [done|]. apply declare_inv; [done|]. eapply counted_ext; [|exact Hi]. intros q Hq. by rewrite one_null.
  - by eapply adopt_counts.
  - by eapply share_counts.
  - by eapply copy_counts.
  - by eapply move_counts.
  - by eapply destruct_counts.
  - by eapply assign_counts.
  - by eapply assign_counts.
  - by eapply swap_counts.
  - by eapply reset_counts.
  - by eapply reset_raw_counts.
  - by eapply release_counts.
Qed.

End intrusive.
Arguments State {_}.
Arguments state : clear implicits.

(** An object that the variable [1] refers to, and a raw reference [5] to it. *)
Definition sample : state (gmap Z Z) := State {[ 1 := 16 ]} {[ 5 := 16 ]} {[ 16 := 2 ]}.

Lemma sample_counted : inv sample.
Proof.
  intros p Hp. unfold refs, sample. cbn [vars raws objs ref_count counter]. rewrite !points_singleton.
  unfold id, one. destruct (decide (16 = p)) as [<-|Hne]; [by rewrite lookup_singleton_eq|by rewrite lookup_singleton_ne].
Qed.
Lemma intrusive_counts_right_witness :
  objs (snd (run_op (CopyConstruct 2 1) sample)) = {[ 16 := 3 ]} ∧
  ∃ s', run_op (CopyConstruct 2 1) sample = (Ok tt, s') ∧ inv s'.
Proof.
  split; [vm_compute; reflexivity|]. apply (intrusive_counts_right (CopyConstruct 2 1) sample sample_counted).
  split; [reflexivity|by eexists].
Defined.

End Intrusive_ptr.
