(* ===== verification/UniquePtr.v ===== *)
(** * unique_ptr (unique_ptr.hpp)

    The pointer variables of a program live in a map from their names; the null pointer
    is 0.  Next to them the program has raw pointers that it got from [release] or [new]
    and has to hand over again. *)

From S2P Require Import Prelude PointerCount.

Local Open Scope Z_scope.
Local Open Scope gpcl_scope.

Module Unique.

(** A variable holds a pointer and a deleter, of which 0 is the one its type has by default;
    [objs] maps the objects that live to the deleter they must be deleted with. *)
Record state : Type := State { vars : gmap Z (Z * Z); raws : gmap Z Z; objs : gmap Z Z }.
Abbreviation U A := (M state A).

Definition var (v : Z) : U (Z * Z) := λ s, match vars s !! v
    with Some x => (Ok x, s) | None => (Undef, s) end.
Definition set_var (v : Z) (x : Z * Z) : U unit :=
    modify (λ s, State (<[v := x]> (vars s)) (raws s) (objs s)).
Definition raw (r : Z) : U Z := λ s, match raws s !! r with Some p => (Ok p, s) | None => (Undef, s) end.
(** [get_deleter()(p)]. *)
Definition delete_with (d p : Z) : U unit := λ s,
  if bool_decide (objs s !! p = Some d)
  then (Ok tt, State (vars s) (raws s) (delete p (objs s))) else (Undef, s).

(** ** Members *)

Definition construct_null (v : Z) : U unit := set_var v (0, 0).
Definition construct_raw (v r d : Z) : U unit := let! p := raw r in set_var v (p, d).
Definition release_ptr (v : Z) : U Z :=
  let! x := var v in set_var v (0, snd x) ;;; ret (fst x).
(** [unique_ptr(unique_ptr &&)]: the deleter of the new pointer is the default one. *)
Definition move_construct (v w : Z) : U unit :=
  let! p := release_ptr w in set_var v (p, 0).
(** [unique_ptr(unique_ptr<U, E> &&)]. *)
Definition convert_construct (v w : Z) : U unit :=
  let! p := release_ptr w in
  let! y := var w in
  set_var v (p, snd y).
Definition destruct_ (v : Z) : U unit :=
  let! x := var v in
  (if fst x =? 0 then ret tt else delete_with (snd x) (fst x)) ;;;
  modify (λ s, State (delete v (vars s)) (raws s) (objs s)).
Definition reset (v p : Z) : U unit :=
  let! x := var v in
  set_var v (p, snd x) ;;;
  if fst x =? 0 then ret tt else delete_with (snd x) (fst x).
Definition move_assign (v w : Z) : U unit :=
  let! p := release_ptr w in
  reset v p ;;;
  let! x := var v in
  let! y := var w in
  set_var v (fst x, snd y).
(** [operator=(nullptr_t)] does not return a value. *)
Definition assign_null (v : Z) : U unit := reset v 0 ;;; undef.
Definition swap (v w : Z) : U unit :=
  let! x := var v in let! y := var w in set_var v y ;;; set_var w x.
Definition get (v : Z) : U Z := let! x := var v in ret (fst x).
Definition deref (v : Z) : U Z :=
  let! p := get v in gpcl_assert (negb (p =? 0)) ;;; ret p.

(** ** Programs *)

Inductive op : Type :=
| New (r p d : Z)                 (* r = an object to be deleted with d *)
| ConstructNull (v : Z)
| Adopt (v r d : Z)               (* unique_ptr v(r, d), and r is not used any more *)
| MoveConstruct (v w : Z)
| ConvertConstruct (v w : Z)
| Destruct (v : Z)
| Reset (v : Z)
| ResetRaw (v r : Z)
| MoveAssign (v w : Z)
| Swap (v w : Z)
| Release (v r : Z).

Definition forget (r : Z) : U unit := modify (λ s, State (vars s) (delete r (raws s)) (objs s)).
Definition run_op (o : op) : U unit :=
  match o with
  | New r p d => modify (λ s, State (vars s) (<[r := p]> (raws s)) (<[p := d]> (objs s)))
  | ConstructNull v => construct_null v
  | Adopt v r d => construct_raw v r d ;;; forget r
  | MoveConstruct v w => move_construct v w
  | ConvertConstruct v w => convert_construct v w
  | Destruct v => destruct_ v
  | Reset v => reset v 0
  | ResetRaw v r => let! p := raw r in forget r ;;; reset v p
  | MoveAssign v w => move_assign v w
  | Swap v w => swap v w
  | Release v r => let! p := release_ptr v in modify (λ s, State (vars s) (<[r := p]> (raws s)) (objs s))
  end.
(** Variables exist where they are used and do not where they are declared; an object is
    given to a pointer with its deleter; and a pointer with a deleter of its own is not
    moved by the move constructor. *)
Definition allowed (o : op) (s : state) : Prop :=
  match o with
  | New r p d => raws s !! r = None ∧ objs s !! p = None ∧ p ≠ 0
  | ConstructNull v => vars s !! v = None
  | Adopt v r d => vars s !! v = None ∧ ∃ p, raws s !! r = Some p ∧ (p ≠ 0 → objs s !! p = Some d)
  | MoveConstruct v w => vars s !! v = None ∧ ∃ p, vars s !! w = Some (p, 0)
  | ConvertConstruct v w => vars s !! v = None ∧ is_Some (vars s !! w)
  | Destruct v | Reset v => is_Some (vars s !! v)
  | ResetRaw v r => ∃ q d p, vars s !! v = Some (q, d) ∧ raws s !! r = Some p ∧
    (p ≠ 0 → objs s !! p = Some d)
  | MoveAssign v w | Swap v w => is_Some (vars s !! v) ∧ is_Some (vars s !! w)
  | Release v r => is_Some (vars s !! v) ∧ raws s !! r = None
  end.

(** ** Invariant *)

Definition refs (p : Z) (s : state) : Z := points fst p (vars s) + points id p (raws s).
Definition alive (p : Z) (s : state) : Z := if objs s !! p is Some _ then 1 else 0.
(** Each object that lives has one owner; [e] counts those that a member function holds. *)
Definition owned (e : Z → Z) (s : state) : Prop := ∀ p, p ≠ 0 → e p + refs p s = alive p s.
Definition matching (s : state) : Prop :=
  ∀ v p d, vars s !! v = Some (p, d) → p ≠ 0 → objs s !! p = Some d.
Definition inv (s : state) : Prop := owned (λ _, 0) s ∧ matching s.

Lemma owned_vars e1 e2 s vs rs :
  (∀ p, p ≠ 0 → e2 p + (points fst p vs + points id p rs) = e1 p + refs p s) →
  owned e1 s → owned e2 (State vs rs (objs s)).
Proof. intros He H p Hp. unfold refs, alive. cbn. rewrite (He p Hp). by apply H. Qed.

Lemma matching_insert s v p d rs :
  matching s → (p ≠ 0 → objs s !! p = Some d) → matching (State (<[v := (p, d)]> (vars s)) rs (objs s)).
Proof.
  intros H Hp w q k. cbn. rewrite lookup_insert. case_decide; [intros [= <- <-]; done|apply H].
Qed.

Lemma unique_var_run v x s : vars s !! v = Some x → var v s = (Ok x, s).
Proof. intros Hv. unfold var. by rewrite Hv. Qed.
Lemma unique_raw_run r p s : raws s !! r = Some p → raw r s = (Ok p, s).
Proof. intros Hv. unfold raw. by rewrite Hv. Qed.

(** Deleting what only the function itself refers to: no variable notices. *)
Lemma delete_run s p d :
  (p ≠ 0 → objs s !! p = Some d) → owned (λ q, one q p) s →
  ∃ s', (if p =? 0 then ret tt else delete_with d p) s = (Ok tt, s') ∧
    vars s' = vars s ∧ raws s' = raws s ∧ owned (λ _, 0) s' ∧
    (∀ v x, vars s !! v = Some x → fst x ≠ 0 → objs s' !! fst x = objs s !! fst x).
Proof.
  intros Hd H. destruct (Z.eqb_spec p 0) as [->|Hp].
  { exists s. split; [done|]. split; [done|]. split; [done|]. split; [|done]. intros q Hq.
    rewrite <- (H q Hq). cbv beta. by rewrite one_null. }
  specialize (Hd Hp). unfold delete_with. rewrite bool_decide_true by done.
  eexists; split; [done|]. split; [done|]. split; [done|].
  assert (H0 : refs p s = 0) by (specialize (H p Hp); unfold alive, one in H;
    rewrite Hd, decide_True in H by done; lia).
  split.
  - intros q Hq. specialize (H q Hq). unfold refs, alive, one in *. cbn [vars raws objs] in *.
    destruct (decide (p = q)) as [<-|Hne]; [rewrite lookup_delete_eq; lia|by rewrite lookup_delete_ne].
  - intros v x Hv Hx. cbn. apply lookup_delete_ne. intros ->.
    pose proof (points_pos fst (fst x) v x (vars s) Hv eq_refl).
    pose proof (points_nonneg id (fst x) (raws s)).
    unfold refs in H0. lia.
Qed.

(** [release] leaves the function with the reference. *)
Lemma release_ptr_run s v p d (s' := State (<[v := (0, d)]> (vars s)) (raws s) (objs s)) :
  vars s !! v = Some (p, d) → inv s →
  release_ptr v s = (Ok p, s') ∧ owned (λ q, one q p) s' ∧ matching s'.
Proof.
  intros Hv [H Hm]. split; [|split].
  - unfold release_ptr. by rewrite (bind_ok _ _ _ _ _ (unique_var_run _ _ _ Hv)).
  - eapply (owned_vars _ _ s); [|exact H]. intros q Hq.
    rewrite (points_update fst q v (p, d) (0, d)) by done.
    cbn. rewrite (one_null q Hq). unfold refs. lia.
  - by apply matching_insert.
Qed.
(** [reset] with a pointer the function holds; the deleter stays. *)
Lemma unique_reset_run s v p q d :
  vars s !! v = Some (q, d) → owned (λ x, one x p) s → matching s →
  ∃ s', reset v p s = (Ok tt, s') ∧ vars s' = <[v := (p, d)]> (vars s) ∧ raws s' = raws s ∧
    owned (λ _, 0) s' ∧
    (∀ w x, vars s' !! w = Some x → fst x ≠ 0 → objs s' !! fst x = objs s !! fst x).
Proof.
  intros Hv H Hm. unfold reset. rewrite (bind_ok _ _ _ _ _ (unique_var_run _ _ _ Hv)).
  unfold set_var. rewrite bind_modify. cbn [fst snd].
  destruct (delete_run (State (<[v := (p, d)]> (vars s)) (raws s) (objs s)) q d)
    as (s' & Hd & Hvs & Hrs & Ho & Hk).
  - cbn. intros Hq. by eapply Hm.
  - eapply (owned_vars _ _ s); [|exact H]. intros x Hx.
    rewrite (points_update fst x v (q, d) (p, d)) by done.
    cbn. unfold refs. lia.
  - exists s'. split; [done|]. split; [done|]. split; [done|]. split; [done|]. intros w x Hw.
    rewrite Hvs in Hw. exact (Hk w x Hw).
Qed.

(** *** The member functions *)

Lemma declare_owned s v p d :
  vars s !! v = None → (p ≠ 0 → objs s !! p = Some d) → owned (λ q, one q p) s → matching s →
  inv (State (<[v := (p, d)]> (vars s)) (raws s) (objs s)).
Proof.
  intros Hv Hd H Hm. split; [|by apply matching_insert]. eapply (owned_vars _ _ s); [|exact H].
  intros q Hq.
  rewrite points_insert by done. unfold refs. cbn. lia.
Qed.
Lemma new_owned s r p d :
  raws s !! r = None → objs s !! p = None → p ≠ 0 → inv s →
    inv (State (vars s) (<[r := p]> (raws s)) (<[p := d]> (objs s))).
Proof.
  intros Hr Ho Hp [H Hm]. split.
  - intros q Hq. specialize (H q Hq). unfold refs, alive in *. cbn [vars raws objs].
    rewrite points_insert by done.
    change (id p) with p. unfold one. destruct (decide (p = q)) as [<-|Hne].
    + rewrite lookup_insert_eq. rewrite Ho in H. lia.
    + rewrite lookup_insert_ne by done. lia.
  - intros v q k Hv Hq. cbn in *. rewrite lookup_insert_ne; [by eapply Hm|]. intros <-.
    specialize (Hm v p k Hv Hq). congruence.
Qed.
Lemma adopt_owned s v r p d :
  vars s !! v = None → raws s !! r = Some p → (p ≠ 0 → objs s !! p = Some d) → inv s →
  ∃ s', (construct_raw v r d ;;; forget r) s = (Ok tt, s') ∧ inv s'.
Proof.
  intros Hv Hr Hd [H Hm]. unfold construct_raw.
  rewrite bind_assoc, (bind_ok _ _ _ _ _ (unique_raw_run _ _ _ Hr)).
  unfold set_var. rewrite bind_modify. eexists; split; [done|]. cbn.
  split; [|by apply (matching_insert s)].
  eapply (owned_vars _ _ s); [|exact H]. intros q Hq.
  rewrite points_insert, (points_delete id q r p) by done.
  unfold refs, id. cbn. lia.
Qed.
Lemma move_owned s v w p d :
  vars s !! v = None → vars s !! w = Some (p, d) → inv s →
  (d = 0 → ∃ s', move_construct v w s = (Ok tt, s') ∧ inv s') ∧
    (∃ s', convert_construct v w s = (Ok tt, s') ∧ inv s').
Proof.
  intros Hv Hw H. destruct (release_ptr_run s w p d Hw H) as (Hr & Ho & Hm).
  assert (Hne : v ≠ w) by congruence.
  assert (Hin : inv (State (<[v := (p, d)]> (<[w := (0, d)]> (vars s))) (raws s) (objs s))).
  { refine (declare_owned (State (<[w := (0, d)]> (vars s)) (raws s) (objs s)) v p d _ _ Ho Hm);
      [cbn; rewrite lookup_insert_ne by congruence; done|]. intros Hp. by apply (proj2 H w p d Hw). }
  unfold move_construct, convert_construct. rewrite !(bind_ok _ _ _ _ _ Hr). split.
  - intros ->. by eexists.
  - erewrite bind_ok; [|apply (unique_var_run w (0, d)); cbn; by rewrite lookup_insert_eq]. by eexists.
Qed.
Lemma destruct_owned s v p d : vars s !! v = Some (p, d) → inv s →
    ∃ s', destruct_ v s = (Ok tt, s') ∧ inv s'.
Proof.
  intros Hv [H Hm]. unfold destruct_. rewrite (bind_ok _ _ _ _ _ (unique_var_run _ _ _ Hv)).
  cbn [fst snd].
  destruct (Z.eqb_spec p 0) as [->|Hp].
  { rewrite bind_ret_l. eexists; split; [done|]. split.
    - eapply (owned_vars _ _ s); [|exact H]. intros q Hq. rewrite (points_delete fst q v (0, d)) by done.
      cbn. rewrite (one_null q Hq). unfold refs. lia.
    - intros w q k. cbn. rewrite lookup_delete. case_decide; [done|apply Hm]. }
  assert (Hd := Hm v p d Hv Hp). unfold delete_with, bind. rewrite bool_decide_true by done.
  eexists; split; [done|]. cbn. split.
  - intros q Hq. specialize (H q Hq). unfold refs, alive in *. cbn [vars raws objs].
    rewrite (points_delete fst q v (p, d)) by done. cbn. unfold one.
    destruct (decide (p = q)) as [<-|Hne].
    + rewrite lookup_delete_eq. rewrite Hd in H. lia.
    + rewrite lookup_delete_ne by done. lia.
  - intros w q k. cbn. rewrite lookup_delete. case_decide as Hwv; [done|]. intros Hw Hq.
    rewrite lookup_delete_ne; [by eapply Hm|].
    intros <-. specialize (H p Hp). unfold refs, alive in H. rewrite Hd in H.
    pose proof (points_delete fst p v (p, d) (vars s) Hv) as Hdel.
    pose proof (points_pos fst p w (p, k) (delete v (vars s)) ltac:(by rewrite lookup_delete_ne)
      eq_refl).
    pose proof (points_nonneg id p (raws s)). unfold one in Hdel. cbn in Hdel.
    rewrite decide_True in Hdel by done. lia.
Qed.

Lemma reset_owned s v q d p :
  vars s !! v = Some (q, d) → (p ≠ 0 → objs s !! p = Some d) → owned (λ x, one x p) s → matching s →
  ∃ s', reset v p s = (Ok tt, s') ∧ inv s'.
Proof.
  intros Hv Hp H Hm. destruct (unique_reset_run s v p q d Hv H Hm) as (s' & Hr & Hvs & _ & Ho & Hk).
  exists s'. split; [done|]. split; [done|]. intros w x k Hw Hx. assert (Hobj := Hk w (x, k) Hw Hx).
  cbn in Hobj. rewrite Hobj.
  rewrite Hvs, lookup_insert in Hw. case_decide; [injection Hw as <- <-; auto|by eapply Hm].
Qed.
Lemma move_assign_owned s v w q d p k :
  vars s !! v = Some (q, d) → vars s !! w = Some (p, k) → inv s →
    ∃ s', move_assign v w s = (Ok tt, s') ∧ inv s'.
Proof.
  intros Hv Hw H. destruct (release_ptr_run s w p k Hw H) as (Hr & Ho & Hm).
  unfold move_assign. rewrite (bind_ok _ _ _ _ _ Hr).
  set (s1 := State (<[w := (0, k)]> (vars s)) (raws s) (objs s)) in *.
  assert (Hv1 : ∃ q1, vars s1 !! v = Some (q1, if decide (w = v) then k else d)).
  { cbn. rewrite lookup_insert. case_decide; eauto. }
  destruct Hv1 as [q1 Hv1].
  destruct (unique_reset_run s1 v p _ _ Hv1 Ho Hm) as (s2 & Hres & Hvs & Hrs & Ho2 & Hk).
  rewrite (bind_ok _ _ _ _ _ Hres).
  assert (Hv2 : vars s2 !! v = Some (p, if decide (w = v) then k else d))
    by (by rewrite Hvs, lookup_insert_eq).
  assert (Hw2 : ∃ p', vars s2 !! w = Some (p', k)).
  { rewrite Hvs. destruct (decide (w = v)) as [->|Hvw]; [rewrite lookup_insert_eq; eauto|].
    rewrite lookup_insert_ne by congruence. cbn. rewrite lookup_insert_eq. eauto. }
  destruct Hw2 as [p' Hw2].
  rewrite (bind_ok _ _ _ _ _ (unique_var_run _ _ _ Hv2)), (bind_ok _ _ _ _ _ (unique_var_run _ _ _ Hw2)).
  eexists; split; [done|]. cbn [fst snd]. split.
  - eapply (owned_vars _ _ s2); [|exact Ho2]. intros x Hx.
    rewrite (points_update fst x v _ (p, k) _ Hv2). unfold refs. cbn. lia.
  - intros x y z. cbn. rewrite lookup_insert. destruct (decide (v = x)) as [<-|Hxv].
    + intros [= <- <-] Hp. assert (Hobj := Hk v _ Hv2 Hp). cbn in Hobj. rewrite Hobj.
      by apply (proj2 H w p k Hw).
    + intros Hx Hy. assert (Hobj := Hk x (y, z) Hx Hy). cbn in Hobj. rewrite Hobj.
      rewrite Hvs, lookup_insert_ne in Hx by congruence. by eapply Hm.
Qed.
Lemma swap_owned s v w x y :
  vars s !! v = Some x → vars s !! w = Some y → inv s → ∃ s', swap v w s = (Ok tt, s') ∧ inv s'.
Proof.
  intros Hv Hw [H Hm]. unfold swap.
  rewrite (bind_ok _ _ _ _ _ (unique_var_run _ _ _ Hv)),
    (bind_ok _ _ _ _ _ (unique_var_run _ _ _ Hw)).
  unfold set_var. rewrite bind_modify. eexists; split; [done|]. cbn. split.
  - eapply (owned_vars _ _ s); [|exact H]. intros q Hq. destruct (decide (v = w)) as [<-|Hne].
    + rewrite insert_insert_eq, (points_update fst q v x x) by done. unfold refs. lia.
    + rewrite (points_update fst q w y x) by (by rewrite lookup_insert_ne).
      rewrite (points_update fst q v x y) by done.
      unfold refs. lia.
  - intros u p d. cbn. rewrite !lookup_insert. repeat case_decide; [intros [= ->]..|]; by eapply Hm.
Qed.

(** Programs that use [unique_ptr] with the right deleters never delete an object
    twice, with a wrong deleter or while it is owned: every member function succeeds, and
    afterwards each object that lives has exactly one owner. *)
Theorem unique_one_owner o s :
  inv s → allowed o s → ∃ s', run_op o s = (Ok tt, s') ∧ inv s'.
Proof.
  intros H Ha. destruct o as [r p d|v|v r d|v w|v w|v|v|v r|v w|v w|v r]; cbn [run_op]; cbn in Ha.
  - destruct Ha as (Hr & Ho & Hp). eexists; split; [done|]. exact (new_owned s r p d Hr Ho Hp H).
  - eexists; split; [done|]. refine (declare_owned s v 0 0 Ha _ _ (proj2 H)); [done|]. intros q Hq.
    cbv beta. rewrite one_null by done. by apply H.
  - destruct Ha as (Hv & p & Hr & Hd). by eapply adopt_owned.
  - destruct Ha as (Hv & p & Hw). by eapply (move_owned s v w p 0).
  - destruct Ha as (Hv & [p d] & Hw). by eapply (move_owned s v w p d).
  - destruct Ha as [[p d] Hv]. by eapply destruct_owned.
  - destruct Ha as [[q d] Hv]. eapply reset_owned; [done|done| |apply H]. intros x Hx. cbv beta.
    rewrite one_null by done. by apply H.
  - destruct Ha as (q & d & p & Hv & Hr & Hp).
    rewrite (bind_ok _ _ _ _ _ (unique_raw_run _ _ _ Hr)). unfold forget. rewrite bind_modify.
    eapply (reset_owned (State (vars s) (delete r (raws s)) (objs s))); [done|done| |exact (proj2 H)].
    eapply (owned_vars _ _ s); [|apply H]. intros x Hx. rewrite (points_delete id x r p) by done.
    unfold refs, id. lia.
  - destruct Ha as ([[q d] Hv] & [[p k] Hw]). by eapply move_assign_owned.
  - destruct Ha as ([x Hv] & [y Hw]). by eapply swap_owned.
  - destruct Ha as ([[p d] Hv] & Hr). destruct (release_ptr_run s v p d Hv H) as (Hrel & Ho & Hm).
    rewrite (bind_ok _ _ _ _ _ Hrel). eexists; split; [done|]. split; [|exact Hm].
    eapply (owned_vars _ _ (State (<[v := (0, d)]> (vars s)) (raws s) (objs s))); [|exact Ho].
    intros q Hq. cbn.
    rewrite (points_insert id q r p) by done. unfold refs, id. cbn. lia.
Qed.

(** The move constructor does not take the deleter along: the object of a pointer with a
    deleter of its own is deleted with the default one. *)
Lemma unique_move_loses_deleter s v w p d :
  vars s !! w = Some (p, d) → v ≠ w → p ≠ 0 → d ≠ 0 → objs s !! p = Some d →
  fst ((move_construct v w ;;; destruct_ v) s) = Undef.
Proof.
  intros Hw Hne Hp Hd Ho. unfold move_construct, release_ptr.
  rewrite !bind_assoc, (bind_ok _ _ _ _ _ (unique_var_run _ _ _ Hw)).
  unfold set_var. rewrite !bind_assoc, !bind_modify, bind_ret_l, bind_modify. unfold destruct_.
  erewrite bind_ok; [|apply (unique_var_run v (p, 0)); cbn; by rewrite lookup_insert_eq]. cbn [fst snd].
  rewrite (proj2 (Z.eqb_neq p 0)) by done. unfold bind, delete_with. cbn.
  by rewrite bool_decide_false by congruence.
Qed.

(** An object with its pointer in [1], and an empty pointer [2]. *)
Definition sample : state := State {[ 1 := (16, 0); 2 := (0, 0) ]} ∅ {[ 16 := 0 ]}.

Lemma sample_inv : inv sample.
Proof.
  split.
  - intros p Hp. unfold refs, alive, sample. cbn [vars raws objs].
    rewrite points_insert, points_singleton, points_empty by reflexivity. cbn. unfold one.
    destruct (decide (16 = p)) as [<-|Hne];
      [rewrite lookup_singleton_eq|rewrite lookup_singleton_ne by done];
      rewrite decide_False by congruence; done.
  - intros v p d. unfold sample. cbn. rewrite lookup_insert, lookup_singleton.
    repeat case_decide; [intros [= <- <-] _; reflexivity|intros [= <- <-]; done|done].
Qed.
Lemma unique_one_owner_witness :
  run_op (MoveAssign 2 1) sample = (Ok tt, State {[ 1 := (0, 0); 2 := (16, 0) ]} ∅ {[ 16 := 0 ]}) ∧
  ∃ s', run_op (MoveAssign 2 1) sample = (Ok tt, s') ∧ inv s'.
Proof.
  split; [vm_compute; reflexivity|]. apply (unique_one_owner (MoveAssign 2 1) sample sample_inv).
  split; by eexists.
Defined.

End Unique.
