(* ===== verification/OffsetPtr.v ===== *)
(** * offset_ptr (offset_ptr.hpp, impl/offset_ptr.hpp)

    An [offset_ptr] stores the distance from its own address to the object it points to,
    so that memory that contains both can be mapped elsewhere.  The model is the memory of
    such pointers, from their addresses to their offsets; addresses lie below 2{^63} and
    the null pointer is 0. *)

From S2P Require Import Prelude.

Local Open Scope Z_scope.
Local Open Scope gpcl_scope.

Module Offset.

Abbreviation memory := (gmap Z Z).
Abbreviation O A := (M memory A).

Definition invalid_offset : Z := 2 ^ 63 - 1.

Section offset.
(** The size of the element type, and whether it is void or a character type. *)
Context (sz : Z) (bytes : bool).

(** Arithmetic on [intptr_t]: overflow is undefined behaviour. *)
Definition checked (z : Z) : O Z := if (- 2 ^ 63 <=? z) && (z <? 2 ^ 63) then ret z else undef.
Definition offset (this : Z) : O Z := λ m, match m !! this with Some o => (Ok o, m) | None => (Undef, m) end.
Definition set_offset (this o : Z) : O unit := modify (insert this o).

(** ** Members *)

Definition construct_null (this : Z) : O unit := set_offset this invalid_offset.
Definition construct (this ptr : Z) : O unit :=
  if ptr =? 0 then set_offset this invalid_offset
  else let! o := checked (ptr - this) in set_offset this o.
Definition get (this : Z) : O Z :=
  let! o := offset this in
  gpcl_assert (bytes || negb (o =? 0)) ;;;
  if o =? invalid_offset then ret 0 else checked (this + o).
Definition copy_construct (this other : Z) : O unit := let! p := get other in construct this p.
Definition assign (this other : Z) : O unit := let! p := get other in construct this p.
Definition not_null (this : Z) : O unit :=
  let! p := get this in gpcl_assert (negb (p =? 0)).
Definition deref (this : Z) : O Z := not_null this ;;; get this.

(** [sizeof(T)] is unsigned: the sum and the product wrap around. *)
Definition increment (this : Z) : O unit :=
  not_null this ;;; let! o := offset this in set_offset this (sint 64 (o + sz)).
Definition decrement (this : Z) : O unit :=
  not_null this ;;; let! o := offset this in set_offset this (sint 64 (o - sz)).
Definition diff_to_offset (diff : Z) : Z := sint 64 (diff * sz).
Definition offset_to_diff (o : Z) : outcome Z :=
  if u64 o mod sz =? 0 then Ok (sint 64 (u64 o / sz)) else Abort.
Definition add_assign (this diff : Z) : O unit :=
  not_null this ;;;
  let! o := offset this in
  let! o := checked (o + diff_to_offset diff) in
  set_offset this o.
Definition sub_assign (this diff : Z) : O unit :=
  not_null this ;;;
  let! o := offset this in
  let! o := checked (o - diff_to_offset diff) in
  set_offset this o.
(** [operator+(difference_type)]: the result is made in [tmp]. *)
Definition plus (tmp this diff : Z) : O unit :=
  not_null this ;;; copy_construct tmp this ;;; add_assign tmp diff.
Definition minus (tmp this diff : Z) : O unit :=
  not_null this ;;; copy_construct tmp this ;;; sub_assign tmp diff.
(** [operator-(const offset_ptr &)]. *)
Definition difference (this other : Z) : O Z :=
  not_null this ;;;
  not_null other ;;;
  let! p := get this in
  let! q := get other in
  ret (Z.quot (p - q) sz).
(** The postfix operators: the result is a copy made in [tmp]. *)
Definition post_increment (tmp this : Z) : O unit :=
  not_null this ;;; copy_construct tmp this ;;; increment this.
Definition post_decrement (tmp this : Z) : O unit :=
  not_null this ;;; copy_construct tmp this ;;; decrement this.

(** Comparison of two [offset_ptr]s. *)
Definition to_bool (this : Z) : O bool := let! p := get this in ret (negb (p =? 0)).
Definition eq (x y : Z) : O bool := let! p := get x in let! q := get y in ret (p =? q).
Definition ne (x y : Z) : O bool := let! b := eq x y in ret (negb b).
Definition lt (x y : Z) : O bool := let! p := get x in let! q := get y in ret (p <? q).
Definition gt (x y : Z) : O bool := lt y x.
Definition le (x y : Z) : O bool := let! b := gt x y in ret (negb b).
Definition ge (x y : Z) : O bool := let! b := lt x y in ret (negb b).
(** [operator!=(T *, const offset_ptr &)] and [operator<(T *, const offset_ptr &)]. *)
Definition ne_raw (x this : Z) : O bool := let! p := get this in ret (x =? p).
Definition lt_raw (x this : Z) : O bool := let! p := get this in ret (x =? p).

(** ** Refinement of ordinary pointers *)

Inductive op : Type :=
| Construct (this ptr : Z)
| CopyConstruct (this other : Z)
| Assign (this other : Z)
| Increment (this : Z)
| Decrement (this : Z)
| AddAssign (this diff : Z)
| SubAssign (this diff : Z)
| Plus (tmp this diff : Z)
| Minus (tmp this diff : Z)
| PostIncrement (tmp this : Z)
| PostDecrement (tmp this : Z)
| Map (delta : Z).      (* the memory is mapped [delta] bytes higher *)

Definition run_op (o : op) : O unit :=
  match o with
  | Construct this ptr => construct this ptr
  | CopyConstruct this other => copy_construct this other
  | Assign this other => assign this other
  | Increment this => increment this
  | Decrement this => decrement this
  | AddAssign this diff => add_assign this diff
  | SubAssign this diff => sub_assign this diff
  | Plus tmp this diff => plus tmp this diff
  | Minus tmp this diff => minus tmp this diff
  | PostIncrement tmp this => post_increment tmp this
  | PostDecrement tmp this => post_decrement tmp this
  | Map delta => modify (kmap (λ a, a + delta))
  end.

(** The pointers a program means, by their addresses. *)
Definition ptr_at (a : memory) (this : Z) : Z := default 0 (a !! this).
Definition shifted (delta p : Z) : Z := if p =? 0 then 0 else p + delta.
Definition spec (a : memory) (o : op) : memory :=
  match o with
  | Construct this ptr => <[this := ptr]> a
  | CopyConstruct this other | Assign this other => <[this := ptr_at a other]> a
  | Increment this => <[this := ptr_at a this + sz]> a
  | Decrement this => <[this := ptr_at a this - sz]> a
  | AddAssign this diff => <[this := ptr_at a this + diff * sz]> a
  | SubAssign this diff => <[this := ptr_at a this - diff * sz]> a
  | Plus tmp this diff => <[tmp := ptr_at a this + diff * sz]> a
  | Minus tmp this diff => <[tmp := ptr_at a this - diff * sz]> a
  | PostIncrement tmp this => <[this := ptr_at a this + sz]> (<[tmp := ptr_at a this]> a)
  | PostDecrement tmp this => <[this := ptr_at a this - sz]> (<[tmp := ptr_at a this]> a)
  | Map delta => kmap (λ x, x + delta) (shifted delta <$> a)
  end.

(** A pointer may be stored at [this]: it is null or an address, not its own. *)
Definition storable (this p : Z) : Prop :=
  0 < this < 2 ^ 63 ∧ (p = 0 ∨ 0 < p < 2 ^ 63 ∧ (bytes = false → p ≠ this)).
Definition allowed (a : memory) (o : op) : Prop :=
  match o with
  | Construct this ptr => storable this ptr
  | CopyConstruct this other | Assign this other => is_Some (a !! other) ∧ storable this (ptr_at a other)
  | Increment this => ptr_at a this ≠ 0 ∧ ptr_at a this + sz ≠ 0 ∧ storable this (ptr_at a this + sz)
  | Decrement this => ptr_at a this ≠ 0 ∧ ptr_at a this - sz ≠ 0 ∧ storable this (ptr_at a this - sz)
  | AddAssign this diff =>
      ptr_at a this ≠ 0 ∧ ptr_at a this + diff * sz ≠ 0 ∧ storable this (ptr_at a this + diff * sz)
  | SubAssign this diff =>
      ptr_at a this ≠ 0 ∧ ptr_at a this - diff * sz ≠ 0 ∧ storable this (ptr_at a this - diff * sz)
  | Plus tmp this diff =>
      tmp ≠ this ∧ ptr_at a this ≠ 0 ∧ storable tmp (ptr_at a this) ∧
      ptr_at a this + diff * sz ≠ 0 ∧ storable tmp (ptr_at a this + diff * sz)
  | Minus tmp this diff =>
      tmp ≠ this ∧ ptr_at a this ≠ 0 ∧ storable tmp (ptr_at a this) ∧
      ptr_at a this - diff * sz ≠ 0 ∧ storable tmp (ptr_at a this - diff * sz)
  | PostIncrement tmp this =>
      tmp ≠ this ∧ ptr_at a this ≠ 0 ∧ storable tmp (ptr_at a this) ∧
      ptr_at a this + sz ≠ 0 ∧ storable this (ptr_at a this + sz)
  | PostDecrement tmp this =>
      tmp ≠ this ∧ ptr_at a this ≠ 0 ∧ storable tmp (ptr_at a this) ∧
      ptr_at a this - sz ≠ 0 ∧ storable this (ptr_at a this - sz)
  | Map delta =>
      ∀ this p, a !! this = Some p → storable (this + delta) (shifted delta p) ∧ (p ≠ 0 → p + delta ≠ 0)
  end.

Definition encode (this p : Z) : Z := if p =? 0 then invalid_offset else p - this.
Record rep (a m : memory) : Prop := {
  rep_dom this : a !! this = None ↔ m !! this = None;
  rep_ptr this p : a !! this = Some p → storable this p ∧ m !! this = Some (encode this p);
}.

Lemma encode_range this p : storable this p → - 2 ^ 63 ≤ encode this p < 2 ^ 63 ∧
  (p ≠ 0 → encode this p = p - this ∧ encode this p ≠ invalid_offset).
Proof.
  intros [Ht Hp]. unfold encode, invalid_offset. destruct (Z.eqb_spec p 0); lia.
Qed.
Lemma checked_run z m : - 2 ^ 63 ≤ z < 2 ^ 63 → checked z m = (Ok z, m).
Proof.
  intros Hz. unfold checked. by rewrite (proj2 (Z.leb_le _ _)), (proj2 (Z.ltb_lt _ _)) by lia.
Qed.
Lemma offset_get_run a m this p : rep a m → a !! this = Some p → get this m = (Ok p, m).
Proof.
  intros H Ha. destruct (rep_ptr _ _ H this p Ha) as [Hs Hm]. destruct (encode_range this p Hs) as [Hr Hne].
  unfold get, bind at 1, offset. rewrite Hm. destruct Hs as [Ht Hp].
  rewrite bind_assert; cycle 1.
  { destruct bytes; [done|]. cbn. unfold encode, invalid_offset. destruct (Z.eqb_spec p 0); [done|].
    destruct Hp as [?|[_ Hp]]; [done|]. specialize (Hp eq_refl). apply negb_true_iff, Z.eqb_neq. lia. }
  destruct (Z.eqb_spec p 0) as [->|Hp0]; [done|]. destruct (Hne Hp0) as [He Hinv].
  rewrite (proj2 (Z.eqb_neq _ _) Hinv), He, checked_run by lia. do 2 f_equal. lia.
Qed.
Lemma rep_insert a m this p :
  rep a m → storable this p → rep (<[this := p]> a) (<[this := encode this p]> m).
Proof.
  intros H Hs. split.
  - intros x. rewrite !lookup_insert. case_decide; [done|apply H].
  - intros x q. rewrite !lookup_insert. case_decide; [subst; by intros [= <-]|apply H].
Qed.
Lemma construct_run a m this p :
  rep a m → storable this p → construct this p m = (Ok tt, <[this := encode this p]> m).
Proof.
  intros H Hs. unfold construct, encode. destruct (Z.eqb_spec p 0) as [->|Hp]; [done|].
  destruct Hs as [Ht [?|[Hp' _]]]; [done|]. rewrite (bind_ok _ _ _ _ _ (checked_run (p - this) m ltac:(lia))). done.
Qed.
Lemma not_null_run a m this p : rep a m → a !! this = Some p → p ≠ 0 → not_null this m = (Ok tt, m).
Proof.
  intros H Ha Hp. unfold not_null. rewrite (bind_ok _ _ _ _ _ (offset_get_run a m this p H Ha)).
  by rewrite (proj2 (Z.eqb_neq p 0)).
Qed.

Lemma ptr_at_some a this : ptr_at a this ≠ 0 → a !! this = Some (ptr_at a this).
Proof. unfold ptr_at. by destruct (a !! this). Qed.
Lemma offset_run a m this p : rep a m → a !! this = Some p → offset this m = (Ok (encode this p), m).
Proof. intros H Ha. unfold offset. by rewrite (proj2 (rep_ptr _ _ H this p Ha)). Qed.
Lemma copy_run a m this other p :
  rep a m → a !! other = Some p → storable this p →
  copy_construct this other m = (Ok tt, <[this := encode this p]> m).
Proof.
  intros H Ha Hs. unfold copy_construct.
  rewrite (bind_ok _ _ _ _ _ (offset_get_run a m other p H Ha)). by eapply construct_run.
Qed.

(** The members that move a pointer all read the offset of a non-null pointer and store
    another. *)
Lemma move_run a m this p q (f : Z → O Z) :
  rep a m → a !! this = Some p → p ≠ 0 → q ≠ 0 → storable this q →
  (∀ m, f (p - this) m = (Ok (q - this), m)) →
  (not_null this ;;; let! o := offset this in let! o := f o in set_offset this o) m =
    (Ok tt, <[this := encode this q]> m).
Proof.
  intros H Ha Hp Hq Hs Hf. rewrite (bind_ok _ _ _ _ _ (not_null_run a m this p H Ha Hp)).
  rewrite (bind_ok _ _ _ _ _ (offset_run a m this p H Ha)).
  unfold encode at 1. rewrite (proj2 (Z.eqb_neq p 0) Hp), (bind_ok _ _ _ _ _ (Hf m)).
  unfold encode. by rewrite (proj2 (Z.eqb_neq q 0) Hq).
Qed.
Lemma add_run a m this p diff :
  rep a m → a !! this = Some p → p ≠ 0 → p + diff * sz ≠ 0 → storable this (p + diff * sz) →
  add_assign this diff m = (Ok tt, <[this := encode this (p + diff * sz)]> m).
Proof.
  intros H Ha Hp Hq Hs. eapply (move_run a m this p _ (λ o, checked (o + diff_to_offset diff))); try done.
  intros m'. pose proof (rep_ptr _ _ H this p Ha) as [[? [?|[? _]]] _]; [done|].
  destruct Hs as [_ [?|[? _]]]; [done|]. unfold diff_to_offset.
  rewrite sint_small by lia. rewrite checked_run by lia. do 2 f_equal. lia.
Qed.
Lemma sub_run a m this p diff :
  rep a m → a !! this = Some p → p ≠ 0 → p - diff * sz ≠ 0 → storable this (p - diff * sz) →
  sub_assign this diff m = (Ok tt, <[this := encode this (p - diff * sz)]> m).
Proof.
  intros H Ha Hp Hq Hs. eapply (move_run a m this p _ (λ o, checked (o - diff_to_offset diff))); try done.
  intros m'. pose proof (rep_ptr _ _ H this p Ha) as [[? [?|[? _]]] _]; [done|].
  destruct Hs as [_ [?|[? _]]]; [done|]. unfold diff_to_offset.
  rewrite sint_small by lia. rewrite checked_run by lia. do 2 f_equal. lia.
Qed.
Lemma offset_step_run a m this p q :
  rep a m → a !! this = Some p → p ≠ 0 → q ≠ 0 → storable this q →
  (not_null this ;;; let! o := offset this in set_offset this (sint 64 (o + (q - p)))) m =
    (Ok tt, <[this := encode this q]> m).
Proof.
  intros H Ha Hp Hq Hs.
  rewrite <- (move_run a m this p q (λ o, ret (sint 64 (o + (q - p)))) H Ha Hp Hq Hs); [done|].
  intros m'. pose proof (rep_ptr _ _ H this p Ha) as [[? [?|[? _]]] _]; [done|].
  destruct Hs as [_ [?|[? _]]]; [done|]. rewrite sint_small by lia. unfold ret. do 2 f_equal. lia.
Qed.

Lemma increment_run a m this p :
  rep a m → a !! this = Some p → p ≠ 0 → p + sz ≠ 0 → storable this (p + sz) →
  increment this m = (Ok tt, <[this := encode this (p + sz)]> m).
Proof.
  intros H Ha Hp Hq Hs. rewrite <- (offset_step_run a m this p _ H Ha Hp Hq Hs). unfold increment.
  by replace (p + sz - p) with sz by lia.
Qed.
Lemma decrement_run a m this p :
  rep a m → a !! this = Some p → p ≠ 0 → p - sz ≠ 0 → storable this (p - sz) →
  decrement this m = (Ok tt, <[this := encode this (p - sz)]> m).
Proof.
  intros H Ha Hp Hq Hs. rewrite <- (offset_step_run a m this p _ H Ha Hp Hq Hs). unfold decrement.
  by replace (p - sz - p) with (- sz) by lia.
Qed.
(** A member that first copies a non-null pointer into [tmp]. *)
Lemma copied_run a m tmp this (k : O unit) a' :
  rep a m → ptr_at a this ≠ 0 → storable tmp (ptr_at a this) →
  (∀ m1, rep (<[tmp := ptr_at a this]> a) m1 → ∃ m2, k m1 = (Ok tt, m2) ∧ rep a' m2) →
  ∃ m2, (not_null this ;;; copy_construct tmp this ;;; k) m = (Ok tt, m2) ∧ rep a' m2.
Proof.
  intros H Hp Hs Hk. rewrite (bind_ok _ _ _ _ _ (not_null_run a m this _ H (ptr_at_some _ _ Hp) Hp)).
  rewrite (bind_ok _ _ _ _ _ (copy_run a m tmp this _ H (ptr_at_some _ _ Hp) Hs)).
  by apply Hk, rep_insert.
Qed.

(** Mapping the memory elsewhere moves the pointers and what they point to alike. *)
Lemma encode_shifted delta this p :
  p ≠ 0 → p + delta ≠ 0 → encode (this + delta) (shifted delta p) = encode this p.
Proof.
  intros Hp Hd. unfold encode, shifted. rewrite (proj2 (Z.eqb_neq p 0) Hp).
  rewrite (proj2 (Z.eqb_neq _ 0) Hd). lia.
Qed.
#[local] Instance shift_inj delta : Inj (=) (=) (λ x : Z, x + delta).
Proof. intros x y. lia. Qed.
Lemma map_rep a m delta :
  rep a m → (∀ this p, a !! this = Some p → storable (this + delta) (shifted delta p) ∧ (p ≠ 0 → p + delta ≠ 0)) →
  rep (kmap (λ x, x + delta) (shifted delta <$> a)) (kmap (λ x, x + delta) m).
Proof.
  intros H Hall. assert (Hk : ∀ x (y : memory), (kmap (λ x, x + delta) y : memory) !! x = y !! (x - delta)).
  { intros x y. rewrite <- (lookup_kmap (λ x, x + delta) y (x - delta)). f_equal. lia. }
  split.
  - intros x. rewrite !Hk, lookup_fmap, fmap_None. apply H.
  - intros x p. rewrite !Hk, lookup_fmap. intros (q & Hq & ->)%fmap_Some.
    destruct (Hall _ _ Hq) as [Hs Hn]. replace (x - delta + delta) with x in Hs by lia. split; [done|].
    rewrite (proj2 (rep_ptr _ _ H _ q Hq)). f_equal.
    destruct (Z.eqb_spec q 0) as [->|Hq0]; [done|]. symmetry.
    replace x with (x - delta + delta) at 1 by lia. apply encode_shifted; tauto.
Qed.

(** An [offset_ptr] refines the ordinary pointer it stands for.  Whatever address a
    program gives a pointer, copies to another pointer, or reaches by pointer arithmetic,
    the members succeed and leave offsets that still stand for the same addresses; and
    after the memory is mapped elsewhere every pointer stands for the moved object. *)
Theorem offset_refines_pointer a m o :
  rep a m → allowed a o → ∃ m', run_op o m = (Ok tt, m') ∧ rep (spec a o) m'.
Proof.
  intros H Hal. destruct o; cbn [allowed spec run_op] in *.
  - eexists. split; [by eapply construct_run|by apply rep_insert].
  - destruct Hal as [[p Hp] Hs]. unfold ptr_at in *. rewrite Hp in *.
    eexists. split; [by eapply copy_run|by apply rep_insert].
  - destruct Hal as [[p Hp] Hs]. unfold ptr_at in *. rewrite Hp in *.
    eexists. split; [by eapply copy_run|by apply rep_insert].
  - destruct Hal as (Hp & Hq & Hs). eexists. split; [|by apply rep_insert].
    by apply (increment_run a); [|apply ptr_at_some|..].
  - destruct Hal as (Hp & Hq & Hs). eexists. split; [|by apply rep_insert].
    by apply (decrement_run a); [|apply ptr_at_some|..].
  - destruct Hal as (Hp & Hq & Hs). eexists. split; [|by apply rep_insert].
    by apply (add_run a); [|apply ptr_at_some|..].
  - destruct Hal as (Hp & Hq & Hs). eexists. split; [|by apply rep_insert].
    by apply (sub_run a); [|apply ptr_at_some|..].
  - destruct Hal as (Ht & Hp & Hs & Hq & Hs'). apply (copied_run a); try done. intros m1 H1.
    eexists. split; [eapply (add_run _ _ _ (ptr_at a this) _ H1); by rewrite ?lookup_insert_eq|].
    rewrite <- (insert_insert_eq a tmp _ (ptr_at a this)). by apply rep_insert.
  - destruct Hal as (Ht & Hp & Hs & Hq & Hs'). apply (copied_run a); try done. intros m1 H1.
    eexists. split; [eapply (sub_run _ _ _ (ptr_at a this) _ H1); by rewrite ?lookup_insert_eq|].
    rewrite <- (insert_insert_eq a tmp _ (ptr_at a this)). by apply rep_insert.
  - destruct Hal as (Ht & Hp & Hs & Hq & Hs'). apply (copied_run a); try done. intros m1 H1.
    eexists. split; [|by apply rep_insert].
    eapply (increment_run _ _ _ (ptr_at a this) H1); try done. rewrite lookup_insert_ne by done. by apply ptr_at_some.
  - destruct Hal as (Ht & Hp & Hs & Hq & Hs'). apply (copied_run a); try done. intros m1 H1.
    eexists. split; [|by apply rep_insert].
    eapply (decrement_run _ _ _ (ptr_at a this) H1); try done. rewrite lookup_insert_ne by done. by apply ptr_at_some.
  - eexists. split; [done|]. by apply map_rep.
Qed.

(** Two pointers into one array differ by the number of elements between them. *)
Lemma difference_run a m this other n :
  0 < sz → rep a m → ptr_at a this ≠ 0 → ptr_at a other ≠ 0 → ptr_at a this = ptr_at a other + n * sz →
  difference this other m = (Ok n, m).
Proof.
  intros Hsz H Hp Hq Hn. unfold difference.
  rewrite (bind_ok _ _ _ _ _ (not_null_run a m this _ H (ptr_at_some _ _ Hp) Hp)).
  rewrite (bind_ok _ _ _ _ _ (not_null_run a m other _ H (ptr_at_some _ _ Hq) Hq)).
  rewrite (bind_ok _ _ _ _ _ (offset_get_run a m this _ H (ptr_at_some _ _ Hp))).
  rewrite (bind_ok _ _ _ _ _ (offset_get_run a m other _ H (ptr_at_some _ _ Hq))).
  unfold ret. do 2 f_equal. rewrite Hn. replace (_ - _) with (n * sz) by lia. apply Z.quot_mul. lia.
Qed.

(** The comparisons of two [offset_ptr]s are those of the pointers. *)
Lemma comparisons_run a m x y p q :
  rep a m → a !! x = Some p → a !! y = Some q →
  eq x y m = (Ok (bool_decide (p = q)), m) ∧ ne x y m = (Ok (bool_decide (p ≠ q)), m) ∧
  lt x y m = (Ok (bool_decide (p < q)), m) ∧ gt x y m = (Ok (bool_decide (p > q)), m) ∧
  le x y m = (Ok (bool_decide (p ≤ q)), m) ∧ ge x y m = (Ok (bool_decide (p >= q)), m).
Proof.
  intros H Hx Hy. pose proof (offset_get_run a m x p H Hx) as Ex. pose proof (offset_get_run a m y q H Hy) as Ey.
  unfold ne, le, ge, gt, eq, lt, bind, ret. rewrite !Ex, !Ey. cbn. rewrite !Ex. cbn.
  repeat split; do 2 f_equal; case_bool_decide; lia.
Qed.

(** [!=] and [<] between a raw pointer and an [offset_ptr] hold exactly when they are equal. *)
Lemma raw_comparisons a m x this p :
  rep a m → a !! this = Some p →
  ne_raw x this m = (Ok (x =? p), m) ∧ lt_raw x this m = (Ok (x =? p), m).
Proof.
  intros H Ha. unfold ne_raw, lt_raw. by rewrite !(bind_ok _ _ _ _ _ (offset_get_run a m this p H Ha)).
Qed.

End offset.

(** The pointers at 16 and 32, the first to the element at 64. *)
Definition two_pointers : memory := {[ 16 := 64; 32 := 0 ]}.
Lemma pointers_rep : rep false two_pointers {[ 16 := 48; 32 := invalid_offset ]}.
Proof.
  split.
  - intros x. unfold two_pointers. by rewrite !lookup_insert_None, !lookup_singleton_None.
  - intros x p. unfold two_pointers. rewrite !lookup_insert_Some, !lookup_singleton_Some.
    intros [[<- <-]|(? & <- & <-)]; (split; [unfold storable; lia|tauto]).
Qed.
Lemma offset_refines_pointer_witness :
  ∃ m', run_op 4 false (AddAssign 16 (-3)) {[ 16 := 48; 32 := invalid_offset ]} = (Ok tt, m') ∧
        rep false (spec 4 two_pointers (AddAssign 16 (-3))) m'.
Proof.
  apply (offset_refines_pointer 4 false two_pointers); [exact pointers_rep|].
  vm_compute. repeat split; try discriminate. right. repeat split; discriminate.
Defined.

(** The division in [offset_to_diff] is unsigned: it does not undo [diff_to_offset] on a
    negative difference. *)
Lemma offset_to_diff_negative : offset_to_diff 4 (diff_to_offset 4 (-1)) = Ok (2 ^ 62 - 1).
Proof. by vm_compute. Qed.
Lemma offset_to_diff_positive sz diff :
  0 < sz → 0 ≤ diff * sz < 2 ^ 63 → offset_to_diff sz (diff_to_offset sz diff) = Ok diff.
Proof.
  intros Hsz Hd. unfold offset_to_diff, diff_to_offset. rewrite (sint_small 64 (diff * sz)) by lia.
  unfold u64, wrap. rewrite (Z.mod_small (diff * sz)) by lia.
  rewrite Z.mod_mul, Z.div_mul by lia. cbn. f_equal. apply sint_small; nia.
Qed.

End Offset.
