(* ===== verification/CompressedPtr.v ===== *)
(** * compressed_pointer (detail/compressed_pointer.hpp)

    A pointer to an aligned object has zero low bits; [compressed_pointer] keeps flags
    there.  [data_] is a [uintptr_t]; the alignment is a power of two. *)

From S2P Require Import Prelude.

Local Open Scope Z_scope.
Local Open Scope gpcl_scope.

Module Compressed.

Section compressed.
Context (alignment : Z).

Definition flag_mask : Z := u64 (alignment - 1).

Definition get (data : Z) : Z := Z.land data (u64 (Z.lnot flag_mask)).
Definition flags (data : Z) : Z := Z.land data flag_mask.
Definition set_pointer_and_flags (p f : Z) : outcome Z :=
  oassert (Z.land p flag_mask =? 0) ;;?
  oassert (Z.land f flag_mask =? f) ;;?
  Ok (Z.lor p f).
Definition construct_null : Z := 0.
Definition construct (p f : Z) : outcome Z := set_pointer_and_flags p f.
Definition assign (data p : Z) : outcome Z := set_pointer_and_flags p (flags data).
Definition assign_null (data : Z) : outcome Z := set_pointer_and_flags 0 (flags data).
Definition set_flags (data f : Z) : outcome Z := set_pointer_and_flags (get data) f.
Definition swap (x y : Z) : Z * Z := (y, x).
Definition to_bool (data : Z) : bool := negb (get data =? 0).

(** Comparison with [nullptr], with each other and with plain pointers. *)
Definition eq_null (x : Z) : bool := get x =? 0.
Definition ne_null (x : Z) : bool := negb (get x =? 0).
Definition eq (x y : Z) : bool := get x =? get y.
Definition ne (x y : Z) : bool := negb (get x =? get y).
Definition lt (x y : Z) : bool := get x <? get y.
Definition gt (x y : Z) : bool := get y <? get x.
Definition le (x y : Z) : bool := get x <=? get y.
Definition ge (x y : Z) : bool := get y <=? get x.
Definition eq_raw (x y : Z) : bool := get x =? y.
Definition ne_raw (x y : Z) : bool := negb (get x =? y).
Definition lt_raw (x y : Z) : bool := get x <? y.
Definition gt_raw (x y : Z) : bool := y <? get x.
Definition le_raw (x y : Z) : bool := get x <=? y.
Definition ge_raw (x y : Z) : bool := y <=? get x.
Definition raw_eq (x y : Z) : bool := x =? get y.
Definition raw_ne (x y : Z) : bool := negb (x =? get y).
Definition raw_lt (x y : Z) : bool := x <? get y.
Definition raw_gt (x y : Z) : bool := get y <? x.
Definition raw_le (x y : Z) : bool := x <=? get y.
Definition raw_ge (x y : Z) : bool := get y <=? x.

(** ** Pointers and flags *)

Context (k : Z) (Hk : 0 ≤ k < 64) (Halign : alignment = 2 ^ k).

(** An aligned pointer, and flags that fit in its low bits. *)
Definition aligned (p : Z) : Prop := 0 ≤ p < 2 ^ 64 ∧ p mod alignment = 0.
Definition fits (f : Z) : Prop := 0 ≤ f < alignment.

Lemma align_pos : 0 < alignment ≤ 2 ^ 63.
Proof. rewrite Halign. split; [apply Z.pow_pos_nonneg; lia|apply Z.pow_le_mono_r; lia]. Qed.
Lemma mask_ones : flag_mask = Z.ones k.
Proof. unfold flag_mask. pose proof align_pos. rewrite u64_small by lia. by rewrite Halign, Z.ones_equiv, Z.sub_1_r. Qed.
Lemma land_mask x : Z.land x flag_mask = x mod alignment.
Proof. rewrite mask_ones, Halign. apply Z.land_ones. lia. Qed.
Lemma land_unmask x : 0 ≤ x < 2 ^ 64 → get x = x - x mod alignment.
Proof.
  intros Hx. unfold get. assert (Hl : Z.land x (u64 (Z.lnot flag_mask)) = Z.ldiff x flag_mask).
  { apply Z.bits_inj'. intros n Hn. rewrite Z.land_spec, Z.ldiff_spec. unfold u64, wrap.
    destruct (Z.ltb_spec n 64).
    - by rewrite Z.mod_pow2_bits_low, Z.lnot_spec by lia.
    - rewrite <- (Z.mod_small x (2 ^ 64)) by done. by rewrite Z.mod_pow2_bits_high by lia. }
  rewrite Hl, mask_ones, Z.ldiff_ones_r, Z.shiftl_mul_pow2, Z.shiftr_div_pow2, <- Halign by lia.
  pose proof align_pos. pose proof (Z.div_mod x alignment). lia.
Qed.
Lemma land_parts p f : aligned p → fits f → Z.land p f = 0 ∧ Z.land f flag_mask = f.
Proof.
  intros [Hp Hm] Hf. pose proof (land_mask f) as Hmf. rewrite Z.mod_small in Hmf by done. split; [|done].
  rewrite <- Hmf, (Z.land_comm f), Z.land_assoc, land_mask, Hm. apply Z.land_0_l.
Qed.
Lemma lor_parts p f : aligned p → fits f → Z.lor p f = p + f.
Proof. intros Hp Hf. rewrite <- Z.add_lor_land, (proj1 (land_parts p f Hp Hf)). lia. Qed.
Lemma parts_range p f : aligned p → fits f → 0 ≤ p + f < 2 ^ 64 ∧ (p + f) mod alignment = f.
Proof.
  intros [Hp Hm] Hf. pose proof align_pos. split.
  - split; [unfold fits in Hf; lia|]. apply Z.mod_divide in Hm as [q ->]; [|lia].
    assert (q * alignment + alignment ≤ 2 ^ 64); [|unfold fits in Hf; lia].
    assert (Hd : 2 ^ 64 = 2 ^ (64 - k) * alignment) by (rewrite Halign, <- Z.pow_add_r by lia; f_equal; lia).
    rewrite Hd in Hp |- *. assert (q < 2 ^ (64 - k)) by (apply (Z.mul_lt_mono_pos_r alignment); lia). nia.
  - rewrite <- Z.add_mod_idemp_l, Hm by lia. apply Z.mod_small. done.
Qed.

(** A word that keeps the pointer [p] and the flags [f]. *)
Definition holds (data p f : Z) : Prop := aligned p ∧ fits f ∧ data = p + f.

Lemma holds_get data p f : holds data p f → get data = p.
Proof. intros (Hp & Hf & ->). destruct (parts_range p f Hp Hf) as [Hr Hm]. rewrite land_unmask, Hm by done. lia. Qed.
Lemma holds_flags data p f : holds data p f → flags data = f.
Proof. intros (Hp & Hf & ->). unfold flags. rewrite land_mask. by apply parts_range. Qed.
Lemma set_holds p f : aligned p → fits f → ∃ data, set_pointer_and_flags p f = Ok data ∧ holds data p f.
Proof.
  intros Hp Hf. unfold set_pointer_and_flags. rewrite obind_assert; cycle 1.
  { rewrite land_mask. by apply Z.eqb_eq, Hp. }
  rewrite obind_assert by (rewrite (proj2 (land_parts p f Hp Hf)); apply Z.eqb_refl).
  exists (Z.lor p f). split; [done|]. by rewrite lor_parts.
Qed.
Lemma set_rejects p f : 0 ≤ p < 2 ^ 64 → 0 ≤ f → ¬ aligned p ∨ ¬ fits f → set_pointer_and_flags p f = Abort.
Proof.
  intros Hp Hf0 Hbad. unfold set_pointer_and_flags. rewrite !land_mask. pose proof align_pos.
  destruct (Z.eqb_spec (p mod alignment) 0) as [Hm|Hm]; [|done]. cbn.
  destruct (Z.eqb_spec (f mod alignment) f) as [Hf|Hf]; [|done]. exfalso.
  destruct Hbad as [Hn|Hn]; apply Hn; [by split|]. pose proof (Z.mod_pos_bound f alignment). unfold fits. lia.
Qed.

(** A [compressed_pointer] keeps a pointer and flags apart: after it was set, or after
    either part was replaced, it gives back exactly the pointer and the flags, for every
    aligned pointer and all flags that fit in its low bits; anything else is rejected by an
    assertion. *)
Theorem compressed_roundtrip p f q g :
  aligned p → fits f → aligned q → fits g →
  ∃ d, construct p f = Ok d ∧ get d = p ∧ flags d = f ∧
    (∃ d', assign d q = Ok d' ∧ get d' = q ∧ flags d' = f) ∧
    (∃ d', assign_null d = Ok d' ∧ get d' = 0 ∧ flags d' = f) ∧
    (∃ d', set_flags d g = Ok d' ∧ get d' = p ∧ flags d' = g) ∧
    (∀ x, 0 ≤ x < 2 ^ 64 → ¬ aligned x → assign d x = Abort) ∧
    (∀ x, 0 ≤ x → ¬ fits x → set_flags d x = Abort).
Proof.
  intros Hp Hf Hq Hg. destruct (set_holds p f Hp Hf) as (d & Hd & Hh).
  exists d. unfold construct, assign, assign_null, set_flags. rewrite (holds_get _ _ _ Hh), (holds_flags _ _ _ Hh).
  assert (Hz : aligned 0) by (split; [lia|apply Z.mod_0_l; pose proof align_pos; lia]).
  assert (Hset : ∀ x y, aligned x → fits y → ∃ d', set_pointer_and_flags x y = Ok d' ∧ get d' = x ∧ flags d' = y).
  { intros x y Hx Hy. destruct (set_holds x y Hx Hy) as (d' & -> & Hh'). exists d'.
    split; [done|]. split; [by eapply holds_get|by eapply holds_flags]. }
  split_and!; [done|done|done|by apply Hset|by apply Hset|by apply Hset| |].
  - intros x Hx Hn. apply set_rejects; [done|unfold fits in Hf; lia|by left].
  - intros x Hx Hn. apply set_rejects; [apply Hp|done|by right].
Qed.

(** The flags do not take part in a comparison. *)
Lemma compressed_comparisons x y p f q g :
  holds x p f → holds y q g →
  eq x y = (p =? q) ∧ ne x y = negb (p =? q) ∧ lt x y = (p <? q) ∧ gt x y = (q <? p) ∧
  le x y = (p <=? q) ∧ ge x y = (q <=? p) ∧ to_bool x = negb (p =? 0).
Proof.
  intros Hx Hy. unfold eq, ne, lt, gt, le, ge, to_bool. by rewrite (holds_get _ _ _ Hx), (holds_get _ _ _ Hy).
Qed.

End compressed.

Lemma compressed_roundtrip_witness :
  ∃ d, construct 8 4096 5 = Ok d ∧ get 8 d = 4096 ∧ flags 8 d = 5.
Proof.
  destruct (compressed_roundtrip 8 3 ltac:(lia) eq_refl 4096 5 64 1) as (d & H1 & H2 & H3 & _);
    [split; [lia|reflexivity]|unfold fits; lia|split; [lia|reflexivity]|unfold fits; lia|].
  exists d. auto.
Defined.

End Compressed.
