(* ===== verification/UniqueHandle.v ===== *)
(** * unique_handle and scoped_array (detail/unique_handle.hpp, scoped_array.hpp)

    A [unique_handle] owns a native handle and closes it; its traits say which handles are
    valid.  [handles] holds the objects that live, [open] the handles of the system that
    are open.  Closing a handle that is not open fails the [GPCL_VERIFY] of the traits.
    [scoped_array] owns an array in the same way; there, a second [delete] is undefined. *)

From S2P Require Import Prelude.

Local Open Scope Z_scope.
Local Open Scope gpcl_scope.

(** The traits of unique_handle.hpp. *)
Class HandleTraits : Type := {
  invalid_value : Z;
  is_valid : Z → bool;
}.
Class HandleTraitsOk `{!HandleTraits} : Prop := invalid_not_valid : is_valid invalid_value = false.

(** [fd_traits]; [file_traits] and [nullable_traits]; [valid_traits]. *)
Definition fd_traits : HandleTraits := {| invalid_value := -1; is_valid h := 0 <=? h |}.
Definition file_traits : HandleTraits := {| invalid_value := null; is_valid h := negb (h =? null) |}.
Definition valid_traits : HandleTraits := {| invalid_value := -1; is_valid h := negb (h =? -1) |}.

#[export] Instance fd_traits_ok : @HandleTraitsOk fd_traits.
Proof. done. Qed.
#[export] Instance file_traits_ok : @HandleTraitsOk file_traits.
Proof. done. Qed.
#[export] Instance valid_traits_ok : @HandleTraitsOk valid_traits.
Proof. done. Qed.

Module UniqueHandle.

Section handle.
Context {HT : HandleTraits}.

Record state : Type := State { handles : gmap Z Z; open : gset Z }.
Abbreviation H_ T := (M state T).

Definition get_h (x : Z) : H_ Z := λ s, match handles s !! x
    with Some h => (Ok h, s) | None => (Undef, s) end.
Definition set_h (x h : Z) : H_ unit := modify (λ s, State (<[x := h]> (handles s)) (open s)).
Definition close (h : Z) : H_ unit := λ s,
  if decide (h ∈ open s) then (Ok tt, State (handles s) (open s ∖ {[ h ]})) else (Abort, s).

Definition construct (x h : Z) : H_ unit := set_h x h.
Definition reset (x h : Z) : H_ unit :=
  let! h_ := get_h x in
  (if is_valid h_ then close h_ else ret tt) ;;;
  set_h x h.
Definition release (x : Z) : H_ Z :=
  let! h_ := get_h x in
  set_h x invalid_value ;;;
  ret h_.
Definition move_construct (x other : Z) : H_ unit := let! h := release other in construct x h.
Definition move_assign (x other : Z) : H_ unit := let! h := release other in reset x h.
Definition destruct_ (x : Z) : H_ unit :=
  reset x invalid_value ;;; modify (λ s, State (delete x (handles s)) (open s)).
Definition swap (x other : Z) : H_ unit :=
  let! h := get_h x in
  let! g := get_h other in
  set_h x g ;;; set_h other h.
Definition operator_bool (x : Z) : H_ bool := let! h := get_h x in ret (is_valid h).
Definition get (x : Z) : H_ Z := let! h := get_h x in gpcl_assert (is_valid h) ;;; ret h.
Definition less (x y : Z) : H_ bool := let! h := get x in let! g := get y in ret (h <? g).

(** ** Ownership *)

(** Every valid handle of an object is open, and of no other object. *)
Record owned (s : state) : Prop := {
  owned_open x h : handles s !! x = Some h → is_valid h = true → h ∈ open s;
  owned_once x y h : handles s !! x = Some h → handles s !! y = Some h → is_valid h = true → x = y;
}.
(** The handles that are open but belong to no object. *)
Definition stray (s : state) (h : Z) : Prop := h ∈ open s ∧ ∀ x, handles s !! x ≠ Some h.

Inductive op : Type :=
| Construct (x h : Z)
| MoveConstruct (x y : Z)
| MoveAssign (x y : Z)
| Reset (x h : Z)
| Swap (x y : Z)
| Destruct (x : Z).
Definition run_op (o : op) : H_ unit :=
  match o with
  | Construct x h => construct x h
  | MoveConstruct x y => move_construct x y
  | MoveAssign x y => move_assign x y
  | Reset x h => reset x h
  | Swap x y => swap x y
  | Destruct x => destruct_ x
  end.
Definition held (s : state) (x : Z) : Z := default invalid_value (handles s !! x).
(** The objects and the open handles the specification asks for. *)
Definition spec (s : state) (o : op) : state :=
  match o with
  | Construct x h => State (<[x := h]> (handles s)) (open s)
  | MoveConstruct x y => State (<[x := held s y]> (<[y := invalid_value]> (handles s))) (open s)
  | MoveAssign x y =>
      State (<[x := held s y]> (<[y := invalid_value]> (handles s)))
        (if decide (x = y) then open s else open s ∖ {[ held s x ]})
  | Reset x h => State (<[x := h]> (handles s)) (open s ∖ {[ held s x ]})
  | Swap x y => State (<[x := held s y]> (<[y := held s x]> (handles s))) (open s)
  | Destruct x => State (delete x (handles s)) (open s ∖ {[ held s x ]})
  end.
Definition fresh_handle (s : state) (h : Z) : Prop := is_valid h = false ∨ stray s h.
Definition allowed (s : state) (o : op) : Prop :=
  match o with
  | Construct x h => handles s !! x = None ∧ fresh_handle s h
  | MoveConstruct x y => handles s !! x = None ∧ is_Some (handles s !! y)
  | MoveAssign x y | Swap x y => is_Some (handles s !! x) ∧ is_Some (handles s !! y)
  | Reset x h => is_Some (handles s !! x) ∧ fresh_handle s h
  | Destruct x => is_Some (handles s !! x)
  end.
(** The open handles are valid. *)
Definition valid_open (s : state) : Prop := ∀ h, h ∈ open s → is_valid h = true.

Context {HTok : HandleTraitsOk}.

Lemma get_h_run s x h : handles s !! x = Some h → get_h x s = (Ok h, s).
Proof. intros H. unfold get_h. by rewrite H. Qed.
(** [reset] closes exactly the handle the object held. *)
Lemma handle_reset_run s x g h :
  handles s !! x = Some g → (is_valid g = true → g ∈ open s) → valid_open s →
  reset x h s = (Ok tt, State (<[x := h]> (handles s)) (open s ∖ {[ g ]})).
Proof.
  intros Hx Hg Hv. unfold reset. rewrite (bind_ok _ _ _ _ _ (get_h_run s x g Hx)).
  destruct (is_valid g) eqn:E.
  - unfold close, bind. rewrite decide_True by auto. done.
  - assert (Hn : open s ∖ {[ g ]} = open s).
    { apply leibniz_equiv. intros i. rewrite elem_of_difference, elem_of_singleton. split; [tauto|].
      intros Hi. split; [done|]. intros ->. by rewrite (Hv _ Hi) in E. }
    rewrite Hn. done.
Qed.

Ltac invalid := match goal with H : is_valid invalid_value = true |- _ => rewrite invalid_not_valid
  in H; discriminate end.
Ltac same_owner Hon := match goal with
  | H1 : handles ?s !! ?a = Some ?h, H2 : handles ?s !! ?b = Some ?h, Hv : is_valid ?h = true |- _ =>
      first [constr_eq a b; fail 1 | pose proof (Hon a b h H1 H2 Hv); subst; congruence]
  end.
Ltac new_handle := match goal with H : fresh_handle _ _ |- _ => destruct H as [?|[? Hno]];
  [congruence|first [done|exfalso; eapply Hno; eassumption]] end.

Lemma owned_spec s o : owned s → allowed s o → owned (spec s o).
Proof.
  intros [Hop Hon] Hal. destruct o as [x h|x y|x y|x h|x y|x]; cbn [spec allowed] in *;
    repeat match goal with E : _ ∧ _ |- _ => destruct E as [?Hc ?Hd] | E :
      is_Some _ |- _ => destruct E as [? E] end;
    unfold held;
      repeat match goal with E :
      handles ?s !! ?x = Some _ |- context [default _ (handles ?s !! ?x)] => rewrite E end;
    cbn [default id]; split; cbn; intros *; rewrite ?lookup_insert, ?lookup_delete, ?lookup_insert;
      repeat case_decide; intros;
    simplify_eq; try invalid; try done; try (by eauto); try (same_owner Hon); try new_handle;
    rewrite ?elem_of_difference, ?elem_of_singleton; split; try (by eauto); try (same_owner Hon);
      try new_handle; intros ->; try (same_owner Hon); try new_handle.
Qed.
Lemma run_spec s o : owned s → valid_open s → allowed s o → run_op o s = (Ok tt, spec s o).
Proof.
  intros [Hop Hon] Hval Hal. destruct o as [x h|x y|x y|x h|x y|x]; cbn [run_op spec allowed] in *;
    repeat match goal with E : _ ∧ _ |- _ => destruct E as [?Hc ?Hd] | E :
      is_Some _ |- _ => destruct E as [? E] end;
    unfold held;
      repeat match goal with E :
      handles ?s !! ?x = Some _ |- context [default _ (handles ?s !! ?x)] => rewrite E end;
      cbn [default id].
  - done.
  - unfold move_construct, release. by rewrite bind_assoc, (bind_ok _ _ _ _ _ (get_h_run s y _ Hd)).
  - unfold move_assign, release.
    rewrite bind_assoc, (bind_ok _ _ _ _ _ (get_h_run s y _ Hd)), bind_assoc. unfold set_h at 1.
    rewrite bind_modify, bind_ret_l.
    destruct (decide (x = y)) as [->|Hxy].
    + erewrite handle_reset_run; [|by apply lookup_insert_eq|intros; invalid|done]. cbn.
      do 2 f_equal. apply leibniz_equiv. intros i.
      rewrite elem_of_difference, elem_of_singleton. split; [tauto|]. intros Hi. split; [done|].
      intros ->. specialize (Hval _ Hi). invalid.
    + erewrite handle_reset_run; [done|cbn; by rewrite lookup_insert_ne|by eauto|done].
  - by rewrite (handle_reset_run s x _ h Hc) by eauto.
  - unfold swap.
    rewrite (bind_ok _ _ _ _ _ (get_h_run s x _ Hc)), (bind_ok _ _ _ _ _ (get_h_run s y _ Hd)). cbn.
    do 2 f_equal.
    destruct (decide (x = y)) as [->|Hxy]; [|by rewrite insert_insert_ne]. by simplify_eq.
  - unfold destruct_.
    rewrite (bind_ok _ _ _ _ _ (handle_reset_run s x _ _ Hal ltac:(by eauto) Hval)). unfold modify.
    cbn [handles open]. by rewrite delete_insert_eq.
Qed.

(** Handles are owned: every constructor, assignment, [reset], [swap] and destructor
    does what its specification says and never fails; each handle that is replaced or
    whose object dies is closed exactly once, no handle of another object is closed, and
    every handle still has one owner; moving an object into itself keeps its handle. *)
Theorem unique_handle_owns s o :
  owned s → valid_open s → allowed s o →
  run_op o s = (Ok tt, spec s o) ∧ owned (spec s o) ∧ valid_open (spec s o).
Proof.
  intros Hown Hval Hal. split; [by apply run_spec|]. split; [by apply owned_spec|]. intros h Hh.
  apply Hval.
  destruct o; cbn in Hh; repeat case_decide; set_solver.
Qed.

(** [reset] with the handle the object already has closes it and keeps it. *)
Lemma reset_self_dangles s x h :
  owned s → valid_open s → handles s !! x = Some h → is_valid h = true →
  ∃ s', reset x h s = (Ok tt, s') ∧ handles s' !! x = Some h ∧ h ∉ open s'.
Proof.
  intros [Hop Hon] Hval Hx Hh. rewrite (handle_reset_run s x h h) by eauto. eexists. split; [done|]. cbn.
  rewrite lookup_insert_eq. split; [done|set_solver].
Qed.

End handle.

Definition two_files : state := State {[ 1 := 3; 2 := 4; 5 := -1 ]} {[ 3; 4; 9 ]}.
Lemma unique_handle_owns_witness :
  run_op (HT := fd_traits) (MoveAssign 1 2) two_files = (Ok tt,
    State {[ 1 := 4; 2 := -1; 5 := -1 ]} {[ 4; 9 ]}) ∧
  run_op (HT := fd_traits) (MoveAssign 1 2) two_files = (Ok tt,
    spec (HT := fd_traits) two_files (MoveAssign 1 2)) ∧
  owned (HT := fd_traits) (spec (HT := fd_traits) two_files (MoveAssign 1 2)) ∧
  valid_open (HT := fd_traits) (spec (HT := fd_traits) two_files (MoveAssign 1 2)).
Proof.
  split; [vm_compute; reflexivity|].
  apply (unique_handle_owns (HT := fd_traits) two_files (MoveAssign 1 2)).
  - split; cbn; intros *; rewrite !lookup_insert, ?lookup_singleton; repeat case_decide; intros;
      simplify_eq; try done;
      repeat match goal with H : is_valid _ = true |- _ => vm_compute in H end; try done;
      rewrite ?elem_of_union, ?elem_of_singleton; lia.
  - intros h Hh. cbn in Hh. rewrite !elem_of_union, !elem_of_singleton in Hh. apply Z.leb_le. lia.
  - split; by eexists.
Defined.

End UniqueHandle.

(** ** scoped_array *)

Module ScopedArray.

(** [data_] of the arrays that live, and the arrays made by [new[]]. *)
Record state : Type := State { arrays : gmap Z Z; blocks : gmap Z (list Z) }.
Abbreviation S_ T := (M state T).

Definition get (x : Z) : S_ Z := λ s, match arrays s !! x
    with Some p => (Ok p, s) | None => (Undef, s) end.
Definition set_data (x p : Z) : S_ unit := modify (λ s, State (<[x := p]> (arrays s)) (blocks s)).
(** [delete[] p]. *)
Definition delete_array (p : Z) : S_ unit := λ s,
  if decide (p = null) then (Ok tt, s)
  else match blocks s !! p with
       | Some _ => (Ok tt, State (arrays s) (delete p (blocks s)))
       | None => (Undef, s)
       end.
Definition construct (x p : Z) : S_ unit := set_data x p.
Definition reset (x p : Z) : S_ unit := let! q := get x in delete_array q ;;; set_data x p.
Definition destruct_ (x : Z) : S_ unit := reset x null ;;;
    modify (λ s, State (delete x (arrays s)) (blocks s)).
Definition at_ (x : Z) (i : nat) : S_ Z :=
  let! p := get x in
  λ s, match blocks s !! p ≫= λ l, l !! i with Some v => (Ok v, s) | None => (Undef, s) end.
Definition swap (x other : Z) : S_ unit :=
  let! p := get x in
  let! q := get other in
  set_data x q ;;; set_data other p.

(** The arrays have one owner each. *)
Record owned (s : state) : Prop := {
  owned_block x p : arrays s !! x = Some p → p ≠ null → is_Some (blocks s !! p);
  owned_once x y p : arrays s !! x = Some p → arrays s !! y = Some p → p ≠ null → x = y;
}.

(** [reset] and the destructor free exactly the array that is owned. *)
Lemma scoped_array_reset s x q p :
  owned s → arrays s !! x = Some q → p = null ∨ is_Some (blocks s !! p) ∧ (∀ y, arrays s !! y ≠ Some p) →
  reset x p s = (Ok tt,
    State (<[x := p]> (arrays s)) (if decide (q = null) then blocks s else delete q (blocks s))) ∧
  owned (snd (reset x p s)).
Proof.
  intros [Hb Ho] Hx Hp.
  assert (Hr :
    reset x p s = (Ok tt,
    State (<[x := p]> (arrays s)) (if decide (q = null) then blocks s else delete q (blocks s)))).
  { unfold reset, get, delete_array, bind. rewrite Hx. destruct (decide (q = null)); [done|].
    destruct (Hb x q Hx) as [? ->]; done. }
  split; [done|]. rewrite Hr. cbn [snd]. split; cbn; intros *.
  - rewrite lookup_insert. destruct (decide (x = x0)) as [<-|Hne].
    + intros [= <-] Hn. destruct Hp as [?|[Hs Hno]]; [done|]. destruct (decide (q = null)); [done|].
      rewrite lookup_delete_ne; [done|]. intros ->. by destruct (Hno x).
    + intros H Hn. destruct (decide (q = null)); [by eapply Hb|]. rewrite lookup_delete_ne;
        [by eapply Hb|].
      intros ->. by apply Hne, (Ho x x0 p0).
  - rewrite !lookup_insert. destruct (decide (x = x0)), (decide (x = y)); intros; simplify_eq;
      try done; [..|by eauto];
      (destruct Hp as [?|[_ Hno]]; [done|]); exfalso; by eapply Hno.
Qed.

End ScopedArray.
