(* ===== verification/ScopeGuard.v ===== *)
(** * scope_exit, scope_fail, scope_success

    A guard calls its function when its scope is left: always, when an exception leaves it,
    or when none does.  The classes decide that by comparing [std::uncaught_exceptions()]
    in the destructor with its value at construction.  Programs with nested guards are run
    with the counter, as the classes do, and with a reference semantics that looks at how
    the scope is left. *)

From S2P Require Import Prelude.

Local Open Scope Z_scope.

Module Guard.

(** ** The guards *)

Inductive kind : Type := Exit | Fail_ | Success.

Record guard : Type := MkGuard { kind_ : kind; uncaught_exceptions_ : Z; active_ : bool }.

(** The constructor, where [u] exceptions are uncaught. *)
Definition construct (k : kind) (u : Z) : guard := MkGuard k u true.
Definition release (g : guard) : guard := MkGuard (kind_ g) (uncaught_exceptions_ g) false.
(** The move constructor: the new guard and the one it was made of. *)
Definition move (other : guard) : guard * guard :=
  (MkGuard (kind_ other) (uncaught_exceptions_ other) (active_ other), release other).
(** Whether the destructor calls the function; [u] exceptions are uncaught when it runs. *)
Definition destructor_calls (g : guard) (u : Z) : bool :=
  active_ g &&
  match kind_ g with
  | Exit => true
  | Fail_ => uncaught_exceptions_ g <? u
  | Success => u <=? uncaught_exceptions_ g
  end.
(** The destructors of [scope_exit] and [scope_fail] are [noexcept]; that of
    [scope_success] is when its function is. *)
Definition destructor_noexcept (k : kind) : bool :=
  match k with Exit | Fail_ => true | Success => false end.

(** ** Programs *)

Inductive prog : Type :=
| Skip
| Emit (n : Z)
| Raise
| Seq (p q : prog)
| Catch (p : prog)
(** [{ guard g(f); p }] *)
| Scope (k : kind) (f p : prog)
(** [release()] of the guard of the [n]th enclosing scope *)
| Release (n : nat).

Inductive result : Type := Normal | Exc | Terminated.
#[export] Instance result_eq_dec : EqDecision result.
Proof. solve_decision. Defined.

(** The guards in scope are the state; [Emit] writes to the trace. *)
Abbreviation out G := (list Z * result * list G)%type.

Definition then_ {G} (r : out G) (k : list G → out G) : out G :=
  match r with
  | (t, Normal, e) => let '(t', r', e') := k e in (t ++ t', r', e')
  | _ => r
  end.
(** The call of the function of a guard, when the scope was left with [r]. *)
Definition call_on_exit {G} (calls noexcept_ : bool) (r : result) (e : list G) (f : list G → out G) : out G :=
  if calls then
    match f e with
    | (t, Normal, e') => (t, r, e')
    | (t, Exc, e') => (t, if noexcept_ || bool_decide (r = Exc) then Terminated else Exc, e')
    | (t, Terminated, e') => (t, Terminated, e')
    end
  else ([], r, e).
Definition leave_scope {G} (body : out G) (calls : result → G → bool) (noexcept_ : bool) (f : result → list G → out G) : out G :=
  match body with
  | (t, Terminated, e) => (t, Terminated, tail e)
  | (t, r, g :: e) => let '(t', r', e') := call_on_exit (calls r g) noexcept_ r e (f r) in (t ++ t', r', e')
  | (t, r, []) => (t, r, [])
  end.

(** With the counter: [u] exceptions are uncaught, one more while a scope is left by one. *)
Definition unwinding (r : result) : Z := match r with Exc => 1 | _ => 0 end.
Fixpoint run (p : prog) (u : Z) (e : list guard) : out guard :=
  match p with
  | Skip => ([], Normal, e)
  | Emit n => ([n], Normal, e)
  | Raise => ([], Exc, e)
  | Seq p q => then_ (run p u e) (run q u)
  | Catch p => match run p u e with (t, Exc, e') => (t, Normal, e') | r => r end
  | Scope k f p =>
      leave_scope (run p u (construct k u :: e)) (λ r g, destructor_calls g (u + unwinding r))
        (destructor_noexcept k) (λ r, run f (u + unwinding r))
  | Release n => ([], Normal, alter release n e)
  end.

(** By the way the scope is left: a guard is its kind and whether it is active. *)
Definition left_calls (r : result) (g : kind * bool) : bool :=
  g.2 && match g.1 with Exit => true | Fail_ => bool_decide (r = Exc) | Success => bool_decide (r = Normal) end.
Fixpoint refer (p : prog) (e : list (kind * bool)) : out (kind * bool) :=
  match p with
  | Skip => ([], Normal, e)
  | Emit n => ([n], Normal, e)
  | Raise => ([], Exc, e)
  | Seq p q => then_ (refer p e) (refer q)
  | Catch p => match refer p e with (t, Exc, e') => (t, Normal, e') | r => r end
  | Scope k f p => leave_scope (refer p ((k, true) :: e)) left_calls (destructor_noexcept k) (λ _, refer f)
  | Release n => ([], Normal, alter (λ g, (g.1, false)) n e)
  end.

(** ** Lemmas *)

Definition shape (g : guard) : kind * bool := (kind_ g, active_ g).
(** Guards keep the counter they were made with. *)
Definition counters (e : list guard) : list Z := uncaught_exceptions_ <$> e.
Definition agrees (c : list Z) (r : out guard) (r' : out (kind * bool)) : Prop :=
  r.1 = r'.1 ∧ shape <$> r.2 = r'.2 ∧ counters r.2 = c.

Lemma alter_release n e :
  shape <$> alter release n e = alter (λ g, (g.1, false)) n (shape <$> e) ∧ counters (alter release n e) = counters e.
Proof. split; revert n; induction e as [|g e IH]; intros [|n]; cbn; try done; f_equal; apply IH. Qed.
(** What the counter tells. *)
Lemma destructor_left u r g :
  uncaught_exceptions_ g = u → r ≠ Terminated → destructor_calls g (u + unwinding r) = left_calls r (shape g).
Proof.
  intros <- Hr. unfold destructor_calls, left_calls, shape. cbn [fst snd]. f_equal.
  destruct (kind_ g), r; try done; cbn [unwinding]; case_bool_decide; try done; lia.
Qed.

Lemma then_agrees c r r' k k' :
  agrees c r r' → (∀ e, counters e = c → agrees c (k e) (k' (shape <$> e))) → agrees c (then_ r k) (then_ r' k').
Proof.
  destruct r as [[t o] e], r' as [[t' o'] e']. intros ([= <- <-] & He & Hc) Hk. cbn in He, Hc. subst e'.
  destruct o; try done. cbn. specialize (Hk e Hc). destruct (k e) as [[t1 o1] e1], (k' (shape <$> e)) as [[t2 o2] e2].
  destruct Hk as ([= <- <-] & He1 & Hc1). done.
Qed.
Lemma call_agrees c (b n : bool) o e f f' :
  counters e = c → agrees c (f e) (f' (shape <$> e)) → agrees c (call_on_exit b n o e f) (call_on_exit b n o (shape <$> e) f').
Proof.
  intros Hc Hf. destruct b; [|done]. cbn. destruct (f e) as [[t1 o1] e1], (f' (shape <$> e)) as [[t2 o2] e2].
  destruct Hf as ([= <- <-] & He1 & Hc1). by destruct o1.
Qed.
Lemma leave_agrees c u r r' n f f' :
  agrees (u :: c) r r' →
  (∀ o e, o ≠ Terminated → counters e = c → agrees c (f o e) (f' o (shape <$> e))) →
  agrees c (leave_scope r (λ o g, destructor_calls g (u + unwinding o)) n f) (leave_scope r' left_calls n f').
Proof.
  destruct r as [[t o] [|g e]], r' as [[t' o'] e']; intros ([= <- <-] & He & [= Hg Hc]) Hf. cbn in He. subst e'.
  assert (o ≠ Terminated → agrees c (leave_scope (t, o, g :: e) (λ o g, destructor_calls g (u + unwinding o)) n f)
    (leave_scope (t, o, shape g :: (shape <$> e)) left_calls n f')) as Hlive.
  { intros Ho. assert (Hcall : agrees c (call_on_exit (destructor_calls g (u + unwinding o)) n o e (f o))
      (call_on_exit (left_calls o (shape g)) n o (shape <$> e) (f' o))).
    { rewrite (destructor_left u o g Hg Ho). apply call_agrees; auto. }
    destruct o; try done; cbn; destruct (call_on_exit _ _ _ e _) as [[t1 o1] e1], (call_on_exit _ _ _ (shape <$> e) _) as [[t2 o2] e2];
      destruct Hcall as ([= <- <-] & He1 & Hc1); done. }
  destruct o; [by apply Hlive|by apply Hlive|done].
Qed.
Lemma run_agrees p u e : agrees (counters e) (run p u e) (refer p (shape <$> e)).
Proof.
  revert u e. induction p as [| | |p IHp q IHq|p IHp|k f IHf p IHp|n]; intros u e; cbn [run refer]; try done.
  - apply then_agrees; [done|]. intros e' <-. apply IHq.
  - specialize (IHp u e). destruct (run p u e) as [[t o] e1], (refer p (shape <$> e)) as [[t' o'] e2].
    destruct IHp as ([= <- <-] & He & Hc). by destruct o.
  - apply leave_agrees; [apply (IHp u (construct k u :: e))|]. intros o e' _ <-. apply IHf.
  - split; [done|]. apply alter_release.
Qed.

(** C34: The comparison of the numbers of uncaught exceptions tells how a scope is left,
    also for guards inside functions that other guards call while an exception propagates:
    a program of nested guards behaves exactly as one in which [scope_exit] always calls
    its function, [scope_fail] when an exception leaves the scope and [scope_success] when
    none does, each only if it was not released. *)
Theorem scope_guards_correct p u : (run p u []).1 = (refer p []).1.
Proof. apply (run_agrees p u []). Qed.

(** A moved guard takes the duty of the other over: together they call the function once,
    where the other would have. *)
Lemma move_guard g u :
  destructor_calls (move g).1 u = destructor_calls g u ∧ destructor_calls (move g).2 u = false.
Proof. by destruct g. Qed.
(** A guard that is moved into a scope of a function called during unwinding goes on
    comparing with the counter of the scope it was made in: a [scope_fail] calls its
    function although its new scope is left normally. *)
Lemma moved_scope_fail u : destructor_calls (move (construct Fail_ u)).1 (u + 1) = true.
Proof. cbn. lia. Qed.
(** A function of [scope_exit] that throws terminates the program. *)
Lemma scope_exit_throws : (run (Catch (Scope Exit Raise (Emit 1))) 0 []).1 = ([1], Terminated).
Proof. reflexivity. Qed.

End Guard.
