(* ===== verification/ExceptionInfo.v ===== *)
(** * Exceptions with error information (exception.hpp, error_info.hpp, detail/error_info.hpp,
      detail/error_info_base.hpp, content_iterator.hpp)

    An exception with information is an object of a class nested as deep as [operator<<] was
    called: each level has a tuple of [error_info], and all of them are on one list that
    begins in the virtual base class [exception].  The list runs through the objects
    themselves, so that a copy has to build its own.  Objects are named by numbers, the
    [error_info] in them are nodes of a memory; reading a node of an object that was
    destroyed is undefined. *)

From S2P Require Import Prelude.

Local Open Scope Z_scope.
Local Open Scope gpcl_scope.

Module ExceptionInfo.

(** An [error_info]: [type()], [value()] and [next_]. *)
Record node : Type := Node { type_ : Z; value_ : Z; next_ : option Z }.
(** An exception: [list_] and the [error_infos_] of its levels, the innermost first. *)
Record object : Type := Object { list_ : option Z; levels : list (list Z) }.
Record state : Type := State { nodes : gmap Z node; objects : gmap Z object; fresh_node : Z }.
Abbreviation E A := (M state A).

Definition set_nodes (m : gmap Z node) : E unit := modify (λ s, State m (objects s) (fresh_node s)).
Definition set_object (x : Z) (o : object) : E unit :=
    modify (λ s, State (nodes s) (<[x := o]> (objects s)) (fresh_node s)).
Definition get_object (x : Z) : E object := λ s,
  match objects s !! x with Some o => (Ok o, s) | None => (Undef, s) end.
Definition get_node (a : Z) : E node := λ s,
  match nodes s !! a with Some n => (Ok n, s) | None => (Undef, s) end.
Definition set_next (a : Z) (p : option Z) : E unit :=
  let! n := get_node a in let! s := get in set_nodes (<[a := Node (type_ n) (value_ n) p]> (nodes s)).
Definition set_value (a v : Z) : E unit :=
  let! n := get_node a in let! s := get in set_nodes (<[a := Node (type_ n) v (next_ n)]> (nodes s)).
Definition set_list (x : Z) (p : option Z) : E unit :=
  let! o := get_object x in set_object x (Object p (levels o)).

(** The constructors of [error_info]: the copy is on no list. *)
Definition new_info (tv : Z * Z) : E Z := λ s,
  (Ok (fresh_node s), State (<[fresh_node s := Node (fst tv) (snd tv) None]> (nodes s)) (objects s)
    (fresh_node s + 1)).
Fixpoint new_infos (tvs : list (Z * Z)) : E (list Z) :=
  match tvs with
  | [] => ret []
  | tv :: tvs => let! a := new_info tv in let! l := new_infos tvs in ret (a :: l)
  end.

(** ** Linking *)

(** [link_error_info_helper], after the first element. *)
Fixpoint link_error_info_helper (prev : Z) (es : list Z) : E unit :=
  match es with
  | [] => ret tt
  | e :: es => set_next prev (Some e) ;;; link_error_info_helper e es
  end.
Definition link_error_infos (es : list Z) : E (option Z) :=
  match es with
  | [] => ret None
  | e :: es => link_error_info_helper e es ;;; ret (Some e)
  end.
(** The last node of a list. *)
Fixpoint last_node (fuel : nat) (a : Z) : E Z :=
  match fuel with
  | O => nofuel
  | S fuel => let! n := get_node a in
              match next_ n with Some b => last_node fuel b | None => ret a end
  end.
Definition update_error_infos (x : Z) (es : list Z) : E unit :=
  let! o := get_object x in
  match list_ o with
  | None => let! h := link_error_infos es in set_list x h
  | Some a =>
      let! s := get in
      let! z := last_node (S (size (nodes s))) a in
      let! h := link_error_infos es in set_next z h
  end.

(** ** Construction *)

(** [exception()]. *)
Definition make (x : Z) : E unit := set_object x (Object None []).
(** One level: its tuple is constructed and linked. *)
Definition add_level (x : Z) (tvs : list (Z * Z)) : E unit :=
  let! es := new_infos tvs in
  let! o := get_object x in
  set_object x (Object (list_ o) (levels o ++ [es])) ;;;
  update_error_infos x es.
(** What a copy of a tuple reads; a move leaves the old values in a state [moved]. *)
Fixpoint read_tuple (es : list Z) : E (list (Z * Z)) :=
  match es with
  | [] => ret []
  | e :: es => let! n := get_node e in let! l := read_tuple es in ret ((type_ n, value_ n) :: l)
  end.
Section values.
Context (moved : Z → Z).
Fixpoint move_tuple (es : list Z) : E (list (Z * Z)) :=
  match es with
  | [] => ret []
  | e :: es =>
      let! n := get_node e in set_value e (moved (value_ n)) ;;;
      let! l := move_tuple es in ret ((type_ n, value_ n) :: l)
  end.
(** The levels are constructed from the innermost one on. *)
Fixpoint copy_levels (move : bool) (x : Z) (ls : list (list Z)) : E unit :=
  match ls with
  | [] => ret tt
  | es :: ls =>
      let! tvs := (if move then move_tuple es else read_tuple es) in
      add_level x tvs ;;; copy_levels move x ls
  end.
Definition copy_construct (x y : Z) : E unit :=
  let! o := get_object y in make x ;;; copy_levels false x (levels o).
Definition move_construct (x y : Z) : E unit :=
  let! o := get_object y in make x ;;; copy_levels true x (levels o).
(** [operator<<]: an object with one more level. *)
Definition attach (x y : Z) (tvs : list (Z * Z)) : E unit :=
  let! o := get_object y in make x ;;; copy_levels false x (levels o) ;;; add_level x tvs.
Definition destroy (x : Z) : E unit :=
  let! o := get_object x in
  modify (λ s, State (foldr delete (nodes s) (concat (levels o))) (delete x (objects s)) (fresh_node s)).

(** ** Assignment *)

Fixpoint assign_tuple (move : bool) (es fs : list Z) : E unit :=
  match es, fs with
  | e :: es, f :: fs =>
      let! n := get_node f in
      (if move then set_value f (moved (value_ n)) else ret tt) ;;;
      set_value e (value_ n) ;;; assign_tuple move es fs
  | _, _ => ret tt
  end.
Fixpoint assign_levels (move : bool) (x : Z) (ls ks : list (list Z)) : E unit :=
  match ls, ks with
  | es :: ls, fs :: ks =>
      assign_tuple move es fs ;;; update_error_infos x es ;;; assign_levels move x ls ks
  | _, _ => ret tt
  end.
(** The copy assignment resets the list, but the innermost class, whose operator is the
    implicit one, takes over the list of the other object. *)
Definition copy_assign (x y : Z) : E unit :=
  set_list x None ;;;
  let! o := get_object y in
  set_list x (list_ o) ;;;
  let! p := get_object x in assign_levels false x (levels p) (levels o).
Definition move_assign (x y : Z) : E unit :=
  let! o := get_object y in
  set_list x (list_ o) ;;;
  let! p := get_object x in assign_levels true x (levels p) (levels o).
(** A copy of the innermost part alone, as when the object is copied as its base class. *)
Definition slice (x y : Z) : E unit :=
  let! o := get_object y in set_object x (Object (list_ o) []).

(** ** Access *)

(** A loop from [error_info_begin] to [error_info_end]. *)
Fixpoint collect (fuel : nat) (p : option Z) : E (list (Z * Z)) :=
  match p with
  | None => ret []
  | Some a =>
      match fuel with
      | O => nofuel
      | S fuel => let! n := get_node a in let! l := collect fuel (next_ n)
        in ret ((type_ n, value_ n) :: l)
      end
  end.
Definition error_infos (x : Z) : E (list (Z * Z)) :=
  let! o := get_object x in let! s := get in collect (size (nodes s)) (list_ o).
Fixpoint find_info (fuel : nat) (t : Z) (p : option Z) : E (option Z) :=
  match p with
  | None => ret None
  | Some a =>
      match fuel with
      | O => nofuel
      | S fuel => let! n := get_node a in
                  if type_ n =? t then ret (Some (value_ n)) else find_info fuel t (next_ n)
      end
  end.
Definition get_error_info (t x : Z) : E (option Z) :=
  let! o := get_object x in let! s := get in find_info (size (nodes s)) t (list_ o).
(** The lines; [format] writes one [error_info], the name is that of the exception. *)
Definition diagnostic_information (format : Z * Z → string) (name : string) (x : Z) : E (list string) :=
  let! l := error_infos x in
  ret (("Exception [" +:+ name +:+ "]") :: ((λ tv, "  " +:+ format tv) <$> l)).

(** ** Invariant *)

Definition payload (n : node) : Z * Z := (type_ n, value_ n).
Definition contents (m : gmap Z node) (l : list Z) : list (Z * Z) := omap (λ a, payload <$> m !! a) l.
Fixpoint linked (m : gmap Z node) (p : option Z) (l : list Z) : Prop :=
  match l with
  | [] => p = None
  | a :: l => p = Some a ∧ ∃ n, m !! a = Some n ∧ linked m (next_ n) l
  end.
Abbreviation parts o := (concat (levels o)).
Record good (s : state) : Prop := {
  good_linked x o : objects s !! x = Some o → linked (nodes s) (list_ o) (parts o);
  good_nodup x o : objects s !! x = Some o → NoDup (parts o);
  good_apart x y o p a : objects s !! x = Some o → objects s !! y = Some p → a ∈ parts o →
    a ∈ parts p → x = y;
  good_fresh a : is_Some (nodes s !! a) → a < fresh_node s;
}.
(** What the exceptions hold. *)
Definition abs (s : state) : gmap Z (list (Z * Z)) := (λ o, contents (nodes s) (parts o)) <$> objects s.

Lemma linked_dom m p l a : linked m p l → a ∈ l → is_Some (m !! a).
Proof.
  revert p. induction l as [|b l IH]; intros p; cbn; [by intros _ ?%not_elem_of_nil|].
  intros (-> & n & Hb & Hl) [->|Ha]%elem_of_cons; [eauto|by eapply IH].
Qed.
Lemma linked_ext m m' p l : (∀ a, a ∈ l → next_ <$> m' !! a = next_ <$> m !! a) → linked m p l →
    linked m' p l.
Proof.
  revert p. induction l as [|b l IH]; intros p Hm; cbn; [done|]. intros (-> & n & Hb & Hl).
  split; [done|].
  pose proof (Hm b ltac:(by left)) as E. rewrite Hb in E. destruct (m' !! b) as [n'|]; [|done].
  injection E as E. exists n'. split; [done|].
  rewrite E. apply IH; [|done]. intros a Ha. apply Hm. by right.
Qed.
Lemma linked_size m p l : linked m p l → NoDup l → (length l ≤ size m)%nat.
Proof.
  intros Hl Hnd. rewrite <- (size_dom m), <- (size_list_to_set (C := gset Z) l Hnd).
  apply subseteq_size. intros a Ha%elem_of_list_to_set.
  apply elem_of_dom. by eapply linked_dom.
Qed.
Lemma contents_ext m m' l : (∀ a, a ∈ l → payload <$> m' !! a = payload <$> m !! a) →
    contents m' l = contents m l.
Proof.
  unfold contents. induction l as [|b l IH]; intros Hm; cbn; [done|]. rewrite Hm by (by left).
  rewrite IH; [done|]. intros a Ha. apply Hm. by right.
Qed.
Lemma contents_app m l k : contents m (l ++ k) = contents m l ++ contents m k.
Proof. apply omap_app. Qed.
Lemma last_node_spec m p l z o f fuel :
  linked m p (l ++ [z]) → (length l < fuel)%nat → ∃ a, p = Some a ∧
    last_node fuel a (State m o f) = (Ok z, State m o f).
Proof.
  revert p fuel. induction l as [|b l IH]; intros p fuel; cbn.
  - intros (-> & n & Hz & Hn) Hf. exists z. split; [done|]. destruct fuel as [|fuel]; [lia|]. cbn.
    unfold bind, get_node. cbn. by rewrite Hz, Hn.
  - intros (-> & n & Hb & Hl) Hf. exists b. split; [done|]. destruct fuel as [|fuel]; [lia|].
    destruct (IH _ fuel Hl ltac:(lia)) as (a & Ha & Hr).
    cbn. unfold bind at 1, get_node. cbn. by rewrite Hb, Ha.
Qed.
Lemma linked_append m p l z h es n :
  linked m p (l ++ [z]) → linked m h es → NoDup (l ++ z :: es) → m !! z = Some n →
  linked (<[z := Node (type_ n) (value_ n) h]> m) p ((l ++ [z]) ++ es).
Proof.
  intros Hl He Hnd Hz. rewrite <- app_assoc. cbn.
  apply NoDup_app in Hnd as (Hnd & Hdisj & [Hnz Hnes]%NoDup_cons).
  revert p Hl. induction l as [|b l IH]; intros p; cbn.
  - intros (-> & _). split; [done|]. eexists. split; [by rewrite lookup_insert_eq|]. cbn.
    eapply linked_ext; [|exact He]. intros a Ha.
    rewrite lookup_insert_ne by (intros ->; done). done.
  - intros (-> & k & Hb & Hl). split; [done|]. exists k.
    rewrite lookup_insert_ne by (intros <-; apply (Hdisj z); set_solver). split; [done|].
    apply IH; [by apply NoDup_cons in Hnd as [_ ?]|intros; apply Hdisj; by right|done].
Qed.

(** ** Linking *)

Definition same_payload (m m' : gmap Z node) : Prop := ∀ a, payload <$> m' !! a = payload <$> m !! a.
Lemma set_next_eq a p m o f n :
  m !! a = Some n →
    set_next a p (State m o f) = (Ok tt, State (<[a := Node (type_ n) (value_ n) p]> m) o f).
Proof. intros Ha. unfold set_next, bind, get_node. cbn. by rewrite Ha. Qed.
Lemma payload_insert m a n p : m !! a = Some n → same_payload m (<[a := Node (type_ n) (value_ n) p]> m).
Proof.
  intros Ha b. destruct (decide (b = a)) as [->|Hne];
    [by rewrite lookup_insert_eq, Ha|by rewrite lookup_insert_ne].
Qed.
Lemma same_payload_trans m1 m2 m3 : same_payload m1 m2 → same_payload m2 m3 → same_payload m1 m3.
Proof. intros H1 H2 a. by rewrite H2, H1. Qed.
Lemma link_helper_spec e es m o f :
  NoDup (e :: es) → (∀ a, a ∈ e :: es → ∃ n, m !! a = Some n ∧ next_ n = None) →
  ∃ m', link_error_info_helper e es (State m o f) = (Ok tt, State m' o f) ∧
    linked m' (Some e) (e :: es) ∧ (∀ a, a ∉ e :: es → m' !! a = m !! a) ∧ same_payload m m'.
Proof.
  revert e m. induction es as [|e' es IH]; intros e m [Hni Hnd]%NoDup_cons Hall.
  - destruct (Hall e ltac:(by left)) as (n & He & Hn). exists m. split; [done|]. split; [|done].
    split; [done|]. exists n. by rewrite Hn.
  - destruct (Hall e ltac:(by left)) as (n & He & Hn). cbn [link_error_info_helper].
    rewrite (bind_ok _ _ _ _ _ (set_next_eq e (Some e') m o f n He)).
    destruct (IH e' (<[e := Node (type_ n) (value_ n) (Some e')]> m) Hnd) as (m' & Hr & Hl & Hout & Hp).
    { intros a Ha. rewrite lookup_insert_ne by (intros ->; done). apply Hall. by right. }
    exists m'. split; [done|]. split; [|split].
    + split; [done|]. exists (Node (type_ n) (value_ n) (Some e')). split; [|done].
      rewrite Hout by done. by rewrite lookup_insert_eq.
    + intros a Ha. rewrite Hout by set_solver. rewrite lookup_insert_ne; [done|]. intros ->.
      apply Ha. by left.
    + eapply same_payload_trans; [|exact Hp]. by apply payload_insert.
Qed.
Lemma link_spec es m o f :
  NoDup es → (∀ a, a ∈ es → ∃ n, m !! a = Some n ∧ next_ n = None) →
  ∃ m', link_error_infos es (State m o f) = (Ok (head es), State m' o f) ∧
    linked m' (head es) es ∧ (∀ a, a ∉ es → m' !! a = m !! a) ∧ same_payload m m'.
Proof.
  intros Hnd Hall. destruct es as [|e es]; [by exists m|].
  destruct (link_helper_spec e es m o f Hnd Hall) as (m' & Hr & Hl & Hout & Hp).
  exists m'. split; [|done]. cbn [link_error_infos]. by rewrite (bind_ok _ _ _ _ _ Hr).
Qed.
Lemma new_infos_spec tvs s :
  (∀ a, is_Some (nodes s !! a) → a < fresh_node s) →
  ∃ es m f, new_infos tvs s = (Ok es, State m (objects s) f) ∧ fresh_node s ≤ f ∧
    (∀ a, a < fresh_node s → m !! a = nodes s !! a) ∧ (∀ a, a ∈ es → fresh_node s ≤ a < f) ∧ NoDup es ∧
    contents m es = tvs ∧ (∀ a, a ∈ es → ∃ n, m !! a = Some n ∧ next_ n = None) ∧
      (∀ a, is_Some (m !! a) → a < f).
Proof.
  revert s. induction tvs as [|[t v] tvs IH]; intros s Hf; cbn.
  - exists [], (nodes s), (fresh_node s). destruct s.
    split_and!; try done; try (by intros a ?%not_elem_of_nil). constructor.
  - unfold bind, new_info. cbn.
    destruct (IH (State (<[fresh_node s := Node t v None]> (nodes s)) (objects s)
      (fresh_node s + 1)))
      as (es & m & f & Hr & Hle & Hold & Hnew & Hnd & Hc & Hn & Hd); cbn in *.
    { intros a [n Ha]. apply lookup_insert_Some in Ha as [(<- & _)|(Hne & Ha)]; [lia|].
        specialize (Hf a ltac:(eauto)). lia. }
    rewrite Hr. exists (fresh_node s :: es), m, f.
    assert (Hm : m !! fresh_node s = Some (Node t v None)) by (rewrite Hold by lia;
      by rewrite lookup_insert_eq).
    split_and!; try done; try lia.
    + intros a Ha. rewrite Hold by lia. by rewrite lookup_insert_ne by lia.
    + intros a [->|Ha]%elem_of_cons; [lia|]. specialize (Hnew a Ha). lia.
    + constructor; [|done]. intros Ha. specialize (Hnew _ Ha). lia.
    + unfold contents in *. cbn. rewrite Hm. cbn. by rewrite Hc.
    + intros a [->|Ha]%elem_of_cons; [eauto|by apply Hn].
Qed.

(** ** One level *)

Lemma list_last_or_nil {A} (l : list A) : l = [] ∨ ∃ k z, l = k ++ [z].
Proof. induction l as [|z k _] using rev_ind; [by left|right; eauto]. Qed.
Lemma get_object_eq x s o : objects s !! x = Some o → get_object x s = (Ok o, s).
Proof. unfold get_object. by intros ->. Qed.
Lemma update_spec x es m o f ob l0 :
  o !! x = Some ob → linked m (list_ ob) (l0) → NoDup (l0 ++ es) →
  (∀ a, a ∈ es → ∃ n, m !! a = Some n ∧ next_ n = None) →
  ∃ m' p, update_error_infos x es (State m o f) = (Ok tt, State m' (<[x := Object p (levels ob)]> o) f) ∧
    linked m' p (l0 ++ es) ∧ (∀ a, a ∉ l0 → a ∉ es → m' !! a = m !! a) ∧ same_payload m m'.
Proof.
  intros Ho Hl Hnd Hes. pose proof Hnd as (Hnd1 & Hdisj & Hnd2)%NoDup_app.
  destruct (link_spec es m o f Hnd2 Hes) as (m1 & Hlink & Hl1 & Hout & Hpay).
  assert (Hlk : linked m1 (list_ ob) (l0)).
  { eapply linked_ext; [|exact Hl]. intros a Ha. rewrite Hout; [done|]. by apply Hdisj. }
  unfold update_error_infos. rewrite (bind_ok _ _ _ _ _ (get_object_eq x (State m o f) ob Ho)).
  destruct (list_last_or_nil l0) as [->|(l & z & ->)].
  - cbn in Hl. rewrite Hl. rewrite (bind_ok _ _ _ _ _ Hlink). unfold set_list.
    rewrite (bind_ok _ _ _ _ _ (get_object_eq x (State m1 o f) ob Ho)). exists m1, (head es).
    split_and!; try done. by intros a _ Ha; apply Hout.
  - assert (Hlen : (length l < S (size m))%nat).
    { pose proof (linked_size _ _ _ Hl Hnd1) as Hs. rewrite length_app in Hs. cbn in Hs. lia. }
    destruct (last_node_spec m _ l z o f _ Hl Hlen) as (a & Ha & Hlast). rewrite Ha.
    rewrite bind_get. cbn [nodes].
    rewrite (bind_ok _ _ _ _ _ Hlast), (bind_ok _ _ _ _ _ Hlink).
    destruct (linked_dom _ _ _ z Hlk) as [n Hn]; [set_solver|]. rewrite (set_next_eq z _ m1 o f n Hn).
    exists (<[z := Node (type_ n) (value_ n) (head es)]> m1), (list_ ob). split_and!.
    + rewrite (insert_id o x); [done|]. rewrite Ho. by destruct ob.
    + apply linked_append; try done. by rewrite <- app_assoc in Hnd.
    + intros b Hb1 Hb2. rewrite lookup_insert_ne by set_solver. by apply Hout.
    + eapply same_payload_trans; [exact Hpay|by apply payload_insert].
Qed.
Lemma add_level_spec s x tvs o :
  good s → objects s !! x = Some o →
  ∃ m p f es, add_level x tvs s = (Ok tt, State m (<[x := Object p (levels o ++ [es])]> (objects s)) f) ∧
    good (State m (<[x := Object p (levels o ++ [es])]> (objects s)) f) ∧ contents m es = tvs ∧
    (∀ a, a < fresh_node s → payload <$> m !! a = payload <$> nodes s !! a) ∧ fresh_node s ≤ f ∧
    (∀ a, a ∈ es → fresh_node s ≤ a).
Proof.
  intros H Ho.
  destruct (new_infos_spec tvs s (good_fresh _ H))
    as (es & m & f & Hr & Hle & Hold & Hnew & Hnd & Hc & Hn & Hd).
  assert (Hlow : ∀ y ob a, objects s !! y = Some ob → a ∈ parts ob → a < fresh_node s).
  { intros y ob a Hy Ha. apply (good_fresh _ H). eapply linked_dom; [eapply (good_linked _ H)|]; done. }
  unfold add_level.
  rewrite (bind_ok _ _ _ _ _ Hr),
    (bind_ok _ _ _ _ _ (get_object_eq x (State m (objects s) f) o Ho)). unfold set_object.
  rewrite bind_modify. cbn [nodes objects fresh_node].
  assert (Hlk : ∀ y ob, objects s !! y = Some ob → linked m (list_ ob) (parts ob)).
  { intros y ob Hy. eapply linked_ext; [|eapply (good_linked _ H); exact Hy]. intros a Ha.
      rewrite Hold; [done|eauto]. }
  assert (Hnd2 : NoDup (parts o ++ es)).
  { apply NoDup_app. split; [by eapply (good_nodup _ H)|split; [|done]]. intros a Ha He.
      specialize (Hlow _ _ _ Ho Ha). specialize (Hnew a He). lia. }
  destruct (update_spec x es m (<[x := Object (list_ o) (levels o ++ [es])]> (objects s)) f
    (Object (list_ o) (levels o ++ [es])) (parts o))
    as (m' & p & Hu & Hl & Hout & Hpay); [by rewrite lookup_insert_eq|exact (Hlk x o Ho)|done|done|].
  rewrite insert_insert_eq in Hu. cbn [levels] in Hu.
  assert (Hpx : parts (Object p (levels o ++ [es])) = parts o ++ es) by (cbn; rewrite concat_app;
    cbn; by rewrite app_nil_r).
  exists m', p, f, es. split; [exact Hu|]. split; [|split; [|split; [|split; [done|]]]].
  - split; cbn [nodes objects fresh_node].
    + intros y ob [(<- & <-)|(Hne & Hy)]%lookup_insert_Some; [by rewrite Hpx|].
      eapply linked_ext; [|by eapply Hlk].
      intros a Ha. rewrite Hout; [done|..].
      * intros Hx. by destruct (Hne (good_apart _ H _ _ _ _ _ Ho Hy Hx Ha)).
      * intros He. specialize (Hlow _ _ _ Hy Ha). specialize (Hnew a He). lia.
    + intros y ob [(<- & <-)|(Hne & Hy)]%lookup_insert_Some; [by rewrite Hpx|by eapply (good_nodup _ H)].
    + intros y z ob oc a [(<- & <-)|(Hne & Hy)]%lookup_insert_Some [(<- & <-)|
        (Hne' & Hz)]%lookup_insert_Some; rewrite ?Hpx; [done|..|by eapply (good_apart _ H)].
      * intros [Ha|Ha]%elem_of_app Hb; [by eapply (good_apart _ H)|]. specialize (Hlow _ _ _ Hz Hb).
        specialize (Hnew a Ha). lia.
      * intros Hb [Ha|Ha]%elem_of_app; [by eapply (good_apart _ H)|]. specialize (Hlow _ _ _ Hy Hb).
        specialize (Hnew a Ha). lia.
    + intros a [n Ha]. apply Hd. specialize (Hpay a). rewrite Ha in Hpay.
      destruct (m !! a); [eauto|done].
  - rewrite <- Hc. apply contents_ext. intros a _. apply Hpay.
  - intros a Ha. rewrite Hpay. by rewrite Hold.
  - intros a Ha. apply Hnew in Ha. lia.
Qed.

(** ** Copies and moves *)

Definition move_payload (tv : Z * Z) : Z * Z := (tv.1, moved tv.2).
(** What [move] leaves of the node at [a] when the nodes [l] are moved. *)
Definition leave (move : bool) (l : list Z) (a : Z) (tv : Z * Z) : Z * Z :=
  if move && bool_decide (a ∈ l) then move_payload tv else tv.

Lemma get_node_eq a s n : nodes s !! a = Some n → get_node a s = (Ok n, s).
Proof. unfold get_node. by intros ->. Qed.
Lemma set_value_eq a v m o f n :
  m !! a = Some n →
    set_value a v (State m o f) = (Ok tt, State (<[a := Node (type_ n) v (next_ n)]> m) o f).
Proof. intros Ha. unfold set_value.
  by rewrite (bind_ok _ _ _ _ _ (get_node_eq a (State m o f) n Ha)). Qed.
Lemma read_tuple_spec es s :
  (∀ a, a ∈ es → is_Some (nodes s !! a)) → read_tuple es s = (Ok (contents (nodes s) es), s).
Proof.
  induction es as [|e es IH]; intros Hd; [done|]. destruct (Hd e ltac:(by left)) as [n Hn].
  cbn [read_tuple].
  rewrite (bind_ok _ _ _ _ _ (get_node_eq e s n Hn)).
  erewrite bind_ok by (apply IH; intros; apply Hd; by right). unfold contents. cbn. by rewrite Hn.
Qed.
Lemma move_tuple_spec es m o f :
  NoDup es → (∀ a, a ∈ es → is_Some (m !! a)) →
  ∃ m', move_tuple es (State m o f) = (Ok (contents m es), State m' o f) ∧
    (∀ a, next_ <$> m' !! a = next_ <$> m !! a) ∧
    (∀ a, payload <$> m' !! a = leave true es a <$> (payload <$> m !! a)).
Proof.
  revert m. induction es as [|e es IH]; intros m Hnd Hd.
  - exists m. split_and!; try done. intros a. destruct (m !! a); [|done]. cbn. unfold leave.
    by rewrite bool_decide_eq_false_2 by apply not_elem_of_nil.
  - apply NoDup_cons in Hnd as [Hni Hnd]. destruct (Hd e ltac:(by left)) as [n Hn].
    destruct (IH (<[e := Node (type_ n) (moved (value_ n)) (next_ n)]> m) Hnd) as (m' & Hr & Hnx & Hp).
    { intros a Ha. rewrite lookup_insert_ne by (intros ->; done). apply Hd. by right. }
    exists m'. split_and!.
    + cbn [move_tuple].
      rewrite (bind_ok _ _ _ _ _ (get_node_eq e (State m o f) n Hn)),
        (bind_ok _ _ _ _ _ (set_value_eq e _ m o f n Hn)).
      rewrite (bind_ok _ _ _ _ _ Hr). unfold ret. f_equal. f_equal.
      unfold contents at 2. cbn. rewrite Hn. cbn. f_equal. apply contents_ext. intros a Ha.
      by rewrite lookup_insert_ne by (intros ->; done).
    + intros a. rewrite Hnx. destruct (decide (a = e)) as [->|Hne];
        [by rewrite lookup_insert_eq, Hn|by rewrite lookup_insert_ne].
    + intros a. rewrite Hp. unfold leave. destruct (decide (a = e)) as [->|Hne].
      * rewrite lookup_insert_eq, Hn. cbn. rewrite bool_decide_eq_false_2 by done.
        by rewrite bool_decide_eq_true_2 by (by left).
      * rewrite lookup_insert_ne by done. destruct (m !! a); [|done]. cbn. f_equal.
        rewrite (bool_decide_ext (a ∈ e :: es) (a ∈ es)); [done|]. rewrite elem_of_cons. naive_solver.
Qed.
Lemma good_values m m' o f :
  (∀ a, next_ <$> m' !! a = next_ <$> m !! a) → good (State m o f) → good (State m' o f).
Proof.
  intros Hn H. split; cbn.
  - intros x ob Hx. eapply linked_ext; [|by eapply (good_linked _ H)]. done.
  - intros x ob. apply (good_nodup _ H).
  - intros x y ob oc a. apply (good_apart _ H).
  - intros a [n Ha]. apply (good_fresh _ H). specialize (Hn a). rewrite Ha in Hn. cbn.
    destruct (m !! a); [eauto|done].
Qed.
(** The values of a tuple are taken. *)
Lemma take_tuple_spec (move : bool) es s :
  good s → NoDup es → (∀ a, a ∈ es → is_Some (nodes s !! a)) →
  ∃ m', (if move then move_tuple es else read_tuple es) s = (Ok (contents (nodes s) es),
    State m' (objects s) (fresh_node s)) ∧
    good (State m' (objects s) (fresh_node s)) ∧
      (∀ a, payload <$> m' !! a = leave move es a <$> (payload <$> nodes s !! a)).
Proof.
  intros H Hnd Hd. destruct s as [m o f], move; cbn [nodes objects fresh_node] in *.
  - destruct (move_tuple_spec es m o f Hnd Hd) as (m' & Hr & Hn & Hp). exists m'. split; [done|].
    split; [by eapply good_values|done].
  - exists m. split; [by apply read_tuple_spec|]. split; [done|]. intros a. unfold leave. cbn.
    by destruct (m !! a).
Qed.
Lemma payload_is_Some (m m' : gmap Z node) a (g : Z * Z → Z * Z) :
  payload <$> m' !! a = g <$> (payload <$> m !! a) → is_Some (m !! a) → is_Some (m' !! a).
Proof. intros E [n Hn]. rewrite Hn in E. destruct (m' !! a); [eauto|done]. Qed.
Lemma leave_app move l k a tv : a ∉ l ∨ a ∉ k →
    leave move k a (leave move l a tv) = leave move (l ++ k) a tv.
Proof.
  unfold leave. intros Hor. destruct move; [|done]. cbn.
  rewrite (bool_decide_ext (a ∈ l ++ k) (a ∈ l ∨ a ∈ k)) by apply elem_of_app.
  repeat case_bool_decide; try done; tauto.
Qed.
Lemma copy_levels_spec move x ls s o :
  good s → objects s !! x = Some o → NoDup (concat ls) →
  (∀ a, a ∈ concat ls → is_Some (nodes s !! a) ∧ a ∉ parts o) →
  ∃ m o' f (s' := State m (<[x := o']> (objects s)) f), copy_levels move x ls s = (Ok tt, s') ∧ good s' ∧
    contents m (parts o') = contents (nodes s) (parts o) ++ contents (nodes s) (concat ls) ∧
    (∀ a, a < fresh_node s →
      payload <$> m !! a = leave move (concat ls) a <$> (payload <$> nodes s !! a)) ∧
      fresh_node s ≤ f.
Proof.
  revert s o. induction ls as [|es ls IH]; intros s o H Ho Hnd Hall.
  - exists (nodes s), o, (fresh_node s). rewrite insert_id by done. destruct s. split_and!; try done.
    + cbn. by rewrite app_nil_r.
    + intros a _. cbn. unfold leave. rewrite bool_decide_eq_false_2 by apply not_elem_of_nil.
      rewrite andb_false_r. by destruct (_ !! a).
  - cbn [concat] in *. apply NoDup_app in Hnd as (Hnd1 & Hdisj & Hnd2).
    destruct (take_tuple_spec move es s H Hnd1) as (m1 & Ht & H1 & Hp1);
      [intros a Ha; apply Hall; set_solver|].
    destruct (add_level_spec _ x (contents (nodes s) es) o H1 Ho)
      as (m2 & p & f & new & Ha & H2 & Hc & Hp2 & Hf & Hnew). cbn [nodes objects fresh_node] in *.
    assert (Hlow : ∀ a, is_Some (nodes s !! a) → a < fresh_node s) by apply (good_fresh _ H).
    assert (Hown : ∀ a, a ∈ parts o → is_Some (nodes s !! a)) by (intros a;
      eapply linked_dom, (good_linked _ H), Ho).
    destruct (IH _ (Object p (levels o ++ [new])) H2) as (m3 & o' & f' & Hr & H3 & Hc3 & Hp3 & Hf3);
      cbn [nodes objects fresh_node].
    + by rewrite lookup_insert_eq.
    + done.
    + intros a Hin. destruct (Hall a) as [Hs Hno]; [set_solver|]. split.
      * eapply payload_is_Some with (m := m1) (g := id);
          [rewrite Hp2 by eauto; by destruct (m1 !! a)|]. by eapply payload_is_Some; [apply Hp1|].
      * cbn. rewrite concat_app. cbn. rewrite app_nil_r. intros [Hx|Hx]%elem_of_app; [done|].
        specialize (Hnew a Hx). specialize (Hlow a Hs). lia.
    + exists m3, o', f'. cbn [objects] in Hr, H3. rewrite insert_insert_eq in Hr.
      rewrite insert_insert_eq in H3. split; [|split; [done|split; [|split; [|cbn in Hf3; lia]]]].
      * cbn [copy_levels]. rewrite (bind_ok _ _ _ _ _ Ht), (bind_ok _ _ _ _ _ Ha). exact Hr.
      * rewrite Hc3. cbn [nodes levels]. rewrite concat_app, !contents_app. cbn [concat].
        rewrite app_nil_r, Hc, <- app_assoc.
        f_equal; [|f_equal]; apply contents_ext; intros a Hin.
        -- rewrite Hp2 by eauto. rewrite Hp1. unfold leave.
           rewrite bool_decide_eq_false_2, andb_false_r by (intros Hx; destruct (Hall a);
             set_solver). by destruct (_ !! a).
        -- destruct (Hall a) as [Hs _]; [set_solver|]. rewrite Hp2 by eauto. rewrite Hp1.
           unfold leave.
           rewrite bool_decide_eq_false_2, andb_false_r by (intros Hx; by apply (Hdisj a)).
           by destruct (_ !! a).
      * intros a Hlt. cbn in Hp3. rewrite Hp3 by lia. rewrite Hp2, Hp1 by done.
        destruct (nodes s !! a); [|done]. cbn. f_equal. apply leave_app.
        destruct (decide (a ∈ es)); [right; set_solver|by left].
Qed.

(** ** Programs *)

Inductive op : Type :=
| Make (x : Z)
| Attach (x y : Z) (tvs : list (Z * Z))
| Copy (x y : Z)
| Move (x y : Z)
| Destroy (x : Z).
Definition exec (c : op) : E unit :=
  match c with
  | Make x => make x
  | Attach x y tvs => attach x y tvs
  | Copy x y => copy_construct x y
  | Move x y => move_construct x y
  | Destroy x => destroy x
  end.
Fixpoint exec_all (cs : list op) : E unit :=
  match cs with [] => ret tt | c :: cs => exec c ;;; exec_all cs end.
(** What the programs mean: every exception has its own sequence of information; the names
    that are used exist, those of new exceptions do not. *)
Definition spec (c : op) (v : gmap Z (list (Z * Z))) : option (gmap Z (list (Z * Z))) :=
  match c with
  | Make x => if v !! x is Some _ then None else Some (<[x := []]> v)
  | Attach x y tvs => if v !! x is Some _ then None else l ← v !! y; Some (<[x := l ++ tvs]> v)
  | Copy x y => if v !! x is Some _ then None else l ← v !! y; Some (<[x := l]> v)
  | Move x y => if v !! x is Some _ then None else l ← v !! y;
    Some (<[x := l]> (<[y := move_payload <$> l]> v))
  | Destroy x => if v !! x is Some _ then Some (delete x v) else None
  end.
Fixpoint spec_all (cs : list op) (v : gmap Z (list (Z * Z))) : option (gmap Z (list (Z * Z))) :=
  match cs with [] => Some v | c :: cs => spec c v ≫= spec_all cs end.

Lemma abs_lookup s x : abs s !! x = (λ o, contents (nodes s) (parts o)) <$> objects s !! x.
Proof. apply lookup_fmap. Qed.
Lemma abs_none s x : abs s !! x = None ↔ objects s !! x = None.
Proof. rewrite abs_lookup. by destruct (objects s !! x). Qed.
Lemma make_good x s :
  good s → objects s !! x = None →
    good (State (nodes s) (<[x := Object None []]> (objects s)) (fresh_node s)).
Proof.
  intros H Hx. split; cbn.
  - intros y o [(<- & <-)|(_ & Hy)]%lookup_insert_Some; [done|by eapply (good_linked _ H)].
  - intros y o [(<- & <-)|(_ & Hy)]%lookup_insert_Some; [constructor|by eapply (good_nodup _ H)].
  - intros y z o p a [(<- & <-)|(_ & Hy)]%lookup_insert_Some [(<- & <-)|
      (_ & Hz)]%lookup_insert_Some; cbn; try (by intros ?%not_elem_of_nil);
      [by intros _ ?%not_elem_of_nil|by eapply (good_apart _ H)].
  - apply (good_fresh _ H).
Qed.
(** The copy of an exception, or the exception that its information is moved to. *)
Lemma copy_spec (move : bool) x y s o :
  good s → objects s !! x = None → objects s !! y = Some o →
  ∃ s' o', (make x ;;; copy_levels move x (levels o)) s = (Ok tt, s') ∧ good s' ∧
    objects s' !! x = Some o' ∧
    abs s' = <[x := contents (nodes s) (parts o)]>
      (if move then <[y := move_payload <$> contents (nodes s) (parts o)]> (abs s) else abs s).
Proof.
  intros H Hx Hy. pose proof (make_good x s H Hx) as H1. unfold make, set_object. rewrite bind_modify.
  destruct (copy_levels_spec move x (levels o) _ (Object None []) H1)
    as (m & o' & f & Hr & H2 & Hc & Hp & Hf); cbn [nodes objects fresh_node] in *.
  { by rewrite lookup_insert_eq. }
  { by eapply (good_nodup _ H). }
  { intros a Ha. split; [by eapply linked_dom; [eapply (good_linked _ H)|]|]. apply not_elem_of_nil. }
  rewrite insert_insert_eq in Hr. rewrite insert_insert_eq in H2. eexists _, o'. split; [exact Hr|].
  split; [exact H2|]. split; [cbn; by rewrite lookup_insert_eq|].
  assert (Hne : y ≠ x) by (intros ->; congruence).
  assert (Hlow : ∀ z p a, objects s !! z = Some p → a ∈ parts p → a < fresh_node s).
  { intros z p a Hz Ha. apply (good_fresh _ H). eapply linked_dom; [eapply (good_linked _ H)|]; done. }
  assert (Hkeep : ∀ z p, objects s !! z = Some p → z ≠ y ∨ move = false →
    contents m (parts p) = contents (nodes s) (parts p)).
  { intros z p Hz Hor. apply contents_ext. intros a Ha. rewrite Hp by eauto. unfold leave.
      destruct Hor as [Hzy| ->]; [|by destruct (_ !! a)].
    rewrite bool_decide_eq_false_2, andb_false_r by (intros Hb;
      by apply Hzy, (good_apart _ H _ _ _ _ a Hz Hy)). by destruct (_ !! a). }
  apply map_eq. intros z. rewrite abs_lookup. cbn [nodes objects]. destruct (decide (z = x)) as [->|Hzx].
  { rewrite !lookup_insert_eq. cbn. by rewrite Hc. }
  rewrite !lookup_insert_ne by done. destruct (decide (z = y)) as [->|Hzy].
  - rewrite Hy. cbn. destruct move.
    + rewrite lookup_insert_eq. f_equal. assert (Hall : ∀ a, a ∈ parts o → a ∈ parts o) by done.
      revert Hall. generalize (parts o) at 1 3 4.
      unfold contents. intros l Hall. induction l as [|a l IH]; [done|]. cbn.
      rewrite Hp by (eapply Hlow, Hall; [done|by left]). unfold leave.
      rewrite bool_decide_eq_true_2 by (apply Hall; by left). cbn.
      rewrite IH by (intros; apply Hall; by right). by destruct (nodes s !! a).
    + rewrite abs_lookup, Hy. cbn. f_equal. apply (Hkeep y); [done|by right].
  - destruct move; rewrite ?lookup_insert_ne by done; rewrite abs_lookup;
      destruct (objects s !! z) as [p|] eqn:Hz; try done; cbn; f_equal; apply (Hkeep z); auto.
Qed.
Lemma attach_spec x y tvs s o :
  good s → objects s !! x = None → objects s !! y = Some o →
  ∃ s', attach x y tvs s = (Ok tt, s') ∧ good s' ∧
    abs s' = <[x := contents (nodes s) (parts o) ++ tvs]> (abs s).
Proof.
  intros H Hx Hy. destruct (copy_spec false x y s o H Hx Hy) as (s1 & o1 & Hr & H1 & Ho1 & Ha).
  destruct (add_level_spec s1 x tvs o1 H1 Ho1) as (m & p & f & es & Hadd & H2 & Hc & Hp & _ & _).
  eexists. split.
  { unfold attach. rewrite (bind_ok _ _ _ _ _ (get_object_eq y s o Hy)).
      rewrite <- bind_assoc, (bind_ok _ _ _ _ _ Hr). exact Hadd. }
  split; [exact H2|].
  assert (Hlow : ∀ z q a, objects s1 !! z = Some q → a ∈ parts q → a < fresh_node s1).
  { intros z q a Hz Hin. apply (good_fresh _ H1). eapply linked_dom; [eapply (good_linked _ H1)|];
      done. }
  assert (Hx1 : contents (nodes s1) (parts o1) = contents (nodes s) (parts o)).
  { pose proof (abs_lookup s1 x) as E. rewrite Ho1, Ha, lookup_insert_eq in E. by injection E as E. }
  apply map_eq. intros z. rewrite abs_lookup. cbn [nodes objects]. destruct (decide (z = x)) as [->|Hzx].
  - rewrite !lookup_insert_eq.
    change (Some (contents m (concat (levels o1 ++ [es]))) = Some
      (contents (nodes s) (parts o) ++ tvs)).
    rewrite concat_app, contents_app. cbn [concat]. rewrite app_nil_r, Hc, <- Hx1. do 2 f_equal.
    apply contents_ext. intros a Hin. apply Hp. eauto.
  - rewrite !lookup_insert_ne by done.
    assert (abs s !! z = abs s1 !! z) as -> by (by rewrite Ha, lookup_insert_ne).
    rewrite abs_lookup.
    destruct (objects s1 !! z) as [q|] eqn:Hz; [|done]. cbn. f_equal. apply contents_ext.
    intros a Hin. apply Hp. eauto.
Qed.
Lemma delete_all_lookup (m : gmap Z node) l a :
    foldr delete m l !! a = if decide (a ∈ l) then None else m !! a.
Proof.
  induction l as [|b l IH]; cbn; [by rewrite decide_False by apply not_elem_of_nil|].
  destruct (decide (a = b)) as [->|Hne].
  - rewrite lookup_delete_eq. by rewrite decide_True by (by left).
  - rewrite lookup_delete_ne by done. rewrite IH. apply decide_ext. rewrite elem_of_cons. naive_solver.
Qed.
Lemma destroy_spec x s o :
  good s → objects s !! x = Some o → ∃ s', destroy x s = (Ok tt, s') ∧ good s' ∧
    abs s' = delete x (abs s).
Proof.
  intros H Hx. eexists.
  split; [unfold destroy; by rewrite (bind_ok _ _ _ _ _ (get_object_eq x s o Hx))|].
  assert (Hkeep : ∀ z p a, z ≠ x → objects s !! z = Some p → a ∈ parts p →
    foldr delete (nodes s) (parts o) !! a = nodes s !! a).
  { intros z p a Hne Hz Ha. rewrite delete_all_lookup, decide_False; [done|]. intros Hb.
      by apply Hne, (good_apart _ H _ _ _ _ a Hz Hx). }
  split; [split; cbn|].
  - intros z p [Hne Hz]%lookup_delete_Some. eapply linked_ext; [|by eapply (good_linked _ H)].
    intros a Ha. by erewrite Hkeep.
  - intros z p [_ Hz]%lookup_delete_Some. by eapply (good_nodup _ H).
  - intros z w p q a [_ Hz]%lookup_delete_Some [_ Hw]%lookup_delete_Some. by eapply (good_apart _ H).
  - intros a [n Ha]. apply (good_fresh _ H). rewrite delete_all_lookup in Ha. case_decide; [done|].
    eauto.
  - apply map_eq. intros z. rewrite abs_lookup. cbn [nodes objects].
    destruct (decide (z = x)) as [->|Hne].
    + by rewrite !lookup_delete_eq.
    + rewrite !lookup_delete_ne by done. rewrite abs_lookup.
      destruct (objects s !! z) as [p|] eqn:Hz; [|done]. cbn. f_equal.
      apply contents_ext. intros a Ha. by erewrite Hkeep.
Qed.
Lemma exec_spec c s v :
  good s → spec c (abs s) = Some v → ∃ s', exec c s = (Ok tt, s') ∧ good s' ∧ abs s' = v.
Proof.
  assert (Hobj : ∀ y l, abs s !! y = Some l → ∃ o, objects s !! y = Some o ∧
    l = contents (nodes s) (parts o)).
  { intros y l. rewrite abs_lookup. destruct (objects s !! y) as [o|]; [|done]. intros [= <-]. eauto. }
  intros H. destruct c as [x|x y tvs|x y|x y|x]; cbn; destruct (abs s !! x) as [l0|] eqn:Hx; try done.
  - intros [= <-]. apply abs_none in Hx. eexists. split; [done|]. split; [by apply make_good|].
    unfold abs. cbn. by rewrite fmap_insert.
  - destruct (abs s !! y) as [l|] eqn:Hy; [|done]. cbn. intros [= <-].
    destruct (Hobj _ _ Hy) as (o & Ho & ->). apply abs_none in Hx.
    by apply (attach_spec x y tvs s o).
  - destruct (abs s !! y) as [l|] eqn:Hy; [|done]. cbn. intros [= <-].
    destruct (Hobj _ _ Hy) as (o & Ho & ->). apply abs_none in Hx.
    destruct (copy_spec false x y s o H Hx Ho) as (s' & _ & Hr & H' & _ & Ha). exists s'. split; [|done].
    unfold copy_construct. by rewrite (bind_ok _ _ _ _ _ (get_object_eq y s o Ho)).
  - destruct (abs s !! y) as [l|] eqn:Hy; [|done]. cbn. intros [= <-].
    destruct (Hobj _ _ Hy) as (o & Ho & ->). apply abs_none in Hx.
    destruct (copy_spec true x y s o H Hx Ho) as (s' & _ & Hr & H' & _ & Ha). exists s'. split; [|done].
    unfold move_construct. by rewrite (bind_ok _ _ _ _ _ (get_object_eq y s o Ho)).
  - intros [= <-]. destruct (Hobj _ _ Hx) as (o & Ho & _). by apply (destroy_spec x s o).
Qed.
Lemma exec_all_spec cs s v :
  good s → spec_all cs (abs s) = Some v → ∃ s', exec_all cs s = (Ok tt, s') ∧ good s' ∧ abs s' = v.
Proof.
  revert s. induction cs as [|c cs IH]; intros s H; cbn [spec_all exec_all].
  - intros [= <-]. by exists s.
  - destruct (spec c (abs s)) as [v1|] eqn:Hc; [|done]. cbn. intros Hv.
    destruct (exec_spec c s v1 H Hc) as (s1 & Hr & H1 & <-).
    destruct (IH s1 H1 Hv) as (s' & Hr' & H'). exists s'. by rewrite (bind_ok _ _ _ _ _ Hr).
Qed.

(** ** Access *)

(** The value of the first information of type [t]. *)
Definition first_of (t : Z) (l : list (Z * Z)) : option Z := snd <$> head (filter (λ tv, tv.1 = t) l).

Lemma collect_spec fuel p l s :
  linked (nodes s) p l → (length l ≤ fuel)%nat → collect fuel p s = (Ok (contents (nodes s) l), s).
Proof.
  revert fuel p. induction l as [|a l IH]; intros fuel p.
  - intros -> _. by destruct fuel.
  - intros (-> & n & Ha & Hl) Hf. destruct fuel as [|fuel]; [cbn in Hf; lia|]. cbn [collect].
    rewrite (bind_ok _ _ _ _ _ (get_node_eq a s n Ha)).
    rewrite (bind_ok _ _ _ _ _ (IH fuel _ Hl ltac:(cbn in Hf; lia))). unfold contents. cbn.
    by rewrite Ha.
Qed.
Lemma find_info_spec fuel t p l s :
  linked (nodes s) p l → (length l ≤ fuel)%nat →
    find_info fuel t p s = (Ok (first_of t (contents (nodes s) l)), s).
Proof.
  revert fuel p. induction l as [|a l IH]; intros fuel p.
  - intros -> _. by destruct fuel.
  - intros (-> & n & Ha & Hl) Hf. destruct fuel as [|fuel]; [cbn in Hf; lia|]. cbn [find_info].
    rewrite (bind_ok _ _ _ _ _ (get_node_eq a s n Ha)).
    unfold contents. cbn [omap list_omap]. rewrite Ha. unfold first_of.
    cbn [fmap option_fmap option_map]. rewrite filter_cons. cbn.
    destruct (Z.eqb_spec (type_ n) t) as [E|E]; [by rewrite decide_True|].
    rewrite decide_False by done. apply IH; [done|cbn in Hf; lia].
Qed.

(** C22: Whatever a program does with exceptions by [operator<<], copies, moves and
    destruction, every exception that exists holds exactly the information that was attached
    to it and to those it was made from, oldest first: the loop over [error_infos] ends and
    reads nothing that was destroyed, [get_error_info] finds the first of a type, and
    [diagnostic_information] has a line for each. *)
Theorem exception_infos_kept cs v :
  spec_all cs ∅ = Some v →
  ∃ s, exec_all cs (State ∅ ∅ 0) = (Ok tt, s) ∧ dom (objects s) = dom v ∧
  ∀ x l, v !! x = Some l →
    error_infos x s = (Ok l, s) ∧
    (∀ t, get_error_info t x s = (Ok (first_of t l), s)) ∧
    (∀ format name, diagnostic_information format name x s =
      (Ok (("Exception [" +:+ name +:+ "]") :: ((λ tv, "  " +:+ format tv) <$> l)), s)).
Proof.
  intros Hv. assert (H0 : good (State ∅ ∅ 0)) by (split; cbn; try done; by intros ? [? ?]).
  destruct (exec_all_spec cs (State ∅ ∅ 0) v H0) as (s & Hr & H & <-);
    [by unfold abs; cbn; rewrite fmap_empty|].
  exists s. split; [done|]. split; [unfold abs; by rewrite dom_fmap_L|]. intros x l.
  rewrite abs_lookup. destruct (objects s !! x) as [o|] eqn:Ho; [|done].
  intros [= <-]. pose proof (good_linked _ H x o Ho) as Hl.
  pose proof (linked_size _ _ _ Hl (good_nodup _ H x o Ho)) as Hs.
  assert (He : error_infos x s = (Ok (contents (nodes s) (parts o)), s)).
  { unfold error_infos. rewrite (bind_ok _ _ _ _ _ (get_object_eq x s o Ho)), bind_get.
      by apply collect_spec. }
  split; [done|]. split.
  - intros t. unfold get_error_info. rewrite (bind_ok _ _ _ _ _ (get_object_eq x s o Ho)), bind_get.
    by apply find_info_spec.
  - intros format name. unfold diagnostic_information. by rewrite (bind_ok _ _ _ _ _ He).
Qed.
End values.

Definition sample : list op := [Make 0; Attach 1 0 [(7, 70); (8, 80)]; Attach 2 1 [(7, 71)];
    Destroy 1; Copy 3 2; Move 4 3; Destroy 2].
Lemma exception_infos_kept_witness :
  (λ m, m !! 4) <$> spec_all (λ _, 0) sample ∅ = Some (Some [(7, 70); (8, 80); (7, 71)]) ∧
  ∃ s, exec_all (λ _, 0) sample (State ∅ ∅ 0) = (Ok tt, s) ∧ get_error_info 7 4 s = (Ok (Some 70), s).
Proof.
  split; [vm_compute; reflexivity|].
  destruct (exception_infos_kept (λ _, 0) sample (default ∅ (spec_all (λ _, 0) sample ∅)))
    as (s & Hs & _ & H); [vm_compute; reflexivity|].
  exists s. split; [exact Hs|]. destruct (H 4 [(7, 70); (8, 80); (7, 71)]) as (_ & Hg & _);
    [vm_compute; reflexivity|]. apply Hg.
Defined.

(** Assignment links the information of the one object to the list of the other: the list of
    the source runs on into the target, and the list of the target is lost with the source. *)
Definition two : list op := [Make 0; Attach 1 0 [(7, 70)]; Attach 2 0 [(7, 71)]].
Definition after {A} (m : E A) : outcome A := fst ((exec_all (λ _, 0) two ;;; m) (State ∅ ∅ 0)).
Lemma assignment_shares_the_list :
  after (copy_assign (λ _, 0) 2 1 ;;; error_infos 2) = Ok [(7, 70); (7, 70)] ∧
  after (copy_assign (λ _, 0) 2 1 ;;; error_infos 1) = Ok [(7, 70); (7, 70)] ∧
  after (copy_assign (λ _, 0) 2 1 ;;; destroy 1 ;;; error_infos 2) = Undef ∧
  after (move_assign (λ _, 0) 2 1 ;;; destroy 1 ;;; error_infos 2) = Undef.
Proof. vm_compute. done. Qed.
(** When it is done twice, the list becomes a cycle and no loop over it ends. *)
Lemma collect_cycle fuel s a n : nodes s !! a = Some n → next_ n = Some a →
    collect fuel (Some a) s = (NoFuel, s).
Proof.
  intros Ha Hn. induction fuel as [|fuel IH]; [done|]. cbn [collect].
  rewrite (bind_ok _ _ _ _ _ (get_node_eq a s n Ha)), Hn. unfold bind. by rewrite IH.
Qed.
Lemma assignment_twice_is_a_cycle fuel :
  after (copy_assign (λ _, 0) 2 1 ;;; copy_assign (λ _, 0) 2 1 ;;; collect fuel (Some 1)) = NoFuel.
Proof.
  unfold after. erewrite bind_ok by (vm_compute; reflexivity).
  erewrite bind_ok by (vm_compute; reflexivity). erewrite bind_ok by (vm_compute; reflexivity).
  erewrite collect_cycle; [done|vm_compute; reflexivity|vm_compute; reflexivity].
Qed.
(** A copy of the base class alone keeps a list that belongs to the other object. *)
Lemma slice_dangles : after (slice 3 1 ;;; destroy 1 ;;; error_infos 3) = Undef.
Proof. vm_compute. done. Qed.

End ExceptionInfo.
