(* ===== verification/Span.v ===== *)
(** * span (span.hpp)

    A span is a pointer and a number of elements; its extent is a compile-time constant
    or dynamic.  The elements live in a memory from byte addresses to values; [sz] is
    [sizeof(T)].  Inside the class, [span(...)] names the span type with the extent of the
    class, so the members that return a part of a span construct a span of the same extent
    first. *)

From S2P Require Import Prelude.

Local Open Scope Z_scope.
Local Open Scope gpcl_scope.

Module Span.

Definition dynamic_extent : Z := 2 ^ 64 - 1.
Record span : Type := Make { p_ : Z; s_ : Z }.

Section span.
Context {V : Type} (sz : Z).
Abbreviation memory := (gmap Z V).
Abbreviation K A := (M memory A).

(** ** Construction *)

(** [span_base<T, E>(p, s)]. *)
Definition base (E p s : Z) : outcome span :=
  if E =? dynamic_extent then Ok (Make p s)
  else oassert (s =? E) ;;? Ok (Make p E).
(** Pointer difference, in elements, as a [size_t]. *)
Definition distance (first last : Z) : Z := u64 (Z.quot (last - first) sz).

Definition construct_count (E first count : Z) : outcome span := base E first count.
Definition construct_range (E first last : Z) : outcome span := base E first (distance first last).
(** From an array, a [std::array] or a container with [data()] and [size()]. *)
Definition construct_array (E arr n : Z) : outcome span := base E arr n.
Definition construct_span (E : Z) (s : span) : outcome span := base E (p_ s) (s_ s).

(** ** Observers *)

Definition data (s : span) : Z := p_ s.
Definition size (s : span) : Z := s_ s.
Definition size_bytes (s : span) : Z := u64 (size s * sz).
Definition empty (s : span) : bool := size s =? 0.
Definition begin (s : span) : Z := data s.
Definition end_ (s : span) : Z := begin s + size s * sz.
Definition deref (p : Z) : K V := λ m, match m !! p with Some v => (Ok v, m) | None => (Undef, m) end.
Definition front (s : span) : K V := deref (begin s).
Definition index (s : span) (idx : Z) : K V := deref (data s + idx * sz).

(** ** Parts *)

(** The return type is [span<T>]: the span of extent [E] is converted. *)
Definition first (E : Z) (s : span) (count : Z) : outcome span :=
  oassert (count <=? size s) ;;?
  let? r := construct_count E (data s) count in
  construct_span dynamic_extent r.
Definition last (E : Z) (s : span) (count : Z) : outcome span :=
  oassert (count <=? size s) ;;?
  let? r := construct_range E (end_ s - count * sz) (end_ s) in
  construct_span dynamic_extent r.
Definition subspan (E : Z) (s : span) (offset count : Z) : outcome span :=
  oassert (offset <=? size s) ;;?
  if count =? dynamic_extent then
    let? r := construct_range E (begin s + offset * sz) (end_ s) in
    construct_span dynamic_extent r
  else
    oassert (u64 (offset + count) <=? size s) ;;?
    (* the pointer wraps around as the sum does *)
    let? r := construct_range E (begin s + offset * sz) (begin s + u64 (offset + count) * sz) in
    construct_span dynamic_extent r.
(** The versions with template arguments: [N <= E] is checked at compile time. *)
Definition first_n (s : span) (N : Z) : outcome span := construct_count N (data s) N.
Definition last_n (s : span) (N : Z) : outcome span := construct_range N (end_ s - N * sz) (end_ s).
Definition subspan_n (s : span) (Offset Count Extent : Z) : outcome span :=
  construct_count Extent (data s + Offset * sz)
    (if negb (Count =? dynamic_extent) then Count else u64 (size s - Offset)).

(** [as_bytes] and [as_writable_bytes]. *)
Definition as_bytes (N : Z) (s : span) : outcome span :=
  base (if N =? dynamic_extent then dynamic_extent else u64 (N * sz)) (data s) (size_bytes s).

(** ** Comparison *)

Context `{!EqDecision V} (ltb : V → V → bool).

(** [std::equal] and [std::lexicographical_compare] on ranges of [n] and [k] elements. *)
Fixpoint equal_loop (n : nat) (p q : Z) : K bool :=
  match n with
  | O => ret true
  | S n =>
      let! x := deref p in
      let! y := deref q in
      if bool_decide (x = y) then equal_loop n (p + sz) (q + sz) else ret false
  end.
Definition eq (a b : span) : K bool :=
  if size a =? size b then equal_loop (Z.to_nat (size a)) (begin a) (begin b) else ret false.
Definition ne (a b : span) : K bool := let! r := eq a b in ret (negb r).
Fixpoint less_loop (n k : nat) (p q : Z) : K bool :=
  match n, k with
  | _, O => ret false
  | O, S _ => ret true
  | S n, S k =>
      let! x := deref p in
      let! y := deref q in
      if ltb x y then ret true
      else if ltb y x then ret false
      else less_loop n k (p + sz) (q + sz)
  end.
Definition lt (a b : span) : K bool :=
  less_loop (Z.to_nat (size a)) (Z.to_nat (size b)) (begin a) (begin b).
Definition gt (a b : span) : K bool := lt b a.
Definition le (a b : span) : K bool := let! r := lt b a in ret (negb r).
Definition ge (a b : span) : K bool := let! r := lt a b in ret (negb r).

(** ** Spans and the sequences they view *)

Context (Hsz : 0 < sz).

(** The span [s] views the elements [l]. *)
Definition views (m : memory) (s : span) (l : list V) : Prop :=
  size s = Z.of_nat (length l) ∧ size s < 2 ^ 63 ∧
  ∀ i v, l !! i = Some v → m !! (data s + Z.of_nat i * sz) = Some v.

Lemma views_index m s l (i : nat) v : views m s l → l !! i = Some v → index s (Z.of_nat i) m = (Ok v, m).
Proof. intros (_ & _ & H) Hi. unfold index, deref. by rewrite (H _ _ Hi). Qed.

Lemma views_part m s l (o n : nat) :
  views m s l → (o + n ≤ length l)%nat →
  views m (Make (data s + Z.of_nat o * sz) (Z.of_nat n)) (take n (drop o l)).
Proof.
  intros (Hs & Hb & H) Hle. unfold views. cbn. rewrite length_take, length_drop. split; [lia|]. split; [lia|].
  intros i v Hi. apply lookup_take_Some in Hi as [Hi _]. rewrite lookup_drop in Hi.
  rewrite <- (H _ _ Hi). f_equal. lia.
Qed.

Lemma distance_elems p (n : Z) : 0 ≤ n < 2 ^ 64 → distance p (p + n * sz) = n.
Proof.
  intros Hn. unfold distance. replace (p + n * sz - p) with (n * sz) by lia.
  rewrite Z.quot_mul, u64_small by lia. done.
Qed.

(** The extent of the class allows a part of [n] elements. *)
Definition allows (E n : Z) : Prop := E = dynamic_extent ∨ E = n.
Lemma base_ok E p n : allows E n → base E p n = Ok (Make p n).
Proof.
  intros [->| ->]; unfold base; [by rewrite Z.eqb_refl|]. destruct (n =? dynamic_extent); [done|].
  by rewrite obind_assert by apply Z.eqb_refl.
Qed.
Lemma base_rejects E p n : ¬ allows E n → base E p n = Abort.
Proof.
  intros Hn. unfold base. destruct (Z.eqb_spec E dynamic_extent) as [->|HE]; [by destruct Hn; left|].
  destruct (Z.eqb_spec n E) as [->|]; [by destruct Hn; right|done].
Qed.
Lemma to_dynamic r : construct_span dynamic_extent r = Ok r.
Proof. unfold construct_span. rewrite base_ok by (by left). by destruct r. Qed.

Lemma first_run E s (n : Z) : 0 ≤ n ≤ size s → allows E n → first E s n = Ok (Make (data s) n).
Proof.
  intros Hn HE. unfold first. rewrite obind_assert by lia. unfold construct_count. rewrite base_ok by done.
  cbn [obind]. apply to_dynamic.
Qed.
Lemma range_run E p (n : Z) : 0 ≤ n < 2 ^ 63 → allows E n →
  obind (construct_range E p (p + n * sz)) (construct_span dynamic_extent) = Ok (Make p n).
Proof.
  intros Hn HE. unfold construct_range. rewrite distance_elems, base_ok by (done || lia).
  cbn [obind]. apply to_dynamic.
Qed.

(** The parts of a span are the parts of the sequence it views: [first(n)], [last(n)]
    and [subspan(o, n)] of a span over [l] view the first [n] elements, the last [n], and
    the [n] elements from position [o], whenever these exist and the extent of the span is
    dynamic or equal to [n]; a part that reaches past the end is rejected by an assertion
    unless [o + n] overflows. *)
Theorem span_parts m E s l o n :
  views m s l → 0 ≤ o → 0 ≤ n < dynamic_extent → o + n < 2 ^ 64 → allows E n →
  (n ≤ size s →
     (∃ r, first E s n = Ok r ∧ views m r (take (Z.to_nat n) l)) ∧
     (∃ r, last E s n = Ok r ∧ views m r (drop (length l - Z.to_nat n) l))) ∧
  (o + n ≤ size s → ∃ r, subspan E s o n = Ok r ∧ views m r (take (Z.to_nat n) (drop (Z.to_nat o) l))) ∧
  (size s < n → first E s n = Abort ∧ last E s n = Abort) ∧
  (size s < o + n → subspan E s o n = Abort).
Proof.
  intros Hv Ho Hn Hw HE. destruct (Hv) as (Hs & Hb & _). split; [intros Hle; split|split; [|split]].
  - exists (Make (data s) n). split; [apply first_run; [lia|done]|].
    pose proof (views_part m s l 0 (Z.to_nat n) Hv ltac:(lia)) as H.
    by rewrite drop_0, Z.mul_0_l, Z.add_0_r, Z2Nat.id in H by lia.
  - exists (Make (end_ s - n * sz) n). unfold last. rewrite obind_assert by lia. split.
    + rewrite <- (range_run E (end_ s - n * sz) n) by (done || lia). do 2 f_equal. lia.
    + pose proof (views_part m s l (length l - Z.to_nat n) (Z.to_nat n) Hv ltac:(lia)) as H.
      rewrite take_ge in H by (rewrite length_drop; lia). rewrite Z2Nat.id in H by lia.
      replace (end_ s - n * sz) with (data s + Z.of_nat (length l - Z.to_nat n) * sz); [done|].
      unfold end_, begin. rewrite Nat2Z.inj_sub, Z2Nat.id, <- Hs by lia. lia.
  - intros Hle. exists (Make (data s + o * sz) n). unfold subspan.
    rewrite obind_assert by lia. rewrite (proj2 (Z.eqb_neq n dynamic_extent)) by lia.
    rewrite u64_small by lia. rewrite obind_assert by lia. split.
    + rewrite <- (range_run E (data s + o * sz) n) by (done || lia). do 2 f_equal. unfold begin. lia.
    + pose proof (views_part m s l (Z.to_nat o) (Z.to_nat n) Hv ltac:(lia)) as H.
      by rewrite !Z2Nat.id in H by lia.
  - intros Hlt. unfold first, last. by rewrite (proj2 (Z.leb_gt n (size s)) Hlt).
  - intros Hlt. unfold subspan. destruct (Z.leb_spec o (size s)); [|done]. cbn [oassert obind].
    rewrite (proj2 (Z.eqb_neq n dynamic_extent)), u64_small by lia. by rewrite (proj2 (Z.leb_gt (o + n) (size s)) Hlt).
Qed.

(** The rest of a span from position [o]. *)
Lemma subspan_rest m E s l o :
  views m s l → 0 ≤ o ≤ size s → allows E (size s - o) →
  ∃ r, subspan E s o dynamic_extent = Ok r ∧ views m r (drop (Z.to_nat o) l).
Proof.
  intros Hv Ho HE. destruct (Hv) as (Hs & Hb & _). exists (Make (data s + o * sz) (size s - o)). unfold subspan.
  rewrite obind_assert, Z.eqb_refl by lia. split.
  - rewrite <- (range_run E (data s + o * sz) (size s - o)) by (done || lia). do 2 f_equal. unfold end_, begin. lia.
  - pose proof (views_part m s l (Z.to_nat o) (length l - Z.to_nat o) Hv ltac:(lia)) as H.
    rewrite take_ge in H by (rewrite length_drop; lia).
    rewrite Z2Nat.id in H by lia. by replace (Z.of_nat (length l - Z.to_nat o)) with (size s - o) in H by lia.
Qed.
(** A span with a constant extent has no proper parts: the assertion of its base class fails. *)
Lemma static_span_first_aborts E s n : E ≠ dynamic_extent → n ≠ E → 0 ≤ n ≤ size s → first E s n = Abort.
Proof.
  intros HE Hne Hn. unfold first. rewrite obind_assert by lia. unfold construct_count.
  by rewrite base_rejects by (intros [?|?]; congruence).
Qed.
(** The check of [subspan] overflows: the part it returns is bigger than the span. *)
Lemma subspan_overflows :
  subspan dynamic_extent (Make 1000 4) 3 (2 ^ 64 - 2) = Ok (Make (1000 + 3 * sz) (2 ^ 64 - 2)).
Proof.
  unfold subspan. cbn [size s_ begin data p_]. rewrite obind_assert by done.
  change (2 ^ 64 - 2 =? dynamic_extent) with false. change (u64 (3 + (2 ^ 64 - 2))) with 1. cbn [oassert obind Z.leb].
  unfold construct_range, distance. change (1 <=? 4) with true. cbn [oassert obind].
  replace (1000 + 1 * sz - (1000 + 3 * sz)) with (- 2 * sz) by lia. rewrite Z.quot_mul by lia.
  change (u64 (-2)) with (2 ^ 64 - 2). unfold base. cbn. rewrite Z.eqb_refl. cbn. apply to_dynamic.
Qed.
(** [first<N>()] of a dynamic span does not look at its size. *)
Lemma first_n_unchecked : first_n (Make 1000 4) 5 = Ok (Make 1000 5).
Proof. by vm_compute. Qed.

Lemma views_cons m s x l : views m s (x :: l) → m !! data s = Some x ∧ views m (Make (data s + sz) (size s - 1)) l.
Proof.
  intros (Hs & Hb & H). cbn in Hs. split.
  - pose proof (H 0%nat x eq_refl) as H0. by rewrite Z.mul_0_l, Z.add_0_r in H0.
  - split; [cbn; lia|]. split; [cbn; lia|]. intros i v Hi. rewrite <- (H (S i) v Hi). cbn. f_equal. lia.
Qed.
Lemma equal_loop_run m : ∀ l l' s s',
  views m s l → views m s' l' → length l = length l' →
  equal_loop (length l) (begin s) (begin s') m = (Ok (bool_decide (l = l')), m).
Proof.
  induction l as [|x l IH]; intros [|y l'] s s' Hv Hv' Hlen; [done|done|done|].
  destruct (views_cons _ _ _ _ Hv) as [Hx Hl]. destruct (views_cons _ _ _ _ Hv') as [Hy Hl'].
  cbn [length equal_loop]. rewrite (bind_ok _ _ m x m) by (unfold deref, begin; by rewrite Hx).
  rewrite (bind_ok _ _ m y m) by (unfold deref, begin; by rewrite Hy). case_bool_decide as Hxy.
  - subst y. pose proof (IH l' _ _ Hl Hl' ltac:(by injection Hlen)) as HIH. unfold begin, data in *. cbn in *.
    rewrite HIH. do 2 f_equal. apply bool_decide_ext. split; [congruence|by intros [= ->]].
  - unfold ret. rewrite bool_decide_false by congruence. done.
Qed.
(** Lexicographical order. *)
Fixpoint lex (l l' : list V) : bool :=
  match l, l' with
  | _, [] => false
  | [], _ :: _ => true
  | x :: l, y :: l' => if ltb x y then true else if ltb y x then false else lex l l'
  end.
Lemma less_loop_run m : ∀ l l' s s',
  views m s l → views m s' l' →
  less_loop (length l) (length l') (begin s) (begin s') m = (Ok (lex l l'), m).
Proof.
  induction l as [|x l IH]; intros [|y l'] s s' Hv Hv'; [done|done|done|].
  destruct (views_cons _ _ _ _ Hv) as [Hx Hl]. destruct (views_cons _ _ _ _ Hv') as [Hy Hl'].
  cbn [length less_loop lex]. rewrite (bind_ok _ _ m x m) by (unfold deref, begin; by rewrite Hx).
  rewrite (bind_ok _ _ m y m) by (unfold deref, begin; by rewrite Hy).
  destruct (ltb x y); [done|]. destruct (ltb y x); [done|].
  pose proof (IH l' _ _ Hl Hl') as HIH. unfold begin, data in *. by cbn in *.
Qed.
(** Comparing spans compares what they view. *)
Lemma span_comparisons m s l s' l' :
  views m s l → views m s' l' →
  eq s s' m = (Ok (bool_decide (l = l')), m) ∧ ne s s' m = (Ok (bool_decide (l ≠ l')), m) ∧
  lt s s' m = (Ok (lex l l'), m) ∧ gt s s' m = (Ok (lex l' l), m) ∧
  le s s' m = (Ok (negb (lex l' l)), m) ∧ ge s s' m = (Ok (negb (lex l l')), m).
Proof.
  intros Hv Hv'. destruct (Hv) as (Hs & _ & _), (Hv') as (Hs' & _ & _).
  assert (Heq : eq s s' m = (Ok (bool_decide (l = l')), m)).
  { unfold eq. rewrite Hs, Hs'. destruct (Z.eqb_spec (Z.of_nat (length l)) (Z.of_nat (length l'))) as [Hl|Hl].
    - rewrite Nat2Z.id. apply equal_loop_run; [done|done|lia].
    - rewrite bool_decide_false; [done|]. intros ->. lia. }
  assert (Hlt : lt s s' m = (Ok (lex l l'), m)).
  { unfold lt. rewrite Hs, Hs', !Nat2Z.id. by apply less_loop_run. }
  assert (Hgt : lt s' s m = (Ok (lex l' l), m)).
  { unfold lt. rewrite Hs, Hs', !Nat2Z.id. by apply less_loop_run. }
  unfold ne, gt, le, ge. rewrite (bind_ok _ _ _ _ _ Heq), (bind_ok _ _ _ _ _ Hlt), (bind_ok _ _ _ _ _ Hgt).
  split_and!; [done| |done..]. unfold ret. by rewrite bool_decide_not.
Qed.

End span.

Lemma span_parts_witness :
  let m : gmap Z Z := {[ 1000 := 7; 1004 := 8; 1008 := 9 ]} in
  ∃ r, subspan 4 dynamic_extent (Make 1000 3) 1 2 = Ok r ∧ views 4 m r [8; 9].
Proof.
  assert (Hv : views 4 ({[ 1000 := 7; 1004 := 8; 1008 := 9 ]} : gmap Z Z) (Make 1000 3) [7; 8; 9]).
  { split; [reflexivity|]. split; [cbn; lia|]. intros [|[|[|i]]] v; cbn; intros [= <-]; reflexivity. }
  apply (span_parts 4 eq_refl _ dynamic_extent (Make 1000 3) [7; 8; 9] 1 2 Hv); unfold dynamic_extent; cbn; try lia.
  by left.
Defined.

End Span.
