(* ===== verification/SpanBuf.v ===== *)
(** * basic_spanbuf (basic_spanbuf.hpp)

    A stream buffer over a given span of characters.  The pointers of the get area and of
    the put area are those of [std::basic_streambuf], whose [sgetc], [sbumpc], [sputc],
    [sgetn] and [sputn] are modelled with the default [underflow] and [overflow], which
    report the end of the file. *)

From S2P Require Import Prelude Span.

Local Open Scope Z_scope.
Local Open Scope gpcl_scope.

Module SpanBuf.
Import Span.

Record openmode : Type := Mode { in_ : bool; out_ : bool; ate_ : bool }.
Inductive seekdir : Type := beg | cur | end_of.

Record spanbuf : Type := SpanBuf {
  openmode_ : openmode;
  span_ : span;
  eback : Z; gptr : Z; egptr : Z;
  pbase : Z; pptr : Z; epptr : Z;
}.
Record state : Type := State { buf : spanbuf; chars : gmap Z Z }.
Abbreviation B A := (M state A).

(** ** std::basic_streambuf *)

Definition on_buf (f : spanbuf → spanbuf) : B unit := modify (λ s, State (f (buf s)) (chars s)).
Definition setg (b c e : Z) : B unit :=
  on_buf (λ u, SpanBuf (openmode_ u) (span_ u) b c e (pbase u) (pptr u) (epptr u)).
Definition setp (b e : Z) : B unit :=
  on_buf (λ u, SpanBuf (openmode_ u) (span_ u) (eback u) (gptr u) (egptr u) b b e).
(** [None] is [Traits::eof()]. *)
Definition sgetc : B (option Z) := λ s,
  if gptr (buf s) <? egptr (buf s)
  then match chars s !! gptr (buf s) with Some c => (Ok (Some c), s) | None => (Undef, s) end
  else (Ok None, s).
Definition sbumpc : B (option Z) :=
  let! c := sgetc in
  match c with
  | Some c =>
      on_buf (λ u, SpanBuf (openmode_ u) (span_ u) (eback u) (gptr u + 1) (egptr u) (pbase u)
        (pptr u) (epptr u)) ;;;
      ret (Some c)
  | None => ret None
  end.
Definition sputc (c : Z) : B bool := λ s,
  let u := buf s in
  if pptr u <? epptr u
  then match chars s !! pptr u with
       | Some _ =>
           (Ok true, State (SpanBuf (openmode_ u) (span_ u) (eback u) (gptr u) (egptr u) (pbase u)
             (pptr u + 1) (epptr u))
                       (<[pptr u := c]> (chars s)))
       | None => (Undef, s)
       end
  else (Ok false, s).
Fixpoint sputn (w : list Z) : B Z :=
  match w with
  | [] => ret 0
  | c :: w => let! b := sputc c in if b : bool then let! n := sputn w in ret (n + 1) else ret 0
  end.
Fixpoint sgetn (n : nat) : B (list Z) :=
  match n with
  | O => ret []
  | S n => let! c := sbumpc in
           match c with Some c => let! w := sgetn n in ret (c :: w) | None => ret [] end
  end.

(** ** basic_spanbuf *)

(** [span(buf)]. *)
Definition set_span (b : span) : B unit :=
  on_buf (λ u, SpanBuf (openmode_ u) b (eback u) (gptr u) (egptr u) (pbase u) (pptr u) (epptr u)) ;;;
  let! s := get in
  let begin := data (span_ (buf s)) in
  let end_ := begin + size (span_ (buf s)) in
  (if in_ (openmode_ (buf s)) then setg begin begin end_ else ret tt) ;;;
  (if out_ (openmode_ (buf s)) then
     if ate_ (openmode_ (buf s)) then setp end_ end_ else setp begin end_
   else ret tt).
(** [span()]. *)
Definition get_span : B span :=
  let! s := get in
  if out_ (openmode_ (buf s)) then
    match construct_range 1 dynamic_extent (pbase (buf s)) (pptr (buf s)) with
    | Ok r => ret r
    | _ => undef
    end
  else ret (span_ (buf s)).
(** The constructors, on the memory of [s]: the base class starts without areas. *)
Definition construct (b : span) (which : openmode) : B unit :=
  modify (λ s, State (SpanBuf which (Make 0 0) 0 0 0 0 0 0) (chars s)) ;;; set_span b.
Definition construct_mode (which : openmode) : B unit := construct (Make 0 0) which.
Definition construct_default : B unit := construct_mode (Mode true true false).
(** [basic_spanbuf(basic_spanbuf &&)]: the new buffer and the old one. *)
Definition move_construct (other : spanbuf) : spanbuf * spanbuf :=
  (other, SpanBuf (Mode false false false) (span_ other) (eback other) (gptr other) (egptr other)
            (pbase other) (pptr other) (epptr other)).
Definition setbuf (s n : Z) : B unit :=
  match construct_count dynamic_extent s (u64 n) with Ok r => set_span r | _ => undef end.

(** Signed arithmetic of [off_type]. *)
Definition off_add (x y : Z) : B Z :=
  let z := x + y in if (- 2 ^ 63 <=? z) && (z <? 2 ^ 63) then ret z else undef.
(** The new offset, or [None] where [seekoff] returns -1 at once. *)
Definition new_offset (off : Z) (dir : seekdir) (which : openmode) : B (option Z) :=
  let! s := get in
  let u := buf s in
  match dir with
  | beg => ret (Some off)
  | cur =>
      if in_ which && out_ which then ret None
      else if out_ which then let! n := off_add (pptr u - pbase u) off in ret (Some n)
      else if in_ which then let! n := off_add (gptr u - eback u) off in ret (Some n)
      else ret None
  | end_of =>
      if out_ (openmode_ u) && negb (in_ (openmode_ u))
      then let! n := off_add (pptr u - pbase u) off in ret (Some n)
      else ret (Some (i64 (u64 (off + size (span_ u)))))
  end.
Definition seekoff (off : Z) (dir : seekdir) (which : openmode) : B Z :=
  let! s := get in
  let u := buf s in
  if negb ((implb (in_ which) (in_ (openmode_ u))) && (implb (out_ which) (out_ (openmode_ u))) &&
           (implb (ate_ which) (ate_ (openmode_ u)))) then ret (-1) else
  let! r := new_offset off dir which in
  match r with
  | None => ret (-1)
  | Some newoff =>
      if (pptr u =? 0) && (gptr u =? 0) && negb (newoff =? 0) then ret (-1) else
      if (newoff <? 0) || (size (span_ u) <? u64 newoff) then ret (-1) else
      let pbuf := data (span_ u) in
      (if in_ which then setg pbuf (pbuf + newoff) (pbuf + size (span_ u)) else ret tt) ;;;
      (if out_ which then setp (pbuf + newoff) (pbuf + size (span_ u)) else ret tt) ;;;
      ret newoff
  end.
Definition seekpos (pos : Z) (which : openmode) : B Z := seekoff pos beg which.

(** ** The areas lie inside the span *)

Definition inside (u : spanbuf) : Prop :=
  let lo := data (span_ u) in
  let hi := lo + size (span_ u) in
  0 ≤ size (span_ u) < 2 ^ 63 ∧
  (if in_ (openmode_ u) then eback u = lo ∧ lo ≤ gptr u ≤ hi ∧ egptr u = hi
   else gptr u = egptr u) ∧
  (if out_ (openmode_ u) then lo ≤ pbase u ∧ pbase u ≤ pptr u ≤ hi ∧ epptr u = hi
   else pptr u = epptr u).
(** The characters of the span are allocated. *)
Definition allocated (m : gmap Z Z) (b : span) : Prop :=
  ∀ i, 0 ≤ i < size b → is_Some (m !! (data b + i)).
Definition ok (s : state) : Prop := inside (buf s) ∧ allocated (chars s) (span_ (buf s)).

Inductive op : Type :=
| Getc | Bumpc | Putc (c : Z)
| SetSpan (b : span)
| Seek (off : Z) (dir : seekdir) (which : openmode).

(** The result of [op], whatever it is. *)
Definition run_op (o : op) : B unit :=
  match o with
  | Getc => sgetc ;;; ret tt
  | Bumpc => sbumpc ;;; ret tt
  | Putc c => sputc c ;;; ret tt
  | SetSpan b => set_span b
  | Seek off dir which => seekoff off dir which ;;; ret tt
  end.
Definition allowed (o : op) (s : state) : Prop :=
  match o with
  | SetSpan b => 0 ≤ size b < 2 ^ 63 ∧ allocated (chars s) b
  | Seek off _ _ => - 2 ^ 62 ≤ off < 2 ^ 62 ∧ size (span_ (buf s)) < 2 ^ 62
  | _ => True
  end.

Lemma sgetc_run s : ok s → ∃ c, sgetc s = (Ok c, s) ∧
    (gptr (buf s) < egptr (buf s) → c = chars s !! gptr (buf s) ∧ is_Some c).
Proof.
  intros [(Hsz & Hi & _) Ha]. unfold sgetc.
  destruct (Z.ltb_spec (gptr (buf s)) (egptr (buf s))) as [Hlt|]; [|exists None; split; [done|lia]].
  destruct (in_ (openmode_ (buf s))); [|lia]. destruct Hi as (_ & Hg & He).
  destruct (Ha (gptr (buf s) - data (span_ (buf s)))) as [c Hc]; [lia|].
  replace (data _ + (_ - _)) with (gptr (buf s)) in Hc by lia. rewrite Hc. exists (Some c). by eauto.
Qed.
Lemma allocated_insert m b p c : allocated m b → allocated (<[p := c]> m) b.
Proof. intros Ha i Hi. rewrite lookup_insert. case_decide; [done|by apply Ha]. Qed.

Lemma bump_run s : ok s → ∃ c s', sbumpc s = (Ok c, s') ∧ ok s' ∧ chars s' = chars s.
Proof.
  intros H. destruct (sgetc_run s H) as (c & Hc & Hin). unfold sbumpc. rewrite (bind_ok _ _ _ _ _ Hc).
  destruct c as [c|]; [|by exists None, s]. unfold on_buf. rewrite bind_modify. eexists _, _.
  split; [done|].
  split; [|done]. destruct (decide (gptr (buf s) < egptr (buf s))) as [Hlt|Hge].
  - destruct H as [(Hsz & Hi & Ho) Ha]. split; [|exact Ha]. unfold inside. cbn. split; [done|].
    split; [|done].
    destruct (in_ (openmode_ (buf s))); lia.
  - exfalso. unfold sgetc in Hc. by rewrite (proj2 (Z.ltb_ge _ _)) in Hc by lia.
Qed.
Lemma sputc_run s c : ok s → ∃ b s', sputc c s = (Ok b, s') ∧ ok s'.
Proof.
  intros [(Hsz & Hi & Ho) Ha]. unfold sputc.
  destruct (Z.ltb_spec (pptr (buf s)) (epptr (buf s))) as [Hlt|].
  - destruct (out_ (openmode_ (buf s))) eqn:Hout; [|lia].
    destruct (Ha (pptr (buf s) - data (span_ (buf s)))) as [x Hx]; [lia|].
    replace (data _ + (_ - _)) with (pptr (buf s)) in Hx by lia. rewrite Hx. eexists _, _.
    split; [done|].
    split; [|by apply allocated_insert]. unfold inside. cbn. rewrite Hout. repeat split; try done; lia.
  - eexists _, _. split; [done|]. done.
Qed.
Lemma set_span_run s b : 0 ≤ size b < 2 ^ 63 → allocated (chars s) b → inside (buf s) →
  ∃ s', set_span b s = (Ok tt, s') ∧ ok s' ∧ chars s' = chars s ∧
    openmode_ (buf s') = openmode_ (buf s) ∧ span_ (buf s') = b ∧
    (in_ (openmode_ (buf s)) = true → gptr (buf s') = data b) ∧
    (out_ (openmode_ (buf s)) = true → ate_ (openmode_ (buf s)) = false → pbase (buf s') = data b ∧
      pptr (buf s') = data b).
Proof.
  intros Hb Ha (Hsz & Hi & Ho). unfold set_span, on_buf. rewrite bind_modify, bind_get.
  cbn [buf openmode_ span_].
  unfold setg, setp, on_buf, ok, inside. destruct (buf s) as [[i o a] sp e g eg pb pp ep]. cbn in *.
  destruct i, o, a; cbn; unfold bind, ret; cbn; eexists; (split; [reflexivity|]); cbn;
    repeat split; try done; try lia.
Qed.
Lemma off_add_run x y s : - 2 ^ 63 ≤ x + y < 2 ^ 63 → off_add x y s = (Ok (x + y), s).
Proof. intros H. unfold off_add. by rewrite (proj2 (Z.leb_le _ _)), (proj2 (Z.ltb_lt _ _)) by lia. Qed.
Lemma new_offset_run s off dir which :
  ok s → - 2 ^ 62 ≤ off < 2 ^ 62 → size (span_ (buf s)) < 2 ^ 62 →
  (in_ which = true → in_ (openmode_ (buf s)) = true) →
    (out_ which = true → out_ (openmode_ (buf s)) = true) →
  ∃ r, new_offset off dir which s = (Ok r, s) ∧ ∀ n, r = Some n → n < 2 ^ 63.
Proof.
  intros [(Hsz & Hi & Ho) _] Hoff Hn Hwi Hwo. unfold new_offset. rewrite bind_get.
  assert (Hadd : ∀ x, 0 ≤ x ≤ size (span_ (buf s)) →
    ∃ r, bind (off_add x off) (λ n, ret (Some n)) s = (Ok r, s) ∧ ∀ n, r = Some n → n < 2 ^ 63).
  { intros x Hx. rewrite (bind_ok _ _ _ _ _ (off_add_run x off s ltac:(lia))). eexists.
      split; [done|]. intros n [= <-]. lia. }
  destruct dir.
  - eexists. split; [done|]. intros n [= <-]. lia.
  - destruct (in_ which), (out_ which); cbn [andb]; [by eexists| | |by eexists].
    + rewrite Hwi in Hi by done. apply Hadd. lia.
    + rewrite Hwo in Ho by done. apply Hadd. lia.
  - destruct (out_ (openmode_ (buf s)) && _) eqn:Eo.
    + apply andb_true_iff in Eo as [Eo _]. rewrite Eo in Ho. apply Hadd. lia.
    + eexists. split; [done|]. intros n [= <-]. unfold i64, sint.
      pose proof (Z.mod_pos_bound (u64 (off + size (span_ (buf s))) + 2 ^ (64 - 1)) (2 ^ 64)). lia.
Qed.
(** Moving the areas to an offset inside the span. *)
Lemma areas_run s which n :
  ok s → 0 ≤ n ≤ size (span_ (buf s)) →
  (in_ which = true → in_ (openmode_ (buf s)) = true) →
    (out_ which = true → out_ (openmode_ (buf s)) = true) →
  let pbuf := data (span_ (buf s)) in
  ∃ s', ((if in_ which then setg pbuf (pbuf + n) (pbuf + size (span_ (buf s))) else ret tt) ;;;
         (if out_ which then setp (pbuf + n) (pbuf + size (span_ (buf s))) else ret tt) ;;;
           ret n) s = (Ok n, s') ∧ ok s'.
Proof.
  intros [(Hsz & Hi & Ho) Ha] Hn Hwi Hwo. cbv zeta. unfold setg, setp, on_buf.
  destruct (in_ which) eqn:Ei, (out_ which) eqn:Eo; unfold bind, ret, modify; cbn;
    (eexists; split; [reflexivity|]); (split; [|exact Ha]); unfold inside; cbn;
    rewrite ?(Hwi eq_refl), ?(Hwo eq_refl) in *; repeat split; try done; try lia.
Qed.
Lemma seek_run s off dir which :
  ok s → - 2 ^ 62 ≤ off < 2 ^ 62 → size (span_ (buf s)) < 2 ^ 62 →
    ∃ r s', seekoff off dir which s = (Ok r, s') ∧ ok s'.
Proof.
  intros H Hoff Hn. unfold seekoff. rewrite bind_get.
  destruct (negb _) eqn:Hsub; [by eexists _, _|].
  apply negb_false_iff, andb_true_iff in Hsub as [Hsub _].
  apply andb_true_iff in Hsub as [Hwi Hwo].
  assert (Hi : in_ which = true → in_ (openmode_ (buf s)) = true) by (intros E; by rewrite E in Hwi).
  assert (Ho : out_ which = true → out_ (openmode_ (buf s)) = true) by (intros E; by rewrite E in Hwo).
  destruct (new_offset_run s off dir which H Hoff Hn Hi Ho) as (r & Hr & Hlt).
  rewrite (bind_ok _ _ _ _ _ Hr).
  destruct r as [n|]; [|by eexists _, _]. specialize (Hlt n eq_refl).
  destruct (_ && negb (n =? 0)); [by eexists _, _|].
  destruct (Z.ltb_spec n 0); [by eexists _, _|]. cbn [orb].
  destruct (Z.ltb_spec (size (span_ (buf s))) (u64 n)) as [|Hle]; [by eexists _, _|].
  rewrite u64_small in Hle by lia.
  destruct (areas_run s which n H ltac:(lia) Hi Ho) as (s' & Hs' & Hok). by eauto.
Qed.

(** A span buffer never leaves its span: whatever a program reads, writes, or seeks to,
    and whichever span it sets, every member function returns, no character outside the
    span is touched, and the get and put areas stay inside the span. *)
Theorem spanbuf_stays_inside o s :
  ok s → allowed o s → ∃ s', run_op o s = (Ok tt, s') ∧ ok s'.
Proof.
  intros H Ha. destruct o as [| |c|b|off dir which]; cbn [run_op allowed] in *.
  - destruct (sgetc_run s H) as (c & Hc & _). exists s. by rewrite (bind_ok _ _ _ _ _ Hc).
  - destruct (bump_run s H) as (c & s' & Hc & Hok & _). exists s'. by rewrite (bind_ok _ _ _ _ _ Hc).
  - destruct (sputc_run s c H) as (b & s' & Hc & Hok). exists s'. by rewrite (bind_ok _ _ _ _ _ Hc).
  - destruct (set_span_run s b (proj1 Ha) (proj2 Ha) (proj1 H)) as (s' & Hs' & Hok & _). by exists s'.
  - destruct (seek_run s off dir which H (proj1 Ha) (proj2 Ha)) as (r & s' & Hc & Hok). exists s'.
    by rewrite (bind_ok _ _ _ _ _ Hc).
Qed.

(** ** What is written and what is read *)

Lemma put_list_run s c :
  ok s → out_ (openmode_ (buf s)) = true → pptr (buf s) < epptr (buf s) →
  ∃ s', sputc c s = (Ok true, s') ∧ ok s' ∧ openmode_ (buf s') = openmode_ (buf s) ∧
    span_ (buf s') = span_ (buf s) ∧
    pbase (buf s') = pbase (buf s) ∧ pptr (buf s') = pptr (buf s) + 1 ∧ epptr (buf s') = epptr (buf s) ∧
    chars s' = <[pptr (buf s) := c]> (chars s).
Proof.
  intros H Ho Hlt. destruct (sputc_run s c H) as (b & s' & Hs' & Hok). exists s'. pose proof Hs' as Hp.
  unfold sputc in Hp. rewrite (proj2 (Z.ltb_lt _ _) Hlt) in Hp. destruct (chars s !! pptr (buf s));
    simplify_eq. done.
Qed.
(** [sputn] writes as much as fits. *)
Lemma sputn_run : ∀ w s, ok s → out_ (openmode_ (buf s)) = true →
    pptr (buf s) + Z.of_nat (length w) ≤ epptr (buf s) →
  ∃ s', sputn w s = (Ok (Z.of_nat (length w)), s') ∧ ok s' ∧ openmode_ (buf s') = openmode_ (buf s) ∧
    pbase (buf s') = pbase (buf s) ∧ pptr (buf s') = pptr (buf s) + Z.of_nat (length w) ∧
    (∀ i c, w !! i = Some c → chars s' !! (pptr (buf s) + Z.of_nat i) = Some c) ∧
    (∀ p, p < pptr (buf s) → chars s' !! p = chars s !! p).
Proof.
  induction w as [|c w IH]; intros s H Ho Hfit; cbn [length sputn] in *.
  - exists s. split_and!; try done. cbn. lia.
  - destruct (put_list_run s c H Ho ltac:(lia)) as (s1 & H1 & Hok & Hm & Hsp & Hb & Hp & He & Hc).
    destruct (IH s1 Hok ltac:(congruence) ltac:(lia)) as (s2 & H2 & Hok2 & Hm2 & Hb2 & Hp2 & Hw & Hold).
    exists s2. rewrite (bind_ok _ _ _ _ _ H1), (bind_ok _ _ _ _ _ H2). unfold ret.
    split_and!; try congruence.
    + do 2 f_equal. lia.
    + rewrite Hp2, Hp. lia.
    + intros [|i] x; cbn [lookup list_lookup].
      * intros [= <-]. rewrite Z.add_0_r, Hold, Hc by lia. apply lookup_insert_eq.
      * intros Hx. rewrite <- (Hw i x Hx). f_equal. lia.
    + intros p Hpp. rewrite Hold by lia. rewrite Hc, lookup_insert_ne by lia. done.
Qed.
Lemma sgetn_run : ∀ w s, ok s → in_ (openmode_ (buf s)) = true →
    gptr (buf s) + Z.of_nat (length w) ≤ egptr (buf s) →
  (∀ i c, w !! i = Some c → chars s !! (gptr (buf s) + Z.of_nat i) = Some c) →
  ∃ s', sgetn (length w) s = (Ok w, s').
Proof.
  induction w as [|c w IH]; intros s H Hi Hfit Hw; cbn [length sgetn] in *; [by eexists|].
  destruct (bump_run s H) as (c' & s' & Hb & Hok & Hch). rewrite (bind_ok _ _ _ _ _ Hb).
  assert (Hc : c' = Some c ∧ openmode_ (buf s') = openmode_ (buf s) ∧
    gptr (buf s') = gptr (buf s) + 1 ∧ egptr (buf s') = egptr (buf s)).
  { unfold sbumpc, sgetc, bind, on_buf, modify, ret in Hb. pose proof (Hw 0%nat c eq_refl) as H0.
    rewrite Z.add_0_r in H0. rewrite (proj2 (Z.ltb_lt _ _)), H0 in Hb by lia. cbn in Hb.
    by simplify_eq. }
  destruct Hc as (-> & Hm & Hg & He). destruct (IH s' Hok) as (s2 & H2); [congruence|lia| |].
  - intros i x Hx. rewrite Hch, <- (Hw (S i) x Hx). f_equal. lia.
  - exists s2. by rewrite (bind_ok _ _ _ _ _ H2).
Qed.

(** What is written to a span buffer is what [span()] views and what is read back. *)
Lemma spanbuf_write_read b w m :
  0 ≤ size b < 2 ^ 63 → allocated m b → Z.of_nat (length w) ≤ size b → ∀ u,
  ∃ s r s', (construct b (Mode false true false) ;;; sputn w ;;; get_span) (State u m) = (Ok r, s) ∧
    data r = data b ∧ size r = Z.of_nat (length w) ∧
    (construct r (Mode true false false) ;;; sgetn (length w)) s = (Ok w, s').
Proof.
  intros Hb Ha Hfit u. unfold construct at 1. rewrite bind_assoc, bind_modify.
  set (u0 := SpanBuf (Mode false true false) (Make 0 0) 0 0 0 0 0 0).
  assert (H0 : inside u0) by (unfold inside; cbn; lia).
  destruct (set_span_run (State u0 m) b Hb Ha H0) as (s1 & H1 & Hok1 & Hc1 & Hm1 & Hs1 & _ & Hp1).
  destruct (Hp1 eq_refl eq_refl) as [Hpb Hpp]. cbn [buf openmode_ u0] in Hm1.
  rewrite (bind_ok _ _ _ _ _ H1).
  assert (He1 : epptr (buf s1) = data b + size b).
  { destruct Hok1 as [(_ & _ & Ho) _]. rewrite Hm1, Hs1 in Ho. apply Ho. }
  destruct (sputn_run w s1 Hok1) as (s2 & H2 & Hok2 & Hm2 & Hpb2 & Hpp2 & Hw & _); [by rewrite Hm1|lia|].
  rewrite (bind_ok _ _ _ _ _ H2). unfold get_span. rewrite bind_get, Hm2, Hm1. cbn [out_].
  rewrite Hpb2, Hpp2, Hpb, Hpp. unfold construct_range.
  replace (data b + Z.of_nat (length w)) with (data b + Z.of_nat (length w) * 1) by lia.
  rewrite distance_elems by lia. rewrite base_ok by (by left).
  exists s2, (Make (data b) (Z.of_nat (length w))).
  assert (Ha2 : allocated (chars s2) (Make (data b) (Z.of_nat (length w)))).
  { intros i Hi. cbn in Hi |- *. destruct (lookup_lt_is_Some_2 w (Z.to_nat i)) as [c Hc]; [lia|].
    exists c. rewrite <- (Hw _ _ Hc), Hpp. f_equal. lia. }
  set (v0 := SpanBuf (Mode true false false) (Make 0 0) 0 0 0 0 0 0).
  assert (Hv0 : inside v0) by (unfold inside; cbn; lia).
  destruct (set_span_run (State v0 (chars s2)) (Make (data b) (Z.of_nat (length w))) ltac:(cbn;
    lia) Ha2 Hv0)
    as (s3 & H3 & Hok3 & Hc3 & Hm3 & Hs3 & Hg3 & _). specialize (Hg3 eq_refl). cbn in Hg3, Hm3.
  assert (He3 : egptr (buf s3) = data b + Z.of_nat (length w)).
  { destruct Hok3 as [(_ & Hi & _) _]. rewrite Hm3, Hs3 in Hi. apply Hi. }
  destruct (sgetn_run w s3 Hok3) as (s4 & H4); [by rewrite Hm3|lia| |].
  { intros i c Hc. rewrite Hc3, Hg3, <- (Hw i c Hc), Hpp. done. }
  exists s4. split; [done|]. split; [done|]. split; [done|]. unfold construct.
  rewrite bind_assoc, bind_modify.
  by rewrite (bind_ok _ _ _ _ _ H3).
Qed.

(** Four characters at 100. *)
Definition four : state := State (SpanBuf (Mode true true false) (Make 100 4) 100 100 104 100 100 104)
  {[ 100 := 0; 101 := 0; 102 := 0; 103 := 0 ]}.
Lemma four_ok : ok four.
Proof.
  split; [unfold inside; cbn; lia|]. intros i Hi. cbn in Hi |- *.
  assert (i = 0 ∨ i = 1 ∨ i = 2 ∨ i = 3) as [-> |[-> |[-> | ->]]] by lia; by eexists.
Qed.
Lemma spanbuf_stays_inside_witness :
  ∃ s', run_op (Putc 65) four = (Ok tt, s') ∧ ok s'.
Proof. apply (spanbuf_stays_inside (Putc 65) four four_ok). exact I. Defined.

(** Seeking in the put area forgets where it began: afterwards the position is reported as 0
    and [span()] does not view what was written before. *)
Lemma spanbuf_seek_loses_base :
  fst ((sputn [65; 66; 67] ;;; seekoff 2 beg (Mode false true false) ;;;
    seekoff 0 cur (Mode false true false)) four) = Ok 0 ∧
  fst ((sputn [65; 66; 67] ;;; seekoff 3 beg (Mode false true false) ;;;
    get_span) four) = Ok (Make 103 0).
Proof. by vm_compute. Qed.

End SpanBuf.
