(* ===== verification/SyncBuf.v ===== *)
(** * basic_syncbuf (basic_syncbuf.hpp, detail/impl/get_mutex_for_address.ipp)

    A [basic_syncbuf] collects what its thread writes and sends it to the stream buffer it
    wraps when it emits.  Several of them may wrap the same stream buffer; [emit] holds the
    mutex that belongs to the address of the wrapped one, which the objects share through
    [shared_ptr] (the default configuration).  Objects come and go; every character that is
    sent, the flush and the calls of the mutex are steps, and the steps interleave.  A wrapped
    stream buffer may refuse characters at any point, or throw. *)

From S2P Require Import Prelude.

Local Open Scope Z_scope.

Module SyncBuf.

(** ** The mutex of an address

    A static map has a [weak_ptr] to a mutex for every address; the mutexes are numbered in
    the order they are made, and [alive] says which of them still have an owner. *)
Definition get_mutex_for_address (alive : nat → bool) (made : nat) (key : Z) (m : gmap Z nat) :
    nat * nat * gmap Z nat :=
  match m !! key with
  | Some i => if alive i then (i, made, m) else (made, S made, <[key := made]> m)
  | None => (made, S made, <[key := made]> m)
  end.
(** The destructor of the object that contains mutex [i]. *)
Definition mutex_deleter (alive : nat → bool) (i : nat) (key : Z) (m : gmap Z nat) : gmap Z nat :=
  match m !! key with
  | Some j => if alive j && (j =? i)%nat then delete key m else m
  | None => m
  end.

(** ** The objects *)

Record syncbuf : Type := Buf {
  wrapped_ : option Z;
  emit_on_sync : bool;
  pending_flush : bool;
  buffer_ : list Z;
  mutex_ : nat;
}.
(** The life of an object and where the thread that uses it is: not yet constructed; outside;
    in front of the lock, after [n] characters of [sputn], in front of [pubsync], and in front
    of the unlock of [emit]; destroyed.  [dying]: [emit] was called by the destructor. *)
Inductive pc : Type := Unborn | Idle | Locking | Sending (n : nat) | Flushing | Unlocking | Gone.
Record thread : Type := Thread { buf : syncbuf; at_ : pc; dying : bool }.
(** [holder] says who holds a mutex; [out] is what the wrapped stream buffers have
    received. *)
Record system : Type := System {
  out : gmap Z (list Z);
  holder : gmap nat nat;
  threads : list thread;
  mutexes : gmap Z nat;
  made : nat;
}.

(** What a thread does next: a member function it calls, a step of [emit], or one in which
    the wrapped stream buffer takes no more or throws an exception. *)
Inductive event : Type :=
| Construct (w : option Z)
| Write (s : list Z)        (* xsputn, overflow *)
| SetEmit (b : bool)
| Sync
| Emit
| Destroy
| Go
| Refuse
| Raise.

(** The constructor: no emit on sync, and the mutex of the wrapped stream buffer, also of
    the null pointer. *)
Definition key_of (w : option Z) : Z := default 0 w.
Definition construct (w : option Z) (i : nat) : syncbuf := Buf w false false [] i.
Definition append (s : list Z) (b : syncbuf) : syncbuf :=
  Buf (wrapped_ b) (emit_on_sync b) (pending_flush b) (buffer_ b ++ s) (mutex_ b).
Definition set_emit_on_sync (e : bool) (b : syncbuf) : syncbuf :=
    Buf (wrapped_ b) e (pending_flush b) (buffer_ b) (mutex_ b).
Definition set_pending (p : bool) (b : syncbuf) : syncbuf :=
    Buf (wrapped_ b) (emit_on_sync b) p (buffer_ b) (mutex_ b).
Definition erase (n : nat) (b : syncbuf) : syncbuf :=
  Buf (wrapped_ b) (emit_on_sync b) (pending_flush b) (drop n (buffer_ b)) (mutex_ b).

(** [emit] of an object with a wrapped stream buffer; without one there is nothing to do. *)
Definition emit_begin (b : syncbuf) : pc := if wrapped_ b is Some _ then Locking else Idle.
Definition sync (b : syncbuf) : thread :=
  let b := set_pending true b in Thread b (if emit_on_sync b then emit_begin b else Idle) false.
(** [sputn] has returned [n]. *)
Definition sent (n : nat) (x : thread) : thread :=
  let b := erase n (buf x) in
  if pending_flush b then Thread (set_pending false b) Flushing (dying x) else Thread b Unlocking
    (dying x).

Definition live (x : thread) : bool := match at_ x with Unborn | Gone => false | _ => true end.
Definition alive (ts : list thread) (i : nat) : bool :=
    existsb (λ x, live x && (mutex_ (buf x) =? i)%nat) ts.
(** The member [mutex_] of the object is destroyed; [ts] are the objects afterwards. *)
Definition release (ts : list thread) (b : syncbuf) (m : gmap Z nat) : gmap Z nat :=
  if alive ts (mutex_ b) then m else mutex_deleter (alive ts) (mutex_ b) (key_of (wrapped_ b)) m.

Definition set_thread (t : nat) (x : thread) (y : system) : system :=
  System (out y) (holder y) (<[t := x]> (threads y)) (mutexes y) (made y).
Definition set_holder (h : gmap nat nat) (y : system) : system :=
  System (out y) h (threads y) (mutexes y) (made y).
Definition put_char (w c : Z) (y : system) : system :=
  System (<[w := default [] (out y !! w) ++ [c]]> (out y)) (holder y) (threads y) (mutexes y) (made y).
Definition die (t : nat) (b : syncbuf) (y : system) : system :=
  let ts := <[t := Thread b Gone false]> (threads y) in
  System (out y) (holder y) ts (release ts b (mutexes y)) (made y).
Definition born (t : nat) (w : option Z) (y : system) : system :=
  let '(i, n, m) := get_mutex_for_address (alive (threads y)) (made y) (key_of w) (mutexes y) in
  System (out y) (holder y) (<[t := Thread (construct w i) Idle false]> (threads y)) m n.

(** The step of thread [t]; what [emit] has sent is reported, with whether the object keeps it: an
    exception of [sputn] leaves the buffer as it is.  The lock is released, and the destructor and
    [sync] catch the exception. *)
Definition step (t : nat) (e : event) (y : system) : option (system * option (bool * list Z)) :=
  match threads y !! t with
  | None => None
  | Some x =>
      let b := buf x in
      match at_ x, e with
      | Unborn, Construct w => Some (born t w y, None)
      | Idle, Write s => Some (set_thread t (Thread (append s b) Idle false) y, None)
      | Idle, SetEmit f => Some (set_thread t (Thread (set_emit_on_sync f b) Idle false) y, None)
      | Idle, Sync => Some (set_thread t (sync b) y, None)
      | Idle, Emit => Some (set_thread t (Thread b (emit_begin b) false) y, None)
      | Idle, Destroy =>
          if wrapped_ b is Some _ then Some (set_thread t (Thread b Locking true) y, None)
          else Some (die t b y, None)
      | Locking, Go =>
          match holder y !! mutex_ b with
          | None => Some
            (set_thread t (Thread b (Sending 0) (dying x))
            (set_holder (<[mutex_ b := t]> (holder y)) y), None)
          | Some _ => None
          end
      | Sending n, Go =>
          match wrapped_ b with
          | Some w =>
              match buffer_ b !! n with
              | Some c => Some (set_thread t (Thread b (Sending (S n)) (dying x)) (put_char w c y), None)
              | None => Some (set_thread t (sent n x) y, Some (false, take n (buffer_ b)))
              end
          | None => None
          end
      | Sending n, Refuse => Some (set_thread t (sent n x) y, Some (false, take n (buffer_ b)))
      | Sending n, Raise => Some (set_thread t (Thread b Unlocking (dying x)) y, Some (true, take n (buffer_ b)))
      | Flushing, (Go | Raise) => Some (set_thread t (Thread b Unlocking (dying x)) y, None)
      | Unlocking, Go =>
          let y := set_holder (delete (mutex_ b) (holder y)) y in
          Some (if dying x then die t b y else set_thread t (Thread b Idle false) y, None)
      | _, _ => None
      end
  end.

(** ** Runs *)

Definition start (n : nat) : system :=
    System ∅ ∅ (replicate n (Thread (construct None 0) Unborn false)) ∅ 0.

Definition target (t : nat) (y : system) : option Z := threads y !! t ≫= λ x, wrapped_ (buf x).
(** What was sent, in this order: the thread and whether its object keeps it, where it went, and
    the characters. *)
Abbreviation log := (list (nat * bool * option Z * list Z)).
Definition entry (t : nat) (y : system) (m : option (bool * list Z)) : log :=
  match m with Some (k, s) => [(t, k, target t y, s)] | None => [] end.
Inductive run (y0 : system) : list (nat * event) → log → system → Prop :=
| run_nil : run y0 [] [] y0
| run_step es l y t e y' m :
    run y0 es l y → step t e y = Some (y', m) →
    run y0 (es ++ [(t, e)]) (l ++ entry t y m) y'.

(** What went to [w], what thread [t] has sent and taken out of its buffer, and what it wrote. *)
Definition received (w : Z) (l : log) : list Z :=
  l ≫= λ x, if decide (x.1.2 = Some w) then x.2 else [].
Definition emitted (t : nat) (l : log) : list Z :=
  l ≫= λ x, if decide (x.1.1 = (t, false)) then x.2 else [].
Definition written (t : nat) (es : list (nat * event)) : list Z :=
  es ≫= λ x, match x.2 with Write s => if decide (x.1 = t) then s else [] | _ => [] end.
Definition out_of (w : Z) (y : system) : list Z := default [] (out y !! w).

(** Whether a thread holds its mutex, and what it has sent since it locked it. *)
Definition inside (x : thread) : bool := match at_ x
    with Sending _ | Flushing | Unlocking => true | _ => false end.
Definition partial (x : thread) : list Z := match at_ x
    with Sending n => take n (buffer_ (buf x)) | _ => [] end.

(** ** Invariant *)

Record inv (es : list (nat * event)) (l : log) (y : system) : Prop := {
  inv_map t x : threads y !! t = Some x → live x = true →
    mutexes y !! key_of (wrapped_ (buf x)) = Some (mutex_ (buf x));
  inv_holder t x : threads y !! t = Some x → inside x = true ↔ holder y !! mutex_ (buf x) = Some t;
  inv_owner t i : holder y !! i = Some t → ∃ x, threads y !! t = Some x ∧ mutex_ (buf x) = i;
  inv_unborn t x : threads y !! t = Some x → at_ x = Unborn → buffer_ (buf x) = [];
  inv_wrapped t x : threads y !! t = Some x → (at_ x = Locking ∨ inside x = true) →
    is_Some (wrapped_ (buf x));
  inv_count t x n : threads y !! t = Some x → at_ x = Sending n → (n ≤ length (buffer_ (buf x)))%nat;
  inv_busy t x w : threads y !! t = Some x → inside x = true → wrapped_ (buf x) = Some w →
    out_of w y = received w l ++ partial x;
  inv_free w : (∀ t x, threads y !! t = Some x → wrapped_ (buf x) = Some w → inside x = false) →
    out_of w y = received w l;
  inv_written t x : threads y !! t = Some x → written t es = emitted t l ++ buffer_ (buf x);
}.

Lemma inside_live x : inside x = true → live x = true.
Proof. unfold inside, live. by destruct (at_ x). Qed.
Lemma inv_same es l y t u x z w :
  inv es l y → threads y !! t = Some x → threads y !! u = Some z → live x = true → live z = true →
  wrapped_ (buf x) = Some w → wrapped_ (buf z) = Some w → mutex_ (buf x) = mutex_ (buf z).
Proof.
  intros H Ht Hu Hx Hz Hwx Hwz. pose proof (inv_map _ _ _ H t x Ht Hx) as H1.
  pose proof (inv_map _ _ _ H u z Hu Hz) as H2.
  rewrite Hwx in H1. rewrite Hwz in H2. congruence.
Qed.
(** The map of the mutexes keeps its entries. *)
Lemma release_id ts b m : release ts b m = m.
Proof.
  unfold release, mutex_deleter. destruct (alive ts (mutex_ b)) eqn:E; [done|].
  destruct (m !! _) as [j|]; [|done].
  destruct (Nat.eqb_spec j (mutex_ b)) as [->|Hne]; [by rewrite E|by rewrite andb_false_r].
Qed.
Lemma alive_spec ts i : alive ts i = true ↔ ∃ t x, ts !! t = Some x ∧ live x = true ∧ mutex_ (buf x) = i.
Proof.
  unfold alive. rewrite existsb_exists. split.
  - intros (x & Hin & [Hl Hi]%andb_prop). apply list_elem_of_In, list_elem_of_lookup in Hin as [t Ht].
    exists t, x. split_and!; try done. by apply Nat.eqb_eq.
  - intros (t & x & Ht & Hl & <-). exists x.
    split; [by eapply list_elem_of_In, list_elem_of_lookup_2|]. rewrite Hl. cbn.
    by apply Nat.eqb_eq.
Qed.

Lemma received_app w l l' : received w (l ++ l') = received w l ++ received w l'.
Proof. apply bind_app. Qed.
Lemma emitted_app t l l' : emitted t (l ++ l') = emitted t l ++ emitted t l'.
Proof. apply bind_app. Qed.
Lemma written_app t es es' : written t (es ++ es') = written t es ++ written t es'.
Proof. apply bind_app. Qed.

Lemma syncbuf_start_inv n : inv [] [] (start n).
Proof.
  split; unfold start, out_of; cbn [threads out holder mutexes]; try done.
  - by intros t x [-> _]%lookup_replicate.
  - intros t x [-> _]%lookup_replicate. cbn. by rewrite lookup_empty.
  - intros t x [-> _]%lookup_replicate. done.
  - intros t x [-> _]%lookup_replicate [|]; done.
  - intros t x k [-> _]%lookup_replicate. done.
  - intros t x w [-> _]%lookup_replicate. done.
  - by intros t x [-> _]%lookup_replicate.
Qed.

(** A step of thread [t], whose object goes from [x] to [x']. *)
Lemma syncbuf_inv_update es l y t x x' o' h' e m (y' :=
    System o' h' (<[t := x']> (threads y)) (mutexes y) (made y)) :
  inv es l y → threads y !! t = Some x →
  wrapped_ (buf x') = wrapped_ (buf x) → mutex_ (buf x') = mutex_ (buf x) →
  (inside x' = true ↔ h' !! mutex_ (buf x) = Some t) →
  (∀ u z, u ≠ t → threads y !! u = Some z → h' !! mutex_ (buf z) = Some u ↔
    holder y !! mutex_ (buf z) = Some u) →
  (∀ i u, h' !! i = Some u → holder y !! i = Some u ∨ u = t ∧ i = mutex_ (buf x)) →
  live x = true → at_ x' ≠ Unborn →
  (at_ x' = Locking ∨ inside x' = true → is_Some (wrapped_ (buf x))) →
  (∀ n, at_ x' = Sending n → (n ≤ length (buffer_ (buf x')))%nat) →
  (inside x' = true → inside x = true ∨ holder y !! mutex_ (buf x) = None) →
  (∀ w, wrapped_ (buf x) ≠ Some w → out_of w y' = out_of w y) →
  (∀ w, wrapped_ (buf x) = Some w →
    if inside x' then out_of w y' = received w (l ++ m) ++ partial x'
    else if inside x then out_of w y' = received w (l ++ m) else out_of w y' = out_of w y ∧ m = []) →
  (m = [] ∨ ∃ k s, m = [(t, k, wrapped_ (buf x), s)]) →
  written t (es ++ [(t, e)]) = emitted t (l ++ m) ++ buffer_ (buf x') →
  inv (es ++ [(t, e)]) (l ++ m) y'.
Proof.
  intros H Ht Hw Hmx Hin Hho Hown2 Hlive Hub Hidle Hcnt Hexcl Hout Hown Hm Hwr.
  assert (Hth : ∀ u z, threads y' !! u = Some z → (u = t ∧ z = x') ∨ (u ≠ t ∧ threads y !! u = Some z)).
  { intros u z Hu. cbn in Hu. apply list_lookup_insert_Some in Hu as [(-> & -> & _)|(Hne & Hu)];
      [by left|right; by split]. }
  assert (Hrec : ∀ w, wrapped_ (buf x) ≠ Some w → received w (l ++ m) = received w l).
  { intros w Hne. rewrite received_app. destruct Hm as [-> | (k & s & ->)]; cbn;
      [|rewrite decide_False by done]; by rewrite !app_nil_r. }
  assert (Hother : ∀ u z w, u ≠ t → threads y !! u = Some z → inside z = true →
    wrapped_ (buf z) = Some w → wrapped_ (buf x) = Some w →
    inside x = false ∧ inside x' = false).
  { intros u z w Hne Hu Hi Hz Hx. pose proof Hi as Hi0. apply (inv_holder _ _ _ H u z Hu) in Hi.
      rewrite (inv_same _ _ _ u t z x w H Hu Ht (inside_live _ Hi0) Hlive Hz Hx) in Hi.
    assert (Hx0 : inside x = false).
    { apply not_true_is_false. intros E%(inv_holder _ _ _ H t x Ht). congruence. }
    split; [done|]. apply not_true_is_false. intros E. destruct (Hexcl E); congruence. }
  split.
  - intros u z [(-> & ->)|(Hne & Hu)]%Hth Hz; cbn [mutexes]; [rewrite Hw, Hmx|];
      by eapply (inv_map _ _ _ H).
  - intros u z [(-> & ->)|(Hne & Hu)]%Hth; [by rewrite Hmx|]. cbn. rewrite (Hho u z Hne Hu).
    by apply (inv_holder _ _ _ H).
  - intros u i [Hi|(-> & ->)]%Hown2; cbn [threads y'].
    + destruct (inv_owner _ _ _ H u i Hi) as (z & Hu & Hz). destruct (decide (u = t)) as [->|Hne].
      * exists x'. rewrite list_lookup_insert_eq by (by eapply lookup_lt_Some). split; [done|].
        congruence.
      * exists z. by rewrite list_lookup_insert_ne.
    + exists x'. rewrite list_lookup_insert_eq by (by eapply lookup_lt_Some). done.
  - intros u z [(-> & ->)|(Hne & Hu)]%Hth; [done|]. by apply (inv_unborn _ _ _ H u).
  - intros u z [(-> & ->)|(Hne & Hu)]%Hth; [by rewrite Hw|]. by apply (inv_wrapped _ _ _ H u).
  - intros u z n [(-> & ->)|(Hne & Hu)]%Hth; [apply Hcnt|]. by apply (inv_count _ _ _ H u).
  - intros u z w [(-> & ->)|(Hne & Hu)]%Hth Hi Hz.
    + rewrite Hw in Hz. specialize (Hown w Hz). by rewrite Hi in Hown.
    + destruct (decide (wrapped_ (buf x) = Some w)) as [Hx|Hx].
      * destruct (Hother u z w Hne Hu Hi Hz Hx) as [Hi1 Hi2]. specialize (Hown w Hx).
        rewrite Hi1, Hi2 in Hown. destruct Hown as [-> ->].
        rewrite app_nil_r. by apply (inv_busy _ _ _ H u).
      * rewrite (Hout w Hx), (Hrec w Hx). by apply (inv_busy _ _ _ H u).
  - intros w Hno.
    assert (Hold : ∀ u z, u ≠ t → threads y !! u = Some z → wrapped_ (buf z) = Some w →
      inside z = false).
    { intros u z Hne Hu. apply (Hno u). cbn. by rewrite list_lookup_insert_ne. }
    destruct (decide (wrapped_ (buf x) = Some w)) as [Hx|Hx].
    + assert (Hi : inside x' = false).
      { apply (Hno t); [|by rewrite Hw]. cbn. apply list_lookup_insert_eq. by eapply lookup_lt_Some. }
      specialize (Hown w Hx). rewrite Hi in Hown. destruct (inside x) eqn:Ei; [done|].
      destruct Hown as [-> ->]. rewrite app_nil_r.
      apply (inv_free _ _ _ H). intros u z Hu Hz. destruct (decide (u = t)) as [->|Hne];
        [congruence|by eapply Hold].
    + rewrite (Hout w Hx), (Hrec w Hx). apply (inv_free _ _ _ H). intros u z Hu Hz.
      destruct (decide (u = t)) as [->|Hne]; [congruence|by eapply Hold].
  - intros u z [(-> & ->)|(Hne & Hu)]%Hth; [done|]. rewrite written_app, emitted_app.
    assert (emitted u m = []) as ->.
    { destruct Hm as [-> | (k & s & ->)]; [done|]. cbn. by rewrite decide_False by congruence. }
    assert (written u [(t, e)] = []) as ->. { cbn. destruct e; try done. by rewrite decide_False. }
    rewrite !app_nil_r. by apply (inv_written _ _ _ H).
Qed.

(** A step outside of the mutex. *)
Lemma inv_outside es l y t x x' e :
  inv es l y → threads y !! t = Some x → live x = true → inside x = false → inside x' = false →
    at_ x' ≠ Unborn →
  wrapped_ (buf x') = wrapped_ (buf x) → mutex_ (buf x') = mutex_ (buf x) →
    (at_ x' = Locking → is_Some (wrapped_ (buf x))) →
  buffer_ (buf x') = buffer_ (buf x) ++ written t [(t, e)] →
  inv (es ++ [(t, e)]) (l ++ []) (set_thread t x' y).
Proof.
  intros H Ht Hl Hi Hi' Hub Hw Hm Hidle Hb. apply (syncbuf_inv_update es l y t x x'); try done; auto.
  - rewrite Hi'. split; [done|]. intros E%(inv_holder _ _ _ H t x Ht). congruence.
  - intros [E|E]; [auto|congruence].
  - intros n En. unfold inside in Hi'. by rewrite En in Hi'.
  - congruence.
  - intros w _. by rewrite Hi', Hi.
  - rewrite written_app, Hb, (inv_written _ _ _ H t x Ht), app_nil_r. by rewrite app_assoc.
Qed.
(** The holder of the mutex keeps it. *)
Lemma holder_kept es l y t x :
  inv es l y → threads y !! t = Some x → inside x = true → holder y !! mutex_ (buf x) = Some t.
Proof. intros H Ht Hi. by apply (inv_holder _ _ _ H t x Ht). Qed.
Lemma sent_facts n x :
  inside (sent n x) = true ∧ partial (sent n x) = [] ∧ wrapped_ (buf (sent n x)) = wrapped_ (buf x) ∧
  mutex_ (buf (sent n x)) = mutex_ (buf x) ∧ buffer_ (buf (sent n x)) = drop n (buffer_ (buf x)) ∧
  (∀ k, at_ (sent n x) ≠ Sending k) ∧ at_ (sent n x) ≠ Unborn.
Proof. unfold sent. destruct x as [[w f [] c i] p d]; by split_and!. Qed.
Lemma inv_sent es l y t b n d e :
  inv es l y → threads y !! t = Some (Thread b (Sending n) d) → (∀ s, e ≠ Write s) →
  inv (es ++ [(t, e)]) (l ++ [(t, false, target t y, take n (buffer_ b))])
    (set_thread t (sent n (Thread b (Sending n) d)) y).
Proof.
  intros H Ht He.
  destruct (sent_facts n (Thread b (Sending n) d)) as (Hi & Hp & Hw & Hm & Hb & Hn & Hub).
  assert (Htar : target t y = wrapped_ b) by (unfold target; by rewrite Ht). rewrite Htar.
  pose proof (holder_kept es l y t _ H Ht eq_refl) as Hh. cbn in Hh.
  apply (syncbuf_inv_update es l y t (Thread b (Sending n) d) (sent n (Thread b (Sending n) d)));
    try done; auto; cbn [buf].
  - intros _. apply (inv_wrapped _ _ _ H t _ Ht). by right.
  - intros k Hk. by destruct (Hn k).
  - intros w Hbw. rewrite Hi, Hp, app_nil_r, received_app.
    pose proof (inv_busy _ _ _ H t _ w Ht eq_refl Hbw) as Ho. cbn in Ho.
    unfold out_of, set_thread in *. cbn in *. rewrite Ho, decide_True by done. by rewrite app_nil_r.
  - eauto.
  - rewrite written_app, emitted_app, (inv_written _ _ _ H t _ Ht), Hb. cbn [buf].
    assert (written t [(t, e)] = []) as -> by (destruct e; try done; by destruct (He s)). cbn.
    rewrite decide_True by done.
    rewrite !app_nil_r. by rewrite <- app_assoc, take_drop.
Qed.
Lemma inv_raise es l y t b n d :
  inv es l y → threads y !! t = Some (Thread b (Sending n) d) →
  inv (es ++ [(t, Raise)]) (l ++ [(t, true, target t y, take n (buffer_ b))])
    (set_thread t (Thread b Unlocking d) y).
Proof.
  intros H Ht. assert (Htar : target t y = wrapped_ b) by (unfold target; by rewrite Ht). rewrite Htar.
  pose proof (holder_kept es l y t _ H Ht eq_refl) as Hh. cbn in Hh.
  apply (syncbuf_inv_update es l y t (Thread b (Sending n) d)); try done; auto; cbn [buf inside at_].
  - intros _. apply (inv_wrapped _ _ _ H t _ Ht). by right.
  - intros w Hbw. cbn. rewrite app_nil_r, received_app.
    pose proof (inv_busy _ _ _ H t _ w Ht eq_refl Hbw) as Ho. cbn in Ho.
    unfold out_of, set_thread in *. cbn in *. rewrite Ho, decide_True by done. by rewrite app_nil_r.
  - eauto.
  - rewrite written_app, emitted_app, (inv_written _ _ _ H t _ Ht). cbn.
    by rewrite decide_False, !app_nil_r by congruence.
Qed.
Lemma inv_send es l y t b n d w c :
  inv es l y → threads y !! t = Some (Thread b (Sending n) d) → wrapped_ b = Some w →
    buffer_ b !! n = Some c →
  inv (es ++ [(t, Go)]) (l ++ []) (set_thread t (Thread b (Sending (S n)) d) (put_char w c y)).
Proof.
  intros H Ht Hw Hc. pose proof (holder_kept es l y t _ H Ht eq_refl) as Hh. cbn in Hh.
  apply (syncbuf_inv_update es l y t (Thread b (Sending n) d)); try done; auto; cbn [buf].
  - intros k [= <-]. cbn. apply lookup_lt_Some in Hc. lia.
  - intros v Hv. unfold out_of. cbn. by rewrite lookup_insert_ne by congruence.
  - intros v Hv. rewrite Hw in Hv. injection Hv as <-. cbn [inside at_]. unfold out_of. cbn.
    rewrite lookup_insert_eq. cbn.
    pose proof (inv_busy _ _ _ H t _ w Ht eq_refl Hw) as Ho. unfold out_of in Ho.
    rewrite Ho, app_nil_r. cbn.
    rewrite (take_S_r _ _ _ Hc). by rewrite app_assoc.
  - rewrite written_app, (inv_written _ _ _ H t _ Ht). cbn. by rewrite !app_nil_r.
Qed.
Lemma inv_lock es l y t b d :
  inv es l y → threads y !! t = Some (Thread b Locking d) → holder y !! mutex_ b = None →
  inv (es ++ [(t, Go)]) (l ++ [])
    (set_thread t (Thread b (Sending 0) d) (set_holder (<[mutex_ b := t]> (holder y)) y)).
Proof.
  intros H Ht Hh. destruct (inv_wrapped _ _ _ H t _ Ht (or_introl eq_refl)) as [w Hw]. cbn in Hw.
  apply (syncbuf_inv_update es l y t (Thread b Locking d)); try done; auto;
    cbn [buf inside at_ holder set_holder].
  - by rewrite lookup_insert_eq.
  - intros u z Hne Hu. rewrite lookup_insert. case_decide as E; [|done]. rewrite <- E. split; congruence.
  - intros i u. rewrite lookup_insert. case_decide; [|by left]. intros [= <-]. by right.
  - intros k [= <-]. cbn. lia.
  - intros v Hv. cbn. unfold out_of. cbn. rewrite !app_nil_r. apply (inv_free _ _ _ H). intros u z Hu Hz.
    apply not_true_is_false. intros E. pose proof (inside_live _ E) as El.
    apply (inv_holder _ _ _ H u z Hu) in E.
    rewrite (inv_same _ _ _ u t z _ v H Hu Ht El eq_refl Hz Hv) in E. cbn in E. congruence.
  - rewrite written_app, (inv_written _ _ _ H t _ Ht). cbn. by rewrite !app_nil_r.
Qed.
Lemma inv_flush es l y t b d e :
  inv es l y → threads y !! t = Some (Thread b Flushing d) → (∀ s, e ≠ Write s) →
    inv (es ++ [(t, e)]) (l ++ []) (set_thread t (Thread b Unlocking d) y).
Proof.
  intros H Ht He. pose proof (holder_kept es l y t _ H Ht eq_refl) as Hh. cbn in Hh.
  apply (syncbuf_inv_update es l y t (Thread b Flushing d)); try done; auto; cbn [buf inside at_].
  - intros _. apply (inv_wrapped _ _ _ H t _ Ht). by right.
  - intros v Hv. pose proof (inv_busy _ _ _ H t _ v Ht eq_refl Hv) as Ho. by rewrite (app_nil_r l).
  - rewrite written_app, (inv_written _ _ _ H t _ Ht).
    assert (written t [(t, e)] = []) as -> by (destruct e; try done; by destruct (He s)).
    by rewrite !app_nil_r.
Qed.
(** [emit] returns, to the thread or to the destructor. *)
Lemma inv_emit_end es l y t b d p :
  inv es l y → threads y !! t = Some (Thread b Unlocking d) → p = Idle ∨ p = Gone →
  inv (es ++ [(t, Go)]) (l ++ [])
    (set_thread t (Thread b p false) (set_holder (delete (mutex_ b) (holder y)) y)).
Proof.
  intros H Ht Hp. pose proof (holder_kept es l y t _ H Ht eq_refl) as Hh. cbn in Hh.
  assert (Hin : inside (Thread b p false) = false) by (by destruct Hp as [-> | ->]).
  apply (syncbuf_inv_update es l y t (Thread b Unlocking d)); try done; auto;
    cbn [buf holder set_holder]; try rewrite Hin; try (by destruct Hp as [-> | ->]).
  - by rewrite lookup_delete_eq.
  - intros u z Hne Hu. rewrite lookup_delete. case_decide as E; [|done]. rewrite <- E, Hh.
    split; [done|]. congruence.
  - intros i u. rewrite lookup_delete. case_decide; [done|by left].
  - destruct Hp as [-> | ->]; by intros [|].
  - intros v Hv. pose proof (inv_busy _ _ _ H t _ v Ht eq_refl Hv) as Ho. cbn in Ho.
    rewrite app_nil_r in Ho. by rewrite app_nil_r.
  - rewrite written_app, (inv_written _ _ _ H t _ Ht). cbn. by rewrite !app_nil_r.
Qed.
Lemma die_set t b y : die t b y = set_thread t (Thread b Gone false) y.
Proof. unfold die. by rewrite release_id. Qed.

(** The mutex of a new object: no other object that lives is given another one. *)
Lemma mutex_for_new es l y key i n m :
  inv es l y → get_mutex_for_address (alive (threads y)) (made y) key (mutexes y) = (i, n, m) →
  m !! key = Some i ∧ ∀ t x, threads y !! t = Some x → live x = true →
    m !! key_of (wrapped_ (buf x)) = Some (mutex_ (buf x)).
Proof.
  intros H Hg.
  assert (Hfresh : m = <[key := i]> (mutexes y) →
    (∀ j, mutexes y !! key = Some j → alive (threads y) j = false) →
    m !! key = Some i ∧ ∀ t x, threads y !! t = Some x → live x = true →
      m !! key_of (wrapped_ (buf x)) = Some (mutex_ (buf x))).
  { intros -> Hd. rewrite lookup_insert_eq. split; [done|]. intros t x Ht Hl.
      pose proof (inv_map _ _ _ H t x Ht Hl) as Hm.
    rewrite lookup_insert_ne; [done|]. intros ->. specialize (Hd _ Hm).
    apply not_true_iff_false in Hd. apply Hd. apply alive_spec. eauto. }
  unfold get_mutex_for_address in Hg. destruct (mutexes y !! key) as [j|] eqn:Ek.
  - destruct (alive (threads y) j) eqn:Ea; injection Hg as <- <- <-.
    + split; [done|]. intros t x. apply (inv_map _ _ _ H).
    + apply Hfresh; [done|]. by intros j' [= <-].
  - injection Hg as <- <- <-. by apply Hfresh.
Qed.
Lemma inv_born es l y t x w :
  inv es l y → threads y !! t = Some x → at_ x = Unborn →
    inv (es ++ [(t, Construct w)]) (l ++ []) (born t w y).
Proof.
  intros H Ht Hx. unfold born. destruct (get_mutex_for_address _ _ _ _) as [[i n] m] eqn:Eg.
  destruct (mutex_for_new es l y _ i n m H Eg) as [Hi Hm]. rewrite app_nil_r.
  assert (Hth : ∀ u z, <[t := Thread (construct w i) Idle false]> (threads y) !! u = Some z →
    (u = t ∧ z = Thread (construct w i) Idle false) ∨ (u ≠ t ∧ threads y !! u = Some z)).
  { intros u z Hu. apply list_lookup_insert_Some in Hu as [(-> & <- & _)|(Hne & Hu)];
      [by left|right; by split]. }
  assert (Hnone : ∀ j, holder y !! j ≠ Some t).
  { intros j Hj. destruct (inv_owner _ _ _ H t j Hj) as (z & Hz & <-).
      apply (inv_holder _ _ _ H t z Hz) in Hj. unfold inside in Hj.
    assert (z = x) as -> by congruence. by rewrite Hx in Hj. }
  split; cbn [threads mutexes holder].
  - intros u z [(-> & ->)|(Hne & Hu)]%Hth; [done|by eapply Hm].
  - intros u z [(-> & ->)|(Hne & Hu)]%Hth; [|by apply (inv_holder _ _ _ H)]. cbn. split; [done|].
    intros E. by destruct (Hnone _ E).
  - intros u j Hj. assert (u ≠ t) by (intros ->; by destruct (Hnone j)).
    rewrite list_lookup_insert_ne by done. by apply (inv_owner _ _ _ H).
  - intros u z [(-> & ->)|(Hne & Hu)]%Hth; [done|by apply (inv_unborn _ _ _ H u)].
  - intros u z [(-> & ->)|(Hne & Hu)]%Hth; [by intros [|]|by apply (inv_wrapped _ _ _ H u)].
  - intros u z k [(-> & ->)|(Hne & Hu)]%Hth; [done|by apply (inv_count _ _ _ H u)].
  - intros u z v [(-> & ->)|(Hne & Hu)]%Hth; [done|by apply (inv_busy _ _ _ H u)].
  - intros v Hno. apply (inv_free _ _ _ H). intros u z Hu Hz. destruct (decide (u = t)) as [->|Hne].
    + assert (z = x) as -> by congruence. unfold inside. by rewrite Hx.
    + apply (Hno u); [|done]. by rewrite list_lookup_insert_ne.
  - intros u z Hu. rewrite written_app. assert (written u [(t, Construct w)] = []) as -> by done.
    rewrite app_nil_r.
    apply Hth in Hu as [(-> & ->)|(Hne & Hu)]; [|by apply (inv_written _ _ _ H)].
    rewrite (inv_written _ _ _ H t x Ht), (inv_unborn _ _ _ H t x Ht Hx). done.
Qed.

Lemma step_inv es l y t e y' m :
  inv es l y → step t e y = Some (y', m) →
  inv (es ++ [(t, e)]) (l ++ entry t y m) y'.
Proof.
  intros H Hs. unfold step in Hs. destruct (threads y !! t) as [[b p d]|] eqn:Ht; [|done].
  cbn [buf at_ dying] in Hs.
  destruct p as [| | |n| | |], e as [w|s|f| | | | | |]; try discriminate.
  - injection Hs as <- <-. by eapply inv_born.
  - injection Hs as <- <-. apply (inv_outside es l y t (Thread b Idle d)); try done. cbn.
    rewrite decide_True by done. by rewrite app_nil_r.
  - injection Hs as <- <-. apply (inv_outside es l y t (Thread b Idle d)); try done. cbn.
    by rewrite app_nil_r.
  - injection Hs as <- <-. apply (inv_outside es l y t (Thread b Idle d)); try done;
      destruct b as [[w|] [] q c i]; cbn; try done; by rewrite app_nil_r.
  - injection Hs as <- <-. apply (inv_outside es l y t (Thread b Idle d)); try done;
      destruct b as [[w|] f q c i]; cbn; try done; by rewrite app_nil_r.
  - destruct (wrapped_ b) as [w|] eqn:Hw; injection Hs as <- <-; rewrite ?die_set;
      apply (inv_outside es l y t (Thread b Idle d)); try done; cbn;
      rewrite ?app_nil_r; try done; by rewrite Hw.
  - destruct (holder y !! mutex_ b) eqn:Hh; [done|]. injection Hs as <- <-. by apply inv_lock.
  - destruct (wrapped_ b) as [w|] eqn:Hw; [|done]. destruct (buffer_ b !! n) as [c|] eqn:Hc;
      injection Hs as <- <-.
    + by apply inv_send.
    + by apply inv_sent.
  - injection Hs as <- <-. by apply inv_sent.
  - injection Hs as <- <-. by apply inv_raise.
  - injection Hs as <- <-. by apply inv_flush.
  - injection Hs as <- <-. by apply inv_flush.
  - injection Hs as <- <-. rewrite die_set. destruct d; apply (inv_emit_end _ _ _ _ _ _ _ H Ht); auto.
Qed.
Lemma run_inv n es l y : run (start n) es l y → inv es l y.
Proof. induction 1 as [|es l y t e y' m Hr IH Hs]; [apply syncbuf_start_inv|by eapply step_inv]. Qed.

Lemma emit_sends_all t x y y' k s :
  threads y !! t = Some x → step t Go y = Some (y', Some (k, s)) → k = false ∧ s = buffer_ (buf x).
Proof.
  intros Ht Hs. unfold step in Hs. rewrite Ht in Hs. destruct (at_ x) as [| | |n| | |]; try done.
  - by destruct (holder y !! _).
  - destruct (wrapped_ (buf x)); [|done]. destruct (_ !! n) eqn:E; [done|]. injection Hs as <- <- <-.
    split; [done|]. apply take_ge. by apply lookup_ge_None.
Qed.
(** C23: Whatever the threads write, however objects are constructed and destroyed and
    however the steps interleave, also when wrapped stream buffers refuse characters or throw:
    what a stream buffer has received, when no thread is inside [emit] for it, are the pieces
    that the single calls of [emit] have sent to it, one after the other; what an object has taken out
    of its buffer, in order, with what still is in it, is what was written to it; and one thread
    at most is inside [emit] for a stream buffer.  A call of [emit] sends all that is in the
    buffer unless the stream buffer refuses or throws; then the rest remains for a later call,
    and pieces of other objects may arrive in between; after an exception what was sent remains too
    and is sent again. *)
Theorem syncbuf_messages_whole n es l y :
  run (start n) es l y →
  (∀ w, (∀ t x, threads y !! t = Some x → wrapped_ (buf x) = Some w → inside x = false) →
    out_of w y = received w l) ∧
  (∀ t x, threads y !! t = Some x → written t es = emitted t l ++ buffer_ (buf x)) ∧
  (∀ t u x z w, threads y !! t = Some x → threads y !! u = Some z → wrapped_ (buf x) = Some w →
    wrapped_ (buf z) = Some w →
     inside x = true → inside z = true → t = u) ∧
  (∀ t x y' k s, threads y !! t = Some x → step t Go y = Some (y', Some (k, s)) →
    k = false ∧ s = buffer_ (buf x)).
Proof.
  intros H%run_inv. split; [apply H|]. split; [apply H|].
  split; [|intros t x y' k s Ht Hs; by eapply emit_sends_all]. intros t u x z w Ht Hu Hx Hz Hi Hj.
  pose proof (inv_same _ _ _ t u x z w H Ht Hu (inside_live _ Hi) (inside_live _ Hj) Hx Hz) as Hs.
  apply (inv_holder _ _ _ H t x Ht) in Hi. apply (inv_holder _ _ _ H u z Hu) in Hj. congruence.
Qed.
(** A thread that waits for a mutex can go on, or the thread that holds it can. *)
Lemma syncbuf_no_deadlock n es l y t b d :
  run (start n) es l y → threads y !! t = Some (Thread b Locking d) →
  is_Some (step t Go y) ∨ ∃ u, holder y !! mutex_ b = Some u ∧ is_Some (step u Go y).
Proof.
  intros H%run_inv Ht. unfold step at 1. rewrite Ht. cbn.
  destruct (holder y !! mutex_ b) as [u|] eqn:Hh; [right|left; by eexists].
  exists u. split; [done|]. destruct (inv_owner _ _ _ H u _ Hh) as ([c p f] & Hu & Hm).
  rewrite <- Hm in Hh.
  apply (inv_holder _ _ _ H u _ Hu) in Hh. unfold step. rewrite Hu. cbn.
  destruct p as [| | |k| | |]; try done.
  destruct (inv_wrapped _ _ _ H u _ Hu (or_intror eq_refl)) as [w Hw]. cbn in Hw. rewrite Hw.
  destruct (buffer_ c !! k); by eexists.
Qed.
(** The entry of an address stays in the map when its mutex dies, although the destructor of
    [mutex_deleter] is there to take it out: its [weak_ptr] has expired by then. *)
Lemma mutex_map_grows t b y k : is_Some (mutexes y !! k) → is_Some (mutexes (die t b y) !! k).
Proof. by rewrite die_set. Qed.

(** Two threads with buffers on the same stream; the second has to wait. *)
Definition moves : list (nat * event) :=
  [(O, Construct (Some 9)); (1%nat, Construct (Some 9)); (O, Write [1; 2]); (1%nat, Write [3]);
    (O, Destroy); (1%nat, Emit);
   (O, Go); (O, Go); (O, Go); (O, Go); (O, Go); (1%nat, Go); (1%nat, Go)].
Definition play (y : system) (es : list (nat * event)) : option (system * log) :=
  foldl (λ r x, r ≫= λ yl, '(y', m) ← step x.1 x.2 yl.1;
    Some (y', yl.2 ++ entry x.1 yl.1 m))
      (Some (y, [])) es.
Lemma play_run y0 es y l : play y0 es = Some (y, l) → run y0 es l y.
Proof.
  revert y l. induction es as [|[t e] es IH] using rev_ind; intros y l; unfold play in *.
  - intros [= <- <-]. constructor.
  - rewrite foldl_app. cbn. destruct (foldl _ _ es) as [[y1 l1]|] eqn:E; cbn; [|done].
    destruct (step t e y1) as [[y2 m]|] eqn:Es; cbn; [|done]. intros [= <- <-].
    by econstructor; [apply IH|].
Qed.
Definition played : system * log := default (start 0, []) (play (start 2) moves).
Lemma syncbuf_messages_whole_witness :
  out_of 9 played.1 = [1; 2; 3] ∧ played.2 = [(O, false, Some 9, [1; 2])] ∧
  (∀ t x, threads played.1 !! t = Some x → written t moves = emitted t played.2 ++ buffer_ (buf x)).
Proof.
  split; [vm_compute; reflexivity|]. split; [vm_compute; reflexivity|].
  apply (syncbuf_messages_whole 2 moves played.2 played.1). apply play_run. vm_compute. reflexivity.
Defined.

End SyncBuf.
