(* ===== verification/Time.v ===== *)
(** * Durations and points in time (time.hpp)

    A [duration] is a number of seconds of 64 bits and a number of nanoseconds of 32 bits;
    an [instant] is a duration since the start of the system, a [system_time] one since the
    epoch.  Unsigned arithmetic wraps around where the code lets it.  What
    [clock_gettime] returns is an argument of the functions that ask for the time. *)

From S2P Require Import Prelude LexicalCast.

Local Open Scope Z_scope.
Local Open Scope gpcl_scope.

Module Time.

(** ** duration *)

Record duration : Type := Duration { secs_ : Z; nanos_ : Z }.
Record timespec : Type := Timespec { tv_sec : Z; tv_nsec : Z }.

#[export] Instance duration_eq_dec : EqDecision duration.
Proof. solve_decision. Defined.

Definition make (secs nanos : Z) : outcome duration :=
  oassert (nanos <=? 999999999) ;;? Ok (Duration secs nanos).
Definition from_timespec_ptr (ts : option timespec) : outcome duration :=
  oassert (if ts is Some _ then true else false) ;;?
  match ts with
  | Some ts => make (u64 (tv_sec ts)) (u32 (tv_nsec ts))
  | None => Undef
  end.
Definition from_secs (secs : Z) : outcome duration := make secs 0.
Definition from_millis (millis : Z) : outcome duration :=
  make (millis / 1000) (u32 (u64 (millis mod 1000 * 1000000))).
Definition from_micros (micros : Z) : outcome duration :=
  make (micros / 1000000) (u32 (u64 (micros mod 1000000 * 100))).
Definition from_nanos (nanos : Z) : outcome duration :=
  make (nanos / 1000000000) (u32 (nanos mod 1000000000)).

(** The assertion at the head of the observers. *)
Definition normal (d : duration) : outcome unit := oassert (nanos_ d <? 1000000000).
Definition is_zero (d : duration) : outcome bool :=
  normal d ;;? Ok ((secs_ d =? 0) && (nanos_ d =? 0)).
Definition as_secs (d : duration) : outcome Z := normal d ;;? Ok (secs_ d).
Definition subsec_millis (d : duration) : outcome Z := normal d ;;? Ok (nanos_ d / 1000).
Definition subsec_micros (d : duration) : outcome Z := normal d ;;? Ok (nanos_ d / 1000000).
Definition subsec_nanos (d : duration) : outcome Z := normal d ;;? Ok (nanos_ d).
Definition as_millis (d : duration) : outcome Z :=
  normal d ;;? Ok (u64 (u64 (secs_ d * 1000) + nanos_ d / 1000000)).
Definition as_micros (d : duration) : outcome Z :=
  normal d ;;? Ok (u64 (u64 (secs_ d * 1000000) + nanos_ d / 1000)).
Definition as_nanos (d : duration) : outcome Z :=
  normal d ;;? Ok (u64 (u64 (secs_ d * 1000000000) + nanos_ d)).

Definition eq (l r : duration) : bool := (secs_ l =? secs_ r) && (nanos_ l =? nanos_ r).
Definition ne (l r : duration) : bool := negb (secs_ l =? secs_ r) || negb (nanos_ l =? nanos_ r).
Definition lt (l r : duration) : bool :=
  (secs_ l <? secs_ r) || (secs_ l =? secs_ r) && (nanos_ l <? nanos_ r).
Definition le (l r : duration) : bool := lt l r || eq l r.
Definition gt (l r : duration) : bool := lt r l && ne l r.
Definition ge (l r : duration) : bool := lt r l || eq l r.

Definition second : outcome duration := make 1 0.
Definition millisecond : outcome duration := make 0 1000000.
Definition microsecond : outcome duration := make 0 1000.
Definition nanosecond : outcome duration := make 0 1.
Definition zero : outcome duration := make 0 0.
Definition max : outcome duration := make (2 ^ 64 - 1) 999999999.

Definition checked_add (d rhs : duration) : outcome duration :=
  normal d ;;?
  normal rhs ;;?
  let secs := u64 (secs_ d + secs_ rhs) in
  let nanos := u32 (nanos_ d + nanos_ rhs) in
  let secs := u64 (secs + nanos / 1000000000) in
  let nanos := nanos mod 1000000000 in
  if (secs <? secs_ d) || (secs <? secs_ rhs) then Throw overflow_error
  else make secs nanos.
Definition saturating_add (d rhs : duration) : outcome duration :=
  let nanos := u32 (nanos_ d + nanos_ rhs) in
  let carry := nanos / 1000000000 in
  let nanos := nanos mod 1000000000 in
  let secs := u64 (u64 (carry + secs_ d) + secs_ rhs) in
  if (secs <? secs_ d) || (secs <? secs_ rhs) then max
  else make secs nanos.
(** The difference, when [rhs] is not greater. *)
Definition difference (d rhs : duration) : outcome duration :=
  if nanos_ d <? nanos_ rhs
  then make (u64 (u64 (secs_ d - secs_ rhs) - 1)) (u32 (u32 (1000000000 + nanos_ d) - nanos_ rhs))
  else make (u64 (secs_ d - secs_ rhs)) (u32 (nanos_ d - nanos_ rhs)).
Definition checked_sub (d rhs : duration) : outcome duration :=
  if lt d rhs then Throw overflow_error else difference d rhs.
Definition saturating_sub (d rhs : duration) : outcome duration :=
  if lt d rhs then zero else difference d rhs.

(** [time_t] and [long] have 64 bits. *)
Definition to_timespec (d : duration) : outcome timespec :=
  let? s := Lexical.narrow_cast_as i64 u64 (secs_ d) in
  let? n := Lexical.narrow_cast_as i64 u32 (nanos_ d) in
  Ok (Timespec s n).
Definition from_timespec (ts : timespec) : outcome duration :=
  let? s := Lexical.narrow_cast_as u64 i64 (tv_sec ts) in
  let? n := Lexical.narrow_cast_as u32 i64 (tv_nsec ts) in
  make s n.

(** ** instant *)

Record instant : Type := Instant { since_startup_ : duration }.

(** [clock] is the time of [CLOCK_MONOTONIC], or the error of [clock_gettime]. *)
Definition instant_now (clock : timespec + Z) : outcome instant :=
  match clock with
  | inr e => Throw (system_error e)
  | inl ts => let? d := from_timespec ts in Ok (Instant d)
  end.
Definition checked_duration_since (i earlier : instant) : outcome duration :=
  checked_sub (since_startup_ i) (since_startup_ earlier).
Definition saturating_duration_since (i earlier : instant) : outcome duration :=
  saturating_sub (since_startup_ i) (since_startup_ earlier).
Definition elapsed (clock : timespec + Z) (i : instant) : outcome duration :=
  let? n := instant_now clock in saturating_duration_since n i.
Definition instant_eq (l r : instant) : bool := eq (since_startup_ l) (since_startup_ r).
Definition instant_ne (l r : instant) : bool := ne (since_startup_ l) (since_startup_ r).
Definition instant_lt (l r : instant) : bool := lt (since_startup_ l) (since_startup_ r).
Definition instant_gt (l r : instant) : bool := gt (since_startup_ l) (since_startup_ r).
Definition instant_le (l r : instant) : bool := le (since_startup_ l) (since_startup_ r).
Definition instant_ge (l r : instant) : bool := ge (since_startup_ l) (since_startup_ r).

(** ** system_time *)

Record system_time : Type := SystemTime { since_epoch_ : duration }.

Definition unix_epoch : system_time := SystemTime (Duration 0 0).
Definition system_time_now (clock : timespec + Z) : outcome system_time :=
  match clock with
  | inr e => Throw (system_error e)
  | inl ts => let? d := from_timespec ts in Ok (SystemTime d)
  end.
Definition system_checked_since (t earlier : system_time) : outcome duration :=
  checked_sub (since_epoch_ t) (since_epoch_ earlier).
Definition system_saturating_since (t earlier : system_time) : outcome duration :=
  saturating_sub (since_epoch_ t) (since_epoch_ earlier).
Definition system_checked_add (t : system_time) (dur : duration) : outcome system_time :=
  let? d := checked_add (since_epoch_ t) dur in Ok (SystemTime d).
Definition system_checked_sub (t : system_time) (dur : duration) : outcome system_time :=
  let? d := checked_sub (since_epoch_ t) dur in Ok (SystemTime d).
Definition system_elapsed (clock : timespec + Z) (t : system_time) : outcome duration :=
  let? n := system_time_now clock in system_saturating_since n t.
Definition duration_since_epoch (t : system_time) : duration := since_epoch_ t.
Definition system_eq (l r : system_time) : bool := eq (since_epoch_ l) (since_epoch_ r).
Definition system_ne (l r : system_time) : bool := ne (since_epoch_ l) (since_epoch_ r).
Definition system_lt (l r : system_time) : bool := lt (since_epoch_ l) (since_epoch_ r).
Definition system_gt (l r : system_time) : bool := gt (since_epoch_ l) (since_epoch_ r).
Definition system_le (l r : system_time) : bool := le (since_epoch_ l) (since_epoch_ r).
Definition system_ge (l r : system_time) : bool := ge (since_epoch_ l) (since_epoch_ r).

(** ** Durations as numbers of nanoseconds *)

Definition giga : Z := 1000000000.
Definition total (d : duration) : Z := secs_ d * giga + nanos_ d.
Definition valid (d : duration) : Prop := 0 ≤ secs_ d < 2 ^ 64 ∧ 0 ≤ nanos_ d < giga.
Definition limit : Z := 2 ^ 64 * giga.
Definition of_total (n : Z) : duration := Duration (n / giga) (n mod giga).

Lemma of_total_parts s n : 0 ≤ n < giga → of_total (s * giga + n) = Duration s n.
Proof.
  intros Hn. unfold of_total. f_equal.
  - rewrite Z.div_add_l, Z.div_small by (unfold giga in *; lia). lia.
  - rewrite Z.add_comm, Z.mod_add, Z.mod_small by (unfold giga in *; lia). done.
Qed.
Lemma of_total_total d : valid d → of_total (total d) = d.
Proof. intros [_ Hn]. destruct d. by apply of_total_parts. Qed.
Lemma of_total_valid n : 0 ≤ n < limit → valid (of_total n) ∧ total (of_total n) = n.
Proof.
  intros Hn. unfold valid, total, of_total, limit, giga in *. cbn.
  pose proof (Z.mod_pos_bound n 1000000000). pose proof (Z.div_mod n 1000000000).
  split; [split; [|lia]|lia]. split; [apply Z.div_pos; lia|apply Z.div_lt_upper_bound; lia].
Qed.
Lemma total_range d : valid d → 0 ≤ total d < limit.
Proof. unfold valid, total, limit, giga. lia. Qed.
Lemma make_ok s n : n < giga → make s n = Ok (Duration s n).
Proof. intros Hn. unfold make. rewrite obind_assert; [done|]. unfold giga in Hn. lia. Qed.
Lemma make_total s n m : 0 ≤ n < giga → m = s * giga + n → make s n = Ok (of_total m).
Proof. intros Hn ->. rewrite make_ok by lia. by rewrite of_total_parts. Qed.
Lemma normal_ok {B} d (k : unit → outcome B) : valid d → obind (normal d) k = k tt.
Proof. intros [_ Hn]. apply obind_assert. unfold giga in Hn. lia. Qed.

Lemma lt_total l r : valid l → valid r → lt l r = bool_decide (total l < total r).
Proof.
  intros [? ?] [? ?]. unfold lt, total, giga in *. case_bool_decide; lia.
Qed.
Lemma eq_total l r : valid l → valid r → eq l r = bool_decide (total l = total r).
Proof.
  intros [? ?] [? ?]. unfold eq, total, giga in *. case_bool_decide; lia.
Qed.
Lemma ne_eq l r : ne l r = negb (eq l r).
Proof. unfold ne, eq. by rewrite negb_andb. Qed.

(** ** Arithmetic *)

(** Both operands have the greatest number of seconds and the nanoseconds carry. *)
Definition both_max (a b : duration) : Prop :=
  secs_ a = 2 ^ 64 - 1 ∧ secs_ b = 2 ^ 64 - 1 ∧ giga ≤ nanos_ a + nanos_ b.

Lemma nanos_sum a b : valid a → valid b →
  u32 (nanos_ a + nanos_ b) = nanos_ a + nanos_ b ∧
  ∃ c n, (nanos_ a + nanos_ b) / 1000000000 = c ∧ (nanos_ a + nanos_ b) mod 1000000000 = n ∧
    0 ≤ c ≤ 1 ∧ 0 ≤ n < giga ∧ nanos_ a + nanos_ b = c * giga + n.
Proof.
  intros [_ Ha] [_ Hb]. unfold giga in *. split; [apply u32_small; lia|].
  set (s := nanos_ a + nanos_ b) in *. exists (s / 1000000000), (s mod 1000000000).
  pose proof (Z.div_mod s 1000000000). pose proof (Z.mod_pos_bound s 1000000000).
  repeat split; try lia.
Qed.
(** The wrap-around of the seconds is detected. *)
Lemma wrap_detected a b c :
  0 ≤ a < 2 ^ 64 → 0 ≤ b < 2 ^ 64 → 0 ≤ c ≤ 1 → ¬ (a = 2 ^ 64 - 1 ∧ b = 2 ^ 64 - 1 ∧ c = 1) →
  let s := u64 (a + b + c) in
  (s <? a) || (s <? b) = negb (a + b + c <? 2 ^ 64) ∧ (a + b + c < 2 ^ 64 → s = a + b + c).
Proof.
  intros Ha Hb Hc Hm s. destruct (Z.ltb_spec (a + b + c) (2 ^ 64)) as [Hlt|Hge].
  - assert (s = a + b + c) as -> by (apply u64_small; lia). lia.
  - assert (s = a + b + c - 2 ^ 64) as ->.
    { unfold s, u64, wrap. rewrite <- (Z.mod_add _ (-1)) by lia. apply Z.mod_small. lia. }
    cbn. split; [|lia]. apply orb_true_iff. rewrite !Z.ltb_lt. lia.
Qed.
Lemma u64_add_l x y : u64 (u64 x + y) = u64 (x + y).
Proof. unfold u64, wrap. by rewrite Z.add_mod_idemp_l by lia. Qed.
Lemma max_total : max = Ok (of_total (limit - 1)).
Proof. by vm_compute. Qed.
Lemma zero_total : zero = Ok (of_total 0).
Proof. by vm_compute. Qed.

Lemma checked_add_total a b : valid a → valid b → ¬ both_max a b →
  checked_add a b = if decide (total a + total b < limit) then Ok (of_total (total a + total b)) else Throw overflow_error.
Proof.
  intros Ha Hb Hm. unfold checked_add. rewrite !normal_ok by done.
  destruct (nanos_sum a b Ha Hb) as (-> & c & n & -> & -> & Hc & Hn & Hs). rewrite u64_add_l.
  destruct Ha as [Ha ?], Hb as [Hb ?]. destruct (wrap_detected (secs_ a) (secs_ b) c) as [-> Hsum]; [done..| |].
  { intros (? & ? & ?). apply Hm. unfold both_max. unfold giga in *. lia. }
  unfold total, limit. destruct (Z.ltb_spec (secs_ a + secs_ b + c) (2 ^ 64)); cbn [negb]; unfold giga in *.
  - rewrite decide_True by lia. rewrite Hsum by done. apply make_total; unfold giga; lia.
  - by rewrite decide_False by lia.
Qed.
Lemma saturating_add_total a b : valid a → valid b → ¬ both_max a b →
  saturating_add a b = Ok (of_total (Z.min (total a + total b) (limit - 1))).
Proof.
  intros Ha Hb Hm. unfold saturating_add.
  destruct (nanos_sum a b Ha Hb) as (-> & c & n & -> & -> & Hc & Hn & Hs). rewrite u64_add_l.
  replace (c + secs_ a + secs_ b) with (secs_ a + secs_ b + c) by lia.
  destruct Ha as [Ha ?], Hb as [Hb ?]. destruct (wrap_detected (secs_ a) (secs_ b) c) as [-> Hsum]; [done..| |].
  { intros (? & ? & ?). apply Hm. unfold both_max. unfold giga in *. lia. }
  unfold total, limit. destruct (Z.ltb_spec (secs_ a + secs_ b + c) (2 ^ 64)); cbn [negb]; unfold giga in *.
  - rewrite Hsum by done. apply make_total; unfold giga; lia.
  - rewrite max_total. do 2 f_equal. unfold limit, giga. lia.
Qed.
Lemma difference_total a b : valid a → valid b → total b ≤ total a →
  difference a b = Ok (of_total (total a - total b)).
Proof.
  intros [? ?] [? ?] Hle. unfold difference, total, giga in *. destruct (Z.ltb_spec (nanos_ a) (nanos_ b)).
  - rewrite (u64_small (secs_ a - secs_ b)), (u32_small (1000000000 + nanos_ a)) by lia.
    rewrite u64_small, u32_small by lia. apply make_total; unfold giga; lia.
  - rewrite u64_small, u32_small by lia. apply make_total; unfold giga; lia.
Qed.

(** C30: A [duration] behaves as its number of nanoseconds: sums and differences are exact,
    the checked operations throw [overflow_error] exactly when the result does not fit, the
    saturating ones return the greatest or the zero duration then, and the order is that of
    the numbers - except that adding two durations that both have the greatest number of
    seconds, with a carry, is not recognised as an overflow. *)
Theorem duration_refines_nanoseconds a b :
  valid a → valid b → ¬ both_max a b →
  checked_add a b = (if decide (total a + total b < limit) then Ok (of_total (total a + total b)) else Throw overflow_error) ∧
  saturating_add a b = Ok (of_total (Z.min (total a + total b) (limit - 1))) ∧
  checked_sub a b = (if decide (total b ≤ total a) then Ok (of_total (total a - total b)) else Throw overflow_error) ∧
  saturating_sub a b = Ok (of_total (Z.max 0 (total a - total b))) ∧
  lt a b = bool_decide (total a < total b) ∧ le a b = bool_decide (total a ≤ total b) ∧
  gt a b = bool_decide (total a > total b) ∧ ge a b = bool_decide (total a >= total b).
Proof.
  intros Ha Hb Hm. unfold checked_sub, saturating_sub, le, gt, ge.
  rewrite ne_eq, !eq_total, !lt_total by done.
  split; [by apply checked_add_total|]. split; [by apply saturating_add_total|].
  repeat split; repeat case_bool_decide; repeat case_decide; cbn; try lia; try done.
  - apply difference_total; [done..|lia].
  - replace (Z.max 0 _) with 0 by lia. done.
  - rewrite difference_total by (done || lia). do 2 f_equal. lia.
Qed.

Lemma duration_refines_witness :
  checked_add (Duration 1 999999999) (Duration 2 2) = Ok (Duration 4 1) ∧
  checked_add (Duration 1 999999999) (Duration 2 2) =
    (if decide (total (Duration 1 999999999) + total (Duration 2 2) < limit)
     then Ok (of_total (total (Duration 1 999999999) + total (Duration 2 2))) else Throw overflow_error).
Proof.
  split; [vm_compute; reflexivity|].
  apply (duration_refines_nanoseconds (Duration 1 999999999) (Duration 2 2)).
  - unfold valid, giga. cbn. lia.
  - unfold valid, giga. cbn. lia.
  - intros (H & _). cbn in H. lia.
Defined.

(** The overflow that is not recognised: the sum of the greatest duration and itself. *)
Lemma duration_max_plus_max :
  obind max (λ d, checked_add d d) = Ok (Duration (2 ^ 64 - 1) 999999998).
Proof. by vm_compute. Qed.

(** ** Conversions *)

(** Nanoseconds and back; coarser units are truncated, and what does not fit wraps around. *)
Lemma from_nanos_total n : 0 ≤ n < 2 ^ 64 → from_nanos n = Ok (of_total n).
Proof.
  intros Hn. unfold from_nanos. pose proof (Z.mod_pos_bound n 1000000000). rewrite u32_small by lia.
  apply make_total; unfold giga; [lia|]. pose proof (Z.div_mod n 1000000000). lia.
Qed.
Lemma from_millis_total n : 0 ≤ n < 2 ^ 64 → from_millis n = Ok (of_total (n * 1000000)).
Proof.
  intros Hn. unfold from_millis. pose proof (Z.mod_pos_bound n 1000).
  rewrite (u64_small (_ * _)), u32_small by lia.
  apply make_total; unfold giga; [lia|]. pose proof (Z.div_mod n 1000). lia.
Qed.
Lemma as_units_total d : valid d →
  as_nanos d = Ok (u64 (total d)) ∧ as_micros d = Ok (u64 (total d / 1000)) ∧ as_millis d = Ok (u64 (total d / 1000000)).
Proof.
  intros Hd. unfold as_nanos, as_micros, as_millis. rewrite !normal_ok, !u64_add_l by done.
  unfold total, giga. split; [done|].
  assert (Hdiv : ∀ k u, 0 < u → (secs_ d * (k * u) + nanos_ d) / u = secs_ d * k + nanos_ d / u).
  { intros k u Hu. rewrite Z.mul_assoc, Z.div_add_l by lia. done. }
  split; do 2 f_equal; symmetry; [apply (Hdiv 1000000 1000)|apply (Hdiv 1000 1000000)]; lia.
Qed.
(** [timespec] and back, also for more seconds than [time_t] can hold. *)
Lemma narrow_i64_u64 z : 0 ≤ z < 2 ^ 64 → Lexical.narrow_cast_as i64 u64 z = Ok (i64 z) ∧ Lexical.narrow_cast_as u64 i64 (i64 z) = Ok z.
Proof.
  intros Hz. assert (H1 : u64 (i64 z) = z).
  { unfold i64, sint, u64, wrap. rewrite Zminus_mod_idemp_l. rewrite <- (Z.mod_small z (2 ^ 64)) at 2 by done.
    f_equal. lia. }
  split; unfold Lexical.narrow_cast_as; rewrite obind_assert; [done|by rewrite H1, Z.eqb_refl|by rewrite H1|rewrite H1; apply Z.eqb_refl].
Qed.
Lemma timespec_roundtrip d : valid d → obind (to_timespec d) from_timespec = Ok d.
Proof.
  intros [Hs Hn]. unfold to_timespec. rewrite (proj1 (narrow_i64_u64 _ Hs)). cbn [obind].
  assert (Hi : i64 (nanos_ d) = nanos_ d) by (apply sint_small; unfold giga in *; lia).
  assert (Hu : u32 (nanos_ d) = nanos_ d) by (apply u32_small; unfold giga in *; lia).
  unfold Lexical.narrow_cast_as at 1. rewrite Hi, Hu, Z.eqb_refl. cbn [obind oassert].
  unfold from_timespec. cbn [tv_sec tv_nsec]. rewrite (proj2 (narrow_i64_u64 _ Hs)). cbn [obind].
  unfold Lexical.narrow_cast_as. rewrite Hu, Hi, Z.eqb_refl. cbn [obind oassert].
  rewrite make_ok by lia. by destruct d.
Qed.

(** [from_micros] takes a microsecond for a tenth of one. *)
Lemma from_micros_wrong : from_micros 1 = Ok (Duration 0 100).
Proof. by vm_compute. Qed.
(** [subsec_millis] counts microseconds and [subsec_micros] milliseconds. *)
Lemma subsec_units_swapped d : valid d →
  subsec_millis d = Ok (nanos_ d / 1000) ∧ subsec_micros d = Ok (nanos_ d / 1000000).
Proof. intros Hd. unfold subsec_millis, subsec_micros. by rewrite !normal_ok. Qed.

(** ** Points in time *)

(** The time elapsed since an instant is the time on the clock less the instant, also when
    the clock has gone back: then it is zero. *)
Lemma elapsed_total ts i :
  0 ≤ tv_sec ts < 2 ^ 63 → 0 ≤ tv_nsec ts < giga → valid (since_startup_ i) →
  elapsed (inl ts) i =
    Ok (of_total (Z.max 0 (tv_sec ts * giga + tv_nsec ts - total (since_startup_ i)))).
Proof.
  intros Hs Hn Hi. assert (Hv : valid (Duration (tv_sec ts) (tv_nsec ts))) by (unfold valid; cbn; lia).
  assert (Hts : from_timespec ts = Ok (Duration (tv_sec ts) (tv_nsec ts))).
  { rewrite <- (timespec_roundtrip _ Hv). f_equal. unfold to_timespec, Lexical.narrow_cast_as. cbn [secs_ nanos_].
    rewrite (u64_small (i64 _)) by (unfold i64; rewrite sint_small; lia).
    unfold i64. rewrite !sint_small by (unfold giga in *; lia). rewrite u32_small, !Z.eqb_refl by (unfold giga in *; lia).
    cbn. by destruct ts. }
  unfold elapsed, instant_now. rewrite Hts. cbn [obind]. unfold saturating_duration_since. cbn [since_startup_].
  unfold saturating_sub. rewrite lt_total by done. change (total (Duration (tv_sec ts) (tv_nsec ts))) with (tv_sec ts * giga + tv_nsec ts).
  case_bool_decide.
  - rewrite zero_total. do 2 f_equal. lia.
  - rewrite difference_total by (done || unfold total in *; cbn; lia). do 2 f_equal. unfold total at 1. cbn. lia.
Qed.

(** Adding a duration to a time and subtracting it again. *)
Lemma system_add_sub t d :
  valid (since_epoch_ t) → valid d → total (since_epoch_ t) + total d < limit →
  obind (system_checked_add t d) (λ u, system_checked_sub u d) = Ok t.
Proof.
  intros Ht Hd Hlt. assert (Hm : ¬ both_max (since_epoch_ t) d).
  { unfold both_max, total, limit, valid, giga in *. lia. }
  pose proof (total_range _ Hd). pose proof (total_range _ Ht).
  unfold system_checked_add, system_checked_sub. rewrite checked_add_total, decide_True by done. cbn [obind since_epoch_].
  destruct (of_total_valid (total (since_epoch_ t) + total d)) as [Hv Hto]; [lia|].
  unfold checked_sub. rewrite lt_total, Hto by done. rewrite bool_decide_false by lia.
  rewrite difference_total, Hto by (done || lia). cbn [obind]. destruct t as [e]. cbn in *.
  replace (total e + total d - total d) with (total e) by lia. by rewrite of_total_total.
Qed.

End Time.
