(* ===== verification/Process.v ===== *)
(** * Processes (detail/posix_process.hpp)

    A [posix_process] object owns a child process: it starts it, waits for it, and its
    destructor terminates it.  [start] forks; the child prepares itself and executes the
    program, and reports an error through a pipe that the execution of the program closes,
    so that the parent, which reads the pipe to its end, can throw what went wrong.

    The operating system answers the calls ([System]): it chooses numbers and which calls
    fail.  The tables it keeps are a part of the state: the open files of the process ([fdt])
    and the children it has not yet waited for ([kids]).  The parent waits for the child in
    [start], so that the child runs to its end or to the program before the parent goes on.
    The waiter is the one of systems with [pidfd_open]. *)

From S2P Require Import Prelude.

Local Open Scope Z_scope.
Local Open Scope gpcl_scope.

(** ** The operating system *)

Inductive kind : Type :=
| Directory (path : string)
| PipeRead
| PipeWrite
| PidFd (pid : Z)
| Other (n : Z).
#[export] Instance kind_eq_dec : EqDecision kind.
Proof. solve_decision. Defined.
Record desc : Type := Desc { file_ : kind; cloexec : bool }.
Abbreviation table := (gmap Z desc).

Inductive call : Type :=
| Open (path : string)
| Faccessat (dirfd : Z) (file : string) (mode flags : Z)
| Pipe2
| Fork (pids : gset Z)
| Close (fd : Z)
| Seteuid
| Dup2 (oldfd newfd : Z)
| Chdir (path : string)
| Sysconf
| Execveat (dirfd : Z) (file : string) (flags : Z)
| Write (fd : Z)
| Read (fd : Z)
| Waitpid (pid : Z) (status : option Z) (nohang : bool)
| Kill (pid sig : Z)
| PidfdOpen (pid : Z)
| Pselect (fd tv_sec tv_nsec : Z).
Inductive answer : Type :=
| Done (n m : Z)
| Fail_ (errno : Z).

Definition EBADF : Z := 9.
Definition ECHILD : Z := 10.
Definition ENOENT : Z := 2.
Definition EINVAL : Z := 22.

(** [ask]: the answer to a call of a process with these open files; a file with a name, the
    environment and everything else of the outside are in [world]. *)
Class System : Type := {
  world : Type;
  ask : call → table → world → answer * world;
  env_path : world → option string;
}.
(** New descriptors and processes have numbers that are not in use; a pipe, a directory and a
    [pidfd] that are open can be closed, and what is not open cannot; a child that has ended
    is reported with its status, another one when it has ended or, with [WNOHANG], by 0; a pipe
    takes a few bytes while its other end is open. *)
Class SystemOk `{!System} : Prop := {
  ask_open p F w fd m w' : ask (Open p) F w = (Done fd m, w') → 0 ≤ fd ∧ F !! fd = None;
  ask_pipe F w r v w' :
    ask Pipe2 F w = (Done r v, w') → 0 ≤ r ∧ 0 ≤ v ∧ F !! r = None ∧ F !! v = None ∧ r ≠ v;
  ask_fork K F w pid m w' : ask (Fork K) F w = (Done pid m, w') → 0 < pid ∧ pid ∉ K;
  ask_close fd d F w : F !! fd = Some d → (∀ n, file_ d ≠ Other n) →
    ∃ w', ask (Close fd) F w = (Done 0 0, w');
  ask_not_open fd F w : F !! fd = None → ∃ w', ask (Close fd) F w = (Fail_ EBADF, w');
  ask_wait pid st nohang F w r ws w' : ask (Waitpid pid st nohang) F w = (Done r ws, w') →
    (r = pid ∨ r = 0 ∧ nohang = true) ∧ (∀ ws', st = Some ws' → r = pid ∧ ws = ws');
  ask_write fd d F w : F !! fd = Some d → file_ d = PipeWrite →
    ∃ n m w', ask (Write fd) F w = (Done n m, w');
  ask_pidfd pid F w fd m w' : ask (PidfdOpen pid) F w = (Done fd m, w') → 0 ≤ fd ∧ F !! fd = None;
}.

Module Process.

Section process.
Context `{!System}.

(** A process as the system calls see it. *)
Record sys : Type := Sys { wd : world; fdt : table }.
Abbreviation Y A := (M sys A).

Definition call_ (c : call) : Y answer := λ y,
  let '(a, w) := ask c (fdt y) (wd y) in (Ok a, Sys w (fdt y)).
Definition set_fdt (F : table) : Y unit := modify (λ y, Sys (wd y) F).
Definition update_fdt (f : table → table) : Y unit := modify (λ y, Sys (wd y) (f (fdt y))).
(** [GPCL_THROW_LAST_ERROR_IF(call < 0)]. *)
Definition call_or_throw (c : call) : Y (Z * Z) :=
  let! a := call_ c in
  match a with Done n m => ret (n, m) | Fail_ e => throw (system_error e) end.
Definition succeeds (c : call) : Y bool :=
  let! a := call_ c in ret (match a with Done _ _ => true | Fail_ _ => false end).

(** [close]: the descriptor is free again even when the call reports an error. *)
Definition close_ (fd : Z) : Y answer :=
  let! a := call_ (Close fd) in update_fdt (delete fd) ;;; ret a.
(** [fd_traits::close]. *)
Definition close_fd (fd : Z) : Y unit :=
  let! a := close_ fd in
  match a with Done n m => ret tt | Fail_ _ => abort end.
Definition open_ (path : string) : Y (option Z) :=
  let! a := call_ (Open path) in
  match a with
  | Done fd _ => update_fdt (<[fd := Desc (Directory path) true]>) ;;; ret (Some fd)
  | Fail_ _ => ret None
  end.
Definition pipe2_ : Y (Z * Z) :=
  let! '(r, w) := call_or_throw Pipe2 in
  update_fdt (λ F, <[w := Desc PipeWrite true]> (<[r := Desc PipeRead true]> F)) ;;; ret (r, w).

(** A scope with a [unique_fd], which is closed when the scope is left. *)
Definition with_fd {S A} (close : M S unit) (m : M S A) : M S A := λ s,
  match m s with
  | (Ok a, s') => (close ;;; ret a) s'
  | (Throw e, s') => (close ;;; throw e) s'
  | r => r
  end.

(** ** The search for the program *)

Definition AT_FDCWD : Z := -100.
Definition F_OK : Z := 0.
Definition X_OK : Z := 1.
Definition AT_SYMLINK_NOFOLLOW : Z := 256.
Definition AT_EACCESS : Z := 512.

(** [strchr(iter, ':')], with the text before and, if there is a colon, behind it. *)
Fixpoint cut (sep : Ascii.ascii) (s : string) : string * option string :=
  match s with
  | EmptyString => (EmptyString, None)
  | String c s' =>
      if Ascii.eqb c sep then (EmptyString, Some s')
      else let '(a, b) := cut sep s' in (String c a, b)
  end.
Definition has (sep : Ascii.ascii) (s : string) : bool :=
  match cut sep s with (_, Some _) => true | _ => false end.
Definition colon : Ascii.ascii := Ascii.Ascii false true false true true true false false.
Definition slash : Ascii.ascii := Ascii.Ascii true true true true false true false false.

Definition search_dir (dir : Z) (file : string) (flags : Z) : Y bool :=
  let! found := succeeds (Faccessat dir file F_OK flags) in
  if found then
    try_catch (call_or_throw (Faccessat dir file X_OK flags)) (close_fd dir) ;;; ret true
  else close_fd dir ;;; ret false.
Fixpoint search_loop (fuel : nat) (iter : option string) (file : string) (flags : Z) : Y Z :=
  match fuel with
  | O => nofuel
  | S fuel =>
      match iter with
      | None => throw (system_error ENOENT)
      | Some it =>
          let '(name, pos) := cut colon it in
          let! d := open_ name in
          match d with
          | Some dir =>
              let! found := search_dir dir file flags in
              if found then ret dir else search_loop fuel pos file flags
          | None => search_loop fuel pos file flags
          end
      end
  end.
Definition search_executable (file : option string) (follow_symlink inherit_euid : bool) : Y Z :=
  match file with
  | None => throw (system_error EINVAL)
  | Some file =>
      let flags := Z.lor (if follow_symlink then 0 else AT_SYMLINK_NOFOLLOW)
                         (if inherit_euid then AT_EACCESS else 0) in
      if has slash file then
        call_or_throw (Faccessat AT_FDCWD file X_OK flags) ;;;
        let! a := call_ (Open ".") in
        match a with
        | Done fd _ => update_fdt (<[fd := Desc (Directory ".") true]>) ;;; ret fd
        | Fail_ e => throw (system_error e)
        end
      else
        let! y := get in
        match env_path (wd y) with
        | None => throw (system_error ENOENT)
        | Some path => search_loop (S (S (String.length path))) (Some path) file flags
        end
  end.

(** ** The child *)

Record options : Type := Options {
  file : option string;
  argv : list string;
  fds : list (Z * Z);
  working_directory : option string;
  close_files : bool;
  follow_symlink : bool;
  inherit_euid : bool;
}.

Definition dup2_ (oldfd newfd : Z) : Y unit :=
  let! y := get in
  match fdt y !! oldfd with
  | None => throw (system_error EBADF)
  | Some d =>
      call_or_throw (Dup2 oldfd newfd) ;;;
      if oldfd =? newfd then ret tt else update_fdt (<[newfd := Desc (file_ d) false]>)
  end.
Fixpoint dup_all (l : list (Z * Z)) : Y unit :=
  match l with
  | [] => ret tt
  | (oldfd, newfd) :: l => dup2_ oldfd newfd ;;; dup_all l
  end.
(** The loop over the descriptors from [fd] on. *)
Fixpoint close_loop (n : nat) (fd : Z) (keep : list Z) : Y unit :=
  match n with
  | O => ret tt
  | S n =>
      (if bool_decide (fd ∈ keep) then ret tt
       else let! a := close_ fd in
            match a with
            | Done _ _ => ret tt
            | Fail_ e => if e =? EBADF then ret tt else throw (system_error e)
            end) ;;;
      close_loop n (fd + 1) keep
  end.
Definition close_all (l : list (Z * Z)) : Y unit :=
  let! a := call_ Sysconf in
  let max_fd := match a with Done n _ => if n =? -1 then 8192 else n | Fail_ _ => 8192 end in
  close_loop (Z.to_nat max_fd) 0 l.*2.
(** [execveat] does not return when it succeeds; with a relative path it needs the directory. *)
Definition absolute (file : string) : bool :=
  match file with String c _ => Ascii.eqb c slash | EmptyString => false end.
Definition execveat (dir : Z) (file : string) (flags : Z) : Y unit :=
  let! y := get in
  if negb (absolute file) && bool_decide (fdt y !! dir = None) then throw (system_error EBADF)
  else call_or_throw (Execveat dir file flags) ;;; ret tt.
Definition child_body (opt : options) (dir rd : Z) : Y unit :=
  close_fd rd ;;;
  (if inherit_euid opt then ret tt else call_or_throw Seteuid ;;; ret tt) ;;;
  dup_all (fds opt) ;;;
  match working_directory opt with Some d => call_or_throw (Chdir d) ;;; ret tt | None => ret tt end ;;;
  (if close_files opt then close_all (fds opt) else ret tt) ;;;
  execveat dir (default EmptyString (file opt)) (if follow_symlink opt then 0 else AT_SYMLINK_NOFOLLOW).

(** What becomes of a child: it runs a program with these files, or has ended. *)
Inductive child : Type :=
| Runs (program : string) (args : list string) (files : table)
| Ended (wstatus : Z).
Definition SIGABRT : Z := 6.
(** The handlers of [start]: the child, and what it wrote into the pipe.  [write] reaches the
    pipe if the descriptor still stands for it. *)
Definition write_error (wr code : Z) (y : sys) : child * option Z * world :=
  match fdt y !! wr with
  | None => (Ended SIGABRT, None, wd y)
  | Some d =>
      let '(a, w) := ask (Write wr) (fdt y) (wd y) in
      match a with
      | Done _ _ => (Ended 256, (if decide (file_ d = PipeWrite) then Some code else None), w)
      | Fail_ _ => (Ended SIGABRT, None, w)
      end
  end.
(** The files that the execution of a program leaves open. *)
Definition inherited (F : table) : table := filter (λ p, cloexec p.2 = false) F.
Definition run_child (opt : options) (dir rd wr : Z) (y : sys) : child * option Z * world :=
  match child_body opt dir rd y with
  | (Ok _, y') => (Runs (default EmptyString (file opt)) (argv opt) (inherited (fdt y')), None, wd y')
  | (Throw (system_error code), y') => write_error wr code y'
  | (Throw _, y') => write_error wr EINVAL y'
  | (_, y') => (Ended SIGABRT, None, wd y')
  end.

(** ** The objects *)

Definition not_a_process : Z := -1.
Definition terminated_process : Z := -2.
(** [pid_] and [wstatus_] of every object that lives. *)
Record obj : Type := Obj { pid_ : Z; wstatus_ : Z }.
Record state : Type := State { sys_ : sys; kids : gmap Z child; objs : gmap Z obj }.
Abbreviation P A := (M state A).

Definition on_sys {A} (m : Y A) : P A := zoom sys_ (λ y s, State y (kids s) (objs s)) m.
Definition get_obj (x : Z) : P obj := λ s,
  match objs s !! x with Some o => (Ok o, s) | None => (Undef, s) end.
Definition set_obj (x : Z) (o : obj) : P unit :=
    modify (λ s, State (sys_ s) (kids s) (<[x := o]> (objs s))).
Definition set_kid (pid : Z) (c : child) : P unit :=
  modify (λ s, State (sys_ s) (<[pid := c]> (kids s)) (objs s)).
Definition forget_kid (pid : Z) : P unit := modify (λ s, State (sys_ s) (delete pid (kids s)) (objs s)).

Definition joinable (o : obj) : bool := 0 <? pid_ o.

(** [waitpid(pid, &wstatus, options)]: 0, or the process and its status. *)
Definition waitpid (pid : Z) (nohang : bool) : P (Z * Z) :=
  let! s := get in
  match kids s !! pid with
  | None => throw (system_error ECHILD)
  | Some c =>
      let! '(r, ws) := on_sys (call_or_throw
        (Waitpid pid (match c with Ended ws => Some ws | Runs _ _ _ => None end) nohang)) in
      (if r =? pid then forget_kid pid else ret tt) ;;; ret (r, ws)
  end.
Definition join (x : Z) : P unit :=
  let! o := get_obj x in
  gpcl_assert (joinable o) ;;;
  let! '(r, ws) := waitpid (pid_ o) false in
  set_obj x (Obj terminated_process ws).
Definition try_join (x : Z) : P bool :=
  let! o := get_obj x in
  gpcl_assert (joinable o) ;;;
  let! '(r, ws) := waitpid (pid_ o) true in
  if r =? pid_ o then set_obj x (Obj terminated_process ws) ;;; ret true
  else gpcl_assert (r =? 0) ;;; ret false.

(** The descriptors a [fd_set] has room for. *)
Definition FD_SETSIZE : Z := 1024.
Definition wait_for (pidfd tv_sec tv_nsec : Z) : P unit :=
  (if (0 <=? pidfd) && (pidfd <? FD_SETSIZE) then ret tt else undef) ;;;
  on_sys (call_or_throw (Pselect pidfd tv_sec tv_nsec)) ;;; ret tt.
Definition try_join_for_impl (x tv_sec tv_nsec : Z) : P bool :=
  let! o := get_obj x in
  let! '(fd, m) := on_sys (call_or_throw (PidfdOpen (pid_ o))) in
  on_sys (update_fdt (<[fd := Desc (PidFd (pid_ o)) true]>)) ;;;
  with_fd (on_sys (close_fd fd)) (wait_for fd tv_sec tv_nsec ;;; try_join x).
Definition try_join_for (x milliseconds : Z) : P bool :=
  try_join_for_impl x (Z.quot milliseconds 1000) (Z.rem milliseconds 1000 * 1000000).

Definition SIGTERM : Z := 15.
Definition SIGKILL : Z := 9.
Definition send_signal (x sig : Z) : P unit :=
  let! o := get_obj x in
  gpcl_assert (joinable o) ;;;
  on_sys (call_or_throw (Kill (pid_ o) sig)) ;;; ret tt.
Definition terminate (x : Z) : P unit := send_signal x SIGTERM.
Definition kill (x : Z) : P unit := send_signal x SIGKILL.

(** [pid_ = fork()] in the parent. *)
Definition fork_ (x : Z) : P Z :=
  let! s := get in
  let! o := get_obj x in
  let! a := on_sys (call_ (Fork (dom (kids s)))) in
  match a with
  | Done pid _ => set_obj x (Obj pid (wstatus_ o)) ;;; ret pid
  | Fail_ e => set_obj x (Obj not_a_process (wstatus_ o)) ;;; throw (system_error e)
  end.
(** The child does its part and is a child of the process from then on. *)
Definition child_steps (pid : Z) (opt : options) (dir rd wr : Z) : P (option Z) := λ s,
  let '(c, msg, w) := run_child opt dir rd wr (sys_ s) in
  (Ok msg, State (Sys w (fdt (sys_ s))) (<[pid := c]> (kids s)) (objs s)).
Definition start (x : Z) (opt : options) : P unit :=
  let! o := get_obj x in
  gpcl_assert (pid_ o <? 0) ;;;
  let! dir := on_sys (search_executable (file opt) (follow_symlink opt) (inherit_euid opt)) in
  with_fd (on_sys (close_fd dir))
    (let! '(rd, wr) := on_sys pipe2_ in
     with_fd (on_sys (close_fd rd))
       (let! pid := try_catch (fork_ x) (on_sys (close_fd wr)) in
        let! msg := child_steps pid opt dir rd wr in
        gpcl_assert (0 <? pid) ;;;
        on_sys (close_fd wr) ;;;
        on_sys (call_or_throw (Read rd)) ;;;
        match msg with
        | Some code => join x ;;; throw (system_error code)
        | None => ret tt
        end)).
(** [start(span)], for arguments of any string type: the first one is the program. *)
Definition start_args (x : Z) (args : list string) (opt : options) : P unit :=
  start x (Options (head args) args (fds opt) (working_directory opt) (close_files opt)
             (follow_symlink opt) (inherit_euid opt)).

Definition construct (x : Z) : P unit := λ s,
  match objs s !! x with
  | None => (Ok tt, State (sys_ s) (kids s) (<[x := Obj not_a_process 0]> (objs s)))
  | Some _ => (Undef, s)
  end.
Definition move_construct (x other : Z) : P unit :=
  let! o := get_obj other in
  construct x ;;;
  set_obj x o ;;;
  set_obj other (Obj not_a_process (wstatus_ o)).
Definition swap (x other : Z) : P unit :=
  let! o := get_obj x in
  let! p := get_obj other in
  set_obj x p ;;; set_obj other o.
Definition move_assign (x other : Z) : P unit := swap x other.
Definition destruct_ (x : Z) : P unit :=
  noexcept
    (let! o := get_obj x in
     if joinable o then
       terminate x ;;;
       let! b := try_join_for x 2000 in
       if b then ret tt else kill x ;;; join x
     else ret tt) ;;;
  modify (λ s, State (sys_ s) (kids s) (delete x (objs s))).

(** ** The status of a process that has ended *)

Definition WTERMSIG (ws : Z) : Z := Z.land ws 127.
Definition WIFEXITED (ws : Z) : bool := WTERMSIG ws =? 0.
Definition WEXITSTATUS (ws : Z) : Z := Z.shiftr (Z.land ws 65280) 8.
Definition WIFSIGNALED (ws : Z) : bool := (0 <? WTERMSIG ws) && (WTERMSIG ws <? 127).
Definition killed (x : Z) : P bool :=
  let! o := get_obj x in gpcl_assert (pid_ o =? terminated_process) ;;; ret (WIFSIGNALED (wstatus_ o)).
Definition exited (x : Z) : P bool :=
  let! o := get_obj x in gpcl_assert (pid_ o =? terminated_process) ;;; ret (WIFEXITED (wstatus_ o)).
Definition signal (x : Z) : P Z :=
  let! b := killed x in gpcl_assert b ;;; let! o := get_obj x in ret (WTERMSIG (wstatus_ o)).
Definition exit_code (x : Z) : P Z :=
  let! b := exited x in gpcl_assert b ;;; let! o := get_obj x in ret (WEXITSTATUS (wstatus_ o)).

End process.

(** ** Reasoning about outcomes *)

(** [wp B Q E m s]: run from [s], [m] returns with [Q] or throws with [E]; it aborts only if
    [B], and is never undefined. *)
Section wp.
Context {S : Type}.
Definition wp {A} (B : Prop) (Q : A → S → Prop) (E : exn → S → Prop) (m : M S A) (s : S) : Prop :=
  match m s with
  | (Ok a, s') => Q a s'
  | (Throw e, s') => E e s'
  | (Abort, _) => B
  | _ => False
  end.
Lemma wp_mono {A} (B B' : Prop) (Q Q' : A → S → Prop) (E E' : exn → S → Prop) m s :
  wp B Q E m s → (B → B') → (∀ a s', Q a s' → Q' a s') → (∀ e s', E e s' → E' e s') → wp B' Q' E' m s.
Proof. unfold wp. destruct (m s) as [[] ?]; auto. Qed.
Lemma wp_bind {A C} B (Q : C → S → Prop) E (m : M S A) (k : A → M S C) s :
  wp B (λ a s', wp B Q E (k a) s') E m s → wp B Q E (bind m k) s.
Proof. unfold wp, bind. by destruct (m s) as [[] ?]. Qed.
Lemma wp_ok {A} B (Q : A → S → Prop) E m s a s' : m s = (Ok a, s') → Q a s' → wp B Q E m s.
Proof. unfold wp. by intros ->. Qed.
Lemma wp_bind_get {C} B (Q : C → S → Prop) E (k : S → M S C) s : wp B Q E (k s) s →
    wp B Q E (bind get k) s.
Proof. done. Qed.
Lemma wp_bind_assert {C} B (Q : C → S → Prop) E (b : bool) (k : unit → M S C) s :
  b = true → wp B Q E (k tt) s → wp B Q E (bind (gpcl_assert b) k) s.
Proof. by intros ->. Qed.
Lemma wp_noexcept {A} (B : Prop) (Q : A → S → Prop) E (m : M S A) s :
  wp B Q (λ _ _, B) m s → wp B Q E (noexcept m) s.
Proof. unfold wp, noexcept. by destruct (m s) as [[] ?]. Qed.
Lemma wp_with_fd {A} B (Q : A → S → Prop) E close (m : M S A) s :
  wp B (λ a s', wp B (λ _, Q a) E close s') (λ e s', wp B (λ _, E e) E close s') m s →
  wp B Q E (with_fd close m) s.
Proof.
  unfold wp, with_fd, bind. destruct (m s) as [[a|e| | |] s']; try done;
    by destruct (close s') as [[[]| | | |] ?].
Qed.
Lemma wp_try {A} B (Q : A → S → Prop) E (m : M S A) (h : M S unit) s :
  wp B Q (λ e s', wp B (λ _, E e) E h s') m s → wp B Q E (try_catch m h) s.
Proof.
  unfold wp, try_catch, bind. destruct (m s) as [[a|e| | |] s']; try done;
    by destruct (h s') as [[[]| | | |] ?].
Qed.
Lemma wp_zoom {T A} B (Q : A → S → Prop) E (proj : S → T) (upd : T → S → S) (m : M T A) s :
  match m (proj s) with
  | (Ok a, t) => Q a (upd t s) | (Throw e, t) => E e (upd t s) | (Abort, _) => B | _ => False
  end → wp B Q E (zoom proj upd m) s.
Proof. unfold wp, zoom. by destruct (m (proj s)) as [[] ?]. Qed.
End wp.

Section specs.
Context `{!System, !SystemOk}.

(** ** System calls *)

Lemma call_wp B (Q : answer → sys → Prop) E c y :
  (∀ a w, ask c (fdt y) (wd y) = (a, w) → Q a (Sys w (fdt y))) → wp B Q E (call_ c) y.
Proof. intros HQ. unfold wp, call_. destruct (ask _ _ _) as [a w] eqn:Ha. by apply HQ. Qed.
(** Some call fails, other than closing a descriptor. *)
Definition ordinary (c : call) : bool := match c with Close _ => false | _ => true end.
Definition refused : Prop := ∃ c F w e w', ordinary c = true ∧ ask c F w = (Fail_ e, w').
Lemma ask_refused c F w e w' : ask c F w = (Fail_ e, w') → ordinary c = true → refused.
Proof. intros Ha Hc. by exists c, F, w, e, w'. Qed.
Definition no_path : Prop := ∃ w, env_path w = None.

Lemma call_or_throw_wp B (Q : Z * Z → sys → Prop) E c y :
  (∀ n m w, ask c (fdt y) (wd y) = (Done n m, w) → Q (n, m) (Sys w (fdt y))) →
  (∀ e w, (if ordinary c then refused else True) → E (system_error e) (Sys w (fdt y))) →
    wp B Q E (call_or_throw c) y.
Proof.
  intros HQ HE. apply wp_bind, call_wp. intros [n m|e] w Ha; [by apply HQ|apply HE].
  destruct (ordinary c) eqn:Hc; [|done].
  by eapply ask_refused.
Qed.
Lemma close_fd_wp B (Q : unit → sys → Prop) E fd d y :
  fdt y !! fd = Some d → (∀ n, file_ d ≠ Other n) → (∀ w, Q tt (Sys w (delete fd (fdt y)))) →
    wp B Q E (close_fd fd) y.
Proof.
  intros Hfd Hd HQ. destruct (ask_close fd d (fdt y) (wd y) Hfd Hd) as [w Hw].
  eapply wp_ok; [|apply (HQ w)].
  unfold close_fd, close_, call_, bind. by rewrite Hw.
Qed.

(** Nothing happened to the files. *)
Definition same_files (y y' : sys) : Prop := fdt y' = fdt y.
Definition found_dir (y : sys) (fd : Z) (y' : sys) : Prop :=
  0 ≤ fd ∧ fdt y !! fd = None ∧ ∃ path, fdt y' = <[fd := Desc (Directory path) true]> (fdt y).

Lemma open_wp B (Q : option Z → sys → Prop) E path y :
  (∀ fd w, 0 ≤ fd → fdt y !! fd = None →
    Q (Some fd) (Sys w (<[fd := Desc (Directory path) true]> (fdt y)))) →
  (∀ w, refused → Q None (Sys w (fdt y))) → wp B Q E (open_ path) y.
Proof.
  intros H1 H2. apply wp_bind, call_wp.
  intros [fd m|e] w Ha; [|by apply H2, (ask_refused _ _ _ _ _ Ha)]. apply ask_open in Ha as [].
  by apply H1.
Qed.
Lemma search_dir_wp fd path F file flags w :
  F !! fd = None → 0 ≤ fd →
  wp False (λ b y', if b : bool then fdt y' = <[fd := Desc (Directory path) true]> F else fdt y' = F
    ∧ refused) (λ _ y', fdt y' = F ∧ refused)
    (search_dir fd file flags) (Sys w (<[fd := Desc (Directory path) true]> F)).
Proof.
  intros HF Hfd. apply wp_bind, wp_bind, call_wp. intros [n m|e] w1 Ha; (eapply wp_ok; [done|]).
  - apply wp_bind, wp_try, call_or_throw_wp; [by intros; eapply wp_ok|]. intros e w2 Href.
    eapply close_fd_wp; [apply lookup_insert_eq|done|]. intros w3.
    split; [by apply delete_insert_id|done].
  - apply wp_bind. eapply close_fd_wp; [apply lookup_insert_eq|done|]. intros w2. eapply wp_ok; [done|].
    split; [by apply delete_insert_id|by eapply ask_refused].
Qed.
Lemma cut_length sep s name pos : cut sep s = (name, Some pos) →
    (String.length pos < String.length s)%nat.
Proof.
  revert name pos. induction s as [|c s IH]; intros name pos; cbn; [done|].
  destruct (Ascii.eqb c sep); [intros [= <- <-]; lia|].
  destruct (cut sep s) as [a [b|]] eqn:Hc; [|done]. intros [= <- <-]. specialize (IH _ _ eq_refl). lia.
Qed.
Definition size_of (iter : option string) : nat := match iter
    with Some it => S (String.length it) | None => O end.
Lemma search_loop_wp fuel iter file flags y :
  (size_of iter < fuel)%nat → iter ≠ None ∨ refused →
  wp False (found_dir y) (λ _ y', same_files y y' ∧ refused) (search_loop fuel iter file flags) y.
Proof.
  revert iter y. induction fuel as [|fuel IH]; intros iter y Hf Hi; [lia|].
  destruct iter as [it|]; cbn; [|split; [done|]; by destruct Hi].
  destruct (cut colon it) as [name pos] eqn:Hc.
  assert (size_of pos < fuel)%nat as Hp by (destruct pos as [pos|]; [apply cut_length in Hc|];
    cbn in *; lia).
  apply wp_bind, open_wp; [|by intros w Href; apply (IH pos (Sys w (fdt y))); [|right]].
  intros fd w Hfd Hnone. apply wp_bind.
  eapply wp_mono; [by apply search_dir_wp|done|..]; [|by intros e [] []].
  intros [|] y'; [intros Hy'; eapply wp_ok; [done|]; by repeat econstructor|]. intros [Hy' Href].
  eapply wp_mono; [apply IH; [done|by right]|done|..]; unfold found_dir, same_files; rewrite Hy'; done.
Qed.
Lemma search_executable_wp file follow euid y :
  wp False (found_dir y) (λ _ y', same_files y y' ∧
    (refused ∨ file = None ∨ no_path)) (search_executable file follow euid) y.
Proof.
  destruct file as [file|]; [|by split; [|right; left]]. cbn [search_executable].
  destruct (has slash file).
  - apply wp_bind, call_or_throw_wp; [|by intros; split; [|left]]. intros n m w _.
    apply wp_bind, call_wp.
    intros [fd k|e] w' Ha; [|by split; [|left; eapply ask_refused]].
    apply ask_open in Ha as []. eapply wp_ok; [done|]. by repeat econstructor.
  - apply wp_bind_get. destruct (env_path (wd y)) eqn:He; [|by split; [|right; right; eexists]].
    eapply wp_mono; [apply search_loop_wp; [cbn; lia|by left]|done|done|]. intros e y' []. eauto.
Qed.

(** ** Waiting *)

Abbreviation files s := (fdt (sys_ s)).
Definition quiet (s s' : state) : Prop := files s' = files s ∧ kids s' = kids s ∧ objs s' = objs s.
(** The child of object [x] was waited for. *)
Definition reaped (x pid : Z) (s s' : state) : Prop :=
  files s' = files s ∧ kids s' = delete pid (kids s) ∧
  ∃ ws, objs s' = <[x := Obj terminated_process ws]> (objs s) ∧
    ∀ ws', kids s !! pid = Some (Ended ws') → ws = ws'.

Lemma on_sys_wp {A} B (Q : A → state → Prop) E (m : M sys A) s :
  wp B (λ a y, Q a (State y (kids s) (objs s))) (λ e y, E e (State y (kids s) (objs s))) m (sys_ s) →
  wp B Q E (on_sys m) s.
Proof. intros Hm. apply wp_zoom. exact Hm. Qed.
Lemma get_obj_eq x o s : objs s !! x = Some o → get_obj x s = (Ok o, s).
Proof. unfold get_obj. by intros ->. Qed.
Lemma wp_bind_obj {A} B (Q : A → state → Prop) E x o (k : obj → M state A) s :
  objs s !! x = Some o → wp B Q E (k o) s → wp B Q E (bind (get_obj x) k) s.
Proof. intros Hx Hk. unfold wp, bind. by rewrite (get_obj_eq x o). Qed.

Lemma waitpid_wp pid nohang s c :
  0 < pid → kids s !! pid = Some c →
  wp False (λ p s', (p.1 = pid ∧ files s' = files s ∧ kids s' = delete pid (kids s) ∧ objs s' = objs s ∧
                     ∀ ws', c = Ended ws' → p.2 = ws') ∨ (p.1 = 0 ∧ nohang = true ∧ quiet s s'))
    (λ _ s', quiet s s' ∧ refused) (waitpid pid nohang) s.
Proof.
  intros Hpid Hc. apply wp_bind_get. rewrite Hc.
  apply wp_bind, on_sys_wp, call_or_throw_wp; [|done]. intros r ws w [Hr Hws]%ask_wait. apply wp_bind.
  destruct (Z.eqb_spec r pid) as [->|Hne]; (eapply wp_ok; [done|]; eapply wp_ok; [done|]).
  - left. split_and!; try done. intros ws' ->. by apply Hws.
  - right. destruct Hr as [|[-> ->]]; [done|]. done.
Qed.
Lemma join_wp x o s :
  objs s !! x = Some o → 0 < pid_ o → is_Some (kids s !! pid_ o) →
  wp False (λ _, reaped x (pid_ o) s) (λ _ s', quiet s s' ∧ refused) (join x) s.
Proof.
  intros Hx Hpid [c Hc]. apply (wp_bind_obj _ _ _ x o); [done|].
  apply wp_bind_assert; [by apply Z.ltb_lt|].
  eapply wp_bind, wp_mono; [by eapply waitpid_wp|done| |done]. intros [r ws] s'; cbn [fst snd];
    intros [(-> & Hf & Hk & Ho & Hws)|(-> & ? & _)]; [|done].
  eapply wp_ok; [done|]. split_and!; [done|done|]. exists ws. cbn. split; [by rewrite Ho|].
  intros ws' Hs. rewrite Hs in Hc. injection Hc as <-. by apply Hws.
Qed.
Lemma try_join_wp x o s :
  objs s !! x = Some o → 0 < pid_ o → is_Some (kids s !! pid_ o) →
  wp False (λ b s', if b : bool then reaped x (pid_ o) s s' else quiet s s') (λ _ s', quiet s s' ∧
    refused) (try_join x) s.
Proof.
  intros Hx Hpid [c Hc]. apply (wp_bind_obj _ _ _ x o); [done|].
  apply wp_bind_assert; [by apply Z.ltb_lt|].
  eapply wp_bind, wp_mono; [by eapply waitpid_wp|done| |done]. intros [r ws] s'; cbn [fst snd];
    intros [(-> & Hf & Hk & Ho & Hws)|(Hr & ? & Hq)].
  - rewrite Z.eqb_refl. eapply wp_ok; [done|]. split_and!; [done|done|]. exists ws. cbn.
    split; [by rewrite Ho|].
    intros ws' Hs. rewrite Hs in Hc. injection Hc as <-. by apply Hws.
  - subst r. destruct (Z.eqb_spec 0 (pid_ o)); [lia|]. by eapply wp_ok.
Qed.

(** [fd_set] has room for the descriptors the system gives out. *)
Definition small_fds : Prop := ∀ pid F w fd m w', ask (PidfdOpen pid) F w = (Done fd m, w') →
    fd < FD_SETSIZE.

(** A scope with a descriptor leaves the files as they were. *)
Lemma with_new_fd_wp {A} B (Q : A → state → Prop) E fd k F s (m : M state A) :
  F !! fd = None → (∀ n, k ≠ Other n) →
  wp B (λ a s', files s' = <[fd := Desc k true]> F ∧ ∀ w, Q a (State (Sys w F) (kids s') (objs s')))
    (λ e s', files s' = <[fd := Desc k true]> F ∧ ∀ w, E e (State (Sys w F) (kids s') (objs s'))) m s →
  wp B Q E (with_fd (on_sys (close_fd fd)) m) s.
Proof.
  intros HF Hk Hm. apply wp_with_fd. eapply wp_mono; [exact Hm|done|..].
  all: intros a s' [Hf HQ]; apply on_sys_wp; eapply close_fd_wp;
    [rewrite Hf; apply lookup_insert_eq|done|]; intros w; rewrite Hf, delete_insert_id by done;
    apply HQ.
Qed.
Lemma try_join_for_wp x o s ms :
  small_fds → objs s !! x = Some o → 0 < pid_ o → is_Some (kids s !! pid_ o) →
  wp False (λ b s', if b : bool then reaped x (pid_ o) s s' else quiet s s') (λ _ s', quiet s s' ∧
    refused) (try_join_for x ms) s.
Proof.
  intros Hsm Hx Hpid Hk. apply (wp_bind_obj _ _ _ x o); [done|].
  apply wp_bind, on_sys_wp, call_or_throw_wp; [|done]. intros fd m w Ha.
  pose proof (Hsm _ _ _ _ _ _ Ha) as Hs. apply ask_pidfd in Ha as [Hfd HF].
  apply wp_bind. eapply wp_ok; [done|].
  apply with_new_fd_wp with (F := files s) (k := PidFd (pid_ o)); [done|done|].
  assert ((0 <=? fd) && (fd <? FD_SETSIZE) = true) as Hb by lia. apply wp_bind. unfold wait_for.
  rewrite Hb. apply wp_bind, (wp_ok _ _ _ _ _ tt _ eq_refl), wp_bind, on_sys_wp, call_or_throw_wp;
    [|done].
  intros _ _ w' _. eapply wp_ok; [done|]. eapply wp_mono; [by apply (try_join_wp x o)|done|..].
  - intros [|] s' Hs'; [|by destruct Hs' as (? & ? & ?)]. destruct Hs' as (Hf & Hkk & Hrest).
    split; [done|]. intros w2. by repeat split.
  - by intros e s' [(Hf & ? & ?) ?].
Qed.
Lemma send_signal_wp x o s sig :
  objs s !! x = Some o → 0 < pid_ o →
    wp False (λ _, quiet s) (λ _ s', quiet s s' ∧ refused) (send_signal x sig) s.
Proof.
  intros Hx Hpid. apply (wp_bind_obj _ _ _ x o); [done|]. apply wp_bind_assert; [by apply Z.ltb_lt|].
  apply wp_bind, on_sys_wp, call_or_throw_wp; [|done]. intros n m w _. by eapply wp_ok.
Qed.

(** ** Starting *)

(** Object [x] has the new child [c]; or it has none and nothing else is different. *)
Definition started (x pid : Z) (c : child) (s s' : state) : Prop :=
  0 < pid ∧ kids s !! pid = None ∧ files s' = files s ∧ kids s' = <[pid := c]> (kids s) ∧
  ∃ ws, objs s' = <[x := Obj pid ws]> (objs s).
Definition not_started (x : Z) (s s' : state) : Prop :=
  files s' = files s ∧ kids s' = kids s ∧ ∃ p ws, p < 0 ∧ objs s' = <[x := Obj p ws]> (objs s).
(** The files of the child after the fork. *)
Definition child_files (F : table) (dir rd wr : Z) (path : string) : table :=
  <[wr := Desc PipeWrite true]> (<[rd := Desc PipeRead true]> (<[dir := Desc (Directory path) true]> F)).
Record new_fds (F : table) (dir rd wr : Z) : Prop := {
  nf_dir : F !! dir = None; nf_rd : F !! rd = None; nf_wr : F !! wr = None;
  nf_dir_rd : dir ≠ rd; nf_dir_wr : dir ≠ wr; nf_rd_wr : rd ≠ wr;
}.

Lemma fork_wp x o s :
  objs s !! x = Some o →
  wp False (λ pid s', 0 < pid ∧ kids s !! pid = None ∧ files s' = files s ∧ kids s' = kids s ∧
    objs s' = <[x := Obj pid (wstatus_ o)]> (objs s))
    (λ _ s', (files s' = files s ∧ kids s' = kids s ∧
      objs s' = <[x := Obj not_a_process (wstatus_ o)]> (objs s)) ∧ refused) (fork_ x) s.
Proof.
  intros Hx. apply wp_bind_get, (wp_bind_obj _ _ _ x o); [done|]. apply wp_bind, on_sys_wp, call_wp.
  intros [pid m|e] w Ha; [|by eapply wp_bind, wp_ok; [done|]; split; [|eapply ask_refused]].
  apply ask_fork in Ha as [Hpid HK]. eapply wp_bind, wp_ok; [done|]. eapply wp_ok; [done|].
  split_and!; try done. by apply not_elem_of_dom.
Qed.

Section start.
(** [Φ] is what is known of the child and its message when they come from the files [F]. *)
Context (opt : options) (F : table) (Φ : child → option Z → Prop).
Hypothesis child_ok : ∀ dir rd wr path w, new_fds F dir rd wr →
  ∃ c msg w', run_child opt dir rd wr (Sys w (child_files F dir rd wr path)) = (c, msg, w') ∧ Φ c msg.

(** After the child has done its part. *)
Lemma parent_wp x o pid c msg s0 s G rd wr :
  objs s0 !! x = Some o → 0 < pid → kids s0 !! pid = None → G !! wr = None →
  files s = <[wr := Desc PipeWrite true]> G → kids s = <[pid := c]> (kids s0) →
    objs s = <[x := Obj pid (wstatus_ o)]> (objs s0) →
  wp False (λ _ s', msg = None ∧ files s' = G ∧ kids s' = kids s ∧ objs s' = objs s)
    (λ _ s', files s' = G ∧ (kids s' = kids s ∧ objs s' = objs s ∨ kids s' = kids s0 ∧
      ∃ ws, objs s' = <[x := Obj terminated_process ws]> (objs s0)) ∧ (refused ∨ msg ≠ None))
    (gpcl_assert (0 <? pid) ;;; on_sys (close_fd wr) ;;; on_sys (call_or_throw (Read rd)) ;;;
     match msg with Some code => join x ;;; throw (system_error code) | None => ret tt end) s.
Proof.
  intros Hx Hpid Hnone HG Hf Hk Ho. apply wp_bind_assert; [by apply Z.ltb_lt|]. apply wp_bind, on_sys_wp.
  eapply close_fd_wp; [rewrite Hf; apply lookup_insert_eq|done|]. intros w1.
  rewrite Hf, delete_insert_id by done.
  apply wp_bind, on_sys_wp, call_or_throw_wp; [|by intros; split_and!; [|left|left]].
  intros _ _ w2 _. destruct msg as [code|]; [|by eapply wp_ok].
  eapply wp_bind, wp_mono; [apply (join_wp x (Obj pid (wstatus_ o)))|done|..]; cbn.
  - by rewrite Ho, lookup_insert_eq.
  - done.
  - by rewrite Hk, lookup_insert_eq.
  - intros _ s' (Hf' & Hk' & ws & Ho' & _). cbn in *. split_and!; [done| |by right]. right.
    split; [by rewrite Hk', Hk, delete_insert_id|]. exists ws. by rewrite Ho', Ho, insert_insert_eq.
  - intros e s' [(? & ? & ?) ?]. split_and!; [done|by left|by left].
Qed.
Lemma start_wp x o s :
  objs s !! x = Some o → pid_ o < 0 → files s = F →
  wp False (λ _ s', ∃ pid c, started x pid c s s' ∧ Φ c None)
    (λ _ s', (not_started x s s' ∨ ∃ pid c msg, started x pid c s s' ∧ Φ c msg) ∧
             (refused ∨ file opt = None ∨ no_path ∨ ∃ c code, Φ c (Some code))) (start x opt) s.
Proof.
  intros Hx Hpid HF. apply (wp_bind_obj _ _ _ x o); [done|]. apply wp_bind_assert; [by apply Z.ltb_lt|].
  assert (Hid : objs s = <[x := Obj (pid_ o) (wstatus_ o)]> (objs s)) by (destruct o;
    by rewrite insert_id).
  eapply wp_bind, on_sys_wp, wp_mono; [apply search_executable_wp|done|..].
  2:{ intros e y [Hy Ht]. split; [|naive_solver]. left. split_and!; [done|done|].
    exists (pid_ o), (wstatus_ o). by split. }
  intros dir [w1 F1] (Hdir & Hd & path & HF1). cbn in HF1. rewrite HF in *. subst F1.
  apply with_new_fd_wp with (F := F) (k := Directory path); [done|done|].
  apply wp_bind, on_sys_wp, wp_bind, call_or_throw_wp.
  2:{ intros e w Href. split; [done|]. intros w'. split; [|by left]. left. split_and!; [done|done|].
    exists (pid_ o), (wstatus_ o). by split. }
  intros rd wr w2 (Hrd & Hwr & Hr & Hw & Hne)%ask_pipe. cbn in Hr, Hw.
  apply lookup_insert_None in Hr as [Hr ?], Hw as [Hw ?].
  assert (Hnew : new_fds F dir rd wr) by (by constructor).
  eapply wp_bind, wp_ok; [done|]. eapply wp_ok; [done|]. cbn.
  set (G := <[rd := Desc PipeRead true]> (<[dir := Desc (Directory path) true]> F)).
  assert (HG : G !! wr = None) by (unfold G; by rewrite !lookup_insert_ne).
  apply with_new_fd_wp with (F := <[dir := Desc (Directory path) true]> F) (k := PipeRead);
    [by rewrite lookup_insert_ne|done|].
  apply wp_bind, wp_try. eapply wp_mono; [by apply (fork_wp x o)|done|..]; cbn.
  2:{ intros e s' [(Hf & Hk & Ho) Href]. apply on_sys_wp.
    eapply close_fd_wp; [rewrite Hf; apply lookup_insert_eq|done|]. intros w3.
  rewrite Hf, delete_insert_id by done.
      split; [done|]. intros w4. split; [done|]. intros w5. split; [|by left]. left.
      split_and!; [done|done|]. exists not_a_process, (wstatus_ o). by rewrite Ho. }
  intros pid s3 (Hpid3 & Hnone & Hf & Hk & Ho). apply wp_bind.
  destruct (child_ok dir rd wr path (wd (sys_ s3)) Hnew) as (c & msg & w' & Hrun & HΦ).
  assert (Hsteps :
    child_steps pid opt dir rd wr s3 = (Ok msg,
    State (Sys w' (files s3)) (<[pid := c]> (kids s3)) (objs s3))).
  { unfold child_steps. destruct s3 as [[w3 F3] k3 o3]. cbn in Hf, Hrun |- *. subst F3.
    change (<[wr := Desc PipeWrite true]> G) with (child_files F dir rd wr path). by rewrite Hrun. }
  eapply wp_ok; [exact Hsteps|].
  eapply wp_mono;
    [apply (parent_wp x o pid c msg s _ G rd wr);
    [done|done|done|done|done|cbn; by rewrite Hk|done]|done|..]; cbn.
  - intros _ s' (-> & Hf' & Hk' & Ho'). split; [done|]. intros w4. split; [done|]. intros w5.
    exists pid, c. split; [|done].
    split_and!; [done|done|done|cbn; by rewrite Hk', Hk|]. exists (wstatus_ o). cbn. by rewrite Ho', Ho.
  - intros e s' (Hf' & Hcase & Ht). split; [done|]. intros w4. split; [done|]. intros w5.
    split; [|destruct Ht as [|Ht]; [by left|destruct msg; naive_solver]].
    destruct Hcase as [[Hk' Ho']|[Hk' [ws Ho']]].
    + right. exists pid, c, msg. split; [|done].
      split_and!; [done|done|done|cbn; by rewrite Hk', Hk|]. exists (wstatus_ o). cbn.
      by rewrite Ho', Ho.
    + left. split_and!; [done|done|]. by exists terminated_process, ws.
Qed.
End start.

(** ** The child *)

(** The files after the [dup2] calls of the options. *)
Definition dup1 (G : table) (p : Z * Z) : table :=
  match G !! p.1 with
  | Some d => if p.1 =? p.2 then G else <[p.2 := Desc (file_ d) false]> G
  | None => G
  end.
Definition dups (l : list (Z * Z)) (G : table) : table := foldl dup1 G l.
(** The options concern files that are open, and the others are not closed. *)
Definition plain (opt : options) (F : table) : Prop :=
  close_files opt = false ∧ ∀ p, p ∈ fds opt → is_Some (F !! p.1) ∧ is_Some (F !! p.2).

Section child.
Context (dir wr : Z) (path : string).
Hypothesis dir_wr : dir ≠ wr.
Definition beside (G : table) : table :=
    <[wr := Desc PipeWrite true]> (<[dir := Desc (Directory path) true]> G).
Definition apart (G : table) : Prop := G !! dir = None ∧ G !! wr = None.
(** The pipe is still there when something fails. *)
Definition can_report (e : exn) (y : sys) : Prop :=
  (∃ code, e = system_error code) ∧ fdt y !! wr = Some (Desc PipeWrite true) ∧ refused.

Lemma lookup_beside G i : apart G → is_Some (G !! i) → beside G !! i = G !! i.
Proof. intros [H1 H2] [d Hd]. unfold beside. rewrite !lookup_insert_ne; congruence. Qed.
Lemma beside_wr G : beside G !! wr = Some (Desc PipeWrite true).
Proof. apply lookup_insert_eq. Qed.
Lemma inherited_beside G : apart G → inherited (beside G) = inherited G.
Proof.
  intros [H1 H2]. unfold inherited, beside. rewrite !map_filter_insert_not'; try done;
    [by rewrite H1|]. intros d. rewrite lookup_insert_ne by done. by rewrite H2.
Qed.
Lemma dup1_some G p i : is_Some (G !! i) → is_Some (dup1 G p !! i).
Proof.
  intros Hi. unfold dup1. destruct (G !! p.1); [|done]. destruct (_ =? _); [done|].
  destruct (decide (p.2 = i)) as [<-|]; [by rewrite lookup_insert_eq|by rewrite lookup_insert_ne].
Qed.
Lemma dup1_apart G p : apart G → is_Some (G !! p.2) → apart (dup1 G p).
Proof.
  intros [H1 H2] [d Hd]. unfold dup1. destruct (G !! p.1); [|done]. destruct (_ =? _); [done|].
  split; rewrite lookup_insert_ne; congruence.
Qed.
Lemma dup2_wp G p w :
  apart G → is_Some (G !! p.1) → is_Some (G !! p.2) →
  wp False (λ _ y, fdt y = beside (dup1 G p)) can_report (dup2_ p.1 p.2) (Sys w (beside G)).
Proof.
  intros HG H1 H2. apply wp_bind_get. cbn [fdt]. rewrite lookup_beside by done.
  destruct H1 as [d Hd]. rewrite Hd.
  apply wp_bind, call_or_throw_wp; [|intros; split_and!; [eauto|apply beside_wr|done]].
  intros _ _ w' _. unfold dup1. rewrite Hd.
  destruct (_ =? _); (eapply wp_ok; [done|]); [done|]. cbn. unfold beside.
  destruct HG as [Hdir Hwr], H2 as [d2 Hd2].
  rewrite (insert_insert_ne _ _ wr) by congruence. f_equal. apply insert_insert_ne. congruence.
Qed.
Lemma dup_all_wp l G w :
  apart G → (∀ p, p ∈ l → is_Some (G !! p.1) ∧ is_Some (G !! p.2)) →
  wp False (λ _ y, fdt y = beside (dups l G) ∧
    apart (dups l G)) can_report (dup_all l) (Sys w (beside G)).
Proof.
  revert G w. induction l as [|[o n] l IH]; intros G w HG Hl; [done|].
  destruct (Hl (o, n)) as [H1 H2]; [by left|].
  eapply wp_bind, wp_mono; [by apply (dup2_wp G (o, n))|done| |done]. intros _ [w1 T] HT. cbn in HT.
  subst T.
  apply IH; [by apply dup1_apart|]. intros p Hp. destruct (Hl p) as [? ?]; [by right|].
  split; by apply dup1_some.
Qed.
Lemma child_body_wp opt F rd w :
  new_fds F dir rd wr → plain opt F →
  wp False (λ _ y, fdt y = beside (dups (fds opt) F) ∧ apart (dups (fds opt) F)) can_report
    (child_body opt dir rd) (Sys w (child_files F dir rd wr path)).
Proof.
  intros [Hdir Hrd Hwr Hdr _ Hrw] [Hcl Hfds]. unfold child_body. rewrite Hcl. apply wp_bind.
  eapply close_fd_wp;
    [cbn; unfold child_files; by rewrite lookup_insert_ne, lookup_insert_eq|done|]. intros w1.
  cbn [fdt]. unfold child_files.
  rewrite delete_insert_ne, delete_insert_id by (done || by rewrite lookup_insert_ne). fold (beside F).
  assert (Hrep : ∀ G e w, refused → can_report (system_error e) (Sys w (beside G))) by (intros;
    split; [eauto|split; [apply beside_wr|done]]).
  assert (HF : apart F) by done. apply wp_bind.
  assert (∀ w2, wp False (λ _ y, fdt y = beside (dups (fds opt) F) ∧ apart (dups (fds opt) F)) can_report
    (dup_all (fds opt) ;;; match working_directory opt with Some d => call_or_throw (Chdir d) ;;;
      ret tt | None => ret tt end ;;; ret tt ;;;
     execveat dir (default EmptyString (file opt))
       (if follow_symlink opt then 0 else AT_SYMLINK_NOFOLLOW)) (Sys w2 (beside F))) as Hrest.
  2:{ destruct (inherit_euid opt); [by eapply wp_ok|]. apply wp_bind, call_or_throw_wp;
    [|by intros; apply Hrep]. intros _ _ w2 _. by eapply wp_ok. }
  intros w2. eapply wp_bind, wp_mono; [by apply dup_all_wp|done| |done]. intros _ [w3 T] [HT HG].
  cbn in HT. subst T.
  assert (∀ w4, wp False (λ _ y, fdt y = beside (dups (fds opt) F) ∧ apart (dups (fds opt) F)) can_report
    (ret tt ;;;
      execveat dir (default EmptyString (file opt))
      (if follow_symlink opt then 0 else AT_SYMLINK_NOFOLLOW)) (Sys w4 (beside (dups (fds opt) F))))
      as Hexec.
  { intros w4. eapply wp_bind, wp_ok; [done|]. apply wp_bind_get. cbn [fdt].
      assert (bool_decide (beside (dups (fds opt) F) !! dir = None) = false) as ->
      by (apply bool_decide_eq_false; unfold beside;
      by rewrite lookup_insert_ne, lookup_insert_eq by done).
    rewrite andb_false_r. apply wp_bind, call_or_throw_wp; [|by intros; apply Hrep].
    intros _ _ w5 _. by eapply wp_ok. }
  apply wp_bind. destruct (working_directory opt) as [d|]; [|by eapply wp_ok].
  apply wp_bind, call_or_throw_wp; [|by intros; apply Hrep]. intros _ _ w5 _. by eapply wp_ok.
Qed.
End child.

(** A child runs the program with the files it should have, or reports an error and exits. *)
Definition runs_or_reports (opt : options) (F : table) (c : child) (msg : option Z) : Prop :=
  msg = None ∧ c = Runs (default EmptyString (file opt)) (argv opt) (inherited (dups (fds opt) F)) ∨
  (∃ code, msg = Some code) ∧ c = Ended 256 ∧ refused.
Lemma run_child_plain opt F dir rd wr path w :
  new_fds F dir rd wr → plain opt F →
  ∃ c msg w', run_child opt dir rd wr (Sys w (child_files F dir rd wr path)) = (c, msg, w') ∧
    runs_or_reports opt F c msg.
Proof.
  intros Hnew Hpl.
  pose proof (child_body_wp dir wr path (nf_dir_wr _ _ _ _ Hnew) opt F rd w Hnew Hpl) as Hb.
  unfold run_child, wp in *. destruct (child_body opt dir rd _) as [[[]|e| | |] [w1 T]]; try done.
  - destruct Hb as [HT HG]. cbn in HT. subst T. eexists _, _, _. split; [done|]. left. cbn.
    by rewrite (inherited_beside dir wr path (nf_dir_wr _ _ _ _ Hnew) _ HG).
  - destruct Hb as ([code ->] & Hwr & Href). cbn in Hwr. unfold write_error. cbn [fdt wd].
    rewrite Hwr. destruct (ask_write wr _ T w1 Hwr eq_refl) as (n & m & w' & ->).
    eexists _, _, _. split; [done|]. right. cbn. rewrite decide_True by done. eauto.
Qed.


(** ** Programs with processes *)

Inductive op : Type :=
| Construct (x : Z)
| Start (x : Z) (opt : options)
| MoveConstruct (x y : Z)
| MoveAssign (x y : Z)
| Join (x : Z)
| TryJoin (x : Z)
| TryJoinFor (x ms : Z)
| Signal (x sig : Z)
| Destruct (x : Z).
Definition run_op (p : op) : M state unit :=
  match p with
  | Construct x => construct x
  | Start x opt => start x opt
  | MoveConstruct x y => move_construct x y
  | MoveAssign x y => move_assign x y
  | Join x => join x
  | TryJoin x => try_join x ;;; ret tt
  | TryJoinFor x ms => try_join_for x ms ;;; ret tt
  | Signal x sig => send_signal x sig
  | Destruct x => destruct_ x
  end.
(** The objects live, and the assertions of the functions hold. *)
Definition is_joinable (s : state) (x : Z) : Prop := ∃ o, objs s !! x = Some o ∧ 0 < pid_ o.
Definition allowed (s : state) (p : op) : Prop :=
  match p with
  | Construct x => objs s !! x = None
  | Start x opt => ∃ o, objs s !! x = Some o ∧ pid_ o < 0
  | MoveConstruct x y => objs s !! x = None ∧ is_Some (objs s !! y)
  | MoveAssign x y => is_Some (objs s !! x) ∧ is_Some (objs s !! y)
  | Join x | TryJoin x | TryJoinFor x _ | Signal x _ => is_joinable s x
  | Destruct x => is_Some (objs s !! x)
  end.
(** A program that begins without children, with the files [F]; it catches exceptions. *)
Inductive run (F : table) : state → Prop :=
| run_begin w : run F (State (Sys w F) ∅ ∅)
| run_step p r s s' : run F s → allowed s p → run_op p s = (r, s') →
  (r = Ok tt ∨ ∃ e, r = Throw e) → run F s'.

Record owned (s : state) : Prop := {
  owned_child x o : objs s !! x = Some o → 0 < pid_ o → is_Some (kids s !! pid_ o);
  owned_by pid : is_Some (kids s !! pid) → 0 < pid ∧ ∃ x o, objs s !! x = Some o ∧ pid_ o = pid;
  owned_once x y o p : objs s !! x = Some o → objs s !! y = Some p → pid_ o = pid_ p → 0 < pid_ o →
    x = y;
}.

Lemma owned_quiet s s' : quiet s s' → owned s → owned s'.
Proof. intros (_ & Hk & Ho) [H1 H2 H3]. constructor; rewrite ?Hk, ?Ho; done. Qed.
(** An object without a child changes. *)
Lemma owned_idle s s' x o p ws :
  objs s !! x = Some o → kids s' = kids s → p < 0 → objs s' = <[x := Obj p ws]> (objs s) →
  pid_ o < 0 → owned s → owned s'.
Proof.
  intros Hx Hk Hp Ho Hneg [H1 H2 H3]. constructor; rewrite ?Hk, ?Ho.
  - intros y q [[<- <-]|[Hne Hy]]%lookup_insert_Some; cbn; [lia|by eapply H1].
  - intros pid Hpid. destruct (H2 pid Hpid) as (Hpos & y & q & Hy & Hq). split; [done|].
    exists y, q. rewrite lookup_insert_ne; [done|]. intros ->. assert (q = o) by congruence. subst.
    lia.
  - intros y z q q' Hy Hz.
    apply lookup_insert_Some in Hy as [[<- <-]|[Hy1 Hy]], Hz as [[<- <-]|[Hz1 Hz]]; cbn; try done;
      try lia. by apply H3.
Qed.
Lemma owned_reaped s s' x o :
  objs s !! x = Some o → 0 < pid_ o → reaped x (pid_ o) s s' → owned s → owned s'.
Proof.
  intros Hx Hpos (_ & Hk & ws & Ho & _) [H1 H2 H3]. constructor; rewrite ?Hk, ?Ho.
  - intros y q [[<- <-]|[Hne Hy]]%lookup_insert_Some; cbn; [by unfold terminated_process|].
    intros Hq. rewrite lookup_delete_ne; [by eapply H1|]. intros Heq. by apply Hne, (H3 x y o q).
  - intros pid [c Hc]. apply lookup_delete_Some in Hc as [Hne Hc].
    destruct (H2 pid) as (Hp & y & q & Hy & Hq); [eauto|]. split; [done|]. exists y, q.
    rewrite lookup_insert_ne; [done|]. intros ->. congruence.
  - intros y z q q' Hy Hz.
    apply lookup_insert_Some in Hy as [[<- <-]|[Hy1 Hy]], Hz as [[<- <-]|[Hz1 Hz]]; cbn;
      unfold terminated_process; try done; try lia. by apply H3.
Qed.
Lemma owned_started s s' x o pid c :
  objs s !! x = Some o → pid_ o < 0 → started x pid c s s' → owned s → owned s'.
Proof.
  intros Hx Hneg (Hpos & Hnone & _ & Hk & ws & Ho) [H1 H2 H3].
  assert (Hfresh : ∀ y q, objs s !! y = Some q → pid_ q ≠ pid).
  { intros y q Hy Hq. destruct (H1 y q Hy) as [? Hc]; [lia|]. rewrite Hq in Hc. congruence. }
  constructor; rewrite ?Hk, ?Ho.
  - intros y q [[<- <-]|[Hne Hy]]%lookup_insert_Some; cbn; [by rewrite lookup_insert_eq|].
    intros Hq. rewrite lookup_insert_ne by (symmetry; by eapply Hfresh). by eapply H1.
  - intros i [d Hd]. apply lookup_insert_Some in Hd as [[<- <-]|[Hne Hd]];
      [split; [done|]; exists x, (Obj pid ws); by rewrite lookup_insert_eq|].
    destruct (H2 i) as (Hp & y & q & Hy & Hq); [eauto|]. split; [done|]. exists y, q.
    rewrite lookup_insert_ne; [done|]. intros ->. assert (q = o) by congruence. subst. lia.
  - intros y z q q' Hy Hz.
    apply lookup_insert_Some in Hy as [[<- <-]|[Hy1 Hy]], Hz as [[<- <-]|[Hz1 Hz]]; cbn; try done.
    + intros Hq _. by destruct (Hfresh z q').
    + intros Hq _. by destruct (Hfresh y q).
    + by apply H3.
Qed.
(** Every object [y] is now object [f y]. *)
Lemma owned_rename s s' (f : Z → Z) :
  kids s' = kids s → (∀ x y, f x = f y → x = y) →
  (∀ y o, objs s' !! y = Some o → 0 < pid_ o → objs s !! f y = Some o) →
  (∀ x o, objs s !! x = Some o → 0 < pid_ o → ∃ y, f y = x ∧ objs s' !! y = Some o) → owned s → owned s'.
Proof.
  intros Hk Hf Hback Hforth [H1 H2 H3]. constructor; rewrite ?Hk.
  - intros y o Hy Hpos. by eapply H1, Hpos; apply Hback.
  - intros pid Hpid. destruct (H2 pid Hpid) as (Hp & x & o & Hx & Ho). split; [done|].
    destruct (Hforth x o) as (y & _ & Hy); [done|lia|]. eauto.
  - intros x y o p Hx Hy Heq Hpos.
    apply Hf, (H3 _ _ o p); [by apply Hback|apply Hback; [done|lia]|done|done].
Qed.
Definition transp (x y z : Z) : Z := if decide (z = x) then y else if decide (z = y) then x else z.
Lemma transp_inj x y a b : transp x y a = transp x y b → a = b.
Proof. unfold transp. repeat case_decide; congruence. Qed.

(** What holds after an operation. *)
Definition kept (s s' : state) : Prop := owned s' ∧ files s' = files s.

Lemma construct_kept x s : objs s !! x = None → owned s →
    wp False (λ _, kept s) (λ _ _, False) (construct x) s.
Proof.
  intros Hx Hs. unfold wp, construct. rewrite Hx. split; [|done]. eapply (owned_rename s _ id); cbn;
    [done|done|..|done].
  - intros y o [[<- <-]|[_ Hy]]%lookup_insert_Some; [done|done].
  - intros y o Hy _. exists y. rewrite lookup_insert_ne; [done|congruence].
Qed.
Lemma move_construct_kept x y s :
  objs s !! x = None → is_Some (objs s !! y) → owned s →
    wp False (λ _, kept s) (λ _ _, False) (move_construct x y) s.
Proof.
  intros Hx [o Hy] Hs. assert (x ≠ y) by congruence. apply (wp_bind_obj _ _ _ y o); [done|].
  eapply wp_bind, wp_ok; [unfold construct; by rewrite Hx|].
  eapply wp_ok; [done|]. split; [|done]. eapply (owned_rename s _ (transp x y)); cbn;
    [done|apply transp_inj|..|done]; unfold transp.
  - intros z p [[<- <-]|
      [? [[<- <-]|[? [[<- <-]|[? Hz]]%lookup_insert_Some]]%lookup_insert_Some]]%lookup_insert_Some;
      cbn; [done| | |].
    all: repeat case_decide; congruence.
  - intros z p Hz Hpos. exists (transp x y z). unfold transp.
    split; [repeat case_decide; congruence|]. rewrite insert_insert_eq.
    repeat case_decide; simplify_eq;
      [by rewrite lookup_insert_ne, lookup_insert_eq|by rewrite !lookup_insert_ne].
Qed.
Lemma swap_kept x y s :
  is_Some (objs s !! x) → is_Some (objs s !! y) → owned s →
    wp False (λ _, kept s) (λ _ _, False) (swap x y) s.
Proof.
  intros [o Hx] [p Hy] Hs. apply (wp_bind_obj _ _ _ x o); [done|]. apply (wp_bind_obj _ _ _ y p);
    [done|].
  eapply wp_ok; [done|]. split; [|done]. eapply (owned_rename s _ (transp x y)); cbn;
    [done|apply transp_inj|..|done]; unfold transp.
  - intros z q [[<- <-]|[? [[<- <-]|[? Hz]]%lookup_insert_Some]]%lookup_insert_Some; intros _;
      repeat case_decide; congruence.
  - intros z q Hz Hpos. exists (transp x y z). unfold transp. split; [repeat case_decide; congruence|].
    repeat case_decide; simplify_eq; rewrite ?lookup_insert_eq;
      [done| |by rewrite !lookup_insert_ne]. destruct (decide (x = y));
      [simplify_eq; by rewrite lookup_insert_eq|by rewrite lookup_insert_ne, lookup_insert_eq].
Qed.
Lemma start_kept x opt s :
  (∃ o, objs s !! x = Some o ∧ pid_ o < 0) → owned s →
    wp False (λ _, kept s) (λ _, kept s) (start x opt) s.
Proof.
  intros (o & Hx & Hneg) Hs.
  eapply wp_mono; [apply (start_wp opt (files s) (λ _ _, True)) with (o := o); try done|done|..].
  - intros dir rd wr path w _. destruct (run_child _ _ _ _ _) as [[c msg] w']. by eexists _, _, _.
  - intros _ s' (pid & c & Hst & _). split; [by eapply owned_started|apply Hst].
  - intros e s' [[(Hf & Hk & p & ws & Hp & Ho)|(pid & c & msg & Hst & _)] _];
      [split; [|done]; by eapply owned_idle|].
    split; [by eapply owned_started|apply Hst].
Qed.
Lemma quiet_kept s s' : quiet s s' → owned s → kept s s'.
Proof. intros Hq Hs. split; [by eapply owned_quiet|apply Hq]. Qed.
Lemma reaped_kept s s' x o : objs s !! x = Some o → 0 < pid_ o → reaped x (pid_ o) s s' → owned s →
    kept s s'.
Proof. intros Hx Hpos Hr Hs. split; [by eapply owned_reaped|apply Hr]. Qed.

(** The destructor leaves the object without a child. *)
Definition left_idle (x : Z) (s s' : state) : Prop := kept s s' ∧ ∃ o, objs s' !! x = Some o ∧
    pid_ o ≤ 0.
Lemma reaped_idle s s' x o : objs s !! x = Some o → 0 < pid_ o → reaped x (pid_ o) s s' → owned s →
    left_idle x s s'.
Proof.
  intros Hx Hpos Hr Hs. split; [by eapply reaped_kept|]. destruct Hr as (_ & _ & ws & -> & _).
  exists (Obj terminated_process ws). by rewrite lookup_insert_eq.
Qed.
Lemma quiet_trans s1 s2 s3 : quiet s1 s2 → quiet s2 s3 → quiet s1 s3.
Proof. intros (? & ? & ?) (? & ? & ?). split_and!; congruence. Qed.
Lemma left_idle_quiet x s s1 s' : quiet s s1 → left_idle x s1 s' → left_idle x s s'.
Proof. intros (Hf & _) [[? ?] ?]. split; [split; [done|congruence]|done]. Qed.
Lemma destruct_kept x s :
  small_fds → is_Some (objs s !! x) → owned s → wp refused (λ _, kept s) (λ _ _, False) (destruct_ x) s.
Proof.
  intros Hsm [o Hx] Hs. apply wp_bind.
  eapply wp_mono with (B := refused) (Q := λ _, left_idle x s) (E := λ _ _, False); [|done| |done].
  2:{ intros _ s' [[[H1 H2 H3] Hf] (o' & Hx' & Ho')]. eapply wp_ok; [done|]. split; [|done].
    eapply (owned_rename s' _ id); cbn; [done|done|..|by constructor].
      - by intros y p [_ Hy]%lookup_delete_Some.
      - intros y p Hy Hp. exists y. split; [done|]. rewrite lookup_delete_ne; [done|]. intros <-.
        simplify_eq. lia. }
  apply wp_noexcept, (wp_bind_obj _ _ _ x o); [done|]. unfold joinable.
  destruct (Z.ltb_spec 0 (pid_ o)) as [Hpos|]; [|by eapply wp_ok; [|split; [|eauto]]].
  assert (Hown : ∀ s1, quiet s s1 → owned s1 ∧ objs s1 !! x = Some o ∧ is_Some (kids s1 !! pid_ o)).
  { intros s1 Hq. pose proof (owned_quiet _ _ Hq Hs) as H1. destruct Hq as (_ & _ & Ho).
      rewrite <-Ho in Hx. split_and!; [done|done|]. by eapply owned_child. }
  eapply wp_bind, wp_mono; [by eapply send_signal_wp|done| |by intros ? ? [? ?]]. intros [] s1 Hq1.
  destruct (Hown s1 Hq1) as (Hs1 & Hx1 & Hk1).
  eapply wp_bind, wp_mono; [by apply try_join_for_wp|done| |by intros ? ? [? ?]]. intros [|] s2 Hs2.
  { eapply wp_ok; [done|]. by eapply left_idle_quiet, reaped_idle. }
  assert (Hq2 : quiet s s2) by (by eapply quiet_trans). destruct (Hown s2 Hq2) as (_ & Hx2 & _).
  eapply wp_bind, wp_mono; [by eapply send_signal_wp|done| |by intros ? ? [? ?]]. intros [] s3 Hq3.
  assert (Hq : quiet s s3) by (by eapply quiet_trans). destruct (Hown s3 Hq) as (Hs3 & Hx3 & Hk3).
  eapply wp_mono; [by apply join_wp|done| |by intros ? ? [? ?]]. intros [] s4 Hs4.
  by eapply left_idle_quiet, reaped_idle.
Qed.
Lemma run_op_kept p s :
  small_fds → allowed s p → owned s →
  wp (refused ∧ ∃ x, p = Destruct x) (λ _, kept s) (λ _, kept s) (run_op p) s.
Proof.
  intros Hsm Hp Hs. destruct p; cbn in Hp |- *.
  - by eapply wp_mono; [apply construct_kept|..].
  - by eapply wp_mono; [apply start_kept|..].
  - destruct Hp. by eapply wp_mono; [apply move_construct_kept|..].
  - destruct Hp. by eapply wp_mono; [apply swap_kept|..].
  - destruct Hp as (o & Hx & Hpos).
    eapply wp_mono; [apply (join_wp x o); [done|done|by eapply owned_child]|done|..].
    + intros ? s' Hr. by eapply reaped_kept.
    + intros ? s' [? _]. by apply quiet_kept.
  - destruct Hp as (o & Hx & Hpos). eapply wp_bind, wp_mono;
      [apply (try_join_wp x o); [done|done|by eapply owned_child]|done|..].
    + intros [|] s' Hr; (eapply wp_ok; [done|]); [by eapply reaped_kept|by apply quiet_kept].
    + intros ? s' [? _]. by apply quiet_kept.
  - destruct Hp as (o & Hx & Hpos). eapply wp_bind, wp_mono;
      [apply (try_join_for_wp x o); [done|done|done|by eapply owned_child]|done|..].
    + intros [|] s' Hr; (eapply wp_ok; [done|]); [by eapply reaped_kept|by apply quiet_kept].
    + intros ? s' [? _]. by apply quiet_kept.
  - destruct Hp as (o & Hx & Hpos). eapply wp_mono; [by apply (send_signal_wp x o)|done|..].
    + intros ? s' ?. by apply quiet_kept.
    + intros ? s' [? _]. by apply quiet_kept.
  - eapply wp_mono; [by apply destruct_kept|eauto|done|done].
Qed.
Lemma run_owned F s : small_fds → run F s → owned s ∧ files s = F.
Proof.
  intros Hsm. induction 1 as [w|p r s s' _ [Hs Hf] Hp Hr Hok].
  - split; [|done].
    constructor; cbn; [by intros x o ?%lookup_empty_Some|by intros pid [? ?%lookup_empty_Some]|
      by intros x y o p ?%lookup_empty_Some].
  - pose proof (run_op_kept p s Hsm Hp Hs) as Hw. unfold wp in Hw. rewrite Hr in Hw.
    assert (kept s s') as [? ?] by (by destruct Hok as [->|[e ->]]). split; [done|congruence].
Qed.

(** C32: Whatever a program does with process objects, on a system whose process descriptors
    are below [FD_SETSIZE], also when system calls fail and exceptions are thrown, every child
    that was not yet waited for belongs to exactly one object, so that no child is left when all
    objects are gone, and no descriptor is leaked.  Every operation on objects that live, whose
    assertions hold, returns or throws; only a destructor ends the program, when the system
    refuses a call. *)
Theorem process_children_owned F s :
  small_fds → run F s →
  files s = F ∧
  (∀ pid, is_Some (kids s !! pid) ↔ 0 < pid ∧ ∃ x o, objs s !! x = Some o ∧ pid_ o = pid) ∧
  (∀ x y o p, objs s !! x = Some o → objs s !! y = Some p → pid_ o = pid_ p → 0 < pid_ o → x = y) ∧
  (objs s = ∅ → kids s = ∅) ∧
  (∀ p, allowed s p → ∃ r s', run_op p s = (r, s') ∧
     (r = Ok tt ∨ (∃ e, r = Throw e) ∨ r = Abort ∧ refused ∧ ∃ x, p = Destruct x)).
Proof.
  intros Hsm [Hs Hf]%run_owned; [|done]. destruct (Hs) as [H1 H2 H3]. split_and!; [done| |done| |].
  - intros pid. split; [apply H2|]. intros (Hp & x & o & Hx & <-). by eapply H1.
  - intros He. apply map_eq. intros pid. rewrite lookup_empty. apply eq_None_not_Some.
    intros (_ & x & o & Hx & _)%H2. by rewrite He, lookup_empty in Hx.
  - intros p Hp. pose proof (run_op_kept p s Hsm Hp Hs) as Hw. unfold wp in Hw.
    destruct (run_op p s) as [r s']. exists r, s'. split; [done|]. destruct r as [[]|e| | |];
      try done; eauto.
Qed.
(** The status says that the process was killed or that it exited, not both. *)
Lemma status_exclusive ws : WTERMSIG ws ≠ 127 → WIFSIGNALED ws = negb (WIFEXITED ws).
Proof.
  intros H1. unfold WIFSIGNALED, WIFEXITED in *.
  assert (0 ≤ WTERMSIG ws < 128) by (unfold WTERMSIG; change 127 with (Z.ones 7);
    rewrite Z.land_ones by lia; apply Z.mod_pos_bound; lia). lia.
Qed.
End specs.

(** ** Witnesses *)

(** A system with one program, [/bin/true], that gives out the next number; a child that runs
    ends when it is waited for. *)
Definition next_fd (F : table) : Z := map_fold (λ k _ m, Z.max (k + 1) m) 3 F.
Definition next_pid (K : gset Z) : Z := set_fold (λ k m, Z.max (k + 1) m) 100 K.
Lemma next_fd_spec F : 3 ≤ next_fd F ∧ ∀ i, is_Some (F !! i) → i < next_fd F.
Proof.
  unfold next_fd. apply (map_fold_weak_ind (λ m (G : table), 3 ≤ m ∧ ∀ i, is_Some (G !! i) → i < m)).
  - split; [done|]. by intros i [? ?%lookup_empty_Some].
  - intros k d G m _ [IH1 IH2]. split; [lia|]. intros i [e He].
    apply lookup_insert_Some in He as [[<- _]|[_ He]]; [lia|]. specialize (IH2 i).
    unfold is_Some in IH2. naive_solver lia.
Qed.
Lemma next_fd_fresh F i : next_fd F ≤ i → F !! i = None.
Proof. intros Hi. destruct (next_fd_spec F) as [_ HF]. destruct (F !! i) eqn:E; [|done].
  specialize (HF i). rewrite E in HF. specialize (HF ltac:(eauto)). lia. Qed.
Lemma next_pid_spec K : 100 ≤ next_pid K ∧ ∀ i, i ∈ K → i < next_pid K.
Proof.
  unfold next_pid. apply (set_fold_ind_L (λ m (G : gset Z), 100 ≤ m ∧ ∀ i, i ∈ G → i < m)).
  - split; [done|]. by intros i ?%elem_of_empty.
  - intros k G m _ [IH1 IH2]. split; [lia|]. intros i [->%elem_of_singleton|Hi]%elem_of_union;
      [lia|]. specialize (IH2 i Hi). lia.
Qed.
#[local] Instance toy : System := {|
  world := unit;
  env_path _ := Some "/sbin:/bin"%string;
  ask c F w := (match c with
    | Open path => if bool_decide (path ∈ ["/bin"; "."]%string) then Done (next_fd F) 0 else Fail_ ENOENT
    | Faccessat d f _ _ =>
        if bool_decide (file_ <$> F !! d = Some (Directory "/bin") ∧ f = "true"%string ∨
          f = "/bin/true"%string) then Done 0 0 else Fail_ ENOENT
    | Pipe2 => Done (next_fd F) (next_fd F + 1)
    | Fork K => Done (next_pid K) 0
    | Close fd => if bool_decide (F !! fd = None) then Fail_ EBADF else Done 0 0
    | Sysconf => Done 16 0
    | Waitpid pid (Some ws) _ => Done pid ws
    | Waitpid pid None nohang => if nohang then Done 0 0 else Done pid SIGTERM
    | PidfdOpen _ => if next_fd F <? FD_SETSIZE then Done (next_fd F) 0 else Fail_ 24
    | _ => Done 0 0
    end, w);
|}.
#[local] Instance toy_ok : SystemOk.
Proof.
  split; cbn.
  - intros p F w fd m w'. destruct (next_fd_spec F). case_bool_decide; [|done]. intros [= <- <-].
    split; [lia|by apply next_fd_fresh].
  - intros F w r v w' [= <- <- <-]. destruct (next_fd_spec F).
    split_and!; try lia; apply next_fd_fresh; lia.
  - intros K F w pid m w' [= <- <-]. destruct (next_pid_spec K) as [? HK]. split; [lia|].
    intros ?%HK. lia.
  - intros fd d F w Hfd _. rewrite Hfd. eauto.
  - intros fd F w ->. eauto.
  - intros pid [ws0|] nohang F w r ws w'; [intros [= <- <- <-]; naive_solver|].
    destruct nohang; intros [= <- <- <-]; naive_solver.
  - eauto.
  - intros pid F w fd m w'. destruct (next_fd_spec F). destruct (_ <? _); [|done]. intros [= <- <-].
    split; [lia|by apply next_fd_fresh].
Qed.
Lemma toy_small : small_fds.
Proof. intros pid F w fd m w'. cbn. destruct (Z.ltb_spec (next_fd F) FD_SETSIZE); [|done].
  by intros [= <- <-]. Qed.

(** Standard input, output and error, and a file that programs do not inherit. *)
Definition std_files : table :=
  {[ 0 := Desc (Other 0) false; 1 := Desc (Other 1) false; 2 := Desc (Other 2) false;
    5 := Desc (Other 5) true ]}.
Definition ex_opt : options :=
    Options (Some "true"%string) ["true"%string] [(5, 2)] None false true false.
Definition ex : state := State (Sys (tt : world) std_files) ∅ ∅.
Definition ex0 : state := snd (construct 7 ex).
Definition ex1 : state := snd (start 7 ex_opt ex0).

Lemma ex_plain opt : close_files opt = false → fds opt = [(5, 2)] → plain opt std_files.
Proof. intros Hc Hf. split; [done|]. rewrite Hf. intros p ->%list_elem_of_singleton.
  split; vm_compute; eauto. Qed.
Lemma process_children_owned_witness :
  is_Some (kids ex1 !! 100) ∧ (∃ r s', run_op (Destruct 7) ex1 = (r, s') ∧ r = Ok tt ∧ kids s' = ∅).
Proof.
  assert (R0 : run std_files ex0).
  { apply (run_step _ (Construct 7) (Ok tt) ex);
      [apply run_begin|vm_compute; reflexivity|vm_compute; reflexivity|left; reflexivity]. }
  assert (R1 : run std_files ex1).
  { apply (run_step _ (Start 7 ex_opt) (Ok tt) ex0);
      [exact R0|exists (Obj (-1) 0); split; vm_compute; reflexivity| |left; reflexivity].
    unfold ex1. cbn [run_op]. rewrite (surjective_pairing (start 7 ex_opt ex0)) at 1. f_equal. }
  split; [apply (process_children_owned std_files ex1 toy_small R1); split; [lia|];
    exists 7, (Obj 100 0); split; vm_compute; reflexivity|].
  set (s2 := snd (run_op (Destruct 7) ex1)).
  assert (E : run_op (Destruct 7) ex1 = (Ok tt, s2))
    by (rewrite (surjective_pairing (run_op (Destruct 7) ex1)); f_equal; vm_compute; reflexivity).
  exists (Ok tt), s2. split; [exact E|]. split; [reflexivity|].
  apply (process_children_owned std_files s2 toy_small); [|vm_compute; reflexivity].
  apply (run_step _ (Destruct 7) (Ok tt) ex1); [exact R1|vm_compute; eauto|exact E|left; reflexivity].
Defined.

(** With [close_files] the child also closes the directory of the program and the pipe: the
    program is not executed, the error cannot be reported, and [start] returns as if all
    were well. *)
Example process_close_files_fails :
  let r := start 7 (Options (Some "true"%string) ["true"%string] [(5, 2)] None true true false) ex0 in
  fst r = Ok tt ∧ kids (snd r) !! 100 = Some (Ended SIGABRT).
Proof. vm_compute. done. Qed.
(** A descriptor that is mapped to itself is not inherited if it was to be closed on exec. *)
Example process_same_fd_closed :
  ∃ F, kids (snd
    (start 7 (Options (Some "true"%string) ["true"%string] [(5, 5)] None false true false) ex0)) !!
    100 =
    Some (Runs "true" ["true"%string] F) ∧ F !! 5 = None.
Proof. eexists. vm_compute. done. Qed.
(** A [pidfd] that is too big for [FD_SET]. *)
Lemma process_fd_set_overflow fd sec nsec s : FD_SETSIZE ≤ fd → wait_for fd sec nsec s = (Undef, s).
Proof. intros Hfd. unfold wait_for. assert ((0 <=? fd) && (fd <? FD_SETSIZE) = false) as -> by lia.
  done. Qed.

End Process.
