(* ===== verification/Service.v ===== *)
(** * Services (detail/posix_service.hpp, detail/impl/posix_service.ipp, detail/posix_pid_file.hpp)

    [posix_service::start] makes a daemon: it forks a process, which forks the daemon and
    exits; the daemon prepares itself and reports through a pipe how that went, and the process
    that has called [start] waits for the report, so that it exits or throws what went wrong.

    A program is a tree of system calls ([prog]): it stops, or makes a call and goes on with the
    answer.  The three processes run their programs side by side, each call is a step, and the
    operating system answers as it likes as far as [admits] allows.  Signals may end a
    process at any time.  What the calls do besides their answer is modelled for the pipes,
    [fork] and [waitpid] only. *)

From Stdlib Require Import Ascii.
From S2P Require Import Prelude.

Local Open Scope string_scope.
Local Open Scope Z_scope.

Module Service.

(** ** Programs *)

(** The members that are descriptors of the pipes, and the local ones of [child1]. *)
Inductive field : Type := Rdfd | Wrfd | Rdfd2 | Wrfd2.
Inductive call : Type :=
| Geteuid
| Opendir (path : string)
| Readdir
| Closedir
| Close (fd : Z)
| Getrlimit
| Sigemptyset
| Sigaction (sig : Z) (handled : bool)
| Sigprocmask
| Setenv (name value : string)
| Unsetenv (name : string)
| Pipe2 (second : bool)
| Reset (f : field)
| Fork
| Waitpid
| Setsid
| ReadReport
| ReadEnd
| WriteReport (v : Z)
| Umask
| Strdup
| Chdir (path : string)
| Openat (dirfd : Z) (path : string)
| Mkdirat (dirfd : Z) (path : string)
| Open (path : string)
| Fcntl (unique wait : bool)
| WritePid
| OpenRead (path : string)
| ReadPid
| Kill (pid sig : Z)
| Unlink (path : string)
| ClosePidFile
| Seteuid
| Run.
#[export] Instance field_eq_dec : EqDecision field.
Proof. solve_decision. Defined.
#[export] Instance call_eq_dec : EqDecision call.
Proof. solve_decision. Defined.

(** A result with a further number and the entries of a directory, or an error. *)
Inductive answer : Type :=
| Done (n m : Z) (l : list Z)
| Fail_ (errno : Z).

Inductive prog (A : Type) : Type :=
| Ret (a : A)
| Raise (e : exn)
| Aborts
| Exits (status : Z)
| Spins
| Ask (c : call) (k : answer → prog A).
Arguments Ret {A}.
Arguments Raise {A}.
Arguments Aborts {A}.
Arguments Exits {A}.
Arguments Spins {A}.
Arguments Ask {A}.

#[export] Instance prog_bind : MBind prog := λ A B f, fix go m :=
  match m with
  | Ret a => f a
  | Raise e => Raise e
  | Aborts => Aborts
  | Exits n => Exits n
  | Spins => Spins
  | Ask c k => Ask c (λ a, go (k a))
  end.
Fixpoint try {A} (m : prog A) (h : exn → prog A) : prog A :=
  match m with
  | Raise e => h e
  | Ask c k => Ask c (λ a, try (k a) h)
  | m => m
  end.
(** A scope with destructors. *)
Fixpoint finally {A} (m : prog A) (d : prog unit) : prog A :=
  match m with
  | Ret a => d;; Ret a
  | Raise e => d;; Raise e
  | Ask c k => Ask c (λ a, finally (k a) d)
  | m => m
  end.

Definition assert (b : bool) : prog unit := if b then Ret tt else Aborts.
(** [GPCL_THROW_LAST_ERROR_IF(call < 0)]. *)
Definition must (c : call) : prog Z :=
  Ask c (λ a, match a with Done n _ _ => Ret n | Fail_ e => Raise (system_error e) end).
Definition ignore (c : call) : prog unit := Ask c (λ _, Ret tt).
(** [unique_fd::reset]. *)
Definition reset (f : field) : prog unit :=
  Ask (Reset f) (λ a, match a with Done _ _ _ => Ret tt | Fail_ _ => Aborts end).

Definition EINVAL : Z := 22.
Definition ENOENT : Z := 2.
Definition EEXIST : Z := 17.
Definition EBADF : Z := 9.
Definition ENOMEM : Z := 12.
Definition SIGHUP : Z := 1.
Definition SIGINT : Z := 2.
Definition SIGTERM : Z := 15.
Definition EAGAIN : Z := 11.

(** ** Preparation *)

Fixpoint close_entries (l : list Z) (start dirfd : Z) : prog unit :=
  must Readdir;;
  match l with
  | [] => Ret tt
  | fd :: l =>
      (if (start <=? fd) && negb (fd =? dirfd) then must (Close fd);; Ret tt else Ret tt);;
      close_entries l start dirfd
  end.
Fixpoint close_range (n : nat) (fd : Z) : prog unit :=
  match n with
  | O => Ret tt
  | S n =>
      Ask (Close fd) (λ a, match a with
        | Fail_ e => if (e =? EINVAL) || (e =? EBADF) then Ret tt else Raise (system_error e)
        | Done _ _ _ => Ret tt
        end);;
      close_range n (fd + 1)
  end.
Definition close_all_fd (start : Z) : prog unit :=
  Ask (Opendir "/proc/self/fd") (λ a, match a with
    | Done _ dirfd l => finally (close_entries l start dirfd) (ignore Closedir)
    | Fail_ _ =>
        fd_max ← try (must Getrlimit) (λ _, Ret 8192);
        close_range (Z.to_nat (fd_max - start)) start
    end).

(** [_NSIG] is 65. *)
Fixpoint reset_handlers (n : nat) (sig : Z) : prog unit :=
  match n with
  | O => Ret tt
  | S n =>
      must Sigemptyset;;
      Ask (Sigaction sig false) (λ a, match a with
        | Fail_ e => if e =? EINVAL then Ret tt else Raise (system_error e)
        | Done _ _ _ => Ret tt
        end);;
      reset_handlers n (sig + 1)
  end.
Definition reset_signal_handlers : prog unit := reset_handlers 64 1.
Definition reset_signal_mask : prog unit := must Sigemptyset;; must Sigprocmask;; Ret tt.

Definition envvars : list (string * option string) := [
  ("LD_PRELOAD", None); ("PATH", Some "/usr/bin:/bin"); ("LD_LIBRARY_PATH", None);
  ("LC_ALL", Some "C"); ("DISPLAY", None); ("WAYLAND_DISPLAY", None); ("XDG_RUNTIME_DIR", None);
  ("XDG_CONFIG_DIR", None); ("SHELL", None); ("EDITOR", None); ("HOME", None);
  ("LANG", Some "en_US.UTF-8"); ("XDG_SESSION_CLASS", None); ("XDG_SESSION_ID", None);
  ("XDG_SESSION_TYPE", None)].
Fixpoint set_all (l : list (string * option string)) : prog unit :=
  match l with
  | [] => Ret tt
  | (name, Some value) :: l => must (Setenv name value);; set_all l
  | (name, None) :: l => must (Unsetenv name);; set_all l
  end.
Definition sanitize_environ : prog unit := set_all envvars.

Definition install_service_signal_handler : prog unit :=
  must Sigemptyset;;
  must (Sigaction SIGINT true);;
  must (Sigaction SIGTERM true);;
  must (Sigaction SIGHUP true);;
  Ret tt.

(** ** Directories *)

Definition AT_FDCWD : Z := -100.
(** The end of [mkdir_with_parents], at [err]. *)
Definition mkdir_end (errno fd dirfd : Z) : prog Z :=
  (if 0 <=? fd then ignore (Close fd) else Ret tt);;
  (if 0 <=? dirfd then ignore (Close dirfd) else Ret tt);;
  Ret (- errno).
(** The loop over the names between the slashes. *)
Fixpoint mkdir_loop (fuel : nat) (names : list string) (fd dirfd : Z) : prog Z :=
  match fuel with
  | O => Spins
  | S fuel =>
      match names with
      | [] => mkdir_end 0 fd dirfd
      | p :: next =>
          if decide (p = "") then mkdir_loop fuel next fd dirfd else
          Ask (Openat dirfd p) (λ a, match a with
            | Done fd' _ _ =>
                (if 0 <=? dirfd then ignore (Close dirfd) else Ret tt);;
                mkdir_loop fuel next fd' fd'
            | Fail_ e =>
                if e =? ENOENT then
                  Ask (Mkdirat dirfd p) (λ b, match b with
                    | Done _ _ _ => mkdir_loop fuel names (-1) dirfd
                    | Fail_ e' => if e' =? EEXIST then mkdir_loop fuel names (-1) dirfd else
                      mkdir_end e' (-1) dirfd
                    end)
                else mkdir_end e (-1) dirfd
            end)
      end
  end.
Fixpoint names_of (cur : string) (path : string) : list string :=
  match path with
  | EmptyString => [cur]
  | String c path =>
      if Ascii.eqb c "/"%char then cur :: names_of "" path else names_of
        (cur ++ String c EmptyString) path
  end.
Definition mkdir_with_parents (fuel : nat) (path : string) : prog Z :=
  Ask Strdup (λ a, match a with
    | Fail_ e => Ret (- e)
    | Done _ _ _ => mkdir_loop fuel (names_of "" path) (-1) AT_FDCWD
    end).

Section service.
(** [retries] bounds the iterations of [mkdir_with_parents]; a loop that needs more goes on
    for ever ([Spins]). *)
Context (retries : nat) (name : string).

Definition pid_file : string := "/run/" ++ name ++ ".pid".
Definition err_file : string := "/var/log/" ++ name ++ "/err.log".
Definition out_file : string := "/var/log/" ++ name ++ "/out.log".
(** [dirname] of it. *)
Definition out_dir : string := "/var/log/" ++ name.

(** ** The file with the number of the daemon *)

Definition lock_file_impl (fd : Z) (unique wait : bool) : prog unit :=
  assert (0 <? fd);; must (Fcntl unique wait);; Ret tt.
Definition lock_unique (fd : Z) : prog unit := lock_file_impl fd true false.
Definition lock_shared (fd : Z) : prog unit := lock_file_impl fd false false.
Definition lock_shared_wait (fd : Z) : prog unit := lock_file_impl fd false true.
(** A destructor does not throw. *)
Definition noexcept (m : prog unit) : prog unit := try m (λ _, Aborts).
Definition do_write_pid : prog unit := must WritePid;; Ret tt.
Definition write_pid (fd : Z) : prog unit :=
  lock_unique fd;; finally do_write_pid (noexcept (lock_shared fd)).
(** [posix_pid_file(path)]; a constructor that throws destroys the member [f_]. *)
Definition posix_pid_file (path : string) : prog unit :=
  fd ← must (Open path);
  try (write_pid fd) (λ e, ignore ClosePidFile;; Raise e).
(** [~posix_pid_file]; the object knows its file, which is open. *)
Definition drop_pid_file : prog unit :=
  try (must (Fcntl true false);; Ret tt) (λ _, Ret tt);; ignore (Unlink pid_file);; ignore ClosePidFile.

(** ** The three processes *)

Definition write_error (ec : Z) : prog unit :=
  must (WriteReport ec);;
  if negb (ec =? 0) then Exits 1 else reset Wrfd.
Definition parent : prog unit :=
  reset Wrfd;;
  must Waitpid;;
  Ask ReadReport (λ a, match a with
    | Fail_ e => Raise (system_error e)
    | Done len error _ =>
        if negb (len =? 4) then Raise (system_error EINVAL)
        else if negb (error =? 0) then Raise (system_error error)
        else Exits 0
    end).
Definition verify_open (path : string) (fd : Z) : prog unit :=
  Ask (Open path) (λ a, match a with Done n _ _ => assert (n =? fd) | Fail_ _ => Aborts end).
Definition make_dir : prog unit :=
  r ← mkdir_with_parents retries out_dir;
  if r <? 0 then Raise (system_error (- r)) else Ret tt.
Definition child2 : prog unit :=
  ignore Umask;;
  must (Chdir "/");;
  make_dir;;
  make_dir;;
  must (Close 0);;
  must (Close 1);;
  must (Close 2);;
  verify_open "/dev/null" 0;;
  verify_open out_file 1;;
  verify_open err_file 2;;
  posix_pid_file pid_file.
Definition make_pipe (second : bool) : prog unit :=
  Ask (Pipe2 second) (λ a, match a with
    | Done r w _ => assert (3 <=? r);; assert (3 <=? w)
    | Fail_ e => Raise (system_error e)
    end).
Definition handler (e : exn) : prog unit :=
  match e with
  | system_error c => write_error c
  | bad_alloc => write_error ENOMEM
  | _ => write_error EINVAL
  end.
Definition child1 : prog unit :=
  try
    (reset Rdfd;;
     make_pipe true;;
     finally
       (must Setsid;;
        pid ← must Fork;
        if 0 <? pid then Exits 0 else
        reset Wrfd2;;
        must ReadEnd;;
        child2)
       (reset Wrfd2;; reset Rdfd2))
    handler.
(** [notify_success] and [do_start]. *)
Definition do_start : prog unit := write_error 0.
(** [start] in the child processes. *)
Definition daemon : prog unit :=
  child1;;
  (must Seteuid;; install_service_signal_handler);;
  do_start;;
  Ask Run (λ a, match a with
    | Fail_ _ => Aborts
    | Done need_restart _ _ =>
        must Seteuid;;
        if negb (need_restart =? 0) then Ret tt else Exits 0
    end).
(** From [l_restart] on; the program that returns goes there again. *)
Definition start (restarted : bool) : prog unit :=
  (if restarted then drop_pid_file else ignore Geteuid);;
  reset Rdfd;;
  reset Wrfd;;
  close_all_fd 3;;
  reset_signal_handlers;;
  reset_signal_mask;;
  sanitize_environ;;
  make_pipe false;;
  pid ← must Fork;
  if 0 <? pid then parent else daemon.

(** [posix_pid_file(path, false)]: the file is only read. *)
Definition open_pid_file (path : string) : prog Z := must (OpenRead path).
(** The further number of the answer is what [atoi] makes of the file (see [PidFile]). *)
Definition do_read_pid : prog Z :=
  Ask ReadPid (λ a, match a with
    | Fail_ e => Raise (system_error e)
    | Done _ pid _ => if pid <=? 0 then Raise (system_error EAGAIN) else Ret pid
    end).
Definition read_pid (fd : Z) : prog Z := lock_shared_wait fd;; do_read_pid.
(** The common part of [stop] and [restart]. *)
Definition signal_daemon (sig : Z) : prog unit :=
  fd ← open_pid_file pid_file;
  finally (pid ← read_pid fd; must (Kill pid sig);; Ret tt) (ignore ClosePidFile).
Definition stop : prog unit := signal_daemon SIGTERM.
Definition restart : prog unit := try (signal_daemon SIGHUP) (λ _, start false).
End service.

(** ** The system *)

(** What a process is doing: it runs, an exception has left [start] and its program goes on
    elsewhere, it starts again, or it has ended. *)
Inductive ending : Type := Exited (status : Z) | Killed.
Inductive status : Type :=
| Absent
| Runs (p : prog unit)
| Threw (e : exn)
| Again
| Gone (how : ending).
(** [past]: the calls it has made since the fork in [start] and their answers, the last one
    first; [wr] and [wr2]: it has the ends for writing of the two pipes open. *)
Record proc : Type := Proc { code : status; past : list (call * answer); wr : bool; wr2 : bool }.
Inductive role : Type := Starter | First | Second.
#[export] Instance role_eq_dec : EqDecision role.
Proof. solve_decision. Defined.
Record system : Type := System { starter : proc; first_ : proc; second_ : proc; report : list Z }.

Definition get (r : role) (y : system) : proc :=
  match r with Starter => starter y | First => first_ y | Second => second_ y end.
Definition set (r : role) (x : proc) (y : system) : system :=
  match r with
  | Starter => System x (first_ y) (second_ y) (report y)
  | First => System (starter y) x (second_ y) (report y)
  | Second => System (starter y) (first_ y) x (report y)
  end.
Definition set_report (l : list Z) (y : system) : system := System (starter y) (first_ y) (second_ y) l.
Definition child_of (r : role) : option role :=
  match r with Starter => Some First | First => Some Second | Second => None end.

(** The end of a program closes what the process has open. *)
Definition settle (p : prog unit) (h : list (call * answer)) (w w2 : bool) : proc :=
  match p with
  | Ret _ => Proc Again h w w2
  | Raise e => Proc (Threw e) h w w2
  | Aborts => Proc (Gone Killed) h false false
  | Exits n => Proc (Gone (Exited n)) h false false
  | Spins | Ask _ _ => Proc (Runs p) h w w2
  end.
Definition killed (x : proc) : proc := Proc (Gone Killed) (past x) false false.

Definition absent (x : proc) : bool := match code x with Absent => true | _ => false end.
Definition gone (x : proc) : bool := match code x with Gone _ => true | _ => false end.
(** How the operating system may answer: a pipe is read when there is something in it, or no
    process has it open for writing; what is written to a pipe is written as a whole; [waitpid]
    returns when the child has ended. *)
Definition admits (y : system) (r : role) (c : call) (a : answer) : bool :=
  match a with
  | Fail_ e => 0 <? e
  | Done n m _ =>
      match c with
      | Fork => (0 <? n) && match child_of r with Some r' => absent (get r' y) | None => false end
      | Waitpid => gone (first_ y)
      | ReadReport =>
          match report y with
          | v :: _ => (n =? 4) && (m =? v)
          | [] => (n =? 0) && negb (wr (starter y) || wr (first_ y) || wr (second_ y))
          end
      | ReadEnd => (n =? 0) && negb (wr2 (first_ y) || wr2 (second_ y))
      | WriteReport _ => (n =? 4) && wr (get r y)
      | _ => 0 <=? n
      end
  end.
(** What the call [c], answered by [a], does to the descriptors of the process and to the pipe. *)
Definition wr_after (c : call) (a : answer) (w : bool) : bool :=
  match c, a with Pipe2 false, Done _ _ _ => true | Reset Wrfd, _ => false | _, _ => w end.
Definition wr2_after (c : call) (a : answer) (w : bool) : bool :=
  match c, a with Pipe2 true, Done _ _ _ => true | Reset Wrfd2, _ => false | _, _ => w end.
Definition report_after (c : call) (a : answer) (l : list Z) : list Z :=
  match c, a with
  | WriteReport v, Done _ _ _ => l ++ [v]
  | ReadReport, Done _ _ _ => tail l
  | _, _ => l
  end.
Definition after (x : proc) (c : call) (a : answer) (p : prog unit) (h : list (call * answer)) : proc :=
  settle p h (wr_after c a (wr x)) (wr2_after c a (wr2 x)).
(** The process goes on; [fork] also makes the child, with the descriptors of its parent. *)
Definition answered (y : system) (r : role) (c : call) (k : answer → prog unit) (a : answer) : system :=
  let x := get r y in
  let y' := set_report (report_after c a (report y)) (set r (after x c a (k a) ((c, a) :: past x)) y) in
  match c, a, child_of r with
  | Fork, Done _ m l, Some r' =>
      let born := Done 0 m l in
      let h := match r with Starter => [] | _ => (c, born) :: past x end in
      set r' (after x c born (k born) h) y'
  | _, _, _ => y'
  end.
Inductive event : Type := Answer (a : answer) | Signal.
Definition step (r : role) (e : event) (y : system) : option system :=
  match e, code (get r y) with
  | Answer a, Runs (Ask c k) => if admits y r c a then Some (answered y r c k a) else None
  | Signal, (Runs _ | Threw _) => Some (set r (killed (get r y)) y)
  | _, _ => None
  end.
Definition nobody : proc := Proc Absent [] false false.
Definition initial (p : prog unit) : system := System (settle p [] false false) nobody nobody [].
Inductive reachable (p : prog unit) : system → Prop :=
  | reachable_initial : reachable p (initial p)
  | reachable_step y r e y' : reachable p y → step r e y = Some y' → reachable p y'.

(** ** What a program does *)

Abbreviation hist := (list (call * answer)).
Definition did (h : hist) (c : call) : Prop := ∃ n m l, (c, Done n m l) ∈ h.
Definition no_report (h : hist) : Prop := ∀ v a, (WriteReport v, a) ∉ h.
(** An exception is the error of a call. *)
Definition failed (h : hist) (e : exn) : Prop := ∃ x c, e = system_error x ∧ x ≠ 0 ∧ (c, Fail_ x) ∈ h.
Definition proper (a : answer) : Prop := match a with Fail_ e => 0 < e | Done _ _ _ => True end.

Section wp.
(** What a daemon must have done before it reports success. *)
Context (required : list call).

(** The process that has called [start], in front of and behind the fork, and the others. *)
Inductive mode : Type := Before | Child | After.
(** It has the end of the first pipe for writing open. *)
Fixpoint holds_wr (h : hist) : bool :=
  match h with [] => false | (c, a) :: h => wr_after c a (holds_wr h) end.
(** A report is backed by what was done. *)
Definition backed (h : hist) (v : Z) : Prop :=
  (v = 0 → Forall (did h) required) ∧ (v ≠ 0 → ∃ c, (c, Fail_ v) ∈ h).
(** The calls that the processes may make, but for the first fork. *)
Definition call_ok {A} (child : mode) (h : hist) (c : call) (k : answer → prog A) : Prop :=
  match c with
  | WriteReport v => child = Child ∧ no_report h ∧ backed h v ∧
    (v ≠ 0 → ∀ n m l, k (Done n m l) = Exits 1)
  | Fork => child = Child ∧ no_report h ∧ ∀ n m l, 0 < n → k (Done n m l) = Exits 0
  | Pipe2 second => child = if second then Child else Before
  | Run => child = Child ∧ did h (WriteReport 0)
  | ReadEnd => child = Child
  | ReadReport => child = After ∧ holds_wr h = false ∧ ∀ a, (ReadReport, a) ∉ h
  | Waitpid => child = After
  | _ => True
  end.
Fixpoint wp {A} (child : mode) (p : prog A) (h : hist) (Q : hist → A → Prop) (T : hist → exn →
    Prop) : Prop :=
  match p with
  | Ret a => Q h a
  | Raise e => T h e
  | Exits n =>
      match child with
      | Before => False
      | Child => True
      | After => n = 0 ∧ ∃ l, (ReadReport, Done 4 0 l) ∈ h
      end
  | Aborts | Spins => True
  | Ask c k => call_ok child h c k ∧ ∀ a, proper a → wp child (k a) ((c, a) :: h) Q T
  end.

Lemma call_ok_map {A B} child h c (k : answer → prog A) (F : prog A → prog B) :
  (∀ n, F (Exits n) = Exits n) → call_ok child h c k → call_ok child h c (λ a, F (k a)).
Proof.
  intros HF. destruct c; cbn; try done.
  - intros (? & ? & Hk). split_and!; try done. intros n m l Hn. by rewrite Hk.
  - intros (? & ? & ? & Hk). split_and!; try done. intros Hv n m l. by rewrite Hk.
Qed.
Lemma svc_wp_mono {A} child (p : prog A) h (Q Q' : hist → A → Prop) (T T' : hist → exn → Prop) :
  wp child p h Q T → (∀ h' a, Q h' a → Q' h' a) → (∀ h' e, T h' e → T' h' e) → wp child p h Q' T'.
Proof. revert h. induction p as [| | | | |c k IH]; intros h; cbn; try done; [auto|auto|].
  intros [H1 H2] HQ HT. auto. Qed.
Lemma svc_wp_bind {A B} child (p : prog A) (f : A → prog B) h Q T :
  wp child p h (λ h' a, wp child (f a) h' Q T) T → wp child (p ≫= f) h Q T.
Proof.
  revert h. induction p as [| | | | |c k IH]; intros h; cbn; try done. intros [H1 H2].
  split; [|auto]. by apply (call_ok_map child h c k (mbind f)).
Qed.
Lemma svc_wp_try {A} child (p : prog A) g h Q T :
  wp child p h Q (λ h' e, wp child (g e) h' Q T) → wp child (try p g) h Q T.
Proof.
  revert h. induction p as [| | | | |c k IH]; intros h; cbn; try done. intros [H1 H2].
  split; [|auto]. by apply (call_ok_map child h c k (λ p, try p g)).
Qed.
Lemma wp_finally {A} child (p : prog A) d h Q T :
  wp child p h (λ h' a, wp child d h' (λ h'' _, Q h'' a) T) (λ h' e,
    wp child d h' (λ h'' _, T h'' e) T) →
  wp child (finally p d) h Q T.
Proof.
  revert h. induction p as [| | | | |c k IH]; intros h; cbn [wp finally]; try done;
    [intros Hd; apply svc_wp_bind; exact Hd..|]. intros [H1 H2].
  split; [|auto]. by apply (call_ok_map child h c k (λ p, finally p d)).
Qed.

(** [m] makes no report, and if it returns it has done [D]. *)
Definition returns {A} (h : hist) (D : list call) (h' : hist) (_ : A) : Prop :=
  no_report h' ∧ h ⊆ h' ∧ Forall (did h') D.
Definition raises (h h' : hist) (e : exn) : Prop := no_report h' ∧ h ⊆ h' ∧ failed h' e.
Definition does {A} (m : prog A) (D : list call) : Prop :=
  ∀ child h, no_report h → wp child m h (returns h D) (raises h).
Lemma did_mono h h' c : h ⊆ h' → did h c → did h' c.
Proof. intros Hs (n & m & l & Hc). exists n, m, l. auto. Qed.
Lemma no_report_cons h c a : no_report h → (∀ v, c ≠ WriteReport v) → no_report ((c, a) :: h).
Proof. intros Hh Hc v b [[= E _]|Hin]%elem_of_cons; [by apply (Hc v)|by apply (Hh v b)]. Qed.
(** The calls that any process may make. *)
Definition plain (c : call) : Prop :=
  match c with WriteReport _ | Fork | Pipe2 _ | Run | ReadEnd | ReadReport | Waitpid => False | _ =>
    True end.
Lemma plain_ok {A} child h c (k : answer → prog A) : plain c → call_ok child h c k ∧
    ∀ v, c ≠ WriteReport v.
Proof. destruct c; try done; by split. Qed.
Lemma returns_later {A} h h1 D0 D h2 (a : A) :
  h ⊆ h1 → Forall (did h1) D0 → returns h1 D h2 a → returns h (D0 ++ D) h2 a.
Proof.
  intros Hs HD0 (H2 & Hs2 & HD). split_and!; [done|by etrans|]. apply Forall_app. split; [|done].
  eapply Forall_impl; [exact HD0|]. intros c. by apply did_mono.
Qed.
Lemma raises_later h h1 h2 e : h ⊆ h1 → raises h1 h2 e → raises h h2 e.
Proof. intros Hs (? & ? & ?). split_and!; [done|by etrans|done]. Qed.
Lemma does_ask {A} c (k : answer → prog A) D :
  plain c → (∀ n m l child h, no_report h → did h c →
    wp child (k (Done n m l)) h (returns h D) (raises h)) →
  (∀ e child h, no_report h → e ≠ 0 → (c, Fail_ e) ∈ h →
    wp child (k (Fail_ e)) h (returns h D) (raises h)) →
  does (Ask c k) D.
Proof.
  intros Hp Hd Hf child h Hh. destruct (plain_ok child h c k Hp) as [Hok Hw]. split; [done|].
  intros a Ha.
  assert (Hh' : no_report ((c, a) :: h)) by (by apply no_report_cons).
  assert (Hs : h ⊆ (c, a) :: h) by set_solver.
  apply (svc_wp_mono child _ _ (returns ((c, a) :: h) D) _ (raises ((c, a) :: h)));
    [|intros h'' x; by apply (returns_later h _ [] D)|intros h'' x; by apply raises_later].
  destruct a as [n m l|e].
  - apply Hd; [done|]. exists n, m, l. by left.
  - apply Hf; [done|cbn in Ha; lia|by left].
Qed.
Lemma does_ret {A} (a : A) : does (Ret a) [].
Proof. by intros child h Hh. Qed.
Lemma does_aborts {A} D : does (Aborts : prog A) D.
Proof. by intros child h Hh. Qed.
Lemma does_bind {A B} (m : prog A) (f : A → prog B) D1 D2 :
  does m D1 → (∀ a, does (f a) D2) → does (m ≫= f) (D1 ++ D2).
Proof.
  intros Hm Hf child h Hh. apply svc_wp_bind. eapply svc_wp_mono; [by apply Hm| |done].
  intros h1 a (H1 & Hs1 & HD1).
  eapply svc_wp_mono; [by apply Hf|intros h2 b; by apply returns_later|intros h2 e;
    by apply raises_later].
Qed.
Lemma does_less {A} (m : prog A) D D' : does m D → D' ⊆ D → does m D'.
Proof.
  intros Hm HD child h Hh. eapply svc_wp_mono; [by apply Hm| |done]. intros h1 a (H1 & Hs1 & HD1).
  split_and!; [done|done|]. rewrite Forall_forall in *. auto.
Qed.
Lemma does_then {A B} (m : prog A) (f : A → prog B) D : does m [] → (∀ a, does (f a) D) →
    does (m ≫= f) D.
Proof. apply (does_bind m f [] D). Qed.
Lemma does_call {A} c (k : answer → prog A) D :
  plain c → (∀ n m l, does (k (Done n m l)) D) →
    (∀ e, k (Fail_ e) = Raise (system_error e) ∨ k (Fail_ e) = Aborts) →
  does (Ask c k) (c :: D).
Proof.
  intros Hp Hd Hf. apply does_ask; [done| |].
  - intros n m l child h Hh Hc. eapply svc_wp_mono; [by apply Hd| |done].
    intros h1 a. by apply (returns_later h h [c] D); auto.
  - intros e child h Hh He Hc. destruct (Hf e) as [-> | ->]; [|done]. split_and!; [done|done|].
    by exists e, c.
Qed.
Lemma does_any {A} c (k : answer → prog A) : plain c → (∀ a, does (k a) []) → does (Ask c k) [].
Proof. intros Hp Hk. apply does_ask; [done| |]; intros; by apply Hk. Qed.
Lemma does_must c : plain c → does (must c) [c].
Proof. intros Hp. apply does_call; [done|intros; apply does_ret|by left]. Qed.
Lemma does_must_then {B} c (f : Z → prog B) D : plain c → (∀ n, does (f n) D) →
    does (must c ≫= f) (c :: D).
Proof. intros Hp Hf. apply (does_bind (must c) f [c] D); [by apply does_must|done]. Qed.
Lemma does_ignore c : plain c → does (ignore c) [].
Proof. intros Hp. apply does_any; [done|]. intros. apply does_ret. Qed.
Lemma does_reset f : does (reset f) [].
Proof. apply does_any; [done|]. intros [|]; [apply does_ret|apply does_aborts]. Qed.
Lemma does_assert b : does (assert b) [].
Proof. destruct b; [apply does_ret|apply does_aborts]. Qed.
Lemma does_finally {A} (m : prog A) d D : does m D → does d [] → does (finally m d) D.
Proof.
  intros Hm Hd child h Hh. apply wp_finally. eapply svc_wp_mono; [by apply Hm| |].
  - intros h1 a (H1 & Hs1 & HD1). eapply svc_wp_mono; [by apply Hd| |intros h2 e; by apply raises_later].
    intros h2 b Hr. rewrite <-(app_nil_r D). by apply (returns_later h h1 D []).
  - intros h1 e (H1 & Hs1 & x & c & He & Hx & Hc).
    eapply svc_wp_mono; [by apply Hd| |intros h2 e'; by apply raises_later].
    intros h2 b (H2 & Hs2 & _). split_and!; [done|by etrans|]. exists x, c. auto.
Qed.
Lemma does_try {A} (m : prog A) g D :
  does m D → (∀ e child h, no_report h → failed h e → wp child (g e) h (returns h D) (raises h)) →
    does (try m g) D.
Proof.
  intros Hm Hg child h Hh. apply svc_wp_try. eapply svc_wp_mono; [by apply Hm|done|].
  intros h1 e (H1 & Hs1 & Hf).
  eapply svc_wp_mono; [by apply Hg|intros h2 b; by apply (returns_later h h1 [] D)|intros h2 e';
    by apply raises_later].
Qed.
Lemma does_must_ c : plain c → does (must c) [].
Proof. intros Hp. apply (does_less _ [c]); [by apply does_must|set_solver]. Qed.
(** A call whose errors are ignored or thrown. *)
Lemma does_ask_ {A} c (k : answer → prog A) :
  plain c → (∀ n m l, does (k (Done n m l)) []) →
  (∀ e, does (k (Fail_ e)) [] ∨ k (Fail_ e) = Raise (system_error e)) → does (Ask c k) [].
Proof.
  intros Hp Hd Hf. apply does_ask; [done|intros; by apply Hd|]. intros e child h Hh He Hc.
  destruct (Hf e) as [Hk| ->]; [by apply Hk|]. split_and!; [done|done|]. by exists e, c.
Qed.
Ltac doing := repeat first
  [ apply does_ret | apply does_aborts | apply does_reset | apply does_assert
  | apply does_must_; exact I | apply does_ignore; exact I | apply does_then; [|intros]
  | match goal with |- does (if ?b then _ else _) _ => destruct b end ].

Lemma does_close_entries l start dirfd : does (close_entries l start dirfd) [].
Proof. induction l as [|fd l IH]; cbn [close_entries]; doing. done. Qed.
Lemma does_close_range n fd : does (close_range n fd) [].
Proof.
  revert fd. induction n as [|n IH]; intros fd; cbn [close_range]; doing; [|done].
  apply does_ask_; [done|intros; doing|].
  intros e. cbv beta iota. destruct ((e =? EINVAL) || (e =? EBADF)); [left; doing|by right].
Qed.
Lemma does_close_all_fd start : does (close_all_fd start) [].
Proof.
  apply does_any; [done|]. intros [n m l|e].
  - apply does_finally; [apply does_close_entries|doing].
  - apply does_then; [|intros; apply does_close_range]. apply does_try; [doing|].
    intros e' child h Hh _. by apply does_ret.
Qed.
Lemma does_reset_handlers n sig : does (reset_handlers n sig) [].
Proof.
  revert sig. induction n as [|n IH]; intros sig; cbn [reset_handlers]; doing; [|done].
  apply does_ask_; [done|intros; doing|].
  intros e. cbv beta iota. destruct (e =? EINVAL); [left; doing|by right].
Qed.
Lemma does_set_all l : does (set_all l) [].
Proof. induction l as [|[name [value|]] l IH]; cbn [set_all]; doing; done. Qed.

(** [mkdir_with_parents] returns minus the error of a call, or zero. *)
Definition returned (h h' : hist) (r : Z) : Prop := returns h [] h' r ∧
    (r = 0 ∨ r < 0 ∧ ∃ c, (c, Fail_ (- r)) ∈ h').
Lemma mkdir_end_wp child errno fd dirfd h :
  no_report h → (errno = 0 ∨ 0 < errno ∧ ∃ c, (c, Fail_ errno) ∈ h) →
  wp child (mkdir_end errno fd dirfd) h (returned h) (raises h).
Proof.
  intros Hh He. unfold mkdir_end. apply svc_wp_bind.
  assert (Hc : ∀ fd, does (if 0 <=? fd then ignore (Close fd) else Ret tt) []) by (intros; doing).
  eapply svc_wp_mono; [by apply Hc| |done]. intros h1 _ (H1 & Hs1 & _). apply svc_wp_bind.
  eapply svc_wp_mono; [by apply Hc| |intros h2 e; by apply raises_later]. intros h2 _ (H2 & Hs2 & _).
  split; [split_and!; [done|by etrans|done]|]. destruct He as [->|[Hp [c Hin]]]; [by left|right].
  split; [lia|].
  exists c. replace (- - errno) with errno by lia. auto.
Qed.
Lemma returned_later h h1 h2 r : h ⊆ h1 → returned h1 h2 r → returned h h2 r.
Proof. intros Hs [Hr Hc]. split; [by apply (returns_later h h1 [] [])|done]. Qed.
Lemma returned_ask child c a m h :
  plain c → (∀ h1, no_report h1 → (c, a) ∈ h1 → wp child m h1 (returned h1) (raises h1)) →
  no_report h → wp child m ((c, a) :: h) (returned h) (raises h).
Proof.
  intros Hp Hm H1. destruct (plain_ok child h c (λ _, Ret tt) Hp) as [_ Hw].
  eapply svc_wp_mono; [apply Hm; [by apply no_report_cons|by left]|intros h2 r;
    apply returned_later; set_solver|intros h2 e; apply raises_later; set_solver].
Qed.
Lemma mkdir_loop_wp child fuel : ∀ names fd dirfd h,
  no_report h → wp child (mkdir_loop fuel names fd dirfd) h (returned h) (raises h).
Proof.
  induction fuel as [|fuel IH]; intros names fd dirfd h Hh; [done|]. cbn [mkdir_loop].
  destruct names as [|p next]; [apply mkdir_end_wp; [done|by left]|]. case_decide; [by apply IH|].
  split; [done|]. intros [fd' ? ?|e] Ha; apply returned_ask; try done; intros h1 H1 Hin.
  - apply svc_wp_bind. assert (Hc : does (if 0 <=? dirfd then ignore (Close dirfd) else Ret tt) [])
      by doing.
    eapply svc_wp_mono; [by apply Hc| |done]. intros h2 _ (H2 & Hs2 & _).
    eapply svc_wp_mono; [by apply IH|intros h3 r; by apply returned_later|intros h3 e;
      by apply raises_later].
  - cbn in Ha. destruct (e =? ENOENT); [|apply mkdir_end_wp; eauto]. split; [done|].
    intros [n m l|e'] Ha'; apply returned_ask; try done; intros h2 H2 Hin2; [by apply IH|].
    cbn in Ha'. destruct (e' =? EEXIST); [by apply IH|apply mkdir_end_wp; eauto].
Qed.
Lemma mkdir_with_parents_wp child fuel path h :
  no_report h → wp child (mkdir_with_parents fuel path) h (returned h) (raises h).
Proof.
  intros Hh. split; [done|]. intros [n m l|e] Ha; apply returned_ask; try done; intros h1 H1 Hin.
  - by apply mkdir_loop_wp.
  - cbn in Ha. split; [done|]. right. split; [lia|]. exists Strdup. by rewrite Z.opp_involutive.
Qed.
Lemma does_make_dir retries name : does (make_dir retries name) [].
Proof.
  intros child h Hh. apply svc_wp_bind. eapply svc_wp_mono; [by apply mkdir_with_parents_wp| |done].
  intros h1 r [(H1 & Hs1 & _) Hr].
  destruct (Z.ltb_spec r 0); [|done]. destruct Hr as [->|[_ [c Hc]]]; [lia|].
  split_and!; [done|done|]. exists (- r), c. split_and!; [done|lia|done].
Qed.

Lemma does_lock fd unique wait : does (lock_file_impl fd unique wait) [Fcntl unique wait].
Proof. apply does_then; [doing|]. intros _. apply does_must_then; [done|]. intros. apply does_ret. Qed.
Lemma does_write_pid fd : does (write_pid fd) [Fcntl true false; WritePid].
Proof.
  apply (does_bind _ _ [Fcntl true false]); [apply does_lock|]. intros _. apply does_finally.
  - apply does_must_then; [done|]. intros. apply does_ret.
  - apply does_try; [apply (does_less _ [Fcntl false false]); [apply does_lock|set_solver]|]. done.
Qed.
Lemma does_pid_file path : does (posix_pid_file path) [Open path; Fcntl true false; WritePid].
Proof.
  apply does_must_then; [done|]. intros fd. apply does_try; [apply does_write_pid|].
  intros e child h Hh Hf.
  apply svc_wp_bind. assert (Hc : does (ignore ClosePidFile) []) by doing.
  eapply svc_wp_mono; [by apply Hc| |done].
  intros h1 _ (H1 & Hs1 & _). split_and!; [done|done|]. destruct Hf as (x & c & -> & Hx & Hin).
  exists x, c. auto.
Qed.
Lemma does_verify path fd : does (verify_open path fd) [Open path].
Proof. apply does_call; [done|intros; doing|by right]. Qed.
Definition child2_calls (name : string) : list call := [
  Chdir "/"; Close 0; Close 1; Close 2; Open "/dev/null"; Open (out_file name); Open (err_file name);
  Open (pid_file name); Fcntl true false; WritePid].
Lemma does_child2 retries name : does (child2 retries name) (child2_calls name).
Proof.
  unfold child2, child2_calls. apply does_then; [doing|intros _]. apply does_must_then; [done|intros _].
  do 2 (apply does_then; [apply does_make_dir|intros _]). do 3 (apply does_must_then; [done|intros _]).
  do 3 (apply (does_bind _ _ [_]); [apply does_verify|intros _]). apply does_pid_file.
Qed.

(** ** The child processes *)

Lemma make_pipe_wp (second : bool) h : no_report h →
  wp (if second then Child else Before) (make_pipe second) h (returns h []) (raises h).
Proof.
  set (child := if second then Child else Before). intros Hh. split; [done|]. intros [n m l|e] Ha.
  - assert (Hd : does (assert (3 <=? n);; assert (3 <=? m)) []) by doing.
    eapply svc_wp_mono; [apply (Hd child ((Pipe2 second, Done n m l) :: h)); by apply no_report_cons| |].
    + intros h1 a. apply (returns_later h _ [] []); [set_solver|done].
    + intros h1 e. apply raises_later. set_solver.
  - cbn in Ha. split_and!; [by apply no_report_cons|set_solver|].
    exists e, (Pipe2 second). split_and!; [done|lia|by left].
Qed.
(** The handlers of [child1] report the error and end the process. *)
Lemma handler_wp h e Q : no_report h → failed h e → wp Child (handler e) h Q (λ _ _, True).
Proof.
  intros Hh (x & c & -> & Hx & Hc). unfold handler, write_error. rewrite (proj2 (Z.eqb_neq x 0) Hx).
  split; [|by intros [|]]. split_and!; try done. split; [done|]. intros _. by exists c.
Qed.
Lemma child1_wp retries name h :
  no_report h →
  wp Child (child1 retries name) h (λ h' _, no_report h' ∧
    Forall (did h') (Setsid :: Fork :: child2_calls name)) (λ _ _, True).
Proof.
  intros Hh. unfold child1. apply svc_wp_try.
  apply (svc_wp_mono Child _ _ (λ h' _, no_report h' ∧
    Forall (did h') (Setsid :: Fork :: child2_calls name)) _ (λ h' e, no_report h' ∧ failed h' e));
    [|done|intros h' e [??]; by apply handler_wp].
  apply svc_wp_bind. eapply svc_wp_mono; [by apply does_reset| |by intros h' e (? & _ & ?)].
  intros h1 _ (H1 & _ & _).
  apply svc_wp_bind. eapply svc_wp_mono; [by apply (make_pipe_wp true)| |by intros h' e (? & _ & ?)].
  intros h2 _ (H2 & _ & _). apply wp_finally.
  assert (Hr : does (reset Wrfd2;; reset Rdfd2) []) by doing.
  apply (svc_wp_mono Child _ _ (λ h' _, no_report h' ∧
    Forall (did h') (Setsid :: Fork :: child2_calls name)) _ (λ h' e, no_report h' ∧ failed h' e)).
  2:{ intros h' _ [H3 HD]. eapply svc_wp_mono; [by apply Hr| |by intros h4 e (? & _ & ?)].
    intros h4 _ (H4 & Hs & _).
      split; [done|]. eapply Forall_impl; [exact HD|]. intros c. by apply did_mono. }
  2:{ intros h' e [H3 (x & c & -> & Hx & Hc)].
    eapply svc_wp_mono; [by apply Hr| |by intros h4 e (? & _ & ?)].
      intros h4 _ (H4 & Hs & _). split; [done|]. exists x, c. auto. }
  apply svc_wp_bind. eapply svc_wp_mono; [by apply (does_must Setsid)| |by intros h' e (? & _ & ?)].
  intros h3 _ (H3 & _ & HD3).
  split; [split_and!; [done|done|]|].
  { intros n m l Hn. cbn. by rewrite (proj2 (Z.ltb_lt 0 n) Hn). }
  intros [n m l|e] Ha; cbn [mbind prog_bind].
  2:{ cbn in Ha. split; [by apply no_report_cons|]. exists e, Fork. split_and!; [done|lia|by left]. }
  destruct (0 <? n); [done|].
  set (h4 := (Fork, Done n m l) :: h3). assert (H4 : no_report h4) by (by apply no_report_cons).
  apply svc_wp_bind. eapply svc_wp_mono; [by apply does_reset| |by intros h' e (? & _ & ?)].
  intros h5 _ (H5 & Hs5 & _).
  split; [done|]. intros [n' m' l'|e] Ha'; cbn [mbind prog_bind].
  2:{ cbn in Ha'. split; [by apply no_report_cons|]. exists e, ReadEnd. split_and!; [done|lia|by left]. }
  eapply svc_wp_mono; [apply does_child2; by apply no_report_cons| |by intros h' e (? & _ & ?)].
  intros h6 _ (H6 & Hs6 & HD6).
  split; [done|]. apply Forall_cons in HD3 as [HD3 _]. apply Forall_cons; split;
    [|apply Forall_cons; split; [|done]].
  - eapply did_mono; [|exact HD3]. intros x Hx. apply Hs6, list_elem_of_further, Hs5. by right.
  - exists n, m, l. apply Hs6, list_elem_of_further, Hs5. by left.
Qed.
End wp.

(** ** The programs of [start] *)

Definition required (name : string) : list call :=
  Setsid :: Fork :: child2_calls name ++
  [Seteuid; Sigaction SIGINT true; Sigaction SIGTERM true; Sigaction SIGHUP true].
Section start.
Context (retries : nat) (name : string).
Abbreviation wp := (wp (required name)).
Abbreviation nothing := (λ _ _, True).

Lemma daemon_wp : wp Child (daemon retries name) [] nothing nothing.
Proof.
  unfold daemon. apply svc_wp_bind.
  eapply svc_wp_mono; [apply child1_wp; by intros v a ?%elem_of_nil| |done].
  intros h1 _ [H1 HD1]. apply svc_wp_bind.
  assert (Hd : does (required name) (must Seteuid;; install_service_signal_handler)
    [Seteuid; Sigaction SIGINT true; Sigaction SIGTERM true; Sigaction SIGHUP true]).
  { apply does_must_then; [done|intros _]. apply does_then; [by apply does_must_|intros _].
    do 3 (apply does_must_then; [done|intros _]). apply does_ret. }
  eapply svc_wp_mono; [by apply Hd| |done]. intros h2 _ (H2 & Hs2 & HD2).
  split; [split_and!; [done|done| |done]|].
  { split; [|done]. intros _. unfold required. rewrite app_comm_cons, app_comm_cons.
      apply Forall_app. split; [|done].
    eapply Forall_impl; [exact HD1|]. intros c. by apply did_mono. }
  intros [n m l|e] Ha; [|done]. split; [done|]. intros [n' m' l'|e'] Ha'; [|done].
  split; [split; [done|]; exists n, m, l; set_solver|]. intros [n2 m2 l2|e2] Ha2; [|done].
  split; [done|].
  intros [n3 m3 l3|e3] Ha3; [|done]. cbn. by destruct (n2 =? 0).
Qed.

(** Exceptions of the process that has called [start]: its own, or what it has read. *)
Definition raised (h : hist) (e : exn) : Prop :=
  failed h e ∨ (∃ x l, e = system_error x ∧ x ≠ 0 ∧ (ReadReport, Done 4 x l) ∈ h) ∨
  (e = system_error EINVAL ∧ ∃ n m l, n ≠ 4 ∧ (ReadReport, Done n m l) ∈ h).
Definition never (_ : hist) (_ : unit) : Prop := False.
Lemma svc_parent_wp h : no_report h → (∀ a, (ReadReport, a) ∉ h) → wp After parent h never raised.
Proof.
  intros Hh Hr. split; [done|]. intros [n m l|e] Ha; [|done]. split; [done|]. intros [n1 m1 l1|e] Ha1.
  2:{ left. cbn in Ha1. exists e, Waitpid. split_and!; [done|lia|by left]. }
  split; [split_and!; [done|done|]|].
  { intros a [E|[E|E]%elem_of_cons]%elem_of_cons; [done|done|by apply (Hr a)]. }
  intros [len x l2|e] Ha2; cbn [negb].
  - destruct (Z.eqb_spec len 4) as [->|Hl]; cbn.
    + destruct (Z.eqb_spec x 0) as [->|Hx]; cbn; [split; [done|]; exists l2; by left|].
      right; left. exists x, l2. split_and!; [done|done|by left].
    + right; right. split; [done|]. exists len, x, l2. split; [done|by left].
  - left. cbn in Ha2. exists e, ReadReport. split_and!; [done|lia|by left].
Qed.

(** The program up to the first fork, and the two processes behind it. *)
Fixpoint swp (p : prog unit) (h : hist) : Prop :=
  match p with
  | Ret _ | Exits _ => False
  | Raise e => failed h e
  | Aborts | Spins => True
  | Ask Fork k =>
      no_report h ∧ (∀ a, (ReadReport, a) ∉ h) ∧ (∀ m l, wp Child (k (Done 0 m l)) [] nothing nothing) ∧
      (∀ n m l, 0 < n → wp After (k (Done n m l)) ((Fork, Done n m l) :: h) never raised) ∧
      (∀ e, k (Fail_ e) = Raise (system_error e))
  | Ask c k => call_ok (required name) Before h c k ∧ ∀ a, proper a → swp (k a) ((c, a) :: h)
  end.
Definition no_read (h : hist) : Prop := ∀ a, (ReadReport, a) ∉ h.
Lemma swp_bind {A} (m : prog A) (f : A → prog unit) h Q :
  wp Before m h Q (λ h' e, failed h' e) → no_read h → (∀ h' a, Q h' a → no_read h' → swp (f a) h') →
    swp (m ≫= f) h.
Proof.
  revert h. induction m as [| | | | |c k IH]; intros h; cbn; try done; [auto|]. intros [H1 H2] Hh Hf.
  assert (Hc : call_ok (required name) Before h c (λ a, k a ≫= f))
    by (by apply (call_ok_map _ Before h c k (mbind f))).
  assert (Hnext : ∀ a, proper a → swp (k a ≫= f) ((c, a) :: h)).
  { intros a Ha. apply IH; [by apply H2| |done]. intros b [[= <- _]|Hb]%elem_of_cons;
      [|by apply (Hh b)]. by destruct H1. }
  destruct c; try (split; [exact Hc|exact Hnext]). by destruct H1.
Qed.
Lemma swp_does {A} (m : prog A) (f : A → prog unit) h :
  does (required name) m [] → no_report h → no_read h →
    (∀ h' a, no_report h' → no_read h' → swp (f a) h') → swp (m ≫= f) h.
Proof.
  intros Hm Hh Hr Hf. eapply (swp_bind m f h (returns h [])); [|done|].
  - eapply svc_wp_mono; [by apply Hm|done|by intros h' e (_ & _ & ?)].
  - intros h' a (? & _ & _) ?. by apply Hf.
Qed.
Lemma does_drop : does (required name) (drop_pid_file name) [].
Proof.
  apply does_then; [|intros _; apply does_then; [by apply does_ignore|intros _; by apply does_ignore]].
  apply does_try; [apply does_then; [by apply does_must_|intros _; apply does_ret]|].
  intros e child h Hh _. by apply does_ret.
Qed.
Lemma start_swp restarted : swp (start retries name restarted) [].
Proof.
  unfold start. assert (H0 : no_report []) by (by intros v a ?%elem_of_nil).
  assert (R0 : no_read []) by (by intros a ?%elem_of_nil).
  apply swp_does; [destruct restarted; [apply does_drop|by apply does_ignore]|done|done|]. clear H0 R0.
  do 2 (intros ? ? ? ?; apply swp_does; [apply does_reset|done|done|]).
  intros ? ? ? ?. apply swp_does; [apply does_close_all_fd|done|done|].
  intros ? ? ? ?. apply swp_does; [apply does_reset_handlers|done|done|].
  intros ? ? ? ?.
  apply swp_does; [do 2 (apply does_then; [by apply does_must_|intros _]);
    apply does_ret|done|done|].
  intros ? ? ? ?. apply swp_does; [apply does_set_all|done|done|].
  intros h _ Hh Hr. eapply (swp_bind (make_pipe false) _ h (returns h [])); [|done|].
  { eapply svc_wp_mono; [by apply (make_pipe_wp (required name) false)|done|by intros ? ? (_ & _ & ?)]. }
  intros h1 _ (Hh1 & _ & _) Hr1. split_and!; [done|done| | |].
  - intros m l. apply daemon_wp.
  - intros n m l Hn. cbn [must mbind prog_bind]. rewrite (proj2 (Z.ltb_lt 0 n) Hn).
    apply svc_parent_wp; [by apply no_report_cons|]. intros b [E|E]%elem_of_cons;
      [done|by apply (Hr1 b)].
  - done.
Qed.

(** ** The invariant of the system *)

Definition told (y : system) (v : Z) : Prop := ∃ r, r ≠ Starter ∧ did (past (get r y)) (WriteReport v).
Definition read (y : system) (v : Z) : Prop := ∃ l, (ReadReport, Done 4 v l) ∈ past (starter y).
Definition starter_ok (y : system) : Prop :=
  let h := past (starter y) in
  match code (starter y) with
  | Absent | Again => False
  | Runs p => if absent (first_ y) then swp p h else wp After p h never raised
  | Threw e => raised h e
  | Gone (Exited n) => n = 0 ∧ read y 0
  | Gone Killed => True
  end.
Record child_ok (x : proc) : Prop := {
  co_code : match code x with
    | Absent => past x = [] ∧ wr x = false
    | Runs p => wp Child p (past x) nothing nothing
    | Gone _ => wr x = false
    | Threw _ | Again => True
    end;
  co_backed v : did (past x) (WriteReport v) → backed (required name) (past x) v;
  co_error v : did (past x) (WriteReport v) → v ≠ 0 → gone x = true;
}.
Record inv (y : system) : Prop := {
  iv_starter : starter_ok y;
  iv_child r : r ≠ Starter → child_ok (get r y);
  iv_absent : absent (first_ y) = true → absent (second_ y) = true ∧ no_read (past (starter y));
  iv_second : absent (second_ y) = false → gone (first_ y) = true ∧ no_report (past (first_ y));
  iv_fork : did (past (first_ y)) Fork → absent (second_ y) = false;
  iv_report v : v ∈ report y ∨ read y v ↔ told y v;
  iv_end n m l : n ≠ 4 → (ReadReport, Done n m l) ∈ past (starter y) →
    report y = [] ∧ wr (first_ y) = false ∧ wr (second_ y) = false;
  iv_once a b : (ReadReport, a) ∈ past (starter y) → (ReadReport, b) ∈ past (starter y) → a = b;
  iv_wr : wr (starter y) = true → holds_wr (past (starter y)) = true;
}.

Lemma get_set r x y : get r (set r x y) = x.
Proof. by destruct r. Qed.
Lemma get_set_ne r r' x y : r ≠ r' → get r (set r' x y) = get r y.
Proof. by destruct r, r'. Qed.
Lemma past_settle p h w w2 : past (settle p h w w2) = h.
Proof. by destruct p. Qed.
Lemma wr_settle p h w w2 : wr (settle p h w w2) = true → w = true.
Proof. by destruct p. Qed.
Lemma absent_settle p h w w2 : absent (settle p h w w2) = false.
Proof. by destruct p. Qed.
Lemma did_cons h c a d : did ((c, a) :: h) d ↔ did h d ∨ d = c ∧ ∃ n m l, a = Done n m l.
Proof.
  unfold did. setoid_rewrite elem_of_cons. split.
  - intros (n & m & l & [[= -> <-]|?]); [right; eauto|left; eauto].
  - intros [(n & m & l & ?)|[-> (n & m & l & ->)]]; eauto 10.
Qed.
Lemma did_no_report h v : no_report h → ¬ did h (WriteReport v).
Proof. intros Hh (n & m & l & Hin). by apply (Hh v (Done n m l)). Qed.
Lemma backed_mono h h' v : h ⊆ h' → backed (required name) h v → backed (required name) h' v.
Proof.
  intros Hs [H1 H2]. split.
  - intros Hv. eapply Forall_impl; [by apply H1|]. intros c. by apply did_mono.
  - intros Hv. destruct (H2 Hv) as [c Hc]. exists c. auto.
Qed.
(** A child process after a call. *)
Lemma child_after x c a k :
  child_ok x → code x = Runs (Ask c k) → proper a →
  child_ok (after x c a (k a) ((c, a) :: past x)).
Proof.
  intros [Hc Hb He] Hr Ha. rewrite Hr in Hc. destruct Hc as [Hok Hk]. specialize (Hk a Ha).
  assert (Hg : gone x = false) by (unfold gone; by rewrite Hr). unfold after. split.
  - destruct (k a); done.
  - intros v. rewrite past_settle, did_cons. intros [Hv|[<- _]].
    + eapply backed_mono; [|by apply Hb]. set_solver.
    + destruct Hok as (_ & _ & Hv & _). eapply backed_mono, Hv. set_solver.
  - intros v. rewrite past_settle, did_cons. intros [Hv|[<- (n & m & l & ->)]] Hv0.
    + rewrite (He v Hv Hv0) in Hg. done.
    + destruct Hok as (_ & _ & _ & Hx). by rewrite (Hx Hv0 n m l).
Qed.
Lemma child_killed x : child_ok x → absent x = false → child_ok (killed x).
Proof. intros [Hc Hb He] Ha. split; [done|done|]. done. Qed.
Lemma admits_proper y r c a : admits y r c a = true → proper a.
Proof. destruct a as [n m l|e]; [done|]. cbn. by intros ?%Z.ltb_lt. Qed.
Lemma runs_absent x p : code x = Runs p → absent x = false ∧ gone x = false.
Proof. unfold absent, gone. by intros ->. Qed.
Lemma starter_ok_same y y' :
  starter y' = starter y → absent (first_ y') = absent (first_ y) → starter_ok y → starter_ok y'.
Proof. intros Hs Ha. unfold starter_ok, read. by rewrite Hs, Ha. Qed.

(** A step of a child process that is no successful [fork]. *)
Section child_step.
Context (y : system) (H : inv y) (r : role) (Hr : r ≠ Starter) (c : call) (k : answer →
    prog unit) (a : answer).
Context (Hrun : code (get r y) = Runs (Ask c k)) (Hadm : admits y r c a = true).
Context (Hfork : c = Fork → ∀ n m l, a ≠ Done n m l).
Abbreviation x := (get r y).
Let x' := after x c a (k a) ((c, a) :: past x).
Let y' := set_report (report_after c a (report y)) (set r x' y).

Lemma step_call_ok : call_ok (required name) Child (past x) c k.
Proof. pose proof (co_code _ (iv_child _ H r Hr)) as Hc. rewrite Hrun in Hc. apply Hc. Qed.
Lemma step_child_ok : child_ok x'.
Proof. apply child_after; [by apply iv_child|done|by eapply admits_proper]. Qed.
Lemma step_wr : wr x' = true → wr x = true.
Proof.
  intros Hw%wr_settle. pose proof step_call_ok as Hok. destruct c; try done;
    [destruct second|destruct f]; try done; by destruct a.
Qed.
Lemma step_get r' : get r' y' = if decide (r' = r) then x' else get r' y.
Proof. unfold y'. clear. by destruct r, r'. Qed.
Lemma step_told v : told y' v ↔ told y v ∨ c = WriteReport v ∧ ∃ n m l, a = Done n m l.
Proof.
  unfold told. split.
  - intros (r' & Hr' & Hd). rewrite step_get in Hd. case_decide as E; [subst r'|left; eauto].
    unfold x', after in Hd. rewrite past_settle, did_cons in Hd. destruct Hd as [Hd|[E Ha]];
      [left; eauto|by right].
  - intros [(r' & Hr' & Hd)|[E Ha]].
    + exists r'. split; [done|]. rewrite step_get. case_decide as E; [subst r'|done].
      unfold x', after. rewrite past_settle, did_cons. by left.
    + exists r. split; [done|]. rewrite step_get, decide_True by done. unfold x', after.
      rewrite past_settle, did_cons. by right.
Qed.
Lemma step_report v : v ∈ report y' ↔ v ∈ report y ∨ c = WriteReport v ∧ ∃ n m l, a = Done n m l.
Proof.
  change (report y') with (report_after c a (report y)). pose proof step_call_ok as Hok.
  destruct c; cbn in *; try (naive_solver; fail). destruct a as [n m l|e]; [|naive_solver].
  rewrite elem_of_app, list_elem_of_singleton. naive_solver.
Qed.
Lemma step_starter : starter y' = starter y.
Proof. unfold y'. clear -Hr. by destruct r. Qed.
Lemma step_child : inv y'.
Proof.
  destruct (runs_absent _ _ Hrun) as [Hna Hng].
  pose proof (absent_settle (k a) ((c, a) :: past x)) as Ha'.
  assert (Hax : absent x' = false) by apply Ha'. clear Ha'.
  assert (Hread : ∀ v, read y' v ↔ read y v) by (intros v; unfold read; by rewrite step_starter).
  assert (Hfirst : first_ y' = if decide (First = r) then x' else first_ y) by apply (step_get First).
  assert (Hsecond : second_ y' = if decide (Second = r) then x' else second_ y)
    by apply (step_get Second).
  assert (H1 : absent (first_ y') = absent (first_ y)) by (rewrite Hfirst;
    destruct (decide (First = r)) as [E|]; [|done]; subst r; cbn in Hna; congruence).
  assert (H2 : absent (second_ y') = absent (second_ y)) by (rewrite Hsecond;
    destruct (decide (Second = r)) as [E|]; [|done]; subst r; cbn in Hna; congruence).
  split.
  - eapply starter_ok_same; [apply step_starter|done|apply H].
  - intros r' Hr'. rewrite step_get. destruct (decide (r' = r)); [apply step_child_ok|by apply iv_child].
  - rewrite H1, H2, step_starter. apply H.
  - rewrite H2. intros Hs. destruct (iv_second _ H Hs) as [Hg Hn]. rewrite Hfirst.
    destruct (decide (First = r)) as [E|]; [|done].
    subst r. cbn in Hng. congruence.
  - rewrite H2, Hfirst. destruct (decide (First = r)) as [E|]; [|apply H]. unfold x', after.
    rewrite past_settle, did_cons.
    intros [Hd|[Ec (n & m & l & Ea)]];
      [subst r; by apply (iv_fork _ H)|by destruct (Hfork (eq_sym Ec) n m l)].
  - intros v. rewrite step_report, Hread, step_told, <-(iv_report _ H v). tauto.
  - intros n m l Hn. rewrite step_starter. intros Hin.
    destruct (iv_end _ H n m l Hn Hin) as (E1 & E2 & E3).
    assert (Hwx : wr x = false) by (clear -Hr E2 E3; by destruct r).
    assert (Hw' : wr x' = false) by (destruct (wr x') eqn:E; [|done]; apply step_wr in E; congruence).
    split_and!; [|rewrite Hfirst; by destruct (decide (First = r))|rewrite Hsecond;
      by destruct (decide (Second = r))].
    change (report_after c a (report y) = []). pose proof step_call_ok as Hok.
    destruct c; cbn in *; try done; try by destruct Hok.
    destruct a; [|done]. cbn in Hadm. rewrite Hwx, andb_false_r in Hadm. done.
  - rewrite step_starter. apply H.
  - rewrite step_starter. apply H.
Qed.
End child_step.
(** The second fork. *)
Lemma step_fork y k n m l :
  inv y → code (first_ y) = Runs (Ask Fork k) → admits y First Fork (Done n m l) = true →
  inv (answered y First Fork k (Done n m l)).
Proof.
  intros H Hrun Hadm. pose proof (step_call_ok y H First ltac:(done) Fork k Hrun) as (_ & Hno & Hk).
  destruct (runs_absent _ _ Hrun) as [Hna _]. cbn in Hadm.
  apply andb_true_iff in Hadm as [Hn%Z.ltb_lt Has].
  pose proof (iv_child _ H First ltac:(done)) as Hx. pose proof (iv_child _ H Second ltac:(done)) as Hs.
  set (x := first_ y) in *. unfold answered. cbn [child_of get]. fold x.
  cbn [after wr_after wr2_after report_after].
  rewrite (Hk n m l Hn).
  set (x1 := after x Fork (Done n m l) (Exits 0) _).
  pose proof (child_after x Fork (Done 0 m l) k Hx Hrun I) as Hc2.
  set (x2 := after x Fork (Done 0 m l) (k (Done 0 m l)) ((Fork, Done 0 m l) :: past x)) in *.
  assert (Hn1 : no_report (past x1)) by (by apply no_report_cons).
  assert (Hn2 : no_report (past x2)) by (unfold x2, after; rewrite past_settle; by apply no_report_cons).
  assert (Hp2 : past (second_ y) = []).
  { pose proof (co_code _ Hs) as Hc. unfold absent in Has. cbn in Hc.
      by destruct (code (second_ y)); try done; destruct Hc. }
  assert (Hold : ∀ v, ¬ told y v).
  { intros v ([| |] & Hr & Hd); [done|by eapply did_no_report, Hd|]. cbn in Hd. rewrite Hp2 in Hd.
      by destruct Hd as (? & ? & ? & ?%elem_of_nil). }
  split; cbn [starter first_ second_ report set set_report get].
  - apply (starter_ok_same y); [done|exact (eq_sym Hna)|apply H].
  - intros [| |] Hr; [done| |exact Hc2].
    split; [done|intros v Hd; by destruct (did_no_report _ v Hn1)|done].
  - done.
  - intros _. split; [done|exact Hn1].
  - intros _. apply absent_settle.
  - intros v. split; [intros Hv; by destruct (Hold v); apply (iv_report _ H v)|].
    intros ([| |] & Hr & Hd);
      [done|by destruct (did_no_report _ v Hn1)|by destruct (did_no_report _ v Hn2)].
  - intros n' m' l' Hn' Hin. destruct (iv_end _ H n' m' l' Hn' Hin) as (E1 & E2 & _).
    split_and!; [done|done|].
    destruct (wr x2) eqn:E; [|done]. apply wr_settle in E. cbn in E. fold x in E2. congruence.
  - apply H.
  - apply H.
Qed.

(** A step of the process that has called [start], but for a successful [fork]. *)
Section starter_step.
Context (y : system) (H : inv y) (c : call) (k : answer → prog unit) (a : answer).
Abbreviation x := (starter y).
Context (Hadm : admits y Starter c a = true) (Hnw : ∀ v, c ≠ WriteReport v) (Hnr : c = ReadReport →
    no_read (past x)).
Context (Hfirst : c = ReadReport → absent (first_ y) = false).
Let x' := after x c a (k a) ((c, a) :: past x).
Let y' := set_report (report_after c a (report y)) (set Starter x' y).

Lemma starter_past : past (starter y') = (c, a) :: past x.
Proof. apply past_settle. Qed.
Lemma starter_reads v : v ∈ report y' ∨ read y' v ↔ v ∈ report y ∨ read y v.
Proof.
  unfold read. rewrite starter_past. change (report y') with (report_after c a (report y)).
  setoid_rewrite elem_of_cons.
  assert (Hsame : (∀ n m l, (c, a) ≠ (ReadReport, Done n m l)) → report_after c a (report y) = report y).
  { intros Hn. destruct c; try done; [|by destruct (Hnw v0)]. destruct a as [n m l|e];
      [by destruct (Hn n m l)|done]. }
  destruct (decide (c = ReadReport)) as [->|Hc]; [|rewrite Hsame by congruence; naive_solver].
  destruct a as [n m l|e]; [|rewrite Hsame by congruence; naive_solver]. cbn in Hadm |- *.
  destruct (report y) as [|w rest]; apply andb_true_iff in Hadm as [->%Z.eqb_eq Hm]; cbn [tail];
    [naive_solver|].
  apply Z.eqb_eq in Hm as ->. rewrite elem_of_cons. naive_solver.
Qed.
Lemma wr_after_mono w w' : (w = true → w' = true) → wr_after c a w = true → wr_after c a w' = true.
Proof. clear. intros Hw. unfold wr_after. destruct c; auto; [destruct second|destruct f];
    destruct a; auto. Qed.
Lemma step_starter_inv : starter_ok y' → inv y'.
Proof.
  intros Hs. split.
  - done.
  - intros [| |] Hr; [done|by apply (iv_child _ H First)|by apply (iv_child _ H Second)].
  - intros Ha. destruct (iv_absent _ H Ha) as [Has Hno]. split; [done|]. rewrite starter_past.
    intros b [[= <- _]|Hb]%elem_of_cons; [|by apply (Hno b)]. specialize (Hfirst eq_refl).
    cbn in Ha. congruence.
  - apply H.
  - apply H.
  - intros v. rewrite starter_reads, (iv_report _ H v). unfold told.
    split; intros ([| |] & Hr & Hd); (done || (by exists First) || (by exists Second)).
  - intros n m l Hn. rewrite starter_past. change (report y') with (report_after c a (report y)).
    intros [[= <- <-]|Hin]%elem_of_cons.
    + cbn in Hadm |- *. destruct (report y) as [|w rest];
        apply andb_true_iff in Hadm as [->%Z.eqb_eq Hm]; [|done].
      apply negb_true_iff, orb_false_iff in Hm as [[_ ?]%orb_false_iff ?]. done.
    + destruct (iv_end _ H n m l Hn Hin) as (E1 & E2 & E3). split_and!; [|done|done].
      destruct c; try done; cbn; [|by destruct (Hnw v)]. by destruct (Hnr eq_refl (Done n m l)).
  - intros b b'. rewrite starter_past. intros [E|Hb]%elem_of_cons [E'|Hb']%elem_of_cons;
      [congruence| | |by apply (iv_once _ H)];
      [injection E as Ec _|injection E' as Ec _]; 
      [by destruct (Hnr (eq_sym Ec) b')|by destruct (Hnr (eq_sym Ec) b)].
  - rewrite starter_past. intros Hw%wr_settle. cbn. eapply wr_after_mono; [|exact Hw]. apply H.
Qed.
End starter_step.
Lemma swp_ask c k h : c ≠ Fork → swp (Ask c k) h →
  call_ok (required name) Before h c k ∧ ∀ a, proper a → swp (k a) ((c, a) :: h).
Proof. by destruct c. Qed.
(** What the program of the starting process may have become. *)
Lemma starter_settled y x p h w w2 r :
  (if absent (first_ y) then swp p h else wp After p h never raised) → x = settle p h w w2 →
  starter_ok (set_report r (set Starter x y)).
Proof.
  intros Hp ->. unfold starter_ok, read. cbn [starter first_ set set_report]. rewrite past_settle.
  destruct (absent (first_ y)) eqn:E, p; cbn in Hp |- *; rewrite ?E; try done. by left.
Qed.
Lemma step_starter_call y c k a :
  inv y → code (starter y) = Runs (Ask c k) → admits y Starter c a = true →
    (c = Fork → ∀ n m l, a ≠ Done n m l) →
  inv (set_report (report_after c a (report y))
    (set Starter (after (starter y) c a (k a) ((c, a) :: past (starter y))) y)).
Proof.
  intros H Hrun Hadm Hf. pose proof (iv_starter _ H) as Hs. unfold starter_ok in Hs. rewrite Hrun in Hs.
  pose proof (admits_proper _ _ _ _ Hadm) as Ha. destruct (absent (first_ y)) eqn:E.
  - destruct (decide (c = Fork)) as [->|Hc].
    + destruct Hs as (_ & _ & _ & _ & Hk). destruct a as [n m l|e];
        [by destruct (Hf eq_refl n m l)|]. cbn in Ha.
      apply step_starter_inv; try done. rewrite Hk. left. exists e, Fork. split_and!; [done|lia|by left].
    + apply swp_ask in Hs as [Hok Hk]; [|done].
      apply step_starter_inv; [done|done|intros v ->; by destruct Hok|intros ->; by destruct Hok..|].
      eapply starter_settled; [|done]. rewrite E. by apply Hk.
  - destruct Hs as [Hok Hk].
    apply step_starter_inv; [done|done|intros v ->; by destruct Hok|intros ->;
      by destruct Hok as (_ & _ & ?)|done|].
    eapply starter_settled; [|done]. rewrite E. by apply Hk.
Qed.
(** The first fork. *)
Lemma step_first_fork y k n m l :
  inv y → code (starter y) = Runs (Ask Fork k) → admits y Starter Fork (Done n m l) = true →
  inv (answered y Starter Fork k (Done n m l)).
Proof.
  intros H Hrun Hadm. cbn in Hadm. apply andb_true_iff in Hadm as [Hn%Z.ltb_lt Hfa].
  pose proof (iv_starter _ H) as Hs. unfold starter_ok in Hs. rewrite Hrun, Hfa in Hs.
  destruct Hs as (Hnrep & Hnr & Hchild & Hparent & _). destruct (iv_absent _ H Hfa) as [Hsa _].
  pose proof (iv_child _ H First ltac:(done)) as Hx.
  pose proof (iv_child _ H Second ltac:(done)) as Hs. cbn in Hx, Hs.
  assert (Hpast : ∀ x, child_ok x → absent x = true → past x = [] ∧ wr x = false).
  { intros x Hox Hax. pose proof (co_code _ Hox) as Hc. unfold absent in Hax. by destruct (code x). }
  destruct (Hpast _ Hs Hsa) as [Hp2 Hw2]. destruct (Hpast _ Hx Hfa) as [Hp1 Hw1].
  assert (Hold : ∀ v, ¬ told y v).
  { intros v ([| |] & Hr & Hd); [done| |]; cbn in Hd; rewrite ?Hp1, ?Hp2 in Hd;
      by destruct Hd as (? & ? & ? & ?%elem_of_nil). }
  unfold answered. cbn [child_of get report_after].
  set (x0 := after (starter y) Fork (Done n m l) (k (Done n m l)) _).
  set (x1 := after (starter y) Fork (Done 0 m l) (k (Done 0 m l)) []).
  assert (Hp0 : past x0 = (Fork, Done n m l) :: past (starter y)) by apply past_settle.
  assert (Hpx1 : past x1 = []) by apply past_settle.
  assert (Hread : ∀ b, (ReadReport, b) ∉ past x0) by (rewrite Hp0; intros b [?|Hb]%elem_of_cons;
    [done|by apply (Hnr b)]).
  split; cbn [starter first_ second_ report set set_report get].
  - unfold starter_ok, read. cbn [starter first_]. rewrite Hp0. unfold x1, after. rewrite absent_settle.
    specialize (Hparent n m l Hn). unfold x0, after. destruct (k (Done n m l)); done.
  - intros [| |] Hr; [done|change (child_ok x1)|done]. split; rewrite ?Hpx1.
    + specialize (Hchild m l). unfold x1, after. destruct (k (Done 0 m l)); done.
    + by intros v (? & ? & ? & ?%elem_of_nil).
    + by intros v (? & ? & ? & ?%elem_of_nil).
  - unfold x1, after. by rewrite absent_settle.
  - rewrite Hsa. done.
  - rewrite Hpx1. by intros (? & ? & ? & ?%elem_of_nil).
  - intros v. split.
    + intros [Hv|[l' Hv]];
        [destruct (Hold v); apply (iv_report _ H v); by left|by destruct (Hread (Done 4 v l'))].
    + intros ([| |] & Hr & Hd); [done| |]; cbn in Hd; rewrite ?Hpx1, ?Hp2 in Hd;
        by destruct Hd as (? & ? & ? & ?%elem_of_nil).
  - intros n' m' l' _ Hin. by destruct (Hread (Done n' m' l')).
  - intros b b' Hb. by destruct (Hread b).
  - rewrite Hp0. intros Hw%wr_settle. cbn in Hw |- *. by apply (iv_wr _ H).
Qed.
Lemma step_signal y r p : inv y → code (get r y) = p →
    (match p with Runs _ | Threw _ => True | _ => False end) →
  inv (set r (killed (get r y)) y).
Proof.
  intros H Hrun Hp. assert (Hna : absent (get r y) = false ∧ gone (get r y) = false).
  { unfold absent, gone. rewrite Hrun. by destruct p. }
  destruct Hna as [Hna Hng].
  assert (Hpast : ∀ r', past (get r' (set r (killed (get r y)) y)) = past (get r' y)) by (intros r';
    by destruct r, r').
  set (y' := set r (killed (get r y)) y) in *.
  assert (Hs : past (starter y') = past (starter y)) by apply (Hpast Starter).
  assert (H1 : past (first_ y') = past (first_ y)) by apply (Hpast First).
  assert (Ha1 : absent (first_ y') = absent (first_ y)) by (unfold y'; destruct r; done).
  assert (Ha2 : absent (second_ y') = absent (second_ y)) by (unfold y'; destruct r; done).
  assert (Hw : ∀ r', wr (get r' y') = true → wr (get r' y) = true) by (intros r'; unfold y';
    by destruct r, r').
  assert (Hrep : report y' = report y) by (unfold y'; by destruct r).
  split; rewrite ?Hs, ?H1, ?Ha1, ?Ha2, ?Hrep.
  - destruct (decide (r = Starter)) as [->|Hr]; [done|]. apply (starter_ok_same y); [|done|apply H].
    unfold y'. by destruct r.
  - intros r' Hr'. destruct (decide (r' = r)) as [->|Hne].
    + unfold y'. rewrite get_set. by apply child_killed; [apply iv_child|].
    + unfold y'. rewrite get_set_ne by done. by apply iv_child.
  - apply H.
  - intros Ha. destruct (iv_second _ H Ha) as [Hg Hn]. split; [|done]. unfold y'. by destruct r.
  - apply H.
  - intros v. unfold read, told. rewrite Hs. setoid_rewrite Hpast. apply (iv_report _ H v).
  - intros n m l Hn Hin. destruct (iv_end _ H n m l Hn Hin) as (E1 & E2 & E3). split_and!; [done| |].
    + destruct (wr (first_ y')) eqn:E; [|done]. apply (Hw First) in E. cbn in E. congruence.
    + destruct (wr (second_ y')) eqn:E; [|done]. apply (Hw Second) in E. cbn in E. congruence.
  - apply H.
  - intros E. apply (iv_wr _ H), (Hw Starter), E.
Qed.
Lemma svc_step_inv y r e y' : inv y → step r e y = Some y' → inv y'.
Proof.
  intros H Hs. unfold step in Hs. destruct e as [a|].
  - destruct (code (get r y)) as [|[| | | | |c k]| | |] eqn:Hrun; try done.
    destruct (admits y r c a) eqn:Hadm; [|done].
    injection Hs as <-.
    assert ((c = Fork ∧ ∃ n m l, a = Done n m l) ∨ (c = Fork → ∀ n m l, a ≠ Done n m l))
      as [[-> (n & m & l & ->)]|Hf'].
    { destruct (decide (c = Fork)); [|by right]. destruct a as [n m l|]; [left; eauto|by right]. }
    + destruct r; [by apply step_first_fork|by apply step_fork|]. cbn in Hadm.
      by rewrite andb_false_r in Hadm.
    + assert (answered y r c k a = set_report (report_after c a (report y))
        (set r (after (get r y) c a (k a) ((c, a) :: past (get r y))) y)) as ->.
      { unfold answered. destruct c; try done.
          destruct a as [n m l|]; [by destruct (Hf' eq_refl n m l)|done]. }
      destruct (decide (r = Starter)) as [->|Hr]; [by apply step_starter_call|by apply step_child].
  - destruct (code (get r y)) as [|p|ex| |] eqn:Hrun; try done; injection Hs as <-;
      by eapply step_signal.
Qed.
Lemma initial_inv p : swp p [] → inv (initial p).
Proof.
  intros Hp. assert (Hpast : past (starter (initial p)) = []) by apply past_settle.
  split; rewrite ?Hpast.
  - unfold starter_ok, read. rewrite Hpast. cbn. destruct p; done || (by left) || done.
  - intros [| |] Hr; [done| |]; (split; [done|by intros v (? & ? & ? & ?%elem_of_nil)..]).
  - intros _. split; [done|]. by intros a ?%elem_of_nil.
  - done.
  - by intros (? & ? & ? & ?%elem_of_nil).
  - intros v. split.
    + intros [?%elem_of_nil|[l Hl]]; [done|]. rewrite Hpast in Hl. by apply elem_of_nil in Hl.
    + intros ([| |] & Hr & Hd); [done| |]; by destruct Hd as (? & ? & ? & ?%elem_of_nil).
  - by intros n m l _ ?%elem_of_nil.
  - by intros a b ?%elem_of_nil.
  - intros Hw%wr_settle. done.
Qed.
Lemma svc_reachable_inv restarted y : reachable (start retries name restarted) y → inv y.
Proof. induction 1 as [|y r e y' _ IH Hs]; [apply initial_inv, start_swp|by eapply svc_step_inv]. Qed.

Definition ended (x : proc) : bool := absent x || gone x.
Lemma ended_wr x : child_ok x → wr x = true → ended x = false.
Proof.
  intros Hx Hw. pose proof (co_code _ Hx) as Hc. unfold ended, absent, gone.
  destruct (code x); try done; [by destruct Hc; congruence|congruence].
Qed.
(** A report of an error is the last thing that the child processes do. *)
Lemma told_error y v : inv y → told y v → v ≠ 0 →
  ended (first_ y) = true ∧ ended (second_ y) = true ∧
  (failed (past (first_ y)) (system_error v) ∨ failed (past (second_ y)) (system_error v)).
Proof.
  intros H (r & Hr & Hd) Hv. pose proof (iv_child _ H r Hr) as Hx.
  destruct (proj2 (co_backed _ Hx v Hd) Hv) as [c Hc]. pose proof (co_error _ Hx v Hd Hv) as Hg.
  assert (Hf : failed (past (get r y)) (system_error v)) by (by exists v, c).
  destruct r; [done| |]; cbn in Hd, Hg, Hf; unfold ended; rewrite Hg, orb_true_r.
  - split_and!; [done| |by left]. destruct (absent (second_ y)) eqn:E; [done|].
    destruct (iv_second _ H E) as [_ Hn].
    by destruct (did_no_report _ v Hn).
  - assert (E : absent (second_ y) = false) by (unfold gone, absent in *;
      by destruct (code (second_ y))).
    destruct (iv_second _ H E) as [-> _]. rewrite orb_true_r. split_and!; [done|done|by right].
Qed.
(** A report of success comes from the daemon. *)
Lemma told_success y : inv y → told y 0 → Forall (did (past (second_ y))) (required name).
Proof.
  intros H (r & Hr & Hd). pose proof (proj1 (co_backed _ (iv_child _ H r Hr) 0 Hd) eq_refl) as HD.
  destruct r; [done| |done]. cbn in Hd, HD. apply Forall_cons in HD as [_ [Hf _]%Forall_cons].
  destruct (iv_second _ H (iv_fork _ H Hf)) as [_ Hn]. by destruct (did_no_report _ 0 Hn).
Qed.
(** The starting process waits for the child processes only. *)
Lemma starter_waits y c k :
  inv y → code (starter y) = Runs (Ask c k) → (∀ n m l, admits y Starter c (Done n m l) = false) →
  ended (first_ y) = false ∨ ended (second_ y) = false.
Proof.
  intros H Hrun Hno. pose proof (iv_starter _ H) as Hs. unfold starter_ok in Hs. rewrite Hrun in Hs.
  pose proof (ended_wr _ (iv_child _ H First ltac:(done))) as W1.
  pose proof (ended_wr _ (iv_child _ H Second ltac:(done))) as W2.
  destruct (absent (first_ y)) eqn:E.
  - destruct (decide (c = Fork)) as [->|Hc].
    + specialize (Hno 1 0 []). cbn in Hno. by rewrite E in Hno.
    + apply swp_ask in Hs as [Hok _]; [|done]. specialize (Hno 0 0 []).
      destruct c; cbn in Hno; try discriminate Hno;
        done || by destruct Hok.
  - destruct Hs as [Hok _]. destruct c; try (specialize (Hno 0 0 []); discriminate Hno);
      try (done || by destruct Hok).
    + specialize (Hno 0 0 []). cbn in Hno. left. unfold ended. by rewrite E, Hno.
    + destruct Hok as (_ & Hh & _). cbn in Hno. destruct (report y) as [|v rest].
      2:{ specialize (Hno 4 v []). by rewrite !Z.eqb_refl in Hno. }
      specialize (Hno 0 0 []). cbn in Hno. apply negb_false_iff in Hno.
      apply orb_true_iff in Hno as [[Hw|Hw]%orb_true_iff|Hw]; [|left; by apply W1|right; by apply W2].
      apply (iv_wr _ H) in Hw. congruence.
Qed.

(** C37: the process that calls [start] learns what became of the daemon, in every interleaving and
    whatever the operating system answers.  It exits, with 0, only after the calls of
    [required] have succeeded in the daemon: [setsid], [fork], [chdir], closing and opening the three
    standard files, opening, locking and writing the file with its number, [seteuid] and the
    three signal handlers.  An exception is an error of its own calls, or of a call of the child processes,
    of which none is left then; [EINVAL] may also mean that the report is missing, and no daemon
    runs.  It waits only while a child process lives. *)
Theorem service_start_reports restarted y :
  reachable (start retries name restarted) y →
  match code (starter y) with
  | Gone (Exited n) => n = 0 ∧ Forall (did (past (second_ y))) (required name)
  | Threw e => failed (past (starter y)) e ∨
      (ended (first_ y) = true ∧ ended (second_ y) = true ∧
        (failed (past (first_ y)) e ∨ failed (past (second_ y)) e)) ∨
      (e = system_error EINVAL ∧ ∀ r k, r ≠ Starter → code (get r y) ≠ Runs (Ask Run k))
  | Runs (Ask c k) =>
      (∀ n m l, admits y Starter c (Done n m l) = false) → ended (first_ y) = false ∨
        ended (second_ y) = false
  | Runs _ | Gone Killed => True
  | Absent | Again => False
  end.
Proof.
  intros H%svc_reachable_inv. pose proof (iv_starter _ H) as Hs. unfold starter_ok in Hs.
  destruct (code (starter y)) as [|p|e| |[n|]] eqn:Hrun; try done.
  - destruct p; try done. intros Hno. by eapply starter_waits.
  - destruct Hs as [Hf|[(x & l & -> & Hx & Hin)|[-> (n & m & l & Hn & Hin)]]];
      [by left|right; left|right; right].
    + apply told_error; [done| |done]. apply (iv_report _ H x). right. by exists l.
    + split; [done|]. intros r k Hr Hc. pose proof (co_code _ (iv_child _ H r Hr)) as Hw.
      rewrite Hc in Hw.
      destruct Hw as [[_ Hd] _]. assert (told y 0) as [Ht|[l' Ht]]%(iv_report _ H 0) by (by exists r).
      * destruct (iv_end _ H n m l Hn Hin) as (E & _). rewrite E in Ht. by apply elem_of_nil in Ht.
      * pose proof (iv_once _ H _ _ Ht Hin). congruence.
  - destruct Hs as [-> Hr]. split; [done|]. apply told_success; [done|]. apply (iv_report _ H 0).
    by right.
Qed.
End start.

(** ** A service that starts *)

(** The answers when everything goes well. *)
Definition reply (c : call) : answer :=
  match c with
  | Opendir _ => Done 0 3 []
  | Pipe2 _ => Done 3 4 []
  | Fork => Done 100 0 []
  | ReadReport | WriteReport _ => Done 4 0 []
  | Open path => Done (if decide (path = "/dev/null") then 0 else if decide (path = out_file "d") then 1
      else if decide (path = err_file "d") then 2 else 5) 0 []
  | _ => Done 0 0 []
  end.
Fixpoint drive (n : nat) (r : role) (y : system) : system :=
  match n with
  | O => y
  | S n =>
      match code (get r y) with
      | Runs (Ask c _) => match step r (Answer (reply c)) y with Some y' => drive n r y' | None => y end
      | _ => y
      end
  end.
Lemma drive_reachable p n r y : reachable p y → reachable p (drive n r y).
Proof.
  revert y. induction n as [|n IH]; intros y Hy; cbn [drive]; [done|].
  destruct (code (get r y)) as [|[]| | |]; try done.
  destruct (step r _ y) eqn:E; [|done]. apply IH. by eapply reachable_step.
Qed.
Definition ex_start : system :=
  drive 20 Starter
    (drive 200 Second (drive 20 First (drive 400 Starter (initial (start 20 "d" false))))).
Lemma service_start_reports_witness :
  code (starter ex_start) = Gone (Exited 0) ∧ Forall (did (past (second_ ex_start))) (required "d").
Proof.
  assert (H : reachable (start 20 "d" false) ex_start) by (do 4 apply drive_reachable;
    apply reachable_initial).
  apply (service_start_reports 20 "d" false ex_start) in H.
  assert (E : code (starter ex_start) = Gone (Exited 0)) by (vm_compute; reflexivity).
  rewrite E in H. split; [exact E|apply H].
Defined.

(** ** Stopping a daemon *)

(** All calls of a program, whatever the answers. *)
Fixpoint all_calls {A} (P : call → Prop) (p : prog A) : Prop :=
  match p with Ask c k => P c ∧ ∀ a, all_calls P (k a) | _ => True end.
Lemma all_calls_bind {A B} P (p : prog A) (f : A → prog B) :
  all_calls P p → (∀ a, all_calls P (f a)) → all_calls P (p ≫= f).
Proof. intros H Hf. induction p as [a|e| | | |c k IH]; cbn; try done. destruct H as [Hc Hk].
  split; auto. Qed.
Lemma all_calls_finally {A} P (p : prog A) d : all_calls P p → all_calls P d → all_calls P (finally p d).
Proof.
  intros H Hd. induction p as [a|e| | | |c k IH]; cbn [finally]; try done.
  - by apply all_calls_bind.
  - by apply all_calls_bind.
  - destruct H as [Hc Hk]. split; auto.
Qed.
(** [stop] signals one process, never a group of them, as [kill] does for numbers that are not
    positive. *)
Theorem stop_one_process name :
  all_calls (λ c, match c with Kill pid sig => 0 < pid ∧ sig = SIGTERM | _ => True end) (stop name).
Proof.
  split; [done|]. intros [fd ? ?|e]; [|done]. apply all_calls_finally; [|done].
  unfold read_pid, lock_shared_wait, lock_file_impl, assert. destruct (0 <? fd); [|done].
  split; [done|]. intros [? ? ?|e]; [|done]. split; [done|]. intros [? pid ?|e]; [|done]. cbn.
  destruct (Z.leb_spec pid 0); [done|]. split; [split; [lia|done]|]. by intros [].
Qed.

(** ** Where the code goes wrong *)

(** The directory made last is closed twice. *)
Example mkdir_closes_twice :
  ∃ j k, mkdir_with_parents 3 "a" = Ask Strdup j ∧ j (Done 0 0 []) = Ask (Openat AT_FDCWD "a") k ∧
    k (Done 5 0 []) = Ask (Close 5) (λ _, Ask (Close 5) (λ _, Ret 0)).
Proof. do 2 eexists. split_and!; reflexivity. Qed.

(** A link to a directory that does not exist makes [mkdir_with_parents] try for ever. *)
Fixpoint dangling {A} (p : prog A) : prog A :=
  match p with
  | Ask Strdup k => dangling (k (Done 0 0 []))
  | Ask (Openat d n) k => dangling (k (Fail_ ENOENT))
  | Ask (Mkdirat d n) k => dangling (k (Fail_ EEXIST))
  | p => p
  end.
Lemma mkdir_loops fuel : dangling (mkdir_with_parents fuel "a") = Spins.
Proof. cbn [mkdir_with_parents dangling]. by induction fuel. Qed.

(** When the daemon cannot change its user, the exception leaves [start] in the daemon, which
    goes on with the caller of [start] and has reported nothing; the starter waits for it. *)
Definition EPERM : Z := 1.
Definition ex_before : system :=
  drive 32 Second (drive 20 First (drive 400 Starter (initial (start 20 "d" false)))).
Example start_throws_in_daemon :
  ∃ y, step Second (Answer (Fail_ EPERM)) ex_before = Some y ∧ reachable (start 20 "d" false) y ∧
    code (second_ y) = Threw (system_error EPERM) ∧ report y = [] ∧ wr (second_ y) = true.
Proof.
  assert (H : match step Second (Answer (Fail_ EPERM)) ex_before with
    | Some y => Some (code (second_ y), report y, wr (second_ y)) | None => None end =
    Some (Threw (system_error EPERM), [], true)) by (vm_compute; reflexivity).
  assert (Hr : reachable (start 20 "d" false) ex_before) by
    (unfold ex_before; do 3 apply drive_reachable; apply reachable_initial).
  revert H Hr. generalize ex_before. intros y0 H Hr.
  destruct (step Second _ y0) as [y|] eqn:E; [|done]. injection H as H1 H2 H3.
  exists y. split_and!; try done. by eapply reachable_step.
Qed.
End Service.
