(* ===== verification/PidFile.v ===== *)
(** * The file with the number of a daemon (detail/impl/posix_pid_file.ipp)

    What is in the file: [do_write_pid] writes the number in decimal at the start of the file, which
    is opened without [O_TRUNC], and [do_read_pid] gives the first 39 characters to [atoi].
    [Service] has the calls, the locks and the errors. *)

From Stdlib Require Import Ascii.
From S2P Require Import Prelude LexicalCast.
Import Ctype Lexical.

Local Open Scope Z_scope.

Module PidFile.

(** [write] at the start of a file that holds [old]. *)
Definition write (old s : str) : str := s ++ drop (length s) old.
(** [snprintf] writes 38 characters at most. *)
Definition do_write_pid (pid : Z) (file : str) : str := write file (take 38 (print_int pid)).

(** The digits that a string starts with. *)
Fixpoint digits (s : str) : str :=
  match s with c :: s => if isdigit c then c :: digits s else [] | [] => [] end.
(** [atoi]; numbers that [int] does not hold are undefined. *)
Definition atoi (s : str) : outcome Z :=
  let s := skip_space s in
  let '(neg, ds) := match s with
    | c :: s' =>
        if decide (c = "-"%char) then (true, s')
        else if decide (c = "+"%char) then (false, s')
        else (false, s)
    | [] => (false, [])
    end in
  let n := default 0 (dec_value 0 (digits ds)) in
  let z := if neg : bool then - n else n in
  if (- 2 ^ 31 <=? z) && (z <? 2 ^ 31) then Ok z else Undef.
Definition EAGAIN : Z := 11.
Definition do_read_pid (file : str) : outcome Z :=
  match atoi (take 39 file) with
  | Ok pid => if pid <=? 0 then Throw (system_error EAGAIN) else Ok pid
  | o => o
  end.

(** ** Reading back *)

Lemma digits_all s t :
  Forall (λ c, isdigit c = true) s → (∀ c t', t = c :: t' → isdigit c = false) → digits (s ++ t) = s.
Proof.
  intros Hs Ht. induction Hs as [|c s Hc Hs IH]; cbn.
  - destruct t as [|c t]; [done|]. cbn. by rewrite (Ht c t).
  - by rewrite Hc, IH.
Qed.
(** A number below [2 ^ 31] has ten digits at most. *)
Lemma dec_digits_short fuel : ∀ n acc k, 0 ≤ n < 10 ^ Z.of_nat (S k) →
  (length (dec_digits fuel n acc) ≤ length acc + S k)%nat.
Proof.
  induction fuel as [|fuel IH]; intros n acc k Hn; cbn [dec_digits]; [lia|].
  destruct (Z.ltb_spec n 10) as [|Hge]; [cbn; lia|]. destruct k as [|k]; [cbn in Hn; lia|].
  assert (0 ≤ n / 10 < 10 ^ Z.of_nat (S k)) as Hk.
  { replace (Z.of_nat (S (S k))) with (Z.succ (Z.of_nat (S k))) in Hn by lia.
    rewrite Z.pow_succ_r in Hn by lia. split; [apply Z.div_pos; lia|apply Z.div_lt_upper_bound; lia]. }
  specialize (IH (n / 10) (digit (n mod 10) :: acc) k Hk). cbn [length] in IH. lia.
Qed.
Lemma print_nat_short n : 0 ≤ n < 2 ^ 31 → (length (print_nat n) ≤ 10)%nat.
Proof. intros Hn. apply (dec_digits_short _ n [] 9). cbn. lia. Qed.

(** A number that is written is read back, if a digit of an older and longer one does not follow it. *)
Theorem pid_file_roundtrip pid old :
  0 < pid < 2 ^ 31 → (∀ c, old !! length (print_int pid) = Some c → isdigit c = false) →
  do_read_pid (do_write_pid pid old) = Ok pid.
Proof.
  intros Hp Hold. unfold do_write_pid, do_read_pid, print_int in *.
  destruct (Z.ltb_spec pid 0); [lia|]. pose proof (print_nat_short pid ltac:(lia)) as Hlen.
  rewrite (take_ge (print_nat pid)) by lia. unfold write. rewrite take_app_ge by lia.
  set (t := take _ (drop _ old)).
  assert (Ht : ∀ c t', t = c :: t' → isdigit c = false).
  { intros c t' E. apply Hold. rewrite <-(Nat.add_0_r (length _)), <-lookup_drop.
    assert (t !! 0%nat = Some c) as Hc by (by rewrite E). by apply lookup_take_Some in Hc as [? _]. }
  clearbody t. clear Hold. pose proof (print_nat_digits pid ltac:(lia)) as Hd.
  pose proof (dec_value_print pid ltac:(lia)) as Hv. pose proof (digits_all _ t Hd Ht) as Hds.
  destruct (print_nat_cons pid) as (c & s & Es). rewrite Es in *. apply Forall_cons in Hd as [Hc _].
  destruct (isdigit_not_sign _ Hc). unfold atoi. cbn [app skip_space]. rewrite (isdigit_not_space _ Hc).
  rewrite !decide_False by done. change (c :: s ++ t) with ((c :: s) ++ t). rewrite Hds, Hv.
  unfold default, id.
  destruct (Z.leb_spec (- 2 ^ 31) pid); [|lia]. destruct (Z.ltb_spec pid (2 ^ 31)); [|lia]. cbn [andb].
  destruct (Z.leb_spec pid 0); [lia|done].
Qed.
Lemma pid_file_roundtrip_witness : do_read_pid (do_write_pid 1234 (lit "99")) = Ok 1234.
Proof. apply (pid_file_roundtrip 1234 (lit "99")); [lia|]. intros c H. vm_compute in H.
  discriminate H. Defined.

(** The digits of an older, longer number remain: a process that is not the daemon is signalled. *)
Example pid_file_stale : do_read_pid (do_write_pid 99 (lit "12345")) = Ok 99345.
Proof. reflexivity. Qed.
End PidFile.
