(* ===== verification/LockFile.v ===== *)
(** * Lock files (detail/posix_lock_file.hpp, detail/impl/posix_lock_file.ipp)

    Objects of several processes that lock one file.  Every system call is a step, which the
    operating system may let fail; a mutex makes the calls of the threads on one object
    follow each other.  The lock that [lockf] takes belongs to a process: the same process may
    take it again, and loses it when it closes any descriptor of the file.  As long as every
    process has one object for the file, at most one object has the lock ([holds]: [owns_lock_] is set and
    [unlock] has not yet given the lock back), and the file holds the number of the process that has
    it.  [unlock] resets [owns_lock_] after its last call, so that for that moment the flags of two
    objects may be set.  A [write] that succeeds writes the whole number; the code does not look at
    how much was written. *)

From S2P Require Import Prelude LexicalCast.

Local Open Scope Z_scope.

Module LockFile.

Abbreviation pid_string := Lexical.print_int.

(** ** Objects *)

(** Where a thread is in a member function: before the call of [open], [lockf], [ftruncate] or
    [write] in [lock] and [try_lock] ([wait] tells which), before [ftruncate], [lockf], [close]
    and the end of [unlock] (which the destructor calls when [last] is set); [Gone] after the
    destructor. *)
Inductive pc : Type :=
| Idle
| LockOpen (wait : bool)
| LockLock (wait : bool)
| LockTruncate
| LockWrite
| UnlockTruncate (last : bool)
| UnlockUnlock (last : bool)
| UnlockClose (last : bool)
| UnlockEnd (last : bool)
| Gone.
(** [result]: how the last call has ended, with whether it has left the lock with the object. *)
Record lock_file : Type := Obj { at_ : pc; fd_ : bool; owns_lock_ : bool; result : outcome bool }.
Definition posix_lock_file : lock_file := Obj Idle false false (Ok false).
(** The file: the process with the lock, and the content. *)
Record system : Type := System { objs : list lock_file; locked : option nat; content : str }.

(** A member function is called, a system call returns, or a process dies. *)
Inductive event : Type :=
| Lock | TryLock | Unlock | Destroy
| Returns
| Fails (errno : Z)
| Dies.

#[export] Instance event_eq_dec : EqDecision event.
Proof. solve_decision. Defined.

Section system.
(** The process of an object and the number of a process. *)
Context (proc : nat → nat) (pid : nat → Z).

(** A process that closes a descriptor of the file, or ends, has lost the lock. *)
Definition unlocked (p : nat) (l : option nat) : option nat := if decide (l = Some p) then None else l.
(** [fd_.reset(...)]: what was open is closed. *)
Definition closed (i : nat) (o : lock_file) (l : option nat) : option nat :=
  if fd_ o then unlocked (proc i) l else l.
Definition put_obj (i : nat) (o : lock_file) (y : system) : system :=
  System (<[i := o]> (objs y)) (locked y) (content y).
Definition set_locked (l : option nat) (y : system) : system := System (objs y) l (content y).
Definition set_content (s : str) (y : system) : system := System (objs y) (locked y) s.
Definition gone : lock_file := Obj Gone false false (Ok false).
(** The end of a process. *)
Definition died (p : nat) (y : system) : system :=
  System (imap (λ i o, if decide (proc i = p) then gone else o) (objs y))
    (unlocked p (locked y)) (content y).
Definition goto (c : pc) (o : lock_file) : lock_file := Obj c (fd_ o) (owns_lock_ o) (result o).
Definition ends (r : outcome bool) (o : lock_file) : lock_file := Obj Idle (fd_ o) (owns_lock_ o) r.
(** [write] at the start of the file. *)
Definition overwrite (s old : str) : str := s ++ drop (length s) old.

(** ** Steps *)

(** A member function starts; the assertions end the process. *)
Definition called (i : nat) (o : lock_file) (e : event) (y : system) : option system :=
  match e with
  | Lock => Some (if owns_lock_ o then died (proc i) y else put_obj i (goto (LockOpen true) o) y)
  | TryLock => Some (if owns_lock_ o then died (proc i) y else put_obj i (goto (LockOpen false) o) y)
  | Unlock => Some (if owns_lock_ o then put_obj i (goto (UnlockTruncate false) o) y else died
    (proc i) y)
  | Destroy =>
      Some (if owns_lock_ o then put_obj i (goto (UnlockTruncate true) o) y
            else put_obj i gone (set_locked (closed i o (locked y)) y))
  | _ => None
  end.
(** [open] has returned: [fd_] is assigned, and what it held is closed. *)
Definition lock_open (i : nat) (o : lock_file) (wait : bool) (e : event) (y : system) : option system :=
  let y' := set_locked (closed i o (locked y)) y in
  match e with
  | Returns => Some (put_obj i (Obj (LockLock wait) true (owns_lock_ o) (result o)) y')
  | Fails e => Some (put_obj i (Obj Idle false (owns_lock_ o) (Throw (system_error e))) y')
  | _ => None
  end.
Definition EACCES : Z := 13.
Definition EAGAIN : Z := 11.
Definition lock_lock (i : nat) (o : lock_file) (wait : bool) (e : event) (y : system) : option system :=
  match e with
  | Returns =>
      if decide (locked y = None ∨ locked y = Some (proc i))
      then Some (put_obj i (goto LockTruncate o) (set_locked (Some (proc i)) y))
      else None
  | Fails e =>
      let taken := negb wait && ((e =? EACCES) || (e =? EAGAIN)) in
      Some (put_obj i (ends (if taken then Ok false else Throw (system_error e)) o) y)
  | _ => None
  end.
(** [write_pid]; a successful [write] is not a short one. *)
Definition write_pid (i : nat) (o : lock_file) (written : bool) (e : event) (y : system) :
    option system :=
  match e with
  | Returns =>
      Some (if written
        then put_obj i (Obj Idle (fd_ o) true (Ok true))
          (set_content (overwrite (pid_string (pid (proc i))) (content y)) y)
        else put_obj i (goto LockWrite o) (set_content [] y))
  | Fails e => Some (put_obj i (ends (Throw (system_error e)) o) y)
  | _ => None
  end.
(** An exception in the destructor ends the process. *)
Definition unlock_failed (i : nat) (o : lock_file) (last : bool) (e : Z) (y : system) : system :=
  if last then died (proc i) y else put_obj i (ends (Throw (system_error e)) o) y.
Definition unlock_truncate (i : nat) (o : lock_file) (last : bool) (e : event) (y : system) :
    option system :=
  match e with
  | Returns => Some (put_obj i (goto (UnlockUnlock last) o) (set_content [] y))
  | Fails e => Some (unlock_failed i o last e y)
  | _ => None
  end.
(** [lockf] gives back what follows the position in the file, which is after the number since
    [write]; the first bytes stay locked. *)
Definition unlock_unlock (i : nat) (o : lock_file) (last : bool) (e : event) (y : system) :
    option system :=
  match e with
  | Returns => Some (put_obj i (goto (UnlockClose last) o) y)
  | Fails e => Some (unlock_failed i o last e y)
  | _ => None
  end.
(** [fd_.reset()]. *)
Definition unlock_close (i : nat) (o : lock_file) (last : bool) (e : event) (y : system) :
    option system :=
  match e with
  | Returns =>
      Some (put_obj i (Obj (UnlockEnd last) false (owns_lock_ o) (result o))
        (set_locked (closed i o (locked y)) y))
  | _ => None
  end.
(** [owns_lock_ = false]. *)
Definition unlock_end (i : nat) (o : lock_file) (last : bool) (e : event) (y : system) : option system :=
  match e with
  | Returns => Some (put_obj i (Obj (if last then Gone else Idle) (fd_ o) false (Ok false)) y)
  | _ => None
  end.
Definition step (i : nat) (e : event) (y : system) : option system :=
  match objs y !! i with
  | None => None
  | Some o =>
      if decide (e = Dies) then Some (died (proc i) y) else
      match at_ o with
      | Idle => called i o e y
      | LockOpen wait => lock_open i o wait e y
      | LockLock wait => lock_lock i o wait e y
      | LockTruncate => write_pid i o false e y
      | LockWrite => write_pid i o true e y
      | UnlockTruncate last => unlock_truncate i o last e y
      | UnlockUnlock last => unlock_unlock i o last e y
      | UnlockClose last => unlock_close i o last e y
      | UnlockEnd last => unlock_end i o last e y
      | Gone => None
      end
  end.

Inductive reachable (n : nat) (s : str) : system → Prop :=
  | reachable_start : reachable n s (System (replicate n posix_lock_file) None s)
  | reachable_step y i e y' : reachable n s y → step i e y = Some y' → reachable n s y'.

(** ** Invariant *)

(** What an object may rely on, for the lock [l] and the content [c] of the file. *)
Definition obj_ok (l : option nat) (c : str) (i : nat) (o : lock_file) : Prop :=
  match at_ o with
  | Idle => (owns_lock_ o = true → fd_ o = true ∧ l = Some (proc i)) ∧
      (result o = Ok true → owns_lock_ o = true ∧ c = pid_string (pid (proc i))) ∧
      (result o = Ok false → owns_lock_ o = false)
  | LockOpen _ => owns_lock_ o = false
  | LockLock _ => owns_lock_ o = false ∧ fd_ o = true
  | LockTruncate => owns_lock_ o = false ∧ fd_ o = true ∧ l = Some (proc i)
  | LockWrite => owns_lock_ o = false ∧ fd_ o = true ∧ l = Some (proc i) ∧ c = []
  | UnlockTruncate _ | UnlockUnlock _ | UnlockClose _ =>
      owns_lock_ o = true ∧ fd_ o = true ∧ l = Some (proc i)
  | UnlockEnd _ => owns_lock_ o = true ∧ fd_ o = false
  | Gone => owns_lock_ o = false ∧ fd_ o = false
  end.
Record inv (y : system) : Prop := {
  inv_obj i o : objs y !! i = Some o → obj_ok (locked y) (content y) i o;
  inv_locked p : locked y = Some p → ∃ i o, objs y !! i = Some o ∧ proc i = p ∧ fd_ o = true;
}.

(** Objects of other processes do not disturb. *)
Lemma obj_ok_stable l c l' c' i o :
  (l = Some (proc i) → l' = Some (proc i) ∧ c' = c) → obj_ok l c i o → obj_ok l' c' i o.
Proof. unfold obj_ok. destruct (at_ o); naive_solver. Qed.
Lemma unlocked_ne p q l : p ≠ q → l = Some q → unlocked p l = Some q.
Proof. intros Hne ->. unfold unlocked. by rewrite decide_False by congruence. Qed.
Lemma unlocked_Some p q l : unlocked p l = Some q → l = Some q ∧ p ≠ q.
Proof. unfold unlocked. case_decide; naive_solver. Qed.
Lemma closed_ne i o q l : proc i ≠ q → l = Some q → closed i o l = Some q.
Proof. unfold closed. destruct (fd_ o); [apply unlocked_ne|done]. Qed.

Section exclusive.
Context {proc_inj : Inj (=) (=) proc}.

Lemma inv_put y i o o' l' c' :
  inv y → objs y !! i = Some o → obj_ok l' c' i o' →
  (∀ q, proc i ≠ q → locked y = Some q → l' = Some q ∧ c' = content y) →
  (∀ q, l' = Some q → proc i ≠ q ∧ locked y = Some q ∨ proc i = q ∧ fd_ o' = true) →
  inv (System (<[i := o']> (objs y)) l' c').
Proof.
  intros [Hobj Hlock] Hi Ho' Hother Hlock'. split; cbn.
  - intros j oj [(-> & -> & _)|[Hne Hj]]%list_lookup_insert_Some; [done|].
    eapply obj_ok_stable; [|by apply Hobj]. intros Hl. apply Hother; [|done]. naive_solver.
  - intros q [[Hne Hq]|[<- Hfd]]%Hlock'.
    + destruct (Hlock q Hq) as (j & oj & Hj & Hp & Hfd). exists j, oj.
      rewrite list_lookup_insert_ne by congruence. done.
    + exists i, o'. split; [|done]. apply list_lookup_insert_eq. by eapply lookup_lt_Some.
Qed.
Lemma inv_died y p : inv y → inv (died p y).
Proof.
  intros [Hobj Hlock]. split; cbn.
  - intros i o. rewrite list_lookup_imap, fmap_Some. intros (o0 & Hi & ->). case_decide as Hp; [done|].
    eapply obj_ok_stable; [|by apply Hobj]. intros Hl. split; [|done]. by apply unlocked_ne.
  - intros q [Hq Hne]%unlocked_Some. destruct (Hlock q Hq) as (i & o & Hi & Hp & Hfd).
    exists i, o. rewrite list_lookup_imap, Hi. cbn. by rewrite decide_False by congruence.
Qed.
(** Only the object [i] of its process may hold the lock. *)
Lemma inv_own y i o : inv y → objs y !! i = Some o → locked y = Some (proc i) → fd_ o = true.
Proof. intros [_ Hlock] Hi (j & oj & Hj & ->%proc_inj & Hfd)%Hlock. congruence. Qed.
Lemma closed_own y i o : inv y → objs y !! i = Some o → closed i o (locked y) ≠ Some (proc i).
Proof.
  intros H Hi. unfold closed. destruct (fd_ o) eqn:E; [by intros [_ ?]%unlocked_Some|].
  intros Hl. by rewrite (inv_own y i o H Hi Hl) in E.
Qed.

(** The kinds of steps: the object alone changes, it closes its descriptor, it has the lock. *)
Lemma inv_alone y i o o' :
  inv y → objs y !! i = Some o → obj_ok (locked y) (content y) i o' → fd_ o' = fd_ o →
  inv (put_obj i o' y).
Proof.
  intros H Hi Ho' Hfd. apply (inv_put y i o); [done|done|done|done|]. intros q Hq.
  destruct (decide (proc i = q)) as [<-|]; [right|by left]. split; [done|]. rewrite Hfd.
  by apply (inv_own y i).
Qed.
Lemma inv_closes y i o o' :
  inv y → objs y !! i = Some o → obj_ok (closed i o (locked y)) (content y) i o' →
  inv (put_obj i o' (set_locked (closed i o (locked y)) y)).
Proof.
  intros H Hi Ho'. apply (inv_put y i o); [done|done|done| |].
  - intros q Hne Hq. split; [by apply closed_ne|done].
  - intros q Hq. left. pose proof (closed_own y i o H Hi). unfold closed in *.
    destruct (fd_ o); [apply unlocked_Some in Hq|]; naive_solver.
Qed.
Lemma inv_holder y i o o' l' c' :
  inv y → objs y !! i = Some o → (∀ q, proc i ≠ q → locked y ≠ Some q) → obj_ok l' c' i o' →
  l' = None ∨ l' = Some (proc i) ∧ fd_ o' = true → inv (System (<[i := o']> (objs y)) l' c').
Proof. intros H Hi Hq Ho' Hl. apply (inv_put y i o); [done|done|done|naive_solver|naive_solver]. Qed.

Lemma called_inv y i o e y' :
  inv y → objs y !! i = Some o → at_ o = Idle → called i o e y = Some y' → inv y'.
Proof.
  intros H Hi Hat Hs. pose proof (inv_obj _ H i o Hi) as Ho. unfold obj_ok in Ho. rewrite Hat in Ho.
  destruct Ho as (Ho & _).
  destruct e; try done; injection Hs as <-; destruct (owns_lock_ o) eqn:E; try (by apply inv_died);
    try (apply (inv_alone y i o); [done|done| |done]); unfold obj_ok; cbn; auto.
  by apply inv_closes.
Qed.
Lemma lock_lock_inv y i o wait e y' :
  inv y → objs y !! i = Some o → at_ o = LockLock wait → lock_lock i o wait e y = Some y' → inv y'.
Proof.
  intros H Hi Hat Hs. pose proof (inv_obj _ H i o Hi) as Ho. unfold obj_ok in Ho. rewrite Hat in Ho.
  destruct Ho as (Hw & Hfd). destruct e; try done; cbn in Hs.
  - case_decide as Hl; [|done]. injection Hs as <-. apply (inv_holder y i o);
      [done|done|naive_solver| |by right].
    done.
  - injection Hs as <-. apply (inv_alone y i o); [done|done| |done]. unfold obj_ok. cbn. rewrite Hw.
    split_and!; try done. by destruct (_ && _).
Qed.
Lemma write_pid_inv y i o written e y' :
  inv y → objs y !! i = Some o → at_ o = (if written : bool then LockWrite else LockTruncate) →
  write_pid i o written e y = Some y' → inv y'.
Proof.
  intros H Hi Hat Hs. pose proof (inv_obj _ H i o Hi) as Ho. unfold obj_ok in Ho. rewrite Hat in Ho.
  assert (owns_lock_ o = false ∧ fd_ o = true ∧ locked y = Some (proc i) ∧
    (written = true → content y = []))
    as (Hw & Hfd & Hl & Hc) by (destruct written; naive_solver). clear Ho.
  destruct e; try done; injection Hs as <-.
  - destruct written; (apply (inv_holder y i o); [done|done|naive_solver| |by right]); [|done].
    unfold obj_ok, overwrite. cbn. rewrite Hc by done. by rewrite drop_nil, app_nil_r.
  - apply (inv_alone y i o); [done|done| |done]. unfold obj_ok. cbn. rewrite Hw. split_and!; done.
Qed.
Lemma unlock_failed_inv y i o last e :
  inv y → objs y !! i = Some o → owns_lock_ o = true → fd_ o = true → locked y = Some (proc i) →
  inv (unlock_failed i o last e y).
Proof.
  intros H Hi Hw Hfd Hl. unfold unlock_failed. destruct last; [by apply inv_died|].
  apply (inv_alone y i o); [done|done| |done]. unfold obj_ok. cbn. split_and!; done.
Qed.
Lemma step_lock_file y i e y' : inv y → step i e y = Some y' → inv y'.
Proof.
  intros H Hs. unfold step in Hs. destruct (objs y !! i) as [o|] eqn:Hi; [|done].
  case_decide; [injection Hs as <-; by apply inv_died|].
  pose proof (inv_obj _ H i o Hi) as Ho. unfold obj_ok in Ho.
  destruct (at_ o) as [|wait|wait| | |last|last|last|last|] eqn:Hat;
    [by apply (called_inv y i o e)| |by apply (lock_lock_inv y i o wait e)
    |by apply (write_pid_inv y i o false e)|by apply (write_pid_inv y i o true e)| | | | |done].
  - destruct e; try done; injection Hs as <-; apply inv_closes; try done. unfold obj_ok. cbn.
    by rewrite Ho.
  - destruct Ho as (Hw & Hfd & Hl). destruct e; try done; injection Hs as <-;
      [|by apply unlock_failed_inv].
    apply (inv_holder y i o); [done|done|naive_solver|done|by right].
  - destruct Ho as (Hw & Hfd & Hl). destruct e; try done; injection Hs as <-;
      [|by apply unlock_failed_inv].
    by apply (inv_alone y i o).
  - destruct e; try done. injection Hs as <-. apply inv_closes; [done..|]. by destruct Ho.
  - destruct e; try done. injection Hs as <-. apply (inv_alone y i o); [done..| |done].
    by destruct last, Ho.
Qed.
Lemma reachable_lock_file n s y : reachable n s y → inv y.
Proof.
  induction 1 as [|y i e y' _ IH Hs]; [|by eapply step_lock_file]. split; cbn; [|done].
  by intros i o [-> _]%lookup_replicate.
Qed.

(** An object has the lock until [unlock] has given it back. *)
Definition holds (o : lock_file) : bool :=
  owns_lock_ o && match at_ o with UnlockEnd _ => false | _ => true end.
Lemma holds_locked y i o : inv y → objs y !! i = Some o → holds o = true → locked y = Some (proc i).
Proof.
  intros H Hi [Hw Hat]%andb_true_iff. pose proof (inv_obj _ H i o Hi) as Ho. unfold obj_ok in Ho.
  destruct (at_ o); try done; try (by apply Ho); destruct_and?; congruence.
Qed.

(** C36: when every process has one object for the file, no two objects have the lock at the same
    time, whichever calls fail and whichever processes die.  When [lock] or a
    successful [try_lock] has returned, the object has it and the file holds the number of its
    process (a [write] that does not fail is taken to write all of it).  A process has the lock of the file only while an object of it has the file open. *)
Theorem lock_file_exclusive n s y :
  reachable n s y →
  (∀ i j o o', objs y !! i = Some o → objs y !! j = Some o' → holds o = true → holds o' = true → i = j) ∧
  (∀ i o, objs y !! i = Some o → at_ o = Idle → result o = Ok true →
    holds o = true ∧ content y = pid_string (pid (proc i))) ∧
  (∀ p, locked y = Some p → ∃ i o, objs y !! i = Some o ∧ proc i = p ∧ fd_ o = true).
Proof.
  intros H%reachable_lock_file. split_and!.
  - intros i j o o' Hi Hj Ho Ho'. apply proc_inj.
    pose proof (holds_locked y i o H Hi Ho). pose proof (holds_locked y j o' H Hj Ho'). congruence.
  - intros i o Hi Hat Hr. pose proof (inv_obj _ H i o Hi) as Ho. unfold obj_ok in Ho. rewrite Hat in Ho.
    destruct Ho as (_ & Ho & _). destruct (Ho Hr) as [Hw Hc]. unfold holds. by rewrite Hw, Hat.
  - apply (inv_locked _ H).
Qed.
End exclusive.

Fixpoint run (l : list (nat * event)) (y : system) : option system :=
  match l with [] => Some y | (i, e) :: l => step i e y ≫= run l end.
Lemma lock_run_reachable n s l y y' : reachable n s y → run l y = Some y' → reachable n s y'.
Proof.
  revert y. induction l as [|[i e] l IH]; intros y Hy Hr; cbn in Hr; [congruence|].
  destruct (step i e y) eqn:E; [|done]. eapply IH; [|exact Hr]. by eapply reachable_step.
Qed.
End system.

(** ** Examples *)

(** The first object locks the file, and the second one does not get it. *)
Definition ex_calls : list (nat * event) := [
  (0, Lock); (0, Returns); (0, Returns); (0, Returns); (0, Returns);
  (1, TryLock); (1, Returns); (1, Fails EAGAIN)]%nat.
Definition ex_start : system := System (replicate 2 posix_lock_file) None (lit "old").
Definition ex_state : system := System [Obj Idle true true (Ok true); Obj Idle true false (Ok false)]
  (Some 0%nat) (lit "77").
Lemma lock_file_exclusive_witness :
  run id (λ _, 77) ex_calls ex_start = Some ex_state ∧
  objs ex_state !! 0%nat = Some (Obj Idle true true (Ok true)) ∧ content ex_state = pid_string 77.
Proof.
  assert (E : run id (λ _, 77) ex_calls ex_start = Some ex_state) by (vm_compute; reflexivity).
  assert (H : reachable id (λ _, 77) 2 (lit "old") ex_state)
    by (apply (lock_run_reachable _ _ _ _ ex_calls ex_start); [apply reachable_start|exact E]).
  apply lock_file_exclusive in H as (_ & H & _); [|apply _].
  split; [exact E|]. split; [reflexivity|]. apply (H 0%nat (Obj Idle true true (Ok true))); reflexivity.
Defined.

(** Two objects of one process both get the lock, and when one of them is destroyed the other one
    has lost it. *)
Example lock_file_same_process :
  run (λ _, 0%nat) (λ _, 77)
    [(0, Lock); (0, Returns); (0, Returns); (0, Returns); (0, Returns);
     (1, TryLock); (1, Returns); (1, Returns); (1, Returns); (1, Returns); (1, Destroy);
     (1, Returns); (1, Returns); (1, Returns); (1, Returns)]%nat ex_start =
  Some (System [Obj Idle true true (Ok true); gone] None []).
Proof. reflexivity. Qed.
(** An error in [write_pid] leaves the lock with a process that does not know it. *)
Example lock_file_write_fails :
  run id (λ _, 77) [(0, Lock); (0, Returns); (0, Returns); (0, Fails 5)]%nat ex_start =
  Some (System [Obj Idle true false (Throw (system_error 5)); posix_lock_file] (Some 0%nat) (lit "old")).
Proof. reflexivity. Qed.
(** [lock] of an object that has the lock does not wait but ends the process. *)
Example lock_file_lock_twice :
  run id (λ _, 77) [(0, Lock); (0, Returns); (0, Returns); (0, Returns); (0, Returns);
    (0, Lock)]%nat ex_start =
  Some (System [gone; posix_lock_file] None (lit "77")).
Proof. reflexivity. Qed.
End LockFile.
