(* ===== verification/Mqtt.v ===== *)
(** * MQTT client (ext/mqtt.hpp, ext/impl/mqtt.ipp)

    [client] wraps a connection object of libmosquitto: it owns the object, turns the error
    codes of the library into exceptions or error codes, and keeps the functions that the
    library calls when something happens.  Guards count the users of the library, which is
    initialised by the first and cleaned up by the last one; every client is a guard.  The
    library is a class: it keeps connections, each with the object that it passes to the
    callbacks and the callbacks that are set.  A call for a connection that does not exist, or
    of a library that is not initialised, is undefined.  Messages that are copied are not
    modelled. *)

From S2P Require Import Prelude.

Local Open Scope Z_scope.
Local Open Scope gpcl_scope.

(** ** The library *)

(** [errc], the error codes of libmosquitto. *)
Inductive code : Type :=
| AUTH_CONTINUE | NO_SUBSCRIBERS | SUB_EXISTS | CONN_PENDING | SUCCESS | NOMEM | PROTOCOL | INVAL
| NO_CONN | CONN_REFUSED | NOT_FOUND | CONN_LOST | TLS | PAYLOAD_SIZE | NOT_SUPPORTED | AUTH
| ACL_DENIED | UNKNOWN | ERRNO | EAI | PROXY | PLUGIN_DEFER | MALFORMED_UTF8 | KEEPALIVE | LOOKUP
| MALFORMED_PACKET | DUPLICATE_PROPERTY | TLS_HANDSHAKE | QOS_NOT_SUPPORTED | OVERSIZE_PACKET | OCSP.
#[export] Instance code_eq_dec : EqDecision code.
Proof. solve_decision. Defined.
(** [qos]. *)
Inductive qos : Type := at_most_once | at_least_once | exactly_once.
(** What a client can be told. *)
Inductive event : Type :=
| on_connect | on_disconnect | on_publish | on_message | on_subscribe | on_unsubscribe | on_log.
#[export] Instance event_eq_dec : EqDecision event.
Proof. solve_decision. Defined.

(** Calls of the library; [m] is a connection. *)
Inductive request : Type :=
| LibInit
| LibCleanup
| New (id : string) (clean_session : bool) (self : Z)
| Destroy (m : Z)
| WillSet (m : Z) (topic payload : string) (q : qos) (retain : bool)
| WillClear (m : Z)
| UsernamePwSet (m : Z) (username password : option string)
| Connect (m : Z) (host : string) (port keepalive : Z)
| ConnectAsync (m : Z) (host : string) (port keepalive : Z)
| Disconnect (m : Z)
| Reconnect (m : Z)
| ReconnectAsync (m : Z)
| Publish (m : Z) (topic payload : string) (q : qos) (retain : bool)
| Subscribe (m : Z) (pattern : string) (q : qos)
| Unsubscribe (m : Z) (pattern : string)
| Loop (m timeout_ms : Z)
| LoopStart (m : Z)
| LoopStop (m : Z) (force : bool)
| ProtocolVersion (m version : Z)
| ReceiveMaximum (m amount : Z)
| SendMaximum (m amount : Z)
| ReconnectDelaySet (m delay delay_max : Z) (exponential : bool)
| ThreadedSet (m : Z) (enabled : bool)
| CallbackSet (m : Z) (k : event).
(** The error code, the number that is returned through a pointer, and [errno]. *)
Record reply : Type := Reply { err : code; out : Z; errno : Z }.
(** A connection: what is passed to the callbacks, and which of them are set. *)
Record conn : Type := Conn { self : Z; hooks : event → bool }.

Class Mosquitto : Type := {
  lib : Type;
  call : request → lib → reply * lib;
  value : code → Z;
  inited : lib → bool;
  conns : lib → gmap Z conn;
}.
Definition set_hook (k : event) (c : conn) : conn :=
  Conn (self c) (λ k', if decide (k' = k) then true else hooks c k').
(** What a call does to the connections. *)
Definition effect (q : request) (o : Z) (C : gmap Z conn) : gmap Z conn :=
  match q with
  | New _ _ x => if o =? null then C else <[o := Conn x (λ _, false)]> C
  | Destroy m => delete m C
  | CallbackSet m k => alter (set_hook k) m C
  | _ => C
  end.
Class MosquittoOk `{!Mosquitto} : Prop := {
  value_success c : value c = 0 ↔ c = SUCCESS;
  call_init l r l' : call LibInit l = (r, l') → err r = SUCCESS ∧ inited l' = true;
  call_cleanup l r l' : call LibCleanup l = (r, l') → err r = SUCCESS ∧ inited l' = false;
  call_inited q l r l' : q ≠ LibInit → q ≠ LibCleanup → call q l = (r, l') → inited l' = inited l;
  call_effect q l r l' : call q l = (r, l') → conns l' = effect q (out r) (conns l);
  call_new id clean x l r l' : call (New id clean x) l = (r, l') → out r = null ∨
    conns l !! out r = None;
}.

Module Mqtt.

Section mqtt.
Context `{!Mosquitto}.

(** ** Objects *)

Record client : Type := Client { mosq_ : Z; connect_called_ : bool; cbs : event → option Z }.
(** [guards] is the number of guards that are not clients. *)
Record state : Type := State { lib_ : lib; init_count : Z; guards : Z; clients : gmap Z client }.
Abbreviation P A := (M state A).

Definition handle_of (q : request) : option Z :=
  match q with
  | LibInit | LibCleanup | New _ _ _ => None
  | Destroy m | WillSet m _ _ _ _ | WillClear m | UsernamePwSet m _ _ | Connect m _ _ _
  | ConnectAsync m _ _ _ | Disconnect m | Reconnect m | ReconnectAsync m | Publish m _ _ _ _
  | Subscribe m _ _ | Unsubscribe m _ | Loop m _ | LoopStart m | LoopStop m _
  | ProtocolVersion m _ | ReceiveMaximum m _ | SendMaximum m _ | ReconnectDelaySet m _ _ _
  | ThreadedSet m _ | CallbackSet m _ => Some m
  end.
Definition usable (q : request) (l : lib) : bool :=
  match q with
  | LibInit => true
  | _ => inited l && match handle_of q
    with Some m => bool_decide (is_Some (conns l !! m)) | None => true end
  end.
Definition lib_call (q : request) : P reply := λ s,
  if usable q (lib_ s) then
    let '(r, l) := call q (lib_ s) in (Ok r, State l (init_count s) (guards s) (clients s))
  else (Undef, s).
(** [GPCL_VERIFY_(MOSQ_ERR_SUCCESS, ...)]. *)
Definition verify (q : request) : P unit :=
  let! r := lib_call q in gpcl_assert (bool_decide (err r = SUCCESS)).

Definition get_client (x : Z) : P client := λ s,
  match clients s !! x with Some c => (Ok c, s) | None => (Undef, s) end.
Definition set_client (x : Z) (c : client) : P unit :=
  modify (λ s, State (lib_ s) (init_count s) (guards s) (<[x := c]> (clients s))).
(** [init_count.fetch_add(n)] of a [std::atomic<int>]. *)
Definition add_count (n : Z) : P Z := λ s,
  (Ok (init_count s), State (lib_ s) (i32 (init_count s + n)) (guards s) (clients s)).

(** [std::error_code]: a value and its category. *)
Inductive category : Type := mqtt_category | system_category.
Record error_code : Type := Ec { ec_value : Z; ec_category : category }.
Definition clear : error_code := Ec 0 system_category.
Definition of_mosq (c : code) : error_code := Ec (value c) mqtt_category.
Definition of_errno (r : reply) : error_code := Ec (errno r) system_category.
Definition make_error_code (c : code) : error_code := of_mosq c.
(** The overloads without an error code throw it. *)
Definition throwing {A} (m : P (A * error_code)) : P A :=
  let! '(a, ec) := m in
  if ec_value ec =? 0 then ret a else throw (system_error (ec_value ec)).

(** ** Guards, construction and destruction *)

Definition mqtt_init_guard : P unit :=
  let! n := add_count 1 in
  if n =? 0 then verify LibInit else ret tt.
Definition destroy_guard : P unit :=
  let! n := add_count (-1) in
  if n =? 1 then verify LibCleanup else ret tt.

Definition ENOMEM : Z := 12.
(** A constructor that throws destroys the base object. *)
Definition construct (x : Z) (id : string) (clean_session : bool) : P unit :=
  mqtt_init_guard ;;;
  try_catch
    (let! r := lib_call (New id clean_session x) in
     if out r =? null then
       if errno r =? ENOMEM then throw (system_error ENOMEM) else abort
     else set_client x (Client (out r) false (λ _, None)))
    destroy_guard.
Definition destruct_ (x : Z) : P unit :=
  let! c := get_client x in
  lib_call (Destroy (mosq_ c)) ;;;
  modify (λ s, State (lib_ s) (init_count s) (guards s) (delete x (clients s))) ;;;
  destroy_guard.

(** ** Connections *)

Definition set_will (x : Z) (topic payload : string) (t_qos : qos) (t_retain : bool) : P unit :=
  let! c := get_client x in
  let! r := lib_call (WillSet (mosq_ c) topic payload t_qos t_retain) in
  match err r with
  | SUCCESS => ret tt
  | NOMEM | PAYLOAD_SIZE => throw (system_error (value (err r)))
  | _ => abort
  end.
Definition clear_will (x : Z) : P unit :=
  let! c := get_client x in verify (WillClear (mosq_ c)).
Definition username_and_password_ec (x : Z) (username password : option string) :
    P (unit * error_code) :=
  let! c := get_client x in
  gpcl_assert (negb (connect_called_ c)) ;;;
  let! r := lib_call (UsernamePwSet (mosq_ c) username password) in
  match err r with
  | SUCCESS => ret (tt, clear)
  | NOMEM => ret (tt, of_mosq (err r))
  | _ => abort
  end.
Definition username_and_password (x : Z) (username password : option string) : P unit :=
  throwing (username_and_password_ec x username password).
Definition disable_authentication (x : Z) : P unit := username_and_password x None None.

Definition call_connect (x : Z) : P client :=
  let! c := get_client x in
  let c' := Client (mosq_ c) true (cbs c) in set_client x c' ;;; ret c'.
Definition connect_ec (x : Z) (host : string) (port keepalive_sec : Z) : P (unit * error_code) :=
  let! c := call_connect x in
  let! r := lib_call (Connect (mosq_ c) host port keepalive_sec) in
  match err r with
  | SUCCESS => ret (tt, clear)
  | ERRNO => ret (tt, of_errno r)
  | _ => abort
  end.
Definition connect (x : Z) (host : string) (port keepalive_sec : Z) : P unit :=
  throwing (connect_ec x host port keepalive_sec).
Definition async_connect_ec (x : Z) (host : string) (port keepalive_sec : Z) : P (unit * error_code) :=
  let! c := call_connect x in
  let! r := lib_call (ConnectAsync (mosq_ c) host port keepalive_sec) in
  match err r with
  | SUCCESS => ret (tt, clear)
  | ERRNO => ret (tt, of_errno r)
  | INVAL => ret (tt, of_mosq (err r))
  | _ => abort
  end.
Definition async_connect (x : Z) (host : string) (port keepalive_sec : Z) : P unit :=
  throwing (async_connect_ec x host port keepalive_sec).
Definition disconnect_ec (x : Z) : P (unit * error_code) :=
  let! c := get_client x in
  let! r := lib_call (Disconnect (mosq_ c)) in
  match err r with
  | SUCCESS => ret (tt, clear)
  | NO_CONN => ret (tt, of_mosq (err r))
  | _ => abort
  end.
Definition disconnect (x : Z) : P unit := throwing (disconnect_ec x).
Definition reconnect_with (request : Z → request) (x : Z) : P (unit * error_code) :=
  let! c := get_client x in
  gpcl_assert (connect_called_ c) ;;;
  let! r := lib_call (request (mosq_ c)) in
  match err r with
  | SUCCESS => ret (tt, clear)
  | NOMEM => ret (tt, of_mosq (err r))
  | ERRNO => ret (tt, of_errno r)
  | _ => abort
  end.
Definition reconnect_ec (x : Z) : P (unit * error_code) := reconnect_with Reconnect x.
Definition reconnect (x : Z) : P unit := throwing (reconnect_ec x).
Definition async_reconnect_ec (x : Z) : P (unit * error_code) := reconnect_with ReconnectAsync x.
Definition async_reconnect (x : Z) : P unit := throwing (async_reconnect_ec x).

(** ** Messages *)

Definition publish_ec (x : Z) (topic payload : string) (t_qos : qos) (t_retain : bool) :
    P (Z * error_code) :=
  let! c := get_client x in
  let! r := lib_call (Publish (mosq_ c) topic payload t_qos t_retain) in
  match err r with
  | SUCCESS => ret (out r, clear)
  | NOMEM | NO_CONN | PROTOCOL | PAYLOAD_SIZE | MALFORMED_UTF8 | OVERSIZE_PACKET => ret (0,
    of_mosq (err r))
  | _ => abort
  end.
Definition publish (x : Z) (topic payload : string) (t_qos : qos) (t_retain : bool) : P Z :=
  throwing (publish_ec x topic payload t_qos t_retain).
Definition subscribe_ec (x : Z) (pattern : string) (t_qos : qos) : P (Z * error_code) :=
  let! c := get_client x in
  let! r := lib_call (Subscribe (mosq_ c) pattern t_qos) in
  match err r with
  | SUCCESS => ret (out r, clear)
  | NOMEM | NO_CONN | MALFORMED_UTF8 | OVERSIZE_PACKET => ret (0, of_mosq (err r))
  | _ => abort
  end.
Definition subscribe (x : Z) (pattern : string) (t_qos : qos) : P Z :=
  throwing (subscribe_ec x pattern t_qos).
Definition unsubscribe_ec (x : Z) (pattern : string) : P (Z * error_code) :=
  let! c := get_client x in
  let! r := lib_call (Unsubscribe (mosq_ c) pattern) in
  match err r with
  | SUCCESS => ret (out r, clear)
  | NOMEM | NO_CONN | MALFORMED_UTF8 | OVERSIZE_PACKET => ret (0, of_mosq (err r))
  | _ => abort
  end.
Definition unsubscribe (x : Z) (pattern : string) : P Z := throwing (unsubscribe_ec x pattern).
Definition poll_ec (x timeout_ms : Z) : P (unit * error_code) :=
  let! c := get_client x in
  let! r := lib_call (Loop (mosq_ c) timeout_ms) in
  match err r with
  | SUCCESS => ret (tt, clear)
  | NOMEM | NO_CONN | CONN_LOST | PROTOCOL => ret (tt, of_mosq (err r))
  | ERRNO => ret (tt, of_errno r)
  | _ => abort
  end.
Definition poll (x timeout_ms : Z) : P unit := throwing (poll_ec x timeout_ms).

(** ** Settings *)

Definition loop_start (x : Z) : P unit := let! c := get_client x in verify (LoopStart (mosq_ c)).
Definition loop_stop (x : Z) : P unit := let! c := get_client x in verify (LoopStop (mosq_ c) false).
Definition loop_stop_force (x : Z) : P unit := let! c := get_client x
    in verify (LoopStop (mosq_ c) true).
(** [async_loop_guard] and its destructor. *)
Definition async_loop_guard (x : Z) : P unit := loop_start x.
Definition destroy_loop_guard (x : Z) : P unit := noexcept (loop_stop x).
Definition protocol_version (x version : Z) : P unit :=
  let! c := get_client x in
  gpcl_assert (negb (connect_called_ c)) ;;;
  verify (ProtocolVersion (mosq_ c) version).
Definition receive_maximum (x amount : Z) : P unit := let! c := get_client x
    in verify (ReceiveMaximum (mosq_ c) amount).
Definition send_maximum (x amount : Z) : P unit := let! c := get_client x
    in verify (SendMaximum (mosq_ c) amount).
Definition reconnect_delay (x delay_sec delay_max_sec : Z) (exponential_backoff : bool) : P unit :=
  let! c := get_client x
    in verify (ReconnectDelaySet (mosq_ c) delay_sec delay_max_sec exponential_backoff).
Definition threaded (x : Z) (enabled : bool) : P unit := let! c := get_client x
    in verify (ThreadedSet (mosq_ c) enabled).

(** ** Callbacks *)

Definition set_cb (k : event) (f : option Z) (c : client) : client :=
  Client (mosq_ c) (connect_called_ c) (λ k', if decide (k' = k) then f else cbs c k').
(** [connect_callback], [disconnect_callback] and the others; [f] names a function, [None] is an
    empty [std::function]. *)
Definition set_callback (k : event) (x : Z) (f : option Z) : P unit :=
  let! c := get_client x in
  set_client x (set_cb k f c) ;;;
  lib_call (CallbackSet (mosq_ c) k) ;;; ret tt.
(** [log_callback]: [log_cb_ = std::move(log_cb_)], which leaves the function as it was. *)
Definition log_callback (x : Z) (f : option Z) : P unit :=
  let! c := get_client x in
  set_client x (set_cb on_log (cbs c on_log) c) ;;;
  lib_call (CallbackSet (mosq_ c) on_log) ;;; ret tt.
(** The library calls what is set for a connection: the function that is called.  [qos_count]
    is an argument of the subscribe callback. *)
Definition deliver (m : Z) (k : event) (qos_count : Z) : P (option Z) :=
  let! s := get in
  match conns (lib_ s) !! m with
  | Some cn =>
      if hooks cn k then
        (if decide (k = on_subscribe) then gpcl_assert (qos_count <=? 10) else ret tt) ;;;
        let! c := get_client (self cn) in
        match cbs c k with Some f => ret (Some f) | None => throw bad_function_call end
      else ret None
  | None => ret None
  end.

(** ** Programs *)

Inductive action : Type :=
| SetWill (topic payload : string) (q : qos) (retain : bool)
| ClearWill
| UsernameAndPassword (username password : option string)
| Connect_ (host : string) (port keepalive : Z)
| AsyncConnect (host : string) (port keepalive : Z)
| Disconnect_
| Reconnect_
| AsyncReconnect
| Publish_ (topic payload : string) (q : qos) (retain : bool)
| Subscribe_ (pattern : string) (q : qos)
| Unsubscribe_ (pattern : string)
| Poll (timeout_ms : Z)
| LoopStart_
| LoopStop_ (force : bool)
| ProtocolVersion_ (version : Z)
| ReceiveMaximum_ (amount : Z)
| SendMaximum_ (amount : Z)
| ReconnectDelay (delay delay_max : Z) (exponential : bool)
| Threaded (enabled : bool).
Definition run_action (x : Z) (a : action) : P unit :=
  match a with
  | SetWill t p q r => set_will x t p q r
  | ClearWill => clear_will x
  | UsernameAndPassword u p => username_and_password x u p
  | Connect_ h p k => connect x h p k
  | AsyncConnect h p k => async_connect x h p k
  | Disconnect_ => disconnect x
  | Reconnect_ => reconnect x
  | AsyncReconnect => async_reconnect x
  | Publish_ t p q r => publish x t p q r ;;; ret tt
  | Subscribe_ p q => subscribe x p q ;;; ret tt
  | Unsubscribe_ p => unsubscribe x p ;;; ret tt
  | Poll t => poll x t
  | LoopStart_ => loop_start x
  | LoopStop_ f => if f then loop_stop_force x else loop_stop x
  | ProtocolVersion_ v => protocol_version x v
  | ReceiveMaximum_ n => receive_maximum x n
  | SendMaximum_ n => send_maximum x n
  | ReconnectDelay d m e => reconnect_delay x d m e
  | Threaded b => threaded x b
  end.
Inductive op : Type :=
| Guard
| Unguard
| Construct (x : Z) (id : string) (clean_session : bool)
| Destruct (x : Z)
| SetCallback (k : event) (x : Z) (f : option Z)
| LogCallback (x : Z) (f : option Z)
| Act (x : Z) (a : action).
Definition add_guards (n : Z) : P unit :=
  modify (λ s, State (lib_ s) (init_count s) (guards s + n) (clients s)).
Definition run_op (o : op) : P unit :=
  match o with
  | Guard => mqtt_init_guard ;;; add_guards 1
  | Unguard => destroy_guard ;;; add_guards (-1)
  | Construct x id clean => construct x id clean
  | Destruct x => destruct_ x
  | SetCallback k x f => set_callback k x f
  | LogCallback x f => log_callback x f
  | Act x a => run_action x a
  end.
(** Objects are used while they live, and there are not as many that the count overflows. *)
Definition users (s : state) : Z := guards s + Z.of_nat (size (clients s)).
Definition allowed (s : state) (o : op) : Prop :=
  match o with
  | Guard => users s + 1 < 2 ^ 31
  | Unguard => 0 < guards s
  | Construct x _ _ => clients s !! x = None ∧ users s + 1 < 2 ^ 31
  | SetCallback k x _ => k ≠ on_log ∧ is_Some (clients s !! x)
  | Destruct x | LogCallback x _ | Act x _ => is_Some (clients s !! x)
  end.
(** What the specification keeps: for each client what was set last, if anything. *)
Abbreviation table := (gmap Z (event → option (option Z))).
Definition spec (o : op) (T : table) : table :=
  match o with
  | Construct x _ _ => <[x := λ _, None]> T
  | Destruct x => delete x T
  | SetCallback k x f => alter (λ g k', if decide (k' = k) then Some f else g k') x T
  | _ => T
  end.
Inductive run : state → table → Prop :=
| run_begin l : inited l = false → conns l = ∅ → run (State l 0 0 ∅) ∅
| run_ok o s T s' : run s T → allowed s o → run_op o s = (Ok tt, s') → run s' (spec o T)
| run_throw o s T e s' : run s T → allowed s o → run_op o s = (Throw e, s') → run s' T.
End mqtt.

(** ** Invariant *)

Section specs.
Context {MQ : Mosquitto} {MQ_ok : MosquittoOk}.

(** A client, its connection and the functions that were set. *)
Record linked (x : Z) (c : client) (cn : conn) (g : event → option (option Z)) : Prop := {
  linked_self : self cn = x;
  linked_cbs k : k ≠ on_log → cbs c k = g k ≫= id;
  linked_hooks k : k ≠ on_log → hooks cn k = bool_decide (is_Some (g k));
  linked_log : cbs c on_log = None;
}.
(** [e] counts the guards of objects that are being constructed or destroyed. *)
Record inv (e : Z) (s : state) (T : gmap Z (event → option (option Z))) : Prop := {
  inv_guards : 0 ≤ guards s;
  inv_count : init_count s = users s + e;
  inv_bound : init_count s < 2 ^ 31;
  inv_init : inited (lib_ s) = bool_decide (0 < init_count s);
  inv_dom : dom T = dom (clients s);
  inv_client x c g : clients s !! x = Some c → T !! x = Some g →
    ∃ cn, conns (lib_ s) !! mosq_ c = Some cn ∧ linked x c cn g;
  inv_conn m cn : conns (lib_ s) !! m = Some cn → ∃ c, clients s !! self cn = Some c ∧ mosq_ c = m;
}.

Lemma inv_table s T x c : inv 0 s T → clients s !! x = Some c → ∃ g, T !! x = Some g.
Proof. intros H Hx. apply elem_of_dom. rewrite (inv_dom 0 s T H). apply elem_of_dom. eauto. Qed.
Lemma inv_inited s T x c : inv 0 s T → clients s !! x = Some c → inited (lib_ s) = true.
Proof.
  intros H Hx. rewrite (inv_init 0 s T H). apply bool_decide_eq_true. rewrite (inv_count 0 s T H).
  pose proof (inv_guards 0 s T H). unfold users.
  assert (size (clients s) ≠ O); [|lia]. intros Hs%map_size_empty_inv. by rewrite Hs, lookup_empty in Hx.
Qed.
Lemma inv_usable s T x c q :
  inv 0 s T → clients s !! x = Some c → handle_of q = Some (mosq_ c) → usable q (lib_ s) = true.
Proof.
  intros H Hx Hq. destruct (inv_table s T x c H Hx) as [g Hg].
  destruct (inv_client 0 s T H x c g Hx Hg) as (cn & Hcn & _).
  unfold usable. rewrite Hq, (inv_inited s T x c H Hx), bool_decide_eq_true_2 by (rewrite Hcn;
    eauto). by destruct q.
Qed.

Lemma safe_get_client {A} P (Q : A → state → Prop) x c (k : client → M state A) s :
  clients s !! x = Some c → safe P Q (k c) s → safe P Q (bind (get_client x) k) s.
Proof. intros Hx Hk. apply safe_bind. unfold safe, get_client. by rewrite Hx. Qed.
Lemma safe_assert {A} P (Q : A → state → Prop) b (k : unit → M state A) s :
  (b = true → safe P Q (k tt) s) → safe P Q (bind (gpcl_assert b) k) s.
Proof. intros Hk. destruct b; [by apply Hk|done]. Qed.
Lemma safe_throwing {A} P (m : M state (A * error_code)) s :
  safe P (λ _, P) m s → safe P (λ _, P) (throwing m) s.
Proof. intros Hm. apply safe_bind. eapply safe_mono; [exact Hm|]. intros [a ec] s' Hs'.
  by destruct (_ =? _). Qed.

(** Calls that do not touch the connections. *)
Definition neutral (q : request) : Prop :=
  match q with LibInit | LibCleanup | New _ _ _ | Destroy _ | CallbackSet _ _ => False | _ => True end.
Lemma lib_call_neutral {A} P (Q : A → state → Prop) s T x c q (k : reply → M state A) :
  inv 0 s T → clients s !! x = Some c → neutral q → handle_of q = Some (mosq_ c) →
  (∀ r s', inv 0 s' T → safe P Q (k r) s') → safe P Q (bind (lib_call q) k) s.
Proof.
  intros H Hx Hn Hq Hk. apply safe_bind. unfold safe, lib_call. rewrite (inv_usable s T x c q H Hx Hq).
  destruct (call q (lib_ s)) as [r l] eqn:Hcall. apply Hk. pose proof (call_effect _ _ _ _ Hcall) as He.
  assert (inited l = inited (lib_ s)) as Hi by (apply (call_inited q _ r);
    [by intros ->|by intros ->|done]).
  assert (conns l = conns (lib_ s)) as Hc by (rewrite He; by destruct q). destruct H.
  constructor; cbn; rewrite ?Hi, ?Hc; done.
Qed.
Lemma verify_neutral s T x c q :
  inv 0 s T → clients s !! x = Some c → neutral q → handle_of q = Some (mosq_ c) →
  safe (λ s', inv 0 s' T) (λ _ s', inv 0 s' T) (verify q) s.
Proof. intros H Hx Hn Hq. eapply lib_call_neutral; try done. intros r s' H'.
  by destruct (bool_decide _). Qed.
Lemma call_connect_safe {A} P (Q : A → state → Prop) s T x c (k : client → M state A) :
  inv 0 s T → clients s !! x = Some c →
  (∀ c' s', inv 0 s' T → clients s' !! x = Some c' → safe P Q (k c') s') →
    safe P Q (bind (call_connect x) k) s.
Proof.
  intros H Hx Hk. apply safe_bind, (safe_get_client _ _ x c); [done|]. cbn.
  apply Hk; cbn; [|apply lookup_insert_eq]. destruct H as [H1 H2 Hb H3 H4 H5 H6].
  constructor; cbn; [done| |done|done| |..].
  - unfold users in *. cbn. by rewrite map_size_insert_Some by eauto.
  - rewrite H4. symmetry. apply dom_insert_lookup_L. eauto.
  - intros y d g Hy Hg. apply lookup_insert_Some in Hy as [[<- <-]|[Hne Hy]]; [|by eapply H5].
    destruct (H5 x c g Hx Hg) as (cn & Hcn & []). exists cn. by split.
  - intros m cn Hm. destruct (H6 m cn Hm) as (d & Hd & Hdm).
    destruct (decide (self cn = x)) as [Heq|Hne]; [|exists d; by rewrite lookup_insert_ne].
    rewrite Heq in *. simplify_eq. eexists. split; [apply lookup_insert_eq|done].
Qed.
Lemma action_safe s T x a :
  inv 0 s T → is_Some (clients s !! x) → safe (λ s', inv 0 s' T) (λ _ s', inv 0 s' T) (run_action x a) s.
Proof.
  intros H [c Hx].
  assert (Hret : ∀ A (m : M state A), safe (λ s', inv 0 s' T) (λ _ s', inv 0 s' T) m s →
    safe (λ s', inv 0 s' T) (λ _ s', inv 0 s' T) (m ;;; ret tt) s).
  { intros A m Hm. apply safe_bind. by eapply safe_mono. }
  destruct a; cbn [run_action]; try case_match; try apply Hret; try apply safe_throwing;
    try (eapply call_connect_safe; [done|done|]; clear H; intros c' s' H Hx');
    try (apply (safe_get_client _ _ x c); [done|]); try apply safe_assert; intros;
    first [by eapply verify_neutral|eapply lib_call_neutral; try done; intros r s1 H1;
      destruct (err r); done].
Qed.

(** ** Guards *)

Lemma safe_try {A} P (Q : A → state → Prop) (m : M state A) h s :
  safe (λ s', safe P (λ _, P) h s') Q m s → safe P Q (try_catch m h) s.
Proof. unfold safe, try_catch, bind. destruct (m s) as [[a|e| | |] s']; try done.
  by destruct (h s') as [[[]| | | |] ?]. Qed.
Lemma i32_small n : 0 ≤ n < 2 ^ 31 → i32 n = n.
Proof. intros Hn. unfold i32, sint. rewrite Z.mod_small by lia. lia. Qed.
Lemma init_guard_safe P e s T :
  inv e s T → 0 ≤ e → users s + e + 1 < 2 ^ 31 → safe P (λ _ s', inv (e + 1) s' T ∧ clients s' = clients s) mqtt_init_guard s.
Proof.
  intros [H1 H2 Hb H3 H4 H5 H6] He Hmax. assert (0 ≤ users s) by (unfold users; lia).
  unfold mqtt_init_guard. apply safe_bind. unfold safe at 1, add_count.
  rewrite i32_small by lia. destruct (Z.eqb_spec (init_count s) 0) as [H0|H0].
  - apply safe_bind. unfold safe at 1, lib_call. cbn.
    destruct (call LibInit (lib_ s)) as [r l] eqn:Hcall.
    destruct (call_init _ _ _ Hcall) as [-> Hl]. pose proof (call_effect _ _ _ _ Hcall) as Hc.
    cbn in Hc. split; [|done].
    constructor; cbn; rewrite ?Hc; try done; [unfold users in *; cbn; lia|lia|]. rewrite Hl. symmetry.
    apply bool_decide_eq_true. lia.
  - split; [|done]. constructor; cbn; try done; [unfold users in *; cbn; lia|lia|]. rewrite H3. apply bool_decide_ext. lia.
Qed.
Lemma destroy_guard_safe P e s T :
  inv (e + 1) s T → 0 ≤ users s + e →
  safe P (λ _ s', inv e s' T ∧ guards s' = guards s) destroy_guard s.
Proof.
  intros [H1 H2 Hb H3 H4 H5 H6] He. unfold destroy_guard. apply safe_bind. unfold safe at 1, add_count.
  rewrite i32_small by lia. destruct (Z.eqb_spec (init_count s) 1) as [H0|H0].
  - apply safe_bind. unfold safe at 1, lib_call. cbn. rewrite H3, bool_decide_eq_true_2 by lia. cbn.
    destruct (call LibCleanup (lib_ s)) as [r l] eqn:Hcall.
    destruct (call_cleanup _ _ _ Hcall) as [-> Hl]. pose proof (call_effect _ _ _ _ Hcall) as Hc.
    cbn in Hc. split; [|done].
    constructor; cbn; rewrite ?Hc; try done; [unfold users in *; cbn; lia|lia|]. rewrite Hl. symmetry.
    apply bool_decide_eq_false. lia.
  - split; [|done]. constructor; cbn; try done; [unfold users in *; cbn; lia|lia|]. rewrite H3. apply bool_decide_ext. lia.
Qed.

(** ** Construction and destruction *)

Lemma construct_safe s T x id clean :
  inv 0 s T → clients s !! x = None → users s + 1 < 2 ^ 31 →
  safe (λ s', inv 0 s' T) (λ _ s', inv 0 s' (<[x := λ _, None]> T)) (construct x id clean) s.
Proof.
  intros H Hx Hmax. apply safe_bind. eapply safe_mono; [apply (init_guard_safe _ 0); [done|lia|lia]|].
  intros _ s1 [H' Hcl]. rewrite <-Hcl in Hx. clear s H Hcl Hmax.
  apply safe_try, safe_bind. unfold safe at 1, lib_call.
  assert (usable (New id clean x) (lib_ s1) = true) as ->.
  { cbn. rewrite (inv_init _ _ _ H'), andb_true_r. apply bool_decide_eq_true.
      rewrite (inv_count _ _ _ H'). pose proof (inv_guards _ _ _ H'). unfold users. lia. }
  destruct (call _ _) as [r l] eqn:Hcall. pose proof (call_effect _ _ _ _ Hcall) as Hc.
  assert (inited l = inited (lib_ s1)) as Hi by (by apply (call_inited (New id clean x) _ r)).
  apply call_new in Hcall. cbn in Hc.
  destruct (Z.eqb_spec (out r) null) as [Hn|Hn].
  - destruct (_ =? ENOMEM); [|done]. unfold safe at 1. cbn.
    eapply safe_mono;
      [apply (destroy_guard_safe _ 0) with (T := T); [|unfold users; cbn; pose proof (inv_guards _ _ _ H'); lia]|
      by intros _ s2 []].
    destruct H' as [H1 H2 Hb H3 H4 H5 H6]. constructor; cbn; rewrite ?Hi, ?Hc; done.
  - destruct Hcall as [?|Hnew]; [done|]. destruct H' as [H1 H2 Hb H3 H4 H5 H6].
    constructor; cbn; rewrite ?Hi, ?Hc; try done.
    + unfold users in *. cbn. rewrite map_size_insert_None by done. lia.
    + by rewrite !dom_insert_L, H4.
    + intros y c g Hy Hg. apply lookup_insert_Some in Hy as [[<- <-]|[Hne Hy]].
      * rewrite lookup_insert_eq in Hg. injection Hg as <-. eexists.
        split; [apply lookup_insert_eq|]. by split.
      * rewrite lookup_insert_ne in Hg by done. destruct (H5 y c g Hy Hg) as (cn & Hcn & Hl).
        exists cn. rewrite lookup_insert_ne; [done|congruence].
    + intros m cn Hm. apply lookup_insert_Some in Hm as [[<- <-]|[Hne Hm]];
        [eexists; split; [apply lookup_insert_eq|done]|].
      destruct (H6 m cn Hm) as (c & Hcl & Hcm). exists c. rewrite lookup_insert_ne; [done|congruence].
Qed.
Lemma destruct_safe s T x :
  inv 0 s T → is_Some (clients s !! x) →
    safe (λ _, False) (λ _ s', inv 0 s' (delete x T)) (destruct_ x) s.
Proof.
  intros H [c Hx]. apply (safe_get_client _ _ x c); [done|]. apply safe_bind. unfold safe at 1, lib_call.
  rewrite (inv_usable s T x c (Destroy (mosq_ c)) H Hx eq_refl).
  destruct (call _ _) as [r l] eqn:Hcall. pose proof (call_effect _ _ _ _ Hcall) as Hc. cbn in Hc.
  assert (inited l = inited (lib_ s)) as Hi by (by apply (call_inited (Destroy (mosq_ c)) _ r)).
  apply safe_bind. unfold safe at 1. cbn.
  eapply safe_mono; [apply (destroy_guard_safe _ 0) with (T := delete x T);
    [|unfold users; cbn; pose proof (inv_guards _ _ _ H); lia]|by intros _ s2 []].
  destruct (inv_table s T x c H Hx) as [g0 Hg0]. destruct H as [H1 H2 Hb H3 H4 H5 H6].
  destruct (H5 x c g0 Hx Hg0) as (cn0 & Hcn0 & [Hself _ _ _]). constructor; cbn; rewrite ?Hi, ?Hc;
    try done.
  - unfold users in *. cbn. rewrite map_size_delete_Some by eauto. assert (size (clients s) ≠ O); [|lia].
    intros Hs%map_size_empty_inv. by rewrite Hs, lookup_empty in Hx.
  - by rewrite !dom_delete_L, H4.
  - intros y d g [Hne Hy]%lookup_delete_Some [_ Hg]%lookup_delete_Some.
    destruct (H5 y d g Hy Hg) as (cn & Hcn & Hl). exists cn. split; [|done].
    rewrite lookup_delete_ne; [done|]. intros Heq. destruct Hl as [Hs _ _ _]. rewrite Heq in Hcn0.
    congruence.
  - intros m cn [Hne Hm]%lookup_delete_Some. destruct (H6 m cn Hm) as (d & Hd & Hdm). exists d.
    rewrite lookup_delete_ne; [done|]. intros Heq. congruence.
Qed.

(** ** Callbacks *)

Lemma callback_safe s T T' x c c' k :
  inv 0 s T → clients s !! x = Some c → mosq_ c' = mosq_ c → dom T' = dom T →
    (∀ y, y ≠ x → T' !! y = T !! y) →
  (∀ cn g g', T !! x = Some g → T' !! x = Some g' → linked x c cn g → linked x c' (set_hook k cn) g') →
  safe (λ _, False) (λ _ s', inv 0 s' T') (set_client x c' ;;;
    lib_call (CallbackSet (mosq_ c) k) ;;; ret tt) s.
Proof.
  intros H Hx Hm Hdom Hoff Hl. apply safe_bind. unfold safe at 1. cbn. apply safe_bind.
  unfold safe at 1, lib_call.
  change (lib_ (State (lib_ s) (init_count s) (guards s) (<[x := c']> (clients s)))) with (lib_ s).
  rewrite (inv_usable s T x c (CallbackSet (mosq_ c) k) H Hx eq_refl).
  destruct (call _ _) as [r l] eqn:Hcall. pose proof (call_effect _ _ _ _ Hcall) as Hc. cbn in Hc.
  assert (inited l = inited (lib_ s)) as Hi by (by apply (call_inited (CallbackSet (mosq_ c) k) _ r)).
  destruct (inv_table s T x c H Hx) as [g0 Hg0]. destruct H as [H1 H2 Hb H3 H4 H5 H6].
  destruct (H5 x c g0 Hx Hg0) as (cn0 & Hcn0 & Hl0).
  unfold safe. cbn. constructor; cbn; rewrite ?Hi, ?Hc; try done.
  - unfold users in *. cbn. by rewrite map_size_insert_Some by eauto.
  - rewrite Hdom, H4. symmetry. apply dom_insert_lookup_L. eauto.
  - intros y d g Hy Hg. apply lookup_insert_Some in Hy as [[<- <-]|[Hne Hy]].
    + exists (set_hook k cn0). split; [by rewrite Hm, lookup_alter_eq, Hcn0|by eapply Hl].
    + rewrite Hoff in Hg by done. destruct (H5 y d g Hy Hg) as (cn & Hcn & Hlk). exists cn.
      split; [|done]. rewrite lookup_alter_ne; [done|]. intros Heq. rewrite Heq in Hcn0.
      destruct Hlk as [Hs _ _ _], Hl0 as [Hs0 _ _ _]. congruence.
  - assert (∀ cn, self (set_hook k cn) = self cn) as Hsh by done. intros m cn Hmm.
    assert (∃ cn1, conns (lib_ s) !! m = Some cn1 ∧ self cn1 = self cn) as (cn1 & Hcn1 & <-).
    { destruct (decide (mosq_ c = m)) as [<-|Hne];
        [rewrite lookup_alter_eq, Hcn0 in Hmm; injection Hmm as <-;
        eauto|rewrite lookup_alter_ne in Hmm by done; eauto]. }
    destruct (H6 m cn1 Hcn1) as (d & Hd & Hdm). destruct (decide (self cn1 = x)) as [Heq|Hne];
      [|exists d; by rewrite lookup_insert_ne].
    rewrite Heq in *. simplify_eq. exists c'. by rewrite lookup_insert_eq.
Qed.
Lemma set_callback_safe s T k x f :
  inv 0 s T → k ≠ on_log → is_Some (clients s !! x) →
  safe (λ _, False) (λ _ s', inv 0 s' (spec (SetCallback k x f) T)) (set_callback k x f) s.
Proof.
  intros H Hk [c Hx]. apply (safe_get_client _ _ x c); [done|].
  eapply callback_safe; [done|done|done|apply dom_alter_L| |].
  - intros y Hy. by apply lookup_alter_ne.
  - intros cn g g' Hg Hg' [L1 L2 L3 L4]. cbn in Hg'. rewrite lookup_alter_eq, Hg in Hg'.
    injection Hg' as <-. split; cbn; [done|..].
    + intros k' Hk'. case_decide; [done|by apply L2].
    + intros k' Hk'. case_decide; [by rewrite bool_decide_eq_true_2 by eauto|by apply L3].
    + by rewrite decide_False.
Qed.
Lemma log_callback_safe s T x f :
  inv 0 s T → is_Some (clients s !! x) → safe (λ _, False) (λ _ s', inv 0 s' T) (log_callback x f) s.
Proof.
  intros H [c Hx]. apply (safe_get_client _ _ x c); [done|].
  eapply callback_safe; [done|done|done|done|done|].
  intros cn g g' Hg Hg' [L1 L2 L3 L4]. rewrite Hg in Hg'. injection Hg' as <-. split; cbn; [done|..].
  - intros k Hk. rewrite decide_False by done. by apply L2.
  - intros k Hk. rewrite decide_False by done. by apply L3.
  - by rewrite decide_True.
Qed.

(** ** Every program *)

Lemma run_op_safe o s T :
  inv 0 s T → allowed s o → safe (λ s', inv 0 s' T) (λ _ s', inv 0 s' (spec o T)) (run_op o) s.
Proof.
  assert (∀ A P (Q : A → state → Prop) m s', safe (λ _, False) Q m s' → safe P Q m s') as Hf
    by (intros A P Q m s'; unfold safe; by destruct (m s') as [[] ?]).
  intros H Ho.
  destruct o; cbn in Ho; [| |destruct Ho; by apply construct_safe|by apply Hf, destruct_safe|destruct Ho;
    by apply Hf, set_callback_safe|by apply Hf, log_callback_safe|by apply action_safe].
  - apply safe_bind. eapply safe_mono; [apply (init_guard_safe _ 0); [done|lia|lia]|].
    intros _ s' [[H1 H2 Hb H3 H4 H5 H6] _]. unfold safe. cbn. constructor; cbn; try done; unfold users in *; cbn; lia.
  - apply safe_bind.
    eapply safe_mono; [apply (destroy_guard_safe _ (-1)) with (T := T); [done|unfold users; lia]|].
    intros _ s' [[H1 H2 Hb H3 H4 H5 H6] Hg]. unfold safe. cbn. constructor; cbn; try done; unfold users in *; cbn; lia.
Qed.
Lemma mqtt_run_inv s T : run s T → inv 0 s T.
Proof.
  induction 1 as [l Hi Hc|o s T s' _ H Ho Hr|o s T e s' _ H Ho Hr].
  - constructor; cbn; rewrite ?Hc; done.
  - pose proof (run_op_safe o s T H Ho) as Hs. unfold safe in Hs. by rewrite Hr in Hs.
  - pose proof (run_op_safe o s T H Ho) as Hs. unfold safe in Hs. by rewrite Hr in Hs.
Qed.
(** What comes of an event for which [h] was set last, if anything. *)
Definition response (h : option (option Z)) (k : event) (qos_count : Z) : outcome (option Z) :=
  match h with
  | None => Ok None
  | Some f =>
      if bool_decide (k = on_subscribe) && (10 <? qos_count) then Abort
      else match f with Some f => Ok (Some f) | None => Throw bad_function_call end
  end.
Lemma deliver_spec s T x c g k n :
  inv 0 s T → clients s !! x = Some c → T !! x = Some g → k ≠ on_log →
    deliver (mosq_ c) k n s = (response (g k) k n, s).
Proof.
  intros H Hx Hg Hk. destruct (inv_client 0 s T H x c g Hx Hg) as (cn & Hcn & [<- L2 L3 L4]).
  unfold deliver. rewrite bind_get, Hcn, L3 by done. specialize (L2 k Hk).
  destruct (g k) as [f|] eqn:Hgk; [|done]. rewrite bool_decide_eq_true_2 by eauto. cbn in L2.
  assert (Hc : (let! c := get_client (self cn) in
    match cbs c k with Some f => ret (Some f) | None => throw bad_function_call end) s =
    (match f with Some f => Ok (Some f) | None => Throw bad_function_call end, s)).
  { unfold bind, get_client. rewrite Hx, L2. by destruct f. }
  unfold response. rewrite Z.ltb_antisym. case_decide as Hks; [|by rewrite bool_decide_eq_false_2].
  rewrite bool_decide_eq_true_2 by done. by destruct (n <=? 10).
Qed.

(** C33: Whatever a program does with guards and clients, less than 2^31 at a time, also when calls
    of the library fail and exceptions are thrown: the library is initialised as long as there
    is a guard or a client and no longer; its connections are those of the clients that live,
    each passed to the callbacks of its own client; when it reports an event other than a log
    message, the function that was set last for it is called, where an empty function throws and
    a subscribe event with more than ten granted qualities of service aborts the program; and
    every operation returns, throws or aborts: none uses a connection that does not exist or a
    library that is not initialised. *)
Theorem mqtt_clients_sound s T :
  run s T →
  inited (lib_ s) = bool_decide (0 < users s) ∧
  (∀ m cn, conns (lib_ s) !! m = Some cn → ∃ c, clients s !! self cn = Some c ∧ mosq_ c = m) ∧
  (∀ x c, clients s !! x = Some c → ∃ cn, conns (lib_ s) !! mosq_ c = Some cn ∧ self cn = x) ∧
  (∀ x c g k n, clients s !! x = Some c → T !! x = Some g → k ≠ on_log →
     deliver (mosq_ c) k n s = (response (g k) k n, s)) ∧
  (∀ o, allowed s o → ∃ r s', run_op o s = (r, s') ∧ (r = Ok tt ∨ (∃ e, r = Throw e) ∨ r = Abort)).
Proof.
  intros H%mqtt_run_inv. split_and!.
  - rewrite (inv_init 0 s T H), (inv_count 0 s T H). apply bool_decide_ext. lia.
  - apply (inv_conn 0 s T H).
  - intros x c Hx. destruct (inv_table s T x c H Hx) as [g Hg].
    destruct (inv_client 0 s T H x c g Hx Hg) as (cn & Hcn & [? _ _ _]). eauto.
  - intros x c g k n. by apply deliver_spec.
  - intros o Ho. pose proof (run_op_safe o s T H Ho) as Hs. unfold safe in Hs.
    destruct (run_op o s) as [r s']. exists r, s'. split; [done|].
    destruct r as [[]|e| | |]; try done; eauto.
Qed.

(** A failed call of the library is reported with its code, or ends the program. *)
Lemma publish_reports x c topic payload q b s r l :
  clients s !! x = Some c → usable (Publish (mosq_ c) topic payload q b) (lib_ s) = true →
  call (Publish (mosq_ c) topic payload q b) (lib_ s) = (r, l) →
  fst (publish x topic payload q b s) =
    match err r with
    | SUCCESS => Ok (out r)
    | NOMEM | NO_CONN | PROTOCOL | PAYLOAD_SIZE | MALFORMED_UTF8 | OVERSIZE_PACKET => Throw
      (system_error (value (err r)))
    | _ => Abort
    end.
Proof.
  intros Hx Hu Hc. unfold publish, throwing, publish_ec, bind, get_client. rewrite Hx.
  unfold lib_call. rewrite Hu, Hc.
  assert (∀ k, k ≠ SUCCESS → (value k =? 0) = false) as Hv.
  { intros k Hk. apply Z.eqb_neq. by intros ?%value_success. }
  destruct (err r); cbn; rewrite ?Hv; done.
Qed.
End specs.

(** ** Witnesses *)

(** A library with at most one connection, in which all calls succeed. *)
#[local] Instance small_lib : Mosquitto := {|
  lib := bool * gmap Z conn;
  value c := if decide (c = SUCCESS) then 0 else 1;
  inited := fst;
  conns := snd;
  call q l :=
    let o := if bool_decide (l.2 !! 1 = None) then 1 else null in
    (Reply SUCCESS o ENOMEM,
     (match q with LibInit => true | LibCleanup => false | _ => l.1 end, effect q o l.2));
|}.
#[local] Instance small_lib_ok : MosquittoOk.
Proof.
  split; cbn.
  - intros c. by case_decide.
  - by intros [] r l' [= <- <-].
  - by intros [] r l' [= <- <-].
  - intros q [b C] r l' H1 H2 [= <- <-]. by destruct q.
  - by intros q [b C] r l' [= <- <-].
  - intros id clean x [b C] r l' [= <- <-]. cbn. case_bool_decide; eauto.
Qed.
Definition ex_start : state := State ((false, ∅) : lib) 0 0 ∅.
Definition ex1 : state := snd (run_op (Construct 7 "sensor" true) ex_start).
Definition ex2 : state := snd (run_op (SetCallback on_message 7 (Some 42)) ex1).
Definition ex_table : gmap Z (event → option (option Z)) :=
    spec (SetCallback on_message 7 (Some 42)) (spec (Construct 7 "sensor" true) ∅).

Lemma mqtt_clients_sound_witness :
  deliver 1 on_message 0 ex2 = (Ok (Some 42), ex2) ∧ inited (lib_ ex2) = true ∧
  (∃ c, clients ex2 !! 7 = Some c ∧ mosq_ c = 1) ∧ inited (lib_ (snd (run_op (Destruct 7) ex2))) = false.
Proof.
  assert (R2 : run ex2 ex_table).
  { apply (run_ok (SetCallback on_message 7 (Some 42)) ex1);
      [|split; [discriminate|vm_compute; eauto]|reflexivity].
    apply (run_ok (Construct 7 "sensor" true) ex_start); [|split; reflexivity|reflexivity].
    apply run_begin; reflexivity. }
  assert (R3 : run (snd (run_op (Destruct 7) ex2)) (spec (Destruct 7) ex_table)).
  { apply (run_ok (Destruct 7) ex2); [exact R2|vm_compute; eauto|reflexivity]. }
  assert (E : ∃ c, clients ex2 !! 7 = Some c ∧ mosq_ c = 1) by (eexists; split;
    [reflexivity|reflexivity]).
  split; [|split; [|split; [exact E|]]].
  - destruct E as (c & Hc & Hm). rewrite <-Hm.
    pose (g := λ k', if decide (k' = on_message) then Some (Some 42) else None).
    assert (Hg : ex_table !! 7 = Some g) by reflexivity.
    rewrite (proj1 (proj2 (proj2 (proj2 (mqtt_clients_sound ex2 ex_table R2)))) 7 c g on_message 0 Hc
      Hg); [reflexivity|discriminate].
  - rewrite (proj1 (mqtt_clients_sound ex2 ex_table R2)). reflexivity.
  - rewrite (proj1 (mqtt_clients_sound _ _ R3)). reflexivity.
Defined.

(** [log_callback] does not keep its argument: the first log message throws in the library. *)
Example mqtt_log_callback_lost :
  fst (deliver 1 on_log 0 (snd (log_callback 7 (Some 42) ex1))) = Throw bad_function_call.
Proof. reflexivity. Qed.

End Mqtt.
